(* ===== verification/_CoqProject ===== *)
-Q . S2P
Prelude.v
GoStrings.v
Json.v
Protocol.v
PipelineGraph.v
Pipeline.v
Bolt.v
Vfs.v
Sha256.v
Physical.v
BlobRoundTrip.v
Journal.v
Engine.v
Gc.v
Downloads.v
Prune.v
Divergences.v
Outbox.v
OutboxLaws.v
Delivery.v
PeerRegistry.v
RegistryLaws.v
Invites.v
Tasks.v
TaskStatus.v
TaskStatusLaws.v
ComputeEngine.v
PipelineRun.v
Escrow.v
TaskRun.v
ComputeSim.v
Bids.v
ComputeLaws.v
TaskFlow.v
TaskReturns.v
EngineRuns.v
EscrowLaws.v
Restart.v
ServiceHandlers.v
Relay.v
RelayLaws.v
Stun.v
StunLaws.v
Bandwidth.v
Quic.v
QuicLaws.v
Router.v
RouterLaws.v
Prewarm.v
Payload.v
UiSchema.v
UnixDispatch.v
PayloadLaws.v
UiSchemaLaws.v
Sync.v
SyncLaws.v
SyncCluster.v
DownloadJobs.v
SmartToken.v
NetAddr.v
SmartTokenLaws.v
Join.v
JoinLaws.v
PeerHandlers.v
PeerHandlersLaws.v
Certs.v
Rotation.v
RotationWorld.v
RotationLaws.v
RotationComplete.v
RotationRuns.v
ClusterJoin.v
ClusterJoinLaws.v
Services.v
OutboxMutations.v
ServicesLaws.v
Lifecycle.v
Catalog.v
CatalogLaws.v
PipelineCatalog.v
