(* ===== verification/Prelude.v ===== *)
(** * Proxyma: verification development

    Proxyma is a peer-to-peer store and compute mesh.  A node keeps a
    content-addressed blob store and a replicated index of files (the VFS),
    notifies its peers of changes through a durable outbox, fetches the blobs
    it subscribed to, runs services and pipelines for itself and for its peers,
    and journals the tasks.  This library models the Go code under [src/] and
    proves what its parts promise.

    ** Parts and files

    Foundations: [Prelude] (errors, a state-and-error monad [ST] with a Hoare
    logic, machine integers, sorting), [GoStrings] (the string library),
    [Json] (values, Go maps with nil, [utils/maps.go]), [Protocol]
    ([internal/protocol]: records and pure helpers), [Bolt] (bbolt as the class
    [Bolt] with the laws [BoltLaws] and an instance in memory; the helpers of
    [bolt_json.go]), [Sha256] (the digest as the class [Digest], with SHA-256
    itself as its instance).

    Pipelines: [PipelineGraph] and [Pipeline] ([pipeline_validate.go],
    [pipeline_migration.go]): the cycle check, admission, revisions, migration
    of running pipelines.

    Storage ([internal/storage]): [Vfs] is the index; [Physical] the blob store
    over a file system each of whose calls may fail, with [BlobRoundTrip] for
    the fault-free case; [Journal] the task journal; [Engine] the storage
    engine that combines them, with [Gc] (what the sweep may delete),
    [Downloads] (download intents), [Prune] (pruning of ended tasks, and the
    safety of all metadata operations together), [Divergences] (runs where the
    code does something else than its other parts assume).

    Server ([internal/server]): [Outbox] (staging and delivery of
    notifications), [OutboxLaws] (its protocol as a step relation) and
    [Delivery] (the operations refine the protocol); [PeerRegistry] and
    [RegistryLaws] ([registry.go], [sponsor.go], [peers.go]); [Invites]
    ([invite.go]); [Bids] (the choice of a node, [compute_bridge.go]);
    [Restart] (the start-up of tasks, [server.go]); [Relay] and [RelayLaws]
    (the table of routes, the certificate guard and the relay: [handlers.go],
    [mtls.go], [relay.go]); [Sync] (the sync of the index with the peers, peer
    calls and download workers: [vfs_sync.go], [peer_rpc.go]) with [SyncLaws],
    [SyncCluster] (the peers as storage engines behind links that lose calls)
    and [DownloadJobs]; [Bandwidth] ([bandwidth.go]); [Stun] and
    [StunLaws] ([internal/utils/stun.go]).

    Cluster: [NetAddr] ([net_utils.go]); [PeerHandlers] and
    [PeerHandlersLaws] (the endpoints about peers and the topology a node
    adopts: [peer_handlers.go], [peers.go], [server.go]); [Certs] (the CA,
    node certificates, their files and their verification: [p2p/tls.go],
    [file_atomic.go]); [Rotation] (the rotation of the CA:
    [tls_rotation.go], [cluster_handlers.go]) with [RotationWorld]
    (certificates as the code issues them, pinned CAs), [RotationLaws],
    [RotationComplete] and [RotationRuns]; [ClusterJoin] and
    [ClusterJoinLaws] (joins seen from the cluster, [cluster_handlers.go],
    [local_api.go]).

    Catalog: [Services] and [ServicesLaws] (the services file,
    [services_config.go]); [OutboxMutations] (changes that stage their
    announcement, [outbox.go]); [Catalog] (services, pipelines and their
    announcements: [service_catalog.go], [local_pipelines.go],
    [stream_handlers.go]) with [CatalogLaws] and [PipelineCatalog].

    Connections ([internal/p2p]): [Quic] (the session manager, inbound
    connections, dials and hole punches, [holepunch.go]) and [QuicLaws] (all
    their interleavings); [Router] (the phases of [RoundTrip], [router.go]) and
    [RouterLaws]; [Prewarm] (the table of routes and the sessions prepared for
    them, with the managers they run on); [SmartToken] (invitations,
    [invite.go]) and [Join] ([join.go]), with [SmartTokenLaws] and [JoinLaws].

    Life of a server: [Lifecycle] ([server.go], [nat.go]): owned work,
    listeners, download workers, the detection of the NAT with what it opens,
    and the shutdown.

    Surfaces: [Payload] and [PayloadLaws] (service inputs,
    [shared/uischema/payload.go]); [UiSchema] (the registry of actions,
    [uischema.go]) and [UnixDispatch] (the daemon's handlers,
    [unix_handlers.go]), with [UiSchemaLaws].

    Compute ([internal/compute]): [Tasks] (messages, parameters, the service
    registry), [TaskStatus] (the status table), [ComputeEngine] (state,
    journal, pipelines, results, shutdown), [PipelineRun] (binding, migration,
    submission), [Escrow] ([coordinator.go]), [TaskRun] (execution, routing,
    failover, and the server's dispatcher), [ServiceHandlers] ([handlers.go]).
    Their laws are in [TaskStatusLaws], [ComputeLaws] (what every call keeps),
    [TaskFlow] and [TaskReturns] (no task is lost), [EngineRuns] (all runs of
    an engine), [EscrowLaws] and [Restart]; [ComputeSim] is a scripted world
    for the examples.

    ** How the code is modelled

    A Go struct is a [Record] with its fields, a method that changes it is a
    computation of [ST] over it, and a returned [error] is a value of
    [Prelude.error].  In the compute files the error of [ST] is a run-time
    panic (a slice index, a nil map, a negative capacity) and the errors the
    functions return are values [option error].  A nil map is [None].
    Integers keep their 64 bits where they can overflow.  The order in which
    Go visits a map is an argument ([rangeOrder]) that may be any permutation.
    What the node asks of the outside is a class: [Bolt] for the database,
    [MutationHook] for the notifications the storage engine triggers (the
    outbox is its instance), [ComputeWorld] and [PeerWorld] for the cluster,
    the services and the clock, [TaskJournal] for the journal, which the
    storage engine instantiates in [Restart], [RotateNet] for the peers a
    rotation meets, which a cluster of nodes instantiates.  Each class has an
    instance, so its laws can hold.  A disk of certificates or of services
    takes the outcome of each system call (done, failed, or done and then
    reported as failed) from a script.  A signature verifies exactly under the
    key that made it.

    Operations that hold a mutex from begin to end are one step.  The outbox,
    whose operations interleave between transactions, is a step relation
    ([OutboxLaws]) under which every interleaving is covered.  A worker's run
    of a task is one step of [EngineRuns]; the status table is only changed by
    the atomic [table_step]s there, so what is proved of them also holds when
    runs interleave.  The relay's handlers block on channels: each is cut into
    its atomic steps, and [RelayLaws.relay_step] interleaves any number of
    them.  So are inbound connections, dials and hole punches
    ([QuicLaws.quic_step]), and [Prewarm.net_step] interleaves them, on any
    number of managers, with the router.  The network a request meets is the
    class [RouteWorld]; what the router relies on is [RouteLaws], which holds
    in every world whose sessions are the session manager's own
    ([QuicBacked]).  A join records each exchange with the network, redirects
    included ([Join.clientDo]).  The peers a sync meets are the
    class [PeerNet] with the laws [ReplicaNet], which a cluster of storage
    engines discharges; a sync runs by itself, without other changes of the
    nodes in between.  Joins are cut at their calls of the invite manager and
    of the disk ([ClusterJoin.join_step]), the reload of the services at each
    registration ([Catalog.reload_step]), and all goroutines of a server at
    their locks, wait groups and checks of the lifetime ([Lifecycle.life_step]).

    ** What is proved

    - Blobs: what is read has the digest it was asked by, whatever faults
      happened and outside changes that alter a file's size or time; an authentic file is only removed by its own
      deletion; saving and reading back round-trips; no sequence of metadata
      operations deletes a blob that is in use or forgets one that is not.
    - Index: replicas converge; a write never goes back; a sync brings both
      nodes to the same files, and two rounds of a hub all the peers it reached.
    - Downloads and journal: intents are durable and only matching content is
      accepted; a download job touches only its own revision and leaves it
      stored, free for another attempt, or given up for corrupt content; an
      ended task keeps its status; blob extraction finds exactly the digests
      mentioned.
    - Outbox: the newest notification is never lost under any interleaving,
      generations increase, the operations refine the protocol, a flush
      leaves exactly what was refused, keys are injective.
    - Pipelines: the cycle check ends and is exact, admission accepts exactly
      the well-formed schemas, migrations are safe, revisions only go forward.
    - Tasks: submission is atomic; processing a task returns and leaves it
      queued, handed over, in escrow or settled; resumption never loses a
      task and escrow survives a restart; the engine's memory stays within
      its limits; a failure is final; callbacks and submissions act only on
      behalf of nodes that may; the choice of a node is the best offer and
      independent of the order of answers.
    - Peers: registered addresses are distinct, registration needs an
      announcement, the sponsor choice is the best candidate, an invitation is
      accepted once, its token is read as it was written, and its secret goes
      only to HTTPS addresses it names, pinned to its CA hash, and where the
      relay redirects the request; to nobody once a node accepted it.
    - Cluster: no more joins get a certificate than there were invitations,
      each for the ID and the key of its request; a node changes its
      certificates only for a sponsor it was told of by a node it announced
      itself to; a rotation ends in one of the listed ways whatever fails, and
      when nothing fails any two nodes trust each other afterwards and nobody
      trusts the old CA; a pinned connection leads to a host the pinned CA
      signed.
    - Catalog: the services file keeps only validated services, validation is
      exact and idempotent, a reload offers the file in any order of the map;
      after every change of services or pipelines, successful or not, the
      outbox tells every other peer what is true of the node; pipelines in
      memory are the ones on disk and survive a restart, and a node that
      acknowledges an announcement has the announced revision.
    - Network: under any interleaving a relayed answer comes from the peer
      that was asked and a relayed request from who it names, queues are
      bounded and no waiter is left behind; an uninterrupted relayed request
      comes back with what its target's handlers wrote; no STUN
      response makes the parser panic, and addresses are read back; the
      bandwidth window is exact.
    - Connections: under any interleaving a session is an open connection of
      its peer, verified under the current certificates, and a removed peer
      has none on the managers it was removed from; a response the router returns is the peer's own or the
      sponsor's answer to the request; a peer with an address that answers is
      reached.
    - Life of a server: under any interleaving the storage engine is closed
      only when nothing runs that could use it, a completed shutdown leaves
      nothing open and nothing running, and every schedule completes it in a
      bounded number of steps.
    - Surfaces: the registry and the daemon's handlers agree; arguments
      prepared by a surface pass the daemon unchanged; whatever a client
      sends, the server is called with arguments it can rely on; inputs that
      are integers of less than 53 bits keep their value.
    - Where the code departs from this, a theorem runs it: a remote entry that
      deletes a foreign file, a deletion that wraps around, a download that
      drops a task's blob, an ignored announcement that evicts a peer, inputs
      that crash a worker or every restart, a failover whose result is
      refused, a hole punch that crashes a request, a body that ends a request
      before the addresses that would take it, a peer taken for the node
      itself, inputs that are lost or altered, a full queue that makes a peer
      count as offline, a handshake that marks another peer offline, a partial
      rotation that splits the cluster, a relayed request that blocks every
      rotation, a failed rotation that leaves a CA key without its
      certificate, a reload that brings a removed service back, a services
      file that makes an addition panic, a relay that has the secret of an
      invitation sent on, a new session manager that admits a removed peer.

    ** Bounds

    The loops are structural, over a list or a finite map, but for three:
    Kahn's loop takes as many rounds as steps, which [PipelineHasCycle_correct]
    shows to be enough, the STUN parser's as many as there are bytes of
    attributes, which [parseSTUNResponse_safe] shows to be enough, and the
    retries of [SubmitTask] by failover are the three of the source.  The
    client of a join follows the ten requests [net/http] allows.  Times
    are integers in nanoseconds.

    ** Not modelled

    Sockets, the TLS handshake itself, ping timers, the port mapper's talk to
    the gateway and TURN ([internal/p2p]), the HTTP server's own requests,
    streaming services and the built-in handlers, telemetry, logging, the
    coverage tools, the command line and the mobile bindings: input, output and
    glue, or goroutines around the modelled operations.  The projection of
    table rows for the surfaces ([project.go]) is formatting.  The hash of a
    pipeline schema, [reflect.DeepEqual], URL parsing, JSON printing of service
    inputs and the formatting of values are parameters. *)
From stdpp Require Export ssreflect base tactics option gmap strings sorting numbers.
From stdpp Require Export list.

(** ** Errors *)

(** Go errors as the code builds them: the package-level sentinels (the two of
    [compute.go] that share a name with ones of [task_journal.go] are
    [ErrUnknownTask] and [ErrTaskDone]), a run-time panic, a
    message ([fmt.Errorf] without [%w], kept as its constant format text), a
    wrapped error ([fmt.Errorf] with [%w]) and a join ([errors.Join]). *)
Inductive sentinel :=
  | ErrBlobDiscarded
  | ErrDownloadQueueFull
  | ErrBlobIntegrity
  | ErrBlobCorrupt
  | ErrNotExist
  | ErrEmptyTaskID
  | ErrTaskActive
  | ErrTaskTerminal
  | ErrTaskNotFound
  | ErrEmptyPipelineID
  | ErrClosed
  | ErrUnknownTask
  | ErrTaskDone
  | ErrTaskDuplicate
  | ErrTaskProducer
  | ErrTaskEscrowed
  | ErrServiceDuplicate
  | ErrPeerSkipped
  | ErrNotCAAuthority.

Inductive error :=
  | ESentinel (s : sentinel)
  | EPanic (text : string)
  | EFileNotFound (name : string)
  | EMsg (text : string)
  | EWrap (text : string) (inner : error)
  | EJoin (errs : list error).

#[export] Instance sentinel_eq_dec : EqDecision sentinel.
Proof. solve_decision. Defined.

(** [errors.Is] against a sentinel: descends through wraps and joins. *)
Fixpoint errors_Is (e : error) (target : sentinel) : bool :=
  match e with
  | ESentinel s => bool_decide (s = target)
  | EPanic _ | EFileNotFound _ | EMsg _ => false
  | EWrap _ inner => errors_Is inner target
  | EJoin errs =>
      (fix any (l : list error) : bool :=
         match l with
         | [] => false
         | x :: l' => errors_Is x target || any l'
         end) errs
  end.

Definition sentinel_text (s : sentinel) : string :=
  match s with
  | ErrBlobDiscarded => "blob discarded"
  | ErrDownloadQueueFull => "download queue full"
  | ErrBlobIntegrity => "blob integrity"
  | ErrBlobCorrupt => "blob corrupt"
  | ErrNotExist => "file does not exist"
  | ErrEmptyTaskID => "task ID cannot be empty"
  | ErrTaskActive => "cannot prune intermediate data for active task"
  | ErrTaskTerminal => "task is in terminal state"
  | ErrTaskNotFound | ErrUnknownTask => "task not found"
  | ErrEmptyPipelineID => "pipeline ID cannot be empty"
  | ErrClosed => "compute engine closed"
  | ErrTaskDone => "task already terminal"
  | ErrTaskDuplicate => "duplicate task ID"
  | ErrTaskProducer => "unexpected task producer"
  | ErrTaskEscrowed => "task escalated to escrow"
  | ErrServiceDuplicate => "service is already registered"
  | ErrPeerSkipped => "peer skipped"
  | ErrNotCAAuthority => "only the CA authority node can mint invites"
  end.

(** [err.Error()], over the constant parts of the formats. *)
Fixpoint error_text (e : error) : string :=
  match e with
  | ESentinel s => sentinel_text s
  | EPanic t | EMsg t => t
  | EFileNotFound name => "file not found: " +:+ name
  | EWrap t inner => t +:+ ": " +:+ error_text inner
  | EJoin errs =>
      (fix lines (l : list error) : string :=
         match l with
         | [] => ""
         | [x] => error_text x
         | x :: l' => error_text x +:+ " " +:+ lines l'
         end) errs
  end.

Definition is_panic (e : error) : bool :=
  match e with EPanic _ => true | _ => false end.

(** [errors.Join]: nil operands are dropped, and the join of none is nil. *)
Definition errors_Join (errs : list (option error)) : option error :=
  match omap id errs with
  | [] => None
  | l => Some (EJoin l)
  end.

(** ** The error monad *)

Inductive res (A : Type) : Type :=
  | Ok (a : A)
  | Err (e : error).
Arguments Ok {A} a.
Arguments Err {A} e.

#[export] Instance res_ret : MRet res := λ A a, Ok a.
#[export] Instance res_bind : MBind res := λ A B f m,
  match m with Ok a => f a | Err e => Err e end.
#[export] Instance res_fmap : FMap res := λ A B f m,
  match m with Ok a => Ok (f a) | Err e => Err e end.

Definition res_of_opt_err (o : option error) : res unit :=
  match o with None => Ok () | Some e => Err e end.

Definition is_ok {A} (r : res A) : bool :=
  match r with Ok _ => true | Err _ => false end.

(** A run with its result computed and its final state left alone. *)
Lemma run_result {A B} (p : A * B) (r : A) : p.1 = r → p = (r, p.2).
Proof. by destruct p; intros <-. Qed.

(** ** System calls *)

(** A call succeeds, fails without an effect, or fails after its effect (a
    directory that could not be synced after the rename, a truncated file). *)
Inductive outcome := FsOk | FsFail | FsLate.

(** ** Machine integers *)

(** Go's [int] and [int64]: two's complement, 64 bits. *)
Definition wrap64 (z : Z) : Z := ((z + 2 ^ 63) mod 2 ^ 64 - 2 ^ 63)%Z.

Definition max_int64 : Z := (2 ^ 63 - 1)%Z.
Definition min_int64 : Z := (- 2 ^ 63)%Z.

Definition is_int64 (z : Z) : Prop := (min_int64 ≤ z ≤ max_int64)%Z.

Lemma wrap64_id z : is_int64 z → wrap64 z = z.
Proof.
  unfold is_int64, wrap64, min_int64, max_int64. intros H.
  rw Z.mod_small; lia.
Qed.

Lemma wrap64_is_int64 z : is_int64 (wrap64 z).
Proof.
  unfold is_int64, wrap64, min_int64, max_int64.
  pose proof (Z.mod_pos_bound (z + 2 ^ 63) (2 ^ 64)). lia.
Qed.

(** ** Lists *)

(** Sorting strings as [sort.Strings] does. *)
Definition sort_strings (l : list string) : list string := merge_sort String.le l.

Lemma sort_strings_perm l : sort_strings l ≡ₚ l.
Proof. apply merge_sort_Permutation. Qed.

Lemma sort_strings_sorted l : Sorted String.le (sort_strings l).
Proof. apply Sorted_merge_sort, _. Qed.

(** ** State and errors *)

(** Code that threads a state and may return an error.  The state survives
    an error: Go keeps the effects made before a failing return. *)
Definition ST (S A : Type) : Type := S → res A * S.

#[export] Instance st_ret {S} : MRet (ST S) := λ A a s, (Ok a, s).
#[export] Instance st_bind {S} : MBind (ST S) := λ A B f m s,
  match m s with
  | (Ok a, s') => f a s'
  | (Err e, s') => (Err e, s')
  end.

Definition fail {S A} (e : error) : ST S A := λ s, (Err e, s).
Definition gets {S A} (f : S → A) : ST S A := λ s, (Ok (f s), s).
Definition modify {S} (f : S → S) : ST S unit := λ s, (Ok (), f s).

(** Running a call and keeping its error as a value, as [err := f()] does. *)
Definition attempt {S A} (m : ST S A) : ST S (res A) := λ s,
  let '(r, s') := m s in (Ok r, s').

(** A deferred call: runs after [m] whatever its outcome, result ignored. *)
Definition deferred {S A B} (m : ST S A) (d : ST S B) : ST S A := λ s,
  let '(r, s') := m s in (r, (d s').2).

Definition of_res {S A} (r : res A) : ST S A := λ s, (r, s).

(** Partial correctness of a stateful call, on success and on error. *)
Definition hoare {S A} (P : S → Prop) (m : ST S A) (Q : res A → S → Prop) : Prop :=
  ∀ s r s', P s → m s = (r, s') → Q r s'.

Section hoare_rules.
Context {S : Type}.
Implicit Types (P I : S → Prop).

Lemma hoare_ret {A} P (a : A) (Q : res A → S → Prop) :
  (∀ s, P s → Q (Ok a) s) → hoare P (mret a) Q.
Proof. intros HQ s r s' HP [= <- <-]. auto. Qed.

Lemma hoare_fail {A} P e (Q : res A → S → Prop) :
  (∀ s, P s → Q (Err e) s) → hoare P (fail e) Q.
Proof. intros HQ s r s' HP [= <- <-]. auto. Qed.

Lemma hoare_gets {A} P (f : S → A) (Q : res A → S → Prop) :
  (∀ s, P s → Q (Ok (f s)) s) → hoare P (gets f) Q.
Proof. intros HQ s r s' HP [= <- <-]. auto. Qed.

Lemma hoare_modify P f (Q : res unit → S → Prop) :
  (∀ s, P s → Q (Ok ()) (f s)) → hoare P (modify f) Q.
Proof. intros HQ s r s' HP [= <- <-]. auto. Qed.

Lemma hoare_of_res {A} P (x : res A) (Q : res A → S → Prop) :
  (∀ s, P s → Q x s) → hoare P (of_res x) Q.
Proof. intros HQ s r s' HP [= <- <-]. auto. Qed.

Lemma hoare_bind {A B} P (m : ST S A) (f : A → ST S B) (R : res A → S → Prop) (Q : res B → S → Prop) :
  hoare P m R → (∀ a, hoare (R (Ok a)) (f a) Q) → (∀ e s, R (Err e) s → Q (Err e) s) →
  hoare P (m ≫= f) Q.
Proof.
  intros Hm Hf He s r s' HP. unfold mbind, st_bind.
  destruct (m s) as [[a|e] s1] eqn:Hs; [|intros [= <- <-]; by apply He, (Hm s)].
  intros Hrun. eapply Hf; [|exact Hrun]. by apply (Hm s).
Qed.

Lemma hoare_attempt {A} P (m : ST S A) (R : res A → S → Prop) (Q : res (res A) → S → Prop) :
  hoare P m R → (∀ r s, R r s → Q (Ok r) s) → hoare P (attempt m) Q.
Proof.
  intros Hm HQ s r s' HP. unfold attempt. destruct (m s) as [r1 s1] eqn:Hs.
  intros [= <- <-]. by apply HQ, (Hm s).
Qed.

Lemma hoare_try {A B} P (m : ST S A) (k : res A → ST S B) (R : res A → S → Prop) (Q : res B → S → Prop) :
  hoare P m R → (∀ v, hoare (R v) (k v) Q) → hoare P (attempt m ≫= k) Q.
Proof.
  intros Hm Hk s r s' HP. unfold mbind, st_bind, attempt. destruct (m s) as [v s1] eqn:Hs.
  intros Hrun. eapply Hk; [|exact Hrun]. by apply (Hm s).
Qed.

Lemma hoare_deferred {A B} P (m : ST S A) (d : ST S B) (R Q : res A → S → Prop) :
  hoare P m R → (∀ r, hoare (R r) d (λ _, Q r)) → hoare P (deferred m d) Q.
Proof.
  intros Hm Hd s r s' HP. unfold deferred. destruct (m s) as [r1 s1] eqn:Hs.
  intros [= <- <-]. destruct (d s1) as [r2 s2] eqn:Hs2. eapply (Hd r1); [|exact Hs2]. by apply (Hm s).
Qed.

Lemma hoare_conseq {A} P P' (m : ST S A) (Q Q' : res A → S → Prop) :
  hoare P' m Q' → (∀ s, P s → P' s) → (∀ r s, Q' r s → Q r s) → hoare P m Q.
Proof. intros Hm HP HQ s r s' ? ?. apply HQ. eapply Hm; [by apply HP|done]. Qed.

Lemma hoare_pre {A} P P' (m : ST S A) (Q : res A → S → Prop) :
  hoare P' m Q → (∀ s, P s → P' s) → hoare P m Q.
Proof. intros Hm HP. by eapply hoare_conseq. Qed.

Lemma hoare_pure {A} P (φ : Prop) (m : ST S A) (Q : res A → S → Prop) :
  (φ → hoare P m Q) → hoare (λ s, P s ∧ φ) m Q.
Proof. intros Hm s r s' [HP Hφ] Hrun. by eapply Hm. Qed.

Lemma hoare_fact {A} P (φ : Prop) (m : ST S A) (Q : res A → S → Prop) :
  (φ → hoare P m Q) → hoare (λ s, φ ∧ P s) m Q.
Proof. intros Hm s r s' [Hφ HP] Hrun. by eapply Hm. Qed.

Lemma hoare_and {A} P P' (m : ST S A) (Q Q' : res A → S → Prop) :
  hoare P m Q → hoare P' m Q' → hoare (λ s, P s ∧ P' s) m (λ r s, Q r s ∧ Q' r s).
Proof. intros Hm Hm' s r s' [HP HP'] Hrun. split; [by eapply Hm|by eapply Hm']. Qed.

(** Invariants: every call keeps [I], on success and on error. *)
Definition preserves {A} I (m : ST S A) : Prop := hoare I m (λ _, I).

Lemma preserves_ret {A} I (a : A) : preserves I (mret a).
Proof. by apply hoare_ret. Qed.
Lemma preserves_fail {A} I e : preserves I (fail (A := A) e).
Proof. by apply hoare_fail. Qed.
Lemma preserves_gets {A} I (f : S → A) : preserves I (gets f).
Proof. by apply hoare_gets. Qed.
Lemma preserves_modify I f : (∀ s, I s → I (f s)) → preserves I (modify f).
Proof. intros. by apply hoare_modify. Qed.
Lemma preserves_of_res {A} I (x : res A) : preserves I (of_res x).
Proof. by apply hoare_of_res. Qed.
Lemma preserves_bind {A B} I (m : ST S A) (f : A → ST S B) :
  preserves I m → (∀ a, preserves I (f a)) → preserves I (m ≫= f).
Proof. intros Hm Hf. by eapply hoare_bind. Qed.
Lemma preserves_attempt {A} I (m : ST S A) : preserves I m → preserves I (attempt m).
Proof. intros Hm. by eapply hoare_attempt. Qed.
Lemma preserves_deferred {A B} I (m : ST S A) (d : ST S B) :
  preserves I m → preserves I d → preserves I (deferred m d).
Proof. intros Hm Hd. eapply hoare_deferred; [done|]. intros r. apply Hd. Qed.
Lemma preserves_and {A} I I' (m : ST S A) :
  preserves I m → preserves I' m → preserves (λ s, I s ∧ I' s) m.
Proof. apply hoare_and. Qed.
End hoare_rules.

(** Calls that only return errors. *)
Definition never_ok {S A} (m : ST S A) : Prop := ∀ s a s', m s = (Ok a, s') → False.

Lemma never_ok_fail {S A} e : never_ok (fail (S := S) (A := A) e).
Proof. done. Qed.

Lemma never_ok_bind {S A B} (m : ST S A) (f : A → ST S B) :
  (∀ a, never_ok (f a)) → never_ok (m ≫= f).
Proof.
  intros Hf s b s'. unfold mbind, st_bind. destruct (m s) as [[a|e] s1]; [apply Hf|done].
Qed.

Create HintDb preserves discriminated.
#[export] Hint Resolve preserves_ret preserves_fail preserves_gets preserves_of_res : preserves.
#[export] Hint Constants Opaque : preserves.

(** Walks the structure of a call: binds, attempts, defers, then the case
    analyses of its continuation. *)
Ltac solve_preserves :=
  repeat first
    [ progress intros
    | match goal with
      | |- hoare ?I ?m (λ _, ?I) => change (preserves I m)
      | |- preserves _ (mret _) => apply preserves_ret
      | |- preserves _ (fail _) => apply preserves_fail
      | |- preserves _ (gets _) => apply preserves_gets
      | |- preserves _ (of_res _) => apply preserves_of_res
      | |- preserves _ (_ ≫= _) => apply preserves_bind
      | |- preserves _ (attempt _) => apply preserves_attempt
      | |- preserves _ (deferred _ _) => apply preserves_deferred
      | |- preserves _ (match ?x with _ => _ end) => destruct x
      | |- preserves _ (if ?b then _ else _) => destruct b
      | |- preserves _ (let '(_, _) := ?p in _) => destruct p
      end
    | solve [eauto with preserves] ].
