(* ===== verification/GoStrings.v ===== *)
(** * The Go string library the code uses

    Go strings are byte strings; they are modelled by [string], one [ascii]
    per byte.  This file holds the functions of [strings], [strconv],
    [path/filepath] and [bytes] the modelled sources call, and their laws. *)
From Stdlib Require Import Ascii String.
From S2P Require Import Prelude.
Local Open Scope stdpp_scope.

(** ** Slicing *)

Fixpoint str_drop (n : nat) (s : string) : string :=
  match n, s with
  | S n', String _ s' => str_drop n' s'
  | _, _ => s
  end.

Fixpoint str_take (n : nat) (s : string) : string :=
  match n, s with
  | S n', String c s' => String c (str_take n' s')
  | _, _ => EmptyString
  end.

Abbreviation str_len := String.length.

(** ** [strings] *)

Definition HasPrefix (s p : string) : bool := String.prefix p s.

(** [len(s) >= len(suffix) && s[len(s)-len(suffix):] == suffix]. *)
Definition HasSuffix (s suf : string) : bool :=
  (str_len suf <=? str_len s)%nat && bool_decide (str_drop (str_len s - str_len suf) s = suf).

Definition TrimPrefix (s p : string) : string :=
  if HasPrefix s p then str_drop (str_len p) s else s.

Definition TrimSuffix (s suf : string) : string :=
  if HasSuffix s suf then str_take (str_len s - str_len suf) s else s.

Definition CutSuffix (s suf : string) : string * bool :=
  if HasSuffix s suf then (str_take (str_len s - str_len suf) s, true) else (s, false).

Fixpoint Contains (s sub : string) : bool :=
  HasPrefix s sub ||
  match s with
  | EmptyString => false
  | String _ s' => Contains s' sub
  end.

Definition byte_of (c : ascii) : Z := Z.of_nat (nat_of_ascii c).

Definition in_byte_range (lo hi : Z) (c : ascii) : bool :=
  (lo <=? byte_of c)%Z && (byte_of c <=? hi)%Z.

(** [strings.ToLower] on ASCII letters; other bytes are unchanged. *)
Definition lower_ascii (c : ascii) : ascii :=
  if in_byte_range 65 90 c then ascii_of_nat (nat_of_ascii c + 32) else c.

Fixpoint ToLower (s : string) : string :=
  match s with
  | EmptyString => EmptyString
  | String c s' => String (lower_ascii c) (ToLower s')
  end.

(** [unicode.IsSpace] on the UTF-8 encoding at the head of a byte list: how
    many bytes of white space start it (0 when it does not start with one). *)
Definition space_width (l : list Z) : nat :=
  match l with
  | a :: rest =>
      if (9 <=? a)%Z && (a <=? 13)%Z || (a =? 32)%Z then 1
      else match rest with
      | b :: rest' =>
          if (a =? 194)%Z && ((b =? 133)%Z || (b =? 160)%Z) then 2
          else match rest' with
          | c :: _ =>
              if (a =? 225)%Z && (b =? 154)%Z && (c =? 128)%Z
                 || (a =? 226)%Z && (b =? 128)%Z &&
                    ((128 <=? c)%Z && (c <=? 138)%Z
                     || (c =? 168)%Z || (c =? 169)%Z || (c =? 175)%Z)
                 || (a =? 226)%Z && (b =? 129)%Z && (c =? 159)%Z
                 || (a =? 227)%Z && (b =? 128)%Z && (c =? 128)%Z
              then 3 else 0
          | [] => 0
          end
      | [] => 0
      end
  | [] => 0
  end.

Fixpoint trim_left (fuel : nat) (l : list ascii) : list ascii :=
  match fuel with
  | 0 => l
  | S fuel' =>
      match space_width (byte_of <$> l) with
      | 0 => l
      | n => trim_left fuel' (drop n l)
      end
  end.

(** The same from the right, on the reversed bytes: an ASCII space, or the
    last two or three bytes spelling a wider one. *)
Definition space_width_rev (r : list Z) : nat :=
  match r with
  | a :: _ =>
      if (9 <=? a)%Z && (a <=? 13)%Z || (a =? 32)%Z then 1
      else if (space_width (reverse (take 2 r)) =? 2)%nat then 2
      else if (space_width (reverse (take 3 r)) =? 3)%nat then 3
      else 0
  | [] => 0
  end.

Fixpoint trim_right_rev (fuel : nat) (r : list ascii) : list ascii :=
  match fuel with
  | 0 => r
  | S fuel' =>
      match space_width_rev (byte_of <$> r) with
      | 0 => r
      | n => trim_right_rev fuel' (drop n r)
      end
  end.

(** [strings.TrimSpace].  Each round removes at least one byte, so the
    length of the input is enough fuel. *)
Definition TrimSpace (s : string) : string :=
  let l := trim_left (str_len s) (list_ascii_of_string s) in
  string_of_list_ascii (reverse (trim_right_rev (length l) (reverse l))).

(** ** [strconv] *)

Definition digit_of (d : N) : ascii := ascii_of_N (48 + d).

(** Decimal digits, most significant first; [fuel] bounds their number. *)
Fixpoint dec_digits (fuel : nat) (n : N) (acc : string) : string :=
  match fuel with
  | 0 => acc
  | S fuel' =>
      let acc' := String (digit_of (n mod 10)) acc in
      if (n / 10 =? 0)%N then acc' else dec_digits fuel' (n / 10)%N acc'
  end.

(** [strconv.Itoa] on a non-negative value: a number has no more decimal
    digits than binary ones. *)
Definition itoa (n : N) : string := dec_digits (S (N.to_nat (N.log2 n))) n "".

(** [%020d]: exactly the [w] low decimal digits, zero padded. *)
Fixpoint pad_dec (w : nat) (n : N) (acc : string) : string :=
  match w with
  | 0 => acc
  | S w' => pad_dec w' (n / 10)%N (String (digit_of (n mod 10)) acc)
  end.

Definition digit_val (c : ascii) : option N :=
  if in_byte_range 48 57 c then Some (N_of_ascii c - 48)%N else None.

Fixpoint parse_digits (s : string) (acc : N) : option N :=
  match s with
  | EmptyString => Some acc
  | String c s' =>
      match digit_val c with
      | Some d => parse_digits s' (acc * 10 + d)%N
      | None => None
      end
  end.

Definition max_uint64 : N := (2 ^ 64 - 1)%N.

(** [strconv.ParseUint(s, 10, 64)]: empty, non-digit and out-of-range input
    is an error. *)
Definition ParseUint (s : string) : option N :=
  match s with
  | EmptyString => None
  | _ => match parse_digits s 0 with
         | Some n => if (n <=? max_uint64)%N then Some n else None
         | None => None
         end
  end.

(** ** [path/filepath] (Unix) *)

Fixpoint strip_trailing_slashes_rev (r : list ascii) : list ascii :=
  match r with
  | "/"%char :: r' => strip_trailing_slashes_rev r'
  | _ => r
  end.

Fixpoint take_until_slash (r : list ascii) : list ascii :=
  match r with
  | [] => []
  | "/"%char :: _ => []
  | c :: r' => c :: take_until_slash r'
  end.

(** [filepath.Base]: the last element, ["."] for an empty path and ["/"] for
    a path of slashes only. *)
Definition filepath_Base (p : string) : string :=
  match p with
  | EmptyString => "."
  | _ =>
      match reverse (take_until_slash (strip_trailing_slashes_rev
                       (reverse (list_ascii_of_string p)))) with
      | [] => "/"
      | l => string_of_list_ascii l
      end
  end.

(** ** Laws of slicing and affixes *)

Lemma str_app_nil_l (s : string) : "" +:+ s = s.
Proof. reflexivity. Qed.

Lemma str_app_cons c (s t : string) : String c s +:+ t = String c (s +:+ t).
Proof. reflexivity. Qed.

Lemma str_app_nil_r (s : string) : s +:+ "" = s.
Proof. induction s as [|c s IH]; [done|]. by rw str_app_cons IH. Qed.

Lemma str_app_assoc (s t u : string) : (s +:+ t) +:+ u = s +:+ (t +:+ u).
Proof. induction s as [|c s IH]; [done|]. by rw !str_app_cons IH. Qed.

Lemma str_len_app (s t : string) : str_len (s +:+ t) = (str_len s + str_len t)%nat.
Proof. induction s as [|c s IH]; [done|]. rw str_app_cons /=. by rw IH. Qed.

Lemma length_list_ascii s : length (list_ascii_of_string s) = str_len s.
Proof. induction s; simpl; congruence. Qed.

Lemma str_app_inj_l (s t u : string) : s +:+ t = s +:+ u → t = u.
Proof.
  induction s as [|c s IH]; [done|].
  rw !str_app_cons. intros [=]. by apply IH.
Qed.

Lemma str_app_inj_len (s s' t t' : string) :
  str_len s = str_len s' → s +:+ t = s' +:+ t' → s = s' ∧ t = t'.
Proof.
  revert s'. induction s as [|c s IH]; intros [|c' s'] Hlen; try done.
  rw !str_app_cons. intros [= -> H]. simpl in Hlen.
  destruct (IH s') as [-> ->]; auto.
Qed.

Lemma str_app_inj_r (s s' t : string) : s +:+ t = s' +:+ t → s = s'.
Proof.
  intros H. assert (str_len s = str_len s') as Hlen.
  { apply (f_equal str_len) in H. rw !str_len_app in H. lia. }
  by destruct (str_app_inj_len s s' t t Hlen H).
Qed.

Lemma str_drop_app (s t : string) : str_drop (str_len s) (s +:+ t) = t.
Proof. induction s as [|c s IH]; [by destruct t|]. by rw str_app_cons /= IH. Qed.

Lemma str_take_app (s t : string) : str_take (str_len s) (s +:+ t) = s.
Proof. induction s as [|c s IH]; [by destruct t|]. by rw str_app_cons /= IH. Qed.

Lemma str_take_drop n (s : string) : str_take n s +:+ str_drop n s = s.
Proof.
  revert s. induction n as [|n IH]; intros s; [by destruct s|].
  destruct s as [|c s]; [done|]. simpl. by rw str_app_cons IH.
Qed.

Lemma HasPrefix_spec (s p : string) : HasPrefix s p = true ↔ ∃ t, s = p +:+ t.
Proof.
  unfold HasPrefix. revert s. induction p as [|c p IH]; intros s; simpl.
  - split; [by exists s|]. by destruct s.
  - destruct s as [|c' s].
    { split; [done|]. by intros [t [=]]. }
    simpl. destruct (ascii_dec c c') as [->|Hne].
    + rw IH. split; intros [t Ht]; exists t.
      * by rw Ht.
      * rw str_app_cons in Ht. by injection Ht.
    + split; [done|]. intros [t Ht]. rw str_app_cons in Ht. by injection Ht.
Qed.

Lemma HasPrefix_app (p t : string) : HasPrefix (p +:+ t) p = true.
Proof. apply HasPrefix_spec. by exists t. Qed.

Lemma TrimPrefix_app (p t : string) : TrimPrefix (p +:+ t) p = t.
Proof. unfold TrimPrefix. rw HasPrefix_app. apply str_drop_app. Qed.

Lemma HasSuffix_spec (s suf : string) : HasSuffix s suf = true ↔ ∃ t, s = t +:+ suf.
Proof.
  unfold HasSuffix. rw andb_true_iff Nat.leb_le bool_decide_eq_true. split.
  - intros [Hle Hd]. exists (str_take (str_len s - str_len suf) s).
    rw -{1}(str_take_drop (str_len s - str_len suf) s). by rw Hd.
  - intros [t ->]. rw str_len_app.
    replace (str_len t + str_len suf - str_len suf)%nat with (str_len t) by lia.
    rw str_drop_app. split; [lia|done].
Qed.

Lemma HasSuffix_app (t suf : string) : HasSuffix (t +:+ suf) suf = true.
Proof. apply HasSuffix_spec. by exists t. Qed.

Lemma TrimSuffix_app (t suf : string) : TrimSuffix (t +:+ suf) suf = t.
Proof.
  unfold TrimSuffix. rw HasSuffix_app str_len_app.
  replace (str_len t + str_len suf - str_len suf)%nat with (str_len t) by lia.
  apply str_take_app.
Qed.

Lemma CutSuffix_spec (s suf p : string) : CutSuffix s suf = (p, true) ↔ s = p +:+ suf.
Proof.
  unfold CutSuffix. split.
  - destruct (HasSuffix s suf) eqn:E; [|done]. intros [= <-].
    apply HasSuffix_spec in E as [t ->]. rw str_len_app.
    replace (str_len t + str_len suf - str_len suf)%nat with (str_len t) by lia.
    by rw str_take_app.
  - intros ->. rw HasSuffix_app str_len_app.
    replace (str_len p + str_len suf - str_len suf)%nat with (str_len p) by lia.
    by rw str_take_app.
Qed.

(** ** The byte order on strings *)

(** Go compares strings bytewise; [str_lt] is that order. *)
Definition str_lt (s t : string) : Prop := String.compare s t = Lt.

#[export] Instance str_lt_dec : RelDecision str_lt.
Proof. intros s t. unfold str_lt. apply _. Defined.

Lemma ascii_compare_refl c : Ascii.compare c c = Eq.
Proof. unfold Ascii.compare. apply N.compare_refl. Qed.

Lemma str_compare_refl s : String.compare s s = Eq.
Proof. induction s as [|c s IH]; simpl; [done|]. by rw ascii_compare_refl. Qed.

Lemma str_compare_eq s t : String.compare s t = Eq ↔ s = t.
Proof. split; [apply String.compare_eq_iff|]. intros ->. apply str_compare_refl. Qed.

Lemma str_compare_gt s t : String.compare s t = Gt ↔ str_lt t s.
Proof.
  unfold str_lt. rw String.compare_antisym.
  destruct (String.compare t s); simpl; naive_solver.
Qed.

#[export] Instance str_lt_irreflexive : Irreflexive str_lt.
Proof. intros s. unfold complement, str_lt. by rw str_compare_refl. Qed.

#[export] Instance str_lt_transitive : Transitive str_lt.
Proof.
  intros s t u. unfold str_lt. revert t u.
  induction s as [|a s IH]; intros [|b t] [|c u]; simpl; try done.
  unfold Ascii.compare.
  destruct (N.compare_spec (N_of_ascii a) (N_of_ascii b)) as [Eab|Hab|Hab]; try done;
  destruct (N.compare_spec (N_of_ascii b) (N_of_ascii c)) as [Ebc|Hbc|Hbc]; try done;
  destruct (N.compare_spec (N_of_ascii a) (N_of_ascii c)) as [Eac|Hac|Hac]; try done; try lia.
  apply IH.
Qed.

Lemma str_lt_total s t : str_lt s t ∨ s = t ∨ str_lt t s.
Proof.
  destruct (String.compare s t) eqn:E.
  - right; left. by apply str_compare_eq.
  - by left.
  - right; right. by apply str_compare_gt.
Qed.

Lemma str_lt_app_l p s t : str_lt (p +:+ s) (p +:+ t) ↔ str_lt s t.
Proof.
  unfold str_lt. induction p as [|c p IH]; [done|].
  rw !str_app_cons /=. by rw ascii_compare_refl.
Qed.

(** The strings with a prefix are an interval of the order. *)
Lemma HasPrefix_not_lt k p : HasPrefix k p = true → ¬ str_lt k p.
Proof.
  intros [t ->]%HasPrefix_spec Hlt. rewrite <-(str_app_nil_r p) in Hlt at 2.
  apply str_lt_app_l in Hlt. by destruct t.
Qed.

Lemma str_above_prefix p k t : HasPrefix k p = false → ¬ str_lt k p → str_lt (p +:+ t) k.
Proof.
  revert k. induction p as [|c p IH]; intros k.
  { unfold HasPrefix. by destruct k. }
  destruct k as [|c' k]; [intros _ Hlt; by destruct Hlt|].
  unfold HasPrefix, str_lt. rw str_app_cons. cbn [String.prefix String.compare].
  destruct (Ascii.ascii_dec c c') as [->|Hne].
  - rw ascii_compare_refl. intros Hp Hlt. apply IH; [exact Hp|exact Hlt].
  - unfold Ascii.compare. intros _.
    destruct (N.compare_spec (N_of_ascii c') (N_of_ascii c)) as [Heq|Hl|Hg]; [|done|].
    + destruct Hne. rewrite <-(ascii_N_embedding c), <-(ascii_N_embedding c'). by rw Heq.
    + intros _. by apply N.compare_lt_iff in Hg as ->.
Qed.

(** ** Decimal round trip *)

Lemma digit_val_digit_of d : (d < 10)%N → digit_val (digit_of d) = Some d.
Proof.
  intros Hd.
  assert (d ∈ [0;1;2;3;4;5;6;7;8;9]%N) as Hin.
  { rw !elem_of_cons. lia. }
  repeat (apply elem_of_cons in Hin as [->|Hin]; [reflexivity|]).
  by apply elem_of_nil in Hin.
Qed.

Lemma parse_digits_pad w n acc s :
  parse_digits (pad_dec w n s) acc =
  parse_digits s (acc * 10 ^ N.of_nat w + n mod 10 ^ N.of_nat w)%N.
Proof.
  revert n acc s. induction w as [|w IH]; intros n acc s; simpl.
  { by rw N.mod_1_r N.mul_1_r N.add_0_r. }
  rw IH. simpl.
  rw digit_val_digit_of; [|apply N.mod_lt; lia].
  f_equal. rw Nat2N.inj_succ N.pow_succ_r'.
  rw (N.Div0.mod_mul_r n 10 (10 ^ N.of_nat w)). lia.
Qed.

Lemma pad_dec_not_empty w n s : w ≠ 0%nat ∨ s ≠ "" → pad_dec w n s ≠ "".
Proof.
  revert n s. induction w as [|w IH]; intros n s; simpl; [naive_solver|].
  intros _. apply IH. by right.
Qed.

(** Twenty decimal digits hold every [uint64]. *)
Lemma ParseUint_pad20 n : (n <= max_uint64)%N → ParseUint (pad_dec 20 n "") = Some n.
Proof.
  intros Hn. unfold ParseUint.
  destruct (pad_dec 20 n "") as [|c s] eqn:E.
  { exfalso. revert E. apply pad_dec_not_empty. by left. }
  rw -E parse_digits_pad /= N.mod_small.
  - by rw (proj2 (N.leb_le _ _) Hn).
  - unfold max_uint64 in Hn. change (2 ^ 64)%N with 18446744073709551616%N in Hn.
    change (N.of_nat 20) with 20%N. change (10 ^ 20)%N with 100000000000000000000%N. lia.
Qed.

Lemma ParseUint_bound s n : ParseUint s = Some n → (n <= max_uint64)%N.
Proof.
  unfold ParseUint. repeat (case_match; try done). intros [= <-]. by apply N.leb_le.
Qed.

Lemma str_len_pad w n s : str_len (pad_dec w n s) = (w + str_len s)%nat.
Proof. revert n s. induction w as [|w IH]; intros n s; simpl; [done|]. rw IH /=. lia. Qed.

(** ** [Itoa] *)

Fixpoint all_digits (s : string) : bool :=
  match s with
  | EmptyString => true
  | String c s' => in_byte_range 48 57 c && all_digits s'
  end.

Lemma digit_of_range d : (d < 10)%N → in_byte_range 48 57 (digit_of d) = true.
Proof.
  intros Hd. pose proof (digit_val_digit_of d Hd) as Hv. unfold digit_val in Hv.
  by destruct (in_byte_range 48 57 (digit_of d)).
Qed.

Lemma dec_digits_digits fuel n acc : all_digits acc = true → all_digits (dec_digits fuel n acc) = true.
Proof.
  revert n acc. induction fuel as [|fuel IH]; intros n acc Hacc; [done|]. simpl.
  assert (all_digits (String (digit_of (n mod 10)) acc) = true) as Hc.
  { simpl. rw digit_of_range; [done|]. apply N.mod_lt. lia. }
  case_match; [done|by apply IH].
Qed.

Lemma parse_dec_digits fuel n acc :
  (n < 10 ^ N.of_nat fuel)%N → fuel ≠ 0%nat → parse_digits (dec_digits fuel n acc) 0 = parse_digits acc n.
Proof.
  revert n acc. induction fuel as [|fuel IH]; intros n acc Hn Hf; [done|].
  assert (∀ a, parse_digits (String (digit_of (n mod 10)) acc) a = parse_digits acc (a * 10 + n mod 10)) as Hc.
  { intros a. simpl. rw digit_val_digit_of; [done|]. apply N.mod_lt. lia. }
  pose proof (N.div_mod n 10 ltac:(done)) as Hdm. simpl.
  destruct (N.eqb_spec (n / 10) 0) as [H0|H0].
  - rw Hc. f_equal. rw H0 in Hdm. lia.
  - destruct (decide (fuel = 0%nat)) as [->|Hne].
    { simpl in Hn. destruct H0. by apply N.div_small. }
    rw IH; [|apply N.Div0.div_lt_upper_bound; rw -N.pow_succ_r' -Nat2N.inj_succ; exact Hn|done].
    rw Hc. f_equal. lia.
Qed.

Lemma parse_itoa n : parse_digits (itoa n) 0 = Some n.
Proof.
  unfold itoa. rw parse_dec_digits //. rw Nat2N.inj_succ N2Nat.id.
  destruct (decide (n = 0)%N) as [->|Hne]; [done|].
  apply (N.lt_le_trans _ (2 ^ N.succ (N.log2 n))%N); [apply N.log2_spec; lia|].
  apply N.pow_le_mono_l. lia.
Qed.

Lemma itoa_inj n m : itoa n = itoa m → n = m.
Proof. intros He. pose proof (parse_itoa n) as Hn. rw He parse_itoa in Hn. congruence. Qed.

Lemma itoa_digits n : all_digits (itoa n) = true.
Proof. by apply dec_digits_digits. Qed.

(** A digit string followed by a colon is read in one way only. *)
Lemma digits_colon_inj s s' t t' :
  all_digits s = true → all_digits s' = true →
  s +:+ String ":" t = s' +:+ String ":" t' → s = s' ∧ t = t'.
Proof.
  revert s'. induction s as [|c s IH]; intros [|c' s'] Hs Hs'; rw ?str_app_cons ?str_app_nil_l.
  - by intros [= ->].
  - intros [= <- _]. simpl in Hs'. done.
  - intros [= -> _]. simpl in Hs. done.
  - intros [= -> He]. simpl in Hs, Hs'. apply andb_true_iff in Hs as [_ Hs], Hs' as [_ Hs'].
    destruct (IH s' Hs Hs' He) as [-> ->]. done.
Qed.
