(* ===== verification/Json.v ===== *)
(** * JSON-shaped values and Go maps

    [any] is the Go interface value the code stores in payloads and outputs;
    the constructors are the dynamic types its type switches distinguish.
    The map helpers of [internal/utils/maps.go] work on [gomap], a Go map
    that may be nil. *)
From Stdlib Require Import SpecFloat.
From S2P Require Import Prelude GoStrings.

(** ** Values *)

(** A [float64] is its IEEE-754 value. *)
Abbreviation float64 := spec_float.

(** [AInt] stands for [int], [int32] and [int64]. *)
Inductive any :=
  | ANil
  | ABool (b : bool)
  | AStr (s : string)
  | AInt (z : Z)
  | AFloat (f : float64)
  | AMap (m : gmap string any)
  | AMapMap (m : gmap string (gmap string any))
  | AMapStr (m : gmap string string)
  | ASlice (l : list any)
  | AStrSlice (l : list string).

(** A Go map: [None] is the nil map. *)
Abbreviation gomap V := (option (gmap string V)).

(** Reading a nil map finds nothing. *)
Definition gomap_get {V} (m : gomap V) (k : string) : option V :=
  match m with Some m => m !! k | None => None end.

Definition gomap_len {V} (m : gomap V) : nat :=
  match m with Some m => size m | None => 0 end.

(** ** [internal/utils/maps.go] *)

Fixpoint cloneJSONValue (value : any) : any :=
  match value with
  | AMap m => AMap (map_fold (λ k v acc, <[k := cloneJSONValue v]> acc) ∅ m)
  | AMapMap m =>
      AMapMap (map_fold (λ k nested acc,
        <[k := map_fold (λ k' v acc', <[k' := cloneJSONValue v]> acc') ∅ nested]> acc) ∅ m)
  | ASlice l => ASlice ((fix go l := match l with [] => [] | x :: l' => cloneJSONValue x :: go l' end) l)
  | v => v
  end.

Definition CloneJSONMap (input : gomap any) : gomap any :=
  match input with
  | None => None
  | Some m => Some (map_fold (λ k v acc, <[k := cloneJSONValue v]> acc) ∅ m)
  end.

(** [cloneValue] is [None] for Go's nil function. *)
Definition CloneMap {V} (m : gomap V) (cloneValue : option (V → V)) : gomap V :=
  match m with
  | None => None
  | Some m =>
      match cloneValue with
      | None => Some m
      | Some f => Some (map_fold (λ k v acc, <[k := f v]> acc) ∅ m)
      end
  end.

Fixpoint PopulateMapIf {V} (dst : gmap string V) (keys : list string) (val : V)
    (predicate : string → bool) : gmap string V :=
  match keys with
  | [] => dst
  | k :: ks => PopulateMapIf (if predicate k then <[k := val]> dst else dst) ks val predicate
  end.

Definition PopulateMap {V} (dst : gmap string V) (keys : list string) (val : V) : gmap string V :=
  PopulateMapIf dst keys val (λ _, true).

(** The predicate may read the destination, as [MergeMap]'s does: it sees
    the map as it is when the entry is visited. *)
Definition CopyMapIf {V} (dst src : gmap string V)
    (predicate : gmap string V → string → V → bool) : gmap string V :=
  map_fold (λ k v acc, if predicate acc k v then <[k := v]> acc else acc) dst src.

Definition MergeMap {V} (dst src : gmap string V) (overwrite : bool) : gmap string V :=
  if overwrite then CopyMapIf dst src (λ _ _ _, true)
  else CopyMapIf dst src (λ acc k _, negb (bool_decide (is_Some (acc !! k)))).

(** ** Induction over values *)

Definition sum_map {V} (f : V → nat) (m : gmap string V) : nat :=
  map_fold (λ _ v acc, f v + acc)%nat 0 m.

Lemma sum_map_lookup {V} (f : V → nat) (m : gmap string V) k v :
  m !! k = Some v → (f v ≤ sum_map f m)%nat.
Proof.
  intros H. unfold sum_map. rw (map_fold_delete_L _ _ k v m _ H); [|lia].
  intros. lia.
Qed.

Fixpoint any_size (v : any) : nat :=
  match v with
  | AMap m => S (map_fold (λ _ v acc, any_size v + acc)%nat 0 m)
  | AMapMap m =>
      S (map_fold (λ _ i acc, map_fold (λ _ v acc, any_size v + acc)%nat 0 i + acc)%nat 0 m)
  | ASlice l => S ((fix go l := match l with [] => 0 | x :: l' => any_size x + go l' end)%nat l)
  | _ => 1
  end.

Lemma any_size_slice l x :
  x ∈ l → (any_size x ≤ (fix go l := match l with [] => 0 | x :: l' => any_size x + go l' end) l)%nat.
Proof. induction l as [|y l IH]; [by intros ?%elem_of_nil|]. intros [->|?]%elem_of_cons; [lia|]. specialize (IH H). lia. Qed.

(** Structural induction that reaches the values under maps and slices. *)
Lemma any_ind_deep (P : any → Prop)
    (Hnil : P ANil) (Hbool : ∀ b, P (ABool b)) (Hstr : ∀ s, P (AStr s))
    (Hint : ∀ z, P (AInt z)) (Hfloat : ∀ f, P (AFloat f))
    (Hmap : ∀ m, (∀ k v, m !! k = Some v → P v) → P (AMap m))
    (Hmm : ∀ m, (∀ k i k' v, m !! k = Some i → i !! k' = Some v → P v) → P (AMapMap m))
    (Hms : ∀ m, P (AMapStr m))
    (Hslice : ∀ l, (∀ x, x ∈ l → P x) → P (ASlice l))
    (Hss : ∀ l, P (AStrSlice l)) v : P v.
Proof.
  remember (any_size v) as n eqn:Hn.
  assert (any_size v ≤ n)%nat as Hle by lia. clear Hn.
  revert v Hle. induction n as [|n IH]; intros v Hle.
  { destruct v; simpl in Hle; lia. }
  destruct v as [| | | | |m|m| |l|]; try done; simpl in Hle.
  - apply Hmap. intros k v Hk. apply IH.
    pose proof (sum_map_lookup any_size m k v Hk). unfold sum_map in *. lia.
  - apply Hmm. intros k i k' v Hk Hk'. apply IH.
    pose proof (sum_map_lookup (sum_map any_size) m k i Hk).
    pose proof (sum_map_lookup any_size i k' v Hk'). unfold sum_map in *. lia.
  - apply Hslice. intros x Hx. apply IH. pose proof (any_size_slice l x Hx). lia.
Qed.

(** ** Laws of the map helpers *)

(** Rebuilding a map entry by entry maps the function over it. *)
Lemma map_fold_insert_fmap {V W} (f : V → W) (m : gmap string V) :
  map_fold (λ k v acc, <[k := f v]> acc) ∅ m = f <$> m.
Proof.
  apply (map_fold_weak_ind (λ r m, r = f <$> m)).
  - by rw fmap_empty.
  - intros k v m' r Hk ->. by rw fmap_insert.
Qed.

Lemma fmap_ext_id {V} (f : V → V) (m : gmap string V) :
  (∀ k v, m !! k = Some v → f v = v) → f <$> m = m.
Proof.
  intros H. apply map_eq. intros k. rw lookup_fmap.
  destruct (m !! k) as [v|] eqn:E; simpl; [|done]. by rw (H k v E).
Qed.

(** A clone has the value of its original. *)
Lemma cloneJSONValue_id v : cloneJSONValue v = v.
Proof.
  induction v as [| | | | |m IH|m IH| |l IH|] using any_ind_deep; try done; simpl; f_equal.
  - rw (map_fold_insert_fmap cloneJSONValue m). by apply fmap_ext_id.
  - rw (map_fold_insert_fmap (map_fold (λ k' v acc', <[k' := cloneJSONValue v]> acc') ∅) m).
    apply fmap_ext_id. intros k i Hk.
    rw (map_fold_insert_fmap cloneJSONValue i). apply fmap_ext_id. eauto.
  - induction l as [|x l IHl]; [done|]. f_equal.
    + apply IH. by left.
    + apply IHl. intros y Hy. apply IH. by right.
Qed.

Lemma CloneJSONMap_id m : CloneJSONMap m = m.
Proof.
  destruct m as [m|]; [|done]. simpl. f_equal.
  rw (map_fold_insert_fmap cloneJSONValue m). apply fmap_ext_id.
  intros. apply cloneJSONValue_id.
Qed.

Lemma CloneMap_id {V} (m : gomap V) (f : V → V) :
  (∀ v, f v = v) → CloneMap m (Some f) = m.
Proof.
  intros Hf. destruct m as [m|]; [|done]. simpl. f_equal.
  rw (map_fold_insert_fmap f m). apply fmap_ext_id. auto.
Qed.

Lemma lookup_PopulateMapIf {V} (dst : gmap string V) keys val p k :
  PopulateMapIf dst keys val p !! k =
  if decide (k ∈ keys ∧ p k = true) then Some val else dst !! k.
Proof.
  revert dst. induction keys as [|k' ks IH]; intros dst.
  { case_decide as H; [|done]. by destruct H as [?%elem_of_nil _]. }
  cbn [PopulateMapIf]. rw IH. clear IH.
  repeat case_decide; rewrite ->?elem_of_cons in *; try naive_solver.
  all: destruct (decide (k = k')) as [->|Hne], (p k') eqn:E;
    rw ?lookup_insert_eq ?lookup_insert_ne; naive_solver.
Qed.

Lemma lookup_PopulateMap {V} (dst : gmap string V) keys val k :
  PopulateMap dst keys val !! k = if decide (k ∈ keys) then Some val else dst !! k.
Proof.
  unfold PopulateMap. rw lookup_PopulateMapIf.
  repeat case_decide; naive_solver.
Qed.

(** [MergeMap] is a union biased to the source when it overwrites and to the
    destination when it does not. *)
Lemma lookup_MergeMap {V} (dst src : gmap string V) overwrite k :
  MergeMap dst src overwrite !! k =
  if overwrite then (src ∪ dst) !! k else (dst ∪ src) !! k.
Proof.
  destruct overwrite; unfold MergeMap, CopyMapIf.
  - revert k. apply (map_fold_weak_ind (λ r src, ∀ k, r !! k = (src ∪ dst) !! k)).
    + intros k. by rw map_empty_union.
    + intros i x m r Hi IH k. rw -insert_union_l !lookup_insert. by case_decide.
  - revert k. apply (map_fold_weak_ind (λ r src, ∀ k, r !! k = (dst ∪ src) !! k)).
    + intros k. by rw map_union_empty.
    + intros i x m r Hi IH k. pose proof (IH i) as IHi.
      rw lookup_union Hi in IHi. rw lookup_union lookup_insert.
      destruct (dst !! i) as [y|] eqn:Hd; simpl in IHi; rw IHi.
      * rw bool_decide_eq_true_2; [|by eexists]. simpl. rw IH lookup_union.
        case_decide; [|done]. subst. by rw Hd Hi.
      * rw bool_decide_eq_false_2; [|by intros [? ?]]. simpl.
        rw lookup_insert. case_decide; [subst; by rw Hd|]. by rw IH lookup_union.
Qed.
