(* ===== verification/Protocol.v ===== *)
(** * Wire types and pure helpers of [internal/protocol]

    The records the nodes exchange, with the source's field names, and the
    pure functions over them: service types, sort strategies, subscription
    patterns, VFS URIs, peer virtual hosts and schema normalization. *)
From S2P Require Import Prelude GoStrings Json.

(** ** Records *)

Record PipelineConnection := {
  FromStep : string; FromPort : string; ToStep : string; ToPort : string }.

Record PipelineStep := {
  StepID : string; StepService : string; StepTargetNodeID : string }.

Record PipelineSchema := {
  SchemaID : string;
  SchemaVersion : Z;
  Steps : list PipelineStep;
  Connections : list PipelineConnection;
  SchemaDeleted : bool }.

Record PipelineExecutionState := {
  PipelineID : string;
  PipelineVersion : Z;
  SchemaHash : string;
  CurrentStep : Z;
  StateOutputs : gomap (gomap any);
  OutputProducers : gomap string;
  SelectedTargets : gomap string;
  Snapshot : option PipelineSchema }.

Record IndexEntry := {
  Name : string; Size : Z; Hash : string; Version : Z; Deleted : bool }.

Record ServiceParameter := {
  PType : string; PRequired : bool; PDefault : string;
  POptions : list string; PUIHint : string }.

Record ServiceUIConfig := {
  UIType : string; UIVFSPath : string; UILocalPath : string; UIURL : string; UIWidgetType : string }.

Record ServiceSchema := {
  SName : string;
  SType : string;
  SDescription : string;
  SParameters : gomap ServiceParameter;
  SOutputs : gomap ServiceParameter;
  SUI : option ServiceUIConfig }.

Record AddressRecord := {
  Addresses : list string; Sequence : Z; IsSponsor : bool }.

#[export] Instance PipelineConnection_eq_dec : EqDecision PipelineConnection.
Proof. solve_decision. Defined.
#[export] Instance PipelineStep_eq_dec : EqDecision PipelineStep.
Proof. solve_decision. Defined.
#[export] Instance PipelineSchema_eq_dec : EqDecision PipelineSchema.
Proof. solve_decision. Defined.
#[export] Instance IndexEntry_eq_dec : EqDecision IndexEntry.
Proof. solve_decision. Defined.
#[export] Instance ServiceParameter_eq_dec : EqDecision ServiceParameter.
Proof. solve_decision. Defined.
#[export] Instance ServiceUIConfig_eq_dec : EqDecision ServiceUIConfig.
Proof. solve_decision. Defined.
#[export] Instance ServiceSchema_eq_dec : EqDecision ServiceSchema.
Proof. solve_decision. Defined.
#[export] Instance AddressRecord_eq_dec : EqDecision AddressRecord.
Proof. solve_decision. Defined.

(** Go's zero value of [IndexEntry]. *)
Definition IndexEntry_zero : IndexEntry :=
  {| Name := ""; Size := 0; Hash := ""; Version := 0; Deleted := false |}.

Definition with_version (e : IndexEntry) (v : Z) : IndexEntry :=
  {| Name := Name e; Size := Size e; Hash := Hash e; Version := v; Deleted := Deleted e |}.

(** ** Schema normalization and cloning *)

Definition ClonePipelineSchema (schema : PipelineSchema) : PipelineSchema :=
  {| SchemaID := SchemaID schema; SchemaVersion := SchemaVersion schema;
     Steps := [] ++ Steps schema; Connections := [] ++ Connections schema;
     SchemaDeleted := SchemaDeleted schema |}.

Definition NormalizePipelineSchemaVersion (schema : PipelineSchema) : PipelineSchema :=
  let schema := ClonePipelineSchema schema in
  if (SchemaVersion schema <=? 0)%Z then
    {| SchemaID := SchemaID schema; SchemaVersion := 1; Steps := Steps schema;
       Connections := Connections schema; SchemaDeleted := SchemaDeleted schema |}
  else schema.

Definition ClonePipelineExecutionState (state : option PipelineExecutionState)
    : option PipelineExecutionState :=
  match state with
  | None => None
  | Some st =>
      Some {| PipelineID := PipelineID st; PipelineVersion := PipelineVersion st;
              SchemaHash := SchemaHash st; CurrentStep := CurrentStep st;
              StateOutputs :=
                CloneMap (StateOutputs st) (Some CloneJSONMap);
              OutputProducers := OutputProducers st;
              SelectedTargets := SelectedTargets st;
              Snapshot := ClonePipelineSchema <$> Snapshot st |}
  end.

(** ** Service types ([service_types.go]) *)

Record serviceTypeSpec := { Canonical : string; Aliases : list string; Streaming : bool }.

Definition serviceTypeSpecs : list serviceTypeSpec :=
  [ {| Canonical := "exec"; Aliases := []; Streaming := false |};
    {| Canonical := "script"; Aliases := []; Streaming := false |};
    {| Canonical := "http"; Aliases := ["grpc"]; Streaming := false |};
    {| Canonical := "http_bidi"; Aliases := ["grpc_bidi"; "bidi_grpc"; "bidi_stream"];
       Streaming := true |};
    {| Canonical := "bidi"; Aliases := []; Streaming := true |};
    {| Canonical := "server_stream"; Aliases := ["http_server_stream"; "grpc_server_stream"];
       Streaming := true |};
    {| Canonical := "webrtc"; Aliases := []; Streaming := true |};
    {| Canonical := "screen"; Aliases := []; Streaming := true |} ].

Definition buildServiceTypeIndex : gmap string serviceTypeSpec :=
  foldl (λ index spec,
    PopulateMap (<[Canonical spec := spec]> index) (Aliases spec) spec)
    ∅ serviceTypeSpecs.

Definition ServiceType_Normalize (t : string) : string :=
  match buildServiceTypeIndex !! t with
  | Some spec => Canonical spec
  | None => t
  end.

Definition ServiceType_IsStreaming (t : string) : bool :=
  match buildServiceTypeIndex !! t with
  | Some spec => Streaming spec
  | None => false
  end.

Definition KnownServiceTypes : list string := Canonical <$> serviceTypeSpecs.

Definition NormalizeServiceSchema (name : string) (schema : ServiceSchema) (serviceType : string)
    : ServiceSchema :=
  let n := if bool_decide (SName schema = "") then name else SName schema in
  let t := if bool_decide (SType schema = "") then serviceType else SType schema in
  {| SName := n; SType := ServiceType_Normalize t; SDescription := SDescription schema;
     SParameters := SParameters schema; SOutputs := SOutputs schema; SUI := SUI schema |}.

(** The actions of catalog notifications. *)
Definition ActionAdd : string := "add".
Definition ActionRemove : string := "remove".

(** ** Required parameters and capabilities *)

(** A parameter is missing when its value is absent, nil or the empty string. *)
Definition value_missing (v : option any) : bool :=
  match v with
  | None | Some ANil => true
  | Some (AStr s) => bool_decide (s = "")
  | Some _ => false
  end.

Definition MissingRequired (schema : ServiceSchema) (payload : gomap any) : list string :=
  sort_strings
    (map_fold (λ name p acc,
       if negb (PRequired p) then acc
       else if value_missing (gomap_get payload name) then name :: acc else acc)
     [] (default ∅ (SParameters schema))).

(** A missing capability reads as the zero version. *)
Definition SupportsCapabilities (available required : gmap string Z) : bool :=
  map_fold (λ name version acc,
    acc && negb ((version <=? 0)%Z || (default 0 (available !! name) <? version)%Z))
    true required.

(** ** UI hints *)

Definition InferUIHint (paramName paramType : string) : string :=
  if negb (bool_decide (paramType = "file")) then ""
  else
    let lower := ToLower paramName in
    if Contains lower "image" || Contains lower "img" || Contains lower "photo"
    then "image_picker" else "file_picker".

Definition EffectiveUIHint (paramName : string) (p : ServiceParameter) : string :=
  if bool_decide (PUIHint p = "") then InferUIHint paramName (PType p) else PUIHint p.

Definition IsFilePickerHint (hint : string) : bool :=
  bool_decide (hint = "file_picker" ∨ hint = "image_picker" ∨ hint = "audio_picker").

(** ** Sort strategies *)

Definition StrategyFastest : string := "proxyma/strategy/fastest".
Definition StrategyCheapest : string := "proxyma/strategy/cheapest".
Definition StrategyLowPower : string := "proxyma/strategy/low_power".

Definition NormalizeSortStrategy (s : string) : string :=
  let k := ToLower (TrimSpace s) in
  if bool_decide (k ∈ [""; StrategyFastest; "fastest"]) then
    if bool_decide (s = "") then "" else StrategyFastest
  else if bool_decide (k ∈ [StrategyCheapest; "cheapest"]) then StrategyCheapest
  else if bool_decide (k ∈ [StrategyLowPower; "low_power"; "low-power"; "lowpower"]) then
    StrategyLowPower
  else s.

Definition StrategyShortName (s : string) : string :=
  let n := NormalizeSortStrategy s in
  if bool_decide (n = StrategyFastest) then "fastest"
  else if bool_decide (n = StrategyCheapest) then "cheapest"
  else if bool_decide (n = StrategyLowPower) then "low_power"
  else "".

Definition SortStrategyShortOptions : list string := ["fastest"; "cheapest"; "low_power"].

(** ** Subscription patterns *)

Definition MatchServicePattern (pattern serviceName : string) : bool :=
  let pattern := TrimSpace pattern in
  if bool_decide (pattern = "") then false
  else if bool_decide (pattern = "*" ∨ pattern = serviceName) then true
  else match CutSuffix pattern ".*" with
  | (prefix, true) =>
      bool_decide (serviceName = prefix) || HasPrefix serviceName (prefix +:+ ".")
  | _ =>
      match CutSuffix pattern "*" with
      | (prefix, true) => HasPrefix serviceName prefix
      | _ => false
      end
  end.

(** ** VFS URIs *)

Definition VFSURIPrefix : string := "vfs://".

Definition VFSURI (hash : string) : string := VFSURIPrefix +:+ hash.

Definition IsVFSURI (s : string) : bool := HasPrefix s VFSURIPrefix.

Definition IsStageableLocalPath (v : any) : option string :=
  match v with
  | AStr p => if bool_decide (p = "") || IsVFSURI p then None else Some p
  | _ => None
  end.

(** The hash and whether the input is a VFS URI with a usable one. *)
Definition ParseVFSURI (s : string) : string * bool :=
  if negb (IsVFSURI s) then ("", false)
  else
    let hash := filepath_Base (TrimPrefix s VFSURIPrefix) in
    (hash, negb (bool_decide (hash = "" ∨ hash = "."))).

Definition OutputHashKey : string := "output_hash".
Definition OutputNameKey : string := "output_name".
Definition OutputSizeKey : string := "output_size".
Definition ResultLocalPathKey : string := "result_path".

Definition ResultLocalPath (outputs : gomap any) : string :=
  let usable key :=
    match gomap_get outputs key with
    | Some (AStr p) => if bool_decide (p ≠ "") && negb (IsVFSURI p) then Some p else None
    | _ => None
    end in
  match usable ResultLocalPathKey with
  | Some p => p
  | None => match usable "output_path" with Some p => p | None => "" end
  end.

(** ** Peer virtual hosts ([addr.go]) *)

Definition PeerLocalDomain : string := "proxyma.local".

Definition PeerLocalHost (peerID : string) : string := peerID +:+ ("." +:+ PeerLocalDomain).

Definition ParsePeerLocalHost (host : string) : option string :=
  let suffix := "." +:+ PeerLocalDomain in
  if negb (HasSuffix host suffix) then None
  else
    let id := TrimSuffix host suffix in
    if bool_decide (id = "") || Contains id "." then None else Some id.

Definition PeerHTTPURL (peerID path : string) : string :=
  let path := TrimPrefix path "/" in
  if bool_decide (path = "") then "http://" +:+ (PeerLocalHost peerID +:+ "/")
  else "http://" +:+ (PeerLocalHost peerID +:+ ("/" +:+ path)).

Definition PeerHTTPSURL (peerID path : string) : string :=
  let path := if bool_decide (path ≠ "") && negb (HasPrefix path "/") then "/" +:+ path else path in
  "https://" +:+ (PeerLocalHost peerID +:+ path).

(** ** Laws *)

Lemma ClonePipelineSchema_id schema : ClonePipelineSchema schema = schema.
Proof. by destruct schema. Qed.

Lemma ClonePipelineExecutionState_id st : ClonePipelineExecutionState st = st.
Proof.
  destruct st as [[]|]; [|done]. simpl. do 2 f_equal.
  - apply CloneMap_id, CloneJSONMap_id.
  - destruct Snapshot0; simpl; [|done]. by rw ClonePipelineSchema_id.
Qed.

Lemma NormalizePipelineSchemaVersion_pos schema :
  (0 < SchemaVersion (NormalizePipelineSchemaVersion schema))%Z.
Proof.
  unfold NormalizePipelineSchemaVersion.
  destruct (SchemaVersion (ClonePipelineSchema schema) <=? 0)%Z eqn:E; simpl in *; lia.
Qed.

Lemma NormalizePipelineSchemaVersion_id schema :
  (0 < SchemaVersion schema)%Z → NormalizePipelineSchemaVersion schema = schema.
Proof.
  intros H. unfold NormalizePipelineSchemaVersion.
  rw ClonePipelineSchema_id. by rw (proj2 (Z.leb_gt _ _) H).
Qed.

#[export] Instance serviceTypeSpec_eq_dec : EqDecision serviceTypeSpec.
Proof. solve_decision. Defined.

(** Every entry of the index is the entry of its own canonical name. *)
Lemma serviceTypeIndex_canonical t spec :
  buildServiceTypeIndex !! t = Some spec →
  buildServiceTypeIndex !! Canonical spec = Some spec.
Proof.
  assert (map_Forall (λ _ sp, buildServiceTypeIndex !! Canonical sp = Some sp)
            buildServiceTypeIndex) as H.
  { apply (bool_decide_unpack _). by vm_compute. }
  apply H.
Qed.

(** Resolving a service type twice is resolving it once, and an alias
    streams exactly when its canonical type does. *)
Theorem ServiceType_Normalize_canonical t :
  ServiceType_Normalize (ServiceType_Normalize t) = ServiceType_Normalize t ∧
  ServiceType_IsStreaming (ServiceType_Normalize t) = ServiceType_IsStreaming t.
Proof.
  unfold ServiceType_Normalize, ServiceType_IsStreaming.
  destruct (buildServiceTypeIndex !! t) as [spec|] eqn:E; [|by rw E].
  by rw (serviceTypeIndex_canonical t spec E).
Qed.

(** Normalizing a sort strategy twice is normalizing it once. *)
Theorem NormalizeSortStrategy_idem s :
  NormalizeSortStrategy (NormalizeSortStrategy s) = NormalizeSortStrategy s.
Proof.
  assert (NormalizeSortStrategy s = s ∨
          NormalizeSortStrategy s ∈ [""; StrategyFastest; StrategyCheapest; StrategyLowPower]) as [E|H];
    [|by rw !E|].
  - unfold NormalizeSortStrategy. repeat case_match; set_solver.
  - repeat (apply elem_of_cons in H as [->|H]; [by vm_compute|]). by apply elem_of_nil in H.
Qed.

Lemma CutSuffix_false s suf p : CutSuffix s suf = (p, false) → HasSuffix s suf = false.
Proof. unfold CutSuffix. by destruct (HasSuffix s suf). Qed.

Lemma CutSuffix_cases s suf :
  (∃ p, CutSuffix s suf = (p, true) ∧ s = p +:+ suf) ∨
  (CutSuffix s suf = (s, false) ∧ HasSuffix s suf = false).
Proof.
  destruct (CutSuffix s suf) as [p [|]] eqn:E.
  - left. exists p. split; [done|]. by apply CutSuffix_spec.
  - right. pose proof (CutSuffix_false _ _ _ E). unfold CutSuffix in E.
    rw H in E. by simplify_eq.
Qed.

(** A pattern matches exactly the names its form says: everything, one
    name, a dotted subtree with its root, or a prefix. *)
Theorem MatchServicePattern_spec pattern name :
  MatchServicePattern pattern name = true ↔
  let q := TrimSpace pattern in
  q ≠ "" ∧
  (q = "*" ∨ q = name ∨
   (∃ pre, q = pre +:+ ".*" ∧ (name = pre ∨ ∃ t, name = (pre +:+ ".") +:+ t)) ∨
   (HasSuffix q ".*" = false ∧ ∃ pre t, q = pre +:+ "*" ∧ name = pre +:+ t)).
Proof.
  unfold MatchServicePattern. cbv zeta. generalize (TrimSpace pattern). intros q.
  repeat case_bool_decide; try naive_solver.
  destruct (CutSuffix_cases q ".*") as [(p & -> & Hq)|[-> Hno]].
  - rw orb_true_iff bool_decide_eq_true HasPrefix_spec.
    assert (HasSuffix q ".*" = true) by (rw Hq; apply HasSuffix_app).
    split.
    + naive_solver.
    + intros (_ & [?|[?|[(p' & Hp' & ?)|[? _]]]]); [naive_solver..| |congruence].
      rw Hq in Hp'. apply str_app_inj_r in Hp' as ->. done.
  - destruct (CutSuffix_cases q "*") as [(p & -> & Hq)|[-> Hno']].
    + rw HasPrefix_spec. split.
      * intros [t ->]. split; [done|]. do 3 right. split; [done|]. by exists p, t.
      * intros (_ & [?|[?|[(p' & Hp' & ?)|(_ & p' & t & Hp' & ->)]]]); try naive_solver.
        -- rw Hp' in Hno. by rw HasSuffix_app in Hno.
        -- rw Hq in Hp'. apply str_app_inj_r in Hp' as ->. by exists t.
    + split; [done|].
      intros (_ & [?|[?|[(p' & Hp' & ?)|(_ & p' & t & Hp' & ->)]]]); try naive_solver.
      * rw Hp' in Hno. by rw HasSuffix_app in Hno.
      * rw Hp' in Hno'. by rw HasSuffix_app in Hno'.
Qed.

Lemma MissingRequired_fold (payload : gomap any) (ps : gmap string ServiceParameter) :
  let l := map_fold (λ name p acc,
       if negb (PRequired p) then acc
       else if value_missing (gomap_get payload name) then name :: acc else acc) [] ps in
  NoDup l ∧
  ∀ name, name ∈ l ↔ ∃ p, ps !! name = Some p ∧ PRequired p = true ∧
                          value_missing (gomap_get payload name) = true.
Proof.
  cbv zeta. apply (map_fold_weak_ind (λ l ps, NoDup l ∧ ∀ name, name ∈ l ↔
    ∃ p, ps !! name = Some p ∧ PRequired p = true ∧ value_missing (gomap_get payload name) = true)).
  { split; [constructor|]. intros name. rw elem_of_nil. split; [done|].
    by intros (p & ?%lookup_empty_Some & _). }
  intros name p m l Hname [Hnd Hin].
  assert (name ∉ l) as Hnot.
  { rw Hin. intros (p' & Hp' & _). by rw Hname in Hp'. }
  destruct (PRequired p) eqn:Hr; simpl; [destruct (value_missing (gomap_get payload name)) eqn:Hm|].
  - split; [by constructor|]. intros n. rw elem_of_cons Hin lookup_insert.
    destruct (decide (name = n)) as [->|]; naive_solver.
  - split; [done|]. intros n. rw Hin lookup_insert.
    destruct (decide (name = n)) as [->|]; [|naive_solver].
    split; [|intros (p0 & ? & ? & ?); simplify_eq; congruence]. naive_solver.
  - split; [done|]. intros n. rw Hin lookup_insert.
    destruct (decide (name = n)) as [->|]; [|naive_solver].
    split; [|intros (p0 & ? & ? & ?); simplify_eq; congruence]. naive_solver.
Qed.

(** The missing parameters are reported sorted, once each, and are exactly
    the required ones whose value is absent, nil or the empty string. *)
Theorem MissingRequired_spec schema payload :
  Sorted String.le (MissingRequired schema payload) ∧
  NoDup (MissingRequired schema payload) ∧
  ∀ name, name ∈ MissingRequired schema payload ↔
    ∃ p, default ∅ (SParameters schema) !! name = Some p ∧ PRequired p = true ∧
         value_missing (gomap_get payload name) = true.
Proof.
  destruct (MissingRequired_fold payload (default ∅ (SParameters schema))) as [Hnd Hin].
  unfold MissingRequired. split; [apply sort_strings_sorted|].
  split; [by rw sort_strings_perm|]. intros name. by rw sort_strings_perm Hin.
Qed.

(** A node supports a demand exactly when every quantity asked for is
    positive and available. *)
Theorem SupportsCapabilities_spec available required :
  SupportsCapabilities available required = true ↔
  ∀ name v, required !! name = Some v → (0 < v ≤ default 0 (available !! name))%Z.
Proof.
  unfold SupportsCapabilities.
  apply (map_fold_weak_ind (λ b required, b = true ↔
    ∀ name v, required !! name = Some v → (0 < v ≤ default 0 (available !! name))%Z)).
  { split; [|done]. by intros _ name v ?%lookup_empty_Some. }
  intros name v m b Hname IH. rw andb_true_iff IH. setoid_rewrite lookup_insert_Some. split.
  - intros [H1 H2] n w [[-> ->]|[? Hn]]; [|by apply H1].
    destruct (w <=? 0)%Z eqn:?, (default 0%Z (available !! n) <? w)%Z eqn:?; simpl in *; lia.
  - intros H. split.
    + intros n w Hn. apply H. right. split; [|done]. intros ->. by rw Hname in Hn.
    + pose proof (H name v (or_introl (conj eq_refl eq_refl))).
      destruct (v <=? 0)%Z eqn:?, (default 0%Z (available !! name) <? v)%Z eqn:?; simpl; lia.
Qed.

(** Parsing a peer host name inverts building it, on exactly the ids that
    are not empty and have no dot. *)
Theorem ParsePeerLocalHost_spec host id :
  ParsePeerLocalHost host = Some id ↔
  host = PeerLocalHost id ∧ id ≠ "" ∧ Contains id "." = false.
Proof.
  unfold ParsePeerLocalHost, PeerLocalHost. split.
  - destruct (HasSuffix host _) eqn:E; [|done]. simpl.
    apply HasSuffix_spec in E as [t ->]. rw TrimSuffix_app.
    case_bool_decide; [done|]. simpl. destruct (Contains t ".") eqn:?; [done|].
    by intros [= ->].
  - intros (-> & Hne & Hdot). rw HasSuffix_app /= TrimSuffix_app.
    by rw bool_decide_eq_false_2 //= Hdot.
Qed.
