(* ===== verification/PipelineGraph.v ===== *)
(** * The pipeline step graph: [PipelineHasCycle]

    [internal/protocol/pipeline_validate.go] decides whether the connections
    of a pipeline form a cycle with Kahn's algorithm: it counts the distinct
    predecessors of every step, then repeatedly removes a step with none
    left.  The definitions follow the Go code; the specification is the
    reachability relation on steps. *)
From S2P Require Import Prelude GoStrings Json Protocol.

(** ** The code *)

Record stepGraph := {
  adj : gmap string (list string);
  inDegree : gmap string Z;
  seen : gset (string * string) }.

Definition initDegrees (steps : list PipelineStep) : gmap string Z :=
  foldl (λ deg step, <[StepID step := 0%Z]> deg) ∅ steps.

(** One iteration of the connection loop: the guards, the duplicate check,
    then the new edge. *)
Definition addConnection (g : stepGraph) (conn : PipelineConnection) : stepGraph :=
  let f := FromStep conn in
  let t := ToStep conn in
  if bool_decide (f = "$initial") || bool_decide (f = "") || bool_decide (t = "") then g
  else if negb (bool_decide (is_Some (inDegree g !! f))) then g
  else if negb (bool_decide (is_Some (inDegree g !! t))) then g
  else if bool_decide ((f, t) ∈ seen g) then g
  else
    {| adj := <[f := default [] (adj g !! f) ++ [t]]> (adj g);
       inDegree := <[t := (default 0 (inDegree g !! t) + 1)%Z]> (inDegree g);
       seen := {[(f, t)]} ∪ seen g |}.

Definition buildGraph (schema : PipelineSchema) : stepGraph :=
  foldl addConnection
    {| adj := ∅; inDegree := initDegrees (Steps schema); seen := ∅ |}
    (Connections schema).

(** The steps with no predecessor.  Go visits the map in some order; the
    theorems below do not depend on it. *)
Definition initialQueue (deg : gmap string Z) : list string :=
  (filter (λ kd, kd.2 = 0%Z) (map_to_list deg)).*1.

(** The inner loop over the successors of a removed step. *)
Definition relax (ms : list string) (deg : gmap string Z) (queue : list string)
    : gmap string Z * list string :=
  foldl (λ st m,
    let d := (default 0 (st.1 !! m) - 1)%Z in
    (<[m := d]> st.1, if (d =? 0)%Z then st.2 ++ [m] else st.2)) (deg, queue) ms.

(** The removal loop; [None] only when the fuel runs out. *)
Fixpoint kahn (fuel : nat) (adj : gmap string (list string)) (deg : gmap string Z)
    (queue : list string) (visited : nat) : option nat :=
  match fuel with
  | 0 => None
  | S fuel' =>
      match queue with
      | [] => Some visited
      | n :: queue' =>
          let '(deg', queue'') := relax (default [] (adj !! n)) deg queue' in
          kahn fuel' adj deg' queue'' (S visited)
      end
  end.

(** The removal loop started from any enumeration of the source steps: every
    step is removed at most once, so one round more than there are steps is
    enough fuel. *)
Definition countRemoved (g : stepGraph) (queue : list string) : option nat :=
  kahn (S (size (inDegree g))) (adj g) (inDegree g) queue 0.

Definition PipelineHasCycle (schema : PipelineSchema) : bool :=
  let g := buildGraph schema in
  match countRemoved g (initialQueue (inDegree g)) with
  | Some visited => (visited <? length (Steps schema))%nat
  | None => false
  end.

(** ** The specification *)

Definition stepIDs (schema : PipelineSchema) : list string := StepID <$> Steps schema.

(** [x] feeds [y]: some connection links them, between steps of the schema. *)
Definition feeds (schema : PipelineSchema) (x y : string) : Prop :=
  x ≠ "$initial" ∧ x ≠ "" ∧ y ≠ "" ∧ x ∈ stepIDs schema ∧ y ∈ stepIDs schema ∧
  ∃ conn, conn ∈ Connections schema ∧ FromStep conn = x ∧ ToStep conn = y.

(** ** Generic graph lemmas *)

Section cycles.
Context {A : Type} `{!EqDecision A} (R : relation A).

(** [backward l]: each element of [l] has its successor in [l] as an
    [R]-predecessor. *)
Inductive backward : list A → Prop :=
  | backward_one x : backward [x]
  | backward_cons x y l : R y x → backward (y :: l) → backward (x :: y :: l).

Lemma backward_reach x l y : backward (x :: l) → y ∈ l → tc R y x.
Proof.
  revert x. induction l as [|z l IH]; intros x Hb Hin; [by apply elem_of_nil in Hin|].
  inversion Hb as [|? ? ? HR Hb']; subst.
  apply elem_of_cons in Hin as [->|Hin]; [by constructor|].
  eapply tc_r; [by apply IH|done].
Qed.

Lemma backward_dup l : backward l → ¬ NoDup l → ∃ x, x ∈ l ∧ tc R x x.
Proof.
  induction 1 as [x|x y l HR Hb IH]; intros Hnd.
  { destruct Hnd. apply NoDup_singleton. }
  destruct (decide (x ∈ y :: l)) as [Hin|Hnin].
  - exists x. split; [by left|]. eapply backward_reach; [|done]. by constructor.
  - destruct IH as (z & Hz & Htc).
    { intros Hnd'. apply Hnd. by constructor. }
    exists z. split; [by right|done].
Qed.

(** A finite non-empty set in which every element has a predecessor holds
    a cycle. *)
Lemma finite_preds_cycle (U : list A) x0 :
  x0 ∈ U → (∀ x, x ∈ U → ∃ y, y ∈ U ∧ R y x) → ∃ x, x ∈ U ∧ tc R x x.
Proof.
  intros Hx0 Hpred.
  assert (∀ n x, x ∈ U → ∃ l, length l = n ∧ backward (x :: l) ∧ x :: l ⊆ U) as Hpath.
  { induction n as [|n IH]; intros x Hx.
    - exists []. split; [done|]. split; [constructor|]. set_solver.
    - destruct (Hpred x Hx) as (y & Hy & HR).
      destruct (IH y Hy) as (l & Hl & Hb & Hsub).
      exists (y :: l). split; [by rw /= Hl|]. split; [by constructor|]. set_solver. }
  destruct (Hpath (length U) x0 Hx0) as (l & Hl & Hb & Hsub).
  destruct (backward_dup _ Hb) as (x & Hx & Htc).
  - intros Hnd.
    assert (length (x0 :: l) ≤ length U)%nat as Hlen.
    { apply submseteq_length, NoDup_submseteq; [done|]. intros. by apply Hsub. }
    simpl in Hlen. lia.
  - exists x. split; [by apply Hsub|done].
Qed.

(** A list in which every element comes after its predecessors has no
    cycle through its elements. *)
Lemma topological_acyclic (D : list A) :
  NoDup D →
  (∀ i m n, D !! i = Some m → R n m → ∃ j, (j < i)%nat ∧ D !! j = Some n) →
  ∀ x, x ∈ D → ¬ tc R x x.
Proof.
  intros Hnd Htopo x Hx Htc.
  assert (∀ y z, tc R y z → ∀ i, D !! i = Some z → ∃ j, (j < i)%nat ∧ D !! j = Some y) as Hback.
  { induction 1 as [y z HR|y z w HR _ IH]; intros i Hi; [by eapply Htopo|].
    destruct (IH i Hi) as (j & Hj & Hjz).
    destruct (Htopo j z y Hjz HR) as (k & ? & ?). exists k. split; [lia|done]. }
  apply list_elem_of_lookup in Hx as [i Hi].
  destruct (Hback x x Htc i Hi) as (j & Hj & Hjx).
  pose proof (NoDup_lookup D i j x Hnd Hi Hjx). lia.
Qed.
End cycles.

(** ** The graph the first loop builds *)

Lemma lookup_initDegrees steps x :
  initDegrees steps !! x = if decide (x ∈ StepID <$> steps) then Some 0%Z else None.
Proof.
  unfold initDegrees.
  assert (∀ acc : gmap string Z, foldl (λ deg step, <[StepID step := 0%Z]> deg) acc steps !! x =
    if decide (x ∈ StepID <$> steps) then Some 0%Z else acc !! x) as H; [|apply H].
  induction steps as [|st steps IH]; intros acc; [done|].
  cbn [foldl fmap list_fmap]. rw IH. clear IH.
  destruct (decide (x = StepID st)) as [->|Hne];
    [rw lookup_insert_eq|rw lookup_insert_ne //]; repeat case_decide; set_solver.
Qed.

(** [g] holds the steps [V] and the distinct edges [E]. *)
Record represents (V : list string) (E : list (string * string)) (g : stepGraph) : Prop := {
  rep_nodup : NoDup E;
  rep_adj n : default [] (adj g !! n) = (filter (λ e, e.1 = n) E).*2;
  rep_deg m : inDegree g !! m =
    if decide (m ∈ V) then Some (Z.of_nat (length (filter (λ e, e.2 = m) E))) else None;
  rep_seen e : e ∈ seen g ↔ e ∈ E;
  rep_in e : e ∈ E → e.1 ∈ V ∧ e.2 ∈ V }.

(** The edge a connection contributes, if its guards let it. *)
Definition conn_edge (V : list string) (conn : PipelineConnection) (e : string * string) : Prop :=
  e = (FromStep conn, ToStep conn) ∧
  FromStep conn ≠ "$initial" ∧ FromStep conn ≠ "" ∧ ToStep conn ≠ "" ∧
  FromStep conn ∈ V ∧ ToStep conn ∈ V.

Lemma rep_deg_some V E g m : represents V E g → is_Some (inDegree g !! m) ↔ m ∈ V.
Proof.
  intros H. rw (rep_deg _ _ _ H). case_decide; naive_solver.
Qed.

Lemma represents_snoc V E g f t :
  represents V E g → f ∈ V → t ∈ V → (f, t) ∉ E →
  represents V (E ++ [(f, t)])
    {| adj := <[f := default [] (adj g !! f) ++ [t]]> (adj g);
       inDegree := <[t := (default 0 (inDegree g !! t) + 1)%Z]> (inDegree g);
       seen := {[(f, t)]} ∪ seen g |}.
Proof.
  intros Hr Hf Ht Hnew. destruct Hr as [Hnd Hadj Hdeg Hseen Hin].
  split; simpl.
  - apply NoDup_app. split; [done|]. split; [set_solver|apply NoDup_singleton].
  - intros n. rw filter_app fmap_app -Hadj lookup_insert.
    destruct (decide (f = n)) as [->|Hne]; simpl.
    + by rw filter_cons_True.
    + by rw filter_cons_False // app_nil_r.
  - intros m. rw filter_app length_app lookup_insert !Hdeg.
    destruct (decide (t = m)) as [->|Hne].
    + rw !decide_True //= filter_cons_True //=. f_equal. lia.
    + rw filter_cons_False //= Nat.add_0_r. done.
  - intros e. rw elem_of_union elem_of_singleton Hseen elem_of_app list_elem_of_singleton. tauto.
  - intros e [He|He]%elem_of_app; [by apply Hin|]. apply list_elem_of_singleton in He as ->. done.
Qed.

Lemma addConnection_represents V E g conn :
  represents V E g →
  ∃ E', represents V E' (addConnection g conn) ∧
        ∀ e, e ∈ E' ↔ e ∈ E ∨ conn_edge V conn e.
Proof.
  intros Hr. unfold addConnection.
  repeat case_bool_decide; simpl; rewrite ->?(rep_deg_some _ _ _ _ Hr) in *;
    rewrite ->?(rep_seen _ _ _ Hr) in *.
  all: try (exists E; split; [done|]; unfold conn_edge; naive_solver).
  exists (E ++ [(FromStep conn, ToStep conn)]).
  split; [by apply represents_snoc|].
  intros e. rw elem_of_app list_elem_of_singleton. unfold conn_edge. naive_solver.
Qed.

Lemma foldl_addConnection_represents V conns E g :
  represents V E g →
  ∃ E', represents V E' (foldl addConnection g conns) ∧
        ∀ e, e ∈ E' ↔ e ∈ E ∨ ∃ conn, conn ∈ conns ∧ conn_edge V conn e.
Proof.
  revert E g. induction conns as [|conn conns IH]; intros E g Hr; simpl.
  { exists E. split; [done|]. intros e. set_solver. }
  destruct (addConnection_represents V E g conn Hr) as (E1 & Hr1 & HE1).
  destruct (IH E1 _ Hr1) as (E2 & Hr2 & HE2). exists E2. split; [done|].
  intros e. rw HE2 HE1. setoid_rewrite elem_of_cons. naive_solver.
Qed.

Lemma buildGraph_represents schema :
  ∃ E, represents (stepIDs schema) E (buildGraph schema) ∧
       ∀ x y, (x, y) ∈ E ↔ feeds schema x y.
Proof.
  destruct (foldl_addConnection_represents (stepIDs schema) (Connections schema) []
    {| adj := ∅; inDegree := initDegrees (Steps schema); seen := ∅ |}) as (E & Hr & HE).
  { split; simpl; try set_solver; [constructor|].
    intros m. by rw lookup_initDegrees. }
  exists E. split; [done|]. intros x y. rw HE elem_of_nil. unfold conn_edge, feeds. split.
  - intros [[]|(conn & Hin & [= -> ->] & ?)]. naive_solver.
  - intros (? & ? & ? & ? & ? & conn & ? & <- & <-). right. by exists conn.
Qed.

(** ** The removal loop *)

Section kahn.
Context (V : list string) (E : list (string * string)) (HE : NoDup E)
  (HEV : ∀ e, e ∈ E → e.1 ∈ V ∧ e.2 ∈ V).

(** How many predecessors of [m] are not yet in [D]. *)
Definition preds_left (D : list string) (m : string) : nat :=
  length (filter (λ e, e.2 = m ∧ e.1 ∉ D) E).

Lemma preds_left_zero D m : preds_left D m = 0%nat ↔ ∀ n, (n, m) ∈ E → n ∈ D.
Proof.
  unfold preds_left. rw length_zero_iff_nil. split.
  - intros H n Hn. destruct (decide (n ∈ D)) as [|Hnot]; [done|].
    assert ((n, m) ∈ filter (λ e, e.2 = m ∧ e.1 ∉ D) E) as Hin.
    { apply list_elem_of_filter. auto. }
    rw H in Hin. by apply elem_of_nil in Hin.
  - intros H. destruct (filter _ E) as [|[n m'] l] eqn:Heq; [done|].
    assert ((n, m') ∈ filter (λ e, e.2 = m ∧ e.1 ∉ D) E) as Hin by (rw Heq; by left).
    apply list_elem_of_filter in Hin as [[Hm Hn] Hin]. simpl in *. subst. by destruct Hn; apply H.
Qed.

(** Removing [n] takes one from the count of exactly its successors. *)
Lemma preds_left_snoc D n m :
  n ∉ D →
  preds_left D m = (preds_left (D ++ [n]) m + if decide ((n, m) ∈ E) then 1 else 0)%nat.
Proof.
  intros Hn. unfold preds_left. clear HEV.
  induction E as [|[a b] E' IH]; [done|].
  apply NoDup_cons in HE as [Hnot HE']. specialize (IH HE').
  rw !filter_cons /=. destruct (decide ((n, m) ∈ E')) as [Hin|Hin];
  repeat case_decide; rewrite ->?elem_of_cons, ?elem_of_app, ?list_elem_of_singleton in *;
    simpl in *; try lia; exfalso; naive_solver.
Qed.

Lemma relax_spec ms deg q :
  NoDup ms → (∀ m, m ∈ ms → is_Some (deg !! m)) →
  (∀ x, (relax ms deg q).1 !! x =
     if decide (x ∈ ms) then (λ d, (d - 1)%Z) <$> deg !! x else deg !! x) ∧
  ∃ new, (relax ms deg q).2 = q ++ new ∧ NoDup new ∧
    ∀ x, x ∈ new ↔ x ∈ ms ∧ deg !! x = Some 1%Z.
Proof.
  revert deg q. induction ms as [|m ms IH]; intros deg q Hnd Hdom.
  { split; [done|]. exists []. rw app_nil_r. split; [done|]. split; [constructor|]. set_solver. }
  apply NoDup_cons in Hnd as [Hm Hnd].
  destruct (Hdom m) as [d Hd]; [by left|].
  unfold relax in *. cbn [foldl]. cbn [fst snd]. rw Hd. cbn [default].
  destruct (IH (<[m := (d - 1)%Z]> deg) (if (d - 1 =? 0)%Z then q ++ [m] else q))
    as [Hdeg' (new & Hq & Hnd' & Hnew)]; [done|..].
  { intros x Hx. rw lookup_insert_ne; [|set_solver]. apply Hdom. by right. }
  split.
  - intros x. rw Hdeg' lookup_insert.
    destruct (decide (m = x)) as [<-|Hne].
    + rw decide_False // decide_True; [|by left]. by rw Hd.
    + repeat case_decide; set_solver.
  - exists ((if (d - 1 =? 0)%Z then [m] else []) ++ new).
    rw Hq. split; [by destruct (d - 1 =? 0)%Z; rw -?app_assoc|].
    assert (m ∉ new) as Hmnew by (rw Hnew; naive_solver).
    split.
    + destruct (d - 1 =? 0)%Z; [by constructor|done].
    + intros x. rw elem_of_app Hnew lookup_insert elem_of_cons.
      clear IH Hdeg' Hq Hdom Hnew. destruct (decide (m = x)) as [<-|Hne].
      * rw Hd. destruct (Z.eqb_spec (d - 1) 0) as [Hz|Hz].
        -- split; [intros _; split; [by left|f_equal; lia]|intros _; left; by left].
        -- split; [set_solver|]. intros [_ [= ->]]. lia.
      * destruct (d - 1 =? 0)%Z; set_solver.
Qed.

(** [D] is the list of removed steps, [Q] the queue. *)
Record kahn_inv (deg : gmap string Z) (D Q : list string) : Prop := {
  ki_nodup : NoDup (D ++ Q);
  ki_sub x : x ∈ D ++ Q → x ∈ V;
  ki_deg m : m ∈ V → deg !! m = Some (Z.of_nat (preds_left D m));
  ki_zero m : m ∈ V → preds_left D m = 0%nat ↔ m ∈ D ++ Q;
  ki_topo i m n : D !! i = Some m → (n, m) ∈ E → ∃ j, (j < i)%nat ∧ D !! j = Some n }.

Lemma succs_elem n m : m ∈ (filter (λ e, e.1 = n) E).*2 ↔ (n, m) ∈ E.
Proof.
  rw list_elem_of_fmap. setoid_rewrite list_elem_of_filter. split.
  - intros ([a b] & -> & <- & ?). done.
  - intros H. by exists (n, m).
Qed.

Lemma succs_nodup n : NoDup (filter (λ e, e.1 = n) E).*2.
Proof.
  apply NoDup_fmap_2_strong; [|by apply NoDup_filter].
  intros [a b] [c d] [? ?]%list_elem_of_filter [? ?]%list_elem_of_filter ?. simpl in *. by subst.
Qed.

Lemma kahn_inv_step deg D n Q :
  kahn_inv deg D (n :: Q) →
  let '(deg', Q') := relax (filter (λ e, e.1 = n) E).*2 deg Q in
  kahn_inv deg' (D ++ [n]) Q'.
Proof.
  intros [Hnd Hsub Hdeg Hzero Htopo].
  assert (n ∉ D ∧ n ∉ Q ∧ NoDup (D ++ Q)) as (HnD & HnQ & HndDQ).
  { apply NoDup_app in Hnd as (? & Hdisj & [? ?]%NoDup_cons).
    split; [|split; [done|]].
    - intros HD. destruct (Hdisj n HD). by left.
    - apply NoDup_app. split; [done|]. split; [|done]. intros x Hx ?. apply (Hdisj x Hx). by right. }
  assert (∀ m, preds_left D m = preds_left (D ++ [n]) m + if decide ((n, m) ∈ E) then 1 else 0)%nat
    as Hleft by (intros; by apply preds_left_snoc).
  destruct (relax_spec (filter (λ e, e.1 = n) E).*2 deg Q) as [Hdeg' (new & HQ' & Hndnew & Hnew)].
  { apply succs_nodup. }
  { intros m Hm%succs_elem. rw Hdeg; [by eexists|]. by apply (HEV (n, m)). }
  assert (∀ m, m ∈ new ↔ (n, m) ∈ E ∧ preds_left D m = 1%nat) as Hnew'.
  { intros m. rw Hnew succs_elem. split; intros [HinE H1]; split; try done;
      rewrite ->Hdeg in * by (by apply (HEV (n, m))); [injection H1; lia|f_equal; lia]. }
  destruct (relax _ deg Q) as [deg' Q'] eqn:Hrel. simpl in *. subst Q'.
  assert (∀ m, m ∈ new → m ∉ D ++ n :: Q) as Hfresh.
  { intros m [HinE H1]%Hnew'. rw -Hzero; [lia|]. by apply (HEV (n, m)). }
  split.
  - rw -app_assoc /=. apply NoDup_app.
    apply NoDup_app in HndDQ as (? & Hdisj & ?).
    split; [done|]. split.
    { intros x Hx [->|[?|?]%elem_of_app]%elem_of_cons; [done|by apply (Hdisj x)|].
      destruct (Hfresh x); [done|]. set_solver. }
    apply NoDup_cons. split; [rw elem_of_app; intros [?|Hn]; [done|]|].
    { destruct (Hfresh n Hn). set_solver. }
    apply NoDup_app. split; [done|]. split; [|done].
    intros x Hx Hx'. destruct (Hfresh x Hx'). set_solver.
  - intros x Hx. destruct (decide (x ∈ new)) as [[HinE _]%Hnew'|Hnot].
    + by apply (HEV (n, x)).
    + apply Hsub. set_solver.
  - intros m Hm. rw Hdeg' Hdeg //. specialize (Hleft m).
    destruct (decide ((n, m) ∈ E)) as [HinE|HinE].
    + rw decide_True; [|by apply succs_elem]. simpl. f_equal. lia.
    + rw decide_False; [|by rw succs_elem]. f_equal. lia.
  - intros m Hm. specialize (Hleft m). specialize (Hzero m Hm).
    assert (m ∈ (D ++ [n]) ++ Q ++ new ↔ m ∈ D ++ n :: Q ∨ m ∈ new) as -> by set_solver.
    rw Hnew'. destruct (decide ((n, m) ∈ E)) as [HinE|HinE]; rw -Hzero; [|naive_solver lia].
    split; [intros; right; split; [done|lia]|]. intros [?|[_ ?]]; lia.
  - intros i m k Hi HinE.
    apply lookup_snoc_Some in Hi as [[Hi Hm]|[-> ->]].
    + destruct (Htopo i m k Hm HinE) as (j & ? & ?). exists j. split; [done|].
      by apply lookup_app_l_Some.
    + assert (preds_left D m = 0%nat) as Hz.
      { apply Hzero; [by apply (HEV (k, m))|set_solver]. }
      rw preds_left_zero in Hz. apply Hz in HinE.
      apply list_elem_of_lookup in HinE as [j Hj]. exists j.
      split; [by eapply lookup_lt_Some|by apply lookup_app_l_Some].
Qed.

(** The loop empties its queue: each round removes a new step, and no list
    of distinct steps is longer than [N]. *)
Lemma kahn_run N fuel (adjm : gmap string (list string)) deg D Q :
  (∀ l, NoDup l → (∀ x, x ∈ l → x ∈ V) → (length l ≤ N)%nat) →
  (∀ n, default [] (adjm !! n) = (filter (λ e, e.1 = n) E).*2) →
  kahn_inv deg D Q → (N - length D < fuel)%nat →
  ∃ deg' D', kahn fuel adjm deg Q (length D) = Some (length D') ∧ kahn_inv deg' D' [].
Proof.
  intros HN Hadj. revert deg D Q. induction fuel as [|fuel IH]; intros deg D Q Hinv Hfuel; [lia|].
  destruct Q as [|n Q]; [by exists deg, D|].
  pose proof (kahn_inv_step deg D n Q Hinv) as Hstep.
  simpl. rw Hadj. destruct (relax _ deg Q) as [deg' Q'].
  assert (length (D ++ [n]) ≤ N)%nat as Hlen.
  { pose proof (ki_nodup _ _ _ Hstep) as Hnd. apply NoDup_app in Hnd as (? & _ & _).
    apply HN; [done|]. intros x Hx. apply (ki_sub _ _ _ Hstep). set_solver. }
  rw length_app /= in Hlen.
  replace (S (length D)) with (length (D ++ [n])) by (rw length_app /=; lia).
  apply (IH deg' (D ++ [n]) Q' Hstep). rw length_app /=. lia.
Qed.

Lemma kahn_inv_init deg Q :
  (∀ m, m ∈ V → deg !! m = Some (Z.of_nat (length (filter (λ e, e.2 = m) E)))) →
  NoDup Q → (∀ m, m ∈ Q ↔ m ∈ V ∧ deg !! m = Some 0%Z) → kahn_inv deg [] Q.
Proof.
  intros Hdeg Hnd HQ.
  assert (∀ m, preds_left [] m = length (filter (λ e, e.2 = m) E)) as Hleft.
  { intros m. unfold preds_left. f_equal. apply list_filter_iff. set_solver. }
  split; simpl; [done|by intros x [? _]%HQ|by intros m Hm; rw Hleft; apply Hdeg| |done].
  intros m Hm. rw Hleft HQ Hdeg //. split; [intros ->; done|]. intros [_ [=]]. lia.
Qed.
End kahn.

Lemma nodup_dom_length {A} (l : list string) (m : gmap string A) :
  NoDup l → (∀ x, x ∈ l → is_Some (m !! x)) → (length l ≤ size m)%nat.
Proof.
  intros Hnd Hin. rw -(size_list_to_set (C := gset string) l Hnd) -(size_dom (D := gset string)).
  apply subseteq_size. intros x Hx%elem_of_list_to_set. by apply elem_of_dom, Hin.
Qed.

Lemma initialQueue_elem (deg : gmap string Z) m :
  m ∈ initialQueue deg ↔ deg !! m = Some 0%Z.
Proof.
  unfold initialQueue. rw list_elem_of_fmap. setoid_rewrite list_elem_of_filter. split.
  - intros ([k d] & -> & Hd & Hin). simpl in *. subst. by apply elem_of_map_to_list.
  - intros H. exists (m, 0%Z). split; [done|]. split; [done|]. by apply elem_of_map_to_list.
Qed.

Lemma initialQueue_nodup (deg : gmap string Z) : NoDup (initialQueue deg).
Proof.
  unfold initialQueue. apply NoDup_fmap_2_strong.
  - intros [a x] [b y] [? Ha]%list_elem_of_filter [? Hb]%list_elem_of_filter ?. simpl in *. by subst.
  - apply NoDup_filter, NoDup_map_to_list.
Qed.

(** Whatever order the source steps are visited in, the loop returns the
    number of steps that can be removed: a topologically ordered list outside
    which every step waits for another step outside it. *)
Lemma countRemoved_spec schema queue :
  queue ≡ₚ initialQueue (inDegree (buildGraph schema)) →
  ∃ D, countRemoved (buildGraph schema) queue = Some (length D) ∧ NoDup D ∧
    (∀ x, x ∈ D → x ∈ stepIDs schema) ∧
    (∀ i m n, D !! i = Some m → feeds schema n m → ∃ j, (j < i)%nat ∧ D !! j = Some n) ∧
    (∀ m, m ∈ stepIDs schema → m ∉ D → ∃ n, n ∉ D ∧ feeds schema n m).
Proof.
  intros Hq. destruct (buildGraph_represents schema) as (E & Hrep & HE).
  set (g := buildGraph schema) in *. set (V := stepIDs schema) in *.
  destruct (kahn_run V E (rep_nodup _ _ _ Hrep) (rep_in _ _ _ Hrep) (size (inDegree g))
    (S (size (inDegree g))) (adj g) (inDegree g) [] queue) as (deg' & D & Hrun & Hinv).
  - intros l Hnd Hl. apply nodup_dom_length; [done|].
    intros x Hx. apply (rep_deg_some V E g x Hrep), Hl, Hx.
  - apply (rep_adj _ _ _ Hrep).
  - apply kahn_inv_init; [apply Hrep|apply Hrep|..].
    + intros m Hm. rw (rep_deg _ _ _ Hrep). by rw decide_True.
    + rw Hq. apply initialQueue_nodup.
    + intros m. rw Hq initialQueue_elem. split; [|by intros [_ ?]].
      intros Hm. split; [|done]. apply (rep_deg_some V E g m Hrep). by eexists.
  - simpl. lia.
  - exists D. split; [done|].
    destruct Hinv as [Hnd Hsub Hdeg Hzero Htopo]. rewrite ->app_nil_r in *.
    split; [done|]. split; [done|]. split.
    + intros i m n Hi Hf. by apply (Htopo i m n Hi), HE.
    + intros m Hm HmD. pose proof (Hzero m Hm) as Hz. rw ?app_nil_r preds_left_zero in Hz.
      destruct (decide (Exists (λ e, e.2 = m ∧ e.1 ∉ D) E)) as [Hex|Hno].
      * apply Exists_exists in Hex as ([n m'] & HinE & <- & Hn). exists n. split; [done|]. by apply HE.
      * exfalso. apply HmD. apply (proj1 Hz). intros n HinE. destruct (decide (n ∈ D)) as [|Hn]; [done|].
        destruct Hno. apply Exists_exists. by exists (n, m).
Qed.

(** ** The theorem *)

Lemma feeds_stepIDs schema x y : tc (feeds schema) x y → x ∈ stepIDs schema ∧ y ∈ stepIDs schema.
Proof. induction 1 as [x y (?&?&?&?&?&?)|x y z (?&?&?&?&?&?) _ [? ?]]; auto. Qed.

Lemma countRemoved_cycle schema queue :
  NoDup (stepIDs schema) → queue ≡ₚ initialQueue (inDegree (buildGraph schema)) →
  ∃ visited, countRemoved (buildGraph schema) queue = Some visited ∧
    ((visited < length (Steps schema))%nat ↔ ∃ x, tc (feeds schema) x x).
Proof.
  intros HV Hq. destruct (countRemoved_spec schema queue Hq) as (D & -> & Hnd & Hsub & Htopo & Hstuck).
  exists (length D). split; [done|]. replace (length (Steps schema)) with (length (stepIDs schema)) by apply length_fmap.
  split.
  - intros Hlt. destruct (decide (Forall (.∈ D) (stepIDs schema))) as [Hall|Hno].
    + exfalso. assert (length (stepIDs schema) ≤ length D)%nat; [|lia].
      apply submseteq_length, NoDup_submseteq; [done|]. by apply Forall_forall.
    + apply not_Forall_Exists in Hno; [|apply _]. apply Exists_exists in Hno as (x0 & Hx0 & Hx0D).
      destruct (finite_preds_cycle (feeds schema) (filter (.∉ D) (stepIDs schema)) x0)
        as (x & _ & Hx); [by apply list_elem_of_filter| |by exists x].
      intros x [HxD Hx]%list_elem_of_filter. destruct (Hstuck x Hx HxD) as (n & Hn & Hf).
      exists n. split; [|done]. apply list_elem_of_filter. split; [done|]. apply Hf.
  - intros [x Hx]. destruct (decide (x ∈ D)) as [HxD|HxD].
    + by destruct (topological_acyclic (feeds schema) D Hnd Htopo x HxD).
    + assert (length (x :: D) ≤ length (stepIDs schema))%nat as Hlen; [|simpl in Hlen; lia].
      apply submseteq_length, NoDup_submseteq; [by constructor|].
      intros y [->|?]%elem_of_cons; [|by apply Hsub]. by destruct (feeds_stepIDs schema x x Hx).
Qed.

Lemma PipelineHasCycle_tc schema :
  NoDup (stepIDs schema) → PipelineHasCycle schema = true ↔ ∃ x, tc (feeds schema) x x.
Proof.
  intros HV. unfold PipelineHasCycle.
  destruct (countRemoved_cycle schema _ HV (reflexivity _)) as (visited & -> & <-).
  apply Nat.ltb_lt.
Qed.

(** C30: the cycle check is right and does not depend on the order in which the
    map yields the initial queue: from any such order the loop ends, and the
    number of steps it removes falls short exactly when some step feeds
    itself through the connections. *)
Theorem PipelineHasCycle_correct schema queue :
  NoDup (stepIDs schema) → queue ≡ₚ initialQueue (inDegree (buildGraph schema)) →
  (PipelineHasCycle schema = true ↔ ∃ x, tc (feeds schema) x x) ∧
  ∃ visited, countRemoved (buildGraph schema) queue = Some visited ∧
    ((visited < length (Steps schema))%nat ↔ ∃ x, tc (feeds schema) x x).
Proof. intros HV Hq. split; [by apply PipelineHasCycle_tc|by apply countRemoved_cycle]. Qed.

Definition looped : PipelineSchema :=
  {| SchemaID := "p"; SchemaVersion := 1; SchemaDeleted := false;
     Steps := [{| StepID := "a"; StepService := "s"; StepTargetNodeID := "" |};
               {| StepID := "b"; StepService := "s"; StepTargetNodeID := "" |}];
     Connections := [{| FromStep := "a"; FromPort := "o"; ToStep := "b"; ToPort := "i" |};
                     {| FromStep := "b"; FromPort := "o"; ToStep := "a"; ToPort := "i" |}] |}.

Lemma PipelineHasCycle_correct_witness :
  (PipelineHasCycle looped = true ↔ ∃ x, tc (feeds looped) x x) ∧
  ∃ visited, countRemoved (buildGraph looped) [] = Some visited ∧
    ((visited < length (Steps looped))%nat ↔ ∃ x, tc (feeds looped) x x).
Proof.
  apply (PipelineHasCycle_correct looped []);
    [apply (bool_decide_unpack _); vm_compute; exact I|vm_compute; reflexivity].
Defined.
