(* ===== verification/Pipeline.v ===== *)
(** * Pipeline schema validation

    [internal/protocol/pipeline_validate.go] and [pipeline_migration.go]:
    admission of a schema, of a schema revision, and of a migration of a
    running execution.  Errors keep the constant part of their message; the
    formatted arguments are not modelled. *)
From S2P Require Import Prelude GoStrings Json Protocol PipelineGraph.

(** ** Revisions *)

(** [PipelineSchemaHash] is the SHA-256 of the JSON text of the schema. *)
Section revision.
Context (PipelineSchemaHash : PipelineSchema → string).

Definition clearDeleted (s : PipelineSchema) : PipelineSchema :=
  {| SchemaID := SchemaID s; SchemaVersion := SchemaVersion s; Steps := Steps s;
     Connections := Connections s; SchemaDeleted := false |}.

Definition ValidatePipelineRevision (current next : PipelineSchema) : res unit :=
  if bool_decide (SchemaID current ≠ SchemaID next) then
    Err (EMsg "pipeline schema ID mismatch")
  else if (SchemaVersion next <? SchemaVersion current)%Z then
    Err (EMsg "schema downgrade rejected")
  else if (SchemaVersion current <? SchemaVersion next)%Z then Ok ()
  else if bool_decide (PipelineSchemaHash (clearDeleted next) ≠
                       PipelineSchemaHash (clearDeleted current)) then
    Err (EMsg "schema mismatch at version")
  else if SchemaDeleted current && negb (SchemaDeleted next) then
    Err (EMsg "cannot resurrect deleted version")
  else Ok ().
End revision.

(** ** Admission *)

(** The maps the step loop fills. *)
Record stepIndex := {
  stepServices : gmap string string;
  stepNodes : gmap string string;
  stepPositions : gmap string nat }.

Fixpoint indexSteps (position : nat) (steps : list PipelineStep) (ix : stepIndex) : res stepIndex :=
  match steps with
  | [] => Ok ix
  | step :: rest =>
      if bool_decide (StepID step = "") then Err (EMsg "step ID cannot be empty")
      else if bool_decide (StepService step = "") then
        Err (EMsg "step service name cannot be empty")
      else if bool_decide (is_Some (stepServices ix !! StepID step)) then
        Err (EMsg "duplicate step ID found")
      else
        indexSteps (S position) rest
          {| stepServices := <[StepID step := StepService step]> (stepServices ix);
             stepNodes := <[StepID step := StepTargetNodeID step]> (stepNodes ix);
             stepPositions := <[StepID step := position]> (stepPositions ix) |}
  end.

(** The port checks of one connection.  [lookup] is the service schema
    lookup; an unknown service skips the checks.  [fromService] is [None] for
    the initial payload. *)
Definition checkPorts (lookup : string → option ServiceSchema) (conn : PipelineConnection)
    (fromService : option string) (toService : string) : res unit :=
  match lookup toService with
  | None => Ok ()
  | Some toSchema =>
      match gomap_get (SParameters toSchema) (ToPort conn) with
      | None => Err (EMsg "port is not a valid input parameter for step")
      | Some param =>
          match fromService ≫= lookup with
          | None => Ok ()
          | Some fromSchema =>
              match gomap_get (SOutputs fromSchema) (FromPort conn) with
              | None =>
                  if (0 <? gomap_len (SOutputs fromSchema))%nat then
                    Err (EMsg "port is not a valid output for step")
                  else Ok ()
              | Some outParam =>
                  if bool_decide (PType outParam ≠ PType param) then
                    Err (EMsg "type mismatch on connection link")
                  else Ok ()
              end
          end
      end
  end.

(** One iteration of the connection loop. *)
Definition checkConnection (lookup : string → option ServiceSchema) (ix : stepIndex)
    (conn : PipelineConnection) : res unit :=
  let initial := bool_decide (FromStep conn = "$initial") in
  if negb initial && negb (bool_decide (is_Some (stepServices ix !! FromStep conn))) then
    Err (EMsg "source step is not defined in pipeline steps")
  else match stepServices ix !! ToStep conn with
  | None => Err (EMsg "target step is not defined in pipeline steps")
  | Some toService =>
      if negb initial &&
         (default 0 (stepPositions ix !! ToStep conn) <=?
          default 0 (stepPositions ix !! FromStep conn))%nat then
        Err (EMsg "pipeline steps are not in topological order")
      else
        checkPorts lookup conn
          (if initial then None else stepServices ix !! FromStep conn) toService
  end.

Fixpoint checkConnections (lookup : string → option ServiceSchema) (ix : stepIndex)
    (conns : list PipelineConnection) : res unit :=
  match conns with
  | [] => Ok ()
  | conn :: rest =>
      match checkConnection lookup ix conn with
      | Ok _ => checkConnections lookup ix rest
      | Err e => Err e
      end
  end.

Definition emptyIndex : stepIndex :=
  {| stepServices := ∅; stepNodes := ∅; stepPositions := ∅ |}.

(** [lookup] is [None] for Go's nil function, which finds nothing. *)
Definition ValidatePipelineSchema (schema : PipelineSchema)
    (lookup : option (string → option ServiceSchema)) : res unit :=
  if bool_decide (SchemaID schema = "") then Err (ESentinel ErrEmptyPipelineID)
  else if bool_decide (Steps schema = []) then Err (EMsg "pipeline must have at least one step")
  else match indexSteps 0 (Steps schema) emptyIndex with
  | Err e => Err e
  | Ok ix =>
      if PipelineHasCycle schema then Err (EMsg "pipeline contains a cycle in Connections")
      else checkConnections (default (λ _, None) lookup) ix (Connections schema)
  end.

(** ** Migration of a running execution *)

Fixpoint indexPositions (position : nat) (steps : list PipelineStep) (m : gmap string nat)
    : res (gmap string nat) :=
  match steps with
  | [] => Ok m
  | s :: rest =>
      if bool_decide (StepID s = "") then Err (EMsg "step ID cannot be empty in updated schema")
      else if bool_decide (is_Some (m !! StepID s)) then
        Err (EMsg "duplicate step ID in updated schema")
      else indexPositions (S position) rest (<[StepID s := position]> m)
  end.

(** Prefix identity: the completed steps, in order, against the updated
    steps.  The caller has checked that there are enough of them. *)
Fixpoint checkPrefix (currentStepMap : gmap string PipelineStep)
    (completed : list string) (updated : list PipelineStep) : res unit :=
  match completed with
  | [] => Ok ()
  | completedID :: completed' =>
      match updated with
      | [] => Err (EMsg "index out of range")
      | updatedStep :: updated' =>
          if bool_decide (StepID updatedStep ≠ completedID) then
            Err (EMsg "prefix identity violation: step at index")
          else match currentStepMap !! completedID with
          | None => Err (EMsg "prefix identity violation: completed step missing from current schema")
          | Some origStep =>
              if bool_decide (StepService updatedStep ≠ StepService origStep) then
                Err (EMsg "prefix identity violation: service modified")
              else if bool_decide (StepTargetNodeID updatedStep ≠ StepTargetNodeID origStep) then
                Err (EMsg "prefix identity violation: target node modified")
              else checkPrefix currentStepMap completed' updated'
          end
      end
  end.

Definition checkMigratedConnection (positions : gmap string nat)
    (completedSet : gmap string bool) (completedCount : nat)
    (outputs : gomap (gomap any)) (conn : PipelineConnection) : res unit :=
  if bool_decide (FromStep conn = "$initial") || bool_decide (FromStep conn = "") then Ok ()
  else match positions !! FromStep conn with
  | None => Err (EMsg "connection source step not found in updated schema")
  | Some fromPos =>
      match positions !! ToStep conn with
      | None => Err (EMsg "connection target step not found in updated schema")
      | Some toPos =>
          if (toPos <=? fromPos)%nat then
            Err (EMsg "pipeline steps are not in topological order")
          else
            let done := default false (completedSet !! FromStep conn) in
            if done then
              match gomap_get outputs (FromStep conn) with
              | None => Err (EMsg "output port satisfaction violation: no recorded outputs")
              | Some stepOutputs =>
                  match gomap_get stepOutputs (FromPort conn) with
                  | None => Err (EMsg "output port satisfaction violation: output port not produced")
                  | Some _ => Ok ()
                  end
              end
            else if (toPos <=? completedCount)%nat then
              Err (EMsg "retroactive dependency violation")
            else Ok ()
      end
  end.

Fixpoint checkMigratedConnections (positions : gmap string nat)
    (completedSet : gmap string bool) (completedCount : nat)
    (outputs : gomap (gomap any)) (conns : list PipelineConnection) : res unit :=
  match conns with
  | [] => Ok ()
  | conn :: rest =>
      match checkMigratedConnection positions completedSet completedCount outputs conn with
      | Ok _ => checkMigratedConnections positions completedSet completedCount outputs rest
      | Err e => Err e
      end
  end.

Definition ValidatePrefixMigration (completedSteps : list string)
    (outputs : gomap (gomap any)) (currentSchema updatedSchema : PipelineSchema) : res unit :=
  if bool_decide (SchemaID currentSchema ≠ SchemaID updatedSchema) then
    Err (EMsg "pipeline schema ID mismatch")
  else if SchemaDeleted updatedSchema then
    Err (EMsg "cannot migrate pipeline to a deleted schema")
  else if (SchemaVersion updatedSchema <? SchemaVersion currentSchema)%Z then
    Err (EMsg "schema downgrade rejected")
  else if bool_decide (Steps updatedSchema = []) then
    Err (EMsg "updated pipeline must have at least one step")
  else if PipelineHasCycle updatedSchema then
    Err (EMsg "updated pipeline schema contains cycles")
  else if (length (Steps updatedSchema) <? length completedSteps)%nat then
    Err (EMsg "prefix identity violation: steps already completed")
  else
    let currentStepMap :=
      foldl (λ m s, <[StepID s := s]> m) ∅ (Steps currentSchema) in
    let completedSet := PopulateMap ∅ completedSteps true in
    match checkPrefix currentStepMap completedSteps (Steps updatedSchema) with
    | Err e => Err e
    | Ok _ =>
        match indexPositions 0 (Steps updatedSchema) ∅ with
        | Err e => Err e
        | Ok positions =>
            checkMigratedConnections positions completedSet (length completedSteps)
              outputs (Connections updatedSchema)
        end
    end.

(** ** Revisions form a preorder *)

Section revision_laws.
Context (h : PipelineSchema → string).

(** What an accepted revision means. *)
Definition revision_ok (current next : PipelineSchema) : Prop :=
  SchemaID current = SchemaID next ∧
  ((SchemaVersion current < SchemaVersion next)%Z ∨
   SchemaVersion current = SchemaVersion next ∧
   h (clearDeleted next) = h (clearDeleted current) ∧
   (SchemaDeleted current = true → SchemaDeleted next = true)).

Lemma ValidatePipelineRevision_spec current next :
  ValidatePipelineRevision h current next = Ok () ↔ revision_ok current next.
Proof.
  unfold ValidatePipelineRevision, revision_ok.
  destruct (Z.ltb_spec (SchemaVersion next) (SchemaVersion current)),
    (Z.ltb_spec (SchemaVersion current) (SchemaVersion next)),
    (SchemaDeleted current), (SchemaDeleted next);
    repeat case_bool_decide; simpl; intuition (try done; try lia; try congruence).
  all: right; repeat split; auto; lia.
Qed.

(** Accepted revisions compose: a node that saw only the first and the
    last of a chain of accepted schemas accepts the step between them too,
    whatever hash tells definitions apart. *)
Theorem ValidatePipelineRevision_trans a b c :
  ValidatePipelineRevision h a b = Ok () →
  ValidatePipelineRevision h b c = Ok () →
  ValidatePipelineRevision h a c = Ok ().
Proof.
  rw !ValidatePipelineRevision_spec. unfold revision_ok.
  intros [-> [?|(? & ? & ?)]] [-> [?|(? & ? & ?)]]; split; try done;
    [left; lia|left; lia|left; lia|right]. repeat split; [lia|congruence|auto].
Qed.
End revision_laws.

(** ** The step index *)

Abbreviation findStep steps id := (list_find (λ st : PipelineStep, StepID st = id) steps).

Lemma findStep_Some_iff steps id i st :
  NoDup (StepID <$> steps) →
  findStep steps id = Some (i, st) ↔ steps !! i = Some st ∧ StepID st = id.
Proof.
  intros Hnd. rw list_find_Some. split; [naive_solver|].
  intros [Hi Hid]. split; [done|]. split; [done|].
  intros j y Hj Hlt Hy. assert (j = i); [|lia].
  eapply (NoDup_lookup (StepID <$> steps)); [done|..].
  - by rw list_lookup_fmap Hj /= Hy.
  - by rw list_lookup_fmap Hi /= Hid.
Qed.

Definition steps_ok (steps : list PipelineStep) : Prop :=
  Forall (λ st, StepID st ≠ "" ∧ StepService st ≠ "") steps ∧ NoDup (StepID <$> steps).

(** The step loop succeeds exactly on named, distinct steps, and then the
    maps give each step's service, node and position. *)
Lemma indexSteps_ok pos steps ix ix' :
  indexSteps pos steps ix = Ok ix' →
  steps_ok steps ∧ (∀ st, st ∈ steps → stepServices ix !! StepID st = None) ∧
  ∀ id,
    stepServices ix' !! id =
      match findStep steps id with Some (_, st) => Some (StepService st)
                                 | None => stepServices ix !! id end ∧
    stepPositions ix' !! id =
      match findStep steps id with Some (i, _) => Some (pos + i)%nat
                                 | None => stepPositions ix !! id end.
Proof.
  revert pos ix. induction steps as [|st steps IH]; intros pos ix; simpl.
  { intros [= <-]. split; [split; constructor|]. split; [by intros ? ?%elem_of_nil|done]. }
  repeat case_bool_decide; try done. intros Hrun. apply IH in Hrun as ([Hall Hnd] & Hfresh & Hix). clear IH.
  assert (stepServices ix !! StepID st = None) as Hst by (by apply eq_None_not_Some).
  assert (StepID st ∉ StepID <$> steps) as Hnew.
  { intros (st' & Hid & Hin)%list_elem_of_fmap. specialize (Hfresh st' Hin).
    simpl in Hfresh. rw -Hid lookup_insert_eq in Hfresh. done. }
  split; [split; [by constructor|by constructor]|]. split.
  - intros st' [->|Hin]%elem_of_cons; [done|]. specialize (Hfresh st' Hin). simpl in Hfresh.
    by apply lookup_insert_None in Hfresh as [? _].
  - intros id. destruct (Hix id) as [-> ->]. simpl.
    destruct (decide (StepID st = id)) as [<-|Hne].
    + assert (findStep steps (StepID st) = None) as ->.
      { apply list_find_None, Forall_forall. intros st' Hin Hid. apply Hnew.
        rw -Hid. by apply list_elem_of_fmap_2. }
      rw !lookup_insert_eq. split; [done|]. f_equal. lia.
    + rw !lookup_insert_ne //. destruct (findStep steps id) as [[i st']|]; simpl; [|done].
      split; [done|]. f_equal. lia.
Qed.

Lemma indexSteps_complete pos steps ix :
  steps_ok steps → (∀ st, st ∈ steps → stepServices ix !! StepID st = None) →
  ∃ ix', indexSteps pos steps ix = Ok ix'.
Proof.
  revert pos ix. induction steps as [|st steps IH]; intros pos ix [Hall Hnd] Hfresh; simpl; [by eexists|].
  apply Forall_cons in Hall as [[? ?] Hall]. apply NoDup_cons in Hnd as [Hnot Hnd].
  rw !bool_decide_eq_false_2; [|by rw Hfresh; [by intros []|left]|done|done].
  apply IH; [by split|]. intros st' Hin. simpl. rw lookup_insert_ne; [|].
  - apply Hfresh. by right.
  - intros Heq. apply Hnot. rw Heq. by apply list_elem_of_fmap_2.
Qed.

(** ** Admission: specification *)

(** The port rules of one connection, between the services that run it. *)
Definition ports_ok (lookup : string → option ServiceSchema) (conn : PipelineConnection)
    (fromService : option string) (toService : string) : Prop :=
  ∀ toSchema, lookup toService = Some toSchema →
    ∃ param, gomap_get (SParameters toSchema) (ToPort conn) = Some param ∧
    ∀ fromSchema, fromService ≫= lookup = Some fromSchema →
      match gomap_get (SOutputs fromSchema) (FromPort conn) with
      | None => gomap_len (SOutputs fromSchema) = 0%nat
      | Some outParam => PType outParam = PType param
      end.

Lemma checkPorts_spec lookup conn fromService toService :
  checkPorts lookup conn fromService toService = Ok () ↔
  ports_ok lookup conn fromService toService.
Proof.
  unfold checkPorts, ports_ok.
  destruct (lookup toService) as [toS|]; [|done].
  transitivity (∃ param, gomap_get (SParameters toS) (ToPort conn) = Some param ∧
    ∀ fromSchema, fromService ≫= lookup = Some fromSchema →
      match gomap_get (SOutputs fromSchema) (FromPort conn) with
      | None => gomap_len (SOutputs fromSchema) = 0%nat
      | Some outParam => PType outParam = PType param
      end); [|naive_solver].
  destruct (gomap_get (SParameters toS) _) as [p|]; [|naive_solver].
  destruct (fromService ≫= lookup) as [fromS|]; [|naive_solver].
  transitivity (match gomap_get (SOutputs fromS) (FromPort conn) with
    | None => gomap_len (SOutputs fromS) = 0%nat | Some o => PType o = PType p end); [|naive_solver].
  destruct (gomap_get (SOutputs fromS) _) as [o|].
  - destruct (decide (PType o = PType p)); case_bool_decide; naive_solver.
  - destruct (Nat.ltb_spec 0 (gomap_len (SOutputs fromS))); split; try done; lia.
Qed.

(** A connection is admissible: its target is a step, its source is the
    initial payload or an earlier step, and the ports fit. *)
Definition connection_ok (lookup : string → option ServiceSchema) (steps : list PipelineStep)
    (conn : PipelineConnection) : Prop :=
  ∃ j to, (steps !! j = Some to ∧ StepID to = ToStep conn) ∧
    (FromStep conn = "$initial" ∧ ports_ok lookup conn None (StepService to) ∨
     FromStep conn ≠ "$initial" ∧
     ∃ i from, (steps !! i = Some from ∧ StepID from = FromStep conn) ∧ (i < j)%nat ∧
       ports_ok lookup conn (Some (StepService from)) (StepService to)).

Lemma checkConnection_spec lookup steps ix conn :
  indexSteps 0 steps emptyIndex = Ok ix →
  checkConnection lookup ix conn = Ok () ↔ connection_ok lookup steps conn.
Proof.
  intros ([_ Hnd] & _ & Hix)%indexSteps_ok. unfold checkConnection, connection_ok.
  setoid_rewrite <-checkPorts_spec. setoid_rewrite <-(findStep_Some_iff steps _ _ _ Hnd).
  destruct (Hix (FromStep conn)) as [-> ->], (Hix (ToStep conn)) as [-> ->].
  simpl. rw !lookup_empty.
  destruct (findStep steps (ToStep conn)) as [[j to]|], (findStep steps (FromStep conn)) as [[i from]|];
    case_bool_decide; simpl; try naive_solver.
  destruct (Nat.leb_spec j i); simpl; [|naive_solver].
  split; [done|]. intros (? & ? & [= <- <-] & [[? _]|(_ & ? & ? & [= <- <-] & ? & _)]); [done|lia].
Qed.

Lemma checkConnections_spec lookup steps ix conns :
  indexSteps 0 steps emptyIndex = Ok ix →
  checkConnections lookup ix conns = Ok () ↔ Forall (connection_ok lookup steps) conns.
Proof.
  intros Hix. induction conns as [|conn conns IH]; simpl; [split; [constructor|done]|].
  rw Forall_cons -IH -(checkConnection_spec lookup steps ix conn Hix).
  destruct (checkConnection lookup ix conn) as [[]|]; naive_solver.
Qed.

(** The admission conditions, stated on the schema. *)
Definition well_formed_pipeline (lookup : string → option ServiceSchema)
    (schema : PipelineSchema) : Prop :=
  SchemaID schema ≠ "" ∧ Steps schema ≠ [] ∧ steps_ok (Steps schema) ∧
  (¬ ∃ x, tc (feeds schema) x x) ∧
  Forall (connection_ok lookup (Steps schema)) (Connections schema).

(** C29: the admission check accepts exactly the well-formed pipelines: named,
    with distinct non-empty steps, acyclic, and with every connection leading
    forward between declared steps over ports of matching types. *)
Theorem ValidatePipelineSchema_spec schema lookup :
  ValidatePipelineSchema schema lookup = Ok () ↔
  well_formed_pipeline (default (λ _, None) lookup) schema.
Proof.
  unfold ValidatePipelineSchema, well_formed_pipeline.
  repeat case_bool_decide; try naive_solver.
  destruct (indexSteps 0 (Steps schema) emptyIndex) as [ix|e] eqn:Eix.
  - destruct (indexSteps_ok _ _ _ _ Eix) as (Hok & _).
    pose proof (PipelineHasCycle_tc schema (proj2 Hok)) as Hcyc.
    rw -Hcyc -(checkConnections_spec _ _ _ _ Eix).
    destruct (PipelineHasCycle schema); naive_solver.
  - split; [done|]. intros (_ & _ & Hok & _).
    destruct (indexSteps_complete 0 (Steps schema) emptyIndex Hok) as [ix Hix]; [|congruence].
    intros. apply lookup_empty.
Qed.

(** ** Migration: specification *)

Lemma checkPrefix_spec cur completed updated :
  checkPrefix cur completed updated = Ok () ↔
  ∀ i cid, completed !! i = Some cid →
    ∃ st orig, updated !! i = Some st ∧ StepID st = cid ∧ cur !! cid = Some orig ∧
      StepService st = StepService orig ∧ StepTargetNodeID st = StepTargetNodeID orig.
Proof.
  revert updated. induction completed as [|c completed IH]; intros updated; simpl; [done|].
  destruct updated as [|st updated].
  { split; [done|]. intros H. by destruct (H 0 c eq_refl) as (? & ? & ? & _). }
  transitivity ((∃ orig, StepID st = c ∧ cur !! c = Some orig ∧ StepService st = StepService orig ∧
     StepTargetNodeID st = StepTargetNodeID orig) ∧ checkPrefix cur completed updated = Ok ()).
  - case_bool_decide as Hid; [naive_solver|]. destruct (cur !! c) as [orig|]; [|naive_solver].
    case_bool_decide; [naive_solver|]. case_bool_decide; naive_solver.
  - rw IH. split.
    + intros [(orig & Ho) H] [|i] cid; simpl; [intros [= <-]; naive_solver|apply H].
    + intros H. split; [destruct (H 0 c eq_refl) as (? & orig & [= <-] & ?); by exists orig|].
      intros i cid Hi. by apply (H (S i)).
Qed.

Lemma indexPositions_ok pos steps m m' :
  indexPositions pos steps m = Ok m' →
  NoDup (StepID <$> steps) ∧ (∀ st, st ∈ steps → StepID st ≠ "" ∧ m !! StepID st = None) ∧
  ∀ id, m' !! id = match findStep steps id with Some (i, _) => Some (pos + i)%nat | None => m !! id end.
Proof.
  revert pos m. induction steps as [|st steps IH]; intros pos m; simpl.
  { intros [= <-]. split; [constructor|]. split; [by intros ? ?%elem_of_nil|done]. }
  repeat case_bool_decide; try done. intros (Hnd & Hfresh & Hm')%IH. clear IH.
  assert (m !! StepID st = None) as Hst by (by apply eq_None_not_Some).
  assert (StepID st ∉ StepID <$> steps) as Hnew.
  { intros (st' & Hid & Hin)%list_elem_of_fmap. destruct (Hfresh st' Hin) as [_ Hf].
    by rw -Hid lookup_insert_eq in Hf. }
  split; [by constructor|]. split.
  - intros st' [->|Hin]%elem_of_cons; [done|]. destruct (Hfresh st' Hin) as [? Hf].
    by apply lookup_insert_None in Hf as [? _].
  - intros id. rw Hm'. destruct (decide (StepID st = id)) as [<-|Hne]; simpl.
    + assert (findStep steps (StepID st) = None) as ->.
      { apply list_find_None, Forall_forall. intros st' Hin Hid. apply Hnew.
        rw -Hid. by apply list_elem_of_fmap_2. }
      rw lookup_insert_eq. f_equal. lia.
    + rw lookup_insert_ne //. destruct (findStep steps id) as [[i st']|]; simpl; [|done]. f_equal. lia.
Qed.

Lemma checkMigratedConnections_all ps cs n outs conns conn :
  checkMigratedConnections ps cs n outs conns = Ok () → conn ∈ conns →
  checkMigratedConnection ps cs n outs conn = Ok ().
Proof.
  induction conns as [|c conns IH]; simpl; [by intros _ ?%elem_of_nil|].
  destruct (checkMigratedConnection ps cs n outs c) as [[]|] eqn:E; [|done].
  by intros H [->|?]%elem_of_cons; auto.
Qed.

(** The three documented invariants of an accepted migration, and what they
    buy: the execution can resume at step [length completed], because every
    input of a step up to that index comes from the initial payload or from a
    port a completed step has produced. *)
Definition migration_safe (completed : list string) (outputs : gomap (gomap any))
    (current updated : PipelineSchema) : Prop :=
  (∀ i cid, completed !! i = Some cid →
     ∃ st orig, Steps updated !! i = Some st ∧ StepID st = cid ∧
       orig ∈ Steps current ∧ StepID orig = cid ∧
       StepService st = StepService orig ∧ StepTargetNodeID st = StepTargetNodeID orig) ∧
  (∀ conn, conn ∈ Connections updated → FromStep conn ≠ "$initial" → FromStep conn ≠ "" →
     FromStep conn ∈ completed →
     ∃ outs v, gomap_get outputs (FromStep conn) = Some outs ∧ gomap_get outs (FromPort conn) = Some v) ∧
  (∀ conn i st, conn ∈ Connections updated → FromStep conn ≠ "$initial" → FromStep conn ≠ "" →
     Steps updated !! i = Some st → StepID st = ToStep conn → (i ≤ length completed)%nat →
     FromStep conn ∈ completed).

Lemma foldl_stepMap steps (m : gmap string PipelineStep) id st :
  foldl (λ m s, <[StepID s := s]> m) m steps !! id = Some st →
  st ∈ steps ∧ StepID st = id ∨ m !! id = Some st.
Proof.
  revert m. induction steps as [|s steps IH]; intros m; simpl; [by right|].
  intros [[? ?]|Hl]%IH; [left; split; [by right|done]|].
  apply lookup_insert_Some in Hl as [[<- <-]|[? ?]]; [left; split; [by left|done]|by right].
Qed.

Lemma checkMigratedConnection_ok ps cs n outs conn :
  checkMigratedConnection ps cs n outs conn = Ok () →
  FromStep conn ≠ "$initial" → FromStep conn ≠ "" →
  ∃ fp tp, ps !! FromStep conn = Some fp ∧ ps !! ToStep conn = Some tp ∧ (fp < tp)%nat ∧
    if default false (cs !! FromStep conn)
    then ∃ o v, gomap_get outs (FromStep conn) = Some o ∧ gomap_get o (FromPort conn) = Some v
    else (n < tp)%nat.
Proof.
  unfold checkMigratedConnection. intros Hok H1 H2. rw !bool_decide_eq_false_2 // /= in Hok.
  destruct (ps !! FromStep conn) as [fp|]; [|done]. destruct (ps !! ToStep conn) as [tp|]; [|done].
  exists fp, tp. split; [done|]. split; [done|].
  destruct (Nat.leb_spec tp fp); [done|]. split; [done|].
  destruct (default false (cs !! FromStep conn)).
  - destruct (gomap_get outs (FromStep conn)) as [o|]; [|done].
    destruct (gomap_get o (FromPort conn)) as [v|] eqn:Ev; [|done]. by exists o, v.
  - by destruct (Nat.leb_spec tp n).
Qed.

Lemma ValidatePrefixMigration_inv completed outputs current updated :
  ValidatePrefixMigration completed outputs current updated = Ok () →
  ∃ positions,
    checkPrefix (foldl (λ m s, <[StepID s := s]> m) ∅ (Steps current)) completed (Steps updated) = Ok () ∧
    indexPositions 0 (Steps updated) ∅ = Ok positions ∧
    checkMigratedConnections positions (PopulateMap ∅ completed true) (length completed)
      outputs (Connections updated) = Ok ().
Proof.
  unfold ValidatePrefixMigration. intros Hok. repeat (case_match; try done).
  repeat match goal with u : unit |- _ => destruct u end. eauto.
Qed.

(** An accepted migration keeps the completed prefix, leaves every port
    that completed steps feed produced, and lets no step that may run next
    depend on one that has not run. *)
Theorem ValidatePrefixMigration_safe completed outputs current updated :
  ValidatePrefixMigration completed outputs current updated = Ok () →
  migration_safe completed outputs current updated.
Proof.
  intros (positions & Hpre & Hpos & Hconns)%ValidatePrefixMigration_inv.
  rw checkPrefix_spec in Hpre. apply indexPositions_ok in Hpos as (Hnd & _ & Hpos).
  assert (∀ conn, conn ∈ Connections updated → FromStep conn ≠ "$initial" → FromStep conn ≠ "" →
    ∃ fp tp, positions !! FromStep conn = Some fp ∧ positions !! ToStep conn = Some tp ∧ (fp < tp)%nat ∧
    if decide (FromStep conn ∈ completed)
    then ∃ o v, gomap_get outputs (FromStep conn) = Some o ∧ gomap_get o (FromPort conn) = Some v
    else (length completed < tp)%nat) as Hc.
  { intros conn Hin H1 H2.
    pose proof (checkMigratedConnection_ok _ _ _ _ _
      (checkMigratedConnections_all _ _ _ _ _ _ Hconns Hin) H1 H2) as H.
    rw lookup_PopulateMap lookup_empty in H. by destruct (decide (FromStep conn ∈ completed)). }
  split; [|split].
  - intros i cid Hi. destruct (Hpre i cid Hi) as (st & orig & ? & ? & Ho & ? & ?).
    exists st, orig. apply foldl_stepMap in Ho as [[? ?]|Ho]; [naive_solver|].
    by rw lookup_empty in Ho.
  - intros conn Hin H1 H2 Hcomp. destruct (Hc conn Hin H1 H2) as (? & ? & _ & _ & _ & H).
    by rw decide_True in H.
  - intros conn i st Hin H1 H2 Hi Hid Hle.
    destruct (Hc conn Hin H1 H2) as (fp & tp & _ & Htp & _ & H).
    case_decide; [done|]. assert (tp = i) as ->; [|lia].
    rw Hpos in Htp. rw (proj2 (findStep_Some_iff _ _ i st Hnd)) // in Htp. naive_solver.
Qed.

Definition retroactive : error := EMsg "retroactive dependency violation".

Lemma checkMigratedConnections_retroactive ps cs n outs conns :
  checkMigratedConnections ps cs n outs conns = Err retroactive →
  ∃ conn fp tp, ps !! FromStep conn = Some fp ∧ ps !! ToStep conn = Some tp ∧
    (fp < tp ≤ n)%nat ∧ default false (cs !! FromStep conn) = false.
Proof.
  unfold retroactive. induction conns as [|conn conns IH]; simpl; [done|].
  destruct (checkMigratedConnection ps cs n outs conn) as [|e] eqn:E; [done|]. intros [= ->].
  exists conn. unfold checkMigratedConnection in E. repeat (case_match; try done).
  do 2 eexists. split; [done|]. split; [done|].
  split; [|done]. rewrite ->Nat.leb_gt, Nat.leb_le in *. lia.
Qed.

Lemma checkPrefix_not_retroactive cur completed updated :
  checkPrefix cur completed updated ≠ Err retroactive.
Proof.
  unfold retroactive. revert updated. induction completed as [|c completed IH]; intros updated; simpl; [done|].
  by repeat (case_match; try done).
Qed.

Lemma indexPositions_not_retroactive pos steps m :
  indexPositions pos steps m ≠ Err retroactive.
Proof.
  unfold retroactive. revert pos m. induction steps as [|s steps IH]; intros pos m; simpl; [done|].
  by repeat (case_match; try done).
Qed.

(** The prefix check and the order check leave nothing for the retroactive
    dependency check to reject: it never fires. *)
Theorem ValidatePrefixMigration_no_retroactive completed outputs current updated :
  ValidatePrefixMigration completed outputs current updated ≠ Err retroactive.
Proof.
  unfold ValidatePrefixMigration. intros Herr. repeat (case_match; try (by unfold retroactive in *)).
  - destruct (checkMigratedConnections_retroactive _ _ _ _ _ Herr)
      as (conn & fp & tp & Hfp & _ & Hlt & Hnot).
    rw lookup_PopulateMap lookup_empty in Hnot. case_decide as Hcomp; [done|]. clear Hnot.
    destruct a. match goal with H : checkPrefix _ _ _ = Ok _ |- _ => rw checkPrefix_spec in H; rename H into Hpre end.
    match goal with H : indexPositions _ _ _ = Ok _ |- _ =>
      apply indexPositions_ok in H as (Hnd & _ & Hpos) end.
    rw Hpos lookup_empty in Hfp. destruct (findStep _ _) as [[i st]|] eqn:Ef; [|done].
    injection Hfp as <-. apply findStep_Some_iff in Ef as [Hi Hid]; [|done].
    destruct (lookup_lt_is_Some_2 completed i) as [cid Hcid]; [lia|].
    destruct (Hpre i cid Hcid) as (st' & _ & Hi' & Hst' & _).
    apply Hcomp, list_elem_of_lookup. exists i. rw Hcid. congruence.
  - simplify_eq. by eapply indexPositions_not_retroactive.
  - simplify_eq. by eapply checkPrefix_not_retroactive.
Qed.

(** ** Witnesses *)

Definition two_steps (version : Z) : PipelineSchema :=
  {| SchemaID := "p"; SchemaVersion := version; SchemaDeleted := false;
     Steps := [{| StepID := "a"; StepService := "s"; StepTargetNodeID := "" |};
               {| StepID := "b"; StepService := "s"; StepTargetNodeID := "" |}];
     Connections := [{| FromStep := "a"; FromPort := "out"; ToStep := "b"; ToPort := "in" |}] |}.

Lemma ValidatePipelineRevision_trans_witness :
  ValidatePipelineRevision SchemaID (two_steps 1) (two_steps 3) = Ok ().
Proof.
  apply (ValidatePipelineRevision_trans SchemaID (two_steps 1) (two_steps 2) (two_steps 3)); reflexivity.
Defined.

Lemma ValidatePrefixMigration_safe_witness :
  migration_safe ["a"] (Some {["a" := Some {["out" := ABool true]}]}) (two_steps 1) (two_steps 2).
Proof.
  apply (ValidatePrefixMigration_safe ["a"] (Some {["a" := Some {["out" := ABool true]}]}) (two_steps 1) (two_steps 2)).
  vm_compute. reflexivity.
Defined.
