(* ===== verification/Bolt.v ===== *)
(** * The metadata database

    The node keeps its metadata in a bbolt file.  bbolt is not part of the
    repository: it appears here as the class [Bolt], whose operations are the
    calls the code makes, and [BoltLaws], the behaviour the code relies on.
    The buckets are those of [internal/storage/buckets.go]; a stored value is
    represented by the record its bytes decode to ([JDoc]), or by the bytes
    themselves when they do not decode ([JCorrupt]).  The helpers of
    [bolt_json.go] follow, and a reference instance [memdb] shows that the
    laws can hold. *)
From S2P Require Import Prelude GoStrings Json Protocol.

(** ** Persisted records *)

Record downloadIntent := { IntentFile : IndexEntry; IntentSource : string }.

#[export] Instance downloadIntent_eq_dec : EqDecision downloadIntent.
Proof. solve_decision. Defined.

(** Times are nanoseconds from the zero [time.Time]. *)
Abbreviation time := Z.

Record TaskContext := {
  TaskID : string;
  TService : string;
  Status : string;
  RequesterNodeID : string;
  ReplyTo : string;
  NodeID : string;
  Payload : gomap any;
  TError : string;
  PipelineState : option PipelineExecutionState;
  Metadata : gomap string }.

Record TaskJournalRecord := {
  JContext : TaskContext;
  JSequence : N;
  JTimestamp : time;
  JStepID : string;
  JStepIndex : Z;
  JOutputs : gomap any;
  JIntermediate : bool;
  JIntermediateBlobs : list string }.

Record TaskRecord := {
  TContext : TaskContext;
  CreatedAt : time;
  UpdatedAt : time;
  TCurrentStep : Z;
  TCurrentStepID : string;
  ExpectedProducerNodeID : string;
  TOutputs : gomap (gomap any);
  FinalOutputs : gomap any;
  Retries : Z }.

(** The notifications the outbox carries; the raw JSON of the payload field
    is represented by the notification it encodes, or by its bytes. *)
Inductive notification :=
  | ServiceNotification (action node : string) (schema : ServiceSchema)
  | PipelineNotification (action node : string) (schema : PipelineSchema)
  | PeerNotification (file : IndexEntry) (source : string)
  | RawPayload (bytes : string).

#[export] Instance notification_eq_dec : EqDecision notification.
Proof. solve_decision. Defined.

Record outboxEntry := {
  OID : string;
  OPeerID : string;
  OKind : string;
  OEntity : string;
  OGeneration : N;
  OPayload : notification;
  OCreatedAt : time }.

#[export] Instance outboxEntry_eq_dec : EqDecision outboxEntry.
Proof. solve_decision. Defined.

(** ** Buckets and values *)

Inductive bucket :=
  | Subscriptions | ServiceSubs
  | NotifyOutbox | NotifyOutboxGenerations | NotifyOutboxReservations
  | DownloadIntents | Peers | PendingInvites | PipelineSchemas | PendingBlobGC
  | VfsIndex | TasksJournal | TasksActive | TasksHistory.

#[export] Instance bucket_eq_dec : EqDecision bucket.
Proof. solve_decision. Defined.

Definition allBuckets : list bucket :=
  [ Subscriptions; ServiceSubs; NotifyOutbox; NotifyOutboxGenerations;
    NotifyOutboxReservations; DownloadIntents; Peers; PendingInvites;
    PipelineSchemas; PendingBlobGC; VfsIndex; TasksJournal; TasksActive; TasksHistory ].

Inductive json (T : Type) :=
  | JDoc (v : T)
  | JCorrupt (bytes : string).
Arguments JDoc {T} v.
Arguments JCorrupt {T} bytes.

#[export] Instance json_eq_dec `{EqDecision T} : EqDecision (json T).
Proof. solve_decision. Defined.

(** What each bucket stores.  Flags and generations are plain bytes. *)
Definition val (b : bucket) : Type :=
  match b with
  | Subscriptions | ServiceSubs | PendingBlobGC => string
  | NotifyOutbox => json outboxEntry
  | NotifyOutboxGenerations | NotifyOutboxReservations => string
  | DownloadIntents => json downloadIntent
  | Peers => json AddressRecord
  | PendingInvites => json time
  | PipelineSchemas => json PipelineSchema
  | VfsIndex => json IndexEntry
  | TasksJournal => json TaskJournalRecord
  | TasksActive | TasksHistory => json TaskRecord
  end.

(** ** bbolt *)

Class Bolt (DB : Type) := {
  (** [tx.Bucket(b) != nil]. *)
  bhas : DB → bucket → bool;
  bget : DB → ∀ b, string → option (val b);
  (** Cursor order. *)
  bforeach : DB → ∀ b, list (string * val b);
  bput : DB → ∀ b, string → val b → res DB;
  bdel : DB → ∀ b : bucket, string → res DB;
  bcreate : DB → bucket → res DB;
  (** Committing the state a transaction reached, over the state it started
      from: an error leaves the old state. *)
  bcommit : DB → DB → option error }.

(** The documented behaviour: reads see the transaction's own writes,
    buckets are independent, and a cursor visits exactly the stored pairs in
    byte order of the keys. *)
Class BoltLaws (DB : Type) `{Bolt DB} : Prop := {
  bget_put d b k v d' k' :
    bput d b k v = Ok d' → bget d' b k' = if decide (k = k') then Some v else bget d b k';
  bget_put_ne d b k v d' b' k' :
    bput d b k v = Ok d' → b ≠ b' → bget d' b' k' = bget d b' k';
  bget_del d b k d' k' :
    bdel d b k = Ok d' → bget d' b k' = if decide (k = k') then None else bget d b k';
  bget_del_ne d b k d' b' k' :
    bdel d b k = Ok d' → b ≠ b' → bget d' b' k' = bget d b' k';
  bhas_put d b k v d' b' : bput d b k v = Ok d' → bhas d' b' = bhas d b';
  bhas_del d b k d' b' : bdel d b k = Ok d' → bhas d' b' = bhas d b';
  bhas_create d b d' b' :
    bcreate d b = Ok d' → bhas d' b' = bool_decide (b = b') || bhas d b';
  bget_create d b d' b' k : bcreate d b = Ok d' → bget d' b' k = bget d b' k;
  bget_has d b k v : bget d b k = Some v → bhas d b = true;
  bforeach_elem d b k v : (k, v) ∈ bforeach d b ↔ bget d b k = Some v;
  bforeach_sorted d b : StronglySorted str_lt (bforeach d b).*1 }.

(** bbolt's [MaxKeySize]. *)
Definition key_fits (k : string) : Prop := (N.of_nat (str_len k) ≤ 32768)%N.

(** A store that accepts every legal write: keys are non-empty and at most
    32768 bytes, and no commit fails. *)
Class BoltReliable (DB : Type) `{Bolt DB} : Prop := {
  bput_ok d b k v :
    bhas d b = true → k ≠ "" → key_fits k → ∃ d', bput d b k v = Ok d';
  bdel_ok d b k : bhas d b = true → ∃ d', bdel d b k = Ok d';
  bcommit_ok d d' : bcommit d d' = None }.

(** ** Transactions *)

(** [db.Update]: an error, from the body or the commit, rolls back. *)
Definition Update {DB} `{Bolt DB} {A} (d : DB) (body : DB → res (A * DB)) : res A * DB :=
  match body d with
  | Err e => (Err e, d)
  | Ok (a, d') =>
      match bcommit d d' with
      | Some e => (Err e, d)
      | None => (Ok a, d')
      end
  end.

(** [db.View]: a read-only transaction. *)
Definition View {DB A} (d : DB) (body : DB → res A) : res A := body d.

(** ** [bolt_json.go] *)

Section helpers.
Context {DB : Type} `{!Bolt DB}.

Definition boltBucket (tx : DB) (b : bucket) : res unit :=
  if bhas tx b then Ok () else Err (EMsg "bucket not found").

(** Writing an encoded document. *)
Definition boltPut (tx : DB) (b : bucket) (key : string) (v : val b) : res DB :=
  match boltBucket tx b with
  | Err e => Err e
  | Ok _ => bput tx b key v
  end.

Definition boltDelete (tx : DB) (b : bucket) (key : string) : res DB :=
  match boltBucket tx b with
  | Err e => Err e
  | Ok _ => bdel tx b key
  end.

Definition boltHasKey (tx : DB) (b : bucket) (key : string) : res bool :=
  match boltBucket tx b with
  | Err e => Err e
  | Ok _ => Ok (bool_decide (is_Some (bget tx b key)))
  end.

Definition unmarshal {T} (v : json T) : res T :=
  match v with
  | JDoc v => Ok v
  | JCorrupt _ => Err (EMsg "corrupt JSON")
  end.

(** [boltGetJSON] on a bucket of documents. *)
Definition boltGetJSON {T} (b : bucket) (dec : val b → json T) (tx : DB) (key : string)
    : res (option T) :=
  match boltBucket tx b with
  | Err e => Err e
  | Ok _ =>
      match bget tx b key with
      | None => Ok None
      | Some raw =>
          match unmarshal (dec raw) with
          | Ok item => Ok (Some item)
          | Err e => Err e
          end
      end
  end.

(** [boltLoadMapJSON]: stops at the first document that does not decode. *)
Fixpoint decodeAll {T} (l : list (string * json T)) (out : gmap string T) : res (gmap string T) :=
  match l with
  | [] => Ok out
  | (k, raw) :: rest =>
      match unmarshal raw with
      | Ok item => decodeAll rest (<[k := item]> out)
      | Err e => Err e
      end
  end.

Definition boltLoadMapJSON {T} (b : bucket) (dec : val b → json T) (d : DB) : res (gmap string T) :=
  match boltBucket d b with
  | Err e => Err e
  | Ok _ => decodeAll (prod_map id dec <$> bforeach d b) ∅
  end.
End helpers.

(** The flag bytes of [boltPutFlag]. *)
Definition flagBytes : string := "true".

(** ** Laws of the helpers *)

Section helper_laws.
Context {DB : Type} `{!Bolt DB} `{!BoltLaws DB}.

Lemma boltPut_bput tx b k v tx' : boltPut tx b k v = Ok tx' → bhas tx b = true ∧ bput tx b k v = Ok tx'.
Proof. unfold boltPut, boltBucket. by destruct (bhas tx b). Qed.

Lemma boltDelete_bdel tx b k tx' : boltDelete tx b k = Ok tx' → bhas tx b = true ∧ bdel tx b k = Ok tx'.
Proof. unfold boltDelete, boltBucket. by destruct (bhas tx b). Qed.

Lemma bget_boltPut tx b k v tx' k' :
  boltPut tx b k v = Ok tx' → bget tx' b k' = if decide (k = k') then Some v else bget tx b k'.
Proof. intros [_ ?]%boltPut_bput. by apply bget_put. Qed.

Lemma bget_boltPut_ne tx b k v tx' b' k' :
  boltPut tx b k v = Ok tx' → b ≠ b' → bget tx' b' k' = bget tx b' k'.
Proof. intros [_ ?]%boltPut_bput. by eapply bget_put_ne. Qed.

Lemma bget_boltDelete tx b k tx' k' :
  boltDelete tx b k = Ok tx' → bget tx' b k' = if decide (k = k') then None else bget tx b k'.
Proof. intros [_ ?]%boltDelete_bdel. by apply bget_del. Qed.

Lemma bget_boltDelete_ne tx b k tx' b' k' :
  boltDelete tx b k = Ok tx' → b ≠ b' → bget tx' b' k' = bget tx b' k'.
Proof. intros [_ ?]%boltDelete_bdel. by eapply bget_del_ne. Qed.

Lemma bhas_boltPut tx b k v tx' b' : boltPut tx b k v = Ok tx' → bhas tx' b' = bhas tx b'.
Proof. intros [_ ?]%boltPut_bput. by eapply bhas_put. Qed.

Lemma bhas_boltDelete tx b k tx' b' : boltDelete tx b k = Ok tx' → bhas tx' b' = bhas tx b'.
Proof. intros [_ ?]%boltDelete_bdel. by eapply bhas_del. Qed.

Lemma boltPut_ok `{!BoltReliable DB} tx b k v :
  bhas tx b = true → k ≠ "" → key_fits k → ∃ tx', boltPut tx b k v = Ok tx'.
Proof. intros Hb ? ?. unfold boltPut, boltBucket. rw Hb. by apply bput_ok. Qed.

Lemma boltDelete_ok `{!BoltReliable DB} tx b k :
  bhas tx b = true → ∃ tx', boltDelete tx b k = Ok tx'.
Proof. intros Hb. unfold boltDelete, boltBucket. rw Hb. by apply bdel_ok. Qed.

(** An update either rolls back with an error or installs the state its
    body reached. *)
Lemma Update_spec {A} (d : DB) (body : DB → res (A * DB)) r d' :
  Update d body = (r, d') →
  (∃ a, r = Ok a ∧ body d = Ok (a, d')) ∨ (∃ e, r = Err e ∧ d' = d).
Proof.
  unfold Update. destruct (body d) as [[a d1]|e]; [destruct (bcommit d d1)|]; naive_solver.
Qed.

Lemma Update_ok `{!BoltReliable DB} {A} (d : DB) (body : DB → res (A * DB)) a d' :
  body d = Ok (a, d') → Update d body = (Ok a, d').
Proof. intros Hb. unfold Update. by rw Hb bcommit_ok. Qed.

Lemma bforeach_nodup d b : NoDup (bforeach d b).*1.
Proof.
  pose proof (bforeach_sorted d b) as Hs. induction Hs as [|k l Hs IH Hall]; constructor; [|done].
  intros Hk. rewrite ->Forall_forall in Hall. by apply (irreflexivity str_lt k), Hall.
Qed.

(** Decoding a whole bucket gives the map of its documents, or an error
    exactly when one of them does not decode. *)
Lemma decodeAll_spec {T} (l : list (string * json T)) out m :
  NoDup l.*1 → decodeAll l out = Ok m →
  ∀ k, m !! k = match (list_to_map l : gmap string (json T)) !! k with
                | Some raw => match raw with JDoc v => Some v | JCorrupt _ => None end
                | None => out !! k end.
Proof.
  revert out. induction l as [|[k0 raw] l IH]; intros out Hnd; simpl.
  { intros [= ->] k. by rw lookup_empty. }
  apply NoDup_cons in Hnd as [Hk0 Hnd]. destruct raw as [v|]; simpl; [|done].
  intros Hdec k. rw (IH _ Hnd Hdec k). rw lookup_insert.
  destruct (decide (k0 = k)) as [->|Hne]; [|by rw lookup_insert_ne].
  rw (not_elem_of_list_to_map_1 l k) //. by rw lookup_insert_eq.
Qed.

Lemma decodeAll_docs {T} (l : list (string * json T)) out m k raw :
  decodeAll l out = Ok m → (k, raw) ∈ l → ∃ v, raw = JDoc v.
Proof.
  revert out. induction l as [|[k0 raw0] l IH]; intros out; simpl; [by intros _ ?%elem_of_nil|].
  destruct raw0 as [v|]; simpl; [|done]. intros Hd [[= -> ->]|Hin]%elem_of_cons; [by exists v|].
  by eapply IH.
Qed.

Lemma boltLoadMapJSON_spec {T} b (dec : val b → json T) d m :
  boltLoadMapJSON b dec d = Ok m →
  ∀ k, match bget d b k with
       | Some raw => ∃ v, dec raw = JDoc v ∧ m !! k = Some v
       | None => m !! k = None
       end.
Proof.
  unfold boltLoadMapJSON, boltBucket. destruct (bhas d b); [|done]. intros Hdec k.
  assert (NoDup (prod_map id dec <$> bforeach d b).*1) as Hnd.
  { rw -list_fmap_compose. apply (bforeach_nodup d b). }
  pose proof (decodeAll_spec _ _ _ Hnd Hdec k) as Hk. rw lookup_empty in Hk.
  destruct (bget d b k) as [raw|] eqn:Hget.
  - assert ((k, dec raw) ∈ (prod_map id dec <$> bforeach d b)) as Hin.
    { apply list_elem_of_fmap. exists (k, raw). split; [done|]. by apply bforeach_elem. }
    destruct (decodeAll_docs _ _ _ _ _ Hdec Hin) as [v Hv]. exists v. split; [done|].
    rw (elem_of_list_to_map_1 _ _ _ Hnd Hin) in Hk. by rw Hv in Hk.
  - rw not_elem_of_list_to_map_1 in Hk; [done|].
    intros ([k' raw] & -> & Hin)%list_elem_of_fmap.
    apply list_elem_of_fmap in Hin as ([k'' v] & [= -> ->] & Hin).
    apply bforeach_elem in Hin. simpl in Hget. by rw Hget in Hin.
Qed.

(** It succeeds when every document decodes. *)
Lemma boltLoadMapJSON_ok {T} b (dec : val b → json T) d :
  bhas d b = true → (∀ k raw, bget d b k = Some raw → ∃ v, dec raw = JDoc v) → ∃ m, boltLoadMapJSON b dec d = Ok m.
Proof.
  intros Hb Hall. unfold boltLoadMapJSON, boltBucket. rw Hb.
  assert (∀ k raw, (k, raw) ∈ prod_map id dec <$> bforeach d b → ∃ v, raw = JDoc v) as Hdec.
  { intros k raw ([k' r] & [= -> ->] & Hin)%list_elem_of_fmap. apply bforeach_elem in Hin. by apply (Hall k'). }
  revert Hdec. generalize (prod_map id dec <$> bforeach d b) (∅ : gmap string T).
  induction l as [|[k raw] l IH]; intros out Hdec; [by exists out|].
  destruct (Hdec k raw) as [v ->]; [by left|]. simpl. apply IH. intros k' r Hin. apply (Hdec k'). by right.
Qed.
End helper_laws.

(** ** A reference store *)

(** One finite map per bucket. *)
Record memdb := {
  mhas : bucket → bool;
  mcells : ∀ b, gmap string (val b) }.

Definition cells_update (m : ∀ b, gmap string (val b)) (b : bucket)
    (f : gmap string (val b) → gmap string (val b)) : ∀ b, gmap string (val b) :=
  λ b', match decide (b = b') with
        | left Heq => eq_rect b (λ b', gmap string (val b')) (f (m b)) b' Heq
        | right _ => m b'
        end.

(** The pairs of a map in byte order of the keys. *)
Definition sorted_pairs {V} (m : gmap string V) : list (string * V) :=
  omap (λ k, (k,.) <$> m !! k) (sort_strings (map_to_list m).*1).

#[export] Instance memdb_bolt : Bolt memdb := {|
  bhas d b := mhas d b;
  bget d b k := if mhas d b then mcells d b !! k else None;
  bforeach d b := if mhas d b then sorted_pairs (mcells d b) else [];
  bput d b k v :=
    if negb (mhas d b) then Err (EMsg "bucket not found")
    else if bool_decide (k = "") then Err (EMsg "key required")
    else if (32768 <? N.of_nat (str_len k))%N then Err (EMsg "key too large")
    else Ok {| mhas := mhas d; mcells := cells_update (mcells d) b (insert k v) |};
  bdel d b k :=
    if negb (mhas d b) then Err (EMsg "bucket not found")
    else Ok {| mhas := mhas d; mcells := cells_update (mcells d) b (delete k) |};
  bcreate d b :=
    if mhas d b then Ok d
    else Ok {| mhas b' := bool_decide (b = b') || mhas d b';
               mcells := cells_update (mcells d) b (λ _, ∅) |};
  bcommit _ _ := None |}.

(** The empty file, and the file after [NewStorageEngine] made the buckets. *)
Definition memdb_empty : memdb := {| mhas _ := false; mcells _ := ∅ |}.
Definition memdb_init : memdb := {| mhas _ := true; mcells _ := ∅ |}.

Lemma cells_update_eq m b f : cells_update m b f b = f (m b).
Proof.
  unfold cells_update. destruct (decide (b = b)) as [Heq|]; [|done].
  by rw (Eqdep_dec.UIP_dec bucket_eq_dec Heq eq_refl).
Qed.

Lemma cells_update_ne m b f b' : b ≠ b' → cells_update m b f b' = m b'.
Proof. intros. unfold cells_update. by destruct (decide (b = b')). Qed.

Lemma sorted_pairs_elem {V} (m : gmap string V) k v : (k, v) ∈ sorted_pairs m ↔ m !! k = Some v.
Proof.
  unfold sorted_pairs. rw list_elem_of_omap. setoid_rewrite sort_strings_perm. split.
  - intros (k' & _ & Hk'). destruct (m !! k') eqn:E; simpl in *; naive_solver.
  - intros Hk. exists k. rw Hk. split; [|done]. apply list_elem_of_fmap.
    exists (k, v). split; [done|]. by apply elem_of_map_to_list.
Qed.

Lemma omap_present_keys {V} (m : gmap string V) (l : list string) :
  (∀ k, k ∈ l → is_Some (m !! k)) → (omap (λ k, (k,.) <$> m !! k) l).*1 = l.
Proof.
  induction l as [|k l IH]; intros Hin; [done|].
  destruct (Hin k) as [v Hv]; [by left|]. simpl. rw Hv /=. f_equal.
  apply IH. intros k' ?. apply Hin. by right.
Qed.

Lemma str_le_lt s t : String.le s t → s ≠ t → str_lt s t.
Proof.
  unfold String.le, str_lt, String.leb. destruct (String.compare s t) eqn:E; try done.
  intros _ Hne. destruct Hne. by apply str_compare_eq.
Qed.

Lemma sorted_pairs_sorted {V} (m : gmap string V) : StronglySorted str_lt (sorted_pairs m).*1.
Proof.
  unfold sorted_pairs. rw omap_present_keys.
  - assert (NoDup (sort_strings (map_to_list m).*1)) as Hnd.
    { rw sort_strings_perm. apply NoDup_fst_map_to_list. }
    pose proof (Sorted_StronglySorted _ _ (sort_strings_sorted (map_to_list m).*1)) as Hs.
    revert Hnd. induction Hs as [|k l Hs IH Hall]; intros Hnd; [constructor|].
    apply NoDup_cons in Hnd as [Hk Hnd]. constructor; [by apply IH|].
    rewrite ->Forall_forall in Hall |- *. intros x Hx. apply str_le_lt; [by apply Hall|].
    intros ->. done.
  - intros k Hk. rewrite ->sort_strings_perm in Hk.
    apply list_elem_of_fmap in Hk as ([k' v] & -> & Hin%elem_of_map_to_list). by exists v.
Qed.

#[export] Instance memdb_laws : BoltLaws memdb.
Proof.
  split; simpl; intros *;
    try (destruct (mhas d b) eqn:Hhas; simpl; [|done];
         try (case_bool_decide; [done|]; case_match; [done|]); intros [= <-]; simpl).
  - rw Hhas cells_update_eq lookup_insert. done.
  - intros. by rw cells_update_ne.
  - rw Hhas cells_update_eq lookup_delete. done.
  - intros. by rw cells_update_ne.
  - done.
  - done.
  - destruct (mhas d b) eqn:Hhas; intros [= <-]; simpl; [|done].
    case_bool_decide; [subst; by rw Hhas|done].
  - destruct (mhas d b) eqn:Hhas; intros [= <-]; simpl; [done|].
    destruct (decide (b = b')) as [->|Hne]; [rw Hhas bool_decide_eq_true_2 // cells_update_eq lookup_empty //|].
    rw bool_decide_eq_false_2 // cells_update_ne //.
  - by destruct (mhas d b).
  - destruct (mhas d b); [apply sorted_pairs_elem|]. split; [by intros ?%elem_of_nil|done].
  - destruct (mhas d b); [apply sorted_pairs_sorted|constructor].
Qed.

#[export] Instance memdb_reliable : BoltReliable memdb.
Proof.
  split; simpl; [| |done].
  - intros d b k v Hb Hk Hfits. rw Hb. simpl. unfold key_fits in Hfits.
    rw bool_decide_eq_false_2 //. rw (proj2 (N.ltb_ge _ _)) //. by eauto.
  - intros d b k Hb. rw Hb. simpl. by eauto.
Qed.
