(* ===== verification/Vfs.v ===== *)
(** * The VFS index: the replicated order and its write core

    [internal/storage/vfs.go].  Every node keeps, per logical name, the entry
    that wins a total order; [resolveVFSWrite] is the one place that writes
    the index, inside a transaction. *)
From S2P Require Import Prelude GoStrings Json Protocol Bolt.

(** ** The order *)

Definition compareIndexEntries (candidate current : IndexEntry) : Z :=
  (if bool_decide (Version candidate ≠ Version current) then
    if (Version current <? Version candidate)%Z then 1 else -1
  else if bool_decide (Deleted candidate ≠ Deleted current) then
    if Deleted candidate then 1 else -1
  else if bool_decide (Hash candidate ≠ Hash current) then
    if String.ltb (Hash current) (Hash candidate) then 1 else -1
  else if bool_decide (Size candidate ≠ Size current) then
    if (Size current <? Size candidate)%Z then 1 else -1
  else if bool_decide (Name candidate ≠ Name current) then
    if String.ltb (Name current) (Name candidate) then 1 else -1
  else 0)%Z.

(** ** Transactions on the index *)

Section vfs.
Context {DB : Type} `{!Bolt DB}.

Definition indexGetTx (tx : DB) (name : string) : res (option IndexEntry) :=
  boltGetJSON VfsIndex (λ v, v) tx name.

Definition boltPutFlag_gc (tx : DB) (hash : string) : res DB :=
  boltPut tx PendingBlobGC hash flagBytes.

Definition queueSupersededBlobGCTx (tx : DB) (previous next : IndexEntry) : res DB :=
  if bool_decide (Hash previous = "") ||
     (negb (Deleted next) && bool_decide (Hash previous = Hash next)) then Ok tx
  else boltPutFlag_gc tx (Hash previous).

(** The result of a resolved write: the effective entry, the previous one
    (if any) and whether the write was applied. *)
Record vfsWrite := { written : IndexEntry; existing : option IndexEntry; applied : bool }.

Definition nextVersion (existing : option IndexEntry) : Z :=
  match existing with
  | Some cur => wrap64 (Version cur + 1)
  | None => 1
  end.

Definition resolveVFSWrite (tx : DB) (entry : IndexEntry) : res (vfsWrite * DB) :=
  match indexGetTx tx (Name entry) with
  | Err e => Err e
  | Ok existing =>
      let noop cur := Ok ({| written := cur; existing := Some cur; applied := false |}, tx) in
      let store entry :=
        match boltPut tx VfsIndex (Name entry) (JDoc entry) with
        | Err e => Err e
        | Ok tx1 =>
            match existing with
            | None => Ok ({| written := entry; existing := None; applied := true |}, tx1)
            | Some cur =>
                match queueSupersededBlobGCTx tx1 cur entry with
                | Err e => Err e
                | Ok tx2 => Ok ({| written := entry; existing := Some cur; applied := true |}, tx2)
                end
            end
        end in
      if (0 <? Version entry)%Z then
        match existing with
        | Some cur =>
            if (compareIndexEntries entry cur <=? 0)%Z then noop cur else store entry
        | None => store entry
        end
      else store (with_version entry (nextVersion existing))
  end.

(** [VFS.Get] *)
Definition VFS_Get (d : DB) (name : string) : res (option IndexEntry) :=
  View d (λ tx, indexGetTx tx name).

(** [VFS.Upsert] *)
Definition VFS_Upsert (d : DB) (entry : IndexEntry) : res bool * DB :=
  Update d (λ tx,
    match resolveVFSWrite tx entry with
    | Err e => Err e
    | Ok (w, tx') => Ok (applied w, tx')
    end).

(** [VFS.upsertAndSubscribe]: metadata and subscription flag in one
    transaction. *)
Definition VFS_upsertAndSubscribe (d : DB) (entry : IndexEntry) : res vfsWrite * DB :=
  Update d (λ tx,
    match resolveVFSWrite tx entry with
    | Err e => Err e
    | Ok (w, tx') =>
        if applied w then
          match boltPut tx' Subscriptions (Name entry) flagBytes with
          | Err e => Err e
          | Ok tx'' => Ok (w, tx'')
          end
        else Ok (w, tx')
    end).

(** [VFS.Snapshot] *)
Definition VFS_Snapshot (d : DB) : res (gmap string IndexEntry) :=
  boltLoadMapJSON VfsIndex (λ v, v) d.
End vfs.
Arguments resolveVFSWrite {DB _} tx entry : simpl never.

(** ** The order is total *)

Lemma str_ltb_lt s t : String.ltb s t = true ↔ str_lt s t.
Proof. unfold String.ltb, str_lt. by destruct (String.compare s t). Qed.

(** The lexicographic comparison the code spells out. *)
Definition entry_lt (a b : IndexEntry) : Prop :=
  (Version a < Version b)%Z ∨
  Version a = Version b ∧
  (Deleted a = false ∧ Deleted b = true ∨
   Deleted a = Deleted b ∧
   (str_lt (Hash a) (Hash b) ∨
    Hash a = Hash b ∧
    ((Size a < Size b)%Z ∨
     Size a = Size b ∧ str_lt (Name a) (Name b)))).

#[export] Instance entry_lt_irreflexive : Irreflexive entry_lt.
Proof.
  intros a. unfold complement, entry_lt.
  intros [?|[_ [[? ?]|[_ [?|[_ [?|[_ ?]]]]]]]]; [lia|congruence| |lia|];
    by eapply (irreflexivity str_lt).
Qed.

#[export] Instance entry_lt_transitive : Transitive entry_lt.
Proof.
  intros a b c. unfold entry_lt.
  pose proof (transitivity (R := str_lt) (x := Hash a) (y := Hash b) (z := Hash c)) as H1.
  pose proof (transitivity (R := str_lt) (x := Name a) (y := Name b) (z := Name c)) as H2.
  intros Hab Hbc. destruct Hab as [?|[? Hab]], Hbc as [?|[? Hbc]]; [left; lia..|].
  right. split; [lia|].
  destruct Hab as [[? ?]|[? Hab]], Hbc as [[? ?]|[? Hbc]]; [left; split; congruence..|].
  right. split; [congruence|].
  destruct Hab as [?|[? Hab]], Hbc as [?|[? Hbc]].
  - left. eauto.
  - left. congruence.
  - left. congruence.
  - right. split; [congruence|].
    destruct Hab as [?|[? Hab]], Hbc as [?|[? Hbc]]; [left; lia..|].
    right. split; [lia|eauto].
Qed.

(** One level of the chain: a decided comparison settles the result, an equal
    one hands over to the next level. *)
Lemma chain_level {A} `{EqDecision A} (x y : A) (gt : bool) (G N : Prop) (next : Z) :
  (x ≠ y → gt = true ↔ G) → (x = y → ¬ G) → (x = y → next = 1%Z ↔ N) →
  (if bool_decide (x ≠ y) then if gt then 1 else -1 else next)%Z = 1%Z ↔ G ∨ x = y ∧ N.
Proof.
  intros HG Hirr HN. destruct (decide (x = y)) as [Heq|Hne].
  - rw bool_decide_eq_false_2; [|tauto]. rw (HN Heq). naive_solver.
  - rw bool_decide_eq_true_2 //. specialize (HG Hne). destruct gt; intuition congruence.
Qed.

Lemma str_lt_ne s t : s = t → ¬ str_lt t s.
Proof. intros ->. apply (irreflexivity str_lt). Qed.

Lemma compareIndexEntries_gt a b : compareIndexEntries a b = 1%Z ↔ entry_lt b a.
Proof.
  unfold compareIndexEntries, entry_lt.
  rw (chain_level (Version a) _ _ (Version b < Version a)%Z); [|intros; apply Z.ltb_lt|lia|].
  2: { intros _. apply (chain_level _ _ _ (Deleted b = false ∧ Deleted a = true));
         [destruct (Deleted a), (Deleted b); intuition congruence|intuition congruence|].
       intros _. apply (chain_level _ _ _ (str_lt (Hash b) (Hash a)));
         [intros; apply str_ltb_lt|apply str_lt_ne|].
       intros _. apply (chain_level _ _ _ (Size b < Size a)%Z); [intros; apply Z.ltb_lt|lia|].
       intros _. apply (chain_level _ _ _ (str_lt (Name b) (Name a)) False);
         [intros; apply str_ltb_lt|apply str_lt_ne|]. intros _. split; [lia|done]. }
  intuition congruence.
Qed.

Lemma compareIndexEntries_range a b :
  compareIndexEntries a b = 1%Z ∨ compareIndexEntries a b = 0%Z ∨ compareIndexEntries a b = (-1)%Z.
Proof. unfold compareIndexEntries. repeat case_match; auto. Qed.

Lemma compareIndexEntries_eq a b : compareIndexEntries a b = 0%Z ↔ a = b.
Proof.
  unfold compareIndexEntries. split.
  - repeat (case_bool_decide; [by case_match|]). intros _. destruct a, b; simpl in *. congruence.
  - intros ->. repeat (rw bool_decide_eq_false_2; [|tauto]). done.
Qed.

Lemma entry_lt_total a b : entry_lt a b ∨ a = b ∨ entry_lt b a.
Proof.
  unfold entry_lt.
  assert (Deleted a = false ∧ Deleted b = true ∨ Deleted a = Deleted b ∨
          Deleted b = false ∧ Deleted a = true) as HD by (destruct (Deleted a), (Deleted b); auto).
  destruct (Z.lt_total (Version a) (Version b)) as [?|[HV|?]]; [tauto| |tauto].
  destruct HD as [?|[HD|?]]; [tauto| |intuition congruence].
  destruct (str_lt_total (Hash a) (Hash b)) as [?|[HH|?]]; [tauto| |intuition congruence].
  destruct (Z.lt_total (Size a) (Size b)) as [?|[HS|?]]; [tauto| |intuition congruence].
  destruct (str_lt_total (Name a) (Name b)) as [?|[HN|?]]; [tauto| |intuition congruence].
  right; left. destruct a, b; simpl in *. congruence.
Qed.

Lemma compareIndexEntries_le a b : (compareIndexEntries a b ≤ 0)%Z ↔ entry_lt a b ∨ a = b.
Proof.
  pose proof (compareIndexEntries_gt a b) as Hgt. pose proof (compareIndexEntries_range a b) as Hr.
  split.
  - intros Hle. destruct (entry_lt_total a b) as [?|[?|?%Hgt]]; auto; lia.
  - intros Hle. destruct Hr as [Hr|Hr]; [|lia]. exfalso. rw Hr in Hgt.
    destruct Hle as [Hlt|<-].
    + apply (irreflexivity entry_lt a). transitivity b; [done|by apply Hgt].
    + apply (irreflexivity entry_lt a). by apply Hgt.
Qed.

(** ** What a resolved write does *)

(** The abstract index: the entry each name decodes to. *)
Definition index_of {DB} `{!Bolt DB} (d : DB) (name : string) : option IndexEntry :=
  match bget d VfsIndex name with
  | Some (JDoc e) => Some e
  | _ => None
  end.

(** [next] leaves the blob of [cur] behind. *)
Definition supersedes (cur next : IndexEntry) : Prop :=
  Hash cur ≠ "" ∧ (Deleted next = true ∨ Hash cur ≠ Hash next).

#[export] Instance supersedes_dec cur next : Decision (supersedes cur next).
Proof. unfold supersedes. apply _. Defined.

Section vfs_laws.
Context {DB : Type} `{!Bolt DB} `{!BoltLaws DB}.
Implicit Types (d tx : DB) (e cur : IndexEntry).

Lemma indexGetTx_Some tx name o : indexGetTx tx name = Ok o → index_of tx name = o.
Proof.
  unfold indexGetTx, boltGetJSON, boltBucket, index_of.
  destruct (bhas tx VfsIndex); [|done].
  destruct (bget tx VfsIndex name) as [[v|]|]; simpl; congruence.
Qed.

Lemma queueSuperseded_spec tx cur next tx' :
  queueSupersededBlobGCTx tx cur next = Ok tx' →
  (∀ b, bhas tx' b = bhas tx b) ∧
  (∀ b k, b ≠ PendingBlobGC → bget tx' b k = bget tx b k) ∧
  (∀ h, bget tx' PendingBlobGC h =
     if decide (supersedes cur next ∧ Hash cur = h) then Some flagBytes else bget tx PendingBlobGC h).
Proof.
  unfold queueSupersededBlobGCTx, supersedes, boltPutFlag_gc. intros Hq.
  destruct (bool_decide (Hash cur = "") || negb (Deleted next) && bool_decide (Hash cur = Hash next)) eqn:E.
  - injection Hq as <-. split; [done|]. split; [done|]. intros h. rw decide_False //.
    apply orb_true_iff in E as [E%bool_decide_eq_true|[E1%negb_true_iff E2%bool_decide_eq_true]%andb_true_iff];
      intuition congruence.
  - split; [intros; by eapply bhas_boltPut|]. split; [intros; by eapply bget_boltPut_ne|].
    intros h. rw (bget_boltPut _ _ _ _ _ _ Hq).
    apply orb_false_iff in E as [E1%bool_decide_eq_false E2%andb_false_iff].
    assert (Deleted next = true ∨ Hash cur ≠ Hash next).
    { destruct E2 as [E2%negb_false_iff|E2%bool_decide_eq_false]; auto. }
    repeat case_decide; intuition congruence.
Qed.

(** The effect of a resolved write, bucket by bucket. *)
Record write_effect tx entry (w : vfsWrite) tx' : Prop := {
  we_existing : existing w = index_of tx (Name entry);
  we_has b : bhas tx' b = bhas tx b;
  we_frame b k : b ≠ VfsIndex → b ≠ PendingBlobGC → bget tx' b k = bget tx b k;
  we_name : Name (written w) = Name entry ∨ applied w = false;
  we_index k : bget tx' VfsIndex k =
    if decide (applied w = true ∧ Name entry = k) then Some (JDoc (written w)) else bget tx VfsIndex k;
  we_gc h : bget tx' PendingBlobGC h =
    match existing w with
    | Some cur => if decide (applied w = true ∧ supersedes cur (written w) ∧ Hash cur = h)
                  then Some flagBytes else bget tx PendingBlobGC h
    | None => bget tx PendingBlobGC h
    end;
  we_noop : applied w = false →
    (0 < Version entry)%Z ∧ existing w = Some (written w) ∧
    (entry_lt entry (written w) ∨ entry = written w);
  we_applied : applied w = true →
    written w = (if (0 <? Version entry)%Z then entry
                 else with_version entry (nextVersion (existing w))) ∧
    ((0 < Version entry)%Z → ∀ cur, existing w = Some cur → entry_lt cur entry) }.

Lemma store_effect tx entry e o tx1 tx' :
  index_of tx (Name entry) = o → Name e = Name entry →
  e = (if (0 <? Version entry)%Z then entry else with_version entry (nextVersion o)) →
  ((0 < Version entry)%Z → ∀ cur, o = Some cur → entry_lt cur entry) →
  boltPut tx VfsIndex (Name e) (JDoc e) = Ok tx1 →
  match o with None => tx' = tx1 | Some cur => queueSupersededBlobGCTx tx1 cur e = Ok tx' end →
  write_effect tx entry {| written := e; existing := o; applied := true |} tx'.
Proof.
  intros Ho Hname He Hlt Hput Hq.
  assert ((∀ b, bhas tx' b = bhas tx1 b) ∧
    (∀ b k, b ≠ PendingBlobGC → bget tx' b k = bget tx1 b k) ∧
    ∀ h, bget tx' PendingBlobGC h = match o with
    | Some cur => if decide (supersedes cur e ∧ Hash cur = h) then Some flagBytes else bget tx1 PendingBlobGC h
    | None => bget tx1 PendingBlobGC h end) as (Hhas & Hframe & Hgc).
  { destruct o as [cur|]; [by apply queueSuperseded_spec|by subst]. }
  split; simpl; try done; [..|auto].
  - intros b. rw Hhas. by eapply bhas_boltPut.
  - intros b k ? ?. rw Hframe //. by eapply bget_boltPut_ne.
  - by left.
  - intros k. rw Hframe // (bget_boltPut _ _ _ _ _ _ Hput) Hname.
    repeat case_decide; intuition congruence.
  - intros h. rw Hgc. destruct o as [cur|]; rw (bget_boltPut_ne _ _ _ _ _ PendingBlobGC _ Hput) //.
    repeat case_decide; intuition congruence.
Qed.

Lemma resolveVFSWrite_effect tx entry w tx' :
  resolveVFSWrite tx entry = Ok (w, tx') → write_effect tx entry w tx'.
Proof.
  unfold resolveVFSWrite. destruct (indexGetTx tx (Name entry)) as [o|] eqn:Hget; [|done].
  apply indexGetTx_Some in Hget.
  assert (∀ e, Name e = Name entry →
    e = (if (0 <? Version entry)%Z then entry else with_version entry (nextVersion o)) →
    ((0 < Version entry)%Z → ∀ cur, o = Some cur → entry_lt cur entry) →
    match boltPut tx VfsIndex (Name e) (JDoc e) with
    | Err er => Err er
    | Ok tx1 => match o with
      | None => Ok ({| written := e; existing := None; applied := true |}, tx1)
      | Some cur => match queueSupersededBlobGCTx tx1 cur e with
        | Err er => Err er
        | Ok tx2 => Ok ({| written := e; existing := Some cur; applied := true |}, tx2) end end
    end = Ok (w, tx') → write_effect tx entry w tx') as Hstore.
  { intros e Hname He Hlt. destruct (boltPut _ _ _ _) as [tx1|] eqn:Hput; [|done].
    destruct o as [cur|]; [destruct (queueSupersededBlobGCTx tx1 cur e) as [tx2|] eqn:Hq; [|done]|];
      intros [= <- <-]; by eapply store_effect. }
  destruct (Z.ltb_spec 0 (Version entry)) as [Hpos|Hneg].
  - destruct o as [cur|]; [|by apply Hstore].
    destruct (Z.leb_spec (compareIndexEntries entry cur) 0) as [Hle|Hgt].
    + intros [= <- <-]. apply compareIndexEntries_le in Hle.
      split; simpl; try done; auto.
      all: intros; rw decide_False //; by intros [? _].
    + apply Hstore; try done. intros _ ? [= <-]. apply compareIndexEntries_gt.
      destruct (compareIndexEntries_range entry cur); lia.
  - apply Hstore; [done|done|lia].
Qed.
End vfs_laws.

(** ** Upsert refines a join *)

(** The abstract replica update: keep the greater entry. *)
Definition entry_join (o : option IndexEntry) (e : IndexEntry) : IndexEntry :=
  match o with
  | Some cur => if (compareIndexEntries e cur <=? 0)%Z then cur else e
  | None => e
  end.

Definition abs_upsert (ix : string → option IndexEntry) (e : IndexEntry) : string → option IndexEntry :=
  λ k, if decide (Name e = k) then Some (entry_join (ix k) e) else ix k.

(** Replaying remote entries one transaction at a time. *)
Fixpoint upserts {DB} `{!Bolt DB} (d : DB) (l : list IndexEntry) : res DB :=
  match l with
  | [] => Ok d
  | e :: l' => match VFS_Upsert d e with
               | (Ok _, d') => upserts d' l'
               | (Err er, _) => Err er
               end
  end.

(** [m] is the greatest entry among the initial one and those of [l] named [k]. *)
Definition winner (o : option IndexEntry) (l : list IndexEntry) (k : string) (m : option IndexEntry) : Prop :=
  (∀ e, o = Some e ∨ e ∈ l ∧ Name e = k → ∃ g, m = Some g ∧ (entry_lt e g ∨ e = g)) ∧
  (∀ g, m = Some g → o = Some g ∨ g ∈ l ∧ Name g = k).

Lemma entry_join_ge o e :
  (entry_lt e (entry_join o e) ∨ e = entry_join o e) ∧
  (∀ cur, o = Some cur → entry_lt cur (entry_join o e) ∨ cur = entry_join o e) ∧
  (entry_join o e = e ∨ o = Some (entry_join o e)).
Proof.
  destruct o as [cur|]; simpl; [|naive_solver].
  destruct (Z.leb_spec (compareIndexEntries e cur) 0) as [Hle|Hgt].
  - apply compareIndexEntries_le in Hle. naive_solver.
  - split; [by right|]. split; [|by left]. intros ? [= <-]. left. apply compareIndexEntries_gt.
    destruct (compareIndexEntries_range e cur); lia.
Qed.

Lemma winner_unique o l k m m' : winner o l k m → winner o l k m' → m = m'.
Proof.
  intros [H1 H2] [H1' H2'].
  assert (∀ a b, (entry_lt a b ∨ a = b) → (entry_lt b a ∨ b = a) → a = b) as Hanti.
  { intros a b [?|?] [?|?]; auto. exfalso. apply (irreflexivity entry_lt a). by transitivity b. }
  destruct m as [g|], m' as [g'|]; try done.
  - destruct (H1 g' (H2' _ eq_refl)) as (? & [= <-] & ?).
    destruct (H1' g (H2 _ eq_refl)) as (? & [= <-] & ?). f_equal. by apply Hanti.
  - by destruct (H1' g (H2 _ eq_refl)) as (? & ? & _).
  - by destruct (H1 g' (H2' _ eq_refl)) as (? & ? & _).
Qed.

Lemma foldl_abs_upsert_winner ix l k : winner (ix k) l k (foldl abs_upsert ix l k).
Proof.
  revert ix. induction l as [|e l IH]; intros ix; simpl.
  { split; [|naive_solver]. intros e [->|[?%elem_of_nil _]]; [|done]. exists e. auto. }
  destruct (IH (abs_upsert ix e)) as [H1 H2].
  assert (abs_upsert ix e k = if decide (Name e = k) then Some (entry_join (ix k) e) else ix k)
    as Hk by done.
  rw Hk in H1. rw Hk in H2. clear Hk. destruct (decide (Name e = k)) as [<-|Hne].
  - destruct (entry_join_ge (ix (Name e)) e) as (Hge & Hcur & Hmem).
    destruct (H1 (entry_join (ix (Name e)) e)) as (g & Hg & Hle); [by left|].
    assert (∀ a, (entry_lt a (entry_join (ix (Name e)) e) ∨ a = entry_join (ix (Name e)) e) →
                 entry_lt a g ∨ a = g) as Htr.
    { intros a [?| ->]; [|done]. destruct Hle as [?| <-]; [left; by etransitivity|by left]. }
    split.
    + intros a [Ha|[[->|Ha]%elem_of_cons Hn]]; [exists g; auto..|]. apply H1. auto.
    + intros a Ha. destruct (H2 a Ha) as [[= <-]|[? ?]]; [|right; split; [by right|done]].
      destruct Hmem as [Hm|Hm]; [|left; exact Hm]. right. rw Hm. split; [by left|done].
  - split; [|intros g Hg; destruct (H2 g Hg) as [?|[? ?]]; [by left|right; split; [by right|done]]].
    intros a [Ha|[[->|Ha]%elem_of_cons Hn]]; [apply H1; auto|done|apply H1; auto].
Qed.

Section upsert_laws.
Context {DB : Type} `{!Bolt DB} `{!BoltLaws DB}.
Implicit Types (d tx : DB) (e cur : IndexEntry).

Lemma VFS_Upsert_effect d e b d' :
  VFS_Upsert d e = (Ok b, d') → ∃ w, write_effect d e w d' ∧ applied w = b.
Proof.
  unfold VFS_Upsert. intros [(a & [= <-] & Hb)|(? & ? & _)]%Update_spec; [|done].
  destruct (resolveVFSWrite d e) as [[w tx']|] eqn:Hw; [|done]. injection Hb as <- <-.
  exists w. split; [|done]. by apply resolveVFSWrite_effect.
Qed.

(** The database step simulates the abstract update. *)
Lemma VFS_Upsert_refines d e b d' k :
  (0 < Version e)%Z → VFS_Upsert d e = (Ok b, d') → index_of d' k = abs_upsert (index_of d) e k.
Proof.
  intros Hpos (w & Hw & <-)%VFS_Upsert_effect. unfold abs_upsert.
  unfold index_of at 1. rw (we_index _ _ _ _ Hw).
  destruct (decide (Name e = k)) as [<-|Hne]; [|by rw decide_False; [|by intros [_ ?]]].
  rw -(we_existing _ _ _ _ Hw). destruct (applied w) eqn:Ha.
  - rw decide_True //. destruct (we_applied _ _ _ _ Hw Ha) as [-> Hlt].
    rw (proj2 (Z.ltb_lt _ _) Hpos). destruct (existing w) as [cur|]; simpl; [|done].
    specialize (Hlt Hpos cur eq_refl). apply compareIndexEntries_gt in Hlt. by rw Hlt.
  - case_decide as Hd; [by destruct Hd|].
    destruct (we_noop _ _ _ _ Hw Ha) as (_ & Hex & Hle). fold (index_of d (Name e)).
    rw -(we_existing _ _ _ _ Hw) Hex /=. apply compareIndexEntries_le in Hle.
    by rw (proj2 (Z.leb_le _ _) Hle).
Qed.

Lemma upserts_refines d l d' k :
  Forall (λ e, 0 < Version e)%Z l → upserts d l = Ok d' →
  index_of d' k = foldl abs_upsert (index_of d) l k.
Proof.
  intros Hpos. revert d. induction Hpos as [|e l Hv Hpos IH]; intros d; simpl; [by intros [= ->]|].
  destruct (VFS_Upsert d e) as [[b|] d1] eqn:Hu; [|done]. intros Hrun. rw (IH _ Hrun).
  assert (∀ k', index_of d1 k' = abs_upsert (index_of d) e k') as Heq.
  { intros k'. by eapply VFS_Upsert_refines. }
  clear -Heq. revert Heq. generalize (index_of d1) (abs_upsert (index_of d) e).
  induction l as [|a l IH]; intros f g Hfg; simpl; [done|]. apply IH.
  intros k'. unfold abs_upsert. by rw Hfg.
Qed.

Lemma upserts_winner d l d' k :
  Forall (λ e, 0 < Version e)%Z l → upserts d l = Ok d' →
  winner (index_of d k) l k (index_of d' k).
Proof. intros Hpos Hrun. rw (upserts_refines d l d' k Hpos Hrun). apply foldl_abs_upsert_winner. Qed.

(** C4: replicas converge: two nodes that start from the same index and
    receive the same set of entries, in any order and with any repetition,
    end with the same index. *)
Theorem vfs_replicas_converge d1 d2 l1 l2 d1' d2' :
  (∀ k, index_of d1 k = index_of d2 k) → (∀ e, e ∈ l1 ↔ e ∈ l2) →
  Forall (λ e, 0 < Version e)%Z l1 →
  upserts d1 l1 = Ok d1' → upserts d2 l2 = Ok d2' →
  ∀ k, index_of d1' k = index_of d2' k.
Proof.
  intros Hd Hl Hpos Hr1 Hr2 k.
  assert (Forall (λ e, 0 < Version e)%Z l2) as Hpos2.
  { rewrite ->Forall_forall in Hpos |- *. intros e He. by apply Hpos, Hl. }
  pose proof (upserts_winner d1 l1 d1' k Hpos Hr1) as [H1 H2].
  pose proof (upserts_winner d2 l2 d2' k Hpos2 Hr2) as Hw2. rw -Hd in Hw2.
  eapply winner_unique; [|exact Hw2]. split.
  - intros e He. apply H1. destruct He as [?|[? ?]]; [by left|right; split; [by apply Hl|done]].
  - intros g Hg. destruct (H2 g Hg) as [?|[? ?]]; [by left|right; split; [by apply Hl|done]].
Qed.

(** A write that replaces an entry installs a strictly greater one, unless
    an automatic version overflows; in particular a live entry never
    replaces a tombstone of its version. *)
Theorem VFS_Upsert_monotone d e d' cur :
  VFS_Upsert d e = (Ok true, d') → index_of d (Name e) = Some cur →
  is_int64 (Version cur) → (Version cur < max_int64 ∨ 0 < Version e)%Z →
  ∃ new, index_of d' (Name e) = Some new ∧ entry_lt cur new.
Proof.
  intros (w & Hw & Ha)%VFS_Upsert_effect Hcur Hint Hmax. exists (written w). split.
  - unfold index_of. by rw (we_index _ _ _ _ Hw) decide_True.
  - rw -(we_existing _ _ _ _ Hw) in Hcur.
    destruct (we_applied _ _ _ _ Hw Ha) as [-> Hlt].
    destruct (Z.ltb_spec 0 (Version e)) as [Hpos|Hneg]; [by apply Hlt|].
    rw Hcur. left. simpl. unfold is_int64, max_int64, min_int64 in *. rw wrap64_id; [lia|].
    unfold is_int64, max_int64, min_int64. lia.
Qed.
End upsert_laws.

(** ** Witnesses *)

Definition entry_v (version : Z) (hash : string) : IndexEntry :=
  {| Name := "a"; Size := 1; Hash := hash; Version := version; Deleted := false |}.

Lemma vfs_replicas_converge_witness :
  ∃ d1 d2 : memdb,
    upserts memdb_init [entry_v 1 "x"; entry_v 2 "y"] = Ok d1 ∧
    upserts memdb_init [entry_v 2 "y"; entry_v 1 "x"; entry_v 2 "y"] = Ok d2 ∧
    ∀ k, index_of d1 k = index_of d2 k.
Proof.
  destruct (upserts memdb_init [entry_v 1 "x"; entry_v 2 "y"]) as [d1|] eqn:H1; [|vm_compute in H1; discriminate].
  destruct (upserts memdb_init [entry_v 2 "y"; entry_v 1 "x"; entry_v 2 "y"]) as [d2|] eqn:H2;
    [|vm_compute in H2; discriminate].
  exists d1, d2. split; [reflexivity|]. split; [reflexivity|].
  apply (vfs_replicas_converge memdb_init memdb_init
    [entry_v 1 "x"; entry_v 2 "y"] [entry_v 2 "y"; entry_v 1 "x"; entry_v 2 "y"] d1 d2);
    [reflexivity|set_solver|repeat constructor|exact H1|exact H2].
Defined.

Lemma VFS_Upsert_monotone_witness :
  ∃ new, index_of (VFS_Upsert (VFS_Upsert memdb_init (entry_v 1 "x")).2 (entry_v 2 "y")).2 "a" = Some new ∧
         entry_lt (entry_v 1 "x") new.
Proof.
  assert ((VFS_Upsert (VFS_Upsert memdb_init (entry_v 1 "x")).2 (entry_v 2 "y")).1 = Ok true) as Hrun%run_result
    by (vm_compute; reflexivity).
  apply (VFS_Upsert_monotone _ (entry_v 2 "y") _ (entry_v 1 "x") Hrun);
    [vm_compute; reflexivity|vm_compute; split; discriminate|right; reflexivity].
Defined.
