(* ===== verification/Sha256.v ===== *)
(** * SHA-256

    The digest of [crypto/sha256] (FIPS 180-4) in hexadecimal, as the blob
    store and the pipeline revisions name contents with it. *)
From Stdlib Require Import Ascii String.
From S2P Require Import Prelude GoStrings.

(** ** Names of contents *)

Definition isHexByte (c : ascii) : bool :=
  in_byte_range 48 57 c || in_byte_range 97 102 c || in_byte_range 65 70 c.

Fixpoint isHexString (s : string) : bool :=
  match s with
  | EmptyString => true
  | String c s' => isHexByte c && isHexString s'
  end.

Definition IsValidCASHash (s : string) : bool := (str_len s =? 64)%nat && isHexString s.

(** The digest the standard library computes: its hexadecimal form is 64
    characters long. *)
Class Digest := {
  sha256_hex : string → string;
  sha256_hex_valid s : IsValidCASHash (sha256_hex s) = true }.

Local Open Scope N_scope.

(** ** 32-bit words *)

Definition word_mask : N := 4294967295.
Definition add32 (a b : N) : N := N.land (a + b) word_mask.
Definition rotr (k a : N) : N := N.lor (N.shiftr a k) (N.land (N.shiftl a (32 - k)) word_mask).
Definition not32 (a : N) : N := N.lxor a word_mask.

Definition choose (x y z : N) : N := N.lxor (N.land x y) (N.land (not32 x) z).
Definition majority (x y z : N) : N := N.lxor (N.land x y) (N.lxor (N.land x z) (N.land y z)).
Definition big_sigma0 (x : N) : N := N.lxor (rotr 2 x) (N.lxor (rotr 13 x) (rotr 22 x)).
Definition big_sigma1 (x : N) : N := N.lxor (rotr 6 x) (N.lxor (rotr 11 x) (rotr 25 x)).
Definition small_sigma0 (x : N) : N := N.lxor (rotr 7 x) (N.lxor (rotr 18 x) (N.shiftr x 3)).
Definition small_sigma1 (x : N) : N := N.lxor (rotr 17 x) (N.lxor (rotr 19 x) (N.shiftr x 10)).

Definition round_constants : list N :=
  [
   1116352408; 1899447441; 3049323471; 3921009573; 961987163; 1508970993;
   2453635748; 2870763221; 3624381080; 310598401; 607225278; 1426881987;
   1925078388; 2162078206; 2614888103; 3248222580; 3835390401; 4022224774;
   264347078; 604807628; 770255983; 1249150122; 1555081692; 1996064986;
   2554220882; 2821834349; 2952996808; 3210313671; 3336571891; 3584528711;
   113926993; 338241895; 666307205; 773529912; 1294757372; 1396182291;
   1695183700; 1986661051; 2177026350; 2456956037; 2730485921; 2820302411;
   3259730800; 3345764771; 3516065817; 3600352804; 4094571909; 275423344;
   430227734; 506948616; 659060556; 883997877; 958139571; 1322822218;
   1537002063; 1747873779; 1955562222; 2024104815; 2227730452; 2361852424;
   2428436474; 2756734187; 3204031479; 3329325298
  ].

Definition initial_hash : list N :=
  [
   1779033703; 3144134277; 1013904242; 2773480762; 1359893119; 2600822924;
   528734635; 1541459225
  ].

(** ** Message schedule and compression *)

(** The last sixteen words, most recent first, extended by one. *)
Definition next_word (w : list N) : N :=
  add32 (small_sigma1 (nth 1 w 0)) (add32 (nth 6 w 0) (add32 (small_sigma0 (nth 14 w 0)) (nth 15 w 0))).

Fixpoint extend (n : nat) (w : list N) : list N :=
  match n with
  | O => w
  | S n' => extend n' (next_word w :: w)
  end.

Definition schedule (block : list N) : list N := rev (extend 48 (rev block)).

Definition round (h : list N) (kw : N * N) : list N :=
  match h with
  | [a; b; c; d; e; f; g; hh] =>
      let t1 := add32 hh (add32 (big_sigma1 e) (add32 (choose e f g) (add32 (fst kw) (snd kw)))) in
      let t2 := add32 (big_sigma0 a) (majority a b c) in
      [add32 t1 t2; a; b; c; add32 d t1; e; f; g]
  | _ => h
  end.

Definition compress (h block : list N) : list N :=
  zip_with add32 h (foldl round h (zip round_constants (schedule block))).

(** ** Padding and output *)

Definition bytes_of (s : string) : list N := N_of_ascii <$> list_ascii_of_string s.

Fixpoint big_endian (n : nat) (x : N) : list N :=
  match n with
  | O => []
  | S n' => N.land (N.shiftr x (8 * N.of_nat n')) 255 :: big_endian n' x
  end.

(** A one bit, zeros up to 56 modulo 64, and the length in bits. *)
Definition padded (bytes : list N) : list N :=
  let len := length bytes in
  bytes ++ [128] ++ replicate ((119 - len mod 64) mod 64) 0 ++ big_endian 8 (8 * N.of_nat len).

Fixpoint words (l : list N) : list N :=
  match l with
  | a :: b :: c :: d :: l' =>
      N.lor (N.shiftl a 24) (N.lor (N.shiftl b 16) (N.lor (N.shiftl c 8) d)) :: words l'
  | _ => []
  end.

Fixpoint blocks (fuel : nat) (ws : list N) : list (list N) :=
  match fuel, ws with
  | S fuel', _ :: _ => take 16 ws :: blocks fuel' (drop 16 ws)
  | _, _ => []
  end.

Definition sha256 (s : string) : list N :=
  let ws := words (padded (bytes_of s)) in
  foldl compress initial_hash (blocks (length ws) ws).

Definition hex_digit (d : N) : ascii := ascii_of_N (if d <? 10 then 48 + d else 87 + d).

(** [hex.EncodeToString]. *)
Definition hex_encode (l : list N) : string :=
  string_of_list_ascii (flat_map (λ b, [hex_digit (N.land (N.shiftr b 4) 15); hex_digit (N.land b 15)]) l).

Definition sha256_digest (s : string) : string :=
  hex_encode (flat_map (big_endian 4) (sha256 s)).

Example sha256_empty :
  sha256_digest "" = "e3b0c44298fc1c149afbf4c8996fb92427ae41e4649b934ca495991b7852b855".
Proof. vm_compute. reflexivity. Qed.

Example sha256_abc :
  sha256_digest "abc" = "ba7816bf8f01cfea414140de5dae2223b00361a396177a9cb410ff61f20015ad".
Proof. vm_compute. reflexivity. Qed.

Example sha256_two_blocks :
  sha256_digest "abcdbcdecdefdefgefghfghighijhijkijkljklmklmnlmnomnopnopq"
  = "248d6a61d20638b8e5c026930c3e6039a33ce45964ff2167f6ecedd419db06c1".
Proof. vm_compute. reflexivity. Qed.

(** ** The digest is a CAS name *)

Lemma round_length h kw : length h = 8%nat → length (round h kw) = 8%nat.
Proof. intros. by do 9 (destruct h as [|? h]; try done). Qed.

Lemma compress_length h block : length h = 8%nat → length (compress h block) = 8%nat.
Proof.
  intros Hh. unfold compress. rw length_zip_with Hh.
  assert (∀ l h', length h' = 8%nat → length (foldl round h' l) = 8%nat) as Hl.
  { induction l as [|kw l IH]; intros h' Hh'; [done|]. simpl. by apply IH, round_length. }
  by rw Hl.
Qed.

Lemma sha256_length s : length (sha256 s) = 8%nat.
Proof.
  unfold sha256. set (l := blocks _ _). clearbody l. assert (length initial_hash = 8%nat) as Hh by done.
  revert Hh. generalize initial_hash. induction l as [|block l IH]; intros h Hh; [done|].
  simpl. by apply IH, compress_length.
Qed.

Lemma hex_digit_hex d : d <= 15 → isHexByte (hex_digit d) = true.
Proof.
  intros Hd. assert (Forall (λ d, isHexByte (hex_digit d) = true) (N.of_nat <$> seq 0 16)) as Hall.
  { repeat constructor. }
  rewrite ->Forall_forall in Hall. apply Hall, list_elem_of_fmap. exists (N.to_nat d).
  rw elem_of_seq. lia.
Qed.

Lemma land15_le b : N.land b 15 <= 15.
Proof.
  assert (N.land b 15 = N.modulo b 16) as -> by apply (N.land_ones b 4).
  assert (N.modulo b 16 < 16) by (by apply N.mod_lt). lia.
Qed.

Lemma hex_encode_hex l : isHexString (hex_encode l) = true.
Proof.
  unfold hex_encode. induction l as [|b l IH]; [done|]. cbn [flat_map].
  change (isHexByte (hex_digit (N.land (N.shiftr b 4) 15)) &&
          (isHexByte (hex_digit (N.land b 15)) && isHexString (hex_encode l)) = true).
  rw !hex_digit_hex; [|apply land15_le..]. exact IH.
Qed.

Lemma hex_encode_length l : str_len (hex_encode l) = (2 * length l)%nat.
Proof.
  unfold hex_encode. induction l as [|b l IH]; [done|]. cbn [flat_map].
  change (S (S (str_len (hex_encode l))) = (2 * S (length l))%nat).
  unfold hex_encode in *. rw IH. lia.
Qed.

#[export] Program Instance sha256_Digest : Digest := {| sha256_hex := sha256_digest |}.
Next Obligation.
  intros s. unfold IsValidCASHash, sha256_digest. rw hex_encode_hex hex_encode_length.
  assert (∀ l, length (flat_map (big_endian 4) l) = (4 * length l)%nat) as Hlen.
  { induction l as [|x l IH]; [done|]. cbn [flat_map]. rw length_app IH. simpl. lia. }
  rw Hlen sha256_length. done.
Qed.
