(* ===== verification/Physical.v ===== *)
(** * The content-addressed blob store

    [internal/storage/physical/storage.go]: blobs live in one directory under
    the name of their SHA-256 digest.  The file system is modelled as far as
    the code uses it: a map from names to nodes, a clock, and a schedule of
    faults that may make any system call fail.  The per-hash locks of the
    code serialize the operations on one digest; the model runs each
    operation as one step. *)
From Stdlib Require Import Ascii String.
From S2P Require Import Prelude GoStrings Sha256.
Local Open Scope stdpp_scope.

(** ** Files *)

Inductive inode :=
  | Regular (data : string) (mtime : Z)
  | Directory (empty : bool) (size mtime : Z)
  | Special (size mtime : Z).

Definition isRegular (n : inode) : bool := match n with Regular _ _ => true | _ => false end.
Definition isDir (n : inode) : bool := match n with Directory _ _ _ => true | _ => false end.

Definition modTime (n : inode) : Z :=
  match n with Regular _ t => t | Directory _ _ t => t | Special _ t => t end.

Inductive syscall :=
  | SysCreateTemp | SysWrite | SysSync | SysClose | SysLink | SysStat | SysLstat | SysOpen
  | SysRead | SysRemove | SysRename | SysRemoveAll | SysSyncDir | SysReadDir.

(** [fault] decides, call by call, which system calls fail; [tempSuffix]
    gives the random part of temporary names. *)
Record FS := {
  files : gmap string inode;
  now : Z;
  tick : nat;
  fault : nat → syscall → string → bool;
  tempSuffix : nat → string }.

(** A blob fingerprint: size and modification time. *)
Record blobFingerprint := { fpSize : Z; fpModTime : Z }.

#[export] Instance blobFingerprint_eq_dec : EqDecision blobFingerprint.
Proof. solve_decision. Defined.

Record Storage := {
  fs : FS;
  blobCache : gset string;
  verified : gmap string blobFingerprint }.

Definition with_files (f : gmap string inode → gmap string inode) (st : Storage) : Storage :=
  {| fs := {| files := f (files (fs st)); now := now (fs st); tick := tick (fs st);
              fault := fault (fs st); tempSuffix := tempSuffix (fs st) |};
     blobCache := blobCache st; verified := verified st |}.

Definition with_caches (c : gset string → gset string)
    (v : gmap string blobFingerprint → gmap string blobFingerprint) (st : Storage) : Storage :=
  {| fs := fs st; blobCache := c (blobCache st); verified := v (verified st) |}.

(** ** System calls *)

Definition ENOENT : error := ESentinel ErrNotExist.
Definition EIO : error := EMsg "I/O error".

Definition os_IsNotExist (e : error) : bool :=
  match e with ESentinel ErrNotExist => true | _ => false end.

(** Every call consults the fault schedule first and takes one tick. *)
Definition sys (op : syscall) (path : string) : ST Storage unit := λ st,
  (if fault (fs st) (tick (fs st)) op path then Err EIO else Ok (),
   {| fs := {| files := files (fs st); now := now (fs st); tick := S (tick (fs st));
               fault := fault (fs st); tempSuffix := tempSuffix (fs st) |};
      blobCache := blobCache st; verified := verified st |}).

Definition file_at (path : string) : ST Storage (option inode) := gets (λ st, files (fs st) !! path).

Definition os_Lstat (path : string) : ST Storage inode :=
  sys SysLstat path;; node ← file_at path;
  match node with Some n => mret n | None => fail ENOENT end.

Definition os_Stat (path : string) : ST Storage inode :=
  sys SysStat path;; node ← file_at path;
  match node with Some n => mret n | None => fail ENOENT end.

Definition os_Remove (path : string) : ST Storage unit :=
  sys SysRemove path;; node ← file_at path;
  match node with
  | None => fail ENOENT
  | Some (Directory false _ _) => fail (EMsg "directory not empty")
  | Some _ => modify (with_files (delete path))
  end.

Definition os_RemoveAll (path : string) : ST Storage unit :=
  sys SysRemoveAll path;; modify (with_files (delete path)).

Definition os_Rename (source target : string) : ST Storage unit :=
  sys SysRename source;; node ← file_at source;
  match node with
  | None => fail ENOENT
  | Some n => modify (with_files (λ m, <[target := n]> (delete source m)))
  end.

(** A hard link: the target must not exist, and shares the node. *)
Definition os_Link (source target : string) : ST Storage unit :=
  sys SysLink target;; src ← file_at source; dst ← file_at target;
  match dst with
  | Some _ => fail (EMsg "file exists")
  | None =>
      match src with
      | None => fail ENOENT
      | Some n => modify (with_files (<[target := n]>))
      end
  end.

Definition syncDirectory : ST Storage unit := sys SysSyncDir ".".

(** Opening and reading a whole regular file. *)
Definition os_ReadFile (path : string) : ST Storage string :=
  sys SysOpen path;; node ← file_at path;
  match node with
  | None => fail ENOENT
  | Some (Regular data _) => sys SysRead path;; mret data
  | Some _ => fail EIO
  end.

Definition fingerprint (info : inode) : blobFingerprint :=
  {| fpSize := match info with
               | Regular data _ => Z.of_nat (str_len data)
               | Directory _ size _ | Special size _ => size
               end;
     fpModTime := modTime info |}.

Section storage.
Context `{!Digest}.

(** ** Verification *)

Definition removeCachedHash (hash : string) : ST Storage unit :=
  modify (with_caches (λ c, c ∖ {[hash]}) (delete hash)).

Definition verifiedCurrentLocked (hash : string) : ST Storage bool :=
  r ← attempt (os_Lstat hash);
  match r with
  | Ok info =>
      if isRegular info
      then gets (λ st, bool_decide (verified st !! hash = Some (fingerprint info)))
      else mret false
  | Err _ => mret false
  end.

Definition corrupt (why : string) : error := EJoin [ESentinel ErrBlobCorrupt; EMsg why].

Definition verifyCASFile (path expectedHash : string) : ST Storage unit :=
  info ← os_Lstat path;
  if negb (isRegular info) then fail (corrupt "CAS path is not a regular file")
  else
    data ← os_ReadFile path;
    if bool_decide (sha256_hex data = expectedHash) then mret ()
    else fail (corrupt "hash mismatch").

Definition cacheFingerprint (hash : string) (node : inode) : ST Storage unit :=
  modify (with_caches (union {[hash]}) (<[hash := fingerprint node]>)).

Definition verifyAndCacheLocked (hash : string) : ST Storage unit :=
  verifyCASFile hash hash;;
  info ← os_Lstat hash;
  cacheFingerprint hash info.

Definition cacheVerifiedLocked (hash : string) : ST Storage unit :=
  r ← attempt (os_Lstat hash);
  match r with
  | Ok info => cacheFingerprint hash info
  | Err _ => mret ()
  end.

Definition quarantineBlobLocked (hash : string) : ST Storage unit :=
  let quarantine := ".corrupt-" +:+ hash in
  os_RemoveAll quarantine;;
  r ← attempt (os_Rename hash quarantine);
  match r with
  | Err e => if os_IsNotExist e then removeCachedHash hash else fail e
  | Ok _ => removeCachedHash hash;; syncDirectory
  end.

(** ** Staging *)

Record StagedBlob := { tempPath : string; sbHash : string; sbSize : Z; sbDone : bool }.

(** The reader is modelled by what [io.Copy] gets from it: the bytes, or
    the error that interrupts it. *)
Definition StageBlob (content : res string) : ST Storage StagedBlob :=
  suffix ← gets (λ st, tempSuffix (fs st) (tick (fs st)));
  let tempName := "tmp-blob-" +:+ suffix in
  sys SysCreateTemp tempName;;
  existing ← file_at tempName;
  match existing with
  | Some _ => fail (EMsg "file exists")
  | None =>
      modify (λ st, with_files (<[tempName := Regular "" (now (fs st))]>) st);;
      written ← attempt (sys SysWrite tempName;; of_res content);
      match written with
      | Err e =>
          closed ← attempt (sys SysClose tempName);
          attempt (os_Remove tempName);;
          fail (match closed with Ok _ => EJoin [e] | Err ce => EJoin [e; ce] end)
      | Ok data =>
          modify (λ st, with_files (<[tempName := Regular data (now (fs st))]>) st);;
          synced ← attempt (sys SysSync tempName);
          match synced with
          | Err e =>
              attempt (sys SysClose tempName);;
              attempt (os_Remove tempName);;
              fail (EWrap "sync temporary blob" e)
          | Ok _ =>
              closed ← attempt (sys SysClose tempName);
              match closed with
              | Err e => attempt (os_Remove tempName);; fail (EWrap "failed to close file safely" e)
              | Ok _ => mret {| tempPath := tempName; sbHash := sha256_hex data;
                                sbSize := Z.of_nat (str_len data); sbDone := false |}
              end
          end
      end
  end.

Definition Prepare (b : StagedBlob) : ST Storage unit :=
  ok ← verifiedCurrentLocked (sbHash b);
  if ok : bool then mret ()
  else
    r ← attempt (os_Lstat (sbHash b));
    match r with
    | Err e => if os_IsNotExist e then mret () else fail e
    | Ok info =>
        v ← attempt (verifyAndCacheLocked (sbHash b));
        match v with
        | Ok _ => mret ()
        | Err e =>
            if negb (errors_Is e ErrBlobCorrupt) then fail e
            else
              q ← attempt (quarantineBlobLocked (sbHash b));
              match q with
              | Err qe => fail (EJoin [e; qe])
              | Ok _ => if isRegular info then mret () else fail e
              end
        end
    end.

(** Installing the staged file under its digest, after the first link
    attempt succeeded. *)
Definition finishLink (hash : string) (what : string) : ST Storage bool :=
  s ← attempt syncDirectory;
  match s with
  | Err e => attempt (os_Remove hash);; fail (EWrap what e)
  | Ok _ => cacheVerifiedLocked hash;; mret true
  end.

(** What [commitLocked] does once an existing file proved corrupt. *)
Definition replaceCorrupt (b : StagedBlob) (e : error) : ST Storage bool :=
  let hash := sbHash b in
  info ← attempt (os_Lstat hash);
  let repairable := match info with Ok n => isRegular n | Err _ => false end in
  q ← attempt (quarantineBlobLocked hash);
  match q with
  | Err qe => fail (EJoin [EWrap "existing CAS verification failed" e;
                           EWrap "quarantine corrupt CAS blob" qe])
  | Ok _ =>
      if negb repairable then fail (EWrap "existing CAS verification failed" e)
      else
        retry ← attempt (os_Link (tempPath b) hash);
        match retry with
        | Err re => fail (EWrap "replace quarantined CAS blob" re)
        | Ok _ => finishLink hash "sync repaired blob directory"
        end
  end.

Definition commitLocked (b : StagedBlob) : ST Storage bool :=
  let hash := sbHash b in
  link ← attempt (os_Link (tempPath b) hash);
  match link with
  | Err linkErr =>
      stat ← attempt (os_Stat hash);
      match stat with
      | Err _ => fail (EWrap "create blob destination" linkErr)
      | Ok _ =>
          current ← verifiedCurrentLocked hash;
          if negb current then
            v ← attempt (verifyAndCacheLocked hash);
            match v with
            | Ok _ => mret false
            | Err e =>
                if negb (errors_Is e ErrBlobCorrupt) then
                  fail (EWrap "existing CAS verification failed" e)
                else replaceCorrupt b e
            end
          else mret false
      end
  | Ok _ => finishLink hash "sync blob directory"
  end.

Definition finalized (b : StagedBlob) : StagedBlob :=
  {| tempPath := tempPath b; sbHash := sbHash b; sbSize := sbSize b; sbDone := true |}.

(** Returns whether the digest was created, and the finalized handle. *)
Definition Commit (b : StagedBlob) : ST Storage (bool * StagedBlob) :=
  if sbDone b then fail (EMsg "staged blob already finalized")
  else
    created ← commitLocked b;
    modify (with_caches (union {[sbHash b]}) id);;
    attempt (os_Remove (tempPath b));;
    mret (created, finalized b).

(** The handle is finalized whatever the removal returns, so the error
    comes beside it. *)
Definition Discard (b : StagedBlob) : ST Storage (StagedBlob * option error) :=
  if sbDone b then mret (b, None)
  else
    r ← attempt (os_Remove (tempPath b));
    mret (finalized b,
          match r with
          | Err e => if os_IsNotExist e then None else Some e
          | Ok _ => None
          end).

(** ** The store's operations *)

(** The deferred [Discard] sees the handle [Commit] finalized. *)
Definition saveStaged (staged : StagedBlob) : ST Storage (string * Z * bool) :=
  p ← attempt (Prepare staged);
  match p with
  | Err e => attempt (Discard staged);; fail e
  | Ok _ =>
      c ← attempt (Commit staged);
      match c with
      | Err e => attempt (Discard staged);; fail e
      | Ok (created, done) =>
          attempt (Discard done);;
          mret (sbHash staged, sbSize staged, created)
      end
  end.

Definition SaveBlobWithStatus (content : res string) : ST Storage (string * Z * bool) :=
  staged ← StageBlob content;
  saveStaged staged.

Definition BlobExists (hash : string) : ST Storage bool :=
  if negb (IsValidCASHash hash) then mret false
  else
    current ← verifiedCurrentLocked hash;
    if current : bool then mret true
    else
      v ← attempt (verifyAndCacheLocked hash);
      match v with
      | Ok _ => mret true
      | Err e =>
          if os_IsNotExist e then removeCachedHash hash;; mret false
          else if errors_Is e ErrBlobCorrupt then
            q ← attempt (quarantineBlobLocked hash);
            fail (match q with Ok _ => EJoin [e] | Err qe => EJoin [e; qe] end)
          else fail e
      end.

(** The writer receives the bytes returned. *)
Definition ReadBlob (hash : string) : ST Storage string :=
  if negb (IsValidCASHash hash) then fail ENOENT
  else
    current ← verifiedCurrentLocked hash;
    v ← (if current : bool then mret (Ok ()) else attempt (verifyAndCacheLocked hash));
    match v with
    | Err e =>
        if os_IsNotExist e then removeCachedHash hash;; fail ENOENT
        else if errors_Is e ErrBlobCorrupt then
          q ← attempt (quarantineBlobLocked hash);
          fail (match q with Ok _ => EJoin [e] | Err qe => EJoin [e; qe] end)
        else fail e
    | Ok _ =>
        data ← attempt (os_ReadFile hash);
        match data with
        | Ok d => mret d
        | Err e => if os_IsNotExist e then removeCachedHash hash;; fail ENOENT else fail e
        end
    end.

Definition DeleteBlob (hash : string) : ST Storage unit :=
  r ← attempt (os_Remove hash);
  match r with
  | Ok _ => removeCachedHash hash
  | Err e => if os_IsNotExist e then removeCachedHash hash else fail e
  end.

(** ** Start-up and housekeeping *)

(** [filepath.WalkDir] over the tree: an error of the walk stops it, and
    [populateCache] ignores it. *)
Fixpoint populateCache (paths : list string) : ST Storage unit :=
  match paths with
  | [] => mret ()
  | path :: rest =>
      r ← attempt (os_Lstat path);
      match r with
      | Err _ => mret ()
      | Ok node =>
          let name := filepath_Base path in
          (if negb (isDir node) && IsValidCASHash name
           then modify (with_caches (union {[name]}) id) else mret ());;
          populateCache rest
      end
  end.

Definition NewStorage (disk : FS) : Storage :=
  (populateCache (sort_strings (elements (dom (files disk))))
     {| fs := disk; blobCache := ∅; verified := ∅ |}).2.

Definition minute : Z := 60000000000%Z.

Fixpoint cleanupEntries (entries : list string) : ST Storage unit :=
  match entries with
  | [] => mret ()
  | name :: rest =>
      node ← file_at name;
      (if match node with Some n => negb (isDir n) | None => false end && HasPrefix name "tmp-blob-" then
         info ← attempt (os_Lstat name);
         t ← gets (λ st, now (fs st));
         match info with
         | Ok n => if bool_decide (30 * minute < t - modTime n)%Z
                   then attempt (os_Remove name);; mret () else mret ()
         | Err _ => mret ()
         end
       else mret ());;
      cleanupEntries rest
  end.

(** The entries of the directory itself: names without a separator. *)
Definition CleanupTempFiles : ST Storage unit :=
  r ← attempt (sys SysReadDir ".");
  match r with
  | Err _ => mret ()
  | Ok _ =>
      names ← gets (λ st, sort_strings (elements (dom (files (fs st)))));
      cleanupEntries (filter (λ n, Contains n "/" = false) names)
  end.
End storage.

(** ** Names *)

Definition temp_name (p : string) : bool := HasPrefix p "tmp-blob-".

Lemma temp_name_not_hash p : temp_name p = true → IsValidCASHash p = false.
Proof.
  unfold temp_name, IsValidCASHash. intros [t ->]%HasPrefix_spec. by rw andb_false_r.
Qed.

Lemma quarantine_not_hash h : IsValidCASHash (".corrupt-" +:+ h) = false.
Proof. unfold IsValidCASHash. by rw andb_false_r. Qed.

Lemma quarantine_not_temp h : temp_name (".corrupt-" +:+ h) = false.
Proof. done. Qed.

(** ** Integrity of the verification cache

    A cached fingerprint that matches the file on disk vouches for the
    file's digest. *)

Section cas.
Context `{!Digest}.
Implicit Types (st : Storage) (h : string).

Definition vouched st h : Prop := ∀ data mtime,
  files (fs st) !! h = Some (Regular data mtime) →
  verified st !! h = Some (fingerprint (Regular data mtime)) →
  sha256_hex data = h.

Definition cas_inv st : Prop :=
  (∀ h, is_Some (verified st !! h) → IsValidCASHash h = true) ∧ (∀ h, vouched st h).

Lemma cas_inv_files (f : gmap string inode → gmap string inode) p st :
  IsValidCASHash p = false →
  (∀ h, h ≠ p → f (files (fs st)) !! h = files (fs st) !! h ∨ f (files (fs st)) !! h = None) →
  cas_inv st → cas_inv (with_files f st).
Proof.
  intros Hp Hf [Hkeys Hinv]. split; [exact Hkeys|]. intros h data mtime; simpl. intros Hfile Hver.
  destruct (decide (h = p)) as [->|Hne].
  - assert (IsValidCASHash p = true) by (apply Hkeys; simpl in *; eauto). congruence.
  - destruct (Hf h Hne) as [He|He]; rw He in Hfile; [by eapply Hinv|done].
Qed.

Lemma cas_inv_link p n st :
  (IsValidCASHash p = true → ∀ data mtime, n = Regular data mtime → sha256_hex data = p) →
  cas_inv st → cas_inv (with_files (<[p := n]>) st).
Proof.
  intros Hn [Hkeys Hinv]. split; [exact Hkeys|]. intros h data mtime; simpl. intros Hfile Hver.
  destruct (decide (h = p)) as [->|Hne].
  - rw lookup_insert_eq in Hfile. simplify_eq. eapply Hn; [|done]. apply Hkeys; simpl in *; eauto.
  - rw lookup_insert_ne in Hfile; [|done]. by eapply Hinv.
Qed.

Lemma cas_inv_delete p st : cas_inv st → cas_inv (with_files (delete p) st).
Proof.
  intros [Hkeys Hinv]. split; [exact Hkeys|]. intros h data mtime; simpl. intros Hfile Hver.
  apply lookup_delete_Some in Hfile as [_ Hfile]. by eapply Hinv.
Qed.

Lemma cas_inv_uncache h st :
  cas_inv st → cas_inv (with_caches (λ c, c ∖ {[h]}) (delete h) st).
Proof.
  intros [Hkeys Hinv]. split.
  - intros h' [fp Hfp]. simpl in Hfp. apply lookup_delete_Some in Hfp as [_ Hfp]. apply Hkeys; eauto.
  - intros h' data mtime; simpl. intros Hfile Hver. apply lookup_delete_Some in Hver as [_ Hver].
    by eapply Hinv.
Qed.

Lemma cas_inv_cache h node st :
  IsValidCASHash h = true → files (fs st) !! h = Some node →
  (∀ data mtime, node = Regular data mtime → sha256_hex data = h) →
  cas_inv st → cas_inv (with_caches (union {[h]}) (<[h := fingerprint node]>) st).
Proof.
  intros Hh Hnode Hsha [Hkeys Hinv]. split.
  - intros h' [fp Hfp]. simpl in Hfp. apply lookup_insert_Some in Hfp as [[<- _]|[_ Hfp]]; eauto.
  - intros h' data mtime; simpl. intros Hfile Hver.
    apply lookup_insert_Some in Hver as [[<- _]|[_ Hver]]; [|by eapply Hinv].
    simplify_eq. by eapply Hsha.
Qed.

(** *** Authentic blobs survive

    [protected F p]: the disk [F] holds under [p] a file with the digest
    [p].  [good F] adds to the invariant that every protected file of [F]
    is still there, unchanged. *)

Definition protected (F : gmap string inode) (p : string) : Prop :=
  ∃ data mtime, F !! p = Some (Regular data mtime) ∧ sha256_hex data = p.

Definition kept (F : gmap string inode) st : Prop :=
  ∀ p, protected F p → files (fs st) !! p = F !! p.

Definition good (F : gmap string inode) st : Prop := cas_inv st ∧ kept F st.

Lemma unprotected_name F p : IsValidCASHash p = false → ¬ protected F p.
Proof. intros Hp (data & mtime & _ & Hsha). pose proof (sha256_hex_valid data). congruence. Qed.

Lemma unprotected_temp F p : temp_name p = true → ¬ protected F p.
Proof. intros. by apply unprotected_name, temp_name_not_hash. Qed.

Lemma unprotected_kept F st p : kept F st → ¬ protected (files (fs st)) p → ¬ protected F p.
Proof.
  intros Hk Hn Hp. apply Hn. pose proof (Hk p Hp) as He.
  destruct Hp as (data & mtime & HF & Hsha). exists data, mtime. by rw He.
Qed.

Lemma kept_change F f p st :
  ¬ protected F p → (∀ q, q ≠ p → f (files (fs st)) !! q = files (fs st) !! q) →
  kept F st → kept F (with_files f st).
Proof.
  intros Hp Hf Hk q Hq. simpl. rw Hf; [by apply Hk|]. by intros ->.
Qed.

Lemma kept_refl st : kept (files (fs st)) st.
Proof. done. Qed.

(** *** The system calls *)

Section calls.
Variable F : gmap string inode.

Lemma good_modify_caches c v :
  (∀ st, cas_inv st → cas_inv (with_caches c v st)) → preserves (good F) (modify (with_caches c v)).
Proof. intros Hc. apply preserves_modify. intros st [Hi Hk]. split; [by apply Hc|exact Hk]. Qed.

Lemma good_delete p : ¬ protected F p → preserves (good F) (modify (with_files (delete p))).
Proof.
  intros Hp. apply preserves_modify. intros st [Hi Hk]. split; [by apply cas_inv_delete|].
  apply (kept_change F _ p); [done| |done]. intros q Hne. by apply lookup_delete_ne.
Qed.

Lemma good_sys op p : preserves (good F) (sys op p).
Proof. intros st r st' HI [= <- <-]. exact HI. Qed.
Hint Resolve good_sys : preserves.

Lemma good_file_at p : preserves (good F) (file_at p).
Proof. apply preserves_gets. Qed.
Hint Resolve good_file_at : preserves.

Lemma good_Lstat p : preserves (good F) (os_Lstat p).
Proof. unfold os_Lstat. solve_preserves. Qed.
Lemma good_Stat p : preserves (good F) (os_Stat p).
Proof. unfold os_Stat. solve_preserves. Qed.
Lemma good_ReadFile p : preserves (good F) (os_ReadFile p).
Proof. unfold os_ReadFile. solve_preserves. Qed.
Lemma good_syncDirectory : preserves (good F) syncDirectory.
Proof. unfold syncDirectory. solve_preserves. Qed.
Lemma good_Remove p : ¬ protected F p → preserves (good F) (os_Remove p).
Proof. intros Hp. pose proof (good_delete p Hp). unfold os_Remove. solve_preserves. Qed.
Lemma good_RemoveAll p : ¬ protected F p → preserves (good F) (os_RemoveAll p).
Proof. intros Hp. pose proof (good_delete p Hp). unfold os_RemoveAll. solve_preserves. Qed.
Lemma good_removeCachedHash h : preserves (good F) (removeCachedHash h).
Proof. apply good_modify_caches, cas_inv_uncache. Qed.
Lemma good_Rename p q :
  ¬ protected F p → IsValidCASHash q = false → preserves (good F) (os_Rename p q).
Proof.
  intros Hp Hq. unfold os_Rename.
  assert (∀ n, preserves (good F) (modify (with_files (λ m, <[q := n]> (delete p m))))).
  { intros n. apply preserves_modify. intros st [Hi Hk]. split.
    - apply (cas_inv_files _ q); [done| |done]. intros h Hne. rw lookup_insert_ne; [|done].
      destruct (decide (h = p)) as [->|]; [right; apply lookup_delete_eq|left; by apply lookup_delete_ne].
    - intros h Hh. simpl. rw lookup_insert_ne; [rw lookup_delete_ne; [by apply Hk|]|].
      + by intros ->.
      + intros ->. by apply (unprotected_name F h). }
  solve_preserves.
Qed.
End calls.
Hint Resolve good_sys good_file_at good_Lstat good_Stat good_ReadFile good_syncDirectory good_Remove
  good_RemoveAll good_removeCachedHash good_Rename quarantine_not_hash unprotected_name
  unprotected_temp : preserves.

Lemma good_quarantine F h : ¬ protected F h → preserves (good F) (quarantineBlobLocked h).
Proof. intros Hh. unfold quarantineBlobLocked. solve_preserves. Qed.
Lemma good_verifiedCurrent F h : preserves (good F) (verifiedCurrentLocked h).
Proof. unfold verifiedCurrentLocked. solve_preserves. Qed.
Hint Resolve good_quarantine good_verifiedCurrent : preserves.

(** *** What the observations tell

    [frozen st0] holds of the states that differ from [st0] in the clock
    of the fault schedule only. *)
Definition frozen st0 st : Prop :=
  files (fs st) = files (fs st0) ∧ verified st = verified st0 ∧ now (fs st) = now (fs st0).

Lemma frozen_refl st : frozen st st.
Proof. done. Qed.

Lemma frozen_inv st0 st : frozen st0 st → cas_inv st0 → cas_inv st.
Proof.
  unfold cas_inv, vouched. intros (-> & -> & _). done.
Qed.

Definition not_corrupt (e : error) : Prop := errors_Is e ErrBlobCorrupt = false.

(** A system call either fails with an I/O error or hands over. *)
Lemma frozen_sys st0 op p {A} (m : ST Storage A) (Q : res A → Storage → Prop) :
  hoare (frozen st0) m Q → (∀ st, frozen st0 st → Q (Err EIO) st) →
  hoare (frozen st0) (sys op p;; m) Q.
Proof.
  intros Hm He st r st' Hf. unfold mbind, st_bind, sys. destruct (fault _ _ op p); simpl.
  - intros [= <- <-]. by apply He.
  - intros Hrun. eapply Hm; [|exact Hrun]. exact Hf.
Qed.

Lemma frozen_lookup st0 p {A} (k : option inode → ST Storage A) Q :
  hoare (frozen st0) (k (files (fs st0) !! p)) Q → hoare (frozen st0) (file_at p ≫= k) Q.
Proof.
  intros Hk st r st' Hf Hrun. eapply Hk; [done|]. destruct Hf as [He _]. rewrite <- He. exact Hrun.
Qed.

Lemma frozen_Lstat st0 p :
  hoare (frozen st0) (os_Lstat p) (λ r st, frozen st0 st ∧
    match r with
    | Ok n => files (fs st0) !! p = Some n
    | Err e => not_corrupt e ∧ (os_IsNotExist e = true → files (fs st0) !! p = None)
    end).
Proof.
  unfold os_Lstat. apply frozen_sys; [|done]. apply frozen_lookup.
  destruct (files (fs st0) !! p); [by apply hoare_ret|by apply hoare_fail].
Qed.

Lemma frozen_ReadFile st0 p :
  hoare (frozen st0) (os_ReadFile p) (λ r st, frozen st0 st ∧
    match r with
    | Ok data => ∃ mtime, files (fs st0) !! p = Some (Regular data mtime)
    | Err e => not_corrupt e ∧ (os_IsNotExist e = true → files (fs st0) !! p = None)
    end).
Proof.
  unfold os_ReadFile. apply frozen_sys; [|done]. apply frozen_lookup.
  destruct (files (fs st0) !! p) as [[data mtime| |]|] eqn:Hp; [|by apply hoare_fail..].
  apply frozen_sys; [|done]. apply hoare_ret. intros; split; [done|]. by exists mtime.
Qed.

(** A file whose content has the digest of its name. *)
Definition authentic st h : Prop := protected (files (fs st)) h.

Lemma frozen_verifyCASFile st0 h :
  hoare (frozen st0) (verifyCASFile h h) (λ r st, frozen st0 st ∧
    match r with
    | Ok _ => authentic st0 h
    | Err e => (authentic st0 h → not_corrupt e) ∧ (os_IsNotExist e = true → files (fs st0) !! h = None)
    end).
Proof.
  unfold verifyCASFile. eapply hoare_bind; [apply frozen_Lstat| |by intros e st (? & ? & ?)].
  intros info. apply hoare_pure. intros Hinfo.
  destruct info as [data mtime| |]; simpl;
    [|apply hoare_fail; intros ? ?; (split_and!; [done| |done]); intros (?&?&?&?); congruence..].
  eapply hoare_bind; [apply frozen_ReadFile| |by intros e st (? & ? & ?)].
  intros data' st r st' [Hfz [m' Hd]]. simplify_eq. case_bool_decide as Hsha; intros [= <- <-].
  - split; [done|]. do 2 eexists. eauto.
  - split_and!; [done| |done]. intros (?&?&?&?). congruence.
Qed.

Lemma hoare_frozen {A} (P : Storage → Prop) (m : ST Storage A) Q :
  (∀ st0, P st0 → hoare (frozen st0) m Q) → hoare P m Q.
Proof. intros Hm st r st' HP. by apply (Hm st HP). Qed.

Lemma frozen_good F st0 st : frozen st0 st → good F st0 → good F st.
Proof.
  intros Hf [Hi Hk]. split; [by eapply frozen_inv|]. intros p Hp.
  destruct Hf as [He _]. rw He. by apply Hk.
Qed.

Lemma frozen_verifyAndCache F st0 h :
  IsValidCASHash h = true → good F st0 →
  hoare (frozen st0) (verifyAndCacheLocked h) (λ r st, good F st ∧ files (fs st) = files (fs st0) ∧
    match r with
    | Ok _ => authentic st0 h
    | Err e => (authentic st0 h → not_corrupt e) ∧ (os_IsNotExist e = true → files (fs st0) !! h = None)
    end).
Proof.
  intros Hh Hg. unfold verifyAndCacheLocked.
  eapply hoare_bind; [apply frozen_verifyCASFile| |].
  2: { intros e st [Hf He]. split_and!; [by eapply frozen_good|apply Hf|apply He..]. }
  intros []. apply hoare_pure. intros Ha.
  eapply hoare_bind; [apply frozen_Lstat| |].
  2: { intros e st [Hf [He1 He2]]. split_and!; [by eapply frozen_good|apply Hf|done|done]. }
  intros info. apply hoare_pure. intros Hinfo. apply hoare_modify. intros st Hf.
  destruct (frozen_good _ _ _ Hf Hg) as [Hi Hk]. split_and!; [split; [|exact Hk]|apply Hf|done].
  apply cas_inv_cache; [done|destruct Hf as [-> _]; done| |done].
  intros data mtime ->. destruct Ha as (?&?&?&?). congruence.
Qed.

Lemma frozen_verifiedCurrent st0 h :
  cas_inv st0 →
  hoare (frozen st0) (verifiedCurrentLocked h)
    (λ r st, frozen st0 st ∧ ∀ b, r = Ok b → b = true → authentic st0 h).
Proof.
  intros [_ Hi]. unfold verifiedCurrentLocked.
  eapply hoare_try; [apply frozen_Lstat|]. intros x. apply hoare_pure. intros Hx.
  destruct x as [info|e]; [|apply hoare_ret; by split; [|intros ? [= <-]]].
  destruct info as [data mtime| |]; simpl; [|apply hoare_ret; by split; [|intros ? [= <-]]..].
  apply hoare_gets. intros st Hf. split; [done|]. intros b [= <-] Hb%bool_decide_eq_true_1.
  exists data, mtime. split; [done|]. eapply Hi; [done|].
  destruct Hf as (_ & <- & _). done.
Qed.

(** Checking a digest and acting on what was found: a verdict of corruption
    is never passed on an authentic file. *)
Lemma good_verify F h :
  IsValidCASHash h = true →
  hoare (good F) (verifyAndCacheLocked h) (λ v st, good F st ∧
    (∀ u, v = Ok u → authentic st h) ∧
    (∀ e, v = Err e → errors_Is e ErrBlobCorrupt = true → ¬ protected F h)).
Proof.
  intros Hh. apply hoare_frozen. intros st0 Hg.
  eapply hoare_conseq; [by apply (frozen_verifyAndCache F)|done|].
  intros r st (Hg' & He & Hr). split; [done|].
  split; [intros u ->; unfold authentic in *; by rw He|].
  intros e -> Hc. destruct Hr as [Hr _]. apply (unprotected_kept F st0); [apply Hg|].
  intros Ha. specialize (Hr Ha). unfold not_corrupt in Hr. congruence.
Qed.

Lemma good_verdict F h :
  IsValidCASHash h = true →
  hoare (good F) (verifyAndCacheLocked h) (λ v st, good F st ∧
    ∀ e, v = Err e → errors_Is e ErrBlobCorrupt = true → ¬ protected F h).
Proof.
  intros Hh. eapply hoare_conseq; [by apply (good_verify F)|done|]. by intros r st (? & _ & ?).
Qed.

Lemma good_current F h :
  hoare (good F) (verifiedCurrentLocked h)
    (λ r st, good F st ∧ ∀ b, r = Ok b → b = true → authentic st h).
Proof.
  apply hoare_frozen. intros st0 Hg. eapply hoare_conseq; [apply frozen_verifiedCurrent, Hg|done|].
  intros r st [Hf Hr]. split; [by eapply frozen_good|]. unfold authentic in *.
  destruct Hf as [-> _]. done.
Qed.

Lemma good_Prepare F b : IsValidCASHash (sbHash b) = true → preserves (good F) (Prepare b).
Proof.
  intros Hh. unfold Prepare. apply preserves_bind; [solve_preserves|]. intros [|]; [solve_preserves|].
  apply preserves_bind; [solve_preserves|]. intros [info|e]; [|solve_preserves].
  eapply hoare_try; [by apply (good_verdict F)|]. intros v. apply hoare_pure. intros Hv.
  destruct v as [u|e]; [solve_preserves|].
  destruct (errors_Is e ErrBlobCorrupt) eqn:Hc; simpl; [|solve_preserves].
  specialize (Hv e eq_refl Hc). solve_preserves.
Qed.

(** *** Staged blobs *)

(** A file no operation names stays as it is. *)
Section holds.
Variables (t : string) (n : inode).

Definition holds st : Prop := files (fs st) !! t = Some n.

Lemma holds_sys op p : preserves holds (sys op p).
Proof. intros st r st' HI [= <- <-]. exact HI. Qed.
Lemma holds_file_at p : preserves holds (file_at p).
Proof. apply preserves_gets. Qed.
Lemma holds_caches c v : preserves holds (modify (with_caches c v)).
Proof. by apply preserves_modify. Qed.
Lemma holds_delete p : p ≠ t → preserves holds (modify (with_files (delete p))).
Proof. intros Hne. apply preserves_modify. intros st Hst. unfold holds. simpl. by rw lookup_delete_ne. Qed.
Lemma holds_insert p f :
  p ≠ t → preserves holds (modify (λ st, with_files (<[p := f st]>) st)).
Proof. intros Hne. apply preserves_modify. intros st Hst. unfold holds. simpl. by rw lookup_insert_ne. Qed.
Hint Resolve holds_sys holds_file_at holds_caches holds_delete holds_insert : preserves.

Lemma holds_Lstat p : preserves holds (os_Lstat p).
Proof. unfold os_Lstat. solve_preserves. Qed.
Lemma holds_Stat p : preserves holds (os_Stat p).
Proof. unfold os_Stat. solve_preserves. Qed.
Lemma holds_ReadFile p : preserves holds (os_ReadFile p).
Proof. unfold os_ReadFile. solve_preserves. Qed.
Lemma holds_Remove p : p ≠ t → preserves holds (os_Remove p).
Proof. intros. unfold os_Remove. solve_preserves. Qed.
Lemma holds_RemoveAll p : p ≠ t → preserves holds (os_RemoveAll p).
Proof. intros. unfold os_RemoveAll. solve_preserves. Qed.
Lemma holds_Rename p q : p ≠ t → q ≠ t → preserves holds (os_Rename p q).
Proof.
  intros Hp Hq. unfold os_Rename.
  assert (∀ x, preserves holds (modify (with_files (λ m, <[q := x]> (delete p m))))).
  { intros x. apply preserves_modify. intros st Hst. unfold holds. simpl.
    by rw lookup_insert_ne; [rw lookup_delete_ne|]. }
  solve_preserves.
Qed.
Lemma holds_Link p q : q ≠ t → preserves holds (os_Link p q).
Proof.
  intros Hq. unfold os_Link.
  assert (∀ x, preserves holds (modify (with_files (<[q := x]>)))).
  { intros x. apply preserves_modify. intros st Hst. unfold holds. simpl. by rw lookup_insert_ne. }
  solve_preserves.
Qed.
Hint Resolve holds_Lstat holds_Stat holds_ReadFile holds_Remove holds_RemoveAll holds_Rename
  holds_Link : preserves.

Lemma holds_verifiedCurrent h : preserves holds (verifiedCurrentLocked h).
Proof. unfold verifiedCurrentLocked. solve_preserves. Qed.
Lemma holds_verifyAndCache h : preserves holds (verifyAndCacheLocked h).
Proof. unfold verifyAndCacheLocked, verifyCASFile, cacheFingerprint. solve_preserves. Qed.
Lemma holds_quarantine h :
  h ≠ t → ".corrupt-" +:+ h ≠ t → preserves holds (quarantineBlobLocked h).
Proof. intros. unfold quarantineBlobLocked, removeCachedHash, syncDirectory. solve_preserves. Qed.
Hint Resolve holds_verifiedCurrent holds_verifyAndCache holds_quarantine : preserves.

Lemma holds_Prepare b :
  sbHash b ≠ t → ".corrupt-" +:+ sbHash b ≠ t → preserves holds (Prepare b).
Proof. intros. unfold Prepare. solve_preserves. Qed.
End holds.
Hint Resolve holds_sys holds_file_at holds_caches holds_delete holds_insert holds_Lstat holds_Stat
  holds_ReadFile holds_Remove holds_RemoveAll holds_Rename holds_Link holds_verifiedCurrent
  holds_verifyAndCache holds_quarantine holds_Prepare : preserves.

(** *** Installing a staged blob

    [t] is the temporary file, [h] the digest of what it holds. *)
Section install.
Variables (F : gmap string inode) (t h data : string) (mtime : Z).
Hypothesis (Ht : temp_name t = true) (Hh : sha256_hex data = h).

Let n : inode := Regular data mtime.
Let ready st : Prop := good F st ∧ holds t n st.

Lemma install_valid : IsValidCASHash h = true.
Proof. rw -Hh. apply sha256_hex_valid. Qed.

Lemma install_ne : h ≠ t ∧ ".corrupt-" +:+ h ≠ t.
Proof.
  split.
  - pose proof (temp_name_not_hash t Ht). pose proof install_valid. congruence.
  - pose proof (quarantine_not_temp h). congruence.
Qed.

Lemma holds_authentic st : holds h n st → authentic st h.
Proof. intros Hst. by exists data, mtime. Qed.

Lemma install_Link :
  hoare ready (os_Link t h)
    (λ r st, ready st ∧ ∀ u, r = Ok u → ¬ protected F h ∧ holds h n st).
Proof.
  destruct install_ne as [Hne _].
  assert (preserves (holds t n) (os_Link t h)) as Hhold by (by apply holds_Link).
  intros st r st' [[Hi Hk] Hst] Hrun. specialize (Hhold _ _ _ Hst Hrun). revert Hrun.
  unfold os_Link, mbind, st_bind, sys, file_at, gets, fail, modify. cbn [fs files].
  destruct (fault _ _ _ _); [by intros [= <- <-]|]. unfold holds in Hst. rw Hst.
  destruct (files (fs st) !! h) as [x|] eqn:Hx; [by intros [= <- <-]|].
  intros [= <- <-]. assert (¬ protected F h) as Hn.
  { intros Hp. pose proof (Hk h Hp) as He. destruct Hp as (?&?&HF&_). congruence. }
  split; [split; [|done]|intros _ _; split; [done|apply lookup_insert_eq]]. split.
  - apply (cas_inv_link h); [|exact Hi]. by intros _ ? ? [= <- <-].
  - apply (kept_change F _ h); [done| |exact Hk]. intros q Hq. by apply lookup_insert_ne.
Qed.

Lemma install_cache :
  hoare (λ st, good F st ∧ holds h n st) (cacheVerifiedLocked h)
    (λ _ st, good F st ∧ holds h n st).
Proof.
  unfold cacheVerifiedLocked. apply hoare_frozen. intros st0 [Hg Hst0].
  eapply hoare_try; [apply frozen_Lstat|]. intros x. apply hoare_pure. intros Hx.
  assert (∀ st, frozen st0 st → holds h n st) as Hhold.
  { intros st (He & _). unfold holds in *. by rw He. }
  destruct x as [info|e]; [|apply hoare_ret; intros st Hf; split; [by eapply frozen_good|by apply Hhold]].
  assert (info = n) as -> by (unfold holds in Hst0; congruence). apply hoare_modify. intros st Hf. specialize (Hhold st Hf).
  destruct (frozen_good _ _ _ Hf Hg) as [Hi Hk]. split; [split; [|exact Hk]|exact Hhold].
  apply cas_inv_cache; [apply install_valid|exact Hhold| |exact Hi]. by intros ? ? [= <- <-].
Qed.

Lemma install_finish w :
  ¬ protected F h →
  hoare (λ st, good F st ∧ holds h n st) (finishLink h w)
    (λ r st, good F st ∧ ∀ c, r = Ok c → holds h n st).
Proof.
  intros Hp. unfold finishLink, syncDirectory.
  eapply (hoare_try _ _ _ (λ _ st, good F st ∧ holds h n st)); [|intros [u|e]].
  { apply preserves_and; auto with preserves. }
  - eapply hoare_bind; [apply install_cache| |by intros ?? [??]]. intros []. apply hoare_ret. naive_solver.
  - eapply (hoare_try _ _ _ (λ _, good F)); [|intros s; by apply hoare_fail].
    eapply hoare_conseq; [by apply good_Remove|by intros ? [??]|done].
Qed.

Lemma ready_calls {A} (m : ST Storage A) :
  preserves (good F) m → preserves (holds t n) m → preserves ready m.
Proof. apply preserves_and. Qed.

(** A fresh blob is reported created only where none was protected. *)
Definition installed (r : res bool) st : Prop :=
  good F st ∧ ∀ c, r = Ok c → authentic st h ∧ (c = true → ¬ protected F h).

Lemma install_linked w (k : error → ST Storage bool) :
  (∀ e, hoare ready (k e) installed) →
  hoare ready (r ← attempt (os_Link t h);
               match r with Err e => k e | Ok _ => finishLink h w end) installed.
Proof.
  intros Hk. eapply hoare_try; [apply install_Link|]. intros [[]|e].
  - intros st r st' [[Hg _] Hst] Hrun. destruct (Hst () eq_refl) as [Hp Hhold].
    destruct (install_finish w Hp st r st') as [Hg' Hc]; [done|done|].
    split; [done|]. intros c Hr. split; [by eapply holds_authentic, Hc|done].
  - eapply hoare_conseq; [apply Hk|by intros ? [??]|done].
Qed.

Variable b : StagedBlob.
Hypothesis (Hbt : tempPath b = t) (Hbh : sbHash b = h).

Lemma installed_fail e : hoare ready (fail e) installed.
Proof. apply hoare_fail. by intros st [??]. Qed.

Lemma install_replace e : ¬ protected F h → hoare ready (replaceCorrupt b e) installed.
Proof.
  destruct install_ne as [Hn1 Hn2]. intros Hp. unfold replaceCorrupt. rw Hbt Hbh.
  eapply (hoare_try _ _ _ (λ _, ready)); [apply ready_calls; auto with preserves|]. intros info.
  eapply (hoare_try _ _ _ (λ _, ready)); [apply ready_calls; auto with preserves|].
  intros [[]|qe]; [|apply installed_fail].
  destruct (negb _); [apply installed_fail|]. apply install_linked. intros; apply installed_fail.
Qed.

Lemma install_commit : hoare ready (commitLocked b) installed.
Proof.
  destruct install_ne as [Hn1 Hn2]. unfold commitLocked. rw Hbt Hbh. apply install_linked. intros le.
  eapply (hoare_try _ _ _ (λ _, ready)); [apply ready_calls; auto with preserves|].
  intros [?|?]; [|apply installed_fail].
  eapply hoare_bind; [eapply hoare_and; [apply (good_current F h)|apply (holds_verifiedCurrent t n)]| |
                      by intros ?? [[? _] _]].
  intros [|]; simpl.
  { apply hoare_ret. intros st [[Hg Ha] _]. split; [done|]. intros ? [= <-]. split; [by apply (Ha true)|done]. }
  eapply (hoare_pre _ ready); [|intros st [[??]?]; by split].
  eapply hoare_try; [eapply hoare_and;
    [apply (good_verify F h install_valid)|apply (holds_verifyAndCache t n)]|].
  intros [[]|e].
  { apply hoare_ret. intros st [(Hg & Ha & _) _]. split; [done|]. intros ? [= <-]. split; [by apply (Ha ())|done]. }
  destruct (errors_Is e ErrBlobCorrupt) eqn:Hc; simpl.
  - intros st r st' [(Hg & _ & Hv) Hst]. by apply (install_replace e (Hv e eq_refl Hc)).
  - eapply hoare_pre; [apply installed_fail|intros ? [[??]?]; by split].
Qed.
End install.

Lemma preserves_authentic h {A} (m : ST Storage A) :
  (∀ n, preserves (holds h n) m) → preserves (λ st, authentic st h) m.
Proof.
  intros Hm st r st' (data & mtime & Hst & Hsha) Hrun. exists data, mtime. split; [|done].
  by eapply (Hm (Regular data mtime)).
Qed.

Lemma good_cacheName F h : preserves (good F) (modify (with_caches (union {[h]}) id)).
Proof. by apply good_modify_caches. Qed.
Hint Resolve good_cacheName : preserves.

Lemma good_Discard F b : temp_name (tempPath b) = true → preserves (good F) (Discard b).
Proof. intros. unfold Discard. solve_preserves. Qed.
Lemma authentic_Discard h b : tempPath b ≠ h → preserves (λ st, authentic st h) (Discard b).
Proof. intros. apply preserves_authentic. intros n. unfold Discard. solve_preserves. Qed.

(** What [StageBlob] returns: a handle on a temporary file with the
    content read. *)
Definition staged_blob (content : res string) (b : StagedBlob) st : Prop := ∃ data mtime,
  content = Ok data ∧ sbHash b = sha256_hex data ∧ sbSize b = Z.of_nat (str_len data) ∧ sbDone b = false ∧
  temp_name (tempPath b) = true ∧ holds (tempPath b) (Regular data mtime) st.

Lemma temp_insert F p f : temp_name p = true →
  preserves (good F) (modify (λ st, with_files (<[p := f st]>) st)).
Proof.
  intros Hp. apply preserves_modify. intros st [Hi Hk]. split.
  - apply cas_inv_link; [|done]. rw (temp_name_not_hash p Hp). done.
  - apply (kept_change F _ p); [by apply unprotected_temp| |done]. intros q Hq. by apply lookup_insert_ne.
Qed.
Hint Resolve temp_insert : preserves.

Lemma temp_name_tmp s : temp_name ("tmp-blob-" +:+ s) = true.
Proof. apply HasPrefix_app. Qed.
Hint Resolve temp_name_tmp : preserves.

Lemma good_StageBlob F content :
  hoare (good F) (StageBlob content) (λ r st, good F st ∧ ∀ b, r = Ok b → staged_blob content b st).
Proof.
  assert (preserves (good F) (StageBlob content)) as Hg by (unfold StageBlob; solve_preserves).
  intros st r st' Hst Hrun. split; [by eapply Hg|]. intros b ->. revert Hrun.
  unfold StageBlob.
  unfold mbind, st_bind, attempt, gets, modify, file_at, of_res, fail, mret, st_ret, sys. simpl.
  repeat case_match; intros; simplify_eq; try done.
  eexists _, (now (fs st)). split_and!; try done; [apply temp_name_tmp|apply lookup_insert_eq].
Qed.

Definition committed F b (r : res (bool * StagedBlob)) st : Prop :=
  ∀ c b', r = Ok (c, b') →
    b' = finalized b ∧ authentic st (sbHash b) ∧ (c = true → ¬ protected F (sbHash b)).

Lemma good_Commit F b data mtime :
  sbDone b = false → sbHash b = sha256_hex data → temp_name (tempPath b) = true →
  hoare (λ st, good F st ∧ holds (tempPath b) (Regular data mtime) st) (Commit b)
    (λ r st, good F st ∧ committed F b r st).
Proof.
  intros Hdone Hh Ht. unfold Commit. rw Hdone.
  destruct (install_ne (tempPath b) (sbHash b) data Ht (eq_sym Hh)) as [Hne _].
  eapply hoare_bind; [by eapply (install_commit F _ (sbHash b) data)| |by intros ?? [??]].
  intros c. pose (φ := c = true → ¬ protected F (sbHash b)).
  eapply (hoare_pre _ (λ st, (good F st ∧ authentic st (sbHash b)) ∧ φ));
    [|intros st [Hg Hc]; destruct (Hc c eq_refl); by split].
  apply hoare_pure. intros Hφ.
  eapply hoare_bind; [apply preserves_and; [solve_preserves|apply preserves_authentic; solve_preserves]| |
                      by intros ?? [??]; split].
  intros []. eapply hoare_try; [apply preserves_and; [solve_preserves|apply preserves_authentic; solve_preserves]|].
  intros v. apply hoare_ret. intros st [Hg Ha]. split; [done|]. by intros ? ? [= <- <-].
Qed.

Definition saved (F : gmap string inode) (data : string) (r : res (string * Z * bool)) st : Prop :=
  ∀ hash size created, r = Ok (hash, size, created) →
    hash = sha256_hex data ∧ size = Z.of_nat (str_len data) ∧
    authentic st hash ∧ (created = true → ¬ protected F hash).

Lemma good_saveStaged F b data mtime :
  sbDone b = false → sbHash b = sha256_hex data → sbSize b = Z.of_nat (str_len data) →
  temp_name (tempPath b) = true →
  hoare (λ st, good F st ∧ holds (tempPath b) (Regular data mtime) st) (saveStaged b)
    (λ r st, good F st ∧ saved F data r st).
Proof.
  intros Hdone Hh Hsz Ht. unfold saveStaged.
  assert (∀ e : error, hoare (good F) (attempt (Discard b);; fail e)
            (λ r st, good F st ∧ saved F data r st)) as Hfail.
  { intros e. eapply (hoare_try _ _ _ (λ _, good F)); [by apply good_Discard|].
    intros ?. by apply hoare_fail. }
  destruct (install_ne (tempPath b) (sbHash b) data Ht (eq_sym Hh)) as [Hn1 Hn2].
  eapply hoare_try.
  { eapply hoare_and; [apply good_Prepare; rw Hh; apply sha256_hex_valid|by apply holds_Prepare]. }
  intros [[]|e]; [|eapply hoare_pre; [apply Hfail|by intros ? [??]]].
  eapply hoare_try; [by apply (good_Commit F b data mtime)|].
  intros [[c b']|e]; [|eapply hoare_pre; [apply Hfail|by intros ? [??]]].
  intros st r st' [Hg Hc]. destruct (Hc c b' eq_refl) as (-> & Ha & Hp).
  unfold Discard. simpl. intros [= <- <-]. split; [done|]. intros hash size created [= <- <- <-].
  by rw -Hh -Hsz.
Qed.

Lemma good_Save F content :
  hoare (good F) (SaveBlobWithStatus content)
    (λ r st, good F st ∧ ∀ x, r = Ok x → ∃ data, content = Ok data ∧ saved F data r st).
Proof.
  unfold SaveBlobWithStatus. eapply hoare_bind; [apply good_StageBlob| |by intros ?? [??]].
  intros b st r st' [Hg Hb] Hrun.
  destruct (Hb b eq_refl) as (data & mtime & -> & Hh & Hsz & Hdone & Ht & Hst).
  destruct (good_saveStaged F b data mtime Hdone Hh Hsz Ht st r st') as [??]; [done|done|]. eauto.
Qed.

(** *** Reading and deleting *)

Lemma good_BlobExists F h :
  hoare (good F) (BlobExists h) (λ r st, good F st ∧ (r = Ok true → authentic st h)).
Proof.
  unfold BlobExists. destruct (IsValidCASHash h) eqn:Hh; simpl; [|by apply hoare_ret].
  eapply hoare_bind; [apply (good_current F h)| |by intros ?? [??]].
  intros [|]; [apply hoare_ret; intros st [Hg Ha]; split; [done|]; by intros _; apply (Ha true)|].
  eapply (hoare_pre _ (good F)); [|by intros ? [??]].
  eapply hoare_try; [by apply (good_verify F)|]. intros [[]|e].
  { apply hoare_ret. intros st (Hg & Ha & _). split; [done|]. by intros _; apply (Ha ()). }
  eapply (hoare_pre _ (λ st, good F st ∧ (errors_Is e ErrBlobCorrupt = true → ¬ protected F h)));
    [apply hoare_pure; intros Hv|intros st (Hg & _ & Hv); split; [done|by apply (Hv e)]].
  destruct (os_IsNotExist e).
  - eapply (hoare_bind _ _ _ (λ _, good F)); [solve_preserves|intros; by apply hoare_ret|done].
  - destruct (errors_Is e ErrBlobCorrupt); [|by apply hoare_fail].
    eapply (hoare_try _ _ _ (λ _, good F)); [apply good_quarantine; auto|intros; by apply hoare_fail].
Qed.

Lemma good_readVerified F h :
  hoare (λ st, good F st ∧ authentic st h)
    (data ← attempt (os_ReadFile h);
     match data with
     | Ok d => mret d
     | Err e => if os_IsNotExist e then removeCachedHash h;; fail ENOENT else fail e
     end) (λ r st, good F st ∧ ∀ d, r = Ok d → sha256_hex d = h).
Proof.
  apply hoare_frozen. intros st0 [Hg (data & mtime & Hd & Hsha)].
  eapply hoare_try; [apply frozen_ReadFile|]. intros [d|e].
  - apply hoare_ret. intros st [Hf [m Hm]]. split; [by eapply frozen_good|]. intros ? [= <-]. congruence.
  - apply hoare_pure. intros _. destruct (os_IsNotExist e);
      [|apply hoare_fail; intros; split; [by eapply frozen_good|done]].
    eapply (hoare_bind _ _ _ (λ _, good F)); [|intros; by apply hoare_fail|done].
    eapply hoare_pre; [apply good_removeCachedHash|]. intros; by eapply frozen_good.
Qed.

Lemma good_ReadBlob F h :
  hoare (good F) (ReadBlob h) (λ r st, good F st ∧ ∀ d, r = Ok d → sha256_hex d = h).
Proof.
  unfold ReadBlob. destruct (IsValidCASHash h) eqn:Hh; simpl; [|by apply hoare_fail].
  eapply hoare_bind; [apply (good_current F h)| |by intros ?? [??]].
  intros cur. eapply (hoare_bind _ _ _ (λ r st, good F st ∧ ∃ v, r = Ok v ∧ (∀ u, v = Ok u → authentic st h) ∧
    (∀ e, v = Err e → errors_Is e ErrBlobCorrupt = true → ¬ protected F h))); [| |by intros ?? (?&?&?&_)].
  { destruct cur; [apply hoare_ret; intros st [Hg Ha]; split; [done|]; exists (Ok ()); naive_solver|].
    eapply hoare_pre; [|by intros ? [??]]. eapply hoare_attempt; [by apply (good_verify F)|]. naive_solver. }
  intros [[]|e].
  { eapply hoare_pre; [apply good_readVerified|]. intros st (Hg & v & [= <-] & Ha & _). eauto. }
  eapply (hoare_pre _ (λ st, good F st ∧ (errors_Is e ErrBlobCorrupt = true → ¬ protected F h)));
    [apply hoare_pure; intros Hv|intros st (Hg & v & [= <-] & _ & Hv); eauto].
  destruct (os_IsNotExist e).
  - eapply (hoare_bind _ _ _ (λ _, good F)); [solve_preserves|intros; by apply hoare_fail|done].
  - destruct (errors_Is e ErrBlobCorrupt); [|by apply hoare_fail].
    eapply (hoare_try _ _ _ (λ _, good F)); [apply good_quarantine; auto|intros; by apply hoare_fail].
Qed.

Lemma good_DeleteBlob F h : ¬ protected F h → preserves (good F) (DeleteBlob h).
Proof. intros. unfold DeleteBlob. solve_preserves. Qed.

Lemma good_cleanupEntries F l : preserves (good F) (cleanupEntries l).
Proof.
  induction l as [|name l IH]; simpl; [solve_preserves|].
  destruct (HasPrefix name "tmp-blob-") eqn:Hp.
  - assert (¬ protected F name) by (by apply unprotected_temp). solve_preserves.
  - apply preserves_bind; [solve_preserves|]. intros node. rw andb_false_r. solve_preserves.
Qed.
Hint Resolve good_cleanupEntries : preserves.

Lemma good_CleanupTempFiles F : preserves (good F) CleanupTempFiles.
Proof. unfold CleanupTempFiles. solve_preserves. Qed.

Lemma good_populateCache F l : preserves (good F) (populateCache l).
Proof. induction l as [|p l IH]; simpl; solve_preserves. Qed.

(** ** Histories of the store *)

Inductive storage_op :=
  | OpSave (content : res string)
  | OpExists (hash : string)
  | OpRead (hash : string)
  | OpDelete (hash : string)
  | OpCleanup.

Definition run_op (op : storage_op) st : Storage :=
  match op with
  | OpSave content => (SaveBlobWithStatus content st).2
  | OpExists hash => (BlobExists hash st).2
  | OpRead hash => (ReadBlob hash st).2
  | OpDelete hash => (DeleteBlob hash st).2
  | OpCleanup => (CleanupTempFiles st).2
  end.

(** Anything outside the process may rewrite the directory, as long as a
    file it changes no longer has the size and time the store verified. *)
Definition tampered st st' : Prop :=
  verified st' = verified st ∧
  ∀ h data mtime, files (fs st') !! h = Some (Regular data mtime) →
    files (fs st) !! h = Some (Regular data mtime) ∨
    verified st !! h ≠ Some (fingerprint (Regular data mtime)).

Inductive reachable : Storage → Prop :=
  | reachable_new disk : reachable (NewStorage disk)
  | reachable_op op st : reachable st → reachable (run_op op st)
  | reachable_tampered st st' : reachable st → tampered st st' → reachable st'.

Lemma run_op_good F op st :
  (∀ h, op = OpDelete h → ¬ protected F h) → good F st → good F (run_op op st).
Proof.
  intros Hdel Hg.
  assert (∀ A (m : ST Storage A) Q, hoare (good F) m Q → (∀ r st, Q r st → good F st) → good F (m st).2) as Hrun.
  { intros A m Q Hm HQ. destruct (m st) as [r st'] eqn:Hs. by eapply HQ, (Hm st). }
  destruct op as [content|h|h|h|]; simpl; (eapply Hrun;
    [first [apply good_Save|apply good_BlobExists|apply good_ReadBlob|apply good_DeleteBlob; by apply Hdel
           |apply good_CleanupTempFiles]|simpl; first [by intros ?? [??]|done]]).
Qed.

Lemma good_empty st : cas_inv st ↔ good ∅ st.
Proof.
  split; [|by intros [??]]. intros Hi. split; [done|]. intros p (?&?&He&_). by rw lookup_empty in He.
Qed.

Lemma reachable_inv st : reachable st → cas_inv st.
Proof.
  induction 1 as [disk|op st _ IH|st st' _ [Hkeys IH] [Hv Hf]].
  - unfold NewStorage. destruct (populateCache _ _) as [r st'] eqn:Hs. simpl.
    apply good_empty. eapply (good_populateCache ∅); [|exact Hs]. apply good_empty.
    split; [intros h [? Hh]; by rw lookup_empty in Hh|]. intros h ? ? _ Hh. by rw lookup_empty in Hh.
  - apply good_empty, run_op_good; [|by apply good_empty]. intros h _ (?&?&He&_). by rw lookup_empty in He.
  - split; [by rw Hv|]. intros h data mtime Hfile Hver. rw Hv in Hver.
    destruct (Hf h data mtime Hfile) as [?|?]; [by eapply IH|done].
Qed.

(** The file is the one the store verified, as far as size and time tell. *)
Definition trusted st h (d : string) : Prop :=
  ∃ mtime, files (fs st) !! h = Some (Regular d mtime) ∧ verified st !! h = Some (fingerprint (Regular d mtime)).

Lemma frozen_trusted st0 h :
  hoare (frozen st0) (verifiedCurrentLocked h) (λ r st, frozen st0 st ∧
    (r = Ok true → ∃ d, trusted st0 h d)).
Proof.
  unfold verifiedCurrentLocked. eapply hoare_try; [apply frozen_Lstat|]. intros [[d mtime| |]|e]; simpl;
    try (apply hoare_ret; by intros st [Hf _]).
  intros st r st' [Hf Hfile]. unfold gets. intros [= <- <-]. split; [done|].
  destruct Hf as (_ & -> & _). intros [= Hv%bool_decide_eq_true]. by exists d, mtime.
Qed.

(** What a read returns, in any state. *)
Lemma ReadBlob_content st0 h :
  hoare (frozen st0) (ReadBlob h) (λ r _, ∀ d, r = Ok d → sha256_hex d = h ∨ trusted st0 h d).
Proof.
  unfold ReadBlob. destruct (negb _); [by apply hoare_fail|].
  eapply hoare_bind; [apply frozen_trusted| |done]. intros cur.
  eapply (hoare_bind _ _ _ (λ r st, files (fs st) = files (fs st0) ∧
    ∀ u, r = Ok (Ok u) → authentic st0 h ∨ ∃ d, trusted st0 h d)); [| |done].
  { destruct cur; [apply hoare_ret; intros st [[Hf _] Ht]; split; [done|]; auto|].
    eapply hoare_pre; [|intros st [Hf _]; exact Hf]. unfold verifyAndCacheLocked.
    eapply (hoare_attempt _ _ (λ r st, files (fs st) = files (fs st0) ∧ ∀ u, r = Ok u → authentic st0 h));
      [|intros r st [Hf Ha]; split; [done|]; intros u [= ->]; left; by eapply Ha].
    eapply hoare_bind; [apply frozen_verifyCASFile| |by intros e st [[Hf _] _]]. intros [].
    eapply hoare_bind; [apply hoare_pure; intros Ha; eapply hoare_conseq; [apply frozen_Lstat|done|]| |].
    - intros r st Hr. exact (conj Ha Hr).
    - intros info. apply hoare_modify. intros st (Ha & [Hf _] & _). by split.
    - intros e st (Ha & [Hf _] & _). by split. }
  intros [[]|e].
  - intros st r st' [Hfiles Hok] Hrun d ->. revert Hrun. unfold mbind, st_bind, attempt.
    destruct (os_ReadFile h st) as [[d'|e] st1] eqn:Hread; [|destruct (os_IsNotExist e); done].
    intros [= -> _]. destruct (frozen_ReadFile st h st _ _ (frozen_refl st) Hread) as [_ [mtime Hd]]. rw Hfiles in Hd.
    destruct (Hok () eq_refl) as [(d0 & m0 & H0 & Hsha)|(d0 & m0 & H0 & Hv)]; rw Hd in H0; injection H0 as <- <-; [by left|].
    right. by exists mtime.
  - intros st r st' _. destruct (os_IsNotExist e); [by intros [= <- _]|].
    destruct (errors_Is e ErrBlobCorrupt); [|by intros [= <- _]]. unfold mbind, st_bind, attempt, fail.
    destruct (quarantineBlobLocked h st) as [q st1]. by intros [= <- _].
Qed.

(** C2: a blob that is read has the digest it was asked by, in every state
    that calls, faults and outside changes lead to, where each outside change
    of a file also changes its size or its modification time.  In any other
    state the file read has exactly the size and time the store verified, or
    the digest. *)
Theorem ReadBlob_authentic st h d st' :
  ReadBlob h st = (Ok d, st') → (reachable st → sha256_hex d = h) ∧ (sha256_hex d = h ∨ trusted st h d).
Proof.
  intros Hrun. split; [intros Hr|by apply (ReadBlob_content st h _ _ _ (frozen_refl st) Hrun)]. destruct (good_ReadBlob ∅ h st (Ok d) st') as [_ Hd]; [|done|by apply Hd].
  by apply good_empty, reachable_inv.
Qed.

(** No operation but its own deletion removes or alters a file that
    holds the content of its digest, under any schedule of faults. *)
Theorem authentic_blobs_survive st op h data mtime :
  reachable st → op ≠ OpDelete h →
  files (fs st) !! h = Some (Regular data mtime) → sha256_hex data = h →
  files (fs (run_op op st)) !! h = Some (Regular data mtime).
Proof.
  intros Hr Hop Hfile Hsha.
  assert (protected {[h := Regular data mtime]} h) as Hp.
  { exists data, mtime. by rw lookup_singleton_eq. }
  destruct (run_op_good {[h := Regular data mtime]} op st) as [_ Hk].
  - intros h' -> (?&?&He&_). apply lookup_singleton_Some in He as [-> _]. done.
  - split; [by apply reachable_inv|]. intros p (?&?&He&_).
    apply lookup_singleton_Some in He as [<- _]. by rw lookup_singleton_eq.
  - rw (Hk h Hp). apply lookup_singleton_eq.
Qed.

(** A successful save returns the digest and the size of the content
    read, leaves a file with that digest, and reports a fresh blob only
    where no such file was. *)
Theorem SaveBlob_installs st content hash size created st' :
  reachable st → SaveBlobWithStatus content st = (Ok (hash, size, created), st') →
  ∃ data, content = Ok data ∧ hash = sha256_hex data ∧ size = Z.of_nat (str_len data) ∧
    authentic st' hash ∧ (created = true → ¬ authentic st hash).
Proof.
  intros Hr Hrun. destruct (good_Save (files (fs st)) content _ _ _
    (conj (reachable_inv st Hr) (kept_refl st)) Hrun) as [_ Hs].
  destruct (Hs _ eq_refl) as (data & -> & Hsaved). exists data.
  destruct (Hsaved _ _ _ eq_refl) as (-> & -> & Ha & Hc). done.
Qed.
End cas.

(** ** Witnesses *)

Definition blank_disk : FS :=
  {| files := ∅; now := 0; tick := 0; fault _ _ _ := false; tempSuffix _ := "1" |}.

(** A fresh store after one save. *)
Definition store_abc : Storage := run_op (OpSave (Ok "abc")) (NewStorage blank_disk).

Lemma store_abc_reachable : reachable store_abc.
Proof. apply reachable_op, reachable_new. Qed.

Lemma ReadBlob_authentic_witness :
  (ReadBlob (sha256_hex "abc") store_abc).1 = Ok "abc" ∧ sha256_hex "abc" = sha256_hex "abc".
Proof.
  assert ((ReadBlob (sha256_hex "abc") store_abc).1 = Ok "abc") as Hrun by (vm_compute; reflexivity).
  split; [exact Hrun|]. apply run_result in Hrun.
  exact (proj1 (ReadBlob_authentic store_abc (sha256_hex "abc") "abc" _ Hrun) store_abc_reachable).
Defined.

Lemma authentic_blobs_survive_witness :
  files (fs (run_op OpCleanup store_abc)) !! sha256_hex "abc" = Some (Regular "abc" 0).
Proof.
  apply (authentic_blobs_survive store_abc OpCleanup (sha256_hex "abc") "abc" 0);
    [exact store_abc_reachable|discriminate|vm_compute; reflexivity|reflexivity].
Defined.

Lemma SaveBlob_installs_witness :
  ∃ data, Ok "abc" = Ok data ∧ sha256_hex "abc" = sha256_hex data ∧ 3%Z = Z.of_nat (str_len data) ∧
    authentic (SaveBlobWithStatus (Ok "abc") store_abc).2 (sha256_hex "abc") ∧
    (false = true → ¬ authentic store_abc (sha256_hex "abc")).
Proof.
  assert ((SaveBlobWithStatus (Ok "abc") store_abc).1 = Ok (sha256_hex "abc", 3%Z, false)) as Hrun%run_result
    by (vm_compute; reflexivity).
  exact (SaveBlob_installs store_abc (Ok "abc") (sha256_hex "abc") 3 false _ store_abc_reachable Hrun).
Defined.
