(* ===== verification/BlobRoundTrip.v ===== *)
(** * Saving and reading back

    The safety theorems of the blob store hold under any faults; here the
    other half: where no system call fails, a save succeeds and the blob can
    be read back, also when a damaged file occupies its name. *)
From Stdlib Require Import Ascii String.
From S2P Require Import Prelude GoStrings Sha256 Physical.
Local Open Scope stdpp_scope.

Section quiet.
Context `{!Digest}.
Implicit Types (st : Storage) (Φ : gmap string inode → Prop).

Definition faultless st : Prop := ∀ n op p, fault (fs st) n op p = false.

(** No faults, and a condition on the files. *)
Definition quiet Φ st : Prop := faultless st ∧ Φ (files (fs st)).

Lemma quiet_sys Φ op p : hoare (quiet Φ) (sys op p) (λ r st, r = Ok () ∧ quiet Φ st).
Proof. intros st r st' [Hf HΦ]. unfold sys. rw Hf. intros [= <- <-]. done. Qed.

Lemma quiet_after_sys {A} Φ op p (k : ST Storage A) Q :
  hoare (quiet Φ) k Q → hoare (quiet Φ) (sys op p;; k) Q.
Proof.
  intros Hk. eapply hoare_bind; [apply quiet_sys| |by intros e st [? _]].
  intros []. eapply hoare_pre; [exact Hk|]. by intros st [_ ?].
Qed.

Lemma quiet_stat {A} Φ p (k : option inode → ST Storage A) Q :
  (∀ o, hoare (quiet (λ F, Φ F ∧ F !! p = o)) (k o) Q) → hoare (quiet Φ) (file_at p ≫= k) Q.
Proof.
  intros Hk. eapply (hoare_bind _ _ _ (λ r st, ∃ o, r = Ok o ∧ quiet (λ F, Φ F ∧ F !! p = o) st)).
  - apply hoare_gets. intros st [Hf HΦ]. eexists. split; [done|]. by split.
  - intros o. eapply hoare_pre; [exact (Hk o)|]. by intros st (? & [= ->] & ?).
  - by intros e st (? & ? & _).
Qed.

Lemma quiet_modify Φ Ψ f :
  (∀ F, Φ F → Ψ (f F)) → hoare (quiet Φ) (modify (with_files f)) (λ r st, r = Ok () ∧ quiet Ψ st).
Proof. intros Hf. apply hoare_modify. intros st [Hq HΦ]. split; [done|]. split; [done|]. by apply Hf. Qed.

Lemma quiet_caches Φ c v : hoare (quiet Φ) (modify (with_caches c v)) (λ r st, r = Ok () ∧ quiet Φ st).
Proof. by apply hoare_modify. Qed.

Lemma quiet_Lstat Φ p :
  hoare (quiet Φ) (os_Lstat p)
    (λ r, quiet (λ F, Φ F ∧ r = match F !! p with Some n => Ok n | None => Err ENOENT end)).
Proof.
  apply quiet_after_sys, quiet_stat. intros [n|]; [apply hoare_ret|apply hoare_fail];
    intros st [Hf [HΦ Hp]]; (split; [done|]); (split; [done|]); by rw Hp.
Qed.

Lemma quiet_Stat Φ p :
  hoare (quiet Φ) (os_Stat p)
    (λ r, quiet (λ F, Φ F ∧ r = match F !! p with Some n => Ok n | None => Err ENOENT end)).
Proof.
  apply quiet_after_sys, quiet_stat. intros [n|]; [apply hoare_ret|apply hoare_fail];
    intros st [Hf [HΦ Hp]]; (split; [done|]); (split; [done|]); by rw Hp.
Qed.

Lemma quiet_ReadFile Φ p data mtime :
  (∀ F, Φ F → F !! p = Some (Regular data mtime)) →
  hoare (quiet Φ) (os_ReadFile p) (λ r st, r = Ok data ∧ quiet Φ st).
Proof.
  intros Hp. apply quiet_after_sys, quiet_stat. intros o st r st' [Hf [HΦ Ho]] Hrun.
  rw (Hp _ HΦ) in Ho. subst o.
  by apply (quiet_after_sys Φ SysRead p (mret data) (λ r st, r = Ok data ∧ quiet Φ st)
              (hoare_ret _ _ _ (λ st H, conj eq_refl H)) st).
Qed.

Lemma quiet_verifiedCurrent Φ h : hoare (quiet Φ) (verifiedCurrentLocked h) (λ r st, (∃ b, r = Ok b) ∧ quiet Φ st).
Proof.
  unfold verifiedCurrentLocked. eapply hoare_try; [apply quiet_Lstat|].
  intros [n|e] st r st' [Hf [HΦ _]]; [destruct (isRegular n)|];
    intros [= <- <-]; (split; [by eexists|by split]).
Qed.

(** On a regular file the verification tells whether the digest matches. *)
Definition verdict (data h : string) (r : res unit) : Prop :=
  if bool_decide (sha256_hex data = h) then r = Ok () else r = Err (corrupt "hash mismatch").

Lemma quiet_verifyCASFile Φ h data mtime :
  (∀ F, Φ F → F !! h = Some (Regular data mtime)) →
  hoare (quiet Φ) (verifyCASFile h h) (λ r st, quiet Φ st ∧ verdict data h r).
Proof.
  intros Hp. unfold verifyCASFile, verdict. eapply hoare_bind; [apply quiet_Lstat|..].
  - intros n st r st' [Hf [HΦ Hn]]. rw (Hp _ HΦ) in Hn. injection Hn as ->. simpl.
    revert st r st' Hf HΦ. enough (hoare (quiet Φ)
      (d ← os_ReadFile h; if bool_decide (sha256_hex d = h) then mret () else fail (corrupt "hash mismatch"))
      (λ r st, quiet Φ st ∧ verdict data h r)) as Hk by (intros st r st' Hf HΦ; by apply Hk).
    eapply hoare_bind; [by eapply quiet_ReadFile|..].
    + intros d st r st' [[= ->] Hq]. unfold verdict. case_bool_decide; by intros [= <- <-].
    + by intros e st [? _].
  - intros e st [Hf [HΦ He]]. by rw (Hp _ HΦ) in He.
Qed.

Lemma quiet_verify Φ h data mtime :
  (∀ F, Φ F → F !! h = Some (Regular data mtime)) →
  hoare (quiet Φ) (verifyAndCacheLocked h) (λ r st, quiet Φ st ∧ verdict data h r).
Proof.
  intros Hp. unfold verifyAndCacheLocked. eapply hoare_bind; [by eapply quiet_verifyCASFile| |done].
  intros []. unfold verdict. case_bool_decide as Hsha; [|by intros ? ? ? [_ ?]].
  eapply hoare_bind; [eapply hoare_pre; [apply (quiet_Lstat Φ)|by intros ? [??]]|..].
  - intros n st r st' [Hf [HΦ Hn]]. unfold cacheFingerprint. by intros [= <- <-].
  - intros e st [Hf [HΦ He]]. by rw (Hp _ HΦ) in He.
Qed.

(** Reading a file whose digest matches. *)
Lemma quiet_ReadBlob h data mtime st r st' :
  faultless st → IsValidCASHash h = true →
  files (fs st) !! h = Some (Regular data mtime) → sha256_hex data = h →
  ReadBlob h st = (r, st') → r = Ok data.
Proof.
  intros Hf Hh Hfile Hsha. set (Φ (F : gmap string inode) := F !! h = Some (Regular data mtime) : Prop).
  enough (hoare (quiet Φ) (ReadBlob h) (λ r _, r = Ok data)) as Hk by (apply Hk; by split).
  unfold ReadBlob. rw Hh. simpl. eapply hoare_bind; [apply quiet_verifiedCurrent| |by intros e s [[? ?] _]].
  intros b. eapply (hoare_bind _ _ _ (λ r st, r = Ok (Ok ()) ∧ quiet Φ st)).
  - destruct b; [by intros s ? ? [_ Hq] [= <- <-]|].
    eapply hoare_pre; [|by intros s [_ Hq]]. eapply hoare_attempt; [by eapply quiet_verify|].
    intros v s [Hq Hv]. unfold verdict in Hv. rw bool_decide_eq_true_2 // in Hv. by subst.
  - intros v. eapply hoare_pre with (P' := λ s, v = Ok () ∧ quiet Φ s); [|by intros s [[= ->] ?]].
    apply hoare_fact. intros ->. eapply hoare_try; [by eapply quiet_ReadFile|].
    intros d s ? s' [-> _]. by intros [= <- <-].
  - by intros e s [? _].
Qed.

(** The staged file [t] waits to be linked as [h], whose name is free or
    taken by a regular file. *)
Section install.
Context (t h : string) (Hth : t ≠ h) (Htq : t ≠ ".corrupt-" +:+ h) (Hqh : ".corrupt-" +:+ h ≠ h).

Definition occupied_ok (F : gmap string inode) : Prop :=
  is_Some (F !! t) ∧ match F !! h with None => True | Some n => isRegular n = true end.
Definition vacant (F : gmap string inode) : Prop := is_Some (F !! t) ∧ F !! h = None.

Lemma quiet_quarantine :
  hoare (quiet (λ F, occupied_ok F ∧ is_Some (F !! h))) (quarantineBlobLocked h)
    (λ r st, r = Ok () ∧ quiet vacant st).
Proof.
  unfold quarantineBlobLocked.
  eapply (hoare_bind _ _ _ (λ r st, r = Ok () ∧ quiet (λ F, occupied_ok F ∧ is_Some (F !! h)) st));
    [|intros []|by intros e st [? _]].
  { apply quiet_after_sys, quiet_modify. intros F [[Ht Hn] Hh]. unfold occupied_ok.
    by rw !lookup_delete_ne. }
  eapply hoare_try with (R := λ r st, r = Ok () ∧ quiet vacant st).
  { eapply hoare_pre; [|by intros st [_ Hq]]. apply quiet_after_sys, quiet_stat. intros [n|].
    - apply quiet_modify. intros F [[[Ht _] _] _]. unfold vacant.
      by rw !lookup_insert_ne // lookup_delete_ne // lookup_delete_eq.
    - intros st r st' [_ [[_ [n Hn]] Ho]]. congruence. }
  intros v. apply hoare_fact. intros ->. eapply hoare_bind; [apply quiet_caches| |by intros e s [? _]].
  intros []. eapply hoare_pre; [apply quiet_sys|by intros s [_ ?]].
Qed.

Lemma quiet_Link :
  hoare (quiet vacant) (os_Link t h) (λ r st, r = Ok () ∧ faultless st).
Proof.
  apply quiet_after_sys, quiet_stat. intros o. apply quiet_stat. intros o' st r st' [Hf [[[[n Ht] Hh] Ho] Ho']].
  rw Ht in Ho. rw Hh in Ho'. subst. by intros [= <- <-].
Qed.

Lemma quiet_finishLink what :
  hoare faultless (finishLink h what) (λ r st, r = Ok true ∧ faultless st).
Proof.
  assert (∀ st, faultless st → quiet (λ _, True) st) as Hq by (by split).
  unfold finishLink. eapply hoare_pre; [|exact Hq]. eapply hoare_try; [apply quiet_sys|].
  intros v. apply hoare_fact. intros ->.
  eapply hoare_bind with (R := λ r st, r = Ok () ∧ faultless st); [|intros []|by intros e s [? _]].
  - unfold cacheVerifiedLocked. eapply hoare_try; [apply quiet_Lstat|].
    intros [n|e] s r s' [Hf _]; by intros [= <- <-].
  - apply hoare_ret. by intros s [_ ?].
Qed.

Lemma quiet_link_then what :
  hoare (quiet vacant)
    (l ← attempt (os_Link t h);
     match l with Err re => fail (EWrap "replace quarantined CAS blob" re) | Ok _ => finishLink h what end)
    (λ r st, r = Ok true ∧ faultless st).
Proof.
  eapply hoare_try; [apply quiet_Link|].
  intros v. apply hoare_fact. intros ->. apply quiet_finishLink.
Qed.

Lemma quiet_case {A} Φ (m : ST Storage A) Q :
  (∀ o, hoare (quiet (λ F, Φ F ∧ F !! h = o)) m Q) → hoare (quiet Φ) m Q.
Proof. intros Hm st r st' [Hf HΦ]. eapply Hm. by split. Qed.

Lemma quiet_Prepare b :
  sbHash b = h → hoare (quiet occupied_ok) (Prepare b) (λ r st, r = Ok () ∧ quiet occupied_ok st).
Proof.
  intros Hb. unfold Prepare. rw Hb.
  eapply hoare_bind; [apply quiet_verifiedCurrent| |by intros e s [[? ?] _]].
  intros [|]; [apply hoare_ret; by intros s [_ ?]|].
  eapply hoare_pre; [|by intros s [_ ?]]. apply quiet_case. intros [n|].
  - destruct n as [d m| |];
      [|by intros s r s' [_ [[_ Hn] Hh]]; rw Hh in Hn..].
    eapply hoare_try; [apply quiet_Lstat|]. intros [n|e];
      [|intros s r s' [_ [[_ Hh] He]]; by rw Hh in He].
    eapply hoare_pre with (P' := λ s, n = Regular d m ∧ quiet (λ F, occupied_ok F ∧ F !! h = Some (Regular d m)) s).
    2:{ intros s [Hf [[Ho Hh] Hn]]. rw Hh in Hn. by injection Hn as ->. }
    apply hoare_fact. intros ->. eapply hoare_try; [eapply quiet_verify; by intros F [_ ?]|].
    intros v. unfold verdict. apply hoare_pure. case_bool_decide; intros ->.
    { apply hoare_ret. by intros s [Hf [Ho _]]. }
    simpl. eapply hoare_try.
    { eapply hoare_pre; [apply quiet_quarantine|]. intros s [Hf [Ho Hh]]. split; [done|]. by split; [|eexists]. }
    intros q. apply hoare_fact. intros ->. simpl. apply hoare_ret.
    intros s [Hf [Ht Hh]]. split; [done|]. split; [done|]. split; [done|]. by rw Hh.
  - eapply hoare_try; [apply quiet_Lstat|]. intros [n|e];
      [intros s r s' [_ [[_ Hh] He]]; by rw Hh in He|].
    intros s r s' [Hf [[Ho Hh] He]]. rw Hh in He. injection He as ->. simpl. by intros [= <- <-].
Qed.

Lemma quiet_replaceCorrupt b e d m :
  sbHash b = h → tempPath b = t →
  hoare (quiet (λ F, occupied_ok F ∧ F !! h = Some (Regular d m))) (replaceCorrupt b e)
    (λ r st, r = Ok true ∧ faultless st).
Proof.
  intros Hb Ht. unfold replaceCorrupt. rw Hb Ht.
  eapply hoare_try; [apply quiet_Lstat|]. intros info.
  eapply hoare_pre with (P' := λ s, info = Ok (Regular d m) ∧ quiet (λ F, occupied_ok F ∧ is_Some (F !! h)) s).
  2:{ intros s [Hf [[Ho Hh] Hn]]. rw Hh in Hn. split; [done|]. split; [done|]. by split; [|eexists]. }
  apply hoare_fact. intros ->. simpl. eapply hoare_try; [apply quiet_quarantine|].
  intros q. apply hoare_fact. intros ->. apply quiet_link_then.
Qed.

Lemma quiet_commitLocked b :
  sbHash b = h → tempPath b = t →
  hoare (quiet occupied_ok) (commitLocked b) (λ r st, (∃ c, r = Ok c) ∧ faultless st).
Proof.
  intros Hb Ht. unfold commitLocked. rw Hb Ht. apply quiet_case. intros [n|].
  - destruct n as [d m| |]; [|by intros s r s' [_ [[_ Hn] Hh]]; rw Hh in Hn..].
    set (Φ F := occupied_ok F ∧ F !! h = Some (Regular d m)).
    eapply hoare_try with (R := λ r st, (∃ e, r = Err e) ∧ quiet Φ st).
    { apply quiet_after_sys, quiet_stat. intros o. apply quiet_stat. intros o' s r s' [Hf [[HΦ _] Ho]].
      destruct HΦ as [Ho' Hh]. rw Hh in Ho. subst o'. intros [= <- <-]. split; [by eexists|by split]. }
    intros l. apply hoare_fact. intros [e ->]. eapply hoare_try; [apply quiet_Stat|]. intros v.
    eapply hoare_pre with (P' := λ s, v = Ok (Regular d m) ∧ quiet Φ s).
    2:{ intros s [Hf [HΦ Hv]]. by rw (proj2 HΦ) in Hv. }
    apply hoare_fact. intros ->. eapply hoare_bind; [apply quiet_verifiedCurrent| |by intros ? s [[? ?] _]].
    intros [|]; simpl; [apply hoare_ret; intros s [_ [Hf _]]; split; [by eexists|done]|].
    eapply hoare_pre; [|by intros s [_ ?]].
    eapply hoare_try; [eapply quiet_verify; by intros F [_ ?]|]. intros v. unfold verdict.
    apply hoare_pure. case_bool_decide; intros ->.
    { apply hoare_ret. intros s [Hf _]. split; [by eexists|done]. }
    simpl. eapply hoare_conseq; [by apply (quiet_replaceCorrupt b _ d m)|done|].
    intros r s [-> ?]. split; [by eexists|done].
  - eapply hoare_try.
    { eapply hoare_pre; [apply quiet_Link|]. intros s [Hf [[Ht' _] Hh]]. by split. }
    intros v. apply hoare_fact. intros ->. eapply hoare_conseq; [apply quiet_finishLink|done|].
    intros r s [-> ?]. split; [by eexists|done].
Qed.
End install.

Lemma faultless_Remove p : preserves faultless (os_Remove p).
Proof.
  unfold os_Remove. apply preserves_bind; [by intros s r s' Hf [= _ <-]|]. intros [].
  apply preserves_bind; [apply preserves_gets|].
  intros [[| [] |]|]; first [apply preserves_fail|by apply preserves_modify].
Qed.

Lemma quiet_saveStaged b :
  sbDone b = false → temp_name (tempPath b) = true → IsValidCASHash (sbHash b) = true →
  hoare (quiet (occupied_ok (tempPath b) (sbHash b))) (saveStaged b)
    (λ r st, (∃ c, r = Ok (sbHash b, sbSize b, c)) ∧ faultless st).
Proof.
  intros Hdone Ht Hh.
  assert (tempPath b ≠ sbHash b) by (intros He; apply temp_name_not_hash in Ht; congruence).
  assert (tempPath b ≠ ".corrupt-" +:+ sbHash b)
    by (intros He; pose proof (quarantine_not_temp (sbHash b)); congruence).
  assert (".corrupt-" +:+ sbHash b ≠ sbHash b)
    by (intros He; pose proof (quarantine_not_hash (sbHash b)); congruence).
  unfold saveStaged. eapply hoare_try; [by eapply quiet_Prepare|].
  intros v. apply hoare_fact. intros ->.
  eapply hoare_try with (R := λ r st, (∃ c, r = Ok (c, finalized b)) ∧ faultless st).
  - unfold Commit. rw Hdone. eapply hoare_bind; [by eapply quiet_commitLocked| |by intros e s [[? ?] _]].
    intros c. eapply hoare_bind with (R := λ r st, r = Ok () ∧ faultless st);
      [by apply hoare_modify; intros s [_ ?]| |by intros e s [? _]].
    intros []. eapply hoare_try with (R := λ _ st, faultless st).
    { eapply hoare_pre; [apply faultless_Remove|by intros s [_ ?]]. }
    intros v. apply hoare_ret. intros s Hf. split; [by eexists|done].
  - intros v. apply hoare_fact. intros [c ->]. intros s r s' Hf [= <- <-]. split; [by eexists|done].
Qed.

Lemma quiet_StageBlob data st r st' :
  faultless st → files (fs st) !! ("tmp-blob-" +:+ tempSuffix (fs st) (tick (fs st))) = None →
  StageBlob (Ok data) st = (r, st') →
  ∃ b, r = Ok b ∧ sbDone b = false ∧ tempPath b = "tmp-blob-" +:+ tempSuffix (fs st) (tick (fs st)) ∧
    sbHash b = sha256_hex data ∧ sbSize b = Z.of_nat (str_len data) ∧ faultless st' ∧
    files (fs st') = <[tempPath b := Regular data (now (fs st))]> (files (fs st)).
Proof.
  intros Hf Hfree. unfold StageBlob. set (t := "tmp-blob-" +:+ _) in *.
  unfold mbind, st_bind, file_at, gets, sys, attempt, modify, of_res.
  fold t. rw !Hf. cbn [fs files]. rw Hfree. cbn -[sha256_hex t]. rw !Hf. cbn -[sha256_hex t].
  intros [= <- <-]. eexists. repeat split; [done|]. cbn. by rw insert_insert_eq.
Qed.

(** C24: in a reachable store (outside changes alter the size or the time of
    the files they touch) where no system call fails, the temporary name is
    free and the blob's name is free or a regular file's, saving succeeds and
    the blob reads back, also when a damaged file had taken its name: the bytes
    returned have the digest of the bytes saved, and are those bytes unless the
    digest collides. *)
Theorem save_read_roundtrip data st :
  reachable st → faultless st →
  files (fs st) !! ("tmp-blob-" +:+ tempSuffix (fs st) (tick (fs st))) = None →
  match files (fs st) !! sha256_hex data with None => True | Some n => isRegular n = true end →
  ∃ created st' data',
    SaveBlobWithStatus (Ok data) st = (Ok (sha256_hex data, Z.of_nat (str_len data), created), st') ∧
    (ReadBlob (sha256_hex data) st').1 = Ok data' ∧ sha256_hex data' = sha256_hex data ∧
    ((∀ x, sha256_hex x = sha256_hex data → x = data) → data' = data).
Proof.
  intros Hr Hf Hfree Hslot. destruct (SaveBlobWithStatus (Ok data) st) as [r st'] eqn:Hrun.
  destruct (good_Save (files (fs st)) (Ok data) _ _ _ (conj (reachable_inv st Hr) (kept_refl st)) Hrun) as [_ Hs].
  revert Hrun. unfold SaveBlobWithStatus, mbind at 1, st_bind.
  destruct (StageBlob (Ok data) st) as [r1 st1] eqn:H1.
  destruct (quiet_StageBlob data st r1 st1 Hf Hfree H1) as (b & -> & Hdone & Ht & Hh & Hsz & Hf1 & Hfiles).
  intros H2. assert (temp_name (tempPath b) = true) as Htn by (rw Ht; apply temp_name_tmp).
  destruct (quiet_saveStaged b Hdone Htn ltac:(rw Hh; apply sha256_hex_valid) st1 r st') as [[c ->] Hf'].
  { split; [done|]. unfold occupied_ok. rw Hfiles Hh lookup_insert_eq lookup_insert_ne; [by split; [eexists|]|].
    intros He. apply temp_name_not_hash in Htn. rw He sha256_hex_valid in Htn. done. }
  { exact H2. }
  rw Hh Hsz. rw Hh Hsz in Hs. destruct (Hs _ eq_refl) as (data0 & [= <-] & Hsaved).
  destruct (Hsaved _ _ _ eq_refl) as (_ & _ & (data' & mtime & Hfile & Hsha) & _).
  destruct (ReadBlob (sha256_hex data) st') as [r3 st3] eqn:H3.
  assert (r3 = Ok data') as -> by (eapply quiet_ReadBlob; [done|apply sha256_hex_valid|done..]).
  exists c, st', data'. rw H3. split_and!; auto.
Qed.
End quiet.

(** ** Witness *)

Lemma overwritten_tampered st h node :
  verified st !! h ≠ Some (fingerprint node) → tampered st (with_files (<[h := node]>) st).
Proof.
  intros Hv. split; [done|]. intros h' data mtime. simpl. intros [[<- ->]|[_ Hfile]]%lookup_insert_Some; [by right|by left].
Qed.

(** The file of a saved blob, overwritten from outside. *)
Definition damaged_abc : Storage := with_files (<[sha256_hex "abc" := Regular "abx" 7]>) store_abc.

Lemma damaged_reachable : reachable damaged_abc.
Proof.
  apply (reachable_tampered store_abc); [exact store_abc_reachable|]. apply overwritten_tampered.
  apply (proj1 (bool_decide_eq_false _)). vm_compute. reflexivity.
Qed.

Lemma save_read_roundtrip_witness :
  is_ok (ReadBlob (sha256_hex "abc") damaged_abc).1 = false ∧
  ∃ created st' data',
    SaveBlobWithStatus (Ok "abc") damaged_abc = (Ok (sha256_hex "abc", 3%Z, created), st') ∧
    (ReadBlob (sha256_hex "abc") st').1 = Ok data' ∧ sha256_hex data' = sha256_hex "abc" ∧
    ((∀ x, sha256_hex x = sha256_hex "abc" → x = "abc") → data' = "abc").
Proof.
  split; [vm_compute; reflexivity|].
  apply (save_read_roundtrip "abc" damaged_abc); [apply damaged_reachable|by intros n op p|vm_compute; reflexivity|].
  vm_compute. reflexivity.
Defined.
