(* ===== verification/Journal.v ===== *)
(** * The task journal: records and transitions

    [internal/storage/task_journal.go]: how checkpoints are merged into the
    aggregate record of a task, how blob hashes are found in task outputs,
    and the write-ahead journal itself.  Operations on the database take and
    return the database, as the transactions of [Bolt.v] do; the part that
    needs the blob store is in [Engine.v]. *)
From Stdlib Require Import SpecFloat.
From S2P Require Import Prelude GoStrings Json Protocol Bolt Sha256.

(** ** What the database stores

    A record is stored as JSON.  Reading it back gives the same record up to
    the changes below: numbers inside [any] come back as [float64], typed
    maps and slices as [map[string]any] and [[]any], and an empty map under
    [omitempty] as nil.  NaN and the infinities have no JSON form. *)

Definition json_unsupported : error := EMsg "json: unsupported value".

(** A decimal integer read as the nearest [float64]. *)
Definition int_to_float (z : Z) : float64 := binary_normalize 53 1024 z 0 false.

Definition json_float (f : float64) : res any :=
  match f with
  | S754_zero _ | S754_finite _ _ _ => Ok (AFloat f)
  | S754_infinity _ | S754_nan => Err json_unsupported
  end.

(** Encoding all the values of a map; they all fail with the same error. *)
Definition json_entries {V W} (f : V → res W) (m : gmap string V) : res (gmap string W) :=
  map_fold (λ k v acc,
    match acc, f v with
    | Ok m', Ok w => Ok (<[k := w]> m')
    | _, _ => Err json_unsupported
    end) (Ok ∅) m.

Fixpoint json_value (v : any) : res any :=
  match v with
  | ANil => Ok ANil
  | ABool b => Ok (ABool b)
  | AStr s => Ok (AStr s)
  | AInt z => Ok (AFloat (int_to_float z))
  | AFloat f => json_float f
  | AMap m => AMap <$> json_entries json_value m
  | AMapMap m => AMap <$> json_entries (λ i, AMap <$> json_entries json_value i) m
  | AMapStr m => Ok (AMap (AStr <$> m))
  | ASlice l =>
      ASlice <$> (fix go l := match l with
                              | [] => Ok []
                              | x :: l' => x' ← json_value x; l'' ← go l'; Ok (x' :: l'')
                              end) l
  | AStrSlice l => Ok (ASlice (AStr <$> l))
  end.

(** [omitempty] on a map. *)
Definition omit {V} (m : gomap V) : gomap V :=
  match m with
  | Some m => if bool_decide (m = ∅) then None else Some m
  | None => None
  end.

Definition json_gomap {V} (f : V → res V) (m : gomap V) : res (gomap V) :=
  match omit m with
  | None => Ok None
  | Some m => Some <$> json_entries f m
  end.

(** The outputs of one step; a nil map is [null]. *)
Definition json_outputs (m : gomap any) : res (gomap any) :=
  match m with
  | None => Ok None
  | Some m => Some <$> json_entries json_value m
  end.

Definition json_state (st : PipelineExecutionState) : res PipelineExecutionState :=
  outputs ← json_gomap json_outputs (StateOutputs st);
  Ok {| PipelineID := PipelineID st; PipelineVersion := PipelineVersion st;
        SchemaHash := SchemaHash st; CurrentStep := CurrentStep st;
        StateOutputs := outputs;
        OutputProducers := omit (OutputProducers st);
        SelectedTargets := omit (SelectedTargets st);
        Snapshot := Snapshot st |}.

Definition json_context (c : TaskContext) : res TaskContext :=
  payload ← json_gomap json_value (Payload c);
  state ← match PipelineState c with
          | None => Ok None
          | Some st => Some <$> json_state st
          end;
  Ok {| TaskID := TaskID c; TService := TService c; Status := Status c;
        RequesterNodeID := RequesterNodeID c; ReplyTo := ReplyTo c; NodeID := NodeID c;
        Payload := payload; TError := TError c; PipelineState := state;
        Metadata := omit (Metadata c) |}.

Definition json_journal (r : TaskJournalRecord) : res TaskJournalRecord :=
  c ← json_context (JContext r);
  outputs ← json_gomap json_value (JOutputs r);
  Ok {| JContext := c; JSequence := JSequence r; JTimestamp := JTimestamp r;
        JStepID := JStepID r; JStepIndex := JStepIndex r; JOutputs := outputs;
        JIntermediate := JIntermediate r; JIntermediateBlobs := JIntermediateBlobs r |}.

Definition json_task (t : TaskRecord) : res TaskRecord :=
  c ← json_context (TContext t);
  outputs ← json_gomap json_outputs (TOutputs t);
  final ← json_gomap json_value (FinalOutputs t);
  Ok {| TContext := c; CreatedAt := CreatedAt t; UpdatedAt := UpdatedAt t;
        TCurrentStep := TCurrentStep t; TCurrentStepID := TCurrentStepID t;
        ExpectedProducerNodeID := ExpectedProducerNodeID t;
        TOutputs := outputs; FinalOutputs := final; Retries := Retries t |}.

(** ** Merging contexts *)

Definition validateTaskID (taskID : string) : res unit :=
  if bool_decide (TrimSpace taskID = "") then Err (ESentinel ErrEmptyTaskID) else Ok ().

Definition mergeComparable {T} `{EqDecision T} (zero dst src : T) (overwrite : bool) : T :=
  if bool_decide (src = zero) then dst
  else if overwrite || bool_decide (dst = zero) then src else dst.

Definition mergeReference {T} (dst src : option T) (overwrite : bool) : option T :=
  match src with
  | None => dst
  | Some _ => if overwrite || bool_decide (dst = None) then src else dst
  end.

Definition TaskContext_merge (c src : TaskContext) (overwrite : bool) : TaskContext :=
  {| TaskID := TaskID c;
     TService := mergeComparable "" (TService c) (TService src) overwrite;
     Status := if overwrite && negb (bool_decide (Status src = "")) then Status src else Status c;
     RequesterNodeID := mergeComparable "" (RequesterNodeID c) (RequesterNodeID src) overwrite;
     ReplyTo := mergeComparable "" (ReplyTo c) (ReplyTo src) overwrite;
     NodeID := mergeComparable "" (NodeID c) (NodeID src) overwrite;
     Payload := mergeReference (Payload c) (CloneJSONMap (Payload src)) overwrite;
     TError := mergeComparable "" (TError c) (TError src) overwrite;
     PipelineState :=
       mergeReference (PipelineState c) (ClonePipelineExecutionState (PipelineState src)) overwrite;
     Metadata :=
       match Metadata src with
       | Some m => if bool_decide (m = ∅) then Metadata c
                   else Some (MergeMap (default ∅ (Metadata c)) m overwrite)
       | None => Metadata c
       end |}.

Definition Overlay (c update : TaskContext) : TaskContext := TaskContext_merge c update true.
Definition FillMissing (c base : TaskContext) : TaskContext := TaskContext_merge c base false.

(** ** Applying a checkpoint *)

Definition isTerminalTaskStatus (status : string) : bool :=
  bool_decide (status = "completed") || bool_decide (status = "failed").
Arguments isTerminalTaskStatus status : simpl never.

Definition TaskEventSchemaMigrated : string := "schema_migrated".

Definition emptyContext (taskID status : string) : TaskContext :=
  {| TaskID := taskID; TService := ""; Status := status; RequesterNodeID := ""; ReplyTo := "";
     NodeID := ""; Payload := None; TError := ""; PipelineState := None; Metadata := None |}.

Definition newTaskRecord (taskID : string) (createdAt : time) : TaskRecord :=
  {| TContext := emptyContext taskID ""; CreatedAt := createdAt; UpdatedAt := 0;
     TCurrentStep := 0; TCurrentStepID := ""; ExpectedProducerNodeID := "";
     TOutputs := Some ∅; FinalOutputs := None; Retries := 0 |}.

Definition with_status (c : TaskContext) (s : string) : TaskContext :=
  {| TaskID := TaskID c; TService := TService c; Status := s; RequesterNodeID := RequesterNodeID c;
     ReplyTo := ReplyTo c; NodeID := NodeID c; Payload := Payload c; TError := TError c;
     PipelineState := PipelineState c; Metadata := Metadata c |}.

Definition cloneOutputs (m : gomap (gomap any)) : gomap (gomap any) := CloneMap m (Some CloneJSONMap).

Definition applyJournalRecord (t : TaskRecord) (record : TaskJournalRecord) : TaskRecord :=
  let prevStatus := Status (TContext t) in
  let rc := JContext record in
  let overlaid := Overlay (TContext t) rc in
  let context :=
    if bool_decide (Status rc = TaskEventSchemaMigrated) then
      with_status overlaid (if bool_decide (prevStatus = "") then "running" else prevStatus)
    else overlaid in
  let outputs1 :=
    match PipelineState rc with
    | Some st =>
        match StateOutputs st with
        | Some _ =>
            match cloneOutputs (StateOutputs st), TOutputs t with
            | Some cloned, Some outs => Some (MergeMap outs cloned true)
            | cloned, _ => cloned
            end
        | None => TOutputs t
        end
    | None => TOutputs t
    end in
  {| TContext := context;
     CreatedAt := CreatedAt t;
     UpdatedAt := JTimestamp record;
     TCurrentStep :=
       if (0 <? JStepIndex record)%Z || (TCurrentStep t =? 0)%Z then JStepIndex record else TCurrentStep t;
     TCurrentStepID := if bool_decide (JStepID record = "") then TCurrentStepID t else JStepID record;
     ExpectedProducerNodeID := ExpectedProducerNodeID t;
     TOutputs :=
       match CloneJSONMap (JOutputs record) with
       | Some out => if bool_decide (JStepID record = "") then outputs1
                     else Some (<[JStepID record := Some out]> (default ∅ outputs1))
       | None => outputs1
       end;
     FinalOutputs :=
       match JOutputs record with
       | Some _ => if isTerminalTaskStatus (Status rc) then CloneJSONMap (JOutputs record) else FinalOutputs t
       | None => FinalOutputs t
       end;
     Retries := Retries t |}.

Definition mergeFromActive (t active : TaskRecord) : TaskRecord :=
  {| TContext := FillMissing (TContext t) (TContext active);
     CreatedAt := if (CreatedAt t =? 0)%Z && negb (CreatedAt active =? 0)%Z
                  then CreatedAt active else CreatedAt t;
     UpdatedAt := UpdatedAt t;
     TCurrentStep := mergeComparable 0%Z (TCurrentStep t) (TCurrentStep active) false;
     TCurrentStepID := mergeComparable "" (TCurrentStepID t) (TCurrentStepID active) false;
     ExpectedProducerNodeID :=
       mergeComparable "" (ExpectedProducerNodeID t) (ExpectedProducerNodeID active) false;
     TOutputs := match TOutputs t with None => cloneOutputs (TOutputs active) | Some _ => TOutputs t end;
     FinalOutputs := FinalOutputs t;
     Retries := mergeComparable 0%Z (Retries t) (Retries active) false |}.

(** ** Blob hashes in task data *)

Definition addHash (result : list string) (h : string) : list string :=
  let h := ToLower (TrimSpace h) in
  if IsValidCASHash h && negb (bool_decide (h ∈ result)) then result ++ [h] else result.

Definition walkString (x : string) (result : list string) : list string :=
  match ParseVFSURI x with
  | (h, true) => addHash result h
  | (_, false) => if IsValidCASHash x then addHash result x else result
  end.

Definition PipelineOutputsKey : string := "$pipeline_outputs".

(** The walk of a [map[string]any], given the walk of its values. *)
Definition walkMap (skip : bool) (walk : any → list string → list string)
    (x : gmap string any) (result : list string) : list string :=
  map_fold (λ k item acc, if skip && bool_decide (k = PipelineOutputsKey) then acc else walk item acc)
    (match x !! OutputHashKey with Some (AStr h) => addHash result h | _ => result end) x.

Fixpoint walk (skip : bool) (val : any) (result : list string) : list string :=
  match val with
  | AStr x => walkString x result
  | AMapMap x => map_fold (λ _ item acc, walkMap skip (walk skip) item acc) result x
  | AMap x => walkMap skip (walk skip) x result
  | AMapStr x => map_fold (λ _ item acc, walkString item acc) result x
  | ASlice x => (fix go l acc := match l with [] => acc | item :: l' => go l' (walk skip item acc) end) x result
  | AStrSlice x => (fix go l acc := match l with [] => acc | item :: l' => go l' (walkString item acc) end) x result
  | ANil | ABool _ | AInt _ | AFloat _ => result
  end.

Definition extractBlobHashesInternal (v : any) (skipPipelineOutputs : bool) : list string :=
  walk skipPipelineOutputs v [].

Definition ExtractBlobHashes (v : any) : list string := extractBlobHashesInternal v false.
Definition extractNonIntermediateBlobHashes (v : any) : list string := extractBlobHashesInternal v true.

(** The maps of a record as the values the extraction receives. *)
Definition any_of_map (m : gomap any) : any := AMap (default ∅ m).
Definition any_of_outputs (m : gomap (gomap any)) : any := AMapMap (default ∅ <$> default ∅ m).

Definition TaskJournalRecord_BlobHashes (r : TaskJournalRecord) : list string :=
  JIntermediateBlobs r ++ ExtractBlobHashes (any_of_map (JOutputs r)).

Definition TaskRecord_BlobHashes (t : TaskRecord) : list string :=
  ExtractBlobHashes (any_of_outputs (TOutputs t)) ++
  ExtractBlobHashes (any_of_map (Payload (TContext t))) ++
  ExtractBlobHashes (any_of_map (FinalOutputs t)).

(** What a record of the history keeps alive. *)
Definition historyBlobHashes (t : TaskRecord) : list string :=
  extractNonIntermediateBlobHashes (any_of_map (FinalOutputs t)) ++
  ExtractBlobHashes (any_of_map (Payload (TContext t))).

(** ** Journal keys *)

Definition taskJournalKey (taskID : string) (seq : N) : string :=
  taskID +:+ "/" +:+ pad_dec 20 seq "".

Definition parseTaskJournalSeq (key taskID : string) : option N :=
  let prefix := taskID +:+ "/" in
  if negb (HasPrefix key prefix) then None
  else ParseUint (TrimPrefix key prefix).

(** A cursor placed by [Seek]: the pairs from the first key not below it. *)
Fixpoint cursorSeek {V} (l : list (string * V)) (key : string) : list (string * V) :=
  match l with
  | [] => []
  | (k, v) :: rest => if String.ltb k key then cursorSeek rest key else l
  end.

Fixpoint whilePrefix {V} (l : list (string * V)) (prefix : string) : list (string * V) :=
  match l with
  | [] => []
  | (k, v) :: rest => if HasPrefix k prefix then (k, v) :: whilePrefix rest prefix else []
  end.

(** The records up to the first one that does not decode, and its error. *)
Fixpoint decodeRecords {T} (l : list (string * json T)) : list (string * T) * option error :=
  match l with
  | [] => ([], None)
  | (k, raw) :: rest =>
      match unmarshal raw with
      | Err e => ([], Some (EWrap "corrupt task journal record" e))
      | Ok rec => let '(recs, err) := decodeRecords rest in ((k, rec) :: recs, err)
      end
  end.

Definition max_seq (l : list N) : N := foldl (λ m s, if (m <? s)%N then s else m) 0%N l.

(** [maxSeq + 1] on a [uint64]. *)
Definition nextSequence (m : N) : N := ((m + 1) mod 2 ^ 64)%N.

Definition set_sequence (r : TaskJournalRecord) (seq : N) : TaskJournalRecord :=
  {| JContext := JContext r; JSequence := seq; JTimestamp := JTimestamp r; JStepID := JStepID r;
     JStepIndex := JStepIndex r; JOutputs := JOutputs r; JIntermediate := JIntermediate r;
     JIntermediateBlobs := JIntermediateBlobs r |}.

Definition prepareCheckpoint (now : time) (r : TaskJournalRecord) : TaskJournalRecord :=
  {| JContext := JContext r; JSequence := JSequence r;
     JTimestamp := if (JTimestamp r =? 0)%Z then now else JTimestamp r;
     JStepID := JStepID r; JStepIndex := JStepIndex r; JOutputs := JOutputs r;
     JIntermediate := JIntermediate r;
     JIntermediateBlobs :=
       if JIntermediate r && bool_decide (JIntermediateBlobs r = []) &&
          negb (bool_decide (gomap_len (JOutputs r) = 0%nat))
       then ExtractBlobHashes (any_of_map (JOutputs r)) else JIntermediateBlobs r |}.

Section journal.
Context {DB : Type} `{!Bolt DB}.

Definition scanTaskJournalPrefix (d : DB) (taskID : string) : list (string * json TaskJournalRecord) :=
  let prefix := taskID +:+ "/" in
  whilePrefix (cursorSeek (bforeach d TasksJournal) prefix) prefix.

Definition activeTask (tx : DB) (id : string) := boltGetJSON TasksActive (λ v, v) tx id.
Definition historyTask (tx : DB) (id : string) := boltGetJSON TasksHistory (λ v, v) tx id.

Definition putTask (tx : DB) (b : bucket) (enc : json TaskRecord → val b) (id : string) (t : TaskRecord)
  : res DB :=
  _ ← boltBucket tx b;
  stored ← json_task t;
  bput tx b id (enc (JDoc stored)).

(** The history record a terminal checkpoint is applied to. *)
Definition baseHistory (record : TaskJournalRecord) (hist active : option TaskRecord) : TaskRecord :=
  match hist, active with
  | Some h, Some a => mergeFromActive h a
  | Some h, None => h
  | None, Some a => a
  | None, None => newTaskRecord (TaskID (JContext record)) (JTimestamp record)
  end.

Definition assignSequence (tx : DB) (record : TaskJournalRecord) : TaskJournalRecord :=
  if (JSequence record =? 0)%N then
    let id := TaskID (JContext record) in
    let seqs := omap (λ kv, parseTaskJournalSeq (fst kv) id) (scanTaskJournalPrefix tx id) in
    set_sequence record (nextSequence (max_seq seqs))
  else record.

Definition appendCheckpointTx (tx : DB) (record : TaskJournalRecord) : res (unit * DB) :=
  let id := TaskID (JContext record) in
  let status := Status (JContext record) in
  hist ← historyTask tx id;
  if match hist with
     | Some h => isTerminalTaskStatus (Status (TContext h)) && negb (bool_decide (status = Status (TContext h)))
     | None => false
     end
  then Err (ESentinel ErrTaskTerminal)
  else
    _ ← boltBucket tx TasksJournal;
    let record := assignSequence tx record in
    encoded ← match json_journal record with
              | Ok r => Ok r
              | Err e => Err (EWrap "marshal task checkpoint" e)
              end;
    tx1 ← match bput tx TasksJournal (taskJournalKey id (JSequence record)) (JDoc encoded) with
          | Ok tx1 => Ok tx1
          | Err e => Err (EWrap "persist task journal checkpoint" e)
          end;
    active ← activeTask tx1 id;
    if isTerminalTaskStatus status then
      tx2 ← match active with Some _ => boltDelete tx1 TasksActive id | None => Ok tx1 end;
      tx3 ← putTask tx2 TasksHistory (λ v, v) id
              (applyJournalRecord (baseHistory record hist active) record);
      Ok ((), tx3)
    else
      let base := match active with Some a => a | None => newTaskRecord id (JTimestamp record) end in
      tx2 ← putTask tx1 TasksActive (λ v, v) id (applyJournalRecord base record);
      Ok ((), tx2).

Definition AppendTaskCheckpoint (now : time) (d : DB) (record : TaskJournalRecord) : res unit * DB :=
  match validateTaskID (TaskID (JContext record)) with
  | Err e => (Err e, d)
  | Ok _ => Update d (λ tx, appendCheckpointTx tx (prepareCheckpoint now record))
  end.

Definition SaveIntermediateOutput (now : time) (d : DB) (taskID stepID : string) (outputs : gomap any)
  : res unit * DB :=
  match validateTaskID taskID with
  | Err e => (Err e, d)
  | Ok _ =>
      AppendTaskCheckpoint now d
        {| JContext := emptyContext taskID "running"; JSequence := 0; JTimestamp := now;
           JStepID := stepID; JStepIndex := 0; JOutputs := CloneJSONMap outputs;
           JIntermediate := true;
           JIntermediateBlobs := ExtractBlobHashes (any_of_map outputs) |}
  end.

(** [sort.Slice] by sequence number. *)
Definition seq_le (a b : TaskJournalRecord) : Prop := (JSequence a <= JSequence b)%N.

#[global] Instance seq_le_dec : RelDecision seq_le.
Proof. intros a b. unfold seq_le. apply _. Defined.

Definition GetTaskJournal (d : DB) (taskID : string) : res (list TaskJournalRecord) :=
  _ ← validateTaskID taskID;
  _ ← View d (λ tx, boltBucket tx TasksJournal);
  match decodeRecords (scanTaskJournalPrefix d taskID) with
  | (_, Some e) => Err e
  | (recs, None) => Ok (merge_sort seq_le recs.*2)
  end.

Definition GetLatestTaskCheckpoint (d : DB) (taskID : string) : res (option TaskJournalRecord) :=
  records ← GetTaskJournal d taskID;
  Ok (last records).

Fixpoint deleteKeys (tx : DB) (b : bucket) (keys : list string) : res DB :=
  match keys with
  | [] => Ok tx
  | k :: rest =>
      match bdel tx b k with
      | Ok tx' => deleteKeys tx' b rest
      | Err e => Err e
      end
  end.

Definition DeleteTaskJournal (d : DB) (taskID : string) : res unit * DB :=
  match validateTaskID taskID with
  | Err e => (Err e, d)
  | Ok _ =>
      Update d (λ tx,
        _ ← boltBucket tx TasksJournal;
        tx' ← deleteKeys tx TasksJournal (scanTaskJournalPrefix tx taskID).*1;
        Ok ((), tx'))
  end.

(** ** Materialized records

    The same helpers serve the active and the history bucket. *)
Inductive task_bucket := Active | History.

Definition getTaskRecord (b : task_bucket) (d : DB) (taskID : string) : res (option TaskRecord) :=
  _ ← validateTaskID taskID;
  View d (λ tx, match b with Active => activeTask tx taskID | History => historyTask tx taskID end).

Definition saveTaskRecord (b : task_bucket) (now : time) (d : DB) (task : TaskRecord) : res unit * DB :=
  match validateTaskID (TaskID (TContext task)) with
  | Err e => (Err e, d)
  | Ok _ =>
      let stamped :=
        {| TContext := TContext task;
           CreatedAt := if (CreatedAt task =? 0)%Z then now else CreatedAt task;
           UpdatedAt := now;
           TCurrentStep := TCurrentStep task; TCurrentStepID := TCurrentStepID task;
           ExpectedProducerNodeID := ExpectedProducerNodeID task; TOutputs := TOutputs task;
           FinalOutputs := FinalOutputs task; Retries := Retries task |} in
      let id := TaskID (TContext task) in
      Update d (λ tx,
        tx' ← match b with
              | Active => putTask tx TasksActive (λ v, v) id stamped
              | History => putTask tx TasksHistory (λ v, v) id stamped
              end;
        Ok ((), tx'))
  end.

Definition deleteTaskRecord (b : task_bucket) (d : DB) (taskID : string) : res unit * DB :=
  match validateTaskID taskID with
  | Err e => (Err e, d)
  | Ok _ =>
      Update d (λ tx,
        tx' ← boltDelete tx (match b with Active => TasksActive | History => TasksHistory end) taskID;
        Ok ((), tx'))
  end.

Definition loadTaskRecords (b : task_bucket) (d : DB) : res (gmap string TaskRecord) :=
  match b with
  | Active => boltLoadMapJSON TasksActive (λ v, v) d
  | History => boltLoadMapJSON TasksHistory (λ v, v) d
  end.

Definition task_time (sortByUpdated : bool) (t : TaskRecord) : time :=
  if sortByUpdated then UpdatedAt t else CreatedAt t.

Definition task_le (sortByUpdated : bool) (a b : TaskRecord) : Prop :=
  (task_time sortByUpdated a < task_time sortByUpdated b)%Z ∨
  task_time sortByUpdated a = task_time sortByUpdated b ∧
  String.le (TaskID (TContext a)) (TaskID (TContext b)).

#[global] Instance task_le_dec u : RelDecision (task_le u).
Proof. intros a b. unfold task_le. apply _. Defined.

Definition listTaskRecords (b : task_bucket) (sortByUpdated : bool) (d : DB) : res (list TaskRecord) :=
  taskMap ← loadTaskRecords b d;
  Ok (merge_sort (task_le sortByUpdated) (map_to_list taskMap).*2).
End journal.

(** ** Scanning a prefix *)

Lemma cursorSeek_elem {V} (l : list (string * V)) p k v :
  StronglySorted str_lt l.*1 → HasPrefix k p = true → (k, v) ∈ cursorSeek l p ↔ (k, v) ∈ l.
Proof.
  intros Hs Hk. induction l as [|[k0 v0] l IH]; [done|]. simpl.
  apply StronglySorted_inv in Hs as [Hs Hall].
  destruct (String.ltb k0 p) eqn:E; [|done]. rw IH // elem_of_cons. split; [by right|].
  intros [[= -> ->]|?]; [|done]. exfalso. apply (HasPrefix_not_lt k0 p Hk).
  unfold String.ltb, str_lt in *. by destruct (String.compare k0 p).
Qed.

Lemma cursorSeek_sorted {V} (l : list (string * V)) p :
  StronglySorted str_lt l.*1 →
  StronglySorted str_lt (cursorSeek l p).*1 ∧
  match cursorSeek l p with [] => True | (k, _) :: _ => ¬ str_lt k p end.
Proof.
  intros Hs. induction l as [|[k0 v0] l IH]; [done|]. simpl.
  destruct (String.ltb k0 p) eqn:E.
  - apply StronglySorted_inv in Hs as [Hs _]. auto.
  - split; [done|]. unfold String.ltb, str_lt in *. by destruct (String.compare k0 p).
Qed.

Lemma whilePrefix_elem {V} (l : list (string * V)) p k v :
  StronglySorted str_lt l.*1 → match l with [] => True | (k0, _) :: _ => ¬ str_lt k0 p end →
  (k, v) ∈ whilePrefix l p ↔ (k, v) ∈ l ∧ HasPrefix k p = true.
Proof.
  induction l as [|[k0 v0] l IH]; intros Hs Hhead; simpl.
  { split; [by intros ?%elem_of_nil|by intros [?%elem_of_nil _]]. }
  apply StronglySorted_inv in Hs as [Hs Hall]. rewrite ->Forall_forall in Hall.
  destruct (HasPrefix k0 p) eqn:Hp.
  - rw !elem_of_cons IH; [|done|].
    + intuition congruence.
    + destruct l as [|[k1 v1] l]; [done|]. intros Hlt. apply Hhead.
      transitivity k1; [|done]. apply Hall. by left.
  - split; [by intros ?%elem_of_nil|]. intros [[[= -> ->]|Hin]%elem_of_cons Hk]; [congruence|].
    exfalso. apply (irreflexivity str_lt k). transitivity k0.
    + apply HasPrefix_spec in Hk as [t ->]. by apply str_above_prefix.
    + apply Hall, list_elem_of_fmap. by exists (k, v).
Qed.

Lemma scan_elem {DB} `{!Bolt DB} `{!BoltLaws DB} (d : DB) id k v :
  (k, v) ∈ scanTaskJournalPrefix d id ↔
  bget d TasksJournal k = Some v ∧ HasPrefix k (id +:+ "/") = true.
Proof.
  unfold scanTaskJournalPrefix. pose proof (bforeach_sorted d TasksJournal) as Hs.
  destruct (cursorSeek_sorted (bforeach d TasksJournal) (id +:+ "/") Hs) as [Hs' Hhead].
  rw whilePrefix_elem //. split.
  - intros [Hin Hp]. split; [|done]. apply bforeach_elem. by apply cursorSeek_elem in Hin.
  - intros [Hg Hp]. split; [|done]. apply cursorSeek_elem; [done|done|]. by apply bforeach_elem.
Qed.

(** ** Blob extraction finds exactly the hashes mentioned *)

(** The hash a string denotes once trimmed and lowered. *)
Definition denotes_raw (s h : string) : Prop := h = ToLower (TrimSpace s) ∧ IsValidCASHash h = true.

(** A string is a VFS URI of a hash or a hash itself. *)
Definition denotes (x h : string) : Prop :=
  match ParseVFSURI x with
  | (raw, true) => denotes_raw raw h
  | (_, false) => IsValidCASHash x = true ∧ denotes_raw x h
  end.

Inductive mentions (skip : bool) : any → string → Prop :=
  | mentions_str x h : denotes x h → mentions skip (AStr x) h
  | mentions_output m s h :
      m !! OutputHashKey = Some (AStr s) → denotes_raw s h → mentions skip (AMap m) h
  | mentions_map m k v h :
      m !! k = Some v → ¬ (skip = true ∧ k = PipelineOutputsKey) → mentions skip v h →
      mentions skip (AMap m) h
  | mentions_mapmap m k i h : m !! k = Some i → mentions skip (AMap i) h → mentions skip (AMapMap m) h
  | mentions_mapstr m k x h : m !! k = Some x → denotes x h → mentions skip (AMapStr m) h
  | mentions_slice l v h : v ∈ l → mentions skip v h → mentions skip (ASlice l) h
  | mentions_strslice l x h : x ∈ l → denotes x h → mentions skip (AStrSlice l) h.

(** [f] adds to a list of hashes exactly those that satisfy [P]. *)
Definition collects (f : list string → list string) (P : string → Prop) : Prop :=
  ∀ acc, (∀ h, h ∈ f acc ↔ h ∈ acc ∨ P h) ∧ (NoDup acc → NoDup (f acc)).

Lemma collects_ext f P Q : collects f P → (∀ h, P h ↔ Q h) → collects f Q.
Proof. intros Hf HPQ acc. destruct (Hf acc) as [H1 H2]. split; [|done]. intros h. by rw H1 HPQ. Qed.

Lemma collects_id : collects (λ acc, acc) (λ _, False).
Proof. intros acc. split; [tauto|done]. Qed.

Lemma collects_addHash s : collects (λ acc, addHash acc s) (denotes_raw s).
Proof.
  intros acc. unfold addHash, denotes_raw. set (h0 := ToLower (TrimSpace s)).
  destruct (IsValidCASHash h0) eqn:Hv; simpl; [case_bool_decide as Hin; simpl|].
  - split; [|done]. intros h. split; [tauto|]. intros [?|[-> _]]; done.
  - split.
    + intros h. rw elem_of_app list_elem_of_singleton. naive_solver.
    + intros Hnd. apply NoDup_app. split; [done|]. split; [|apply NoDup_singleton].
      intros x Hx ->%list_elem_of_singleton. done.
  - split; [|done]. intros h. split; [tauto|]. intros [?|[-> ?]]; [done|congruence].
Qed.

Lemma collects_walkString x : collects (walkString x) (denotes x).
Proof.
  unfold walkString, denotes. destruct (ParseVFSURI x) as [raw [|]]; [apply collects_addHash|].
  destruct (IsValidCASHash x); [|eapply collects_ext; [apply collects_id|]; naive_solver].
  eapply collects_ext; [apply collects_addHash|]. naive_solver.
Qed.

Lemma collects_map_fold {V} (f : string → V → list string → list string) (P : string → V → string → Prop)
    (m : gmap string V) :
  (∀ k v, m !! k = Some v → collects (f k v) (P k v)) →
  collects (λ acc, map_fold f acc m) (λ h, ∃ k v, m !! k = Some v ∧ P k v h).
Proof.
  intros Hf acc. revert Hf.
  apply (map_fold_weak_ind (λ r m, (∀ k v, m !! k = Some v → collects (f k v) (P k v)) →
    (∀ h, h ∈ r ↔ h ∈ acc ∨ ∃ k v, m !! k = Some v ∧ P k v h) ∧ (NoDup acc → NoDup r))).
  - intros _. split; [|done]. intros h. setoid_rewrite lookup_empty. naive_solver.
  - intros k v m' r Hk IH Hf.
    destruct IH as [IH1 IH2]. { intros k' v' Hk'. apply Hf. rw lookup_insert_ne //. congruence. }
    destruct (Hf k v (lookup_insert_eq _ _ _) r) as [H1 H2]. split; [|auto].
    intros h. rw H1 IH1. split.
    + intros [[?|(k' & v' & Hk' & ?)]|?]; [tauto| |].
      * right. exists k', v'. rw lookup_insert_ne //. congruence.
      * right. exists k, v. by rw lookup_insert_eq.
    + intros [?|(k' & v' & [[<- <-]|[_ Hk']]%lookup_insert_Some & ?)]; eauto.
      left. right. eauto.
Qed.

Lemma collects_fold {A} (f : A → list string → list string) (P : A → string → Prop) (l : list A) :
  (∀ x, x ∈ l → collects (f x) (P x)) →
  collects (λ acc, (fix go l acc := match l with [] => acc | x :: l' => go l' (f x acc) end) l acc)
    (λ h, ∃ x, x ∈ l ∧ P x h).
Proof.
  induction l as [|x l IH]; intros Hf acc.
  { split; [|done]. intros h. setoid_rewrite elem_of_nil. naive_solver. }
  destruct (Hf x (list_elem_of_here _ _) acc) as [H1 H2].
  destruct (IH (λ y Hy, Hf y (list_elem_of_further _ _ _ Hy)) (f x acc)) as [H3 H4].
  split; [|auto]. intros h. rw H3 H1. setoid_rewrite elem_of_cons. naive_solver.
Qed.

Lemma collects_comp f g P Q :
  collects f P → collects g Q → collects (λ acc, g (f acc)) (λ h, P h ∨ Q h).
Proof.
  intros Hf Hg acc. destruct (Hf acc) as [F1 F2], (Hg (f acc)) as [G1 G2]. split; [|auto].
  intros h. rw G1 F1. tauto.
Qed.

Lemma collects_walkMap skip w (m : gmap string any) P :
  (∀ k v, m !! k = Some v → collects (w v) (P v)) →
  collects (walkMap skip w m) (λ h, (∃ s, m !! OutputHashKey = Some (AStr s) ∧ denotes_raw s h) ∨
    ∃ k v, m !! k = Some v ∧ ¬ (skip = true ∧ k = PipelineOutputsKey) ∧ P v h).
Proof.
  intros Hw. unfold walkMap.
  apply (collects_comp (λ acc, match m !! OutputHashKey with Some (AStr h) => addHash acc h | _ => acc end)
    (λ acc, map_fold (λ k item acc, if skip && bool_decide (k = PipelineOutputsKey) then acc else w item acc)
              acc m)).
  - destruct (m !! OutputHashKey) as [[| |s| | | | | | |]|];
      try (eapply collects_ext; [apply collects_id|naive_solver]).
    eapply collects_ext; [apply collects_addHash|]. naive_solver.
  - apply (collects_map_fold _ (λ k v h, ¬ (skip = true ∧ k = PipelineOutputsKey) ∧ P v h)).
    intros k v Hk. specialize (Hw k v Hk).
    destruct skip; simpl; [case_bool_decide|]; (eapply collects_ext; [first [apply Hw|apply collects_id]|]);
      naive_solver.
Qed.

Lemma mentions_AMap skip m h :
  mentions skip (AMap m) h ↔
  (∃ s, m !! OutputHashKey = Some (AStr s) ∧ denotes_raw s h) ∨
  ∃ k v, m !! k = Some v ∧ ¬ (skip = true ∧ k = PipelineOutputsKey) ∧ mentions skip v h.
Proof.
  split.
  - inversion 1; subst; [left; eauto|right; eauto 10].
  - intros [(s & ? & ?)|(k & v & ? & ? & ?)]; [by eapply mentions_output|by eapply mentions_map].
Qed.

Lemma collects_walk skip v : collects (walk skip v) (mentions skip v).
Proof.
  induction v as [| |s| | |m IH|m IH|m|l IH|l] using any_ind_deep;
    try (eapply collects_ext; [apply collects_id|]; intros h; split; [done|by inversion 1]).
  - eapply collects_ext; [apply collects_walkString|]. intros h. split; [by constructor|by inversion 1].
  - eapply collects_ext; [apply (collects_walkMap skip (walk skip) m (mentions skip) IH)|].
    intros h. symmetry. apply mentions_AMap.
  - eapply collects_ext; [apply (collects_map_fold _ (λ _ i, mentions skip (AMap i)))|].
    + intros k i Hk. eapply collects_ext;
        [apply (collects_walkMap skip (walk skip) i (mentions skip) (λ k' v', IH k i k' v' Hk))|].
      intros h. symmetry. apply mentions_AMap.
    + intros h. split; [intros (k & i & ? & ?); by eapply mentions_mapmap|inversion 1; subst; eauto].
  - eapply collects_ext; [apply (collects_map_fold _ (λ _, denotes)); intros; apply collects_walkString|].
    intros h. split; [intros (k & x & ? & ?); by eapply mentions_mapstr|inversion 1; subst; eauto].
  - eapply collects_ext; [apply (collects_fold _ (mentions skip) l IH)|].
    intros h. split; [intros (x & ? & ?); by eapply mentions_slice|inversion 1; subst; eauto].
  - eapply collects_ext; [apply (collects_fold walkString denotes l); intros; apply collects_walkString|].
    intros h. split; [intros (x & ? & ?); by eapply mentions_strslice|inversion 1; subst; eauto].
Qed.

Lemma extract_elem skip v h : h ∈ extractBlobHashesInternal v skip ↔ mentions skip v h.
Proof. unfold extractBlobHashesInternal. rw (proj1 (collects_walk skip v []) h). rw elem_of_nil. tauto. Qed.

Lemma mentions_valid skip v h : mentions skip v h → IsValidCASHash h = true.
Proof.
  assert (∀ x, denotes x h → IsValidCASHash h = true) as Hd.
  { intros x. unfold denotes, denotes_raw. destruct (ParseVFSURI x) as [? [|]]; naive_solver. }
  induction 1; eauto. by destruct H0.
Qed.

Lemma mentions_skip v h : mentions true v h → mentions false v h.
Proof.
  induction 1; [by constructor|by eapply mentions_output| |by eapply mentions_mapmap|
                by eapply mentions_mapstr|by eapply mentions_slice|by eapply mentions_strslice].
  eapply mentions_map; [done|by intros [? _]|done].
Qed.

(** ** Journal keys *)

Lemma parse_taskJournalKey id seq :
  (seq <= max_uint64)%N → parseTaskJournalSeq (taskJournalKey id seq) id = Some seq.
Proof.
  intros Hs. unfold parseTaskJournalSeq, taskJournalKey. rewrite <-str_app_assoc.
  rw HasPrefix_app TrimPrefix_app. by apply ParseUint_pad20.
Qed.

Lemma taskJournalKey_prefix id seq : HasPrefix (taskJournalKey id seq) (id +:+ "/") = true.
Proof. unfold taskJournalKey. rewrite <-str_app_assoc. apply HasPrefix_app. Qed.

Lemma max_seq_ge l s : s ∈ l → (s <= max_seq l)%N.
Proof.
  unfold max_seq. set (f := λ m s : N, if (m <? s)%N then s else m).
  assert (∀ m, (m <= foldl f m l ∧ ∀ s, s ∈ l → s <= foldl f m l)%N) as Hgen.
  { induction l as [|x l IH]; intros m; simpl; [split; [lia|by intros ? ?%elem_of_nil]|].
    destruct (IH (f m x)) as [H1 H2].
    assert (m <= f m x ∧ x <= f m x)%N as [? ?] by (unfold f; destruct (N.ltb_spec m x); lia).
    split; [lia|]. intros s' [->|?]%elem_of_cons; [lia|auto]. }
  by apply Hgen.
Qed.

(** ** The effect of a checkpoint *)

Definition active_of {DB} `{!Bolt DB} (d : DB) (id : string) : option TaskRecord :=
  match bget d TasksActive id with Some (JDoc t) => Some t | _ => None end.

Definition history_of {DB} `{!Bolt DB} (d : DB) (id : string) : option TaskRecord :=
  match bget d TasksHistory id with Some (JDoc t) => Some t | _ => None end.

(** The task ended: its history record has a terminal status. *)
Definition ended {DB} `{!Bolt DB} (d : DB) (id status : string) : Prop :=
  ∃ t, history_of d id = Some t ∧ Status (TContext t) = status ∧ isTerminalTaskStatus status = true.

Section journal_laws.
Context {DB : Type} `{!Bolt DB} `{!BoltLaws DB}.
Implicit Types (d tx : DB) (record : TaskJournalRecord).

Lemma activeTask_ok tx id o :
  activeTask tx id = Ok o →
  bhas tx TasksActive = true ∧ bget tx TasksActive id = JDoc <$> o.
Proof.
  unfold activeTask, boltGetJSON, boltBucket. destruct (bhas tx TasksActive); [|done].
  destruct (bget tx TasksActive id) as [[t|]|]; simpl; naive_solver.
Qed.

Lemma historyTask_ok tx id o :
  historyTask tx id = Ok o →
  bhas tx TasksHistory = true ∧ bget tx TasksHistory id = JDoc <$> o.
Proof.
  unfold historyTask, boltGetJSON, boltBucket. destruct (bhas tx TasksHistory); [|done].
  destruct (bget tx TasksHistory id) as [[t|]|]; simpl; naive_solver.
Qed.

Lemma putTask_ok tx b enc id t tx' :
  putTask tx b enc id t = Ok tx' →
  ∃ stored, json_task t = Ok stored ∧ bput tx b id (enc (JDoc stored)) = Ok tx'.
Proof.
  unfold putTask, boltBucket. destruct (bhas tx b); [|done]. simpl.
  destruct (json_task t) as [stored|]; simpl; [|done]. eauto.
Qed.

Record append_effect tx record tx' : Prop := {
  ae_frame b k : b ≠ TasksJournal → b ≠ TasksActive → b ≠ TasksHistory → bget tx' b k = bget tx b k;
  ae_guard t : history_of tx (TaskID (JContext record)) = Some t →
    isTerminalTaskStatus (Status (TContext t)) = true → Status (TContext t) = Status (JContext record);
  ae_journal : ∃ stored, json_journal (assignSequence tx record) = Ok stored ∧
    ∀ k, bget tx' TasksJournal k =
      if decide (taskJournalKey (TaskID (JContext record)) (JSequence (assignSequence tx record)) = k)
      then Some (JDoc stored) else bget tx TasksJournal k;
  ae_terminal : isTerminalTaskStatus (Status (JContext record)) = true →
    ∃ stored,
      json_task (applyJournalRecord
        (baseHistory (assignSequence tx record) (history_of tx (TaskID (JContext record)))
           (active_of tx (TaskID (JContext record)))) (assignSequence tx record)) = Ok stored ∧
      (∀ k, bget tx' TasksActive k =
         if decide (TaskID (JContext record) = k) then None else bget tx TasksActive k) ∧
      (∀ k, bget tx' TasksHistory k =
         if decide (TaskID (JContext record) = k) then Some (JDoc stored) else bget tx TasksHistory k);
  ae_running : isTerminalTaskStatus (Status (JContext record)) = false →
    ∃ stored,
      json_task (applyJournalRecord
        (default (newTaskRecord (TaskID (JContext record)) (JTimestamp (assignSequence tx record)))
           (active_of tx (TaskID (JContext record)))) (assignSequence tx record)) = Ok stored ∧
      (∀ k, bget tx' TasksHistory k = bget tx TasksHistory k) ∧
      (∀ k, bget tx' TasksActive k =
         if decide (TaskID (JContext record) = k) then Some (JDoc stored) else bget tx TasksActive k) }.

Lemma active_of_ok tx id o : bget tx TasksActive id = JDoc <$> o → active_of tx id = o.
Proof. unfold active_of. intros ->. by destruct o. Qed.

Lemma history_of_ok tx id o : bget tx TasksHistory id = JDoc <$> o → history_of tx id = o.
Proof. unfold history_of. intros ->. by destruct o. Qed.

(** The buckets after the active or history record was rewritten. *)
Lemma store_terminal tx id (t : TaskRecord) (o : option TaskRecord) tx2 tx' :
  bget tx TasksActive id = JDoc <$> o →
  match o with Some _ => boltDelete tx TasksActive id | None => Ok tx end = Ok tx2 →
  putTask tx2 TasksHistory (λ v, v) id t = Ok tx' →
  ∃ stored, json_task t = Ok stored ∧
    (∀ b k, b ≠ TasksActive → b ≠ TasksHistory → bget tx' b k = bget tx b k) ∧
    (∀ k, bget tx' TasksActive k = if decide (id = k) then None else bget tx TasksActive k) ∧
    (∀ k, bget tx' TasksHistory k = if decide (id = k) then Some (JDoc stored) else bget tx TasksHistory k).
Proof.
  intros Ho H2 (stored & Hst & Hput)%putTask_ok. exists stored. split; [done|].
  assert ((∀ b k, b ≠ TasksActive → bget tx2 b k = bget tx b k) ∧
          (∀ k, bget tx2 TasksActive k = if decide (id = k) then None else bget tx TasksActive k)) as [Hf Ha].
  { destruct o as [a|]; [|injection H2 as <-; split; [done|]; intros k; case_decide; by subst].
    split; [intros; by eapply bget_boltDelete_ne|intros k; by rw (bget_boltDelete _ _ _ _ _ H2)]. }
  split_and!.
  - intros b k ? ?. rw (bget_put_ne _ _ _ _ _ b k Hput) //. by apply Hf.
  - intros k. rw (bget_put_ne _ _ _ _ _ TasksActive k Hput) //.
  - intros k. rw (bget_put _ _ _ _ _ k Hput). case_decide; [done|]. by apply Hf.
Qed.

Lemma append_effect_ok tx record u tx' :
  appendCheckpointTx tx record = Ok (u, tx') → append_effect tx record tx'.
Proof.
  unfold appendCheckpointTx. set (id := TaskID (JContext record)). set (record' := assignSequence tx record).
  destruct (historyTask tx id) as [hist|] eqn:Hh; simpl; [|done].
  apply historyTask_ok in Hh as [_ Hh]. apply history_of_ok in Hh as Hh'.
  case_match eqn:Hguard; [done|]. destruct (boltBucket tx TasksJournal); simpl; [|done].
  fold record'. destruct (json_journal record') as [stored|] eqn:Hj; simpl; [|done].
  destruct (bput tx TasksJournal _ _) as [tx1|] eqn:Hput; simpl; [|done].
  destruct (activeTask tx1 id) as [active|] eqn:Hact; simpl; [|done].
  apply activeTask_ok in Hact as [_ Hact].
  assert (∀ b k, b ≠ TasksJournal → bget tx1 b k = bget tx b k) as Hf1.
  { intros b k ?. by eapply bget_put_ne. }
  assert (active_of tx id = active) as Ha'. { apply active_of_ok. by rw -Hf1. }
  assert (∀ t, history_of tx id = Some t → isTerminalTaskStatus (Status (TContext t)) = true →
    Status (TContext t) = Status (JContext record)) as HG.
  { intros t Ht Hterm. rw Hh' in Ht. rw Ht Hterm in Hguard. simpl in Hguard.
    apply negb_false_iff, bool_decide_eq_true in Hguard. done. }
  destruct (isTerminalTaskStatus (Status (JContext record))) eqn:Hterm.
  - destruct (match active with Some _ => boltDelete tx1 TasksActive id | None => Ok tx1 end) as [tx2|] eqn:H2;
      simpl; [|done].
    destruct (putTask tx2 TasksHistory _ id _) as [tx3|] eqn:H3; simpl; [|done]. intros [= _ <-].
    destruct (store_terminal _ _ _ _ _ _ Hact H2 H3) as (st & Hst & Hfr & HA & HH).
    split; fold id; fold record'; [|done| | |congruence].
    + intros b k ? ? ?. rw Hfr //. by apply Hf1.
    + exists stored. split; [done|]. intros k. rw Hfr //. by apply bget_put.
    + intros _. exists st. rw Hh' Ha'. split; [done|]. split; intros k; [rw HA|rw HH]; by rw Hf1.
  - destruct (putTask tx1 TasksActive _ id _) as [tx2|] eqn:H2; simpl; [|done]. intros [= _ <-].
    apply putTask_ok in H2 as (st & Hst & Hput2).
    split; fold id; fold record'; [|done| |congruence|].
    + intros b k ? ? ?. rw (bget_put_ne _ _ _ _ _ b k Hput2) //. by apply Hf1.
    + exists stored. split; [done|]. intros k. rw (bget_put_ne _ _ _ _ _ TasksJournal k Hput2) //. by apply bget_put.
    + intros _. exists st. rw Ha'. split; [done|]. split; intros k.
      * rw (bget_put_ne _ _ _ _ _ TasksHistory k Hput2) //. by apply Hf1.
      * rw (bget_put _ _ _ _ _ k Hput2). case_decide; [done|]. by apply Hf1.
Qed.

Lemma json_context_fields c c' :
  json_context c = Ok c' → TaskID c' = TaskID c ∧ Status c' = Status c.
Proof.
  unfold json_context. destruct (json_gomap json_value (Payload c)); simpl; [|done].
  destruct (match PipelineState c with Some _ => _ | None => _ end); simpl; [|done]. by intros [= <-].
Qed.

Lemma json_task_context t t' :
  json_task t = Ok t' → TaskID (TContext t') = TaskID (TContext t) ∧ Status (TContext t') = Status (TContext t).
Proof.
  unfold json_task. destruct (json_context (TContext t)) as [c|] eqn:Hc; simpl; [|done].
  destruct (json_gomap json_outputs (TOutputs t)); simpl; [|done].
  destruct (json_gomap json_value (FinalOutputs t)); simpl; [|done].
  intros [= <-]. by apply json_context_fields.
Qed.

Lemma json_journal_fields r r' :
  json_journal r = Ok r' →
  TaskID (JContext r') = TaskID (JContext r) ∧ Status (JContext r') = Status (JContext r) ∧
  JSequence r' = JSequence r ∧ JStepID r' = JStepID r ∧ JTimestamp r' = JTimestamp r.
Proof.
  unfold json_journal. destruct (json_context (JContext r)) as [c|] eqn:Hc; simpl; [|done].
  destruct (json_gomap _ _); simpl; [|done]. intros [= <-].
  destruct (json_context_fields _ _ Hc). done.
Qed.

Lemma assignSequence_context tx record : JContext (assignSequence tx record) = JContext record.
Proof. unfold assignSequence. by case_match. Qed.

Lemma apply_status_terminal t record :
  isTerminalTaskStatus (Status (JContext record)) = true →
  Status (TContext (applyJournalRecord t record)) = Status (JContext record).
Proof.
  intros Hterm. unfold isTerminalTaskStatus in Hterm. apply orb_true_iff in Hterm as [H|H];
    apply bool_decide_eq_true in H; unfold applyJournalRecord; cbn [TContext]; rewrite ->H;
    unfold Overlay, TaskContext_merge; cbn [Status]; rewrite ->H; reflexivity.
Qed.

(** The update of a checkpoint either rolled back or had its effect. *)
Lemma AppendTaskCheckpoint_cases now d record r d' :
  AppendTaskCheckpoint now d record = (r, d') →
  d' = d ∧ is_ok r = false ∨ r = Ok () ∧ append_effect d (prepareCheckpoint now record) d'.
Proof.
  unfold AppendTaskCheckpoint. destruct (validateTaskID _); [|by intros [= <- <-]; left].
  intros [([] & -> & Hb)|(e & -> & ->)]%Update_spec; [right|by left].
  split; [done|]. by eapply append_effect_ok.
Qed.

Lemma ended_history d d' id status :
  bget d' TasksHistory id = bget d TasksHistory id → ended d id status → ended d' id status.
Proof. unfold ended, history_of. by intros ->. Qed.

Lemma append_terminal_history d record d' :
  append_effect d record d' → isTerminalTaskStatus (Status (JContext record)) = true →
  ended d' (TaskID (JContext record)) (Status (JContext record)).
Proof.
  intros He Hterm. destruct (ae_terminal _ _ _ He Hterm) as (stored & Hst & _ & Hh).
  exists stored. split; [|split; [|done]].
  - apply history_of_ok. rw Hh. by rw decide_True.
  - apply json_task_context in Hst as [_ ->]. rw apply_status_terminal; by rw assignSequence_context.
Qed.

Lemma append_ended d record d' id status :
  append_effect d record d' → ended d id status → ended d' id status.
Proof.
  intros He Hend.
  destruct (isTerminalTaskStatus (Status (JContext record))) eqn:Hterm.
  - destruct (decide (TaskID (JContext record) = id)) as [<-|Hne].
    + destruct Hend as (t & Ht & <- & Hs). rw (ae_guard _ _ _ He t Ht Hs). apply (append_terminal_history d); [done|]. by rw -(ae_guard _ _ _ He t Ht Hs).
    + destruct (ae_terminal _ _ _ He Hterm) as (? & _ & _ & Hh).
      apply (ended_history d); [|done]. rw Hh. by rw decide_False.
  - destruct (ae_running _ _ _ He Hterm) as (? & _ & Hh & _). by apply (ended_history d).
Qed.

(** No task is both in flight and ended. *)
Definition tasks_exclusive d : Prop := ∀ id status, ended d id status → bget d TasksActive id = None.

Lemma append_exclusive d record d' :
  append_effect d record d' → tasks_exclusive d → tasks_exclusive d'.
Proof.
  intros He Hx id status Hend.
  destruct (isTerminalTaskStatus (Status (JContext record))) eqn:Hterm.
  - destruct (ae_terminal _ _ _ He Hterm) as (stored & _ & Ha & Hh). rw Ha.
    destruct (decide (TaskID (JContext record) = id)) as [|Hne]; [done|].
    apply (Hx id status). apply (ended_history d' d); [|done]. rw Hh. by rw decide_False.
  - destruct (ae_running _ _ _ He Hterm) as (stored & _ & Hh & Ha). rw Ha.
    assert (ended d id status) as Hend' by (by apply (ended_history d' d)).
    destruct (decide (TaskID (JContext record) = id)) as [<-|Hne]; [|by eapply Hx].
    destruct Hend' as (t & Ht & <- & Hs). pose proof (ae_guard _ _ _ He t Ht Hs). congruence.
Qed.

Lemma max_seq_in l : max_seq l = 0%N ∨ max_seq l ∈ l.
Proof.
  unfold max_seq. set (f := λ m s : N, if (m <? s)%N then s else m).
  assert (∀ m, foldl f m l = m ∨ foldl f m l ∈ l) as Hgen; [|by apply Hgen].
  induction l as [|x l IH]; intros m; simpl; [by left|]. rw elem_of_cons.
  destruct (IH (f m x)) as [->|?]; [|tauto]. unfold f. destruct (m <? x)%N; tauto.
Qed.

(** The sequence numbers of a task's keys. *)
Definition uses_seq d id s : Prop :=
  ∃ k v, bget d TasksJournal k = Some v ∧ parseTaskJournalSeq k id = Some s.

(** The sequence chosen for a new checkpoint is above every one in use,
    as long as the last one was not taken. *)
Lemma assignSequence_fresh d record :
  JSequence record = 0%N → ¬ uses_seq d (TaskID (JContext record)) max_uint64 →
  ∀ s, uses_seq d (TaskID (JContext record)) s → (s < JSequence (assignSequence d record))%N.
Proof.
  intros H0 Hroom s Hs. unfold assignSequence. rw H0. cbn [N.eqb set_sequence JSequence].
  set (id := TaskID (JContext record)) in *. set (seqs := omap _ _).
  assert (∀ s, s ∈ seqs ↔ uses_seq d id s) as Hseqs.
  { intros s'. unfold seqs. rw list_elem_of_omap. split.
    - intros ([k v] & [Hk Hp]%scan_elem & Hparse). by exists k, v.
    - intros (k & v & Hk & Hparse). exists (k, v). split; [|done]. apply scan_elem. split; [done|].
      unfold parseTaskJournalSeq in Hparse. by destruct (HasPrefix k _). }
  apply Hseqs, max_seq_ge in Hs. unfold nextSequence.
  assert (max_seq seqs < max_uint64)%N.
  { destruct (max_seq_in seqs) as [->|Hin%Hseqs]; [done|].
    assert (max_seq seqs ≠ max_uint64) by (intros He; by rw He in Hin).
    destruct Hin as (k & v & _ & Hparse). unfold parseTaskJournalSeq in Hparse.
    destruct (HasPrefix k _); simpl in Hparse; [|done]. apply ParseUint_bound in Hparse. lia. }
  rw N.mod_small; unfold max_uint64 in *; lia.
Qed.
End journal_laws.

(** ** What the journal guarantees *)

(** The extraction returns, once each, exactly the blob hashes that the
    value mentions: in a string that is a hash or a VFS URI, at any depth of
    maps and slices, or under an output-hash key; a non-intermediate
    extraction leaves out what sits under the aggregated pipeline outputs. *)
Theorem extractBlobHashes_spec v skip :
  NoDup (extractBlobHashesInternal v skip) ∧
  (∀ h, h ∈ extractBlobHashesInternal v skip ↔ mentions skip v h) ∧
  Forall (λ h, IsValidCASHash h = true) (extractBlobHashesInternal v skip).
Proof.
  split_and!.
  - apply (collects_walk skip v []). constructor.
  - apply extract_elem.
  - apply Forall_forall. intros h Hh. by eapply mentions_valid, extract_elem.
Qed.

(** A journal key carries its sequence number: parsing the key of a task
    gives the number back. *)
Theorem taskJournalKey_roundtrip id seq :
  (seq <= max_uint64)%N → parseTaskJournalSeq (taskJournalKey id seq) id = Some seq.
Proof. apply parse_taskJournalKey. Qed.

Section journal_claims.
Context {DB : Type} `{!Bolt DB} `{!BoltLaws DB}.

(** C27: a task that completed or failed keeps that status through every
    later checkpoint of any task, accepted or refused. *)
Theorem terminal_status_stable now (d : DB) record r d' id status :
  ended d id status → AppendTaskCheckpoint now d record = (r, d') → ended d' id status.
Proof.
  intros Hend [[-> _]|[_ He]]%AppendTaskCheckpoint_cases; [done|]. by eapply append_ended.
Qed.

(** Checkpoints keep the active and the ended tasks apart. *)
Theorem tasks_stay_exclusive now (d : DB) record r d' :
  tasks_exclusive d → AppendTaskCheckpoint now d record = (r, d') → tasks_exclusive d'.
Proof.
  intros Hx [[-> _]|[_ He]]%AppendTaskCheckpoint_cases; [done|]. by eapply append_exclusive.
Qed.

(** An accepted checkpoint adds one record to the journal and changes no
    other, under a sequence number above every one the task uses when the
    caller leaves the choice to the journal. *)
Theorem AppendTaskCheckpoint_appends now (d : DB) record d' :
  let id := TaskID (JContext record) in
  AppendTaskCheckpoint now d record = (Ok (), d') →
  ∃ stored,
    bget d' TasksJournal (taskJournalKey id (JSequence stored)) = Some (JDoc stored) ∧
    TaskID (JContext stored) = id ∧ Status (JContext stored) = Status (JContext record) ∧
    (∀ k, k ≠ taskJournalKey id (JSequence stored) → bget d' TasksJournal k = bget d TasksJournal k) ∧
    (JSequence record = 0%N → ¬ uses_seq d id max_uint64 →
     ∀ s, uses_seq d id s → (s < JSequence stored)%N).
Proof.
  intros id [[_ ?]|[_ He]]%AppendTaskCheckpoint_cases; [done|].
  destruct (ae_journal _ _ _ He) as (stored & Hst & Hk).
  destruct (json_journal_fields _ _ Hst) as (Hid & Hs & Hseq & _).
  rw assignSequence_context in Hid Hs. exists stored. rw Hseq. split_and!; [|done|done| |].
  - rw Hk. by rw decide_True.
  - intros k Hne. rw Hk. by rw decide_False.
  - intros H0 Hroom. by apply (assignSequence_fresh d (prepareCheckpoint now record)).
Qed.
End journal_claims.

(** ** A task's journal and its neighbours

    Keys are [taskID/sequence] and the scan of a task takes every key that
    starts with [taskID/]: the journal of the task [a/b] is read and deleted
    with the one of [a]. *)

Definition checkpoint (id status : string) : TaskJournalRecord :=
  {| JContext := emptyContext id status; JSequence := 0; JTimestamp := 1; JStepID := "";
     JStepIndex := 0; JOutputs := None; JIntermediate := false; JIntermediateBlobs := [] |}.

Definition journal_ab : memdb := (AppendTaskCheckpoint 1 memdb_init (checkpoint "a/b" "running")).2.

(** Deleting the journal of one task deletes the journal of another whose
    identifier extends it by a slash. *)
Theorem DeleteTaskJournal_takes_neighbour :
  GetTaskJournal journal_ab "a/b" = GetTaskJournal journal_ab "a" ∧
  GetTaskJournal journal_ab "a/b" ≠ Ok [] ∧
  GetTaskJournal (DeleteTaskJournal journal_ab "a").2 "a/b" = Ok [].
Proof. vm_compute. repeat split; discriminate. Qed.

(** ** Witnesses *)

Definition journal_done : memdb := (AppendTaskCheckpoint 1 memdb_init (checkpoint "t" "completed")).2.

Lemma journal_done_ended : ended journal_done "t" "completed".
Proof. eexists. split; [vm_compute; reflexivity|]. split; reflexivity. Qed.

Lemma taskJournalKey_roundtrip_witness :
  parseTaskJournalSeq (taskJournalKey "task" 42) "task" = Some 42%N.
Proof. apply (taskJournalKey_roundtrip "task" 42). by vm_compute. Defined.

Lemma terminal_status_stable_witness :
  ended (AppendTaskCheckpoint 2 journal_done (checkpoint "t" "running")).2 "t" "completed".
Proof.
  apply (terminal_status_stable 2 journal_done (checkpoint "t" "running")
    (Err (ESentinel ErrTaskTerminal))); [apply journal_done_ended|].
  apply run_result. by vm_compute.
Defined.

Lemma tasks_stay_exclusive_witness : tasks_exclusive journal_done.
Proof.
  apply (tasks_stay_exclusive 1 memdb_init (checkpoint "t" "completed") (Ok ())).
  - by intros id status (t & Ht & _).
  - apply run_result. by vm_compute.
Defined.

Lemma AppendTaskCheckpoint_appends_witness :
  ∃ stored, bget journal_done TasksJournal (taskJournalKey "t" (JSequence stored)) = Some (JDoc stored).
Proof.
  destruct (AppendTaskCheckpoint_appends 1 memdb_init (checkpoint "t" "completed") journal_done)
    as (stored & H & _); [apply run_result; by vm_compute|]. by exists stored.
Defined.
