(* ===== verification/Engine.v ===== *)
(** * The storage engine

    [internal/storage/storage_engine.go]: the operations that combine the blob
    store, the metadata database and the volatile download reservations.
    Every mutating operation of the code runs under one mutex; here it is one
    call in the state monad over [Engine].  Maps the code ranges over in an
    unspecified order are visited in key order.  The write-ahead notification
    hook and the download callback belong to the server and are parameters. *)
From S2P Require Import Prelude GoStrings Json Protocol Bolt Vfs Sha256 Physical Journal.

(** ** State *)

Record activeDownload := { ActiveIntent : downloadIntent; Token : N }.

(** The callback may refuse; its answer may differ at each attempt, which the
    token identifies.  [None] is the nil callback. *)
Abbreviation callback := (option (N → IndexEntry → string → option error)).

Record Engine (DB : Type) := {
  physical : Storage;
  db : DB;
  nextDownloadID : N;
  activeDownloads : gmap string activeDownload;
  onDownloadNeeded : callback }.
Arguments physical {DB} _.
Arguments db {DB} _.
Arguments nextDownloadID {DB} _.
Arguments activeDownloads {DB} _.
Arguments onDownloadNeeded {DB} _.

(** What the server promises to the engine: preparing a notification may
    refuse the mutation, and finishing it is told whether it committed. *)
Class MutationHook (DB : Type) := {
  hook_token : Type;
  hook_prepare : IndexEntry → DB → res hook_token * DB;
  hook_finish : hook_token → bool → DB → option error * DB }.

Definition outbox_bucket (b : bucket) : bool :=
  match b with NotifyOutbox | NotifyOutboxGenerations | NotifyOutboxReservations => true | _ => false end.

(** The hook touches the outbox only. *)
Class MutationHookFrame (DB : Type) `{Bolt DB} `{MutationHook DB} : Prop := {
  hook_prepare_frame e d b k :
    outbox_bucket b = false → bget (hook_prepare e d).2 b k = bget d b k;
  hook_finish_frame t c d b k :
    outbox_bucket b = false → bget (hook_finish t c d).2 b k = bget d b k }.

(** No hook installed. *)
Definition noHook (DB : Type) : MutationHook DB := {|
  hook_token := unit;
  hook_prepare _ d := (Ok (), d);
  hook_finish _ _ d := (None, d) |}.

Definition with_physical {DB} (st : Storage) (s : Engine DB) : Engine DB :=
  {| physical := st; db := db s; nextDownloadID := nextDownloadID s;
     activeDownloads := activeDownloads s; onDownloadNeeded := onDownloadNeeded s |}.
Definition with_db {DB} (d : DB) (s : Engine DB) : Engine DB :=
  {| physical := physical s; db := d; nextDownloadID := nextDownloadID s;
     activeDownloads := activeDownloads s; onDownloadNeeded := onDownloadNeeded s |}.
Definition with_downloads {DB} (n : N) (m : gmap string activeDownload) (s : Engine DB) : Engine DB :=
  {| physical := physical s; db := db s; nextDownloadID := n;
     activeDownloads := m; onDownloadNeeded := onDownloadNeeded s |}.

(** Calls on the components. *)
Definition onPhysical {DB A} (m : ST Storage A) : ST (Engine DB) A := λ s,
  let '(r, st) := m (physical s) in (r, with_physical st s).
Definition onDB {DB A} (f : DB → res A * DB) : ST (Engine DB) A := λ s,
  let '(r, d) := f (db s) in (r, with_db d s).
Definition viewDB {DB A} (f : DB → res A) : ST (Engine DB) A := λ s, (f (db s), s).

(** Returning an error that may be nil. *)
Definition return_error {S} (e : option error) : ST S unit :=
  match e with None => mret () | Some e => fail e end.
Definition error_of {A} (r : res A) : option error :=
  match r with Ok _ => None | Err e => Some e end.

(** ** Base64 *)

Definition base64_digit (d : N) : Ascii.ascii :=
  Ascii.ascii_of_N (if (d <? 26) then 65 + d else if (d <? 52) then 71 + d else if (d <? 62) then d - 4
                    else if (d =? 62) then 45 else 95)%N.

(** [base64.RawURLEncoding.EncodeToString]. *)
Fixpoint base64_encode (l : list N) : string :=
  match l with
  | [] => EmptyString
  | [a] => String (base64_digit (a / 4)) (String (base64_digit (a mod 4 * 16)) EmptyString)
  | [a; b] => String (base64_digit (a / 4)) (String (base64_digit (a mod 4 * 16 + b / 16))
                (String (base64_digit (b mod 16 * 4)) EmptyString))
  | a :: b :: c :: l' =>
      String (base64_digit (a / 4)) (String (base64_digit (a mod 4 * 16 + b / 16))
        (String (base64_digit (b mod 16 * 4 + c / 64)) (String (base64_digit (c mod 64)) (base64_encode l'))))
  end%N.

Definition downloadIntentStorageKey (name : string) : string := base64_encode (bytes_of name).

Section engine.
Context {DB : Type} `{!Bolt DB} `{!Digest} `{!MutationHook DB}.
Abbreviation SE := (ST (Engine DB)).

(** [db.Update] with a body that returns nothing. *)
Definition update (body : DB → res DB) : SE unit :=
  onDB (λ d, Update d (λ tx, tx' ← body tx; Ok ((), tx'))).

(** ** Reads *)

Definition GetFileMetaE (name : string) : SE (option IndexEntry) := viewDB (λ d, VFS_Get d name).

Definition HasPhysicalBlob (hash : string) : SE bool := onPhysical (BlobExists hash).

Definition IsSubscribedE (fileName : string) : SE bool :=
  viewDB (λ d, View d (λ tx, boltHasKey tx Subscriptions fileName)).

Definition HasServiceSubscriptionsE : SE bool :=
  viewDB (λ d, View d (λ tx,
    _ ← boltBucket tx ServiceSubs;
    Ok (negb (bool_decide (length (bforeach tx ServiceSubs) = 0%nat))))).

Definition IsServiceSubscribedE (name : string) : SE bool :=
  viewDB (λ d, View d (λ tx,
    _ ← boltBucket tx ServiceSubs;
    let patterns := (bforeach tx ServiceSubs).*1 in
    if bool_decide (patterns = []) then Ok true
    else Ok (existsb (λ p, MatchServicePattern p name) patterns))).

(** ** Subscriptions *)

Definition SetSubscription (fileName : string) (isSubscribed : bool) : SE unit :=
  update (λ tx,
    if isSubscribed then boltPut tx Subscriptions fileName flagBytes
    else boltDelete tx Subscriptions fileName).

Definition SetServiceSubscription (pattern : string) (subscribed : bool) : SE unit :=
  if bool_decide (pattern = "") then fail (EMsg "empty service subscription pattern")
  else
    update (λ tx,
      if subscribed then boltPut tx ServiceSubs pattern flagBytes
      else boltDelete tx ServiceSubs pattern).

(** ** Collecting orphaned blobs *)

(** [ForEach] over a bucket of documents: stops at the first that does not
    decode. *)
Definition forEachJSON {T} (b : bucket) (dec : val b → json T) (tx : DB) : res (list T) :=
  match decodeRecords (prod_map id dec <$> bforeach tx b) with
  | (recs, None) => Ok recs.*2
  | (_, Some e) => Err e
  end.

(** The bucket is optional. *)
Definition forEachJSONIfAny {T} (b : bucket) (dec : val b → json T) (tx : DB) : res (list T) :=
  if bhas tx b then forEachJSON b dec tx else Ok [].

Definition markReferenced (pending referenced : gmap string bool) (hashes : list string) : gmap string bool :=
  PopulateMapIf referenced hashes true (λ h, bool_decide (is_Some (pending !! h))).

(** The pending hashes and, among them, those still referenced. *)
Definition sweepScan (tx : DB) : res (gmap string bool * gmap string bool) :=
  _ ← boltBucket tx PendingBlobGC;
  let pending := PopulateMap ∅ (bforeach tx PendingBlobGC).*1 true in
  _ ← boltBucket tx VfsIndex;
  index ← forEachJSON VfsIndex (λ v, v) tx;
  let r1 := foldl (λ acc entry, if Deleted entry then acc else markReferenced pending acc [Hash entry]) ∅ index in
  active ← forEachJSONIfAny TasksActive (λ v, v) tx;
  let r2 := foldl (λ acc task, markReferenced pending acc (TaskRecord_BlobHashes task)) r1 active in
  history ← forEachJSONIfAny TasksHistory (λ v, v) tx;
  let r3 := foldl (λ acc task, markReferenced pending acc (historyBlobHashes task)) r2 history in
  Ok (pending, r3).

Definition join_error (acc : option error) (e : error) : option error := errors_Join [acc; Some e].

(** Deleting what is not referenced; returns the intents settled. *)
Fixpoint sweepBlobs (pending : list string) (referenced : gmap string bool)
    (completed : list string) (sweepErr : option error) : SE (list string * option error) :=
  match pending with
  | [] => mret (completed, sweepErr)
  | hash :: rest =>
      if bool_decide (is_Some (referenced !! hash))
      then sweepBlobs rest referenced (completed ++ [hash]) sweepErr
      else
        r ← attempt (onPhysical (DeleteBlob hash));
        match r with
        | Err e => sweepBlobs rest referenced completed (join_error sweepErr (EWrap "delete pending blob" e))
        | Ok _ => sweepBlobs rest referenced (completed ++ [hash]) sweepErr
        end
  end.

(** The settled intents leave the queue in one transaction. *)
Definition settleIntents (completed : list string) (sweepErr : option error) : SE unit :=
  if bool_decide (completed = []) then return_error sweepErr
  else
    r ← attempt (update (λ tx,
           _ ← boltBucket tx PendingBlobGC;
           deleteKeys tx PendingBlobGC completed));
    match r with
    | Ok _ => return_error sweepErr
    | Err e => return_error (join_error sweepErr e)
    end.

Definition sweepPendingBlobGCLocked : SE unit :=
  scan ← viewDB (λ d, View d sweepScan);
  let '(pending, referenced) := scan in
  if bool_decide (pending = ∅) then mret ()
  else
    out ← sweepBlobs (sort_strings (map_to_list pending).*1) referenced [] None;
    let '(completed, sweepErr) := out in
    settleIntents completed sweepErr.

Definition SweepPendingBlobGC : SE unit := sweepPendingBlobGCLocked.

(** ** Index updates *)

(** The flag and the error are both returned. *)
Definition upsertIndexLocked (entry : IndexEntry) : SE (bool * option error) :=
  read ← attempt (GetFileMetaE (Name entry));
  match read with
  | Err e => mret (false, Some e)
  | Ok _ =>
      u ← attempt (onDB (λ d, VFS_Upsert d entry));
      match u with
      | Err e => mret (false, Some e)
      | Ok updated =>
          if updated : bool then
            r ← attempt sweepPendingBlobGCLocked;
            match r with
            | Err e => mret (true, Some (EWrap "VFS metadata committed but pending blob GC failed" e))
            | Ok _ => mret (true, None)
            end
          else mret (false, None)
      end
  end.

Definition prepareMutationNotification (entry : IndexEntry) : SE hook_token :=
  onDB (hook_prepare entry).

Definition finishNotification (t : hook_token) (committed : bool) : SE (option error) :=
  onDB (λ d, let '(e, d') := hook_finish t committed d in (Ok e, d')).

Definition tombstone (entry : IndexEntry) : IndexEntry :=
  {| Name := Name entry; Size := Size entry; Hash := Hash entry;
     Version := wrap64 (Version entry + 1); Deleted := true |}.

(** The part of [DeleteLocalFile] under the deferred completion: whether
    the tombstone committed, and the error. *)
Definition deleteCommitted (fileMeta : IndexEntry) : SE (bool * option error) :=
  u ← attempt (onDB (λ d, VFS_Upsert d fileMeta));
  match u with
  | Err e => mret (false, Some e)
  | Ok false => mret (false, Some (EMsg "failed to persist deletion tombstone"))
  | Ok true =>
      r ← attempt sweepPendingBlobGCLocked;
      match r with
      | Err e => mret (true, Some (EWrap "file tombstoned but blob GC failed" e))
      | Ok _ => mret (true, None)
      end
  end.

Definition DeleteLocalFile (fileName : string) : SE unit :=
  entry ← GetFileMetaE fileName;
  match entry with
  | None => fail (EFileNotFound fileName)
  | Some entry =>
      let fileMeta := tombstone entry in
      finish ← prepareMutationNotification fileMeta;
      out ← deleteCommitted fileMeta;
      let '(committed, err) := out in
      finishErr ← finishNotification finish committed;
      return_error (errors_Join [err; finishErr])
  end.

(** The mutation returned beside an error. *)
Definition zeroMutation : vfsWrite := {| written := IndexEntry_zero; existing := None; applied := false |}.

Definition upsertSweep (entry : IndexEntry) : SE (vfsWrite * option error) :=
  r ← attempt (onDB (λ d, VFS_upsertAndSubscribe d entry));
  match r with
  | Err e => mret ({| written := entry; existing := None; applied := false |}, Some e)
  | Ok result =>
      if negb (applied result) then mret (result, None)
      else
        s ← attempt sweepPendingBlobGCLocked;
        match s with
        | Err e => mret (result, Some (EWrap "VFS metadata committed but pending blob GC failed" e))
        | Ok _ => mret (result, None)
        end
  end.

(** The write between the preparation of its notification and the deferred
    completion. *)
Definition upsertNotified (entry : IndexEntry) : SE (vfsWrite * option error) :=
  p ← attempt (prepareMutationNotification entry);
  match p with
  | Err e => mret (zeroMutation, Some e)
  | Ok finish =>
      out ← upsertSweep entry;
      let '(result, err) := out in
      finishErr ← finishNotification finish (applied result);
      mret (result, errors_Join [err; finishErr])
  end.

Definition upsertAndSubscribeLocked (entry : IndexEntry) (shouldNotify : bool)
    : SE (vfsWrite * option error) :=
  if shouldNotify then
    read ← attempt (GetFileMetaE (Name entry));
    match read with
    | Err e => mret (zeroMutation, Some e)
    | Ok current =>
        let noop := match current with
                    | Some cur => (0 <? Version entry)%Z && (compareIndexEntries entry cur <=? 0)%Z
                    | None => false
                    end in
        match current, noop with
        | Some cur, true => mret ({| written := cur; existing := Some cur; applied := false |}, None)
        | _, _ =>
            upsertNotified
              (if (0 <? Version entry)%Z then entry else with_version entry (nextVersion current))
        end
    end
  else upsertSweep entry.

Definition UpsertAndSubscribe (entry : IndexEntry) (notify : bool) : SE (IndexEntry * option error) :=
  out ← upsertAndSubscribeLocked entry notify;
  mret (written out.1, out.2).

(** ** Download intents *)

(** [se.nextDownloadID++], skipping zero. *)
Definition nextToken (n : N) : N :=
  let n1 := ((n + 1) mod 2 ^ 64)%N in
  if (n1 =? 0)%N then ((n1 + 1) mod 2 ^ 64)%N else n1.

Definition reserveDownload (key : string) (intent : downloadIntent) : SE (N * bool) := λ s,
  let token := nextToken (nextDownloadID s) in
  let fresh :=
    (Ok (token, true),
     with_downloads token (<[key := {| ActiveIntent := intent; Token := token |}]> (activeDownloads s)) s) in
  match activeDownloads s !! key with
  | Some active =>
      if bool_decide (IntentFile (ActiveIntent active) = IntentFile intent) then (Ok (Token active, false), s)
      else fresh
  | None => fresh
  end.

Definition rollbackDownloadReservation (key : string) (token : N) : SE unit :=
  modify (λ s,
    match activeDownloads s !! key with
    | Some active =>
        if (Token active =? token)%N then with_downloads (nextDownloadID s) (delete key (activeDownloads s)) s
        else s
    | None => s
    end).

Definition invokeDownloadCallback (key : string) (intent : downloadIntent) (token : N) : SE unit :=
  cb ← gets onDownloadNeeded;
  match cb with
  | None => rollbackDownloadReservation key token;; fail (EMsg "download callback unavailable")
  | Some call =>
      match call token (IntentFile intent) (IntentSource intent) with
      | Some e => rollbackDownloadReservation key token;; fail e
      | None => mret ()
      end
  end.

Definition enqueueDownloadIntent (key : string) (intent : downloadIntent) : SE unit :=
  r ← reserveDownload key intent;
  let '(token, startCallback) := r in
  if startCallback : bool then invokeDownloadCallback key intent token else mret ().

Definition requestRemoteDownload (file : IndexEntry) (source : string) : SE unit :=
  let intent := {| IntentFile := file; IntentSource := source |} in
  let key := downloadIntentStorageKey (Name file) in
  r ← attempt (update (λ tx,
    current ← indexGetTx tx (Name file);
    match current with
    | Some cur =>
        if negb (bool_decide (cur = file)) || Deleted cur then Err (ESentinel ErrBlobDiscarded)
        else
          subscribed ← boltHasKey tx Subscriptions (Name file);
          if negb subscribed then Err (ESentinel ErrBlobDiscarded)
          else
            _ ← boltBucket tx DownloadIntents;
            bput tx DownloadIntents key (JDoc intent)
    | None => Err (ESentinel ErrBlobDiscarded)
    end));
  match r with
  | Err e => if errors_Is e ErrBlobDiscarded then fail e else fail (EWrap "persist download intent" e)
  | Ok _ => enqueueDownloadIntent key intent
  end.

Definition releaseDownloadIntent (file : IndexEntry) : SE unit :=
  let key := downloadIntentStorageKey (Name file) in
  modify (λ s,
    match activeDownloads s !! key with
    | Some active =>
        if bool_decide (IntentFile (ActiveIntent active) = file)
        then with_downloads (nextDownloadID s) (delete key (activeDownloads s)) s
        else s
    | None => s
    end).

Definition ReleaseDownloadAttempt (file : IndexEntry) : SE unit := releaseDownloadIntent file.

Definition completeDownloadIntent (file : IndexEntry) : SE unit :=
  let key := downloadIntentStorageKey (Name file) in
  update (λ tx,
    _ ← boltBucket tx DownloadIntents;
    match bget tx DownloadIntents key with
    | None => Ok tx
    | Some raw =>
        match unmarshal (raw : json downloadIntent) with
        | Err e => Err (EWrap "invalid download intent" e)
        | Ok intent =>
            if bool_decide (IntentFile intent = file) then bdel tx DownloadIntents key else Ok tx
        end
    end);;
  releaseDownloadIntent file.

Definition QuarantineCorruptDownload (file : IndexEntry) : SE unit := completeDownloadIntent file.

Definition listDownloadIntents : SE (gmap string downloadIntent) :=
  viewDB (λ d, boltLoadMapJSON DownloadIntents (λ v, v) d).

Definition CountDownloadIntents : SE nat :=
  viewDB (λ d, View d (λ tx, _ ← boltBucket tx DownloadIntents; Ok (length (bforeach tx DownloadIntents)))).

(** One round of [ReconcileDownloadIntents]. *)
Definition reconcileIntent (key : string) (intent : downloadIntent) : SE unit :=
  current ← GetFileMetaE (Name (IntentFile intent));
  let live := match current with
              | Some cur => bool_decide (cur = IntentFile intent) && negb (Deleted cur)
              | None => false
              end in
  subscribed ← (if live then IsSubscribedE (Name (IntentFile intent)) else mret false);
  if negb subscribed then completeDownloadIntent (IntentFile intent)
  else
    hasBlob ← HasPhysicalBlob (Hash (IntentFile intent));
    if hasBlob : bool then completeDownloadIntent (IntentFile intent)
    else enqueueDownloadIntent key intent.

Definition first_error (acc : option error) (r : res unit) : option error :=
  match acc, r with
  | None, Err e => Some e
  | _, _ => acc
  end.

Fixpoint reconcileIntents (l : list (string * downloadIntent)) (firstErr : option error) : SE unit :=
  match l with
  | [] => return_error firstErr
  | (key, intent) :: rest =>
      r ← attempt (reconcileIntent key intent);
      reconcileIntents rest (first_error firstErr r)
  end.

Definition ReconcileDownloadIntents : SE unit :=
  intents ← listDownloadIntents;
  reconcileIntents (sorted_pairs intents) None.

(** ** Files *)

Definition compensatePhysicalBlob (hash : string) (created : bool) : SE unit :=
  if created then onPhysical (DeleteBlob hash) else mret ().

Definition discard (b : StagedBlob) : SE unit := attempt (onPhysical (Discard b));; mret ().

(** [Prepare] and [Commit] of a staged blob; the deferred [Discard] runs on
    the handle they leave. *)
Definition installStaged (staged : StagedBlob) (prepared committed : error → error) : SE bool :=
  p ← attempt (onPhysical (Prepare staged));
  match p with
  | Err e => discard staged;; fail (prepared e)
  | Ok _ =>
      c ← attempt (onPhysical (Commit staged));
      match c with
      | Err e => discard staged;; fail (committed e)
      | Ok (created, finalized) => discard finalized;; mret created
      end
  end.

Definition newEntry (name hash : string) (size : Z) : IndexEntry :=
  {| Name := name; Size := size; Hash := hash; Version := 0; Deleted := false |}.

Definition SaveLocalFile (fileName : string) (content : res string) : SE unit :=
  s ← attempt (onPhysical (StageBlob content));
  match s with
  | Err e => fail (EWrap "error staging the blob" e)
  | Ok staged =>
      created ← installStaged staged (EWrap "error preparing the blob") (EWrap "error committing the blob");
      out ← upsertAndSubscribeLocked (newEntry fileName (sbHash staged) (sbSize staged)) true;
      let '(result, err) := out in
      match err with
      | Some e =>
          if applied result then fail e
          else
            c ← attempt (compensatePhysicalBlob (sbHash staged) created);
            match c with
            | Err ce => fail (EJoin [e; EWrap "compensate blob" ce])
            | Ok _ => fail e
            end
      | None => mret ()
      end
  end.

(** [source] is what opening the local path gives: an error, or a reader
    with what reading it gives. *)
Definition StageLocalFile (pathStr : string) (source : res (res string)) : SE (string * Z) :=
  content ← of_res source;
  staged ← onPhysical (StageBlob content);
  created ← installStaged staged id id;
  let hash := sbHash staged in
  let name := "stage/" +:+ hash +:+ "/" +:+ filepath_Base pathStr in
  out ← upsertAndSubscribeLocked (newEntry name hash (sbSize staged)) false;
  let '(result, err) := out in
  match err with
  | Some e =>
      if applied result then fail e
      else
        c ← attempt (compensatePhysicalBlob hash created);
        match c with
        | Err ce => fail (EJoin [e; EWrap "compensate staged blob" ce])
        | Ok _ => fail e
        end
  | None => mret (hash, sbSize staged)
  end.

Definition countHashRefs (hash : string) (subscribedOnly : bool) : SE nat :=
  viewDB (λ d, View d (λ tx,
    _ ← boltBucket tx VfsIndex;
    if subscribedOnly && negb (bhas tx Subscriptions) then Err (EMsg "subscriptions bucket not found")
    else
      match decodeRecords (bforeach tx VfsIndex : list (string * json IndexEntry)) with
      | (_, Some e) => Err e
      | (recs, None) =>
          Ok (length (filter (λ kv : string * IndexEntry,
            Deleted kv.2 = false ∧ Hash kv.2 = hash ∧
            (subscribedOnly = true → is_Some (bget tx Subscriptions kv.1))) recs))
      end)).

Definition deleteBlobIfOrphan (hash : string) (subscribedOnly : bool) : SE unit :=
  refs ← attempt (countHashRefs hash subscribedOnly);
  match refs with
  | Err e => fail (EWrap "orphan check aborted" e)
  | Ok n => if (0 <? n)%nat then mret () else onPhysical (DeleteBlob hash)
  end.

Definition DeleteLocalCache (fileName : string) : SE unit :=
  entry ← GetFileMetaE fileName;
  match entry with
  | None => fail (EFileNotFound fileName)
  | Some entry =>
      SetSubscription fileName false;;
      deleteBlobIfOrphan (Hash entry) true
  end.

(** The entry a download was requested for is still the current one. *)
Definition still_wanted (fileInfo entry : IndexEntry) : bool :=
  bool_decide (Name entry = Name fileInfo) && bool_decide (Version entry = Version fileInfo) &&
  bool_decide (Hash entry = Hash fileInfo) && bool_decide (Deleted entry = Deleted fileInfo) &&
  negb (Deleted entry).

Definition applyDownloaded (fileInfo : IndexEntry) (created : bool) : SE unit :=
  r ← attempt (GetFileMetaE (Name fileInfo));
  match r with
  | Err e =>
      c ← attempt (compensatePhysicalBlob (Hash fileInfo) created);
      match c with
      | Err ce => fail (EJoin [e; EWrap "compensate remote blob" ce])
      | Ok _ => fail e
      end
  | Ok current =>
      if match current with Some entry => still_wanted fileInfo entry | None => false end
      then completeDownloadIntent fileInfo
      else
        gcErr ← attempt (deleteBlobIfOrphan (Hash fileInfo) false);
        completeErr ← attempt (completeDownloadIntent fileInfo);
        return_error (errors_Join [Some (ESentinel ErrBlobDiscarded); error_of gcErr; error_of completeErr])
  end.

Definition StoreRemoteBlob (fileInfo : IndexEntry) (content : res string) : SE unit :=
  s ← attempt (onPhysical (StageBlob content));
  match s with
  | Err e => releaseDownloadIntent fileInfo;; fail (EWrap "failed to stage blob physically" e)
  | Ok staged =>
      if negb (bool_decide (sbHash staged = Hash fileInfo)) then
        releaseDownloadIntent fileInfo;; discard staged;;
        fail (EJoin [ESentinel ErrBlobIntegrity; EMsg "hash mismatch"])
      else
        c ← attempt (installStaged staged (EWrap "failed to prepare blob physically")
                       (EWrap "failed to commit blob physically"));
        match c with
        | Err e => releaseDownloadIntent fileInfo;; fail e
        | Ok created => applyDownloaded fileInfo created
        end
  end.

Definition SaveVerifiedPhysicalBlob (expectedHash : string) (content : res string) : SE unit :=
  s ← attempt (onPhysical (StageBlob content));
  match s with
  | Err e => fail (EWrap "failed to stage blob physically" e)
  | Ok staged =>
      if negb (bool_decide (sbHash staged = expectedHash)) then
        discard staged;; fail (EJoin [ESentinel ErrBlobIntegrity; EMsg "hash mismatch"])
      else installStaged staged (EWrap "failed to prepare blob physically") id;; mret ()
  end.

(** ** Remote metadata *)

Definition ProcessRemoteDeletion (fileInfo : IndexEntry) : SE unit :=
  u ← upsertIndexLocked fileInfo;
  match u.2 with
  | Some e => fail e
  | None =>
      current ← GetFileMetaE (Name fileInfo);
      match current with
      | Some cur =>
          if bool_decide (cur = fileInfo) && Deleted cur then completeDownloadIntent fileInfo else mret ()
      | None => mret ()
      end
  end.

(** One entry of a remote manifest: the file to fetch, if any. *)
Definition processManifestEntry (remote : IndexEntry) : SE (option IndexEntry) :=
  if Deleted remote then
    r ← attempt (ProcessRemoteDeletion remote);
    match r with
    | Err e => fail (EWrap "process manifest tombstone" e)
    | Ok _ => mret None
    end
  else
    u ← upsertIndexLocked remote;
    match u.2 with
    | Some e => fail (EWrap "persist manifest entry" e)
    | None =>
        c ← attempt (GetFileMetaE (Name remote));
        match c with
        | Err e => fail (EWrap "read manifest entry" e)
        | Ok None => mret None
        | Ok (Some current) =>
            if negb (bool_decide (current = remote)) then mret None
            else
              s ← attempt (IsSubscribedE (Name current));
              match s with
              | Err e => fail (EWrap "read manifest subscription" e)
              | Ok false => mret None
              | Ok true =>
                  h ← attempt (HasPhysicalBlob (Hash current));
                  match h with
                  | Err e => fail (EWrap "verify manifest blob" e)
                  | Ok hasBlob => mret (if u.1 || negb hasBlob then Some current else None)
                  end
              end
        end
    end.

Fixpoint processManifest (l : list (string * IndexEntry)) (missing : list IndexEntry)
    (manifestErr : option error) : SE (list IndexEntry * option error) :=
  match l with
  | [] => mret (missing, manifestErr)
  | (_, remote) :: rest =>
      r ← attempt (processManifestEntry remote);
      match r with
      | Err e => processManifest rest missing (join_error manifestErr e)
      | Ok None => processManifest rest missing manifestErr
      | Ok (Some file) => processManifest rest (missing ++ [file]) manifestErr
      end
  end.

Definition ProcessRemoteManifestE (manifest : gmap string IndexEntry) : SE (list IndexEntry * option error) :=
  processManifest (sorted_pairs manifest) [] None.

Fixpoint requestMissing (missing : list IndexEntry) (source : string) (manifestErr : option error)
    : SE (option error) :=
  match missing with
  | [] => mret manifestErr
  | file :: rest =>
      r ← attempt (requestRemoteDownload file source);
      requestMissing rest source
        (match r with Ok _ => manifestErr | Err e => join_error manifestErr (EWrap "stage manifest download" e) end)
  end.

Definition ProcessRemoteManifestFromSource (manifest : gmap string IndexEntry) (source : string)
    : SE (list IndexEntry * option error) :=
  out ← ProcessRemoteManifestE manifest;
  err ← requestMissing out.1 source out.2;
  mret (out.1, err).

(** ** Notifications from peers ([handlers.go]) *)

Definition StatusOK : Z := 200.
Definition StatusAccepted : Z := 202.
Definition StatusInternalServerError : Z := 500.
Definition StatusBadGateway : Z := 502.
Definition StatusServiceUnavailable : Z := 503.

(** The status [HandleNotification] answers a decoded notification with. *)
Definition HandleNotification (file : IndexEntry) (source : string) : SE Z :=
  if Deleted file then
    r ← attempt (ProcessRemoteDeletion file);
    mret (match r with Err _ => StatusInternalServerError | Ok _ => StatusOK end)
  else
    u ← upsertIndexLocked file;
    match u.2 with
    | Some _ => mret StatusInternalServerError
    | None =>
        c ← attempt (GetFileMetaE (Name file));
        match c with
        | Err _ => mret StatusInternalServerError
        | Ok None => mret StatusOK
        | Ok (Some current) =>
            if negb (bool_decide (current = file)) || Deleted current then mret StatusOK
            else
              s ← attempt (IsSubscribedE (Name current));
              match s with
              | Err _ => mret StatusInternalServerError
              | Ok false => mret StatusOK
              | Ok true =>
                  h ← attempt (HasPhysicalBlob (Hash current));
                  match h with
                  | Err _ => mret StatusInternalServerError
                  | Ok true => mret StatusOK
                  | Ok false =>
                      d ← attempt (requestRemoteDownload current source);
                      mret (match d with
                            | Ok _ => StatusAccepted
                            | Err e => if errors_Is e ErrBlobDiscarded then StatusOK
                                       else if errors_Is e ErrDownloadQueueFull then StatusServiceUnavailable
                                       else StatusBadGateway
                            end)
                  end
              end
        end
    end.

(** ** Start-up *)

Fixpoint createBuckets (tx : DB) (bs : list bucket) : res DB :=
  match bs with
  | [] => Ok tx
  | b :: rest =>
      match bcreate tx b with
      | Ok tx' => createBuckets tx' rest
      | Err e => Err (EWrap "create bucket" e)
      end
  end.

Definition clearTransientOutboxReservations (tx : DB) : res DB :=
  _ ← boltBucket tx NotifyOutboxReservations;
  deleteKeys tx NotifyOutboxReservations (bforeach tx NotifyOutboxReservations).*1.

(** Opening the database [d] over the directory [disk]; a failed sweep is
    only logged. *)
Definition NewStorageEngine (disk : FS) (d : DB) (cb : callback) : res (Engine DB) :=
  match Update d (λ tx, tx1 ← createBuckets tx allBuckets;
                        tx2 ← clearTransientOutboxReservations tx1;
                        Ok ((), tx2)) with
  | (Err e, _) => Err (EWrap "initialize metadata db" e)
  | (Ok _, d') =>
      let s := {| physical := NewStorage disk; db := d'; nextDownloadID := 0; activeDownloads := ∅;
                  onDownloadNeeded := cb |} in
      Ok (SweepPendingBlobGC s).2
  end.
End engine.
