(* ===== verification/Gc.v ===== *)
(** * Garbage collection of blobs

    The sweep of [Engine.v] against its specification: it removes the blobs
    queued for collection that nothing refers to, and no other. *)
From S2P Require Import Prelude GoStrings Json Protocol Bolt Vfs Sha256 Physical Journal Engine.

(** ** What keeps a blob alive *)

Section live.
Context {DB : Type} `{!Bolt DB}.

(** A live entry of the index. *)
Definition indexed (d : DB) (h : string) : Prop :=
  ∃ name e, bget d VfsIndex name = Some (JDoc e) ∧ Deleted e = false ∧ Hash e = h.

Definition used_by_active (d : DB) (h : string) : Prop :=
  ∃ id t, bget d TasksActive id = Some (JDoc t) ∧ h ∈ TaskRecord_BlobHashes t.

Definition used_by_history (d : DB) (h : string) : Prop :=
  ∃ id t, bget d TasksHistory id = Some (JDoc t) ∧ h ∈ historyBlobHashes t.

Definition live (d : DB) (h : string) : Prop :=
  indexed d h ∨ used_by_active d h ∨ used_by_history d h.

Definition pending (d : DB) (h : string) : Prop := is_Some (bget d PendingBlobGC h).
End live.

Definition blob {DB} (s : Engine DB) (h : string) : option inode := files (fs (physical s)) !! h.

(** ** Scans *)

Lemma decodeRecords_ok {T} (l : list (string * json T)) recs :
  decodeRecords l = (recs, None) → ∀ k v, (k, JDoc v) ∈ l ↔ (k, v) ∈ recs.
Proof.
  revert recs. induction l as [|[k0 raw] l IH]; intros recs; simpl.
  { intros [= <-] k v. split; by intros ?%elem_of_nil. }
  destruct raw as [v0|]; simpl; [|done].
  destruct (decodeRecords l) as [recs' [e|]]; [done|]. intros [= <-] k v.
  rw !elem_of_cons (IH _ eq_refl). naive_solver.
Qed.

Lemma decodeRecords_docs {T} (l : list (string * json T)) recs k raw :
  decodeRecords l = (recs, None) → (k, raw) ∈ l → ∃ v, raw = JDoc v.
Proof.
  revert recs. induction l as [|[k0 raw0] l IH]; intros recs; simpl; [by intros _ ?%elem_of_nil|].
  destruct raw0 as [v0|]; simpl; [|done].
  destruct (decodeRecords l) as [recs' [e|]]; [done|]. intros _ [[= -> ->]|?]%elem_of_cons; eauto.
Qed.

Section sweep.
Context {DB : Type} `{!Bolt DB} `{!BoltLaws DB} `{!Digest}.
Implicit Types (d tx : DB) (s : Engine DB).

Lemma forEachJSON_elem {T} b (dec : val b → json T) tx l v :
  forEachJSON b dec tx = Ok l →
  v ∈ l ↔ ∃ k raw, bget tx b k = Some raw ∧ dec raw = JDoc v.
Proof.
  unfold forEachJSON. destruct (decodeRecords _) as [recs [e|]] eqn:Hd; [done|]. intros [= <-].
  pose proof (decodeRecords_ok _ _ Hd) as Hr. rw list_elem_of_fmap. split.
  - intros ([k v'] & -> & Hin). apply Hr, list_elem_of_fmap in Hin as ([k' raw] & Heq & Hin).
    simpl in *. injection Heq as -> Heq. exists k', raw. split; [by apply bforeach_elem|done].
  - intros (k & raw & Hget & Hdec). exists (k, v). split; [done|]. apply Hr, list_elem_of_fmap.
    exists (k, raw). split; [by rw /prod_map /= Hdec|]. by apply bforeach_elem.
Qed.

Lemma forEachJSONIfAny_elem {T} b (dec : val b → json T) tx l v :
  forEachJSONIfAny b dec tx = Ok l →
  v ∈ l ↔ ∃ k raw, bget tx b k = Some raw ∧ dec raw = JDoc v.
Proof.
  unfold forEachJSONIfAny. destruct (bhas tx b) eqn:Hb; [apply forEachJSON_elem|]. intros [= <-].
  split; [by intros ?%elem_of_nil|]. intros (k & raw & Hget & _). apply bget_has in Hget. congruence.
Qed.

Lemma markReferenced_spec p r hs h :
  is_Some (markReferenced p r hs !! h) ↔ is_Some (r !! h) ∨ h ∈ hs ∧ is_Some (p !! h).
Proof.
  unfold markReferenced. rw lookup_PopulateMapIf.
  case_decide as Hd; rw bool_decide_eq_true in Hd; [|tauto]. split; [tauto|]. eauto.
Qed.

Lemma markAll_spec {T} p (f : T → list string) l r h :
  is_Some (foldl (λ acc x, markReferenced p acc (f x)) r l !! h) ↔
  is_Some (r !! h) ∨ (∃ x, x ∈ l ∧ h ∈ f x) ∧ is_Some (p !! h).
Proof.
  revert r. induction l as [|x l IH]; intros r; simpl.
  { setoid_rewrite elem_of_nil. naive_solver. }
  rw IH markReferenced_spec. setoid_rewrite elem_of_cons. naive_solver.
Qed.

Lemma markIndex_spec p l r h :
  is_Some (foldl (λ acc e, if Deleted e then acc else markReferenced p acc [Hash e]) r l !! h) ↔
  is_Some (r !! h) ∨ (∃ e, e ∈ l ∧ Deleted e = false ∧ Hash e = h) ∧ is_Some (p !! h).
Proof.
  revert r. induction l as [|e l IH]; intros r; simpl.
  { setoid_rewrite elem_of_nil. naive_solver. }
  rw IH. assert ((∃ e', e' ∈ e :: l ∧ Deleted e' = false ∧ Hash e' = h) ↔
    Deleted e = false ∧ Hash e = h ∨ ∃ e', e' ∈ l ∧ Deleted e' = false ∧ Hash e' = h) as ->.
  { setoid_rewrite elem_of_cons. split; [intros (e' & [->|?] & ? & ?); eauto|].
    intros [[? ?]|(e' & ? & ? & ?)]; eauto. }
  destruct (Deleted e); [intuition congruence|].
  rw markReferenced_spec list_elem_of_singleton. intuition congruence.
Qed.

(** The scan separates the pending hashes by whether they are live. *)
Lemma sweepScan_spec tx p r :
  sweepScan tx = Ok (p, r) →
  (∀ h, is_Some (p !! h) ↔ pending tx h) ∧ (∀ h, is_Some (r !! h) ↔ pending tx h ∧ live tx h).
Proof.
  unfold sweepScan. destruct (boltBucket tx PendingBlobGC); simpl; [|done].
  destruct (boltBucket tx VfsIndex); simpl; [|done].
  destruct (forEachJSON VfsIndex _ tx) as [idx|] eqn:Hi; simpl; [|done].
  destruct (forEachJSONIfAny TasksActive _ tx) as [act|] eqn:Ha; simpl; [|done].
  destruct (forEachJSONIfAny TasksHistory _ tx) as [hist|] eqn:Hh; simpl; [|done].
  intros [= <- <-].
  assert (∀ h, is_Some ((PopulateMap ∅ (bforeach tx PendingBlobGC).*1 true : gmap string bool) !! h) ↔ pending tx h)
    as Hp.
  { intros h. rw lookup_PopulateMap lookup_empty. unfold pending. case_decide as Hin.
    - apply list_elem_of_fmap in Hin as ([k v] & -> & Hin%bforeach_elem). simpl. split; eauto.
    - split; [by intros []|]. intros [v Hv]. destruct Hin. apply list_elem_of_fmap. exists (h, v).
      split; [done|]. by apply bforeach_elem. }
  split; [done|]. intros h. rw !markAll_spec markIndex_spec Hp lookup_empty.
  assert ((∃ e, e ∈ idx ∧ Deleted e = false ∧ Hash e = h) ↔ indexed tx h) as ->.
  { unfold indexed. setoid_rewrite (forEachJSON_elem _ _ _ _ _ Hi). naive_solver. }
  assert ((∃ t, t ∈ act ∧ h ∈ TaskRecord_BlobHashes t) ↔ used_by_active tx h) as ->.
  { unfold used_by_active. setoid_rewrite (forEachJSONIfAny_elem _ _ _ _ _ Ha). naive_solver. }
  assert ((∃ t, t ∈ hist ∧ h ∈ historyBlobHashes t) ↔ used_by_history tx h) as ->.
  { unfold used_by_history. setoid_rewrite (forEachJSONIfAny_elem _ _ _ _ _ Hh). naive_solver. }
  unfold live. assert (¬ is_Some (None (A := bool))) by (by intros []). tauto.
Qed.

(** ** Deleting blobs *)

Lemma os_Remove_files p st r st' :
  os_Remove p st = (r, st') →
  match r with
  | Ok _ => files (fs st') = delete p (files (fs st))
  | Err e => files (fs st') = files (fs st) ∧ (os_IsNotExist e = true → files (fs st) !! p = None)
  end.
Proof.
  unfold os_Remove, mbind, st_bind, sys, file_at, gets, fail, modify.
  destruct (fault _ _ _ _); [by intros [= <- <-]|]. simpl.
  destruct (files (fs st) !! p) as [[| [|] |]|]; by intros [= <- <-].
Qed.

Lemma DeleteBlob_files h st r st' :
  DeleteBlob h st = (r, st') →
  files (fs st') = if is_ok r then delete h (files (fs st)) else files (fs st).
Proof.
  unfold DeleteBlob, mbind, st_bind, attempt.
  destruct (os_Remove h st) as [[[]|e] st1] eqn:Hr; apply os_Remove_files in Hr.
  - unfold removeCachedHash, modify. by intros [= <- <-].
  - destruct Hr as [Hf He]. destruct (os_IsNotExist e).
    + unfold removeCachedHash, modify. intros [= <- <-]. simpl. rw Hf delete_id //. by apply He.
    + unfold fail. by intros [= <- <-].
Qed.

Lemma onPhysical_inv {A} (m : ST Storage A) s r s' :
  onPhysical m s = (r, s') → ∃ st', m (physical s) = (r, st') ∧ s' = with_physical st' s.
Proof. unfold onPhysical. destruct (m (physical s)) as [r1 st1]. intros [= <- <-]. eauto. Qed.

Lemma join_error_Some acc e : join_error acc e ≠ None.
Proof. unfold join_error, errors_Join. by destruct acc. Qed.

(** What a pass over the pending hashes does. *)
Record swept (l : list string) (referenced : gmap string bool) (s : Engine DB)
    (completed : list string) (err : option error) (s' : Engine DB) : Prop := {
  sw_db : db s' = db s;
  sw_downloads : activeDownloads s' = activeDownloads s;
  sw_blob h : blob s' h = blob s h ∨ h ∈ l ∧ referenced !! h = None ∧ blob s' h = None;
  sw_completed h : h ∈ completed → h ∈ l ∧ (is_Some (referenced !! h) ∨ blob s' h = None);
  sw_all : err = None → ∀ h, h ∈ l → h ∈ completed }.

Lemma sweepBlobs_swept l referenced s completed err out s' :
  sweepBlobs l referenced completed err s = (out, s') →
  ∃ completed' err', out = Ok (completed ++ completed', err') ∧ (err' = None → err = None) ∧
    swept l referenced s completed' err' s'.
Proof.
  revert s completed err. induction l as [|h l IH]; intros s completed err; simpl.
  { intros [= <- <-]. exists [], err. rw app_nil_r. do 2 (split; [done|]). split; [done|done|by left| |].
    - by intros ? ?%elem_of_nil.
    - by intros _ ? ?%elem_of_nil. }
  case_bool_decide as Href.
  - intros (c' & e' & -> & He & [H1 H2 H3 H4 H5])%IH. exists (h :: c'), e'. rw -app_assoc.
    do 2 (split; [done|]). split; [done|done| | |].
    + intros h'. destruct (H3 h') as [?|(? & ? & ?)]; [by left|right]. rw elem_of_cons. tauto.
    + intros h' [->|?%H4]%elem_of_cons; rw elem_of_cons; [auto|tauto].
    + intros Hnone h' [->|?]%elem_of_cons; [by left|right; auto].
  - unfold mbind, st_bind, attempt. destruct (onPhysical (DeleteBlob h) s) as [r s1] eqn:Hr.
    apply onPhysical_inv in Hr as (st1 & Hdel & ->). apply DeleteBlob_files in Hdel.
    destruct r as [u|e]; simpl in Hdel; intros (c' & e' & -> & He & [H1 H2 H3 H4 H5])%IH.
    + assert (∀ h', blob (with_physical st1 s) h' = if decide (h = h') then None else blob s h') as Hb.
      { intros h'. unfold blob. simpl. rw Hdel lookup_delete. done. }
      assert (blob s' h = None) as Hnone.
      { destruct (H3 h) as [->|(_ & _ & ?)]; [|done]. rw Hb decide_True //. }
      exists (h :: c'), e'. rw -app_assoc. do 2 (split; [done|]). split; [done|done| | |].
      * intros h'. destruct (decide (h = h')) as [<-|Hne].
        -- right. split; [by left|]. split; [|done]. by apply eq_None_not_Some.
        -- destruct (H3 h') as [Heq|(? & ? & ?)]; [left|right; rw elem_of_cons; tauto].
           rw Heq Hb. by rw decide_False.
      * intros h' [->|?%H4]%elem_of_cons; rw elem_of_cons; [auto|tauto].
      * intros Hn h' [->|?]%elem_of_cons; [by left|right; auto].
    + exists c', e'. split; [done|]. split; [intros Hn; by apply He, join_error_Some in Hn|].
      split; [done|done| | |].
      * intros h'. destruct (H3 h') as [Hb|(? & ? & ?)]; [left|right; rw elem_of_cons; tauto].
        rw Hb. unfold blob. simpl. by rw Hdel.
      * intros h' ?%H4. rw elem_of_cons. tauto.
      * intros Hn. by apply He, join_error_Some in Hn.
Qed.

Lemma update_inv (body : DB → res DB) s r s' :
  update body s = (r, s') →
  physical s' = physical s ∧ activeDownloads s' = activeDownloads s ∧
  (r = Ok () ∧ body (db s) = Ok (db s') ∨ (∃ e, r = Err e) ∧ db s' = db s).
Proof.
  unfold update, onDB. destruct (Update (db s) _) as [r1 d1] eqn:Hu. intros [= <- <-]. simpl.
  split_and!; [done..|].
  apply Update_spec in Hu as [([] & -> & Hb)|(e & -> & ->)]; [left|right; eauto].
  destruct (body (db s)); simpl in Hb; [|done]. injection Hb as ->. done.
Qed.

Lemma deleteKeys_spec tx b ks tx' :
  deleteKeys tx b ks = Ok tx' →
  (∀ k, bget tx' b k = if decide (k ∈ ks) then None else bget tx b k) ∧
  (∀ b' k, b ≠ b' → bget tx' b' k = bget tx b' k).
Proof.
  revert tx. induction ks as [|k0 ks IH]; intros tx; cbn [deleteKeys].
  { intros [= ->]. split; [|done]. intros k. case_decide as Hin; [by apply elem_of_nil in Hin|done]. }
  destruct (bdel tx b k0) as [tx1|] eqn:Hd; [|done]. intros [H1 H2]%IH. split.
  - intros k. rw H1 (bget_del _ _ _ _ _ Hd). repeat case_decide; rewrite ->?elem_of_cons in *; naive_solver.
  - intros b' k Hne. rw H2 //. by eapply bget_del_ne.
Qed.

Record sweep_effect s (r : res unit) s' : Prop := {
  se_downloads : activeDownloads s' = activeDownloads s;
  se_frame b k : b ≠ PendingBlobGC → bget (db s') b k = bget (db s) b k;
  se_blob h : blob s' h = blob s h ∨ pending (db s) h ∧ ¬ live (db s) h ∧ blob s' h = None;
  se_pending h : pending (db s') h → pending (db s) h;
  se_settled h : pending (db s) h → ¬ pending (db s') h → live (db s) h ∨ blob s' h = None;
  se_done : r = Ok () → ∀ h, ¬ pending (db s') h }.

Lemma sweep_effect_refl s r : (r = Ok () → ∀ h, ¬ pending (db s) h) → sweep_effect s r s.
Proof. intros Hr. split; [done|done|by left|done|by intros h ? []|done]. Qed.

Lemma return_error_inv (e : option error) s r s' :
  return_error e s = (r, s') → s' = s ∧ (r = Ok () → e = None).
Proof. destruct e; by intros [= <- <-]. Qed.

Lemma settleIntents_spec completed err s r s' :
  settleIntents completed err s = (r, s') →
  physical s' = physical s ∧ activeDownloads s' = activeDownloads s ∧
  (∀ b k, b ≠ PendingBlobGC → bget (db s') b k = bget (db s) b k) ∧
  (∀ h, pending (db s') h → pending (db s) h) ∧
  (∀ h, pending (db s) h → ¬ pending (db s') h → h ∈ completed) ∧
  (r = Ok () → err = None ∧ ∀ h, h ∈ completed → ¬ pending (db s') h).
Proof.
  unfold settleIntents. case_bool_decide as Hnil.
  { intros [-> He]%return_error_inv. split_and!; try done. intros Hr. split; [auto|].
    intros h. rw Hnil. by intros ?%elem_of_nil. }
  unfold mbind, st_bind, attempt. destruct (update _ s) as [r1 s1] eqn:Hu.
  apply update_inv in Hu as (Hphys & Hdl & [[-> Hbody]|[[e ->] Hd]]).
  - destruct (boltBucket (db s) PendingBlobGC); simpl in Hbody; [|done].
    apply deleteKeys_spec in Hbody as [Hk Hframe]. intros [-> He]%return_error_inv. unfold pending.
    split_and!; [done|done|intros; by apply Hframe| | |].
    + intros h. rw Hk. case_decide; [by intros []|done].
    + intros h Hp Hn. rw Hk in Hn. case_decide; [done|]. by destruct Hn.
    + intros Hr. split; [auto|]. intros h Hin. rw Hk. rw decide_True; [by intros []|done].
  - intros [-> He]%return_error_inv. rw Hd. split_and!; try done.
    intros Hr. by apply He, join_error_Some in Hr.
Qed.

Lemma sweep_effect_ok s r s' : sweepPendingBlobGCLocked s = (r, s') → sweep_effect s r s'.
Proof.
  unfold sweepPendingBlobGCLocked, mbind, st_bind, viewDB, View.
  destruct (sweepScan (db s)) as [[p referenced]|e] eqn:Hscan;
    [|intros [= <- <-]; by apply sweep_effect_refl].
  apply sweepScan_spec in Hscan as [Hp Href]. case_bool_decide as Hempty.
  { intros [= <- <-]. apply sweep_effect_refl. intros _ h [v Hv]%Hp. rw Hempty in Hv. by rw lookup_empty in Hv. }
  destruct (sweepBlobs _ _ [] None s) as [out s1] eqn:Hsb.
  apply sweepBlobs_swept in Hsb as (completed & err & -> & _ & [Hdb Hdl Hblob Hcomp Hall]).
  rw app_nil_l. intros Hfin. apply settleIntents_spec in Hfin
    as (Hphys & Hdl2 & Hframe & Hpend & Hset & Hok). rw Hdb in Hframe Hpend Hset.
  assert (∀ h, h ∈ sort_strings (map_to_list p).*1 ↔ pending (db s) h) as Hl.
  { intros h. rewrite ->(sort_strings_perm (map_to_list p).*1). rw -Hp list_elem_of_fmap. split.
    - intros ([k v] & -> & Hin%elem_of_map_to_list). eauto.
    - intros [v Hv]. exists (h, v). split; [done|]. by apply elem_of_map_to_list. }
  assert (∀ h, blob s' h = blob s1 h) as Hb by (intros h; unfold blob; by rw Hphys).
  split.
  - congruence.
  - done.
  - intros h. rw Hb. destruct (Hblob h) as [?|(Hin%Hl & Hn & ?)]; [by left|right].
    split_and!; [done| |done]. intros Hlive.
    assert (is_Some (referenced !! h)) as [? Hx] by (by apply Href). congruence.
  - done.
  - intros h Hp1 Hn. destruct (Hcomp h (Hset h Hp1 Hn)) as [_ [Hr|?]]; [left; by apply Href|right; by rw Hb].
  - intros Hr h Hp1. destruct (Hok Hr) as [Herr Hnone]. apply (Hnone h); [|done].
    apply (Hall Herr), Hl, Hpend, Hp1.
Qed.

(** ** A write to the index followed by a sweep *)

Lemma live_frame d d' h :
  (∀ b k, b ≠ PendingBlobGC → bget d' b k = bget d b k) → live d' h ↔ live d h.
Proof.
  intros Hf. unfold live, indexed, used_by_active, used_by_history.
  assert (∀ b k, b ≠ PendingBlobGC → bget d' b k = bget d b k) as Hf' by done.
  setoid_rewrite (Hf VfsIndex); [|done]. setoid_rewrite (Hf TasksActive); [|done].
  by setoid_rewrite (Hf TasksHistory).
Qed.

(** The metadata writes of the engine: a blob that loses its last entry is
    queued in the same transaction. *)
Record wrote d d' : Prop := {
  wr_active k : bget d' TasksActive k = bget d TasksActive k;
  wr_history k : bget d' TasksHistory k = bget d TasksHistory k;
  wr_pending h : pending d h → pending d' h;
  wr_indexed h : h ≠ "" → indexed d h → indexed d' h ∨ pending d' h }.

Lemma wrote_frame d d' :
  (∀ b k, outbox_bucket b = false → bget d' b k = bget d b k) → wrote d d'.
Proof.
  intros Hf. split; [intros; by apply Hf..| |].
  - intros h. unfold pending. by rw Hf.
  - intros h _ (name & e & Hg & ?). left. exists name, e. by rw Hf.
Qed.

Lemma wrote_refl d : wrote d d.
Proof. by apply wrote_frame. Qed.

Lemma wrote_trans d1 d2 d3 : wrote d1 d2 → wrote d2 d3 → wrote d1 d3.
Proof.
  intros [A1 H1 P1 I1] [A2 H2 P2 I2]. split; [intros; congruence..|auto|].
  intros h Hne [Hi|Hp]%I1; [|auto|done]. destruct (I2 h Hne Hi); auto.
Qed.

Lemma write_effect_wrote tx entry w tx' : write_effect tx entry w tx' → wrote tx tx'.
Proof.
  intros [Hex Hhas Hframe Hname Hidx Hgc Hnoop Happ]. split; [intros; by apply Hframe..| |].
  - intros h Hp. unfold pending in *. rw Hgc. destruct (existing w); [|done].
    destruct (decide _); [by eexists|done].
  - intros h Hne (name & e & Hg & Hdel & Hh). unfold indexed, pending. rw Hgc Hex.
    destruct (decide (applied w = true ∧ Name entry = name)) as [[Ha <-]|Hn].
    2: { left. exists name, e. rw Hidx. by rw decide_False. }
    unfold index_of. rw Hg.
    destruct (decide (Deleted (written w) = false ∧ Hash (written w) = h)) as [[Hd' Hh']|Hgone].
    + left. exists (Name entry), (written w). rw Hidx. by rw decide_True.
    + right. rw decide_True; [by eexists|]. split_and!; [done| |done]. split; [congruence|].
      destruct (Deleted (written w)); [by left|right]. intros He. apply Hgone. split; congruence.
Qed.

Lemma VFS_Upsert_wrote d entry r d' : VFS_Upsert d entry = (r, d') → wrote d d'.
Proof.
  unfold VFS_Upsert. intros [(a & -> & Hb)|(e & -> & ->)]%Update_spec; [|apply wrote_refl].
  destruct (resolveVFSWrite d entry) as [[w tx']|] eqn:Hr; [|done]. injection Hb as _ ->.
  by eapply write_effect_wrote, resolveVFSWrite_effect.
Qed.

Lemma VFS_upsertAndSubscribe_wrote d entry r d' :
  VFS_upsertAndSubscribe d entry = (r, d') → wrote d d'.
Proof.
  unfold VFS_upsertAndSubscribe. intros [(a & -> & Hb)|(e & -> & ->)]%Update_spec; [|apply wrote_refl].
  destruct (resolveVFSWrite d entry) as [[w tx']|] eqn:Hr; [|done].
  apply resolveVFSWrite_effect, write_effect_wrote in Hr.
  destruct (applied w); [|by injection Hb as _ ->].
  destruct (boltPut tx' Subscriptions (Name entry) flagBytes) as [tx2|] eqn:Hp; [|done]. injection Hb as _ ->.
  eapply wrote_trans; [done|].
  assert (∀ b k, b ≠ Subscriptions → bget d' b k = bget tx' b k) as Hf by (intros; by eapply bget_boltPut_ne).
  split; [intros; by apply Hf..| |].
  - intros h. unfold pending. by rw Hf.
  - intros h _ (name & e & Hg & ?). left. exists name, e. by rw Hf.
Qed.

(** What such an operation guarantees, whatever it returns. *)
Record gc_safe s s' : Prop := {
  (** what is live at the end was not touched *)
  gs_live h : live (db s') h → blob s' h = blob s h;
  (** only blobs queued for collection can go *)
  gs_blob h : blob s' h = blob s h ∨ blob s' h = None;
  (** a blob that was indexed is live, queued, or gone *)
  gs_accounted h : h ≠ "" → indexed (db s) h →
    live (db s') h ∨ pending (db s') h ∨ blob s' h = None }.

Lemma gc_safe_write s s1 : physical s1 = physical s → wrote (db s) (db s1) → gc_safe s s1.
Proof.
  intros Hp Hw. assert (∀ h, blob s1 h = blob s h) as Hb by (intros h; unfold blob; by rw Hp).
  split; [auto|auto|]. intros h Hne Hi. destruct (wr_indexed _ _ Hw h Hne Hi); [left; by left|auto].
Qed.

Lemma gc_safe_sweep s s1 r s' :
  physical s1 = physical s → wrote (db s) (db s1) → sweep_effect s1 r s' → gc_safe s s'.
Proof.
  intros Hp Hw [_ Hframe Hblob Hpend Hset _].
  assert (∀ h, blob s1 h = blob s h) as Hb by (intros h; unfold blob; by rw Hp).
  assert (∀ h, live (db s') h ↔ live (db s1) h) as Hl by (intros; by apply live_frame).
  split.
  - intros h Hlive%Hl. rw -Hb. destruct (Hblob h) as [?|(_ & ? & _)]; done.
  - intros h. rw -Hb. destruct (Hblob h) as [?|(_ & _ & ?)]; auto.
  - intros h Hne Hi. rw Hl. destruct (wr_indexed _ _ Hw h Hne Hi) as [?|Hpe]; [left; by left|].
    destruct (bget (db s') PendingBlobGC h) as [v|] eqn:Hv; [right; left; by exists v|].
    destruct (Hset h Hpe) as [?|?]; [|by left|auto]. intros [v Hv']. congruence.
Qed.

(** Appending a step that only touches the outbox. *)
Lemma gc_safe_frame s s1 s' :
  gc_safe s s1 → physical s' = physical s1 →
  (∀ b k, outbox_bucket b = false → bget (db s') b k = bget (db s1) b k) → gc_safe s s'.
Proof.
  intros [G1 G2 G3] Hp Hf.
  assert (∀ h, blob s' h = blob s1 h) as Hb by (intros h; unfold blob; by rw Hp).
  assert (∀ h, live (db s') h ↔ live (db s1) h) as Hl.
  { intros h. unfold live, indexed, used_by_active, used_by_history.
    setoid_rewrite (Hf VfsIndex); [|done]. setoid_rewrite (Hf TasksActive); [|done].
    by setoid_rewrite (Hf TasksHistory). }
  split; intros h; rw Hb ?Hl; [auto|auto|]. unfold pending. rw Hf //. apply G3.
Qed.

Lemma onDB_inv {A} (f : DB → res A * DB) s r s' :
  onDB f s = (r, s') → physical s' = physical s ∧ f (db s) = (r, db s').
Proof. unfold onDB. destruct (f (db s)) as [r1 d1] eqn:Hf. intros [= <- <-]. done. Qed.

Lemma gc_safe_refl s : gc_safe s s.
Proof. apply gc_safe_write; [done|apply wrote_refl]. Qed.

Lemma viewDB_inv {A} (f : DB → res A) s r s' : viewDB f s = (r, s') → s' = s ∧ r = f (db s).
Proof. by intros [= <- <-]. Qed.

Lemma upsertIndexLocked_safe entry s out s' : upsertIndexLocked entry s = (out, s') → gc_safe s s'.
Proof.
  unfold upsertIndexLocked, mbind, st_bind, attempt, GetFileMetaE, viewDB.
  destruct (VFS_Get (db s) (Name entry)); [|intros [= <- <-]; apply gc_safe_refl].
  destruct (onDB (λ d, VFS_Upsert d entry) s) as [r s1] eqn:Hu.
  apply onDB_inv in Hu as [Hp Hu]. apply VFS_Upsert_wrote in Hu.
  destruct r as [[|]|e]; [|intros [= <- <-]; by apply gc_safe_write..].
  destruct (sweepPendingBlobGCLocked s1) as [r2 s2] eqn:Hsw. apply sweep_effect_ok in Hsw.
  intros Hrun. assert (s' = s2) as -> by (destruct r2; by injection Hrun).
  by eapply gc_safe_sweep.
Qed.

Lemma upsertSweep_safe entry s out s' : upsertSweep entry s = (out, s') → gc_safe s s'.
Proof.
  unfold upsertSweep, mbind, st_bind, attempt.
  destruct (onDB (λ d, VFS_upsertAndSubscribe d entry) s) as [r s1] eqn:Hu.
  apply onDB_inv in Hu as [Hp Hu]. apply VFS_upsertAndSubscribe_wrote in Hu.
  destruct r as [w|e]; [|intros [= <- <-]; by apply gc_safe_write].
  destruct (applied w); simpl; [|intros [= <- <-]; by apply gc_safe_write].
  destruct (sweepPendingBlobGCLocked s1) as [r2 s2] eqn:Hsw. apply sweep_effect_ok in Hsw.
  intros Hrun. assert (s' = s2) as -> by (destruct r2; by injection Hrun).
  by eapply gc_safe_sweep.
Qed.

Lemma deleteCommitted_safe meta s out s' : deleteCommitted meta s = (out, s') → gc_safe s s'.
Proof.
  unfold deleteCommitted, mbind, st_bind, attempt.
  destruct (onDB (λ d, VFS_Upsert d meta) s) as [r s1] eqn:Hu.
  apply onDB_inv in Hu as [Hp Hu]. apply VFS_Upsert_wrote in Hu.
  destruct r as [[|]|e]; [|intros [= <- <-]; by apply gc_safe_write..].
  destruct (sweepPendingBlobGCLocked s1) as [r2 s2] eqn:Hsw. apply sweep_effect_ok in Hsw.
  intros Hrun. assert (s' = s2) as -> by (destruct r2; by injection Hrun).
  by eapply gc_safe_sweep.
Qed.
End sweep.

(** ** Operations with a notification *)

Section hooked.
Context {DB : Type} `{!Bolt DB} `{!BoltLaws DB} `{!Digest}.
Context `{!MutationHook DB} `{!MutationHookFrame DB}.
Implicit Types (s : Engine DB).

(** Preparing before and finishing after a safe step is safe. *)
Lemma gc_safe_before s s1 s' :
  physical s1 = physical s →
  (∀ b k, outbox_bucket b = false → bget (db s1) b k = bget (db s) b k) →
  gc_safe s1 s' → gc_safe s s'.
Proof.
  intros Hp Hf [G1 G2 G3].
  assert (∀ h, blob s1 h = blob s h) as Hb by (intros h; unfold blob; by rw Hp).
  split; [intros h; rw -Hb; auto..|]. intros h Hne (name & e & Hg & ?). apply G3; [done|].
  exists name, e. by rw Hf.
Qed.

Lemma finish_safe t c s s1 r s' :
  gc_safe s s1 → finishNotification t c s1 = (r, s') → gc_safe s s'.
Proof.
  unfold finishNotification. intros Hg [Hp Hf]%onDB_inv. eapply gc_safe_frame; [done|done|].
  intros b k Hb. pose proof (hook_finish_frame t c (db s1) b k Hb) as Hfr.
  destruct (hook_finish t c (db s1)) as [e d']. injection Hf as _ <-. done.
Qed.

Lemma prepare_frame entry s r s1 :
  prepareMutationNotification entry s = (r, s1) →
  physical s1 = physical s ∧ ∀ b k, outbox_bucket b = false → bget (db s1) b k = bget (db s) b k.
Proof.
  unfold prepareMutationNotification. intros [Hp Hf]%onDB_inv. split; [done|]. intros b k Hb.
  pose proof (hook_prepare_frame entry (db s) b k Hb) as Hfr. by rw Hf in Hfr.
Qed.

Lemma DeleteLocalFile_safe name s r s' : DeleteLocalFile name s = (r, s') → gc_safe s s'.
Proof.
  unfold DeleteLocalFile, GetFileMetaE, mbind, st_bind, viewDB.
  destruct (VFS_Get (db s) name) as [[entry|]|]; [|intros [= <- <-]; apply gc_safe_refl..].
  destruct (prepareMutationNotification (tombstone entry) s) as [p s1] eqn:Hprep.
  apply prepare_frame in Hprep as [Hp Hf].
  destruct p as [t|e]; [|intros [= <- <-]; apply gc_safe_write; [done|by apply wrote_frame]].
  destruct (deleteCommitted (tombstone entry) s1) as [out s2] eqn:Hdel.
  pose proof (gc_safe_before _ _ _ Hp Hf (deleteCommitted_safe _ _ _ _ Hdel)) as Hg.
  destruct out as [[committed err]|e]; [|by intros [= <- <-]].
  destruct (finishNotification t committed s2) as [fe s3] eqn:Hfin.
  pose proof (finish_safe _ _ _ _ _ _ Hg Hfin) as Hg3.
  destruct fe as [fe|e]; [|by intros [= <- <-]]. by intros [-> _]%return_error_inv.
Qed.

Lemma upsertNotified_safe entry s out s' : upsertNotified entry s = (out, s') → gc_safe s s'.
Proof.
  unfold upsertNotified, mbind, st_bind, attempt.
  destruct (prepareMutationNotification entry s) as [p s1] eqn:Hprep.
  apply prepare_frame in Hprep as [Hp Hf].
  destruct p as [t|er]; [|intros [= <- <-]; apply gc_safe_write; [done|by apply wrote_frame]].
  destruct (upsertSweep entry s1) as [o s2] eqn:Hup.
  pose proof (gc_safe_before _ _ _ Hp Hf (upsertSweep_safe _ _ _ _ Hup)) as Hg.
  destruct o as [[result err]|er]; [|by intros [= <- <-]].
  destruct (finishNotification t (applied result) s2) as [fe s3] eqn:Hfin.
  pose proof (finish_safe _ _ _ _ _ _ Hg Hfin) as Hg3. destruct fe; by intros [= <- <-].
Qed.

Lemma upsertAndSubscribeLocked_safe entry notify s out s' :
  upsertAndSubscribeLocked entry notify s = (out, s') → gc_safe s s'.
Proof.
  unfold upsertAndSubscribeLocked. destruct notify; [|apply upsertSweep_safe].
  unfold GetFileMetaE, mbind, st_bind, viewDB, attempt.
  destruct (VFS_Get (db s) (Name entry)) as [[cur|]|e]; [|apply upsertNotified_safe|].
  - destruct (_ && _); [intros [= <- <-]; apply gc_safe_refl|apply upsertNotified_safe].
  - intros [= <- <-]. apply gc_safe_refl.
Qed.
End hooked.

(** ** What the sweep guarantees *)

Section sweep_claims.
Context {DB : Type} `{!Bolt DB} `{!BoltLaws DB} `{!Digest}.

(** The sweep leaves every blob that a live index entry, an active task
    or the history of a task refers to as it is, whatever fails. *)
Theorem sweep_keeps_live_blobs (s : Engine DB) r s' h :
  sweepPendingBlobGCLocked s = (r, s') → live (db s) h → blob s' h = blob s h.
Proof. intros He%sweep_effect_ok Hl. destruct (se_blob _ _ _ He h) as [?|(_ & ? & _)]; done. Qed.

(** A sweep that reports success has emptied the queue and removed every
    queued blob that nothing refers to; metadata other than the queue is
    not written. *)
Theorem sweep_success_settles (s : Engine DB) s' :
  sweepPendingBlobGCLocked s = (Ok (), s') →
  (∀ h, ¬ pending (db s') h) ∧
  (∀ h, pending (db s) h → ¬ live (db s) h → blob s' h = None) ∧
  (∀ b k, b ≠ PendingBlobGC → bget (db s') b k = bget (db s) b k).
Proof.
  intros [_ Hf _ _ Hset Hdone]%sweep_effect_ok. split_and!; [by apply Hdone| |done].
  intros h Hp Hl. destruct (Hset h Hp) as [?|?]; [by apply Hdone|done|done].
Qed.
End sweep_claims.

(** ** A concrete engine *)

#[export] Instance memdb_noHook : MutationHook memdb := noHook memdb.

#[export] Instance memdb_noHook_frame : MutationHookFrame memdb.
Proof. by split. Qed.

(** A directory with one file, no faults. *)
Definition disk_with (files : gmap string inode) : FS :=
  {| files := files; now := 0; tick := 0; fault _ _ _ := false; tempSuffix _ := "0" |}.

Definition engine_with (d : memdb) (files : gmap string inode) : Engine memdb :=
  {| physical := {| fs := disk_with files; blobCache := ∅; verified := ∅ |};
     db := d; nextDownloadID := 0; activeDownloads := ∅; onDownloadNeeded := None |}.

(** A database with [hash] queued for collection. *)
Definition queued_db (hash : string) : memdb :=
  (Update memdb_init (λ tx, tx' ← boltPut tx PendingBlobGC hash flagBytes; Ok ((), tx'))).2.

Definition indexed_db (e : IndexEntry) : memdb := (VFS_Upsert memdb_init e).2.

Definition file_a : IndexEntry :=
  {| Name := "a"; Size := 1; Hash := "h"; Version := 1; Deleted := false |}.

Definition swept_a : res unit * Engine memdb :=
  sweepPendingBlobGCLocked (engine_with (indexed_db file_a) {["h" := Regular "x" 0]}).

Lemma sweep_keeps_live_blobs_witness : blob swept_a.2 "h" = Some (Regular "x" 0).
Proof.
  rewrite ->(sweep_keeps_live_blobs (engine_with (indexed_db file_a) {["h" := Regular "x" 0]})
               swept_a.1 swept_a.2 "h"); [by vm_compute|apply surjective_pairing|].
  left. exists "a", file_a. by vm_compute.
Defined.

Lemma sweep_success_settles_witness :
  blob (sweepPendingBlobGCLocked (engine_with (queued_db "h") {["h" := Regular "x" 0]})).2 "h" = None.
Proof.
  apply (sweep_success_settles (engine_with (queued_db "h") {["h" := Regular "x" 0]})); [by vm_compute|..].
  - exists flagBytes. by vm_compute.
  - intros [(? & ? & Hg & _)|[(? & ? & Hg & _)|(? & ? & Hg & _)]]; vm_compute in Hg; done.
Defined.
