(* ===== verification/Downloads.v ===== *)
(** * Download intents

    The durable intents and volatile reservations of [Engine.v]: what the
    engine promises about a file it has to fetch. *)
From Stdlib Require Import Ascii.
From S2P Require Import Prelude GoStrings Json Protocol Bolt Vfs Sha256 Physical Journal Engine Gc.

(** ** Intent keys *)

Lemma base64_digit_inj a b : (a < 64)%N → (b < 64)%N → base64_digit a = base64_digit b → a = b.
Proof.
  intros Ha Hb.
  assert (∀ x y, x ∈ seq 0 64 → y ∈ seq 0 64 →
    base64_digit (N.of_nat x) = base64_digit (N.of_nat y) → x = y) as Hall.
  { assert (Forall (λ x, Forall (λ y, bool_decide (base64_digit (N.of_nat x) = base64_digit (N.of_nat y) → x = y))
      (seq 0 64)) (seq 0 64)) as Hf by (apply (bool_decide_unpack _); vm_compute; exact I).
    intros x y Hx Hy. rewrite ->Forall_forall in Hf. specialize (Hf x Hx). rewrite ->Forall_forall in Hf.
    specialize (Hf y Hy). by apply bool_decide_unpack in Hf. }
  intros He. specialize (Hall (N.to_nat a) (N.to_nat b)). rewrite ->!N2Nat.id in Hall.
  apply N2Nat.inj, Hall; [apply elem_of_seq; lia..|done].
Qed.

Definition is_byte (n : N) : Prop := (n < 256)%N.

(** Division by constants, for [lia]. *)
Ltac div_lia := zify; Z.to_euclidean_division_equations; lia.

Section digits.
Local Open Scope N_scope.
Implicit Types a b c : N.

Lemma digit_high a : is_byte a → a / 4 < 64.
Proof. unfold is_byte. intros. div_lia. Qed.
Lemma digit_pair a b : is_byte b → a mod 4 * 16 + b / 16 < 64.
Proof. unfold is_byte. intros. div_lia. Qed.
Lemma digit_pair_end a : a mod 4 * 16 < 64.
Proof. div_lia. Qed.
Lemma digit_triple b c : is_byte c → b mod 16 * 4 + c / 64 < 64.
Proof. unfold is_byte. intros. div_lia. Qed.
Lemma digit_triple_end b : b mod 16 * 4 < 64.
Proof. div_lia. Qed.
Lemma digit_low c : c mod 64 < 64.
Proof. div_lia. Qed.

(** Six-bit digits determine the bytes. *)
Lemma first_byte a a' b b' : is_byte b → is_byte b' →
  a / 4 = a' / 4 → a mod 4 * 16 + b / 16 = a' mod 4 * 16 + b' / 16 → a = a' ∧ b / 16 = b' / 16.
Proof. unfold is_byte. intros. split; div_lia. Qed.
Lemma second_byte b b' c c' : is_byte c → is_byte c' →
  b / 16 = b' / 16 → b mod 16 * 4 + c / 64 = b' mod 16 * 4 + c' / 64 → b = b' ∧ c / 64 = c' / 64.
Proof. unfold is_byte. intros. split; div_lia. Qed.
Lemma last_byte c c' : c / 64 = c' / 64 → c mod 64 = c' mod 64 → c = c'.
Proof. intros. div_lia. Qed.
Lemma first_byte_end a a' : a / 4 = a' / 4 → a mod 4 * 16 = a' mod 4 * 16 → a = a'.
Proof. intros. div_lia. Qed.
Lemma second_byte_end b b' : b / 16 = b' / 16 → b mod 16 * 4 = b' mod 16 * 4 → b = b'.
Proof. intros. div_lia. Qed.
End digits.
#[local] Hint Resolve digit_high digit_pair digit_pair_end digit_triple digit_triple_end digit_low : core.

(** Induction by groups of three bytes. *)
Lemma group_ind (P : list N → Prop) :
  P [] → (∀ a, P [a]) → (∀ a b, P [a; b]) → (∀ a b c l, P l → P (a :: b :: c :: l)) → ∀ l, P l.
Proof.
  intros H0 H1 H2 H3. fix IH 1. intros [|a [|b [|c l]]]; [done|auto|auto|]. apply H3, IH.
Qed.

Lemma base64_encode_inj l l' :
  Forall is_byte l → Forall is_byte l' → base64_encode l = base64_encode l' → l = l'.
Proof.
  revert l'. induction l as [|a|a b|a b c l IH] using group_ind; intros [|a' [|b' [|c' l']]] Hl Hl';
    cbn [base64_encode]; intros He; try discriminate He; [done|..].
  - apply Forall_cons in Hl as [Hl _], Hl' as [Hl' _]. injection He as E1 E2. apply base64_digit_inj in E1, E2; auto.
    f_equal. by apply first_byte_end.
  - apply Forall_cons in Hl as [Ha [Hb _]%Forall_cons], Hl' as [Ha' [Hb' _]%Forall_cons].
    injection He as E1 E2 E3. apply base64_digit_inj in E1, E2, E3; auto.
    destruct (first_byte a a' b b') as [-> E4]; auto. do 2 f_equal. by apply second_byte_end.
  - apply Forall_cons in Hl as [Ha [Hb [Hc Hl]%Forall_cons]%Forall_cons].
    apply Forall_cons in Hl' as [Ha' [Hb' [Hc' Hl']%Forall_cons]%Forall_cons].
    injection He as E1 E2 E3 E4 He. apply base64_digit_inj in E1, E2, E3, E4; auto.
    destruct (first_byte a a' b b') as [-> E5]; auto. destruct (second_byte b b' c c') as [-> E6]; auto.
    do 2 f_equal. f_equal; [by apply last_byte|]. by apply IH.
Qed.

Lemma bytes_of_byte s : Forall is_byte (bytes_of s).
Proof.
  unfold bytes_of. apply Forall_fmap, Forall_true. intros c. apply N_ascii_bounded.
Qed.

Lemma bytes_of_inj s s' : bytes_of s = bytes_of s' → s = s'.
Proof.
  unfold bytes_of. revert s'. induction s as [|c s IH]; intros [|c' s']; simpl; try done.
  intros [= Hc Hs]. f_equal; [|by apply IH].
  rewrite <-(ascii_N_embedding c), <-(ascii_N_embedding c'). by rw Hc.
Qed.

(** Different names have different intent keys. *)
Lemma intentKey_inj name name' :
  downloadIntentStorageKey name = downloadIntentStorageKey name' → name = name'.
Proof. intros He. apply bytes_of_inj, base64_encode_inj; [apply bytes_of_byte..|done]. Qed.

(** ** Reservations *)

Section downloads.
Context {DB : Type} `{!Bolt DB} `{!BoltLaws DB}.
Implicit Types (s : Engine DB) (file : IndexEntry).
Abbreviation key := downloadIntentStorageKey.

Definition intent_at (d : DB) (name : string) : option downloadIntent :=
  match bget d DownloadIntents (key name) with Some (JDoc i) => Some i | _ => None end.

Definition reserved s (name : string) : option IndexEntry :=
  (λ a, IntentFile (ActiveIntent a)) <$> activeDownloads s !! key name.

Lemma releaseDownloadIntent_spec file s r s' :
  releaseDownloadIntent file s = (r, s') →
  r = Ok () ∧ db s' = db s ∧ physical s' = physical s ∧
  (∀ k a, activeDownloads s !! k = Some a → IntentFile (ActiveIntent a) ≠ file → activeDownloads s' !! k = Some a) ∧
  reserved s' (Name file) ≠ Some file.
Proof.
  unfold releaseDownloadIntent, modify, reserved. intros [= <- <-].
  destruct (activeDownloads s !! key (Name file)) as [a|] eqn:Ha; [case_bool_decide as Hf|].
  - split_and!; [done..| |].
    + intros k a' Hk Hne. simpl. rw lookup_delete_ne; [done|]. intros <-. congruence.
    + simpl. by rw lookup_delete_eq.
  - split_and!; [done..|]. rw Ha. simpl. congruence.
  - split_and!; [done..|]. by rw Ha.
Qed.

Record completed file s (r : res unit) s' : Prop := {
  cd_physical : physical s' = physical s;
  cd_frame b k : b ≠ DownloadIntents → bget (db s') b k = bget (db s) b k;
  cd_intents k : bget (db s') DownloadIntents k = bget (db s) DownloadIntents k ∨
    k = key (Name file) ∧ ∃ i, bget (db s) DownloadIntents k = Some (JDoc i) ∧ IntentFile i = file;
  cd_active k a : activeDownloads s !! k = Some a → IntentFile (ActiveIntent a) ≠ file →
    activeDownloads s' !! k = Some a;
  cd_done : r = Ok () →
    (∀ i, intent_at (db s') (Name file) = Some i → IntentFile i ≠ file) ∧ reserved s' (Name file) ≠ Some file }.

Lemma completeDownloadIntent_completed file s r s' :
  completeDownloadIntent file s = (r, s') → completed file s r s'.
Proof.
  unfold completeDownloadIntent, mbind at 1, st_bind.
  destruct (update _ s) as [u s1] eqn:Hu. apply update_inv in Hu as (Hp & Ha & Hu).
  destruct Hu as [[-> Hbody]|[[e ->] Hd]].
  2: { intros [= <- <-]. split; try done; intros; rw ?Hd; auto. by rw Ha. }
  intros (-> & Hdb & Hp2 & Hact & Hres)%releaseDownloadIntent_spec.
  assert ((∀ b k, b ≠ DownloadIntents → bget (db s1) b k = bget (db s) b k) ∧
    (∀ k, bget (db s1) DownloadIntents k = bget (db s) DownloadIntents k ∨
      k = key (Name file) ∧ ∃ i, bget (db s) DownloadIntents k = Some (JDoc i) ∧ IntentFile i = file) ∧
    (∀ i, intent_at (db s1) (Name file) = Some i → IntentFile i ≠ file)) as (H1 & H2 & H3).
  { destruct (boltBucket (db s) DownloadIntents); simpl in Hbody; [|done].
    destruct (bget (db s) DownloadIntents (key (Name file))) as [[i|]|] eqn:Hg; simpl in Hbody; [|done|].
    2: { injection Hbody as <-. split_and!; [done|by left|]. unfold intent_at. by rw Hg. }
    case_bool_decide as Hi.
    - split_and!.
      + intros b k Hne. by eapply bget_del_ne.
      + intros k. rw (bget_del _ _ _ _ _ Hbody). case_decide as Hk; [subst; right; eauto|by left].
      + unfold intent_at. rw (bget_del _ _ _ _ _ Hbody). by rw decide_True.
    - injection Hbody as <-. split_and!; [done|by left|]. unfold intent_at. rw Hg. congruence. }
  split; rw ?Hdb; [congruence|done|done| |done]. intros k a Hk. apply Hact. by rw Ha.
Qed.

(** A reservation, and the outcome of the callback. *)
Lemma enqueueDownloadIntent_spec k intent s r s' :
  enqueueDownloadIntent k intent s = (r, s') →
  db s' = db s ∧ physical s' = physical s ∧
  (∀ k', k' ≠ k → activeDownloads s' !! k' = activeDownloads s !! k') ∧
  match r with
  | Ok _ => ∃ a, activeDownloads s' !! k = Some a ∧ IntentFile (ActiveIntent a) = IntentFile intent
  | Err _ => activeDownloads s' !! k = None
  end.
Proof.
  unfold enqueueDownloadIntent, mbind, st_bind, reserveDownload.
  set (token := nextToken (nextDownloadID s)).
  set (s1 := with_downloads token (<[k := {| ActiveIntent := intent; Token := token |}]> (activeDownloads s)) s).
  assert (invokeDownloadCallback k intent token s1 = (r, s') →
    db s' = db s ∧ physical s' = physical s ∧
    (∀ k', k' ≠ k → activeDownloads s' !! k' = activeDownloads s !! k') ∧
    match r with
    | Ok _ => ∃ a, activeDownloads s' !! k = Some a ∧ IntentFile (ActiveIntent a) = IntentFile intent
    | Err _ => activeDownloads s' !! k = None
    end) as Hfresh.
  { unfold invokeDownloadCallback, mbind, st_bind, gets, rollbackDownloadReservation, modify, fail, mret, st_ret.
    assert (activeDownloads s1 !! k = Some {| ActiveIntent := intent; Token := token |}) as Hk
      by apply lookup_insert_eq.
    assert (∀ k', k' ≠ k → activeDownloads s1 !! k' = activeDownloads s !! k') as Hne.
    { intros k' ?. by apply lookup_insert_ne. }
    assert (∀ k', k' ≠ k → delete k (activeDownloads s1) !! k' = activeDownloads s !! k') as Hne'.
    { intros k' ?. rw lookup_delete_ne //. by apply Hne. }
    destruct (onDownloadNeeded s1) as [call|]; [destruct (call _ _ _)|]; cbv beta; rw ?Hk;
      cbn [Token]; rw ?N.eqb_refl; intros [= <- <-];
      (split_and!; [done|done|done|]); first [apply lookup_delete_eq|by eexists]. }
  destruct (activeDownloads s !! k) as [a|] eqn:Hk; [case_bool_decide as Hf|]; [|exact Hfresh..].
  intros [= <- <-]. split_and!; try done. by exists a.
Qed.

Record requested file (source : string) s (r : res unit) s' : Prop := {
  rq_physical : physical s' = physical s;
  rq_frame b k : b ≠ DownloadIntents → bget (db s') b k = bget (db s) b k;
  rq_others name : name ≠ Name file → intent_at (db s') name = intent_at (db s) name;
  rq_ok : r = Ok () →
    index_of (db s) (Name file) = Some file ∧ Deleted file = false ∧
    is_Some (bget (db s) Subscriptions (Name file)) ∧
    intent_at (db s') (Name file) = Some {| IntentFile := file; IntentSource := source |} ∧
    reserved s' (Name file) = Some file;
  rq_err e : r = Err e →
    intent_at (db s') (Name file) = intent_at (db s) (Name file) ∧ reserved s' (Name file) = reserved s (Name file) ∨
    intent_at (db s') (Name file) = Some {| IntentFile := file; IntentSource := source |} ∧
    reserved s' (Name file) = None }.

Lemma requestTx_ok file source tx tx' :
  (current ← indexGetTx tx (Name file);
   match current with
   | Some cur =>
       if negb (bool_decide (cur = file)) || Deleted cur then Err (ESentinel ErrBlobDiscarded)
       else
         subscribed ← boltHasKey tx Subscriptions (Name file);
         if negb subscribed then Err (ESentinel ErrBlobDiscarded)
         else
           _ ← boltBucket tx DownloadIntents;
           bput tx DownloadIntents (key (Name file)) (JDoc {| IntentFile := file; IntentSource := source |})
   | None => Err (ESentinel ErrBlobDiscarded)
   end) = Ok tx' →
  index_of tx (Name file) = Some file ∧ Deleted file = false ∧ is_Some (bget tx Subscriptions (Name file)) ∧
  bput tx DownloadIntents (key (Name file)) (JDoc {| IntentFile := file; IntentSource := source |}) = Ok tx'.
Proof.
  destruct (indexGetTx tx (Name file)) as [[cur|]|] eqn:Hg; simpl; try done.
  apply indexGetTx_Some in Hg. case_bool_decide as Hcur; simpl; [subst cur|done].
  destruct (Deleted file) eqn:Hdel; [done|].
  unfold boltHasKey. destruct (boltBucket tx Subscriptions); simpl; [|done].
  case_bool_decide as Hsub; simpl; [|done]. destruct (boltBucket tx DownloadIntents); simpl; done.
Qed.

Lemma requestRemoteDownload_requested file source s r s' :
  requestRemoteDownload file source s = (r, s') → requested file source s r s'.
Proof.
  unfold requestRemoteDownload, mbind at 1, st_bind at 1, attempt.
  destruct (update _ s) as [u s1] eqn:Hu. apply update_inv in Hu as (Hp & Ha & Hu).
  destruct Hu as [[-> Hbody]|[[e ->] Hd]].
  2: { assert (∀ e', requested file source s (Err e') s1) as Herr.
       { intros e'. split; try done; intros; rw ?Hd //. left. unfold reserved. by rw Ha. }
       destruct (errors_Is e ErrBlobDiscarded); intros [= <- <-]; apply Herr. }
  apply requestTx_ok in Hbody as (Hidx & Hdel & Hsub & Hput).
  assert (∀ name, intent_at (db s1) name = if decide (name = Name file)
    then Some {| IntentFile := file; IntentSource := source |} else intent_at (db s) name) as Hint.
  { intros name. unfold intent_at. rw (bget_put _ _ _ _ _ _ Hput).
    destruct (decide (name = Name file)) as [->|Hne]; [by rw decide_True|]. rw decide_False //.
    intros He. by apply Hne, intentKey_inj. }
  intros (Hdb & Hp2 & Hne & Hr)%enqueueDownloadIntent_spec.
  split; rw ?Hdb; [congruence| | | |].
  - intros b k ?. by eapply bget_put_ne.
  - intros name ?. rw Hint. by rw decide_False.
  - intros ->. destruct Hr as (a & Hk & Hf). rw Hint decide_True //. unfold reserved. rw Hk /= Hf. done.
  - intros e ->. right. rw Hint decide_True //. unfold reserved. by rw Hr.
Qed.

(** ** Receiving a blob *)

Context `{!Digest}.

Lemma onPhysical_run {A} (m : ST Storage A) P Q s r s' :
  hoare P m Q → P (physical s) → onPhysical m s = (r, s') → Q r (physical s') ∧ db s' = db s.
Proof. intros Hm HP (st' & Hrun & ->)%onPhysical_inv. split; [by eapply Hm|done]. Qed.

Lemma discard_db b s r s' : discard b s = (r, s') → db s' = db s.
Proof.
  unfold discard, mbind, st_bind, attempt. destruct (onPhysical (Discard b) s) as [x s1] eqn:Hd.
  apply onPhysical_inv in Hd as (st & _ & ->). by intros [= _ <-].
Qed.

Lemma discard_finalized b s r s' :
  sbDone b = true → discard b s = (r, s') → physical s' = physical s.
Proof.
  intros Hdone. unfold discard, mbind, st_bind, attempt, onPhysical, Discard. rw Hdone. by intros [= _ <-].
Qed.

Lemma installStaged_ok F content staged f g s created s' :
  good F (physical s) → staged_blob content staged (physical s) →
  installStaged staged f g s = (Ok created, s') →
  good F (physical s') ∧ authentic (physical s') (sbHash staged) ∧ db s' = db s.
Proof.
  intros Hg (data & mtime & -> & Hh & Hsz & Hdone & Ht & Hst).
  destruct (install_ne (tempPath staged) (sbHash staged) data Ht (eq_sym Hh)) as [Hn1 Hn2].
  assert (IsValidCASHash (sbHash staged) = true) as Hv by (rw Hh; apply sha256_hex_valid).
  unfold installStaged. unfold mbind at 1, st_bind at 1, attempt at 1.
  destruct (onPhysical (Prepare staged) s) as [p s1] eqn:Hp.
  destruct (onPhysical_run _ _ _ _ _ _ (hoare_and _ _ _ _ _ (good_Prepare F staged Hv)
    (holds_Prepare (tempPath staged) (Regular data mtime) staged Hn1 Hn2)) (conj Hg Hst) Hp) as [HQ1 Hd1].
  destruct p as [[]|e].
  2: { intros Hrun. exfalso. revert Hrun. by apply never_ok_bind. }
  unfold mbind at 1, st_bind at 1, attempt at 1.
  destruct (onPhysical (Commit staged) s1) as [c s2] eqn:Hc.
  destruct (onPhysical_run _ _ _ _ _ _ (good_Commit F staged data mtime Hdone Hh Ht) HQ1 Hc) as [[Hg2 HC] Hd2].
  destruct c as [[cr b']|e].
  2: { intros Hrun. exfalso. revert Hrun. by apply never_ok_bind. }
  destruct (HC cr b' eq_refl) as (-> & Ha & _). unfold mbind, st_bind.
  destruct (discard (finalized staged) s2) as [x s3] eqn:Hd.
  pose proof (discard_db _ _ _ _ Hd) as Hd3. apply discard_finalized in Hd; [|done].
  destruct x; [|done]. intros [= <- <-]. rw Hd. split_and!; [done|done|congruence].
Qed.

Lemma applyDownloaded_ok info created s s' :
  applyDownloaded info created s = (Ok (), s') →
  ∃ entry, index_of (db s) (Name info) = Some entry ∧ still_wanted info entry = true ∧
    completed info s (Ok ()) s'.
Proof.
  unfold applyDownloaded, GetFileMetaE, mbind, st_bind, attempt, viewDB, VFS_Get, View.
  destruct (indexGetTx (db s) (Name info)) as [current|e] eqn:Hget.
  - apply indexGetTx_Some in Hget.
    destruct current as [entry|]; [destruct (still_wanted info entry) eqn:Hw|].
    + intros Hc%completeDownloadIntent_completed. by exists entry.
    + destruct (deleteBlobIfOrphan (Hash info) false s) as [g s1].
      destruct (completeDownloadIntent info s1) as [c s2].
      unfold errors_Join. simpl. by intros.
    + destruct (deleteBlobIfOrphan (Hash info) false s) as [g s1].
      destruct (completeDownloadIntent info s1) as [c s2].
      unfold errors_Join. simpl. by intros.
  - destruct (compensatePhysicalBlob (Hash info) created s) as [[u|ce] s1]; by intros.
Qed.

Lemma StoreRemoteBlob_cases info content s s' :
  cas_inv (physical s) → StoreRemoteBlob info content s = (Ok (), s') →
  ∃ data entry, content = Ok data ∧ sha256_hex data = Hash info ∧
    index_of (db s) (Name info) = Some entry ∧ still_wanted info entry = true ∧
    authentic (physical s') (Hash info) ∧
    (∀ i, intent_at (db s') (Name info) = Some i → IntentFile i ≠ info).
Proof.
  intros Hi. unfold StoreRemoteBlob. unfold mbind at 1, st_bind at 1, attempt at 1.
  destruct (onPhysical (StageBlob content) s) as [st s1] eqn:Hst.
  destruct (onPhysical_run _ _ _ _ _ _ (good_StageBlob ∅ content) (proj1 (good_empty _) Hi) Hst)
    as [[Hg1 Hs1] Hd1].
  destruct st as [staged|e]; [|by unfold mbind, st_bind, releaseDownloadIntent, modify].
  case_bool_decide as Hhash; simpl.
  2: { intros Hrun. exfalso. revert Hrun. apply never_ok_bind. intros _. by apply never_ok_bind. }
  specialize (Hs1 staged eq_refl). unfold mbind at 1, st_bind at 1, attempt at 1.
  destruct (installStaged staged _ _ s1) as [c s2] eqn:Hc.
  destruct c as [created|e]; [|by unfold mbind, st_bind, releaseDownloadIntent, modify].
  destruct (installStaged_ok ∅ _ _ _ _ _ _ _ Hg1 Hs1 Hc) as (_ & Ha & Hd2).
  intros (entry & Hidx & Hw & [Hp _ _ _ Hdone])%applyDownloaded_ok.
  destruct Hs1 as (data & mtime & -> & Hh & _).
  exists data, entry. rw -Hd1 -Hd2. rw Hhash in Ha. split_and!; [done|congruence|done|done| |].
  - unfold authentic in *. by rw Hp.
  - by apply Hdone.
Qed.
End downloads.

(** ** What downloads guarantee *)

Section download_claims.
Context {DB : Type} `{!Bolt DB} `{!BoltLaws DB} `{!Digest}.
Implicit Types (s : Engine DB) (file : IndexEntry).

(** Completing a download forgets the intent and the reservation of that
    exact revision only: an intent or a reservation for another revision of
    the same name, or for another name, stays; on success none is left for
    the completed one. *)
Theorem completeDownloadIntent_exact file s r s' :
  completeDownloadIntent file s = (r, s') →
  (∀ name i, intent_at (db s) name = Some i → IntentFile i ≠ file → intent_at (db s') name = Some i) ∧
  (∀ name e, reserved s name = Some e → e ≠ file → reserved s' name = Some e) ∧
  (r = Ok () → (∀ i, intent_at (db s') (Name file) = Some i → IntentFile i ≠ file) ∧
               reserved s' (Name file) ≠ Some file).
Proof.
  intros [_ _ Hint Hact Hdone]%completeDownloadIntent_completed. split_and!; [| |done].
  - intros name i Hi Hne. unfold intent_at in *.
    destruct (Hint (downloadIntentStorageKey name)) as [->|(_ & i' & Hg & Hf)]; [done|].
    rw Hg in Hi. congruence.
  - intros name e. unfold reserved. intros (a & Ha & ->)%fmap_Some Hne. by rw (Hact _ a Ha Hne).
Qed.

(** A download request either changes no intent, or leaves a durable
    intent for exactly the current, live, subscribed revision it was made
    for; when the queue refuses it, the intent stays for a later attempt and
    no reservation is left behind.  Intents of other names are untouched. *)
Theorem requestRemoteDownload_durable file source s r s' :
  requestRemoteDownload file source s = (r, s') →
  (∀ name, name ≠ Name file → intent_at (db s') name = intent_at (db s) name) ∧
  match r with
  | Ok _ =>
      index_of (db s) (Name file) = Some file ∧ Deleted file = false ∧
      is_Some (bget (db s) Subscriptions (Name file)) ∧
      intent_at (db s') (Name file) = Some {| IntentFile := file; IntentSource := source |} ∧
      reserved s' (Name file) = Some file
  | Err _ =>
      intent_at (db s') (Name file) = intent_at (db s) (Name file) ∧
        reserved s' (Name file) = reserved s (Name file) ∨
      intent_at (db s') (Name file) = Some {| IntentFile := file; IntentSource := source |} ∧
        reserved s' (Name file) = None
  end.
Proof.
  intros [_ _ Hoth Hok Herr]%requestRemoteDownload_requested. split; [done|].
  destruct r as [[]|e]; [by apply Hok|by apply (Herr e)].
Qed.

(** C36: a blob is accepted for a remote entry only when its content has the
    advertised digest and the entry is still the current, live one; the file
    on disk is then authentic and the intent is settled. *)
Theorem StoreRemoteBlob_sound info content s s' :
  reachable (physical s) → StoreRemoteBlob info content s = (Ok (), s') →
  ∃ data entry, content = Ok data ∧ sha256_hex data = Hash info ∧
    index_of (db s) (Name info) = Some entry ∧ Version entry = Version info ∧ Hash entry = Hash info ∧
    Deleted entry = false ∧ authentic (physical s') (Hash info) ∧
    (∀ i, intent_at (db s') (Name info) = Some i → IntentFile i ≠ info).
Proof.
  intros Hr%reachable_inv Hrun.
  destruct (StoreRemoteBlob_cases info content s s' Hr Hrun) as (data & entry & ? & ? & ? & Hw & ? & ?).
  exists data, entry. unfold still_wanted in Hw.
  repeat (apply andb_true_iff in Hw as [Hw ?]). repeat match goal with H : bool_decide _ = true |- _ =>
    apply bool_decide_eq_true in H end. split_and!; try done. by apply negb_true_iff.
Qed.

(** A refused attempt that lost its reservation to a newer revision does
    not cancel the newer one, as long as the 64-bit tokens do not wrap. *)
Theorem stale_rollback_keeps_newer k i1 i2 t1 t2 s s1 s2 s3 :
  (nextDownloadID s + 2 < 2 ^ 64)%N →
  reserveDownload k i1 s = (Ok (t1, true), s1) → reserveDownload k i2 s1 = (Ok (t2, true), s2) →
  rollbackDownloadReservation k t1 s2 = (Ok (), s3) →
  activeDownloads s3 !! k = Some {| ActiveIntent := i2; Token := t2 |}.
Proof.
  intros Hroom.
  assert (∀ n, (n + 1 < 2 ^ 64)%N → nextToken n = (n + 1)%N) as Hnext.
  { intros n Hn. unfold nextToken. rw N.mod_small // (proj2 (N.eqb_neq _ _)) //. lia. }
  assert (∀ i t (a b : Engine DB), reserveDownload k i a = (Ok (t, true), b) →
    t = nextToken (nextDownloadID a) ∧ nextDownloadID b = t ∧
    activeDownloads b !! k = Some {| ActiveIntent := i; Token := t |}) as Hres.
  { intros i t a b. unfold reserveDownload.
    destruct (activeDownloads a !! k) as [x|]; [case_bool_decide; [done|]|]; intros [= <- <-];
      (split_and!; [done|done|apply lookup_insert_eq]). }
  intros (-> & Hn1 & _)%Hres (-> & Hn2 & Hk)%Hres. unfold rollbackDownloadReservation, modify.
  rw Hk. simpl. rw Hn1 !Hnext; [|lia..]. rw (proj2 (N.eqb_neq _ _)); [|lia]. intros [= <-].
  by rw Hk Hn1 !Hnext; [|lia..].
Qed.
End download_claims.

(** ** Witnesses *)

Definition wanted : IndexEntry :=
  {| Name := "f"; Size := 3; Hash := sha256_digest "abc"; Version := 1; Deleted := false |}.

Definition wanted_engine : Engine memdb :=
  {| physical := NewStorage (disk_with ∅); db := (VFS_upsertAndSubscribe memdb_init wanted).2;
     nextDownloadID := 0; activeDownloads := ∅; onDownloadNeeded := Some (λ _ _ _, None) |}.

Definition requested_engine : Engine memdb := (requestRemoteDownload wanted "peer" wanted_engine).2.

Lemma completeDownloadIntent_exact_witness :
  reserved (completeDownloadIntent wanted requested_engine).2 "f" ≠ Some wanted.
Proof.
  destruct (completeDownloadIntent wanted requested_engine) as [r s'] eqn:Hrun.
  apply (completeDownloadIntent_exact wanted requested_engine r s' Hrun).
  assert (r = (completeDownloadIntent wanted requested_engine).1) as -> by (by rewrite ->Hrun).
  by vm_compute.
Defined.

Lemma requestRemoteDownload_durable_witness :
  intent_at (db requested_engine) "f" = Some {| IntentFile := wanted; IntentSource := "peer" |}.
Proof.
  assert ((requestRemoteDownload wanted "peer" wanted_engine).1 = Ok ()) as Hrun%run_result by (vm_compute; reflexivity).
  apply (requestRemoteDownload_durable wanted "peer" _ _ _ Hrun).
Defined.

Definition stored_engine : Engine memdb := (StoreRemoteBlob wanted (Ok "abc") requested_engine).2.

Lemma requested_engine_disk : reachable (physical requested_engine).
Proof.
  assert (physical requested_engine = NewStorage (disk_with ∅)) as -> by (by vm_compute). apply reachable_new.
Qed.

Lemma StoreRemoteBlob_sound_witness : authentic (physical stored_engine) (Hash wanted).
Proof.
  assert ((StoreRemoteBlob wanted (Ok "abc") requested_engine).1 = Ok ()) as Hrun%run_result by (vm_compute; reflexivity).
  destruct (StoreRemoteBlob_sound wanted (Ok "abc") requested_engine stored_engine
    requested_engine_disk Hrun) as (? & ? & _ & _ & _ & _ & _ & _ & Ha & _). exact Ha.
Defined.

Lemma stale_rollback_keeps_newer_witness :
  activeDownloads (rollbackDownloadReservation (DB := memdb) "k" 1
    (reserveDownload "k" {| IntentFile := with_version wanted 2; IntentSource := "p" |}
      (reserveDownload "k" {| IntentFile := wanted; IntentSource := "p" |} wanted_engine).2).2).2 !! "k"
  = Some {| ActiveIntent := {| IntentFile := with_version wanted 2; IntentSource := "p" |}; Token := 2 |}.
Proof.
  eapply (stale_rollback_keeps_newer "k" {| IntentFile := wanted; IntentSource := "p" |}
    {| IntentFile := with_version wanted 2; IntentSource := "p" |} 1 2 wanted_engine);
    [done|apply run_result; by vm_compute..].
Defined.
