(* ===== verification/Prune.v ===== *)
(** * Pruning the intermediate data of an ended task

    [PruneIntermediateTaskData] of [internal/storage/task_journal.go] and the
    removal of staged index entries of [storage_engine.go]. *)
From S2P Require Import Prelude GoStrings Json Protocol Bolt Vfs Sha256 Physical Journal Engine Gc.

(** A record the pruning removes. *)
Definition prunable (rec : TaskJournalRecord) : bool :=
  (JIntermediate rec || negb (isTerminalTaskStatus (Status (JContext rec)))) &&
  negb (bool_decide (Status (JContext rec) = TaskEventSchemaMigrated)).

(** The pre-flight scan: whether a terminal record and a prunable one were
    seen; it stops as soon as the answer is known. *)
Fixpoint preflightScan (histExists : bool) (l : list (string * json TaskJournalRecord))
    (hasTerminalJournal hasIntermediate : bool) : res (bool * bool) :=
  match l with
  | [] => Ok (hasTerminalJournal, hasIntermediate)
  | (_, raw) :: rest =>
      match unmarshal raw with
      | Err e => Err (EWrap "corrupt task journal record" e)
      | Ok rec =>
          let t := hasTerminalJournal || isTerminalTaskStatus (Status (JContext rec)) in
          let i := hasIntermediate || prunable rec in
          if i && (histExists || t) then Ok (t, i) else preflightScan histExists rest t i
      end
  end.

(** What a terminal record of the journal keeps alive. *)
Definition terminalRecordHashes (rec : TaskJournalRecord) : list string :=
  if negb (JIntermediate rec) && isTerminalTaskStatus (Status (JContext rec)) then
    extractNonIntermediateBlobHashes (any_of_map (JOutputs rec)) ++
    ExtractBlobHashes (any_of_map (Payload (JContext rec)))
  else [].

Section prune.
Context {DB : Type} `{!Bolt DB} `{!Digest}.
Abbreviation SE := (ST (Engine DB)).

Definition prunePreflight (tx : DB) (taskID : string) : res bool :=
  isActive ← boltHasKey tx TasksActive taskID;
  if isActive : bool then Err (ESentinel ErrTaskActive)
  else
    hist ← historyTask tx taskID;
    let histExists := bool_decide (is_Some hist) in
    scan ← (if bhas tx TasksJournal
            then preflightScan histExists (scanTaskJournalPrefix tx taskID) false false
            else Ok (false, false));
    let '(hasTerminalJournal, hasIntermediate) := scan in
    if negb histExists && negb hasTerminalJournal then Err (ESentinel ErrTaskNotFound)
    else Ok hasIntermediate.

(** The documents of a bucket that decode. *)
Definition decodable {T} (l : list (string * json T)) : list (string * T) :=
  omap (λ kv, match kv.2 with JDoc v => Some (kv.1, v) | JCorrupt _ => None end) l.

(** The blobs the pruning must not collect. *)
Definition protectedBlobs (tx : DB) (taskID : string) (hist : option TaskRecord)
    (records : list (string * TaskJournalRecord)) : gmap string bool :=
  let f1 := match hist with Some h => PopulateMap ∅ (historyBlobHashes h) true | None => ∅ end in
  let f2 := foldl (λ m item, PopulateMap m (terminalRecordHashes item.2) true) f1 records in
  let f3 := foldl (λ m item, PopulateMap m (TaskRecord_BlobHashes item.2) true) f2
              (decodable (bforeach tx TasksActive)) in
  foldl (λ m item, if bool_decide (item.1 = taskID) then m
                   else PopulateMap m (historyBlobHashes item.2) true) f3
    (decodable (bforeach tx TasksHistory)).

Definition intermediateBlobs (final : gmap string bool) (records : list (string * TaskJournalRecord))
    : gmap string bool :=
  foldl (λ m item,
    if prunable item.2 then
      PopulateMapIf m (TaskJournalRecord_BlobHashes item.2) true
        (λ h, negb (bool_decide (is_Some (final !! h))))
    else m) ∅ records.

(** Errors of the single deletions are ignored. *)
Fixpoint tryDeleteKeys (tx : DB) (b : bucket) (keys : list string) : DB :=
  match keys with
  | [] => tx
  | k :: rest => tryDeleteKeys (match bdel tx b k with Ok tx' => tx' | Err _ => tx end) b rest
  end.

Definition deleteStagedVFSIndexEntriesLocked (tx : DB) (hashes : gmap string bool) : res DB :=
  _ ← boltBucket tx VfsIndex;
  let staged := filter (λ item : string * IndexEntry,
    is_Some (hashes !! Hash item.2) ∧ HasPrefix (Name item.2) "stage/" = true)
    (decodable (bforeach tx VfsIndex)) in
  Ok (tryDeleteKeys tx VfsIndex staged.*1).

Fixpoint queueAll (tx : DB) (hashes : list string) : res DB :=
  match hashes with
  | [] => Ok tx
  | h :: rest =>
      match boltPutFlag_gc tx h with
      | Ok tx' => queueAll tx' rest
      | Err e => Err e
      end
  end.

(** The pruning transaction; returns the blobs it queued. *)
Definition pruneTx (tx : DB) (taskID : string) : res (gmap string bool * DB) :=
  isActive ← boltHasKey tx TasksActive taskID;
  if isActive : bool then Err (ESentinel ErrTaskActive)
  else
    hist ← historyTask tx taskID;
    _ ← boltBucket tx TasksJournal;
    let records := (decodeRecords (scanTaskJournalPrefix tx taskID)).1 in
    let hasTerminalJournal :=
      existsb (λ item, isTerminalTaskStatus (Status (JContext item.2))) records in
    if negb (bool_decide (is_Some hist)) && negb hasTerminalJournal then Err (ESentinel ErrTaskNotFound)
    else
      _ ← boltBucket tx TasksActive;
      _ ← boltBucket tx TasksHistory;
      let blobs := intermediateBlobs (protectedBlobs tx taskID hist records) records in
      tx1 ← deleteKeys tx TasksJournal (filter (λ item : string * TaskJournalRecord, prunable item.2 = true) records).*1;
      if bool_decide (blobs = ∅) then Ok (blobs, tx1)
      else
        tx2 ← deleteStagedVFSIndexEntriesLocked tx1 blobs;
        tx3 ← queueAll tx2 (sort_strings (map_to_list blobs).*1);
        Ok (blobs, tx3).

Definition PruneIntermediateTaskData (taskID : string) : SE unit :=
  _ ← of_res (validateTaskID taskID);
  hasIntermediate ← viewDB (λ d, View d (λ tx, prunePreflight tx taskID));
  if negb hasIntermediate then mret ()
  else
    blobs ← onDB (λ d, Update d (λ tx, pruneTx tx taskID));
    if bool_decide (blobs = ∅) then mret () else sweepPendingBlobGCLocked.
End prune.

(** ** Safety *)

Section prune_laws.
Context {DB : Type} `{!Bolt DB} `{!BoltLaws DB} `{!Digest}.
Implicit Types (tx d : DB) (s : Engine DB).

Lemma decodable_elem {T} (l : list (string * json T)) k v : (k, v) ∈ decodable l ↔ (k, JDoc v) ∈ l.
Proof.
  unfold decodable. rw list_elem_of_omap. split.
  - intros ([k' [v'|]] & Hin & Heq); simpl in Heq; naive_solver.
  - intros Hin. by exists (k, JDoc v).
Qed.

Lemma tryDeleteKeys_spec tx b ks :
  (∀ b' k, b ≠ b' → bget (tryDeleteKeys tx b ks) b' k = bget tx b' k) ∧
  (∀ k, k ∉ ks → bget (tryDeleteKeys tx b ks) b k = bget tx b k).
Proof.
  revert tx. induction ks as [|k0 ks IH]; intros tx; [done|]. simpl.
  destruct (bdel tx b k0) as [tx1|] eqn:Hd.
  - destruct (IH tx1) as [H1 H2]. split.
    + intros b' k Hne. rw H1 //. by eapply bget_del_ne.
    + intros k Hk. apply not_elem_of_cons in Hk as [Hne Hk]. rw H2 // (bget_del _ _ _ _ _ Hd).
      by rw decide_False.
  - destruct (IH tx) as [H1 H2]. split; [done|]. intros k Hk. apply not_elem_of_cons in Hk as [_ Hk]. auto.
Qed.

Lemma queueAll_spec tx hs tx' :
  queueAll tx hs = Ok tx' →
  (∀ b k, b ≠ PendingBlobGC → bget tx' b k = bget tx b k) ∧
  (∀ h, pending tx' h ↔ pending tx h ∨ h ∈ hs).
Proof.
  revert tx. induction hs as [|h0 hs IH]; intros tx; cbn [queueAll].
  { intros [= ->]. split; [done|]. intros h. rw elem_of_nil. tauto. }
  unfold boltPutFlag_gc. destruct (boltPut tx PendingBlobGC h0 flagBytes) as [tx1|] eqn:Hp; [|done].
  intros [H1 H2]%IH. split.
  - intros b k Hne. rw H1 //. by eapply bget_boltPut_ne.
  - intros h. rw H2 elem_of_cons. unfold pending. rw (bget_boltPut _ _ _ _ _ _ Hp).
    case_decide as Heq; [|intuition congruence]. subst. split; [tauto|]. intros _. left. by eexists.
Qed.

Definition staged_for tx (hashes : gmap string bool) (k : string) : Prop :=
  ∃ e, bget tx VfsIndex k = Some (JDoc e) ∧ is_Some (hashes !! Hash e).

Lemma deleteStaged_spec tx hashes tx' :
  deleteStagedVFSIndexEntriesLocked tx hashes = Ok tx' →
  (∀ b k, b ≠ VfsIndex → bget tx' b k = bget tx b k) ∧
  (∀ k, bget tx' VfsIndex k = bget tx VfsIndex k ∨ staged_for tx hashes k).
Proof.
  unfold deleteStagedVFSIndexEntriesLocked. destruct (boltBucket tx VfsIndex); simpl; [|done].
  intros [= <-]. set (keys := (filter _ _).*1).
  destruct (tryDeleteKeys_spec tx VfsIndex keys) as [H1 H2]. split; [auto|].
  intros k. destruct (decide (k ∈ keys)) as [Hin|]; [right|left; auto].
  apply list_elem_of_fmap in Hin as ([k' e] & -> & [[Hh _] Hin]%list_elem_of_filter).
  apply decodable_elem in Hin. apply (bforeach_elem tx VfsIndex) in Hin. exists e. done.
Qed.

Record prune_effect tx taskID tx' : Prop := {
  pe_wrote : wrote tx tx';
  pe_journal k : bget tx' TasksJournal k = bget tx TasksJournal k ∨
    ∃ rec, bget tx TasksJournal k = Some (JDoc rec) ∧ prunable rec = true ∧
           HasPrefix k (taskID +:+ "/") = true ∧ bget tx' TasksJournal k = None }.

Lemma decodeRecords_prefix {T} (l : list (string * json T)) k v :
  (k, v) ∈ (decodeRecords l).1 → (k, JDoc v) ∈ l.
Proof.
  induction l as [|[k0 raw] l IH]; simpl; [by intros ?%elem_of_nil|].
  destruct raw as [v0|]; simpl; [|by intros ?%elem_of_nil].
  destruct (decodeRecords l) as [recs err]. simpl in *.
  intros [[= -> ->]|?]%elem_of_cons; [by left|right; auto].
Qed.

Lemma wrote_tasks tx tx' :
  (∀ b k, b ≠ TasksJournal → bget tx' b k = bget tx b k) → wrote tx tx'.
Proof.
  intros Hf. split; [intros; by apply Hf..| |].
  - intros h. unfold pending. by rw Hf.
  - intros h _ (name & e & Hg & ?). left. exists name, e. by rw Hf.
Qed.

(** Removing staged entries and queueing their blobs forgets nothing. *)
Lemma wrote_staged tx hashes tx1 tx' :
  deleteStagedVFSIndexEntriesLocked tx hashes = Ok tx1 →
  queueAll tx1 (sort_strings (map_to_list hashes).*1) = Ok tx' → wrote tx tx'.
Proof.
  intros [H1 H2]%deleteStaged_spec [H3 H4]%queueAll_spec. split.
  - intros k. rw H3 // H1 //.
  - intros k. rw H3 // H1 //.
  - intros h. rw H4. unfold pending. rw H1 //. tauto.
  - intros h _ (name & e & Hg & Hdel & Hh). destruct (H2 name) as [Heq|(e' & Hg' & Hs)].
    + left. exists name, e. by rw H3 // Heq.
    + right. apply H4. right. rw Hg in Hg'. injection Hg' as <-. rw Hh in Hs. destruct Hs as [v Hv].
      rewrite ->sort_strings_perm. apply list_elem_of_fmap. exists (h, v). split; [done|].
      by apply elem_of_map_to_list.
Qed.

Lemma pruneTx_effect tx taskID blobs tx' :
  pruneTx tx taskID = Ok (blobs, tx') → prune_effect tx taskID tx'.
Proof.
  unfold pruneTx. destruct (boltHasKey tx TasksActive taskID) as [[|]|]; simpl; [done| |done].
  destruct (historyTask tx taskID) as [hist|]; simpl; [|done].
  destruct (boltBucket tx TasksJournal); simpl; [|done].
  set (records := (decodeRecords _).1). destruct (negb _ && negb _); [done|].
  destruct (boltBucket tx TasksActive); simpl; [|done].
  destruct (boltBucket tx TasksHistory); simpl; [|done].
  generalize (intermediateBlobs (protectedBlobs tx taskID hist records) records). intros b.
  set (keys := (filter _ records).*1).
  destruct (deleteKeys tx TasksJournal keys) as [tx1|] eqn:Hdel; simpl; [|done].
  apply deleteKeys_spec in Hdel as [Hk Hf].
  assert (∀ k, bget tx1 TasksJournal k = bget tx TasksJournal k ∨
    ∃ rec, bget tx TasksJournal k = Some (JDoc rec) ∧ prunable rec = true ∧
           HasPrefix k (taskID +:+ "/") = true ∧ bget tx1 TasksJournal k = None) as Hj.
  { intros k. rw Hk. case_decide as Hin; [right|by left].
    apply list_elem_of_fmap in Hin as ([k' rec] & -> & [Hp Hin]%list_elem_of_filter).
    apply decodeRecords_prefix in Hin. apply scan_elem in Hin as [Hg Hpre]. by exists rec. }
  assert (wrote tx tx1) as Hw1 by (apply wrote_tasks; intros; by apply Hf).
  case_bool_decide as Hempty; [intros [= <- <-]; by split|].
  destruct (deleteStagedVFSIndexEntriesLocked tx1 b) as [tx2|] eqn:Hst; simpl; [|done].
  destruct (queueAll tx2 _) as [tx3|] eqn:Hq; simpl; [|done]. intros [= <- <-].
  pose proof (wrote_staged _ _ _ _ Hst Hq) as Hw2.
  split; [by eapply wrote_trans|]. intros k.
  apply deleteStaged_spec in Hst as [Hf2 _]. apply queueAll_spec in Hq as [Hf3 _].
  rw Hf3 // Hf2 //.
Qed.

Lemma prune_effect_refl tx taskID : prune_effect tx taskID tx.
Proof. split; [apply wrote_refl|by left]. Qed.

Lemma Prune_cases taskID s r s' :
  PruneIntermediateTaskData taskID s = (r, s') →
  ∃ s1, physical s1 = physical s ∧ prune_effect (db s) taskID (db s1) ∧ (s' = s1 ∨ sweep_effect s1 r s').
Proof.
  pose proof (prune_effect_refl (db s) taskID) as Hrefl.
  unfold PruneIntermediateTaskData, mbind, st_bind, of_res, viewDB, View.
  destruct (validateTaskID taskID); [|intros [= <- <-]; exists s; auto].
  destruct (prunePreflight (db s) taskID) as [[|]|]; simpl; [|intros [= <- <-]; exists s; auto..].
  destruct (onDB _ s) as [u s1] eqn:Hu. apply onDB_inv in Hu as [Hp Hu].
  apply Update_spec in Hu as [(blobs & -> & Hb)|(e & -> & Hd)].
  - apply pruneTx_effect in Hb. case_bool_decide; [intros [= <- <-]; exists s1; auto|].
    intros Hsw%sweep_effect_ok. exists s1; auto.
  - intros [= <- <-]. exists s1. rw Hd. auto.
Qed.

Lemma Prune_safe taskID s r s' : PruneIntermediateTaskData taskID s = (r, s') → gc_safe s s'.
Proof.
  intros (s1 & Hp & [Hw _] & [->|Hsw])%Prune_cases; [by apply gc_safe_write|by eapply gc_safe_sweep].
Qed.
End prune_laws.

(** ** Histories of metadata operations *)

Section metadata.
Context {DB : Type} `{!Bolt DB} `{!BoltLaws DB} `{!Digest} `{!MutationHook DB} `{!MutationHookFrame DB}.

Inductive metadata_op :=
  | RemoteUpdate (entry : IndexEntry)
  | LocalDelete (name : string)
  | LocalUpsert (entry : IndexEntry) (notify : bool)
  | PruneTask (taskID : string)
  | Sweep.

Definition run_metadata (op : metadata_op) (s : Engine DB) : Engine DB :=
  match op with
  | RemoteUpdate entry => (upsertIndexLocked entry s).2
  | LocalDelete name => (DeleteLocalFile name s).2
  | LocalUpsert entry notify => (upsertAndSubscribeLocked entry notify s).2
  | PruneTask taskID => (PruneIntermediateTaskData taskID s).2
  | Sweep => (SweepPendingBlobGC s).2
  end.

Lemma run_metadata_safe op s : gc_safe s (run_metadata op s).
Proof.
  assert (∀ A (m : ST (Engine DB) A), (∀ r s', m s = (r, s') → gc_safe s s') → gc_safe s (m s).2) as Hm.
  { intros A m Hsafe. destruct (m s) as [r s'] eqn:Hrun. by eapply Hsafe. }
  destruct op as [entry|name|entry notify|taskID|]; simpl; apply Hm; intros r s' Hrun.
  - by eapply upsertIndexLocked_safe.
  - by eapply DeleteLocalFile_safe.
  - by eapply upsertAndSubscribeLocked_safe.
  - by eapply Prune_safe.
  - apply sweep_effect_ok in Hrun. eapply gc_safe_sweep; [done|apply wrote_refl|done].
Qed.

(** [h] is live after every operation of the sequence. *)
Fixpoint live_throughout (h : string) (ops : list metadata_op) (s : Engine DB) : Prop :=
  match ops with
  | [] => True
  | op :: rest => live (db (run_metadata op s)) h ∧ live_throughout h rest (run_metadata op s)
  end.


(** C26: no metadata operation forgets a blob: one that was indexed is
    afterwards referred to (by the index, an active task or the history of
    one), queued for collection, or off the disk. *)
Theorem no_blob_forgotten op s h :
  h ≠ "" → indexed (db s) h →
  live (db (run_metadata op s)) h ∨ pending (db (run_metadata op s)) h ∨ blob (run_metadata op s) h = None.
Proof. apply (gs_accounted _ _ (run_metadata_safe op s)). Qed.

(** Pruning a task touches no journal record of the task that is
    terminal and not intermediate, or a schema migration, and none whose key
    is outside the prefix of the task. *)
Theorem Prune_keeps_final_records taskID s k rec :
  bget (db s) TasksJournal k = Some (JDoc rec) →
  prunable rec = false ∨ HasPrefix k (taskID +:+ "/") = false →
  bget (db (PruneIntermediateTaskData taskID s).2) TasksJournal k = Some (JDoc rec).
Proof.
  destruct (PruneIntermediateTaskData taskID s) as [r s'] eqn:Hrun. simpl. intros Hg Hkeep.
  apply Prune_cases in Hrun as (s1 & _ & [_ Hj] & Hend).
  assert (bget (db s1) TasksJournal k = Some (JDoc rec)) as Hg1.
  { destruct (Hj k) as [->|(rec' & Hg' & Hp & Hpre & _)]; [done|].
    assert (rec' = rec) by congruence. destruct Hkeep; congruence. }
  destruct Hend as [->|He]; [done|]. by rw (se_frame _ _ _ He).
Qed.
End metadata.

(** ** Witnesses *)

Definition two_files : Engine memdb :=
  engine_with (indexed_db file_a) {["h" := Regular "x" 0]}.


Lemma no_blob_forgotten_witness :
  blob (run_metadata (LocalDelete "a") two_files) "h" = None ∨
  live (db (run_metadata (LocalDelete "a") two_files)) "h" ∨
  pending (db (run_metadata (LocalDelete "a") two_files)) "h".
Proof.
  destruct (no_blob_forgotten (LocalDelete "a") two_files "h") as [?|[?|?]];
    [done|by exists "a", file_a; vm_compute|auto..].
Defined.

Definition done_engine : Engine memdb := engine_with journal_done ∅.

Lemma Prune_keeps_final_records_witness :
  is_Some (bget (db (PruneIntermediateTaskData "t" done_engine).2) TasksJournal (taskJournalKey "t" 1)).
Proof.
  destruct (bget (db done_engine) TasksJournal (taskJournalKey "t" 1)) as [[rec|]|] eqn:Hg;
    [|vm_compute in Hg; done..].
  exists (JDoc rec). apply (Prune_keeps_final_records "t" done_engine); [done|].
  left. vm_compute in Hg. injection Hg as <-. done.
Defined.
