(* ===== verification/Divergences.v ===== *)
(** * Behaviours at the edges

    Concrete runs of the model in which the code does not do what it means
    to. *)
From S2P Require Import Prelude GoStrings Json Protocol Bolt Vfs Sha256 Physical Journal Engine Gc Prune.

(** ** Names of remote blobs are not checked

    A peer chooses the hash of an index entry freely; once the entry is
    superseded, the sweep deletes the file of that name in the storage
    directory. *)

Definition foreign (version : Z) (hash : string) : IndexEntry :=
  {| Name := "f"; Size := 1; Hash := hash; Version := version; Deleted := false |}.

(** Two index updates from a peer delete a file of the storage directory
    that is not a blob, such as the metadata database. *)
Theorem remote_update_deletes_foreign_file :
  let s0 := engine_with memdb_init {["metadata.db" := Regular "bolt" 0]} in
  let s1 := run_metadata (RemoteUpdate (foreign 1 "metadata.db")) s0 in
  let s2 := run_metadata (RemoteUpdate (foreign 2 "other")) s1 in
  IsValidCASHash "metadata.db" = false ∧
  blob s1 "metadata.db" = Some (Regular "bolt" 0) ∧ blob s2 "metadata.db" = None.
Proof. vm_compute. done. Qed.

(** ** Versions overflow *)

Definition last_version : IndexEntry :=
  {| Name := "f"; Size := 1; Hash := "h"; Version := max_int64; Deleted := false |}.

Definition overflow_engine : Engine memdb := engine_with (indexed_db last_version) ∅.

(** Deleting a file whose version is the largest integer stores a
    tombstone with the smallest one: the deleted entry wins over its own
    tombstone, and the next copy of it from a peer brings the file back. *)
Theorem delete_at_last_version_is_undone :
  let '(r, s1) := DeleteLocalFile "f" overflow_engine in
  let s2 := run_metadata (RemoteUpdate last_version) s1 in
  r = Ok () ∧
  index_of (db s1) "f" = Some (with_version (tombstone last_version) min_int64) ∧
  compareIndexEntries last_version (with_version (tombstone last_version) min_int64) = 1%Z ∧
  index_of (db s2) "f" = Some last_version.
Proof. vm_compute. done. Qed.

(** ** An obsolete download takes a task's blob with it *)

Definition abc_hash : string := sha256_digest "abc".

Definition task_with_blob : TaskRecord :=
  {| TContext := {| TaskID := "t"; TService := ""; Status := "running"; RequesterNodeID := ""; ReplyTo := "";
                    NodeID := ""; Payload := Some {["in" := AStr (VFSURI abc_hash)]}; TError := "";
                    PipelineState := None; Metadata := None |};
     CreatedAt := 1; UpdatedAt := 1; TCurrentStep := 0; TCurrentStepID := ""; ExpectedProducerNodeID := "";
     TOutputs := None; FinalOutputs := None; Retries := 0 |}.

Definition task_engine : Engine memdb :=
  engine_with (saveTaskRecord Active 1 memdb_init task_with_blob).2 {[abc_hash := Regular "abc" 0]}.

Definition obsolete : IndexEntry :=
  {| Name := "gone"; Size := 3; Hash := abc_hash; Version := 1; Deleted := false |}.

Definition stored_task : TaskRecord := default task_with_blob (active_of (db task_engine) "t").

Definition after_download : Engine memdb := (StoreRemoteBlob obsolete (Ok "abc") task_engine).2.

Lemma stored_task_hash : abc_hash ∈ TaskRecord_BlobHashes stored_task.
Proof. apply (bool_decide_unpack _). vm_compute. exact I. Qed.

(** The sweep would keep the blob an active task refers to, but receiving
    a download that is no longer wanted deletes it. *)
Theorem obsolete_download_drops_task_blob :
  used_by_active (db task_engine) abc_hash ∧ blob task_engine abc_hash = Some (Regular "abc" 0) ∧
  used_by_active (db after_download) abc_hash ∧ blob after_download abc_hash = None.
Proof.
  split_and!.
  - exists "t", stored_task. split; [by vm_compute|apply stored_task_hash].
  - by vm_compute.
  - exists "t", stored_task. split; [by vm_compute|apply stored_task_hash].
  - by vm_compute.
Qed.
