(* ===== verification/Outbox.v ===== *)
(** * The notification outbox

    The durable queue of notifications to peers: its store
    ([internal/storage/storage_engine.go], the [Outbox*] operations), the
    catalog of notification kinds ([internal/server/catalog_kinds.go]) and the
    staging and delivery protocol ([internal/server/outbox.go]).  Staging and
    delivery of one key interleave at the granularity of the database
    transactions; the last part states the protocol as a step relation. *)
From Stdlib Require Import Ascii String.
From S2P Require Import Prelude GoStrings Json Protocol Bolt Vfs Sha256 Journal Engine.
Local Open Scope stdpp_scope.

(** ** Generations on disk *)

(** [binary.BigEndian.PutUint64] and [Uint64]. *)
Definition uint64_bytes (n : N) : string := string_of_list_ascii (ascii_of_N <$> big_endian 8 n).
Definition uint64_of (s : string) : N := foldl (λ acc c, acc * 256 + N_of_ascii c)%N 0%N (list_ascii_of_string s).

(** Eight bytes decode, anything else does not. *)
Definition decodeGeneration (raw : option string) : option N :=
  match raw with
  | Some s => if (str_len s =? 8)%nat then Some (uint64_of s) else None
  | None => None
  end.

Definition globalKey : string := "global".

Section store.
Context {DB : Type} `{!Bolt DB}.

Definition reserveOutboxGenerationTx (tx : DB) (id : string) : res (N * DB) :=
  _ ← boltBucket tx NotifyOutboxGenerations;
  _ ← boltBucket tx NotifyOutboxReservations;
  let raw : string := default EmptyString (bget tx NotifyOutboxGenerations globalKey) in
  if negb (str_len raw =? 0)%nat && negb (str_len raw =? 8)%nat
  then Err (EMsg "invalid global outbox generation")
  else
    let generation := if (str_len raw =? 8)%nat then uint64_of raw else 0%N in
    if (generation =? max_uint64)%N then Err (EMsg "outbox generation exhausted")
    else
      let next := (generation + 1)%N in
      tx1 ← bput tx NotifyOutboxGenerations globalKey (uint64_bytes next);
      tx2 ← bput tx1 NotifyOutboxReservations id (uint64_bytes next);
      Ok (next, tx2).

Definition ReserveOutboxGeneration (id : string) : ST DB N := λ d,
  Update d (λ tx, reserveOutboxGenerationTx tx id).

Definition holdsReservation (tx : DB) (id : string) (generation : N) : bool :=
  bool_decide (decodeGeneration (bget tx NotifyOutboxReservations id) = Some generation).

Definition ReleaseOutboxGeneration (id : string) (generation : N) : ST DB unit := λ d,
  Update d (λ tx,
    _ ← boltBucket tx NotifyOutboxReservations;
    if holdsReservation tx id generation then
      tx' ← bdel tx NotifyOutboxReservations id; Ok ((), tx')
    else Ok ((), tx)).

Definition PutOutboxRawIfCurrentGeneration (id : string) (generation : N) (data : json outboxEntry)
    : ST DB bool := λ d,
  Update d (λ tx,
    _ ← boltBucket tx NotifyOutbox;
    _ ← boltBucket tx NotifyOutboxReservations;
    if holdsReservation tx id generation then
      tx1 ← bput tx NotifyOutbox id data;
      tx2 ← bdel tx1 NotifyOutboxReservations id;
      Ok (true, tx2)
    else Ok (false, tx)).

Definition DeleteOutboxEntryIfUnchanged (id : string) (expected : json outboxEntry) : ST DB bool := λ d,
  Update d (λ tx,
    _ ← boltBucket tx NotifyOutbox;
    if bool_decide (bget tx NotifyOutbox id = Some expected) then
      tx' ← bdel tx NotifyOutbox id; Ok (true, tx')
    else Ok (false, tx)).

Definition OutboxEntryMatches (id : string) (expected : json outboxEntry) : ST DB bool := λ d,
  (View d (λ tx, _ ← boltBucket tx NotifyOutbox; Ok (bool_decide (bget tx NotifyOutbox id = Some expected))), d).

Definition CountOutboxEntries : ST DB nat := λ d,
  (View d (λ tx, _ ← boltBucket tx NotifyOutbox; Ok (length (bforeach tx NotifyOutbox))), d).

Definition ListOutboxRaw : ST DB (list (string * json outboxEntry)) := λ d,
  (View d (λ tx, _ ← boltBucket tx NotifyOutbox; Ok (bforeach tx NotifyOutbox)), d).
End store.

(** ** Keys *)

Definition encodePart (part : string) : string := itoa (N.of_nat (str_len part)) +:+ ":" +:+ part.

Fixpoint encodeOutboxTuple (parts : list string) : string :=
  match parts with
  | [] => EmptyString
  | part :: rest => encodePart part +:+ encodeOutboxTuple rest
  end.

Definition outboxKey (peerID kind dedupe : string) : string := encodeOutboxTuple [peerID; kind; dedupe].

(** ** The catalog of kinds *)

Definition kindService : string := "service".
Definition kindPipeline : string := "pipeline".
Definition kindVFS : string := "vfs".

(** The part of the server the outbox reads.  The services of the
    configuration file are what loading it gives. *)
Record Server := {
  ServerID : string;
  ServerAddress : string;
  PeerIDs : list string;
  Services : res (gmap string (string * ServiceSchema)) }.

Definition nonEmpty (s : string) : option string := if bool_decide (s = "") then None else Some s.

(** [entityFrom] of each kind, on the notification the payload encodes. *)
Definition entityFrom (kind : string) (payload : notification) : option string :=
  if bool_decide (kind = kindPipeline) then
    match payload with PipelineNotification _ _ schema => nonEmpty (SchemaID schema) | _ => None end
  else if bool_decide (kind = kindService) then
    match payload with ServiceNotification _ _ schema => nonEmpty (SName schema) | _ => None end
  else if bool_decide (kind = kindVFS) then
    match payload with PeerNotification file _ => nonEmpty (Name file) | _ => None end
  else None.

Section catalog.
Context {DB : Type} `{!Bolt DB}.

(** [LoadPipelineSchemas]: schemas stored without a version are upgraded and
    written back. *)
Fixpoint putSchemas (tx : DB) (l : list (string * PipelineSchema)) : res DB :=
  match l with
  | [] => Ok tx
  | (id, schema) :: rest =>
      match boltPut tx PipelineSchemas id (JDoc schema) with
      | Ok tx' => putSchemas tx' rest
      | Err e => Err e
      end
  end.

Definition LoadPipelineSchemas : ST DB (gmap string PipelineSchema) := λ d,
  match boltLoadMapJSON PipelineSchemas (λ v, v) d with
  | Err e => (Err e, d)
  | Ok schemas =>
      let upgraded := filter (λ kv : string * PipelineSchema,
        SchemaVersion (NormalizePipelineSchemaVersion kv.2) ≠ SchemaVersion kv.2) (sorted_pairs schemas) in
      let normalized := prod_map id NormalizePipelineSchemaVersion <$> upgraded in
      let result := foldl (λ m kv, <[kv.1 := kv.2]> m) schemas normalized in
      if bool_decide (normalized = []) then (Ok result, d)
      else
        match Update d (λ tx, tx' ← putSchemas tx normalized; Ok ((), tx')) with
        | (Ok _, d') => (Ok result, d')
        | (Err e, d') => (Err e, d')
        end
  end.

(** [current] of each kind: the notification that describes the entity now,
    or [None] when there is nothing to tell. *)
Definition currentNotificationPayload (srv : Server) (kind entity : string) : ST DB (option notification) :=
  if bool_decide (kind = kindPipeline) then
    pipelines ← LoadPipelineSchemas;
    mret (match pipelines !! entity with
          | Some schema =>
              if (SchemaVersion schema <=? 0)%Z then None
              else Some (PipelineNotification (if SchemaDeleted schema then ActionRemove else ActionAdd)
                           (ServerID srv) schema)
          | None => None
          end)
  else if bool_decide (kind = kindService) then
    services ← of_res (Services srv);
    mret (Some (match services !! entity with
                | Some (serviceType, schema) =>
                    ServiceNotification ActionAdd (ServerID srv) (NormalizeServiceSchema entity schema serviceType)
                | None =>
                    ServiceNotification ActionRemove (ServerID srv)
                      {| SName := entity; SType := ""; SDescription := ""; SParameters := None;
                         SOutputs := None; SUI := None |}
                end))
  else if bool_decide (kind = kindVFS) then
    found ← (λ d, (VFS_Get d entity, d));
    mret (match found with Some file => Some (PeerNotification file (ServerAddress srv)) | None => None end)
  else fail (EMsg "unsupported outbox kind").
End catalog.

(** ** Staging and delivery *)

Record outboxAttempt := {
  StorageID : string;
  LockID : string;
  Raw : json outboxEntry;
  AttemptEntry : outboxEntry;
  Durable : bool }.

Record stagedOutboxMutation := {
  StagedKind : string;
  StagedEntity : string;
  Attempts : list outboxAttempt }.

Definition mkEntry (id peerID kind entity : string) (generation : N) (payload : notification) (now : time)
    : outboxEntry :=
  {| OID := id; OPeerID := peerID; OKind := kind; OEntity := entity; OGeneration := generation;
     OPayload := payload; OCreatedAt := now |}.

Definition mkAttempt (id : string) (entry : outboxEntry) : outboxAttempt :=
  {| StorageID := id; LockID := id; Raw := JDoc entry; AttemptEntry := entry; Durable := true |}.

(** The entity a payload names wins over the one given. *)
Definition canonicalEntity (kind entity : string) (payload : notification) : string :=
  default entity (entityFrom kind payload).

Definition outboxEntity (kind : string) (payload : notification) (stored : string) : option string :=
  if bool_decide (stored = "") then entityFrom kind payload else Some stored.

Section outbox.
Context {DB : Type} `{!Bolt DB}.
Variables (srv : Server) (now : time).

Definition stageOutbox (peerID kind entity : string) (payload : notification) : ST DB (outboxAttempt * bool) :=
  let entity := canonicalEntity kind entity payload in
  let id := outboxKey peerID kind entity in
  generation ← ReserveOutboxGeneration id;
  deferred
    (let entry := mkEntry id peerID kind entity generation payload now in
     applied ← PutOutboxRawIfCurrentGeneration id generation (JDoc entry);
     mret (mkAttempt id entry, applied))
    (ReleaseOutboxGeneration id generation).

(** [send] is the peer's answer. *)
Definition deliverOutboxAttempt (attempt : outboxAttempt) (send : res unit) : ST DB unit :=
  current ← (if Durable attempt then OutboxEntryMatches (StorageID attempt) (Raw attempt) else mret true);
  if negb current then mret ()
  else
    of_res send;;
    (if Durable attempt
     then DeleteOutboxEntryIfUnchanged (StorageID attempt) (Raw attempt);; mret ()
     else mret ()).

(** Retracting or refreshing the staged notifications of a mutation that did
    not commit; returns what is left to deliver. *)
Fixpoint reconcileAttempts (m : stagedOutboxMutation) (payload : option notification)
    (attempts reconciled : list outboxAttempt) : ST DB (list outboxAttempt) :=
  match attempts with
  | [] => mret reconciled
  | attempt :: rest =>
      match payload with
      | None =>
          DeleteOutboxEntryIfUnchanged (StorageID attempt) (Raw attempt);;
          reconcileAttempts m payload rest reconciled
      | Some p =>
          r ← stageOutbox (OPeerID (AttemptEntry attempt)) (StagedKind m) (StagedEntity m) p;
          reconcileAttempts m payload rest (if snd r : bool then reconciled ++ [fst r] else reconciled)
      end
  end.

Definition reconcileCurrent (m : stagedOutboxMutation) : ST DB (list outboxAttempt) :=
  payload ← currentNotificationPayload srv (StagedKind m) (StagedEntity m);
  reconcileAttempts m payload (Attempts m) [].

(** The attempts handed to the asynchronous delivery. *)
Definition finish (m : stagedOutboxMutation) (committed : bool) : ST DB (list outboxAttempt) :=
  if committed then mret (Attempts m) else reconcileCurrent m.

Fixpoint stageForPeers (m : stagedOutboxMutation) (payload : notification) (peers : list string)
    : ST DB stagedOutboxMutation :=
  match peers with
  | [] => mret m
  | peerID :: rest =>
      r ← attempt (stageOutbox peerID (StagedKind m) (StagedEntity m) payload);
      match r with
      | Err e => attempt (finish m false);; fail e
      | Ok (a, current) =>
          stageForPeers
            {| StagedKind := StagedKind m; StagedEntity := StagedEntity m;
               Attempts := if current : bool then Attempts m ++ [a] else Attempts m |} payload rest
      end
  end.

Definition prepareOutboxMutation (kind entity : string) (payload : notification) : ST DB stagedOutboxMutation :=
  stageForPeers {| StagedKind := kind; StagedEntity := entity; Attempts := [] |} payload
    (sort_strings (filter (λ p, p ≠ ServerID srv) (PeerIDs srv))).

(** [prepareVFSNotification]: the kind of the mutation it stages is fixed, so
    the token is the entity and the attempts. *)
Definition vfsHook : MutationHook DB := {|
  hook_token := string * list outboxAttempt;
  hook_prepare entry d :=
    let '(r, d') := prepareOutboxMutation kindVFS (Name entry) (PeerNotification entry (ServerAddress srv)) d in
    (match r with Ok m => Ok (StagedEntity m, Attempts m) | Err e => Err e end, d');
  hook_finish t committed d :=
    let '(r, d') := finish {| StagedKind := kindVFS; StagedEntity := t.1; Attempts := t.2 |} committed d in
    (error_of r, d') |}.

Fixpoint reconcileActiveOutbox (entries : list (string * json outboxEntry)) : ST DB unit :=
  match entries with
  | [] => mret ()
  | (id, JCorrupt _) :: rest => reconcileActiveOutbox rest
  | (id, JDoc entry) :: rest =>
      match outboxEntity (OKind entry) (OPayload entry) (OEntity entry) with
      | None => reconcileActiveOutbox rest
      | Some entity =>
          payload ← currentNotificationPayload srv (OKind entry) entity;
          (match payload with
           | None => DeleteOutboxEntryIfUnchanged id (JDoc entry);; mret ()
           | Some p =>
               if bool_decide (OPayload entry = p) then mret ()
               else stageOutbox (OPeerID entry) (OKind entry) entity p;; mret ()
           end);;
          reconcileActiveOutbox rest
      end
  end.

(** Entries stored without an id take their key. *)
Definition named (id : string) (stored : outboxEntry) : outboxEntry :=
  if bool_decide (OID stored = "")
  then mkEntry id (OPeerID stored) (OKind stored) (OEntity stored) (OGeneration stored)
         (OPayload stored) (OCreatedAt stored)
  else stored.

(** The deliveries of a flush; [send] gives the answers of the peers.  An
    entry that does not decode is dropped. *)
Fixpoint deliverAll (send : outboxEntry → res unit) (entries : list (string * json outboxEntry)) : ST DB unit :=
  match entries with
  | [] => mret ()
  | (id, JCorrupt bytes) :: rest =>
      attempt (DeleteOutboxEntryIfUnchanged id (JCorrupt bytes));; deliverAll send rest
  | (id, JDoc stored) :: rest =>
      let entry := named id stored in
      let lockID := if bool_decide (OEntity entry = "") then id
                    else outboxKey (OPeerID entry) (OKind entry) (OEntity entry) in
      attempt (deliverOutboxAttempt
        {| StorageID := id; LockID := lockID; Raw := JDoc stored; AttemptEntry := entry; Durable := true |}
        (send entry));;
      deliverAll send rest
  end.

Definition flushOutbox (send : outboxEntry → res unit) : ST DB unit :=
  l ← attempt ListOutboxRaw;
  match l with
  | Err _ | Ok [] => mret ()
  | Ok entries =>
      r ← attempt (reconcileActiveOutbox entries);
      match r with
      | Err _ => mret ()
      | Ok _ =>
          l' ← attempt ListOutboxRaw;
          match l' with
          | Err _ => mret ()
          | Ok entries' => deliverAll send entries'
          end
      end
  end.
End outbox.
