(* ===== verification/OutboxLaws.v ===== *)
(** * Laws of the outbox

    Keys are injective, generations only grow, the hook of the VFS touches
    the outbox only, and the last notification staged for a key is delivered
    or still queued, under every interleaving of stagings and deliveries. *)
From Stdlib Require Import Ascii String.
From S2P Require Import Prelude GoStrings Json Protocol Bolt Vfs Sha256 Journal Engine Gc Outbox.
Local Open Scope stdpp_scope.

(** ** Keys *)

Lemma encodePart_inj p p' t t' : encodePart p +:+ t = encodePart p' +:+ t' → p = p' ∧ t = t'.
Proof.
  unfold encodePart. rw !str_app_assoc. change (":" +:+ ?x) with (String ":" x).
  intros [He Ht]%digits_colon_inj; [|apply itoa_digits..].
  apply itoa_inj, Nat2N.inj in He. by apply str_app_inj_len in Ht.
Qed.

Lemma encodePart_nonempty p : encodePart p ≠ "".
Proof.
  unfold encodePart. intros He. apply (f_equal str_len) in He. rw !str_len_app /= in He. lia.
Qed.

Lemma encodeOutboxTuple_inj l l' : encodeOutboxTuple l = encodeOutboxTuple l' → l = l'.
Proof.
  revert l'. induction l as [|p l IH]; intros [|p' l']; simpl; [done|..].
  - intros He. exfalso. apply (f_equal str_len) in He. rw str_len_app in He.
    pose proof (encodePart_nonempty p') as Hne. destruct (encodePart p'); [done|]. simpl in He. lia.
  - intros He. exfalso. apply (f_equal str_len) in He. rw str_len_app in He.
    pose proof (encodePart_nonempty p) as Hne. destruct (encodePart p); [done|]. simpl in He. lia.
  - intros [-> ->%IH]%encodePart_inj. done.
Qed.

(** Notifications of different peers, kinds or entities never share a key
    of the outbox, whatever bytes their names hold. *)
Theorem outboxKey_inj peer kind entity peer' kind' entity' :
  outboxKey peer kind entity = outboxKey peer' kind' entity' →
  peer = peer' ∧ kind = kind' ∧ entity = entity'.
Proof. unfold outboxKey. by intros [= -> -> ->]%encodeOutboxTuple_inj. Qed.

Lemma outboxKey_inj_witness :
  "p" = "p" ∧ "vfs" = "vfs" ∧ "1:x" = "1:x".
Proof. apply (outboxKey_inj "p" "vfs" "1:x" "p" "vfs" "1:x"). reflexivity. Defined.

(** ** Generations *)

Lemma uint64_bytes_len n : str_len (uint64_bytes n) = 8%nat.
Proof. done. Qed.

Lemma land255 x : N.land x 255 = (x mod 256)%N.
Proof. apply (N.land_ones x 8). Qed.

Lemma big_endian_value k n acc :
  foldl (λ acc c, acc * 256 + N_of_ascii c)%N acc (ascii_of_N <$> big_endian k n) =
  (acc * 256 ^ N.of_nat k + n mod 256 ^ N.of_nat k)%N.
Proof.
  revert acc. induction k as [|k IH]; intros acc.
  { simpl. rw N.mod_1_r. lia. }
  cbn [big_endian fmap list_fmap foldl]. rw IH land255 N_ascii_embedding; [|apply N.mod_lt; lia].
  rw N.shiftr_div_pow2 Nat2N.inj_succ N.pow_succ_r'.
  replace (2 ^ (8 * N.of_nat k))%N with (256 ^ N.of_nat k)%N by (by rw N.pow_mul_r).
  rw (N.mul_comm 256 (256 ^ N.of_nat k)) N.Div0.mod_mul_r. lia.
Qed.

Lemma uint64_roundtrip n : (n <= max_uint64)%N → uint64_of (uint64_bytes n) = n.
Proof.
  intros Hn. unfold uint64_of, uint64_bytes. rw list_ascii_of_string_of_list_ascii big_endian_value.
  rw N.mod_small; [lia|]. unfold max_uint64 in Hn. change (256 ^ N.of_nat 8)%N with (2 ^ 64)%N. lia.
Qed.

Lemma decode_bytes n : (n <= max_uint64)%N → decodeGeneration (Some (uint64_bytes n)) = Some n.
Proof. intros Hn. unfold decodeGeneration. rw uint64_bytes_len. simpl. by rw uint64_roundtrip. Qed.

Lemma uint64_of_bound s : str_len s = 8%nat → (uint64_of s <= max_uint64)%N.
Proof.
  unfold uint64_of. intros Hlen. rw -length_list_ascii in Hlen.
  assert (∀ (l : list ascii) acc,
    (foldl (λ acc c, acc * 256 + N_of_ascii c) acc l < (acc + 1) * 256 ^ N.of_nat (length l))%N) as Hf.
  { induction l as [|c l IH]; intros acc; [simpl; lia|]. cbn [foldl length].
    pose proof (N_ascii_bounded c). rw Nat2N.inj_succ N.pow_succ_r'.
    eapply N.lt_le_trans; [apply IH|]. nia. }
  specialize (Hf (list_ascii_of_string s) 0%N). rw Hlen in Hf. unfold max_uint64.
  change (256 ^ N.of_nat 8)%N with (2 ^ 64)%N in Hf. lia.
Qed.

(** A write to another bucket. *)
Ltac frame_write H :=
  first [ rewrite ->(bget_put_ne _ _ _ _ _ _ _ H) by (done || by intros <-)
        | rewrite ->(bget_del_ne _ _ _ _ _ _ H) by (done || by intros <-) ].

Section generations.
Context {DB : Type} `{!Bolt DB} `{!BoltLaws DB}.
Implicit Types (d tx : DB).

(** The last generation handed out, and the one reserved for a key. *)
Definition last_generation d : N := default 0%N (decodeGeneration (bget d NotifyOutboxGenerations globalKey)).
Definition reservation d id : option N := decodeGeneration (bget d NotifyOutboxReservations id).

Record reserved_effect d id (g : N) d' : Prop := {
  re_next : g = (last_generation d + 1)%N;
  re_bound : (g <= max_uint64)%N;
  re_last : last_generation d' = g;
  re_outbox k : bget d' NotifyOutbox k = bget d NotifyOutbox k;
  re_frame b k : outbox_bucket b = false → bget d' b k = bget d b k;
  re_reservation k : reservation d' k = if decide (id = k) then Some g else reservation d k }.

Lemma reserveTx_effect d id g d' :
  reserveOutboxGenerationTx d id = Ok (g, d') → reserved_effect d id g d'.
Proof.
  unfold reserveOutboxGenerationTx.
  destruct (boltBucket d NotifyOutboxGenerations); simpl; [|done].
  destruct (boltBucket d NotifyOutboxReservations); simpl; [|done].
  set (raw := default "" (bget d NotifyOutboxGenerations globalKey)).
  destruct (_ && _) eqn:Hlen; [done|].
  set (gen := if (str_len raw =? 8)%nat then uint64_of raw else 0%N).
  assert (last_generation d = gen) as Hlast.
  { unfold last_generation, gen, raw. destruct (bget d NotifyOutboxGenerations globalKey) as [x|]; simpl; [|done].
    by destruct (_ =? 8)%nat. }
  destruct (N.eqb_spec gen max_uint64) as [|Hmax]; [done|].
  destruct (bput d NotifyOutboxGenerations _ _) as [d1|] eqn:H1; simpl; [|done].
  destruct (bput d1 NotifyOutboxReservations _ _) as [d2|] eqn:H2; simpl; [|done]. intros [= <- <-].
  assert (gen + 1 <= max_uint64)%N as Hb.
  { assert (gen <= max_uint64)%N; [|lia]. unfold gen.
    destruct (Nat.eqb_spec (str_len raw) 8); [by apply uint64_of_bound|done]. }
  split; [by rw Hlast|done|..].
  - unfold last_generation. frame_write H2. rw (bget_put _ _ _ _ _ _ H1).
    destruct (decide _); [by rw decode_bytes|done].
  - intros k. frame_write H2. frame_write H1; done.
  - intros b k Hbk. frame_write H2.
    frame_write H1; done.
  - intros k. unfold reservation. rw (bget_put _ _ _ _ _ _ H2).
    destruct (decide _); [by rw decode_bytes|]. frame_write H1; done.
Qed.

(** The state of the outbox other steps see. *)
Record outbox_same d d' : Prop := {
  os_last : last_generation d' = last_generation d;
  os_outbox k : bget d' NotifyOutbox k = bget d NotifyOutbox k;
  os_reservation k : reservation d' k = reservation d k }.

Lemma Reserve_effect id d g d' : ReserveOutboxGeneration id d = (Ok g, d') → reserved_effect d id g d'.
Proof.
  unfold ReserveOutboxGeneration.
  intros [(? & [= <-] & H)|(? & ? & _)]%Update_spec; [by apply reserveTx_effect|done].
Qed.

(** Storing the entry consumes the reservation. *)
Record put_effect d id g e d' : Prop := {
  pe_held : reservation d id = Some g;
  pe_last : last_generation d' = last_generation d;
  pe_outbox k : bget d' NotifyOutbox k = if decide (id = k) then Some e else bget d NotifyOutbox k;
  pe_frame b k : outbox_bucket b = false → bget d' b k = bget d b k;
  pe_reservation k : reservation d' k = if decide (id = k) then None else reservation d k }.

Lemma Put_effect id g e d b d' :
  PutOutboxRawIfCurrentGeneration id g e d = (Ok b, d') →
  if b then put_effect d id g e d' else d' = d.
Proof.
  unfold PutOutboxRawIfCurrentGeneration.
  intros [(? & [= <-] & H)|(? & ? & _)]%Update_spec; [|done]. revert H.
  destruct (boltBucket d NotifyOutbox); simpl; [|done].
  destruct (boltBucket d NotifyOutboxReservations); simpl; [|done].
  unfold holdsReservation. case_bool_decide as Hheld; [|by intros [= <- <-]].
  destruct (bput d NotifyOutbox _ _) as [d1|] eqn:H1; simpl; [|done].
  destruct (bdel d1 NotifyOutboxReservations _) as [d2|] eqn:H2; simpl; [|done]. intros [= <- <-].
  split; [done|..].
  - unfold last_generation. frame_write H2. frame_write H1; done.
  - intros k. frame_write H2. by rw (bget_put _ _ _ _ _ _ H1).
  - intros b' k Hb. frame_write H2.
    frame_write H1; done.
  - intros k. unfold reservation. rw (bget_del _ _ _ _ _ H2). destruct (decide _); [done|].
    frame_write H1; done.
Qed.

(** Releasing drops a reservation at most. *)
Record released_effect d d' : Prop := {
  le_last : last_generation d' = last_generation d;
  le_outbox k : bget d' NotifyOutbox k = bget d NotifyOutbox k;
  le_frame b k : outbox_bucket b = false → bget d' b k = bget d b k;
  le_reservation k g : reservation d' k = Some g → reservation d k = Some g }.

Lemma released_same d : released_effect d d.
Proof. by split. Qed.

Lemma bdel_reservation d id d' : bdel d NotifyOutboxReservations id = Ok d' → released_effect d d'.
Proof.
  intros H. split.
  - unfold last_generation. frame_write H; done.
  - intros k. frame_write H; done.
  - intros b k Hb. frame_write H; done.
  - intros k g. unfold reservation. rw (bget_del _ _ _ _ _ H). by destruct (decide _).
Qed.

Lemma released_trans d d1 d2 : released_effect d d1 → released_effect d1 d2 → released_effect d d2.
Proof.
  intros [L1 O1 F1 R1] [L2 O2 F2 R2]. split; [congruence|intros; rw O2 //|intros; rw F2 // F1 //|eauto].
Qed.

Lemma Release_effect id g d r d' : ReleaseOutboxGeneration id g d = (r, d') → released_effect d d'.
Proof.
  unfold ReleaseOutboxGeneration.
  intros [([] & -> & H)|(? & -> & ->)]%Update_spec; [|apply released_same]. revert H.
  destruct (boltBucket d NotifyOutboxReservations); simpl; [|done].
  destruct (holdsReservation d id g); [|intros [= <-]; apply released_same].
  destruct (bdel d _ _) as [d1|] eqn:H1; simpl; [|done]. intros [= <-]. by eapply bdel_reservation.
Qed.

Lemma clearTransient_effect d d' :
  clearTransientOutboxReservations d = Ok d' → released_effect d d' ∧ ∀ k, reservation d' k = None.
Proof.
  unfold clearTransientOutboxReservations. destruct (boltBucket _ _); simpl; [|done]. intros Hdel.
  assert (∀ l d1 d2, deleteKeys d1 NotifyOutboxReservations l = Ok d2 →
    released_effect d1 d2 ∧ ∀ k, k ∈ l ∨ bget d1 NotifyOutboxReservations k = None →
                                 bget d2 NotifyOutboxReservations k = None) as Hall.
  { clear d d' Hdel. induction l as [|id l IH]; intros d1 d2; simpl.
    { intros [= <-]. split; [apply released_same|]. intros k [[]%elem_of_nil|]; done. }
    destruct (bdel d1 _ id) as [d3|] eqn:H3; simpl; [|done].
    intros [Hr Hk]%IH. split; [by eapply released_trans; [eapply bdel_reservation|]|].
    intros k Hin. apply Hk. rw (bget_del _ _ _ _ _ H3). rewrite ->elem_of_cons in Hin.
    destruct (decide (id = k)); [by right|]. naive_solver. }
  apply Hall in Hdel as [Hr Hk]. split; [done|]. intros k. unfold reservation. rw Hk //.
  destruct (bget d NotifyOutboxReservations k) as [v|] eqn:Hv; [left|by right].
  apply list_elem_of_fmap. exists (k, v). split; [done|]. exact (proj2 (bforeach_elem d NotifyOutboxReservations k v) Hv).
Qed.

(** Deletion is by value: it removes the entry it was given, or nothing. *)
Record removed_effect d id e d' : Prop := {
  rm_held : bget d NotifyOutbox id = Some e;
  rm_last : last_generation d' = last_generation d;
  rm_outbox k : bget d' NotifyOutbox k = if decide (id = k) then None else bget d NotifyOutbox k;
  rm_frame b k : outbox_bucket b = false → bget d' b k = bget d b k;
  rm_reservation k : reservation d' k = reservation d k }.

Lemma Delete_effect id e d r d' :
  DeleteOutboxEntryIfUnchanged id e d = (r, d') → removed_effect d id e d' ∨ d' = d.
Proof.
  unfold DeleteOutboxEntryIfUnchanged.
  intros [(b & -> & H)|(? & -> & ->)]%Update_spec; [|by right]. revert H.
  destruct (boltBucket d NotifyOutbox); simpl; [|done].
  case_bool_decide as Hheld; [|intros [= <- <-]; by right].
  destruct (bdel d NotifyOutbox _) as [d1|] eqn:H1; simpl; [|done]. intros [= <- <-]. left.
  split; [done|..].
  - unfold last_generation. frame_write H1; done.
  - intros k. by rw (bget_del _ _ _ _ _ H1).
  - intros b' k Hb. frame_write H1; done.
  - intros k. unfold reservation. frame_write H1; done.
Qed.
End generations.

(** ** The protocol under interleaving *)

(** What the steps have done: the generations a staging holds, the entries
    that were sent and wait for their acknowledgement (both in memory), and
    the history of stored, sent and retracted entries. *)
Record outbox_sys (DB : Type) := {
  odb : DB;
  matched : list (string * json outboxEntry);
  unacked : list (string * json outboxEntry);
  log : list (string * outboxEntry);
  sent : list (string * json outboxEntry);
  retracted : list (string * json outboxEntry) }.
Arguments odb {DB} _.
Arguments matched {DB} _.
Arguments unacked {DB} _.
Arguments log {DB} _.
Arguments sent {DB} _.
Arguments retracted {DB} _.

(** The newest entry stored for a key. *)
Fixpoint newest (k : string) (l : list (string * outboxEntry)) : option outboxEntry :=
  match l with
  | [] => None
  | (k', e) :: rest => if decide (k' = k) then Some e else newest k rest
  end.

(** Later entries of a key carry larger generations; the newest comes first. *)
Definition later_is_larger (x y : string * outboxEntry) : Prop :=
  x.1 = y.1 → (OGeneration y.2 < OGeneration x.2)%N.

Section protocol.
Context {DB : Type} `{!Bolt DB} `{!BoltLaws DB}.
Implicit Types (s : outbox_sys DB).

(** One step is one transaction of a staging, a delivery or a reconciliation
    of any goroutine, a message accepted by a peer, a restart, or a write
    outside the outbox.  No lock is assumed between them. *)
Inductive outbox_step : outbox_sys DB → outbox_sys DB → Prop :=
  | step_reserve d m u l se re id g d' :
      ReserveOutboxGeneration id d = (Ok g, d') →
      outbox_step {| odb := d; matched := m; unacked := u; log := l; sent := se; retracted := re |}
                  {| odb := d'; matched := m; unacked := u; log := l; sent := se; retracted := re |}
  | step_put d m u l se re id e b d' :
      PutOutboxRawIfCurrentGeneration id (OGeneration e) (JDoc e) d = (Ok b, d') →
      outbox_step {| odb := d; matched := m; unacked := u; log := l; sent := se; retracted := re |}
                  {| odb := d'; matched := m; unacked := u; log := if b then (id, e) :: l else l;
                     sent := se; retracted := re |}
  | step_release d m u l se re id g r d' :
      ReleaseOutboxGeneration id g d = (r, d') →
      outbox_step {| odb := d; matched := m; unacked := u; log := l; sent := se; retracted := re |}
                  {| odb := d'; matched := m; unacked := u; log := l; sent := se; retracted := re |}
  | step_match d m u l se re id raw :
      OutboxEntryMatches id raw d = (Ok true, d) →
      outbox_step {| odb := d; matched := m; unacked := u; log := l; sent := se; retracted := re |}
                  {| odb := d; matched := (id, raw) :: m; unacked := u; log := l; sent := se; retracted := re |}
  | step_send d m u l se re id raw :
      (id, raw) ∈ m →
      outbox_step {| odb := d; matched := m; unacked := u; log := l; sent := se; retracted := re |}
                  {| odb := d; matched := m; unacked := (id, raw) :: u; log := l;
                     sent := (id, raw) :: se; retracted := re |}
  | step_ack d m u l se re id raw r d' :
      (id, raw) ∈ u → DeleteOutboxEntryIfUnchanged id raw d = (r, d') →
      outbox_step {| odb := d; matched := m; unacked := u; log := l; sent := se; retracted := re |}
                  {| odb := d'; matched := m; unacked := u; log := l; sent := se; retracted := re |}
  | step_retract d m u l se re id raw r d' :
      DeleteOutboxEntryIfUnchanged id raw d = (r, d') →
      outbox_step {| odb := d; matched := m; unacked := u; log := l; sent := se; retracted := re |}
                  {| odb := d'; matched := m; unacked := u; log := l; sent := se;
                     retracted := (id, raw) :: re |}
  | step_restart d m u l se re d' :
      clearTransientOutboxReservations d = Ok d' →
      outbox_step {| odb := d; matched := m; unacked := u; log := l; sent := se; retracted := re |}
                  {| odb := d'; matched := []; unacked := []; log := l; sent := se; retracted := re |}
  | step_other d m u l se re d' :
      outbox_same d d' →
      outbox_step {| odb := d; matched := m; unacked := u; log := l; sent := se; retracted := re |}
                  {| odb := d'; matched := m; unacked := u; log := l; sent := se; retracted := re |}.

(** A node starts with an empty outbox. *)
Definition outbox_initial s : Prop :=
  (∀ k, bget (odb s) NotifyOutbox k = None) ∧ (∀ k, reservation (odb s) k = None) ∧
  matched s = [] ∧ unacked s = [] ∧ log s = [] ∧ sent s = [] ∧ retracted s = [].

(** What holds in every reachable state. *)
Record outbox_inv s : Prop := {
  oi_log k e : (k, e) ∈ log s → (OGeneration e ≤ last_generation (odb s))%N;
  oi_reserved k g : reservation (odb s) k = Some g →
    (g ≤ last_generation (odb s))%N ∧ ∀ e, (k, e) ∈ log s → (OGeneration e < g)%N;
  oi_sorted : StronglySorted later_is_larger (log s);
  oi_stored k raw : bget (odb s) NotifyOutbox k = Some raw → JDoc <$> newest k (log s) = Some raw;
  oi_accounted k e : newest k (log s) = Some e →
    bget (odb s) NotifyOutbox k = Some (JDoc e) ∨ (k, JDoc e) ∈ sent s ∨ (k, JDoc e) ∈ retracted s;
  oi_matched k raw : (k, raw) ∈ matched s → ∃ e, raw = JDoc e ∧ (k, e) ∈ log s;
  oi_unacked k raw : (k, raw) ∈ unacked s → (k, raw) ∈ sent s;
  oi_sent k raw : (k, raw) ∈ sent s → ∃ e, raw = JDoc e ∧ (k, e) ∈ log s }.

Lemma newest_elem k l e : newest k l = Some e → (k, e) ∈ l.
Proof.
  induction l as [|[k' e'] l IH]; simpl; [done|]. rewrite ->elem_of_cons.
  destruct (decide (k' = k)) as [->|]; [intros [= ->]; by left|right; auto].
Qed.

Lemma newest_largest k l e e' :
  StronglySorted later_is_larger l → newest k l = Some e → (k, e') ∈ l → (OGeneration e' ≤ OGeneration e)%N.
Proof.
  induction 1 as [|[k0 e0] l Hs IH Hall]; simpl; [done|]. rewrite ->elem_of_cons.
  destruct (decide (k0 = k)) as [->|Hne].
  - intros [= ->] [[= ->]|Hin]; [done|]. rewrite ->Forall_forall in Hall.
    by apply N.lt_le_incl, (Hall (k, e')).
  - intros He [[= -> ->]|Hin]; [done|auto].
Qed.

Lemma outbox_inv_initial s : outbox_initial s → outbox_inv s.
Proof.
  intros (Ho & Hr & Hm & Hu & Hl & Hs & Hre). split; rw ?Hm ?Hu ?Hl ?Hs ?Hre;
    intros *; try (by intros ?%elem_of_nil); try done; [by rw Hr|constructor|by rw Ho].
Qed.

(** Fewer reservations, the same entries. *)
Lemma inv_released d d' m u l se re :
  released_effect d d' →
  outbox_inv {| odb := d; matched := m; unacked := u; log := l; sent := se; retracted := re |} →
  outbox_inv {| odb := d'; matched := m; unacked := u; log := l; sent := se; retracted := re |}.
Proof.
  intros [HL HO _ HR] [I1 I2 I3 I4 I5 I6 I7 I8]. simpl in *.
  split; simpl; rw ?HL; try done.
  - intros k g Hk. by apply I2, HR.
  - intros k raw. rw HO. apply I4.
  - intros k e. rw HO. apply I5.
Qed.

Lemma inv_reserve d d' m u l se re id g :
  reserved_effect d id g d' →
  outbox_inv {| odb := d; matched := m; unacked := u; log := l; sent := se; retracted := re |} →
  outbox_inv {| odb := d'; matched := m; unacked := u; log := l; sent := se; retracted := re |}.
Proof.
  intros [Hg _ HL HO _ HR] [I1 I2 I3 I4 I5 I6 I7 I8]. simpl in *.
  split; simpl; rw ?HL; try done.
  - intros k e Hk. specialize (I1 k e Hk). lia.
  - intros k g'. rw HR. destruct (decide (id = k)) as [->|].
    + intros [= <-]. split; [done|]. intros e He. specialize (I1 k e He). lia.
    + intros Hk. destruct (I2 k g' Hk) as [? ?]. split; [lia|done].
  - intros k raw. rw HO. apply I4.
  - intros k e. rw HO. apply I5.
Qed.

Lemma inv_put d d' m u l se re id e :
  put_effect d id (OGeneration e) (JDoc e) d' →
  outbox_inv {| odb := d; matched := m; unacked := u; log := l; sent := se; retracted := re |} →
  outbox_inv {| odb := d'; matched := m; unacked := u; log := (id, e) :: l; sent := se; retracted := re |}.
Proof.
  intros [Hh HL HO _ HR] [I1 I2 I3 I4 I5 I6 I7 I8]. simpl in *.
  destruct (I2 id _ Hh) as [Hg Hlt].
  assert (∀ k raw (P : list _), (∃ e0, raw = JDoc e0 ∧ (k, e0) ∈ P) →
    ∃ e0, raw = JDoc e0 ∧ (k, e0) ∈ (id, e) :: P) as Hmore.
  { intros k raw P (e0 & -> & He0). exists e0. split; [done|]. by right. }
  split; simpl; rw ?HL.
  - intros k e'. rewrite ->elem_of_cons. intros [[= -> ->]|Hk]; [done|by eapply I1].
  - intros k g. rw HR. destruct (decide (id = k)) as [|Hne]; [done|]. intros Hk.
    destruct (I2 k g Hk) as [? Hl]. split; [done|]. intros e'. rewrite ->elem_of_cons.
    intros [[= -> ->]|?]; [done|auto].
  - constructor; [done|]. apply Forall_forall. intros [k e'] Hk. unfold later_is_larger. simpl.
    intros <-. by apply Hlt.
  - intros k raw. rw HO. destruct (decide (id = k)) as [->|]; [done|apply I4].
  - intros k e'. rw HO. destruct (decide (id = k)) as [->|]; [intros [= ->]; by left|apply I5].
  - intros k raw Hk. by apply Hmore, I6.
  - done.
  - intros k raw Hk. by apply Hmore, I8.
Qed.

(** Removing an entry that is accounted for. *)
Lemma inv_removed d d' m u l se re id raw :
  removed_effect d id raw d' → (id, raw) ∈ se ∨ (id, raw) ∈ re →
  outbox_inv {| odb := d; matched := m; unacked := u; log := l; sent := se; retracted := re |} →
  outbox_inv {| odb := d'; matched := m; unacked := u; log := l; sent := se; retracted := re |}.
Proof.
  intros [Hh HL HO _ HR] Hacc [I1 I2 I3 I4 I5 I6 I7 I8]. simpl in *.
  split; simpl; rw ?HL; try done.
  - intros k g. rw HR. apply I2.
  - intros k raw'. rw HO. destruct (decide (id = k)); [done|apply I4].
  - intros k e He. rw HO. destruct (decide (id = k)) as [->|]; [right|by apply I5].
    apply I4 in Hh. rw He in Hh. by injection Hh as <-.
Qed.

Lemma inv_history d m u l se re m' u' re' :
  outbox_inv {| odb := d; matched := m; unacked := u; log := l; sent := se; retracted := re |} →
  (∀ x, x ∈ m' → x ∈ m) → (∀ x, x ∈ u' → x ∈ u) → (∀ x, x ∈ re → x ∈ re') →
  outbox_inv {| odb := d; matched := m'; unacked := u'; log := l; sent := se; retracted := re' |}.
Proof.
  intros [I1 I2 I3 I4 I5 I6 I7 I8] Hm Hu Hre. simpl in *. split; simpl; try done.
  - intros k e He. destruct (I5 k e He) as [|[|]]; auto.
  - intros k raw Hk. by apply I6, Hm.
  - intros k raw Hk. by apply I7, Hu.
Qed.

Lemma inv_match d m u l se re id raw :
  bget d NotifyOutbox id = Some raw →
  outbox_inv {| odb := d; matched := m; unacked := u; log := l; sent := se; retracted := re |} →
  outbox_inv {| odb := d; matched := (id, raw) :: m; unacked := u; log := l; sent := se; retracted := re |}.
Proof.
  intros Hd [I1 I2 I3 I4 I5 I6 I7 I8]. simpl in *. split; simpl; try done.
  intros k r. rewrite ->elem_of_cons. intros [[= -> ->]|Hk]; [|by apply I6].
  apply I4, fmap_Some in Hd as (e & He & ->). exists e. split; [done|]. by apply newest_elem.
Qed.

Lemma inv_send d m u l se re id raw :
  (id, raw) ∈ m →
  outbox_inv {| odb := d; matched := m; unacked := u; log := l; sent := se; retracted := re |} →
  outbox_inv {| odb := d; matched := m; unacked := (id, raw) :: u; log := l;
                sent := (id, raw) :: se; retracted := re |}.
Proof.
  intros Hm [I1 I2 I3 I4 I5 I6 I7 I8]. simpl in *. split; simpl; try done.
  - intros k e He. rewrite ->elem_of_cons. destruct (I5 k e He) as [|[|]]; auto.
  - intros k r. rewrite ->!elem_of_cons. intros [|]; [by left|right; by apply I7].
  - intros k r. rewrite ->elem_of_cons. intros [[= -> ->]|]; [by apply I6|by apply I8].
Qed.

Lemma outbox_inv_step s s' : outbox_step s s' → outbox_inv s → outbox_inv s'.
Proof.
  intros Hstep Hinv. destruct Hstep as
    [d m u l se re id g d' H|d m u l se re id e b d' H|d m u l se re id g r d' H|d m u l se re id raw H
    |d m u l se re id raw H|d m u l se re id raw r d' H Hdel|d m u l se re id raw r d' Hdel|d m u l se re d' H
    |d m u l se re d' [HL HO HR]].
  - by eapply inv_reserve; [eapply Reserve_effect|].
  - apply Put_effect in H. destruct b; [by eapply inv_put|by subst d'].
  - by eapply inv_released; [eapply Release_effect|].
  - apply inv_match; [|done]. unfold OutboxEntryMatches, View in H. injection H as H.
    destruct (boltBucket d NotifyOutbox); simpl in H; [|done]. injection H as H. by apply bool_decide_eq_true in H.
  - by apply inv_send.
  - apply Delete_effect in Hdel as [Hrm| ->]; [|done]. eapply inv_removed; [done| |done].
    left. by apply (oi_unacked _ Hinv).
  - assert (outbox_inv {| odb := d; matched := m; unacked := u; log := l; sent := se;
      retracted := (id, raw) :: re |}) as Hinv'.
    { eapply inv_history; [done..|]. intros x Hx. by right. }
    apply Delete_effect in Hdel as [Hrm| ->]; [|done]. eapply inv_removed; [done| |done].
    right. by left.
  - apply clearTransient_effect in H as [Hr _]. eapply inv_released; [done|].
    eapply inv_history; [done|by intros ? []%elem_of_nil..|done].
  - destruct Hinv as [I1 I2 I3 I4 I5 I6 I7 I8]. simpl in *. split; simpl; rw ?HL; try done.
    + intros k g. rw HR. apply I2.
    + intros k raw. rw HO. apply I4.
    + intros k e. rw HO. apply I5.
Qed.

Definition outbox_reachable s : Prop := ∃ s0, outbox_initial s0 ∧ rtc outbox_step s0 s.

Lemma outbox_reachable_inv s : outbox_reachable s → outbox_inv s.
Proof.
  intros (s0 & Hinit & Hsteps). apply outbox_inv_initial in Hinit.
  induction Hsteps; [done|]. eauto using outbox_inv_step.
Qed.
End protocol.
