(* ===== verification/Delivery.v ===== *)
(** * Delivery of notifications

    The operations of the outbox are runs of the protocol of [OutboxLaws], so
    its invariants hold of them under every interleaving; staging stores the
    entry; a flush removes exactly the entries its peers accepted; and the
    mutation hook of the VFS writes to the outbox only, which is what the
    storage engine assumes of it. *)
From Stdlib Require Import Ascii String.
From S2P Require Import Prelude GoStrings Json Protocol Bolt Vfs Sha256 Journal Engine Gc Outbox OutboxLaws.
Local Open Scope stdpp_scope.

Section delivery.
Context {DB : Type} `{!Bolt DB} `{!BoltLaws DB}.

(** C7: no notification is lost.  Whatever stagings, deliveries,
    reconciliations and restarts interleave, the newest notification staged
    for a key is still queued, or was accepted by the peer, or was retracted
    by a reconciliation. *)
Theorem newest_notification_accounted (s : outbox_sys DB) k e :
  outbox_reachable s → newest k (log s) = Some e →
  bget (odb s) NotifyOutbox k = Some (JDoc e) ∨ (k, JDoc e) ∈ sent s ∨ (k, JDoc e) ∈ retracted s.
Proof. intros Hs%outbox_reachable_inv. apply (oi_accounted _ Hs). Qed.

(** A superseded staging never overwrites a newer one.  The entries
    stored for a key carry strictly increasing generations, and what is
    queued for the key is the entry of the largest. *)
Theorem stored_generations_increase (s : outbox_sys DB) :
  outbox_reachable s →
  StronglySorted later_is_larger (log s) ∧
  ∀ k raw, bget (odb s) NotifyOutbox k = Some raw →
    ∃ e, raw = JDoc e ∧ (k, e) ∈ log s ∧
         ∀ e', (k, e') ∈ log s → (OGeneration e' ≤ OGeneration e)%N.
Proof.
  intros Hs%outbox_reachable_inv. pose proof (oi_sorted _ Hs) as Hsort. split; [done|].
  intros k raw (e & He & ->)%(oi_stored _ Hs)%fmap_Some. exists e.
  split; [done|]. split; [by apply newest_elem|]. intros e'. by apply newest_largest.
Qed.

(** Staging as steps. *)
Lemma stageOutbox_steps now peer kind entity payload d m u l se re r d' :
  stageOutbox now peer kind entity payload d = (r, d') →
  rtc outbox_step
    {| odb := d; matched := m; unacked := u; log := l; sent := se; retracted := re |}
    {| odb := d'; matched := m; unacked := u;
       log := match r with Ok (a, true) => (StorageID a, AttemptEntry a) :: l | _ => l end;
       sent := se; retracted := re |}.
Proof.
  unfold stageOutbox. set (id := outboxKey _ _ _). unfold mbind at 1, st_bind.
  destruct (ReserveOutboxGeneration id d) as [[g|e] d1] eqn:H1.
  2:{ intros [= <- <-]. unfold ReserveOutboxGeneration in H1. by apply Update_spec in H1 as [(? & ? & _)|(? & _ & ->)]. }
  unfold deferred, mbind, st_bind. set (entry := mkEntry _ _ _ _ _ _ _).
  destruct (PutOutboxRawIfCurrentGeneration id g (JDoc entry) d1) as [[b|e] d2] eqn:H2; simpl.
  - destruct (ReleaseOutboxGeneration id g d2) as [r3 d3] eqn:H3. intros [= <- <-]. simpl.
    eapply rtc_l; [by eapply step_reserve|]. eapply rtc_l; [by eapply (step_put _ _ _ _ _ _ id entry)|].
    apply rtc_once. destruct b; by eapply step_release.
  - destruct (ReleaseOutboxGeneration id g d2) as [r3 d3] eqn:H3. intros [= <- <-]. simpl.
    assert (d2 = d1) as ->.
    { unfold PutOutboxRawIfCurrentGeneration in H2. by apply Update_spec in H2 as [(? & ? & _)|(? & _ & ->)]. }
    eapply rtc_l; [by eapply step_reserve|]. apply rtc_once. by eapply step_release.
Qed.

Lemma matches_run id raw d r d' :
  OutboxEntryMatches id raw d = (r, d') → d' = d ∧ (r = Ok true → bget d NotifyOutbox id = Some raw).
Proof.
  unfold OutboxEntryMatches, View. intros [= <- <-]. split; [done|].
  destruct (boltBucket d NotifyOutbox); simpl; [|done]. intros [= H]. by apply bool_decide_eq_true in H.
Qed.

(** Delivery as steps: an entry is removed only after the peer took it. *)
Lemma deliverOutboxAttempt_steps a send d m u l se re r d' :
  Durable a = true → deliverOutboxAttempt a send d = (r, d') →
  ∃ m' u' se',
    rtc outbox_step
      {| odb := d; matched := m; unacked := u; log := l; sent := se; retracted := re |}
      {| odb := d'; matched := m'; unacked := u'; log := l; sent := se'; retracted := re |} ∧
    (send ≠ Ok () → se' = se ∧ d' = d).
Proof.
  intros Hdur. unfold deliverOutboxAttempt. rw Hdur. set (id := StorageID a). set (raw := Raw a).
  unfold mbind at 1, st_bind. destruct (OutboxEntryMatches id raw d) as [r1 d1] eqn:H1.
  pose proof (matches_run _ _ _ _ _ H1) as [-> _]. destruct r1 as [[]|e]; simpl.
  - unfold mbind at 1, st_bind, of_res. destruct send as [[]|e].
    + unfold mbind, st_bind. destruct (DeleteOutboxEntryIfUnchanged id raw d) as [r2 d2] eqn:H2.
      intros Hrun. assert (d' = d2) as -> by (by destruct r2; injection Hrun).
      exists ((id, raw) :: m), ((id, raw) :: u), ((id, raw) :: se). split; [|done].
      eapply rtc_l; [by apply step_match|]. eapply rtc_l; [apply step_send; by left|].
      apply rtc_once. eapply step_ack; [by left|done].
    + intros [= <- <-]. exists m, u, se. by split; [apply rtc_refl|].
  - intros [= <- <-]. exists m, u, se. by split; [apply rtc_refl|].
  - intros [= <- <-]. exists m, u, se. by split; [apply rtc_refl|].
Qed.

(** ** Staging stores the entry *)

Definition generation_wf (d : DB) : Prop :=
  match bget d NotifyOutboxGenerations globalKey with Some raw => str_len raw = 8%nat | None => True end.

Definition outbox_ready (d : DB) : Prop :=
  bhas d NotifyOutbox = true ∧ bhas d NotifyOutboxGenerations = true ∧
  bhas d NotifyOutboxReservations = true ∧ generation_wf d ∧ (last_generation d < max_uint64)%N.

Lemma Reserve_ok `{!BoltReliable DB} d id :
  outbox_ready d → id ≠ "" → key_fits id →
  ∃ d1, ReserveOutboxGeneration id d = (Ok (last_generation d + 1)%N, d1) ∧
        reserved_effect d id (last_generation d + 1) d1 ∧ ∀ b, bhas d1 b = bhas d b.
Proof.
  intros (_ & Hg & Hr & Hwf & Hlt) Hid Hfit. unfold generation_wf in Hwf.
  destruct (bput_ok d NotifyOutboxGenerations globalKey (uint64_bytes (last_generation d + 1))) as [d1 H1];
    [done..|].
  destruct (bput_ok d1 NotifyOutboxReservations id (uint64_bytes (last_generation d + 1))) as [d2 H2];
    [by rw (bhas_put _ _ _ _ _ _ H1)|done..|].
  assert (ReserveOutboxGeneration id d = (Ok (last_generation d + 1)%N, d2)) as Hrun.
  { apply Update_ok. unfold reserveOutboxGenerationTx, boltBucket. rw Hg Hr. simpl.
    revert Hlt H1 H2. unfold last_generation.
    destruct (bget d NotifyOutboxGenerations globalKey) as [raw|]; simpl.
    - rw Hwf. simpl. intros Hlt H1 H2. destruct (N.eqb_spec (uint64_of raw) max_uint64); [lia|].
      by rw H1 /= H2.
    - intros _ H1 H2. by rw H1 /= H2. }
  exists d2. split; [done|]. split; [by apply Reserve_effect|].
  intros b. by rw (bhas_put _ _ _ _ _ _ H2) (bhas_put _ _ _ _ _ _ H1).
Qed.

Lemma Put_ok `{!BoltReliable DB} d id g e :
  bhas d NotifyOutbox = true → bhas d NotifyOutboxReservations = true → id ≠ "" → key_fits id →
  reservation d id = Some g →
  ∃ d', PutOutboxRawIfCurrentGeneration id g e d = (Ok true, d') ∧ put_effect d id g e d' ∧
        ∀ b, bhas d' b = bhas d b.
Proof.
  intros Ho Hr Hid Hfit Hres.
  destruct (bput_ok d NotifyOutbox id e) as [d1 H1]; [done..|].
  destruct (bdel_ok d1 NotifyOutboxReservations id) as [d2 H2]; [by rw (bhas_put _ _ _ _ _ _ H1)|].
  assert (PutOutboxRawIfCurrentGeneration id g e d = (Ok true, d2)) as Hrun.
  { apply Update_ok. unfold boltBucket. rw Ho Hr. simpl. unfold holdsReservation.
    rw bool_decide_eq_true_2 //. by rw H1 /= H2. }
  exists d2. split; [done|]. split; [by apply Put_effect in Hrun|].
  intros b. by rw (bhas_del _ _ _ _ _ H2) (bhas_put _ _ _ _ _ _ H1).
Qed.

Lemma Release_idle d id g :
  bhas d NotifyOutboxReservations = true → reservation d id = None → (ReleaseOutboxGeneration id g d).2 = d.
Proof.
  intros Hr Hres. unfold ReleaseOutboxGeneration, Update, boltBucket. rw Hr. simpl. unfold holdsReservation.
  unfold reservation in Hres. rw Hres bool_decide_eq_false_2 //. by destruct (bcommit d d).
Qed.

Lemma outboxKey_nonempty p k e : outboxKey p k e ≠ "".
Proof.
  unfold outboxKey. simpl. intros He. apply (f_equal str_len) in He. rw str_len_app in He.
  pose proof (encodePart_nonempty p) as Hne. destruct (encodePart p); [done|]. simpl in He. lia.
Qed.

(** Staging on a working database stores the notification under the key
    of its peer, kind and entity with the next generation, tells the caller
    it is current, leaves no reservation, and changes nothing else. *)
Theorem stageOutbox_stores `{!BoltReliable DB} now peer kind entity payload (d : DB) :
  outbox_ready d →
  key_fits (outboxKey peer kind (canonicalEntity kind entity payload)) →
  let id := outboxKey peer kind (canonicalEntity kind entity payload) in
  let entry := mkEntry id peer kind (canonicalEntity kind entity payload) (last_generation d + 1) payload now in
  ∃ d', stageOutbox now peer kind entity payload d = (Ok (mkAttempt id entry, true), d') ∧
    last_generation d' = (last_generation d + 1)%N ∧ reservation d' id = None ∧
    (∀ k, bget d' NotifyOutbox k = if decide (id = k) then Some (JDoc entry) else bget d NotifyOutbox k) ∧
    (∀ b k, outbox_bucket b = false → bget d' b k = bget d b k) ∧ (∀ b, bhas d' b = bhas d b).
Proof.
  intros Hready Hfit id entry. pose proof (outboxKey_nonempty peer kind (canonicalEntity kind entity payload)) as Hid.
  destruct (Reserve_ok d id Hready Hid Hfit) as (d1 & H1 & [_ _ L1 O1 F1 R1] & B1).
  destruct Hready as (Ho & Hg & Hr & _).
  destruct (Put_ok d1 id (last_generation d + 1) (JDoc entry)) as (d2 & H2 & [_ L2 O2 F2 R2] & B2);
    [by rw B1|by rw B1|done|done|rw R1; by destruct (decide (id = id))|].
  assert (reservation d2 id = None) as Hnone by (rw R2; by destruct (decide (id = id))).
  exists d2. split.
  { unfold stageOutbox, mbind, st_bind, deferred. fold id. rw H1. fold entry. rw H2. simpl.
    rw (Release_idle d2 id (last_generation d + 1)) //. by rw B2 B1. }
  split; [congruence|]. split; [done|]. split.
  - intros k. rw O2. by destruct (decide (id = k)).
  - split; [intros b k Hb; by rw F2 // F1|]. intros b. by rw B2 B1.
Qed.

(** C22: the operations of the outbox are runs of the protocol, in every state
    they may find.  Staging logs the entry exactly when it reports it as
    current; a delivery the peer refuses changes nothing. *)
Theorem outbox_operations_refine now peer kind entity payload a send (s : outbox_sys DB) :
  Durable a = true →
  (∃ s', rtc outbox_step s s' ∧ odb s' = (stageOutbox now peer kind entity payload (odb s)).2 ∧
     log s' = match (stageOutbox now peer kind entity payload (odb s)).1 with
              | Ok (a', true) => (StorageID a', AttemptEntry a') :: log s
              | _ => log s
              end) ∧
  (∃ s', rtc outbox_step s s' ∧ odb s' = (deliverOutboxAttempt a send (odb s)).2 ∧ log s' = log s ∧
     (send ≠ Ok () → sent s' = sent s ∧ odb s' = odb s)).
Proof.
  intros Hdur. destruct s as [d m u l se re]. split.
  - destruct (stageOutbox now peer kind entity payload d) as [r d'] eqn:Hrun.
    eexists. split; [by eapply stageOutbox_steps|]. simpl. by rw Hrun.
  - destruct (deliverOutboxAttempt a send d) as [r d'] eqn:Hrun.
    destruct (deliverOutboxAttempt_steps _ _ _ m u l se re _ _ Hdur Hrun) as (m' & u' & se' & Hsteps & Hfail).
    eexists. split; [exact Hsteps|]. simpl. by rw Hrun.
Qed.

(** ** A flush removes what the peers accepted *)

(** What is left of an entry. *)
Definition undelivered (send : outboxEntry → res unit) (k : string) (raw : json outboxEntry) : bool :=
  match raw with
  | JCorrupt _ => false
  | JDoc stored => match send (named k stored) with Ok _ => false | Err _ => true end
  end.

Lemma Delete_run `{!BoltReliable DB} id raw d :
  bhas d NotifyOutbox = true → bget d NotifyOutbox id = Some raw →
  ∃ d', DeleteOutboxEntryIfUnchanged id raw d = (Ok true, d') ∧ removed_effect d id raw d' ∧
        bhas d' NotifyOutbox = true.
Proof.
  intros Hb Hk. destruct (bdel_ok d NotifyOutbox id Hb) as [d' Hdel].
  assert (DeleteOutboxEntryIfUnchanged id raw d = (Ok true, d')) as Hrun.
  { apply Update_ok. unfold boltBucket. rw Hb. simpl. rw bool_decide_eq_true_2 //. by rw Hdel. }
  exists d'. split; [done|]. split; [|by rw (bhas_del _ _ _ _ _ Hdel)].
  pose proof Hrun as [?| ->]%Delete_effect; [done|]. exfalso.
  pose proof (bget_del _ _ _ _ id Hdel) as Hx. rw Hk in Hx. by destruct (decide (id = id)).
Qed.

Lemma deliver_one `{!BoltReliable DB} send id stored lock d :
  bhas d NotifyOutbox = true → bget d NotifyOutbox id = Some (JDoc stored) →
  let a := {| StorageID := id; LockID := lock; Raw := JDoc stored; AttemptEntry := named id stored;
              Durable := true |} in
  let d' := (deliverOutboxAttempt a (send (named id stored)) d).2 in
  bhas d' NotifyOutbox = true ∧
  ∀ k, bget d' NotifyOutbox k =
       if decide (id = k) then (if undelivered send id (JDoc stored) then Some (JDoc stored) else None)
       else bget d NotifyOutbox k.
Proof.
  intros Hb Hk a. unfold deliverOutboxAttempt, mbind, st_bind, OutboxEntryMatches, View, boltBucket, of_res.
  simpl. rw Hb. simpl. rw bool_decide_eq_true_2 //. simpl.
  destruct (send (named id stored)) as [[]|e] eqn:Hsend; simpl.
  - destruct (Delete_run id (JDoc stored) d Hb Hk) as (d' & -> & [_ _ HO _ _] & Hb'). simpl. done.
  - split; [done|]. intros k. by destruct (decide (id = k)) as [<-|].
Qed.

Lemma deliverAll_exact `{!BoltReliable DB} send l d :
  bhas d NotifyOutbox = true → NoDup l.*1 → (∀ k raw, (k, raw) ∈ l → bget d NotifyOutbox k = Some raw) →
  ∃ d', deliverAll send l d = (Ok (), d') ∧
    ∀ k, bget d' NotifyOutbox k =
         match bget d NotifyOutbox k with
         | Some raw => if bool_decide (k ∈ l.*1) && negb (undelivered send k raw) then None else Some raw
         | None => None
         end.
Proof.
  revert d. induction l as [|[id raw] l IH]; intros d Hb Hnd Hin.
  { exists d. split; [done|]. intros k. simpl. by destruct (bget d NotifyOutbox k). }
  apply NoDup_cons in Hnd as [Hid Hnd]. pose proof (Hin id raw ltac:(by left)) as Hraw.
  assert (∃ d1, deliverAll send ((id, raw) :: l) d = deliverAll send l d1 ∧ bhas d1 NotifyOutbox = true ∧
    ∀ k, bget d1 NotifyOutbox k =
      if decide (id = k) then (if undelivered send id raw then Some raw else None) else bget d NotifyOutbox k)
    as (d1 & -> & Hb1 & H1).
  { destruct raw as [stored|bytes]; simpl; unfold mbind, st_bind, attempt.
    - pose proof (deliver_one send id stored
        (if bool_decide (OEntity (named id stored) = "") then id
         else outboxKey (OPeerID (named id stored)) (OKind (named id stored)) (OEntity (named id stored)))
        d Hb Hraw) as [Hb1 H1].
      destruct (deliverOutboxAttempt _ _ d) as [r1 d1]. by exists d1.
    - destruct (Delete_run id (JCorrupt bytes) d Hb Hraw) as (d1 & -> & [_ _ HO _ _] & Hb1). by exists d1. }
  destruct (IH d1 Hb1 Hnd) as (d' & Hrun & Hd').
  { intros k r Hk. rw H1. destruct (decide (id = k)) as [<-|]; [|apply Hin; by right].
    destruct Hid. apply list_elem_of_fmap. by exists (id, r). }
  exists d'. split; [done|]. intros k. rw Hd' H1. cbn [fmap list_fmap fst].
  destruct (decide (id = k)) as [<-|Hne].
  - rw Hraw (bool_decide_eq_true_2 (id ∈ id :: l.*1)); [|by left]. simpl.
    destruct (undelivered send id raw) eqn:Hu; [|done]. by rw Hu andb_false_r.
  - destruct (bget d NotifyOutbox k) as [r|]; [|done].
    rw (bool_decide_ext (k ∈ l.*1) (k ∈ id :: l.*1)) //. rewrite ->elem_of_cons. naive_solver.
Qed.

(** Once the queue agrees with the catalog, a flush leaves exactly the
    entries whose peers refused them; undecodable entries are dropped. *)
Theorem flushOutbox_exact `{!BoltReliable DB} srv now send (d d1 : DB) :
  bhas d NotifyOutbox = true →
  reconcileActiveOutbox srv now (bforeach d NotifyOutbox) d = (Ok (), d1) →
  bhas d1 NotifyOutbox = true →
  ∃ d', flushOutbox srv now send d = (Ok (), d') ∧
    ∀ k, bget d' NotifyOutbox k =
         match bget d1 NotifyOutbox k with
         | Some raw => if undelivered send k raw then Some raw else None
         | None => None
         end.
Proof.
  intros Hb Hrec Hb1.
  assert (∀ x : DB, bhas x NotifyOutbox = true → ListOutboxRaw x = (Ok (bforeach x NotifyOutbox), x)) as Hlist.
  { intros x Hx. unfold ListOutboxRaw, View, boltBucket. by rw Hx. }
  unfold flushOutbox. unfold mbind at 1, st_bind, attempt. rw (Hlist d Hb).
  destruct (deliverAll_exact send (bforeach d1 NotifyOutbox) d1 Hb1) as (d' & Hrun & Hd').
  { apply (bforeach_nodup d1 NotifyOutbox). }
  { intros k raw. apply (bforeach_elem d1 NotifyOutbox). }
  exists (if bool_decide (bforeach d NotifyOutbox = []) then d1 else d').
  destruct (bforeach d NotifyOutbox) as [|x l] eqn:Hl.
  - simpl in Hrec. injection Hrec as <-. split; [done|]. intros k.
    destruct (bget d NotifyOutbox k) as [raw|] eqn:Hk; [|done].
    apply (bforeach_elem d NotifyOutbox) in Hk. rw Hl in Hk. by apply elem_of_nil in Hk.
  - unfold mbind, st_bind, attempt. rw Hrec (Hlist d1 Hb1) bool_decide_eq_false_2 //. split; [done|].
    intros k. rw Hd'. destruct (bget d1 NotifyOutbox k) as [raw|] eqn:Hk; [|done].
    rw bool_decide_eq_true_2; [by destruct (undelivered send k raw)|].
    apply list_elem_of_fmap. exists (k, raw). split; [done|]. by apply (bforeach_elem d1 NotifyOutbox).
Qed.
End delivery.

(** ** The hook of the VFS discharges what the engine assumes of a hook *)

Section hook.
Context {DB : Type} `{!Bolt DB} `{!BoltLaws DB}.
Variables (srv : Server) (now : time) (d0 : DB).

Definition outside_unchanged (d : DB) : Prop :=
  ∀ b k, outbox_bucket b = false → bget d b k = bget d0 b k.

Lemma outside_stage peer kind entity payload :
  preserves outside_unchanged (stageOutbox now peer kind entity payload).
Proof.
  unfold stageOutbox. apply preserves_bind; [|intros g; apply preserves_deferred; [apply preserves_bind|]].
  - intros d r d' Hd Hrun b k Hb. rw -(Hd b k Hb). unfold ReserveOutboxGeneration in Hrun.
    apply Update_spec in Hrun as [(g & -> & H)|(? & -> & ->)]; [|done].
    by apply (re_frame _ _ _ _ (reserveTx_effect _ _ _ _ H)).
  - intros d r d' Hd Hrun b k Hb. rw -(Hd b k Hb). destruct r as [[]|e].
    + by apply (pe_frame _ _ _ _ _ (Put_effect _ _ _ _ _ _ Hrun)).
    + apply Put_effect in Hrun. by subst.
    + unfold PutOutboxRawIfCurrentGeneration in Hrun.
      by apply Update_spec in Hrun as [(? & ? & _)|(? & _ & ->)].
  - intros b. apply preserves_ret.
  - intros d r d' Hd Hrun b k Hb. rw -(Hd b k Hb).
    by apply (le_frame _ _ (Release_effect _ _ _ _ _ Hrun)).
Qed.

Lemma outside_delete id raw : preserves outside_unchanged (DeleteOutboxEntryIfUnchanged id raw).
Proof.
  intros d r d' Hd Hrun b k Hb. rw -(Hd b k Hb). apply Delete_effect in Hrun as [Hrm| ->]; [|done].
  by apply (rm_frame _ _ _ _ Hrm).
Qed.

Lemma outside_current entity : preserves outside_unchanged (currentNotificationPayload srv kindVFS entity).
Proof.
  unfold currentNotificationPayload.
  rw (bool_decide_eq_false_2 (kindVFS = kindPipeline)) // (bool_decide_eq_false_2 (kindVFS = kindService)) //.
  rw bool_decide_eq_true_2 //. apply preserves_bind; [|intros; apply preserves_ret].
  by intros d r d' Hd [= _ <-].
Qed.

Lemma outside_reconcile m payload attempts reconciled :
  preserves outside_unchanged (reconcileAttempts now m payload attempts reconciled).
Proof.
  revert reconciled. induction attempts as [|a attempts IH]; intros reconciled; simpl; [apply preserves_ret|].
  destruct payload; apply preserves_bind; auto using outside_stage, outside_delete.
Qed.

Lemma outside_finish m committed :
  StagedKind m = kindVFS → preserves outside_unchanged (finish srv now m committed).
Proof.
  intros Hm. unfold finish. destruct committed; [apply preserves_ret|]. unfold reconcileCurrent. rw Hm.
  apply preserves_bind; [apply outside_current|]. intros. apply outside_reconcile.
Qed.

Lemma outside_peers m payload peers :
  StagedKind m = kindVFS → preserves outside_unchanged (stageForPeers srv now m payload peers).
Proof.
  revert m. induction peers as [|p peers IH]; intros m Hm; simpl; [apply preserves_ret|].
  apply preserves_bind; [apply preserves_attempt, outside_stage|]. intros [[a c]|e].
  - by apply IH.
  - apply preserves_bind; [exact (preserves_attempt _ _ (outside_finish m false Hm))|].
    intros. apply preserves_fail.
Qed.
End hook.

#[export] Instance vfsHook_frame `{!Bolt DB, !BoltLaws DB} srv now :
  @MutationHookFrame DB _ (vfsHook srv now).
Proof.
  split; simpl.
  - intros e d b k Hb. unfold prepareOutboxMutation. destruct (stageForPeers _ _ _ _ _ d) as [r d'] eqn:Hrun.
    revert b k Hb. change (outside_unchanged d d'). by eapply outside_peers; [..|exact Hrun].
  - intros [en l] c d b k Hb. simpl. destruct (finish _ _ _ c d) as [r d'] eqn:Hrun.
    revert b k Hb. change (outside_unchanged d d'). by eapply outside_finish; [..|exact Hrun].
Qed.

(** ** Witnesses *)

Definition outbox_start : outbox_sys memdb :=
  {| odb := memdb_init; matched := []; unacked := []; log := []; sent := []; retracted := [] |}.

Definition staged_once : memdb :=
  (stageOutbox 0 "peer" kindVFS "a" (PeerNotification file_a "addr") memdb_init).2.

Definition staged_entry : outboxEntry :=
  mkEntry (outboxKey "peer" kindVFS "a") "peer" kindVFS "a" 1 (PeerNotification file_a "addr") 0.

Definition outbox_after : outbox_sys memdb :=
  {| odb := staged_once; matched := []; unacked := []; log := [(outboxKey "peer" kindVFS "a", staged_entry)];
     sent := []; retracted := [] |}.

Lemma outbox_after_reachable : outbox_reachable outbox_after.
Proof.
  exists outbox_start. split; [by repeat split|].
  assert ((stageOutbox 0 "peer" kindVFS "a" (PeerNotification file_a "addr") memdb_init).1 =
    Ok (mkAttempt (outboxKey "peer" kindVFS "a") staged_entry, true)) as Hrun%run_result by (vm_compute; reflexivity).
  exact (stageOutbox_steps _ _ _ _ _ _ [] [] [] [] [] _ _ Hrun).
Qed.

Lemma newest_notification_accounted_witness :
  let k := outboxKey "peer" kindVFS "a" in
  bget staged_once NotifyOutbox k = Some (JDoc staged_entry) ∨ (k, JDoc staged_entry) ∈ sent outbox_after ∨
  (k, JDoc staged_entry) ∈ retracted outbox_after.
Proof.
  apply (newest_notification_accounted outbox_after (outboxKey "peer" kindVFS "a") staged_entry).
  - exact outbox_after_reachable.
  - vm_compute. reflexivity.
Defined.

Lemma stored_generations_increase_witness :
  StronglySorted later_is_larger (log outbox_after) ∧
  ∀ k raw, bget staged_once NotifyOutbox k = Some raw →
    ∃ e, raw = JDoc e ∧ (k, e) ∈ log outbox_after ∧
         ∀ e', (k, e') ∈ log outbox_after → (OGeneration e' ≤ OGeneration e)%N.
Proof. apply (stored_generations_increase outbox_after). exact outbox_after_reachable. Defined.

Lemma stageOutbox_stores_witness :
  let notice := PeerNotification file_a "addr" in
  let id := outboxKey "peer" kindVFS (canonicalEntity kindVFS "a" notice) in
  let entry := mkEntry id "peer" kindVFS (canonicalEntity kindVFS "a" notice) (last_generation memdb_init + 1) notice 0 in
  ∃ d', stageOutbox 0 "peer" kindVFS "a" notice memdb_init = (Ok (mkAttempt id entry, true), d') ∧
    last_generation d' = (last_generation memdb_init + 1)%N ∧ reservation d' id = None ∧
    (∀ k, bget d' NotifyOutbox k =
          if decide (id = k) then Some (JDoc entry) else bget memdb_init NotifyOutbox k) ∧
    (∀ b k, outbox_bucket b = false → bget d' b k = bget memdb_init b k) ∧ (∀ b, bhas d' b = bhas memdb_init b).
Proof.
  apply (stageOutbox_stores 0 "peer" kindVFS "a" (PeerNotification file_a "addr") memdb_init).
  - by repeat split.
  - unfold key_fits. vm_compute. discriminate.
Defined.

Lemma outbox_operations_refine_witness :
  ∃ s', rtc outbox_step outbox_after s' ∧
    odb s' = (deliverOutboxAttempt (mkAttempt (outboxKey "peer" kindVFS "a") staged_entry) (Ok ()) staged_once).2 ∧
    log s' = log outbox_after ∧ (Ok () ≠ Ok () → sent s' = [] ∧ odb s' = staged_once).
Proof.
  apply (outbox_operations_refine 0 "peer" kindVFS "a" (PeerNotification file_a "addr")
           (mkAttempt (outboxKey "peer" kindVFS "a") staged_entry) (Ok ()) outbox_after).
  reflexivity.
Defined.

Definition plain_server : Server :=
  {| ServerID := "me"; ServerAddress := "addr"; PeerIDs := ["me"; "peer"]; Services := Ok ∅ |}.

(** A node with one indexed file and its notification queued. *)
Definition queued_notice : memdb :=
  (stageOutbox 0 "peer" kindVFS "a" (PeerNotification file_a "addr") (indexed_db file_a)).2.

Definition reconciled_notice : memdb :=
  (reconcileActiveOutbox plain_server 0 (bforeach queued_notice NotifyOutbox) queued_notice).2.

Lemma flushOutbox_exact_witness :
  ∃ d', flushOutbox plain_server 0 (λ _, Ok ()) queued_notice = (Ok (), d') ∧
    ∀ k, bget d' NotifyOutbox k =
         match bget reconciled_notice NotifyOutbox k with
         | Some raw => if undelivered (λ _, Ok ()) k raw then Some raw else None
         | None => None
         end.
Proof.
  apply (flushOutbox_exact plain_server 0 (λ _, Ok ()) queued_notice reconciled_notice);
    [reflexivity|apply run_result; vm_compute; reflexivity|reflexivity].
Defined.
