(* ===== verification/PeerRegistry.v ===== *)
(** * The peer registry

    [internal/server/registry.go]: one record per peer, holding its announced
    addresses, whether it is online, its services and its certificate; the
    durable copy of the records ([SavePeer], [DeletePeer], [LoadPeers] of
    [internal/storage/storage_engine.go]), the server operations that keep the
    two together ([internal/server/peers.go]) and the choice of a sponsor
    ([internal/server/sponsor.go]).  The registry's mutex makes each operation
    one step; certificates are opaque values. *)
From Stdlib Require Import String.
From S2P Require Import Prelude GoStrings Json Protocol Bolt.
Local Open Scope stdpp_scope.

(** ** Peers on disk *)

Section peer_store.
Context {DB : Type} `{!Bolt DB}.

Definition boltPutKeyed (b : bucket) (key : string) (v : val b) : ST DB unit := λ d,
  Update d (λ tx, tx' ← boltPut tx b key v; Ok ((), tx')).

Definition boltDeleteKeyed (b : bucket) (key : string) : ST DB unit := λ d,
  Update d (λ tx, tx' ← boltDelete tx b key; Ok ((), tx')).

Definition SavePeer (peerID : string) (record : AddressRecord) : ST DB unit :=
  boltPutKeyed Peers peerID (JDoc record).

Definition DeletePeer (peerID : string) : ST DB unit := boltDeleteKeyed Peers peerID.

Definition LoadPeers (d : DB) : res (gmap string AddressRecord) := boltLoadMapJSON Peers (λ v, v) d.
End peer_store.

(** ** The registry *)

Section registry.
Context {Cert : Type}.

Record peerState := {
  record : AddressRecord;
  hasRecord : bool;
  online : bool;
  lastError : string;
  services : gmap string ServiceSchema;
  cert : option Cert }.

Record PeerRegistry := { nodeID : string; peers : gmap string peerState }.

Definition noAddress : AddressRecord := {| Addresses := []; Sequence := 0; IsSponsor := false |}.

Definition emptyPeer : peerState :=
  {| record := noAddress; hasRecord := false; online := false; lastError := ""; services := ∅; cert := None |}.

Definition NewPeerRegistry (id : string) : PeerRegistry := {| nodeID := id; peers := ∅ |}.

Implicit Types (pr : PeerRegistry) (st : peerState) (rec : AddressRecord).

Definition with_peers (f : gmap string peerState → gmap string peerState) pr : PeerRegistry :=
  {| nodeID := nodeID pr; peers := f (peers pr) |}.

(** [stateLocked] creates the entry it returns; an update of the entry is a
    write through the pointer. *)
Definition stateLocked pr (peerID : string) : peerState := default emptyPeer (peers pr !! peerID).

Definition updateState (peerID : string) (f : peerState → peerState) pr : PeerRegistry :=
  with_peers (<[peerID := f (stateLocked pr peerID)]>) pr.

Definition markOnlineLocked st : peerState :=
  {| record := record st; hasRecord := hasRecord st; online := true; lastError := "";
     services := services st; cert := cert st |}.

Definition primaryAddr rec : option string := head (Addresses rec).

(** The peers a new announcement replaces: registered under another id with
    the same primary address. *)
Definition staleAt pr (peerID addr : string) : list string :=
  fst <$> filter (λ kv, kv.1 ≠ peerID ∧ hasRecord kv.2 = true ∧ primaryAddr (record kv.2) = Some addr)
            (map_to_list (peers pr)).

Definition evictStale pr (peerID : string) rec : list string * PeerRegistry :=
  match primaryAddr rec with
  | None => ([], pr)
  | Some addr =>
      let evicted := staleAt pr peerID addr in
      (evicted, with_peers (λ m, foldr delete m evicted) pr)
  end.

(** Existing addresses first, then the new ones not seen yet. *)
Fixpoint appendUnique (merged fresh : list string) : list string :=
  match fresh with
  | [] => merged
  | a :: rest => appendUnique (if bool_decide (a ∈ merged) then merged else merged ++ [a]) rest
  end.

Definition mergeRecord (existing rec : AddressRecord) : AddressRecord :=
  if bool_decide (Sequence rec = Sequence existing)
  then {| Addresses := appendUnique (Addresses existing) (Addresses rec);
          Sequence := Sequence rec; IsSponsor := IsSponsor rec |}
  else rec.

Definition withRecord rec st : peerState :=
  markOnlineLocked {| record := rec; hasRecord := true; online := online st; lastError := lastError st;
                      services := services st; cert := cert st |}.

Definition AddPeer (peerID : string) rec pr : (bool * list string) * PeerRegistry :=
  if bool_decide (peerID = nodeID pr) then ((false, []), pr)
  else
    let '(evicted, pr) := evictStale pr peerID rec in
    let pr := updateState peerID id pr in
    let st := stateLocked pr peerID in
    if hasRecord st && (Sequence rec <? Sequence (record st))%Z then ((false, evicted), pr)
    else
      let rec := if hasRecord st then mergeRecord (record st) rec else rec in
      ((true, evicted), updateState peerID (withRecord rec) pr).

Definition RegistryRemovePeer (peerID : string) pr : PeerRegistry := with_peers (delete peerID) pr.

(** [err] is the text of the connection error, if there is one. *)
Definition SetPeerOffline (peerID : string) (err : option string) pr : PeerRegistry :=
  updateState peerID (λ st,
    {| record := record st; hasRecord := hasRecord st; online := false;
       lastError := match err with
                    | Some e => "offline or could not reach: " +:+ e
                    | None => "offline"
                    end;
       services := services st; cert := cert st |}) pr.

Definition SetPeerOnline (peerID : string) (isOnline : bool) pr : PeerRegistry :=
  if negb isOnline then SetPeerOffline peerID None pr
  else updateState peerID markOnlineLocked pr.

Definition GetPeerError pr (peerID : string) : string :=
  match peers pr !! peerID with Some st => lastError st | None => "" end.

Definition IsPeerOnline pr (peerID : string) : bool :=
  match peers pr !! peerID with Some st => online st | None => false end.

Definition primaryPeerAddrs (m : gmap string peerState) (keep : AddressRecord → bool) : gmap string string :=
  omap (λ st, if hasRecord st && keep (record st) then primaryAddr (record st) else None) m.

Definition GetPeersCopy pr : gmap string string := primaryPeerAddrs (peers pr) (λ _, true).

Definition GetPeerRecord pr (peerID : string) : option AddressRecord :=
  match peers pr !! peerID with
  | Some st => if hasRecord st then Some (record st) else None
  | None => None
  end.

Definition GetPeersRecordCopy pr : gmap string AddressRecord :=
  omap (λ st, if hasRecord st then Some (record st) else None) (peers pr).

Definition GetSponsorPeers pr : gmap string string := primaryPeerAddrs (peers pr) IsSponsor.

Definition GetClusterServices pr (peerID : string) : gmap string ServiceSchema :=
  match peers pr !! peerID with Some st => services st | None => ∅ end.

(** The first peer that offers the service, in the order Go's [range] visits
    the map; the order is an argument of [GetServiceSchema]. *)
Fixpoint findService (order : list (string * peerState)) (serviceName : string) : option ServiceSchema :=
  match order with
  | [] => None
  | (_, st) :: rest =>
      match services st !! serviceName with
      | Some schema => Some schema
      | None => findService rest serviceName
      end
  end.

Definition GetServiceSchema (rangeOrder : list (string * peerState) → list (string * peerState)) pr
    (serviceName : string) : option ServiceSchema :=
  findService (rangeOrder (map_to_list (peers pr))) serviceName.

Definition UpdatePeerService (peerID action : string) (schema : ServiceSchema) pr : PeerRegistry :=
  updateState peerID (λ st,
    {| record := record st; hasRecord := hasRecord st; online := online st; lastError := lastError st;
       services :=
         if bool_decide (action = ActionAdd)
         then let schema := NormalizeServiceSchema (SName schema) schema (SType schema) in
              <[SName schema := schema]> (services st)
         else if bool_decide (action = ActionRemove) then delete (SName schema) (services st)
         else services st;
       cert := cert st |}) pr.

Definition SetPeerCertificate (peerID : string) (c : option Cert) pr : PeerRegistry :=
  updateState peerID (λ st,
    {| record := record st; hasRecord := hasRecord st; online := online st; lastError := lastError st;
       services := services st; cert := c |}) pr.

Definition GetPeerCertificate pr (peerID : string) : option Cert :=
  match peers pr !! peerID with Some st => cert st | None => None end.

(** ** The server's view: registry and durable records together *)

Section server_peers.
Context {DB : Type} `{!Bolt DB}.

Definition deletePeers (ids : list string) (d : DB) : DB := foldl (λ d id, (DeletePeer id d).2) d ids.

(** The routes of the peer client and the background work are outside the
    model; failures of the store are logged only. *)
Definition Server_AddPeer (peerID : string) rec (s : PeerRegistry * DB) : PeerRegistry * DB :=
  let '((updated, evicted), pr) := AddPeer peerID rec s.1 in
  let d := deletePeers evicted s.2 in
  (pr, if updated : bool then (SavePeer peerID rec d).2 else d).

Definition Server_RemovePeer (peerID : string) (s : PeerRegistry * DB) : PeerRegistry * DB :=
  (RegistryRemovePeer peerID s.1, (DeletePeer peerID s.2).2).
End server_peers.
End registry.
Arguments peerState : clear implicits.
Arguments PeerRegistry : clear implicits.

(** ** Sponsors *)

Record SponsorCandidate := { CandID : string; CandAddr : string; CandOnline : bool }.

Definition cand_le (a b : SponsorCandidate) : Prop := String.le (CandID a) (CandID b).
#[export] Instance cand_le_dec : RelDecision cand_le.
Proof. intros a b. unfold cand_le. apply _. Defined.

(** The loop over the ordered candidates: the first online one, else the
    first acceptable one. *)
Fixpoint pickSponsor (ordered : list SponsorCandidate) (currentAddr : string) (fallback : option SponsorCandidate)
    : option SponsorCandidate :=
  match ordered with
  | [] => fallback
  | c :: rest =>
      if bool_decide (CandAddr c = currentAddr) || bool_decide (CandAddr c = "")
      then pickSponsor rest currentAddr fallback
      else if CandOnline c then Some c
      else pickSponsor rest currentAddr (match fallback with None => Some c | Some f => Some f end)
  end.

Definition FirstOnlineSponsorSelector_Select (candidates : list SponsorCandidate) (currentAddr : string)
    : option SponsorCandidate :=
  pickSponsor (merge_sort cand_le candidates) currentAddr None.

Section sponsors.
Context {Cert : Type}.
Implicit Types pr : PeerRegistry Cert.

Definition sponsorCandidates pr : list SponsorCandidate :=
  merge_sort cand_le
    ((λ kv : string * string, {| CandID := kv.1; CandAddr := kv.2; CandOnline := IsPeerOnline pr kv.1 |})
       <$> map_to_list (GetSponsorPeers pr)).

Definition selectSponsor pr (currentAddr : string) : option string :=
  CandAddr <$> FirstOnlineSponsorSelector_Select (sponsorCandidates pr) currentAddr.

Definition sponsorStillCapable pr (addr : string) : bool :=
  negb (bool_decide (addr = "")) &&
  existsb (λ c, bool_decide (CandAddr c = addr)) (sponsorCandidates pr).

(** The sponsor the peer client uses afterwards, given the one it uses now. *)
Definition reconcileSponsor pr (current : string) : string :=
  if bool_decide (current = "") then default "" (selectSponsor pr "")
  else if sponsorStillCapable pr current then current
  else default current (selectSponsor pr current).
End sponsors.
