(* ===== verification/RegistryLaws.v ===== *)
(** * Laws of the peer registry

    Registered peers have distinct primary addresses, only an announcement
    registers a peer, announcements never go back in sequence, and the choice
    of a sponsor is the first acceptable candidate, online ones first.  Two
    runs at the end show where an announcement has effects it should not. *)
From Stdlib Require Import String.
From S2P Require Import Prelude GoStrings Json Protocol Bolt PeerRegistry.
Local Open Scope stdpp_scope.

Section laws.
Context {Cert : Type}.
Implicit Types (pr : PeerRegistry Cert) (st : peerState Cert) (rec : AddressRecord).

Inductive registry_op :=
  | OpAddPeer (peerID : string) (rec : AddressRecord)
  | OpRemovePeer (peerID : string)
  | OpOnline (peerID : string) (isOnline : bool)
  | OpOffline (peerID : string) (err : option string)
  | OpService (peerID action : string) (schema : ServiceSchema)
  | OpCertificate (peerID : string) (c : option Cert).

Definition run_registry (op : registry_op) pr : PeerRegistry Cert :=
  match op with
  | OpAddPeer p rec => (AddPeer p rec pr).2
  | OpRemovePeer p => RegistryRemovePeer p pr
  | OpOnline p b => SetPeerOnline p b pr
  | OpOffline p err => SetPeerOffline p err pr
  | OpService p action schema => UpdatePeerService p action schema pr
  | OpCertificate p c => SetPeerCertificate p c pr
  end.

(** ** Records after an operation *)

Lemma GetPeerRecord_update pr p f q :
  (∀ st, record (f st) = record st) → (∀ st, hasRecord (f st) = hasRecord st) →
  GetPeerRecord (updateState p f pr) q = GetPeerRecord pr q.
Proof.
  intros Hr Hh. unfold GetPeerRecord, updateState, with_peers, stateLocked. simpl. rw lookup_insert.
  destruct (decide (p = q)) as [->|]; [|done]. rw Hr Hh. by destruct (peers pr !! q).
Qed.

Lemma foldr_delete_lookup {V} (l : list string) (m : gmap string V) k :
  foldr delete m l !! k = if decide (k ∈ l) then None else m !! k.
Proof.
  induction l as [|x l IH]; simpl; [done|]. rw lookup_delete IH.
  destruct (decide (x = k)) as [->|Hne]; [by rw decide_True; [done|left]|].
  destruct (decide (k ∈ l)); [by rw decide_True; [done|right]|].
  rw decide_False //. intros [->|?]%elem_of_cons; done.
Qed.

Lemma staleAt_elem pr p a q :
  q ∈ staleAt pr p a ↔ q ≠ p ∧ ∃ rec, GetPeerRecord pr q = Some rec ∧ primaryAddr rec = Some a.
Proof.
  unfold staleAt, GetPeerRecord. rw list_elem_of_fmap. split.
  - intros ([k st] & -> & [(Hne & Hh & Ha) Hin]%list_elem_of_filter). simpl in *.
    apply elem_of_map_to_list in Hin. rw Hin Hh. by eauto.
  - intros (Hne & rec & Hq & Ha). destruct (peers pr !! q) as [st|] eqn:Hst; [|done].
    destruct (hasRecord st) eqn:Hh; [|done]. injection Hq as <-. exists (q, st). split; [done|].
    apply list_elem_of_filter. split; [done|]. by apply elem_of_map_to_list.
Qed.

(** Eviction removes exactly the stale peers' records. *)
Definition stale pr p rec q : Prop := q ∈ (evictStale pr p rec).1.

Lemma stale_iff pr p rec q :
  stale pr p rec q ↔ q ≠ p ∧ ∃ a r, primaryAddr rec = Some a ∧ GetPeerRecord pr q = Some r ∧ primaryAddr r = Some a.
Proof.
  unfold stale, evictStale. destruct (primaryAddr rec) as [a|]; simpl.
  - rw staleAt_elem. naive_solver.
  - rw elem_of_nil. naive_solver.
Qed.

Lemma evict_lookup pr p rec q :
  peers (evictStale pr p rec).2 !! q = if decide (q ∈ (evictStale pr p rec).1) then None else peers pr !! q.
Proof.
  unfold evictStale. destruct (primaryAddr rec); cbn [fst snd]; [apply foldr_delete_lookup|].
  by destruct (decide (q ∈ [])) as [?%elem_of_nil|].
Qed.

Lemma evict_record pr p rec q :
  GetPeerRecord (evictStale pr p rec).2 q =
  if decide (q ∈ (evictStale pr p rec).1) then None else GetPeerRecord pr q.
Proof. unfold GetPeerRecord. rw evict_lookup. by destruct (decide _). Qed.

Lemma evict_nodeID pr p rec : nodeID (evictStale pr p rec).2 = nodeID pr.
Proof. unfold evictStale. by destruct (primaryAddr rec). Qed.

(** What an announcement does to the records. *)
Record added p rec pr (r : bool * list string) pr' : Prop := {
  ad_self : p = nodeID pr → r = (false, []) ∧ pr' = pr;
  ad_node : nodeID pr' = nodeID pr;
  ad_evicted q : p ≠ nodeID pr → q ∈ r.2 ↔ stale pr p rec q;
  ad_other q : p ≠ nodeID pr → q ≠ p →
    GetPeerRecord pr' q = if decide (q ∈ r.2) then None else GetPeerRecord pr q;
  ad_written : r.1 = true → p ≠ nodeID pr ∧ GetPeerRecord pr' p = Some
    (match GetPeerRecord pr p with Some old => mergeRecord old rec | None => rec end) ∧
    (∀ old, GetPeerRecord pr p = Some old → Sequence old ≤ Sequence rec)%Z;
  ad_ignored : p ≠ nodeID pr → r.1 = false →
    GetPeerRecord pr' p = GetPeerRecord pr p ∧
    ∃ old, GetPeerRecord pr p = Some old ∧ (Sequence rec < Sequence old)%Z }.

Lemma stateLocked_record pr p :
  GetPeerRecord pr p = if hasRecord (stateLocked pr p) then Some (record (stateLocked pr p)) else None.
Proof. unfold GetPeerRecord, stateLocked. by destruct (peers pr !! p). Qed.

Lemma AddPeer_added p rec pr : added p rec pr (AddPeer p rec pr).1 (AddPeer p rec pr).2.
Proof.
  unfold AddPeer. case_bool_decide as Hself; simpl; [by split|].
  pose proof (stale_iff pr p rec) as Hstale. pose proof (evict_record pr p rec) as Hrec.
  pose proof (evict_nodeID pr p rec) as Hnode. unfold stale in Hstale.
  destruct (evictStale pr p rec) as [ev pr1]. simpl in *.
  assert (GetPeerRecord pr1 p = GetPeerRecord pr p) as Hp.
  { rw Hrec. destruct (decide (p ∈ ev)) as [Hin|]; [|done]. by apply Hstale in Hin as [? _]. }
  set (pr2 := updateState p id pr1).
  assert (∀ q, GetPeerRecord pr2 q = GetPeerRecord pr1 q) as H2 by (intros; by apply GetPeerRecord_update).
  pose proof (stateLocked_record pr2 p) as Hst. rw H2 Hp in Hst.
  assert (∀ f q, q ≠ p → GetPeerRecord (updateState p f pr2) q = GetPeerRecord pr1 q) as Hother.
  { intros f q Hne. rw -H2. unfold GetPeerRecord, updateState. simpl. by rw lookup_insert_ne. }
  assert (∀ r, GetPeerRecord (updateState p (withRecord r) pr2) p = Some r) as Hnew.
  { intros r. unfold GetPeerRecord, updateState. simpl. by rw lookup_insert_eq. }
  destruct (hasRecord (stateLocked pr2 p)) eqn:Hh; simpl.
  - destruct (Z.ltb_spec (Sequence rec) (Sequence (record (stateLocked pr2 p)))) as [Hlt|Hge]; simpl.
    + split; simpl; try done.
      * intros q _. by rw Hstale stale_iff.
      * intros q _ Hne. by rw H2 Hrec.
      * intros _ _. rw H2 Hp. split; [done|]. eauto.
    + split; simpl; try done.
      * intros q _. by rw Hstale stale_iff.
      * intros q _ Hne. by rw Hother // Hrec.
      * intros _. split; [done|]. rw Hnew Hst. split; [done|]. by intros old [= <-].
  - split; simpl; try done.
    + intros q _. by rw Hstale stale_iff.
    + intros q _ Hne. by rw Hother // Hrec.
    + intros _. split; [done|]. by rw Hnew Hst.
Qed.

(** ** Invariants *)

(** No operation but an announcement and a removal touches a record. *)
Lemma run_registry_record op pr q :
  (∀ rec p, op ≠ OpAddPeer p rec) → (∀ p, op ≠ OpRemovePeer p) →
  GetPeerRecord (run_registry op pr) q = GetPeerRecord pr q.
Proof.
  intros Hadd Hrem. destruct op as [p rec|p|p b|p err|p action schema|p c]; simpl.
  - by destruct (Hadd rec p).
  - by destruct (Hrem p).
  - unfold SetPeerOnline. destruct b; simpl; by apply GetPeerRecord_update.
  - by apply GetPeerRecord_update.
  - by apply GetPeerRecord_update.
  - by apply GetPeerRecord_update.
Qed.

Lemma run_registry_node op pr : nodeID (run_registry op pr) = nodeID pr.
Proof.
  destruct op as [p rec|p|p [] |p err|p action schema|p c]; try done. apply (ad_node _ _ _ _ _ (AddPeer_added p rec pr)).
Qed.

Lemma remove_record p pr q :
  GetPeerRecord (RegistryRemovePeer p pr) q = if decide (p = q) then None else GetPeerRecord pr q.
Proof.
  unfold GetPeerRecord, RegistryRemovePeer. simpl. rw lookup_delete. by destruct (decide _).
Qed.

Record registry_inv pr : Prop := {
  ri_self : GetPeerRecord pr (nodeID pr) = None;
  ri_primary p q r s a : GetPeerRecord pr p = Some r → GetPeerRecord pr q = Some s →
    primaryAddr r = Some a → primaryAddr s = Some a → p = q }.

Lemma appendUnique_primary l l' : l ≠ [] → head (appendUnique l l') = head l.
Proof.
  revert l. induction l' as [|a l' IH]; intros l Hne; simpl; [done|]. rw IH; [|by case_bool_decide; destruct l].
  case_bool_decide; [done|]. by destruct l.
Qed.

Lemma appendUnique_nil l : head (appendUnique [] l) = head l.
Proof. destruct l as [|a l]; simpl; [done|]. by rw appendUnique_primary. Qed.

(** The primary address of a merged record is the old one, or the new one
    where there was none. *)
Lemma mergeRecord_primary old rec :
  primaryAddr (mergeRecord old rec) = primaryAddr old ∨ primaryAddr (mergeRecord old rec) = primaryAddr rec.
Proof.
  unfold mergeRecord, primaryAddr. case_bool_decide; simpl; [|by right].
  destruct (Addresses old) as [|a l]; [right; apply appendUnique_nil|left; by rw appendUnique_primary].
Qed.

Lemma registry_inv_new id : registry_inv (NewPeerRegistry id).
Proof.
  assert (∀ q, GetPeerRecord (NewPeerRegistry (Cert := Cert) id) q = None) as Hnone.
  { intros q. unfold GetPeerRecord. simpl. by rw lookup_empty. }
  split; [apply Hnone|]. intros p q r s a Hp. by rw Hnone in Hp.
Qed.

Lemma registry_inv_subset pr pr' :
  nodeID pr' = nodeID pr → (∀ q r, GetPeerRecord pr' q = Some r → GetPeerRecord pr q = Some r) →
  registry_inv pr → registry_inv pr'.
Proof.
  intros Hn Hsub [Hself Hprim]. split.
  - rw Hn. destruct (GetPeerRecord pr' (nodeID pr)) as [r|] eqn:Hr; [|done]. apply Hsub in Hr. congruence.
  - intros p q r s a Hp Hq. apply Hsub in Hp, Hq. by eapply Hprim.
Qed.

Lemma registry_inv_add p rec pr : registry_inv pr → registry_inv (AddPeer p rec pr).2.
Proof.
  intros Hinv. pose proof (AddPeer_added p rec pr) as [Hself Hnode Hev Hoth Hwr Hign].
  destruct (decide (p = nodeID pr)) as [Hp|Hp]; [by destruct (Hself Hp) as [_ ->]|].
  destruct (AddPeer p rec pr) as [[[] ev] pr']; simpl in *.
  - destruct (Hwr eq_refl) as (_ & Hnew & _). destruct Hinv as [Hs Hprim].
    assert (∀ q r, q ≠ p → GetPeerRecord pr' q = Some r →
      GetPeerRecord pr q = Some r ∧ primaryAddr rec ≠ primaryAddr r ∨ primaryAddr r = None) as Hold.
    { intros q r Hne Hq. rw Hoth // in Hq. destruct (decide (q ∈ ev)) as [|Hnot]; [done|].
      destruct (primaryAddr r) as [a|] eqn:Ha; [left|by right]. split; [done|].
      intros Hpa. apply Hnot, Hev, stale_iff; [done|]. split; [done|]. naive_solver. }
    assert (∀ q r s a, q ≠ p → GetPeerRecord pr' q = Some r → GetPeerRecord pr' p = Some s →
      primaryAddr r = Some a → primaryAddr s ≠ Some a) as Hdiff.
    { intros q r s a Hne Hq Hps Ha Hsa. destruct (Hold q r Hne Hq) as [[Hpr Hdif]|?]; [|congruence].
      rw Hnew in Hps. injection Hps as <-. destruct (GetPeerRecord pr p) as [old|] eqn:Hpold; [|congruence].
      destruct (mergeRecord_primary old rec) as [He|He]; [|congruence].
      rw He in Hsa. apply Hne. by eapply (Hprim q p r old a). }
    split.
    + rw Hnode Hoth //. by destruct (decide (_ ∈ ev)).
    + intros q1 q2 r s a H1 H2 Ha Hsa.
      destruct (decide (q1 = p)) as [->|Hn1], (decide (q2 = p)) as [->|Hn2]; [done|..].
      * by destruct (Hdiff q2 s r a Hn2 H2 H1 Hsa).
      * by destruct (Hdiff q1 r s a Hn1 H1 H2 Ha).
      * destruct (Hold _ _ Hn1 H1) as [[? _]|?], (Hold _ _ Hn2 H2) as [[? _]|?]; [|congruence..].
        by eapply (Hprim q1 q2 r s a).
  - destruct (Hign Hp eq_refl) as [Hsame _]. eapply registry_inv_subset; [exact Hnode| |exact Hinv].
    intros q r. destruct (decide (q = p)) as [->|Hne]; [by rw Hsame|].
    rw Hoth //. by destruct (decide (q ∈ ev)).
Qed.

Lemma registry_inv_run op pr : registry_inv pr → registry_inv (run_registry op pr).
Proof.
  intros Hinv. destruct op as [p rec|p|p b|p err|p action schema|p c];
    [by apply registry_inv_add| |eapply registry_inv_subset; [apply run_registry_node| |exact Hinv];
     intros q r; by rw run_registry_record..].
  apply (registry_inv_subset pr); [done| |exact Hinv]. intros q r. simpl. rw remove_record. by destruct (decide _).
Qed.

Definition run_registry_ops id (ops : list registry_op) : PeerRegistry Cert :=
  foldl (λ pr op, run_registry op pr) (NewPeerRegistry id) ops.

Lemma registry_inv_ops id ops : registry_inv (run_registry_ops id ops).
Proof.
  unfold run_registry_ops. generalize (registry_inv_new id). generalize (NewPeerRegistry (Cert := Cert) id).
  induction ops as [|op ops IH]; intros pr Hinv; [done|]. by apply IH, registry_inv_run.
Qed.

Lemma run_registry_ops_node id ops : nodeID (run_registry_ops id ops) = id.
Proof.
  unfold run_registry_ops. change id with (nodeID (NewPeerRegistry (Cert := Cert) id)) at 2.
  generalize (NewPeerRegistry (Cert := Cert) id). induction ops as [|op ops IH]; intros pr; [done|].
  simpl. by rw IH run_registry_node.
Qed.

Lemma GetPeersCopy_record pr q a :
  GetPeersCopy pr !! q = Some a ↔ ∃ r, GetPeerRecord pr q = Some r ∧ primaryAddr r = Some a.
Proof.
  unfold GetPeersCopy, primaryPeerAddrs, GetPeerRecord. rw lookup_omap.
  destruct (peers pr !! q) as [st|]; simpl; [|naive_solver]. destruct (hasRecord st); simpl; naive_solver.
Qed.

(** Whatever order the peers are visited in, a service is found exactly when
    some peer offers it, and what is found is what a peer offers. *)
Lemma GetServiceSchema_spec rangeOrder pr name :
  (∀ l, rangeOrder l ≡ₚ l) →
  match GetServiceSchema rangeOrder pr name with
  | Some schema => ∃ p, GetClusterServices pr p !! name = Some schema
  | None => ∀ p, GetClusterServices pr p !! name = None
  end.
Proof.
  intros Hord. unfold GetServiceSchema.
  assert (∀ p st, (p, st) ∈ rangeOrder (map_to_list (peers pr)) ↔ peers pr !! p = Some st) as Hin.
  { intros p st. rw Hord. apply elem_of_map_to_list. }
  assert (∀ l, match findService l name with
    | Some schema => ∃ p st, (p, st) ∈ l ∧ services st !! name = Some schema
    | None => ∀ p st, (p, st) ∈ l → services st !! name = None end) as H.
  { induction l as [|[p st] l IH]; simpl; [by intros ?? ?%elem_of_nil|].
    destruct (services st !! name) as [schema|] eqn:Hs; [exists p, st; split; [by left|done]|].
    destruct (findService l name) as [schema|].
    - destruct IH as (q & st' & Hq & Hs'). exists q, st'. split; [by right|done].
    - intros q st' [[= -> ->]|Hq]%elem_of_cons; [done|by eapply IH]. }
  specialize (H (rangeOrder (map_to_list (peers pr)))). unfold GetClusterServices.
  destruct (findService _ _) as [schema|].
  - destruct H as (p & st & Hp%Hin & Hs). exists p. by rw Hp.
  - intros p. destruct (peers pr !! p) as [st|] eqn:Hp; [|by rw lookup_empty]. apply (H p), Hin, Hp.
Qed.

(** Whatever the registry is told, two registered peers never share a
    primary address, and the node never registers itself. *)
Theorem registry_addresses_distinct id ops :
  GetPeerRecord (run_registry_ops id ops) id = None ∧
  ∀ p q a, GetPeersCopy (run_registry_ops id ops) !! p = Some a →
           GetPeersCopy (run_registry_ops id ops) !! q = Some a → p = q.
Proof.
  pose proof (registry_inv_ops id ops) as [Hself Hprim]. rw run_registry_ops_node in Hself. split; [done|].
  intros p q a (r & Hp & Hr)%GetPeersCopy_record (s & Hq & Hs)%GetPeersCopy_record. by eapply Hprim.
Qed.

(** A peer is registered, or its record changed, only by an announcement
    of that peer, and never to an older sequence: a certificate, a service
    push or an offline mark registers nobody. *)
Theorem registration_needs_announcement op pr p r' :
  GetPeerRecord (run_registry op pr) p = Some r' →
  GetPeerRecord pr p = Some r' ∨
  ∃ rec, op = OpAddPeer p rec ∧ Sequence r' = Sequence rec ∧ p ≠ nodeID pr ∧
    ∀ r, GetPeerRecord pr p = Some r → (Sequence r ≤ Sequence r')%Z.
Proof.
  destruct op as [q rec|q|q b|q err|q action schema|q c]; simpl;
    [|rw remove_record; destruct (decide _); [done|by left]
     |unfold SetPeerOnline; destruct b; simpl; rw GetPeerRecord_update //; by left
     |rw GetPeerRecord_update //; by left..].
  pose proof (AddPeer_added q rec pr) as [Hself _ _ Hoth Hwr Hign].
  destruct (decide (q = nodeID pr)) as [Hq|Hq]; [destruct (Hself Hq) as [_ ->]; by left|].
  destruct (AddPeer q rec pr) as [[[] ev] pr']; simpl in *.
  - destruct (decide (p = q)) as [->|Hne]; [|rw Hoth //; destruct (decide _); [done|by left]].
    destruct (Hwr eq_refl) as (_ & -> & Hseq). intros [= <-]. right. exists rec. split; [done|].
    assert (Sequence (match GetPeerRecord pr q with Some old => mergeRecord old rec | None => rec end) = Sequence rec) as ->.
    { destruct (GetPeerRecord pr q); [|done]. unfold mergeRecord. by case_bool_decide. }
    done.
  - destruct (decide (p = q)) as [->|Hne]; [destruct (Hign Hq eq_refl) as [-> _]; by left|].
    rw Hoth //. destruct (decide _); [done|by left].
Qed.
End laws.

(** ** Sponsors *)

Definition acceptable (cur : string) (c : SponsorCandidate) : Prop := CandAddr c ≠ cur ∧ CandAddr c ≠ "".

#[export] Instance acceptable_dec cur c : Decision (acceptable cur c).
Proof. unfold acceptable. apply _. Defined.

#[export] Instance cand_le_trans : Transitive cand_le.
Proof. intros a b c. unfold cand_le. apply (transitivity (R := String.le)). Qed.

#[export] Instance cand_le_total : Total cand_le.
Proof. intros a b. unfold cand_le. apply (total String.le). Qed.

#[export] Instance cand_le_refl : Reflexive cand_le.
Proof. intros a. by destruct (total cand_le a a). Qed.

Record picked (l : list SponsorCandidate) (cur : string) (c : SponsorCandidate) : Prop := {
  pk_in : c ∈ l;
  pk_ok : acceptable cur c;
  pk_online d : d ∈ l → acceptable cur d → CandOnline d = true → CandOnline c = true ∧ cand_le c d;
  pk_offline d : CandOnline c = false → d ∈ l → acceptable cur d → cand_le c d }.

Lemma pickSponsor_fallback l cur f :
  Sorted cand_le l →
  match pickSponsor l cur (Some f) with
  | Some c => c = f ∧ (∀ d, d ∈ l → acceptable cur d → CandOnline d = false) ∨
              CandOnline c = true ∧ picked l cur c
  | None => False
  end.
Proof.
  intros Hs%Sorted_StronglySorted; [|apply _]. induction Hs as [|c l Hs IH Hall]; simpl.
  { left. split; [done|]. by intros d ?%elem_of_nil. }
  destruct (_ || _) eqn:Hskip; [|destruct (CandOnline c) eqn:Hon].
  - assert (¬ acceptable cur c) as Hno.
    { intros [H1 H2]. by rw !bool_decide_eq_false_2 in Hskip. }
    destruct (pickSponsor l cur (Some f)) as [c'|]; [|done].
    destruct IH as [[-> IH]|[Hc' [Hin Hok Honl Hoff]]]; [left|right].
    + split; [done|]. intros d [->|?]%elem_of_cons Hd; [done|auto].
    + split; [done|]. split; [by right|done| |congruence].
      intros d [->|?]%elem_of_cons Hd; [done|auto].
  - right. split; [done|]. split; [by left| |..].
    + apply orb_false_iff in Hskip as [H1%bool_decide_eq_false H2%bool_decide_eq_false]. done.
    + intros d [->|Hd]%elem_of_cons _ _; (split; [done|]); [apply reflexivity|]. rewrite ->Forall_forall in Hall. auto.
    + congruence.
  - destruct (pickSponsor l cur (Some f)) as [c'|]; [|done].
    destruct IH as [[-> IH]|[Hc' [Hin Hok Honl Hoff]]]; [left|right].
    + split; [done|]. intros d [->|?]%elem_of_cons Hd; [done|auto].
    + split; [done|]. split; [by right|done| |congruence].
      intros d [->|?]%elem_of_cons Hd Hdon; [congruence|auto].
Qed.

Lemma pickSponsor_picked l cur :
  Sorted cand_le l →
  match pickSponsor l cur None with
  | Some c => picked l cur c
  | None => ∀ d, d ∈ l → ¬ acceptable cur d
  end.
Proof.
  intros Hs%Sorted_StronglySorted; [|apply _]. induction Hs as [|c l Hs IH Hall]; simpl.
  { by intros d ?%elem_of_nil. }
  rewrite ->Forall_forall in Hall.
  destruct (_ || _) eqn:Hskip; [|destruct (CandOnline c) eqn:Hon].
  - assert (¬ acceptable cur c) as Hno.
    { intros [H1 H2]. by rw !bool_decide_eq_false_2 in Hskip. }
    destruct (pickSponsor l cur None) as [c'|].
    + destruct IH as [Hin Hok Honl Hoff]. split; [by right|done|..];
        intros d; [intros [->|?]%elem_of_cons Hd|intros Hc [->|?]%elem_of_cons Hd]; [done|auto|done|auto].
    + intros d [->|?]%elem_of_cons; auto.
  - apply orb_false_iff in Hskip as [H1%bool_decide_eq_false H2%bool_decide_eq_false].
    split; [by left|done| |congruence].
    intros d [->|Hd]%elem_of_cons _ _; (split; [done|]); [apply reflexivity|auto].
  - apply orb_false_iff in Hskip as [H1%bool_decide_eq_false H2%bool_decide_eq_false].
    pose proof (pickSponsor_fallback l cur c (StronglySorted_Sorted Hs)) as Hf.
    destruct (pickSponsor l cur (Some c)) as [c'|]; [|done].
    destruct Hf as [[-> Hoff]|[Hc' [Hin Hok Honl _]]].
    + split; [by left|done|..].
      * intros d [->|Hd]%elem_of_cons Hda Hdon; [congruence|]. rw (Hoff d Hd Hda) in Hdon. done.
      * intros d _ [->|Hd]%elem_of_cons _; [apply reflexivity|auto].
    + split; [by right|done| |congruence].
      intros d [->|Hd]%elem_of_cons Hda Hdon; [congruence|auto].
Qed.

Lemma Select_picked cands cur :
  match FirstOnlineSponsorSelector_Select cands cur with
  | Some c => picked cands cur c
  | None => ∀ d, d ∈ cands → ¬ acceptable cur d
  end.
Proof.
  unfold FirstOnlineSponsorSelector_Select.
  pose proof (pickSponsor_picked (merge_sort cand_le cands) cur (Sorted_merge_sort _ cands)) as H.
  assert (∀ d, d ∈ merge_sort cand_le cands ↔ d ∈ cands) as Hp by (intros; by rw merge_sort_Permutation).
  destruct (pickSponsor _ _ _) as [c|].
  - destruct H as [Hin Hok Hon Hoff]. split; [by apply Hp|done|..].
    + intros d Hd%Hp. by apply Hon.
    + intros d Hc Hd%Hp. by apply Hoff.
  - intros d Hd%Hp. by apply H.
Qed.

Section sponsor_laws.
Context {Cert : Type}.
Implicit Types pr : PeerRegistry Cert.

Lemma sponsorCandidates_elem pr c :
  c ∈ sponsorCandidates pr ↔
  GetSponsorPeers pr !! CandID c = Some (CandAddr c) ∧ CandOnline c = IsPeerOnline pr (CandID c).
Proof.
  unfold sponsorCandidates. rw merge_sort_Permutation list_elem_of_fmap. split.
  - intros ([p a] & -> & Hin%elem_of_map_to_list). done.
  - intros [Hp Ho]. exists (CandID c, CandAddr c). split; [by destruct c; simpl in *; subst|].
    by apply elem_of_map_to_list.
Qed.

(** When the current sponsor is gone or was never set, and some other
    registered peer announces itself as a sponsor, one of those becomes the
    sponsor: an online one if there is any, and of the equally good ones the
    one with the smallest id, whatever order the registry lists them in. *)
Theorem reconcileSponsor_picks pr cur :
  sponsorStillCapable pr cur = false →
  (∃ p a, GetSponsorPeers pr !! p = Some a ∧ a ≠ cur ∧ a ≠ "") →
  ∃ p a, reconcileSponsor pr cur = a ∧ GetSponsorPeers pr !! p = Some a ∧ a ≠ cur ∧ a ≠ "" ∧
    ∀ q b, GetSponsorPeers pr !! q = Some b → b ≠ cur → b ≠ "" →
      (IsPeerOnline pr q = true → IsPeerOnline pr p = true) ∧
      (IsPeerOnline pr q = IsPeerOnline pr p → String.le p q).
Proof.
  intros Hcap (p0 & a0 & Hp0 & Hne0 & Hemp0).
  assert (∃ c, FirstOnlineSponsorSelector_Select (sponsorCandidates pr) cur = Some c ∧
    picked (sponsorCandidates pr) cur c) as (c & Hsel & [Hin [Hcur Hemp] Hon Hoff]).
  { pose proof (Select_picked (sponsorCandidates pr) cur) as H.
    destruct (FirstOnlineSponsorSelector_Select _ _) as [c|]; [by exists c|].
    destruct (H {| CandID := p0; CandAddr := a0; CandOnline := IsPeerOnline pr p0 |}); [|done].
    by apply sponsorCandidates_elem. }
  apply sponsorCandidates_elem in Hin as [Hreg Honc].
  exists (CandID c), (CandAddr c). split; [|split; [done|split; [done|split; [done|]]]].
  - unfold reconcileSponsor, selectSponsor. case_bool_decide as Hc; [subst cur; by rw Hsel|]. by rw Hcap Hsel.
  - intros q b Hq Hb Hbe. set (d := {| CandID := q; CandAddr := b; CandOnline := IsPeerOnline pr q |}).
    assert (d ∈ sponsorCandidates pr) as Hd by (by apply sponsorCandidates_elem).
    rw -Honc. split; [intros Hqo; by apply (Hon d Hd)|]. intros Heq.
    destruct (CandOnline c) eqn:Hco; [by apply (Hon d Hd)|by apply (Hoff d)].
Qed.
End sponsor_laws.

(** ** Announcements with effects they should not have *)

Definition at_addr (addr : string) (seq : Z) : AddressRecord :=
  {| Addresses := [addr]; Sequence := seq; IsSponsor := false |}.

(** Peer [a] moved from address [x] to [y], and [b] moved into [x]. *)
Definition moved : PeerRegistry unit :=
  run_registry_ops "me" [OpAddPeer "a" (at_addr "x" 1); OpAddPeer "a" (at_addr "y" 2); OpAddPeer "b" (at_addr "x" 1)].

(** An announcement that is ignored because it is older than the record
    of its peer still removes the peer that now has its address. *)
Theorem ignored_announcement_evicts :
  (AddPeer "a" (at_addr "x" 1) moved).1 = (false, ["b"]) ∧
  is_Some (GetPeerRecord moved "b") ∧
  GetPeerRecord (AddPeer "a" (at_addr "x" 1) moved).2 "b" = None.
Proof. vm_compute. split; [done|]. split; [by eexists|done]. Qed.

(** The registry and the database after two announcements of one sequence. *)
Definition announced_twice : PeerRegistry unit * memdb :=
  Server_AddPeer "a" (at_addr "y" 1) (Server_AddPeer "a" (at_addr "x" 1) (NewPeerRegistry "me", memdb_init)).

(** Two announcements with the same sequence are merged in memory, but the
    database keeps the addresses of the second only: after a restart the peer
    has lost its primary address. *)
Theorem merged_addresses_not_saved :
  Addresses <$> GetPeerRecord announced_twice.1 "a" = Some ["x"; "y"] ∧
  bget announced_twice.2 Peers "a" = Some (JDoc (at_addr "y" 1)).
Proof. vm_compute. done. Qed.

(** ** Witnesses *)

Lemma registration_needs_announcement_witness :
  GetPeerRecord (NewPeerRegistry (Cert := unit) "me") "a" = Some (at_addr "x" 1) ∨
  ∃ rec, OpAddPeer (Cert := unit) "a" (at_addr "x" 1) = OpAddPeer "a" rec ∧ 1%Z = Sequence rec ∧ "a" ≠ "me" ∧
    ∀ r, GetPeerRecord (NewPeerRegistry (Cert := unit) "me") "a" = Some r → (Sequence r ≤ 1)%Z.
Proof.
  apply (registration_needs_announcement (OpAddPeer "a" (at_addr "x" 1)) (NewPeerRegistry (Cert := unit) "me")
           "a" (at_addr "x" 1)).
  vm_compute. reflexivity.
Defined.

Definition two_sponsors : PeerRegistry unit :=
  run_registry_ops "me"
    [OpAddPeer "a" {| Addresses := ["x"]; Sequence := 1; IsSponsor := true |};
     OpAddPeer "b" {| Addresses := ["y"]; Sequence := 1; IsSponsor := true |};
     OpOffline "a" None].

Lemma reconcileSponsor_picks_witness :
  ∃ p a, reconcileSponsor two_sponsors "" = a ∧ GetSponsorPeers two_sponsors !! p = Some a ∧ a ≠ "" ∧ a ≠ "" ∧
    ∀ q b, GetSponsorPeers two_sponsors !! q = Some b → b ≠ "" → b ≠ "" →
      (IsPeerOnline two_sponsors q = true → IsPeerOnline two_sponsors p = true) ∧
      (IsPeerOnline two_sponsors q = IsPeerOnline two_sponsors p → String.le p q).
Proof.
  apply (reconcileSponsor_picks two_sponsors ""); [reflexivity|].
  exists "a", "x". split; [vm_compute; reflexivity|done].
Defined.
