(* ===== verification/Invites.v ===== *)
(** * Invitations

    [internal/server/invite.go]: the pending invitation secrets, in memory and
    in the metadata database ([SaveInvite], [DeleteInvite], [LoadInvites] of
    [internal/storage/storage_engine.go]).  The manager's mutex makes each
    operation one step; [now] is what [time.Now] returns in that step, and
    [rangeOrder] the order in which Go visits the map. *)
From S2P Require Import Prelude GoStrings Json Protocol Bolt PeerRegistry.

Section invites.
Context {DB : Type} `{!Bolt DB}.

(** ** The store *)

(** [expiration.UTC()] is the same instant. *)
Definition SaveInvite (secret : string) (expiration : time) : ST DB unit :=
  boltPutKeyed PendingInvites secret (JDoc expiration).

Definition DeleteInvite (secret : string) : ST DB unit := boltDeleteKeyed PendingInvites secret.

Definition LoadInvites (d : DB) : res (gmap string time) := boltLoadMapJSON PendingInvites (λ v, v) d.

(** ** The manager *)

Record InviteManager := { pendingInvites : gmap string time; inviteStore : DB }.

Implicit Types im : InviteManager.

Definition with_pending (f : gmap string time → gmap string time) im : InviteManager :=
  {| pendingInvites := f (pendingInvites im); inviteStore := inviteStore im |}.

Definition on_store {A} (m : ST DB A) : ST InviteManager A := λ im,
  let '(r, d) := m (inviteStore im) in (r, {| pendingInvites := pendingInvites im; inviteStore := d |}).

Definition wrap_error {S A} (text : string) (m : ST S A) : ST S A := λ s,
  match m s with
  | (Ok a, s') => (Ok a, s')
  | (Err e, s') => (Err (EWrap text e), s')
  end.

Definition Invite_Add (secret : string) (expiration : time) : ST InviteManager unit :=
  wrap_error "save invite" (on_store (SaveInvite secret expiration)) ≫= λ _,
  modify (with_pending (<[secret := expiration]>)).

Definition Invite_Check (now : time) (secret : string) im : option time :=
  match pendingInvites im !! secret with
  | Some expiration => if (now <? expiration)%Z then Some expiration else None
  | None => None
  end.

Definition CheckAndConsume (now : time) (secret : string) : ST InviteManager (option time) :=
  gets pendingInvites ≫= λ pending,
  match pending !! secret with
  | None => mret None
  | Some expiration =>
      if negb (now <? expiration)%Z then
        wrap_error "delete expired invite" (on_store (DeleteInvite secret)) ≫= λ _,
        modify (with_pending (delete secret)) ≫= λ _,
        mret None
      else
        wrap_error "consume invite" (on_store (DeleteInvite secret)) ≫= λ _,
        modify (with_pending (delete secret)) ≫= λ _,
        mret (Some expiration)
  end.

(** The loop of [Sweep]: a failed deletion is remembered and the loop goes on. *)
Fixpoint sweepInvites (now : time) (l : list (string * time)) (sweepErr : option error)
    : ST InviteManager (option error) :=
  match l with
  | [] => mret sweepErr
  | (secret, expiration) :: rest =>
      if (now <? expiration)%Z then sweepInvites now rest sweepErr
      else
        attempt (on_store (DeleteInvite secret)) ≫= λ r,
        match r with
        | Err e => sweepInvites now rest (errors_Join [sweepErr; Some (EWrap "delete expired invite" e)])
        | Ok _ => modify (with_pending (delete secret)) ≫= λ _, sweepInvites now rest sweepErr
        end
  end.

Definition Invite_Sweep (rangeOrder : list (string * time) → list (string * time)) (now : time)
    : ST InviteManager unit :=
  gets pendingInvites ≫= λ pending,
  sweepInvites now (rangeOrder (map_to_list pending)) None ≫= λ sweepErr,
  of_res (res_of_opt_err sweepErr).

(** The manager, if it could be made, and the store it leaves. *)
Definition NewInviteManager (rangeOrder : list (string * time) → list (string * time)) (now : time) (d : DB)
    : res InviteManager * DB :=
  match LoadInvites d with
  | Err e => (Err (EWrap "load pending invites" e), d)
  | Ok pending =>
      match Invite_Sweep rangeOrder now {| pendingInvites := pending; inviteStore := d |} with
      | (Ok _, im) => (Ok im, inviteStore im)
      | (Err e, im) => (Err (EWrap "sweep pending invites" e), inviteStore im)
      end
  end.
End invites.
Arguments InviteManager : clear implicits.

(** ** Effects *)

Section effects.
Context {DB : Type} `{!Bolt DB} `{!BoltLaws DB}.
Implicit Types (im : InviteManager DB) (d : DB).

(** What the store holds for a secret. *)
Definition stored im (secret : string) : option (json time) := bget (inviteStore im) PendingInvites secret.

(** Everything pending is stored: the manager forgets a secret only after the
    store did. *)
Definition invites_backed im : Prop :=
  ∀ secret t, pendingInvites im !! secret = Some t → stored im secret = Some (JDoc t).

(** A change of one secret, in memory and on disk together. *)
Record secret_effect im (secret : string) (v : option time) im' : Prop := {
  se_pending s : pendingInvites im' !! s = if decide (secret = s) then v else pendingInvites im !! s;
  se_stored s : stored im' s = if decide (secret = s) then JDoc <$> v else stored im s }.

Lemma secret_effect_backed im secret v im' :
  secret_effect im secret v im' → invites_backed im → invites_backed im'.
Proof.
  intros [Hp Hs] Hb s t. rw Hp Hs. destruct (decide (secret = s)); [by intros ->|apply Hb].
Qed.

Lemma on_store_run {A} (m : ST DB A) im r im' :
  on_store m im = (r, im') →
  pendingInvites im' = pendingInvites im ∧ m (inviteStore im) = (r, inviteStore im').
Proof. unfold on_store. destruct (m (inviteStore im)) as [r' d]. by intros [= <- <-]. Qed.

Lemma keyed_put_effect b k v d r d' :
  boltPutKeyed b k v d = (r, d') →
  (∃ e, r = Err e ∧ d' = d) ∨
  (r = Ok () ∧ ∀ k', bget d' b k' = if decide (k = k') then Some v else bget d b k').
Proof.
  unfold boltPutKeyed. intros [([] & -> & Hb)|?]%Update_spec; [right|by left].
  destruct (boltPut d b k v) as [d1|] eqn:Hput; simpl in Hb; [|done]. injection Hb as <-.
  split; [done|]. intros k'. by apply bget_boltPut.
Qed.

Lemma keyed_delete_effect b k d r d' :
  boltDeleteKeyed b k d = (r, d') →
  (∃ e, r = Err e ∧ d' = d) ∨
  (r = Ok () ∧ ∀ k', bget d' b k' = if decide (k = k') then None else bget d b k').
Proof.
  unfold boltDeleteKeyed. intros [([] & -> & Hb)|?]%Update_spec; [right|by left].
  destruct (boltDelete d b k) as [d1|] eqn:Hdel; simpl in Hb; [|done]. injection Hb as <-.
  split; [done|]. intros k'. by apply bget_boltDelete.
Qed.

Lemma unchanged_store im im' :
  pendingInvites im' = pendingInvites im → inviteStore im' = inviteStore im → im' = im.
Proof. destruct im, im'; simpl. by intros -> ->. Qed.

Lemma add_effect secret expiration im r im' :
  Invite_Add secret expiration im = (r, im') →
  (∃ e, r = Err e ∧ im' = im) ∨ (r = Ok () ∧ secret_effect im secret (Some expiration) im').
Proof.
  unfold Invite_Add, mbind, st_bind, wrap_error.
  destruct (on_store (SaveInvite secret expiration) im) as [r1 im1] eqn:Hrun.
  apply on_store_run in Hrun as [Hp [(e & -> & Hd)|[-> Hget]]%keyed_put_effect].
  - intros [= <- <-]. left. eexists. split; [done|]. by apply unchanged_store.
  - intros [= <- <-]. right. split; [done|]. split.
    + intros s. simpl. rw lookup_insert Hp. by destruct (decide _).
    + intros s. apply Hget.
Qed.

(** A deletion on disk and then in memory. *)
Lemma forget_effect secret im r im1 :
  on_store (DeleteInvite secret) im = (r, im1) →
  (∃ e, r = Err e ∧ im1 = im) ∨
  (r = Ok () ∧ secret_effect im secret None (with_pending (delete secret) im1)).
Proof.
  intros [Hp [(e & -> & Hd)|[-> Hget]]%keyed_delete_effect]%on_store_run.
  - left. eexists. split; [done|]. by apply unchanged_store.
  - right. split; [done|]. split; [|apply Hget]. intros s. simpl. rw lookup_delete Hp. by destruct (decide _).
Qed.

(** What [CheckAndConsume] can do: nothing, or forget the secret; it accepts
    only a pending secret that has not expired, and then forgets it. *)
Lemma consume_effect now secret im r im' :
  CheckAndConsume now secret im = (r, im') →
  (im' = im ∧ ∀ t, r ≠ Ok (Some t)) ∨
  ∃ t, pendingInvites im !! secret = Some t ∧ secret_effect im secret None im' ∧
       r = Ok (if (now <? t)%Z then Some t else None).
Proof.
  unfold CheckAndConsume, mbind, st_bind, gets, wrap_error.
  destruct (pendingInvites im !! secret) as [t|] eqn:Ht; [|intros [= <- <-]; by left].
  destruct (now <? t)%Z eqn:Hnow; simpl;
    destruct (on_store (DeleteInvite secret) im) as [r1 im1] eqn:Hrun;
    apply forget_effect in Hrun as [(e & -> & ->)|[-> Heff]]; intros [= <- <-];
    [by left|right; exists t|by left|right; exists t]; by rw ?Hnow.
Qed.

(** A sweep keeps a secret as it is, or forgets one that has expired. *)
Record swept (now : time) im im' : Prop := {
  sw_each s : (pendingInvites im' !! s = pendingInvites im !! s ∧ stored im' s = stored im s) ∨
    (pendingInvites im' !! s = None ∧ stored im' s = None ∧
     ∃ t, pendingInvites im !! s = Some t ∧ (t ≤ now)%Z) }.

Lemma swept_refl now im : swept now im im.
Proof. split. by left. Qed.

Lemma swept_forget now im secret t im1 im' :
  pendingInvites im !! secret = Some t → (t ≤ now)%Z →
  secret_effect im secret None im1 → swept now im1 im' → swept now im im'.
Proof.
  intros Ht Hnow [Hp Hs] [Hsw]. split. intros s.
  specialize (Hsw s). rw Hp Hs in Hsw. destruct (decide (secret = s)) as [<-|]; [|done].
  right. destruct Hsw as [[-> ->]|(-> & -> & _)]; eauto.
Qed.

Lemma sweepInvites_effect now l acc im r im' :
  NoDup l.*1 → (∀ s t, (s, t) ∈ l → pendingInvites im !! s = Some t) →
  sweepInvites now l acc im = (r, im') → swept now im im'.
Proof.
  revert acc im. induction l as [|[secret t] l IH]; intros acc im; simpl.
  { intros _ _ [= _ <-]. apply swept_refl. }
  intros [Hfresh Hnd]%NoDup_cons Hl.
  assert (pendingInvites im !! secret = Some t) as Ht by (apply Hl; by left).
  assert (∀ s t', (s, t') ∈ l → pendingInvites im !! s = Some t') as Hrest by (intros; apply Hl; by right).
  destruct (Z.ltb_spec now t) as [|Hexp]; [by apply IH|]. unfold mbind, st_bind, attempt.
  destruct (on_store (DeleteInvite secret) im) as [r1 im1] eqn:Hrun.
  apply forget_effect in Hrun as [(e & -> & ->)|[-> Heff]]; [by apply IH|].
  simpl. intros Hrun. eapply swept_forget; [done|done|exact Heff|]. eapply IH; [done| |exact Hrun].
  intros s t' Hin. rw (se_pending _ _ _ _ Heff). destruct (decide (secret = s)) as [->|]; [|auto].
  destruct Hfresh. apply list_elem_of_fmap. by exists (s, t').
Qed.

Lemma Sweep_effect rangeOrder now im r im' :
  (∀ l, rangeOrder l ≡ₚ l) → Invite_Sweep rangeOrder now im = (r, im') → swept now im im'.
Proof.
  intros Hord. unfold Invite_Sweep, mbind, st_bind, gets, of_res.
  destruct (sweepInvites _ _ _ _) as [r1 im1] eqn:Hrun. apply sweepInvites_effect in Hrun.
  - destruct r1; by intros [= _ <-].
  - rw Hord. apply NoDup_fst_map_to_list.
  - intros s t. rw Hord. apply elem_of_map_to_list.
Qed.

Lemma swept_stored now im im' s v : swept now im im' → stored im' s = Some v → stored im s = Some v.
Proof. intros [Hsw]. destruct (Hsw s) as [[_ ->]|(_ & -> & _)]; done. Qed.

Lemma swept_backed now im im' : swept now im im' → invites_backed im → invites_backed im'.
Proof.
  intros [Hsw] Hb s t. destruct (Hsw s) as [[-> ->]|(-> & _ & _)]; [apply Hb|done].
Qed.

(** A restart forgets the memory and reads the store. *)
Lemma restart_effect rangeOrder now d r d' :
  (∀ l, rangeOrder l ≡ₚ l) → NewInviteManager rangeOrder now d = (r, d') →
  (∀ s v, bget d' PendingInvites s = Some v → bget d PendingInvites s = Some v) ∧
  (∀ im, r = Ok im → inviteStore im = d' ∧ invites_backed im).
Proof.
  intros Hord. unfold NewInviteManager. destruct (LoadInvites d) as [pending|e] eqn:Hload.
  2: { intros [= <- <-]. done. }
  set (im0 := {| pendingInvites := pending; inviteStore := d |}).
  assert (invites_backed im0) as Hb0.
  { intros s t Hs. pose proof (boltLoadMapJSON_spec _ _ _ _ Hload s) as Hk. unfold stored. simpl.
    destruct (bget d PendingInvites s) as [raw|] eqn:Hraw; simpl in *; [|congruence].
    destruct Hk as (v & -> & Hv). congruence. }
  destruct (Invite_Sweep rangeOrder now im0) as [r1 im1] eqn:Hsweep.
  apply Sweep_effect in Hsweep; [|done].
  assert (∀ s v, bget (inviteStore im1) PendingInvites s = Some v → bget d PendingInvites s = Some v) as Hsub.
  { intros s v. apply (swept_stored _ _ _ s v Hsweep). }
  destruct r1 as [[]|e]; intros [= <- <-]; (split; [done|]); [|done].
  intros im [= <-]. split; [done|]. by eapply swept_backed.
Qed.

(** ** Runs *)

Inductive invite_op :=
  | IAdd (secret : string) (expiration : time)
  | ICheck (now : time) (secret : string)
  | IConsume (now : time) (secret : string)
  | ISweep (rangeOrder : list (string * time) → list (string * time)) (now : time)
  | IRestart (rangeOrder : list (string * time) → list (string * time)) (now : time).

Inductive invite_event :=
  | Issued (secret : string) (expiration : time)
  | Accepted (now : time) (secret : string) (expiration : time).

Definition event_secret (ev : invite_event) : string :=
  match ev with Issued s _ => s | Accepted _ s _ => s end.

(** One operation, with what it tells the outside.  A node whose restart
    fails has no pending invitations until it starts. *)
Definition run_invite (op : invite_op) im : list invite_event * InviteManager DB :=
  match op with
  | IAdd s t =>
      match Invite_Add s t im with (Ok _, im') => ([Issued s t], im') | (Err _, im') => ([], im') end
  | ICheck now s => ([], im)
  | IConsume now s =>
      match CheckAndConsume now s im with
      | (Ok (Some t), im') => ([Accepted now s t], im')
      | (_, im') => ([], im')
      end
  | ISweep rangeOrder now => ([], (Invite_Sweep rangeOrder now im).2)
  | IRestart rangeOrder now =>
      match NewInviteManager rangeOrder now (inviteStore im) with
      | (Ok im', _) => ([], im')
      | (Err _, d) => ([], {| pendingInvites := ∅; inviteStore := d |})
      end
  end.

Fixpoint run_invites (ops : list invite_op) im : list invite_event * InviteManager DB :=
  match ops with
  | [] => ([], im)
  | op :: ops =>
      let '(evs, im) := run_invite op im in
      let '(evs', im) := run_invites ops im in (evs ++ evs', im)
  end.

(** Go visits every entry of a map once. *)
Definition op_order_ok (op : invite_op) : Prop :=
  match op with
  | ISweep rangeOrder _ | IRestart rangeOrder _ => ∀ l, rangeOrder l ≡ₚ l
  | _ => True
  end.

(** The last thing said about a secret. *)
Definition last_about (s : string) (evs : list invite_event) : option invite_event :=
  last (filter (λ ev, event_secret ev = s) evs).

(** Every stored secret is stored since it was last issued, or since the
    beginning. *)
Definition stored_since im0 (evs : list invite_event) im : Prop :=
  ∀ s v, stored im s = Some v →
    (∃ t, last_about s evs = Some (Issued s t) ∧ v = JDoc t) ∨ (last_about s evs = None ∧ stored im0 s = Some v).

Lemma last_about_snoc s evs ev :
  last_about s (evs ++ [ev]) = if decide (event_secret ev = s) then Some ev else last_about s evs.
Proof.
  unfold last_about. rw filter_app. destruct (decide (event_secret ev = s)) as [He|He].
  - rw filter_cons_True // filter_nil last_snoc //.
  - rw filter_cons_False // filter_nil app_nil_r //.
Qed.

Lemma last_about_other s evs evs' :
  (∀ ev, ev ∈ evs' → event_secret ev ≠ s) → last_about s (evs ++ evs') = last_about s evs.
Proof.
  induction evs' as [|ev evs' IH] using rev_ind; intros Hother; [by rw app_nil_r|].
  rw app_assoc last_about_snoc. destruct (decide _) as [He|_].
  - destruct (Hother ev); [apply elem_of_app; right; by left|done].
  - apply IH. intros ev' ?. apply Hother, elem_of_app. by left.
Qed.

Lemma stored_since_subset im0 evs im im' :
  (∀ s v, stored im' s = Some v → stored im s = Some v) → stored_since im0 evs im → stored_since im0 evs im'.
Proof. intros Hsub Hs s v Hv. by apply Hs, Hsub. Qed.

(** Each operation keeps the history of the stored secrets, and accepts only
    a secret whose last event is its issue. *)
Lemma run_invite_history op im0 evs im evs' im' :
  op_order_ok op → run_invite op im = (evs', im') →
  invites_backed im → stored_since im0 evs im →
  invites_backed im' ∧ stored_since im0 (evs ++ evs') im' ∧
  ∀ now s t, Accepted now s t ∈ evs' → (now < t)%Z ∧ evs' = [Accepted now s t] ∧ stored im s = Some (JDoc t).
Proof.
  intros Hord Hrun Hb Hs. destruct op as [s t|now s|now s|rangeOrder now|rangeOrder now]; simpl in Hrun.
  - destruct (Invite_Add s t im) as [r im1] eqn:Hadd.
    apply add_effect in Hadd as [(e & -> & ->)|[-> Heff]]; injection Hrun as <- <-.
    { rw app_nil_r. split; [done|]. split; [done|]. by intros ??? ?%elem_of_nil. }
    split; [by eapply secret_effect_backed|]. split; [|by intros ??? ?%list_elem_of_singleton].
    intros s' v. rw (se_stored _ _ _ _ Heff) last_about_snoc. simpl.
    destruct (decide (s = s')) as [<-|]; [|apply Hs]. intros [= <-]. left. eauto.
  - injection Hrun as <- <-. rw app_nil_r. split; [done|]. split; [done|]. by intros ??? ?%elem_of_nil.
  - destruct (CheckAndConsume now s im) as [r im1] eqn:Hcons.
    apply consume_effect in Hcons as [[-> Hno]|(t & Ht & Heff & ->)].
    { destruct r as [[t|]|e]; [by destruct (Hno t)|..]; injection Hrun as <- <-; rw app_nil_r;
        (split; [done|]; split; [done|]; by intros ??? ?%elem_of_nil). }
    assert (invites_backed im1) as Hb1 by (by eapply secret_effect_backed).
    assert (∀ evs'', (∀ ev, ev ∈ evs'' → event_secret ev = s) → stored_since im0 (evs ++ evs'') im1) as Hs1.
    { intros evs'' Hall s' v Hv. rw (se_stored _ _ _ _ Heff) in Hv. destruct (decide (s = s')) as [|Hne]; [done|].
      rw last_about_other; [by apply Hs|]. intros ev Hev%Hall Hs'. congruence. }
    destruct (now <? t)%Z eqn:Hnow; injection Hrun as <- <-; (split; [done|]; split; [apply Hs1|]).
    + intros ev ->%list_elem_of_singleton. done.
    + intros n s' t' [= -> -> ->]%list_elem_of_singleton. split; [by apply Z.ltb_lt|]. split; [done|]. by apply Hb.
    + by intros ? ?%elem_of_nil.
    + by intros ??? ?%elem_of_nil.
  - destruct (Invite_Sweep rangeOrder now im) as [r im1] eqn:Hsw. injection Hrun as <- <-. simpl.
    apply Sweep_effect in Hsw; [|done]. rw app_nil_r. split; [by eapply swept_backed|].
    split; [|by intros ??? ?%elem_of_nil]. eapply stored_since_subset; [|exact Hs]. intros s v. by eapply swept_stored.
  - destruct (NewInviteManager rangeOrder now (inviteStore im)) as [r d] eqn:Hnew.
    apply restart_effect in Hnew as [Hsub Hok]; [|done].
    destruct r as [im1|e]; injection Hrun as <- <-; rw app_nil_r.
    + destruct (Hok im1 eq_refl) as [<- Hb1]. split; [done|]. split; [|by intros ??? ?%elem_of_nil].
      by eapply stored_since_subset.
    + split; [by intros s t|]. split; [|by intros ??? ?%elem_of_nil]. by eapply stored_since_subset.
Qed.

Lemma run_invites_history ops im0 evs im evs' im' :
  Forall op_order_ok ops → run_invites ops im = (evs', im') →
  invites_backed im → stored_since im0 evs im →
  ∀ before after now s t, evs' = before ++ Accepted now s t :: after →
    (now < t)%Z ∧
    (last_about s (evs ++ before) = Some (Issued s t) ∨
     last_about s (evs ++ before) = None ∧ stored im0 s = Some (JDoc t)).
Proof.
  revert im evs evs'. induction ops as [|op ops IH]; intros im evs evs' Hord Hrun Hb Hs before after now s t; simpl in Hrun.
  { injection Hrun as <- <-. by destruct before. }
  apply Forall_cons in Hord as [Hop Hord].
  destruct (run_invite op im) as [ev1 im1] eqn:Hstep. destruct (run_invites ops im1) as [ev2 im2] eqn:Hrest.
  injection Hrun as <- <-.
  destruct (run_invite_history op im0 evs im ev1 im1 Hop Hstep Hb Hs) as (Hb1 & Hs1 & Hacc).
  intros Hsplit. apply app_eq_inv in Hsplit as [(k & -> & Hk)|(k & -> & Hk)].
  - destruct k as [|ev k]; simpl in Hk.
    + rw app_nil_r in Hs1 Hacc *. destruct (IH im1 (evs ++ before) ev2 Hord Hrest Hb1 Hs1 [] after now s t) as [H1 H2]; [done|].
      rw app_nil_r in H2. done.
    + injection Hk as <- ->. destruct (Hacc now s t) as (Hlt & Hev & Hst); [apply elem_of_app; right; by left|].
      destruct before as [|? [|]]; [|done..]. rw app_nil_r. split; [done|].
      destruct (Hs s _ Hst) as [(t' & Hl & [= <-])|[Hl Hi]]; [by left|by right].
  - destruct (IH im1 (evs ++ ev1) ev2 Hord Hrest Hb1 Hs1 k after now s t Hk) as [H1 H2]. by rw app_assoc.
Qed.

(** An invitation is accepted before it expires and at most once for each
    time it was issued: whatever adds, checks, sweeps, failed database calls
    and restarts happen, the last thing that happened to an accepted secret
    was its issue, with the expiration it is accepted under. *)
Theorem invite_accepted_once ops im evs im' before after now s t :
  Forall op_order_ok ops → invites_backed im →
  run_invites ops im = (evs, im') → evs = before ++ Accepted now s t :: after →
  (now < t)%Z ∧
  (last_about s before = Some (Issued s t) ∨ last_about s before = None ∧ stored im s = Some (JDoc t)).
Proof.
  intros Hord Hb Hrun Hev.
  eapply (run_invites_history ops im [] im evs im' Hord Hrun Hb); [|exact Hev].
  intros s' v Hv. by right.
Qed.
End effects.

(** ** Witness: issued, restarted, accepted once, refused the second time *)

Definition invite_run : list invite_op :=
  [IAdd "s" 10; IRestart id 3; IConsume 5 "s"; IConsume 6 "s"].

Definition no_invites : InviteManager memdb := {| pendingInvites := ∅; inviteStore := memdb_init |}.

Lemma invite_run_events : (run_invites invite_run no_invites).1 = [Issued "s" 10; Accepted 5 "s" 10].
Proof. vm_compute. reflexivity. Qed.

Lemma invite_accepted_once_witness :
  (5 < 10)%Z ∧
  (last_about "s" [Issued "s" 10] = Some (Issued "s" 10) ∨
   last_about "s" [Issued "s" 10] = None ∧ stored no_invites "s" = Some (JDoc 10%Z)).
Proof.
  apply (invite_accepted_once invite_run no_invites (run_invites invite_run no_invites).1
           (run_invites invite_run no_invites).2 [Issued "s" 10] [] 5 "s" 10).
  - unfold invite_run. rw !Forall_cons Forall_nil. split; [done|]. split; [intros l; done|done].
  - intros s t. simpl. by rw lookup_empty.
  - by destruct (run_invites _ _).
  - rw invite_run_events. reflexivity.
Defined.
