(* ===== verification/Tasks.v ===== *)
(** * Tasks and services

    The messages tasks travel in ([TaskRequest], [ServiceTaskResponse],
    [TaskEscrowRequest], [DiscoveryQuery] of [internal/protocol/protocol.go]),
    the validation of parameters, and the service registry of
    [internal/compute/registry.go].  A service handler is a function on the
    outside world [W]: what running it returns is not the node's code. *)
From Stdlib Require Import SpecFloat.
From S2P Require Import Prelude GoStrings Json Protocol.

(** ** Messages *)

Record TaskRequest := {
  RqTaskID : string;
  RqService : string;
  RqRequesterNodeID : string;
  RqReplyTo : string;
  RqPayload : gomap any;
  RqPipelineState : option PipelineExecutionState;
  RqExpectedProducerNodeID : string }.

Record ServiceTaskResponse := {
  RsTaskID : string;
  RsService : string;
  RsStatus : string;
  RsError : string;
  RsOutputs : gomap any;
  RsProducerNodeID : string;
  RsPipelineState : option PipelineExecutionState }.

Record TaskEscrowRequest := {
  EsTaskID : string;
  EsService : string;
  EsRequesterNodeID : string;
  EsReplyTo : string;
  EsStepID : string;
  EsStepIndex : Z;
  EsStatus : string;
  EsError : string;
  EsPayload : gomap any;
  EsOutputs : gomap (gomap any);
  EsPipelineState : option PipelineExecutionState;
  EsProducerNodeID : string;
  EsTimestamp : Z }.

(** The fields the engine fills in; the others keep their zero values. *)
Record DiscoveryQuery := {
  QService : string;
  QRequiredParams : list string;
  QRequiredCapabilities : gmap string Z;
  QSortStrategy : string;
  QPayloadSizeBytes : Z;
  QExcludedPeers : list string }.

Record ServiceBid := {
  BNodeID : string;
  BNodeAddr : string;
  BSchema : ServiceSchema;
  BEstimatedMillis : Z;
  BCPULoad : float64;
  BMemPressure : float64;
  BCostUnits : Z;
  BPowerScore : Z;
  BCanAccept : bool;
  BCapabilities : gomap Z }.

Definition TaskStatusIngesting : string := "ingesting".
Definition TaskStatusEscrow : string := "escrow".
Definition CapabilityPipelineState : string := "pipeline_state".
Definition PipelineStateCapabilityVersion : Z := 2.

Definition CloneTaskRequest (r : TaskRequest) : TaskRequest :=
  {| RqTaskID := RqTaskID r; RqService := RqService r; RqRequesterNodeID := RqRequesterNodeID r;
     RqReplyTo := RqReplyTo r; RqPayload := CloneJSONMap (RqPayload r);
     RqPipelineState := ClonePipelineExecutionState (RqPipelineState r);
     RqExpectedProducerNodeID := RqExpectedProducerNodeID r |}.

Definition CloneServiceTaskResponse (r : ServiceTaskResponse) : ServiceTaskResponse :=
  {| RsTaskID := RsTaskID r; RsService := RsService r; RsStatus := RsStatus r; RsError := RsError r;
     RsOutputs := CloneJSONMap (RsOutputs r); RsProducerNodeID := RsProducerNodeID r;
     RsPipelineState := ClonePipelineExecutionState (RsPipelineState r) |}.

Definition CloneTaskEscrowRequest (r : TaskEscrowRequest) : TaskEscrowRequest :=
  {| EsTaskID := EsTaskID r; EsService := EsService r; EsRequesterNodeID := EsRequesterNodeID r;
     EsReplyTo := EsReplyTo r; EsStepID := EsStepID r; EsStepIndex := EsStepIndex r;
     EsStatus := EsStatus r; EsError := EsError r;
     EsPayload := CloneJSONMap (EsPayload r);
     EsOutputs := CloneMap (EsOutputs r) (Some CloneJSONMap);
     EsPipelineState := ClonePipelineExecutionState (EsPipelineState r);
     EsProducerNodeID := EsProducerNodeID r; EsTimestamp := EsTimestamp r |}.

Lemma CloneTaskRequest_id r : CloneTaskRequest r = r.
Proof. destruct r. unfold CloneTaskRequest. simpl. by rw CloneJSONMap_id ClonePipelineExecutionState_id. Qed.

Lemma CloneServiceTaskResponse_id r : CloneServiceTaskResponse r = r.
Proof.
  destruct r. unfold CloneServiceTaskResponse. simpl. by rw CloneJSONMap_id ClonePipelineExecutionState_id.
Qed.

Lemma CloneTaskEscrowRequest_id r : CloneTaskEscrowRequest r = r.
Proof.
  destruct r. unfold CloneTaskEscrowRequest. simpl.
  rw CloneJSONMap_id ClonePipelineExecutionState_id CloneMap_id //. apply CloneJSONMap_id.
Qed.

(** ** Outputs *)

(** The first [vfs://] value of a map, in the order it is visited. *)
Fixpoint firstVFS (l : list (string * any)) : option (string * string) :=
  match l with
  | [] => None
  | (k, AStr pathStr) :: rest =>
      let '(h, isVFS) := ParseVFSURI pathStr in
      if isVFS then Some (h, k) else firstVFS rest
  | _ :: rest => firstVFS rest
  end.

(** The hash and the name; the size is a conversion of a [float64] that the
    engine does not use. *)
Definition OutputHashFromOutputs (rangeOrder : list (string * any) → list (string * any)) (outputs : gomap any)
    : string * string :=
  match outputs with
  | None => ("", "")
  | Some m =>
      match m !! OutputHashKey with
      | Some (AStr h) =>
          if bool_decide (h ≠ "")
          then (h, match m !! OutputNameKey with Some (AStr n) => n | _ => "" end)
          else default ("", "") (firstVFS (rangeOrder (map_to_list m)))
      | _ => default ("", "") (firstVFS (rangeOrder (map_to_list m)))
      end
  end.

(** ** Parameters *)

(** [v == float64(int64(v))] on amd64, where a value out of range converts to
    the smallest integer. *)
Definition float_is_int64 (f : float64) : bool :=
  match f with
  | S754_zero _ => true
  | S754_infinity _ | S754_nan => false
  | S754_finite s m e =>
      let mag := if (0 <=? e)%Z then Z.shiftl (Z.pos m) e else Z.shiftr (Z.pos m) (- e) in
      let exact := (0 <=? e)%Z || (Z.shiftl mag (- e) =? Z.pos m)%Z in
      exact && (if s then mag <=? 2 ^ 63 else mag <? 2 ^ 63)%Z
  end.

Definition ParamTypeError (paramName expected : string) : error :=
  EMsg ("invalid type for parameter '" +:+ paramName +:+ "': expected " +:+ expected).

(** [sprint] is [fmt.Sprint]. *)
Definition ValidateValue (sprint : any → string) (p : ServiceParameter) (paramName : string) (value : any) : res unit :=
  let type_ok :=
    if bool_decide (PType p = "string" ∨ PType p = "file") then
      match value with AStr _ => Ok () | _ => Err (ParamTypeError paramName "string") end
    else if bool_decide (PType p = "bool") then
      match value with ABool _ => Ok () | _ => Err (ParamTypeError paramName "bool") end
    else if bool_decide (PType p = "int") then
      match value with
      | AInt _ => Ok ()
      | AFloat f => if float_is_int64 f then Ok () else Err (ParamTypeError paramName "int, got float")
      | _ => Err (ParamTypeError paramName "int")
      end
    else if bool_decide (PType p = "float") then
      match value with AFloat _ | AInt _ => Ok () | _ => Err (ParamTypeError paramName "float") end
    else Err (EMsg "unknown schema type for parameter") in
  match type_ok with
  | Err e => Err e
  | Ok _ =>
      if bool_decide (POptions p = []) then Ok ()
      else
        let s := match value with AStr s => s | v => sprint v end in
        if bool_decide (s ∈ POptions p) then Ok () else Err (EMsg "invalid value for parameter: not in options")
  end.

(** ** The service registry *)

(** A handler run on a payload, [None] for the nil function. *)
Definition ServiceHandler (W : Type) : Type := option (gmap string any → W → res (gomap any) * W).

Record registeredService (W : Type) := { schema : ServiceSchema; handler : ServiceHandler W }.
Arguments schema {W}.
Arguments handler {W}.

Definition Execute {W} (h : ServiceHandler W) (payload : gmap string any) (w : W) : res (gomap any) * W :=
  match h with
  | None => (Err (EMsg "service handler is nil"), w)
  | Some run => run payload w
  end.

Abbreviation ServiceRegistry W := (gmap string (registeredService W)).

Section registry.
Context {W : Type}.
Implicit Types r : ServiceRegistry W.

Definition NewServiceRegistry : ServiceRegistry W := ∅.

Definition GetHandler r (serviceName : string) : option (ServiceHandler W) := handler <$> r !! serviceName.

Definition Registry_Clear r : ServiceRegistry W := ∅.

Definition Register (s : ServiceSchema) (h : ServiceHandler W) : ST (ServiceRegistry W) unit := λ r,
  match r !! SName s with
  | Some _ => (Err (EWrap "failed to register" (ESentinel ErrServiceDuplicate)), r)
  | None => (Ok (), <[SName s := {| schema := s; handler := h |}]> r)
  end.

Definition Registry_Get r (name : string) : option ServiceSchema := schema <$> r !! name.

Definition Registry_ListAll r : list string := sort_strings (map_to_list r).*1.

Fixpoint validateParameters (sprint : any → string) (l : list (string * ServiceParameter)) (payload : gmap string any)
    : res unit :=
  match l with
  | [] => Ok ()
  | (paramName, paramRule) :: rest =>
      match payload !! paramName with
      | None => validateParameters sprint rest payload
      | Some inputValue =>
          match ValidateValue sprint paramRule paramName inputValue with
          | Err e => Err e
          | Ok _ => validateParameters sprint rest payload
          end
      end
  end.

Definition ValidatePayload (sprint : any → string)
    (rangeOrder : list (string * ServiceParameter) → list (string * ServiceParameter))
    r (serviceName : string) (payload : gmap string any) : res unit :=
  match Registry_Get r serviceName with
  | None => Err (EMsg "validation failed: service is not supported by this node")
  | Some s =>
      match MissingRequired s (Some payload) with
      | missing :: _ => Err (EMsg ("missing required parameter: '" +:+ missing +:+ "'"))
      | [] => validateParameters sprint (rangeOrder (map_to_list (default ∅ (SParameters s)))) payload
      end
  end.
End registry.
