(* ===== verification/TaskStatus.v ===== *)
(** * Task statuses

    The status table of [internal/compute/compute.go]: what the node knows of
    each task ([taskStatuses]), the tasks it gave up on ([retiredTaskStatuses]),
    the bookkeeping that orders evictions ([taskStatusMetadata]) and the tasks
    it has accepted ([acceptedTasks]).  One mutex guards the table, so each
    operation is one step.  [now] is what the table's clock returns and
    [rangeOrder] the order in which Go visits a map; the times of a table are
    compared with [now.Sub], whose saturation cannot matter for a positive
    limit of at most [max_int64]. *)
From S2P Require Import Prelude GoStrings Json Protocol Tasks.
Local Open Scope stdpp_scope.

Abbreviation time := Z.

(** [None] is the nil set of producers. *)
Record taskStatusMetadata := {
  touchedAt : time;
  sequence : N;
  expectedProducer : string;
  delegatedProducers : option (gset string) }.

Definition zeroMeta : taskStatusMetadata :=
  {| touchedAt := 0; sequence := 0; expectedProducer := ""; delegatedProducers := None |}.

Record StatusTable := {
  taskStatuses : gmap string ServiceTaskResponse;
  taskStatusMeta : gmap string taskStatusMetadata;
  retiredTaskStatuses : gmap string ServiceTaskResponse;
  retiredTaskStatusMeta : gmap string taskStatusMetadata;
  taskStatusSeq : N;
  acceptedTasks : gmap string TaskRequest;
  taskStatusLimit : Z;
  pendingTaskStatusTTL : Z;
  terminalTaskStatusTTL : Z }.

Implicit Types (tb : StatusTable) (m : gmap string taskStatusMetadata).

(** Ten and thirty minutes, in nanoseconds. *)
Definition emptyTable : StatusTable :=
  {| taskStatuses := ∅; taskStatusMeta := ∅; retiredTaskStatuses := ∅; retiredTaskStatusMeta := ∅;
     taskStatusSeq := 0; acceptedTasks := ∅; taskStatusLimit := 100;
     pendingTaskStatusTTL := 10 * 60 * 10 ^ 9; terminalTaskStatusTTL := 30 * 60 * 10 ^ 9 |}.

(** Updates of one field. *)
Definition with_statuses f tb : StatusTable :=
  {| taskStatuses := f (taskStatuses tb); taskStatusMeta := taskStatusMeta tb;
     retiredTaskStatuses := retiredTaskStatuses tb; retiredTaskStatusMeta := retiredTaskStatusMeta tb;
     taskStatusSeq := taskStatusSeq tb; acceptedTasks := acceptedTasks tb; taskStatusLimit := taskStatusLimit tb;
     pendingTaskStatusTTL := pendingTaskStatusTTL tb; terminalTaskStatusTTL := terminalTaskStatusTTL tb |}.
Definition with_meta f tb : StatusTable :=
  {| taskStatuses := taskStatuses tb; taskStatusMeta := f (taskStatusMeta tb);
     retiredTaskStatuses := retiredTaskStatuses tb; retiredTaskStatusMeta := retiredTaskStatusMeta tb;
     taskStatusSeq := taskStatusSeq tb; acceptedTasks := acceptedTasks tb; taskStatusLimit := taskStatusLimit tb;
     pendingTaskStatusTTL := pendingTaskStatusTTL tb; terminalTaskStatusTTL := terminalTaskStatusTTL tb |}.
Definition with_retired f tb : StatusTable :=
  {| taskStatuses := taskStatuses tb; taskStatusMeta := taskStatusMeta tb;
     retiredTaskStatuses := f (retiredTaskStatuses tb); retiredTaskStatusMeta := retiredTaskStatusMeta tb;
     taskStatusSeq := taskStatusSeq tb; acceptedTasks := acceptedTasks tb; taskStatusLimit := taskStatusLimit tb;
     pendingTaskStatusTTL := pendingTaskStatusTTL tb; terminalTaskStatusTTL := terminalTaskStatusTTL tb |}.
Definition with_retiredMeta f tb : StatusTable :=
  {| taskStatuses := taskStatuses tb; taskStatusMeta := taskStatusMeta tb;
     retiredTaskStatuses := retiredTaskStatuses tb; retiredTaskStatusMeta := f (retiredTaskStatusMeta tb);
     taskStatusSeq := taskStatusSeq tb; acceptedTasks := acceptedTasks tb; taskStatusLimit := taskStatusLimit tb;
     pendingTaskStatusTTL := pendingTaskStatusTTL tb; terminalTaskStatusTTL := terminalTaskStatusTTL tb |}.
Definition with_seq n tb : StatusTable :=
  {| taskStatuses := taskStatuses tb; taskStatusMeta := taskStatusMeta tb;
     retiredTaskStatuses := retiredTaskStatuses tb; retiredTaskStatusMeta := retiredTaskStatusMeta tb;
     taskStatusSeq := n; acceptedTasks := acceptedTasks tb; taskStatusLimit := taskStatusLimit tb;
     pendingTaskStatusTTL := pendingTaskStatusTTL tb; terminalTaskStatusTTL := terminalTaskStatusTTL tb |}.
Definition with_accepted f tb : StatusTable :=
  {| taskStatuses := taskStatuses tb; taskStatusMeta := taskStatusMeta tb;
     retiredTaskStatuses := retiredTaskStatuses tb; retiredTaskStatusMeta := retiredTaskStatusMeta tb;
     taskStatusSeq := taskStatusSeq tb; acceptedTasks := f (acceptedTasks tb); taskStatusLimit := taskStatusLimit tb;
     pendingTaskStatusTTL := pendingTaskStatusTTL tb; terminalTaskStatusTTL := terminalTaskStatusTTL tb |}.

(** ** Small operations *)

Definition isTerminalStatus (status : string) : bool :=
  bool_decide (status = "completed") || bool_decide (status = "failed").

Definition terminal (r : ServiceTaskResponse) : bool := isTerminalStatus (RsStatus r).

Definition with_failure (reason : string) (r : ServiceTaskResponse) : ServiceTaskResponse :=
  {| RsTaskID := RsTaskID r; RsService := RsService r; RsStatus := "failed"; RsError := reason;
     RsOutputs := Some {["error" := AStr reason]}; RsProducerNodeID := RsProducerNodeID r;
     RsPipelineState := RsPipelineState r |}.

Definition markTaskFailedShape (r : ServiceTaskResponse) (reason : string) : ServiceTaskResponse :=
  with_failure reason r.

Definition failedTaskResponse (taskID service reason : string) : ServiceTaskResponse :=
  markTaskFailedShape
    {| RsTaskID := taskID; RsService := service; RsStatus := ""; RsError := ""; RsOutputs := None;
       RsProducerNodeID := ""; RsPipelineState := None |} reason.

(** The counter is a [uint64]. *)
Definition bumpSeq tb : N := ((taskStatusSeq tb + 1) mod 2 ^ 64)%N.

Definition touched_meta (now : time) (seq : N) (meta : taskStatusMetadata) : taskStatusMetadata :=
  {| touchedAt := now; sequence := seq; expectedProducer := expectedProducer meta;
     delegatedProducers := delegatedProducers meta |}.

(** [touchStatusMeta] on the active or on the retired bookkeeping. *)
Definition touchStatusMeta (now : time) (seq : N) (taskID : string) m : gmap string taskStatusMetadata :=
  <[taskID := touched_meta now seq (default zeroMeta (m !! taskID))]> m.

Definition touchTaskStatusLocked (taskID : string) (now : time) tb : StatusTable :=
  with_meta (touchStatusMeta now (bumpSeq tb) taskID) (with_seq (bumpSeq tb) tb).

Definition touchRetiredTaskStatusLocked (taskID : string) (now : time) tb : StatusTable :=
  with_retiredMeta (touchStatusMeta now (bumpSeq tb) taskID) (with_seq (bumpSeq tb) tb).

Definition deleteTaskStatusLocked (taskID : string) tb : StatusTable :=
  with_meta (delete taskID) (with_statuses (delete taskID) tb).

Definition retireActiveTaskStatusLocked (taskID : string) (response : ServiceTaskResponse) (now : time)
    (reason : string) tb : StatusTable :=
  let metadata := default zeroMeta (taskStatusMeta tb !! taskID) in
  let tb := deleteTaskStatusLocked taskID tb in
  let response := markTaskFailedShape response reason in
  let tb := with_retired (<[taskID := CloneServiceTaskResponse response]>) tb in
  let tb := with_retiredMeta (<[taskID := metadata]>) tb in
  let tb := touchRetiredTaskStatusLocked taskID now tb in
  with_accepted (delete taskID) tb.

Definition acceptedDelete (taskID : string) tb : StatusTable := with_accepted (delete taskID) tb.

(** ** Eviction *)

Record taskStatusEvictionCandidate := {
  candTaskID : string;
  candTerminal : bool;
  candTouched : time;
  candSequence : N }.

(** The two comparison functions of the sorts: the protected task last, then
    by time, then terminal before pending where [byTerminal], then by sequence. *)
Definition evictBefore (protectedTaskID : string) (byTerminal : bool) (i j : taskStatusEvictionCandidate) : bool :=
  if bool_decide (candTaskID i = protectedTaskID) then false
  else if bool_decide (candTaskID j = protectedTaskID) then true
  else if negb (candTouched i =? candTouched j)%Z then (candTouched i <? candTouched j)%Z
  else if byTerminal && negb (Bool.eqb (candTerminal i) (candTerminal j)) then candTerminal i
  else (candSequence i <? candSequence j)%N.

Definition evict_le (protectedTaskID : string) (byTerminal : bool) (i j : taskStatusEvictionCandidate) : Prop :=
  evictBefore protectedTaskID byTerminal j i = false.

#[export] Instance evict_le_dec p b : RelDecision (evict_le p b).
Proof. intros i j. unfold evict_le. apply _. Defined.

Section prune.
Context (rangeOrder : ∀ V, list (string * V) → list (string * V)) (now : time) (protectedTaskID : string).

(** The scan over the retired tasks: expired ones go, the others are
    candidates for eviction. *)
Fixpoint scanRetired (l : list (string * ServiceTaskResponse)) tb : list taskStatusEvictionCandidate * StatusTable :=
  match l with
  | [] => ([], tb)
  | (taskID, _) :: rest =>
      let metadata := default zeroMeta (retiredTaskStatusMeta tb !! taskID) in
      if (0 <? terminalTaskStatusTTL tb)%Z && (terminalTaskStatusTTL tb <=? now - touchedAt metadata)%Z &&
         bool_decide (taskID ≠ protectedTaskID)
      then scanRetired rest (with_retiredMeta (delete taskID) (with_retired (delete taskID) tb))
      else
        let '(cands, tb) := scanRetired rest tb in
        ({| candTaskID := taskID; candTerminal := true; candTouched := touchedAt metadata;
            candSequence := sequence metadata |} :: cands, tb)
  end.

Fixpoint evictRetired (toDelete : nat) (cands : list taskStatusEvictionCandidate) tb : StatusTable :=
  match toDelete, cands with
  | S n, c :: rest =>
      if bool_decide (candTaskID c = protectedTaskID) then evictRetired toDelete rest tb
      else evictRetired n rest (with_retiredMeta (delete (candTaskID c)) (with_retired (delete (candTaskID c)) tb))
  | _, _ => tb
  end.

(** [len(candidates) - c.taskStatusLimit], where that is to be deleted. *)
Definition surplus tb (cands : list taskStatusEvictionCandidate) : nat :=
  if (taskStatusLimit tb <=? 0)%Z || (Z.of_nat (length cands) <=? taskStatusLimit tb)%Z then 0
  else Z.to_nat (Z.of_nat (length cands) - taskStatusLimit tb).

Definition pruneRetiredTaskStatusesLocked tb : StatusTable :=
  let '(cands, tb) := scanRetired (rangeOrder _ (map_to_list (retiredTaskStatuses tb))) tb in
  evictRetired (surplus tb cands) (merge_sort (evict_le protectedTaskID false) cands) tb.

(** The scan over the tasks: an expired terminal one goes, an expired pending
    one is retired as failed. *)
Fixpoint scanStatuses (l : list (string * ServiceTaskResponse)) tb : list taskStatusEvictionCandidate * StatusTable :=
  match l with
  | [] => ([], tb)
  | (taskID, response) :: rest =>
      let tb := match taskStatusMeta tb !! taskID with
                | Some _ => tb
                | None => touchTaskStatusLocked taskID now tb
                end in
      let metadata := default zeroMeta (taskStatusMeta tb !! taskID) in
      let ttl := if terminal response then terminalTaskStatusTTL tb else pendingTaskStatusTTL tb in
      if (0 <? ttl)%Z && (ttl <=? now - touchedAt metadata)%Z then
        scanStatuses rest
          (if terminal response then deleteTaskStatusLocked taskID tb
           else retireActiveTaskStatusLocked taskID response now
                  "task expired before reaching a terminal callback" tb)
      else
        let '(cands, tb) := scanStatuses rest tb in
        ({| candTaskID := taskID; candTerminal := terminal response; candTouched := touchedAt metadata;
            candSequence := sequence metadata |} :: cands, tb)
  end.

Fixpoint evictStatuses (toDelete : nat) (cands : list taskStatusEvictionCandidate) tb : StatusTable :=
  match toDelete, cands with
  | S n, c :: rest =>
      if bool_decide (candTaskID c = protectedTaskID) then evictStatuses toDelete rest tb
      else match taskStatuses tb !! candTaskID c with
      | None => evictStatuses toDelete rest tb
      | Some response =>
          evictStatuses n rest
            (if candTerminal c then deleteTaskStatusLocked (candTaskID c) tb
             else retireActiveTaskStatusLocked (candTaskID c) response now
                    "task failed because status capacity was exhausted" tb)
      end
  | _, _ => tb
  end.

Definition pruneTaskStatusesLocked tb : StatusTable :=
  let tb := pruneRetiredTaskStatusesLocked tb in
  let '(cands, tb) := scanStatuses (rangeOrder _ (map_to_list (taskStatuses tb))) tb in
  let tb := evictStatuses (surplus tb cands) (merge_sort (evict_le protectedTaskID true) cands) tb in
  pruneRetiredTaskStatusesLocked tb.
End prune.

(** ** Recording and reading statuses *)

Section table.
Context (rangeOrder : ∀ V, list (string * V) → list (string * V)) (now : time).

Definition storeTaskStatusLocked (response : ServiceTaskResponse) tb : StatusTable :=
  let tb := with_statuses (<[RsTaskID response := CloneServiceTaskResponse response]>) tb in
  let tb := touchTaskStatusLocked (RsTaskID response) now tb in
  pruneTaskStatusesLocked rangeOrder now (RsTaskID response) tb.

Definition taskNeedsOutputIngest (response : ServiceTaskResponse) : bool :=
  bool_decide ((OutputHashFromOutputs (rangeOrder _) (RsOutputs response)).1 ≠ "").

(** [closed] is the engine's shutdown flag. *)
Definition setTaskStatus (closed : bool) (response : ServiceTaskResponse) tb : StatusTable :=
  let response := CloneServiceTaskResponse response in
  let response := if closed then markTaskFailedShape response "compute engine closed" else response in
  match retiredTaskStatuses tb !! RsTaskID response with
  | Some _ => tb
  | None =>
      if match taskStatuses tb !! RsTaskID response with Some current => terminal current | None => false end
      then tb
      else
        let tb := if terminal response then acceptedDelete (RsTaskID response) tb else tb in
        storeTaskStatusLocked response tb
  end.

Definition GetTaskResponse (taskID : string) tb : option ServiceTaskResponse * StatusTable :=
  let tb := pruneTaskStatusesLocked rangeOrder now taskID tb in
  match taskStatuses tb !! taskID with
  | None =>
      match retiredTaskStatuses tb !! taskID with
      | None => (None, tb)
      | Some response => (Some (CloneServiceTaskResponse response), touchRetiredTaskStatusLocked taskID now tb)
      end
  | Some response => (Some (CloneServiceTaskResponse response), touchTaskStatusLocked taskID now tb)
  end.

(** The responses in the order the two maps are visited. *)
Definition GetAllTaskStatuses tb : list ServiceTaskResponse * StatusTable :=
  let tb := pruneTaskStatusesLocked rangeOrder now "" tb in
  (((CloneServiceTaskResponse ∘ snd) <$> rangeOrder _ (map_to_list (taskStatuses tb))) ++
   ((CloneServiceTaskResponse ∘ snd) <$> rangeOrder _ (map_to_list (retiredTaskStatuses tb))), tb).

(** ** Producers *)

Definition with_delegated (peers : gset string) (meta : taskStatusMetadata) : taskStatusMetadata :=
  {| touchedAt := touchedAt meta; sequence := sequence meta; expectedProducer := expectedProducer meta;
     delegatedProducers := Some (default ∅ (delegatedProducers meta) ∪ peers) |}.

Definition with_expected (peer : string) (meta : taskStatusMetadata) : taskStatusMetadata :=
  {| touchedAt := touchedAt meta; sequence := sequence meta; expectedProducer := peer;
     delegatedProducers := delegatedProducers meta |}.

Definition updateMeta (taskID : string) (f : taskStatusMetadata → taskStatusMetadata) tb : StatusTable :=
  with_meta (λ m, <[taskID := f (default zeroMeta (m !! taskID))]> m) tb.

Definition isAuthorizedCallbackProducer (producerNodeID : string) (meta : taskStatusMetadata) : bool :=
  (bool_decide (expectedProducer meta ≠ "") && bool_decide (expectedProducer meta = producerNodeID)) ||
  bool_decide (producerNodeID ∈ default ∅ (delegatedProducers meta)).

(** The targets a task is known to go to: those of its steps and the ones
    selected so far. *)
Definition delegates (schema : option PipelineSchema) (targets : gmap string string) : gset string :=
  list_to_set (filter (λ t, t ≠ "")
    (match schema with
     | Some s => (λ step, let t := default "" (targets !! StepID step) in
                          if bool_decide (t = "") then StepTargetNodeID step else t) <$> Steps s
     | None => []
     end ++ (map_to_list targets).*2)).

(** [schema] is the pipeline the engine knows for the task's service, or the
    snapshot the task carries. *)
Definition RegisterOutgoingTask (schema : option PipelineSchema) (req : TaskRequest) tb : StatusTable :=
  let peers := match RqPipelineState req with
               | Some st => delegates schema (default ∅ (SelectedTargets st))
               | None => ∅
               end in
  match taskStatuses tb !! RqTaskID req with
  | Some _ =>
      updateMeta (RqTaskID req) (λ meta,
        let meta := with_delegated peers meta in
        if bool_decide (RqExpectedProducerNodeID req ≠ "")
        then with_delegated {[RqExpectedProducerNodeID req]} (with_expected (RqExpectedProducerNodeID req) meta)
        else meta) tb
  | None =>
      let response := {| RsTaskID := RqTaskID req; RsService := RqService req; RsStatus := "pending";
                         RsError := ""; RsOutputs := None; RsProducerNodeID := ""; RsPipelineState := None |} in
      let tb := with_statuses (<[RqTaskID req := response]>) tb in
      let tb := touchTaskStatusLocked (RqTaskID req) now tb in
      let tb := updateMeta (RqTaskID req) (λ meta,
        {| touchedAt := touchedAt meta; sequence := sequence meta;
           expectedProducer := RqExpectedProducerNodeID req; delegatedProducers := Some peers |}) tb in
      pruneTaskStatusesLocked rangeOrder now (RqTaskID req) tb
  end.
End table.
