(* ===== verification/TaskStatusLaws.v ===== *)
(** * Laws of the status table

    The table never holds more tasks than its limit, eviction only drops what
    it may drop (a pending task becomes a failed one), and a failed task stays
    failed for as long as the table knows it. *)
From S2P Require Import Prelude GoStrings Json Protocol Tasks TaskStatus.
Local Open Scope stdpp_scope.

Implicit Types (tb : StatusTable) (id : string) (r : ServiceTaskResponse).

(** ** What an operation may do to a task *)

(** A status is kept or dropped; a task is retired only from a pending status
    and as a failure. *)
Record evolves tb tb' : Prop := {
  ev_status id : taskStatuses tb' !! id = taskStatuses tb !! id ∨ taskStatuses tb' !! id = None;
  ev_retired id : retiredTaskStatuses tb' !! id = retiredTaskStatuses tb !! id ∨
    retiredTaskStatuses tb' !! id = None ∨
    ∃ r reason, taskStatuses tb !! id = Some r ∧ terminal r = false ∧ taskStatuses tb' !! id = None ∧
      retiredTaskStatuses tb' !! id = Some (with_failure reason r);
  ev_accepted id : acceptedTasks tb' !! id = acceptedTasks tb !! id ∨ acceptedTasks tb' !! id = None;
  ev_limit : taskStatusLimit tb' = taskStatusLimit tb;
  ev_pending : pendingTaskStatusTTL tb' = pendingTaskStatusTTL tb;
  ev_terminal : terminalTaskStatusTTL tb' = terminalTaskStatusTTL tb }.

#[export] Instance evolves_refl : Reflexive evolves.
Proof. intros tb. split; auto. Qed.

#[export] Instance evolves_trans : Transitive evolves.
Proof.
  intros a b c [Hs1 Hr1 Ha1 Hl1 Hp1 Ht1] [Hs2 Hr2 Ha2 Hl2 Hp2 Ht2]. split; [| | |congruence..]; intros id.
  - destruct (Hs2 id) as [->|]; [|by right]. apply Hs1.
  - destruct (Hr2 id) as [->|[?|(r & reason & Hr & Hterm & Hnone & Hret)]]; [|by right; left|].
    + destruct (Hr1 id) as [|[|(r & reason & ? & ? & Hnone & ?)]]; [by left|by right; left|].
      right. right. exists r, reason. split; [done|]. split; [done|]. split; [|done].
      destruct (Hs2 id) as [->|]; done.
    + right. right. exists r, reason. destruct (Hs1 id) as [Heq|Heq]; [|congruence].
      rw -Heq. done.
  - destruct (Ha2 id) as [->|]; [|by right]. apply Ha1.
Qed.

Lemma evolves_drop_retired id tb :
  evolves tb (with_retiredMeta (delete id) (with_retired (delete id) tb)).
Proof.
  split; try done; intros i; try (by left). simpl. rw lookup_delete.
  destruct (decide (id = i)); [by right; left|by left].
Qed.

Lemma evolves_touch id now tb : evolves tb (touchTaskStatusLocked id now tb).
Proof. split; by auto. Qed.

Lemma evolves_delete id tb : evolves tb (deleteTaskStatusLocked id tb).
Proof.
  split; try done; intros i; try (by left). simpl. rw lookup_delete.
  destruct (decide (id = i)); [by right|by left].
Qed.

Lemma evolves_retire id r now reason tb :
  taskStatuses tb !! id = Some r → terminal r = false →
  evolves tb (retireActiveTaskStatusLocked id r now reason tb).
Proof.
  intros Hr Hterm. split; try done; intros i; simpl.
  - rw lookup_delete. destruct (decide (id = i)); [by right|by left].
  - rw lookup_insert lookup_delete CloneServiceTaskResponse_id.
    destruct (decide (id = i)) as [<-|]; [|by left]. right. right. by exists r, reason.
  - rw lookup_delete. destruct (decide (id = i)); [by right|by left].
Qed.

(** ** Pruning the retired tasks *)

Abbreviation cand_ids cands := (candTaskID <$> cands).

(** Only the retired tasks change. *)
Record retired_only tb tb' : Prop := {
  ro_status : taskStatuses tb' = taskStatuses tb;
  ro_meta : taskStatusMeta tb' = taskStatusMeta tb;
  ro_accepted : acceptedTasks tb' = acceptedTasks tb }.

#[export] Instance retired_only_trans : Transitive retired_only.
Proof. intros a b c [] []. split; congruence. Qed.
#[export] Instance retired_only_refl : Reflexive retired_only.
Proof. done. Qed.

Record scanned (l : list (string * ServiceTaskResponse)) (field : StatusTable → gmap string ServiceTaskResponse)
    tb (cands : list taskStatusEvictionCandidate) tb' : Prop := {
  sc_incl : cand_ids cands ⊆ l.*1;
  sc_nodup : NoDup (cand_ids cands);
  sc_lookup i : field tb' !! i = if decide (i ∈ l.*1 ∧ i ∉ cand_ids cands) then None else field tb !! i }.

Section prune_laws.
Context (rangeOrder : ∀ V, list (string * V) → list (string * V)) (now : time) (protectedTaskID : string).
Context (rangeOrder_perm : ∀ V l, rangeOrder V l ≡ₚ l).

(** Adding a key the scan dropped or kept. *)
Lemma scanned_drop id r l field tb tb1 cands tb' :
  NoDup (((id, r) :: l).*1) → scanned l field tb1 cands tb' →
  (∀ i, field tb1 !! i = if decide (id = i) then None else field tb !! i) →
  scanned ((id, r) :: l) field tb cands tb'.
Proof.
  intros [Hnew _]%NoDup_cons [Hincl Hnd Hlook] H1. split; [set_solver|done|]. intros i. rw Hlook H1. simpl in *.
  destruct (decide (id = i)) as [->|]; repeat case_decide; set_solver.
Qed.

Lemma scanned_keep id r l field tb tb1 cands tb' c :
  NoDup (((id, r) :: l).*1) → scanned l field tb1 cands tb' → candTaskID c = id →
  (∀ i, field tb1 !! i = field tb !! i) →
  scanned ((id, r) :: l) field tb (c :: cands) tb'.
Proof.
  intros [Hnew _]%NoDup_cons [Hincl Hnd Hlook] Hc H1. split; csimpl; rw Hc.
  - set_solver.
  - constructor; [set_solver|done].
  - intros i. rw Hlook H1. repeat case_decide; set_solver.
Qed.

Lemma scanRetired_spec l tb cands tb' :
  NoDup l.*1 → scanRetired now protectedTaskID l tb = (cands, tb') →
  scanned l retiredTaskStatuses tb cands tb' ∧ retired_only tb tb' ∧ evolves tb tb' ∧
  (protectedTaskID ∈ l.*1 → protectedTaskID ∈ cand_ids cands).
Proof.
  revert tb cands. induction l as [|[id r] l IH]; intros tb cands Hnd; simpl.
  { intros [= <- <-]. split; [split; [done|constructor|]|by split]. intros i. destruct (decide _) as [[?%elem_of_nil _]|]; done. }
  pose proof Hnd as [Hnew Hnd']%NoDup_cons. destruct (_ && _) eqn:Hcond.
  - intros Hrun. destruct (IH _ _ Hnd' Hrun) as (Hsc & Hro & Hev & Hprot). split; [|split; [|split]].
    + eapply scanned_drop; [done|exact Hsc|]. intros i. simpl. rw lookup_delete. done.
    + destruct Hro. split; done.
    + etrans; [apply evolves_drop_retired|exact Hev].
    + intros [->|Hin]%elem_of_cons; [|by apply Hprot].
      apply andb_true_iff in Hcond as [_ Hne%bool_decide_eq_true]. done.
  - destruct (scanRetired now protectedTaskID l tb) as [cs tb1] eqn:Hrun. intros [= <- <-].
    destruct (IH _ _ Hnd' Hrun) as (Hsc & Hro & Hev & Hprot).
    split; [by eapply scanned_keep|]. split; [done|]. split; [done|].
    csimpl. intros [->|Hin]%elem_of_cons; [by left|right; by apply Hprot].
Qed.

(** Evicting [n] of the candidates. *)
Abbreviation others cands := (filter (λ c, candTaskID c ≠ protectedTaskID) cands).

Lemma evictRetired_spec n cands tb :
  NoDup (cand_ids cands) → (∀ c, c ∈ cands → is_Some (retiredTaskStatuses tb !! candTaskID c)) →
  (n ≤ length (others cands))%nat →
  size (retiredTaskStatuses (evictRetired protectedTaskID n cands tb)) = (size (retiredTaskStatuses tb) - n)%nat ∧
  retired_only tb (evictRetired protectedTaskID n cands tb) ∧
  evolves tb (evictRetired protectedTaskID n cands tb) ∧
  retiredTaskStatuses (evictRetired protectedTaskID n cands tb) !! protectedTaskID = retiredTaskStatuses tb !! protectedTaskID.
Proof.
  revert n tb. induction cands as [|c cands IH]; intros n tb Hnd Hin Hn.
  { destruct n; simpl in *; [|lia]. split; [lia|done]. }
  destruct n as [|n]; [simpl; split; [lia|done]|]. csimpl in Hnd. apply NoDup_cons in Hnd as [Hnew Hnd].
  simpl. case_bool_decide as Hp.
  - rewrite ->filter_cons_False in Hn by (by intros ?). apply IH; [done| |done]. intros c' ?. apply Hin. by right.
  - rewrite ->filter_cons_True in Hn by done. simpl in Hn.
    set (tb1 := with_retiredMeta (delete (candTaskID c)) (with_retired (delete (candTaskID c)) tb)).
    destruct (IH n tb1 Hnd) as (Hsize & Hro & Hev & Hprot); [|lia|].
    { intros c' Hc'. simpl. rw lookup_delete_ne; [apply Hin; by right|].
      intros Heq. apply Hnew. apply list_elem_of_fmap. by exists c'. }
    destruct (Hin c) as [r Hr]; [by left|]. split; [|split; [|split]].
    + rw Hsize. simpl. rw map_size_delete_Some; [lia|by exists r].
    + destruct Hro. by split.
    + etrans; [apply evolves_drop_retired|exact Hev].
    + rw Hprot. simpl. by rw lookup_delete_ne.
Qed.

Lemma others_length cands :
  NoDup (cand_ids cands) → (length cands ≤ S (length (others cands)))%nat.
Proof.
  induction cands as [|c cands IH]; csimpl; [lia|]. intros [Hnew Hnd]%NoDup_cons.
  destruct (decide (candTaskID c ≠ protectedTaskID)) as [Hne|Heq].
  - rw filter_cons_True //. simpl. specialize (IH Hnd). lia.
  - rw filter_cons_False //. apply dec_stable in Heq.
    assert (others cands = cands) as ->; [|lia]. clear IH Hnd. induction cands as [|c' cands IH]; [done|].
    csimpl in Hnew. rw filter_cons_True; [f_equal; apply IH; set_solver|]. set_solver.
Qed.

Lemma scanned_size field tb cands tb' :
  scanned (rangeOrder _ (map_to_list (field tb))) field tb cands tb' → size (field tb') = length cands.
Proof.
  intros [Hincl Hnd Hlook]. rw -length_map_to_list -(length_fmap fst) -(length_fmap candTaskID cands).
  apply Permutation_length, NoDup_Permutation; [apply NoDup_fst_map_to_list|done|]. intros i.
  assert (i ∈ (map_to_list (field tb')).*1 ↔ is_Some (field tb' !! i)) as ->.
  { rw list_elem_of_fmap. split.
    - intros ([k v] & -> & Hin%elem_of_map_to_list). by exists v.
    - intros [v Hv]. exists (i, v). split; [done|]. by apply elem_of_map_to_list. }
  assert (i ∈ (rangeOrder _ (map_to_list (field tb))).*1 ↔ is_Some (field tb !! i)) as Hl.
  { rw rangeOrder_perm list_elem_of_fmap. split.
    - intros ([k v] & -> & Hin%elem_of_map_to_list). by exists v.
    - intros [v Hv]. exists (i, v). split; [done|]. by apply elem_of_map_to_list. }
  rw Hlook. split.
  - destruct (decide _) as [|Hno]; [by intros [? ?]|]. intros Hsome%Hl. destruct (decide (i ∈ cand_ids cands)); [done|].
    by destruct Hno.
  - intros Hc. destruct (decide _) as [[_ ?]|]; [done|]. by apply Hl, Hincl.
Qed.

Lemma rangeOrder_nodup (m : gmap string ServiceTaskResponse) : NoDup (rangeOrder _ (map_to_list m)).*1.
Proof. rw rangeOrder_perm. apply NoDup_fst_map_to_list. Qed.

Lemma surplus_fits tb cands :
  NoDup (cand_ids cands) → (surplus tb cands ≤ length (others cands))%nat.
Proof.
  intros Hnd. pose proof (others_length cands Hnd). unfold surplus.
  destruct (Z.leb_spec (taskStatusLimit tb) 0); simpl; [lia|].
  destruct (Z.leb_spec (Z.of_nat (length cands)) (taskStatusLimit tb)); lia.
Qed.

Lemma surplus_bound tb cands :
  (0 < taskStatusLimit tb)%Z → (Z.of_nat (length cands - surplus tb cands) ≤ taskStatusLimit tb)%Z.
Proof.
  intros Hpos. unfold surplus. rw (proj2 (Z.leb_gt _ _) Hpos). simpl.
  destruct (Z.leb_spec (Z.of_nat (length cands)) (taskStatusLimit tb)); lia.
Qed.

Lemma sorted_cands p b cands :
  NoDup (cand_ids cands) →
  NoDup (cand_ids (merge_sort (evict_le p b) cands)) ∧
  length (others (merge_sort (evict_le p b) cands)) = length (others cands).
Proof.
  intros Hnd. pose proof (merge_sort_Permutation (evict_le p b) cands) as Hp. split; [by rw Hp|]. by rw Hp.
Qed.

(** Pruning bounds the retired tasks and never drops the protected one. *)
Lemma pruneRetired_spec tb :
  let tb' := pruneRetiredTaskStatusesLocked rangeOrder now protectedTaskID tb in
  retired_only tb tb' ∧ evolves tb tb' ∧
  retiredTaskStatuses tb' !! protectedTaskID = retiredTaskStatuses tb !! protectedTaskID ∧
  ((0 < taskStatusLimit tb)%Z → (Z.of_nat (size (retiredTaskStatuses tb')) ≤ taskStatusLimit tb)%Z).
Proof.
  unfold pruneRetiredTaskStatusesLocked. simpl.
  destruct (scanRetired _ _ _ _) as [cands tb1] eqn:Hscan.
  apply scanRetired_spec in Hscan as (Hsc & Hro & Hev & Hprot); [|apply rangeOrder_nodup].
  pose proof (scanned_size _ _ _ _ Hsc) as Hsize. pose proof Hsc as [Hincl Hnd Hlook].
  destruct (sorted_cands protectedTaskID false cands Hnd) as [Hnd' Hlen].
  destruct (evictRetired_spec (surplus tb1 cands) _ tb1 Hnd') as (Hsz & Hro' & Hev' & Hp').
  { intros c. rw merge_sort_Permutation. intros Hc. rw Hlook.
    assert (candTaskID c ∈ cand_ids cands) as Hid by (apply list_elem_of_fmap; eauto).
    destruct (decide _) as [[_ ?]|_]; [done|]. apply Hincl in Hid. rw rangeOrder_perm in Hid.
    apply list_elem_of_fmap in Hid as ([k v] & -> & Hin%elem_of_map_to_list). by exists v. }
  { rw Hlen. by apply surplus_fits. }
  split; [by etrans|]. split; [by etrans|]. split.
  - rw Hp' Hlook. destruct (decide _) as [[Hin Hno]|]; [|done]. destruct Hno. by apply Hprot.
  - intros Hpos. rw Hsz Hsize -(ev_limit _ _ Hev). apply surplus_bound. by rw (ev_limit _ _ Hev).
Qed.

(** ** Pruning the statuses *)

(** A candidate speaks of a task of the table. *)
Definition names_task tb (c : taskStatusEvictionCandidate) : Prop :=
  ∃ r, taskStatuses tb !! candTaskID c = Some r ∧ candTerminal c = terminal r.

(** Dropping a task of the table: deleted when terminal, retired otherwise. *)
Definition drop_task id r reason tb : StatusTable :=
  if terminal r then deleteTaskStatusLocked id tb else retireActiveTaskStatusLocked id r now reason tb.

Lemma drop_task_spec id r reason tb :
  taskStatuses tb !! id = Some r →
  evolves tb (drop_task id r reason tb) ∧
  taskStatuses (drop_task id r reason tb) = delete id (taskStatuses tb) ∧
  taskStatusMeta (drop_task id r reason tb) = delete id (taskStatusMeta tb).
Proof.
  intros Hr. unfold drop_task. destruct (terminal r) eqn:Ht.
  - split; [apply evolves_delete|done].
  - split; [by apply evolves_retire|done].
Qed.

Lemma scanStatuses_spec l tb cands tb' :
  NoDup l.*1 → (∀ id r, (id, r) ∈ l → taskStatuses tb !! id = Some r) →
  scanStatuses now l tb = (cands, tb') →
  scanned l taskStatuses tb cands tb' ∧ evolves tb tb' ∧
  (∀ c, c ∈ cands → names_task tb c) ∧
  (∀ m, taskStatusMeta tb !! protectedTaskID = Some m → touchedAt m = now → protectedTaskID ∈ l.*1 →
        protectedTaskID ∈ cand_ids cands).
Proof.
  revert tb cands. induction l as [|[id r] l IH]; intros tb cands Hnd Hl; cbn [scanStatuses].
  { intros [= <- <-]. split; [|split; [done|split; [by intros c ?%elem_of_nil|by intros m _ _ ?%elem_of_nil]]].
    split; [done|constructor|]. intros i. destruct (decide _) as [[?%elem_of_nil _]|]; done. }
  pose proof Hnd as [Hnew Hnd']%NoDup_cons.
  assert (taskStatuses tb !! id = Some r) as Hr by (apply Hl; by left).
  set (tb1 := match taskStatusMeta tb !! id with Some _ => tb | None => touchTaskStatusLocked id now tb end).
  assert (evolves tb tb1) as Hev1 by (unfold tb1; destruct (taskStatusMeta tb !! id); [done|apply evolves_touch]).
  assert (taskStatuses tb1 = taskStatuses tb) as Hs1 by (unfold tb1; by destruct (taskStatusMeta tb !! id)).
  assert (∀ i m, taskStatusMeta tb !! i = Some m → taskStatusMeta tb1 !! i = Some m) as Hm1.
  { intros i m Him. unfold tb1. destruct (taskStatusMeta tb !! id) eqn:Hid; [done|]. simpl. unfold touchStatusMeta.
    rw lookup_insert_ne //. by intros ->; congruence. }
  destruct (_ && _) eqn:Hexp.
  - change (if terminal r then deleteTaskStatusLocked id tb1 else _)
      with (drop_task id r "task expired before reaching a terminal callback" tb1).
    destruct (drop_task_spec id r "task expired before reaching a terminal callback" tb1) as (Hev2 & Hs2 & Hm2);
      [by rw Hs1|]. set (tb2 := drop_task id r _ tb1) in *. intros Hrun.
    destruct (IH tb2 cands Hnd') as (Hsc & Hev & Hnames & Hprot); [|exact Hrun|].
    { intros i r' Hin. rw Hs2 Hs1 lookup_delete_ne; [apply Hl; by right|].
      intros <-. apply Hnew, list_elem_of_fmap. by exists (id, r'). }
    split; [|split; [by do 2 (etrans; [done|])|split]].
    + eapply scanned_drop; [done|exact Hsc|]. intros i. rw Hs2 Hs1 lookup_delete. done.
    + intros c (rc & Hc & Hct)%Hnames. exists rc. split; [|done]. rw Hs2 Hs1 lookup_delete in Hc. by destruct (decide _).
    + intros m Hm Htouch [Heq|Hin]%elem_of_cons; simpl in *.
      * subst id. rw (Hm1 _ _ Hm) /= in Hexp. apply andb_true_iff in Hexp as [Hpos%Z.ltb_lt Hle%Z.leb_le]. lia.
      * apply (Hprot m); [|done|done]. rw Hm2 lookup_delete_ne; [by apply Hm1|]. by intros ->.
  - destruct (scanStatuses now l tb1) as [cs tb2] eqn:Hrun. intros [= <- <-].
    destruct (IH tb1 cs Hnd') as (Hsc & Hev & Hnames & Hprot); [|exact Hrun|].
    { intros i r' Hin. rw Hs1. apply Hl. by right. }
    split; [|split; [by etrans|split]].
    + eapply scanned_keep; [done|exact Hsc|done|]. intros i. by rw Hs1.
    + intros c [->|Hc]%elem_of_cons; [by exists r|]. destruct (Hnames c Hc) as (rc & Hrc & ?). exists rc. by rw -Hs1.
    + csimpl. intros m Hm Htouch [Heq|Hin]%elem_of_cons; [apply elem_of_cons; by left|apply elem_of_cons; right].
      apply (Hprot m); [by apply Hm1|done|done].
Qed.

Lemma evictStatuses_spec n cands tb :
  NoDup (cand_ids cands) → (∀ c, c ∈ cands → names_task tb c) → (n ≤ length (others cands))%nat →
  size (taskStatuses (evictStatuses now protectedTaskID n cands tb)) = (size (taskStatuses tb) - n)%nat ∧
  evolves tb (evictStatuses now protectedTaskID n cands tb) ∧
  taskStatuses (evictStatuses now protectedTaskID n cands tb) !! protectedTaskID = taskStatuses tb !! protectedTaskID.
Proof.
  revert n tb. induction cands as [|c cands IH]; intros n tb Hnd Hin Hn.
  { destruct n; simpl in *; [|lia]. split; [lia|done]. }
  destruct n as [|n]; [simpl; split; [lia|done]|]. csimpl in Hnd. apply NoDup_cons in Hnd as [Hnew Hnd].
  cbn [evictStatuses]. case_bool_decide as Hp.
  - rewrite ->filter_cons_False in Hn by (by intros ?). apply IH; [done| |done]. intros c' ?. apply Hin. by right.
  - rewrite ->filter_cons_True in Hn by done. simpl in Hn.
    destruct (Hin c) as (r & Hr & Hterm); [by left|]. rw Hr Hterm.
    change (if terminal r then deleteTaskStatusLocked (candTaskID c) tb else _)
      with (drop_task (candTaskID c) r "task failed because status capacity was exhausted" tb).
    destruct (drop_task_spec (candTaskID c) r "task failed because status capacity was exhausted" tb Hr) as (Hev1 & Hs1 & _).
    set (tb1 := drop_task (candTaskID c) r _ tb) in *.
    destruct (IH n tb1 Hnd) as (Hsize & Hev & Hprot); [|lia|].
    { intros c' Hc'. destruct (Hin c') as (r' & Hr' & ?); [by right|]. exists r'. split; [|done].
      rw Hs1 lookup_delete_ne //. intros Heq. apply Hnew, list_elem_of_fmap. by exists c'. }
    split; [|split; [by etrans|]].
    + rw Hsize Hs1 map_size_delete_Some; [lia|by exists r].
    + rw Hprot Hs1 lookup_delete_ne //.
Qed.

(** Pruning bounds the table, drops only what it may and keeps the protected
    task when it was just touched. *)
Lemma prune_spec tb :
  let tb' := pruneTaskStatusesLocked rangeOrder now protectedTaskID tb in
  evolves tb tb' ∧
  ((0 < taskStatusLimit tb)%Z →
     (Z.of_nat (size (taskStatuses tb')) ≤ taskStatusLimit tb)%Z ∧
     (Z.of_nat (size (retiredTaskStatuses tb')) ≤ taskStatusLimit tb)%Z) ∧
  (∀ m, taskStatusMeta tb !! protectedTaskID = Some m → touchedAt m = now →
     taskStatuses tb' !! protectedTaskID = taskStatuses tb !! protectedTaskID).
Proof.
  unfold pruneTaskStatusesLocked. simpl.
  destruct (pruneRetired_spec tb) as ([Hst1 Hme1 Hac1] & Hev1 & _ & _).
  set (tb1 := pruneRetiredTaskStatusesLocked rangeOrder now protectedTaskID tb) in *.
  destruct (scanStatuses _ _ _) as [cands tb2] eqn:Hscan.
  apply scanStatuses_spec in Hscan as (Hsc & Hev2 & Hnames & Hprot); [|apply rangeOrder_nodup|].
  2: { intros id r. rw rangeOrder_perm. apply elem_of_map_to_list. }
  pose proof (scanned_size _ _ _ _ Hsc) as Hsize. pose proof Hsc as [Hincl Hnd Hlook].
  destruct (sorted_cands protectedTaskID true cands Hnd) as [Hnd' Hlen].
  destruct (evictStatuses_spec (surplus tb2 cands) _ tb2 Hnd') as (Hsz & Hev3 & Hp3).
  { intros c. rw merge_sort_Permutation. intros Hc. destruct (Hnames c Hc) as (r & Hr & ?). exists r.
    split; [|done]. rw Hlook. destruct (decide _) as [[_ Hno]|]; [|done]. destruct Hno.
    apply list_elem_of_fmap. eauto. }
  { rw Hlen. by apply surplus_fits. }
  set (tb3 := evictStatuses _ _ _ _ _) in *.
  destruct (pruneRetired_spec tb3) as ([Hst4 _ _] & Hev4 & _ & Hbound4).
  assert (evolves tb tb2) as Hev12 by (by etrans). assert (evolves tb tb3) as Hev13 by (by etrans).
  split; [by etrans|]. split.
  - intros Hpos. rewrite ->(ev_limit _ _ Hev13) in Hbound4. split; [|by apply Hbound4].
    rw Hst4 Hsz Hsize -(ev_limit _ _ Hev12). apply surplus_bound. by rw (ev_limit _ _ Hev12).
  - intros m Hm Htouch. rw Hst4 Hp3 Hlook -Hst1. destruct (decide _) as [[Hin Hno]|]; [|done].
    destruct Hno. apply (Hprot m); [by rw Hme1|done|done].
Qed.
End prune_laws.

(** ** Operations *)

(** The table and the retired tasks are within the limit, where there is one. *)
Definition bounded tb : Prop :=
  (0 < taskStatusLimit tb)%Z →
  (Z.of_nat (size (taskStatuses tb)) ≤ taskStatusLimit tb)%Z ∧
  (Z.of_nat (size (retiredTaskStatuses tb)) ≤ taskStatusLimit tb)%Z.

Section operations.
Context (rangeOrder : ∀ V, list (string * V) → list (string * V)) (now : time).
Context (rangeOrder_perm : ∀ V l, rangeOrder V l ≡ₚ l).

Lemma prune_bounded p tb : bounded (pruneTaskStatusesLocked rangeOrder now p tb).
Proof.
  destruct (prune_spec rangeOrder now p rangeOrder_perm tb) as (Hev & Hb & _).
  intros Hpos. rewrite ->(ev_limit _ _ Hev) in Hpos |- *. by apply Hb.
Qed.

Lemma store_bounded r tb : bounded (storeTaskStatusLocked rangeOrder now r tb).
Proof. apply prune_bounded. Qed.

(** A stored status is there afterwards; the other tasks evolve. *)
Lemma store_spec r tb :
  taskStatuses (storeTaskStatusLocked rangeOrder now r tb) !! RsTaskID r = Some r ∧
  evolves (with_statuses (<[RsTaskID r := r]>) tb) (storeTaskStatusLocked rangeOrder now r tb).
Proof.
  unfold storeTaskStatusLocked. rw CloneServiceTaskResponse_id.
  set (tb1 := touchTaskStatusLocked _ _ _).
  destruct (prune_spec rangeOrder now (RsTaskID r) rangeOrder_perm tb1) as (Hev & _ & Hkeep). split.
  - rewrite ->(Hkeep (touched_meta now (bumpSeq tb) (default zeroMeta (taskStatusMeta tb !! RsTaskID r)))).
    + simpl. apply lookup_insert_eq.
    + simpl. unfold touchStatusMeta. apply lookup_insert_eq.
    + done.
  - etrans; [|exact Hev]. apply evolves_touch.
Qed.

(** What a guarded store does to a task that may not be overwritten. *)
Lemma store_other r tb id :
  id ≠ RsTaskID r →
  let tb' := storeTaskStatusLocked rangeOrder now r tb in
  (taskStatuses tb' !! id = taskStatuses tb !! id ∨ taskStatuses tb' !! id = None).
Proof.
  intros Hne tb'. destruct (store_spec r tb) as [_ [Hs _ _ _ _ _]]. specialize (Hs id). simpl in Hs.
  by rw lookup_insert_ne in Hs.
Qed.

(** [setTaskStatus] either leaves the table alone, because the task is retired
    or terminal, or stores the response. *)
Lemma set_cases cl r tb :
  let r' := if cl : bool then with_failure "compute engine closed" r else r in
  (setTaskStatus rangeOrder now cl r tb = tb ∧
   (is_Some (retiredTaskStatuses tb !! RsTaskID r) ∨
    ∃ current, taskStatuses tb !! RsTaskID r = Some current ∧ terminal current = true)) ∨
  (retiredTaskStatuses tb !! RsTaskID r = None ∧
   (∀ current, taskStatuses tb !! RsTaskID r = Some current → terminal current = false) ∧
   setTaskStatus rangeOrder now cl r tb =
     storeTaskStatusLocked rangeOrder now r' (if terminal r' then acceptedDelete (RsTaskID r) tb else tb)).
Proof.
  unfold setTaskStatus. rw CloneServiceTaskResponse_id. unfold markTaskFailedShape.
  assert (RsTaskID (if cl then with_failure "compute engine closed" r else r) = RsTaskID r) as -> by (by destruct cl).
  destruct (retiredTaskStatuses tb !! RsTaskID r) eqn:Hret; [left; eauto|].
  destruct (taskStatuses tb !! RsTaskID r) as [cur|] eqn:Hcur.
  - destruct (terminal cur) eqn:Hterm; [left; eauto|]. right. split; [done|]. split; [by intros ? [= <-]|done].
  - right. done.
Qed.

Lemma set_bounded cl r tb : bounded tb → bounded (setTaskStatus rangeOrder now cl r tb).
Proof.
  intros Hb. destruct (set_cases cl r tb) as [[-> _]|(_ & _ & ->)]; [done|apply store_bounded].
Qed.

Lemma register_bounded sch req tb : bounded tb → bounded (RegisterOutgoingTask rangeOrder now sch req tb).
Proof.
  unfold RegisterOutgoingTask. intros Hb. destruct (taskStatuses tb !! RqTaskID req); [done|apply prune_bounded].
Qed.

Lemma get_bounded id tb : bounded (GetTaskResponse rangeOrder now id tb).2.
Proof.
  unfold GetTaskResponse. pose proof (prune_bounded id tb) as Hb.
  set (tb1 := pruneTaskStatusesLocked rangeOrder now id tb) in *.
  destruct (taskStatuses tb1 !! id); [done|]. by destruct (retiredTaskStatuses tb1 !! id).
Qed.

Lemma all_bounded tb : bounded (GetAllTaskStatuses rangeOrder now tb).2.
Proof. apply prune_bounded. Qed.

(** After [setTaskStatus] of a terminal response the task is settled: it has a
    terminal status, or it was given up on before. *)
Definition settled tb id : Prop :=
  (∃ r, taskStatuses tb !! id = Some r ∧ terminal r = true) ∨ is_Some (retiredTaskStatuses tb !! id).

Lemma set_settles cl r tb :
  terminal r = true → settled (setTaskStatus rangeOrder now cl r tb) (RsTaskID r).
Proof.
  intros Hterm. destruct (set_cases cl r tb) as [[-> [Hret|(cur & Hcur & Hct)]]|(_ & _ & ->)].
  - by right.
  - left. eauto.
  - left. set (r' := if cl then _ else _). exists r'.
    assert (RsTaskID r' = RsTaskID r ∧ terminal r' = true) as [<- ?] by (unfold r'; by destruct cl).
    split; [|done]. apply store_spec.
Qed.
End operations.
