(* ===== verification/ComputeEngine.v ===== *)
(** * The compute engine

    [internal/compute/compute.go]: the engine's state, its journal, its
    pipelines, the recording of results and the submission of tasks.

    What the engine reaches outside the node is the class [ComputeWorld] over
    a state [W]: the clock, the order in which maps are visited, the cluster's
    answers.  The journal is the class [TaskJournal], the interface the code
    declares; a nil journal is an instance that does nothing.  A call of the
    engine is an [ST] computation whose error is a run-time panic; an [error]
    the Go function returns is a value ([option error], [None] for nil). *)
From Stdlib Require Import String.
From S2P Require Import Prelude GoStrings Json Protocol Pipeline Bolt Journal Tasks TaskStatus.
Local Open Scope stdpp_scope.

(** ** The outside *)

Record URL := { Scheme : string; Host : string; Hostname : string }.

Class ComputeWorld (W : Type) := {
  clock : W → time;
  rangeOrder : W → ∀ V, list (string * V) → list (string * V);
  PipelineSchemaHash : PipelineSchema → string;
  Sprint : any → string;
  DeepEqual : TaskRequest → TaskRequest → bool;
  url_Parse : string → option URL;
  (** [ServiceFinder], of which the engine uses the peer. *)
  serviceFinder : option (DiscoveryQuery → W → res string * W);
  vfsBlobResolver : option (string → string → W → res string * W);
  (** [protocol.RewriteLocalFilePaths] with the configured stager: the error
      and the map it leaves. *)
  rewriteOutputs : gmap string any → W → (option error * gmap string any) * W;
  SendTaskResponse : string → ServiceTaskResponse → W → option error * W;
  taskEscrowDispatcher : option (string → TaskEscrowRequest → W → option error * W);
  SendTaskEscrow : option (string → TaskEscrowRequest → W → option error * W) }.

Class ComputeWorldLaws (W : Type) `{ComputeWorld W} : Prop := {
  rangeOrder_perm w V (l : list (string * V)) : rangeOrder w V l ≡ₚ l;
  DeepEqual_eq r r' : DeepEqual r r' = true → r = r' }.

Class TaskJournal (J : Type) := {
  journalAppend : time → TaskJournalRecord → J → option error * J;
  journalSaveIntermediate : time → string → string → gomap any → J → option error * J;
  journalPrune : string → J → option error * J }.

(** The engine without a journal. *)
#[export] Instance noJournal : TaskJournal unit := {|
  journalAppend _ _ j := (None, j);
  journalSaveIntermediate _ _ _ _ j := (None, j);
  journalPrune _ j := (None, j) |}.

(** ** State *)

(** A call to another node that the node accepted. *)
Inductive outgoing :=
  | Dispatched (peer : string) (req : TaskRequest)
  | Answered (replyTo : string) (response : ServiceTaskResponse)
  | Escalated (coordinator : string) (req : TaskEscrowRequest).

(** [sent] is no field of the source: it records the accepted calls. *)
Record ComputeEngine (W J : Type) := {
  taskQueue : list TaskRequest;
  registry : ServiceRegistry W;
  table : StatusTable;
  ceNodeID : string;
  pipelines : gmap string PipelineSchema;
  pipelineRevisions : gmap string PipelineSchema;
  taskJournal : J;
  escrowTasks : gmap string TaskEscrowRequest;
  closed : bool;
  cancelled : bool;
  world : W;
  sent : list outgoing }.
Arguments taskQueue {W J}.
Arguments registry {W J}.
Arguments table {W J}.
Arguments ceNodeID {W J}.
Arguments pipelines {W J}.
Arguments pipelineRevisions {W J}.
Arguments taskJournal {W J}.
Arguments escrowTasks {W J}.
Arguments closed {W J}.
Arguments cancelled {W J}.
Arguments world {W J}.
Arguments sent {W J}.
Arguments Build_ComputeEngine {W J}.

(** [cap(c.taskQueue)]. *)
Definition taskQueueCap : nat := 10.

Section engine.
Context {W J : Type} `{!ComputeWorld W} `{!TaskJournal J}.
Implicit Types s : ComputeEngine W J.

Definition CE (A : Type) : Type := ST (ComputeEngine W J) A.

Definition set_queue f s : ComputeEngine W J :=
  Build_ComputeEngine (f (taskQueue s)) (registry s) (table s) (ceNodeID s) (pipelines s) (pipelineRevisions s)
    (taskJournal s) (escrowTasks s) (closed s) (cancelled s) (world s) (sent s).
Definition set_registry r s : ComputeEngine W J :=
  Build_ComputeEngine (taskQueue s) r (table s) (ceNodeID s) (pipelines s) (pipelineRevisions s)
    (taskJournal s) (escrowTasks s) (closed s) (cancelled s) (world s) (sent s).
Definition set_table f s : ComputeEngine W J :=
  Build_ComputeEngine (taskQueue s) (registry s) (f (table s)) (ceNodeID s) (pipelines s) (pipelineRevisions s)
    (taskJournal s) (escrowTasks s) (closed s) (cancelled s) (world s) (sent s).
Definition set_pipelines f s : ComputeEngine W J :=
  Build_ComputeEngine (taskQueue s) (registry s) (table s) (ceNodeID s) (f (pipelines s)) (pipelineRevisions s)
    (taskJournal s) (escrowTasks s) (closed s) (cancelled s) (world s) (sent s).
Definition set_revisions f s : ComputeEngine W J :=
  Build_ComputeEngine (taskQueue s) (registry s) (table s) (ceNodeID s) (pipelines s) (f (pipelineRevisions s))
    (taskJournal s) (escrowTasks s) (closed s) (cancelled s) (world s) (sent s).
Definition set_journal j s : ComputeEngine W J :=
  Build_ComputeEngine (taskQueue s) (registry s) (table s) (ceNodeID s) (pipelines s) (pipelineRevisions s)
    j (escrowTasks s) (closed s) (cancelled s) (world s) (sent s).
Definition set_escrow f s : ComputeEngine W J :=
  Build_ComputeEngine (taskQueue s) (registry s) (table s) (ceNodeID s) (pipelines s) (pipelineRevisions s)
    (taskJournal s) (f (escrowTasks s)) (closed s) (cancelled s) (world s) (sent s).
Definition set_closed s : ComputeEngine W J :=
  Build_ComputeEngine (taskQueue s) (registry s) (table s) (ceNodeID s) (pipelines s) (pipelineRevisions s)
    (taskJournal s) (escrowTasks s) true (cancelled s) (world s) (sent s).
Definition set_cancelled s : ComputeEngine W J :=
  Build_ComputeEngine (taskQueue s) (registry s) (table s) (ceNodeID s) (pipelines s) (pipelineRevisions s)
    (taskJournal s) (escrowTasks s) (closed s) true (world s) (sent s).
Definition set_world w s : ComputeEngine W J :=
  Build_ComputeEngine (taskQueue s) (registry s) (table s) (ceNodeID s) (pipelines s) (pipelineRevisions s)
    (taskJournal s) (escrowTasks s) (closed s) (cancelled s) w (sent s).
Definition set_sent f s : ComputeEngine W J :=
  Build_ComputeEngine (taskQueue s) (registry s) (table s) (ceNodeID s) (pipelines s) (pipelineRevisions s)
    (taskJournal s) (escrowTasks s) (closed s) (cancelled s) (world s) (f (sent s)).

Definition onWorld {A} (f : W → A * W) : CE A := λ s,
  let '(a, w) := f (world s) in (Ok a, set_world w s).

Definition onJournal (f : J → option error * J) : CE (option error) := λ s,
  let '(e, j) := f (taskJournal s) in (Ok e, set_journal j s).

Definition onTable (f : StatusTable → StatusTable) : CE unit := modify (set_table f).

Definition send (o : outgoing) : CE unit := modify (set_sent (λ l, l ++ [o])).

Definition panic {A} (text : string) : CE A := fail (EPanic text).

(** An indexed read of a slice, which panics out of range. *)
Definition index {A} (l : list A) (i : Z) : CE A :=
  match (if (i <? 0)%Z then None else l !! Z.to_nat i) with
  | Some a => mret a
  | None => panic "index out of range"
  end.

Definition NewComputeEngine (id : string) (j : J) (w : W) : ComputeEngine W J :=
  Build_ComputeEngine [] NewServiceRegistry emptyTable id ∅ ∅ j ∅ false false w [].

Definition RegisterNewService (sch : ServiceSchema) (h : ServiceHandler W) : CE (option error) := λ s,
  match Register sch h (registry s) with
  | (Ok _, r) => (Ok None, set_registry r s)
  | (Err e, r) => (Ok (Some e), set_registry r s)
  end.

Definition ClearServices : CE unit := modify (λ s, set_registry (Registry_Clear (registry s)) s).

(** ** The journal *)

Definition recordCheckpoint (record : TaskJournalRecord) : CE (option error) :=
  s ← gets id;
  onJournal (journalAppend (clock (world s)) record).

Definition mkCheckpoint (c : TaskContext) (outputs : gomap any) (now : time) : TaskJournalRecord :=
  {| JContext := c; JSequence := 0; JTimestamp := now; JStepID := ""; JStepIndex := 0;
     JOutputs := outputs; JIntermediate := false; JIntermediateBlobs := [] |}.

Definition checkpointFromTask s (t : TaskRequest) (status : string) : TaskJournalRecord :=
  mkCheckpoint
    {| TaskID := RqTaskID t; TService := RqService t; Status := status;
       RequesterNodeID := RqRequesterNodeID t; ReplyTo := RqReplyTo t; NodeID := ceNodeID s;
       Payload := CloneJSONMap (RqPayload t); TError := "";
       PipelineState := ClonePipelineExecutionState (RqPipelineState t); Metadata := None |}
    None (clock (world s)).

(** The assignments the callers make to a fresh checkpoint. *)
Definition at_step (stepID : string) (stepIndex : Z) (r : TaskJournalRecord) : TaskJournalRecord :=
  {| JContext := JContext r; JSequence := JSequence r; JTimestamp := JTimestamp r; JStepID := stepID;
     JStepIndex := stepIndex; JOutputs := JOutputs r; JIntermediate := JIntermediate r;
     JIntermediateBlobs := JIntermediateBlobs r |}.

Definition with_outputs (outputs : gomap any) (intermediate : bool) (r : TaskJournalRecord) : TaskJournalRecord :=
  {| JContext := JContext r; JSequence := JSequence r; JTimestamp := JTimestamp r; JStepID := JStepID r;
     JStepIndex := JStepIndex r; JOutputs := outputs; JIntermediate := intermediate;
     JIntermediateBlobs := JIntermediateBlobs r |}.

Definition with_context (f : TaskContext → TaskContext) (r : TaskJournalRecord) : TaskJournalRecord :=
  {| JContext := f (JContext r); JSequence := JSequence r; JTimestamp := JTimestamp r; JStepID := JStepID r;
     JStepIndex := JStepIndex r; JOutputs := JOutputs r; JIntermediate := JIntermediate r;
     JIntermediateBlobs := JIntermediateBlobs r |}.

Definition ctx_error (e : string) (c : TaskContext) : TaskContext :=
  {| TaskID := TaskID c; TService := TService c; Status := Status c; RequesterNodeID := RequesterNodeID c;
     ReplyTo := ReplyTo c; NodeID := NodeID c; Payload := Payload c; TError := e;
     PipelineState := PipelineState c; Metadata := Metadata c |}.

Definition ctx_state (st : option PipelineExecutionState) (c : TaskContext) : TaskContext :=
  {| TaskID := TaskID c; TService := TService c; Status := Status c; RequesterNodeID := RequesterNodeID c;
     ReplyTo := ReplyTo c; NodeID := NodeID c; Payload := Payload c; TError := TError c;
     PipelineState := st; Metadata := Metadata c |}.

Definition ctx_metadata (md : gomap string) (c : TaskContext) : TaskContext :=
  {| TaskID := TaskID c; TService := TService c; Status := Status c; RequesterNodeID := RequesterNodeID c;
     ReplyTo := ReplyTo c; NodeID := NodeID c; Payload := Payload c; TError := TError c;
     PipelineState := PipelineState c; Metadata := md |}.

Definition recordTerminalResponseCheckpoint (response : ServiceTaskResponse) (producerNodeID : string) : CE unit :=
  if negb (isTerminalStatus (RsStatus response)) then mret ()
  else
    let producer := if bool_decide (producerNodeID = "") then RsProducerNodeID response else producerNodeID in
    s ← gets id;
    recordCheckpoint (mkCheckpoint
      {| TaskID := RsTaskID response; TService := RsService response; Status := RsStatus response;
         RequesterNodeID := ""; ReplyTo := ""; NodeID := producer; Payload := None; TError := RsError response;
         PipelineState := None; Metadata := None |}
      (CloneJSONMap (RsOutputs response)) (clock (world s)));;
    mret ().

(** ** Pipelines *)

(** [persist] stores the revision; [None] for the nil function. *)
Definition ApplyPipelineRevision (sch : PipelineSchema)
    (persist : option (PipelineSchema → CE (option error))) : CE (option error) :=
  let sch := ClonePipelineSchema sch in
  match ValidatePipelineSchema sch None with
  | Err e => mret (Some e)
  | Ok _ =>
      s ← gets id;
      match (match pipelineRevisions s !! SchemaID sch with
             | Some current => ValidatePipelineRevision PipelineSchemaHash current sch
             | None => Ok ()
             end) with
      | Err e => mret (Some e)
      | Ok _ =>
          stored ← match persist with Some p => p (ClonePipelineSchema sch) | None => mret None end;
          match stored with
          | Some e => mret (Some e)
          | None =>
              modify (set_revisions (<[SchemaID sch := ClonePipelineSchema sch]>));;
              modify (set_pipelines (if SchemaDeleted sch then delete (SchemaID sch)
                                     else <[SchemaID sch := ClonePipelineSchema sch]>));;
              mret None
          end
      end
  end.

Definition RegisterPipeline (sch : PipelineSchema) : CE (option error) := ApplyPipelineRevision sch None.

Definition GetPipeline s (id : string) : option PipelineSchema := ClonePipelineSchema <$> pipelines s !! id.

Definition GetPipelineRevision s (id : string) : option PipelineSchema :=
  ClonePipelineSchema <$> pipelineRevisions s !! id.

Definition schema_le (a b : PipelineSchema) : Prop := String.le (SchemaID a) (SchemaID b).
#[local] Instance schema_le_dec : RelDecision schema_le.
Proof. intros a b. unfold schema_le. apply _. Defined.

Definition ListPipelines s : list PipelineSchema :=
  merge_sort schema_le ((ClonePipelineSchema ∘ snd) <$> map_to_list (pipelines s)).

(** The pipeline a task runs: the registered one, or the snapshot it carries. *)
Definition pipelineFor s (service : string) (st : option PipelineExecutionState) : option PipelineSchema :=
  match GetPipeline s service with
  | Some sch => Some sch
  | None => st ≫= Snapshot
  end.

(** ** Recording results *)

Definition ceSetTaskStatus (response : ServiceTaskResponse) : CE unit :=
  s ← gets id;
  onTable (setTaskStatus (rangeOrder (world s)) (clock (world s)) (closed s) response).

Definition ceStoreTaskStatus (response : ServiceTaskResponse) : CE unit :=
  s ← gets id;
  onTable (storeTaskStatusLocked (rangeOrder (world s)) (clock (world s)) response).

Definition ceRegisterOutgoingTask (req : TaskRequest) : CE unit :=
  s ← gets id;
  onTable (RegisterOutgoingTask (rangeOrder (world s)) (clock (world s))
             (pipelineFor s (RqService req) (RqPipelineState req)) req).

Definition ceGetTaskResponse (taskID : string) : CE (option ServiceTaskResponse) := λ s,
  let '(r, tb) := GetTaskResponse (rangeOrder (world s)) (clock (world s)) taskID (table s) in
  (Ok r, set_table (λ _, tb) s).

Definition ceGetAllTaskStatuses : CE (list ServiceTaskResponse) := λ s,
  let '(l, tb) := GetAllTaskStatuses (rangeOrder (world s)) (clock (world s)) (table s) in
  (Ok l, set_table (λ _, tb) s).

Definition MarkTaskAsFailed (req : TaskRequest) (reason : string) : CE unit :=
  ceSetTaskStatus (failedTaskResponse (RqTaskID req) (RqService req) reason).

Definition with_result (service status producer : string) (r : ServiceTaskResponse) : ServiceTaskResponse :=
  {| RsTaskID := RsTaskID r; RsService := service; RsStatus := status; RsError := RsError r;
     RsOutputs := RsOutputs r; RsProducerNodeID := producer; RsPipelineState := RsPipelineState r |}.

(** The status a callback leaves: [Ok None] to ignore it, an error to refuse
    it, otherwise the response to store and whether the task is finished. *)
Definition callbackOutcome (needsIngest : bool) (current response : ServiceTaskResponse) (producerNodeID : string)
    : res (option (ServiceTaskResponse * bool)) :=
  if bool_decide (RsService response ≠ "") && bool_decide (RsService current ≠ "") &&
     bool_decide (RsService response ≠ RsService current)
  then Err (EMsg "task service mismatch")
  else
    let service := if bool_decide (RsService response = "") then RsService current else RsService response in
    if isTerminalStatus (RsStatus current) then
      if bool_decide (RsStatus current = RsStatus response) &&
         (bool_decide (RsProducerNodeID current = "") || bool_decide (RsProducerNodeID current = producerNodeID))
      then Ok None else Err (ESentinel ErrTaskDone)
    else if bool_decide (RsStatus current = TaskStatusIngesting) then
      if bool_decide (RsStatus response = "completed") then Ok None else Err (ESentinel ErrTaskDone)
    else if bool_decide (RsStatus response = "completed") then
      if needsIngest then Ok (Some (with_result service TaskStatusIngesting producerNodeID response, false))
      else Ok (Some (with_result service "completed" producerNodeID response, true))
    else if bool_decide (RsStatus response = "failed") then
      Ok (Some (with_result service "failed" producerNodeID response, true))
    else Err (EMsg "invalid callback task status").

Definition AcceptTaskCallback (producerNodeID : string) (response : ServiceTaskResponse) : CE (option error) :=
  let response := CloneServiceTaskResponse response in
  let id := RsTaskID response in
  if bool_decide (producerNodeID = "") then mret (Some (EMsg "authenticated producer is empty"))
  else if bool_decide (RsProducerNodeID response ≠ "") && bool_decide (RsProducerNodeID response ≠ producerNodeID)
  then mret (Some (EMsg "producer node ID does not match authenticated peer"))
  else
    s ← gets Datatypes.id;
    match taskStatuses (table s) !! id with
    | None =>
        match retiredTaskStatuses (table s) !! id with
        | Some _ => mret (Some (ESentinel ErrTaskDone))
        | None => mret (Some (ESentinel ErrUnknownTask))
        end
    | Some current =>
        let meta := default zeroMeta (taskStatusMeta (table s) !! id) in
        if negb (isAuthorizedCallbackProducer producerNodeID meta) then
          mret (Some (EWrap (if bool_decide (expectedProducer meta = "") && bool_decide (default ∅ (delegatedProducers meta) = ∅)
                             then "no producer was registered for task" else "unexpected producer")
                       (ESentinel ErrTaskProducer)))
        else
          onTable (updateMeta id (with_delegated {[producerNodeID]}));;
          match callbackOutcome (taskNeedsOutputIngest (rangeOrder (world s)) response) current response producerNodeID with
          | Err e => mret (Some e)
          | Ok None => mret None
          | Ok (Some (stored, finished)) =>
              (if finished : bool then onTable (acceptedDelete id) else mret ());;
              ceStoreTaskStatus stored;;
              recordTerminalResponseCheckpoint stored producerNodeID;;
              mret None
          end
    end.

Definition RecordTaskResponse (response : ServiceTaskResponse) : CE unit :=
  let response := CloneServiceTaskResponse response in
  s ← gets id;
  match retiredTaskStatuses (table s) !! RsTaskID response with
  | Some _ => mret ()
  | None =>
      if match taskStatuses (table s) !! RsTaskID response with
         | Some current => bool_decide (RsStatus current = "failed")
         | None => false
         end
      then mret ()
      else
        (if terminal response then onTable (acceptedDelete (RsTaskID response)) else mret ());;
        ceStoreTaskStatus response;;
        recordTerminalResponseCheckpoint response (RsProducerNodeID response)
  end.

(** ** Shutdown *)

(** The loop over the accepted tasks; an entry that was dropped meanwhile is
    not visited. *)
Fixpoint failAccepted (l : list (string * TaskRequest)) : CE unit :=
  match l with
  | [] => mret ()
  | (key, req) :: rest =>
      s ← gets id;
      (if negb (bool_decide (is_Some (acceptedTasks (table s) !! key))) then mret ()
       else if match taskStatuses (table s) !! RqTaskID req with Some r => terminal r | None => false end
       then onTable (acceptedDelete key)
       else
         ceStoreTaskStatus (failedTaskResponse (RqTaskID req) (RqService req) "compute engine closed");;
         recordCheckpoint (with_context (ctx_error "compute engine closed") (checkpointFromTask s req "failed"));;
         onTable (acceptedDelete key));;
      failAccepted rest
  end.

Definition failAcceptedTasks : CE unit :=
  s ← gets id;
  failAccepted (rangeOrder (world s) _ (map_to_list (acceptedTasks (table s)))).

(** The workers have ended between the two passes. *)
Definition Close : CE unit :=
  s ← gets id;
  (if closed s then mret ()
   else modify set_closed;; failAcceptedTasks;; modify set_cancelled);;
  failAcceptedTasks.
End engine.
Arguments CE W J A : clear implicits.
