(* ===== verification/PipelineRun.v ===== *)
(** * Running tasks and pipelines

    [internal/compute/compute.go] from the choice of a step's node to the
    final answer, with the escrow operations it falls back on
    ([internal/compute/coordinator.go]).

    A [TaskRequest] carries its execution state by pointer, so a callee's
    writes are seen by its caller: a function that changes the state returns
    the request it leaves.  The dispatcher is an argument; the server's is
    [DispatchTask] of [internal/server/compute_bridge.go]. *)
From Stdlib Require Import String.
From S2P Require Import Prelude GoStrings Json Protocol Pipeline Bolt Journal Tasks TaskStatus ComputeEngine.
Local Open Scope stdpp_scope.

(** Assignments to the fields of a request and of its state. *)
Definition with_state (st : option PipelineExecutionState) (t : TaskRequest) : TaskRequest :=
  {| RqTaskID := RqTaskID t; RqService := RqService t; RqRequesterNodeID := RqRequesterNodeID t;
     RqReplyTo := RqReplyTo t; RqPayload := RqPayload t; RqPipelineState := st;
     RqExpectedProducerNodeID := RqExpectedProducerNodeID t |}.
Definition with_payload (p : gomap any) (t : TaskRequest) : TaskRequest :=
  {| RqTaskID := RqTaskID t; RqService := RqService t; RqRequesterNodeID := RqRequesterNodeID t;
     RqReplyTo := RqReplyTo t; RqPayload := p; RqPipelineState := RqPipelineState t;
     RqExpectedProducerNodeID := RqExpectedProducerNodeID t |}.
Definition with_requester (r : string) (t : TaskRequest) : TaskRequest :=
  {| RqTaskID := RqTaskID t; RqService := RqService t; RqRequesterNodeID := r;
     RqReplyTo := RqReplyTo t; RqPayload := RqPayload t; RqPipelineState := RqPipelineState t;
     RqExpectedProducerNodeID := RqExpectedProducerNodeID t |}.
Definition with_producer (p : string) (t : TaskRequest) : TaskRequest :=
  {| RqTaskID := RqTaskID t; RqService := RqService t; RqRequesterNodeID := RqRequesterNodeID t;
     RqReplyTo := RqReplyTo t; RqPayload := RqPayload t; RqPipelineState := RqPipelineState t;
     RqExpectedProducerNodeID := p |}.

Definition st_targets (m : gomap string) (st : PipelineExecutionState) : PipelineExecutionState :=
  {| PipelineID := PipelineID st; PipelineVersion := PipelineVersion st; SchemaHash := SchemaHash st;
     CurrentStep := CurrentStep st; StateOutputs := StateOutputs st; OutputProducers := OutputProducers st;
     SelectedTargets := m; Snapshot := Snapshot st |}.
Definition st_producers (m : gomap string) (st : PipelineExecutionState) : PipelineExecutionState :=
  {| PipelineID := PipelineID st; PipelineVersion := PipelineVersion st; SchemaHash := SchemaHash st;
     CurrentStep := CurrentStep st; StateOutputs := StateOutputs st; OutputProducers := m;
     SelectedTargets := SelectedTargets st; Snapshot := Snapshot st |}.
Definition st_outputs (m : gomap (gomap any)) (st : PipelineExecutionState) : PipelineExecutionState :=
  {| PipelineID := PipelineID st; PipelineVersion := PipelineVersion st; SchemaHash := SchemaHash st;
     CurrentStep := CurrentStep st; StateOutputs := m; OutputProducers := OutputProducers st;
     SelectedTargets := SelectedTargets st; Snapshot := Snapshot st |}.
Definition st_snapshot (sch : PipelineSchema) (st : PipelineExecutionState) : PipelineExecutionState :=
  {| PipelineID := PipelineID st; PipelineVersion := PipelineVersion st; SchemaHash := SchemaHash st;
     CurrentStep := CurrentStep st; StateOutputs := StateOutputs st; OutputProducers := OutputProducers st;
     SelectedTargets := SelectedTargets st; Snapshot := Some sch |}.
Definition st_revision (version : Z) (hash : string) (st : PipelineExecutionState) : PipelineExecutionState :=
  {| PipelineID := PipelineID st; PipelineVersion := version; SchemaHash := hash;
     CurrentStep := CurrentStep st; StateOutputs := StateOutputs st; OutputProducers := OutputProducers st;
     SelectedTargets := SelectedTargets st; Snapshot := Snapshot st |}.
Definition st_step (i : Z) (st : PipelineExecutionState) : PipelineExecutionState :=
  {| PipelineID := PipelineID st; PipelineVersion := PipelineVersion st; SchemaHash := SchemaHash st;
     CurrentStep := i; StateOutputs := StateOutputs st; OutputProducers := OutputProducers st;
     SelectedTargets := SelectedTargets st; Snapshot := Snapshot st |}.

(** [state.SelectedTargets[stepID] = target], on a nil map after making one. *)
Definition select_target (stepID target : string) (st : PipelineExecutionState) : PipelineExecutionState :=
  st_targets (Some (<[stepID := target]> (default ∅ (SelectedTargets st)))) st.

Definition selected (st : PipelineExecutionState) (stepID : string) : string :=
  default "" (gomap_get (SelectedTargets st) stepID).

Definition producer_of (st : PipelineExecutionState) (stepID : string) : string :=
  default "" (gomap_get (OutputProducers st) stepID).

(** [strconv.Itoa]. *)
Definition Itoa (z : Z) : string :=
  if (z <? 0)%Z then "-" +:+ itoa (Z.to_N (- z)) else itoa (Z.to_N z).

(** The condition under which [make([]string, 0, n)] panics on a 64-bit
    system: a negative capacity, or one whose strings exceed the address space. *)
Definition make_panics (n : Z) : bool := (n <? 0)%Z || (2 ^ 44 <? n)%Z.

Section run.
Context {W J : Type} `{!ComputeWorld W} `{!TaskJournal J}.
Implicit Types s : ComputeEngine W J.
Abbreviation CE := (CE W J).

(** ** Choosing nodes *)

Definition continuationQuery (service : string) (stepIndex : Z) (excluded : list string) : DiscoveryQuery :=
  {| QService := service; QRequiredParams := [];
     QRequiredCapabilities :=
       if (0 <? stepIndex)%Z then {[CapabilityPipelineState := PipelineStateCapabilityVersion]} else ∅;
     QSortStrategy := ""; QPayloadSizeBytes := 0; QExcludedPeers := excluded |}.

Definition selectPipelineStepTarget (step : PipelineStep) (stepIndex : Z) : CE (res string) :=
  s ← gets id;
  if bool_decide (StepTargetNodeID step ≠ "") && bool_decide (StepTargetNodeID step ≠ ceNodeID s)
  then mret (Ok (StepTargetNodeID step))
  else match GetHandler (registry s) (StepService step) with
  | Some _ => mret (Ok (ceNodeID s))
  | None =>
      match serviceFinder with
      | None => mret (Err (EMsg "service finder not configured on compute engine"))
      | Some find =>
          found ← onWorld (find (continuationQuery (StepService step) stepIndex []));
          mret (match found with
                | Ok peer => if bool_decide (peer = "") then Err (EMsg "service finder returned an empty peer")
                             else Ok peer
                | Err e => Err e
                end)
      end
  end.

(** The loop of [PreparePipelineTargets]: a step after the first may stay
    without a target. *)
Fixpoint prepareTargets (steps : list PipelineStep) (stepIndex : Z) (st : PipelineExecutionState)
    : CE (option error * PipelineExecutionState) :=
  match steps with
  | [] => mret (None, st)
  | step :: rest =>
      if bool_decide (selected st (StepID step) ≠ "") then prepareTargets rest (stepIndex + 1) st
      else
        target ← selectPipelineStepTarget step stepIndex;
        match target with
        | Ok peer => prepareTargets rest (stepIndex + 1) (select_target (StepID step) peer st)
        | Err e =>
            if (0 <? stepIndex)%Z then prepareTargets rest (stepIndex + 1) st
            else mret (Some (EWrap "select target for pipeline step" e), st)
        end
  end.

Definition PreparePipelineTargets (req : TaskRequest) : CE (option error * TaskRequest) :=
  match RqPipelineState req with
  | None => mret (None, req)
  | Some st =>
      s ← gets id;
      match pipelineFor s (RqService req) (RqPipelineState req) with
      | None => mret (None, req)
      | Some sch =>
          r ← prepareTargets (Steps sch) 0 (st_targets (Some (default ∅ (SelectedTargets st))) st);
          mret (r.1, with_state (Some r.2) req)
      end
  end.

Definition BindPipelineStepTarget (req : TaskRequest) (targetPeerID : string) : CE (option error * TaskRequest) :=
  match RqPipelineState req with
  | None => mret (None, req)
  | Some st =>
      s ← gets id;
      match pipelineFor s (RqService req) (RqPipelineState req) with
      | None => mret (None, req)
      | Some sch =>
          if (CurrentStep st <? 0)%Z || (Z.of_nat (length (Steps sch)) <=? CurrentStep st)%Z then
            mret (Some (EMsg "pipeline step index out of bounds"), req)
          else if bool_decide (targetPeerID = "") then mret (Some (EMsg "pipeline target peer is empty"), req)
          else
            step ← index (Steps sch) (CurrentStep st);
            let st := st_targets (Some (default ∅ (SelectedTargets st))) st in
            let chosen := selected st (StepID step) in
            if bool_decide (chosen ≠ "") && bool_decide (chosen ≠ targetPeerID)
            then mret (Some (EMsg "pipeline step target already selected"), with_state (Some st) req)
            else mret (None, with_state (Some (select_target (StepID step) targetPeerID st)) req)
      end
  end.

(** ** Binding a task to a schema *)

Definition delegateTo (taskID : string) (peers : gset string) : CE unit :=
  onTable (updateMeta taskID (with_delegated peers)).

Definition nonEmptyValues (m : gomap string) : gset string :=
  list_to_set (filter (λ t, t ≠ "") (map_to_list (default ∅ m)).*2).

(** Candidates for the steps that are still to run. *)
Fixpoint migrateTargets (steps : list PipelineStep) (i : Z) (st : PipelineExecutionState)
    : CE PipelineExecutionState :=
  match steps with
  | [] => mret st
  | step :: rest =>
      if bool_decide (selected st (StepID step) ≠ "") then migrateTargets rest (i + 1) st
      else if bool_decide (StepTargetNodeID step ≠ "")
      then migrateTargets rest (i + 1) (select_target (StepID step) (StepTargetNodeID step) st)
      else
        cand ← selectPipelineStepTarget step i;
        migrateTargets rest (i + 1)
          (match cand with
           | Ok peer => if bool_decide (peer = "") then st else select_target (StepID step) peer st
           | Err _ => st
           end)
  end.

Definition schemaUpdated (st : PipelineExecutionState) (targetSchema : PipelineSchema) : bool :=
  (PipelineVersion st <? SchemaVersion targetSchema)%Z ||
  ((SchemaVersion targetSchema =? PipelineVersion st)%Z &&
   bool_decide (PipelineSchemaHash targetSchema ≠ SchemaHash st)).

Definition completedStepIDs (st : PipelineExecutionState) (sch : PipelineSchema) : list string :=
  take (Z.to_nat (CurrentStep st)) (StepID <$> Steps sch).

(** The schema to run and the state it leaves behind the pointer. *)
Definition tryDynamicSchemaMigration (t : TaskRequest) (st : PipelineExecutionState)
    (currentSchema targetSchema : PipelineSchema) : CE (PipelineSchema * PipelineExecutionState) :=
  if bool_decide (SchemaID currentSchema ≠ SchemaID targetSchema) || bool_decide (Steps targetSchema = [])
  then mret (currentSchema, st)
  else if negb (schemaUpdated st targetSchema) then mret (currentSchema, st)
  else if make_panics (CurrentStep st) then panic "makeslice: cap out of range"
  else
    match ValidatePrefixMigration (completedStepIDs st currentSchema) (StateOutputs st) currentSchema targetSchema with
    | Err _ => mret (currentSchema, st)
    | Ok _ =>
        let fromVersion := PipelineVersion st in
        let st := st_revision (SchemaVersion targetSchema) (PipelineSchemaHash targetSchema) st in
        let st := st_snapshot (ClonePipelineSchema targetSchema) st in
        let st := st_targets (Some (default ∅ (SelectedTargets st))) st in
        st ← migrateTargets (drop (Z.to_nat (CurrentStep st)) (Steps targetSchema)) (CurrentStep st) st;
        delegateTo (RqTaskID t) (nonEmptyValues (SelectedTargets st));;
        s ← gets id;
        recordCheckpoint
          (with_context (λ c, ctx_metadata
             (Some (<["from_version" := Itoa fromVersion]> {["to_version" := Itoa (SchemaVersion targetSchema)]}))
             (ctx_state (ClonePipelineExecutionState (Some st)) c))
             (at_step "" (CurrentStep st) (checkpointFromTask s (with_state (Some st) t) TaskEventSchemaMigrated)));;
        mret (targetSchema, st)
    end.

Definition freshState (sch : PipelineSchema) (requester : string) : PipelineExecutionState :=
  {| PipelineID := SchemaID sch; PipelineVersion := SchemaVersion sch; SchemaHash := PipelineSchemaHash sch;
     CurrentStep := 0; StateOutputs := Some ∅; OutputProducers := Some {["$initial" := requester]};
     SelectedTargets := None; Snapshot := Some (ClonePipelineSchema sch) |}.

(** The snapshot a running task starts from, and the state with it recorded. *)
Definition resolveSnapshot s (st : PipelineExecutionState) (localSchema : PipelineSchema)
    : option (PipelineSchema * PipelineExecutionState) :=
  match Snapshot st with
  | Some snap => Some (ClonePipelineSchema snap, st)
  | None =>
      match GetPipelineRevision s (PipelineID st) with
      | Some rev =>
          if bool_decide (PipelineSchemaHash rev = SchemaHash st) then Some (rev, st_snapshot rev st)
          else if bool_decide (PipelineSchemaHash localSchema = SchemaHash st)
          then Some (localSchema, st_snapshot localSchema st) else None
      | None =>
          if bool_decide (PipelineSchemaHash localSchema = SchemaHash st)
          then Some (localSchema, st_snapshot localSchema st) else None
      end
  end.

(** What binding leaves: the schema or an error, the request, and the state
    the caller's pointer still shows. *)
Record bound := { bd_schema : res PipelineSchema; bd_req : TaskRequest; bd_shared : option PipelineExecutionState }.

Definition bindPipelineState (t : TaskRequest) (localSchema : PipelineSchema) : CE bound :=
  match RqPipelineState t with
  | None =>
      mret {| bd_schema := Ok localSchema;
              bd_req := with_state (Some (freshState localSchema (RqRequesterNodeID t))) t; bd_shared := None |}
  | Some incoming =>
      let refuse st e := {| bd_schema := Err e; bd_req := with_state (Some st) t; bd_shared := Some st |} in
      if bool_decide (PipelineID incoming ≠ SchemaID localSchema)
      then mret (refuse incoming (EMsg "pipeline schema ID mismatch"))
      else
        s ← gets id;
        match resolveSnapshot s incoming localSchema with
        | None => mret (refuse incoming (EMsg "pipeline schema mismatch"))
        | Some (currentSchema, incoming) =>
            r ← tryDynamicSchemaMigration t incoming currentSchema localSchema;
            let '(execSchema, incoming) := r in
            if (Z.of_nat (length (Steps execSchema)) <? CurrentStep incoming)%Z
            then mret (refuse incoming (EMsg "step index out of bounds"))
            else
              provenance ←
                (if (0 <? CurrentStep incoming)%Z && bool_decide (Steps execSchema ≠ []) then
                   prev ← index (Steps execSchema) (CurrentStep incoming - 1);
                   mret (bool_decide (producer_of incoming (StepID prev) ≠ ""))
                 else mret true);
              if negb provenance then mret (refuse incoming (EMsg "pipeline provenance missing for completed step"))
              else
                let producers := default ∅ (OutputProducers incoming) in
                let producers := if bool_decide (producer_of incoming "$initial" = "")
                                 then <["$initial" := RqRequesterNodeID t]> producers else producers in
                mret {| bd_schema := Ok execSchema;
                        bd_req := with_state (Some (st_producers (Some producers) incoming)) t;
                        bd_shared := Some incoming |}
        end
  end.

Definition BindPipelineTask (req : TaskRequest) : CE (option error * bound) :=
  s ← gets id;
  match pipelineFor s (RqService req) (RqPipelineState req) with
  | None => mret (None, {| bd_schema := Err (EMsg ""); bd_req := req; bd_shared := RqPipelineState req |})
  | Some sch =>
      b ← bindPipelineState req sch;
      mret (match bd_schema b with Ok _ => None | Err e => Some e end, b)
  end.

(** ** Submission *)

(** What a submission finds: the task is known and the submission is a
    repetition, it contradicts what is known, or the task is new. *)
Inductive known := Repeated | Contradicts (e : error) | Fresh.

Definition alreadyKnown s (req : TaskRequest) : known :=
  let id := RqTaskID req in
  match taskStatuses (table s) !! id with
  | Some response =>
      if terminal response then
        if bool_decide (RsService response = RqService req) then Repeated
        else Contradicts (EWrap "existing service" (ESentinel ErrTaskDuplicate))
      else Fresh
  | None => Fresh
  end.

Definition retiredKnown s (req : TaskRequest) : known :=
  match retiredTaskStatuses (table s) !! RqTaskID req with
  | Some r => if bool_decide (RsService r = RqService req) then Repeated
              else Contradicts (EWrap "retired service" (ESentinel ErrTaskDuplicate))
  | None => Fresh
  end.

Definition acceptedKnown s (req : TaskRequest) : known :=
  match acceptedTasks (table s) !! RqTaskID req with
  | Some existing => if DeepEqual existing req then Repeated else Contradicts (ESentinel ErrTaskDuplicate)
  | None => Fresh
  end.

Definition first_known (ks : list known) : known :=
  foldr (λ k rest, match k with Fresh => rest | k => k end) Fresh ks.

Definition enqueue (req : TaskRequest) : CE (option error) :=
  s ← gets id;
  if cancelled s || closed s then mret (Some (ESentinel ErrClosed))
  else match first_known [alreadyKnown s req; retiredKnown s req; acceptedKnown s req] with
  | Repeated => mret None
  | Contradicts e => mret (Some e)
  | Fresh =>
      if (length (taskQueue s) <? taskQueueCap)%nat then
        onTable (with_accepted (<[RqTaskID req := req]>));;
        modify (set_queue (λ q, q ++ [req]));;
        mret None
      else mret (Some (EMsg "node is overloaded: task queue is full"))
  end.

Definition SubmitTask (req : TaskRequest) : CE (option error) :=
  if bool_decide (RqTaskID req = "") then mret (Some (EWrap "task ID is empty" (ESentinel ErrTaskDuplicate)))
  else
    s ← gets id;
    let req := if bool_decide (RqRequesterNodeID req = "") then with_requester (ceNodeID s) req else req in
    match RqPipelineState req with
    | Some _ => enqueue (CloneTaskRequest req)
    | None =>
        b ← BindPipelineTask req;
        match b.1 with
        | Some e => mret (Some e)
        | None => enqueue (CloneTaskRequest (bd_req b.2))
        end
    end.
End run.
Arguments first_known ks : simpl never.
