(* ===== verification/Escrow.v ===== *)
(** * Escrow

    [internal/compute/coordinator.go]: a pipeline task whose next step no
    node can take is put aside at its coordinator and resumed when a node
    appears.  The dispatcher is an argument of [ResumeEscrowTask]; it may
    change the engine, as the server's does. *)
From Stdlib Require Import String.
From S2P Require Import Prelude GoStrings Json Protocol Pipeline Bolt Journal Tasks TaskStatus ComputeEngine.
From S2P Require Import PipelineRun.
Local Open Scope stdpp_scope.

Section escrow.
Context {W J : Type} `{!ComputeWorld W} `{!TaskJournal J}.
Implicit Types s : ComputeEngine W J.
Abbreviation CE := (CE W J).

(** The dispatcher's error, and the request its caller sees afterwards. *)
Definition TaskDispatcher : Type := option (string → TaskRequest → CE (option error * TaskRequest)).

Definition initialProducer (t : TaskRequest) : string :=
  match RqPipelineState t with Some st => producer_of st "$initial" | None => "" end.

Definition coordinatorNodeID (t : TaskRequest) : string :=
  if bool_decide (initialProducer t ≠ "") then initialProducer t
  else if bool_decide (RqRequesterNodeID t ≠ "") then RqRequesterNodeID t
  else if bool_decide (RqReplyTo t = "") then ""
  else match url_Parse (RqReplyTo t) with
  | None => ""
  | Some u =>
      if bool_decide (Hostname u = "") then ""
      else match ParsePeerLocalHost (Hostname u) with
      | Some peerID => peerID
      | None =>
          if bool_decide (Scheme u ≠ "") && bool_decide (Host u ≠ "") then Scheme u +:+ "://" +:+ Host u
          else if bool_decide (Host u ≠ "") then Host u
          else Hostname u
      end
  end.

Definition checkpointFromEscrow (req : TaskEscrowRequest) (status nodeID : string) (now : time) : TaskJournalRecord :=
  at_step (EsStepID req) (EsStepIndex req)
    (mkCheckpoint
      {| TaskID := EsTaskID req; TService := EsService req; Status := status;
         RequesterNodeID := EsRequesterNodeID req; ReplyTo := EsReplyTo req; NodeID := nodeID;
         Payload := CloneJSONMap (EsPayload req); TError := EsError req;
         PipelineState := ClonePipelineExecutionState (EsPipelineState req); Metadata := None |} None now).

(** The request as it is kept: the status set, and the timestamp and the
    requester filled in where they are missing. *)
Definition normalizeEscrow s (req : TaskEscrowRequest) : TaskEscrowRequest :=
  {| EsTaskID := EsTaskID req; EsService := EsService req;
     EsRequesterNodeID := if bool_decide (EsRequesterNodeID req = "") then ceNodeID s else EsRequesterNodeID req;
     EsReplyTo := EsReplyTo req; EsStepID := EsStepID req; EsStepIndex := EsStepIndex req;
     EsStatus := TaskStatusEscrow; EsError := EsError req; EsPayload := EsPayload req; EsOutputs := EsOutputs req;
     EsPipelineState := EsPipelineState req; EsProducerNodeID := EsProducerNodeID req;
     EsTimestamp := if (EsTimestamp req =? 0)%Z then clock (world s) else EsTimestamp req |}.

Definition escrowResponse (taskID service status err producer : string) : ServiceTaskResponse :=
  {| RsTaskID := taskID; RsService := service; RsStatus := status; RsError := err; RsOutputs := None;
     RsProducerNodeID := producer; RsPipelineState := None |}.

Definition PutTaskInEscrow (req : TaskEscrowRequest) : CE (option error) :=
  if bool_decide (EsTaskID req = "") then mret (Some (EMsg "empty task ID in escrow request"))
  else
    s ← gets id;
    let req := normalizeEscrow s (CloneTaskEscrowRequest req) in
    let isDuplicateEscrow := match escrowTasks s !! EsTaskID req with
                             | Some e => (EsStepIndex e =? EsStepIndex req)%Z
                             | None => false
                             end in
    persisted ← (if isDuplicateEscrow then mret None
                 else recordCheckpoint (checkpointFromEscrow req TaskStatusEscrow (EsProducerNodeID req) (EsTimestamp req)));
    match persisted with
    | Some e => mret (Some (EWrap "persist escrow checkpoint" e))
    | None =>
        modify (set_escrow (<[EsTaskID req := CloneTaskEscrowRequest req]>));;
        ceSetTaskStatus (escrowResponse (EsTaskID req) (EsService req) TaskStatusEscrow (EsError req) (EsProducerNodeID req));;
        mret None
    end.

Definition GetEscrowTask s (taskID : string) : option TaskEscrowRequest :=
  CloneTaskEscrowRequest <$> escrowTasks s !! taskID.

Definition escrow_le (a b : TaskEscrowRequest) : Prop := String.le (EsTaskID a) (EsTaskID b).
#[local] Instance escrow_le_dec : RelDecision escrow_le.
Proof. intros a b. unfold escrow_le. apply _. Defined.

Definition ListEscrowTasks s : list TaskEscrowRequest :=
  merge_sort escrow_le ((CloneTaskEscrowRequest ∘ snd) <$> map_to_list (escrowTasks s)).

Definition escrowRequest s (t : TaskRequest) (step : PipelineStep) (stepIndex : Z) (cause : string) : TaskEscrowRequest :=
  {| EsTaskID := RqTaskID t; EsService := RqService t; EsRequesterNodeID := coordinatorNodeID t;
     EsReplyTo := RqReplyTo t; EsStepID := StepID step; EsStepIndex := stepIndex; EsStatus := TaskStatusEscrow;
     EsError := cause; EsPayload := CloneJSONMap (RqPayload t);
     EsOutputs := match RqPipelineState t with Some st => cloneOutputs (StateOutputs st) | None => None end;
     EsPipelineState := ClonePipelineExecutionState (RqPipelineState t);
     EsProducerNodeID := ceNodeID s; EsTimestamp := clock (world s) |}.

(** Handing the escrow over to another coordinator. *)
Definition dispatchEscrow (coordinator : string) (req : TaskEscrowRequest) : CE (option error) :=
  match taskEscrowDispatcher with
  | Some dispatch =>
      e ← onWorld (dispatch coordinator req);
      mret (EWrap "escrow dispatcher" <$> e)
  | None =>
      match SendTaskEscrow with
      | Some sendEscrow =>
          e ← onWorld (sendEscrow coordinator req);
          mret (EWrap "send task escrow RPC" <$> e)
      | None => mret (Some (EMsg "no escrow dispatcher or peer client available"))
      end
  end.

Definition escalateToEscrow (t : TaskRequest) (step : PipelineStep) (stepIndex : Z) (cause : string)
    : CE (option error) :=
  s ← gets id;
  let coordinator := coordinatorNodeID t in
  let escrowReq := escrowRequest s t step stepIndex cause in
  if bool_decide (coordinator = ceNodeID s) || bool_decide (coordinator = "") then
    onTable (acceptedDelete (RqTaskID t));;
    PutTaskInEscrow escrowReq
  else
    e ← dispatchEscrow coordinator escrowReq;
    match e with
    | Some e => mret (Some e)
    | None =>
        send (Escalated coordinator escrowReq);;
        onTable (acceptedDelete (RqTaskID t));;
        ceSetTaskStatus (escrowResponse (RqTaskID t) (RqService t) TaskStatusEscrow cause (ceNodeID s));;
        s ← gets id;
        recordCheckpoint (with_context (ctx_error cause) (at_step (StepID step) stepIndex (checkpointFromTask s t TaskStatusEscrow)));;
        mret None
    end.

(** ** Restart *)

(** The producers restored from a record. *)
Definition restoredMeta (task : TaskRecord) (meta : taskStatusMetadata) : taskStatusMetadata :=
  let meta := with_delegated ∅ meta in
  let meta := if bool_decide (ExpectedProducerNodeID task ≠ "")
              then with_delegated {[ExpectedProducerNodeID task]} (with_expected (ExpectedProducerNodeID task) meta)
              else meta in
  if bool_decide (NodeID (TContext task) ≠ "") then with_delegated {[NodeID (TContext task)]} meta else meta.

Definition RestoreEscrowTask (task : TaskRecord) : CE unit :=
  let c := TContext task in
  stepID ←
    (match PipelineState c ≫= Snapshot with
     | Some snap =>
         if bool_decide (TCurrentStepID task = "") && (TCurrentStep task <? Z.of_nat (length (Steps snap)))%Z then
           step ← index (Steps snap) (TCurrentStep task);
           mret (StepID step)
         else mret (TCurrentStepID task)
     | None => mret (TCurrentStepID task)
     end);
  modify (set_escrow (<[TaskID c :=
    {| EsTaskID := TaskID c; EsService := TService c; EsRequesterNodeID := RequesterNodeID c; EsReplyTo := ReplyTo c;
       EsStepID := stepID; EsStepIndex := TCurrentStep task; EsStatus := TaskStatusEscrow; EsError := TError c;
       EsPayload := CloneJSONMap (Payload c); EsOutputs := TOutputs task;
       EsPipelineState := ClonePipelineExecutionState (PipelineState c); EsProducerNodeID := "";
       EsTimestamp := UpdatedAt task |}]>));;
  ceSetTaskStatus (escrowResponse (TaskID c) (TService c) TaskStatusEscrow (TError c) (NodeID c));;
  onTable (updateMeta (TaskID c) (restoredMeta task)).

(** ** Resuming *)

(** The node that could take the step now. *)
Definition resumeTarget (step : PipelineStep) (stepIndex : Z) : CE string :=
  s ← gets id;
  match GetHandler (registry s) (StepService step) with
  | Some _ => mret (ceNodeID s)
  | None =>
      match serviceFinder with
      | None => mret ""
      | Some find =>
          found ← onWorld (find (continuationQuery (StepService step) stepIndex []));
          mret (match found with Ok peer => peer | Err _ => "" end)
      end
  end.

(** The execution state rebuilt from the escrow. *)
Definition resumedState (task : TaskEscrowRequest) (sch : PipelineSchema) (step : PipelineStep)
    (prevStepID : option string) (targetPeer : string) : PipelineExecutionState :=
  let st := match EsPipelineState task with
            | Some st => st
            | None => {| PipelineID := SchemaID sch; PipelineVersion := SchemaVersion sch; SchemaHash := "";
                         CurrentStep := EsStepIndex task; StateOutputs := Some ∅; OutputProducers := None;
                         SelectedTargets := None; Snapshot := None |}
            end in
  let st := if bool_decide (SchemaHash st = "") then st_revision (PipelineVersion st) (PipelineSchemaHash sch) st else st in
  let st := match Snapshot st with Some _ => st | None => st_snapshot (ClonePipelineSchema sch) st end in
  let st := st_outputs (Some (MergeMap (default ∅ (StateOutputs st)) (default ∅ (cloneOutputs (EsOutputs task))) false)) st in
  let st := st_producers (Some (default ∅ (OutputProducers st))) st in
  let st := if bool_decide (producer_of st "$initial" = "")
            then st_producers (<["$initial" := EsRequesterNodeID task]> <$> OutputProducers st) st else st in
  let st := match prevStepID with
            | Some prev =>
                if bool_decide (producer_of st prev = "")
                then st_producers (<[prev := EsProducerNodeID task]> <$> OutputProducers st) st else st
            | None => st
            end in
  select_target (StepID step) targetPeer st.

Definition resumedRequest (task : TaskEscrowRequest) (st : PipelineExecutionState) (targetPeer : string) : TaskRequest :=
  {| RqTaskID := EsTaskID task; RqService := EsService task; RqRequesterNodeID := EsRequesterNodeID task;
     RqReplyTo := EsReplyTo task; RqPayload := Some (default ∅ (CloneJSONMap (EsPayload task)));
     RqPipelineState := Some st; RqExpectedProducerNodeID := targetPeer |}.

(** Undoing a resumption.  The saved metadata shares its producer set with the
    entry, so producers added meanwhile stay. *)
Definition revertEscrow (taskID : string) (task : TaskEscrowRequest) (prevMeta : option taskStatusMetadata) : CE unit :=
  modify (set_escrow (<[taskID := task]>));;
  onTable (with_meta (λ m,
    match prevMeta with
    | Some prev =>
        <[taskID := match delegatedProducers prev, m !! taskID with
                    | Some _, Some cur => with_delegated (default ∅ (delegatedProducers cur)) prev
                    | _, _ => prev
                    end]> m
    | None => delete taskID m
    end));;
  ceSetTaskStatus (escrowResponse (EsTaskID task) (EsService task) TaskStatusEscrow (EsError task) (EsProducerNodeID task)).

(** The bookkeeping after a resumption took effect. *)
Definition markResumed (task : TaskEscrowRequest) (step : PipelineStep) (stepIndex : Z) (targetPeer : string)
    : CE (option error) :=
  ceSetTaskStatus (escrowResponse (EsTaskID task) (EsService task) "running" "" targetPeer);;
  s ← gets id;
  recordCheckpoint (at_step (StepID step) stepIndex (checkpointFromEscrow task "running" (ceNodeID s) (clock (world s))));;
  mret None.

Definition resumeOn (dispatcher : TaskDispatcher) (taskID : string) (task : TaskEscrowRequest) (sch : PipelineSchema)
    (step : PipelineStep) (targetPeer : string) : CE (option error) :=
  let stepIndex := EsStepIndex task in
  modify (set_escrow (delete taskID));;
  s ← gets id;
  let prevMeta := taskStatusMeta (table s) !! taskID in
  prevStepID ← (if (0 <? stepIndex)%Z && bool_decide (EsProducerNodeID task ≠ "") then
                  prev ← index (Steps sch) (stepIndex - 1);
                  mret (Some (StepID prev))
                else mret None);
  r ← PreparePipelineTargets (resumedRequest task (resumedState task sch step prevStepID targetPeer) targetPeer);
  let taskReq := r.2 in
  onTable (updateMeta (EsTaskID task) (λ meta,
    with_delegated (match RqPipelineState taskReq with Some st => nonEmptyValues (SelectedTargets st) | None => ∅ end)
      (with_expected targetPeer (with_delegated {[targetPeer]} meta))));;
  s ← gets id;
  if bool_decide (targetPeer = ceNodeID s) then
    onTable (acceptedDelete (RqTaskID taskReq));;
    e ← SubmitTask taskReq;
    match e with
    | Some e => revertEscrow taskID task prevMeta;; mret (Some (EWrap "resubmit local task failed" e))
    | None => markResumed task step stepIndex targetPeer
    end
  else match dispatcher with
  | None => revertEscrow taskID task prevMeta;; mret (Some (EMsg "task dispatcher not configured on compute engine"))
  | Some dispatch =>
      d ← dispatch targetPeer taskReq;
      match d.1 with
      | Some e => revertEscrow taskID task prevMeta;; mret (Some (EWrap "dispatch step failed" e))
      | None =>
          send (Dispatched targetPeer taskReq);;
          onTable (acceptedDelete (RqTaskID taskReq));;
          markResumed task step stepIndex targetPeer
      end
  end.

Definition ResumeEscrowTask (dispatcher : TaskDispatcher) (taskID : string) : CE (option error) :=
  s ← gets id;
  match escrowTasks s !! taskID with
  | None => mret (Some (EMsg "task not in escrow"))
  | Some task =>
      match pipelineFor s (EsService task) (EsPipelineState task) with
      | None => mret (Some (EMsg "pipeline schema not found for escrow task"))
      | Some sch =>
          if (EsStepIndex task <? 0)%Z || (Z.of_nat (length (Steps sch)) <=? EsStepIndex task)%Z then
            mret (Some (EMsg "step index out of bounds for pipeline"))
          else
            step ← index (Steps sch) (EsStepIndex task);
            targetPeer ← resumeTarget step (EsStepIndex task);
            if bool_decide (targetPeer = "") then mret (Some (EMsg "no candidate node available for step"))
            else resumeOn dispatcher taskID task sch step targetPeer
      end
  end.

(** The number of tasks resumed. *)
Fixpoint wakeup (dispatcher : TaskDispatcher) (ids : list string) (resumed : nat) : CE nat :=
  match ids with
  | [] => mret resumed
  | id :: rest =>
      e ← ResumeEscrowTask dispatcher id;
      wakeup dispatcher rest (match e with None => S resumed | Some _ => resumed end)
  end.

Definition WakeupEscrowTasks (dispatcher : TaskDispatcher) : CE nat :=
  s ← gets id;
  wakeup dispatcher (rangeOrder (world s) _ (map_to_list (escrowTasks s))).*1 0.
End escrow.
Arguments TaskDispatcher W J : clear implicits.
