(* ===== verification/TaskRun.v ===== *)
(** * Executing a step

    [processTask], [executePipelineStep], [routePipelineStep],
    [dispatchStepWithFailover] and [advancePipeline] of
    [internal/compute/compute.go], and the server's dispatcher
    ([internal/server/compute_bridge.go]).  Log lines are left out. *)
From Stdlib Require Import String.
From S2P Require Import Prelude GoStrings Json Protocol Pipeline Bolt Journal Tasks TaskStatus ComputeEngine.
From S2P Require Import PipelineRun Escrow.
Local Open Scope stdpp_scope.

Section exec.
Context {W J : Type} `{!ComputeWorld W} `{!TaskJournal J}.
Context (dispatcher : TaskDispatcher W J).
Implicit Types s : ComputeEngine W J.
Abbreviation CE := (CE W J).

(** ** Errors *)

(** The last completed step, for the journal. *)
Definition failedStepID (st : PipelineExecutionState) : CE string :=
  match Snapshot st with
  | Some snap =>
      if (0 <? CurrentStep st)%Z && (CurrentStep st - 1 <? Z.of_nat (length (Steps snap)))%Z then
        prev ← index (Steps snap) (CurrentStep st - 1);
        mret (StepID prev)
      else mret ""
  | None => mret ""
  end.

(** The answer to the task's requester; a failed delivery is only logged. *)
Definition answer (replyTo : string) (response : ServiceTaskResponse) : CE unit :=
  if bool_decide (replyTo = "") then mret ()
  else
    e ← onWorld (SendTaskResponse replyTo response);
    match e with
    | None => send (Answered replyTo response)
    | Some _ => mret ()
    end.

Definition sendPipelineError (t : TaskRequest) (err : string) : CE unit :=
  stepID ← (match RqPipelineState t with Some st => failedStepID st | None => mret "" end);
  let stepIndex := match RqPipelineState t with Some st => CurrentStep st | None => 0%Z end in
  s ← gets id;
  recordCheckpoint (with_context (ctx_error err) (at_step stepID stepIndex (checkpointFromTask s t "failed")));;
  let response :=
    {| RsTaskID := RqTaskID t; RsService := RqService t; RsStatus := "failed"; RsError := err; RsOutputs := None;
       RsProducerNodeID := ceNodeID s; RsPipelineState := ClonePipelineExecutionState (RqPipelineState t) |} in
  ceSetTaskStatus response;;
  answer (RqReplyTo t) response.

(** ** Dispatch with failover *)

(** One attempt on [target]: its error, and the request it leaves. *)
Definition attemptOn (t : TaskRequest) (step : PipelineStep) (target : string) : CE (option error * TaskRequest) :=
  s ← gets id;
  let t := with_producer target (with_state (select_target (StepID step) target <$> RqPipelineState t) t) in
  if bool_decide (target = ceNodeID s) then
    onTable (acceptedDelete (RqTaskID t));;
    e ← SubmitTask t;
    mret (e, t)
  else match dispatcher with
  | None => mret (Some (EMsg "task dispatcher not configured on compute engine"), t)
  | Some dispatch =>
      r ← dispatch target t;
      match r.1 with
      | None =>
          send (Dispatched target t);;
          onTable (acceptedDelete (RqTaskID t));;
          mret (None, r.2)
      | Some e => mret (Some e, r.2)
      end
  end.

(** The next node to try: one the finder offers, or this one. *)
Definition alternative (step : PipelineStep) (stepIndex : Z) (tried : gset string) : CE string :=
  s ← gets id;
  offered ← match serviceFinder with
            | None => mret ""
            | Some find =>
                found ← onWorld (find (continuationQuery (StepService step) stepIndex (elements tried)));
                mret (match found with
                      | Ok peer => if bool_decide (peer ∈ tried) then "" else peer
                      | Err _ => ""
                      end)
            end;
  if bool_decide (offered = "") && negb (bool_decide (ceNodeID s ∈ tried)) &&
     bool_decide (is_Some (GetHandler (registry s) (StepService step)))
  then mret (ceNodeID s) else mret offered.

(** How the rounds end: accepted somewhere, refused for good, or exhausted. *)
Inductive routed := Accepted | NoDispatcher | Exhausted.

Fixpoint failover (rounds : nat) (t : TaskRequest) (step : PipelineStep) (stepIndex : Z) (tried : gset string)
    (target : string) : CE (routed * TaskRequest) :=
  match rounds with
  | O => mret (Exhausted, t)
  | S rounds =>
      let tried := {[target]} ∪ tried in
      s ← gets id;
      if bool_decide (target ≠ ceNodeID s) && match dispatcher with None => true | Some _ => false end
      then mret (NoDispatcher, t)
      else
        r ← attemptOn t step target;
        match r.1 with
        | None => mret (Accepted, r.2)
        | Some _ =>
            alt ← alternative step stepIndex tried;
            if bool_decide (alt = "") then mret (Exhausted, r.2)
            else
              delegateTo (RqTaskID t) {[alt]};;
              failover rounds r.2 step stepIndex tried alt
        end
  end.

(** Whether a task whose step has no node goes to escrow. *)
Definition escrowable (t : TaskRequest) (stepIndex : Z) : bool :=
  (0 <? stepIndex)%Z && bool_decide (is_Some (RqPipelineState t)) &&
  (bool_decide (RqRequesterNodeID t ≠ "") || bool_decide (RqReplyTo t ≠ "")).

Definition exhaustedText (initialTarget : string) : string :=
  "failed to dispatch step: all target candidates exhausted (initial: " +:+ initialTarget +:+ ")".

Definition dispatchStepWithFailover (t : TaskRequest) (step : PipelineStep) (initialTarget : string) (stepIndex : Z)
    : CE (option error * TaskRequest) :=
  (if bool_decide (initialTarget ≠ "") then delegateTo (RqTaskID t) {[initialTarget]} else mret ());;
  r ← failover 3 t step stepIndex ∅ initialTarget;
  let '(outcome, t) := r in
  match outcome with
  | Accepted => mret (None, t)
  | NoDispatcher => mret (Some (EMsg "task dispatcher not configured on compute engine"), t)
  | Exhausted =>
      if escrowable t stepIndex then
        e ← escalateToEscrow t step stepIndex (exhaustedText initialTarget);
        match e with
        | None => mret (Some (ESentinel ErrTaskEscrowed), t)
        | Some _ => mret (Some (EMsg (exhaustedText initialTarget)), t)
        end
      else mret (Some (EMsg (exhaustedText initialTarget)), t)
  end.

(** The dispatch to a chosen node, and the error answer. *)
Definition routeTo (t : TaskRequest) (step : PipelineStep) (stepIndex : Z) (targetPeer : string) : CE unit :=
  (if bool_decide (targetPeer ≠ "") then delegateTo (RqTaskID t) {[targetPeer]} else mret ());;
  r ← dispatchStepWithFailover t step targetPeer stepIndex;
  match r.1 with
  | None => mret ()
  | Some e => if errors_Is e ErrTaskEscrowed then mret () else sendPipelineError r.2 (error_text e)
  end.

Definition routePipelineStep (t : TaskRequest) (step : PipelineStep) : CE unit :=
  let stepIndex := match RqPipelineState t with Some st => CurrentStep st | None => 0%Z end in
  let chosen := match RqPipelineState t with Some st => selected st (StepID step) | None => "" end in
  if bool_decide (chosen ≠ "") then routeTo t step stepIndex chosen
  else
    target ← selectPipelineStepTarget step stepIndex;
    s ← gets id;
    let remember target := with_state (select_target (StepID step) target <$> RqPipelineState t) t in
    match target with
    | Ok peer => routeTo (remember peer) step stepIndex peer
    | Err e =>
        if bool_decide (is_Some (GetHandler (registry s) (StepService step)))
        then routeTo (remember (ceNodeID s)) step stepIndex (ceNodeID s)
        else
          let text := "failed to discover node for step: " +:+ error_text e in
          if escrowable t stepIndex then
            escrowed ← escalateToEscrow t step stepIndex text;
            match escrowed with
            | None => mret ()
            | Some _ => sendPipelineError t text
            end
          else sendPipelineError t text
    end.

(** ** Completion *)

Definition hasIntermediateBlobs (st : PipelineExecutionState) (sch : PipelineSchema) : bool :=
  if (length (Steps sch) <=? 1)%nat then false
  else
    let finalStepID := match last (Steps sch) with Some step => StepID step | None => "" end in
    existsb (λ kv, negb (bool_decide (kv.1 = finalStepID) || bool_decide (kv.1 = "$pipeline_outputs")) &&
                   negb (bool_decide (ExtractBlobHashes (any_of_map kv.2) = [])))
      (map_to_list (default ∅ (StateOutputs st))).

(** The outputs of the final step with those of all steps attached; writing
    into the nil map of a step that had none panics. *)
Definition finalOutputs (st : PipelineExecutionState) (finalStepID : string) : CE (gmap string any) :=
  let all := any_of_outputs (StateOutputs st) in
  match gomap_get (StateOutputs st) finalStepID with
  | None => mret {["$pipeline_outputs" := all]}
  | Some (Some out) => mret (<["$pipeline_outputs" := all]> out)
  | Some None => panic "assignment to entry in nil map"
  end.

Definition completePipeline (t : TaskRequest) (st : PipelineExecutionState) (sch : PipelineSchema) : CE unit :=
  final ← index (Steps sch) (Z.of_nat (length (Steps sch)) - 1);
  outputs ← finalOutputs st (StepID final);
  staged ← onWorld (rewriteOutputs outputs);
  let '(stageErr, outputs) := staged in
  let t := with_state (Some st) t in
  match stageErr with
  | Some e => sendPipelineError t ("pipeline failed staging final outputs: " +:+ error_text e)
  | None =>
      s ← gets id;
      recordCheckpoint (with_outputs (Some outputs) false (at_step (StepID final) (CurrentStep st) (checkpointFromTask s t "completed")));;
      (if hasIntermediateBlobs st sch then onJournal (journalPrune (RqTaskID t)) else mret None);;
      let response :=
        {| RsTaskID := RqTaskID t; RsService := RqService t; RsStatus := "completed"; RsError := "";
           RsOutputs := Some outputs; RsProducerNodeID := ceNodeID s; RsPipelineState := Some st |} in
      let ingest := bool_decide (RqReplyTo t ≠ "") && bool_decide (RqRequesterNodeID t = ceNodeID s) &&
                    taskNeedsOutputIngest (rangeOrder (world s)) response in
      ceSetTaskStatus (if ingest then with_result (RsService response) TaskStatusIngesting (RsProducerNodeID response) response
                       else response);;
      answer (RqReplyTo t) response
  end.

Definition advancePipeline (t : TaskRequest) (st : PipelineExecutionState) (sch : PipelineSchema) : CE unit :=
  s ← gets id;
  r ← match GetPipeline s (RqService t) with
      | Some latest => tryDynamicSchemaMigration t st sch latest
      | None => mret (sch, st)
      end;
  let '(sch, st) := r in
  if (CurrentStep st <? Z.of_nat (length (Steps sch)))%Z then
    next ← index (Steps sch) (CurrentStep st);
    routePipelineStep (with_state (Some st) t) next
  else completePipeline t st sch.

(** ** One step *)

(** The inputs of a step: wired by its connections, or the whole payload of
    the first step, or the outputs of the step before; and where each input
    was produced. *)
Definition wiredInputs (t : TaskRequest) (st : PipelineExecutionState) (conns : list PipelineConnection)
    : gmap string any * gmap string string :=
  foldl (λ acc conn,
    let v := if bool_decide (FromStep conn = "$initial") then gomap_get (RqPayload t) (FromPort conn)
             else gomap_get (StateOutputs st) (FromStep conn) ≫= λ outs, gomap_get outs (FromPort conn) in
    (<[ToPort conn := default ANil v]> acc.1, <[ToPort conn := producer_of st (FromStep conn)]> acc.2))
    (∅, ∅) conns.

Definition stepInputs (t : TaskRequest) (st : PipelineExecutionState) (sch : PipelineSchema) (step : PipelineStep)
    : CE (gmap string any * gmap string string) :=
  match filter (λ c, ToStep c = StepID step) (Connections sch) with
  | [] =>
      if (CurrentStep st =? 0)%Z then
        let inputs := CopyMapIf ∅ (default ∅ (RqPayload t))
                        (λ _ k _, negb (bool_decide (k = "$pipeline")) && negb (bool_decide (k = "requester_node_id"))) in
        mret (inputs, PopulateMap ∅ (map_to_list inputs).*1 (producer_of st "$initial"))
      else
        prev ← index (Steps sch) (CurrentStep st - 1);
        match gomap_get (StateOutputs st) (StepID prev) with
        | Some outs => mret (default ∅ outs, PopulateMap ∅ (map_to_list (default ∅ outs)).*1 (producer_of st (StepID prev)))
        | None => mret (∅, ∅)
        end
  | conns => mret (wiredInputs t st conns)
  end.

(** [vfs://] inputs become local paths. *)
Fixpoint resolveVFS (resolver : string → string → W → res string * W) (requester : string)
    (producers : gmap string string) (l : list (string * any)) (payload : gmap string any)
    : CE (res (gmap string any)) :=
  match l with
  | [] => mret (Ok payload)
  | (k, AStr pathStr) :: rest =>
      let '(hash, isVFS) := ParseVFSURI pathStr in
      if negb isVFS then resolveVFS resolver requester producers rest payload
      else
        let named := default "" (producers !! k) in
        let source := if bool_decide (named = "") then requester else named in
        path ← onWorld (resolver source hash);
        match path with
        | Err e => mret (Err (EWrap "failed to resolve" e))
        | Ok p => if bool_decide (p = "") then mret (Err (EMsg "failed to resolve: empty path"))
                  else resolveVFS resolver requester producers rest (<[k := AStr p]> payload)
        end
  | _ :: rest => resolveVFS resolver requester producers rest payload
  end.

Definition resolveInputs (requester : string) (producers : gmap string string) (payload : gmap string any)
    : CE (res (gmap string any)) :=
  match vfsBlobResolver with
  | None => mret (Ok payload)
  | Some resolver =>
      s ← gets id;
      resolveVFS resolver requester producers (rangeOrder (world s) _ (map_to_list payload)) payload
  end.

Definition stageOutputBlobs (outputs : gomap any) : CE (option error * gomap any) :=
  match outputs with
  | None => mret (None, None)
  | Some m => r ← onWorld (rewriteOutputs m); mret (r.1, Some r.2)
  end.

(** Resolving, validating and running the step: its outputs or the error. *)
Definition runHandler (t : TaskRequest) (step : PipelineStep) (h : ServiceHandler W)
    (payload : gmap string any) (producers : gmap string string) : CE (res (gomap any)) :=
  resolved ← resolveInputs (RqRequesterNodeID t) producers (<["requester_node_id" := AStr (RqRequesterNodeID t)]> payload);
  match resolved with
  | Err e => mret (Err e)
  | Ok payload =>
      s ← gets id;
      match ValidatePayload Sprint (rangeOrder (world s) _) (registry s) (StepService step) payload with
      | Err e => mret (Err (EWrap "failed input validation" e))
      | Ok _ =>
          outputs ← onWorld (Execute h payload);
          match outputs with
          | Err e => mret (Err (EWrap "failed" e))
          | Ok outputs =>
              staged ← stageOutputBlobs outputs;
              match staged.1 with
              | Some e => mret (Err (EWrap "failed staging outputs" e))
              | None => mret (Ok staged.2)
              end
          end
      end
  end.

(** The state after a step ran here. *)
Definition stepDone s (st : PipelineExecutionState) (step : PipelineStep) (outputs : gomap any) : PipelineExecutionState :=
  st_step (CurrentStep st + 1)
    (st_producers (Some (<[StepID step := ceNodeID s]> (default ∅ (OutputProducers st))))
      (st_outputs (Some (<[StepID step := outputs]> (default ∅ (StateOutputs st)))) st)).

Definition runsHere s (st : PipelineExecutionState) (step : PipelineStep) : bool :=
  let target := selected st (StepID step) in
  bool_decide (target = ceNodeID s) ||
  (bool_decide (target = "") && (bool_decide (StepTargetNodeID step = "") || bool_decide (StepTargetNodeID step = ceNodeID s))).

Definition executeLocally (t : TaskRequest) (st : PipelineExecutionState) (sch : PipelineSchema) (step : PipelineStep)
    (h : ServiceHandler W) : CE unit :=
  inputs ← stepInputs t st sch step;
  ran ← runHandler t step h inputs.1 inputs.2;
  match ran with
  | Err e => sendPipelineError t (error_text e)
  | Ok outputs =>
      s ← gets id;
      let st := stepDone s st step outputs in
      let t := with_state (Some st) t in
      onJournal (journalSaveIntermediate (clock (world s)) (RqTaskID t) (StepID step) outputs);;
      recordCheckpoint (with_outputs (CloneJSONMap outputs) true (at_step (StepID step) (CurrentStep st) (checkpointFromTask s t "running")));;
      advancePipeline t st sch
  end.

Definition executePipelineStep (t : TaskRequest) (sch : PipelineSchema) : CE unit :=
  match RqPipelineState t with
  | None => sendPipelineError t "pipeline execution state is missing"
  | Some st =>
      let st := st_outputs (Some (default ∅ (StateOutputs st))) st in
      let t := with_state (Some st) t in
      if (CurrentStep st <? 0)%Z || (Z.of_nat (length (Steps sch)) <=? CurrentStep st)%Z then
        sendPipelineError t "step index out of bounds"
      else
        step ← index (Steps sch) (CurrentStep st);
        s ← gets id;
        match GetHandler (registry s) (StepService step) with
        | Some h => if runsHere s st step then executeLocally t st sch step h else routePipelineStep t step
        | None => routePipelineStep t step
        end
  end.

Definition singleStep (service : string) : PipelineSchema :=
  {| SchemaID := service; SchemaVersion := 1;
     Steps := [{| StepID := "step0"; StepService := service; StepTargetNodeID := "" |}];
     Connections := []; SchemaDeleted := false |}.

Definition processTask (t : TaskRequest) : CE unit :=
  let t := with_payload (Some (delete "$pipeline" (default ∅ (RqPayload t)))) t in
  s ← gets id;
  let sch := default (singleStep (RqService t)) (pipelineFor s (RqService t) (RqPipelineState t)) in
  b ← bindPipelineState t sch;
  match bd_schema b with
  | Err e => sendPipelineError (bd_req b) (error_text e)
  | Ok execSchema => executePipelineStep (bd_req b) execSchema
  end.

(** One turn of the worker loop: the first task of the queue is processed. *)
Definition serviceWorker : CE unit :=
  s ← gets id;
  if cancelled s then mret ()
  else match taskQueue s with
  | [] => mret ()
  | t :: rest => modify (set_queue (λ _, rest));; processTask t
  end.
End exec.

(** ** The server's dispatcher *)

(** What the server asks of its peers, and the staging of a payload's local
    files ([StageAndRewrite]): the error and the map it leaves. *)
Class PeerWorld (W : Type) := {
  FetchServiceBid : string → DiscoveryQuery → W → res ServiceBid * W;
  SubmitToPeer : string → TaskRequest → W → option error * W;
  StageAndRewrite : gmap string any → W → (option error * gmap string any) * W }.

Section server.
Context {W J : Type} `{!ComputeWorld W} `{!TaskJournal J} `{!PeerWorld W}.
Implicit Types s : ComputeEngine W J.
Abbreviation CE := (CE W J).

Definition submitTrackedTask (req : TaskRequest) (submit : TaskRequest → CE (option error)) : CE (option error) :=
  r ← PreparePipelineTargets req;
  match r.1 with
  | Some e => mret (Some (EWrap "prepare pipeline targets" e))
  | None =>
      ceRegisterOutgoingTask r.2;;
      e ← submit r.2;
      match e with
      | Some e => MarkTaskAsFailed r.2 (error_text e);; mret (Some e)
      | None => mret None
      end
  end.

(** A continuation needs a peer that understands pipeline state. *)
Definition checkContinuation (targetPeerID : string) (req : TaskRequest) : CE (option error) :=
  match RqPipelineState req with
  | None => mret None
  | Some st =>
      if negb (0 <? CurrentStep st)%Z then mret None
      else
        s ← gets id;
        match pipelineFor s (RqService req) (RqPipelineState req) with
        | None => mret (Some (EMsg "cannot validate pipeline continuation capability"))
        | Some sch =>
            if (Z.of_nat (length (Steps sch)) <=? CurrentStep st)%Z
            then mret (Some (EMsg "cannot validate pipeline continuation capability"))
            else
              step ← index (Steps sch) (CurrentStep st);
              let query := continuationQuery (StepService step) (CurrentStep st) [] in
              bid ← onWorld (FetchServiceBid targetPeerID query);
              mret (match bid with
                    | Err e => Some (EWrap "verify pipeline continuation capability" e)
                    | Ok b =>
                        if negb (BCanAccept b) ||
                           negb (SupportsCapabilities (default ∅ (BCapabilities b)) (QRequiredCapabilities query))
                        then Some (EMsg "peer does not support pipeline state capability") else None
                    end)
        end
  end.

Definition stagePayload (payload : gomap any) : CE (option error * gomap any) :=
  match payload with
  | None => mret (None, None)
  | Some m => r ← onWorld (StageAndRewrite m); mret (r.1, Some r.2)
  end.

(** The binding works on a copy of the request, but the execution state and
    the payload are shared with the caller. *)
Definition DispatchTask (targetPeerID : string) (req : TaskRequest) : CE (option error * TaskRequest) :=
  s ← gets id;
  let requester := if bool_decide (RqRequesterNodeID req = "") then ceNodeID s else RqRequesterNodeID req in
  b ← BindPipelineTask (with_producer targetPeerID (with_requester requester req));
  let seen payload := with_payload payload (with_state (bd_shared b.2) req) in
  match b.1 with
  | Some e => mret (Some (EWrap "bind pipeline task" e), seen (RqPayload req))
  | None =>
      bt ← BindPipelineStepTarget (bd_req b.2) targetPeerID;
      match bt.1 with
      | Some e => mret (Some (EWrap "bind pipeline step target" e), seen (RqPayload req))
      | None =>
          staged ← stagePayload (RqPayload req);
          match staged.1 with
          | Some e => mret (Some (EWrap "stage payload for dispatch" e), seen staged.2)
          | None =>
              let prepared := with_payload staged.2 bt.2 in
              cap ← checkContinuation targetPeerID prepared;
              match cap with
              | Some e => mret (Some e, seen staged.2)
              | None =>
                  let submit r := onWorld (SubmitToPeer targetPeerID r) in
                  e ← (if bool_decide (requester ≠ ceNodeID s) then submit prepared
                       else submitTrackedTask prepared submit);
                  mret (e, seen staged.2)
              end
          end
      end
  end.
End server.
