(* ===== verification/ComputeSim.v ===== *)
(** * A scripted world

    An instance of [ComputeWorld] and [PeerWorld] whose answers are scripts:
    the nodes the finder offers and what peers say to a submission, in order.
    Maps are visited in the order of [map_to_list] and file staging does
    nothing.  It shows that the laws can hold, and runs the examples. *)
From Stdlib Require Import SpecFloat.
From S2P Require Import Prelude GoStrings Json Protocol Bolt Journal Tasks TaskStatus ComputeEngine.
From S2P Require Import PipelineRun Escrow TaskRun.
Local Open Scope stdpp_scope.

Record sim := {
  sim_now : Z;
  sim_offers : list string;
  sim_refusals : list (option error) }.

(** The next answer of a script; an empty script offers nobody and accepts. *)
Definition next_offer (w : sim) : res string * sim :=
  match sim_offers w with
  | [] => (Err (EMsg "no nodes available for service"), w)
  | p :: l => (Ok p, {| sim_now := sim_now w; sim_offers := l; sim_refusals := sim_refusals w |})
  end.

Definition next_refusal (w : sim) : option error * sim :=
  match sim_refusals w with
  | [] => (None, w)
  | e :: l => (e, {| sim_now := sim_now w; sim_offers := sim_offers w; sim_refusals := l |})
  end.

(** No two revisions of a test pipeline share a version. *)
#[export] Instance sim_world : ComputeWorld sim := {|
  clock := sim_now;
  rangeOrder _ _ l := l;
  PipelineSchemaHash sch := SchemaID sch +:+ "@" +:+ Itoa (SchemaVersion sch);
  Sprint _ := "";
  DeepEqual _ _ := false;
  url_Parse _ := None;
  serviceFinder := Some (λ _, next_offer);
  vfsBlobResolver := None;
  rewriteOutputs m w := ((None, m), w);
  SendTaskResponse _ _ w := (None, w);
  taskEscrowDispatcher := None;
  SendTaskEscrow := None |}.

#[export] Instance sim_laws : ComputeWorldLaws sim.
Proof. by split. Qed.

(** A schema without parameters. *)
Definition echo_schema (name : string) : ServiceSchema :=
  {| SName := name; SType := ""; SDescription := ""; SParameters := None; SOutputs := None; SUI := None |}.

(** A peer that takes everything. *)
Definition sim_bid (peer service : string) : ServiceBid :=
  {| BNodeID := peer; BNodeAddr := ""; BSchema := echo_schema service; BEstimatedMillis := 100;
     BCPULoad := S754_zero false; BMemPressure := S754_zero false; BCostUnits := 100; BPowerScore := 0; BCanAccept := true;
     BCapabilities := Some {[CapabilityPipelineState := PipelineStateCapabilityVersion]} |}.

#[export] Instance sim_peers : PeerWorld sim := {|
  FetchServiceBid peer query w := (Ok (sim_bid peer (QService query)), w);
  SubmitToPeer _ _ := next_refusal;
  StageAndRewrite m w := ((None, m), w) |}.

Definition script (offers : list string) (refusals : list (option error)) : sim :=
  {| sim_now := 1000; sim_offers := offers; sim_refusals := refusals |}.

(** A service that returns its payload. *)
Definition echo : ServiceHandler sim := Some (λ payload w, (Ok (Some payload), w)).

(** A service that returns a nil map. *)
Definition silent : ServiceHandler sim := Some (λ payload w, (Ok None, w)).

(** The engine of node [me] with one service. *)
Definition engine_with (name : string) (h : ServiceHandler sim) (w : sim) : ComputeEngine sim unit :=
  (RegisterNewService (echo_schema name) h (NewComputeEngine "me" () w)).2.

Definition task (id service : string) (st : option PipelineExecutionState) : TaskRequest :=
  {| RqTaskID := id; RqService := service; RqRequesterNodeID := "me"; RqReplyTo := ""; RqPayload := None;
     RqPipelineState := st; RqExpectedProducerNodeID := "" |}.

Definition step (id service : string) : PipelineStep :=
  {| StepID := id; StepService := service; StepTargetNodeID := "" |}.

Definition pipeline (version : Z) (steps : list PipelineStep) : PipelineSchema :=
  {| SchemaID := "p"; SchemaVersion := version; Steps := steps; Connections := []; SchemaDeleted := false |}.
