(* ===== verification/Bids.v ===== *)
(** * Bids

    How a node offers itself for a service ([BuildServiceBid] and
    [HandleServiceBid] of [internal/compute]) and how a node chooses among the
    offers ([RequestServiceToCluster] of [internal/server/compute_bridge.go]). *)
From Stdlib Require Import SpecFloat String.
From S2P Require Import Prelude GoStrings Json Protocol Pipeline Bolt Journal Tasks TaskStatus ComputeEngine.
From S2P Require Import ComputeSim.
Local Open Scope stdpp_scope.

(** ** Floating point *)

Definition f_mul : float64 → float64 → float64 := SFmul 53 1024.
Definition f_div : float64 → float64 → float64 := SFdiv 53 1024.

(** [int64(f)] on amd64, where a value out of range converts to the smallest
    integer. *)
Definition int64_of_float (f : float64) : Z :=
  match f with
  | S754_zero _ => 0
  | S754_infinity _ | S754_nan => min_int64
  | S754_finite s m e =>
      let mag := if (0 <=? e)%Z then Z.shiftl (Z.pos m) e else Z.shiftr (Z.pos m) (- e) in
      let z := if s then (- mag)%Z else mag in
      if (min_int64 <=? z)%Z && (z <=? max_int64)%Z then z else min_int64
  end.

(** [int64(f * k)]. *)
Definition scaled (f : float64) (k : Z) : Z := int64_of_float (f_mul f (int_to_float k)).

(** The constant 0.9: the nearest value to nine tenths. *)
Definition nine_tenths : float64 := f_div (int_to_float 9) (int_to_float 10).

Section bid.
Context {W J : Type} `{!ComputeWorld W} `{!TaskJournal J}.
Implicit Types s : ComputeEngine W J.

(** What the run time tells: the running workers and goroutines, and the
    sampler's load and memory pressure; and the node's address. *)
Record host := {
  activeWorkers : Z;
  NumGoroutine : Z;
  sampled : float64 * float64;
  nodeAddr : string }.

(** [len(queue) / cap(queue) > 0.9]. *)
Definition overloaded (currentTasks maxTasks : Z) : bool :=
  (0 <? maxTasks)%Z && SFltb nine_tenths (f_div (int_to_float currentTasks) (int_to_float maxTasks)).

Definition estimateTaskCost s (h : host) (query : DiscoveryQuery) : option Z :=
  if overloaded (Z.of_nat (length (taskQueue s))) (Z.of_nat taskQueueCap) then None
  else
    let cost := 100%Z in
    let cost := if (0 <? QPayloadSizeBytes query)%Z
                then wrap64 (cost + wrap64 (Z.quot (QPayloadSizeBytes query) (1024 * 1024) * 10)) else cost in
    let cost := wrap64 (cost + wrap64 (activeWorkers h * 50)) in
    Some (if (100 <? NumGoroutine h)%Z then wrap64 (cost + (NumGoroutine h - 100)) else cost).

Definition capabilities : gmap string Z := {[CapabilityPipelineState := PipelineStateCapabilityVersion]}.

Definition zeroSchema : ServiceSchema :=
  {| SName := ""; SType := ""; SDescription := ""; SParameters := None; SOutputs := None; SUI := None |}.

(** The bid without its schema, which the callers fill in. *)
Definition BuildServiceBid s (h : host) (query : DiscoveryQuery) : option ServiceBid :=
  if negb (SupportsCapabilities capabilities (QRequiredCapabilities query)) then None
  else match estimateTaskCost s h query with
  | None => None
  | Some estimated =>
      let '(cpuLoad, memPressure) := sampled h in
      Some {| BNodeID := ceNodeID s; BNodeAddr := nodeAddr h; BSchema := zeroSchema; BEstimatedMillis := estimated;
              BCPULoad := cpuLoad; BMemPressure := memPressure;
              BCostUnits := wrap64 (wrap64 (estimated + scaled cpuLoad 200) + scaled memPressure 200);
              BPowerScore := wrap64 (scaled cpuLoad 1000 + scaled memPressure 100);
              BCanAccept := true; BCapabilities := Some capabilities |}
  end.

Definition with_schema (sch : ServiceSchema) (b : ServiceBid) : ServiceBid :=
  {| BNodeID := BNodeID b; BNodeAddr := BNodeAddr b; BSchema := sch; BEstimatedMillis := BEstimatedMillis b;
     BCPULoad := BCPULoad b; BMemPressure := BMemPressure b; BCostUnits := BCostUnits b; BPowerScore := BPowerScore b;
     BCanAccept := BCanAccept b; BCapabilities := BCapabilities b |}.

Definition rejectedBid : ServiceBid :=
  {| BNodeID := ""; BNodeAddr := ""; BSchema := zeroSchema; BEstimatedMillis := 0; BCPULoad := S754_zero false;
     BMemPressure := S754_zero false; BCostUnits := 0; BPowerScore := 0; BCanAccept := false; BCapabilities := None |}.

(** The bid that answers a query. *)
Definition HandleServiceBid s (h : host) (query : DiscoveryQuery) : ServiceBid :=
  match Registry_Get (registry s) (QService query) with
  | None => rejectedBid
  | Some sch =>
      if forallb (λ p, bool_decide (is_Some (gomap_get (SParameters sch) p))) (QRequiredParams query)
      then match BuildServiceBid s h query with Some bid => with_schema sch bid | None => rejectedBid end
      else rejectedBid
  end.

(** ** Choosing *)

Definition bidStrategyScore (bid : ServiceBid) (strategy : string) : Z :=
  if bool_decide (strategy = StrategyCheapest) then
    if (0 <? BCostUnits bid)%Z then BCostUnits bid else BEstimatedMillis bid
  else if bool_decide (strategy = StrategyLowPower) then
    if (0 <? BPowerScore bid)%Z then BPowerScore bid else scaled (BCPULoad bid) 1000
  else BEstimatedMillis bid.

(** A better bid than the best so far; [a < b] on strings is that [b] is not
    at or before [a]. *)
Definition better (strategy : string) (bid best : ServiceBid) : bool :=
  (bidStrategyScore bid strategy <? bidStrategyScore best strategy)%Z ||
  ((bidStrategyScore bid strategy =? bidStrategyScore best strategy)%Z &&
   negb (bool_decide (String.le (BNodeID best) (BNodeID bid)))).

(** [bids] is [first :: rest]. *)
Definition selectBestServiceBid (first : ServiceBid) (rest : list ServiceBid) (strategy : string) : ServiceBid :=
  foldl (λ best bid, if better strategy bid best then bid else best) first rest.

(** [mapEachPeer]: what each registered peer answered, in the order the
    answers arrived; failed calls leave nothing. *)
Definition mapEachPeer {T} (self : string) (skip : string → bool) (answers : list (string * res T)) : list T :=
  omap (λ '(peer, r), if bool_decide (peer = self) || skip peer then None
                      else match r with Ok v => Some v | Err _ => None end) answers.

(** The offers the choice is made from. *)
Definition candidateBids s (h : host) (query : DiscoveryQuery) (answers : list (string * res ServiceBid)) : list ServiceBid :=
  let isExcluded peer := bool_decide (peer ∈ QExcludedPeers query) in
  (if isExcluded (ceNodeID s) then []
   else match Registry_Get (registry s) (QService query) with
   | Some sch => match BuildServiceBid s h query with Some bid => [with_schema sch bid] | None => [] end
   | None => []
   end) ++
  filter (λ bid, BCanAccept bid && SupportsCapabilities (default ∅ (BCapabilities bid)) (QRequiredCapabilities query))
    (mapEachPeer (ceNodeID s) isExcluded answers).

Definition RequestServiceToCluster s (h : host) (query : DiscoveryQuery) (answers : list (string * res ServiceBid))
    : res (string * string * ServiceSchema) :=
  match candidateBids s h query answers with
  | [] => Err (EMsg "no nodes available for service")
  | first :: rest =>
      let best := selectBestServiceBid first rest (NormalizeSortStrategy (QSortStrategy query)) in
      Ok (BNodeID best, BNodeAddr best, BSchema best)
  end.
End bid.

(** ** The choice *)

Section choice.
Context (strategy : string).
Implicit Types a b c : ServiceBid.
Abbreviation score b := (bidStrategyScore b strategy).

Lemma better_spec a b :
  better strategy a b = true ↔
  (score a < score b)%Z ∨ score a = score b ∧ ¬ String.le (BNodeID b) (BNodeID a).
Proof.
  unfold better. rw orb_true_iff andb_true_iff negb_true_iff Z.ltb_lt Z.eqb_eq bool_decide_eq_false. done.
Qed.

(** Not being beaten is a total preorder. *)
Definition as_good a b : Prop := better strategy b a = false.

Lemma as_good_spec a b :
  as_good a b ↔ (score a < score b)%Z ∨ score a = score b ∧ String.le (BNodeID a) (BNodeID b).
Proof.
  unfold as_good. rw -not_true_iff_false better_spec. split.
  - intros H. destruct (Z.lt_trichotomy (score a) (score b)) as [?|[Heq|?]]; [by left|right|exfalso; apply H; by left].
    split; [done|]. destruct (decide (String.le (BNodeID a) (BNodeID b))); [done|]. exfalso. apply H. by right.
  - intros [?|[? ?]] [?|[? ?]]; [lia|lia|lia|done].
Qed.

Lemma as_good_trans a b c : as_good a b → as_good b c → as_good a c.
Proof.
  rw !as_good_spec. intros [?|[? ?]] [?|[? ?]]; [left; lia|left; lia|left; lia|right]. split; [congruence|by etrans].
Qed.

Lemma better_as_good a b : better strategy a b = true → as_good a b.
Proof.
  rw better_spec as_good_spec. intros [?|[? ?]]; [by left|right]. split; [done|].
  by destruct (total String.le (BNodeID a) (BNodeID b)).
Qed.

Lemma as_good_refl a : as_good a a.
Proof. apply as_good_spec. by right. Qed.

(** The choice is one of the bids and no bid beats it. *)
Lemma select_best first rest :
  let best := selectBestServiceBid first rest strategy in
  best ∈ first :: rest ∧ ∀ b, b ∈ first :: rest → as_good best b.
Proof.
  unfold selectBestServiceBid. revert first. induction rest as [|x rest IH]; intros first; simpl.
  { split; [by left|]. intros b ->%list_elem_of_singleton. apply as_good_refl. }
  destruct (IH (if better strategy x first then x else first)) as [Hin Hbest].
  set (best := foldl _ _ _) in *. destruct (better strategy x first) eqn:Hx; split.
  - by right.
  - intros b [->|[->|Hb]%elem_of_cons]%elem_of_cons; [|apply Hbest; by left|apply Hbest; by right].
    apply as_good_trans with x; [apply Hbest; by left|by apply better_as_good].
  - apply elem_of_cons in Hin as [->|Hin]; [by left|by right; right].
  - intros b [->|[->|Hb]%elem_of_cons]%elem_of_cons; [apply Hbest; by left| |apply Hbest; by right].
    apply as_good_trans with first; [apply Hbest; by left|done].
Qed.

(** Two bids that are as good as each other come from the same node. *)
Lemma as_good_antisym a b : as_good a b → as_good b a → BNodeID a = BNodeID b.
Proof.
  rw !as_good_spec. intros [?|[? ?]] [?|[? ?]]; [lia|lia|lia|]. by apply (anti_symm String.le).
Qed.

Lemma same_node_same (l : list ServiceBid) a b :
  NoDup (BNodeID <$> l) → a ∈ l → b ∈ l → BNodeID a = BNodeID b → a = b.
Proof.
  intros Hnd [i Hi]%list_elem_of_lookup [j Hj]%list_elem_of_lookup Heq.
  assert (i = j) as ->; [|congruence].
  apply (NoDup_lookup _ _ _ (BNodeID a) Hnd); rw list_lookup_fmap ?Hi ?Hj; simpl; congruence.
Qed.
End choice.

Section choice_laws.
Context {W J : Type} `{!ComputeWorld W} `{!TaskJournal J}.
Implicit Types s : ComputeEngine W J.

Lemma candidateBids_perm s h query a1 a2 :
  a1 ≡ₚ a2 → candidateBids s h query a1 ≡ₚ candidateBids s h query a2.
Proof. intros Ha. unfold candidateBids, mapEachPeer. by rw Ha. Qed.

(** C40: with one offer per node, the choice of a node for a service does not
    depend on the order in which the peers answer, and is the best offer: one
    of the candidates, of which every other one scores higher by the strategy
    of the query, or the same with a node ID that is not smaller. *)
Theorem cluster_choice s h query answers answers' :
  answers ≡ₚ answers' → NoDup (BNodeID <$> candidateBids s h query answers) →
  RequestServiceToCluster s h query answers' = RequestServiceToCluster s h query answers ∧
  (candidateBids s h query answers ≠ [] →
   ∃ best, RequestServiceToCluster s h query answers = Ok (BNodeID best, BNodeAddr best, BSchema best) ∧
     best ∈ candidateBids s h query answers ∧
     ∀ b, b ∈ candidateBids s h query answers →
       let score b := bidStrategyScore b (NormalizeSortStrategy (QSortStrategy query)) in
       (score best < score b)%Z ∨ score best = score b ∧ String.le (BNodeID best) (BNodeID b)).
Proof.
  intros Ha%(candidateBids_perm s h query) Hnd. unfold RequestServiceToCluster.
  set (strategy := NormalizeSortStrategy (QSortStrategy query)).
  destruct (candidateBids s h query answers) as [|first rest].
  { apply Permutation_nil in Ha as ->. done. }
  destruct (select_best strategy first rest) as [Hin Hbest].
  split; [|intros _; eexists; split_and!; [done..|]; intros b Hb; by apply as_good_spec, Hbest].
  destruct (candidateBids s h query answers') as [|first' rest']; [by symmetry in Ha; apply Permutation_nil in Ha|].
  destruct (select_best strategy first' rest') as [Hin' Hbest'].
  set (b := selectBestServiceBid first rest strategy) in *. set (b' := selectBestServiceBid first' rest' strategy) in *.
  assert (b' = b) as ->; [|done]. symmetry in Ha. apply (same_node_same (first :: rest)); [done|by rw -Ha|done|].
  apply (as_good_antisym strategy); [apply Hbest'; by rw Ha|apply Hbest; by rw -Ha].
Qed.

(** A node that bids has room for the task. *)
Lemma bid_has_room s h query bid :
  (length (taskQueue s) ≤ taskQueueCap)%nat → BuildServiceBid s h query = Some bid → (length (taskQueue s) < taskQueueCap)%nat.
Proof.
  intros Hlen. unfold BuildServiceBid, estimateTaskCost. destruct (negb _); [done|].
  destruct (overloaded _ _) eqn:Hover; [done|]. intros _. destruct (decide (length (taskQueue s) = taskQueueCap)) as [Heq|]; [|lia].
  exfalso. revert Hover. rw Heq. by vm_compute.
Qed.
End choice_laws.

(** Two offers of the same score. *)
Lemma cluster_choice_witness :
  let s := NewComputeEngine "me" () (script [] []) in
  let h := {| activeWorkers := 0; NumGoroutine := 1; sampled := (S754_zero false, S754_zero false); nodeAddr := "" |} in
  let query := {| QService := "far"; QRequiredParams := []; QRequiredCapabilities := ∅; QSortStrategy := "";
                  QPayloadSizeBytes := 0; QExcludedPeers := [] |} in
  RequestServiceToCluster s h query [("b", Ok (sim_bid "b" "far")); ("a", Ok (sim_bid "a" "far"))] =
  RequestServiceToCluster s h query [("a", Ok (sim_bid "a" "far")); ("b", Ok (sim_bid "b" "far"))].
Proof.
  intros s h query. apply (cluster_choice s h query [("a", Ok (sim_bid "a" "far")); ("b", Ok (sim_bid "b" "far"))]).
  - apply perm_swap.
  - apply (bool_decide_unpack _). vm_compute. exact I.
Defined.
