(* ===== verification/ComputeLaws.v ===== *)
(** * Laws of the compute engine

    What every call of the engine keeps: the status table stays within its
    limit and a failed task stays failed; callbacks change a task only on
    behalf of a node that was asked to work on it; submission queues a task
    at most once; pipeline revisions never go back. *)
From S2P Require Import Prelude GoStrings Json Protocol Pipeline Bolt Journal Tasks TaskStatus TaskStatusLaws.
From S2P Require Import ComputeEngine PipelineRun Escrow TaskRun.
Local Open Scope stdpp_scope.

Section frames.
Context {W J : Type} `{!ComputeWorld W} `{!TaskJournal J}.
Implicit Types s : ComputeEngine W J.
Abbreviation CE := (CE W J).

(** ** Properties of the table and the queue that every operation keeps *)

(** The task has no failure on record. *)
Definition unfailed (tb : StatusTable) (id : string) : Prop :=
  ∀ cur, taskStatuses tb !! id = Some cur → RsStatus cur ≠ "failed".

(** Closure under the table's own operations and the queue's.  The engine
    stores over a status only when that is no failure. *)
Record table_closed (P : StatusTable → list TaskRequest → Prop) : Prop := {
  tc_store order now r tb q :
    (∀ V l, order V l ≡ₚ l) → unfailed tb (RsTaskID r) → P tb q → P (storeTaskStatusLocked order now r tb) q;
  tc_set order now cl r tb q : (∀ V l, order V l ≡ₚ l) → P tb q → P (setTaskStatus order now cl r tb) q;
  tc_register order now sch req tb q :
    (∀ V l, order V l ≡ₚ l) → P tb q → P (RegisterOutgoingTask order now sch req tb) q;
  tc_get order now id tb q : (∀ V l, order V l ≡ₚ l) → P tb q → P (GetTaskResponse order now id tb).2 q;
  tc_all order now tb q : (∀ V l, order V l ≡ₚ l) → P tb q → P (GetAllTaskStatuses order now tb).2 q;
  tc_meta f tb q : P tb q → P (with_meta f tb) q;
  tc_accepted f tb q : P tb q → P (with_accepted f tb) q;
  tc_enqueue req tb q : (length q < taskQueueCap)%nat → P tb q → P tb (q ++ [req]);
  tc_dequeue req tb q : P tb (req :: q) → P tb q }.

Section keeps.
Context `{!ComputeWorldLaws W} (P : StatusTable → list TaskRequest → Prop) (HP : table_closed P).

Abbreviation keeps m := (preserves (λ s : ComputeEngine W J, P (table s) (taskQueue s)) m).

Lemma keeps_modify f : (∀ s, table (f s) = table s ∧ taskQueue (f s) = taskQueue s) → keeps (modify f).
Proof. intros Hf. apply preserves_modify. intros s. by destruct (Hf s) as [-> ->]. Qed.

Lemma keeps_onWorld {A} (f : W → A * W) : keeps (onWorld f).
Proof. intros s r s' Hs. unfold onWorld. destruct (f (world s)) as [a w]. by intros [= <- <-]. Qed.

Lemma keeps_onJournal f : keeps (onJournal f).
Proof. intros s r s' Hs. unfold onJournal. destruct (f (taskJournal s)) as [e j]. by intros [= <- <-]. Qed.

Lemma keeps_onTable f : (∀ tb q, P tb q → P (f tb) q) → keeps (onTable f).
Proof. intros Hf. apply preserves_modify. intros s. apply Hf. Qed.

Lemma keeps_meta f : keeps (onTable (with_meta f)).
Proof. apply keeps_onTable. intros tb q. apply (tc_meta _ HP). Qed.

Lemma keeps_updateMeta id f : keeps (onTable (updateMeta id f)).
Proof. apply keeps_meta. Qed.

Lemma keeps_accepted f : keeps (onTable (with_accepted f)).
Proof. apply keeps_onTable. intros tb q. apply (tc_accepted _ HP). Qed.

Lemma keeps_acceptedDelete id : keeps (onTable (acceptedDelete id)).
Proof. apply keeps_accepted. Qed.

Lemma keeps_delegateTo id peers : keeps (delegateTo id peers).
Proof. apply keeps_meta. Qed.

Lemma keeps_panic {A} text : keeps (panic (A := A) text).
Proof. apply preserves_fail. Qed.

Lemma keeps_index {A} (l : list A) i : keeps (index l i).
Proof. unfold index. destruct (if (i <? 0)%Z then _ else _); [apply preserves_ret|apply keeps_panic]. Qed.

Lemma keeps_send o : keeps (send o).
Proof. by apply keeps_modify. Qed.

(** Operations that read the world before they touch the table. *)
Lemma keeps_gets {A} (k : ComputeEngine W J → CE A) : (∀ s, keeps (k s)) → keeps (gets id ≫= k).
Proof. intros Hk. apply preserves_bind; [apply preserves_gets|exact Hk]. Qed.

Lemma keeps_set r : keeps (ceSetTaskStatus r).
Proof.
  apply keeps_gets. intros s. apply keeps_onTable. intros tb q. apply (tc_set _ HP). intros. apply rangeOrder_perm.
Qed.

(** Storing a status over one that is no failure. *)
Lemma keeps_store r :
  hoare (λ s, P (table s) (taskQueue s) ∧ unfailed (table s) (RsTaskID r)) (ceStoreTaskStatus r)
    (λ _ s, P (table s) (taskQueue s)).
Proof.
  intros s res s' [Hs Hun] [= <- <-]. simpl. apply (tc_store _ HP); [|done..]. intros. apply rangeOrder_perm.
Qed.

Lemma keeps_get id : keeps (ceGetTaskResponse id).
Proof.
  intros s r s' Hs. unfold ceGetTaskResponse. destruct (GetTaskResponse _ _ _ _) as [o tb] eqn:Hget. intros [= <- <-].
  simpl. replace tb with (GetTaskResponse (rangeOrder (world s)) (clock (world s)) id (table s)).2 by (by rw Hget).
  apply (tc_get _ HP); [|done]. intros. apply rangeOrder_perm.
Qed.

Lemma keeps_all : keeps ceGetAllTaskStatuses.
Proof.
  intros s r s' Hs. unfold ceGetAllTaskStatuses. destruct (GetAllTaskStatuses _ _ _) as [o tb] eqn:Hget. intros [= <- <-].
  simpl. replace tb with (GetAllTaskStatuses (rangeOrder (world s)) (clock (world s)) (table s)).2 by (by rw Hget).
  apply (tc_all _ HP); [|done]. intros. apply rangeOrder_perm.
Qed.

(** A guarded store: [pre] touches the bookkeeping only. *)
Lemma keeps_guarded {A} r (pre : CE unit) (k : CE A) s0 :
  unfailed (table s0) (RsTaskID r) →
  preserves (λ s, taskStatuses (table s) = taskStatuses (table s0)) pre → keeps pre → keeps k →
  hoare (λ s, P (table s) (taskQueue s) ∧ taskStatuses (table s) = taskStatuses (table s0))
    (pre;; ceStoreTaskStatus r;; k) (λ _ s, P (table s) (taskQueue s)).
Proof.
  intros Hun Hpre Hkeep Hk. eapply hoare_bind; [by apply hoare_and| |by intros e s [? _]]. intros u.
  eapply hoare_bind; [eapply hoare_pre; [apply keeps_store|]| |by intros].
  - intros s [Hs Heq]. split; [done|]. intros cur Hcur. apply Hun. by rw -Heq.
  - intros u'. apply Hk.
Qed.

Lemma keeps_register req : keeps (ceRegisterOutgoingTask req).
Proof.
  apply keeps_gets. intros s. apply keeps_onTable. intros tb q. apply (tc_register _ HP). intros. apply rangeOrder_perm.
Qed.

Lemma keeps_checkpoint rec : keeps (recordCheckpoint rec).
Proof. apply keeps_gets. intros s. apply keeps_onJournal. Qed.

Hint Resolve keeps_onWorld keeps_onJournal keeps_updateMeta keeps_accepted keeps_acceptedDelete keeps_delegateTo
  keeps_panic keeps_index keeps_send keeps_set keeps_register keeps_checkpoint keeps_meta : preserves.

(** Calls that only move other parts of the engine. *)
Ltac keeps_frame := apply keeps_modify; done.
Hint Extern 1 (preserves _ (modify _)) => keeps_frame : preserves.

Lemma keeps_select step i : keeps (selectPipelineStepTarget step i).
Proof. unfold selectPipelineStepTarget. solve_preserves. Qed.
Hint Resolve keeps_select : preserves.

Lemma keeps_prepareTargets steps i st : keeps (prepareTargets steps i st).
Proof.
  revert i st. induction steps as [|step steps IH]; intros i st; cbn [prepareTargets]; solve_preserves.
Qed.
Hint Resolve keeps_prepareTargets : preserves.

Lemma keeps_PreparePipelineTargets req : keeps (PreparePipelineTargets req).
Proof. unfold PreparePipelineTargets. solve_preserves. Qed.
Hint Resolve keeps_PreparePipelineTargets : preserves.

Lemma keeps_BindPipelineStepTarget req peer : keeps (BindPipelineStepTarget req peer).
Proof. unfold BindPipelineStepTarget. solve_preserves. Qed.
Hint Resolve keeps_BindPipelineStepTarget : preserves.

Lemma keeps_migrateTargets steps i st : keeps (migrateTargets steps i st).
Proof.
  revert i st. induction steps as [|step steps IH]; intros i st; cbn [migrateTargets]; solve_preserves.
Qed.
Hint Resolve keeps_migrateTargets : preserves.

Lemma keeps_migration t st cur target : keeps (tryDynamicSchemaMigration t st cur target).
Proof. unfold tryDynamicSchemaMigration. solve_preserves. Qed.
Hint Resolve keeps_migration : preserves.

Lemma keeps_bind t sch : keeps (bindPipelineState t sch).
Proof. unfold bindPipelineState. solve_preserves. Qed.
Hint Resolve keeps_bind : preserves.

Lemma keeps_BindPipelineTask req : keeps (BindPipelineTask req).
Proof. unfold BindPipelineTask. solve_preserves. Qed.
Hint Resolve keeps_BindPipelineTask : preserves.

Lemma keeps_enqueue req : keeps (enqueue req).
Proof.
  intros s r s' Hs. unfold enqueue, mbind, st_bind, gets, onTable, modify. simpl.
  destruct (_ || _); [by intros [= <- <-]|]. destruct (first_known _); [by intros [= <- <-]..|].
  destruct (Nat.ltb_spec (length (taskQueue s)) taskQueueCap); intros [= <- <-]; [|done].
  simpl. apply (tc_enqueue _ HP); [done|]. by apply (tc_accepted _ HP).
Qed.
Hint Resolve keeps_enqueue : preserves.

Lemma keeps_SubmitTask req : keeps (SubmitTask req).
Proof. unfold SubmitTask. solve_preserves. Qed.
Hint Resolve keeps_SubmitTask : preserves.

Lemma keeps_PutTaskInEscrow req : keeps (PutTaskInEscrow req).
Proof. unfold PutTaskInEscrow. solve_preserves. Qed.
Hint Resolve keeps_PutTaskInEscrow : preserves.

Lemma keeps_escalate t step i cause : keeps (escalateToEscrow t step i cause).
Proof. unfold escalateToEscrow, dispatchEscrow. solve_preserves. Qed.
Hint Resolve keeps_escalate : preserves.

Lemma keeps_sendPipelineError t err : keeps (sendPipelineError t err).
Proof. unfold sendPipelineError, failedStepID, answer. solve_preserves. Qed.
Hint Resolve keeps_sendPipelineError : preserves.

(** A dispatcher that keeps the table's properties, as the server's does. *)
Definition dispatcher_keeps (d : TaskDispatcher W J) : Prop :=
  match d with Some dispatch => ∀ peer req, keeps (dispatch peer req) | None => True end.

Section runs.
Context (d : TaskDispatcher W J) (Hd : dispatcher_keeps d).

Lemma keeps_attemptOn t step target : keeps (attemptOn d t step target).
Proof. unfold attemptOn. destruct d as [dispatch|]; simpl in Hd; solve_preserves. Qed.
Hint Resolve keeps_attemptOn : preserves.

Lemma keeps_failover n t step i tried target : keeps (failover d n t step i tried target).
Proof.
  revert t tried target. induction n as [|n IH]; intros t tried target; cbn [failover];
    unfold alternative; solve_preserves.
Qed.
Hint Resolve keeps_failover : preserves.

Lemma keeps_dispatch t step target i : keeps (dispatchStepWithFailover d t step target i).
Proof. unfold dispatchStepWithFailover. solve_preserves. Qed.
Hint Resolve keeps_dispatch : preserves.

Lemma keeps_route t step : keeps (routePipelineStep d t step).
Proof. unfold routePipelineStep, routeTo. solve_preserves. Qed.
Hint Resolve keeps_route : preserves.

Lemma keeps_complete t st sch : keeps (completePipeline t st sch).
Proof. unfold completePipeline, finalOutputs, answer. solve_preserves. Qed.
Hint Resolve keeps_complete : preserves.

Lemma keeps_advance t st sch : keeps (advancePipeline d t st sch).
Proof. unfold advancePipeline. solve_preserves. Qed.
Hint Resolve keeps_advance : preserves.

Lemma keeps_resolveVFS resolver requester producers l payload :
  keeps (resolveVFS resolver requester producers l payload).
Proof.
  revert payload. induction l as [|[k []] l IH]; intros payload; cbn [resolveVFS]; solve_preserves.
Qed.
Hint Resolve keeps_resolveVFS : preserves.

Lemma keeps_executeLocally t st sch step h : keeps (executeLocally d t st sch step h).
Proof. unfold executeLocally, stepInputs, runHandler, resolveInputs, stageOutputBlobs. solve_preserves. Qed.
Hint Resolve keeps_executeLocally : preserves.

Lemma keeps_execute t sch : keeps (executePipelineStep d t sch).
Proof. unfold executePipelineStep. solve_preserves. Qed.
Hint Resolve keeps_execute : preserves.

Lemma keeps_processTask t : keeps (processTask d t).
Proof. unfold processTask. solve_preserves. Qed.

Lemma keeps_serviceWorker : keeps (serviceWorker d).
Proof.
  intros s r s' Hs. unfold serviceWorker, mbind, st_bind, gets, modify. simpl.
  destruct (cancelled s); [by intros [= <- <-]|]. destruct (taskQueue s) as [|t q] eqn:Hq; [intros [= <- <-]; by rw Hq|].
  apply (keeps_processTask t). simpl. by apply (tc_dequeue _ HP t).
Qed.

Lemma keeps_Resume id : keeps (ResumeEscrowTask d id).
Proof.
  unfold ResumeEscrowTask, resumeTarget, resumeOn, revertEscrow, markResumed.
  destruct d as [dispatch|]; simpl in Hd; solve_preserves.
Qed.
End runs.

Lemma keeps_terminal r producer : keeps (recordTerminalResponseCheckpoint r producer).
Proof. unfold recordTerminalResponseCheckpoint. solve_preserves. Qed.
Hint Resolve keeps_terminal : preserves.

(** The statuses are those of [s0] until something is stored. *)
Lemma keeps_at_state {A} (k : ComputeEngine W J → CE A) :
  (∀ s0, hoare (λ s, P (table s) (taskQueue s) ∧ taskStatuses (table s) = taskStatuses (table s0)) (k s0)
           (λ _ s, P (table s) (taskQueue s))) → keeps (gets id ≫= k).
Proof. intros Hk s r s' Hs Hrun. by apply (Hk s s r s'). Qed.

Lemma keeps_ignore {A} (a : A) s0 :
  hoare (λ s, P (table s) (taskQueue s) ∧ taskStatuses (table s) = taskStatuses (table s0)) (mret a)
    (λ _ s, P (table s) (taskQueue s)).
Proof. apply hoare_ret. by intros s [? _]. Qed.

Lemma statuses_accepted_delete id s0 b :
  preserves (λ s, taskStatuses (table s) = taskStatuses (table s0)) (if b : bool then onTable (acceptedDelete id) else mret ()).
Proof. destruct b; [by apply preserves_modify|apply preserves_ret]. Qed.

(** What a callback stores replaces a status that is not terminal. *)
Lemma callbackOutcome_unfailed needs current response producer stored fin :
  callbackOutcome needs current response producer = Ok (Some (stored, fin)) →
  RsStatus current ≠ "failed" ∧ RsTaskID stored = RsTaskID response.
Proof.
  unfold callbackOutcome. destruct (_ && _ && _); [done|]. unfold isTerminalStatus.
  case_bool_decide; simpl; [by repeat case_match|]. case_bool_decide as Hf; simpl; [by repeat case_match|].
  intros Hout. split; [done|]. by repeat case_match; simplify_eq.
Qed.

Lemma keeps_AcceptTaskCallback producer r : keeps (AcceptTaskCallback producer r).
Proof.
  unfold AcceptTaskCallback. do 2 (case_match; [solve_preserves|]). apply keeps_at_state. intros s0.
  rw CloneServiceTaskResponse_id.
  destruct (taskStatuses (table s0) !! RsTaskID r) as [cur|] eqn:Hcur; [|case_match; apply keeps_ignore].
  case_match; [apply keeps_ignore|].
  eapply hoare_bind with (R := λ _ s, P (table s) (taskQueue s) ∧ taskStatuses (table s) = taskStatuses (table s0)); [| |by intros e s [? _]].
  { apply hoare_and; [apply keeps_updateMeta|by apply preserves_modify]. }
  intros u. destruct (callbackOutcome _ _ _ _) as [[[stored fin]|]|e] eqn:Hout; [|apply keeps_ignore..].
  apply callbackOutcome_unfailed in Hout as [Hnf Hid].
  apply keeps_guarded; [|apply statuses_accepted_delete|destruct fin; solve_preserves|solve_preserves].
  rw Hid. intros cur'. by rw Hcur; intros [= <-].
Qed.

Lemma keeps_RecordTaskResponse r : keeps (RecordTaskResponse r).
Proof.
  unfold RecordTaskResponse. rw CloneServiceTaskResponse_id. apply keeps_at_state. intros s0.
  destruct (retiredTaskStatuses (table s0) !! RsTaskID r); [apply keeps_ignore|].
  destruct (match taskStatuses (table s0) !! RsTaskID r with Some _ => _ | None => false end) eqn:Hf; [apply keeps_ignore|].
  apply keeps_guarded; [|apply statuses_accepted_delete|destruct (terminal r); solve_preserves|solve_preserves].
  intros cur Hcur. rw Hcur in Hf. by apply bool_decide_eq_false in Hf.
Qed.

Lemma keeps_failAccepted l : keeps (failAccepted l).
Proof.
  induction l as [|[key req] l IH]; cbn [failAccepted]; [solve_preserves|].
  apply keeps_at_state. intros s0. apply hoare_bind with (R := λ _ s, P (table s) (taskQueue s)); [|done|done].
  destruct (negb _); [apply keeps_ignore|].
  destruct (match taskStatuses (table s0) !! RqTaskID req with Some _ => _ | None => false end) eqn:Ht.
  { eapply hoare_pre; [apply keeps_acceptedDelete|]. by intros s [? _]. }
  eapply hoare_bind; [eapply hoare_pre; [apply keeps_store|]| |by intros].
  - intros s [Hs Heq]. split; [done|]. intros cur Hcur Hf. rw Heq in Hcur. simpl in Hcur. rw Hcur in Ht.
    unfold terminal in Ht. by rw Hf in Ht.
  - intros u. apply preserves_bind; [apply keeps_checkpoint|]. intros e. apply keeps_acceptedDelete.
Qed.
Hint Resolve keeps_failAccepted : preserves.

Lemma keeps_Close : keeps Close.
Proof. unfold Close, failAcceptedTasks. solve_preserves. Qed.

Lemma keeps_RestoreEscrowTask task : keeps (RestoreEscrowTask task).
Proof. unfold RestoreEscrowTask. solve_preserves. Qed.

Lemma keeps_DispatchTask `{!PeerWorld W} peer req : keeps (DispatchTask peer req).
Proof.
  unfold DispatchTask, stagePayload, checkContinuation, submitTrackedTask, MarkTaskAsFailed. solve_preserves.
Qed.
End keeps.
End frames.
