(* ===== verification/TaskFlow.v ===== *)
(** * No task is lost

    Where a task is after the engine worked on it: queued, handed to another
    node, in escrow, or settled with a recorded result.  And the promises of
    submission and of callbacks. *)
From S2P Require Import Prelude GoStrings Json Protocol Pipeline Bolt Journal Tasks TaskStatus TaskStatusLaws.
From S2P Require Import ComputeEngine PipelineRun Escrow TaskRun ComputeSim ComputeLaws.
Local Open Scope stdpp_scope.

Section flow.
Context {W J : Type} `{!ComputeWorld W} `{!TaskJournal J} `{!ComputeWorldLaws W}.
Implicit Types s : ComputeEngine W J.
Abbreviation CE := (CE W J).

(** ** Where a task can be *)

Inductive accounted s (id : string) : Prop :=
  | Queued req : req ∈ taskQueue s → RqTaskID req = id → accounted s id
  | HandedOver peer req : Dispatched peer req ∈ sent s → RqTaskID req = id → accounted s id
  | InEscrow : is_Some (escrowTasks s !! id) → accounted s id
  | EscrowedElsewhere coordinator req : Escalated coordinator req ∈ sent s → EsTaskID req = id → accounted s id
  | Settled : settled (table s) id → accounted s id
  | Ingesting r : taskStatuses (table s) !! id = Some r → RsStatus r = TaskStatusIngesting → accounted s id.

(** The engine with its log of calls emptied, so that what is handed over
    afterwards is what a call handed over. *)
Definition fresh_log s : ComputeEngine W J := set_sent (λ _, []) s.

(** A call that leaves the task somewhere whenever it returns. *)
Definition places {A} (id : string) (m : CE A) : Prop :=
  hoare (λ _, True) m (λ r s', is_ok r = true → accounted s' id).

Lemma places_bind {A B} id (m : CE A) (k : A → CE B) : (∀ a, places id (k a)) → places id (m ≫= k).
Proof.
  intros Hk. eapply hoare_bind with (R := λ _ _, True); [done| |by intros]. intros a. apply Hk.
Qed.

(** Calls that keep a task where it is. *)
Definition stays {A} (id : string) (m : CE A) : Prop := preserves (λ s, accounted s id) m.

Lemma places_then {A B} id (m : CE A) (k : A → CE B) : places id m → (∀ a, stays id (k a)) → places id (m ≫= k).
Proof.
  intros Hm Hk. eapply hoare_bind; [exact Hm| |].
  - intros a. eapply hoare_conseq; [apply (Hk a)|by intros s Hs; apply Hs|done].
  - by intros e s.
Qed.

Lemma stays_onWorld {A} id (f : W → A * W) : stays id (onWorld f).
Proof.
  intros s r s' Hs. unfold onWorld. destruct (f (world s)) as [a w]. intros [= <- <-].
  destruct Hs; [by eapply Queued|by eapply HandedOver|by apply InEscrow|by eapply EscrowedElsewhere|by apply Settled|by eapply Ingesting].
Qed.

Lemma stays_onJournal id f : stays id (onJournal f).
Proof.
  intros s r s' Hs. unfold onJournal. destruct (f (taskJournal s)) as [a w]. intros [= <- <-].
  destruct Hs; [by eapply Queued|by eapply HandedOver|by apply InEscrow|by eapply EscrowedElsewhere|by apply Settled|by eapply Ingesting].
Qed.

Lemma stays_send id o : stays id (send o).
Proof.
  intros s r s' Hs [= <- <-]. destruct Hs as [req|peer req| |c req| |r];
    [by eapply Queued|eapply HandedOver; [|done]|by apply InEscrow|eapply EscrowedElsewhere; [|done]|by apply Settled|by eapply Ingesting];
    simpl; apply elem_of_app; by left.
Qed.

Lemma stays_accepted id f : stays id (onTable (with_accepted f)).
Proof.
  intros s r s' Hs [= <- <-].
  destruct Hs; [by eapply Queued|by eapply HandedOver|by apply InEscrow|by eapply EscrowedElsewhere|by apply Settled|by eapply Ingesting].
Qed.

Lemma stays_checkpoint id rec : stays id (recordCheckpoint rec).
Proof. apply preserves_bind; [apply preserves_gets|]. intros s. apply stays_onJournal. Qed.

Lemma stays_answer id replyTo response : stays id (answer replyTo response).
Proof.
  unfold answer. case_bool_decide; [apply preserves_ret|]. apply preserves_bind; [apply stays_onWorld|].
  intros [e|]; [apply preserves_ret|apply stays_send].
Qed.

(** ** Settling and escrow *)

(** The engine's order of maps is a permutation. *)
Lemma world_order s V (l : list (string * V)) : rangeOrder (world s) V l ≡ₚ l.
Proof. apply rangeOrder_perm. Qed.

(** A terminal or ingesting response recorded for a task accounts for it. *)
Lemma set_places r :
  terminal r = true ∨ RsStatus r = TaskStatusIngesting → places (RsTaskID r) (ceSetTaskStatus r).
Proof.
  intros Hr s res s' _ [= <- <-] _. simpl.
  destruct (set_cases (rangeOrder (world s)) (clock (world s)) (closed s) r (table s))
    as [[He [Hret|(cur & Hcur & Hterm)]]|(_ & _ & He)].
  - apply Settled. right. simpl. by rw He.
  - apply Settled. left. exists cur. simpl. by rw He.
  - set (r' := if closed s then _ else _) in He.
    assert (taskStatuses (setTaskStatus (rangeOrder (world s)) (clock (world s)) (closed s) r (table s)) !! RsTaskID r = Some r') as Hst.
    { rw He. assert (RsTaskID r' = RsTaskID r) as <- by (unfold r'; by destruct (closed s)). apply store_spec, world_order. }
    assert (terminal r' = true ∨ RsStatus r' = TaskStatusIngesting) as [Hr'|Hr'] by (unfold r'; destruct (closed s); [by left|done]).
    + apply Settled. left. by exists r'.
    + by apply (Ingesting _ _ r').
Qed.

Lemma sendPipelineError_places t err : places (RqTaskID t) (sendPipelineError t err).
Proof.
  unfold sendPipelineError. apply places_bind. intros stepID. apply places_bind. intros s. apply places_bind. intros _.
  apply places_then; [|intros _; apply stays_answer].
  apply (set_places {| RsTaskID := RqTaskID t; RsStatus := "failed" |}). by left.
Qed.

(** [PutTaskInEscrow] without an error leaves the task in escrow. *)
Lemma PutTaskInEscrow_escrows req :
  hoare (λ _, True) (PutTaskInEscrow req) (λ r s', r = Ok None → is_Some (escrowTasks s' !! EsTaskID req)).
Proof.
  unfold PutTaskInEscrow. case_bool_decide; [apply hoare_ret; by intros|].
  eapply hoare_bind with (R := λ _ _, True); [done| |by intros]. intros s.
  eapply hoare_bind with (R := λ _ _, True); [done| |by intros]. intros [e|]; [apply hoare_ret; by intros|].
  eapply hoare_bind with (R := λ _ s', is_Some (escrowTasks s' !! EsTaskID req)); [| |by intros].
  { apply hoare_modify. intros s1 _. simpl. rw lookup_insert_eq. eauto. }
  intros u. eapply hoare_bind with (R := λ _ s', is_Some (escrowTasks s' !! EsTaskID req));
    [|intros u'; apply hoare_ret; by intros|by intros].
  by intros s1 r s2 Hs [= <- <-].
Qed.

(** Calls that leave the log of accepted calls alone. *)
Definition logged {A} (o : outgoing) (m : CE A) : Prop := preserves (λ s, o ∈ sent s) m.

Lemma logged_onTable o f : logged o (onTable f).
Proof. by apply preserves_modify. Qed.

Lemma logged_set o r : logged o (ceSetTaskStatus r).
Proof. apply preserves_bind; [apply preserves_gets|]. intros s. apply logged_onTable. Qed.

Lemma logged_checkpoint o rec : logged o (recordCheckpoint rec).
Proof.
  apply preserves_bind; [apply preserves_gets|]. intros s s1 r s2 Hs. unfold onJournal.
  destruct (journalAppend _ _ _) as [e j]. by intros [= <- <-].
Qed.

Lemma send_logs o : hoare (λ _, True) (send o) (λ _ (s' : ComputeEngine W J), o ∈ sent s').
Proof. intros s r s' _ [= <- <-]. simpl. apply elem_of_app. right. by left. Qed.

(** After an accepted call, any calls that keep the log. *)
Lemma logs_places {A} o id (m : CE A) :
  (∀ s, o ∈ sent s → accounted s id) → logged o m → places id (send o ≫= λ _, m).
Proof.
  intros Ho Hm. eapply hoare_bind; [apply send_logs| |by intros].
  intros u. eapply hoare_conseq; [apply Hm|done|]. intros r s Hin _. by apply Ho.
Qed.

(** An escalation without an error leaves the task here in escrow, or with
    its coordinator. *)
Lemma escalate_places t step i cause :
  hoare (λ _, True) (escalateToEscrow t step i cause) (λ r s', r = Ok None → accounted s' (RqTaskID t)).
Proof.
  unfold escalateToEscrow. eapply hoare_bind with (R := λ _ _, True); [done| |by intros]. intros s.
  destruct (_ || _).
  - eapply hoare_bind with (R := λ _ _, True); [done| |by intros]. intros u.
    eapply hoare_conseq; [apply PutTaskInEscrow_escrows|done|]. intros r s' H Hr. apply InEscrow. by apply H.
  - eapply hoare_bind with (R := λ _ _, True); [done| |by intros]. intros [e|].
    { apply hoare_ret. by intros. }
    apply hoare_conseq with (P' := λ _, True) (Q' := λ r s', is_ok r = true → accounted s' (RqTaskID t));
      [|done|intros r s' H Hr; apply H; by rw Hr].
    apply logs_places; [intros s' Hin; by eapply EscrowedElsewhere|].
    repeat (apply preserves_bind; [first [apply logged_onTable|apply logged_set|apply preserves_gets|apply logged_checkpoint]|intros ?]).
    apply preserves_ret.
Qed.

(** ** Submission *)

(** A submission that is accepted queues the task, or the task was settled or
    already accepted. *)
Lemma enqueue_cases req s r s' :
  enqueue req s = (r, s') →
  (s' = s ∧ ((∃ e, r = Ok (Some e)) ∨
     r = Ok None ∧ (settled (table s) (RqTaskID req) ∨ acceptedTasks (table s) !! RqTaskID req = Some req))) ∨
  (r = Ok None ∧ (length (taskQueue s) < taskQueueCap)%nat ∧
   first_known [alreadyKnown s req; retiredKnown s req; acceptedKnown s req] = Fresh ∧
   s' = set_queue (λ q, q ++ [req]) (set_table (with_accepted (<[RqTaskID req := req]>)) s)).
Proof.
  unfold enqueue, mbind, st_bind, gets, onTable, modify. cbn [id].
  destruct (cancelled s || closed s); [intros [= <- <-]; left; eauto|].
  destruct (first_known _) as [|e|] eqn:Hknown; simpl.
  - intros [= <- <-]. left. split; [done|]. right. split; [done|].
    unfold first_known, alreadyKnown, retiredKnown, acceptedKnown in Hknown. simpl in Hknown.
    destruct (taskStatuses (table s) !! RqTaskID req) as [cur|] eqn:Hcur.
    + destruct (terminal cur) eqn:Hterm; [left; left; eauto|].
      destruct (retiredTaskStatuses (table s) !! RqTaskID req) as [ret|] eqn:Hret; [left; right; by rw Hret|].
      destruct (acceptedTasks (table s) !! RqTaskID req) as [old|] eqn:Hacc; [|done].
      destruct (DeepEqual old req) eqn:Heq; [|done]. apply DeepEqual_eq in Heq as ->. by right.
    + destruct (retiredTaskStatuses (table s) !! RqTaskID req) as [ret|] eqn:Hret; [left; right; by rw Hret|].
      destruct (acceptedTasks (table s) !! RqTaskID req) as [old|] eqn:Hacc; [|done].
      destruct (DeepEqual old req) eqn:Heq; [|done]. apply DeepEqual_eq in Heq as ->. by right.
  - intros [= <- <-]. left. eauto.
  - destruct (Nat.ltb_spec (length (taskQueue s)) taskQueueCap); intros [= <- <-]; [by right|left; eauto].
Qed.

(** The request a submission queues: with its requester and its pipeline. *)
Lemma SubmitTask_enqueues req s r s' :
  SubmitTask req s = (r, s') →
  (∃ e, r = Ok (Some e) ∧ s' = s) ∨
  ∃ req', RqTaskID req' = RqTaskID req ∧ RqService req' = RqService req ∧ enqueue req' s = (r, s').
Proof.
  unfold SubmitTask, mbind, st_bind, gets. case_bool_decide; [intros [= <- <-]; left; eauto|]. cbn [id].
  set (req1 := if bool_decide _ then _ else _).
  assert (RqTaskID req1 = RqTaskID req ∧ RqService req1 = RqService req) as [<- <-] by (unfold req1; by case_bool_decide).
  destruct (RqPipelineState req1) as [st|] eqn:Hst.
  { rw CloneTaskRequest_id. intros Hrun. right. by exists req1. }
  unfold BindPipelineTask, bindPipelineState, mbind, st_bind, gets. cbn [id].
  destruct (pipelineFor s (RqService req1) (RqPipelineState req1)) as [sch|] eqn:Hfor; rw ?Hst; simpl;
    rw CloneTaskRequest_id; intros Hrun; right; eexists; (split; [|split; [|exact Hrun]]); done.
Qed.

Lemma SubmitTask_places req s s' :
  acceptedTasks (table s) !! RqTaskID req = None →
  SubmitTask req s = (Ok None, s') → accounted s' (RqTaskID req).
Proof.
  intros Hacc [(e & [=] & _)|(req' & Hid & _ & Hrun)]%SubmitTask_enqueues. rw -Hid. rw -Hid in Hacc.
  apply enqueue_cases in Hrun as [[-> [[e [=]]|(_ & [Hset|Hin])]]|(_ & _ & _ & ->)].
  - by apply Settled.
  - congruence.
  - apply (Queued _ _ req'); [|done]. simpl. apply elem_of_app. right. by left.
Qed.

(** C28: a submission never half happens.  With an error nothing changes; with
    none, either the task was settled or accepted before and nothing changes,
    or it was unknown and is now the last of the queue, which had room for it,
    and recorded as accepted. *)
Theorem SubmitTask_exact req s r s' :
  SubmitTask req s = (r, s') →
  (∃ e, r = Ok (Some e) ∧ s' = s) ∨
  (r = Ok None ∧ s' = s ∧
   (settled (table s) (RqTaskID req) ∨ is_Some (acceptedTasks (table s) !! RqTaskID req))) ∨
  (r = Ok None ∧ ∃ req', RqTaskID req' = RqTaskID req ∧ RqService req' = RqService req ∧
   taskQueue s' = taskQueue s ++ [req'] ∧ (length (taskQueue s) < taskQueueCap)%nat ∧
   ¬ settled (table s) (RqTaskID req) ∧ acceptedTasks (table s) !! RqTaskID req = None ∧
   table s' = with_accepted (<[RqTaskID req := req']>) (table s)).
Proof.
  intros [?|(req' & Hid & Hsvc & Hrun)]%SubmitTask_enqueues; [by left|]. rw -Hid.
  apply enqueue_cases in Hrun as [[-> [[e ->]|(-> & Hcase)]]|(-> & Hlen & Hfresh & ->)].
  - left. eauto.
  - right. left. split; [done|]. split; [done|]. destruct Hcase as [?|Hin]; [by left|right]. by rw Hin.
  - right. right. split; [done|]. exists req'. do 4 (split; [done|]).
    unfold first_known, alreadyKnown, retiredKnown, acceptedKnown in Hfresh. simpl in Hfresh.
    destruct (retiredTaskStatuses (table s) !! RqTaskID req') eqn:Hret.
    { exfalso. destruct (taskStatuses (table s) !! RqTaskID req') as [cur|]; repeat (case_match; try done). }
    destruct (acceptedTasks (table s) !! RqTaskID req') eqn:Hacc.
    { exfalso. destruct (taskStatuses (table s) !! RqTaskID req') as [cur|]; repeat (case_match; try done). }
    split; [|done]. intros [(cur & Hcur & Hterm)|[? ?]]; [|congruence]. rw Hcur Hterm in Hfresh.
    by case_bool_decide.
Qed.

(** ** Dispatch *)

(** A dispatcher works on the task it is given. *)
Definition dispatcher_same (d : TaskDispatcher W J) : Prop :=
  match d with
  | Some dispatch => ∀ peer req s e req' s', dispatch peer req s = (Ok (e, req'), s') → RqTaskID req' = RqTaskID req
  | None => True
  end.

Section dispatched.
Context (d : TaskDispatcher W J) (Hd : dispatcher_same d).

(** The outcome of an attempt: on success the task is placed; in any case it
    is the same task. *)
Definition attempt_post (id : string) (r : res (option error * TaskRequest)) s' : Prop :=
  match r with
  | Ok (e, t') => RqTaskID t' = id ∧ (e = None → accounted s' id)
  | Err _ => True
  end.

Lemma attemptOn_post t step target : hoare (λ _, True) (attemptOn d t step target) (attempt_post (RqTaskID t)).
Proof.
  intros s r s' _. unfold attemptOn, mbind, st_bind, gets, onTable, modify. cbn [id].
  set (t1 := with_producer _ _). assert (RqTaskID t1 = RqTaskID t) as <- by done.
  case_bool_decide.
  - simpl. destruct (SubmitTask t1 _) as [[e|e] s1] eqn:Hsub; intros [= <- <-]; [|done].
    split; [done|]. intros ->. apply (SubmitTask_places t1 _ _) in Hsub; [done|]. simpl. apply lookup_delete_eq.
  - destruct d as [dispatch|]; [|by intros [= <- <-]].
    destruct (dispatch target t1 s) as [[[e t2]|e] s1] eqn:Hdis; [|by intros [= <- <-]].
    pose proof (Hd _ _ _ _ _ _ Hdis) as Hid. simpl. destruct e as [e|]; simpl; intros [= <- <-]; [done|].
    split; [done|]. intros _. apply (HandedOver _ _ target t1); [|done]. simpl. apply elem_of_app. right. by left.
Qed.

Definition routed_post (id : string) (r : res (routed * TaskRequest)) s' : Prop :=
  match r with
  | Ok (o, t') => RqTaskID t' = id ∧ (o = Accepted → accounted s' id)
  | Err _ => True
  end.

Lemma failover_post n t step i tried target :
  hoare (λ _, True) (failover d n t step i tried target) (routed_post (RqTaskID t)).
Proof.
  revert t tried target. induction n as [|n IH]; intros t tried target; cbn [failover].
  { apply hoare_ret. by intros. }
  eapply hoare_bind with (R := λ _ _, True); [done| |by intros]. intros s.
  destruct (_ && _); [apply hoare_ret; by intros|].
  eapply hoare_bind; [apply attemptOn_post| |by intros]. intros [[e|] t']; simpl.
  - apply hoare_pre with (P' := λ _, RqTaskID t' = RqTaskID t ∧ True); [|by intros s1 [? _]].
    apply hoare_fact. intros <-.
    eapply hoare_bind with (R := λ _ _, True); [done| |by intros]. intros alt.
    case_bool_decide; [apply hoare_ret; by intros|].
    eapply hoare_bind with (R := λ _ _, True); [done| |by intros]. intros u. apply IH.
  - apply hoare_ret. intros s1 [Hid Hacc]. split; [done|]. intros _. by apply Hacc.
Qed.

Definition dispatch_post (id : string) (r : res (option error * TaskRequest)) s' : Prop :=
  match r with
  | Ok (e, t') => RqTaskID t' = id ∧
      match e with
      | None => accounted s' id
      | Some e => errors_Is e ErrTaskEscrowed = true → accounted s' id
      end
  | Err _ => True
  end.

Lemma dispatch_places t step target i :
  hoare (λ _, True) (dispatchStepWithFailover d t step target i) (dispatch_post (RqTaskID t)).
Proof.
  unfold dispatchStepWithFailover. eapply hoare_bind with (R := λ _ _, True); [done| |by intros]. intros u.
  eapply hoare_bind; [apply failover_post| |by intros]. intros [o t']. simpl.
  apply hoare_pre with (P' := λ s, RqTaskID t' = RqTaskID t ∧ (o = Accepted → accounted s (RqTaskID t))); [|done].
  apply hoare_fact. intros <-. destruct o.
  - apply hoare_ret. intros s Hs. split; [done|]. by apply Hs.
  - apply hoare_ret. by intros.
  - destruct (escrowable t' i); [|apply hoare_ret; by intros].
    eapply hoare_bind; [eapply hoare_pre; [apply escalate_places|done]| |by intros]. intros [e|]; [apply hoare_ret; by intros|].
    apply hoare_ret. intros s Hs. split; [done|]. intros _. by apply Hs.
Qed.

Lemma routeTo_places t step i target : places (RqTaskID t) (routeTo d t step i target).
Proof.
  unfold routeTo. apply places_bind. intros u. eapply hoare_bind; [apply dispatch_places| |by intros].
  intros [[e|] t']; simpl.
  - apply hoare_pre with (P' := λ s, RqTaskID t' = RqTaskID t ∧ (errors_Is e ErrTaskEscrowed = true → accounted s (RqTaskID t))); [|done].
    apply hoare_fact. intros <-. destruct (errors_Is e ErrTaskEscrowed).
    + apply hoare_ret. intros s Hs _. by apply Hs.
    + eapply hoare_pre; [apply sendPipelineError_places|done].
  - apply hoare_ret. by intros s [_ Hs] _.
Qed.

Lemma route_places t step : places (RqTaskID t) (routePipelineStep d t step).
Proof.
  unfold routePipelineStep. case_bool_decide; [apply routeTo_places|].
  apply places_bind. intros [peer|e]; apply places_bind; intros s.
  - apply (routeTo_places (with_state _ t)).
  - case_bool_decide; [apply (routeTo_places (with_state _ t))|].
    destruct (escrowable t _); [|apply sendPipelineError_places].
    eapply hoare_bind; [apply escalate_places| |by intros]. intros [e'|].
    + eapply hoare_pre; [apply sendPipelineError_places|done].
    + apply hoare_ret. intros s' Hs _. by apply Hs.
Qed.

Lemma complete_places t st sch : places (RqTaskID t) (completePipeline t st sch).
Proof.
  unfold completePipeline. do 3 (apply places_bind; intros ?).
  match goal with |- places _ (let '(_, _) := ?p in _) => destruct p as [[e|] outputs] end.
  - apply (sendPipelineError_places (with_state (Some st) t)).
  - do 3 (apply places_bind; intros ?). apply places_then; [|intros u; apply stays_answer].
    match goal with |- places _ (ceSetTaskStatus (if ?b then ?x else ?y)) => destruct b; [apply (set_places x)|apply (set_places y)] end;
      [by right|by left].
Qed.

Lemma advance_places t st sch : places (RqTaskID t) (advancePipeline d t st sch).
Proof.
  unfold advancePipeline. apply places_bind. intros s. apply places_bind. intros [sch' st'].
  destruct (_ <? _)%Z; [|apply complete_places]. apply places_bind. intros next.
  apply (route_places (with_state (Some st') t)).
Qed.

Lemma executeLocally_places t st sch step h : places (RqTaskID t) (executeLocally d t st sch step h).
Proof.
  unfold executeLocally. apply places_bind. intros inputs. apply places_bind. intros [outputs|e];
    [|apply sendPipelineError_places].
  do 3 (apply places_bind; intros ?). apply (advance_places (with_state _ t)).
Qed.

Lemma execute_places t sch : places (RqTaskID t) (executePipelineStep d t sch).
Proof.
  unfold executePipelineStep. destruct (RqPipelineState t) as [st|]; [|apply sendPipelineError_places].
  destruct (_ || _); [apply (sendPipelineError_places (with_state _ t))|]. do 2 (apply places_bind; intros ?).
  match goal with |- places _ (match ?x with _ => _ end) => destruct x as [h|] end;
    [|apply (route_places (with_state _ t))].
  match goal with |- places _ (if ?b then _ else _) => destruct b end;
    [apply (executeLocally_places (with_state _ t))|apply (route_places (with_state _ t))].
Qed.

(** Binding keeps the task's identity. *)
Lemma bind_same t sch :
  hoare (λ _, True) (bindPipelineState t sch) (λ r (_ : ComputeEngine W J), ∀ b, r = Ok b → RqTaskID (bd_req b) = RqTaskID t).
Proof.
  unfold bindPipelineState. destruct (RqPipelineState t) as [st|]; [|apply hoare_ret; by intros ? _ b [= <-]].
  case_bool_decide; [apply hoare_ret; by intros ? _ b [= <-]|].
  eapply hoare_bind with (R := λ _ _, True); [done| |by intros]. intros s.
  destruct (resolveSnapshot s st sch) as [[cur st1]|]; [|apply hoare_ret; by intros ? _ b [= <-]].
  eapply hoare_bind with (R := λ _ _, True); [done| |by intros]. intros [exec st2].
  destruct (_ <? _)%Z; [apply hoare_ret; by intros ? _ b [= <-]|].
  eapply hoare_bind with (R := λ _ _, True); [done| |by intros]. intros prov.
  destruct prov; apply hoare_ret; by intros ? _ b [= <-].
Qed.

Lemma processTask_accounted t : places (RqTaskID t) (processTask d t).
Proof.
  unfold processTask. apply places_bind. intros s1. eapply hoare_bind; [apply bind_same| |by intros]. intros b.
  apply hoare_pre with (P' := λ _, RqTaskID (bd_req b) = RqTaskID t ∧ True); [|intros s2 H; split; [by apply H|done]].
  apply hoare_fact. intros <-. destruct (bd_schema b); [apply execute_places|apply sendPipelineError_places].
Qed.
End dispatched.

(** The server's dispatcher keeps the task. *)
Lemma DispatchTask_same `{!PeerWorld W} : dispatcher_same (Some DispatchTask).
Proof.
  intros peer req s e req' s'. unfold DispatchTask, mbind, st_bind, gets. cbn [id].
  repeat (case_match; simplify_eq/=; try done; try by intros [= _ <- _]).
Qed.
End flow.

(** The first submission of a task queues it. *)
Lemma SubmitTask_exact_witness :
  let s := engine_with "svc" echo (script [] []) in
  ∃ req, RqTaskID req = "t" ∧ RqService req = "svc" ∧ taskQueue (SubmitTask (task "t" "svc" None) s).2 = [req].
Proof.
  intros s. destruct (SubmitTask_exact (task "t" "svc" None) s (Ok None) (SubmitTask (task "t" "svc" None) s).2)
    as [(e & [=] & _)|[(_ & _ & [[(r & [=] & _)|[r [=]]]|[r [=]]])|(_ & req & Hid & Hsvc & Hq & _)]];
    [apply run_result; vm_compute; reflexivity|].
  by exists req.
Defined.
