(* ===== verification/TaskReturns.v ===== *)
(** * The engine returns

    A run of [processTask] ends without a panic when the task's step index is
    sane and the services return maps; then the task is accounted for
    ([TaskFlow]).  Runs at the end show that each condition matters, and what
    a failover does to the result. *)
From S2P Require Import Prelude GoStrings Json Protocol Pipeline Bolt Journal Tasks TaskStatus TaskStatusLaws.
From S2P Require Import ComputeEngine PipelineRun Escrow TaskRun ComputeSim ComputeLaws TaskFlow.
Local Open Scope stdpp_scope.

Section rules.
Context {W J : Type} `{!ComputeWorld W} `{!TaskJournal J} `{!ComputeWorldLaws W}.
Implicit Types s : ComputeEngine W J.
Abbreviation CE := (CE W J).

(** Services that never return a nil map without an error. *)
Definition services_ok (r : ServiceRegistry W) : Prop :=
  ∀ name h payload w, GetHandler r name = Some h → (Execute h payload w).1 ≠ Ok None.

(** A call that returns, with a result in [φ], and leaves the services alone. *)
Definition yields {A} (m : CE A) (φ : A → Prop) : Prop :=
  ∀ s, services_ok (registry s) → ∃ a s', m s = (Ok a, s') ∧ φ a ∧ registry s' = registry s.

Abbreviation returns m := (yields m (λ _, True)).

Lemma yields_ret {A} (a : A) (φ : A → Prop) : φ a → yields (mret a) φ.
Proof. intros Ha s _. by exists a, s. Qed.

Lemma yields_bind {A B} (m : CE A) (k : A → CE B) φ ψ :
  yields m φ → (∀ a, φ a → yields (k a) ψ) → yields (m ≫= k) ψ.
Proof.
  intros Hm Hk s Hs. destruct (Hm s Hs) as (a & s1 & Hrun & Ha & Hr). unfold mbind, st_bind. rw Hrun.
  destruct (Hk a Ha s1) as (b & s2 & Hrun2 & Hb & Hr2); [by rw Hr|]. exists b, s2. split; [done|]. split; [done|congruence].
Qed.

Lemma yields_gets {B} (k : ComputeEngine W J → CE B) ψ :
  (∀ s, services_ok (registry s) → yields (k s) ψ) → yields (gets id ≫= k) ψ.
Proof. intros Hk s Hs. unfold mbind, st_bind, gets. by apply (Hk s Hs). Qed.

Lemma yields_weaken {A} (m : CE A) (φ ψ : A → Prop) : yields m φ → (∀ a, φ a → ψ a) → yields m ψ.
Proof. intros Hm Hw s Hs. destruct (Hm s Hs) as (a & s1 & ? & ? & ?). exists a, s1. auto. Qed.

Lemma returns_modify f : (∀ s, registry (f s) = registry s) → returns (modify f).
Proof. intros Hf s _. eexists _, _. split; [done|]. split; [done|apply Hf]. Qed.

Lemma returns_onTable f : returns (onTable f).
Proof. by apply returns_modify. Qed.

Lemma returns_onWorld {A} (f : W → A * W) : returns (onWorld f).
Proof. intros s _. unfold onWorld. destruct (f (world s)) as [a w]. by eexists _, _. Qed.

Lemma returns_onJournal f : returns (onJournal f).
Proof. intros s _. unfold onJournal. destruct (f (taskJournal s)) as [a w]. by eexists _, _. Qed.

Lemma returns_set r : returns (ceSetTaskStatus r).
Proof. apply yields_gets. intros s _. apply returns_onTable. Qed.

Lemma returns_checkpoint rec : returns (recordCheckpoint rec).
Proof. apply yields_gets. intros s _. apply returns_onJournal. Qed.

Lemma returns_send o : returns (send o).
Proof. by apply returns_modify. Qed.

Lemma yields_index {A} (l : list A) i : (0 ≤ i < Z.of_nat (length l))%Z → yields (index l i) (λ a, a ∈ l).
Proof.
  intros [Hlo Hhi]. unfold index. rw (proj2 (Z.ltb_ge _ _) Hlo).
  destruct (lookup_lt_is_Some_2 l (Z.to_nat i)) as [a Ha]; [lia|]. rw Ha. apply yields_ret. by eapply list_elem_of_lookup_2.
Qed.

End rules.

Create HintDb returns discriminated.
#[export] Hint Resolve returns_onTable returns_onWorld returns_onJournal returns_set returns_checkpoint returns_send : returns.
#[export] Hint Constants Opaque : returns.

(** Walks a call whose parts all return. *)
Ltac solve_returns :=
  repeat first
    [ progress intros
    | match goal with
      | |- yields (mret _) _ => apply yields_ret; exact I
      | |- yields (gets id ≫= _) _ => apply yields_gets
      | |- yields (modify _) _ => apply returns_modify; done
      | |- yields (_ ≫= _) _ => apply yields_bind with (φ := λ _, True)
      | |- yields (match ?x with _ => _ end) _ => destruct x
      | |- yields (if ?b then _ else _) _ => destruct b
      | |- yields (let '(_, _) := ?p in _) _ => destruct p
      end
    | solve [eauto with returns] ].

Section returns.
Context {W J : Type} `{!ComputeWorld W} `{!TaskJournal J} `{!ComputeWorldLaws W}.
Implicit Types s : ComputeEngine W J.
Abbreviation CE := (CE W J).
Abbreviation yields := (yields (W:=W) (J:=J)).
Abbreviation returns m := (yields m (λ _, True)).

(** ** Choosing and binding *)

Lemma returns_select step i : returns (selectPipelineStepTarget step i).
Proof. unfold selectPipelineStepTarget. solve_returns. Qed.
Hint Resolve returns_select : returns.

(** The step index and the outputs so far are those of [st]. *)
Definition same_progress (st st' : PipelineExecutionState) : Prop :=
  CurrentStep st' = CurrentStep st ∧ StateOutputs st' = StateOutputs st.

Lemma yields_migrateTargets steps i st : yields (migrateTargets steps i st) (same_progress st).
Proof.
  revert i st. induction steps as [|step steps IH]; intros i st; cbn [migrateTargets]; [by apply yields_ret|].
  case_bool_decide; [apply IH|]. case_bool_decide; [eapply yields_weaken; [apply IH|done]|].
  eapply yields_bind; [apply returns_select|]. intros cand _.
  eapply yields_weaken; [apply IH|]. intros st' Hst. destruct cand as [peer|]; [|done]. by case_bool_decide.
Qed.

(** A step index that is not negative and at most [n] (a slice of [2 ^ 44]
    strings can be made), and no nil outputs. *)
Definition step_within (n : Z) (st : PipelineExecutionState) : Prop :=
  (0 ≤ CurrentStep st ≤ n)%Z ∧ ∀ k, gomap_get (StateOutputs st) k ≠ Some None.

Lemma same_within n st st' : same_progress st st' → step_within n st → step_within n st'.
Proof. intros [Hc Ho]. unfold step_within. by rw Hc Ho. Qed.

Definition within (n : Z) (t : TaskRequest) : Prop := ∀ st, RqPipelineState t = Some st → step_within n st.

Lemma yields_migration t st cur target :
  (0 ≤ CurrentStep st ≤ 2 ^ 44)%Z →
  yields (tryDynamicSchemaMigration t st cur target)
    (λ r, same_progress st r.2 ∧ (Steps cur ≠ [] → Steps r.1 ≠ [])).
Proof.
  intros Hst. unfold tryDynamicSchemaMigration.
  destruct (bool_decide (SchemaID cur ≠ SchemaID target)); simpl; [by apply yields_ret|].
  case_bool_decide as Hne; [by apply yields_ret|].
  destruct (negb _); [by apply yields_ret|].
  assert (make_panics (CurrentStep st) = false) as ->.
  { unfold make_panics. apply orb_false_iff. split; apply Z.ltb_ge; lia. }
  destruct (ValidatePrefixMigration _ _ _ _); [|by apply yields_ret].
  eapply yields_bind; [apply yields_migrateTargets|]. intros st' Hst'.
  eapply yields_bind; [apply returns_onTable|]. intros _ _. apply yields_gets. intros s _.
  eapply yields_bind; [apply returns_checkpoint|]. intros _ _. by apply yields_ret.
Qed.

Lemma resolveSnapshot_step s st local cur st' :
  resolveSnapshot s st local = Some (cur, st') → same_progress st st'.
Proof. unfold resolveSnapshot. intros H. repeat (case_match; simplify_eq/=; try done). Qed.

Lemma yields_bind_state n t local :
  (0 ≤ n ≤ 2 ^ 44)%Z → within n t →
  yields (bindPipelineState t local)
    (λ b, within n (bd_req b) ∧ ∀ st, bd_shared b = Some st → step_within n st).
Proof.
  intros Hn Hw. unfold bindPipelineState. destruct (RqPipelineState t) as [st|] eqn:Ht.
  2: { apply yields_ret. split; [|done]. intros st [= <-]. split; [simpl; lia|]. intros k. simpl. by rw lookup_empty. }
  assert (∀ st', same_progress st st' → ∀ e, within n (with_state (Some st') t) ∧
    ∀ st'', bd_shared {| bd_schema := Err e; bd_req := with_state (Some st') t; bd_shared := Some st' |} = Some st'' →
      step_within n st'') as Hrefuse.
  { intros st' Heq e. assert (step_within n st') by (eapply same_within; [done|by apply Hw]).
    split; by intros st'' [= <-]. }
  case_bool_decide; [by apply yields_ret, Hrefuse|]. apply yields_gets. intros s _.
  destruct (resolveSnapshot s st local) as [[cur st1]|] eqn:Hres; [|by apply yields_ret, Hrefuse].
  apply resolveSnapshot_step in Hres.
  pose proof (same_within n st st1 Hres (Hw st Ht)) as [Hw1 _].
  eapply yields_bind; [apply yields_migration; lia|].
  intros [exec st2] [Hst2 _]. simpl in Hst2.
  assert (same_progress st st2) as Heq by (destruct Hres, Hst2; split; congruence).
  destruct (Z.ltb_spec (Z.of_nat (length (Steps exec))) (CurrentStep st2)); [by apply yields_ret, Hrefuse|].
  eapply yields_bind with (φ := λ _, True).
  { destruct (Z.ltb_spec 0 (CurrentStep st2)); simpl; [|by apply yields_ret].
    case_bool_decide; [|by apply yields_ret].
    eapply yields_bind; [apply yields_index; lia|]. intros prev _. by apply yields_ret. }
  intros prov _. destruct prov; simpl; apply yields_ret; [|by apply Hrefuse].
  assert (step_within n st2) as Hw2 by (eapply same_within; [done|by apply Hw]). split; by intros st'' [= <-].
Qed.

Lemma returns_enqueue req : returns (enqueue req).
Proof. unfold enqueue. solve_returns. Qed.
Hint Resolve returns_enqueue : returns.

Lemma returns_SubmitTask req : returns (SubmitTask req).
Proof.
  unfold SubmitTask. case_bool_decide; [by apply yields_ret|]. apply yields_gets. intros s _.
  set (req1 := if bool_decide _ then _ else _). destruct (RqPipelineState req1) eqn:Hst; [apply returns_enqueue|].
  eapply yields_bind with (φ := λ _, True); [|solve_returns].
  unfold BindPipelineTask. apply yields_gets. intros s' _. destruct (pipelineFor _ _ _); [|by apply yields_ret].
  eapply yields_bind; [apply (yields_bind_state 0); [lia|intros st Hs; congruence]|]. intros b _. by apply yields_ret.
Qed.
Hint Resolve returns_SubmitTask : returns.

(** ** Errors and escrow *)

Lemma returns_failedStepID st : returns (failedStepID st).
Proof.
  unfold failedStepID. destruct (Snapshot st) as [snap|]; [|by apply yields_ret].
  destruct (Z.ltb_spec 0 (CurrentStep st)); simpl; [|by apply yields_ret].
  destruct (Z.ltb_spec (CurrentStep st - 1) (Z.of_nat (length (Steps snap)))); [|by apply yields_ret].
  eapply yields_bind; [apply yields_index; lia|]. intros prev _. by apply yields_ret.
Qed.
Hint Resolve returns_failedStepID : returns.

Lemma returns_answer replyTo response : returns (answer replyTo response).
Proof. unfold answer. solve_returns. Qed.
Hint Resolve returns_answer : returns.

Lemma returns_sendPipelineError t err : returns (sendPipelineError t err).
Proof. unfold sendPipelineError. solve_returns. Qed.
Hint Resolve returns_sendPipelineError : returns.

Lemma returns_PutTaskInEscrow req : returns (PutTaskInEscrow req).
Proof. unfold PutTaskInEscrow. solve_returns. Qed.
Hint Resolve returns_PutTaskInEscrow : returns.

Lemma returns_escalate t step i cause : returns (escalateToEscrow t step i cause).
Proof. unfold escalateToEscrow, dispatchEscrow. solve_returns. Qed.
Hint Resolve returns_escalate : returns.

(** ** Routing *)

(** A dispatcher that returns on sane tasks and leaves them sane. *)
Definition dispatcher_returns (d : TaskDispatcher W J) : Prop :=
  match d with
  | Some dispatch => ∀ peer req, within (2 ^ 44) req → yields (dispatch peer req) (λ r, within (2 ^ 44) r.2)
  | None => True
  end.

Section routing.
Context (d : TaskDispatcher W J) (Hd : dispatcher_returns d).

Lemma within_select stepID target t : within (2 ^ 44) t → within (2 ^ 44) (with_state (select_target stepID target <$> RqPipelineState t) t).
Proof. intros Hw st. simpl. destruct (RqPipelineState t) as [st0|] eqn:Ht; [|done]. intros [= <-]. apply (Hw st0 Ht). Qed.

Lemma yields_attemptOn t step target :
  within (2 ^ 44) t → yields (attemptOn d t step target) (λ r, within (2 ^ 44) r.2).
Proof.
  intros Hw. unfold attemptOn. apply yields_gets. intros s _.
  set (t1 := with_producer _ _). assert (within (2 ^ 44) t1) as Hw1 by (by apply (within_select (StepID step) target t)).
  case_bool_decide.
  - eapply yields_bind; [apply returns_onTable|]. intros _ _. eapply yields_bind; [apply returns_SubmitTask|].
    intros e _. by apply yields_ret.
  - destruct d as [dispatch|]; [|by apply yields_ret].
    eapply yields_bind; [by apply Hd|]. intros [[e|] t2] Ht2; simpl; [by apply yields_ret|].
    eapply yields_bind; [apply returns_send|]. intros _ _. eapply yields_bind; [apply returns_onTable|].
    intros _ _. by apply yields_ret.
Qed.

Lemma yields_failover n t step i tried target :
  within (2 ^ 44) t → yields (failover d n t step i tried target) (λ r, within (2 ^ 44) r.2).
Proof.
  revert t tried target. induction n as [|n IH]; intros t tried target Hw; cbn [failover]; [by apply yields_ret|].
  apply yields_gets. intros s _. destruct (_ && _); [by apply yields_ret|].
  eapply yields_bind; [by apply yields_attemptOn|]. intros [[e|] t'] Ht'; simpl; [|by apply yields_ret].
  eapply yields_bind with (φ := λ _, True); [unfold alternative; solve_returns|]. intros alt _.
  case_bool_decide; [by apply yields_ret|]. eapply yields_bind; [apply returns_onTable|]. intros _ _. by apply IH.
Qed.

Lemma returns_route t step : within (2 ^ 44) t → returns (routePipelineStep d t step).
Proof.
  intros Hw. assert (∀ i target t', within (2 ^ 44) t' → returns (routeTo d t' step i target)) as Hto.
  { intros i target t' Hw'. unfold routeTo, dispatchStepWithFailover.
    eapply yields_bind with (φ := λ _, True); [solve_returns; by apply returns_onTable|]. intros _ _.
    eapply yields_bind with (φ := λ _, True); [|solve_returns].
    eapply yields_bind with (φ := λ _, True); [solve_returns; by apply returns_onTable|]. intros _ _.
    eapply yields_bind; [by apply yields_failover|]. intros [o t''] _. solve_returns. }
  unfold routePipelineStep. case_bool_decide; [by apply Hto|].
  eapply yields_bind; [apply returns_select|]. intros target _. apply yields_gets. intros s _.
  destruct target as [peer|e]; [by apply Hto, within_select|]. case_bool_decide; [by apply Hto, within_select|].
  solve_returns.
Qed.

(** ** Running *)

Lemma returns_complete t st sch :
  Steps sch ≠ [] → (∀ k, gomap_get (StateOutputs st) k ≠ Some None) → returns (completePipeline t st sch).
Proof.
  intros Hne Hout. unfold completePipeline.
  eapply yields_bind; [apply yields_index; destruct (Steps sch); simpl in *; [done|lia]|]. intros final _.
  eapply yields_bind with (φ := λ _, True).
  { unfold finalOutputs. specialize (Hout (StepID final)).
    destruct (gomap_get (StateOutputs st) (StepID final)) as [[out|]|]; [by apply yields_ret|done|by apply yields_ret]. }
  solve_returns.
Qed.

Lemma returns_advance t st sch :
  Steps sch ≠ [] → step_within (2 ^ 44) st → returns (advancePipeline d t st sch).
Proof.
  intros Hne [Hc Hout]. unfold advancePipeline. apply yields_gets. intros s _.
  eapply yields_bind with (φ := λ r, same_progress st r.2 ∧ (Steps sch ≠ [] → Steps r.1 ≠ [])).
  { destruct (GetPipeline s (RqService t)); [by apply yields_migration|by apply yields_ret]. }
  intros [sch' st'] [Hsame Hne']. simpl in *.
  pose proof (same_within (2 ^ 44) st st' Hsame (conj Hc Hout)) as Hw'.
  destruct (Z.ltb_spec (CurrentStep st') (Z.of_nat (length (Steps sch')))).
  - eapply yields_bind; [apply yields_index; destruct Hw'; lia|]. intros next _. apply returns_route.
    by intros st'' [= <-].
  - apply returns_complete; [by apply Hne'|apply Hw'].
Qed.

Lemma returns_resolveVFS resolver requester producers l payload :
  returns (resolveVFS resolver requester producers l payload).
Proof.
  revert payload. induction l as [|[k []] l IH]; intros payload; cbn [resolveVFS]; solve_returns.
Qed.
Hint Resolve returns_resolveVFS : returns.

(** A service that returns maps leaves a map. *)
Lemma yields_runHandler t step h payload producers :
  (∀ p w, (Execute h p w).1 ≠ Ok None) →
  yields (runHandler t step h payload producers) (λ r, r ≠ Ok None).
Proof.
  intros Hh. unfold runHandler.
  eapply yields_bind with (φ := λ _, True); [unfold resolveInputs; solve_returns|].
  intros [p|e] _; [|by apply yields_ret]. apply yields_gets. intros s _.
  destruct (ValidatePayload _ _ _ _ _); [|by apply yields_ret].
  eapply yields_bind with (φ := λ r, r ≠ Ok None).
  { intros s1 _. unfold onWorld. specialize (Hh p (world s1)). destruct (Execute h p (world s1)) as [r w]. by eexists _, _. }
  intros [[m|]|e] Hr; [|done|by apply yields_ret]. unfold stageOutputBlobs.
  eapply yields_bind with (φ := λ r, r.2 ≠ None).
  { eapply yields_bind; [apply returns_onWorld|]. intros [e' m'] _. by apply yields_ret. }
  intros [[e'|] o] Ho; simpl in *; apply yields_ret; [done|]. by intros [= ->].
Qed.

Lemma returns_stepInputs t st sch step :
  (0 ≤ CurrentStep st < Z.of_nat (length (Steps sch)))%Z → returns (stepInputs t st sch step).
Proof.
  intros Hc. unfold stepInputs. destruct (filter _ _); [|by apply yields_ret].
  destruct (Z.eqb_spec (CurrentStep st) 0); [by apply yields_ret|].
  eapply yields_bind; [apply yields_index; lia|]. intros prev _. solve_returns.
Qed.

Lemma returns_execute t sch :
  within (2 ^ 44 - 1) t → returns (executePipelineStep d t sch).
Proof.
  intros Hw. unfold executePipelineStep. destruct (RqPipelineState t) as [st|] eqn:Ht; [|apply returns_sendPipelineError].
  destruct (Hw st Ht) as [Hc Hout]. set (st1 := st_outputs _ st).
  assert (step_within (2 ^ 44 - 1) st1) as [Hc1 Hout1].
  { split; [done|]. intros k. specialize (Hout k). simpl. by destruct (StateOutputs st); [|simpl; rw lookup_empty]. }
  assert (within (2 ^ 44) (with_state (Some st1) t)) as Hw1 by (intros st' [= <-]; split; [simpl in *; lia|done]).
  destruct (Z.ltb_spec (CurrentStep st1) 0); cbn [orb]; [apply returns_sendPipelineError|].
  destruct (Z.leb_spec (Z.of_nat (length (Steps sch))) (CurrentStep st1)); [apply returns_sendPipelineError|].
  eapply yields_bind; [by apply yields_index|]. intros step Hstep. apply yields_gets. intros s Hs.
  destruct (GetHandler (registry s) (StepService step)) as [h|] eqn:Hh; [|by apply returns_route].
  destruct (runsHere s st1 step); [|by apply returns_route]. unfold executeLocally.
  eapply yields_bind; [by apply returns_stepInputs|]. intros inputs _.
  eapply yields_bind; [apply yields_runHandler; intros p w; by apply (Hs (StepService step))|].
  intros [[o|]|e] Hr; [|done|apply returns_sendPipelineError]. apply yields_gets. intros s1 _.
  do 2 (eapply yields_bind; [auto with returns|]; intros _ _). apply returns_advance.
  - by destruct (Steps sch); [apply elem_of_nil in Hstep|].
  - split; [simpl in *; lia|]. intros k. unfold stepDone. simpl. rw lookup_insert.
    destruct (decide _); [done|]. apply Hout1.
Qed.

Lemma returns_processTask t : within (2 ^ 44 - 1) t → returns (processTask d t).
Proof.
  intros Hw. unfold processTask. apply yields_gets. intros s _.
  eapply yields_bind; [apply (yields_bind_state (2 ^ 44 - 1)); [lia|exact Hw]|]. intros b [Hb _].
  destruct (bd_schema b); [by apply returns_execute|apply returns_sendPipelineError].
Qed.
End routing.

(** ** The server's dispatcher *)

Lemma returns_prepareTargets steps i st : yields (prepareTargets steps i st) (λ r, same_progress st r.2).
Proof.
  revert i st. induction steps as [|step steps IH]; intros i st; cbn [prepareTargets]; [by apply yields_ret|].
  case_bool_decide; [apply IH|]. eapply yields_bind; [apply returns_select|]. intros [peer|e] _.
  - eapply yields_weaken; [apply IH|done].
  - destruct (_ <? _)%Z; [apply IH|by apply yields_ret].
Qed.

Lemma yields_prepare n req : within n req → yields (PreparePipelineTargets req) (λ r, within n r.2).
Proof.
  intros Hw. unfold PreparePipelineTargets. destruct (RqPipelineState req) as [st|] eqn:Hst; [|by apply yields_ret].
  apply yields_gets. intros s _. destruct (pipelineFor _ _ _) as [sch|]; [|by apply yields_ret].
  eapply yields_bind; [apply returns_prepareTargets|]. intros r Hr. apply yields_ret. intros st' [= <-].
  eapply same_within; [exact Hr|]. apply (Hw st Hst).
Qed.

Lemma yields_BindPipelineTask n req :
  (0 ≤ n ≤ 2 ^ 44)%Z → within n req →
  yields (BindPipelineTask req) (λ r, within n (bd_req r.2) ∧ ∀ st, bd_shared r.2 = Some st → step_within n st).
Proof.
  intros Hn Hw. unfold BindPipelineTask. apply yields_gets. intros s _.
  destruct (pipelineFor _ _ _) as [sch|]; [|by apply yields_ret].
  eapply yields_bind; [by apply yields_bind_state|]. intros b Hb. by apply yields_ret.
Qed.

Lemma yields_BindPipelineStepTarget n req peer :
  within n req → yields (BindPipelineStepTarget req peer) (λ r, within n r.2).
Proof.
  intros Hw. unfold BindPipelineStepTarget. destruct (RqPipelineState req) as [st|] eqn:Hst; [|by apply yields_ret].
  apply yields_gets. intros s _. destruct (pipelineFor _ _ _) as [sch|]; [|by apply yields_ret].
  destruct (Z.ltb_spec (CurrentStep st) 0); simpl; [by apply yields_ret|].
  destruct (Z.leb_spec (Z.of_nat (length (Steps sch))) (CurrentStep st)); [by apply yields_ret|].
  case_bool_decide; [by apply yields_ret|]. eapply yields_bind; [by apply yields_index|]. intros step _.
  destruct (_ && _); apply yields_ret; intros st' [= <-]; apply (Hw st Hst).
Qed.

Lemma returns_checkContinuation `{!PeerWorld W} peer req : returns (checkContinuation peer req).
Proof.
  unfold checkContinuation. destruct (RqPipelineState req) as [st|]; [|by apply yields_ret].
  destruct (Z.ltb_spec 0 (CurrentStep st)); simpl; [|by apply yields_ret].
  apply yields_gets. intros s _. destruct (pipelineFor _ _ _) as [sch|]; [|by apply yields_ret].
  destruct (Z.leb_spec (Z.of_nat (length (Steps sch))) (CurrentStep st)); [by apply yields_ret|].
  eapply yields_bind; [apply yields_index; lia|]. intros step _. solve_returns.
Qed.

Lemma returns_register req : returns (ceRegisterOutgoingTask req).
Proof. apply yields_gets. intros s _. apply returns_onTable. Qed.

Lemma DispatchTask_returns `{!PeerWorld W} : dispatcher_returns (Some DispatchTask).
Proof.
  intros peer req Hw. unfold DispatchTask. apply yields_gets. intros s _.
  eapply yields_bind; [by apply (yields_BindPipelineTask (2 ^ 44)); [lia|]|]. intros [[e|] b] [Hb Hsh]; cbn [fst snd].
  { apply yields_ret. intros st Hst. by apply Hsh. }
  assert (∀ p, within (2 ^ 44) (with_payload p (with_state (bd_shared b) req))) as Hseen by (intros p st Hst; by apply Hsh).
  eapply yields_bind; [by apply yields_BindPipelineStepTarget|]. intros [[e|] bt] Hbt; cbn [fst snd]; [by apply yields_ret|].
  eapply yields_bind with (φ := λ _, True); [unfold stagePayload; solve_returns|].
  intros [[e|] p] _; cbn [fst snd]; [by apply yields_ret|].
  eapply yields_bind; [apply returns_checkContinuation|]. intros [e|] _; [by apply yields_ret|].
  eapply yields_bind with (φ := λ _, True); [|intros e _; by apply yields_ret].
  case_bool_decide; [apply returns_onWorld|]. unfold submitTrackedTask.
  eapply yields_bind; [apply (yields_prepare (2 ^ 44)); exact Hbt|]. intros [[e|] r] _; cbn [fst snd]; [by apply yields_ret|].
  eapply yields_bind; [apply returns_register|]. intros _ _. eapply yields_bind; [apply returns_onWorld|].
  intros [e|] _; [|by apply yields_ret]. eapply yields_bind; [apply returns_set|]. intros _ _. by apply yields_ret.
Qed.

(** C3: no task is lost.  For a task with a sane step index and no nil
    outputs, on services that return maps, processing ends, and then the task
    is queued again, was accepted by another node in this very call, is in
    escrow here or at its coordinator, or is settled with a recorded result;
    whatever the services, the cluster and the journal answer. *)
Theorem processTask_places `{!PeerWorld W} t s :
  services_ok (registry s) → within (2 ^ 44 - 1) t →
  ∃ s', processTask (Some DispatchTask) t (fresh_log s) = (Ok (), s') ∧ accounted s' (RqTaskID t).
Proof.
  intros Hs Hw. destruct (returns_processTask _ DispatchTask_returns t Hw (fresh_log s) Hs) as ([] & s' & Hrun & _ & _).
  exists s'. split; [done|]. by apply (processTask_accounted _ DispatchTask_same t (fresh_log s) (Ok ()) s').
Qed.
End returns.

(** ** Runs in the scripted world *)

Lemma echo_ok name w : services_ok (registry (engine_with name echo w)).
Proof.
  intros n h payload w'. unfold engine_with, RegisterNewService, Register. simpl. rw lookup_empty. simpl.
  unfold GetHandler. destruct (decide (n = name)) as [->|Hne].
  - rw lookup_insert_eq. by intros [= <-].
  - rw lookup_insert_ne; [|done]. by rw lookup_empty.
Qed.

(** A task on a local service runs to its result. *)
Lemma processTask_places_witness :
  ∃ s', processTask (Some DispatchTask) (task "t" "svc" None) (fresh_log (engine_with "svc" echo (script [] []))) = (Ok (), s') ∧
    accounted s' "t".
Proof. apply (processTask_places (task "t" "svc" None) (engine_with "svc" echo (script [] []))); [apply echo_ok|done]. Defined.

(** A task of the first revision of a pipeline. *)
Definition oldRun (currentStep : Z) : PipelineExecutionState :=
  {| PipelineID := "p"; PipelineVersion := 1; SchemaHash := "p@1"; CurrentStep := currentStep; StateOutputs := Some ∅;
     OutputProducers := None; SelectedTargets := None; Snapshot := Some (pipeline 1 [step "a" "svc"]) |}.

Definition upgraded : ComputeEngine sim unit :=
  (RegisterPipeline (pipeline 2 [step "a" "svc"]) (engine_with "svc" echo (script [] []))).2.

(** Both conditions of [processTask_places] are needed, and nothing checks
    them.  A service that returns a nil map without an error, as a webhook that
    answers JSON null does, and a task with a negative step index that carries
    an older revision of a pipeline than the registered one, as any peer may
    submit, crash the node: the one by a write into the nil map, the other by
    making a slice of negative capacity. *)
Theorem worker_panics :
  (processTask (Some DispatchTask) (task "t" "svc" None) (engine_with "svc" silent (script [] []))).1 =
    Err (EPanic "assignment to entry in nil map") ∧
  (processTask (Some DispatchTask) (task "t" "p" (Some (oldRun (-1)))) upgraded).1 =
    Err (EPanic "makeslice: cap out of range").
Proof. split; vm_compute; reflexivity. Qed.

(** ** Failover and callbacks *)

Definition completedBy (id producer : string) : ServiceTaskResponse :=
  {| RsTaskID := id; RsService := "far"; RsStatus := "completed"; RsError := ""; RsOutputs := Some ∅;
     RsProducerNodeID := producer; RsPipelineState := None |}.

(** The requester's engine after it offered a task to [a], which refused, and
    then to [b], which took it. *)
Definition failedOver : ComputeEngine sim unit :=
  (processTask (Some DispatchTask) (task "t" "far" None)
     (engine_with "svc" echo (script ["a"; "b"] [Some (EMsg "down"); None]))).2.

(** A failover at the requester loses the result.  When the first node
    refuses a task, the dispatcher records it as failed; a second node then
    accepts it, and its completed result is refused because failed is final. *)
Theorem failover_result_refused :
  (∃ req, Dispatched "b" req ∈ sent failedOver ∧ RqTaskID req = "t") ∧
  (AcceptTaskCallback "b" (completedBy "t" "b") failedOver).1 = Ok (Some (ESentinel ErrTaskDone)) ∧
  (RsStatus <$> taskStatuses (table (AcceptTaskCallback "b" (completedBy "t" "b") failedOver).2) !! "t") = Some "failed".
Proof.
  split; [|split; vm_compute; reflexivity].
  destruct (sent failedOver) as [|[peer req|? ?|? ?] l] eqn:Hs; try (exfalso; revert Hs; vm_compute; discriminate).
  assert (peer = "b" ∧ RqTaskID req = "t") as [-> Hid] by (revert Hs; vm_compute; by intros [= <- <- _]).
  exists req. split; [by left|done].
Qed.
