(* ===== verification/EngineRuns.v ===== *)
(** * Runs of the compute engine

    The engine's public operations as data, and what holds of every run of
    them from a new engine, whatever the clients, the peers, the services and
    the journal do in between: the status table and the queue stay within
    their capacities, and a task that failed stays failed until its record is
    dropped. *)
From S2P Require Import Prelude GoStrings Json Protocol Pipeline Bolt Journal Tasks TaskStatus TaskStatusLaws.
From S2P Require Import ComputeEngine PipelineRun Escrow TaskRun ComputeSim ComputeLaws.
Local Open Scope stdpp_scope.

Section runs.
Context {W J : Type} `{!ComputeWorld W} `{!TaskJournal J} `{!PeerWorld W}.
Implicit Types s : ComputeEngine W J.

(** ** Operations *)

Inductive engine_op :=
  | OSubmit (req : TaskRequest)
  | OWork
  | ODispatch (peer : string) (req : TaskRequest)
  | OCallback (producer : string) (r : ServiceTaskResponse)
  | ORecord (r : ServiceTaskResponse)
  | OMarkFailed (req : TaskRequest) (reason : string)
  | OEscrow (req : TaskEscrowRequest)
  | ORestore (task : TaskRecord)
  | OResume (id : string)
  | OWakeup
  | OGet (id : string)
  | OGetAll
  | OPipeline (sch : PipelineSchema)
  | OService (sch : ServiceSchema) (h : ServiceHandler W)
  | OClearServices
  | OClose
  | OEnvironment (f : W → W).

(** The engine of a server: its dispatcher is [DispatchTask]. *)
Abbreviation theDispatcher := (Some DispatchTask : TaskDispatcher W J).

Definition engine_call (o : engine_op) : CE W J unit :=
  match o with
  | OSubmit req => SubmitTask req;; mret ()
  | OWork => serviceWorker theDispatcher
  | ODispatch peer req => DispatchTask peer req;; mret ()
  | OCallback producer r => AcceptTaskCallback producer r;; mret ()
  | ORecord r => RecordTaskResponse r
  | OMarkFailed req reason => MarkTaskAsFailed req reason
  | OEscrow req => PutTaskInEscrow req;; mret ()
  | ORestore task => RestoreEscrowTask task
  | OResume id => ResumeEscrowTask theDispatcher id;; mret ()
  | OWakeup => WakeupEscrowTasks theDispatcher;; mret ()
  | OGet id => ceGetTaskResponse id;; mret ()
  | OGetAll => ceGetAllTaskStatuses;; mret ()
  | OPipeline sch => RegisterPipeline sch;; mret ()
  | OService sch h => RegisterNewService sch h;; mret ()
  | OClearServices => ClearServices
  | OClose => Close
  | OEnvironment f => modify (λ s, set_world (f (world s)) s)
  end.

(** A run; a panic ends it. *)
Fixpoint engine_run (ops : list engine_op) s : ComputeEngine W J :=
  match ops with
  | [] => s
  | o :: rest => match engine_call o s with (Ok _, s') => engine_run rest s' | (Err _, s') => s' end
  end.

Context `{!ComputeWorldLaws W}.

Section closed.
Context (P : StatusTable → list TaskRequest → Prop) (HP : table_closed P).
Abbreviation keeps m := (preserves (λ s : ComputeEngine W J, P (table s) (taskQueue s)) m).

Lemma keeps_dispatcher : dispatcher_keeps P theDispatcher.
Proof. intros peer req. by apply keeps_DispatchTask. Qed.

Lemma keeps_wakeup ids n : keeps (wakeup theDispatcher ids n).
Proof.
  revert n. induction ids as [|id ids IH]; intros n; cbn [wakeup]; [apply preserves_ret|].
  apply preserves_bind; [apply keeps_Resume; [done|apply keeps_dispatcher]|]. intros e. apply IH.
Qed.

Lemma keeps_ApplyPipelineRevision sch : keeps (RegisterPipeline sch).
Proof.
  unfold RegisterPipeline, ApplyPipelineRevision. destruct (ValidatePipelineSchema _ _); [|apply preserves_ret].
  apply keeps_gets. intros s. case_match; [|apply preserves_ret]. apply preserves_bind; [apply preserves_ret|].
  intros [e|]; [apply preserves_ret|]. do 2 (apply preserves_bind; [by apply keeps_modify|]; intros ?). apply preserves_ret.
Qed.

Lemma keeps_then {A} (m : CE W J A) : keeps m → keeps (m;; mret ()).
Proof. intros Hm. apply preserves_bind; [done|]. intros a. apply preserves_ret. Qed.

Lemma keeps_call o : keeps (engine_call o).
Proof.
  destruct o; cbn [engine_call]; try apply keeps_then.
  - by apply keeps_SubmitTask.
  - by apply keeps_serviceWorker, keeps_dispatcher.
  - by apply keeps_DispatchTask.
  - by apply keeps_AcceptTaskCallback.
  - by apply keeps_RecordTaskResponse.
  - by apply keeps_set.
  - by apply keeps_PutTaskInEscrow.
  - by apply keeps_RestoreEscrowTask.
  - apply keeps_Resume; [done|apply keeps_dispatcher].
  - apply preserves_bind; [apply preserves_gets|]. intros s. apply keeps_wakeup.
  - by apply keeps_get.
  - by apply keeps_all.
  - apply keeps_ApplyPipelineRevision.
  - intros s r s' Hs. unfold RegisterNewService. destruct (Register _ _ _) as [[]]; by intros [= <- <-].
  - by apply keeps_modify.
  - by apply keeps_Close.
  - by apply keeps_modify.
Qed.

Lemma engine_run_closed ops s : P (table s) (taskQueue s) → P (table (engine_run ops s)) (taskQueue (engine_run ops s)).
Proof.
  revert s. induction ops as [|o ops IH]; intros s Hs; simpl; [done|].
  destruct (engine_call o s) as [[u|e] s'] eqn:Hrun; [apply IH|]; by apply (keeps_call o s _ _ Hs Hrun).
Qed.
End closed.

(** ** Capacities *)

Definition within_capacity (tb : StatusTable) (q : list TaskRequest) : Prop :=
  taskStatusLimit tb = 100%Z ∧ bounded tb ∧ (length q ≤ taskQueueCap)%nat.

Lemma prune_limit order now p tb :
  (∀ V l, order V l ≡ₚ l) → taskStatusLimit (pruneTaskStatusesLocked order now p tb) = taskStatusLimit tb.
Proof. intros Ho. by apply ev_limit, prune_spec. Qed.

Lemma set_limit order now cl r tb :
  (∀ V l, order V l ≡ₚ l) → taskStatusLimit (setTaskStatus order now cl r tb) = taskStatusLimit tb.
Proof.
  intros Ho. destruct (set_cases order now cl r tb) as [[-> _]|(_ & _ & ->)]; [done|].
  unfold storeTaskStatusLocked. rw prune_limit; [|done]. simpl. by destruct (terminal _).
Qed.

Lemma register_limit order now sch req tb :
  (∀ V l, order V l ≡ₚ l) → taskStatusLimit (RegisterOutgoingTask order now sch req tb) = taskStatusLimit tb.
Proof. intros Ho. unfold RegisterOutgoingTask. case_match; [done|]. by rw prune_limit. Qed.

Lemma get_limit order now id tb :
  (∀ V l, order V l ≡ₚ l) → taskStatusLimit (GetTaskResponse order now id tb).2 = taskStatusLimit tb.
Proof. intros Ho. rw -(prune_limit order now id tb Ho). unfold GetTaskResponse. by repeat case_match. Qed.

Lemma capacity_closed : table_closed within_capacity.
Proof.
  split.
  - intros order now r tb q Ho _ (Hl & Hb & Hq). split; [|split; [by apply store_bounded|done]].
    unfold storeTaskStatusLocked. by rw prune_limit.
  - intros order now cl r tb q Ho (Hl & Hb & Hq). split; [by rw set_limit|]. split; [by apply set_bounded|done].
  - intros order now sch req tb q Ho (Hl & Hb & Hq). split; [by rw register_limit|]. split; [by apply register_bounded|done].
  - intros order now id tb q Ho (Hl & Hb & Hq). split; [by rw get_limit|]. split; [by apply get_bounded|done].
  - intros order now tb q Ho (Hl & Hb & Hq). split; [by simpl; rw prune_limit|]. split; [by apply all_bounded|done].
  - by intros f tb q.
  - by intros f tb q.
  - intros req tb q Hlen (Hl & Hb & Hq). split; [done|]. split; [done|]. rw length_app. simpl. lia.
  - intros req tb q (Hl & Hb & Hq). split; [done|]. split; [done|]. simpl in Hq. lia.
Qed.

(** C17: the engine's memory of tasks is bounded.  After any run of a new
    engine it holds at most a hundred statuses and a hundred given-up tasks,
    and at most ten tasks queue. *)
Theorem engine_within_capacity ops id j w :
  let s := engine_run ops (NewComputeEngine id j w) in
  (size (taskStatuses (table s)) ≤ 100)%nat ∧ (size (retiredTaskStatuses (table s)) ≤ 100)%nat ∧
  (length (taskQueue s) ≤ taskQueueCap)%nat.
Proof.
  intros s. destruct (engine_run_closed within_capacity capacity_closed ops (NewComputeEngine id j w)) as (Hl & Hb & Hq).
  { split; [done|]. split; [done|]. simpl. lia. }
  destruct Hb as [Hs Hr]; [by rw Hl|]. rw Hl in Hs, Hr. fold s in Hs, Hr, Hq. lia.
Qed.

(** ** Failed tasks *)

(** One change of the status table, made while its mutex is held. *)
Inductive table_step tb : StatusTable → Prop :=
  | TSet order now cl r : (∀ V l, order V l ≡ₚ l) → table_step tb (setTaskStatus order now cl r tb)
  | TStore order now r : (∀ V l, order V l ≡ₚ l) → unfailed tb (RsTaskID r) →
      table_step tb (storeTaskStatusLocked order now r tb)
  | TRegister order now sch req : (∀ V l, order V l ≡ₚ l) → table_step tb (RegisterOutgoingTask order now sch req tb)
  | TGet order now id : (∀ V l, order V l ≡ₚ l) → table_step tb (GetTaskResponse order now id tb).2
  | TAll order now : (∀ V l, order V l ≡ₚ l) → table_step tb (GetAllTaskStatuses order now tb).2
  | TMeta f : table_step tb (with_meta f tb)
  | TAccepted f : table_step tb (with_accepted f tb).

Lemma steps_closed tb0 : table_closed (λ tb _, rtc table_step tb0 tb).
Proof.
  split; [intros order now r tb q Ho Hun H|intros order now cl r tb q Ho H|intros order now sch req tb q Ho H
    |intros order now id tb q Ho H|intros order now tb q Ho H|intros f tb q H|intros f tb q H|by intros|by intros];
    (eapply rtc_r; [exact H|]); [by apply TStore|by apply TSet|by apply TRegister|by apply TGet|by apply TAll|by apply TMeta|by apply TAccepted].
Qed.

(** A failed status [r] of [id], or none. *)
Definition failed_or_dropped (id : string) (r : ServiceTaskResponse) tb : Prop :=
  taskStatuses tb !! id = Some r ∨ taskStatuses tb !! id = None.

Lemma evolves_failed id r tb tb' :
  evolves tb tb' → taskStatuses tb !! id = Some r → failed_or_dropped id r tb'.
Proof. intros Hev Hr. destruct (ev_status _ _ Hev id) as [Heq|Heq]; [left; by rw Heq|by right]. Qed.

Lemma table_step_failed id r tb tb' :
  RsStatus r = "failed" → table_step tb tb' → taskStatuses tb !! id = Some r → failed_or_dropped id r tb'.
Proof.
  intros Hf Hstep Hr. destruct Hstep as [order now cl r' Ho|order now r' Ho Hun|order now sch req Ho|order now i Ho|order now Ho|f|f].
  - destruct (set_cases order now cl r' tb) as [[-> _]|(_ & Hnt & ->)]; [by left|].
    destruct (decide (id = RsTaskID r')) as [->|Hne].
    { specialize (Hnt r Hr). unfold terminal in Hnt. by rw Hf in Hnt. }
    set (r'' := if cl then _ else _). assert (RsTaskID r'' = RsTaskID r') as Hid by (unfold r''; by destruct cl).
    destruct (store_other order now Ho r'' (if terminal r'' then acceptedDelete (RsTaskID r') tb else tb) id) as [Heq|Heq];
      [by rw Hid|left|by right]. rw Heq. by destruct (terminal r'').
  - destruct (decide (id = RsTaskID r')) as [->|Hne]; [by destruct (Hun r Hr)|].
    destruct (store_other order now Ho r' tb id Hne) as [Heq|Heq]; [left; by rw Heq|by right].
  - unfold RegisterOutgoingTask. destruct (taskStatuses tb !! RqTaskID req) eqn:Hq; [by left|].
    eapply evolves_failed; [by apply prune_spec|]. simpl. by rw lookup_insert_ne; [|intros Heq; rw Heq in Hq; congruence].
  - destruct (evolves_failed id r tb (pruneTaskStatusesLocked order now i tb)) as [Heq|Heq]; [by apply prune_spec|done|left|right];
      unfold GetTaskResponse; repeat case_match; done.
  - eapply evolves_failed; [by apply prune_spec|done].
  - by left.
  - by left.
Qed.

(** A failure is final.  In any run from any state, a task whose status is
    failed has that very response at the end, or at some moment its record
    had been dropped; no callback, result, retry or shutdown replaces it. *)
Theorem failed_task_final ops s id r :
  taskStatuses (table s) !! id = Some r → RsStatus r = "failed" →
  taskStatuses (table (engine_run ops s)) !! id = Some r ∨
  ∃ tb, rtc table_step (table s) tb ∧ taskStatuses tb !! id = None ∧ rtc table_step tb (table (engine_run ops s)).
Proof.
  intros Hr Hf.
  pose proof (engine_run_closed _ (steps_closed (table s)) ops s (rtc_refl _ _)) as Hrun. simpl in Hrun.
  revert Hrun Hr. generalize (table s) (table (engine_run ops s)). intros tb0 tb'.
  induction 1 as [|tb tb1 tb' Hstep Hrest IH]; intros Hr; [by left|].
  destruct (table_step_failed id r tb tb1 Hf Hstep Hr) as [Hk|Hd].
  - destruct (IH Hk) as [?|(mid & H1 & H2 & H3)]; [by left|]. right. exists mid. split; [by eapply rtc_l|done].
  - right. exists tb1. split; [by apply rtc_once|done].
Qed.
End runs.

(** ** Pipelines *)

Section pipelines.
Context {W J : Type} `{!ComputeWorld W} `{!TaskJournal J}.
Implicit Types s : ComputeEngine W J.

(** A store of revisions that leaves the engine's own maps alone. *)
Definition persist_frame (persist : option (PipelineSchema → CE W J (option error))) : Prop :=
  ∀ p sch s r s', persist = Some p → p sch s = (r, s') →
    is_ok r = true ∧ pipelines s' = pipelines s ∧ pipelineRevisions s' = pipelineRevisions s.

(** The runnable pipelines are the newest revisions that are not deleted. *)
Definition pipelines_consistent s : Prop :=
  ∀ id, pipelines s !! id = (pipelineRevisions s !! id) ≫= λ sch, if SchemaDeleted sch then None else Some sch.

(** Revisions that arrive one after the other, from users and peers. *)
Fixpoint applyRevisions (l : list (PipelineSchema * option (PipelineSchema → CE W J (option error)))) s : ComputeEngine W J :=
  match l with
  | [] => s
  | (sch, persist) :: rest => applyRevisions rest (ApplyPipelineRevision sch persist s).2
  end.

(** A revision is refused and the maps stay, or it replaces one it may follow. *)
Lemma ApplyPipelineRevision_cases sch persist s r s' :
  persist_frame persist → ApplyPipelineRevision sch persist s = (r, s') →
  (pipelines s' = pipelines s ∧ pipelineRevisions s' = pipelineRevisions s) ∨
  (match pipelineRevisions s !! SchemaID sch with
   | Some cur => ValidatePipelineRevision PipelineSchemaHash cur sch = Ok () | None => True end ∧
   pipelineRevisions s' = <[SchemaID sch := sch]> (pipelineRevisions s) ∧
   pipelines s' = if SchemaDeleted sch then delete (SchemaID sch) (pipelines s) else <[SchemaID sch := sch]> (pipelines s)).
Proof.
  intros Hp. unfold ApplyPipelineRevision. rw !ClonePipelineSchema_id.
  destruct (ValidatePipelineSchema sch None); [|by intros [= <- <-]; left].
  unfold mbind, st_bind, gets, modify. cbn [id].
  destruct (match pipelineRevisions s !! SchemaID sch with Some _ => _ | None => _ end) as [u|e] eqn:Hval; [destruct u|by intros [= <- <-]; left].
  match goal with |- (let (_, _) := ?m in _) = _ → _ => destruct m as [st s1] eqn:Hst end.
  assert (is_ok st = true ∧ pipelines s1 = pipelines s ∧ pipelineRevisions s1 = pipelineRevisions s) as (Hok & Hp1 & Hr1).
  { destruct persist as [p|]; [by eapply Hp|]. by injection Hst as <- <-. }
  destruct st as [[e|]|e]; [by intros [= <- <-]; left| |done]. intros [= <- <-]. right. simpl. rw Hp1 Hr1.
  split; [|by destruct (SchemaDeleted sch)]. by destruct (pipelineRevisions s !! SchemaID sch).
Qed.

Lemma revision_refl h (a : PipelineSchema) : ValidatePipelineRevision h a a = Ok ().
Proof. apply ValidatePipelineRevision_spec. split; [done|]. by right. Qed.

(** Pipelines only move forward.  However revisions arrive, the runnable
    pipelines stay the newest revisions that are not deleted, and a revision
    once recorded is only ever replaced by ones that may follow it, never by
    an older version, by another definition of the same version, or by the
    resurrection of a deleted version. *)
Theorem pipeline_revisions_grow l s :
  (∀ sch persist, (sch, persist) ∈ l → persist_frame persist) → pipelines_consistent s →
  pipelines_consistent (applyRevisions l s) ∧
  ∀ id a, pipelineRevisions s !! id = Some a →
    ∃ b, pipelineRevisions (applyRevisions l s) !! id = Some b ∧ ValidatePipelineRevision PipelineSchemaHash a b = Ok ().
Proof.
  revert s. induction l as [|[sch persist] l IH]; intros s Hl Hc; simpl.
  { split; [done|]. intros id a Ha. exists a. split; [done|apply revision_refl]. }
  destruct (ApplyPipelineRevision sch persist s) as [r s1] eqn:Hrun. simpl.
  assert (persist_frame persist) as Hp by (apply (Hl sch); by left).
  assert (∀ sch' p', (sch', p') ∈ l → persist_frame p') as Hl' by (intros; eapply Hl; by right).
  destruct (ApplyPipelineRevision_cases _ _ _ _ _ Hp Hrun) as [[H1 H2]|(Hval & Hr & Hps)].
  - destruct (IH s1 Hl') as [IH1 IH2]; [unfold pipelines_consistent; by rw H1 H2|]. split; [done|]. by rw -H2.
  - destruct (IH s1 Hl') as [IH1 IH2].
    { intros id. rw Hps Hr lookup_insert. case_decide as Hid.
      - subst id. destruct (SchemaDeleted sch) eqn:Hd; simpl; rw ?lookup_delete_eq ?lookup_insert_eq; by rw Hd.
      - rw -(Hc id). destruct (SchemaDeleted sch); [by rw lookup_delete_ne|by rw lookup_insert_ne]. }
    split; [done|]. intros id a Ha. destruct (decide (SchemaID sch = id)) as [<-|Hne].
    + rw Ha in Hval. destruct (IH2 (SchemaID sch) sch) as (b & Hb & Hvb); [by rw Hr lookup_insert_eq|].
      exists b. split; [done|]. by eapply ValidatePipelineRevision_trans.
    + apply IH2. by rw Hr lookup_insert_ne.
Qed.
End pipelines.

(** ** Runs in the scripted world *)

Lemma engine_within_capacity_witness :
  let s := engine_run [OSubmit (task "t" "svc" None); OWork; OGetAll] (NewComputeEngine "me" () (script [] [])) in
  (size (taskStatuses (table s)) ≤ 100)%nat ∧ (size (retiredTaskStatuses (table s)) ≤ 100)%nat ∧
  (length (taskQueue s) ≤ taskQueueCap)%nat.
Proof. apply (engine_within_capacity [OSubmit (task "t" "svc" None); OWork; OGetAll] "me" () (script [] [])). Defined.

(** A failure stays on record through a result that comes too late. *)
Definition gaveUp : ComputeEngine sim unit :=
  engine_run [OMarkFailed (task "t" "far" None) "down"] (NewComputeEngine "me" () (script [] [])).

Lemma failed_task_final_witness :
  let late := {| RsTaskID := "t"; RsService := "far"; RsStatus := "completed"; RsError := ""; RsOutputs := None;
                 RsProducerNodeID := "b"; RsPipelineState := None |} in
  taskStatuses (table (engine_run [ORecord late] gaveUp)) !! "t" = Some (failedTaskResponse "t" "far" "down") ∨
  ∃ tb, rtc table_step (table gaveUp) tb ∧ taskStatuses tb !! "t" = None ∧
    rtc table_step tb (table (engine_run [ORecord late] gaveUp)).
Proof. intros late. apply (failed_task_final [ORecord late] gaveUp); [vm_compute; reflexivity|reflexivity]. Defined.

Lemma pipeline_revisions_grow_witness :
  let s := (RegisterPipeline (pipeline 1 [step "a" "svc"]) (NewComputeEngine "me" () (script [] []))).2 in
  ∃ b, pipelineRevisions (applyRevisions [(pipeline 2 [step "a" "svc"], None)] s) !! "p" = Some b ∧
    ValidatePipelineRevision PipelineSchemaHash (pipeline 1 [step "a" "svc"]) b = Ok ().
Proof.
  intros s. apply (pipeline_revisions_grow [(pipeline 2 [step "a" "svc"], None)] s).
  - intros sch persist [[= -> ->]|[]%elem_of_nil]%elem_of_cons p sch' s1 r s2. discriminate.
  - intros id. change (pipelines s) with (<["p" := pipeline 1 [step "a" "svc"]]> (∅ : gmap string PipelineSchema)).
    change (pipelineRevisions s) with (<["p" := pipeline 1 [step "a" "svc"]]> (∅ : gmap string PipelineSchema)).
    rw lookup_insert. case_decide; [done|]. by rw lookup_empty.
  - vm_compute. reflexivity.
Defined.
