(* ===== verification/EscrowLaws.v ===== *)
(** * Escrow and callbacks

    A resumption never loses a task: it ends with the task queued, handed
    over, settled or back in escrow.  A callback changes a task only on behalf
    of a node on record for it, and only once. *)
From S2P Require Import Prelude GoStrings Json Protocol Pipeline Bolt Journal Tasks TaskStatus TaskStatusLaws.
From S2P Require Import ComputeEngine PipelineRun Escrow TaskRun ComputeSim ComputeLaws TaskFlow TaskReturns.
Local Open Scope stdpp_scope.

Section escrow_laws.
Context {W J : Type} `{!ComputeWorld W} `{!TaskJournal J} `{!ComputeWorldLaws W}.
Implicit Types s : ComputeEngine W J.
Abbreviation CE := (CE W J).

(** ** Callbacks *)

(** The task's record names the node: as the producer expected, or among its
    delegates, the targets of its steps and the nodes it was forwarded to. *)
Definition known_producer s (id producer : string) : Prop :=
  ∃ meta, taskStatusMeta (table s) !! id = Some meta ∧
    (expectedProducer meta = producer ∧ producer ≠ "" ∨
     ∃ delegated, delegatedProducers meta = Some delegated ∧ producer ∈ delegated).

Lemma known_producer_authorised s id producer :
  isAuthorizedCallbackProducer producer (default zeroMeta (taskStatusMeta (table s) !! id)) = true ↔ known_producer s id producer.
Proof.
  unfold isAuthorizedCallbackProducer, known_producer. rw orb_true_iff andb_true_iff !bool_decide_eq_true.
  destruct (taskStatusMeta (table s) !! id) as [meta|]; simpl.
  2: { split; [intros [[? _]|?]; [done|set_solver]|by intros (? & ? & _)]. }
  split.
  - intros [[Hne <-]|Hin]; exists meta; (split; [done|]); [by left|right].
    destruct (delegatedProducers meta) as [del|]; [by exists del|set_solver].
  - intros (? & [= <-] & [[<- ?]|(del & -> & ?)]); [by left|by right].
Qed.

(** What a callback may store. *)
Definition callback_result (producer : string) (r stored : ServiceTaskResponse) : Prop :=
  RsTaskID stored = RsTaskID r ∧ RsProducerNodeID stored = producer ∧ RsOutputs stored = RsOutputs r ∧
  (RsStatus stored = RsStatus r ∧ terminal stored = true ∨
   RsStatus r = "completed" ∧ RsStatus stored = TaskStatusIngesting).

Lemma callbackOutcome_spec needs current r producer stored fin :
  callbackOutcome needs current r producer = Ok (Some (stored, fin)) →
  terminal current = false ∧ RsStatus current ≠ TaskStatusIngesting ∧ callback_result producer r stored.
Proof.
  unfold callbackOutcome, terminal, callback_result. destruct (_ && _ && _); [done|].
  destruct (isTerminalStatus (RsStatus current)); [by case_match|].
  case_bool_decide; [by case_match|]. case_bool_decide as Hc.
  - destruct needs; intros [= <- <-]; (split; [done|]; split; [done|]; repeat split; [..|]); [by right|left; by rw Hc].
  - case_bool_decide as Hf; [|done]. intros [= <- <-]. split; [done|]. split; [done|]. repeat split. left. by rw Hf.
Qed.

(** Storing the outcome. *)
Definition storeOutcome (id producer : string) (stored : ServiceTaskResponse) (fin : bool) : CE (option error) :=
  (if fin then onTable (acceptedDelete id) else mret ());;
  ceStoreTaskStatus stored;; recordTerminalResponseCheckpoint stored producer;; mret None.

Lemma storeOutcome_spec tid producer stored fin :
  hoare (λ _, True) (storeOutcome tid producer stored fin)
    (λ res s', res = Ok None ∧ taskStatuses (table s') !! RsTaskID stored = Some stored).
Proof.
  eapply hoare_bind with (R := λ r _, is_ok r = true); [by destruct fin; intros ? ? ? _ [= <- <-]| |by intros].
  intros u. eapply hoare_bind with (R := λ r s, is_ok r = true ∧ taskStatuses (table s) !! RsTaskID stored = Some stored);
    [| |by intros e s1 [? _]].
  - intros s1 res s2 _ [= <- <-]. split; [done|]. apply store_spec. intros. apply rangeOrder_perm.
  - intros u'. unfold recordTerminalResponseCheckpoint, onJournal, recordCheckpoint, mbind, st_bind, gets. cbn [id].
    intros s1 res s2 [_ Hs]. destruct (negb _); [by intros [= <- <-]|]. unfold onJournal. cbn [id].
    destruct (journalAppend _ _ _) as [e j]. by intros [= <- <-].
Qed.


(** ** Resuming *)

(** The task is queued, settled, or was accepted by another node. *)
Definition held s (id : string) : Prop :=
  (∃ req, req ∈ taskQueue s ∧ RqTaskID req = id) ∨ settled (table s) id ∨
  (∃ peer req, Dispatched peer req ∈ sent s ∧ RqTaskID req = id).

Lemma held_accounted s id : held s id → accounted s id.
Proof. intros [(req & ? & ?)|[?|(peer & req & ? & ?)]]; [by eapply Queued|by apply Settled|by eapply HandedOver]. Qed.

(** A status for a settled task changes nothing. *)
Lemma settled_set order now cl r tb :
  settled tb (RsTaskID r) → setTaskStatus order now cl r tb = tb.
Proof.
  intros Hs. destruct (set_cases order now cl r tb) as [[-> _]|(Hret & Hnt & _)]; [done|].
  destruct Hs as [(cur & Hcur & Ht)|[x Hx]]; [|congruence]. specialize (Hnt cur Hcur). congruence.
Qed.

Lemma held_set r : preserves (λ s, held s (RsTaskID r)) (ceSetTaskStatus r).
Proof.
  intros s res s' Hs [= <- <-]. destruct Hs as [?|[Hs|?]]; [by left| |by right; right].
  right. left. simpl. by rw settled_set.
Qed.

Lemma held_checkpoint id rec : preserves (λ s, held s id) (recordCheckpoint rec).
Proof.
  apply preserves_bind; [apply preserves_gets|]. intros s0 s r s' Hs. unfold onJournal.
  destruct (journalAppend _ _ _). by intros [= <- <-].
Qed.

Lemma markResumed_held task step i peer : preserves (λ s, held s (EsTaskID task)) (markResumed task step i peer).
Proof.
  unfold markResumed.
  apply preserves_bind; [apply (held_set (escrowResponse (EsTaskID task) (EsService task) "running" "" peer))|].
  intros u. apply preserves_bind; [apply preserves_gets|]. intros s.
  apply preserves_bind; [apply held_checkpoint|]. intros e. apply preserves_ret.
Qed.

(** A reverted resumption leaves the task in escrow. *)
Lemma revert_places {A} (id : string) task prev (a : A) : places id (revertEscrow id task prev;; mret a : CE A).
Proof.
  eapply hoare_bind with (R := λ _ s, is_Some (escrowTasks s !! id)); [| |by intros].
  - unfold revertEscrow. eapply hoare_bind with (R := λ _ s, is_Some (escrowTasks s !! id)); [| |by intros].
    + apply hoare_modify. intros s _. simpl. rw lookup_insert_eq. eauto.
    + intros u. apply preserves_bind; [by apply preserves_modify|]. intros u'.
      apply preserves_bind; [apply preserves_gets|]. intros s. by apply preserves_modify.
  - intros u. apply hoare_ret. intros s Hs _. by apply InEscrow.
Qed.

(** Preparing targets keeps the task. *)
Lemma prepare_same req :
  hoare (λ _, True) (PreparePipelineTargets req) (λ r (_ : ComputeEngine W J), ∀ x, r = Ok x → RqTaskID x.2 = RqTaskID req).
Proof.
  unfold PreparePipelineTargets. destruct (RqPipelineState req); [|apply hoare_ret; by intros s _ x [= <-]].
  eapply hoare_bind with (R := λ _ _, True); [done| |by intros]. intros s.
  destruct (pipelineFor _ _ _); [|apply hoare_ret; by intros ? _ x [= <-]].
  eapply hoare_bind with (R := λ _ _, True); [done| |by intros]. intros r. apply hoare_ret. by intros ? _ x [= <-].
Qed.

(** A submission of a task that is not accepted yet queues it, or it is settled. *)
Lemma SubmitTask_held req s s' :
  acceptedTasks (table s) !! RqTaskID req = None → SubmitTask req s = (Ok None, s') → held s' (RqTaskID req).
Proof.
  intros Hacc [(e & [=] & _)|(req' & Hid & _ & Hrun)]%SubmitTask_enqueues. rw -Hid. rw -Hid in Hacc.
  apply enqueue_cases in Hrun as [[-> [[e [=]]|(_ & [Hset|Hin])]]|(_ & _ & _ & ->)].
  - by right; left.
  - congruence.
  - left. exists req'. split; [|done]. simpl. apply elem_of_app. right. by left.
Qed.

Section resume.
Context (d : TaskDispatcher W J).

Lemma resumeOn_places taskID task sch step peer :
  EsTaskID task = taskID → places taskID (resumeOn d taskID task sch step peer).
Proof.
  intros <-. unfold resumeOn. do 3 (apply places_bind; intros ?).
  eapply hoare_bind; [apply prepare_same| |by intros]. intros r.
  apply hoare_pre with (P' := λ _, RqTaskID r.2 = EsTaskID task ∧ True); [|intros s H; split; [by apply (H r)|done]].
  apply hoare_fact. intros Hid. do 2 (apply places_bind; intros ?). case_bool_decide.
  - intros s res s' _. unfold mbind at 1, st_bind at 1, onTable, modify.
    set (s1 := set_table _ s). assert (acceptedTasks (table s1) !! RqTaskID r.2 = None) as Hacc by apply lookup_delete_eq.
    unfold mbind at 1, st_bind at 1. destruct (SubmitTask r.2 s1) as [[[e|]|e] s2] eqn:Hsub.
    + intros Hrun. by apply (revert_places _ _ _ _ _ _ _ I Hrun).
    + intros Hrun _. apply held_accounted. apply SubmitTask_held in Hsub; [|done]. rw Hid in Hsub.
      by apply (markResumed_held _ _ _ _ _ _ _ Hsub Hrun).
    + by intros [= <- <-].
  - destruct d as [dispatch|]; [|apply revert_places]. apply places_bind. intros [[e|] t']; simpl; [apply revert_places|].
    eapply hoare_bind with (R := λ _ s, held s (EsTaskID task)); [| |by intros].
    { intros s res s' _ [= <- <-]. right. right. exists peer, r.2. split; [|done]. simpl. apply elem_of_app. right. by left. }
    intros u. eapply hoare_bind with (R := λ _ s, held s (EsTaskID task)); [| |by intros].
    { by apply preserves_modify. }
    intros u'. eapply hoare_conseq; [apply markResumed_held|done|]. intros res s Hs _. by apply held_accounted.
Qed.

(** In escrow under its own name. *)
Definition escrowed s (id : string) : Prop := ∃ task, escrowTasks s !! id = Some task ∧ EsTaskID task = id.

Lemma escrowed_accounted s id : escrowed s id → accounted s id.
Proof. intros (task & Ht & _). apply InEscrow. by rw Ht. Qed.

Lemma resumeTail_places task sch taskID :
  EsTaskID task = taskID →
  hoare (λ s, escrowed s taskID)
    (step ← index (Steps sch) (EsStepIndex task); targetPeer ← resumeTarget step (EsStepIndex task);
     if bool_decide (targetPeer = "") then mret (Some (EMsg "no candidate node available for step"))
     else resumeOn d taskID task sch step targetPeer) (λ r s', is_ok r = true → accounted s' taskID).
Proof.
  intros Hid. eapply hoare_bind with (R := λ r s, is_ok r = true → escrowed s taskID); [| |by intros].
  { intros s r s' Hs. unfold index. case_match; by intros [= <- <-]. }
  intros step. eapply hoare_bind with (R := λ _ s, escrowed s taskID); [| |by intros].
  { eapply hoare_pre; [|by intros s Hs; apply Hs]. unfold resumeTarget.
    apply preserves_bind; [apply preserves_gets|]. intros s. case_match; [apply preserves_ret|]. case_match; [|apply preserves_ret].
    apply preserves_bind; [|intros f; apply preserves_ret]. intros s1 r s2 Hs. unfold onWorld.
    by case_match; intros [= <- <-]. }
  intros peer. case_bool_decide.
  - apply hoare_ret. intros s Hs _. by apply escrowed_accounted.
  - eapply hoare_pre; [by apply resumeOn_places|done].
Qed.

Lemma Resume_places taskID :
  hoare (λ s, escrowed s taskID) (ResumeEscrowTask d taskID) (λ r s', is_ok r = true → accounted s' taskID).
Proof.
  assert (∀ A (a : A), hoare (λ s, escrowed s taskID) (mret a) (λ r s', is_ok r = true → accounted s' taskID)) as Hret.
  { intros A a. apply hoare_ret. intros s Hs _. by apply escrowed_accounted. }
  intros s r s' Hpre. pose proof Hpre as (task & Ht & Hid). unfold ResumeEscrowTask.
  unfold mbind at 1, st_bind at 1, gets at 1. cbn [id]. rw Ht.
  destruct (pipelineFor _ _ _) as [sch|]; [|by apply Hret]. destruct (_ || _); [by apply Hret|].
  apply (resumeTail_places task sch taskID Hid); by exists task.
Qed.

(** *** Resuming returns *)

Definition escrow_sane (task : TaskEscrowRequest) : Prop :=
  (EsStepIndex task ≤ 2 ^ 44)%Z ∧ (∀ st, EsPipelineState task = Some st → step_within (2 ^ 44) st) ∧
  ∀ k, gomap_get (EsOutputs task) k ≠ Some None.

(** What the rebuilt state takes over from the escrow. *)
Lemma resumedState_progress task sch step prev peer :
  CurrentStep (resumedState task sch step prev peer) =
    match EsPipelineState task with Some st => CurrentStep st | None => EsStepIndex task end ∧
  StateOutputs (resumedState task sch step prev peer) =
    Some (MergeMap (default ∅ (match EsPipelineState task with Some st => StateOutputs st | None => Some ∅ end))
            (default ∅ (cloneOutputs (EsOutputs task))) false).
Proof.
  unfold resumedState. destruct (EsPipelineState task) as [st|], prev as [prev|]; simpl;
    split; repeat (case_bool_decide || case_match); done.
Qed.

Lemma resumed_within task sch step prev peer :
  (0 ≤ EsStepIndex task)%Z → escrow_sane task →
  within (2 ^ 44) (resumedRequest task (resumedState task sch step prev peer) peer).
Proof.
  intros Hpos (Hidx & Hst & Hout) st [= <-].
  destruct (resumedState_progress task sch step prev peer) as [Hc Ho]. unfold step_within. rw Hc Ho. split.
  { destruct (EsPipelineState task) as [st|]; [by apply Hst|done]. }
  intros k. cbn [gomap_get]. rw lookup_MergeMap. unfold cloneOutputs. rw CloneMap_id; [|by intros; apply CloneJSONMap_id].
  intros [Hk|[_ Hk]]%lookup_union_Some_raw.
  - destruct (EsPipelineState task) as [st|]; [|done]. destruct (Hst st eq_refl) as [_ Hn]. apply (Hn k).
    by destruct (StateOutputs st).
  - apply (Hout k). by destruct (EsOutputs task).
Qed.

Context (Hd : dispatcher_returns d).
Abbreviation returns m := (yields (W:=W) (J:=J) m (λ _, True)).

Lemma returns_revert id task prev : returns (revertEscrow id task prev).
Proof. unfold revertEscrow. solve_returns. Qed.

Lemma returns_markResumed task step i peer : returns (markResumed task step i peer).
Proof. unfold markResumed. solve_returns. Qed.

Lemma returns_resumeOn id task sch step peer :
  (0 ≤ EsStepIndex task < Z.of_nat (length (Steps sch)))%Z → escrow_sane task →
  returns (resumeOn d id task sch step peer).
Proof.
  intros Hi Hsane. unfold resumeOn. eapply yields_bind; [by apply returns_modify|]. intros _ _. apply yields_gets. intros s _.
  eapply yields_bind with (φ := λ _, True).
  { case_match; [|by apply yields_ret].
    destruct (Z.ltb_spec 0 (EsStepIndex task)); [|done]. eapply yields_bind; [apply yields_index; lia|]. intros p _. by apply yields_ret. }
  intros prev _. eapply yields_bind; [apply yields_prepare, resumed_within; [lia|done]|]. intros [e r] Hr. simpl in Hr.
  eapply yields_bind; [apply returns_onTable|]. intros _ _. apply yields_gets. intros s' _. case_bool_decide.
  - eapply yields_bind; [apply returns_onTable|]. intros _ _. eapply yields_bind; [apply returns_SubmitTask|].
    intros [e'|] _; [|apply returns_markResumed]. eapply yields_bind; [apply returns_revert|]. intros _ _. by apply yields_ret.
  - destruct d as [dispatch|].
    + eapply yields_bind; [by apply Hd|]. intros [[e'|] t'] _; simpl.
      * eapply yields_bind; [apply returns_revert|]. intros _ _. by apply yields_ret.
      * eapply yields_bind; [apply returns_send|]. intros _ _. eapply yields_bind; [apply returns_onTable|].
        intros _ _. apply returns_markResumed.
    + eapply yields_bind; [apply returns_revert|]. intros _ _. by apply yields_ret.
Qed.

Lemma returns_Resume id s :
  services_ok (registry s) → (∀ task, escrowTasks s !! id = Some task → escrow_sane task) →
  ∃ e s', ResumeEscrowTask d id s = (Ok e, s').
Proof.
  intros Hs Hsane. unfold ResumeEscrowTask. unfold mbind at 1, st_bind at 1, gets at 1. cbn [Datatypes.id].
  destruct (escrowTasks s !! id) as [task|]; [|by eexists _, _]. specialize (Hsane task eq_refl).
  destruct (pipelineFor _ _ _) as [sch|]; [|by eexists _, _].
  destruct (Z.ltb_spec (EsStepIndex task) 0); simpl; [by eexists _, _|].
  destruct (Z.leb_spec (Z.of_nat (length (Steps sch))) (EsStepIndex task)); [by eexists _, _|].
  match goal with |- ∃ e s', ?m s = _ => assert (returns m) as Hm end; [|destruct (Hm s Hs) as (e & s' & ? & _); by exists e, s'].
  eapply yields_bind; [by apply yields_index|]. intros step _.
  eapply yields_bind with (φ := λ _, True); [unfold resumeTarget; solve_returns|]. intros peer _.
  case_bool_decide; [by apply yields_ret|]. by apply returns_resumeOn.
Qed.
End resume.

(** C23: a resumption returns and never loses its task, for an escrow stored
    under the ID of its task, with steps of at most 2^44 and no nil outputs, on
    services that return maps: afterwards the task is queued here, was accepted
    by another node in this very call, is settled, or is in escrow again;
    whatever the cluster, the node's queue and the journal answer. *)
Theorem ResumeEscrowTask_keeps `{!PeerWorld W} taskID task s :
  escrowTasks s !! taskID = Some task → EsTaskID task = taskID → escrow_sane task →
  services_ok (registry s) →
  ∃ e s', ResumeEscrowTask (Some DispatchTask) taskID (fresh_log s) = (Ok e, s') ∧ accounted s' taskID.
Proof.
  intros Ht Hid Hsane Hs. destruct (returns_Resume _ DispatchTask_returns taskID (fresh_log s)) as (e & s' & Hrun); [done|simpl; congruence|].
  exists e, s'. split; [done|]. eapply Resume_places; [|exact Hrun|done]. by exists task.
Qed.
End escrow_laws.

(** ** Runs in the scripted world *)

Definition asked : ComputeEngine sim unit :=
  (DispatchTask "b" (task "t" "far" None) (engine_with "svc" echo (script [] []))).2.


(** A task of an older revision in escrow at step [i]. *)
Definition stranded (i : Z) : TaskEscrowRequest :=
  {| EsTaskID := "t"; EsService := "p"; EsRequesterNodeID := "me"; EsReplyTo := ""; EsStepID := ""; EsStepIndex := i;
     EsStatus := TaskStatusEscrow; EsError := ""; EsPayload := None; EsOutputs := None;
     EsPipelineState := Some (oldRun 0); EsProducerNodeID := "b"; EsTimestamp := 1 |}.

Definition stranding : ComputeEngine sim unit := (PutTaskInEscrow (stranded 0) upgraded).2.

Lemma stranded_sane : escrow_sane (stranded 0).
Proof.
  split; [simpl; lia|]. split; [|done]. intros st [= <-]. split; [simpl; lia|]. intros k. simpl. by rw lookup_empty.
Qed.

Lemma ResumeEscrowTask_keeps_witness :
  ∃ e s', ResumeEscrowTask (Some DispatchTask) "t" (fresh_log stranding) = (Ok e, s') ∧ accounted s' "t".
Proof.
  apply (ResumeEscrowTask_keeps "t" (stranded 0) stranding);
    [vm_compute; reflexivity|reflexivity|apply stranded_sane|apply (echo_ok "svc" (script [] []))].
Defined.

(** An escrow with a negative step index is accepted and journalled, and
    crashes the node when it restarts: restoring the journal's record indexes
    the steps with it. *)
Theorem escrow_restart_panics :
  (PutTaskInEscrow (stranded (-1)) upgraded).1 = Ok None ∧
  (RestoreEscrowTask
     (applyJournalRecord (newTaskRecord "t" 1) (checkpointFromEscrow (stranded (-1)) TaskStatusEscrow "b" 1)) upgraded).1 =
  Err (EPanic "index out of range").
Proof. split; vm_compute; reflexivity. Qed.
