(* ===== verification/Restart.v ===== *)
(** * Restart

    The storage engine is the journal of the compute engine
    ([server.go] passes it to [SetTaskJournal]), and a server that starts
    restores the tasks in escrow from it and fails the others
    ([server.go], [New]).  A task put in escrow is there again after a
    restart. *)
From S2P Require Import Prelude GoStrings Json Protocol Pipeline Bolt Vfs Sha256 Physical Journal Engine Gc.
From S2P Require Import Prune Tasks TaskStatus TaskStatusLaws ComputeEngine PipelineRun Escrow TaskRun.
From S2P Require Import ComputeSim ComputeLaws TaskFlow TaskReturns EscrowLaws.
Local Open Scope stdpp_scope.

(** The interface [TaskJournal] as the storage engine implements it. *)
#[export] Instance storageJournal {DB} `{!Bolt DB} `{!Digest} : TaskJournal (Engine DB) := {|
  journalAppend now record j :=
    let '(r, d) := AppendTaskCheckpoint now (db j) record in (error_of r, with_db d j);
  journalSaveIntermediate now taskID stepID outputs j :=
    let '(r, d) := SaveIntermediateOutput now (db j) taskID stepID outputs in (error_of r, with_db d j);
  journalPrune taskID j :=
    let '(r, j') := PruneIntermediateTaskData taskID j in (error_of r, j') |}.

Section restart.
Context {W DB : Type} `{!ComputeWorld W} `{!ComputeWorldLaws W} `{!Bolt DB} `{!Digest}.
Implicit Types (s : ComputeEngine W (Engine DB)) (d : DB).
Abbreviation CE := (CE W (Engine DB)).

(** ** Start-up *)

(** The checkpoint that fails a task that was active when the server stopped. *)
Definition zombieRecord (now : time) (task : TaskRecord) : TaskJournalRecord :=
  let c := TContext task in
  {| JContext :=
       {| TaskID := TaskID c; TService := TService c; Status := "failed"; RequesterNodeID := RequesterNodeID c;
          ReplyTo := ReplyTo c; NodeID := NodeID c; Payload := CloneJSONMap (Payload c);
          TError := "server restarted while task was active";
          PipelineState := ClonePipelineExecutionState (PipelineState c); Metadata := None |};
     JSequence := 0; JTimestamp := now; JStepID := TCurrentStepID task; JStepIndex := TCurrentStep task;
     JOutputs := Some {["error" := AStr "server restarted while task was active"]};
     JIntermediate := false; JIntermediateBlobs := [] |}.

Definition restoreTask (task : TaskRecord) : CE unit :=
  if bool_decide (Status (TContext task) = TaskStatusEscrow) then RestoreEscrowTask task
  else
    s ← gets id;
    onJournal (journalAppend (clock (world s)) (zombieRecord (clock (world s)) task));;
    mret ().

Fixpoint restoreAll (tasks : list TaskRecord) : CE unit :=
  match tasks with
  | [] => mret ()
  | task :: rest => restoreTask task;; restoreAll rest
  end.

Definition restoreTasks : CE unit :=
  s ← gets id;
  match loadTaskRecords Active (db (taskJournal s)) with
  | Err _ => mret ()
  | Ok activeTasks => restoreAll (rangeOrder (world s) _ (map_to_list activeTasks)).*2
  end.

(** ** What a restart restores *)

(** What [r] keeps of a record. *)
Definition restored_as (task : TaskRecord) (r : TaskEscrowRequest) : Prop :=
  EsTaskID r = TaskID (TContext task) ∧ EsService r = TService (TContext task) ∧
  EsStepIndex r = TCurrentStep task ∧ EsPipelineState r = PipelineState (TContext task) ∧
  EsPayload r = Payload (TContext task) ∧ EsRequesterNodeID r = RequesterNodeID (TContext task).

Lemma RestoreEscrowTask_restores task s :
  (0 ≤ TCurrentStep task)%Z →
  ∃ r s', RestoreEscrowTask task s = (Ok (), s') ∧ restored_as task r ∧
    escrowTasks s' = <[TaskID (TContext task) := r]> (escrowTasks s).
Proof.
  intros Hpos. unfold RestoreEscrowTask.
  match goal with |- context [?m ≫= (λ stepID : string, _)] =>
    assert (∃ stepID, m s = (Ok stepID, s)) as [stepID Hstep] end.
  { destruct (PipelineState (TContext task) ≫= Snapshot) as [snap|]; [|by eexists].
    destruct (_ && _) eqn:Hb; [|by eexists]. apply andb_true_iff in Hb as [_ Hlt%Z.ltb_lt].
    unfold index, mbind, st_bind. rw (proj2 (Z.ltb_ge _ _) Hpos).
    destruct (lookup_lt_is_Some_2 (Steps snap) (Z.to_nat (TCurrentStep task))) as [step ->]; [lia|]. by eexists. }
  unfold mbind at 1, st_bind at 1. rw Hstep.
  eexists _, _. split; [reflexivity|]. split; [|reflexivity].
  unfold restored_as. simpl. by rw ClonePipelineExecutionState_id CloneJSONMap_id.
Qed.

(** Records are stored under their own name. *)
Definition keyed (l : list (string * TaskRecord)) : Prop := ∀ k t, (k, t) ∈ l → TaskID (TContext t) = k.

Lemma restoreAll_restores l s :
  NoDup l.*1 → keyed l → (∀ k t, (k, t) ∈ l → (0 ≤ TCurrentStep t)%Z) →
  ∃ s', restoreAll l.*2 s = (Ok (), s') ∧
    (∀ k, k ∉ l.*1 → escrowTasks s' !! k = escrowTasks s !! k) ∧
    (∀ k t, (k, t) ∈ l → Status (TContext t) = TaskStatusEscrow →
       ∃ r, escrowTasks s' !! k = Some r ∧ restored_as t r).
Proof.
  revert s. induction l as [|[k t] l IH]; intros s; csimpl.
  { intros _ _ _. exists s. split; [done|]. split; [done|]. by intros k t ?%elem_of_nil. }
  intros [Hnew Hnd]%NoDup_cons Hkey Hpos.
  assert (TaskID (TContext t) = k) as Htk by (apply Hkey; by left).
  assert (∃ s1, restoreTask t s = (Ok (), s1) ∧ (∀ k', k' ≠ k → escrowTasks s1 !! k' = escrowTasks s !! k') ∧
    (Status (TContext t) = TaskStatusEscrow → ∃ r, escrowTasks s1 !! k = Some r ∧ restored_as t r)) as (s1 & Hrun & Hother & Hk).
  { unfold restoreTask. case_bool_decide as Hst.
    - destruct (RestoreEscrowTask_restores t s) as (r & s1 & Hrun & Hr & He); [apply (Hpos k); by left|].
      exists s1. split; [done|]. rw He Htk. split; [intros k' Hne; by rw lookup_insert_ne|].
      intros _. exists r. by rw lookup_insert_eq.
    - unfold mbind, st_bind, gets, onJournal. cbn [id]. destruct (journalAppend _ _ _) as [e j].
      eexists. split; [reflexivity|]. split; [done|]. done. }
  destruct (IH s1) as (s2 & Hrun2 & Hother2 & Hk2); [done|intros ? ? ?; apply Hkey; by right|intros ? ? ?; eapply Hpos; by right|].
  exists s2. split; [unfold mbind, st_bind; by rw Hrun|]. split.
  - intros k' [Hne Hnin]%not_elem_of_cons. rw Hother2; [|done]. by apply Hother.
  - intros k' t' [[= -> ->]|Hin]%elem_of_cons Hst; [|by apply Hk2]. rw Hother2; [|done]. by apply Hk.
Qed.

Context `{!BoltLaws DB}.

(** ** The journal of an escrow *)

Lemma PutTaskInEscrow_journals req s s1 :
  escrowTasks s !! EsTaskID req = None → PutTaskInEscrow req s = (Ok None, s1) →
  append_effect (db (taskJournal s))
    (prepareCheckpoint (clock (world s))
       (checkpointFromEscrow (normalizeEscrow s req) TaskStatusEscrow (EsProducerNodeID req) (EsTimestamp (normalizeEscrow s req))))
    (db (taskJournal s1)).
Proof.
  intros Hnone. unfold PutTaskInEscrow. case_bool_decide; [done|].
  unfold mbind, st_bind, gets. cbn [id]. rw CloneTaskEscrowRequest_id. cbn [EsTaskID normalizeEscrow]. rw Hnone.
  unfold recordCheckpoint, onJournal, mbind, st_bind, gets. cbn [id journalAppend storageJournal].
  destruct (AppendTaskCheckpoint _ _ _) as [[[]|e] d'] eqn:Happ; cbn [error_of]; [|by intros [=]].
  apply AppendTaskCheckpoint_cases in Happ as [[_ [=]]|[_ He]]. by intros [= <-].
Qed.

Lemma json_task_fields t t' :
  json_task t = Ok t' →
  TCurrentStep t' = TCurrentStep t ∧ TaskID (TContext t') = TaskID (TContext t) ∧
  Status (TContext t') = Status (TContext t) ∧ TService (TContext t') = TService (TContext t).
Proof.
  unfold json_task, json_context. destruct (json_gomap json_value (Payload _)); simpl; [|done].
  destruct (match PipelineState _ with Some _ => _ | None => _ end); simpl; [|done].
  destruct (json_gomap json_outputs (TOutputs t)); simpl; [|done].
  destruct (json_gomap json_value (FinalOutputs t)); simpl; [|done]. by intros [= <-].
Qed.

(** The active record of a task that was just put in escrow. *)
Lemma escrow_recorded req s s1 :
  escrowTasks s !! EsTaskID req = None → PutTaskInEscrow req s = (Ok None, s1) →
  let id := EsTaskID req in
  let base := default (newTaskRecord id (EsTimestamp req)) (active_of (db (taskJournal s)) id) in
  ∃ t, bget (db (taskJournal s1)) TasksActive id = Some (JDoc t) ∧
    (∀ k, k ≠ id → bget (db (taskJournal s1)) TasksActive k = bget (db (taskJournal s)) TasksActive k) ∧
    TaskID (TContext t) = TaskID (TContext base) ∧ Status (TContext t) = TaskStatusEscrow ∧
    TCurrentStep t = (if (0 <? EsStepIndex req)%Z || (TCurrentStep base =? 0)%Z then EsStepIndex req else TCurrentStep base) ∧
    TService (TContext t) = mergeComparable "" (TService (TContext base)) (EsService req) true.
Proof.
  intros Hnone Hput id base. pose proof (PutTaskInEscrow_journals req s s1 Hnone Hput) as He.
  destruct (ae_running _ _ _ He eq_refl) as (t & Hjson & _ & Hact). exists t.
  split; [rw Hact; by rw decide_True|]. split; [intros k Hk; rw Hact; by rw decide_False|].
  apply json_task_fields in Hjson as (-> & -> & -> & ->).
  change (TaskID (JContext (prepareCheckpoint _ _))) with (EsTaskID req).
  set (rec := assignSequence _ _) in *.
  assert (JStepIndex rec = EsStepIndex req ∧ JContext rec = JContext (checkpointFromEscrow (normalizeEscrow s req) TaskStatusEscrow
    (EsProducerNodeID req) (EsTimestamp (normalizeEscrow s req)))) as [Hidx Hctx].
  { unfold rec, assignSequence. by case_match. }
  unfold applyJournalRecord. cbn [TContext TCurrentStep]. rw Hidx Hctx. unfold base, id.
  cbn [JContext checkpointFromEscrow at_step mkCheckpoint Status].
  rw (bool_decide_eq_false_2 (TaskStatusEscrow = TaskEventSchemaMigrated)); [|done].
  destruct (active_of (db (taskJournal s)) (EsTaskID req)); done.
Qed.

(** C16: a task in escrow survives a restart.  When a task that was not in
    escrow, at a step after the first and of a named service, was put there and
    its journal record written, a server that starts on that journal, whose
    active records are stored under their own names, can be read and have no
    negative step, restores it to escrow at the same step and for the same
    service, whatever else was active. *)
Theorem escrow_survives_restart req s s1 nodeID w tasks :
  PutTaskInEscrow req s = (Ok None, s1) → escrowTasks s !! EsTaskID req = None →
  (∀ k t, active_of (db (taskJournal s)) k = Some t → TaskID (TContext t) = k) →
  (0 < EsStepIndex req)%Z → EsService req ≠ "" →
  loadTaskRecords Active (db (taskJournal s1)) = Ok tasks →
  (∀ k t, tasks !! k = Some t → (0 ≤ TCurrentStep t)%Z) →
  ∃ s2 r, restoreTasks (NewComputeEngine nodeID (taskJournal s1) w) = (Ok (), s2) ∧
    escrowTasks s2 !! EsTaskID req = Some r ∧ EsTaskID r = EsTaskID req ∧ EsService r = EsService req ∧
    EsStepIndex r = EsStepIndex req.
Proof.
  intros Hput Hnone Hkey Hidx Hsvc Hload Hpos.
  destruct (escrow_recorded req s s1 Hnone Hput) as (t & Hget & Hother & Hid & Hst & Hstep & Hserv).
  pose proof (boltLoadMapJSON_spec _ _ _ _ Hload) as Hmap.
  assert (tasks !! EsTaskID req = Some t) as Ht.
  { specialize (Hmap (EsTaskID req)). rw Hget in Hmap. by destruct Hmap as (v & [= <-] & ?). }
  assert (TaskID (TContext t) = EsTaskID req) as Htid.
  { rw Hid. destruct (active_of _ _) as [a|] eqn:Ha; [|done]. by apply Hkey. }
  unfold restoreTasks, mbind, st_bind, gets. cbn [id taskJournal NewComputeEngine]. rw Hload.
  set (l := rangeOrder _ _ (map_to_list tasks)). assert (l ≡ₚ map_to_list tasks) as Hperm by apply rangeOrder_perm.
  assert (∀ k t', (k, t') ∈ l ↔ tasks !! k = Some t') as Hin by (intros; rw Hperm; apply elem_of_map_to_list).
  destruct (restoreAll_restores l (NewComputeEngine nodeID (taskJournal s1) w)) as (s2 & Hrun & _ & Hesc).
  - rw Hperm. apply NoDup_fst_map_to_list.
  - intros k t' Hk%Hin. destruct (decide (k = EsTaskID req)) as [->|Hne]; [congruence|].
    specialize (Hmap k). rw Hother in Hmap; [|done]. apply Hkey. unfold active_of.
    destruct (bget (db (taskJournal s)) TasksActive k) as [raw|]; [|congruence].
    destruct Hmap as (v & -> & Hv). simpl. congruence.
  - intros k t' Hk%Hin. by eapply Hpos.
  - destruct (Hesc (EsTaskID req) t) as (r & Hr & (H1 & H2 & H3 & _)); [by apply Hin|done|].
    exists s2, r. split; [done|]. split; [done|]. split; [congruence|]. rw H2 H3 Hserv Hstep.
    rw (proj2 (Z.ltb_lt _ _) Hidx). unfold mergeComparable. by rw bool_decide_eq_false_2.
Qed.
End restart.

(** ** A run *)

Definition journal0 : Engine memdb := Gc.engine_with memdb_init ∅.

(** The engine with a task in escrow at its second step, and what the next
    start finds. *)
Definition stopped : ComputeEngine sim (Engine memdb) :=
  (PutTaskInEscrow (stranded 1) (NewComputeEngine "me" journal0 (script [] []))).2.

Definition found : gmap string TaskRecord :=
  match loadTaskRecords Active (db (taskJournal stopped)) with Ok m => m | Err _ => ∅ end.

Lemma escrow_survives_restart_witness :
  ∃ s2 r, restoreTasks (NewComputeEngine "me" (taskJournal stopped) (script [] [])) = (Ok (), s2) ∧
    escrowTasks s2 !! "t" = Some r ∧ EsTaskID r = "t" ∧ EsService r = "p" ∧ EsStepIndex r = 1%Z.
Proof.
  apply (escrow_survives_restart (stranded 1) (NewComputeEngine "me" journal0 (script [] [])) stopped "me" (script [] []) found).
  - unfold stopped. apply run_result. vm_compute. reflexivity.
  - reflexivity.
  - intros k t H. discriminate H.
  - reflexivity.
  - discriminate.
  - vm_compute. reflexivity.
  - assert (bool_decide (map_Forall (λ (_ : string) t, (0 ≤ TCurrentStep t)%Z) found) = true) as H by (vm_compute; reflexivity).
    intros k t Ht. by apply bool_decide_eq_true in H; apply (H k t).
Defined.
