(* ===== verification/ServiceHandlers.v ===== *)
(** * The service endpoints

    [internal/compute/handlers.go]: submissions, callbacks and escrows that
    peers send.  A handler takes the decoded body ([None] when it does not
    decode) and the common name of the peer's certificate ([None] without
    one), and returns the HTTP status. *)
From S2P Require Import Prelude GoStrings Json Protocol Pipeline Bolt Journal Tasks TaskStatus TaskStatusLaws.
From S2P Require Import ComputeEngine PipelineRun Escrow TaskRun ComputeSim ComputeLaws TaskFlow TaskReturns.
From S2P Require Import EscrowLaws.
Local Open Scope stdpp_scope.

Section handlers.
Context {W J : Type} `{!ComputeWorld W} `{!TaskJournal J} `{!ComputeWorldLaws W}.
Implicit Types s : ComputeEngine W J.
Abbreviation CE := (CE W J).

(** The step before the current one, where a schema names it. *)
Definition previousStepID s (service : string) (st : PipelineExecutionState) : CE string :=
  let at_schema (sch : PipelineSchema) : CE string :=
    prev ← index (Steps sch) (CurrentStep st - 1); mret (StepID prev) in
  let fits (sch : PipelineSchema) := (CurrentStep st <=? Z.of_nat (length (Steps sch)))%Z in
  match Snapshot st with
  | Some snap =>
      if fits snap then at_schema snap
      else match GetPipeline s service with
      | Some sch => if fits sch then at_schema sch else mret ""
      | None => mret ""
      end
  | None =>
      match GetPipeline s service with
      | Some sch => if fits sch then at_schema sch else mret ""
      | None => mret ""
      end
  end.

Definition expectedSubmitter s (service : string) (st : PipelineExecutionState) : CE string :=
  if (0 <? CurrentStep st)%Z then
    prev ← previousStepID s service st;
    mret (if bool_decide (prev ≠ "") then producer_of st prev else producer_of st "$initial")
  else mret (producer_of st "$initial").

(** The submitter may send this task: the request as it goes on, or a refusal. *)
Definition authorizeSubmit (submitter : string) (req : TaskRequest) : CE (option TaskRequest) :=
  s ← gets id;
  match RqPipelineState req with
  | None =>
      if bool_decide (RqRequesterNodeID req ≠ "") && bool_decide (RqRequesterNodeID req ≠ submitter)
      then mret None else mret (Some (with_requester submitter req))
  | Some st =>
      expected ← expectedSubmitter s (RqService req) st;
      let initial := producer_of st "$initial" in
      let isAuthorizedCoordinator :=
        (bool_decide (initial ≠ "") && bool_decide (initial = submitter)) ||
        (bool_decide (RqRequesterNodeID req ≠ "") && bool_decide (RqRequesterNodeID req = submitter)) in
      if (bool_decide (expected = "") || bool_decide (expected ≠ submitter)) && negb isAuthorizedCoordinator
      then mret None else mret (Some req)
  end.

Definition HandleServiceSubmit (body : option TaskRequest) (peer : option string) : CE Z :=
  match body, peer with
  | None, _ => mret 400%Z
  | Some _, None => mret 403%Z
  | Some req, Some submitter =>
      authorized ← authorizeSubmit submitter req;
      match authorized with
      | None => mret 403%Z
      | Some req =>
          s ← gets id;
          let valid := match GetPipeline s (RqService req) with
                       | Some _ => Ok ()
                       | None => ValidatePayload Sprint (rangeOrder (world s) _) (registry s) (RqService req)
                                   (default ∅ (RqPayload req))
                       end in
          match valid with
          | Err _ => mret 400%Z
          | Ok _ =>
              e ← SubmitTask req;
              mret (match e with Some _ => 503%Z | None => 202%Z end)
          end
      end
  end.

Definition callbackStatus (e : option error) : Z :=
  match e with
  | None => 200
  | Some e =>
      if errors_Is e ErrTaskProducer then 403
      else if errors_Is e ErrUnknownTask then 404
      else if errors_Is e ErrTaskDone then 409 else 400
  end%Z.

Definition HandleServiceCallback (body : option ServiceTaskResponse) (peer : option string) : CE Z :=
  match body, peer with
  | None, _ => mret 400%Z
  | Some _, None => mret 403%Z
  | Some r, Some producer =>
      if bool_decide (RsProducerNodeID r ≠ "") && bool_decide (RsProducerNodeID r ≠ producer) then mret 403%Z
      else
        e ← AcceptTaskCallback producer r;
        mret (callbackStatus e)
  end.

(** The answer the status table gives, or [None] to go on. *)
Definition escrowRefusal s (taskID producer : string) : option Z :=
  match taskStatusMeta (table s) !! taskID with
  | None => Some (if bool_decide (is_Some (retiredTaskStatuses (table s) !! taskID)) then 409%Z else 404%Z)
  | Some meta =>
      if (bool_decide (expectedProducer meta = "") || bool_decide (expectedProducer meta ≠ producer)) &&
         negb (bool_decide (producer ∈ default ∅ (delegatedProducers meta)))
      then Some 403%Z
      else match taskStatuses (table s) !! taskID with
      | Some current => if terminal current then Some 409%Z else None
      | None => None
      end
  end.

Definition filledEscrow s (producer : string) (req : TaskEscrowRequest) : TaskEscrowRequest :=
  {| EsTaskID := EsTaskID req; EsService := EsService req;
     EsRequesterNodeID := if bool_decide (EsRequesterNodeID req = "") then ceNodeID s else EsRequesterNodeID req;
     EsReplyTo := EsReplyTo req; EsStepID := EsStepID req; EsStepIndex := EsStepIndex req; EsStatus := EsStatus req;
     EsError := EsError req; EsPayload := EsPayload req; EsOutputs := EsOutputs req;
     EsPipelineState := EsPipelineState req;
     EsProducerNodeID := if bool_decide (EsProducerNodeID req = "") then producer else EsProducerNodeID req;
     EsTimestamp := EsTimestamp req |}.

Definition HandleServiceEscrow (body : option TaskEscrowRequest) (peer : option string) : CE Z :=
  match body, peer with
  | None, _ => mret 400%Z
  | Some _, None => mret 403%Z
  | Some req, Some producer =>
      s ← gets id;
      if bool_decide (EsProducerNodeID req ≠ "") && bool_decide (EsProducerNodeID req ≠ producer) then mret 403%Z
      else if bool_decide (EsRequesterNodeID req ≠ "") && bool_decide (EsRequesterNodeID req ≠ ceNodeID s) then mret 403%Z
      else match escrowRefusal s (EsTaskID req) producer with
      | Some code => mret code
      | None =>
          e ← PutTaskInEscrow (filledEscrow s producer req);
          mret (match e with Some _ => 500%Z | None => 200%Z end)
      end
  end.

(** ** What peers may do *)

(** The identities that may send a task on: the requester itself for a new
    task; for a running pipeline the producer of the step before, the node
    that started it, or its requester. *)
Definition may_submit s (submitter : string) (req : TaskRequest) : Prop :=
  match RqPipelineState req with
  | None => RqRequesterNodeID req = "" ∨ RqRequesterNodeID req = submitter
  | Some st =>
      producer_of st "$initial" = submitter ∨ RqRequesterNodeID req = submitter ∨
      ∃ prev, producer_of st prev = submitter ∧ (0 < CurrentStep st)%Z ∧
        ∃ sch step, (Snapshot st = Some sch ∨ GetPipeline s (RqService req) = Some sch) ∧
          Steps sch !! Z.to_nat (CurrentStep st - 1) = Some step ∧ StepID step = prev
  end.

Lemma index_ok {A} (l : list A) i s a s' :
  index l i s = (Ok a, s') → s' = s ∧ l !! Z.to_nat i = Some a.
Proof.
  unfold index. destruct (i <? 0)%Z; [done|]. destruct (l !! Z.to_nat i); [|done]. by intros [= <- <-].
Qed.

Lemma previousStepID_ok s service st s1 prev s2 :
  previousStepID s service st s1 = (Ok prev, s2) →
  s2 = s1 ∧ (prev = "" ∨ ∃ sch step, (Snapshot st = Some sch ∨ GetPipeline s service = Some sch) ∧
    Steps sch !! Z.to_nat (CurrentStep st - 1) = Some step ∧ StepID step = prev).
Proof.
  assert (∀ sch, (prev ← index (Steps sch) (CurrentStep st - 1); mret (StepID prev)) s1 = (Ok prev, s2) →
    Snapshot st = Some sch ∨ GetPipeline s service = Some sch →
    s2 = s1 ∧ (prev = "" ∨ ∃ sch step, (Snapshot st = Some sch ∨ GetPipeline s service = Some sch) ∧
      Steps sch !! Z.to_nat (CurrentStep st - 1) = Some step ∧ StepID step = prev)) as Hat.
  { intros sch. unfold mbind, st_bind. destruct (index _ _ s1) as [[a|e] s3] eqn:Hi; [|done].
    apply index_ok in Hi as [-> Hi]. intros [= <- <-] Hsch. split; [done|]. right. by exists sch, a. }
  unfold previousStepID. destruct (Snapshot st) as [snap|] eqn:Hs.
  - destruct (_ <=? _)%Z; [intros H; apply (Hat snap H); by left|].
    destruct (GetPipeline s service) as [sch|] eqn:Hp; [|intros [= <- <-]; auto].
    destruct (_ <=? _)%Z; [intros H; apply (Hat sch H); by right|intros [= <- <-]; auto].
  - destruct (GetPipeline s service) as [sch|] eqn:Hp; [|intros [= <- <-]; auto].
    destruct (_ <=? _)%Z; [intros H; apply (Hat sch H); by right|intros [= <- <-]; auto].
Qed.

Lemma authorizeSubmit_ok submitter req s r s1 :
  authorizeSubmit submitter req s = (Ok (Some r), s1) →
  s1 = s ∧ may_submit s submitter req ∧ RqTaskID r = RqTaskID req ∧ (RqPipelineState req = None → RqRequesterNodeID r = submitter).
Proof.
  unfold authorizeSubmit, may_submit. unfold mbind at 1, st_bind at 1, gets. cbn [id].
  destruct (RqPipelineState req) as [st|] eqn:Hst.
  2: { destruct (decide (RqRequesterNodeID req = "")) as [H1|H1].
       - rw (bool_decide_eq_false_2 (RqRequesterNodeID req ≠ "")); [|naive_solver]. intros [= <- <-]. auto.
       - rw (bool_decide_eq_true_2 (RqRequesterNodeID req ≠ "")); [|done]. case_bool_decide as H2; [done|].
         intros [= <- <-]. auto. }
  unfold mbind, st_bind. destruct (expectedSubmitter s (RqService req) st s) as [[expected|e] s2] eqn:Hexp; [|done].
  assert (s2 = s ∧ (expected = producer_of st "$initial" ∨ ∃ prev, expected = producer_of st prev ∧ (0 < CurrentStep st)%Z ∧
    ∃ sch step, (Snapshot st = Some sch ∨ GetPipeline s (RqService req) = Some sch) ∧
      Steps sch !! Z.to_nat (CurrentStep st - 1) = Some step ∧ StepID step = prev)) as [-> Hcase].
  { revert Hexp. unfold expectedSubmitter. destruct (Z.ltb_spec 0 (CurrentStep st)); [|by intros [= <- <-]; auto].
    unfold mbind, st_bind. destruct (previousStepID _ _ _ _) as [[prev|e] s3] eqn:Hprev; [|done].
    apply previousStepID_ok in Hprev as [-> Hprev]. intros [= <- <-]. split; [done|].
    case_bool_decide; [|by left]. right. exists prev. destruct Hprev as [->|Hprev]; [done|]. eauto. }
  destruct (_ && negb _) eqn:Hauth; [done|]. intros [= <- <-]. split; [done|]. split; [|done].
  apply andb_false_iff in Hauth as [Hauth|Hauth].
  - apply orb_false_iff in Hauth as [_ He%bool_decide_eq_false]. apply dec_stable in He.
    destruct Hcase as [->|(prev & -> & Hc & Hs)]; [by left|]. right. right. exists prev. auto.
  - apply negb_false_iff, orb_true_iff in Hauth as [[_ H%bool_decide_eq_true]%andb_true_iff|[_ H%bool_decide_eq_true]%andb_true_iff]; auto.
Qed.

Lemma authorizeSubmit_refuses submitter req s s1 : authorizeSubmit submitter req s = (Ok None, s1) → s1 = s.
Proof.
  unfold authorizeSubmit. unfold mbind at 1, st_bind at 1, gets. cbn [id].
  destruct (RqPipelineState req) as [st|]; [|by case_match; intros [= <-]].
  unfold mbind, st_bind. destruct (expectedSubmitter s (RqService req) st s) as [[expected|e] s2] eqn:Hexp; [|done].
  assert (s2 = s) as ->; [|by case_match; intros [= <-]]. revert Hexp. unfold expectedSubmitter. case_match; [|by intros [= _ <-]].
  unfold mbind, st_bind. destruct (previousStepID _ _ _ _) as [[prev|e] s3] eqn:Hprev; [|done].
  apply previousStepID_ok in Hprev as [-> _]. by intros [= _ <-].
Qed.

Lemma SubmitTask_error r s e s' : SubmitTask r s = (Ok (Some e), s') → s' = s.
Proof.
  intros [(e' & _ & ->)|(req' & _ & _ & Hrun)]%SubmitTask_enqueues; [done|].
  by apply enqueue_cases in Hrun as [[-> _]|([=] & _)].
Qed.

(** C33: a peer gets a task queued only in its own name.  A submission that is
    accepted comes from the requester itself, or for a running pipeline from
    the node that produced the step before, the one that started it or its
    requester; any answer but 202 leaves the engine unchanged. *)
Theorem submission_authorised req submitter s code s' :
  HandleServiceSubmit (Some req) (Some submitter) s = (Ok code, s') →
  (code = 202%Z ∧ may_submit s submitter req) ∨ (code ∈ [400; 403; 503]%Z ∧ s' = s).
Proof.
  unfold HandleServiceSubmit. unfold mbind at 1, st_bind at 1.
  destruct (authorizeSubmit submitter req s) as [[[r|]|e] s1] eqn:Hauth; [| |done].
  - apply authorizeSubmit_ok in Hauth as (-> & Hmay & _). unfold mbind at 1, st_bind at 1, gets. cbn [id].
    destruct (match GetPipeline s (RqService r) with Some _ => _ | None => _ end); [|intros [= <- <-]; right; split; [set_solver|done]].
    unfold mbind, st_bind. destruct (SubmitTask r s) as [[[e|]|e] s2] eqn:Hsub; [| |done]; intros [= <- <-]; [right|by left].
    split; [set_solver|]. by apply SubmitTask_error in Hsub.
  - apply authorizeSubmit_refuses in Hauth as ->. intros [= <- <-]. right. split; [set_solver|done].
Qed.

(** An escrow is taken only from a node on record for the task, for a task that
    has not ended; a refusal leaves the engine unchanged. *)
Lemma escrow_authorised req producer s code s' :
  HandleServiceEscrow (Some req) (Some producer) s = (Ok code, s') →
  (code ∈ [403; 404; 409]%Z ∧ s' = s) ∨
  (known_producer s (EsTaskID req) producer ∧
   (∀ cur, taskStatuses (table s) !! EsTaskID req = Some cur → terminal cur = false) ∧
   (code = 200%Z → is_Some (escrowTasks s' !! EsTaskID req))).
Proof.
  unfold HandleServiceEscrow. unfold mbind at 1, st_bind at 1, gets. cbn [id].
  destruct (_ && _); [intros [= <- <-]; left; split; [set_solver|done]|].
  destruct (_ && _); [intros [= <- <-]; left; split; [set_solver|done]|].
  unfold escrowRefusal. rw -known_producer_authorised. unfold isAuthorizedCallbackProducer.
  destruct (taskStatusMeta (table s) !! EsTaskID req) as [meta|] eqn:Hmeta; simpl.
  2: { intros [= <- <-]. left. split; [case_bool_decide; set_solver|done]. }
  destruct (_ && negb _) eqn:Hauth; [intros [= <- <-]; left; split; [set_solver|done]|].
  destruct (match taskStatuses (table s) !! EsTaskID req with Some _ => _ | None => _ end) as [c|] eqn:Hterm.
  { intros [= <- <-]. left. split; [|done]. repeat case_match; simplify_eq; set_solver. }
  unfold mbind, st_bind. destruct (PutTaskInEscrow (filledEscrow s producer req) s) as [[e|e] s1] eqn:Hput; [|done].
  intros [= <- <-]. right. split; [|split].
  - apply andb_false_iff in Hauth as [[H1 H2]%orb_false_iff|H]; [|apply negb_false_iff in H; by rw H orb_true_r].
    apply bool_decide_eq_false in H1, H2. apply dec_stable in H2.
    rw (bool_decide_eq_true_2 _ H1) (bool_decide_eq_true_2 _ H2). done.
  - intros cur Hcur. rw Hcur in Hterm. by destruct (terminal cur).
  - destruct e as [e|]; [done|]. intros _. by apply (PutTaskInEscrow_escrows _ _ _ _ I Hput).
Qed.
End handlers.

Lemma submission_authorised_witness :
  may_submit (engine_with "svc" echo (script [] [])) "me" (task "t" "svc" None).
Proof.
  destruct (submission_authorised (task "t" "svc" None) "me" (engine_with "svc" echo (script [] [])) 202
    (HandleServiceSubmit (Some (task "t" "svc" None)) (Some "me") (engine_with "svc" echo (script [] []))).2) as [[_ H]|[H _]].
  - apply run_result. vm_compute. reflexivity.
  - exact H.
  - exfalso. repeat (apply elem_of_cons in H as [H|H]; [discriminate H|]). by apply elem_of_nil in H.
Defined.
