(* ===== verification/Relay.v ===== *)
(** * Routes, the guard and the relay

    [internal/server/handlers.go] and [mtls.go]: the table of routes and the
    guard in front of every handler.  [internal/server/relay.go]: a sponsor
    forwards requests to peers it cannot dial.  A forwarded request waits in
    the queue of its target, the target polls, answers through its own
    handlers, and posts the reply to the forwarder that waits for it.

    Handlers block and interleave, so each is cut into the atomic steps
    between its channel and mutex operations: [forwardNext], [pollNext] and
    [replyNext] run one step of a handler that is under way. *)
From Stdlib Require Import Ascii String.
From S2P Require Import Prelude GoStrings Json Protocol PeerRegistry.
Local Open Scope stdpp_scope.

(** ** Routes *)

Definition PathUpload := "/upload".
Definition PathDownloadPrefix := "/download/".
Definition PathClusterJoin := "/cluster/join".
Definition PathRelayPoll := "/relay/poll".
Definition PathRelayForward := "/relay/forward".
Definition PathRelayReply := "/relay/reply".
Definition PathPeersAnnounce := "/peers/announce".
Definition PathPeersProbe := "/peers/probe".
Definition ServicesPrefix := "/services/".
Definition MaxRelayBodyBytes : Z := 65536.

Inductive authMode := authMTLS | authAnonymous | authMTLSUnregistered.

Record httpRoute := { RtMethod : string; RtPath : string; RtAuth : authMode; RelayAnon : bool }.

(** A route with the zero values of the policy fields. *)
Definition route (m p : string) : httpRoute := {| RtMethod := m; RtPath := p; RtAuth := authMTLS; RelayAnon := false |}.

Definition httpRoutes : list httpRoute :=
  [ route "POST" PathUpload; route "GET" PathDownloadPrefix; route "DELETE" "/file"; route "GET" "/manifest";
    route "POST" "/subscribe"; route "POST" "/notify";
    route "POST" "/services/bid"; route "POST" "/services/submit"; route "POST" "/services/stream";
    route "POST" "/services/callback"; route "POST" "/services/escrow"; route "POST" "/services/notify";
    route "GET" "/services"; route "POST" "/schemas/notify";
    route "GET" "/peers";
    {| RtMethod := "POST"; RtPath := PathPeersAnnounce; RtAuth := authMTLSUnregistered; RelayAnon := false |};
    route "POST" "/peers/add"; route "POST" "/peers/leave"; route "POST" "/peers/offline"; route "POST" "/peers/invite";
    {| RtMethod := "POST"; RtPath := PathPeersProbe; RtAuth := authAnonymous; RelayAnon := false |};
    {| RtMethod := "POST"; RtPath := PathClusterJoin; RtAuth := authAnonymous; RelayAnon := true |};
    route "POST" "/cluster/rotate";
    route "GET" PathRelayPoll;
    {| RtMethod := "POST"; RtPath := PathRelayForward; RtAuth := authAnonymous; RelayAnon := false |};
    route "POST" PathRelayReply; route "POST" "/holepunch/init"; route "POST" "/webrtc/signal";
    route "GET" "/telemetry" ].

Record routePolicy := { auth : authMode; relayAnon : bool }.

Definition routeIndex : gmap string routePolicy :=
  foldl (λ idx r, <[RtPath r := {| auth := RtAuth r; relayAnon := RelayAnon r |}]> idx) ∅ httpRoutes.

(** A missing key reads as the zero policy. *)
Definition policyOf (path : string) : routePolicy :=
  default {| auth := authMTLS; relayAnon := false |} (routeIndex !! path).

Definition routeAuth (path : string) : authMode := auth (policyOf path).
Definition relayAllowsAnonymous (path : string) : bool := relayAnon (policyOf path).

Arguments routeIndex : simpl never.
Arguments policyOf _ : simpl never.
Arguments routeAuth _ : simpl never.

(** ** The guard *)

Section guard.
Context {Cert : Type}.
Implicit Types pr : PeerRegistry Cert.

(** [r.TLS]: the peer's certificates, each with its common name. *)
Definition tlsState : Type := option (list (string * Cert)).

Definition PeerCNFromTLS (state : tlsState) : option string :=
  match state with
  | Some ((cn, _) :: _) => if bool_decide (cn = "") then None else Some cn
  | _ => None
  end.

Definition leafCert (state : tlsState) : option Cert :=
  match state with Some ((_, c) :: _) => Some c | _ => None end.

(** The status and text of the guard's refusal, or the peer it lets pass
    ([None]: an anonymous route). *)
Definition guardVerdict (self : string) pr (path : string) (state : tlsState) : (Z * string) + option string :=
  match routeAuth path with
  | authAnonymous => inr None
  | mode =>
      match PeerCNFromTLS state with
      | None => inl (403%Z, "mTLS certificate required")
      | Some peerID =>
          if match mode with authMTLSUnregistered => false | _ => true end &&
             bool_decide (GetPeerRecord pr peerID = None) && bool_decide (peerID ≠ self)
          then inl (403%Z, "peer not registered in cluster")
          else inr (Some peerID)
      end
  end.

Definition mTLSGuard {A} (self : string) (refuse : Z → string → A) (next : PeerRegistry Cert → A * PeerRegistry Cert)
    (path : string) (state : tlsState) pr : A * PeerRegistry Cert :=
  match guardVerdict self pr path state with
  | inl (code, text) => (refuse code text, pr)
  | inr None => next pr
  | inr (Some peerID) => next (SetPeerOnline peerID true (SetPeerCertificate peerID (leafCert state) pr))
  end.
End guard.

(** ** Messages *)

Record RelayRequest := {
  RlReqID : string;
  RlTarget : string;
  RlMethod : string;
  RlPath : string;
  RlHeaders : gmap string string;
  RlBody : string;
  RlOriginPeerID : string }.

Record RelayResponse := {
  RrReqID : string;
  RrStatusCode : Z;
  RrHeaders : gmap string string;
  RrBody : string }.

Definition withOrigin (cn : string) (req : RelayRequest) : RelayRequest :=
  {| RlReqID := RlReqID req; RlTarget := RlTarget req; RlMethod := RlMethod req; RlPath := RlPath req;
     RlHeaders := RlHeaders req; RlBody := RlBody req; RlOriginPeerID := cn |}.

Definition maxRelayJSONBytes : Z := 2 * MaxRelayBodyBytes.
Definition relayQueueSize : nat := 10.

Definition relayCapExceeded (size : Z) : bool := (MaxRelayBodyBytes <? size)%Z.

Definition relayCapMessage (what : string) : string :=
  what +:+ " exceeds " +:+ itoa (Z.to_N (MaxRelayBodyBytes / 1024)) +:+ "KB limit".

(** A request body: its declared length (-1 when unknown) and what the
    decoder makes of it behind [http.MaxBytesReader]. *)
Inductive decoded (T : Type) := Decoded (payload : T) | BodyTooLarge | BadJSON.
Arguments Decoded {T} payload.
Arguments BodyTooLarge {T}.
Arguments BadJSON {T}.
Record wire (T : Type) := { ContentLength : Z; WireBody : decoded T }.
Arguments ContentLength {T} _.
Arguments WireBody {T} _.

Definition decodeRelayJSON {T} (r : wire T) : Z + T :=
  if (maxRelayJSONBytes <? ContentLength r)%Z then inl 413%Z
  else match WireBody r with
  | Decoded payload => inr payload
  | BodyTooLarge => inl 413%Z
  | BadJSON => inl 400%Z
  end.

Definition byteLen (s : string) : Z := Z.of_nat (str_len s).

(** ** The capped writer *)

Record cappedRelayResponseWriter := { recorderBody : string; written : Z; exceeded : bool }.

Definition newCappedRelayResponseWriter : cappedRelayResponseWriter :=
  {| recorderBody := ""; written := 0; exceeded := false |}.

(** [Write]: the count it reports, whether it reports the error, and the
    writer.  The recorder's buffer takes every byte. *)
Definition cappedWrite (p : string) (w : cappedRelayResponseWriter) : (Z * bool) * cappedRelayResponseWriter :=
  let remaining := (MaxRelayBodyBytes - written w)%Z in
  if (byteLen p <=? remaining)%Z
  then ((byteLen p, false),
        {| recorderBody := recorderBody w +:+ p; written := written w + byteLen p; exceeded := exceeded w |})
  else if (remaining =? 0)%Z
  then ((0%Z, true), {| recorderBody := recorderBody w; written := written w; exceeded := true |})
  else
    let q := str_take (Z.to_nat remaining) p in
    ((byteLen q, true),
     {| recorderBody := recorderBody w +:+ q; written := written w + byteLen q; exceeded := true |}).

(** A handler's writes, one after the other. *)
Definition cappedWrites (ps : list string) (w : cappedRelayResponseWriter) : cappedRelayResponseWriter :=
  foldl (λ w p, (cappedWrite p w).2) w ps.

(** ** The manager *)

Record relayWaiter := { ch : nat; expectedPeer : string }.

(** Response channels are named by the order of their creation; [chans] is
    what each has buffered (one place).  Queues have [relayQueueSize] places
    and are never removed, so the peer names its queue. *)
Record RelayManager := {
  queues : gmap string (list RelayRequest);
  waiters : gmap string relayWaiter;
  chans : gmap nat (list RelayResponse);
  nextChan : nat }.

Definition NewRelayManager : RelayManager := {| queues := ∅; waiters := ∅; chans := ∅; nextChan := 0 |}.

Implicit Types rm : RelayManager.

Definition with_queues (f : gmap string (list RelayRequest) → gmap string (list RelayRequest)) rm : RelayManager :=
  {| queues := f (queues rm); waiters := waiters rm; chans := chans rm; nextChan := nextChan rm |}.
Definition with_waiters (f : gmap string relayWaiter → gmap string relayWaiter) rm : RelayManager :=
  {| queues := queues rm; waiters := f (waiters rm); chans := chans rm; nextChan := nextChan rm |}.
Definition with_chans (f : gmap nat (list RelayResponse) → gmap nat (list RelayResponse)) rm : RelayManager :=
  {| queues := queues rm; waiters := waiters rm; chans := f (chans rm); nextChan := nextChan rm |}.

(** [None]: unknown peer. *)
Definition GetOrCreateQueue {Cert} (self : string) (pr : PeerRegistry Cert) (peerID : string) rm : option RelayManager :=
  if bool_decide (peerID ≠ self) && bool_decide (GetPeerRecord pr peerID = None) then None
  else Some (match queues rm !! peerID with
             | Some _ => rm
             | None => with_queues (<[peerID := []]>) rm
             end).

(** [None]: the empty request ID, or a waiter already there. *)
Definition RegisterWaiter (reqID peer : string) rm : option (nat * RelayManager) :=
  if bool_decide (reqID = "") then None
  else match waiters rm !! reqID with
  | Some _ => None
  | None =>
      let c := nextChan rm in
      Some (c, {| queues := queues rm; waiters := <[reqID := {| ch := c; expectedPeer := peer |}]> (waiters rm);
                  chans := <[c := []]> (chans rm); nextChan := S c |})
  end.

Definition RemoveWaiter (reqID : string) (c : option nat) rm : RelayManager :=
  match c, waiters rm !! reqID with
  | Some c, Some w => if bool_decide (ch w ≠ c) then rm else with_waiters (delete reqID) rm
  | _, _ => with_waiters (delete reqID) rm
  end.

Definition GetWaiter (reqID : string) rm : option (nat * string) :=
  (λ w, (ch w, expectedPeer w)) <$> waiters rm !! reqID.

(** Sending without blocking: [None] when the buffer is full. *)
Definition trySend {A} (cap : nat) (a : A) (buf : list A) : option (list A) :=
  if bool_decide (length buf < cap) then Some (buf ++ [a]) else None.

Definition enqueueRelay (req : RelayRequest) rm : option RelayManager :=
  (λ q, with_queues (<[RlTarget req := q]>) rm)
    <$> trySend relayQueueSize req (default [] (queues rm !! RlTarget req)).

(** ** Forwarding *)

(** The checks of [HandleRelayForward] on the body and the sender, up to the
    queue: a status, or the request as it goes on. *)
Definition admitForward (self : string) (r : wire RelayRequest) (peer : option string) : Z + RelayRequest :=
  match decodeRelayJSON r with
  | inl code => inl code
  | inr req =>
      if relayCapExceeded (byteLen (RlBody req)) then inl 413%Z
      else if bool_decide (RlTarget req = "") || bool_decide (RlReqID req = "") then inl 400%Z
      else if bool_decide (RlTarget req = self) then inl 400%Z
      else match peer with
      | Some cn =>
          if bool_decide (RlOriginPeerID req = "") then inr (withOrigin cn req)
          else if bool_decide (RlOriginPeerID req ≠ cn) then inl 403%Z
          else inr req
      | None =>
          if relayAllowsAnonymous (RlPath req) then inr (withOrigin "" req) else inl 403%Z
      end
  end.

(** A forwarding handler between its steps.  [FReturn] still has the deferred
    removal of its waiter to do. *)
Inductive forward_pc :=
  | FAdmitted (req : RelayRequest)
  | FQueue (req : RelayRequest)
  | FRegistered (req : RelayRequest) (c : nat)
  | FWaiting (req : RelayRequest) (c : nat)
  | FReturn (req : RelayRequest) (c : nat) (code : Z) (resp : option RelayResponse)
  | FDone (code : Z) (resp : option RelayResponse).

Definition answerForward (resp : RelayResponse) : Z * option RelayResponse :=
  if relayCapExceeded (byteLen (RrBody resp)) then (413%Z, None) else (200%Z, Some resp).

(** One step of the handler; [timeout]: its context has ended.  [None]: it is
    blocked, or it has returned. *)
Definition forwardNext {Cert} (self : string) (pr : PeerRegistry Cert) (timeout : bool) (pc : forward_pc) rm
    : option (forward_pc * RelayManager) :=
  match pc with
  | FAdmitted req =>
      Some (match GetOrCreateQueue self pr (RlTarget req) rm with
            | None => (FDone 404 None, rm)
            | Some rm => (FQueue req, rm)
            end)
  | FQueue req =>
      Some (match RegisterWaiter (RlReqID req) (RlTarget req) rm with
            | None => (FDone 409 None, rm)
            | Some (c, rm) => (FRegistered req c, rm)
            end)
  | FRegistered req c =>
      Some (match enqueueRelay req rm with
            | None => (FReturn req c 503 None, rm)
            | Some rm => (FWaiting req c, rm)
            end)
  | FWaiting req c =>
      if timeout then Some (FReturn req c 504 None, rm)
      else match chans rm !! c with
      | Some (resp :: rest) =>
          let '(code, answer) := answerForward resp in
          Some (FReturn req c code answer, with_chans (<[c := rest]>) rm)
      | _ => None
      end
  | FReturn req c code resp => Some (FDone code resp, RemoveWaiter (RlReqID req) (Some c) rm)
  | FDone _ _ => None
  end.

Definition startForward (self : string) (r : wire RelayRequest) (peer : option string) : forward_pc :=
  match admitForward self r peer with
  | inl code => FDone code None
  | inr req => FAdmitted req
  end.

(** ** Polling and replying *)

Inductive poll_pc :=
  | PWaiting (peer : string)
  | PDone (code : Z) (req : option RelayRequest).

(** [id]: the query parameter, empty when missing. *)
Definition startPoll {Cert} (self : string) (pr : PeerRegistry Cert) (id : string) (peer : option string) rm
    : poll_pc * RelayManager :=
  if bool_decide (id = "") then (PDone 400 None, rm)
  else if match peer with Some cn => bool_decide (cn ≠ id) | None => false end then (PDone 403 None, rm)
  else match GetOrCreateQueue self pr id rm with
  | None => (PDone 404 None, rm)
  | Some rm => (PWaiting id, rm)
  end.

Definition pollNext (timeout : bool) (pc : poll_pc) rm : option (poll_pc * RelayManager) :=
  match pc with
  | PWaiting peer =>
      if timeout then Some (PDone 204 None, rm)
      else match queues rm !! peer with
      | Some (req :: rest) => Some (PDone 200 (Some req), with_queues (<[peer := rest]>) rm)
      | _ => None
      end
  | PDone _ _ => None
  end.

Inductive reply_pc :=
  | RFound (cn : string) (resp : RelayResponse) (c : nat)
  | RDone (code : Z).

Definition startReply (r : wire RelayResponse) (peer : option string) rm : reply_pc :=
  match decodeRelayJSON r with
  | inl code => RDone code
  | inr resp =>
      if relayCapExceeded (byteLen (RrBody resp)) then RDone 413
      else match peer with
      | None => RDone 403
      | Some cn =>
          match GetWaiter (RrReqID resp) rm with
          | None => RDone 404
          | Some (c, expected) =>
              if bool_decide (expected ≠ "") && bool_decide (cn ≠ expected) then RDone 403
              else RFound cn resp c
          end
      end
  end.

Definition replyNext (pc : reply_pc) rm : option (reply_pc * RelayManager) :=
  match pc with
  | RFound _ resp c =>
      Some (match trySend 1 resp (default [] (chans rm !! c)) with
            | Some buf => (RDone 200, with_chans (<[c := buf]>) rm)
            | None => (RDone 500, rm)
            end)
  | RDone _ => None
  end.

(** ** The target *)

(** What a handler does to its response writer: the status and headers that
    the recorder ends with, and its writes. *)
Record responseTrace := { TrStatus : Z; TrHeader : gmap string (list string); TrWrites : list string }.

Record HTTPRequest (Cert : Type) := {
  RqMethod : string;
  RqPath : string;
  RqHeader : gmap string (list string);
  RqBody : string;
  RqTLS : @tlsState Cert }.
Arguments RqMethod {Cert} _.
Arguments RqPath {Cert} _.
Arguments RqHeader {Cert} _.
Arguments RqBody {Cert} _.
Arguments RqTLS {Cert} _.

Definition dquote : string := String (ascii_of_nat 34) EmptyString.

(** The JSON object of an error text without characters to escape. *)
Definition errorJSON (text : string) : string :=
  "{" +:+ dquote +:+ "error" +:+ dquote +:+ ":" +:+ dquote +:+ text +:+ dquote +:+ "}".

Definition newline : string := String (ascii_of_nat 10) EmptyString.

Definition RespondError (code : Z) (text : string) : responseTrace :=
  {| TrStatus := code; TrHeader := {[ "Content-Type" := ["application/json"] ]};
     TrWrites := [errorJSON text +:+ newline] |}.

Definition FlattenHTTPHeader (h : gmap string (list string)) : gmap string string := String.concat "," <$> h.

Section target.
Context {Cert : Type}.
(** [net/http]: the path of the request made from a method and a URL, or its
    refusal; the canonical form of a header key; Go's order of a map; a
    certificate with a subject only. *)
Variable newRequest : string → string → option string.
Variable canonicalKey : string → string.
Variable rangeOrder : list (string * string) → list (string * string).
Variable bareCert : string → Cert.
(** The handlers behind the guard. *)
Variable mux : HTTPRequest Cert → PeerRegistry Cert → responseTrace * PeerRegistry Cert.

(** [s.handler]. *)
Definition serveHTTP (self : string) (req : HTTPRequest Cert) (pr : PeerRegistry Cert) : responseTrace * PeerRegistry Cert :=
  mTLSGuard self RespondError (mux req) (RqPath req) (RqTLS req) pr.

Definition setHeaders (h : gmap string string) : gmap string (list string) :=
  foldl (λ m kv, <[canonicalKey kv.1 := [kv.2]]> m) ∅ (rangeOrder (map_to_list h)).

(** The request the target hands to its own handlers. *)
Definition localRequest (relayReq : RelayRequest) (path : string) : HTTPRequest Cert :=
  {| RqMethod := RlMethod relayReq; RqPath := path; RqHeader := setHeaders (RlHeaders relayReq);
     RqBody := RlBody relayReq;
     RqTLS := if bool_decide (RlOriginPeerID relayReq ≠ "")
              then Some [(RlOriginPeerID relayReq, bareCert (RlOriginPeerID relayReq))] else None |}.

Definition relayError (relayReq : RelayRequest) (code : Z) (text : string) : RelayResponse :=
  {| RrReqID := RlReqID relayReq; RrStatusCode := code; RrHeaders := ∅; RrBody := errorJSON text |}.

Definition recordResponse (relayReq : RelayRequest) (tr : responseTrace) : RelayResponse :=
  let w := cappedWrites (TrWrites tr) newCappedRelayResponseWriter in
  let headers := FlattenHTTPHeader (TrHeader tr) in
  if exceeded w
  then {| RrReqID := RlReqID relayReq; RrStatusCode := 413; RrHeaders := headers;
          RrBody := errorJSON (relayCapMessage "relay response") |}
  else {| RrReqID := RlReqID relayReq; RrStatusCode := TrStatus tr; RrHeaders := headers; RrBody := recorderBody w |}.

(** The response sent to the sponsor. *)
Definition processRelayRequest (self : string) (relayReq : RelayRequest) (pr : PeerRegistry Cert)
    : RelayResponse * PeerRegistry Cert :=
  if relayCapExceeded (byteLen (RlBody relayReq))
  then (relayError relayReq 413 (relayCapMessage "relay payload"), pr)
  else match newRequest (RlMethod relayReq) ("http://127.0.0.1" +:+ RlPath relayReq) with
  | None => (relayError relayReq 400 "invalid relay request", pr)
  | Some path =>
      let '(tr, pr) := serveHTTP self (localRequest relayReq path) pr in
      (recordResponse relayReq tr, pr)
  end.
End target.

(** ** The polling loop *)

Definition second : Z := 1000000000.

Definition pollInterval (configured dflt : Z) : Z :=
  (let d := wrap64 (configured * second) in if d <=? 0 then dflt * second else d)%Z.

Record pollLoop := { sponsorAddr : string; currentSleep : Z }.

(** The sleep before the next poll, after one without a message. *)
Definition nextSleep (minConf maxConf sleep : Z) : Z :=
  (if sleep =? 0 then pollInterval minConf 2
   else Z.min (wrap64 (sleep + 2 * second)) (pollInterval maxConf 45))%Z.

(** An iteration of [StartRelayPolling] after its poll: the loop's next state
    and the request it processes, with the sponsor that gets the response.
    [None]: the poll failed; a poll without a message brings the zero
    request. *)
Definition pollIteration {Cert} (minConf maxConf : Z) (pr : PeerRegistry Cert) (polled : option RelayRequest) (l : pollLoop)
    : pollLoop * option (string * RelayRequest) :=
  match polled with
  | None =>
      ({| sponsorAddr := default (sponsorAddr l) (selectSponsor pr (sponsorAddr l)); currentSleep := currentSleep l |}, None)
  | Some req =>
      if bool_decide (RlReqID req = "")
      then ({| sponsorAddr := sponsorAddr l; currentSleep := nextSleep minConf maxConf (currentSleep l) |}, None)
      else ({| sponsorAddr := sponsorAddr l; currentSleep := 0 |}, Some (sponsorAddr l, req))
  end.

(** ** Work slots *)

(** The semaphore's count.  [beginWork] takes a place, and gives it back when
    the server has ended meanwhile; [None]: blocked. *)
Definition beginWork (lifetimeEnded : bool) (slots : nat) : option (bool * nat) :=
  if bool_decide (slots < relayQueueSize)
  then Some (if lifetimeEnded then (false, slots) else (true, S slots))
  else None.

(** [finish]: [once] gives the place back the first time only. *)
Definition finishWork (done : bool) (slots : nat) : bool * nat := (true, if done then slots else pred slots).
