(* ===== verification/RelayLaws.v ===== *)
(** * Laws of the relay

    The sponsor's relay as a transition system: any number of forwards, polls
    and replies run at once, one step at a time, while the registry changes
    under them.  An answer comes from the peer the request was for, a polled
    request was sent by who it says, queues and waiters stay bounded; a
    request forwarded, polled, processed and replied comes back with what the
    target's handlers wrote. *)
From Stdlib Require Import Ascii String.
From S2P Require Import Prelude GoStrings Json Protocol PeerRegistry Relay.
Local Open Scope stdpp_scope.

(** ** The capped writer *)

Lemma str_take_le n s : (str_len (str_take n s) ≤ n)%nat.
Proof. revert s. induction n as [|n IH]; intros [|c s]; simpl; [lia..|]. specialize (IH s). lia. Qed.

Lemma str_len_take n s : str_len (str_take n s) = Nat.min n (str_len s).
Proof. revert s. induction n as [|n IH]; intros [|c s]; simpl; [done..|]. by rw IH. Qed.

Lemma str_take_app_le n s t : (str_len s ≤ n)%nat → str_take n (s +:+ t) = s +:+ str_take (n - str_len s) t.
Proof.
  revert s. induction n as [|n IH]; intros [|c s] Hle; simpl in *; [done|lia|done|].
  change (String c (str_take n (s +:+ t)) = String c (s +:+ str_take (n - str_len s) t)). f_equal. apply IH. lia.
Qed.

Lemma str_take_all n s : (str_len s ≤ n)%nat → str_take n s = s.
Proof. revert s. induction n as [|n IH]; intros [|c s] Hle; simpl in *; [done|lia|done|]. f_equal. apply IH. lia. Qed.

(** The bytes a sequence of writes was asked to write. *)
Definition written_text (ps : list string) : string := foldr (λ p t, p +:+ t) "" ps.

(** What the writer holds of a text: its first bytes, and whether there were
    more. *)
Definition capped (text : string) : cappedRelayResponseWriter :=
  {| recorderBody := str_take (Z.to_nat MaxRelayBodyBytes) text;
     written := Z.min MaxRelayBodyBytes (byteLen text);
     exceeded := (MaxRelayBodyBytes <? byteLen text)%Z |}.

Ltac zbool :=
  repeat first [ lia
    | match goal with
      | |- context [Z.ltb ?a ?b] => destruct (Z.ltb_spec a b)
      | H : context [Z.ltb ?a ?b] |- _ => destruct (Z.ltb_spec a b)
      | H : context [Z.leb ?a ?b] |- _ => destruct (Z.leb_spec a b)
      | H : context [Z.eqb ?a ?b] |- _ => destruct (Z.eqb_spec a b)
      end
    | done ].

Lemma cappedWrite_capped p text : (cappedWrite p (capped text)).2 = capped (text +:+ p).
Proof.
  unfold cappedWrite, capped, byteLen. cbn [written recorderBody exceeded].
  assert (0 < MaxRelayBodyBytes)%Z as Hpos by done. generalize dependent MaxRelayBodyBytes. intros cap Hpos.
  rw str_len_app. destruct (Z.leb_spec (Z.of_nat (str_len text)) cap) as [Hle|Hgt].
  - rw (Z.min_r cap (Z.of_nat (str_len text))) //.
    rw (str_take_all (Z.to_nat cap) text); [|lia]. rw str_take_app_le; [|lia].
    case_match eqn:E1; simpl.
    { rw str_take_all; [|zbool]. f_equal; zbool. }
    case_match eqn:E2; simpl.
    + assert (Z.to_nat cap - str_len text = 0)%nat as -> by zbool.
      replace (str_take 0 p) with "" by by destruct p. rw str_app_nil_r. f_equal; zbool.
    + replace (Z.to_nat (cap - Z.of_nat (str_len text))) with (Z.to_nat cap - str_len text)%nat by lia.
      rw str_len_take. f_equal; zbool.
  - assert (str_take (Z.to_nat cap) (text +:+ p) = str_take (Z.to_nat cap) text) as ->.
    { rw -{1}(str_take_drop (Z.to_nat cap) text) str_app_assoc.
      assert (str_len (str_take (Z.to_nat cap) text) = Z.to_nat cap) as Hl by (rw str_len_take; lia).
      by rw -{1}Hl str_take_app. }
    case_match eqn:E1; simpl.
    { assert (p = "") as -> by (destruct p; [done|simpl in *; zbool]). simpl. rw str_app_nil_r. f_equal; zbool. }
    case_match eqn:E2; simpl; [f_equal; zbool|zbool].
Qed.

(** Whatever a handler writes and in whatever pieces, the recorder holds
    the first [MaxRelayBodyBytes] bytes of it, and the writer reports an
    excess exactly when there were more. *)
Lemma cappedWrites_exact ps :
  cappedWrites ps newCappedRelayResponseWriter = capped (written_text ps).
Proof.
  change newCappedRelayResponseWriter with (capped ""). change (written_text ps) with ("" +:+ written_text ps).
  generalize "" as text. induction ps as [|p ps IH]; intros text; cbn.
  { by rw str_app_nil_r. }
  change (foldl _ _ ps) with (cappedWrites ps (cappedWrite p (capped text)).2).
  rw cappedWrite_capped IH str_app_assoc. done.
Qed.

Lemma recordResponse_bounded relayReq tr :
  relayCapExceeded (byteLen (RrBody (recordResponse relayReq tr))) = false.
Proof.
  unfold recordResponse. rw cappedWrites_exact. cbn [exceeded capped recorderBody]. case_match; cbn; [by vm_compute|].
  unfold relayCapExceeded, byteLen in *. rw str_len_take. zbool.
Qed.

(** ** The polling loop *)

(** Unless it overflows, the sleep stays between zero and the larger of the
    configured intervals. *)
Lemma nextSleep_bounds minConf maxConf sleep :
  (0 ≤ sleep)%Z → (sleep + 2 * second ≤ max_int64)%Z →
  (0 < nextSleep minConf maxConf sleep ≤ Z.max (pollInterval minConf 2) (pollInterval maxConf 45))%Z.
Proof.
  intros H0 Hmax. assert (∀ conf d, (0 < d)%Z → (0 < pollInterval conf d)%Z) as Hpos.
  { intros conf d Hd. unfold pollInterval, second. cbv zeta. destruct (Z.leb_spec (wrap64 (conf * 1000000000)) 0); lia. }
  unfold nextSleep. rw (wrap64_id (sleep + 2 * second)); [|unfold is_int64, min_int64, second in *; lia].
  pose proof (Hpos minConf 2%Z eq_refl). pose proof (Hpos maxConf 45%Z eq_refl). unfold second in *.
  destruct (Z.eqb_spec sleep 0); lia.
Qed.

(** The slots in use never exceed the number of places. *)
Lemma beginWork_bounded ended slots ok slots' :
  beginWork ended slots = Some (ok, slots') → slots' ≤ relayQueueSize ∧ (ok = true → slots' = S slots).
Proof. unfold beginWork. case_bool_decide; [|done]. destruct ended; intros [= <- <-]; naive_solver lia. Qed.

(** ** The relay as a transition system *)

Section system.
Context {Cert : Type} (self : string).
Implicit Types (pr : PeerRegistry Cert) (tls : @tlsState Cert) (req : RelayRequest) (resp : RelayResponse).

(** What happened so far: a request admitted on behalf of a certificate (or
    none), a waiter registered, a request handed to a poll, a reply accepted
    from a peer, an answer returned to a forwarder. *)
Inductive event :=
  | EvForward (cn : option string) (req : RelayRequest)
  | EvRegister (c : nat) (reqID peer : string)
  | EvPoll (cn : string) (req : RelayRequest)
  | EvReply (cn : string) (resp : RelayResponse)
  | EvAnswer (req : RelayRequest) (resp : RelayResponse).

Record relay := {
  registry : PeerRegistry Cert;
  manager : RelayManager;
  forwards : gmap nat forward_pc;
  polls : gmap nat (string * poll_pc);
  replies : gmap nat reply_pc;
  history : list event }.
Implicit Types s : relay.

Definition relay_init pr : relay :=
  {| registry := pr; manager := NewRelayManager; forwards := ∅; polls := ∅; replies := ∅; history := [] |}.

(** The events of a step, from what the handler did. *)
Definition forwardEvents (old new : forward_pc) : list event :=
  match old, new with
  | FQueue req, FRegistered _ c => [EvRegister c (RlReqID req) (RlTarget req)]
  | FWaiting req _, FReturn _ _ _ (Some resp) => [EvAnswer req resp]
  | _, _ => []
  end.

Definition pollEvents (cn : string) (new : poll_pc) : list event :=
  match new with PDone _ (Some req) => [EvPoll cn req] | _ => [] end.

Definition replyEvents (new : reply_pc) : list event :=
  match new with RFound cn resp _ => [EvReply cn resp] | RDone _ => [] end.

Definition startEvents (peer : option string) (new : forward_pc) : list event :=
  match new with FAdmitted req => [EvForward peer req] | _ => [] end.

(** Polls and replies come through the guard with the identity it checked;
    the route of forwards is anonymous. *)
Inductive relay_step s : relay → Prop :=
  | step_registry pr :
      relay_step s {| registry := pr; manager := manager s; forwards := forwards s; polls := polls s;
                      replies := replies s; history := history s |}
  | step_new_forward i body tls :
      forwards s !! i = None →
      let pc := startForward self body (PeerCNFromTLS tls) in
      relay_step s {| registry := registry s; manager := manager s; forwards := <[i := pc]> (forwards s);
                      polls := polls s; replies := replies s;
                      history := startEvents (PeerCNFromTLS tls) pc ++ history s |}
  | step_forward i timeout pc pc' rm :
      forwards s !! i = Some pc →
      forwardNext self (registry s) timeout pc (manager s) = Some (pc', rm) →
      relay_step s {| registry := registry s; manager := rm; forwards := <[i := pc']> (forwards s);
                      polls := polls s; replies := replies s; history := forwardEvents pc pc' ++ history s |}
  | step_new_poll i id tls cn pc rm :
      polls s !! i = None →
      guardVerdict self (registry s) PathRelayPoll tls = inr (Some cn) →
      startPoll self (registry s) id (PeerCNFromTLS tls) (manager s) = (pc, rm) →
      relay_step s {| registry := registry s; manager := rm; forwards := forwards s;
                      polls := <[i := (cn, pc)]> (polls s); replies := replies s; history := history s |}
  | step_poll i timeout cn pc pc' rm :
      polls s !! i = Some (cn, pc) →
      pollNext timeout pc (manager s) = Some (pc', rm) →
      relay_step s {| registry := registry s; manager := rm; forwards := forwards s;
                      polls := <[i := (cn, pc')]> (polls s); replies := replies s;
                      history := pollEvents cn pc' ++ history s |}
  | step_new_reply i body tls cn :
      replies s !! i = None →
      guardVerdict self (registry s) PathRelayReply tls = inr (Some cn) →
      let pc := startReply body (PeerCNFromTLS tls) (manager s) in
      relay_step s {| registry := registry s; manager := manager s; forwards := forwards s; polls := polls s;
                      replies := <[i := pc]> (replies s); history := replyEvents pc ++ history s |}
  | step_reply i pc pc' rm :
      replies s !! i = Some pc →
      replyNext pc (manager s) = Some (pc', rm) →
      relay_step s {| registry := registry s; manager := rm; forwards := forwards s; polls := polls s;
                      replies := <[i := pc']> (replies s); history := history s |}.

Definition relay_reachable (pr : PeerRegistry Cert) s : Prop := rtc relay_step (relay_init pr) s.

(** ** Its invariant *)

(** A request as [admitForward] lets it pass for a sender. *)
Definition admitted (peer : option string) req : Prop :=
  RlTarget req ≠ "" ∧ RlReqID req ≠ "" ∧ RlTarget req ≠ self ∧ (byteLen (RlBody req) ≤ MaxRelayBodyBytes)%Z ∧
  match peer with
  | Some cn => RlOriginPeerID req = cn
  | None => RlOriginPeerID req = "" ∧ relayAllowsAnonymous (RlPath req) = true
  end.

Definition sent (h : list event) req : Prop := ∃ peer, EvForward peer req ∈ h ∧ admitted peer req.

(** The channel belongs to the request. *)
Definition owns (h : list event) (c : nat) req : Prop := EvRegister c (RlReqID req) (RlTarget req) ∈ h.

(** The reply came from the peer the channel's request is for. *)
Definition genuine (h : list event) (c : nat) resp : Prop :=
  ∃ peer, EvRegister c (RrReqID resp) peer ∈ h ∧ EvReply peer resp ∈ h ∧ (byteLen (RrBody resp) ≤ MaxRelayBodyBytes)%Z.

Definition forward_ok (h : list event) (pc : forward_pc) : Prop :=
  match pc with
  | FAdmitted req | FQueue req => sent h req
  | FRegistered req c | FWaiting req c | FReturn req c _ _ => sent h req ∧ owns h c req
  | FDone _ _ => True
  end.

(** The channel a handler has a waiter for. *)
Definition waiting_on (pc : forward_pc) : option (string * nat) :=
  match pc with
  | FRegistered req c | FWaiting req c | FReturn req c _ _ => Some (RlReqID req, c)
  | _ => None
  end.

Definition poll_ok (cn : string) (pc : poll_pc) : Prop :=
  match pc with PWaiting peer => peer = cn | PDone _ _ => True end.

Definition reply_ok (h : list event) (pc : reply_pc) : Prop :=
  match pc with RFound cn resp c => genuine h c resp | RDone _ => True end.

Definition event_ok (h : list event) (e : event) : Prop :=
  match e with
  | EvPoll cn req => RlTarget req = cn ∧ sent h req
  | EvAnswer req resp =>
      sent h req ∧ EvReply (RlTarget req) resp ∈ h ∧ RrReqID resp = RlReqID req ∧
      (byteLen (RrBody resp) ≤ MaxRelayBodyBytes)%Z
  | _ => True
  end.

(** The manager's part of the invariant, over a history. *)
Record manager_ok (h : list event) (live : string → nat → Prop) (rm : RelayManager) : Prop := {
  ok_queues : ∀ p q, queues rm !! p = Some q →
    length q ≤ relayQueueSize ∧ ∀ req, req ∈ q → RlTarget req = p ∧ sent h req;
  ok_waiters : ∀ id w, waiters rm !! id = Some w →
    expectedPeer w ≠ "" ∧ EvRegister (ch w) id (expectedPeer w) ∈ h ∧ live id (ch w);
  ok_chans : ∀ c buf, chans rm !! c = Some buf → length buf ≤ 1 ∧ ∀ resp, resp ∈ buf → genuine h c resp;
  ok_registered : ∀ c id p, EvRegister c id p ∈ h → c < nextChan rm;
  ok_register_once : ∀ c id p id' p', EvRegister c id p ∈ h → EvRegister c id' p' ∈ h → id = id' ∧ p = p' }.

(** A forwarder still holds the waiter. *)
Definition holds_waiter (m : gmap nat forward_pc) (id : string) (c : nat) : Prop :=
  ∃ i pc, m !! i = Some pc ∧ waiting_on pc = Some (id, c).

Record relay_inv s : Prop := {
  inv_forwards : ∀ i pc, forwards s !! i = Some pc → forward_ok (history s) pc;
  inv_polls : ∀ i cn pc, polls s !! i = Some (cn, pc) → poll_ok cn pc;
  inv_replies : ∀ i pc, replies s !! i = Some pc → reply_ok (history s) pc;
  inv_manager : manager_ok (history s) (holds_waiter (forwards s)) (manager s);
  inv_history : ∀ e, e ∈ history s → event_ok (history s) e }.

(** More history only adds facts. *)
Section mono.
Context (h h' : list event) (Hsub : h ⊆ h').

Lemma sent_mono req : sent h req → sent h' req.
Proof. intros (peer & Hin & Hadm). exists peer. eauto. Qed.
Lemma genuine_mono c resp : genuine h c resp → genuine h' c resp.
Proof. intros (peer & Hin & Hrep & Hlen). exists peer. eauto. Qed.
Lemma forward_ok_mono pc : forward_ok h pc → forward_ok h' pc.
Proof. destruct pc; simpl; unfold owns; naive_solver eauto using sent_mono. Qed.
Lemma reply_ok_mono pc : reply_ok h pc → reply_ok h' pc.
Proof. destruct pc; simpl; eauto using genuine_mono. Qed.
Lemma event_ok_mono e : event_ok h e → event_ok h' e.
Proof. destruct e; simpl; naive_solver eauto using sent_mono. Qed.
End mono.

(** What a step keeps when it adds the events [evs] and leaves a part of the
    state alone, or replaces one entry of it. *)
Lemma forwards_kept s evs i pc' :
  relay_inv s → forward_ok (evs ++ history s) pc' →
  ∀ j pc, <[i := pc']> (forwards s) !! j = Some pc → forward_ok (evs ++ history s) pc.
Proof.
  intros Hs Hpc j pc [[<- <-]|[_ Hj]]%lookup_insert_Some; [done|].
  eapply forward_ok_mono; [|by eapply inv_forwards]. set_solver.
Qed.

Lemma replies_kept s evs i pc' :
  relay_inv s → reply_ok (evs ++ history s) pc' →
  ∀ j pc, <[i := pc']> (replies s) !! j = Some pc → reply_ok (evs ++ history s) pc.
Proof.
  intros Hs Hpc j pc [[<- <-]|[_ Hj]]%lookup_insert_Some; [done|].
  eapply reply_ok_mono; [|by eapply inv_replies]. set_solver.
Qed.

Lemma polls_kept s i cn' pc' :
  relay_inv s → poll_ok cn' pc' → ∀ j cn pc, <[i := (cn', pc')]> (polls s) !! j = Some (cn, pc) → poll_ok cn pc.
Proof.
  intros Hs Hpc j cn pc [[<- [= <- <-]]|[_ Hj]]%lookup_insert_Some; [done|]. by eapply inv_polls.
Qed.

Lemma history_kept s evs :
  relay_inv s → (∀ e, e ∈ evs → event_ok (evs ++ history s) e) →
  ∀ e, e ∈ evs ++ history s → event_ok (evs ++ history s) e.
Proof.
  intros Hs Hevs e [He|He]%elem_of_app; [by apply Hevs|].
  eapply event_ok_mono; [|by eapply inv_history]. set_solver.
Qed.

Lemma manager_ok_mono h h' live live' rm :
  h ⊆ h' → (∀ c id p, EvRegister c id p ∈ h' → EvRegister c id p ∈ h) →
  (∀ id c, waiters rm !! id ≫= (λ w, Some (ch w)) = Some c → live id c → live' id c) →
  manager_ok h live rm → manager_ok h' live' rm.
Proof.
  intros Hsub Hback Hlive [Hq Hw Hc Hr Ho]. split.
  - intros p q Hp. destruct (Hq p q Hp) as [? Hin]. split; [done|]. intros req Hreq.
    destruct (Hin req Hreq). split; [done|]. by eapply sent_mono.
  - intros id w Hid. destruct (Hw id w Hid) as (? & ? & ?). split_and!; [done|by apply Hsub|].
    apply Hlive; [|done]. by rw Hid.
  - intros c buf Hbuf. destruct (Hc c buf Hbuf) as [? Hin]. split; [done|]. intros resp Hresp.
    eapply genuine_mono; [done|by apply Hin].
  - intros c id p Hin. by eapply Hr, Hback.
  - intros c id p id' p' Hin Hin'. eapply Ho; by apply Hback.
Qed.

(** *** The manager's operations *)

Section ops.
Context (h : list event) (live : string → nat → Prop).
Implicit Types rm : RelayManager.

Lemma set_queue_ok p q rm :
  manager_ok h live rm → length q ≤ relayQueueSize → (∀ req, req ∈ q → RlTarget req = p ∧ sent h req) →
  manager_ok h live (with_queues (<[p := q]>) rm).
Proof.
  intros [Hq Hw Hc Hr Ho] Hlen Hin. split; try done; simpl.
  intros p' q' [[<- <-]|[_ Hp]]%lookup_insert_Some; [done|by apply Hq].
Qed.

Lemma set_chan_ok c buf rm :
  manager_ok h live rm → length buf ≤ 1 → (∀ resp, resp ∈ buf → genuine h c resp) →
  manager_ok h live (with_chans (<[c := buf]>) rm).
Proof.
  intros [Hq Hw Hc Hr Ho] Hlen Hin. split; try done; simpl.
  intros c' buf' [[<- <-]|[_ Hp]]%lookup_insert_Some; [done|by eapply Hc].
Qed.

Lemma GetOrCreateQueue_ok pr peer rm rm' :
  GetOrCreateQueue self pr peer rm = Some rm' → manager_ok h live rm → manager_ok h live rm'.
Proof.
  unfold GetOrCreateQueue. case_match; [done|]. intros [= <-] Hok. case_match; [done|].
  apply set_queue_ok; [done|simpl; lia|set_solver].
Qed.

Lemma enqueueRelay_ok req rm rm' :
  enqueueRelay req rm = Some rm' → sent h req → manager_ok h live rm → manager_ok h live rm'.
Proof.
  unfold enqueueRelay, trySend. intros (q & Hq & ->)%fmap_Some Hsent Hok. case_bool_decide as Hlen; simplify_eq.
  apply set_queue_ok; [done|rw length_app /=; unfold relayQueueSize in *; lia|].
  intros r [Hr| ->%list_elem_of_singleton]%elem_of_app; [|done].
  destruct (queues rm !! RlTarget req) as [q|] eqn:Hq; [|by apply not_elem_of_nil in Hr].
  by apply (ok_queues _ _ _ Hok _ _ Hq).
Qed.

Lemma RegisterWaiter_ok (live' : string → nat → Prop) id p rm c rm' :
  RegisterWaiter id p rm = Some (c, rm') → p ≠ "" → (∀ id c, live id c → live' id c) → live' id c →
  manager_ok h live rm → manager_ok (EvRegister c id p :: h) live' rm'.
Proof.
  unfold RegisterWaiter. case_bool_decide as Hid; [done|]. case_match eqn:Hw; [done|]. intros [= <- <-] Hp Hlive Hnew.
  intros [Hq Hws Hc Hr Ho]. assert (h ⊆ EvRegister (nextChan rm) id p :: h) as Hsub by set_solver. split; simpl.
  - intros p' q Hp'. destruct (Hq p' q Hp') as [? Hin]. split; [done|]. intros req Hreq.
    destruct (Hin req Hreq). split; [done|]. by eapply sent_mono.
  - intros id' w [[<- <-]|[_ Hid']]%lookup_insert_Some; simpl; [split_and!; [done|set_solver|done]|].
    destruct (Hws id' w Hid') as (? & ? & ?). split_and!; [done|set_solver|by apply Hlive].
  - intros c buf [[<- <-]|[_ Hbuf]]%lookup_insert_Some; [split; [simpl; lia|set_solver]|].
    destruct (Hc c buf Hbuf) as [? Hin]. split; [done|]. intros resp Hresp. by eapply genuine_mono, Hin.
  - intros c id' p' [[= -> -> ->]|Hin]%elem_of_cons; [lia|]. specialize (Hr _ _ _ Hin). lia.
  - intros c id1 p1 id2 p2 [[= -> -> ->]|H1]%elem_of_cons [E2|H2]%elem_of_cons.
    + by injection E2 as -> ->.
    + specialize (Hr _ _ _ H2). lia.
    + injection E2 as -> -> ->. specialize (Hr _ _ _ H1). lia.
    + by eapply Ho.
Qed.

Lemma RemoveWaiter_ok (live' : string → nat → Prop) id c rm :
  (∀ id' c', live id' c' → (id', c') ≠ (id, c) → live' id' c') →
  manager_ok h live rm → manager_ok h live' (RemoveWaiter id (Some c) rm).
Proof.
  intros Hlive [Hq Hw Hc Hr Ho].
  assert (∀ id' w, waiters rm !! id' = Some w → (id', ch w) ≠ (id, c) →
    expectedPeer w ≠ "" ∧ EvRegister (ch w) id' (expectedPeer w) ∈ h ∧ live' id' (ch w)) as Hkeep.
  { intros id' w Hid Hne. destruct (Hw id' w Hid) as (? & ? & ?). split_and!; [done|done|]. by apply Hlive. }
  unfold RemoveWaiter. destruct (waiters rm !! id) as [w|] eqn:Hid; [case_bool_decide as Hch|]; split; try done; simpl.
  - intros id' w' Hid'. apply Hkeep; [done|]. congruence.
  - intros id' w' [Hne Hid']%lookup_delete_Some. apply Hkeep; [done|]. congruence.
  - intros id' w' [Hne Hid']%lookup_delete_Some. apply Hkeep; [done|]. congruence.
Qed.
End ops.

(** *** The steps *)

(** Only the pairing handshake may be relayed without a certificate. *)
Lemma relay_anonymous path : relayAllowsAnonymous path = true → path = PathClusterJoin.
Proof.
  unfold relayAllowsAnonymous, policyOf. destruct (routeIndex !! path) as [pol|] eqn:Hp; [|done]. simpl. intros Ha.
  assert (map_Forall (λ p q, relayAnon q = true → p = PathClusterJoin) routeIndex) as Hall.
  { apply map_Forall_to_list, (bool_decide_unpack _). by vm_compute. }
  by apply (Hall _ _ Hp).
Qed.

Lemma guard_identity pr path tls cn : guardVerdict self pr path tls = inr (Some cn) → PeerCNFromTLS tls = Some cn.
Proof. unfold guardVerdict. repeat case_match; naive_solver. Qed.

Lemma held_insert (m : gmap nat forward_pc) i pc pc' id c :
  m !! i = Some pc → waiting_on pc = None ∨ waiting_on pc' = waiting_on pc →
  holds_waiter m id c → holds_waiter (<[i := pc']> m) id c.
Proof.
  intros Hi Hw (j & pcj & Hj & Hwj). destruct (decide (i = j)) as [->|Hne].
  - exists j, pc'. rw lookup_insert_eq. split; [done|]. naive_solver congruence.
  - exists j, pcj. by rw lookup_insert_ne.
Qed.

Lemma admitForward_admitted body peer req :
  admitForward self body peer = inr req → admitted peer req.
Proof.
  unfold admitForward. destruct (decodeRelayJSON body) as [|r]; [done|]. unfold relayCapExceeded.
  case_match; [done|]. destruct (bool_decide (RlTarget r = "") || bool_decide (RlReqID r = "")) eqn:Hids; [done|].
  apply orb_false_iff in Hids as [?%bool_decide_eq_false ?%bool_decide_eq_false]. case_bool_decide; [done|].
  destruct peer as [cn|].
  - case_bool_decide; [intros [= <-]; split_and!; try done; simpl; zbool|].
    case_bool_decide as Hcn; [done|]. intros [= <-]. split_and!; try done. zbool.
  - case_match eqn:Hanon; [|done]. intros [= <-]. split_and!; try done. simpl. zbool.
Qed.

(** No event of the kinds that name channels. *)
Definition no_register (e : event) : Prop := ∀ c id p, e ≠ EvRegister c id p.

Lemma manager_kept s evs (live : string → nat → Prop) rm :
  (∀ e, e ∈ evs → no_register e) → manager_ok (history s) live rm → manager_ok (evs ++ history s) live rm.
Proof.
  intros Hq. apply manager_ok_mono; [set_solver| |done].
  intros c id p [Hin|Hin]%elem_of_app; [|done]. by destruct (Hq _ Hin c id p).
Qed.

Lemma held_same s i pc pc' rm :
  forwards s !! i = Some pc → waiting_on pc = None ∨ waiting_on pc' = waiting_on pc →
  manager_ok (history s) (holds_waiter (forwards s)) rm → manager_ok (history s) (holds_waiter (<[i := pc']> (forwards s))) rm.
Proof. intros Hi Hw. apply manager_ok_mono; [done|done|]. intros id c _. by eapply held_insert. Qed.

(** A step that changes one forwarder. *)
Lemma forward_step_inv s i pc pc' rm evs :
  relay_inv s → forwards s !! i = Some pc → forward_ok (evs ++ history s) pc' →
  manager_ok (evs ++ history s) (holds_waiter (<[i := pc']> (forwards s))) rm →
  (∀ e, e ∈ evs → event_ok (evs ++ history s) e) →
  relay_inv {| registry := registry s; manager := rm; forwards := <[i := pc']> (forwards s);
               polls := polls s; replies := replies s; history := evs ++ history s |}.
Proof.
  intros Hs Hi Hpc Hrm Hevs. split; simpl; [by apply forwards_kept|apply Hs| |done|by apply history_kept].
  intros j pcj Hj. eapply reply_ok_mono; [|by eapply inv_replies]. set_solver.
Qed.

Lemma answer_ok s req c resp :
  relay_inv s → sent (history s) req → owns (history s) c req → genuine (history s) c resp →
  event_ok (EvAnswer req resp :: history s) (EvAnswer req resp).
Proof.
  intros Hs Hsent Hown (peer & Hreg & Hrep & Hlen). simpl.
  destruct (ok_register_once _ _ _ (inv_manager s Hs) _ _ _ _ _ Hown Hreg) as [He ->].
  split_and!; [eapply sent_mono; [|done]; set_solver|set_solver|done|done].
Qed.

Lemma forward_preserves s i timeout pc pc' rm :
  relay_inv s → forwards s !! i = Some pc → forwardNext self (registry s) timeout pc (manager s) = Some (pc', rm) →
  relay_inv {| registry := registry s; manager := rm; forwards := <[i := pc']> (forwards s);
               polls := polls s; replies := replies s; history := forwardEvents pc pc' ++ history s |}.
Proof.
  intros Hs Hi Hnext. pose proof (inv_manager s Hs) as Hm. pose proof (inv_forwards s Hs i pc Hi) as Hpc.
  destruct pc as [req|req|req c|req c|req c code resp|code resp]; simpl in Hnext.
  - case_match eqn:Hq; simplify_eq/=; (apply (forward_step_inv s i (FAdmitted req) _ _ []); [done|done|done| |set_solver]).
    + eapply held_same; [done|by left|by eapply GetOrCreateQueue_ok].
    + eapply held_same; [done|by left|done].
  - case_match eqn:Hq; [|simplify_eq/=; apply (forward_step_inv s i (FQueue req) _ _ []); [done..| |set_solver];
      eapply held_same; [done|by left|done]].
    case_match; simplify_eq/=. apply (forward_step_inv s i (FQueue req) _ _ [_]); [done|done| | |].
    + split; [eapply sent_mono; [|done]; set_solver|unfold owns; set_solver].
    + eapply RegisterWaiter_ok; [done|by destruct Hpc as (? & _ & ? & _)| | |done].
      * intros id c Hl. eapply held_insert; [done|by left|done].
      * exists i, (FRegistered req n). by rw lookup_insert_eq.
    + intros e ->%list_elem_of_singleton. done.
  - destruct Hpc as [Hsent Hown].
    case_match eqn:Hq; simplify_eq/=; (apply (forward_step_inv s i (FRegistered req c) _ _ []); [done|done|done| |set_solver]);
      (eapply held_same; [done|by right|]); [by eapply enqueueRelay_ok|done].
  - destruct Hpc as [Hsent Hown]. destruct timeout.
    { simplify_eq/=. apply (forward_step_inv s i (FWaiting req c) _ _ []); [done|done|done| |set_solver].
      eapply held_same; [done|by right|done]. }
    destruct (chans (manager s) !! c) as [[|resp rest]|] eqn:Hc; [done| |done].
    destruct (ok_chans _ _ _ Hm _ _ Hc) as [Hlen Hgen].
    assert (genuine (history s) c resp) as Hresp by (apply Hgen; set_solver).
    unfold answerForward in Hnext. assert (manager_ok (history s) (holds_waiter (forwards s)) (with_chans (<[c:=rest]>) (manager s))) as Hm'.
    { apply set_chan_ok; [done|simpl in Hlen; lia|]. intros r Hr. apply Hgen. set_solver. }
    destruct (relayCapExceeded (byteLen (RrBody resp))); simplify_eq/=.
    + apply (forward_step_inv s i (FWaiting req c) _ _ []); [done|done|done| |set_solver].
      by eapply held_same; [done|right|].
    + apply (forward_step_inv s i (FWaiting req c) _ _ [_]); [done|done| | |].
      * split; [eapply sent_mono; [|done]; set_solver|unfold owns; set_solver].
      * apply manager_kept; [by intros e ->%list_elem_of_singleton|]. by eapply held_same; [done|right|].
      * intros e ->%list_elem_of_singleton. by eapply answer_ok.
  - simplify_eq/=. apply (forward_step_inv s i (FReturn req c code resp) _ _ []); [done|done|done| |set_solver].
    eapply RemoveWaiter_ok; [|done]. intros id' c' (j & pcj & Hj & Hwj) Hne. exists j, pcj. split; [|done].
    rw lookup_insert_ne //. intros ->. simplify_eq/=. 
  - done.
Qed.

Lemma startPoll_kept s id cn pc rm :
  relay_inv s → startPoll self (registry s) id (Some cn) (manager s) = (pc, rm) →
  poll_ok cn pc ∧ manager_ok (history s) (holds_waiter (forwards s)) rm.
Proof.
  intros Hs. pose proof (inv_manager s Hs) as Hm. unfold startPoll.
  case_bool_decide; [by intros [= <- <-]|]. case_bool_decide as Hcn; [by intros [= <- <-]|].
  case_match eqn:Hq; intros [= <- <-]; [|done]. split; [done|]. by eapply GetOrCreateQueue_ok.
Qed.

Lemma pollNext_kept s cn timeout pc pc' rm :
  relay_inv s → poll_ok cn pc → pollNext timeout pc (manager s) = Some (pc', rm) →
  poll_ok cn pc' ∧ manager_ok (history s) (holds_waiter (forwards s)) rm ∧
  ∀ e, e ∈ pollEvents cn pc' → no_register e ∧ event_ok (history s) e.
Proof.
  intros Hs Hpc. pose proof (inv_manager s Hs) as Hm. destruct pc as [peer|]; [|done]. simpl in *. subst peer.
  destruct timeout; [intros [= <- <-]; split_and!; [done..|set_solver]|].
  destruct (queues (manager s) !! cn) as [[|req rest]|] eqn:Hq; [done| |done]. intros [= <- <-].
  destruct (ok_queues _ _ _ Hm _ _ Hq) as [Hlen Hin]. split_and!; [done| |].
  - apply set_queue_ok; [done|simpl in Hlen; lia|]. intros r Hr. apply Hin. set_solver.
  - intros e ->%list_elem_of_singleton. split; [done|]. apply Hin. set_solver.
Qed.

Lemma startReply_kept s body cn :
  relay_inv s → let pc := startReply body (Some cn) (manager s) in
  reply_ok (replyEvents pc ++ history s) pc ∧ ∀ e, e ∈ replyEvents pc → no_register e ∧ event_ok (replyEvents pc ++ history s) e.
Proof.
  intros Hs. simpl. unfold startReply. destruct (decodeRelayJSON body) as [|resp]; [split; [done|set_solver]|].
  unfold relayCapExceeded. case_match eqn:Hcap; [split; [done|set_solver]|].
  unfold GetWaiter. destruct (waiters (manager s) !! RrReqID resp) as [w|] eqn:Hw; simpl; [|split; [done|set_solver]].
  destruct (ok_waiters _ _ _ (inv_manager s Hs) _ _ Hw) as (Hne & Hreg & _).
  rw bool_decide_true //. simpl. case_bool_decide as Hcn; [split; [done|set_solver]|]. simpl.
  split; [|by intros e ->%list_elem_of_singleton]. exists (expectedPeer w). subst cn.
  split_and!; [set_solver|set_solver|zbool].
Qed.

Lemma replyNext_kept s pc pc' rm :
  relay_inv s → reply_ok (history s) pc → replyNext pc (manager s) = Some (pc', rm) →
  reply_ok (history s) pc' ∧ manager_ok (history s) (holds_waiter (forwards s)) rm.
Proof.
  intros Hs Hpc. pose proof (inv_manager s Hs) as Hm. destruct pc as [cn resp c|]; [|done]. simpl.
  unfold trySend. case_bool_decide as Hlen; intros [= <- <-]; [|done]. split; [done|].
  apply set_chan_ok; [done|rw length_app /=; lia|].
  intros r [Hr| ->%list_elem_of_singleton]%elem_of_app; [|done].
  destruct (chans (manager s) !! c) as [buf|] eqn:Hc; [|by apply not_elem_of_nil in Hr].
  by apply (ok_chans _ _ _ Hm _ _ Hc).
Qed.

Lemma new_forward_preserves s i body peer :
  relay_inv s → forwards s !! i = None → let pc := startForward self body peer in
  relay_inv {| registry := registry s; manager := manager s; forwards := <[i := pc]> (forwards s);
               polls := polls s; replies := replies s; history := startEvents peer pc ++ history s |}.
Proof.
  intros Hs Hi pc. assert (∀ e, e ∈ startEvents peer pc → no_register e ∧ event_ok (startEvents peer pc ++ history s) e) as Hevs.
  { destruct pc; try set_solver. by intros e ->%list_elem_of_singleton. }
  split; simpl.
  - apply forwards_kept; [done|]. unfold pc, startForward. destruct (admitForward self body peer) as [|req] eqn:Hadm; [done|].
    exists peer. split; [set_solver|]. by eapply admitForward_admitted.
  - apply Hs.
  - intros j pcj Hj. eapply reply_ok_mono; [|by eapply inv_replies]. set_solver.
  - apply manager_kept; [by intros e []%Hevs|]. eapply manager_ok_mono; [done|done| |by apply inv_manager].
    intros id c _ (j & pcj & Hj & Hwj). exists j, pcj. split; [|done]. rw lookup_insert_ne //. congruence.
  - apply history_kept; [done|]. by intros e []%Hevs.
Qed.

Lemma relay_step_inv s s' : relay_inv s → relay_step s s' → relay_inv s'.
Proof.
  intros Hs Hstep. destruct Hstep as [pr|i body tls Hi pc|i timeout pc pc' rm Hi Hn|i id tls cn pc rm Hi Hg Hp
    |i timeout cn pc pc' rm Hi Hn|i body tls cn Hi Hg pc|i pc pc' rm Hi Hn].
  - by destruct Hs; split.
  - by apply new_forward_preserves.
  - by eapply forward_preserves.
  - assert (PeerCNFromTLS tls = Some cn) as Hcn by by eapply guard_identity. rw Hcn in Hp.
    destruct (startPoll_kept s id cn pc rm Hs Hp) as [Hpc Hrm].
    split; simpl; [apply Hs|by apply polls_kept|apply Hs|done|apply Hs].
  - destruct (pollNext_kept s cn timeout pc pc' rm Hs (inv_polls s Hs _ _ _ Hi) Hn) as (Hpc & Hrm & Hevs).
    split; simpl; [|by apply polls_kept| | |].
    + intros j pcj Hj. eapply forward_ok_mono; [|by eapply inv_forwards]. set_solver.
    + intros j pcj Hj. eapply reply_ok_mono; [|by eapply inv_replies]. set_solver.
    + apply manager_kept; [by intros e []%Hevs|done].
    + apply history_kept; [done|]. intros e [_ He]%Hevs. eapply event_ok_mono; [|done]. set_solver.
  - assert (PeerCNFromTLS tls = Some cn) as Hcn by by eapply guard_identity. unfold pc. rw Hcn.
    destruct (startReply_kept s body cn Hs) as [Hpc Hevs].
    split; simpl; [|apply Hs|by apply replies_kept| |].
    + intros j pcj Hj. eapply forward_ok_mono; [|by eapply inv_forwards]. set_solver.
    + apply manager_kept; [by intros e []%Hevs|]. apply Hs.
    + apply history_kept; [done|]. by intros e []%Hevs.
  - destruct (replyNext_kept s pc pc' rm Hs (inv_replies s Hs _ _ Hi) Hn) as [Hpc Hrm].
    split; simpl; [apply Hs|apply Hs|by apply (replies_kept s [])|done|apply Hs].
Qed.

Lemma relay_reachable_inv pr s : relay_reachable pr s → relay_inv s.
Proof.
  unfold relay_reachable. revert s. apply rtc_ind_r; [|intros s s' _ Hstep Hs; by eapply relay_step_inv].
  split; simpl; [done..| |set_solver]. split; simpl; [done..|set_solver|set_solver].
Qed.

(** *** Scripted runs *)

Inductive action :=
  | AForward (i : nat) (body : wire RelayRequest) (tls : @tlsState Cert)
  | AStepForward (i : nat) (timeout : bool)
  | APoll (i : nat) (id : string) (tls : @tlsState Cert)
  | AStepPoll (i : nat) (timeout : bool)
  | AReply (i : nat) (body : wire RelayResponse) (tls : @tlsState Cert)
  | AStepReply (i : nat).

Definition act (a : action) s : option relay :=
  match a with
  | AForward i body tls =>
      guard (forwards s !! i = None);;
      let pc := startForward self body (PeerCNFromTLS tls) in
      Some {| registry := registry s; manager := manager s; forwards := <[i := pc]> (forwards s); polls := polls s;
              replies := replies s; history := startEvents (PeerCNFromTLS tls) pc ++ history s |}
  | AStepForward i timeout =>
      pc ← forwards s !! i;
      '(pc', rm) ← forwardNext self (registry s) timeout pc (manager s);
      Some {| registry := registry s; manager := rm; forwards := <[i := pc']> (forwards s); polls := polls s;
              replies := replies s; history := forwardEvents pc pc' ++ history s |}
  | APoll i id tls =>
      guard (polls s !! i = None);;
      match guardVerdict self (registry s) PathRelayPoll tls with
      | inr (Some cn) =>
          let '(pc, rm) := startPoll self (registry s) id (PeerCNFromTLS tls) (manager s) in
          Some {| registry := registry s; manager := rm; forwards := forwards s; polls := <[i := (cn, pc)]> (polls s);
                  replies := replies s; history := history s |}
      | _ => None
      end
  | AStepPoll i timeout =>
      '(cn, pc) ← polls s !! i;
      '(pc', rm) ← pollNext timeout pc (manager s);
      Some {| registry := registry s; manager := rm; forwards := forwards s; polls := <[i := (cn, pc')]> (polls s);
              replies := replies s; history := pollEvents cn pc' ++ history s |}
  | AReply i body tls =>
      guard (replies s !! i = None);;
      match guardVerdict self (registry s) PathRelayReply tls with
      | inr (Some _) =>
          let pc := startReply body (PeerCNFromTLS tls) (manager s) in
          Some {| registry := registry s; manager := manager s; forwards := forwards s; polls := polls s;
                  replies := <[i := pc]> (replies s); history := replyEvents pc ++ history s |}
      | _ => None
      end
  | AStepReply i =>
      pc ← replies s !! i;
      '(pc', rm) ← replyNext pc (manager s);
      Some {| registry := registry s; manager := rm; forwards := forwards s; polls := polls s;
              replies := <[i := pc']> (replies s); history := history s |}
  end.

Lemma act_step a s s' : act a s = Some s' → relay_step s s'.
Proof.
  destruct a as [i body tls|i timeout|i id tls|i timeout|i body tls|i]; cbn [act]; intros Hact.
  - case_guard; [|done]. injection Hact as <-. by apply step_new_forward.
  - apply bind_Some in Hact as (pc & Hi & ([pc' rm] & Hn & [= <-])%bind_Some). by eapply step_forward.
  - case_guard; [|done]. cbn in Hact. destruct (guardVerdict _ _ _ _) as [|[cn|]] eqn:Hg; [done| |done].
    destruct (startPoll _ _ _ _ _) as [pc rm] eqn:Hp. injection Hact as <-. by eapply step_new_poll.
  - apply bind_Some in Hact as ([cn pc] & Hi & ([pc' rm] & Hn & [= <-])%bind_Some). by eapply step_poll.
  - case_guard; [|done]. cbn in Hact. destruct (guardVerdict _ _ _ _) as [|[cn|]] eqn:Hg; [done| |done].
    injection Hact as <-. by eapply step_new_reply.
  - apply bind_Some in Hact as (pc & Hi & ([pc' rm] & Hn & [= <-])%bind_Some). by eapply step_reply.
Qed.

Lemma script_reachable pr (script : list action) s :
  foldl (λ o a, o ≫= act a) (Some (relay_init pr)) script = Some s → relay_reachable pr s.
Proof.
  revert s. induction script as [|a script IH] using rev_ind; intros s; [intros [= <-]; apply rtc_refl|].
  rw foldl_app /=. intros (s1 & Hs1 & Hact)%bind_Some. eapply rtc_r; [by apply IH|by eapply act_step].
Qed.

(** ** What the relay promises *)

(** C37: whatever forwards, polls and replies run at once, an answer a
    forwarder returns was posted by the authenticated peer the request was
    for, under the request's own ID, and is within the size limit. *)
Theorem relay_answer_authentic pr s req resp :
  relay_reachable pr s → EvAnswer req resp ∈ history s →
  EvReply (RlTarget req) resp ∈ history s ∧ RrReqID resp = RlReqID req ∧
  (byteLen (RrBody resp) ≤ MaxRelayBodyBytes)%Z.
Proof. intros Hs He. by destruct (inv_history s (relay_reachable_inv pr s Hs) _ He) as (_ & ? & ? & ?). Qed.

(** A request handed to a poll was addressed to the authenticated peer
    that polls, and was forwarded for the certificate it names as its origin,
    or, without any origin, by anyone but only to join the cluster; its body
    is within the limit. *)
Theorem relay_poll_authorised pr s cn req :
  relay_reachable pr s → EvPoll cn req ∈ history s →
  RlTarget req = cn ∧ (byteLen (RlBody req) ≤ MaxRelayBodyBytes)%Z ∧
  (EvForward (Some (RlOriginPeerID req)) req ∈ history s ∨
   EvForward None req ∈ history s ∧ RlOriginPeerID req = "" ∧ RlPath req = PathClusterJoin).
Proof.
  intros Hs He. destruct (inv_history s (relay_reachable_inv pr s Hs) _ He) as (Ht & [peer|] & Hin & _ & _ & _ & Hlen & Hadm).
  - rw Hadm. auto.
  - destruct Hadm as [Ho Hanon%relay_anonymous]. auto 6.
Qed.

(** C38: queues hold at most [relayQueueSize] requests, channels one response,
    and a registered waiter belongs to a forwarder that still runs: when all
    have returned, none is left. *)
Theorem relay_bounded pr s :
  relay_reachable pr s →
  (∀ p q, queues (manager s) !! p = Some q → length q ≤ relayQueueSize) ∧
  (∀ c buf, chans (manager s) !! c = Some buf → length buf ≤ 1) ∧
  ((∀ i pc, forwards s !! i = Some pc → ∃ code answer, pc = FDone code answer) → waiters (manager s) = ∅).
Proof.
  intros Hs. pose proof (inv_manager s (relay_reachable_inv pr s Hs)) as [Hq Hw Hc _ _]. split_and!.
  - intros p q Hp. by apply (Hq p q).
  - intros c buf Hbuf. by apply (Hc c buf).
  - intros Hdone. apply map_empty. intros id. apply eq_None_not_Some. intros [w Hid].
    destruct (Hw id w Hid) as (_ & _ & i & pc & Hi & Hwait). destruct (Hdone i pc Hi) as (? & ? & ->). done.
Qed.
End system.

(** ** The target and the round trip *)

Section target.
Context {Cert : Type}.
Variable newRequest : string → string → option string.
Variable canonicalKey : string → string.
Variable rangeOrder : list (string * string) → list (string * string).
Variable bareCert : string → Cert.
Implicit Types (mux : HTTPRequest Cert → PeerRegistry Cert → responseTrace * PeerRegistry Cert) (pr : PeerRegistry Cert).

Abbreviation process := (processRelayRequest newRequest canonicalKey rangeOrder bareCert).
Abbreviation request := (localRequest canonicalKey rangeOrder bareCert).

(** The sponsor's word for the origin opens a path at the target. *)
Definition permitted (self : string) pr (origin path : string) : Prop :=
  routeAuth path = authAnonymous ∨
  origin ≠ "" ∧ (routeAuth path = authMTLSUnregistered ∨ GetPeerRecord pr origin ≠ None ∨ origin = self).

Lemma guard_relayed self pr relayReq path :
  (∃ p, guardVerdict self pr path (RqTLS (request relayReq path)) = inr p) ↔
  permitted self pr (RlOriginPeerID relayReq) path.
Proof.
  unfold permitted, guardVerdict, localRequest. cbn [RqTLS]. destruct (routeAuth path).
  - case_bool_decide as Ho; cbn [PeerCNFromTLS]; [|split; [by intros []|by intros [|[]]]].
    rw bool_decide_false //. destruct (GetPeerRecord pr (RlOriginPeerID relayReq)) as [rec|] eqn:Hr; cbn.
    + split; [intros _; right; by auto|by eauto].
    + case_bool_decide as Hself; (split; [|]).
      * by intros [].
      * by intros [|(_ & [|[|]])].
      * intros _. right. auto.
      * eauto.
  - split; [intros _; by left|by eauto].
  - case_bool_decide as Ho; cbn [PeerCNFromTLS]; [rw bool_decide_false //; cbn|split; [by intros []|by intros [|[]]]].
    split; [intros _; right; by auto|by eauto].
Qed.

Lemma process_bounded self mux relayReq pr :
  RrReqID (process mux self relayReq pr).1 = RlReqID relayReq ∧
  relayCapExceeded (byteLen (RrBody (process mux self relayReq pr).1)) = false.
Proof.
  unfold processRelayRequest. case_match; [by split; vm_compute|].
  case_match; [|by split; vm_compute]. case_match; simpl. split; [unfold recordResponse; by case_match|].
  apply recordResponse_bounded.
Qed.

(** A relayed request reaches the target's handlers only on an anonymous
    route, or for an origin the target's own registry admits; otherwise the
    response and the registry do not depend on the handlers.  Whatever the
    handlers write, the response carries the request's ID and a body the
    sponsor accepts. *)
Theorem relayed_request_guarded self relayReq pr mux mux' path :
  newRequest (RlMethod relayReq) ("http://127.0.0.1" +:+ RlPath relayReq) = Some path →
  ¬ permitted self pr (RlOriginPeerID relayReq) path →
  process mux self relayReq pr = process mux' self relayReq pr ∧ (process mux self relayReq pr).2 = pr ∧
  RrReqID (process mux self relayReq pr).1 = RlReqID relayReq ∧
  relayCapExceeded (byteLen (RrBody (process mux self relayReq pr).1)) = false.
Proof.
  intros Hpath Hperm. split_and!; [| |apply process_bounded..]; unfold processRelayRequest; rw Hpath;
    (case_match; [done|]); unfold serveHTTP, mTLSGuard; cbn [RqPath localRequest];
    (destruct (guardVerdict _ _ _ _) as [[code text]|peer] eqn:Hg; [done|]);
    destruct Hperm; apply guard_relayed; by exists peer.
Qed.

(** The exchange from the forwarder's admission to its answer, with nothing
    in between: forward, poll by the target, processing there, reply. *)
Definition relayExchange (sponsor : string) (spr : PeerRegistry Cert) mux (target : string) (tpr : PeerRegistry Cert)
    (encode : RelayResponse → wire RelayResponse) (body : wire RelayRequest) (peer : option string) (rm : RelayManager)
    : option (forward_pc * RelayManager) :=
  '(pc, rm) ← forwardNext sponsor spr false (startForward sponsor body peer) rm;
  '(pc, rm) ← forwardNext sponsor spr false pc rm;
  '(pc, rm) ← forwardNext sponsor spr false pc rm;
  let '(poll, rm) := startPoll sponsor spr target (Some target) rm in
  '(poll, rm) ← pollNext false poll rm;
  match poll with
  | PDone 200 (Some req) =>
      let reply := startReply (encode (process mux target req tpr).1) (Some target) rm in
      '(_, rm) ← replyNext reply rm;
      '(pc, rm) ← forwardNext sponsor spr false pc rm;
      forwardNext sponsor spr false pc rm
  | _ => None
  end.

Lemma GetOrCreateQueue_registered (sponsor target : string) pr rm :
  GetPeerRecord pr target ≠ None →
  GetOrCreateQueue sponsor pr target rm =
    Some (with_queues (<[target := default [] (queues rm !! target)]>) rm).
Proof.
  intros Hreg. unfold GetOrCreateQueue. rw (bool_decide_false (GetPeerRecord pr target = None)) // andb_false_r.
  destruct (queues rm !! target) as [q|] eqn:Hq; [|done]. unfold with_queues. simpl. rw insert_id //. by destruct rm.
Qed.

(** An exchange that nothing interrupts: a request with a new ID, admitted for
    a registered peer whose queue is empty, comes back with exactly what the
    peer's processing of it produced, through queue, poll, reply and waiter,
    if that response is encoded faithfully; and leaves no waiter behind. *)
Theorem relay_roundtrip sponsor spr mux tpr encode body peer rm req :
  admitForward sponsor body peer = inr req →
  GetPeerRecord spr (RlTarget req) ≠ None →
  waiters rm !! RlReqID req = None → default [] (queues rm !! RlTarget req) = [] →
  (let resp := (process mux (RlTarget req) req tpr).1 in decodeRelayJSON (encode resp) = inr resp) →
  ∃ rm', relayExchange sponsor spr mux (RlTarget req) tpr encode body peer rm =
           Some (FDone 200 (Some (process mux (RlTarget req) req tpr).1), rm') ∧
         waiters rm' = waiters rm ∧ queues rm' !! RlTarget req = Some [].
Proof.
  intros Hadm Hreg Hw Hq Hdec. destruct (admitForward_admitted sponsor _ _ _ Hadm) as (Ht & Hid & _).
  destruct (process_bounded (RlTarget req) mux req tpr) as [Hrid Hcap].
  unfold relayExchange, startForward. rw Hadm. cbn [forwardNext mbind option_bind].
  rw GetOrCreateQueue_registered // Hq. cbn [forwardNext mbind option_bind].
  unfold RegisterWaiter, enqueueRelay, trySend, startPoll. rw bool_decide_false //. cbn [with_queues waiters queues].
  rw Hw. cbn [forwardNext mbind option_bind waiters queues nextChan chans fmap option_fmap option_map].
  unfold enqueueRelay, trySend. cbn [queues]. rw lookup_insert_eq /=. rw bool_decide_false //.
  rw GetOrCreateQueue_registered //. cbn [queues with_queues pollNext mbind option_bind].
  rw (bool_decide_false (RlTarget req ≠ RlTarget req)); [|by intros []]. cbn [pollNext with_queues queues].
  rw !lookup_insert_eq. cbn [default from_option id mbind option_bind].
  unfold startReply. rw Hdec // Hcap Hrid. unfold GetWaiter. cbn [waiters with_queues]. rw lookup_insert_eq.
  cbn [fmap option_fmap option_map ch expectedPeer]. rw (bool_decide_false (RlTarget req ≠ RlTarget req)); [|by intros []].
  rw andb_false_r. cbn [replyNext with_queues chans]. rw lookup_insert_eq /= lookup_insert_eq /=.
  unfold answerForward. rw Hcap /=. unfold RemoveWaiter. cbn [waiters with_chans with_queues].
  rw lookup_insert_eq /= bool_decide_false; [|by intros []]. eexists. split; [done|]. simpl.
  rw delete_insert_id // lookup_insert_eq. done.
Qed.
End target.

(** ** A run *)

Definition demoPeers : PeerRegistry () :=
  (AddPeer "t" {| Addresses := ["https://t:1"]; Sequence := 1; IsSponsor := false |}
    (AddPeer "a" {| Addresses := ["https://a:1"]; Sequence := 1; IsSponsor := false |} (NewPeerRegistry "s")).2).2.

Definition demoRequest (origin : string) : RelayRequest :=
  {| RlReqID := "r1"; RlTarget := "t"; RlMethod := "GET"; RlPath := "/manifest"; RlHeaders := ∅; RlBody := "";
     RlOriginPeerID := origin |}.

Definition demoResponse : RelayResponse :=
  {| RrReqID := "r1"; RrStatusCode := 200; RrHeaders := ∅; RrBody := "[]" |}.

Definition onWire {T} (x : T) : wire T := {| ContentLength := -1; WireBody := Decoded x |}.

Definition demoScript : list (@action ()) :=
  [ AForward 0 (onWire (demoRequest "")) (Some [("a", ())]); AStepForward 0 false; AStepForward 0 false;
    AStepForward 0 false; APoll 0 "t" (Some [("t", ())]); AStepPoll 0 false;
    AReply 0 (onWire demoResponse) (Some [("t", ())]); AStepReply 0; AStepForward 0 false; AStepForward 0 false ].

Definition demoEnd : relay :=
  default (relay_init demoPeers) (foldl (λ o a, o ≫= act "s" a) (Some (relay_init demoPeers)) demoScript).

Lemma demo_reachable : relay_reachable "s" demoPeers demoEnd.
Proof. apply (script_reachable "s" demoPeers demoScript). by vm_compute. Qed.

Lemma relay_answer_authentic_witness :
  EvReply "t" demoResponse ∈ history demoEnd ∧ RrReqID demoResponse = "r1".
Proof.
  destruct (relay_answer_authentic "s" demoPeers demoEnd (demoRequest "a") demoResponse demo_reachable) as (H1 & H2 & _).
  - apply (list_elem_of_lookup_2 _ 0). by vm_compute.
  - by split.
Defined.

Lemma relay_poll_authorised_witness : EvForward (Some "a") (demoRequest "a") ∈ history demoEnd.
Proof.
  destruct (relay_poll_authorised "s" demoPeers demoEnd "t" (demoRequest "a") demo_reachable) as (_ & _ & [H|(_ & H & _)]).
  - apply (list_elem_of_lookup_2 _ 2). by vm_compute.
  - exact H.
  - discriminate H.
Defined.

Lemma relay_bounded_witness : waiters (manager demoEnd) = ∅.
Proof.
  apply (relay_bounded "s" demoPeers demoEnd demo_reachable). intros i pc Hi.
  assert (map_Forall (λ _ pc, match pc with FDone _ _ => True | _ => False end) (forwards demoEnd)) as Hall.
  { apply map_Forall_to_list. vm_compute. repeat constructor. }
  specialize (Hall i pc Hi). destruct pc; [destruct Hall..|]. by eexists _, _.
Defined.

Definition demoMux (body : string) (_ : HTTPRequest ()) (pr : PeerRegistry ()) : responseTrace * PeerRegistry () :=
  ({| TrStatus := 200; TrHeader := ∅; TrWrites := [body] |}, pr).

Definition demoProcess (mux : HTTPRequest () → PeerRegistry () → responseTrace * PeerRegistry ()) (origin : string) : RelayResponse :=
  (processRelayRequest (λ _ _, Some "/manifest") id id (λ _, ()) mux "t" (demoRequest origin) demoPeers).1.

Lemma relayed_request_guarded_witness : demoProcess (demoMux "x") "stranger" = demoProcess (demoMux "y") "stranger".
Proof.
  unfold demoProcess. apply (f_equal fst).
  apply (relayed_request_guarded (λ _ _, Some "/manifest") id id (λ _, ()) "t" (demoRequest "stranger") demoPeers
           (demoMux "x") (demoMux "y") "/manifest"); [reflexivity|].
  intros [H|(_ & [H|[H|H]])]; [vm_compute in H; discriminate H..| |discriminate H]. apply H. by vm_compute.
Defined.

Lemma relay_roundtrip_witness :
  ∃ rm', relayExchange (λ _ _, Some "/manifest") id id (λ _, ()) "s" demoPeers (demoMux "[]") "t" demoPeers onWire
           (onWire (demoRequest "")) (Some "a") NewRelayManager = Some (FDone 200 (Some demoResponse), rm').
Proof.
  edestruct (relay_roundtrip (λ _ _, Some "/manifest") id id (λ _, ()) "s" demoPeers (demoMux "[]") demoPeers onWire
    (onWire (demoRequest "")) (Some "a") NewRelayManager (demoRequest "a")) as (rm' & Hrun & _);
    [by vm_compute|by vm_compute|done|done|done|].
  exists rm'. etransitivity; [exact Hrun|]. by vm_compute.
Defined.
