(* ===== verification/Stun.v ===== *)
(** * STUN

    [internal/utils/stun.go]: the request a node sends to learn its public
    address, and the parser of the response.  Bytes are integers below 256;
    an index or a slice out of range is the run-time panic Go makes of it, so
    that its absence is a theorem.  The loop over the attributes has fuel:
    every round advances by at least four bytes, so the length of the
    attributes is enough. *)
From Stdlib Require Import Ascii String.
From S2P Require Import Prelude GoStrings.
Local Open Scope stdpp_scope.
Local Open Scope Z_scope.

Definition stunMagicCookie : Z := 0x2112A442.

Definition len {A} (l : list A) : Z := Z.of_nat (length l).

(** [l[i:j]] and [l[i]]. *)
Definition slice {A} (l : list A) (i j : Z) : res (list A) :=
  if (0 <=? i) && (i <=? j) && (j <=? len l)
  then Ok (take (Z.to_nat (j - i)) (drop (Z.to_nat i) l))
  else Err (EPanic "slice bounds out of range").

Definition at_index {A} (l : list A) (i : Z) : res A :=
  if 0 <=? i then match l !! Z.to_nat i with Some x => Ok x | None => Err (EPanic "index out of range") end
  else Err (EPanic "index out of range").

(** [binary.BigEndian]. *)
Definition Uint16 (b : list Z) : res Z :=
  x ← at_index b 0; y ← at_index b 1; Ok (Z.lor y (Z.shiftl x 8)).

Definition Uint32 (b : list Z) : res Z :=
  x ← at_index b 0; y ← at_index b 1; z ← at_index b 2; w ← at_index b 3;
  Ok (Z.lor w (Z.lor (Z.shiftl z 8) (Z.lor (Z.shiftl y 16) (Z.shiftl x 24)))).

Definition low_byte (v : Z) : Z := Z.land v 255.
Definition PutUint16 (v : Z) : list Z := [low_byte (Z.shiftr v 8); low_byte v].
Definition PutUint32 (v : Z) : list Z :=
  [low_byte (Z.shiftr v 24); low_byte (Z.shiftr v 16); low_byte (Z.shiftr v 8); low_byte v].

(** ** Addresses *)

Definition IPv4len : Z := 4.
Definition IPv6len : Z := 16.

(** [ip.To4()]: four bytes, or sixteen with the IPv4-in-IPv6 prefix. *)
Definition To4 (ip : list Z) : option (list Z) :=
  if len ip =? IPv4len then Some ip
  else if (len ip =? IPv6len) && bool_decide (take 12 ip = replicate 10 0 ++ [255; 255]) then Some (drop 12 ip)
  else None.

Definition IsPrivate (ip : list Z) : bool :=
  match To4 ip with
  | Some (a :: b :: _) =>
      (a =? 10) || ((a =? 172) && (Z.land b 240 =? 16)) || ((a =? 192) && (b =? 168))
  | Some _ => false
  | None => (len ip =? IPv6len) && match ip with a :: _ => Z.land a 254 =? 252 | [] => false end
  end.

Definition IsLoopback (ip : list Z) : bool :=
  match To4 ip with
  | Some (a :: _) => a =? 127
  | Some [] => false
  | None => bool_decide (ip = replicate 15 0 ++ [1])
  end.

(** The textual form of an IP. *)
Definition dotted (ip : list Z) : string := String.concat "." ((λ b, itoa (Z.to_N b)) <$> ip).

Definition hexDigit (d : Z) : ascii := ascii_of_N (Z.to_N (if d <? 10 then 48 + d else 87 + d)).

Fixpoint hexDigits (fuel : nat) (v : Z) (acc : string) : string :=
  match fuel with
  | O => acc
  | S fuel => if v <? 16 then String (hexDigit v) acc else hexDigits fuel (v / 16) (String (hexDigit (v mod 16)) acc)
  end.

(** The eight groups of an IPv6 address. *)
Fixpoint groups (ip : list Z) : list Z :=
  match ip with x :: y :: rest => (x * 256 + y) :: groups rest | _ => [] end.

Fixpoint zeroRun (gs : list Z) : nat :=
  match gs with g :: rest => if g =? 0 then S (zeroRun rest) else O | [] => O end.

(** Start and length of the first longest run of zero groups. *)
Fixpoint longestRun (gs : list Z) (i : nat) (best : nat * nat) : nat * nat :=
  match gs with
  | [] => best
  | _ :: rest => longestRun rest (S i) (if (best.2 <? zeroRun gs)%nat then (i, zeroRun gs) else best)
  end.

Definition hexGroups (gs : list Z) : string := String.concat ":" ((λ g, hexDigits 4 g "") <$> gs).

Definition ipv6Text (ip : list Z) : string :=
  let gs := groups ip in
  let '(start, n) := longestRun gs 0 (0%nat, 0%nat) in
  if (n <? 2)%nat then hexGroups gs else hexGroups (take start gs) +:+ "::" +:+ hexGroups (drop (start + n) gs).

Definition IP_String (ip : list Z) : string :=
  match To4 ip with
  | Some ip4 => dotted ip4
  | None => ipv6Text ip
  end.

(** [net.ParseIP] is an argument. *)
Definition IsPrivateOrCGNATIP (ParseIP : string → option (list Z)) (ipStr : string) : bool :=
  match ParseIP ipStr with
  | None => false
  | Some ip =>
      if IsPrivate ip || IsLoopback ip then true
      else match To4 ip with
      | Some (a :: b :: _) => (a =? 100) && (64 <=? b) && (b <=? 127)
      | _ => false
      end
  end.

(** ** The parser *)

Definition parseSTUNMappedAddress (attrVal txID : list Z) (xor : bool) : res (string * Z) :=
  if len attrVal <? 4 then Err (EMsg "mapped-address STUN attribute is too short") else
  portBytes ← slice attrVal 2 4;
  port ← Uint16 portBytes;
  let port := if xor then Z.lxor port (Z.shiftr stunMagicCookie 16) else port in
  family ← at_index attrVal 1;
  addressLength ← (if family =? 0x01 then Ok IPv4len
                   else if family =? 0x02 then Ok IPv6len
                   else Err (EMsg "unsupported STUN mapped-address family"));
  if len attrVal <? 4 + addressLength then Err (EMsg "truncated STUN mapped-address for family") else
  ip ← slice attrVal 4 (4 + addressLength);
  ip ← (if xor then
          mask ← (if addressLength =? IPv6len then
                    if negb (len txID =? 12) then Err (EMsg "invalid STUN transaction ID length")
                    else Ok (PutUint32 stunMagicCookie ++ txID)
                  else Ok (PutUint32 stunMagicCookie));
          Ok (zip_with Z.lxor ip mask)
        else Ok ip);
  Ok (IP_String ip, port).

Fixpoint parseAttributes (fuel : nat) (attributes txID : list Z) (idx : Z) : res (string * Z) :=
  if idx <? len attributes then
    match fuel with
    | O => Err (EPanic "no fuel")
    | S fuel =>
        if len attributes <? idx + 4 then Err (EMsg "truncated STUN attribute header") else
        typeBytes ← slice attributes idx (idx + 2);
        attrType ← Uint16 typeBytes;
        lenBytes ← slice attributes (idx + 2) (idx + 4);
        attrLen ← Uint16 lenBytes;
        let paddedLen := Z.ldiff (attrLen + 3) 3 in
        if len attributes <? idx + 4 + paddedLen then Err (EMsg "truncated STUN attribute") else
        attrVal ← slice attributes (idx + 4) (idx + 4 + attrLen);
        if attrType =? 0x0001 then parseSTUNMappedAddress attrVal txID false
        else if attrType =? 0x0020 then parseSTUNMappedAddress attrVal txID true
        else parseAttributes fuel attributes txID (idx + 4 + paddedLen)
    end
  else Err (EMsg "no MAPPED-ADDRESS or XOR-MAPPED-ADDRESS found in STUN response").

(** The comparison of the transaction IDs, from position [i]. *)
Fixpoint matchTxID (k : nat) (i : Z) (resp txID : list Z) : res unit :=
  match k with
  | O => Ok ()
  | S k =>
      x ← at_index resp (8 + i);
      y ← at_index txID i;
      if x =? y then matchTxID k (i + 1) resp txID else Err (EMsg "mismatched transaction ID in STUN response")
  end.

Definition parseSTUNResponse (resp : list Z) (n : Z) (txID : list Z) : res (string * Z) :=
  if len resp <? n then Err (EMsg "STUN response length exceeds buffer size") else
  if n <? 20 then Err (EMsg "STUN response too short") else
  if negb (len txID =? 12) then Err (EMsg "invalid STUN transaction ID length") else
  typeBytes ← slice resp 0 2; msgType ← Uint16 typeBytes;
  lenBytes ← slice resp 2 4; msgLen ← Uint16 lenBytes;
  cookieBytes ← slice resp 4 8; magicCookie ← Uint32 cookieBytes;
  if negb (msgType =? 0x0101) then Err (EMsg "unexpected STUN message type") else
  if negb (magicCookie =? stunMagicCookie) then Err (EMsg "invalid STUN magic cookie") else
  _ ← matchTxID 12 0 resp txID;
  if n <? msgLen + 20 then Err (EMsg "STUN response message length mismatch") else
  attributes ← slice resp 20 (20 + msgLen);
  parseAttributes (length attributes) attributes txID 0.

(** ** The exchange *)

(** The request for a transaction ID; the random source gives the ID. *)
Definition buildSTUNRequest (rand : res (list Z)) : res (list Z * list Z) :=
  match rand with
  | Err e => Err (EWrap "failed to generate random transaction ID" e)
  | Ok txID => Ok (PutUint16 0x0001 ++ PutUint16 0x0000 ++ PutUint32 stunMagicCookie ++ txID, txID)
  end.

(** [read] answers with the buffer and the count it reports. *)
Definition stunExchange (rand : res (list Z)) (write : list Z → option error) (read : list Z → res (list Z * Z))
    : res (string * Z) :=
  '(req, txID) ← buildSTUNRequest rand;
  match write req with
  | Some e => Err (EWrap "failed to write STUN request" e)
  | None =>
      match read req with
      | Err e => Err (EWrap "failed to read STUN response" e)
      | Ok (resp, n) => parseSTUNResponse resp n txID
      end
  end.
