(* ===== verification/StunLaws.v ===== *)
(** * Laws of the STUN parser

    No response, however malformed, makes the parser panic or run out of
    rounds, and the port it returns is one; a response that carries the
    address behind any attributes the parser does not know is read back. *)
From Stdlib Require Import Ascii String.
From S2P Require Import Prelude GoStrings Stun.
Local Open Scope stdpp_scope.
Local Open Scope Z_scope.

Definition byte_value (b : Z) : Prop := 0 ≤ b < 256.

(** ** Absence of panics *)

(** A result that satisfies [P], or an error that is not a panic. *)
Definition safe {A} (P : A → Prop) (r : res A) : Prop :=
  match r with Ok a => P a | Err e => is_panic e = false end.

Lemma safe_bind {A B} (P : A → Prop) (Q : B → Prop) (m : res A) (f : A → res B) :
  safe P m → (∀ a, P a → safe Q (f a)) → safe Q (m ≫= f).
Proof. destruct m as [a|e]; simpl; auto. Qed.

Lemma len_nonneg {A} (l : list A) : 0 ≤ len l.
Proof. unfold len. lia. Qed.

Lemma len_app {A} (l k : list A) : len (l ++ k) = len l + len k.
Proof. unfold len. rw length_app. lia. Qed.

Lemma slice_safe (l : list Z) i j :
  0 ≤ i ≤ j → j ≤ len l → Forall byte_value l → safe (λ m, len m = j - i ∧ Forall byte_value m) (slice l i j).
Proof.
  intros Hi Hj Hl. unfold slice.
  rw (proj2 (Z.leb_le 0 i)); [|lia]. rw (proj2 (Z.leb_le i j)); [|lia]. rw (proj2 (Z.leb_le j (len l))); [|lia]. simpl.
  split; [|by apply Forall_take, Forall_drop]. unfold len in *. rw length_take length_drop. lia.
Qed.

Lemma at_index_safe (l : list Z) i : 0 ≤ i < len l → Forall byte_value l → safe byte_value (at_index l i).
Proof.
  intros Hi Hl. unfold at_index. rw (proj2 (Z.leb_le 0 i)); [|lia].
  destruct (lookup_lt_is_Some_2 l (Z.to_nat i)) as [x Hx]; [unfold len in *; lia|]. rw Hx. simpl.
  by eapply Forall_lookup_1.
Qed.

Lemma lor_shift x y k : 0 ≤ y < 2 ^ k → 0 ≤ x → 0 ≤ k → Z.lor y (Z.shiftl x k) = y + x * 2 ^ k.
Proof.
  intros Hy Hx Hk. rw Z.shiftl_mul_pow2 //. pose proof (Z.add_lor_land y (x * 2 ^ k)) as Hadd.
  assert (Z.land y (x * 2 ^ k) = 0) as Hzero; [|lia]. clear Hadd. apply Z.bits_inj'. intros n Hn. rw Z.land_spec Z.bits_0.
  destruct (Z.ltb_spec n k); [rw (Z.mul_pow2_bits_low x) //; by rw andb_false_r|].
  destruct (decide (y = 0)) as [->|]; [by rw Z.bits_0|]. rw (Z.bits_above_log2 y) //; [lia|].
  apply Z.log2_lt_pow2; [lia|]. eapply Z.lt_le_trans; [apply Hy|]. by apply Z.pow_le_mono_r.
Qed.

Lemma Uint16_safe b : len b = 2 → Forall byte_value b → safe (λ v, 0 ≤ v < 65536) (Uint16 b).
Proof.
  intros Hlen Hb. unfold Uint16. eapply safe_bind; [apply at_index_safe; [lia|done]|]. intros x Hx.
  eapply safe_bind; [apply at_index_safe; [lia|done]|]. intros y Hy. unfold byte_value in *. simpl.
  rw lor_shift; simpl; lia.
Qed.

Lemma Uint32_safe b : len b = 4 → Forall byte_value b → safe (λ _, True) (Uint32 b).
Proof.
  intros Hlen Hb. unfold Uint32. do 4 (eapply safe_bind; [apply at_index_safe; [lia|done]|intros ? _]). done.
Qed.

Lemma lxor_u16 a b : 0 ≤ a < 65536 → 0 ≤ b < 65536 → 0 ≤ Z.lxor a b < 65536.
Proof.
  intros Ha Hb. assert (0 ≤ Z.lxor a b) as H0 by (apply Z.lxor_nonneg; lia). split; [done|].
  destruct (decide (Z.lxor a b = 0)) as [->|Hne]; [done|]. apply (Z.log2_lt_pow2 _ 16); [lia|].
  eapply Z.le_lt_trans; [apply Z.log2_lxor; lia|].
  apply Z.max_lub_lt; (eapply Z.le_lt_trans; [apply Z.log2_le_mono with (b := 65535); lia|done]).
Qed.

Lemma parseSTUNMappedAddress_safe attrVal txID xor :
  Forall byte_value attrVal →
  safe (λ r : string * Z, 0 ≤ r.2 < 65536) (parseSTUNMappedAddress attrVal txID xor).
Proof.
  intros Hb. unfold parseSTUNMappedAddress. destruct (Z.ltb_spec (len attrVal) 4); [done|].
  eapply safe_bind; [apply slice_safe; [lia..|done]|]. intros pb [Hpl Hpb].
  eapply safe_bind; [by apply Uint16_safe|]. intros port Hport. cbv zeta.
  eapply safe_bind; [apply at_index_safe; [lia|done]|]. intros family _.
  eapply (safe_bind (λ a, a = IPv4len ∨ a = IPv6len)); [repeat case_match; simpl; auto|]. intros al Hal.
  destruct (Z.ltb_spec (len attrVal) (4 + al)); [done|].
  eapply safe_bind; [apply slice_safe; [unfold IPv4len, IPv6len in *; lia..|done]|]. intros ip _.
  eapply (safe_bind (λ _, True)); [by repeat case_match|]. intros ip' _. simpl.
  destruct xor; [|done]. by apply lxor_u16.
Qed.

Lemma ldiff_pad n : 0 ≤ n → n ≤ Z.ldiff (n + 3) 3 ≤ n + 3.
Proof.
  intros Hn. change (n ≤ Z.ldiff (n + 3) (Z.ones 2) ≤ n + 3).
  rw Z.ldiff_ones_r // Z.shiftr_div_pow2 // Z.shiftl_mul_pow2 //. change (2 ^ 2) with 4.
  pose proof (Z.div_mod (n + 3) 4 ltac:(lia)). pose proof (Z.mod_pos_bound (n + 3) 4 ltac:(lia)). lia.
Qed.

Lemma parseAttributes_safe fuel attributes txID idx :
  Forall byte_value attributes → 0 ≤ idx → len attributes - idx ≤ 4 * Z.of_nat fuel →
  safe (λ r : string * Z, 0 ≤ r.2 < 65536) (parseAttributes fuel attributes txID idx).
Proof.
  intros Hb. revert idx. induction fuel as [|fuel IH]; intros idx Hidx Hfuel; cbn [parseAttributes];
    destruct (Z.ltb_spec idx (len attributes)); [lia|done| |done].
  destruct (Z.ltb_spec (len attributes) (idx + 4)); [done|].
  eapply safe_bind; [apply slice_safe; [lia..|done]|]. intros tb [Htl Htb].
  eapply safe_bind; [apply Uint16_safe; [lia|done]|]. intros ty _.
  eapply safe_bind; [apply slice_safe; [lia..|done]|]. intros lb [Hll Hlb].
  eapply safe_bind; [apply Uint16_safe; [lia|done]|]. intros al Hal. simpl in Hal. cbv zeta.
  pose proof (ldiff_pad al (proj1 Hal)) as Hpad.
  destruct (Z.ltb_spec (len attributes) (idx + 4 + Z.ldiff (al + 3) 3)); [done|].
  eapply safe_bind; [apply slice_safe; [lia..|done]|]. intros v [_ Hv].
  case_match; [by apply parseSTUNMappedAddress_safe|]. case_match; [by apply parseSTUNMappedAddress_safe|].
  apply IH; lia.
Qed.

Lemma matchTxID_safe k i resp txID :
  Forall byte_value resp → Forall byte_value txID → 0 ≤ i → 8 + i + Z.of_nat k ≤ len resp → i + Z.of_nat k ≤ len txID →
  safe (λ _, True) (matchTxID k i resp txID).
Proof.
  intros Hr Ht. revert i. induction k as [|k IH]; intros i Hi Hlr Hlt; [done|]. cbn [matchTxID].
  eapply safe_bind; [apply at_index_safe; [lia|done]|]. intros x _.
  eapply safe_bind; [apply at_index_safe; [lia|done]|]. intros y _. case_match; [|done]. apply IH; lia.
Qed.

(** C39: whatever bytes a STUN server sends and whatever count the socket
    reports, the parser returns without a panic and within its rounds, with
    an error or with a port that is one. *)
Theorem parseSTUNResponse_safe resp n txID :
  Forall byte_value resp → Forall byte_value txID →
  safe (λ r : string * Z, 0 ≤ r.2 < 65536) (parseSTUNResponse resp n txID).
Proof.
  intros Hr Ht. unfold parseSTUNResponse. destruct (Z.ltb_spec (len resp) n); [done|].
  destruct (Z.ltb_spec n 20); [done|]. destruct (Z.eqb_spec (len txID) 12); [cbn [negb]|done].
  eapply safe_bind; [apply slice_safe; [lia..|done]|]. intros tb [Htl Htb].
  eapply safe_bind; [by apply Uint16_safe|]. intros ty _.
  eapply safe_bind; [apply slice_safe; [lia..|done]|]. intros lb [Hll Hlb].
  eapply safe_bind; [by apply Uint16_safe|]. intros ml Hml. simpl in Hml.
  eapply safe_bind; [apply slice_safe; [lia..|done]|]. intros cb [Hcl Hcb].
  eapply safe_bind; [by apply Uint32_safe|]. intros cookie _.
  case_match; [done|]. case_match; [done|].
  eapply safe_bind; [apply matchTxID_safe; [done|done|lia..]|]. intros _ _.
  destruct (Z.ltb_spec n (ml + 20)); [done|].
  eapply safe_bind; [apply slice_safe; [lia..|done]|]. intros attrs [Hal Hattrs].
  apply parseAttributes_safe; [done|lia|]. unfold len. lia.
Qed.

(** ** Round trip *)

(** A value padded to a multiple of four bytes, an attribute, the value of
    XOR-MAPPED-ADDRESS, and a success response (RFC 5389). *)
Definition pad4 (v : list Z) : list Z := v ++ replicate (Z.to_nat (Z.ldiff (len v + 3) 3 - len v)) 0.

Definition attribute (ty : Z) (v : list Z) : list Z := PutUint16 ty ++ PutUint16 (len v) ++ pad4 v.

Definition xorAddress (txID ip : list Z) (port : Z) : list Z :=
  [0; if len ip =? IPv4len then 1 else 2] ++ PutUint16 (Z.lxor port 0x2112) ++
  zip_with Z.lxor ip (PutUint32 stunMagicCookie ++ txID).

Definition stunMessage (txID attrs : list Z) : list Z :=
  PutUint16 0x0101 ++ PutUint16 (len attrs) ++ PutUint32 stunMagicCookie ++ txID ++ attrs.

Lemma slice_mid {A} (pre mid post : list A) i j :
  i = len pre → j = len pre + len mid → slice (pre ++ mid ++ post) i j = Ok mid.
Proof.
  intros -> ->. unfold slice. pose proof (len_nonneg pre). pose proof (len_nonneg mid). pose proof (len_nonneg post).
  rw !len_app. rw (proj2 (Z.leb_le _ _)); [|lia]. rw (proj2 (Z.leb_le _ _)); [|lia]. rw (proj2 (Z.leb_le _ _)); [|lia].
  simpl. f_equal. replace (len pre + len mid - len pre) with (len mid) by lia. unfold len. rw !Nat2Z.id.
  by rw drop_app_length take_app_length.
Qed.

Lemma low_byte_mod v : low_byte v = v mod 256.
Proof. unfold low_byte. change 255 with (Z.ones 8). by rw Z.land_ones. Qed.

Lemma Uint16_Put v : 0 ≤ v < 65536 → Uint16 (PutUint16 v) = Ok v.
Proof.
  intros Hv. unfold Uint16, PutUint16. simpl. f_equal. rw !low_byte_mod Z.shiftr_div_pow2 //. change (2 ^ 8) with 256.
  rw lor_shift //; [|apply Z.mod_pos_bound; lia..].
  rw (Z.mod_small (v / 256)); [|split; [apply Z.div_pos|apply Z.div_lt_upper_bound]; lia].
  pose proof (Z.div_mod v 256 ltac:(lia)). lia.
Qed.

Lemma lxor_mask ip mask :
  (length ip ≤ length mask)%nat → zip_with Z.lxor (zip_with Z.lxor ip mask) mask = ip.
Proof.
  revert mask. induction ip as [|x ip IH]; intros [|m mask] Hl; simpl in *; [done..|lia|].
  rw Z.lxor_assoc Z.lxor_nilpotent Z.lxor_0_r. f_equal. apply IH. lia.
Qed.

Lemma len_Put16 v : len (PutUint16 v) = 2.
Proof. done. Qed.

Lemma len_pad4 v : len (pad4 v) = Z.ldiff (len v + 3) 3.
Proof.
  unfold pad4. rw len_app. pose proof (ldiff_pad (len v) (len_nonneg v)). unfold len at 2. rw length_replicate. lia.
Qed.

Lemma len_attribute ty v : len (attribute ty v) = 4 + Z.ldiff (len v + 3) 3.
Proof. unfold attribute. rw len_app len_app len_pad4 !len_Put16. lia. Qed.

(** The parser's view of an attribute at its position. *)
Lemma parseAttributes_at fuel pre ty v post txID :
  0 ≤ ty < 65536 → len v < 65536 →
  parseAttributes (S fuel) (pre ++ attribute ty v ++ post) txID (len pre) =
    if ty =? 0x0001 then parseSTUNMappedAddress v txID false
    else if ty =? 0x0020 then parseSTUNMappedAddress v txID true
    else parseAttributes fuel (pre ++ attribute ty v ++ post) txID (len (pre ++ attribute ty v)).
Proof.
  intros Hty Hv. cbn [parseAttributes]. pose proof (ldiff_pad (len v) (len_nonneg v)).
  pose proof (len_nonneg pre). pose proof (len_nonneg post). pose proof (len_nonneg v).
  rw len_app len_app len_app len_attribute.
  rw (proj2 (Z.ltb_lt _ _)); [|lia]. rw (proj2 (Z.ltb_ge _ (len pre + 4))); [|lia].
  set (attrs := pre ++ attribute ty v ++ post).
  assert (slice attrs (len pre) (len pre + 2) = Ok (PutUint16 ty)) as ->.
  { unfold attrs, attribute. rw -!app_assoc. by apply slice_mid. }
  assert (slice attrs (len pre + 2) (len pre + 4) = Ok (PutUint16 (len v))) as ->.
  { unfold attrs, attribute. rw -!app_assoc. rw (app_assoc pre). apply slice_mid; rw !len_app !len_Put16; lia. }
  cbn [mbind res_bind]. rw !Uint16_Put //. cbn [mbind res_bind].
  rw (proj2 (Z.ltb_ge _ (len pre + 4 + _))); [|lia].
  assert (slice attrs (len pre + 4) (len pre + 4 + len v) = Ok v) as ->.
  { unfold attrs, attribute, pad4. rw -!app_assoc. rw (app_assoc pre). rw (app_assoc (pre ++ _)).
    apply slice_mid; rw !len_app !len_Put16; lia. }
  cbn [mbind res_bind]. by rw !Z.add_assoc.
Qed.

(** Attributes of other types are skipped. *)
Lemma parseAttributes_skips fuel pre (others : list (Z * list Z)) last post txID :
  Forall (λ a, 0 ≤ a.1 < 65536 ∧ a.1 ≠ 0x0001 ∧ a.1 ≠ 0x0020 ∧ len a.2 < 65536) others → len last < 65536 →
  (length others < fuel)%nat →
  parseAttributes fuel (pre ++ concat ((λ a, attribute a.1 a.2) <$> others) ++ attribute 0x0020 last ++ post) txID (len pre) =
    parseSTUNMappedAddress last txID true.
Proof.
  intros Ho Hl. revert fuel pre. induction Ho as [|[ty v] others (Hty & H1 & H32 & Hv) _ IH]; intros [|fuel] pre Hf;
    simpl in Hf; [lia| |lia|]; cbn [fmap list_fmap concat app fst snd] in *.
  - by rw parseAttributes_at.
  - rw -app_assoc. rw parseAttributes_at //. rw (proj2 (Z.eqb_neq ty 1)) // (proj2 (Z.eqb_neq ty 32)) //.
    rw app_assoc. apply IH. lia.
Qed.

Lemma zip_with_mask ip mask rest :
  length ip = length mask → zip_with Z.lxor ip (mask ++ rest) = zip_with Z.lxor ip mask.
Proof. revert mask. induction ip as [|x ip IH]; intros [|m mask] [=]; simpl; [done|]. f_equal. auto. Qed.

Lemma parseSTUNMappedAddress_xor txID ip port :
  len txID = 12 → len ip = IPv4len ∨ len ip = IPv6len → 0 ≤ port < 65536 →
  parseSTUNMappedAddress (xorAddress txID ip port) txID true = Ok (IP_String ip, port).
Proof.
  intros Ht Hip Hport. unfold xorAddress. set (mask := PutUint32 stunMagicCookie ++ txID).
  set (family := if len ip =? IPv4len then 1 else 2). set (z := zip_with Z.lxor ip mask).
  assert (length mask = 16)%nat as Hm by (unfold mask, len in *; rw length_app /=; lia).
  assert (len z = len ip) as Hz.
  { unfold z, len in *. rw length_zip_with Hm. unfold IPv4len, IPv6len in *. lia. }
  pose proof (len_nonneg ip) as H0.
  assert (len ([0; family] ++ PutUint16 (Z.lxor port 8466) ++ z) = 4 + len ip) as Hlen.
  { rw len_app len_app Hz len_Put16. unfold len at 1. simpl. lia. }
  unfold parseSTUNMappedAddress. rw Hlen. rw (proj2 (Z.ltb_ge _ 4)); [|lia].
  rw (slice_mid [0; family]) //. cbn [mbind res_bind]. rw Uint16_Put; [|by apply lxor_u16]. cbn [mbind res_bind].
  change (Z.shiftr stunMagicCookie 16) with 8466. rw Z.lxor_assoc Z.lxor_nilpotent Z.lxor_0_r.
  change (at_index _ 1) with (Ok family). cbn [mbind res_bind].
  assert ((if family =? 1 then Ok IPv4len else if family =? 2 then Ok IPv6len
           else Err (EMsg "unsupported STUN mapped-address family")) = Ok (len ip)) as ->.
  { unfold family. destruct Hip as [->| ->]; done. }
  cbn [mbind res_bind]. rw Z.ltb_irrefl.
  assert (slice ([0; family] ++ PutUint16 (Z.lxor port 8466) ++ z) 4 (4 + len ip) = Ok z) as ->.
  { pose proof (slice_mid ([0; family] ++ PutUint16 (Z.lxor port 8466)) z [] 4 (4 + len ip)) as Hs.
    rw app_nil_r -app_assoc in Hs. apply Hs; [done|]. by rw Hz. }
  cbn [mbind res_bind]. destruct Hip as [Hip|Hip]; rw Hip.
  - cbn [Z.eqb IPv4len IPv6len Pos.eqb mbind res_bind]. rw /z /mask zip_with_mask; [rw lxor_mask //|]; unfold len, IPv4len in *; simpl; lia.
  - cbn [Z.eqb IPv4len IPv6len Pos.eqb mbind res_bind]. rw Ht. cbn. rw lxor_mask //. unfold len, IPv6len in *. lia.
Qed.

Lemma matchTxID_same k i (pre txID post : list Z) :
  len pre = 8 → 0 ≤ i → i + Z.of_nat k = len txID → matchTxID k i (pre ++ txID ++ post) txID = Ok ().
Proof.
  intros Hpre. revert i. induction k as [|k IH]; intros i Hi Hk; [done|]. cbn [matchTxID]. unfold at_index.
  rw (proj2 (Z.leb_le 0 (8 + i))); [|lia]. rw (proj2 (Z.leb_le 0 i)); [|lia].
  replace (Z.to_nat (8 + i)) with (length pre + Z.to_nat i)%nat by (unfold len in *; lia). rw lookup_app_r; [|lia].
  replace (length pre + Z.to_nat i - length pre)%nat with (Z.to_nat i) by lia.
  destruct (lookup_lt_is_Some_2 txID (Z.to_nat i)) as [x Hx]; [unfold len in *; lia|].
  rw (lookup_app_l_Some _ _ _ _ Hx) Hx. cbn [mbind res_bind]. rw Z.eqb_refl. apply IH; lia.
Qed.

(** Room in the attributes: for the last value, and for a round each. *)
Lemma attributes_room (others : list (Z * list Z)) v rest :
  let attrs := concat ((λ a, attribute a.1 a.2) <$> others) ++ attribute 0x0020 v ++ rest in
  len attrs < 65536 → len v < 65536 ∧ (length others < length attrs)%nat.
Proof.
  intros attrs. unfold attrs. rw len_app len_app len_attribute.
  pose proof (ldiff_pad (len v) (len_nonneg v)). pose proof (len_nonneg rest). pose proof (len_nonneg others).
  assert (4 * len others ≤ len (concat ((λ a, attribute a.1 a.2) <$> others))) as Hc.
  { induction others as [|[ty w] others IH]; [done|]. cbn [fmap list_fmap concat]. rw len_app len_attribute /=.
    pose proof (ldiff_pad (len w) (len_nonneg w)). pose proof (len_nonneg w). unfold len in *. simpl. lia. }
  intros Hl. split; [lia|]. rw length_app length_app. pose proof (len_attribute 0x0020 v). pose proof (len_nonneg v).
  unfold len in *. lia.
Qed.

(** A success response for the transaction that carries an address and a
    port, IPv4 or IPv6, behind any attributes of other types and before any
    more bytes, is parsed to that address and port. *)
Theorem stun_roundtrip txID ip port others rest junk :
  len txID = 12 → len ip = IPv4len ∨ len ip = IPv6len → 0 ≤ port < 65536 →
  Forall (λ a, 0 ≤ a.1 < 65536 ∧ a.1 ≠ 0x0001 ∧ a.1 ≠ 0x0020 ∧ len a.2 < 65536) others →
  let attrs := concat ((λ a, attribute a.1 a.2) <$> others) ++ attribute 0x0020 (xorAddress txID ip port) ++ rest in
  len attrs < 65536 →
  parseSTUNResponse (stunMessage txID attrs ++ junk) (len (stunMessage txID attrs)) txID = Ok (IP_String ip, port).
Proof.
  intros Ht Hip Hport Ho attrs Hattrs.
  assert (attrs = concat ((λ a, attribute a.1 a.2) <$> others) ++ attribute 32 (xorAddress txID ip port) ++ rest) as Hbody
    by done. clearbody attrs. pose proof (len_nonneg attrs). pose proof (len_nonneg junk).
  assert (len (stunMessage txID attrs) = 20 + len attrs) as Hn.
  { unfold stunMessage. rw len_app len_app len_app len_app !len_Put16 Ht. change (len (PutUint32 _)) with 4. lia. }
  unfold parseSTUNResponse. rw len_app Hn Ht. rw (proj2 (Z.ltb_ge _ (20 + len attrs))); [|lia].
  rw (proj2 (Z.ltb_ge _ 20)); [|lia]. cbn [Z.eqb Pos.eqb negb]. unfold stunMessage. rw -!app_assoc.
  set (cookie := PutUint32 stunMagicCookie).
  assert (∀ tail, slice (PutUint16 257 ++ PutUint16 (len attrs) ++ cookie ++ tail) 0 2 = Ok (PutUint16 257)) as ->.
  { intros tail. by apply (slice_mid []). }
  assert (∀ tail, slice (PutUint16 257 ++ PutUint16 (len attrs) ++ cookie ++ tail) 2 4 = Ok (PutUint16 (len attrs))) as ->.
  { intros tail. by apply slice_mid. }
  assert (∀ tail, slice (PutUint16 257 ++ PutUint16 (len attrs) ++ cookie ++ tail) 4 8 = Ok cookie) as ->.
  { intros tail. rw app_assoc. by apply slice_mid. }
  cbn [mbind res_bind]. rw !Uint16_Put //. change (Uint32 cookie) with (@Ok Z stunMagicCookie). cbn [mbind res_bind].
  rw !Z.eqb_refl. cbn [negb]. set (head := PutUint16 257 ++ PutUint16 (len attrs) ++ cookie).
  assert (∀ tail, PutUint16 257 ++ PutUint16 (len attrs) ++ cookie ++ tail = head ++ tail) as Hhead by done.
  rw Hhead matchTxID_same //. cbn [mbind res_bind]. rw (proj2 (Z.ltb_ge _ (len attrs + 20))); [|lia].
  rw app_assoc slice_mid; [|rw len_app Ht; change (len head) with 8; lia..]. cbn [mbind res_bind].
  rw -(parseSTUNMappedAddress_xor txID ip port) // Hbody. rw Hbody in Hattrs. apply attributes_room in Hattrs.
  apply (parseAttributes_skips _ []); naive_solver.
Qed.

Definition stunDemo : list Z :=
  stunMessage (replicate 12 7) (attribute 0x8022 [65; 66] ++ attribute 0x0020 (xorAddress (replicate 12 7) [203; 0; 113; 9] 51234)).

Lemma stun_roundtrip_witness : parseSTUNResponse (stunDemo ++ [0; 0]) (len stunDemo) (replicate 12 7) = Ok ("203.0.113.9", 51234).
Proof.
  pose proof (stun_roundtrip (replicate 12 7) [203; 0; 113; 9] 51234 [(0x8022, [65; 66])] [] [0; 0]) as H.
  rw app_nil_r in H. apply H; [done|by left|lia|by repeat constructor|by vm_compute].
Defined.

Lemma parseSTUNResponse_safe_witness :
  safe (λ r : string * Z, 0 ≤ r.2 < 65536) (parseSTUNResponse (PutUint16 0x0101 ++ replicate 40 255) 42 (replicate 12 255)).
Proof.
  apply parseSTUNResponse_safe; apply Forall_forall; intros x Hx; unfold byte_value.
  - apply elem_of_app in Hx as [Hx|Hx%elem_of_replicate]; [|lia].
    apply elem_of_cons in Hx as [->|Hx]; [by vm_compute|]. apply list_elem_of_singleton in Hx as ->. by vm_compute.
  - apply elem_of_replicate in Hx. lia.
Defined.
