(* ===== verification/Bandwidth.v ===== *)
(** * Bandwidth accounting

    [internal/server/bandwidth.go]: totals, and a history pruned to a sliding
    window of five seconds from which the current rates are computed.  Times
    are in nanoseconds; a rate is given by the bytes in the window, which the
    code divides by its five seconds. *)
From Stdlib Require Import Ascii String.
From S2P Require Import Prelude GoStrings Relay.
Local Open Scope stdpp_scope.
Local Open Scope Z_scope.

Record TransferRecord := { Timestamp : Z; Bytes : Z; Category : string }.

Record BandwidthTracker := {
  totalSent : Z;
  totalReceived : Z;
  sentHistory : list TransferRecord;
  receivedHistory : list TransferRecord }.

Definition NewBandwidthTracker : BandwidthTracker :=
  {| totalSent := 0; totalReceived := 0; sentHistory := []; receivedHistory := [] |}.

Definition bandwidthWindow : Z := 5 * second.

(** [strings.Cut] at a byte: what [Index] and the two slices around it give. *)
Fixpoint cutByte (c : ascii) (s : string) : option (string * string) :=
  match s with
  | EmptyString => None
  | String d rest =>
      if Ascii.eqb d c then Some (EmptyString, rest)
      else match cutByte c rest with Some (a, b) => Some (String d a, b) | None => None end
  end.

(** [strings.Split] at a byte. *)
Fixpoint splitByte (c : ascii) (s : string) : list string :=
  match s with
  | EmptyString => [EmptyString]
  | String d rest =>
      if Ascii.eqb d c then EmptyString :: splitByte c rest
      else match splitByte c rest with
           | p :: ps => String d p :: ps
           | [] => [String d EmptyString]
           end
  end.

(** The service a query names: the first parameter [service] or [name] with a
    value. *)
Fixpoint queryService (params : list string) : option string :=
  match params with
  | [] => None
  | p :: rest =>
      match cutByte "="%char p with
      | Some (k, v) => if bool_decide (k = "service") || bool_decide (k = "name") then Some v else queryService rest
      | None => queryService rest
      end
  end.

Definition CategorizePath (path : string) : string :=
  if HasPrefix path PathDownloadPrefix then
    let cleanPath := match cutByte "?"%char path with Some (a, _) => a | None => path end in
    match splitByte "/"%char cleanPath with
    | _ :: _ :: hash :: _ => "vfs:" +:+ hash
    | _ => "vfs:download"
    end
  else if HasPrefix path PathUpload then "vfs:upload"
  else if HasPrefix path ServicesPrefix then
    let cleanPath := TrimPrefix path ServicesPrefix in
    match cutByte "?"%char cleanPath with
    | Some (basePath, queryParams) =>
        match queryService (splitByte "&"%char queryParams) with
        | Some v => "service:" +:+ v
        | None => "service:" +:+ basePath
        end
    | None => "service:" +:+ cleanPath
    end
  else "other".

(** The loop of [pruneHistory], on the reversed history: the records up to
    the first one before the threshold, and their bytes. *)
Fixpoint pruneLoop (rev_history : list TransferRecord) (threshold : Z) (kept : list TransferRecord) (total : Z)
    : list TransferRecord * Z :=
  match rev_history with
  | [] => (kept, total)
  | rec :: rest =>
      if Timestamp rec <? threshold then (kept, total)
      else pruneLoop rest threshold (rec :: kept) (wrap64 (total + Bytes rec))
  end.

Definition pruneHistory (history : list TransferRecord) (threshold : Z) : list TransferRecord * Z :=
  pruneLoop (reverse history) threshold [] 0.

Fixpoint sumCategory (history : list TransferRecord) (threshold : Z) (category : string) (total : Z) : Z :=
  match history with
  | [] => total
  | rec :: rest =>
      sumCategory rest threshold category
        (if (threshold <? Timestamp rec) && bool_decide (Category rec = category)
         then wrap64 (total + Bytes rec) else total)
  end.

Implicit Types bt : BandwidthTracker.

Definition recordTransfer (isSent : bool) (n : Z) (path : string) (now : Z) bt : BandwidthTracker :=
  let rec := {| Timestamp := now; Bytes := n; Category := CategorizePath path |} in
  let threshold := now - bandwidthWindow in
  if isSent
  then {| totalSent := wrap64 (totalSent bt + n); totalReceived := totalReceived bt;
          sentHistory := (pruneHistory (sentHistory bt ++ [rec]) threshold).1; receivedHistory := receivedHistory bt |}
  else {| totalSent := totalSent bt; totalReceived := wrap64 (totalReceived bt + n);
          sentHistory := sentHistory bt; receivedHistory := (pruneHistory (receivedHistory bt ++ [rec]) threshold).1 |}.

Definition GetCurrentBandwidth (now : Z) bt : (Z * Z) * BandwidthTracker :=
  let threshold := now - bandwidthWindow in
  let '(sent, sentSum) := pruneHistory (sentHistory bt) threshold in
  let '(received, recvSum) := pruneHistory (receivedHistory bt) threshold in
  ((sentSum, recvSum),
   {| totalSent := totalSent bt; totalReceived := totalReceived bt; sentHistory := sent; receivedHistory := received |}).

Definition GetCategoryBandwidth (category : string) (now : Z) bt : Z * Z :=
  let threshold := now - bandwidthWindow in
  (sumCategory (sentHistory bt) threshold category 0, sumCategory (receivedHistory bt) threshold category 0).

Definition GetTotalBandwidth bt : Z * Z := (totalSent bt, totalReceived bt).

(** ** The window is exact *)

(** A use of the tracker: a transfer, or a reading of the rates, which prunes
    too. *)
Inductive usage := Transfer (isSent : bool) (n : Z) (path : string) | Reading.

Definition use (u : Z * usage) bt : BandwidthTracker :=
  match u with
  | (now, Transfer isSent n path) => recordTransfer isSent n path now bt
  | (now, Reading) => (GetCurrentBandwidth now bt).2
  end.

(** All transfers in one direction, as the records they make. *)
Definition log (isSent : bool) (us : list (Z * usage)) : list TransferRecord :=
  omap (λ u : Z * usage,
    match u with
    | (t, Transfer b n path) =>
        if Bool.eqb b isSent then Some {| Timestamp := t; Bytes := n; Category := CategorizePath path |} else None
    | _ => None
    end) us.

Definition recent (threshold : Z) (h : list TransferRecord) : list TransferRecord :=
  filter (λ r, threshold ≤ Timestamp r) h.

Definition bytesOf (h : list TransferRecord) : Z := wrap64 (foldr Z.add 0 (Bytes <$> h)).

Definition in_order (h : list TransferRecord) : Prop := StronglySorted (λ a b, Timestamp a ≤ Timestamp b) h.

Lemma wrap64_add a b : wrap64 (wrap64 a + b) = wrap64 (a + b).
Proof.
  unfold wrap64. replace ((a + 2 ^ 63) mod 2 ^ 64 - 2 ^ 63 + b + 2 ^ 63) with ((a + 2 ^ 63) mod 2 ^ 64 + b) by lia.
  rw Z.add_mod_idemp_l //. f_equal. f_equal. lia.
Qed.

Lemma sum_app (l k : list Z) : foldr Z.add 0 (l ++ k) = foldr Z.add 0 l + foldr Z.add 0 k.
Proof. induction l as [|x l IH]; simpl; lia. Qed.

Lemma list_filter_none {A} (P : A → Prop) `{!∀ x, Decision (P x)} (l : list A) : (∀ x, x ∈ l → ¬ P x) → filter P l = [].
Proof.
  induction l as [|x l IH]; intros Hl; [done|]. rw filter_cons_False; [|apply Hl; set_solver].
  apply IH. intros y Hy. apply Hl. set_solver.
Qed.

Lemma pruneLoop_spec h threshold kept total :
  in_order h →
  pruneLoop (reverse h) threshold kept (wrap64 total) =
    (recent threshold h ++ kept, wrap64 (total + foldr Z.add 0 (Bytes <$> recent threshold h))).
Proof.
  revert kept total. induction h as [|r h IH] using rev_ind; intros kept total Hs.
  { simpl. by rw Z.add_0_r. }
  pose proof (StronglySorted_app_1_l _ _ _ Hs) as Hh. rw reverse_snoc. simpl. unfold recent. rw filter_app.
  destruct (Z.ltb_spec (Timestamp r) threshold) as [Hlt|Hge].
  - rw (filter_cons_False _ r) ?filter_nil; [|lia]. assert (filter (λ r, threshold ≤ Timestamp r) h = []) as ->.
    { apply list_filter_none. intros x Hx. pose proof (StronglySorted_app_1_elem_of _ h [r] x r Hs Hx (list_elem_of_here _ _)) as Hxr.
      simpl in Hxr. lia. }
    simpl. by rw Z.add_0_r.
  - rw wrap64_add IH // filter_cons_True //. unfold recent. rw fmap_app sum_app -app_assoc /=. f_equal. f_equal. lia.
Qed.

Lemma pruneHistory_spec h threshold :
  in_order h → pruneHistory h threshold = (recent threshold h, bytesOf (recent threshold h)).
Proof.
  intros Hh. unfold pruneHistory. change 0 with (wrap64 0). rw pruneLoop_spec // app_nil_r. done.
Qed.

Lemma recent_recent th th' h : th ≤ th' → recent th' (recent th h) = recent th' h.
Proof.
  intros Hle. unfold recent. rw list_filter_filter. apply list_filter_iff. intros r. lia.
Qed.

Lemma recent_in_order th h : in_order h → in_order (recent th h).
Proof.
  unfold in_order, recent. induction 1 as [|r h Hh IH Hr]; [constructor|]. rw filter_cons. case_decide; [|done].
  constructor; [done|]. apply Forall_forall. intros x [_ Hx]%list_elem_of_filter. by eapply Forall_forall in Hr.
Qed.

Definition timely (us : list (Z * usage)) : Prop := StronglySorted (λ u v, u.1 ≤ v.1) us.

Lemma log_time isSent us r : r ∈ log isSent us → ∃ u, u ∈ us ∧ u.1 = Timestamp r.
Proof.
  unfold log. intros (u & Hu & Hr)%list_elem_of_omap. exists u. split; [done|]. destruct u as [t [b n path|]]; simplify_eq/=.
  case_match; by simplify_eq.
Qed.

Lemma log_in_order isSent us : timely us → in_order (log isSent us).
Proof.
  induction 1 as [|u us Hus IH Hu]; [constructor|]. unfold log. simpl. case_match eqn:Hr; [|done]. constructor; [done|].
  apply Forall_forall. intros x (v & Hv & Hx)%log_time. rw -Hx. eapply Forall_forall in Hu; [|exact Hv].
  destruct u as [tm [b n path|]]; simplify_eq/=. case_match; by simplify_eq.
Qed.

Lemma log_snoc isSent us u : log isSent (us ++ [u]) = log isSent us ++ log isSent [u].
Proof. apply omap_app. Qed.

Definition runTracker (us : list (Z * usage)) : BandwidthTracker := foldl (λ bt u, use u bt) NewBandwidthTracker us.

Lemma prune_log th l recs now :
  in_order (l ++ recs) → th ≤ now - bandwidthWindow → (∀ r, r ∈ recs → th ≤ Timestamp r) →
  (pruneHistory (recent th l ++ recs) (now - bandwidthWindow)).1 = recent (now - bandwidthWindow) (l ++ recs).
Proof.
  intros Hord Hth Hrecs. assert (recent th l ++ recs = recent th (l ++ recs)) as ->.
  { unfold recent. rw filter_app. f_equal. clear -Hrecs.
    induction recs as [|r recs IH]; [done|]. rw filter_cons_True; [|apply Hrecs; set_solver].
    f_equal. apply IH. intros x Hx. apply Hrecs. set_solver. }
  rw pruneHistory_spec; [|by apply recent_in_order]. simpl. by apply recent_recent.
Qed.

(** The kept history is the log but for records older than a window. *)
Lemma runTracker_history us t :
  timely us → (∀ u, u ∈ us → u.1 ≤ t) →
  (∃ th, th ≤ t - bandwidthWindow ∧ sentHistory (runTracker us) = recent th (log true us)) ∧
  (∃ th, th ≤ t - bandwidthWindow ∧ receivedHistory (runTracker us) = recent th (log false us)).
Proof.
  revert t. induction us as [|[now u] us IH] using rev_ind; intros t Hus Ht; [split; by exists (t - bandwidthWindow)|].
  pose proof (StronglySorted_app_1_l _ _ _ Hus) as Hus'.
  assert (now ≤ t) as Hnow by (apply (Ht (now, u)); set_solver).
  destruct (IH now Hus') as [(ths & Hths & Hs) (thr & Hthr & Hr)].
  { intros v Hv. apply (StronglySorted_app_1_elem_of _ us [(now, u)] v (now, u) Hus Hv). set_solver. }
  assert (∀ isSent, in_order (log isSent us ++ log isSent [(now, u)])) as Hord.
  { intros isSent. rw -log_snoc. by apply log_in_order. }
  unfold runTracker. rw foldl_app. fold (runTracker us).
  rw !log_snoc. destruct u as [[] n path|]; cbn in *; rw ?app_nil_r.
  - split; [exists (now - bandwidthWindow)|exists thr]; (split; [lia|]); [|done].
    rw Hs. apply prune_log; [apply (Hord true)|done|]. intros r ->%list_elem_of_singleton. simpl. unfold bandwidthWindow, second in *. lia.
  - split; [exists ths|exists (now - bandwidthWindow)]; (split; [lia|]); [done|].
    rw Hr. apply prune_log; [apply (Hord false)|done|]. intros r ->%list_elem_of_singleton. simpl. unfold bandwidthWindow, second in *. lia.
  - unfold GetCurrentBandwidth. rw Hs Hr !pruneHistory_spec; [|by apply recent_in_order, log_in_order..]. simpl.
    rw !recent_recent //. split; exists (now - bandwidthWindow); (split; [lia|done]).
Qed.

Lemma runTracker_totals us :
  GetTotalBandwidth (runTracker us) = (bytesOf (log true us), bytesOf (log false us)).
Proof.
  induction us as [|[now u] us IH] using rev_ind; [done|]. unfold runTracker. rw foldl_app. fold (runTracker us).
  injection IH as Hs Hr. unfold GetTotalBandwidth, bytesOf in *. rw !log_snoc !fmap_app !sum_app.
  destruct u as [[] n path|]; cbn.
  - rw Hs Hr wrap64_add. by rw !Z.add_0_r.
  - rw Hs Hr wrap64_add. by rw !Z.add_0_r.
  - unfold GetCurrentBandwidth. do 2 case_match. simpl. by rw Hs Hr !Z.add_0_r.
Qed.

(** With a clock that does not go back, the rates reported at any time
    are those of all transfers of the last five seconds, although the history
    has been pruned at every use before, and the totals are those of all
    transfers (modulo the 64 bits of the counters). *)
Theorem bandwidth_window_exact us now :
  timely (us ++ [(now, Reading)]) →
  (GetCurrentBandwidth now (runTracker us)).1 =
    (bytesOf (recent (now - bandwidthWindow) (log true us)), bytesOf (recent (now - bandwidthWindow) (log false us))) ∧
  GetTotalBandwidth (runTracker us) = (bytesOf (log true us), bytesOf (log false us)).
Proof.
  intros Hus. split; [|apply runTracker_totals]. pose proof (StronglySorted_app_1_l _ _ _ Hus) as Hus'.
  destruct (runTracker_history us now Hus') as [(ths & Hths & Hs) (thr & Hthr & Hr)].
  { intros u Hu. apply (StronglySorted_app_1_elem_of _ us [(now, Reading)] u (now, Reading) Hus Hu). set_solver. }
  unfold GetCurrentBandwidth. rw Hs Hr.
  rw !pruneHistory_spec; [|by apply recent_in_order, log_in_order..]. by rw !recent_recent.
Qed.

Definition usageDemo : list (Z * usage) :=
  [(0, Transfer true 100 "/upload"); (3 * second, Transfer true 20 "/download/ab?x=1"); (4 * second, Reading);
   (6 * second, Transfer false 7 "/services/bid?service=echo")].

Lemma bandwidth_window_exact_witness :
  (GetCurrentBandwidth (7 * second) (runTracker usageDemo)).1 = (20, 7) ∧ GetTotalBandwidth (runTracker usageDemo) = (120, 7).
Proof.
  destruct (bandwidth_window_exact usageDemo (7 * second)) as [H1 H2].
  - unfold timely, usageDemo. simpl. repeat constructor; simpl; unfold second; lia.
  - split; [etransitivity; [exact H1|by vm_compute]|etransitivity; [exact H2|by vm_compute]].
Defined.

(** ** Categories *)

Lemma cutByte_app c p t a b :
  cutByte c p = None → cutByte c t = Some (a, b) → cutByte c (p +:+ t) = Some (p +:+ a, b).
Proof.
  intros Hp Ht. induction p as [|d p IH]; [done|]. simpl in Hp.
  change (cutByte c (String d (p +:+ t)) = Some (String d (p +:+ a), b)). simpl. destruct (Ascii.eqb d c); [done|].
  destruct (cutByte c p) as [[]|]; [done|]. by rw IH.
Qed.

Lemma splitByte_none c p : cutByte c p = None → splitByte c p = [p].
Proof.
  intros Hp. induction p as [|d p IH]; [done|]. simpl in *. destruct (Ascii.eqb d c); [done|].
  destruct (cutByte c p) as [[]|]; [done|]. by rw IH.
Qed.

Lemma splitByte_app c p t : cutByte c p = None → splitByte c (p +:+ String c t) = p :: splitByte c t.
Proof.
  intros Hp. induction p as [|d p IH].
  - change (splitByte c (String c t) = "" :: splitByte c t). simpl. by rw Ascii.eqb_refl.
  - change (splitByte c (String d (p +:+ String c t)) = String d p :: splitByte c t). simpl in *.
    destruct (Ascii.eqb d c); [done|]. destruct (cutByte c p) as [[]|]; [done|]. by rw IH.
Qed.

(** A download is accounted to the digest in its path. *)
Lemma CategorizePath_download hash rest :
  cutByte "/"%char hash = None → cutByte "?"%char hash = None →
  CategorizePath (PathDownloadPrefix +:+ hash +:+ String "?" rest) = "vfs:" +:+ hash.
Proof.
  intros Hslash Hq. unfold CategorizePath. rw HasPrefix_app.
  assert (cutByte "?"%char (hash +:+ String "?" rest) = Some (hash +:+ "", rest)) as Hcut by by apply cutByte_app.
  rw (cutByte_app _ _ _ _ _ (eq_refl : cutByte "?"%char PathDownloadPrefix = None) Hcut) str_app_nil_r.
  change (PathDownloadPrefix +:+ hash) with ("" +:+ String "/" ("download" +:+ String "/" hash)).
  by rw !splitByte_app // splitByte_none.
Qed.
