(* ===== verification/Quic.v ===== *)
(** * QUIC sessions

    [internal/p2p/holepunch.go]: a node keeps at most one direct session per
    peer.  Sessions come from inbound connections, from dials after a hole was
    punched and from dials through TURN; a session is published only under
    the TLS generation its certificate was verified with, and never for a
    blocked peer.  Hole punches to one peer share one attempt.

    Connections are numbers; what their handshake established ([connState])
    and the key they export ([exportKey]) are arguments.  Operations that hold
    a lock are one step; the longer procedures are cut at their locks and
    waits into the steps [dialNext], [inboundNext], [punchNext] and
    [respondNext]. *)
From Stdlib Require Import Ascii String.
From S2P Require Import Prelude GoStrings Json Protocol PeerRegistry Relay.
Local Open Scope stdpp_scope.

(** ** Addresses and pings *)

Definition QUICScheme := "quic://".

Definition FormatQUICAddr (hostport : string) : string := QUICScheme +:+ hostport.

Definition ParseQUICAddr (addr : string) : option string :=
  if HasPrefix addr QUICScheme then
    let hostport := TrimPrefix addr QUICScheme in
    if bool_decide (hostport = "") then None else Some hostport
  else None.

Fixpoint FirstQUICAddr (addrs : list string) : option string :=
  match addrs with
  | [] => None
  | a :: rest => match ParseQUICAddr a with Some _ => Some a | None => FirstQUICAddr rest end
  end.

Definition holePunchMagic : string :=
  let ff := ascii_of_nat 255 in String ff (String ff (String ff (String ff EmptyString))).

Definition HolePunchPingPayload (localID : string) : string := holePunchMagic +:+ "ping:" +:+ localID.

Definition ParseHolePunchPing (p : string) : option string :=
  if bool_decide (str_len p < 4)%nat || negb (bool_decide (str_take 4 p = holePunchMagic)) then None
  else
    let payload := str_drop 4 p in
    if HasPrefix payload "ping:" then Some (TrimPrefix payload "ping:") else None.

(** [ReadFrom] of the wrapped socket: pings are intercepted, the first other
    packet is returned, with the senders heard on the way. *)
Fixpoint readFrom (packets : list string) : list string * option (string * list string) :=
  match packets with
  | [] => ([], None)
  | p :: rest =>
      match ParseHolePunchPing p with
      | Some sender => let '(heard, out) := readFrom rest in (sender :: heard, out)
      | None => ([], Some (p, rest))
      end
  end.

(** ** Identities *)

Section identity.
Context {Cert : Type}.

Definition verifyPeerCNValue (cn expectedPeerID : string) : option error :=
  if bool_decide (cn ≠ expectedPeerID) then Some (EMsg "peer identity mismatch") else None.

Definition VerifyTLSPeerCN (state : @tlsState Cert) (expectedPeerID : string) : option error :=
  match PeerCNFromTLS state with
  | None => Some (EMsg "peer identity mismatch: missing certificate")
  | Some cn => verifyPeerCNValue cn expectedPeerID
  end.
End identity.

(** ** The manager *)

(** [dialResult]: the connection and the error are both pointers that may be
    nil.  The manager's [dialResults] are the attempts by the order of their
    creation, each with its peer and, once it has ended, its outcome. *)
Definition dialOutcome : Type := option nat * option error.

Record QUICManager := {
  LocalID : string;
  publicUDPAddr : string;
  Sessions : gmap string nat;
  blockedPeers : gset string;
  hasClientTLS : bool;
  hasServerTLS : bool;
  tlsGeneration : Z;
  handshakeGen : gmap string Z;
  cancelled : bool;
  dials : gmap string nat;
  dialResults : gmap nat (string * option dialOutcome);
  closedConns : gset nat }.

Definition NewQUICManager (localID : string) (client server : bool) : QUICManager :=
  {| LocalID := localID; publicUDPAddr := ""; Sessions := ∅; blockedPeers := ∅; hasClientTLS := client;
     hasServerTLS := server; tlsGeneration := 1; handshakeGen := ∅; cancelled := false; dials := ∅;
     dialResults := ∅; closedConns := ∅ |}.

Implicit Types qm : QUICManager.

Definition set_sessions (f : gmap string nat → gmap string nat) qm : QUICManager :=
  {| LocalID := LocalID qm; publicUDPAddr := publicUDPAddr qm; Sessions := f (Sessions qm); blockedPeers := blockedPeers qm;
     hasClientTLS := hasClientTLS qm; hasServerTLS := hasServerTLS qm; tlsGeneration := tlsGeneration qm;
     handshakeGen := handshakeGen qm; cancelled := cancelled qm; dials := dials qm; dialResults := dialResults qm;
     closedConns := closedConns qm |}.
Definition set_blocked (f : gset string → gset string) qm : QUICManager :=
  {| LocalID := LocalID qm; publicUDPAddr := publicUDPAddr qm; Sessions := Sessions qm; blockedPeers := f (blockedPeers qm);
     hasClientTLS := hasClientTLS qm; hasServerTLS := hasServerTLS qm; tlsGeneration := tlsGeneration qm;
     handshakeGen := handshakeGen qm; cancelled := cancelled qm; dials := dials qm; dialResults := dialResults qm;
     closedConns := closedConns qm |}.
Definition set_handshakes (f : gmap string Z → gmap string Z) qm : QUICManager :=
  {| LocalID := LocalID qm; publicUDPAddr := publicUDPAddr qm; Sessions := Sessions qm; blockedPeers := blockedPeers qm;
     hasClientTLS := hasClientTLS qm; hasServerTLS := hasServerTLS qm; tlsGeneration := tlsGeneration qm;
     handshakeGen := f (handshakeGen qm); cancelled := cancelled qm; dials := dials qm; dialResults := dialResults qm;
     closedConns := closedConns qm |}.
Definition set_dials (f : gmap string nat → gmap string nat) (g : gmap nat (string * option dialOutcome) → gmap nat (string * option dialOutcome))
    qm : QUICManager :=
  {| LocalID := LocalID qm; publicUDPAddr := publicUDPAddr qm; Sessions := Sessions qm; blockedPeers := blockedPeers qm;
     hasClientTLS := hasClientTLS qm; hasServerTLS := hasServerTLS qm; tlsGeneration := tlsGeneration qm;
     handshakeGen := handshakeGen qm; cancelled := cancelled qm; dials := f (dials qm); dialResults := g (dialResults qm);
     closedConns := closedConns qm |}.

(** [CloseWithError] on connections. *)
Definition closeConns (cs : gset nat) qm : QUICManager :=
  {| LocalID := LocalID qm; publicUDPAddr := publicUDPAddr qm; Sessions := Sessions qm; blockedPeers := blockedPeers qm;
     hasClientTLS := hasClientTLS qm; hasServerTLS := hasServerTLS qm; tlsGeneration := tlsGeneration qm;
     handshakeGen := handshakeGen qm; cancelled := cancelled qm; dials := dials qm; dialResults := dialResults qm;
     closedConns := closedConns qm ∪ cs |}.

Definition SetPublicUDPAddr (addr : string) qm : QUICManager :=
  {| LocalID := LocalID qm; publicUDPAddr := addr; Sessions := Sessions qm; blockedPeers := blockedPeers qm;
     hasClientTLS := hasClientTLS qm; hasServerTLS := hasServerTLS qm; tlsGeneration := tlsGeneration qm;
     handshakeGen := handshakeGen qm; cancelled := cancelled qm; dials := dials qm; dialResults := dialResults qm;
     closedConns := closedConns qm |}.

Definition GetSession (peerID : string) qm : option nat := Sessions qm !! peerID.

(** Publishes the connection under the generation it was verified with
    ([None]: any), unless the manager has ended or the peer is blocked; a
    connection it replaces is closed. *)
Definition setSession (peerID : string) (conn : nat) (expectedGeneration : option Z) qm : bool * QUICManager :=
  if match expectedGeneration with Some g => negb (tlsGeneration qm =? g)%Z | None => false end then (false, qm)
  else if cancelled qm then (false, qm)
  else if bool_decide (peerID ∈ blockedPeers qm) then (false, qm)
  else
    let replaced := match Sessions qm !! peerID with
                    | Some old => if bool_decide (old ≠ conn) then {[ old ]} else ∅
                    | None => ∅
                    end in
    (true, closeConns replaced (set_sessions (<[peerID := conn]>) qm)).

(** Publishing, or closing what could not be published. *)
Definition publishOrClose (peerID : string) (conn : nat) (expectedGeneration : option Z) qm : bool * QUICManager :=
  match setSession peerID conn expectedGeneration qm with
  | (true, qm) => (true, qm)
  | (false, qm) => (false, closeConns {[ conn ]} qm)
  end.

Definition SetSession (peerID : string) (conn : nat) qm : QUICManager := (publishOrClose peerID conn None qm).2.

Definition ofSession (peerID : string) qm : gset nat :=
  match Sessions qm !! peerID with Some c => {[ c ]} | None => ∅ end.

Definition CloseAndRemoveSession (peerID : string) qm : QUICManager :=
  closeConns (ofSession peerID qm) (set_sessions (delete peerID) qm).

Definition CloseSessionIf (peerID : string) (conn : nat) qm : QUICManager :=
  closeConns {[ conn ]}
    (if bool_decide (Sessions qm !! peerID = Some conn) then set_sessions (delete peerID) qm else qm).

Definition AllowPeerSessions (peerID : string) qm : QUICManager := set_blocked (λ b, b ∖ {[ peerID ]}) qm.

Definition BlockPeerSessions (peerID : string) qm : QUICManager :=
  closeConns (ofSession peerID qm) (set_sessions (delete peerID) (set_blocked (λ b, {[ peerID ]} ∪ b) qm)).

(** The critical section of [ReloadTLS] and of [Close]: a new generation,
    pending handshakes forgotten, sessions detached and closed. *)
Definition nextGeneration (g : Z) : Z := ((g + 1) mod 2 ^ 64)%Z.

Definition rotate (client server : bool) qm : QUICManager :=
  {| LocalID := LocalID qm; publicUDPAddr := publicUDPAddr qm; Sessions := ∅; blockedPeers := blockedPeers qm;
     hasClientTLS := client; hasServerTLS := server; tlsGeneration := nextGeneration (tlsGeneration qm);
     handshakeGen := ∅; cancelled := cancelled qm; dials := dials qm; dialResults := dialResults qm;
     closedConns := closedConns qm ∪ map_to_set (λ _ c, c) (Sessions qm) |}.

(** A configuration that is nil leaves the one in place. *)
Definition ReloadTLS (client server : bool) qm : QUICManager :=
  rotate (client || hasClientTLS qm) (server || hasServerTLS qm) qm.

(** [Close] cancels the context first and detaches the sessions later. *)
Definition cancelManager qm : QUICManager :=
  {| LocalID := LocalID qm; publicUDPAddr := publicUDPAddr qm; Sessions := Sessions qm; blockedPeers := blockedPeers qm;
     hasClientTLS := hasClientTLS qm; hasServerTLS := hasServerTLS qm; tlsGeneration := tlsGeneration qm;
     handshakeGen := handshakeGen qm; cancelled := true; dials := dials qm; dialResults := dialResults qm;
     closedConns := closedConns qm |}.
Definition closeManager qm : QUICManager := rotate (hasClientTLS qm) (hasServerTLS qm) qm.

Definition removeDial (peerID : string) qm : QUICManager := set_dials (delete peerID) id qm.

(** ** Connections *)

Section connections.
Context {Cert : Type} (connState : nat → @tlsState Cert) (exportKey : nat → option string).

(** The [VerifyConnection] that [serverConfigForClient] installs for a
    handshake that began under the generation [g], after the policy of that
    generation accepted the certificate. *)
Definition verifyInbound (conn : nat) (g : Z) qm : option error * QUICManager :=
  if negb (tlsGeneration qm =? g)%Z then (Some (EMsg "QUIC TLS rotated during inbound handshake"), qm)
  else match exportKey conn with
  | None => (Some (EMsg "export QUIC TLS generation key"), qm)
  | Some key => (None, set_handshakes (<[key := g]>) qm)
  end.

Definition consumeHandshakeGeneration (conn : nat) qm : option Z * QUICManager :=
  match exportKey conn with
  | None => (None, qm)
  | Some key => (handshakeGen qm !! key, set_handshakes (delete key) qm)
  end.

(** An inbound connection: hello, verification, and its handler. *)
Inductive inbound_pc :=
  | IHello (conn : nat) (g : Z)
  | IAccepted (conn : nat)
  | IConsumed (conn : nat) (g : Z)
  | IDone.

Definition startInbound (conn : nat) qm : option inbound_pc :=
  if hasServerTLS qm then Some (IHello conn (tlsGeneration qm)) else None.

Definition inboundNext (pc : inbound_pc) qm : option (inbound_pc * QUICManager) :=
  match pc with
  | IHello conn g =>
      Some (match verifyInbound conn g qm with
            | (Some _, qm) => (IDone, qm)
            | (None, qm) => (IAccepted conn, qm)
            end)
  | IAccepted conn =>
      Some (match consumeHandshakeGeneration conn qm with
            | (None, qm) => (IDone, closeConns {[ conn ]} qm)
            | (Some g, qm) => (IConsumed conn g, qm)
            end)
  | IConsumed conn g =>
      Some (match PeerCNFromTLS (connState conn) with
            | None => (IDone, closeConns {[ conn ]} qm)
            | Some peerID => (IDone, (publishOrClose peerID conn (Some g) qm).2)
            end)
  | IDone => None
  end.

(** [dialSessionWithTransport] between the snapshot of the configuration and
    the end of the dial. *)
Definition startDial qm : Z + error :=
  if hasClientTLS qm then inl (tlsGeneration qm) else inr (EMsg "QUIC client TLS is not configured").

(** The rest of it, once the transport answered. *)
Definition finishDial (peerID : string) (g : Z) (dialed : res nat) qm : res nat * QUICManager :=
  match dialed with
  | Err e => (Err (EWrap "failed to dial QUIC session" e), qm)
  | Ok conn =>
      match VerifyTLSPeerCN (connState conn) peerID with
      | Some e => (Err (EWrap "peer identity mismatch in QUIC" e), closeConns {[ conn ]} qm)
      | None =>
          match publishOrClose peerID conn (Some g) qm with
          | (true, qm) => (Ok conn, qm)
          | (false, qm) => (Err (EMsg "QUIC TLS rotated during dial"), qm)
          end
      end
  end.
End connections.

Definition outcome_of (r : res nat) : dialOutcome :=
  match r with Ok c => (Some c, None) | Err e => (None, Some e) end.

(** ** Hole punching *)

(** [compatibleQUICAddresses], with the resolver (an address as text, and
    whether its family is the socket's) as an argument. *)
Inductive resolved := Unresolved | Incompatible | Resolved (addr : string).

Fixpoint compatibleQUICAddresses (resolve : string → resolved) (addrs seen : list string) (failed : bool)
    : res (list string) :=
  match addrs with
  | [] =>
      match seen with
      | [] => Err (if failed then EMsg "resolution failures" else EMsg "no quic:// addresses")
      | _ => Ok seen
      end
  | a :: rest =>
      match ParseQUICAddr a with
      | None => compatibleQUICAddresses resolve rest seen failed
      | Some remote =>
          match resolve remote with
          | Resolved addr =>
              compatibleQUICAddresses resolve rest (if bool_decide (addr ∈ seen) then seen else seen ++ [addr]) failed
          | _ => compatibleQUICAddresses resolve rest seen true
          end
      end
  end.

(** The peer's answer to [/holepunch/init]: its ID and its public address. *)
Record HolePunchMessage := { SenderID : string; PublicUDP : string }.

(** [performHolePunch] up to its candidates. *)
Definition punchCandidates (resolve : string → resolved) (peerID : string) (remoteAddresses : list string)
    (answer : res HolePunchMessage) : res (list string) :=
  match FirstQUICAddr remoteAddresses with
  | None => Err (EMsg "remote peer does not advertise quic:// public address")
  | Some _ =>
      msg ← answer;
      if bool_decide (SenderID msg ≠ peerID) then Err (EMsg "hole punch response sender mismatch")
      else compatibleQUICAddresses resolve
             (if bool_decide (PublicUDP msg = "") then remoteAddresses
              else FormatQUICAddr (PublicUDP msg) :: remoteAddresses) [] false
  end.

(** [InitiateHolePunch] between its steps.  [PPunch] and [PDial] own the
    shared attempt [d]; [PFinish] has its outcome to record. *)
Inductive punch_pc :=
  | PCheck (peerID : string)
  | PLock (peerID : string)
  | PPunch (peerID : string) (d : nat) (cands : list string)
  | PDial (peerID : string) (d : nat) (cands : list string) (g : Z)
  | PPoll (peerID : string) (d : nat) (cands : list string)
  | PFinish (peerID : string) (d : nat) (o : dialOutcome)
  | PWait (peerID : string) (d : nat)
  | PDone (peerID : string) (o : dialOutcome).

(** What the outside decides in a step. *)
Inductive punch_event :=
  | EvGo                                  (** the step needs nothing *)
  | EvCandidates (r : res (list string))  (** the exchange with the peer ended *)
  | EvHeard (heard : bool)                (** a ping of the peer, or the time of the candidate is over *)
  | EvDialed (r : res nat)                (** the transport answered *)
  | EvTick                                (** the poll timer; in [PWait], the attempt ended after the context *)
  | EvTimeout.                            (** the context has ended *)

Definition isContextError (e : option error) (ctxErr : error → bool) : bool :=
  match e with Some e => ctxErr e | None => false end.

Section punching.
Context {Cert : Type} (connState : nat → @tlsState Cert) (ctxErr : error → bool).

Definition freshDial qm : nat := fresh (dom (dialResults qm)).

Definition nextCandidate (peerID : string) (d : nat) (cands : list string) : punch_pc :=
  match cands with
  | [] => PFinish peerID d (None, Some (EMsg "all compatible QUIC addresses failed"))
  | _ => PPunch peerID d cands
  end.

Definition punchNext (e : punch_event) (pc : punch_pc) qm : option (punch_pc * QUICManager) :=
  match pc, e with
  | PCheck peerID, EvGo =>
      Some (match GetSession peerID qm with
            | Some c => (PDone peerID (Some c, None), qm)
            | None => (PLock peerID, qm)
            end)
  | PLock peerID, EvGo =>
      Some (match dials qm !! peerID with
            | Some d => (PWait peerID d, qm)
            | None =>
                let d := freshDial qm in
                (PPunch peerID d [], set_dials (<[peerID := d]>) (<[d := (peerID, None)]>) qm)
            end)
  | PPunch peerID d [], EvCandidates r =>
      Some (match r with
            | Err e => (PFinish peerID d (None, Some e), qm)
            | Ok cands => (nextCandidate peerID d cands, qm)
            end)
  | PPunch peerID d (_ :: rest), EvHeard false => Some (nextCandidate peerID d rest, qm)
  | PPunch peerID d (_ :: rest), EvHeard true =>
      Some (if String.ltb (LocalID qm) peerID then
              match startDial qm with
              | inl g => (PDial peerID d rest g, qm)
              | inr _ => (nextCandidate peerID d rest, qm)
              end
            else (PPoll peerID d rest, qm))
  | PDial peerID d rest g, EvDialed r =>
      Some (match finishDial connState peerID g r qm with
            | (Ok c, qm) => (PFinish peerID d (Some c, None), qm)
            | (Err _, qm) => (nextCandidate peerID d rest, qm)
            end)
  | PPoll peerID d rest, EvTick =>
      Some (match GetSession peerID qm with
            | Some c => (PFinish peerID d (Some c, None), qm)
            | None => (PPoll peerID d rest, qm)
            end)
  | PPoll peerID d rest, EvTimeout => Some (nextCandidate peerID d rest, qm)
  | PFinish peerID d o, EvGo =>
      Some (PDone peerID o, removeDial peerID (set_dials id (<[d := (peerID, Some o)]>) qm))
  | PWait peerID d, EvTimeout => Some (PDone peerID (None, Some (EMsg "context")), qm)
  | PWait peerID d, EvGo =>
      match dialResults qm !! d with
      | Some (_, Some o) => Some (if isContextError o.2 ctxErr then (PCheck peerID, qm) else (PDone peerID o, qm))
      | _ => None
      end
  | PWait peerID d, EvTick =>
      match dialResults qm !! d with
      | Some (_, Some o) => Some (PDone peerID o, qm)
      | _ => None
      end
  | _, _ => None
  end.

(** [RespondToHolePunch], from its check for a session on. *)
Inductive respond_pc :=
  | RCheck (peerID : string)
  | RLock (peerID : string)
  | RPunch (peerID : string) (d : nat)
  | RDial (peerID : string) (d : nat) (g : Z)
  | RFinish (peerID : string) (d : nat) (o : dialOutcome)
  | REnd.

Definition respondNext (e : punch_event) (pc : respond_pc) qm : option (respond_pc * QUICManager) :=
  match pc, e with
  | RCheck peerID, EvGo => Some (match GetSession peerID qm with Some _ => (REnd, qm) | None => (RLock peerID, qm) end)
  | RLock peerID, EvGo =>
      Some (match dials qm !! peerID with
            | Some _ => (REnd, qm)
            | None =>
                let d := freshDial qm in
                (RPunch peerID d, set_dials (<[peerID := d]>) (<[d := (peerID, None)]>) qm)
            end)
  | RPunch peerID d, EvHeard false => Some (RFinish peerID d (None, Some (EMsg "hole punching timeout")), qm)
  | RPunch peerID d, EvHeard true =>
      Some (if String.ltb (LocalID qm) peerID then
              match startDial qm with
              | inl g => (RDial peerID d g, qm)
              | inr e => (RFinish peerID d (None, Some e), qm)
              end
            else (RFinish peerID d (None, None), qm))
  | RDial peerID d g, EvDialed r =>
      Some (let '(r, qm) := finishDial connState peerID g r qm in (RFinish peerID d (outcome_of r), qm))
  | RFinish peerID d o, EvGo => Some (REnd, removeDial peerID (set_dials id (<[d := (peerID, Some o)]>) qm))
  | _, _ => None
  end.
End punching.
