(* ===== verification/QuicLaws.v ===== *)
(** * Laws of the sessions

    The manager as a transition system of inbound connections, dials, hole
    punches, rotations, blockings and closings that interleave.  A published
    session belongs to the peer it is published for, was verified under the
    current TLS generation, is open, and its peer is not blocked; every
    connection is published, closed, or in the hands of a handler. *)
From Stdlib Require Import Ascii String.
From S2P Require Import Prelude GoStrings Json Protocol PeerRegistry Relay Quic.
Local Open Scope stdpp_scope.

(** ** Pings *)

Lemma ping_roundtrip id : ParseHolePunchPing (HolePunchPingPayload id) = Some id.
Proof. unfold ParseHolePunchPing, HolePunchPingPayload. by destruct id. Qed.

(** The first packet that is no ping is delivered, and nothing else is lost. *)
Lemma readFrom_delivers packets heard p rest :
  readFrom packets = (heard, Some (p, rest)) →
  ∃ pings, packets = pings ++ p :: rest ∧ ParseHolePunchPing p = None ∧
           Forall2 (λ q s, ParseHolePunchPing q = Some s) pings heard.
Proof.
  revert heard. induction packets as [|q packets IH]; intros heard; [done|]. simpl.
  destruct (ParseHolePunchPing q) as [s|] eqn:Hq.
  - destruct (readFrom packets) as [h o] eqn:Hr. intros [= <- ->]. destruct (IH h eq_refl) as (pings & -> & Hp & Hf).
    exists (q :: pings). split_and!; [done|done|]. by constructor.
  - intros [= <- <- <-]. exists []. done.
Qed.

Section system.
Context {Cert : Type} (connState : nat → @tlsState Cert) (exportKey : nat → option string) (ctxErr : error → bool).
(** TLS exporters give every connection its own key. *)
Context (exportKey_inj : ∀ c c' k, exportKey c = Some k → exportKey c' = Some k → c = c').

(** The manager and what runs on it.  [known] are the connections made so
    far, [verified] the generations under whose policy their certificates
    were accepted, [aborted] those whose handshake TLS refused. *)
Record quic := {
  qm : QUICManager;
  inbounds : gmap nat inbound_pc;
  turnDials : gmap nat (string * Z);
  punches : gmap nat punch_pc;
  responds : gmap nat respond_pc;
  known : gset nat;
  verified : list (nat * Z);
  aborted : gset nat }.
Implicit Types s : quic.

Definition quic_init (m : QUICManager) : quic :=
  {| qm := m; inbounds := ∅; turnDials := ∅; punches := ∅; responds := ∅; known := ∅; verified := []; aborted := ∅ |}.

Definition with_qm (m : QUICManager) s : quic :=
  {| qm := m; inbounds := inbounds s; turnDials := turnDials s; punches := punches s; responds := responds s;
     known := known s; verified := verified s; aborted := aborted s |}.

(** The connection a dial brings: new, and verified by the transport under
    the configuration of the generation [g]. *)
Definition dialedConn (g : Z) (r : res nat) s : quic :=
  match r with
  | Ok c => {| qm := qm s; inbounds := inbounds s; turnDials := turnDials s; punches := punches s; responds := responds s;
               known := {[ c ]} ∪ known s; verified := (c, g) :: verified s; aborted := aborted s |}
  | Err _ => s
  end.

Definition newConn (r : res nat) s : Prop := match r with Ok c => c ∉ known s | Err _ => True end.

(** The generation a dial step runs under, and what it dialed. *)
Definition dialOf (g : option Z) (e : punch_event) (s : quic) : quic :=
  match g, e with Some g, EvDialed r => dialedConn g r s | _, _ => s end.
Definition punchGen (pc : punch_pc) : option Z := match pc with PDial _ _ _ g => Some g | _ => None end.
Definition respondGen (pc : respond_pc) : option Z := match pc with RDial _ _ g => Some g | _ => None end.
Definition newDialed (e : punch_event) s : Prop := match e with EvDialed r => newConn r s | _ => True end.

Definition set_inbound (i : nat) (pc : inbound_pc) s : quic :=
  {| qm := qm s; inbounds := <[i := pc]> (inbounds s); turnDials := turnDials s; punches := punches s;
     responds := responds s; known := known s; verified := verified s; aborted := aborted s |}.

(** What an inbound step adds to the record of handshakes. *)
Definition inboundGhost (pc pc' : inbound_pc) s : quic :=
  match pc, pc' with
  | IHello c g, IAccepted _ =>
      {| qm := qm s; inbounds := inbounds s; turnDials := turnDials s; punches := punches s; responds := responds s;
         known := known s; verified := (c, g) :: verified s; aborted := aborted s |}
  | IHello c g, IDone =>
      {| qm := qm s; inbounds := inbounds s; turnDials := turnDials s; punches := punches s; responds := responds s;
         known := known s; verified := verified s; aborted := {[ c ]} ∪ aborted s |}
  | _, _ => s
  end.

Inductive quic_step s : quic → Prop :=
  | q_inbound i c pc :
      inbounds s !! i = None → c ∉ known s → startInbound c (qm s) = Some pc →
      quic_step s {| qm := qm s; inbounds := <[i := pc]> (inbounds s); turnDials := turnDials s; punches := punches s;
                     responds := responds s; known := {[ c ]} ∪ known s; verified := verified s; aborted := aborted s |}
  | q_inbound_step i pc pc' m :
      inbounds s !! i = Some pc → inboundNext connState exportKey pc (qm s) = Some (pc', m) →
      quic_step s (inboundGhost pc pc' (set_inbound i pc' (with_qm m s)))
  | q_turn i peerID g :
      turnDials s !! i = None → startDial (qm s) = inl g →
      quic_step s {| qm := qm s; inbounds := inbounds s; turnDials := <[i := (peerID, g)]> (turnDials s);
                     punches := punches s; responds := responds s; known := known s; verified := verified s;
                     aborted := aborted s |}
  | q_turn_dialed i peerID g r r' m :
      turnDials s !! i = Some (peerID, g) → newConn r s → finishDial connState peerID g r (qm s) = (r', m) →
      quic_step s (dialedConn g r
        {| qm := m; inbounds := inbounds s; turnDials := delete i (turnDials s); punches := punches s;
           responds := responds s; known := known s; verified := verified s; aborted := aborted s |})
  | q_punch i peerID :
      punches s !! i = None →
      quic_step s {| qm := qm s; inbounds := inbounds s; turnDials := turnDials s;
                     punches := <[i := PCheck peerID]> (punches s); responds := responds s; known := known s;
                     verified := verified s; aborted := aborted s |}
  | q_punch_step i e pc pc' m :
      punches s !! i = Some pc → newDialed e s → punchNext connState ctxErr e pc (qm s) = Some (pc', m) →
      quic_step s (dialOf (punchGen pc) e
        {| qm := m; inbounds := inbounds s; turnDials := turnDials s; punches := <[i := pc']> (punches s);
           responds := responds s; known := known s; verified := verified s; aborted := aborted s |})
  | q_respond i peerID :
      responds s !! i = None →
      quic_step s {| qm := qm s; inbounds := inbounds s; turnDials := turnDials s; punches := punches s;
                     responds := <[i := RCheck peerID]> (responds s); known := known s; verified := verified s;
                     aborted := aborted s |}
  | q_respond_step i e pc pc' m :
      responds s !! i = Some pc → newDialed e s → respondNext connState e pc (qm s) = Some (pc', m) →
      quic_step s (dialOf (respondGen pc) e
        {| qm := m; inbounds := inbounds s; turnDials := turnDials s; punches := punches s;
           responds := <[i := pc']> (responds s); known := known s; verified := verified s; aborted := aborted s |})
  | q_remove peerID : quic_step s (with_qm (CloseAndRemoveSession peerID (qm s)) s)
  | q_close_if i peerID c e :
      punches s !! i = Some (PDone peerID (Some c, e)) →
      quic_step s (with_qm (CloseSessionIf peerID c (qm s)) s)
  | q_allow peerID : quic_step s (with_qm (AllowPeerSessions peerID (qm s)) s)
  | q_block peerID : quic_step s (with_qm (BlockPeerSessions peerID (qm s)) s)
  | q_address addr : quic_step s (with_qm (SetPublicUDPAddr addr (qm s)) s)
  | q_reload client server : quic_step s (with_qm (ReloadTLS client server (qm s)) s)
  | q_cancel : quic_step s (with_qm (cancelManager (qm s)) s)
  | q_close : quic_step s (with_qm (closeManager (qm s)) s).

(** ** The invariant *)

Definition carries (pc : inbound_pc) (c : nat) : Prop :=
  match pc with IHello c' _ | IAccepted c' | IConsumed c' _ => c = c' | IDone => False end.

(** Published or closed. *)
Definition placed (m : QUICManager) (c : nat) : Prop := (∃ p, Sessions m !! p = Some c) ∨ c ∈ closedConns m.

(** A connection handed out for a peer: its peer's, and published for it or
    closed. *)
Definition handed (m : QUICManager) (p : string) (c : nat) : Prop :=
  PeerCNFromTLS (connState c) = Some p ∧ (Sessions m !! p = Some c ∨ c ∈ closedConns m).

Definition outcome_ok (m : QUICManager) (p : string) (o : dialOutcome) : Prop := ∀ c, o.1 = Some c → handed m p c.

Definition punch_ok (m : QUICManager) (pc : punch_pc) : Prop :=
  match pc with
  | PFinish p d o => outcome_ok m p o ∧ ∃ o', dialResults m !! d = Some (p, o')
  | PDone p o => outcome_ok m p o
  | PPunch p d _ | PDial p d _ _ | PPoll p d _ | PWait p d => ∃ o, dialResults m !! d = Some (p, o)
  | PCheck _ | PLock _ => True
  end.

Definition respond_ok (m : QUICManager) (pc : respond_pc) : Prop :=
  match pc with
  | RFinish p d o => outcome_ok m p o ∧ ∃ o', dialResults m !! d = Some (p, o')
  | RPunch p d | RDial p d _ => ∃ o, dialResults m !! d = Some (p, o)
  | RCheck _ | RLock _ | REnd => True
  end.

(** The manager's part. *)
Record mgr_ok (kn : gset nat) (ver : list (nat * Z)) (m : QUICManager) : Prop := {
  mo_sessions : ∀ p c, Sessions m !! p = Some c →
    PeerCNFromTLS (connState c) = Some p ∧ (c, tlsGeneration m) ∈ ver ∧ p ∉ blockedPeers m ∧
    c ∈ kn ∧ c ∉ closedConns m;
  mo_closed : closedConns m ⊆ kn;
  mo_handshakes : ∀ k g, handshakeGen m !! k = Some g → ∃ c, exportKey c = Some k ∧ (c, g) ∈ ver;
  mo_dials : ∀ p d, dials m !! p = Some d → ∃ o, dialResults m !! d = Some (p, o);
  mo_results : ∀ d p o, dialResults m !! d = Some (p, Some o) → outcome_ok m p o }.

Record quic_inv s : Prop := {
  qi_mgr : mgr_ok (known s) (verified s) (qm s);
  qi_held : ∀ i pc c, inbounds s !! i = Some pc → carries pc c →
    c ∈ known s ∧ ¬ placed (qm s) c;
  qi_distinct : ∀ i j pc pc' c, inbounds s !! i = Some pc → inbounds s !! j = Some pc' →
    carries pc c → carries pc' c → i = j;
  qi_consumed : ∀ i c g, inbounds s !! i = Some (IConsumed c g) → (c, g) ∈ verified s;
  qi_punches : ∀ i pc, punches s !! i = Some pc → punch_ok (qm s) pc;
  qi_responds : ∀ i pc, responds s !! i = Some pc → respond_ok (qm s) pc;
  qi_accounted : ∀ c, c ∈ known s →
    (∃ i pc, inbounds s !! i = Some pc ∧ carries pc c) ∨ placed (qm s) c ∨ c ∈ aborted s }.

(** *** Changes of the manager *)

(** A change keeps the manager's invariant, what was handed out, the attempts
    and the places of connections, and places at most [new]. *)
Record change (kn : gset nat) (ver : list (nat * Z)) (new : gset nat) (m m' : QUICManager) : Prop := {
  ch_ok : mgr_ok kn ver m → mgr_ok kn ver m';
  ch_handed : mgr_ok kn ver m → ∀ p c, handed m p c → handed m' p c;
  ch_results : ∀ d p o, dialResults m !! d = Some (p, o) → ∃ o', dialResults m' !! d = Some (p, o');
  ch_placed : ∀ c, placed m c → placed m' c;
  ch_new : ∀ c, placed m' c → placed m c ∨ c ∈ new }.

Section changes.
Context (kn : gset nat) (ver : list (nat * Z)).
Implicit Types m : QUICManager.

(** Sessions, blocked peers and the rest in place, or fewer. *)
Lemma change_shrink m m' (keep : string → bool) :
  (∀ p, Sessions m' !! p = if keep p then Sessions m !! p else None) →
  (∀ c, c ∈ closedConns m' ↔ c ∈ closedConns m ∨ ∃ p, keep p = false ∧ Sessions m !! p = Some c) →
  (∀ p, p ∈ blockedPeers m' → p ∈ blockedPeers m ∨ keep p = false) →
  (tlsGeneration m' = tlsGeneration m ∨ ∀ p, keep p = false) →
  (∀ k g, handshakeGen m' !! k = Some g → handshakeGen m !! k = Some g) →
  dials m' = dials m → dialResults m' = dialResults m →
  change kn ver ∅ m m'.
Proof.
  intros Hs Hc Hb Hg Hh Hd Hr.
  assert (∀ p c, Sessions m' !! p = Some c → keep p = true ∧ Sessions m !! p = Some c) as Hs'.
  { intros p c. rw Hs. destruct (keep p); [by split|done]. }
  assert (∀ p c, handed m p c → handed m' p c) as Hset.
  { intros p c [Hcn [Hp|Hcl]]; split; try done; [|right; apply Hc; by left].
    destruct (keep p) eqn:Hk; [left; by rw Hs Hk|right; apply Hc; eauto]. }
  split.
  - intros [Hm Hcl Hhs Hdi Hre]. split.
    + intros p c [Hk Hp]%Hs'. destruct (Hm p c Hp) as (Hcn & Hv & Hbl & Hkn & Hncl). split_and!; try done.
      * destruct Hg as [->|Hg]; [done|]. specialize (Hg p). congruence.
      * intros [|]%Hb; [done|congruence].
      * intros [|(p' & Hk' & Hp')]%Hc; [done|]. destruct (Hm p' c Hp') as [Hcn' _]. congruence.
    + intros c [?|(p' & Hk' & Hp')]%Hc; [by apply Hcl|]. by apply (Hm p' c Hp').
    + intros k g ?%Hh. by apply Hhs.
    + intros p d. rw Hd Hr. apply Hdi.
    + intros d p o. rw Hr. intros Hdr c Ho. apply Hset. by apply (Hre d p o).
  - intros _. apply Hset.
  - rw Hr. eauto.
  - intros c [[p Hp]|Hcl]; [|right; apply Hc; by left].
    destruct (keep p) eqn:Hk; [left; exists p; by rw Hs Hk|right; apply Hc; eauto].
  - intros c [[p [_ Hp]%Hs']|[?|(p & _ & Hp)]%Hc]; left; [left; eauto|by right|left; eauto].
Qed.

Lemma change_remove p m : change kn ver ∅ m (CloseAndRemoveSession p m).
Proof.
  apply (change_shrink _ _ (λ q, negb (bool_decide (q = p)))); try done; simpl.
  - intros q. case_bool_decide; simpl; [subst; by rw lookup_delete_eq|by rw lookup_delete_ne].
  - intros c. rw elem_of_union. apply or_iff_compat_l. unfold ofSession. split.
    + case_match eqn:Hp; [|set_solver]. intros ->%elem_of_singleton. exists p. by rw bool_decide_true.
    + intros (q & Hq & Hs). case_bool_decide; [|done]. subst q. rw Hs. set_solver.
  - auto.
  - auto.
Qed.

Lemma change_block p m : change kn ver ∅ m (BlockPeerSessions p m).
Proof.
  apply (change_shrink _ _ (λ q, negb (bool_decide (q = p)))); try done; simpl.
  - intros q. case_bool_decide; simpl; [subst; by rw lookup_delete_eq|by rw lookup_delete_ne].
  - intros c. rw elem_of_union. apply or_iff_compat_l. unfold ofSession. split.
    + case_match eqn:Hp; [|set_solver]. intros ->%elem_of_singleton. exists p. by rw bool_decide_true.
    + intros (q & Hq & Hs). case_bool_decide; [|done]. subst q. rw Hs. set_solver.
  - intros q [->%elem_of_singleton|]%elem_of_union; [right; by rw bool_decide_true|by left].
  - auto.
Qed.

Lemma change_rotate client server m : change kn ver ∅ m (rotate client server m).
Proof.
  apply (change_shrink _ _ (λ _, false)); try done; simpl.
  - intros c. rw elem_of_union. apply or_iff_compat_l. rw elem_of_map_to_set. naive_solver.
  - auto.
  - auto.
Qed.

(** Fields the invariant does not read, fewer blocked peers or handshakes. *)
Lemma change_frame m m' :
  Sessions m' = Sessions m → closedConns m' = closedConns m → blockedPeers m' ⊆ blockedPeers m →
  tlsGeneration m' = tlsGeneration m → (∀ k g, handshakeGen m' !! k = Some g → handshakeGen m !! k = Some g) →
  dials m' = dials m → dialResults m' = dialResults m → change kn ver ∅ m m'.
Proof.
  intros Hs Hc Hb Hg Hh Hd Hr. apply (change_shrink _ _ (λ _, true)); try done.
  - intros p. by rw Hs.
  - intros c. rw Hc. naive_solver.
  - auto.
  - auto.
Qed.

Lemma change_close_held c m : c ∈ kn → ¬ placed m c → change kn ver {[ c ]} m (closeConns {[ c ]} m).
Proof.
  intros Hkn Hnp.
  assert (∀ p c', handed m p c' → handed (closeConns {[ c ]} m) p c') as Hset.
  { intros p c' [Hcn [Hp|Hcl]]; split; try done; [by left|right; set_solver]. }
  split.
  - intros [Hm Hcl Hhs Hdi Hre]. split; simpl; try done.
    + intros p c' Hp. destruct (Hm p c' Hp) as (? & ? & ? & ? & ?). split_and!; try done.
      intros [?|<-%elem_of_singleton]%elem_of_union; [done|]. destruct Hnp. left. eauto.
    + set_solver.
    + intros d p o Hd c' Ho. apply Hset. by apply (Hre d p o).
  - intros _. apply Hset.
  - eauto.
  - intros c' [?|?]; [by left|right; set_solver].
  - intros c' [?|[?| ->%elem_of_singleton]%elem_of_union]; [by left; left|by left; right|right; set_solver].
Qed.

Lemma change_publish p c m :
  PeerCNFromTLS (connState c) = Some p → (c, tlsGeneration m) ∈ ver → p ∉ blockedPeers m → c ∈ kn → ¬ placed m c →
  change kn ver {[ c ]} m
    (closeConns (match Sessions m !! p with Some old => if bool_decide (old ≠ c) then {[ old ]} else ∅ | None => ∅ end)
                (set_sessions (<[p := c]>) m)).
Proof.
  intros Hcn Hv Hb Hkn Hnp.
  set (replaced := match Sessions m !! p with Some old => if bool_decide (old ≠ c) then {[ old ]} else ∅ | None => ∅ end).
  assert (∀ c', c' ∈ replaced ↔ Sessions m !! p = Some c') as Hrep.
  { intros c'. unfold replaced. destruct (Sessions m !! p) as [old|] eqn:Hp; [|set_solver].
    rw bool_decide_true; [|intros ->; apply Hnp; left; eauto]. rw elem_of_singleton. naive_solver. }
  clearbody replaced. set (m' := closeConns replaced (set_sessions (<[p := c]>) m)).
  assert (∀ q c', handed m q c' → handed m' q c') as Hset.
  { intros q c' [Hcn' [Hp|Hcl]]; split; try done; [|right; simpl; set_solver].
    destruct (decide (q = p)) as [->|Hne]; [right; simpl; set_solver|left; simpl; by rw lookup_insert_ne]. }
  split.
  - intros [Hm Hcl Hhs Hdi Hre]. split; simpl; try done.
    + intros q c' [[<- <-]|[Hne Hq]]%lookup_insert_Some.
      * split_and!; try done. intros [?|Hin%Hrep]%elem_of_union; [by apply Hnp; right|]. apply Hnp. left. eauto.
      * destruct (Hm q c' Hq) as (Hcn' & ? & ? & ? & ?). split_and!; try done.
        intros [?|Hin%Hrep]%elem_of_union; [done|]. destruct (Hm p c' Hin) as [? _]. congruence.
    + intros c' [?|Hin%Hrep]%elem_of_union; [by apply Hcl|]. by apply (Hm p c' Hin).
    + intros d q o Hd c' Ho. apply Hset. by apply (Hre d q o).
  - intros _. apply Hset.
  - eauto.
  - intros c' [[q Hq]|Hcl]; [|right; simpl; set_solver].
    destruct (decide (q = p)) as [->|Hne]; [right; simpl; set_solver|left; exists q; simpl; by rw lookup_insert_ne].
  - intros c' [[q Hq]|Hcl]; simpl in *;
      [apply lookup_insert_Some in Hq as [[<- <-]|[Hne Hq]]|apply elem_of_union in Hcl as [?|Hin%Hrep]].
    + right. set_solver.
    + left. left. eauto.
    + left. by right.
    + left. left. eauto.
Qed.

Lemma publishOrClose_change p c g m ok m' :
  PeerCNFromTLS (connState c) = Some p → (c, g) ∈ ver → c ∈ kn → ¬ placed m c →
  publishOrClose p c (Some g) m = (ok, m') →
  change kn ver {[ c ]} m m' ∧ handed m' p c ∧ (ok = true → Sessions m' !! p = Some c).
Proof.
  intros Hcn Hv Hkn Hnp. unfold publishOrClose, setSession.
  destruct (Z.eqb_spec (tlsGeneration m) g) as [<-|Hne]; simpl.
  2: { intros [= <- <-]. split_and!; [by apply change_close_held|split; [done|right; simpl; set_solver]|done]. }
  destruct (cancelled m).
  { intros [= <- <-]. split_and!; [by apply change_close_held|split; [done|right; simpl; set_solver]|done]. }
  case_bool_decide as Hb; intros [= <- <-].
  { split_and!; [by apply change_close_held|split; [done|right; simpl; set_solver]|done]. }
  split_and!; [by apply change_publish|split; [done|left; simpl; by rw lookup_insert_eq]|simpl; by rw lookup_insert_eq].
Qed.

Lemma change_closeIf p c m : handed m p c → change kn ver ∅ m (CloseSessionIf p c m).
Proof.
  intros [Hcn Hc]. unfold CloseSessionIf. case_bool_decide as Hp.
  - assert (closeConns {[c]} (set_sessions (delete p) m) = CloseAndRemoveSession p m) as ->; [|by apply change_remove].
    unfold CloseAndRemoveSession, ofSession. by rw Hp.
  - destruct Hc as [|Hc]; [done|]. apply change_frame; try done. simpl. set_solver.
Qed.

Lemma change_results m m' :
  Sessions m' = Sessions m → closedConns m' = closedConns m → blockedPeers m' = blockedPeers m →
  tlsGeneration m' = tlsGeneration m → handshakeGen m' = handshakeGen m →
  (mgr_ok kn ver m → ∀ p d, dials m' !! p = Some d → ∃ o, dialResults m' !! d = Some (p, o)) →
  (mgr_ok kn ver m → ∀ d p o, dialResults m' !! d = Some (p, Some o) → outcome_ok m p o) →
  (∀ d p o, dialResults m !! d = Some (p, o) → ∃ o', dialResults m' !! d = Some (p, o')) →
  change kn ver ∅ m m'.
Proof.
  intros Hs Hc Hb Hg Hh Hd Hr Hk.
  assert (∀ p c, handed m p c ↔ handed m' p c) as Hset by (intros; unfold handed; by rw Hs Hc).
  assert (∀ c, placed m c ↔ placed m' c) as Hpl by (intros; unfold placed; by rw Hs Hc).
  split; [|intros _ p c; apply Hset|done|intros c; apply Hpl|intros c ?%Hpl; by left].
  intros Hok. pose proof Hok as [Hm Hcl Hhs Hdi Hre]. split; rw ?Hs ?Hc ?Hb ?Hg ?Hh //; [by apply Hd|].
  intros d p o Hdr c Ho. apply Hset. by apply (Hr Hok d p o).
Qed.

Lemma change_newDial p m :
  change kn ver ∅ m (set_dials (<[p := freshDial m]>) (<[freshDial m := (p, None)]>) m).
Proof.
  assert (dialResults m !! freshDial m = None) as Hf.
  { apply not_elem_of_dom. unfold freshDial. apply is_fresh. }
  apply change_results; try done; simpl.
  - intros [_ _ _ Hdi _] q d [[<- <-]|[_ Hq]]%lookup_insert_Some; [rw lookup_insert_eq; eauto|].
    destruct (Hdi q d Hq) as [o Ho]. exists o. rw lookup_insert_ne //. congruence.
  - intros [_ _ _ _ Hre] d q o [[_ [=]]|[_ Hq]]%lookup_insert_Some. by apply (Hre d).
  - intros d q o Hd. exists o. rw lookup_insert_ne //. congruence.
Qed.

Lemma change_finish p d o m :
  outcome_ok m p o → (∃ o', dialResults m !! d = Some (p, o')) →
  change kn ver ∅ m (removeDial p (set_dials id (<[d := (p, Some o)]>) m)).
Proof.
  intros Ho [o' Hd]. apply change_results; try done; simpl.
  - intros [_ _ _ Hdi _] q d' [Hne Hq]%lookup_delete_Some. destruct (Hdi q d' Hq) as [o1 Ho1].
    destruct (decide (d' = d)) as [->|]; [congruence|]. exists o1. by rw lookup_insert_ne.
  - intros [_ _ _ _ Hre] d' q o1 [[<- [= <- <-]]|[_ Hq]]%lookup_insert_Some; [done|]. by apply (Hre d').
  - intros d' q o1 Hq. destruct (decide (d' = d)) as [->|]; [|exists o1; by rw lookup_insert_ne].
    rw lookup_insert_eq. simplify_eq. eauto.
Qed.
End changes.

(** *** Steps *)

Lemma mgr_ok_mono kn kn' ver ver' m : kn ⊆ kn' → ver ⊆ ver' → mgr_ok kn ver m → mgr_ok kn' ver' m.
Proof.
  intros Hkn Hver [Hm Hcl Hhs Hdi Hre]. split; try done.
  - intros p c Hp. destruct (Hm p c Hp) as (? & ? & ? & ? & ?). split_and!; auto.
  - set_solver.
  - intros k g Hk. destruct (Hhs k g Hk) as (c & ? & ?). exists c. auto.
Qed.

Section kept.
Context {kn : gset nat} {ver : list (nat * Z)} {new : gset nat} {m m' : QUICManager}.
Context (Hch : change kn ver new m m') (Hok : mgr_ok kn ver m).

Lemma outcome_kept p o : outcome_ok m p o → outcome_ok m' p o.
Proof. intros Ho c Hc. apply (ch_handed _ _ _ _ _ Hch Hok). by apply Ho. Qed.

Lemma attempt_kept d p : (∃ o, dialResults m !! d = Some (p, o)) → ∃ o, dialResults m' !! d = Some (p, o).
Proof. intros [o Ho]. by eapply ch_results. Qed.

Lemma punch_ok_kept pc : punch_ok m pc → punch_ok m' pc.
Proof. destruct pc; simpl; naive_solver eauto using outcome_kept, attempt_kept. Qed.

Lemma respond_ok_kept pc : respond_ok m pc → respond_ok m' pc.
Proof. destruct pc; simpl; naive_solver eauto using outcome_kept, attempt_kept. Qed.
End kept.

Definition conns_of (r : res nat) : gset nat := match r with Ok c => {[ c ]} | Err _ => ∅ end.

Lemma finishDial_change kn ver p g r m r' m' :
  finishDial connState p g r m = (r', m') →
  (∀ c, r = Ok c → c ∈ kn ∧ (c, g) ∈ ver ∧ ¬ placed m c) →
  change kn ver (conns_of r) m m' ∧ (∀ c, c ∈ conns_of r → placed m' c) ∧ outcome_ok m' p (outcome_of r').
Proof.
  unfold finishDial. destruct r as [c|e]; simpl; [|intros [= <- <-] _; split_and!; [by apply change_frame|set_solver|done]].
  intros Hf Hc. destruct (Hc c eq_refl) as (Hkn & Hv & Hnp). unfold VerifyTLSPeerCN, verifyPeerCNValue in Hf.
  assert (change kn ver {[ c ]} m (closeConns {[ c ]} m)) as Hclose by by apply change_close_held.
  assert (∀ x, x ∈ ({[ c ]} : gset nat) → placed (closeConns {[ c ]} m) x) as Hpl by (intros x Hx; right; simpl; set_solver).
  destruct (PeerCNFromTLS (connState c)) as [cn|] eqn:Hcn; [|by simplify_eq].
  case_bool_decide as Hne; [by simplify_eq|]. subst cn.
  destruct (publishOrClose p c (Some g) m) as [ok m1] eqn:Hp.
  destruct (publishOrClose_change kn ver p c g m ok m1 Hcn Hv Hkn Hnp Hp) as (Hch & Hset & _).
  assert (m' = m1 ∧ (∀ x, outcome_of r' = (Some x, None) → x = c)) as [-> Hr] by (destruct ok; simplify_eq; naive_solver).
  split_and!; [done| |].
  - intros x ->%elem_of_singleton. destruct Hset as [_ [?|?]]; [left; eauto|by right].
  - intros x Hx. destruct r' as [y|]; [|done]. simpl in Hx. injection Hx as <-. by rw (Hr y eq_refl).
Qed.

(** A step that leaves the inbound connections alone and makes the new
    connections [new], which it places. *)
Lemma inv_update s s' new :
  quic_inv s → inbounds s' = inbounds s → known s' = new ∪ known s → new ## known s → verified s ⊆ verified s' →
  aborted s' = aborted s → change (known s') (verified s') new (qm s) (qm s') → (∀ c, c ∈ new → placed (qm s') c) →
  (∀ i pc, punches s' !! i = Some pc → punch_ok (qm s') pc) →
  (∀ i pc, responds s' !! i = Some pc → respond_ok (qm s') pc) → quic_inv s'.
Proof.
  intros [Hm Hh Hd Hc Hp Hr Ha] Hin Hkn Hnew Hver Hab Hch Hpl Hp' Hr'.
  assert (mgr_ok (known s') (verified s') (qm s)) as Hm' by (eapply mgr_ok_mono; [| |done]; set_solver).
  split; rw ?Hin; try done.
  - by eapply ch_ok.
  - intros i pc c Hi Hpc. destruct (Hh i pc c Hi Hpc) as [Hk Hnp]. split; [set_solver|].
    intros [|]%(ch_new _ _ _ _ _ Hch); [done|set_solver].
  - intros i c g Hi. by eapply Hver, Hc.
  - intros c. rw Hkn Hab. intros [Hin'|Hin']%elem_of_union; [right; left; by apply Hpl|].
    destruct (Ha c Hin') as [|[|]]; [by left|right; left; by eapply ch_placed|by right; right].
Qed.

(** The same without new connections. *)
Lemma inv_manager s m :
  quic_inv s → (∀ kn ver, change kn ver ∅ (qm s) m) → quic_inv (with_qm m s).
Proof.
  intros Hs Hch. pose proof (qi_mgr s Hs) as Hm.
  apply (inv_update s _ ∅); cbn [qm inbounds known verified aborted punches responds with_qm];
    [done|done|set_solver|set_solver|done|done|apply Hch|set_solver| |].
  - intros i pc Hi. eapply punch_ok_kept; [apply Hch|done|by eapply qi_punches].
  - intros i pc Hi. eapply respond_ok_kept; [apply Hch|done|by eapply qi_responds].
Qed.

Definition dialed (g : option Z) (e : punch_event) : gset nat :=
  match g, e with Some _, EvDialed r => conns_of r | _, _ => ∅ end.

(** What a step with new connections may assume of them. *)
Definition dialed_ok (kn : gset nat) (ver : list (nat * Z)) (m : QUICManager) (g : option Z) (e : punch_event) : Prop :=
  ∀ gen r c, g = Some gen → e = EvDialed r → r = Ok c → c ∈ kn ∧ (c, gen) ∈ ver ∧ ¬ placed m c.

Lemma nextCandidate_ok m p d cands : (∃ o, dialResults m !! d = Some (p, o)) → punch_ok m (nextCandidate p d cands).
Proof. destruct cands; simpl; [|done]. intros Hd. by split. Qed.

Lemma session_settled kn ver m p c : mgr_ok kn ver m → GetSession p m = Some c → handed m p c.
Proof. intros Hok Hp. split; [by apply (mo_sessions _ _ _ Hok)|by left]. Qed.

Lemma same_change kn ver m : change kn ver ∅ m m.
Proof. by apply change_frame. Qed.

Lemma punchNext_change kn ver e pc m pc' m' :
  punchNext connState ctxErr e pc m = Some (pc', m') → mgr_ok kn ver m → punch_ok m pc →
  dialed_ok kn ver m (punchGen pc) e →
  change kn ver (dialed (punchGen pc) e) m m' ∧ (∀ c, c ∈ dialed (punchGen pc) e → placed m' c) ∧ punch_ok m' pc'.
Proof.
  pose proof (same_change kn ver m) as Hsame.
  assert (∀ c, c ∈ (∅ : gset nat) → placed m' c) as Hempty by set_solver.
  intros Hn Hok Hpc Hdial. destruct pc as [p|p|p d cands|p d cands g|p d cands|p d o|p d|p o]; simpl in *.
  - destruct e; try done. injection Hn as Hn. destruct (GetSession p m) as [c|] eqn:Hg; simplify_eq; [|done].
    split_and!; [done|done|]. intros c' [= <-]. by eapply session_settled.
  - destruct e; try done. injection Hn as Hn. destruct (dials m !! p) as [d|] eqn:Hd; simplify_eq; split_and!; try done.
    + by apply (mo_dials _ _ _ Hok).
    + apply change_newDial.
    + simpl. rw lookup_insert_eq. eauto.
  - destruct cands as [|c0 cands], e as [|r|heard| | |]; try done.
    + destruct r as [cs|er]; simplify_eq; split_and!; try done; by apply nextCandidate_ok.
    + destruct heard; simplify_eq; [|split_and!; [done|done|by apply nextCandidate_ok]].
      destruct (String.ltb (LocalID m) p); [|by simplify_eq].
      destruct (startDial m); simplify_eq; split_and!; try done. by apply nextCandidate_ok.
  - destruct e as [| | |r| |]; try done. destruct (finishDial connState p g r m) as [r' m1] eqn:Hf.
    destruct (finishDial_change kn ver p g r m r' m1 Hf) as (Hch & Hpl & Ho).
    { intros c ->. by apply (Hdial g (Ok c) c). }
    assert (∃ o, dialResults m1 !! d = Some (p, o)) as Hatt by by eapply attempt_kept.
    destruct r' as [c|er]; simplify_eq; split_and!; try done. by apply nextCandidate_ok.
  - destruct e; try done; simplify_eq; [|split_and!; [done|done|by apply nextCandidate_ok]].
    destruct (GetSession p m) as [c|] eqn:Hg; simplify_eq; [|done].
    split_and!; [done|done|]. split; [|done]. intros c' [= <-]. by eapply session_settled.
  - destruct e; try done. simplify_eq. destruct Hpc as [Ho Hd].
    assert (change kn ver ∅ m (removeDial p (set_dials id <[d:=(p, Some o)]> m))) as Hch by by apply change_finish.
    split_and!; [done|set_solver|]. by eapply outcome_kept.
  - destruct Hpc as [o Hd]. rw Hd in Hn.
    destruct e; try done; [destruct o as [o|]; [|done]; destruct (isContextError o.2 ctxErr)|destruct o as [o|]; [|done]|];
      simplify_eq; split_and!; try done; simpl; by eapply mo_results.
  - done.
Qed.

Lemma respondNext_change kn ver e pc m pc' m' :
  respondNext connState e pc m = Some (pc', m') → mgr_ok kn ver m → respond_ok m pc →
  dialed_ok kn ver m (respondGen pc) e →
  change kn ver (dialed (respondGen pc) e) m m' ∧ (∀ c, c ∈ dialed (respondGen pc) e → placed m' c) ∧ respond_ok m' pc'.
Proof.
  pose proof (same_change kn ver m) as Hsame.
  assert (∀ c, c ∈ (∅ : gset nat) → placed m' c) as Hempty by set_solver.
  intros Hn Hok Hpc Hdial. destruct pc as [p|p|p d|p d g|p d o|]; simpl in *.
  - destruct e; try done. destruct (GetSession p m); by simplify_eq.
  - destruct e; try done. destruct (dials m !! p) as [d|] eqn:Hd; simplify_eq; split_and!; try done.
    + apply change_newDial.
    + simpl. rw lookup_insert_eq. eauto.
  - destruct e as [| |[]| | |]; try done; [|by simplify_eq].
    destruct (String.ltb (LocalID m) p); [|by simplify_eq]. destruct (startDial m); by simplify_eq.
  - destruct e as [| | |r| |]; try done. destruct (finishDial connState p g r m) as [r' m1] eqn:Hf.
    destruct (finishDial_change kn ver p g r m r' m1 Hf) as (Hch & Hpl & Ho).
    { intros c ->. by apply (Hdial g (Ok c) c). }
    simplify_eq. split_and!; [done|done|]. split; [done|]. by eapply attempt_kept.
  - destruct e; try done. simplify_eq. destruct Hpc as [Ho Hd]. split_and!; [by apply change_finish|done|done].
  - done.
Qed.

Lemma change_trans kn ver n1 n2 m m1 m2 :
  change kn ver n1 m m1 → change kn ver n2 m1 m2 → change kn ver (n1 ∪ n2) m m2.
Proof.
  intros [O1 S1 R1 P1 N1] [O2 S2 R2 P2 N2]. split.
  - auto.
  - intros Hok p c Hc. apply S2; [by apply O1|by apply S1].
  - intros d p o Hd. destruct (R1 d p o Hd) as [o1 Ho1]. by eapply R2.
  - auto.
  - intros c [Hc|Hc]%N2; [apply N1 in Hc as [|]; set_solver|set_solver].
Qed.

Lemma change_handshake kn ver c key g m :
  exportKey c = Some key → (c, g) ∈ ver → change kn ver ∅ m (set_handshakes (<[key := g]>) m).
Proof.
  intros Hkey Hv. split; [|done|eauto|done|by left].
  intros [Hm Hcl Hhs Hdi Hre]. split; try done. simpl. intros k g' [[<- <-]|[_ Hk]]%lookup_insert_Some; [eauto|by apply Hhs].
Qed.

Lemma change_consumed kn ver key m : change kn ver ∅ m (set_handshakes (delete key) m).
Proof. apply change_frame; try done. simpl. by intros k g [_ Hk]%lookup_delete_Some. Qed.

(** A step of one inbound connection. *)
Lemma inv_inbound s i pc pc' m' ver' ab' new :
  quic_inv s → inbounds s !! i = Some pc → (∀ c, carries pc' c → carries pc c) →
  change (known s) ver' new (qm s) m' → verified s ⊆ ver' → aborted s ⊆ ab' →
  (∀ c, c ∈ new → carries pc c ∧ ¬ carries pc' c) → (∀ c, carries pc c → carries pc' c ∨ placed m' c ∨ c ∈ ab') →
  (∀ c g, pc' = IConsumed c g → (c, g) ∈ ver') →
  quic_inv {| qm := m'; inbounds := <[i := pc']> (inbounds s); turnDials := turnDials s; punches := punches s;
              responds := responds s; known := known s; verified := ver'; aborted := ab' |}.
Proof.
  intros [Hm Hh Hd Hc Hp Hr Ha] Hi Hsub Hch Hver Hab Hnew Hacc Hcons.
  assert (mgr_ok (known s) ver' (qm s)) as Hm' by by eapply mgr_ok_mono.
  assert (∀ j pcj c, <[i := pc']> (inbounds s) !! j = Some pcj → carries pcj c → ∃ pc0, inbounds s !! j = Some pc0 ∧ carries pc0 c) as Hold.
  { intros j pcj c [[<- <-]|[_ Hj]]%lookup_insert_Some Hpc; eauto. }
  split; simpl.
  - by eapply ch_ok.
  - intros j pcj c Hj Hpc. destruct (Hold j pcj c Hj Hpc) as (pc0 & Hj0 & Hpc0). destruct (Hh j pc0 c Hj0 Hpc0) as [Hk Hnp].
    split; [done|]. intros [|Hn]%(ch_new _ _ _ _ _ Hch); [done|]. destruct (Hnew c Hn) as [Hpi Hpi'].
    assert (j = i) as -> by by eapply Hd. rw lookup_insert_eq in Hj. by simplify_eq.
  - intros j k pcj pck c Hj Hk Hpj Hpk. destruct (Hold j pcj c Hj Hpj) as (pc0 & Hj0 & Hpc0).
    destruct (Hold k pck c Hk Hpk) as (pc1 & Hk1 & Hpc1). by eapply Hd.
  - intros j c g [[<- ->]|[_ Hj]]%lookup_insert_Some; [by apply Hcons|]. by eapply Hver, Hc.
  - intros j pcj Hj. eapply punch_ok_kept; [done|done|by eapply Hp].
  - intros j pcj Hj. eapply respond_ok_kept; [done|done|by eapply Hr].
  - intros c Hk. destruct (Ha c Hk) as [(j & pcj & Hj & Hpj)|[|]]; [|right; left; by eapply ch_placed|right; right; auto].
    destruct (decide (j = i)) as [->|Hne].
    + simplify_eq. destruct (Hacc c Hpj) as [|]; [left; exists i, pc'; by rw lookup_insert_eq|by right].
    + left. exists j, pcj. by rw lookup_insert_ne.
Qed.

Lemma inbound_preserves s i pc pc' m :
  quic_inv s → inbounds s !! i = Some pc → inboundNext connState exportKey pc (qm s) = Some (pc', m) →
  quic_inv (inboundGhost pc pc' (set_inbound i pc' (with_qm m s))).
Proof.
  intros Hs Hi Hn. pose proof (qi_mgr s Hs) as Hm.
  assert (∀ c, carries pc c → c ∈ known s ∧ ¬ placed (qm s) c) as Hheld by by intros; eapply qi_held.
  destruct pc as [c g|c|c g|]; simpl in Hn; [| | |done].
  - unfold verifyInbound in Hn. destruct (negb (tlsGeneration (qm s) =? g)%Z).
    { simplify_eq. apply (inv_inbound s i (IHello c g) IDone _ _ _ ∅); simpl; try done; [apply same_change|set_solver|].
      intros c' ->. set_solver. }
    destruct (exportKey c) as [key|] eqn:Hkey; simplify_eq.
    2: { apply (inv_inbound s i (IHello c g) IDone _ _ _ ∅); simpl; try done; [apply same_change|set_solver|].
         intros c' ->. set_solver. }
    apply (inv_inbound s i (IHello c g) (IAccepted c) _ _ _ ∅); simpl; try done; [|set_solver|auto].
    eapply change_handshake; [done|set_solver].
  - unfold consumeHandshakeGeneration in Hn. destruct (Hheld c eq_refl) as [Hk Hnp].
    assert (∀ m1, change (known s) (verified s) ∅ (qm s) m1 → ¬ placed m1 c →
      quic_inv (set_inbound i IDone (with_qm (closeConns {[ c ]} m1) s))) as Hclose.
    { intros m1 Hch1 Hnp1. apply (inv_inbound s i (IAccepted c) IDone _ _ _ (∅ ∪ {[ c ]})); simpl; try done.
      - eapply change_trans; [done|by apply change_close_held].
      - intros c' Hc'. split; [set_solver|by intros []].
      - intros c' ->. right. left. right. simpl. set_solver. }
    destruct (exportKey c) as [key|] eqn:Hkey; [|simplify_eq; apply Hclose; [apply same_change|done]].
    destruct (handshakeGen (qm s) !! key) as [g|] eqn:Hg; simplify_eq; [|apply Hclose; [apply change_consumed|done]].
    apply (inv_inbound s i (IAccepted c) (IConsumed c g) _ _ _ ∅); simpl; try done; [apply change_consumed|auto|].
    intros c' g' [= <- <-]. destruct (mo_handshakes _ _ _ Hm key g Hg) as (c1 & Hk1 & Hv). by rw (exportKey_inj c c1 key Hkey Hk1).
  - destruct (Hheld c eq_refl) as [Hk Hnp]. destruct (PeerCNFromTLS (connState c)) as [p|] eqn:Hcn; simplify_eq.
    + destruct (publishOrClose p c (Some g) (qm s)) as [ok m1] eqn:Hp.
      destruct (publishOrClose_change (known s) (verified s) p c g (qm s) ok m1 Hcn (qi_consumed s Hs _ _ _ Hi) Hk Hnp Hp)
        as (Hch & [_ Hset] & _).
      apply (inv_inbound s i (IConsumed c g) IDone _ _ _ {[ c ]}); simpl; try done; [set_solver|].
      intros c' ->. right. left. destruct Hset; [left; eauto|by right].
    + apply (inv_inbound s i (IConsumed c g) IDone _ _ _ {[ c ]}); simpl; try done; [by apply change_close_held|set_solver|].
      intros c' ->. right. left. right. simpl. set_solver.
Qed.

Lemma fresh_not_placed s c : quic_inv s → c ∉ known s → ¬ placed (qm s) c.
Proof.
  intros Hs Hc [[p Hp]|Hcl]; apply Hc; [by apply (mo_sessions _ _ _ (qi_mgr s Hs) p)|by apply (mo_closed _ _ _ (qi_mgr s Hs))].
Qed.

Lemma dialed_disjoint s g e : newDialed e s → dialed g e ## known s.
Proof. destruct g, e as [| | |[]| |]; simpl; set_solver. Qed.

(** What a dial step records. *)
Lemma dialOf_fields g e s :
  qm (dialOf g e s) = qm s ∧ inbounds (dialOf g e s) = inbounds s ∧ punches (dialOf g e s) = punches s ∧
  responds (dialOf g e s) = responds s ∧ aborted (dialOf g e s) = aborted s ∧
  known (dialOf g e s) = dialed g e ∪ known s ∧ verified s ⊆ verified (dialOf g e s) ∧
  ∀ gen r c, g = Some gen → e = EvDialed r → r = Ok c → (c, gen) ∈ verified (dialOf g e s).
Proof.
  destruct g as [g|], e as [| | |[c|]| |]; simpl; split_and!; try done; try set_solver.
Qed.

Lemma inv_dial_step s g e m turn' punches' responds' :
  quic_inv s → newDialed e s →
  let s' := dialOf g e {| qm := m; inbounds := inbounds s; turnDials := turn'; punches := punches';
                          responds := responds'; known := known s; verified := verified s; aborted := aborted s |} in
  (dialed_ok (known s') (verified s') (qm s) g e → mgr_ok (known s') (verified s') (qm s) →
   change (known s') (verified s') (dialed g e) (qm s) m ∧ (∀ c, c ∈ dialed g e → placed m c) ∧
   (∀ i pc, punches' !! i = Some pc → punch_ok m pc) ∧ (∀ i pc, responds' !! i = Some pc → respond_ok m pc)) →
  quic_inv s'.
Proof.
  intros Hs Hnew s' Hstep.
  destruct (dialOf_fields g e {| qm := m; inbounds := inbounds s; turnDials := turn'; punches := punches';
    responds := responds'; known := known s; verified := verified s; aborted := aborted s |})
    as (Hqm & Hin & Hpu & Hre & Hab & Hkn & Hver & Hd). fold s' in Hqm, Hin, Hpu, Hre, Hab, Hkn, Hver, Hd. simpl in *.
  assert (dialed_ok (known s') (verified s') (qm s) g e) as Hdial.
  { intros gen r c -> -> ->. split_and!; [rw Hkn; simpl; set_solver|by eapply Hd|by apply fresh_not_placed]. }
  assert (mgr_ok (known s') (verified s') (qm s)) as Hm by (eapply mgr_ok_mono; [| |by apply qi_mgr]; set_solver).
  destruct (Hstep Hdial Hm) as (Hch & Hpl & Hp & Hr).
  apply (inv_update s _ (dialed g e)); rw ?Hqm ?Hpu ?Hre //. by apply dialed_disjoint.
Qed.

Lemma inv_new_inbound s i c pc :
  quic_inv s → inbounds s !! i = None → c ∉ known s → startInbound c (qm s) = Some pc →
  quic_inv {| qm := qm s; inbounds := <[i := pc]> (inbounds s); turnDials := turnDials s; punches := punches s;
              responds := responds s; known := {[ c ]} ∪ known s; verified := verified s; aborted := aborted s |}.
Proof.
  intros Hs Hi Hc. unfold startInbound. destruct (hasServerTLS (qm s)); [|done]. intros [= <-].
  pose proof (fresh_not_placed s c Hs Hc) as Hnp. destruct Hs as [Hm Hh Hd Hco Hp Hr Ha].
  split; simpl; try done.
  - eapply mgr_ok_mono; [| |done]; set_solver.
  - intros j pcj c' [[<- <-]|[_ Hj]]%lookup_insert_Some Hpc; [simpl in Hpc; subst; set_solver|].
    destruct (Hh j pcj c' Hj Hpc). set_solver.
  - intros j k pcj pck c' [[<- <-]|[Hj' Hj]]%lookup_insert_Some [[<- <-]|[Hk' Hk]]%lookup_insert_Some Hpj Hpk; try done.
    + simpl in Hpj. subst c'. by destruct (Hh k pck c Hk Hpk).
    + simpl in Hpk. subst c'. by destruct (Hh j pcj c Hj Hpj).
    + by eapply Hd.
  - intros j c' g [[_ ?]|[_ Hj]]%lookup_insert_Some; [done|by eapply Hco].
  - intros c' [->%elem_of_singleton|Hc']%elem_of_union.
    + left. exists i, (IHello c (tlsGeneration (qm s))). by rw lookup_insert_eq.
    + destruct (Ha c' Hc') as [(j & pcj & Hj & Hpj)|]; [|by right]. left. exists j, pcj. rw lookup_insert_ne //. congruence.
Qed.

Lemma quic_step_inv s s' : quic_inv s → quic_step s s' → quic_inv s'.
Proof.
  intros Hs Hstep. pose proof (qi_mgr s Hs) as Hm.
  destruct Hstep as [i c pc Hi Hc Hst|i pc pc' m Hi Hn|i p g Hi Hst|i p g r r' m Hi Hnew Hf|i p Hi|i e pc pc' m Hi Hnew Hn
    |i p Hi|i e pc pc' m Hi Hnew Hn|p|i p c e Hi|p|p|addr|client server| |].
  - by apply inv_new_inbound.
  - by apply inbound_preserves.
  - by destruct Hs; split.
  - apply (inv_dial_step s (Some g) (EvDialed r) m _ (punches s) (responds s) Hs Hnew).
    intros Hd Hok. match type of Hok with mgr_ok ?kn ?ver _ =>
      destruct (finishDial_change kn ver p g r (qm s) r' m Hf) as (Hch & Hpl & _) end.
    { intros c ->. by apply (Hd g (Ok c) c). }
    split_and!; [done|done|..]; intros j pcj Hj;
      [eapply punch_ok_kept; [done|done|by eapply qi_punches]|eapply respond_ok_kept; [done|done|by eapply qi_responds]].
  - destruct Hs; split; simpl; try done. intros j pcj [[<- <-]|[_ Hj]]%lookup_insert_Some; [done|eauto].
  - apply (inv_dial_step s (punchGen pc) e m _ (<[i := pc']> (punches s)) (responds s) Hs Hnew).
    intros Hd Hok. destruct (punchNext_change _ _ e pc (qm s) pc' m Hn Hok (qi_punches s Hs _ _ Hi) Hd) as (Hch & Hpl & Hpc).
    split_and!; [done|done|..]; intros j pcj.
    + intros [[<- <-]|[_ Hj]]%lookup_insert_Some; [done|]. eapply punch_ok_kept; [done|done|by eapply qi_punches].
    + intros Hj. eapply respond_ok_kept; [done|done|by eapply qi_responds].
  - destruct Hs; split; simpl; try done. intros j pcj [[<- <-]|[_ Hj]]%lookup_insert_Some; [done|eauto].
  - apply (inv_dial_step s (respondGen pc) e m _ (punches s) (<[i := pc']> (responds s)) Hs Hnew).
    intros Hd Hok. destruct (respondNext_change _ _ e pc (qm s) pc' m Hn Hok (qi_responds s Hs _ _ Hi) Hd) as (Hch & Hpl & Hpc).
    split_and!; [done|done|..]; intros j pcj.
    + intros Hj. eapply punch_ok_kept; [done|done|by eapply qi_punches].
    + intros [[<- <-]|[_ Hj]]%lookup_insert_Some; [done|]. eapply respond_ok_kept; [done|done|by eapply qi_responds].
  - apply inv_manager; [done|]. intros. apply change_remove.
  - apply inv_manager; [done|]. intros. apply change_closeIf. by apply (qi_punches s Hs i _ Hi).
  - apply inv_manager; [done|]. intros. apply change_frame; try done. simpl. set_solver.
  - apply inv_manager; [done|]. intros. apply change_block.
  - apply inv_manager; [done|]. intros. by apply change_frame.
  - apply inv_manager; [done|]. intros. apply change_rotate.
  - apply inv_manager; [done|]. intros. by apply change_frame.
  - apply inv_manager; [done|]. intros. apply change_rotate.
Qed.

Definition quic_reachable (m : QUICManager) s : Prop := rtc quic_step (quic_init m) s.

(** A manager as it is made: nothing published, closed or under way. *)
Definition unused (m : QUICManager) : Prop :=
  Sessions m = ∅ ∧ closedConns m = ∅ ∧ handshakeGen m = ∅ ∧ dials m = ∅ ∧ dialResults m = ∅.

Lemma quic_reachable_inv m s : unused m → quic_reachable m s → quic_inv s.
Proof.
  intros (Hs & Hc & Hh & Hd & Hr). revert s. apply rtc_ind_r; [|intros s s' _ Hstep Hinv; by eapply quic_step_inv].
  split; simpl; try done. split; rw ?Hs ?Hc ?Hh ?Hd ?Hr //.
Qed.

(** C11: however inbound connections, dials, hole punches, certificate
    rotations, blockings and closings interleave, a published session is a
    connection of the peer it is published for, whose certificate was accepted
    under the current TLS generation; the peer is not blocked, the node has
    not closed the connection, and no other peer has it.  Every connection
    whose handshake succeeded is published, closed, or still with its
    handler. *)
Theorem quic_sessions_sound m s :
  unused m → quic_reachable m s →
  (∀ p c, Sessions (qm s) !! p = Some c →
     PeerCNFromTLS (connState c) = Some p ∧ (c, tlsGeneration (qm s)) ∈ verified s ∧
     p ∉ blockedPeers (qm s) ∧ c ∉ closedConns (qm s) ∧ ∀ q, Sessions (qm s) !! q = Some c → q = p) ∧
  (∀ c, c ∈ known s →
     (∃ i pc, inbounds s !! i = Some pc ∧ carries pc c) ∨ (∃ p, Sessions (qm s) !! p = Some c) ∨
     c ∈ closedConns (qm s) ∨ c ∈ aborted s).
Proof.
  intros Hu Hs. apply (quic_reachable_inv m s Hu) in Hs. pose proof (qi_mgr s Hs) as Hm. split.
  - intros p c Hp. destruct (mo_sessions _ _ _ Hm p c Hp) as (Hcn & ? & ? & _ & ?). split_and!; try done.
    intros q Hq. destruct (mo_sessions _ _ _ Hm q c Hq) as [Hcn' _]. congruence.
  - intros c Hc. destruct (qi_accounted s Hs c Hc) as [|[[|]|]]; auto.
Qed.

(** *** Scripted runs *)

Inductive quic_action :=
  | QInbound (i c : nat)
  | QInboundStep (i : nat)
  | QPunch (i : nat) (peerID : string)
  | QPunchStep (i : nat) (e : punch_event)
  | QRespond (i : nat) (peerID : string)
  | QRespondStep (i : nat) (e : punch_event)
  | QBlock (peerID : string).

Definition newDialedb (e : punch_event) s : bool :=
  match e with EvDialed (Ok c) => bool_decide (c ∉ known s) | _ => true end.

Definition quic_act (a : quic_action) s : option quic :=
  match a with
  | QInbound i c =>
      guard (inbounds s !! i = None);; guard (c ∉ known s);;
      pc ← startInbound c (qm s);
      Some {| qm := qm s; inbounds := <[i := pc]> (inbounds s); turnDials := turnDials s; punches := punches s;
              responds := responds s; known := {[ c ]} ∪ known s; verified := verified s; aborted := aborted s |}
  | QInboundStep i =>
      pc ← inbounds s !! i;
      '(pc', m) ← inboundNext connState exportKey pc (qm s);
      Some (inboundGhost pc pc' (set_inbound i pc' (with_qm m s)))
  | QPunch i p =>
      guard (punches s !! i = None);;
      Some {| qm := qm s; inbounds := inbounds s; turnDials := turnDials s; punches := <[i := PCheck p]> (punches s);
              responds := responds s; known := known s; verified := verified s; aborted := aborted s |}
  | QPunchStep i e =>
      guard (newDialedb e s = true);;
      pc ← punches s !! i;
      '(pc', m) ← punchNext connState ctxErr e pc (qm s);
      Some (dialOf (punchGen pc) e
        {| qm := m; inbounds := inbounds s; turnDials := turnDials s; punches := <[i := pc']> (punches s);
           responds := responds s; known := known s; verified := verified s; aborted := aborted s |})
  | QRespond i p =>
      guard (responds s !! i = None);;
      Some {| qm := qm s; inbounds := inbounds s; turnDials := turnDials s; punches := punches s;
              responds := <[i := RCheck p]> (responds s); known := known s; verified := verified s; aborted := aborted s |}
  | QRespondStep i e =>
      guard (newDialedb e s = true);;
      pc ← responds s !! i;
      '(pc', m) ← respondNext connState e pc (qm s);
      Some (dialOf (respondGen pc) e
        {| qm := m; inbounds := inbounds s; turnDials := turnDials s; punches := punches s;
           responds := <[i := pc']> (responds s); known := known s; verified := verified s; aborted := aborted s |})
  | QBlock p => Some (with_qm (BlockPeerSessions p (qm s)) s)
  end.

Lemma newDialedb_spec e s : newDialedb e s = true → newDialed e s.
Proof. destruct e as [| | |[]| |]; simpl; try done. by intros ?%bool_decide_eq_true. Qed.

Lemma quic_act_step a s s' : quic_act a s = Some s' → quic_step s s'.
Proof.
  destruct a as [i c|i|i p|i e|i p|i e|p]; cbn [quic_act]; intros Hact.
  - apply bind_Some in Hact as (H1 & _ & (H2 & _ & Hact)%bind_Some). apply bind_Some in Hact as (pc & Hpc & [= <-]). by apply q_inbound.
  - apply bind_Some in Hact as (pc & Hi & ([pc' m] & Hn & [= <-])%bind_Some). by apply q_inbound_step.
  - apply bind_Some in Hact as (H1 & _ & Hact). injection Hact as <-. by apply q_punch.
  - apply bind_Some in Hact as (H1 & _ & Hact). apply bind_Some in Hact as (pc & Hi & ([pc' m] & Hn & [= <-])%bind_Some).
    apply q_punch_step; [done|by apply newDialedb_spec|done].
  - apply bind_Some in Hact as (H1 & _ & Hact). injection Hact as <-. by apply q_respond.
  - apply bind_Some in Hact as (H1 & _ & Hact). apply bind_Some in Hact as (pc & Hi & ([pc' m] & Hn & [= <-])%bind_Some).
    apply q_respond_step; [done|by apply newDialedb_spec|done].
  - injection Hact as <-. apply q_block.
Qed.

Definition quic_run (m : QUICManager) (script : list quic_action) : option quic :=
  foldl (λ o a, o ≫= quic_act a) (Some (quic_init m)) script.

Lemma quic_run_reachable m script s : quic_run m script = Some s → quic_reachable m s.
Proof.
  unfold quic_run. revert s. induction script as [|a script IH] using rev_ind; intros s; [intros [= <-]; apply rtc_refl|].
  rw foldl_app /=. intros (s1 & Hs1 & Hact)%bind_Some. eapply rtc_r; [by apply IH|by eapply quic_act_step].
Qed.
End system.

(** ** Runs *)

Definition demoState (_ : nat) : @tlsState () := Some [("a", ())].
Definition demoKey (c : nat) : option string := Some (itoa (N.of_nat c)).

Lemma demoKey_inj c c' k : demoKey c = Some k → demoKey c' = Some k → c = c'.
Proof. unfold demoKey. intros [= <-] [= ?%itoa_inj]. lia. Qed.

Definition demoManager : QUICManager := NewQUICManager "b" true true.

Definition acceptOne : option quic :=
  quic_run demoState demoKey (λ _, false) demoManager [QInbound 0 7; QInboundStep 0; QInboundStep 0; QInboundStep 0].

Lemma quic_sessions_sound_witness :
  ∃ s, acceptOne = Some s ∧ Sessions (qm s) !! "a" = Some 7 ∧ (7, 1%Z) ∈ verified s ∧ 7 ∉ closedConns (qm s).
Proof.
  destruct acceptOne as [s|] eqn:Hrun; [|vm_compute in Hrun; discriminate Hrun].
  exists s. split; [done|].
  destruct (quic_sessions_sound demoState demoKey (λ _, false) demoKey_inj demoManager s) as [Hsound _];
    [done|by eapply quic_run_reachable|].
  assert (Sessions (qm s) !! "a" = Some 7) as Hp by (vm_compute in Hrun; injection Hrun as <-; by vm_compute).
  assert (tlsGeneration (qm s) = 1%Z) as Hg by (vm_compute in Hrun; injection Hrun as <-; by vm_compute).
  destruct (Hsound "a" 7 Hp) as (_ & Hv & _ & Hc & _). rw Hg in Hv. by split_and!.
Defined.

(** While the node with the larger ID answers a hole punch of a peer, its
    own punch to the same peer waits for that attempt, which ends without a
    connection and without an error: the punch reports success with no
    session. *)
Theorem hole_punch_nil_session :
  ∃ s, quic_reachable demoState demoKey (λ _, false) demoManager s ∧ punches s !! 0 = Some (PDone "a" (None, None)).
Proof.
  destruct (quic_run demoState demoKey (λ _, false) demoManager
    [QRespond 0 "a"; QRespondStep 0 EvGo; QRespondStep 0 EvGo; QPunch 0 "a"; QPunchStep 0 EvGo; QPunchStep 0 EvGo;
     QRespondStep 0 (EvHeard true); QRespondStep 0 EvGo; QPunchStep 0 EvGo]) as [s|] eqn:Hrun;
    [|vm_compute in Hrun; discriminate Hrun].
  exists s. split; [by eapply quic_run_reachable|]. vm_compute in Hrun. injection Hrun as <-. by vm_compute.
Qed.
