(* ===== verification/Router.v ===== *)
(** * The router

    [internal/p2p/router.go]: requests to [<peer>.proxyma.local] are sent over
    an existing session, a host name of the peer, a session made by hole
    punching or through TURN, the sponsor's relay, or an IP address of the
    peer, in this order.  The router also starts hole punches ahead of need
    when a route is published, and cancels them when it changes.

    The network is the class [RouteWorld].  In [RoundTrip] the error of [ST]
    is a run-time panic; the errors the functions return are values. *)
From Stdlib Require Import Ascii String.
From S2P Require Import Prelude GoStrings Json Protocol PeerRegistry Relay Quic.
Local Open Scope stdpp_scope.

(** ** Addresses *)

Record PeerURL := { Scheme : string; Host : string; Hostname : string; Port : string }.

Definition defaultPortForURL (u : PeerURL) : string :=
  if bool_decide (Port u ≠ "") then Port u
  else if bool_decide (Scheme u = "https") then "443" else "80".

(** [strings.Trim(s, "[]")]. *)
Definition isBracket (c : ascii) : bool := Ascii.eqb c "["%char || Ascii.eqb c "]"%char.
Fixpoint trimBracketsLeft (l : list ascii) : list ascii :=
  match l with c :: rest => if isBracket c then trimBracketsLeft rest else l | [] => [] end.
Definition trimBrackets (s : string) : string :=
  string_of_list_ascii (reverse (trimBracketsLeft (reverse (trimBracketsLeft (list_ascii_of_string s))))).

Section addresses.
(** [url.Parse], the host of [net.SplitHostPort], and whether [net.ParseIP]
    accepts a text. *)
Variable parseURL : string → option PeerURL.
Variable splitHostPort : string → option string.
Variable isIP : string → bool.

Definition IsLoopbackHost (addr : string) : bool :=
  let from (host : string) :=
    let host := trimBrackets host in
    if bool_decide (host = "") then true
    else bool_decide (host = "localhost") || bool_decide (host = "127.0.0.1") || bool_decide (host = "::1") ||
         negb (Contains host ".") in
  if Contains addr "://" then
    match parseURL addr with None => true | Some u => from (Hostname u) end
  else match splitHostPort addr with Some h => from h | None => from addr end.

Definition isOwnAddress (parsedAddr : PeerURL) (peerID nodeID ownAddress : string) : bool :=
  if bool_decide (ownAddress = "") || bool_decide (peerID = nodeID) then false
  else match parseURL ownAddress with
  | None => false
  | Some own =>
      (IsLoopbackHost (Hostname parsedAddr) && bool_decide (defaultPortForURL parsedAddr = defaultPortForURL own)) ||
      bool_decide (Host parsedAddr = Host own)
  end.

Definition isSponsorPeer (record : AddressRecord) (sponsorAddr : string) : bool :=
  if IsSponsor record then true
  else if bool_decide (sponsorAddr = "") then false
  else match parseURL sponsorAddr with
  | None => false
  | Some sponsor =>
      existsb (λ raw, match parseURL raw with Some u => bool_decide (Host u = Host sponsor) | None => false end)
        (Addresses record)
  end.

Fixpoint splitDirectAddresses (addrs : list string) : list string * list string :=
  match addrs with
  | [] => ([], [])
  | raw :: rest =>
      let '(hostnames, ipAddrs) := splitDirectAddresses rest in
      match parseURL raw with
      | None => (hostnames, ipAddrs)
      | Some u =>
          if bool_decide (Scheme u = "quic") || bool_decide (Hostname u = "") then (hostnames, ipAddrs)
          else if isIP (Hostname u) then (hostnames, raw :: ipAddrs)
          else (raw :: hostnames, ipAddrs)
      end
  end.
End addresses.

(** ** Requests *)

(** The body of a request: none, a stream read once, or one that [GetBody]
    gives again. *)
Inductive bodySource := NoBody | Stream (content : res string) | Replay (content : res string).

Record Request := {
  ReqMethod : string;
  ReqHostname : string;
  ReqPath : string;
  ReqHeaders : gmap string (list string);
  ReqBody : bodySource;
  BypassHolePunch : bool }.

Definition withBody (b : bodySource) (r : Request) : Request :=
  {| ReqMethod := ReqMethod r; ReqHostname := ReqHostname r; ReqPath := ReqPath r; ReqHeaders := ReqHeaders r;
     ReqBody := b; BypassHolePunch := BypassHolePunch r |}.

Definition bufferRequestBody (clone : Request) : res Request :=
  match ReqBody clone with
  | Stream (Ok content) => Ok (withBody (Replay (Ok content)) clone)
  | Stream (Err e) => Err e
  | _ => Ok clone
  end.

Definition resetRequestBody (clone : Request) : option error :=
  match ReqBody clone with Replay (Err e) => Some e | _ => None end.

(** A response: its status, the peer's certificates, and its body; its
    headers are left out. *)
Record Response (Cert : Type) := { RespStatus : Z; RespTLS : @tlsState Cert; RespBody : string }.
Arguments RespStatus {Cert} _.
Arguments RespTLS {Cert} _.
Arguments RespBody {Cert} _.

(** ** Transports *)

(** [http.RoundTripper]s: the standard transport with its [VerifyConnection],
    the one that counts bandwidth over another ([None]: nil), one that binds
    the peer's identity itself, and any other. *)
Inductive transport (Cert : Type) :=
  | HTTPTransport (verifyConnection : option (@tlsState Cert → option error))
  | BandwidthTransport (base : option (transport Cert))
  | HandshakeTransport
  | OtherTransport.
Arguments HTTPTransport {Cert} _.
Arguments BandwidthTransport {Cert} _.
Arguments HandshakeTransport {Cert}.
Arguments OtherTransport {Cert}.

Section transports.
Context {Cert : Type}.
Implicit Types base : transport Cert.

(** [http.DefaultTransport], and a transport or that one for nil. *)
Definition defaultTransport : transport Cert := HTTPTransport None.
Definition orDefault (base : option (transport Cert)) : transport Cert := default defaultTransport base.

Definition bindPeer (peerID : string) (verifyConnection : option (@tlsState Cert → option error)) (state : @tlsState Cert)
    : option error :=
  match verifyConnection with
  | Some verify => match verify state with Some e => Some e | None => VerifyTLSPeerCN state peerID end
  | None => VerifyTLSPeerCN state peerID
  end.

Fixpoint peerVerifiedTransport (peerID : string) base : res (transport Cert) :=
  match base with
  | BandwidthTransport (Some inner) =>
      match peerVerifiedTransport peerID inner with
      | Ok verified => Ok (BandwidthTransport (Some verified))
      | Err e => Err e
      end
  | BandwidthTransport None => Ok (BandwidthTransport (Some (HTTPTransport (Some (bindPeer peerID None)))))
  | HTTPTransport verifyConnection => Ok (HTTPTransport (Some (bindPeer peerID verifyConnection)))
  | _ => Err (EMsg "wrapped direct HTTPS transport cannot enforce peer identity during TLS handshake")
  end.
End transports.

(** The way a response came. *)
Inductive via := ViaBase | ViaSession (c : nat) | ViaDirect (addr : string) | ViaRelay.

(** ** The network *)

Class RouteWorld (Cert W : Type) := {
  (** the transport below, for hosts that are not peers *)
  baseRoundTrip : Request → W → res (Response Cert) * W;
  (** [sendRequestOverQUIC] on a session *)
  sendOverQUIC : nat → Request → W → res (Response Cert) * W;
  (** the TCP probe of an address, and a request over HTTPS to it by a transport *)
  probe : string → W → option error * W;
  sendHTTP : transport Cert → string → Request → W → res (Response Cert) * W;
  (** [InitiateHolePunch] and [DialPeer] within a time *)
  initiateHolePunch : string → list string → Z → W → dialOutcome * W;
  dialTURN : string → list string → Z → W → res nat * W;
  (** [ForwardRelay] to a sponsor *)
  forwardRelay : string → RelayRequest → W → res RelayResponse * W;
  newReqID : W → string * W;
  (** the session manager, if there is one, whether TURN is set up, and the
      time left to the request's deadline *)
  manager : W → option QUICManager;
  dropSession : string → W → W;
  hasTURN : W → bool;
  timeLeft : W → option Z }.

Definition HolePunchAttempt : Z := 8 * second.
Definition TURNFallbackBudget : Z := 6 * second.
Definition millisecond : Z := 1000000.

(** The time for a phase under the request's deadline; [None]: skip it. *)
Definition phaseBudget (left : option Z) (full : Z) : option Z :=
  match left with
  | None => Some full
  | Some l => if (1000 * millisecond <? l)%Z then Some (Z.min (l - 1000 * millisecond) full) else None
  end.

Definition errRelayPayloadTooLarge : error := EMsg "payload exceeds relay size limit".

Section routing.
Context {Cert W : Type} `{!RouteWorld Cert W}.
Context (parseURL : string → option PeerURL) (splitHostPort : string → option string) (isIP : string → bool).
Abbreviation RT := (ST W).
Abbreviation Resp := (Response Cert).

(** A call of the network. *)
Definition call {A} (f : W → A * W) : RT A := λ w, let '(a, w) := f w in (Ok a, w).

Definition roundTripPeerVerified (base : option (transport Cert)) (peerID rawAddr : string) (clone : Request) : RT (res Resp) :=
  match orDefault base with
  | HandshakeTransport => call (sendHTTP HandshakeTransport rawAddr clone)
  | base =>
      match peerVerifiedTransport peerID base with
      | Err e => mret (Err e)
      | Ok verified => call (sendHTTP verified rawAddr clone)
      end
  end.

Definition dialDirect (base : option (transport Cert)) (clone : Request) (peerID rawAddr : string) (u : PeerURL) : RT (res Resp) :=
  if bool_decide (Scheme u ≠ "https") then mret (Err (EMsg "direct P2P route requires HTTPS"))
  else
    e ← call (probe rawAddr);
    match e with
    | Some e => mret (Err e)
    | None =>
        r ← roundTripPeerVerified base peerID rawAddr clone;
        mret (match r with
              | Err e => Err e
              | Ok resp =>
                  match RespTLS resp with
                  | Some ((cn, _) :: _) =>
                      match verifyPeerCNValue cn peerID with Some e => Err e | None => Ok resp end
                  | _ => Err (EMsg "direct HTTPS route returned no peer certificate")
                  end
              end)
    end.

(** The first address that answers, or the last failure. *)
Fixpoint tryDirectAddresses (base : option (transport Cert)) (clone : Request) (peerID : string) (addrs : list string) (nodeID ownAddress : string)
    (lastErr : option error) : RT (option (Resp * string) * option error) :=
  match addrs with
  | [] => mret (None, lastErr)
  | rawAddr :: rest =>
      match parseURL rawAddr with
      | None => tryDirectAddresses base clone peerID rest nodeID ownAddress (Some (EMsg "url"))
      | Some u =>
          if bool_decide (Scheme u = "quic") || isOwnAddress parseURL splitHostPort u peerID nodeID ownAddress
          then tryDirectAddresses base clone peerID rest nodeID ownAddress lastErr
          else match resetRequestBody clone with
          | Some e => mret (None, Some e)
          | None =>
              r ← dialDirect base clone peerID rawAddr u;
              match r with
              | Err e => tryDirectAddresses base clone peerID rest nodeID ownAddress (Some e)
              | Ok resp => mret (Some (resp, rawAddr), None)
              end
          end
      end
  end.

(** A session pointer that is nil crashes when a stream is opened on it. *)
Definition routeOverQUICSession (peerID : string) (sess : option nat) (clone : Request) : RT (option (Resp * nat)) :=
  match resetRequestBody clone, sess with
  | Some _, _ =>
      modify (dropSession peerID);; mret None
  | None, None => fail (EPanic "nil pointer dereference")
  | None, Some c =>
      r ← call (sendOverQUIC c clone);
      match r with
      | Err _ => modify (dropSession peerID);; mret None
      | Ok resp =>
          (if (RespStatus resp =? 403)%Z || (RespStatus resp =? 401)%Z then modify (dropSession peerID) else mret ());;
          mret (Some (resp, c))
      end
  end.

Definition tryExistingSession (peerID : string) (clone : Request) : RT (option (Resp * nat)) :=
  m ← gets manager;
  match m ≫= GetSession peerID with
  | None => mret None
  | Some c => routeOverQUICSession peerID (Some c) clone
  end.

(** A phase: not applicable, failed, or answered. *)
Inductive phase := Skipped | Failed (e : error) | Answered (resp : Resp) (c : nat).

Definition tryHolePunchAndRoute (clone : Request) (peerID : string) (record : AddressRecord) (sponsorAddr : string) : RT phase :=
  m ← gets manager;
  match m with
  | None => mret Skipped
  | Some qm =>
      if bool_decide (sponsorAddr = "") || bool_decide (publicUDPAddr qm = "") || BypassHolePunch clone then mret Skipped
      else match FirstQUICAddr (Addresses record) with
      | None => mret Skipped
      | Some _ =>
          left ← gets timeLeft;
          match phaseBudget left HolePunchAttempt with
          | None => mret Skipped
          | Some budget =>
              o ← call (initiateHolePunch peerID (Addresses record) budget);
              match o.2 with
              | Some e => mret (Failed e)
              | None =>
                  r ← routeOverQUICSession peerID o.1 clone;
                  mret (match r with
                        | Some (resp, c) => Answered resp c
                        | None => Failed (EMsg "failed to send request over newly punched QUIC session")
                        end)
              end
          end
      end
  end.

Definition tryTURNDial (clone : Request) (peerID : string) (record : AddressRecord) : RT phase :=
  m ← gets manager;
  turn ← gets hasTURN;
  if negb turn || bool_decide (m = None) || BypassHolePunch clone then mret Skipped
  else match FirstQUICAddr (Addresses record) with
  | None => mret Skipped
  | Some _ =>
      left ← gets timeLeft;
      match phaseBudget left TURNFallbackBudget with
      | None => mret Skipped
      | Some budget =>
          r ← call (dialTURN peerID (Addresses record) budget);
          match r with
          | Err e => mret (Failed e)
          | Ok c =>
              r ← routeOverQUICSession peerID (Some c) clone;
              mret (match r with
                    | Some (resp, c) => Answered resp c
                    | None => Failed (EMsg "failed to send request over TURN QUIC session")
                    end)
          end
      end
  end.

Inductive relayOutcome := RelayAnswered (r : RelayResponse) | RelayTooLarge (e : error) | RelayFailed (e : error).

Definition tryRelay (clone : Request) (peerID sponsorAddr : string) : RT relayOutcome :=
  match resetRequestBody clone with
  | Some e => mret (RelayFailed (EWrap "reset relay body" e))
  | None =>
      let content := match ReqBody clone with Replay (Ok c) => c | _ => "" end in
      id ← call newReqID;
      if relayCapExceeded (byteLen content) then mret (RelayTooLarge errRelayPayloadTooLarge)
      else
        r ← call (forwardRelay sponsorAddr
          {| RlReqID := id; RlTarget := peerID; RlMethod := ReqMethod clone; RlPath := ReqPath clone;
             RlHeaders := FlattenHTTPHeader (ReqHeaders clone); RlBody := content; RlOriginPeerID := "" |});
        mret (match r with Ok resp => RelayAnswered resp | Err e => RelayFailed e end)
  end.

Definition ToHTTPResponse (rr : RelayResponse) : Resp :=
  {| RespStatus := RrStatusCode rr; RespTLS := None; RespBody := RrBody rr |}.

(** The router's table as [RoundTrip] reads it. *)
Record routeTable := {
  rtRoutes : gmap string AddressRecord;
  rtSponsor : string;
  rtNodeID : string;
  rtOwnAddress : string;
  rtBase : option (transport Cert) }.

Definition resolveRoute (t : routeTable) (peerID : string) : option AddressRecord :=
  match rtRoutes t !! peerID with
  | Some record => Some record
  | None =>
      if bool_decide (rtNodeID t ≠ "") && bool_decide (peerID = rtNodeID t) && bool_decide (rtOwnAddress t ≠ "")
      then Some {| Addresses := [rtOwnAddress t]; Sequence := 0; IsSponsor := false |} else None
  end.

Definition keepFirst (lastErr : option error) (e : error) : option error :=
  match lastErr with None => Some e | Some _ => lastErr end.

Definition noRoute (peerID : string) (lastErr : option error) : error :=
  match lastErr with
  | Some e => EWrap "failed to route to peer" e
  | None => EMsg "no addresses available for peer"
  end.

(** The last phase: IP addresses. *)
Definition tryIPs (t : routeTable) (clone : Request) (peerID : string) (ipAddrs : list string) (lastErr : option error)
    : RT (res (Resp * via)) :=
  r ← tryDirectAddresses (rtBase t) clone peerID ipAddrs (rtNodeID t) (rtOwnAddress t) None;
  mret (match r with
        | (Some (resp, addr), _) => Ok (resp, ViaDirect addr)
        | (None, e) => Err (noRoute peerID (match e with Some e => Some e | None => lastErr end))
        end).

(** The phases after the sessions. *)
Definition relayOrIPs (t : routeTable) (clone : Request) (peerID : string) (record : AddressRecord) (ipAddrs : list string)
    (lastErr : option error) : RT (res (Resp * via)) :=
  if bool_decide (rtSponsor t ≠ "") && negb (isSponsorPeer parseURL record (rtSponsor t)) then
    relayed ← tryRelay clone peerID (rtSponsor t);
    match relayed with
    | RelayAnswered rr => mret (Ok (ToHTTPResponse rr, ViaRelay))
    | RelayTooLarge e => mret (Err e)
    | RelayFailed e => tryIPs t clone peerID ipAddrs (keepFirst lastErr e)
    end
  else tryIPs t clone peerID ipAddrs lastErr.

(** A phase that makes a session, or the next one. *)
Definition orElse (ph : phase) (lastErr : option error) (next : option error → RT (res (Resp * via))) : RT (res (Resp * via)) :=
  match ph with
  | Answered resp c => mret (Ok (resp, ViaSession c))
  | Failed e => next (Some e)
  | Skipped => next lastErr
  end.

Definition routePeer (t : routeTable) (clone : Request) (peerID : string) (record : AddressRecord) : RT (res (Resp * via)) :=
  existing ← tryExistingSession peerID clone;
  match existing with
  | Some (resp, c) => mret (Ok (resp, ViaSession c))
  | None =>
      let '(hostnames, ipAddrs) := splitDirectAddresses parseURL isIP (Addresses record) in
      direct ← tryDirectAddresses (rtBase t) clone peerID hostnames (rtNodeID t) (rtOwnAddress t) None;
      match direct with
      | (Some (resp, addr), _) => mret (Ok (resp, ViaDirect addr))
      | (None, lastErr) =>
          punched ← tryHolePunchAndRoute clone peerID record (rtSponsor t);
          orElse punched lastErr (λ lastErr,
            turned ← tryTURNDial clone peerID record;
            orElse turned lastErr (relayOrIPs t clone peerID record ipAddrs))
      end
  end.

Definition RoundTrip (t : routeTable) (req : Request) : RT (res (Resp * via)) :=
  match ParsePeerLocalHost (ReqHostname req) with
  | None =>
      r ← call (baseRoundTrip req);
      mret (match r with Ok resp => Ok (resp, ViaBase) | Err e => Err e end)
  | Some peerID =>
      match resolveRoute t peerID with
      | None => mret (Err (EMsg "unknown peer ID in routing"))
      | Some record =>
          match bufferRequestBody req with
          | Err e => mret (Err (EWrap "buffer request body" e))
          | Ok clone => routePeer t clone peerID record
          end
      end
  end.
End routing.
