(* ===== verification/RouterLaws.v ===== *)
(** * Laws of the router

    Whom a response comes from, that a peer with an address that answers is
    reached, and where the phases of [RoundTrip] stop too early.  What the
    router needs of the sessions is the class [RouteLaws]; it holds in every
    world whose sessions are those of [Quic] ([QuicBacked]), such as [netsim],
    where hole punches run on the transition system of [QuicLaws]. *)
From Stdlib Require Import Ascii String.
From S2P Require Import Prelude GoStrings Json Protocol PeerRegistry Relay Quic QuicLaws Router.
Local Open Scope stdpp_scope.

(** ** Transports *)

Section transports.
Context {Cert : Type}.
Implicit Types base : transport Cert.

Lemma transport_nested_ind (P : transport Cert → Prop) :
  (∀ v, P (HTTPTransport v)) → P (BandwidthTransport None) → (∀ t, P t → P (BandwidthTransport (Some t))) →
  P HandshakeTransport → P OtherTransport → ∀ t, P t.
Proof.
  intros Hh Hn Hb Hs Ho. fix IH 1. intros [v|[t|]| |]; [apply Hh|apply Hb, IH|exact Hn|exact Hs|exact Ho].
Qed.

(** What a transport verifies of a handshake. *)
Fixpoint handshakePolicy base (state : @tlsState Cert) : option error :=
  match base with
  | HTTPTransport (Some verify) => verify state
  | BandwidthTransport (Some inner) => handshakePolicy inner state
  | _ => None
  end.

Lemma VerifyTLSPeerCN_spec (state : @tlsState Cert) p : VerifyTLSPeerCN state p = None ↔ PeerCNFromTLS state = Some p.
Proof.
  unfold VerifyTLSPeerCN, verifyPeerCNValue. destruct (PeerCNFromTLS state); [|by naive_solver].
  case_bool_decide; naive_solver.
Qed.

(** A bound transport accepts what the transport below accepts, of this
    peer. *)
Lemma peerVerifiedTransport_binds peerID base verified state :
  peerVerifiedTransport peerID base = Ok verified →
  handshakePolicy verified state = None ↔ handshakePolicy base state = None ∧ PeerCNFromTLS state = Some peerID.
Proof.
  revert verified. induction base as [v| |inner IH| |] using transport_nested_ind; intros verified; simpl; try done.
  - intros [= <-]. simpl. unfold bindPeer. rw -VerifyTLSPeerCN_spec. destruct v as [v|]; [|by naive_solver].
    destruct (v state); naive_solver.
  - intros [= <-]. simpl. unfold bindPeer. rw VerifyTLSPeerCN_spec. naive_solver.
  - destruct (peerVerifiedTransport peerID inner) as [verified'|]; [|done]. intros [= <-]. exact (IH _ eq_refl).
Qed.
End transports.

(** ** Addresses by kind *)

Section split.
Context (parseURL : string → option PeerURL) (isIP : string → bool).

Lemma splitDirectAddresses_sub addrs hostnames ipAddrs :
  splitDirectAddresses parseURL isIP addrs = (hostnames, ipAddrs) → hostnames ⊆ addrs ∧ ipAddrs ⊆ addrs.
Proof.
  revert hostnames ipAddrs. induction addrs as [|b addrs IH]; simpl; [by intros ? ? [= <- <-]|].
  destruct (splitDirectAddresses parseURL isIP addrs) as [hs ips]. destruct (IH hs ips eq_refl) as [Hh Hi].
  intros hostnames ipAddrs. destruct (parseURL b) as [u|]; [|intros [= <- <-]; set_solver].
  destruct (_ || _); [intros [= <- <-]; set_solver|]. destruct (isIP _); intros [= <- <-]; set_solver.
Qed.

Lemma splitDirectAddresses_sup addrs hostnames ipAddrs a u :
  splitDirectAddresses parseURL isIP addrs = (hostnames, ipAddrs) → a ∈ addrs →
  parseURL a = Some u → Scheme u ≠ "quic" → Hostname u ≠ "" →
  if isIP (Hostname u) then a ∈ ipAddrs else a ∈ hostnames.
Proof.
  intros Hs Hin Hu Hq Hh. revert hostnames ipAddrs Hs.
  induction addrs as [|b addrs IH]; simpl; intros hostnames ipAddrs; [set_solver|].
  apply elem_of_cons in Hin as [<-|Hin]; [clear IH|specialize (IH Hin); clear Hin].
  - destruct (splitDirectAddresses _ _ _) as [hs ips]. rw Hu !bool_decide_false //=.
    destruct (isIP _); intros [= <- <-]; set_solver.
  - destruct (splitDirectAddresses _ _ _) as [hs ips]. specialize (IH hs ips eq_refl).
    destruct (parseURL b) as [v|]; [|by intros [= <- <-]]. destruct (_ || _); [by intros [= <- <-]|].
    destruct (isIP (Hostname v)); intros [= <- <-]; case_match; set_solver.
Qed.
End split.

(** ** What the router relies on *)

Class RouteLaws {Cert W : Type} `{!RouteWorld Cert W} (connState : nat → @tlsState Cert) := {
  (** the sessions, punched and dialed connections are their peers' *)
  sound : W → Prop;
  sound_session w m p c :
    sound w → manager w = Some m → GetSession p m = Some c → PeerCNFromTLS (connState c) = Some p;
  sound_punch p addrs b w c w' :
    sound w → initiateHolePunch p addrs b w = ((Some c, None), w') → PeerCNFromTLS (connState c) = Some p;
  sound_turn p addrs b w c w' :
    sound w → dialTURN p addrs b w = (Ok c, w') → PeerCNFromTLS (connState c) = Some p;
  (** [crypto/tls]: a response only comes over a connection that the
      transport's [VerifyConnection] accepted *)
  sendHTTP_verified base addr req w resp w' :
    sendHTTP base addr req w = (Ok resp, w') → handshakePolicy base (RespTLS resp) = None;
  (** the network keeps the sessions sound *)
  base_sound req w : sound w → sound (baseRoundTrip req w).2;
  quic_sound c req w : sound w → sound (sendOverQUIC c req w).2;
  probe_sound addr w : sound w → sound (probe addr w).2;
  http_sound base addr req w : sound w → sound (sendHTTP base addr req w).2;
  punch_sound p addrs b w : sound w → sound (initiateHolePunch p addrs b w).2;
  turn_sound p addrs b w : sound w → sound (dialTURN p addrs b w).2;
  relay_sound addr req w : sound w → sound (forwardRelay addr req w).2;
  reqID_sound w : sound w → sound (newReqID w).2;
  drop_sound p w : sound w → sound (dropSession p w) }.

Section route_authentic.
Context {Cert W : Type} `{!RouteWorld Cert W} {connState : nat → @tlsState Cert} `{!RouteLaws connState}.
Context (parseURL : string → option PeerURL) (splitHostPort : string → option string) (isIP : string → bool).
Abbreviation Resp := (Response Cert).

(** In a sound world, a call keeps it sound and returns what [Q] says. *)
Definition ensures {A} (m : ST W A) (Q : A → Prop) : Prop :=
  hoare sound m (λ r w, sound w ∧ ∀ a, r = Ok a → Q a).

Lemma ensures_ret {A} (a : A) (Q : A → Prop) : Q a → ensures (mret a) Q.
Proof. intros HQ. apply hoare_ret. intros w Hw. split; [done|]. by intros ? [= <-]. Qed.
Lemma ensures_fail {A} e (Q : A → Prop) : ensures (fail e) Q.
Proof. apply hoare_fail. by intros w Hw. Qed.
Lemma ensures_bind {A B} (m : ST W A) (f : A → ST W B) (R : A → Prop) (Q : B → Prop) :
  ensures m R → (∀ a, R a → ensures (f a) Q) → ensures (m ≫= f) Q.
Proof.
  intros Hm Hf. eapply hoare_bind; [exact Hm| |by intros e w [Hw _]].
  intros a w r w' [Hw HR] Hrun. eapply (Hf a); [by apply HR|done|done].
Qed.
Lemma ensures_gets {A} (f : W → A) (Q : A → Prop) : (∀ w, sound w → Q (f w)) → ensures (gets f) Q.
Proof. intros HQ. apply hoare_gets. intros w Hw. split; [done|]. intros ? [= <-]. auto. Qed.
Lemma ensures_modify f : (∀ w, sound w → sound (f w)) → ensures (modify f) (λ _, True).
Proof. intros Hf. apply hoare_modify. intros w Hw. auto. Qed.
Lemma ensures_call {A} (f : W → A * W) (Q : A → Prop) :
  (∀ w, sound w → sound (f w).2) → (∀ w a w', sound w → f w = (a, w') → Q a) → ensures (call f) Q.
Proof.
  intros Hs HQ w r w' Hw. unfold call. destruct (f w) as [a w1] eqn:Hf. intros [= <- <-]. split.
  - specialize (Hs w Hw). by rw Hf in Hs.
  - intros ? [= <-]. by eapply HQ.
Qed.
Lemma ensures_mono {A} (m : ST W A) (R Q : A → Prop) : ensures m R → (∀ a, R a → Q a) → ensures m Q.
Proof. intros Hm HQ. eapply hoare_conseq; [exact Hm|done|]. intros r w [Hw HR]. split; [done|]. eauto. Qed.

(** The peer's answer to [clone] from an address. *)
Definition answered_at (base : option (transport Cert)) (clone : Request) (peerID addr : string) (resp : Resp) : Prop :=
  (∃ base' w w', sendHTTP base' addr clone w = (Ok resp, w')) ∧ handshakePolicy (orDefault base) (RespTLS resp) = None ∧
  ∃ c rest, RespTLS resp = Some ((peerID, c) :: rest).

Lemma roundTripPeerVerified_ensures base peerID addr clone :
  ensures (roundTripPeerVerified base peerID addr clone) (λ r, ∀ resp, r = Ok resp →
    (∃ base' w w', sendHTTP base' addr clone w = (Ok resp, w')) ∧ handshakePolicy (orDefault base) (RespTLS resp) = None).
Proof.
  assert (∀ t, ensures (match peerVerifiedTransport peerID t with
    | Err e => mret (Err e) | Ok verified => call (sendHTTP verified addr clone) end)
    (λ r, ∀ resp, r = Ok resp →
      (∃ base' w w', sendHTTP base' addr clone w = (Ok resp, w')) ∧ handshakePolicy t (RespTLS resp) = None)) as Hbound.
  { intros t. destruct (peerVerifiedTransport peerID t) as [t'|e] eqn:Hv; [|by apply ensures_ret].
    apply ensures_call; [intros; by apply http_sound|]. intros w a w' Hw Hs resp ->. split; [eauto|].
    apply sendHTTP_verified in Hs. by apply (peerVerifiedTransport_binds peerID t t' _ Hv) in Hs as [??]. }
  unfold roundTripPeerVerified. destruct (orDefault base) as [v|inner| |]; [apply Hbound..| |apply Hbound].
  apply ensures_call; [intros; by apply http_sound|]. intros w a w' Hw Hs resp ->. split; [eauto|].
  by apply sendHTTP_verified in Hs.
Qed.

Lemma dialDirect_ensures base clone peerID addr u :
  ensures (dialDirect base clone peerID addr u) (λ r, ∀ resp, r = Ok resp →
    Scheme u = "https" ∧ answered_at base clone peerID addr resp).
Proof.
  unfold dialDirect. case_bool_decide as Hs; [by apply ensures_ret|].
  eapply (ensures_bind _ _ (λ _, True)); [by apply ensures_call; [intros; by apply probe_sound|]|].
  intros [e|] _; [by apply ensures_ret|].
  eapply ensures_bind; [apply roundTripPeerVerified_ensures|]. intros [resp|e] Hr; [|by apply ensures_ret].
  apply ensures_ret. destruct (Hr resp eq_refl) as [Hsent Hpol].
  destruct (RespTLS resp) as [[|[cn c] rest]|] eqn:Htls; [done| |done]. unfold verifyPeerCNValue.
  case_bool_decide as Hcn; [done|]. intros ? [= <-]. subst cn.
  split; [done|]. rw -Htls in Hpol. rw /answered_at Htls. split_and!; [done| |by eauto]. by rw -Htls.
Qed.

(** The host is not that of the node's own address, unless the node itself is
    asked for. *)
Definition not_own (t : routeTable (Cert := Cert)) (peerID : string) (u : PeerURL) : Prop :=
  peerID ≠ rtNodeID t → rtOwnAddress t ≠ "" → ∀ own, parseURL (rtOwnAddress t) = Some own → Host u ≠ Host own.

Lemma isOwnAddress_not_own t peerID u :
  isOwnAddress parseURL splitHostPort u peerID (rtNodeID t) (rtOwnAddress t) = false → not_own t peerID u.
Proof.
  unfold isOwnAddress, not_own. intros H Hp Ho own Hown. rw !bool_decide_false //= in H. rw Hown in H.
  by apply orb_false_iff in H as [_ ?%bool_decide_eq_false].
Qed.

(** An address of the list that is not the node's own answered over HTTPS. *)
Definition direct_from (t : routeTable) (clone : Request) (peerID : string) (addrs : list string) (addr : string) (resp : Resp) : Prop :=
  addr ∈ addrs ∧ (∃ u, parseURL addr = Some u ∧ Scheme u = "https" ∧ not_own t peerID u) ∧
  answered_at (rtBase t) clone peerID addr resp.

Lemma tryDirectAddresses_ensures (t : routeTable) clone peerID addrs lastErr :
  ensures (tryDirectAddresses parseURL splitHostPort (rtBase t) clone peerID addrs (rtNodeID t) (rtOwnAddress t) lastErr)
    (λ r, ∀ resp addr, r.1 = Some (resp, addr) → direct_from t clone peerID addrs addr resp).
Proof.
  revert lastErr. induction addrs as [|a rest IH]; intros lastErr; cbn [tryDirectAddresses]; [by apply ensures_ret|].
  assert (∀ e, ensures (tryDirectAddresses parseURL splitHostPort (rtBase t) clone peerID rest (rtNodeID t) (rtOwnAddress t) e)
    (λ r, ∀ resp addr, r.1 = Some (resp, addr) → direct_from t clone peerID (a :: rest) addr resp)) as IH'.
  { intros e. eapply ensures_mono; [apply IH|]. intros r Hr resp addr Heq. destruct (Hr resp addr Heq) as (Hin & ? & ?).
    split_and!; [by apply list_elem_of_further|done|done]. }
  destruct (parseURL a) as [u|] eqn:Hu; [|apply IH']. destruct (_ || _) eqn:Hskip; [apply IH'|].
  destruct (resetRequestBody clone); [by apply ensures_ret|].
  eapply ensures_bind; [apply dialDirect_ensures|]. intros [resp|e] Hr; [|apply IH'].
  apply ensures_ret. intros ? ? [= <- <-]. destruct (Hr resp eq_refl) as [Hs Ha]. apply orb_false_iff in Hskip as [_ Hown].
  apply isOwnAddress_not_own in Hown. split_and!; [apply list_elem_of_here|eauto|done].
Qed.

(** An answer over a session of the peer. *)
Definition session_from (clone : Request) (peerID : string) (c : nat) (resp : Resp) : Prop :=
  PeerCNFromTLS (connState c) = Some peerID ∧ ∃ w w', sendOverQUIC c clone w = (Ok resp, w').

Lemma dropSession_ensures p : ensures (modify (dropSession p)) (λ _, True).
Proof. apply ensures_modify. intros. by apply drop_sound. Qed.

Lemma routeOverQUICSession_ensures peerID sess clone :
  (∀ c, sess = Some c → PeerCNFromTLS (connState c) = Some peerID) →
  ensures (routeOverQUICSession peerID sess clone) (λ r, ∀ resp c, r = Some (resp, c) → session_from clone peerID c resp).
Proof.
  intros Hsess. unfold routeOverQUICSession.
  assert (ensures (modify (dropSession peerID);; mret None)
    (λ r, ∀ resp c, r = Some (resp, c) → session_from clone peerID c resp)) as Hdrop.
  { eapply ensures_bind; [apply dropSession_ensures|]. intros _ _. by apply ensures_ret. }
  destruct (resetRequestBody clone); [exact Hdrop|]. destruct sess as [c|]; [|apply ensures_fail].
  eapply (ensures_bind _ _ (λ r, ∀ resp, r = Ok resp → session_from clone peerID c resp)).
  { apply ensures_call; [intros; by apply quic_sound|]. intros w a w' Hw Hs resp ->. split; eauto. }
  intros [resp|e] Hr; [|exact Hdrop].
  eapply (ensures_bind _ _ (λ _, True)); [case_match; [apply dropSession_ensures|by apply ensures_ret]|].
  intros _ _. apply ensures_ret. intros ? ? [= <- <-]. auto.
Qed.

Lemma tryExistingSession_ensures peerID clone :
  ensures (tryExistingSession peerID clone) (λ r, ∀ resp c, r = Some (resp, c) → session_from clone peerID c resp).
Proof.
  unfold tryExistingSession.
  eapply (ensures_bind _ _ (λ m : option QUICManager, ∀ c, m ≫= GetSession peerID = Some c → PeerCNFromTLS (connState c) = Some peerID)).
  { apply ensures_gets. intros w Hw c (m & Hm & Hc)%bind_Some. by eapply sound_session. }
  intros m Hm. destruct (m ≫= GetSession peerID) as [c|]; [|by apply ensures_ret].
  apply routeOverQUICSession_ensures. by intros ? [= <-]; apply Hm.
Qed.

Definition phase_from (clone : Request) (peerID : string) (ph : phase) : Prop :=
  match ph with Answered resp c => session_from clone peerID c resp | _ => True end.

Lemma routed_phase peerID sess clone e :
  (∀ c, sess = Some c → PeerCNFromTLS (connState c) = Some peerID) →
  ensures (r ← routeOverQUICSession peerID sess clone;
          mret (match r with Some (resp, c) => Answered resp c | None => Failed e end)) (phase_from clone peerID).
Proof.
  intros Hsess. eapply ensures_bind; [by apply routeOverQUICSession_ensures|].
  intros [[resp c]|] Hr; apply ensures_ret; [|done]. by apply Hr.
Qed.

Lemma tryHolePunchAndRoute_ensures clone peerID record sponsor :
  ensures (tryHolePunchAndRoute clone peerID record sponsor) (phase_from clone peerID).
Proof.
  unfold tryHolePunchAndRoute. eapply (ensures_bind _ _ (λ _, True)); [by apply ensures_gets|]. intros [m|] _; [|by apply ensures_ret].
  destruct (_ || _); [by apply ensures_ret|]. destruct (FirstQUICAddr _); [|by apply ensures_ret].
  eapply (ensures_bind _ _ (λ _, True)); [by apply ensures_gets|]. intros l _.
  destruct (phaseBudget l _) as [b|]; [|by apply ensures_ret].
  eapply (ensures_bind _ _ (λ o, ∀ c, o = (Some c, None) → PeerCNFromTLS (connState c) = Some peerID)).
  { apply ensures_call; [intros; by apply punch_sound|]. intros w a w' Hw Hp c ->. by eapply sound_punch. }
  intros [sess [e|]] Ho; simpl; [by apply ensures_ret|]. apply routed_phase. intros c ->. by apply Ho.
Qed.

Lemma tryTURNDial_ensures clone peerID record : ensures (tryTURNDial clone peerID record) (phase_from clone peerID).
Proof.
  unfold tryTURNDial. eapply (ensures_bind _ _ (λ _, True)); [by apply ensures_gets|]. intros m _.
  eapply (ensures_bind _ _ (λ _, True)); [by apply ensures_gets|]. intros turn _.
  destruct (_ || _); [by apply ensures_ret|]. destruct (FirstQUICAddr _); [|by apply ensures_ret].
  eapply (ensures_bind _ _ (λ _, True)); [by apply ensures_gets|]. intros l _.
  destruct (phaseBudget l _) as [b|]; [|by apply ensures_ret].
  eapply (ensures_bind _ _ (λ r, ∀ c, r = Ok c → PeerCNFromTLS (connState c) = Some peerID)).
  { apply ensures_call; [intros; by apply turn_sound|]. intros w a w' Hw Hp c ->. by eapply sound_turn. }
  intros [c|e] Hr; [|by apply ensures_ret]. apply routed_phase. intros ? [= <-]. by apply Hr.
Qed.

(** The content a request carries once its body is buffered. *)
Definition contentOf (clone : Request) : string := match ReqBody clone with Replay (Ok c) => c | _ => "" end.

(** The sponsor's answer to the request, addressed to the peer. *)
Definition relayed_from (clone : Request) (peerID sponsor : string) (rr : RelayResponse) : Prop :=
  relayCapExceeded (byteLen (contentOf clone)) = false ∧
  ∃ rl w w', forwardRelay sponsor rl w = (Ok rr, w') ∧ RlTarget rl = peerID ∧ RlMethod rl = ReqMethod clone ∧
    RlPath rl = ReqPath clone ∧ RlBody rl = contentOf clone.

Lemma tryRelay_ensures clone peerID sponsor :
  ensures (tryRelay clone peerID sponsor) (λ r, ∀ rr, r = RelayAnswered rr → relayed_from clone peerID sponsor rr).
Proof.
  unfold tryRelay. destruct (resetRequestBody clone); [by apply ensures_ret|].
  eapply (ensures_bind _ _ (λ _, True)); [apply ensures_call; [intros; by apply reqID_sound|done]|]. intros id _.
  fold (contentOf clone). destruct (relayCapExceeded _) eqn:Hcap; [by apply ensures_ret|].
  eapply (ensures_bind _ _ (λ r, ∀ rr, r = Ok rr → relayed_from clone peerID sponsor rr)).
  { apply ensures_call; [intros; by apply relay_sound|]. intros w a w' Hw Hf rr ->. split; [done|]. by eexists _, w, w'. }
  intros [rr|e] Hr; apply ensures_ret; [|done]. intros ? [= <-]. auto.
Qed.

(** The peer is not the sponsor, as far as its record tells: it is not marked
    so, and none of its addresses has the sponsor's host. *)
Definition not_sponsor (record : AddressRecord) (sponsorAddr : string) : Prop :=
  IsSponsor record = false ∧
  ∀ sponsor raw u, parseURL sponsorAddr = Some sponsor → raw ∈ Addresses record → parseURL raw = Some u → Host u ≠ Host sponsor.

Lemma isSponsorPeer_not_sponsor record sponsorAddr :
  sponsorAddr ≠ "" → isSponsorPeer parseURL record sponsorAddr = false → not_sponsor record sponsorAddr.
Proof.
  unfold isSponsorPeer. intros Hne. destruct (IsSponsor record) eqn:Hmark; [done|]. rw bool_decide_false //. intros H. split; [done|].
  intros sponsor raw u Hs Hin Hu Heq. rw Hs in H. apply not_true_iff_false in H. apply H. apply existsb_exists.
  exists raw. split; [by apply list_elem_of_In|]. rw Hu. by apply bool_decide_eq_true.
Qed.

(** Where a response to [clone] came from. *)
Definition route_authentic (t : routeTable) (clone : Request) (peerID : string) (record : AddressRecord) (rv : Resp * via) : Prop :=
  match rv.2 with
  | ViaBase => False
  | ViaSession c => session_from clone peerID c rv.1
  | ViaDirect addr => direct_from t clone peerID (Addresses record) addr rv.1
  | ViaRelay =>
      rtSponsor t ≠ "" ∧ not_sponsor record (rtSponsor t) ∧
      ∃ rr, rv.1 = ToHTTPResponse rr ∧ relayed_from clone peerID (rtSponsor t) rr
  end.

Lemma tryIPs_ensures t clone peerID record hostnames ipAddrs lastErr :
  splitDirectAddresses parseURL isIP (Addresses record) = (hostnames, ipAddrs) →
  ensures (tryIPs parseURL splitHostPort t clone peerID ipAddrs lastErr)
    (λ r, ∀ rv, r = Ok rv → route_authentic t clone peerID record rv).
Proof.
  intros [_ Hsub]%splitDirectAddresses_sub. unfold tryIPs. eapply ensures_bind; [apply tryDirectAddresses_ensures|].
  intros [[[resp addr]|] e] Hr; apply ensures_ret; [|done]. intros ? [= <-].
  destruct (Hr resp addr eq_refl) as (Hin & ? & ?). split_and!; [by apply Hsub|done|done].
Qed.

Lemma relayOrIPs_ensures t clone peerID record hostnames ipAddrs lastErr :
  splitDirectAddresses parseURL isIP (Addresses record) = (hostnames, ipAddrs) →
  ensures (relayOrIPs parseURL splitHostPort t clone peerID record ipAddrs lastErr)
    (λ r, ∀ rv, r = Ok rv → route_authentic t clone peerID record rv).
Proof.
  intros Hsplit. unfold relayOrIPs. destruct (_ && _) eqn:Hsp; [|by eapply tryIPs_ensures].
  apply andb_true_iff in Hsp as [Hsp%bool_decide_eq_true Hself%negb_true_iff].
  eapply ensures_bind; [apply tryRelay_ensures|]. intros [rr|e|e] Hr; [|by apply ensures_ret|by eapply tryIPs_ensures].
  apply ensures_ret. intros ? [= <-]. split_and!; [done|by apply isSponsorPeer_not_sponsor|]. exists rr. auto.
Qed.

Lemma orElse_ensures ph t clone peerID record lastErr next :
  phase_from clone peerID ph →
  (∀ e, ensures (next e) (λ r, ∀ rv, r = Ok rv → route_authentic t clone peerID record rv)) →
  ensures (orElse ph lastErr next) (λ r, ∀ rv, r = Ok rv → route_authentic t clone peerID record rv).
Proof. intros Hph Hn. destruct ph; [apply Hn..|]. apply ensures_ret. by intros ? [= <-]. Qed.

Lemma routePeer_ensures t clone peerID record :
  ensures (routePeer parseURL splitHostPort isIP t clone peerID record)
    (λ r, ∀ rv, r = Ok rv → route_authentic t clone peerID record rv).
Proof.
  unfold routePeer. eapply ensures_bind; [apply tryExistingSession_ensures|].
  intros [[resp c]|] Hr; [apply ensures_ret; intros ? [= <-]; by apply Hr|clear Hr].
  destruct (splitDirectAddresses parseURL isIP (Addresses record)) as [hostnames ipAddrs] eqn:Hsplit.
  eapply ensures_bind; [apply tryDirectAddresses_ensures|]. intros [[[resp addr]|] lastErr] Hr.
  { apply ensures_ret. intros ? [= <-]. destruct (Hr resp addr eq_refl) as (Hin & ? & ?).
    apply splitDirectAddresses_sub in Hsplit as [Hsub _]. split_and!; [by apply Hsub|done|done]. }
  eapply ensures_bind; [apply tryHolePunchAndRoute_ensures|]. intros punched Hp. apply orElse_ensures; [done|]. intros e.
  eapply ensures_bind; [apply tryTURNDial_ensures|]. intros turned Ht. apply orElse_ensures; [done|]. intros e'.
  by eapply relayOrIPs_ensures.
Qed.

(** Where the response of a successful [RoundTrip] came from. *)
Lemma RoundTrip_sources t req w resp v w' :
  sound w →
  RoundTrip parseURL splitHostPort isIP t req w = (Ok (Ok (resp, v)), w') →
  sound w' ∧
  match ParsePeerLocalHost (ReqHostname req) with
  | None => v = ViaBase ∧ ∃ w1 w2, baseRoundTrip req w1 = (Ok resp, w2)
  | Some peerID => ∃ record clone,
      resolveRoute t peerID = Some record ∧ bufferRequestBody req = Ok clone ∧
      route_authentic t clone peerID record (resp, v)
  end.
Proof.
  intros Hw. unfold RoundTrip. destruct (ParsePeerLocalHost _) as [peerID|].
  - destruct (resolveRoute t peerID) as [record|]; [|done]. destruct (bufferRequestBody req) as [clone|]; [|done].
    intros Hrun. destruct (routePeer_ensures t clone peerID record w _ w' Hw Hrun) as [Hw' Ha].
    split; [done|]. exists record, clone. split_and!; [done|done|]. by apply (Ha (Ok (resp, v))).
  - assert (ensures (r ← call (baseRoundTrip req); mret (match r with Ok resp => Ok (resp, ViaBase) | Err e => Err e end))
      (λ r, ∀ rv, r = Ok rv → rv.2 = ViaBase ∧ ∃ w1 w2, baseRoundTrip req w1 = (Ok rv.1, w2))) as Hb.
    { eapply (ensures_bind _ _ (λ r, ∀ resp, r = Ok resp → ∃ w1 w2, baseRoundTrip req w1 = (Ok resp, w2))).
      - apply ensures_call; [intros; by apply base_sound|]. intros w1 a w2 _ Hc resp' ->. eauto.
      - intros [resp'|] Hr; apply ensures_ret; [|done]. intros ? [= <-]. eauto. }
    intros Hrun. destruct (Hb w _ w' Hw Hrun) as [Hw' Hr]. split; [done|]. exact (Hr _ eq_refl _ eq_refl).
Qed.
End route_authentic.

(** ** The sessions discharge it *)

(** A world whose session manager, if it has one, is that of a state of
    [QuicLaws]: every call of the network is a run of its steps, whatever
    happens meanwhile; a hole punch that brings a session ended in that state,
    and a dial through TURN is one of [finishDial]. *)
Class QuicBacked {Cert W : Type} `{!RouteWorld Cert W} (connState : nat → @tlsState Cert) (exportKey : nat → option string)
    (ctxErr : error → bool) := {
  quicOf : W → quic;
  evolves w w' := rtc (quic_step connState exportKey ctxErr) (quicOf w) (quicOf w');
  manager_quic w m : manager w = Some m → m = qm (quicOf w);
  base_evolves req w : evolves w (baseRoundTrip req w).2;
  quic_evolves c req w : evolves w (sendOverQUIC c req w).2;
  probe_evolves addr w : evolves w (probe addr w).2;
  http_evolves base addr req w : evolves w (sendHTTP base addr req w).2;
  punch_evolves p addrs b w : evolves w (initiateHolePunch p addrs b w).2;
  turn_evolves p addrs b w : evolves w (dialTURN p addrs b w).2;
  relay_evolves addr req w : evolves w (forwardRelay addr req w).2;
  reqID_evolves w : evolves w (newReqID w).2;
  drop_evolves p w : evolves w (dropSession p w);
  punch_ends p addrs b w c w' :
    initiateHolePunch p addrs b w = ((Some c, None), w') → ∃ i, punches (quicOf w') !! i = Some (PDone p (Some c, None));
  turn_ends p addrs b w c w' :
    dialTURN p addrs b w = (Ok c, w') → ∃ g dialed m m', finishDial connState p g dialed m = (Ok c, m');
  (** [crypto/tls]: a response only comes over a connection that the
      transport's [VerifyConnection] accepted *)
  https_verified base addr req w resp w' :
    sendHTTP base addr req w = (Ok resp, w') → handshakePolicy base (RespTLS resp) = None }.

Section backed.
Context {Cert W : Type} `{!RouteWorld Cert W}.
Context {connState : nat → @tlsState Cert} {exportKey : nat → option string} {ctxErr : error → bool}.
Context `{!QuicBacked connState exportKey ctxErr}.
(** Two connections do not export the same key material. *)
Context (exportKey_inj : ∀ c c' k, exportKey c = Some k → exportKey c' = Some k → c = c').
(** The manager as it was made. *)
Context (m0 : QUICManager) (m0_unused : unused m0).

Definition made_from (w : W) : Prop := quic_reachable connState exportKey ctxErr m0 (quicOf w).

Lemma made_inv w : made_from w → quic_inv connState exportKey (quicOf w).
Proof using exportKey_inj m0_unused. intros Hw. by eapply quic_reachable_inv. Qed.

Lemma finishDial_peer p g dialed m c m' : finishDial connState p g dialed m = (Ok c, m') → PeerCNFromTLS (connState c) = Some p.
Proof.
  unfold finishDial. destruct dialed as [c'|]; [|done]. destruct (VerifyTLSPeerCN _ _) eqn:Hv; [done|].
  apply VerifyTLSPeerCN_spec in Hv. destruct (publishOrClose _ _ _ _) as [[] ?]; intros; by simplify_eq.
Qed.

Definition quic_route_laws : RouteLaws connState.
Proof using exportKey_inj m0_unused QuicBacked0.
  refine {| sound := made_from; sendHTTP_verified := https_verified |}.
  - intros w m p c Hw ->%manager_quic Hc. by apply (mo_sessions _ _ _ _ _ (qi_mgr _ _ _ (made_inv w Hw)) p c).
  - intros p addrs b w c w' Hw Hp. pose proof (punch_evolves p addrs b w) as He. rw Hp in He.
    destruct (punch_ends p addrs b w c w' Hp) as [i Hi].
    assert (made_from w') as Hw' by (unfold made_from, quic_reachable in *; by etrans).
    by apply (qi_punches _ _ _ (made_inv w' Hw') _ _ Hi c).
  - intros p addrs b w c w' _ (g & dialed & m & m' & Hf)%turn_ends. by eapply finishDial_peer.
  - intros req w Hw. unfold made_from, quic_reachable in *. etrans; [exact Hw|apply base_evolves].
  - intros c req w Hw. unfold made_from, quic_reachable in *. etrans; [exact Hw|apply quic_evolves].
  - intros addr w Hw. unfold made_from, quic_reachable in *. etrans; [exact Hw|apply probe_evolves].
  - intros base addr req w Hw. unfold made_from, quic_reachable in *. etrans; [exact Hw|apply http_evolves].
  - intros p addrs b w Hw. unfold made_from, quic_reachable in *. etrans; [exact Hw|apply punch_evolves].
  - intros p addrs b w Hw. unfold made_from, quic_reachable in *. etrans; [exact Hw|apply turn_evolves].
  - intros addr req w Hw. unfold made_from, quic_reachable in *. etrans; [exact Hw|apply relay_evolves].
  - intros w Hw. unfold made_from, quic_reachable in *. etrans; [exact Hw|apply reqID_evolves].
  - intros p w Hw. unfold made_from, quic_reachable in *. etrans; [exact Hw|apply drop_evolves].
Defined.

Context (parseURL : string → option PeerURL) (splitHostPort : string → option string) (isIP : string → bool).

(** C20: where the session manager has only run the steps of [QuicLaws] since
    it was made, and TLS answers only over connections that the transport's
    policy accepts, a response that [RoundTrip] returns for a peer came from
    that peer or from the sponsor's relay: over a session whose certificate
    names the peer; or over HTTPS from an address of the peer's record, whose
    host is not that of the node's own address (unless the node asked for
    itself), on a connection whose certificate names the peer and satisfies
    the transport's policy; or as the sponsor's answer to this request
    addressed to this peer, when the body is within the relay's limit and the
    peer's record neither is marked as the sponsor's nor has an address at the
    sponsor's host.  Other hosts go to the transport below. *)
Theorem RoundTrip_authentic t req w resp v w' :
  made_from w →
  RoundTrip parseURL splitHostPort isIP t req w = (Ok (Ok (resp, v)), w') →
  made_from w' ∧
  match ParsePeerLocalHost (ReqHostname req) with
  | None => v = ViaBase ∧ ∃ w1 w2, baseRoundTrip req w1 = (Ok resp, w2)
  | Some peerID => ∃ record clone,
      resolveRoute t peerID = Some record ∧ bufferRequestBody req = Ok clone ∧
      route_authentic (connState := connState) parseURL t clone peerID record (resp, v)
  end.
Proof using exportKey_inj m0_unused QuicBacked0.
  exact (RoundTrip_sources (RouteLaws0 := quic_route_laws) parseURL splitHostPort isIP t req w resp v w').
Qed.
End backed.

(** *** An instance *)

(** A world whose sessions are those of [Quic]: a hole punch runs its steps
    interleaved with [simEvents], a dial through TURN brings [simDial]; web
    servers and session ends answer as the arguments say. *)
Record netsim := { simManaged : bool; simQuic : quic; simEvents : list quic_action; simDial : res nat; simTURN : bool }.

Definition sim_quic (s : quic) (w : netsim) : netsim :=
  {| simManaged := simManaged w; simQuic := s; simEvents := simEvents w; simDial := simDial w; simTURN := simTURN w |}.

Section simulation.
Context {Cert : Type} (connState : nat → @tlsState Cert) (exportKey : nat → option string) (ctxErr : error → bool).
Context (servers : string → option (Response Cert)) (ends : nat → Request → res (Response Cert))
  (relays : RelayRequest → res RelayResponse).

Definition sim_punch (peerID : string) (w : netsim) : dialOutcome * netsim :=
  let s := simQuic w in
  let i := fresh (dom (punches s)) in
  match foldl (λ o a, o ≫= quic_act connState exportKey ctxErr a) (Some s) (QPunch i peerID :: simEvents w) with
  | Some s' =>
      (match punches s' !! i with
       | Some (PDone p o) => if bool_decide (p = peerID) then o else (None, Some (EMsg "context"))
       | _ => (None, Some (EMsg "context"))
       end, sim_quic s' w)
  | None => ((None, Some (EMsg "context")), w)
  end.

Definition sim_turn (peerID : string) (w : netsim) : res nat * netsim :=
  let s := simQuic w in
  match startDial (qm s) with
  | inr e => (Err e, w)
  | inl g =>
      if match simDial w with Ok c => bool_decide (c ∈ known s) | Err _ => false end then (Err (EMsg "dial"), w)
      else
        let '(r, m) := finishDial connState peerID g (simDial w) (qm s) in
        (r, sim_quic (dialedConn g (simDial w) (with_qm m s)) w)
  end.

#[export] Instance netsim_world : RouteWorld Cert netsim := {
  baseRoundTrip _ w := (Err (EMsg "base"), w);
  sendOverQUIC c req w := (ends c req, w);
  probe addr w := (if servers addr is Some _ then None else Some (EMsg "refused"), w);
  sendHTTP base addr _ w :=
    (match servers addr with
     | None => Err (EMsg "refused")
     | Some resp => match handshakePolicy base (RespTLS resp) with Some e => Err e | None => Ok resp end
     end, w);
  initiateHolePunch peerID _ _ := sim_punch peerID;
  dialTURN peerID _ _ := sim_turn peerID;
  forwardRelay _ req w := (relays req, w);
  newReqID w := ("1", w);
  manager w := if simManaged w then Some (qm (simQuic w)) else None;
  dropSession p w := sim_quic (with_qm (CloseAndRemoveSession p (qm (simQuic w))) (simQuic w)) w;
  hasTURN := simTURN;
  timeLeft _ := None }.

Lemma quic_acts_rtc script s s' :
  foldl (λ o a, o ≫= quic_act connState exportKey ctxErr a) (Some s) script = Some s' → rtc (quic_step connState exportKey ctxErr) s s'.
Proof.
  revert s'. induction script as [|a script IH] using rev_ind; intros s'; [intros [= <-]; apply rtc_refl|].
  rw foldl_app /=. intros (s1 & Hs1 & Hact)%bind_Some. eapply rtc_r; [by apply IH|by eapply quic_act_step].
Qed.

Lemma sim_punch_runs peerID w : rtc (quic_step connState exportKey ctxErr) (simQuic w) (simQuic (sim_punch peerID w).2).
Proof. unfold sim_punch. destruct (foldl _ _ _) as [s'|] eqn:Hrun; [by apply quic_acts_rtc in Hrun|apply rtc_refl]. Qed.

Lemma sim_punch_ends peerID w c w' :
  sim_punch peerID w = ((Some c, None), w') → ∃ i, punches (simQuic w') !! i = Some (PDone peerID (Some c, None)).
Proof.
  unfold sim_punch. destruct (foldl _ _ _) as [s'|]; [|done]. intros [= Ho <-]. simpl.
  destruct (punches s' !! _) as [pc|] eqn:Hi; [|done]. destruct pc as [| | | | | | |p o]; try done.
  case_bool_decide; [|done]. subst. by eexists.
Qed.

Lemma sim_turn_runs peerID w : rtc (quic_step connState exportKey ctxErr) (simQuic w) (simQuic (sim_turn peerID w).2).
Proof.
  unfold sim_turn. destruct (startDial (qm (simQuic w))) as [g|e] eqn:Hg; [|apply rtc_refl].
  destruct (match simDial w with Ok c => _ | Err _ => _ end) eqn:Hnew; [apply rtc_refl|].
  destruct (finishDial connState peerID g (simDial w) (qm (simQuic w))) as [r' m'] eqn:Hf. simpl.
  set (s := simQuic w) in *. set (i := fresh (dom (turnDials s))).
  assert (turnDials s !! i = None) as Hi by (apply not_elem_of_dom, is_fresh).
  eapply rtc_l; [by apply (q_turn _ _ _ s i peerID g Hi)|]. apply rtc_once.
  eapply eq_ind; [eapply (q_turn_dialed _ _ _ _ i peerID g (simDial w) r' m'); simpl; [by rw lookup_insert_eq| |done]|].
  - unfold newConn. destruct (simDial w); [|done]. by apply bool_decide_eq_false in Hnew.
  - simpl. rw delete_insert_id //.
Qed.

#[export] Instance netsim_backed : QuicBacked (W := netsim) connState exportKey ctxErr.
Proof.
  refine {| quicOf := simQuic |}; try (intros; apply rtc_refl).
  - intros w m. simpl. destruct (simManaged w); [|done]. by intros [= <-].
  - intros p addrs b w. apply sim_punch_runs.
  - intros p addrs b w. apply sim_turn_runs.
  - intros p w. apply rtc_once, q_remove.
  - intros p addrs b w c w'. apply sim_punch_ends.
  - intros p addrs b w c w'. simpl. unfold sim_turn. destruct (startDial _) as [g|]; [|done].
    destruct (match simDial w with Ok c => _ | Err _ => _ end); [done|].
    destruct (finishDial _ _ _ _ _) as [r m'] eqn:Hf. intros [= -> _]. by eexists _, _, _, _.
  - intros base addr req w resp w'. simpl. destruct (servers addr) as [resp'|]; [|done].
    destruct (handshakePolicy _ _) eqn:Hp; [done|]. by intros [= <- <-].
Defined.
End simulation.

(** ** A peer that answers is reached *)

Section reach.
Context {Cert W : Type} `{!RouteWorld Cert W}.
Context (parseURL : string → option PeerURL) (splitHostPort : string → option string).

(** From every state a call ends normally with a value of [Q]. *)
Definition delivers {A} (m : ST W A) (Q : A → Prop) : Prop := ∀ w, ∃ a w', m w = (Ok a, w') ∧ Q a.

Lemma delivers_ret {A} (a : A) (Q : A → Prop) : Q a → delivers (mret a) Q.
Proof. intros HQ w. by exists a, w. Qed.
Lemma delivers_bind {A B} (m : ST W A) (f : A → ST W B) (R : A → Prop) (Q : B → Prop) :
  delivers m R → (∀ a, R a → delivers (f a) Q) → delivers (m ≫= f) Q.
Proof.
  intros Hm Hf w. destruct (Hm w) as (a & w1 & Hw1 & HR). destruct (Hf a HR w1) as (b & w2 & Hw2 & HQ).
  exists b, w2. unfold mbind, st_bind. by rw Hw1.
Qed.
Lemma delivers_call {A} (f : W → A * W) (Q : A → Prop) : (∀ w, Q (f w).1) → delivers (call f) Q.
Proof. intros HQ w. exists (f w).1, (f w).2. unfold call. split; [by destruct (f w)|done]. Qed.
Lemma delivers_gets {A} (f : W → A) (Q : A → Prop) : (∀ w, Q (f w)) → delivers (gets f) Q.
Proof. intros HQ w. by exists (f w), w. Qed.
Lemma delivers_modify f : delivers (modify f) (λ _, True).
Proof. intros w. by exists (), (f w). Qed.
Lemma delivers_mono {A} (m : ST W A) (R Q : A → Prop) : delivers m R → (∀ a, R a → Q a) → delivers m Q.
Proof. intros Hm HQ w. destruct (Hm w) as (a & w' & ? & ?). eauto. Qed.

(** The address accepts a probe and answers, with the peer's certificate. *)
Definition answers (base : option (transport Cert)) (clone : Request) (peerID addr : string) : Prop :=
  (∀ w, (probe addr w).1 = None) ∧
  delivers (roundTripPeerVerified base peerID addr clone)
    (λ r, ∃ resp c rest, r = Ok resp ∧ RespTLS resp = Some ((peerID, c) :: rest)).

Lemma dialDirect_answers base clone peerID addr u :
  Scheme u = "https" → answers base clone peerID addr →
  delivers (dialDirect base clone peerID addr u) (λ r, ∃ resp, r = Ok resp).
Proof.
  intros Hs [Hprobe Hrt]. unfold dialDirect. rw bool_decide_false; [|naive_solver].
  eapply (delivers_bind _ _ (λ e, e = None)); [by apply delivers_call|]. intros ? ->.
  eapply delivers_bind; [exact Hrt|]. intros ? (resp & c & rest & -> & Htls). apply delivers_ret. rw Htls /=.
  unfold verifyPeerCNValue. rw bool_decide_false; [by eauto|naive_solver].
Qed.

Lemma roundTripPeerVerified_ends base peerID addr clone :
  delivers (roundTripPeerVerified base peerID addr clone) (λ _, True).
Proof.
  unfold roundTripPeerVerified. destruct (orDefault base); try (case_match; [by apply delivers_call|by apply delivers_ret]).
  by apply delivers_call.
Qed.

Lemma dialDirect_ends base clone peerID addr u : delivers (dialDirect base clone peerID addr u) (λ _, True).
Proof.
  unfold dialDirect. case_bool_decide; [by apply delivers_ret|].
  eapply (delivers_bind _ _ (λ _, True)); [by apply delivers_call|]. intros [e|] _; [by apply delivers_ret|].
  eapply delivers_bind; [apply roundTripPeerVerified_ends|]. intros r _. by apply delivers_ret.
Qed.

Section peer.
Context (t : routeTable (Cert := Cert)) (clone : Request) (peerID : string) (record : AddressRecord).
Context (Hbody : resetRequestBody clone = None).

(** The address [addr] is usable and answers. *)
Definition answering (addr : string) (u : PeerURL) : Prop :=
  parseURL addr = Some u ∧ Scheme u = "https" ∧
  isOwnAddress parseURL splitHostPort u peerID (rtNodeID t) (rtOwnAddress t) = false ∧
  answers (rtBase t) clone peerID addr.

Lemma tryDirectAddresses_ends addrs lastErr :
  delivers (tryDirectAddresses parseURL splitHostPort (rtBase t) clone peerID addrs (rtNodeID t) (rtOwnAddress t) lastErr)
    (λ r, (∃ addr u, addr ∈ addrs ∧ answering addr u) → ∃ resp addr, r.1 = Some (resp, addr)).
Proof.
  revert lastErr. induction addrs as [|a rest IH]; intros lastErr; cbn [tryDirectAddresses].
  { apply delivers_ret. intros (addr & u & Hin & _). set_solver. }
  assert (∀ e, (∀ u, ¬ answering a u) →
    delivers (tryDirectAddresses parseURL splitHostPort (rtBase t) clone peerID rest (rtNodeID t) (rtOwnAddress t) e)
    (λ r, (∃ addr u, addr ∈ a :: rest ∧ answering addr u) → ∃ resp addr, r.1 = Some (resp, addr))) as Hskip.
  { intros e Hbad. eapply delivers_mono; [apply IH|]. intros r Hr (addr & u & [->|Hin]%elem_of_cons & Hg); [by destruct (Hbad u)|].
    apply Hr. eauto. }
  destruct (parseURL a) as [u|] eqn:Hu; [|apply Hskip; intros u [? _]; congruence].
  destruct (_ || _) eqn:Hown.
  { apply Hskip. intros u' (Hu' & Hs & Ho & _). simplify_eq. rw Ho orb_false_r in Hown. apply bool_decide_eq_true in Hown. congruence. }
  rw Hbody. intros w. destruct (dialDirect_ends (rtBase t) clone peerID a u w) as (r & w1 & Hw1 & _).
  unfold mbind, st_bind. rw Hw1. destruct r as [resp|e]; [by eexists _, w1; split; [done|]; eauto|].
  apply Hskip. intros u' (Hu' & Hs & _ & Ha). simplify_eq.
  destruct (dialDirect_answers (rtBase t) clone peerID a u Hs Ha w) as (r & w2 & Hw2 & resp & ->). congruence.
Qed.

(** Hole punches that succeed bring a session. *)
Context (Hpunch : ∀ p addrs b w, (initiateHolePunch p addrs b w).1 ≠ (None, None)).

Lemma routeOverQUICSession_ends sess : sess ≠ None → delivers (routeOverQUICSession peerID sess clone) (λ _, True).
Proof.
  intros Hs. unfold routeOverQUICSession. rw Hbody. destruct sess as [c|]; [|done].
  eapply (delivers_bind _ _ (λ _, True)); [by apply delivers_call|]. intros [resp|e] _.
  - eapply delivers_bind; [case_match; [apply delivers_modify|by apply delivers_ret]|]. intros _ _. by apply delivers_ret.
  - eapply delivers_bind; [apply delivers_modify|]. intros _ _. by apply delivers_ret.
Qed.

Lemma tryHolePunchAndRoute_ends : delivers (tryHolePunchAndRoute clone peerID record (rtSponsor t)) (λ _, True).
Proof.
  unfold tryHolePunchAndRoute. eapply (delivers_bind _ _ (λ _, True)); [by apply delivers_gets|].
  intros [m|] _; [|by apply delivers_ret]. destruct (_ || _); [by apply delivers_ret|].
  destruct (FirstQUICAddr _); [|by apply delivers_ret].
  eapply (delivers_bind _ _ (λ _, True)); [by apply delivers_gets|]. intros l _. destruct (phaseBudget l _) as [b|]; [|by apply delivers_ret].
  eapply (delivers_bind _ _ (λ o, o ≠ (None, None))); [apply delivers_call; intros w; apply Hpunch|].
  intros [sess [e|]] Ho; simpl; [by apply delivers_ret|].
  eapply delivers_bind; [apply routeOverQUICSession_ends; naive_solver|]. intros r _. by apply delivers_ret.
Qed.

Lemma tryTURNDial_ends : delivers (tryTURNDial clone peerID record) (λ _, True).
Proof.
  unfold tryTURNDial. eapply (delivers_bind _ _ (λ _, True)); [by apply delivers_gets|]. intros m _.
  eapply (delivers_bind _ _ (λ _, True)); [by apply delivers_gets|]. intros turn _.
  destruct (_ || _); [by apply delivers_ret|]. destruct (FirstQUICAddr _); [|by apply delivers_ret].
  eapply (delivers_bind _ _ (λ _, True)); [by apply delivers_gets|]. intros l _. destruct (phaseBudget l _) as [b|]; [|by apply delivers_ret].
  eapply (delivers_bind _ _ (λ _, True)); [by apply delivers_call|]. intros [c|e] _; [|by apply delivers_ret].
  eapply delivers_bind; [by apply routeOverQUICSession_ends|]. intros r _. by apply delivers_ret.
Qed.

Lemma tryRelay_ends sponsor :
  delivers (tryRelay clone peerID sponsor)
    (λ r, ∀ e, r = RelayTooLarge e → relayCapExceeded (byteLen (contentOf clone)) = true).
Proof.
  unfold tryRelay. rw Hbody. eapply (delivers_bind _ _ (λ _, True)); [by apply delivers_call|]. intros id _.
  fold (contentOf clone). destruct (relayCapExceeded _); [by apply delivers_ret|].
  eapply (delivers_bind _ _ (λ _, True)); [by apply delivers_call|]. intros [rr|e] _; by apply delivers_ret.
Qed.
Lemma tryIPs_reaches ipAddrs lastErr :
  (∃ addr u, addr ∈ ipAddrs ∧ answering addr u) →
  delivers (tryIPs parseURL splitHostPort t clone peerID ipAddrs lastErr) (λ r, ∃ rv, r = Ok rv).
Proof.
  intros Hg. unfold tryIPs. eapply delivers_bind; [apply tryDirectAddresses_ends|].
  intros [o e] Hr. destruct (Hr Hg) as (resp & addr & Ho). simpl in Ho. subst o. apply delivers_ret. eauto.
Qed.

(** The relay does not end the request: there is none for this peer, or it
    takes the body. *)
Definition relayPasses : Prop :=
  rtSponsor t = "" ∨ isSponsorPeer parseURL record (rtSponsor t) = true ∨
  relayCapExceeded (byteLen (contentOf clone)) = false.

Lemma relayOrIPs_reaches ipAddrs lastErr :
  relayPasses → (∃ addr u, addr ∈ ipAddrs ∧ answering addr u) →
  delivers (relayOrIPs parseURL splitHostPort t clone peerID record ipAddrs lastErr) (λ r, ∃ rv, r = Ok rv).
Proof.
  intros Hp Hg. unfold relayOrIPs. destruct (_ && _) eqn:Hsp; [|by apply tryIPs_reaches].
  apply andb_true_iff in Hsp as [Hsp%bool_decide_eq_true Hself%negb_true_iff].
  eapply delivers_bind; [apply tryRelay_ends|]. intros [rr|e|e] Hr; [apply delivers_ret; eauto| |by apply tryIPs_reaches].
  destruct Hp as [|[|Hcap]]; [done|congruence|]. rw (Hr e eq_refl) in Hcap. done.
Qed.

Lemma orElse_reaches ph lastErr next :
  (∀ e, delivers (next e) (λ r, ∃ rv, r = Ok rv)) → delivers (orElse (W := W) ph lastErr next) (λ r : res (Response Cert * via), ∃ rv, r = Ok rv).
Proof. intros Hn. destruct ph; [apply Hn..|]. apply delivers_ret. eauto. Qed.

Lemma routePeer_reaches isIP addr u :
  addr ∈ Addresses record → Hostname u ≠ "" → answering addr u → (isIP (Hostname u) = true → relayPasses) →
  delivers (routePeer parseURL splitHostPort isIP t clone peerID record) (λ r, ∃ rv, r = Ok rv).
Proof.
  intros Hin Hh Hg Hrelay. unfold routePeer. eapply (delivers_bind _ _ (λ _, True)).
  { unfold tryExistingSession. eapply (delivers_bind _ _ (λ _, True)); [by apply delivers_gets|]. intros m _.
    case_match; [by apply routeOverQUICSession_ends|by apply delivers_ret]. }
  intros [[resp c]|] _; [apply delivers_ret; eauto|].
  destruct (splitDirectAddresses parseURL isIP (Addresses record)) as [hostnames ipAddrs] eqn:Hsplit.
  pose proof Hg as (Hu & Hs & _ & _).
  pose proof (splitDirectAddresses_sup parseURL isIP _ _ _ addr u Hsplit Hin Hu ltac:(congruence) Hh) as Hwhere.
  eapply delivers_bind; [apply tryDirectAddresses_ends|]. intros [[[resp a]|] lastErr] Hr; [apply delivers_ret; eauto|].
  destruct (isIP (Hostname u)); [|destruct Hr as (? & ? & [=]); eauto].
  eapply delivers_bind; [apply tryHolePunchAndRoute_ends|]. intros punched _. apply orElse_reaches. intros e.
  eapply delivers_bind; [apply tryTURNDial_ends|]. intros turned _. apply orElse_reaches. intros e'.
  apply relayOrIPs_reaches; eauto.
Qed.
End peer.

(** C21: a request to a peer is answered whenever one usable address of the
    peer's record answers over HTTPS with the peer's certificate, whatever
    becomes of the sessions, the hole punches, TURN and the relay on the way,
    provided the body can be replayed, hole punches that succeed bring a
    session, and, for an IP address, the relay does not refuse the body. *)
Theorem RoundTrip_reaches isIP t req clone peerID record addr u w :
  ParsePeerLocalHost (ReqHostname req) = Some peerID → resolveRoute t peerID = Some record →
  bufferRequestBody req = Ok clone → resetRequestBody clone = None →
  (∀ p addrs b w, (initiateHolePunch p addrs b w).1 ≠ (None, None)) →
  addr ∈ Addresses record → Hostname u ≠ "" → answering t clone peerID addr u →
  (isIP (Hostname u) = true → relayPasses t clone record) →
  ∃ resp v w', RoundTrip parseURL splitHostPort isIP t req w = (Ok (Ok (resp, v)), w').
Proof.
  intros Hpeer Hroute Hbuf Hbody Hpunch Hin Hh Hg Hrelay. unfold RoundTrip. rw Hpeer Hroute Hbuf.
  destruct (routePeer_reaches t clone peerID record Hbody Hpunch isIP addr u Hin Hh Hg Hrelay w) as (r & w' & Hw & [resp v] & ->).
  eauto.
Qed.
End reach.

(** ** Where the phases stop too early *)

Section early.
Context {Cert W : Type} `{!RouteWorld Cert W}.
Context (parseURL : string → option PeerURL) (splitHostPort : string → option string) (isIP : string → bool).

Lemma Contains_dot s : Contains s "." = false ↔ "."%char ∉ list_ascii_of_string s.
Proof.
  induction s as [|c s IH]; [split; [intros _; apply not_elem_of_nil|done]|]. cbn [Contains list_ascii_of_string].
  rw orb_false_iff IH not_elem_of_cons. unfold HasPrefix. cbn [String.prefix].
  destruct (ascii_dec "." c) as [<-|Hne]; (split; intros [H1 H2]; split); try done. by destruct s.
Qed.

Lemma trimBracketsLeft_sub l : trimBracketsLeft l ⊆ l.
Proof. induction l as [|c l IH]; simpl; [done|]. destruct (isBracket c); set_solver. Qed.

Lemma Contains_trimBrackets s : Contains s "." = false → Contains (trimBrackets s) "." = false.
Proof.
  rw !Contains_dot. unfold trimBrackets. rw list_ascii_of_string_of_list_ascii. intros Hs Hin. apply Hs.
  rw elem_of_reverse in Hin. apply trimBracketsLeft_sub in Hin. rw elem_of_reverse in Hin. by apply trimBracketsLeft_sub in Hin.
Qed.

(** A host without a dot, an IPv6 address too, counts as loopback. *)
Lemma IsLoopbackHost_dotless host :
  Contains host "." = false → Contains host "://" = false → splitHostPort host = None →
  IsLoopbackHost parseURL splitHostPort host = true.
Proof.
  intros Hdot Hurl Hsplit. unfold IsLoopbackHost. rw Hurl Hsplit.
  case_bool_decide; [done|]. rw (Contains_trimBrackets host Hdot) /=. by rw !orb_true_r.
Qed.

(** An address that is skipped: another host on the node's own port, without
    a dot in its name. *)
Definition dotless_on (own : PeerURL) (a : string) : Prop :=
  ∃ u, parseURL a = Some u ∧ defaultPortForURL u = defaultPortForURL own ∧
    Contains (Hostname u) "." = false ∧ Contains (Hostname u) "://" = false ∧ splitHostPort (Hostname u) = None.

Lemma tryDirectAddresses_skips (t : routeTable (Cert := Cert)) clone peerID own addrs w :
  rtOwnAddress t ≠ "" → peerID ≠ rtNodeID t → parseURL (rtOwnAddress t) = Some own → Forall (dotless_on own) addrs →
  tryDirectAddresses (W := W) parseURL splitHostPort (rtBase t) clone peerID addrs (rtNodeID t) (rtOwnAddress t) None w =
  (Ok (None, None), w).
Proof.
  intros Ho Hp Hown Hall. induction Hall as [|a addrs (u & Hu & Hport & Hd & Hur & Hsp) Hall IH]; cbn [tryDirectAddresses]; [done|].
  rw Hu. assert (isOwnAddress parseURL splitHostPort u peerID (rtNodeID t) (rtOwnAddress t) = true) as ->; [|by rw orb_true_r].
  unfold isOwnAddress. rw !bool_decide_false //= Hown IsLoopbackHost_dotless // Hport bool_decide_true //.
Qed.

(** Without a session manager. *)
Lemma tryHolePunchAndRoute_unmanaged clone peerID record sponsor (w : W) :
  manager w = None → tryHolePunchAndRoute clone peerID record sponsor w = (Ok Skipped, w).
Proof. intros Hm. unfold tryHolePunchAndRoute, mbind, st_bind, gets. by rw Hm. Qed.
Lemma tryTURNDial_unmanaged clone peerID record (w : W) :
  manager w = None → tryTURNDial clone peerID record w = (Ok Skipped, w).
Proof. intros Hm. unfold tryTURNDial, mbind, st_bind, gets. by rw Hm orb_true_r. Qed.

(** A peer of which only host names without a dot or IPv6 addresses are
    known, on the port this node listens on itself, is taken for this node:
    with no session manager and no sponsor, a request to it fails as if the
    peer had no address, and nothing is tried. *)
Theorem RoundTrip_skips_dotless t req clone peerID record own w :
  ParsePeerLocalHost (ReqHostname req) = Some peerID → resolveRoute t peerID = Some record →
  bufferRequestBody req = Ok clone → manager w = None → rtSponsor t = "" →
  rtOwnAddress t ≠ "" → peerID ≠ rtNodeID t → parseURL (rtOwnAddress t) = Some own →
  Forall (dotless_on own) (Addresses record) →
  RoundTrip parseURL splitHostPort isIP t req w = (Ok (Err (EMsg "no addresses available for peer")), w).
Proof.
  intros Hpeer Hroute Hbuf Hm Hsp Ho Hp Hown Hall. unfold RoundTrip. rw Hpeer Hroute Hbuf. unfold routePeer, tryExistingSession.
  destruct (splitDirectAddresses parseURL isIP (Addresses record)) as [hostnames ipAddrs] eqn:Hsplit.
  apply splitDirectAddresses_sub in Hsplit as [Hh Hi].
  assert (∀ l, l ⊆ Addresses record → Forall (dotless_on own) l) as Hsub.
  { intros l Hl. apply Forall_forall. intros a Ha. by apply (proj1 (Forall_forall _ _) Hall), Hl. }
  unfold mbind, st_bind, gets, call. rw Hm /=.
  rw (tryDirectAddresses_skips t clone peerID own hostnames w Ho Hp Hown (Hsub _ Hh)).
  rw (tryHolePunchAndRoute_unmanaged _ _ _ _ _ Hm) /= (tryTURNDial_unmanaged _ _ _ _ Hm) /=.
  unfold relayOrIPs. rw Hsp /=. unfold tryIPs, mbind, st_bind.
  by rw (tryDirectAddresses_skips t clone peerID own ipAddrs w Ho Hp Hown (Hsub _ Hi)).
Qed.

(** When the relay would refuse a request's body, the request ends there:
    the IP addresses of the peer are not tried, although they have no such
    limit. *)
Theorem RoundTrip_relay_limit_aborts t req clone peerID record ipAddrs w :
  ParsePeerLocalHost (ReqHostname req) = Some peerID → resolveRoute t peerID = Some record →
  bufferRequestBody req = Ok clone → resetRequestBody clone = None → manager w = None →
  rtSponsor t ≠ "" → isSponsorPeer parseURL record (rtSponsor t) = false →
  splitDirectAddresses parseURL isIP (Addresses record) = ([], ipAddrs) →
  relayCapExceeded (byteLen (contentOf clone)) = true →
  (RoundTrip parseURL splitHostPort isIP t req w).1 = Ok (Err errRelayPayloadTooLarge).
Proof.
  intros Hpeer Hroute Hbuf Hbody Hm Hsp Hself Hsplit Hcap. unfold RoundTrip. rw Hpeer Hroute Hbuf.
  unfold routePeer, tryExistingSession, mbind, st_bind, gets. rw Hm Hsplit /=.
  rw (tryHolePunchAndRoute_unmanaged _ _ _ _ _ Hm) /= (tryTURNDial_unmanaged _ _ _ _ Hm) /=.
  unfold relayOrIPs. rw bool_decide_true // Hself /=. unfold tryRelay, mbind, st_bind. rw Hbody.
  unfold call. destruct (newReqID w) as [id w1]. fold (contentOf clone). by rw Hcap.
Qed.
End early.

(** ** Runs *)

(** Node [b] knows peer [a] by an IP address and an address for QUIC. *)
Definition demoURL (s : string) : option PeerURL :=
  if bool_decide (s = "https://10.0.0.5:8443") then Some {| Scheme := "https"; Host := "10.0.0.5:8443"; Hostname := "10.0.0.5"; Port := "8443" |}
  else if bool_decide (s = "https://[2001:db8::1]:8443")
  then Some {| Scheme := "https"; Host := "[2001:db8::1]:8443"; Hostname := "2001:db8::1"; Port := "8443" |}
  else if bool_decide (s = "https://192.0.2.2:8443") then Some {| Scheme := "https"; Host := "192.0.2.2:8443"; Hostname := "192.0.2.2"; Port := "8443" |}
  else if bool_decide (s = "https://192.0.2.9:1") then Some {| Scheme := "https"; Host := "192.0.2.9:1"; Hostname := "192.0.2.9"; Port := "1" |}
  else None.
Definition demoIsIP (s : string) : bool := bool_decide (s ∈ ["10.0.0.5"; "2001:db8::1"; "192.0.2.2"; "192.0.2.9"]).
Definition demoSplit (_ : string) : option string := None.

Definition demoTable (sponsor : string) (addrs : list string) : routeTable (Cert := ()) :=
  {| rtRoutes := {[ "a" := {| Addresses := addrs; Sequence := 1; IsSponsor := false |} ]}; rtSponsor := sponsor; rtNodeID := "b";
     rtOwnAddress := "https://192.0.2.2:8443"; rtBase := None |}.

Definition demoPost (body : bodySource) : Request :=
  {| ReqMethod := "POST"; ReqHostname := "a.proxyma.local"; ReqPath := "/p"; ReqHeaders := ∅; ReqBody := body; BypassHolePunch := false |}.

(** Peer [a] answers at every address. *)
Definition demoServers (_ : string) : option (Response ()) := Some {| RespStatus := 200; RespTLS := Some [("a", ())]; RespBody := "ok" |}.
Definition demoEnds (_ : nat) (_ : Request) : res (Response ()) := Err (EMsg "closed").
Definition demoRelays (_ : RelayRequest) : res RelayResponse := Err (EMsg "refused").

#[local] Instance demo_world : RouteWorld () netsim := netsim_world demoState demoKey (λ _, false) demoServers demoEnds demoRelays.
#[local] Instance demo_backed : QuicBacked demoState demoKey (λ _, false) := netsim_backed demoState demoKey (λ _, false) demoServers demoEnds demoRelays.

Definition demoWorld (managed : bool) (s : quic) (events : list quic_action) : netsim :=
  {| simManaged := managed; simQuic := s; simEvents := events; simDial := Err (EMsg "dial"); simTURN := false |}.

Definition demoRun (w : netsim) (t : routeTable) (req : Request) := RoundTrip demoURL demoSplit demoIsIP t req w.

Lemma RoundTrip_authentic_witness :
  ∃ s resp w', quic_run demoState demoKey (λ _, false) (SetPublicUDPAddr "192.0.2.2:4" demoManager) [] = Some s ∧
    demoRun (demoWorld true s []) (demoTable "" ["https://10.0.0.5:8443"]) (demoPost (Stream (Ok "x"))) =
      (Ok (Ok (resp, ViaDirect "https://10.0.0.5:8443")), w') ∧ ∃ c rest, RespTLS resp = Some (("a", c) :: rest).
Proof.
  set (s := quic_init (SetPublicUDPAddr "192.0.2.2:4" demoManager)).
  destruct (demoRun (demoWorld true s []) (demoTable "" ["https://10.0.0.5:8443"]) (demoPost (Stream (Ok "x")))) as [r w'] eqn:Hrun.
  assert (r = Ok (Ok ({| RespStatus := 200; RespTLS := Some [("a", ())]; RespBody := "ok" |}, ViaDirect "https://10.0.0.5:8443"))) as ->.
  { apply (f_equal fst) in Hrun. by rw -[r]Hrun. }
  eexists s, _, w'. split_and!; [reflexivity|exact Hrun|].
  destruct (RoundTrip_authentic demoKey_inj (SetPublicUDPAddr "192.0.2.2:4" demoManager) ltac:(done) demoURL demoSplit demoIsIP
    _ _ (demoWorld true s []) _ _ _ (rtc_refl _ _) Hrun) as (_ & record & clone & _ & _ & _ & _ & _ & _ & Hcert). exact Hcert.
Defined.

(** The attempt that [hole_punch_nil_session] shows, under a request: node [b]
    is answering a hole punch of [a] when its own request to [a] starts one. *)
Definition respondStarted : list quic_action := [QRespond 0 "a"; QRespondStep 0 EvGo; QRespondStep 0 EvGo].
Definition respondEnds : list quic_action :=
  [QPunchStep 0 EvGo; QPunchStep 0 EvGo; QRespondStep 0 (EvHeard true); QRespondStep 0 EvGo; QPunchStep 0 EvGo].

(** A request panics, in a reachable state, when its hole punch joins the
    attempt with which the node answers a punch of the same peer: the attempt
    ends without a connection and without an error, and a stream is opened on
    a session that is nil.  An address of the peer that would answer is never
    tried. *)
Theorem RoundTrip_nil_session_panics :
  ∃ s w', quic_reachable demoState demoKey (λ _, false) (SetPublicUDPAddr "192.0.2.2:4" demoManager) s ∧
    demoRun (demoWorld true s respondEnds) (demoTable "https://192.0.2.9:1" ["https://10.0.0.5:8443"; "quic://10.0.0.5:4"])
      (demoPost NoBody) = (Err (EPanic "nil pointer dereference"), w') ∧
    demoServers "https://10.0.0.5:8443" ≠ None.
Proof.
  destruct (quic_run demoState demoKey (λ _, false) (SetPublicUDPAddr "192.0.2.2:4" demoManager) respondStarted) as [s|] eqn:Hrun;
    [|vm_compute in Hrun; discriminate Hrun].
  exists s. eexists. split_and!; [by eapply quic_run_reachable| |done].
  vm_compute in Hrun. injection Hrun as <-. vm_compute. reflexivity.
Qed.

(** *** A network that answers and keeps no state *)

#[local] Instance still_world : RouteWorld () () := {
  baseRoundTrip _ w := (Err (EMsg "base"), w);
  sendOverQUIC _ _ w := (Err (EMsg "closed"), w);
  probe _ w := (None, w);
  sendHTTP _ addr _ w := (match demoServers addr with Some r => Ok r | None => Err (EMsg "refused") end, w);
  initiateHolePunch _ _ _ w := ((None, Some (EMsg "timeout")), w);
  dialTURN _ _ _ w := (Err (EMsg "timeout"), w);
  forwardRelay _ _ w := (Err (EMsg "refused"), w);
  newReqID w := ("1", w);
  manager _ := None;
  dropSession _ w := w;
  hasTURN _ := false;
  timeLeft _ := None }.

Lemma RoundTrip_reaches_witness :
  ∃ resp v w', RoundTrip demoURL demoSplit demoIsIP (demoTable "https://192.0.2.9:1" ["https://10.0.0.5:8443"])
    (demoPost (Stream (Ok "x"))) () = (Ok (Ok (resp, v)), w').
Proof.
  apply (RoundTrip_reaches (W := ()) demoURL demoSplit demoIsIP (demoTable "https://192.0.2.9:1" ["https://10.0.0.5:8443"]) _
    (demoPost (Replay (Ok "x"))) "a" {| Addresses := ["https://10.0.0.5:8443"]; Sequence := 1; IsSponsor := false |}
    "https://10.0.0.5:8443" {| Scheme := "https"; Host := "10.0.0.5:8443"; Hostname := "10.0.0.5"; Port := "8443" |}); try done.
  - apply list_elem_of_here.
  - split_and!; try done. split; [done|]. intros []. eexists _, (). split; [reflexivity|]. by eexists _, (), [].
  - intros _. by right; right.
Defined.

Lemma RoundTrip_skips_dotless_witness :
  RoundTrip demoURL demoSplit demoIsIP (demoTable "" ["https://[2001:db8::1]:8443"]) (demoPost NoBody) () =
    (Ok (Err (EMsg "no addresses available for peer")), ()) ∧ demoServers "https://[2001:db8::1]:8443" ≠ None.
Proof.
  split; [|done].
  apply (RoundTrip_skips_dotless demoURL demoSplit demoIsIP (demoTable "" ["https://[2001:db8::1]:8443"]) _ (demoPost NoBody) "a"
    {| Addresses := ["https://[2001:db8::1]:8443"]; Sequence := 1; IsSponsor := false |}
    {| Scheme := "https"; Host := "192.0.2.2:8443"; Hostname := "192.0.2.2"; Port := "8443" |}); try done.
  repeat constructor. eexists. split; [reflexivity|]. by split_and!.
Defined.

(** A body one byte over the limit. *)
Fixpoint zeros (n : nat) : string := match n with 0 => EmptyString | S n => String "0" (zeros n) end.
Definition oversizedBody : string := zeros (Z.to_nat (MaxRelayBodyBytes + 1)).

Lemma RoundTrip_relay_limit_aborts_witness :
  (RoundTrip demoURL demoSplit demoIsIP (demoTable "https://192.0.2.9:1" ["https://10.0.0.5:8443"])
     (demoPost (Stream (Ok oversizedBody))) ()).1 = Ok (Err errRelayPayloadTooLarge) ∧
  (∃ resp, (RoundTrip demoURL demoSplit demoIsIP (demoTable "" ["https://10.0.0.5:8443"])
     (demoPost (Stream (Ok oversizedBody))) ()).1 = Ok (Ok (resp, ViaDirect "https://10.0.0.5:8443"))).
Proof.
  split; [|eexists; reflexivity].
  apply (RoundTrip_relay_limit_aborts demoURL demoSplit demoIsIP (demoTable "https://192.0.2.9:1" ["https://10.0.0.5:8443"]) _
    (demoPost (Replay (Ok oversizedBody))) "a" {| Addresses := ["https://10.0.0.5:8443"]; Sequence := 1; IsSponsor := false |}
    ["https://10.0.0.5:8443"]); try done; try (vm_compute; reflexivity).
Defined.
