(* ===== verification/Prewarm.v ===== *)
(** * Routes and prewarmed sessions

    [internal/p2p/router.go]: the table of routes, and the hole punches the
    router starts when a route is published and discards when it changes.
    The router shares its session managers with inbound connections, requests
    and TURN: the state [net] has the router, every manager with what runs on
    it ([QuicLaws.quic]), and the prewarming goroutines that have not ended.
    What a function does under the router's lock is one step. *)
From Stdlib Require Import Ascii String.
From S2P Require Import Prelude GoStrings Json Protocol PeerRegistry Relay Quic QuicLaws Router.
Local Open Scope stdpp_scope.

(** ** The router's state *)

(** [prewarmAttempt]: its manager, generation and whether it was cancelled;
    its peer and its hole punch on the manager. *)
Record prewarmAttempt := {
  paPeer : string;
  paManager : nat;
  paGeneration : Z;
  paPunch : nat;
  paCancelled : bool }.

(** [prewarms] points to attempts by number; [attempts] are the goroutines
    under way. *)
Record P2PRoundTripper := {
  routes : gmap string AddressRecord;
  SponsorAddress : string;
  QM : option nat;
  prewarms : gmap string nat;
  attempts : gmap nat prewarmAttempt;
  routeGeneration : gmap string Z;
  routerClosed : bool }.
Implicit Types r : P2PRoundTripper.

Definition set_routes (f : gmap string AddressRecord → gmap string AddressRecord) r : P2PRoundTripper :=
  {| routes := f (routes r); SponsorAddress := SponsorAddress r; QM := QM r; prewarms := prewarms r; attempts := attempts r;
     routeGeneration := routeGeneration r; routerClosed := routerClosed r |}.
Definition set_prewarms (f : gmap string nat → gmap string nat) (g : gmap nat prewarmAttempt → gmap nat prewarmAttempt) r : P2PRoundTripper :=
  {| routes := routes r; SponsorAddress := SponsorAddress r; QM := QM r; prewarms := f (prewarms r); attempts := g (attempts r);
     routeGeneration := routeGeneration r; routerClosed := routerClosed r |}.
Definition set_generations (f : gmap string Z → gmap string Z) r : P2PRoundTripper :=
  {| routes := routes r; SponsorAddress := SponsorAddress r; QM := QM r; prewarms := prewarms r; attempts := attempts r;
     routeGeneration := f (routeGeneration r); routerClosed := routerClosed r |}.

Definition generationOf (peerID : string) r : Z := default 0%Z (routeGeneration r !! peerID).

Definition bumpGeneration (peerID : string) r : P2PRoundTripper :=
  set_generations (<[peerID := nextGeneration (generationOf peerID r)]>) r.

Definition cancelled_attempt (a : prewarmAttempt) : prewarmAttempt :=
  {| paPeer := paPeer a; paManager := paManager a; paGeneration := paGeneration a; paPunch := paPunch a; paCancelled := true |}.

(** [attempt.cancel()] and [delete(r.prewarms, peerID)]. *)
Definition cancelPrewarm (peerID : string) r : P2PRoundTripper :=
  match prewarms r !! peerID with
  | Some a => set_prewarms (delete peerID) (alter cancelled_attempt a) r
  | None => r
  end.

(** The loops over [prewarms]; [bump]: the generations grow too. *)
Definition cancelAll (bump : bool) r : P2PRoundTripper :=
  foldr (λ '(p, _) r, (if bump then bumpGeneration p else id) (cancelPrewarm p r)) r (map_to_list (prewarms r)).

(** ** The operations *)

Record net := {
  router : P2PRoundTripper;
  nodes : gmap nat quic;
  gone : gset (nat * string) (** managers and the peers removed from them since their last route *) }.
Implicit Types n : net.

Definition onManager (m : nat) (f : QUICManager → QUICManager) (ns : gmap nat quic) : gmap nat quic :=
  alter (λ s, with_qm (f (qm s)) s) m ns.

(** A hole punch to the peer starts on the manager. *)
Definition startPunch (i : nat) (peerID : string) (s : quic) : quic :=
  {| qm := qm s; inbounds := inbounds s; turnDials := turnDials s; punches := <[i := PCheck peerID]> (punches s);
     responds := responds s; known := known s; verified := verified s; aborted := aborted s |}.

Definition newPrewarmAttemptLocked (peerID : string) (m : nat) (s : quic) n : net :=
  let r := router n in
  let i := fresh (dom (punches s)) in
  let a := fresh (dom (attempts r)) in
  {| router := set_prewarms (<[peerID := a]>)
       (<[a := {| paPeer := peerID; paManager := m; paGeneration := generationOf peerID r; paPunch := i; paCancelled := false |}]>) r;
     nodes := <[m := startPunch i peerID s]> (nodes n);
     gone := gone n |}.

Definition UpdatePeerRoute (peerID : string) (record : AddressRecord) n : net :=
  if routerClosed (router n) then n
  else
    let r := set_routes (<[peerID := record]>) (bumpGeneration peerID (cancelPrewarm peerID (router n))) in
    match QM r with
    | None => {| router := r; nodes := nodes n; gone := gone n |}
    | Some m =>
        let n' := {| router := r; nodes := onManager m (AllowPeerSessions peerID) (nodes n); gone := gone n ∖ {[ (m, peerID) ]} |} in
        match nodes n' !! m with
        | None => n'
        | Some s =>
            if bool_decide (SponsorAddress r ≠ "") && bool_decide (publicUDPAddr (qm s) ≠ "") &&
               bool_decide (FirstQUICAddr (Addresses record) ≠ None) && bool_decide (GetSession peerID (qm s) = None)
            then newPrewarmAttemptLocked peerID m s n' else n'
        end
    end.

(** [prewarmConnection] once its hole punch ended with [session]. *)
Definition prewarmConnection (a : nat) (at_ : prewarmAttempt) (session : option nat) n : net :=
  let r := router n in
  let p := paPeer at_ in
  let r' := set_prewarms (λ pw, if bool_decide (pw !! p = Some a) then delete p pw else pw) (delete a) r in
  match routes r' !! p with
  | None =>
      {| router := r'; nodes := onManager (paManager at_) (BlockPeerSessions p) (nodes n);
         gone := {[ (paManager at_, p) ]} ∪ gone n |}
  | Some _ =>
      match session with
      | Some c =>
          if negb (generationOf p r' =? paGeneration at_)%Z
          then {| router := r'; nodes := onManager (paManager at_) (CloseSessionIf p c) (nodes n); gone := gone n |}
          else {| router := r'; nodes := nodes n; gone := gone n |}
      | None => {| router := r'; nodes := nodes n; gone := gone n |}
      end
  end.

Definition RemovePeerRoute (peerID : string) n : net :=
  let attempt := prewarms (router n) !! peerID ≫= λ a, attempts (router n) !! a in
  let r := bumpGeneration peerID (set_routes (delete peerID) (cancelPrewarm peerID (router n))) in
  let block m n := {| router := router n; nodes := onManager m (BlockPeerSessions peerID) (nodes n); gone := {[ (m, peerID) ]} ∪ gone n |} in
  let n := {| router := r; nodes := nodes n; gone := gone n |} in
  let n := match QM r with Some m => block m n | None => n end in
  match attempt with
  | Some at_ => if bool_decide (QM r ≠ Some (paManager at_)) then block (paManager at_) n else n
  | None => n
  end.

Definition with_router (r : P2PRoundTripper) n : net := {| router := r; nodes := nodes n; gone := gone n |}.

Definition UpdateSponsorAddress (addr : string) r : P2PRoundTripper :=
  {| routes := routes r; SponsorAddress := addr; QM := QM r; prewarms := prewarms r; attempts := attempts r;
     routeGeneration := routeGeneration r; routerClosed := routerClosed r |}.

Definition set_manager (m : option nat) r : P2PRoundTripper :=
  {| routes := routes r; SponsorAddress := SponsorAddress r; QM := m; prewarms := prewarms r; attempts := attempts r;
     routeGeneration := routeGeneration r; routerClosed := routerClosed r |}.

Definition SetQUICManager (m : option nat) r : P2PRoundTripper :=
  if routerClosed r then r
  else set_manager m (if bool_decide (QM r = m) then r else cancelAll true r).

Definition SetLifetimeContext r : P2PRoundTripper := if routerClosed r then r else cancelAll true r.

(** [Close], up to its wait for the goroutines. *)
Definition closeRouter r : P2PRoundTripper :=
  if routerClosed r then r
  else
    let r := cancelAll false r in
    {| routes := routes r; SponsorAddress := SponsorAddress r; QM := QM r; prewarms := prewarms r; attempts := attempts r;
       routeGeneration := routeGeneration r; routerClosed := true |}.

(** Its return: no goroutine is left. *)
Definition closeReturns r : bool := routerClosed r && bool_decide (attempts r = ∅).

(** ** Interleavings *)

Section system.
Context {Cert : Type} (connState : nat → @tlsState Cert) (exportKey : nat → option string) (ctxErr : error → bool).

(** What happens on a manager apart from the router.  Only
    [UpdatePeerRoute] allows sessions of a blocked peer. *)
Definition manager_step (s s' : quic) : Prop :=
  quic_step connState exportKey ctxErr s s' ∧ blockedPeers (qm s) ⊆ blockedPeers (qm s').

Inductive net_step n : net → Prop :=
  | n_new m mgr :
      nodes n !! m = None → unused mgr →
      net_step n {| router := router n; nodes := <[m := quic_init mgr]> (nodes n); gone := gone n |}
  | n_manager m s s' :
      nodes n !! m = Some s → manager_step s s' →
      net_step n {| router := router n; nodes := <[m := s']> (nodes n); gone := gone n |}
  | n_update peerID record : net_step n (UpdatePeerRoute peerID record n)
  | n_remove peerID : net_step n (RemovePeerRoute peerID n)
  | n_finish a at_ s o :
      attempts (router n) !! a = Some at_ → nodes n !! paManager at_ = Some s →
      punches s !! paPunch at_ = Some (PDone (paPeer at_) o) →
      net_step n (prewarmConnection a at_ o.1 n)
  | n_sponsor addr : net_step n (with_router (UpdateSponsorAddress addr (router n)) n)
  | n_set_manager m : (∀ k, m = Some k → is_Some (nodes n !! k)) → net_step n (with_router (SetQUICManager m (router n)) n)
  | n_lifetime : net_step n (with_router (SetLifetimeContext (router n)) n)
  | n_close : net_step n (with_router (closeRouter (router n)) n).

Definition net_reachable n : Prop :=
  rtc net_step {| router := {| routes := ∅; SponsorAddress := ""; QM := None; prewarms := ∅; attempts := ∅;
                                routeGeneration := ∅; routerClosed := false |}; nodes := ∅; gone := ∅ |} n.

(** ** The router's attempts *)

(** An attempt the table points to is live, of the current generation and on
    the current manager; a live attempt is pointed to. *)
Record prewarm_ok r : Prop := {
  po_current : ∀ p a, prewarms r !! p = Some a → ∃ at_, attempts r !! a = Some at_ ∧ paPeer at_ = p ∧
    paCancelled at_ = false ∧ paGeneration at_ = generationOf p r ∧ QM r = Some (paManager at_) ∧ is_Some (routes r !! p);
  po_live : ∀ a at_, attempts r !! a = Some at_ → paCancelled at_ = false → prewarms r !! paPeer at_ = Some a;
  po_closed : routerClosed r = true → prewarms r = ∅ }.

Lemma cancelPrewarm_prewarms p r : prewarms (cancelPrewarm p r) = delete p (prewarms r).
Proof. unfold cancelPrewarm. case_match eqn:Hp; [done|]. by rw delete_id. Qed.

Lemma cancelPrewarm_ok p r : prewarm_ok r → prewarm_ok (cancelPrewarm p r).
Proof.
  intros [Hc Hl Hcl]. unfold cancelPrewarm. destruct (prewarms r !! p) as [a|] eqn:Hp; [|by split].
  destruct (Hc p a Hp) as (at_ & Ha & Hpeer & _). split; simpl.
  - intros q b [Hne Hq]%lookup_delete_Some. destruct (Hc q b Hq) as (bt & Hb & Hbp & Hrest). exists bt.
    rw lookup_alter_ne; [done|]. intros ->. congruence.
  - intros b bt. destruct (decide (b = a)) as [->|Hne].
    + rw lookup_alter_eq Ha /=. by intros [= <-].
    + rw lookup_alter_ne //. intros Hb Hlive. rw lookup_delete_ne; [by apply Hl|].
      intros ->. rw (Hl b bt Hb Hlive) in Hp. congruence.
  - intros H. by rw (Hcl H) in Hp.
Qed.

(** Generations, routes and managers of peers without an attempt are free. *)
Lemma bumpGeneration_ok p r : prewarm_ok r → prewarms r !! p = None → prewarm_ok (bumpGeneration p r).
Proof.
  intros [Hc Hl Hcl] Hp. split; simpl; try done. intros q a Hq. destruct (Hc q a Hq) as (at_ & ? & ? & ? & Hg & ?).
  exists at_. split_and!; try done; [|naive_solver..]. rw Hg. unfold generationOf, bumpGeneration. simpl. rw lookup_insert_ne //. congruence.
Qed.

Lemma cancelAll_ok bump r : prewarm_ok r → prewarm_ok (cancelAll bump r) ∧ prewarms (cancelAll bump r) = ∅.
Proof.
  intros Hok. unfold cancelAll.
  assert (∀ l, let r' := foldr (λ '(p, _) r, (if bump then bumpGeneration p else id) (cancelPrewarm p r)) r l in
    prewarm_ok r' ∧ ∀ p a, prewarms r' !! p = Some a → prewarms r !! p = Some a ∧ (p, a) ∉ l) as Hall.
  { intros l. induction l as [|[p a] l [IH IHd]]; simpl; [split; [done|set_solver]|].
    set (r' := foldr _ r l) in *.
    assert (prewarms ((if bump then bumpGeneration p else id) (cancelPrewarm p r')) = delete p (prewarms r')) as Hpw.
    { destruct bump; apply cancelPrewarm_prewarms. }
    split.
    - pose proof (cancelPrewarm_ok p r' IH). destruct bump; [|done]. apply bumpGeneration_ok; [done|].
      rw cancelPrewarm_prewarms lookup_delete_eq //.
    - intros q b. rw Hpw lookup_delete_Some. intros [Hne Hq]. destruct (IHd q b Hq). split; [done|]. set_solver. }
  destruct (Hall (map_to_list (prewarms r))) as [H1 H2]. split; [done|]. apply map_empty. intros p.
  destruct (prewarms _ !! p) as [a|] eqn:Hp; [|done]. destruct (H2 p a Hp) as [Hin Hnot]. by apply elem_of_map_to_list in Hin.
Qed.

Lemma update_table_ok p record r :
  prewarm_ok r → prewarm_ok (set_routes (<[p := record]>) (bumpGeneration p (cancelPrewarm p r))).
Proof.
  intros Hok%(cancelPrewarm_ok p)%(bumpGeneration_ok p); [|by rw cancelPrewarm_prewarms lookup_delete_eq].
  destruct Hok as [Hc Hl Hcl]. split; simpl; try done. intros q a Hq. destruct (Hc q a Hq) as (at_ & ? & ? & ? & ? & ? & Hr).
  exists at_. split_and!; try done. destruct (decide (q = p)) as [->|]; [by rw lookup_insert_eq|by rw lookup_insert_ne].
Qed.

Lemma remove_table_ok p r : prewarm_ok r → prewarm_ok (bumpGeneration p (set_routes (delete p) (cancelPrewarm p r))).
Proof.
  intros Hok%(cancelPrewarm_ok p). apply bumpGeneration_ok; [|simpl; by rw cancelPrewarm_prewarms lookup_delete_eq].
  destruct Hok as [Hc Hl Hcl]. split; simpl; try done. intros q a Hq.
  destruct (Hc q a Hq) as (at_ & ? & ? & ? & ? & ? & Hr). exists at_. split_and!; try done.
  rw lookup_delete_ne; [done|]. intros <-. by rw cancelPrewarm_prewarms lookup_delete_eq in Hq.
Qed.

Lemma new_attempt_ok p m s n :
  prewarm_ok (router n) → QM (router n) = Some m → prewarms (router n) !! p = None → is_Some (routes (router n) !! p) →
  routerClosed (router n) = false → prewarm_ok (router (newPrewarmAttemptLocked p m s n)).
Proof.
  intros [Hc Hl Hcl] Hm Hp Hr Hopen. set (a := fresh (dom (attempts (router n)))).
  assert (attempts (router n) !! a = None) as Hfresh by (apply not_elem_of_dom, is_fresh).
  split; simpl; [| |by rw Hopen].
  - intros q b [[<- <-]|[Hne Hq]]%lookup_insert_Some; [eexists; by rw lookup_insert_eq|].
    destruct (Hc q b Hq) as (bt & Hb & ?). exists bt. rw lookup_insert_ne; [done|]. intros Heq. by rw -Heq Hfresh in Hb.
  - intros b bt [[<- <-]|[Hne Hb]]%lookup_insert_Some Hlive; [simpl; by rw lookup_insert_eq|].
    rw lookup_insert_ne; [by apply Hl|]. intros Heq. specialize (Hl b bt Hb Hlive). congruence.
Qed.

Lemma finish_table_ok a at_ r :
  prewarm_ok r → attempts r !! a = Some at_ →
  prewarm_ok (set_prewarms (λ pw, if bool_decide (pw !! paPeer at_ = Some a) then delete (paPeer at_) pw else pw) (delete a) r).
Proof.
  intros [Hc Hl Hcl] Ha. split; simpl.
  - intros q b Hq. assert (prewarms r !! q = Some b ∧ b ≠ a) as [Hq' Hne].
    { case_bool_decide as Hp; [apply lookup_delete_Some in Hq as [Hne Hq]|]; split; try done; intros ->;
        destruct (Hc q a Hq) as (at' & Ha' & <- & _); simplify_eq. }
    destruct (Hc q b Hq') as (bt & Hb & ?). exists bt. by rw lookup_delete_ne.
  - intros b bt [Hne Hb]%lookup_delete_Some Hlive. specialize (Hl b bt Hb Hlive). case_bool_decide; [|done].
    rw lookup_delete_ne //. congruence.
  - intros Hclosed. rw (Hcl Hclosed). case_bool_decide; [apply delete_empty|done].
Qed.

Lemma set_manager_ok m r : prewarm_ok r → routerClosed r = false → prewarm_ok (SetQUICManager m r).
Proof.
  intros Hok Hopen. unfold SetQUICManager. rw Hopen. case_bool_decide as Heq.
  - destruct Hok as [Hc Hl Hcl]. split; simpl; try done. by rw -Heq.
  - destruct (cancelAll_ok true r Hok) as [[Hc Hl Hcl] He]. split; simpl; try done. intros q a. by rw He.
Qed.

(** ** The managers *)

Context (exportKey_inj : ∀ c c' k, exportKey c = Some k → exportKey c' = Some k → c = c').

Record net_inv n : Prop := {
  ni_prewarm : prewarm_ok (router n);
  ni_nodes : ∀ m s, nodes n !! m = Some s → ∃ mgr, unused mgr ∧ quic_reachable connState exportKey ctxErr mgr s;
  ni_gone : ∀ m p, (m, p) ∈ gone n → ∃ s, nodes n !! m = Some s ∧ p ∈ blockedPeers (qm s);
  ni_manager : ∀ m, QM (router n) = Some m → is_Some (nodes n !! m);
  ni_attempts : ∀ a at_, attempts (router n) !! a = Some at_ → is_Some (nodes n !! paManager at_) }.

(** Managers take steps, and keep the peers of [g] blocked. *)
Definition advances (ns ns' : gmap nat quic) (g : gset (nat * string)) : Prop :=
  (∀ m, is_Some (ns !! m) → is_Some (ns' !! m)) ∧
  (∀ m s', ns' !! m = Some s' → ∃ s, ns !! m = Some s ∧ rtc (quic_step connState exportKey ctxErr) s s') ∧
  (∀ m s s' p, (m, p) ∈ g → ns !! m = Some s → ns' !! m = Some s' → p ∈ blockedPeers (qm s) → p ∈ blockedPeers (qm s')).

Lemma advances_refl ns g : advances ns ns g.
Proof. split_and!; [done|intros m s' Hs; exists s'; split; [done|apply rtc_refl]|naive_solver]. Qed.

Lemma advances_insert ns m s s' g :
  ns !! m = Some s → rtc (quic_step connState exportKey ctxErr) s s' →
  (∀ p, (m, p) ∈ g → p ∈ blockedPeers (qm s) → p ∈ blockedPeers (qm s')) → advances ns (<[m := s']> ns) g.
Proof.
  intros Hm Hrtc Hb. split_and!.
  - intros k Hk. destruct (decide (k = m)) as [->|]; [by rw lookup_insert_eq|by rw lookup_insert_ne].
  - intros k t [[<- <-]|[_ Hk]]%lookup_insert_Some; [eauto|]. exists t. split; [done|apply rtc_refl].
  - intros k t t' p Hg Ht [[<- <-]|[_ Ht']]%lookup_insert_Some Hp; [|by simplify_eq]. simplify_eq. by apply Hb.
Qed.

Lemma advances_onManager ns m f g :
  (∀ s, ns !! m = Some s → quic_step connState exportKey ctxErr s (with_qm (f (qm s)) s)) →
  (∀ s p, (m, p) ∈ g → p ∈ blockedPeers (qm s) → p ∈ blockedPeers (f (qm s))) →
  advances ns (onManager m f ns) g.
Proof.
  intros Hstep Hb. unfold onManager. rw alter_alt. destruct (ns !! m) as [s|] eqn:Hm; [|apply advances_refl].
  apply (advances_insert _ _ s); [done|by apply rtc_once, Hstep|]. intros p. apply Hb.
Qed.

(** A step of the router whose managers evolve. *)
Lemma net_inv_advances n r ns g :
  net_inv n → prewarm_ok r → advances (nodes n) ns (gone n ∩ g) →
  (∀ m p, (m, p) ∈ g → (m, p) ∈ gone n ∨ ∃ s, ns !! m = Some s ∧ p ∈ blockedPeers (qm s)) →
  (∀ m, QM r = Some m → is_Some (ns !! m)) →
  (∀ a at_, attempts r !! a = Some at_ → is_Some (ns !! paManager at_)) →
  net_inv {| router := r; nodes := ns; gone := g |}.
Proof.
  intros [Hp Hn Hg Hm Ha] Hr (Hdom & Hsteps & Hblocked) Hgone HQM Hat. split; simpl; try done.
  - intros m s' Hs'. destruct (Hsteps m s' Hs') as (s & Hs & Hrtc). destruct (Hn m s Hs) as (mgr & Hu & Hreach).
    exists mgr. split; [done|]. unfold quic_reachable in *. by etrans.
  - intros m p Hmp. destruct (Hgone m p Hmp) as [Hold|]; [|done]. destruct (Hg m p Hold) as (s & Hs & Hb).
    destruct (Hdom m) as [s' Hs']; [by rw Hs|]. exists s'. split; [done|]. eapply Hblocked; try done. set_solver.
Qed.

(** The router's table changes, not its manager nor the attempts' managers. *)
Definition keeps r r' : Prop :=
  QM r' = QM r ∧ ∀ a at', attempts r' !! a = Some at' → ∃ at_, attempts r !! a = Some at_ ∧ paManager at' = paManager at_.

Lemma keeps_refl r : keeps r r.
Proof. split; [done|]. eauto. Qed.
Lemma keeps_trans r1 r2 r3 : keeps r1 r2 → keeps r2 r3 → keeps r1 r3.
Proof.
  intros [H1 H2] [H3 H4]. split; [congruence|]. intros a at' Ha. destruct (H4 a at' Ha) as (at2 & Ha2 & ->). by apply H2.
Qed.
Lemma cancelPrewarm_keeps p r : keeps r (cancelPrewarm p r).
Proof.
  unfold cancelPrewarm. case_match; [|apply keeps_refl]. split; [done|]. simpl. intros a at'.
  rw lookup_alter. case_decide; [|eauto]. destruct (attempts r !! _) eqn:Ha; [|done]. intros [= <-]. subst. eauto.
Qed.
Lemma cancelAll_keeps bump r : keeps r (cancelAll bump r).
Proof.
  unfold cancelAll. induction (map_to_list (prewarms r)) as [|[p a] l IH]; simpl; [apply keeps_refl|].
  eapply keeps_trans; [exact IH|]. eapply keeps_trans; [apply cancelPrewarm_keeps|]. by destruct bump; split; eauto.
Qed.

(** A step that changes the table only. *)
Lemma net_inv_table n r : net_inv n → prewarm_ok r → keeps (router n) r → net_inv (with_router r n).
Proof.
  intros Hinv Hok [HQ Ha]. apply (net_inv_advances n); try done; [apply advances_refl|auto|..].
  - intros m. rw HQ. apply Hinv.
  - intros a at' Hat. destruct (Ha a at' Hat) as (at_ & Hat' & ->). by apply (ni_attempts n Hinv a).
Qed.

Lemma advances_dom ns ns' g : advances ns ns' g → ∀ m, is_Some (ns !! m) → is_Some (ns' !! m).
Proof. by intros [? _]. Qed.

Lemma advances_block ns m p g : advances ns (onManager m (BlockPeerSessions p) ns) g.
Proof. apply advances_onManager; [intros s _; apply q_block|]. intros s q _. simpl. set_solver. Qed.

Lemma block_blocked ns m p : is_Some (ns !! m) → ∃ s, onManager m (BlockPeerSessions p) ns !! m = Some s ∧ p ∈ blockedPeers (qm s).
Proof. intros [s Hs]. unfold onManager. rw lookup_alter_eq Hs /=. eexists. split; [done|]. simpl. set_solver. Qed.

(** Blocking a removed peer on a manager. *)
Lemma net_inv_block n m p :
  net_inv n → is_Some (nodes n !! m) →
  net_inv {| router := router n; nodes := onManager m (BlockPeerSessions p) (nodes n); gone := {[ (m, p) ]} ∪ gone n |}.
Proof.
  intros Hinv Hm. pose proof (advances_dom _ _ _ (advances_block (nodes n) m p ∅)) as Hdom.
  apply (net_inv_advances n); [done|apply Hinv|apply advances_block|..].
  - intros k q [[= -> ->]%elem_of_singleton|Hin]%elem_of_union; [right; by apply block_blocked|by left].
  - intros k Hk. apply Hdom. by apply Hinv.
  - intros a at_ Ha. apply Hdom. by apply (ni_attempts n Hinv a).
Qed.

Lemma RemovePeerRoute_inv p n : net_inv n → net_inv (RemovePeerRoute p n).
Proof.
  intros Hinv. unfold RemovePeerRoute. set (r := bumpGeneration p _).
  assert (keeps (router n) r) as Hk by apply cancelPrewarm_keeps.
  assert (net_inv (with_router r n)) as Hinv1 by (apply net_inv_table; [done|apply remove_table_ok, Hinv|done]).
  assert (net_inv (match QM r with
    | Some m => {| router := r; nodes := onManager m (BlockPeerSessions p) (nodes n); gone := {[ (m, p) ]} ∪ gone n |}
    | None => with_router r n end)) as Hinv2.
  { destruct (QM r) as [m|] eqn:HQ; [|done]. apply (net_inv_block (with_router r n)); [done|]. by apply Hinv1. }
  destruct (_ ≫= _) as [at_|] eqn:Hat; [|by destruct (QM r)]. apply bind_Some in Hat as (a & _ & Ha).
  case_bool_decide; [|by destruct (QM r)]. destruct (ni_attempts n Hinv a at_ Ha) as [s Hs].
  destruct (QM r) as [m|].
  - apply (net_inv_block {| router := r; nodes := onManager m (BlockPeerSessions p) (nodes n); gone := _ |}); [done|].
    apply (advances_dom _ _ _ (advances_block (nodes n) m p ∅)). by rw Hs.
  - apply (net_inv_block (with_router r n)); [done|]. simpl. by rw Hs.
Qed.

Lemma prewarmConnection_inv a at_ s o n :
  net_inv n → attempts (router n) !! a = Some at_ → nodes n !! paManager at_ = Some s →
  punches s !! paPunch at_ = Some (PDone (paPeer at_) o) → net_inv (prewarmConnection a at_ o.1 n).
Proof.
  intros Hinv Ha Hs Hp. unfold prewarmConnection. set (r := set_prewarms _ _ _).
  assert (net_inv (with_router r n)) as Hinv1.
  { apply net_inv_table; [done|apply finish_table_ok; [apply Hinv|done]|]. split; [done|]. simpl.
    intros b bt [_ Hb]%lookup_delete_Some. eauto. }
  destruct (routes r !! _); [|apply (net_inv_block (with_router r n)); [done|]; simpl; by rw Hs].
  destruct o as [[c|] e]; [|done]. simpl. destruct (negb _); [|done].
  assert (∀ g, advances (nodes n) (onManager (paManager at_) (CloseSessionIf (paPeer at_) c) (nodes n)) g) as He.
  { intros g. apply advances_onManager; [intros ? Hs'; simplify_eq; by eapply q_close_if|].
    intros s' q _. unfold CloseSessionIf. by case_bool_decide. }
  apply (net_inv_advances (with_router r n)); [done|apply Hinv1|apply He|auto|..].
  - intros m Hm. apply (advances_dom _ _ _ (He ∅)). by apply Hinv1.
  - intros b bt Hb. apply (advances_dom _ _ _ (He ∅)). by eapply (ni_attempts _ Hinv1).
Qed.

Lemma advances_trans ns1 ns2 ns3 g : advances ns1 ns2 g → advances ns2 ns3 g → advances ns1 ns3 g.
Proof.
  intros (Hd1 & Hs1 & Hb1) (Hd2 & Hs2 & Hb2). split_and!.
  - auto.
  - intros m s3 Hm. destruct (Hs2 m s3 Hm) as (s2 & Hm2 & ?). destruct (Hs1 m s2 Hm2) as (s1 & Hm1 & ?).
    exists s1. split; [done|]. by etrans.
  - intros m s1 s3 p Hg Hm1 Hm3 Hp. destruct (Hd1 m) as [s2 Hm2]; [by rw Hm1|]. eauto.
Qed.

Lemma advances_allow ns m p g : advances ns (onManager m (AllowPeerSessions p) ns) (g ∖ {[ (m, p) ]}).
Proof. apply advances_onManager; [intros s _; apply q_allow|]. intros s q Hq. simpl. set_solver. Qed.

Lemma UpdatePeerRoute_inv p record n : net_inv n → net_inv (UpdatePeerRoute p record n).
Proof.
  intros Hinv. unfold UpdatePeerRoute. destruct (routerClosed (router n)) eqn:Hopen; [done|].
  set (r := set_routes _ _). assert (keeps (router n) r) as Hk by apply cancelPrewarm_keeps.
  assert (prewarm_ok r) as Hok by apply update_table_ok, Hinv.
  assert (routerClosed r = false) as Hopen'.
  { simpl. unfold cancelPrewarm. by case_match. }
  destruct (QM r) as [m|] eqn:HQ; [|by apply net_inv_table].
  set (ns := onManager m (AllowPeerSessions p) (nodes n)). set (g := gone n ∖ {[ (m, p) ]}).
  assert (∀ h, h ⊆ g → advances (nodes n) ns h) as He.
  { intros h Hh. destruct (advances_allow (nodes n) m p (gone n)) as (? & ? & Hb). split_and!; [done|done|].
    intros k s1 s2 q Hq. apply Hb. set_solver. }
  assert (net_inv (with_router r n)) as Hinvr by (by apply net_inv_table).
  assert (net_inv {| router := r; nodes := ns; gone := g |}) as Hinv1.
  { apply (net_inv_advances (with_router r n)); [done|done|apply He; set_solver|set_solver|..].
    - intros k Hk'. apply (advances_dom _ _ _ (He ∅ ltac:(set_solver))). by apply Hinvr.
    - intros a at_ Ha. apply (advances_dom _ _ _ (He ∅ ltac:(set_solver))). by apply (ni_attempts _ Hinvr a). }
  simpl. destruct (ns !! m) as [s|] eqn:Hs; [|done]. destruct (_ && _); [|done].
  set (i := fresh (dom (punches s))). assert (punches s !! i = None) as Hi by (apply not_elem_of_dom, is_fresh).
  assert (∀ h, advances ns (<[m := startPunch i p s]> ns) h) as Hp.
  { intros h. apply (advances_insert _ _ s); [done|by apply rtc_once, q_punch|done]. }
  unfold newPrewarmAttemptLocked. apply (net_inv_advances {| router := r; nodes := ns; gone := g |}); [done| |apply Hp|auto|..].
  - apply (new_attempt_ok p m s {| router := r; nodes := ns; gone := g |}); simpl; try done;
      [by rw cancelPrewarm_prewarms lookup_delete_eq|by rw lookup_insert_eq].
  - intros k Hk'. apply (advances_dom _ _ _ (Hp ∅)). by apply Hinv1.
  - simpl. intros b bt [[_ <-]|[_ Hb]]%lookup_insert_Some; apply (advances_dom _ _ _ (Hp ∅)); simpl; [by rw Hs|].
    by apply (ni_attempts _ Hinv1 b).
Qed.

Lemma net_step_inv n n' : net_inv n → net_step n n' → net_inv n'.
Proof.
  intros Hinv Hstep. destruct Hstep as [m mgr Hm Hu|m s s' Hs [Hstep Hb]|p record|p|a at_ s o Ha Hs Hp|addr|m Hm| |].
  - destruct Hinv as [Hp Hn Hg HQ Ha]. split; simpl; try done.
    + intros k s [[<- <-]|[_ Hk]]%lookup_insert_Some; [|by apply (Hn k)]. exists mgr. split; [done|apply rtc_refl].
    + intros k p Hkp. destruct (Hg k p Hkp) as (s & Hs & Hb). exists s. rw lookup_insert_ne //. congruence.
    + intros k Hk. apply HQ in Hk. destruct (decide (k = m)) as [->|]; [by rw lookup_insert_eq|by rw lookup_insert_ne].
    + intros a at_ Hat. apply Ha in Hat. destruct (decide (paManager at_ = m)) as [->|]; [by rw lookup_insert_eq|by rw lookup_insert_ne].
  - assert (∀ g, advances (nodes n) (<[m := s']> (nodes n)) g) as He.
    { intros g. apply (advances_insert _ _ s); [done|by apply rtc_once|set_solver]. }
    apply (net_inv_advances n); [done|apply Hinv|apply He|auto|..]; intros; apply (advances_dom _ _ _ (He ∅)); [by apply Hinv|].
    by eapply (ni_attempts n Hinv).
  - by apply UpdatePeerRoute_inv.
  - by apply RemovePeerRoute_inv.
  - by eapply prewarmConnection_inv.
  - apply net_inv_table; [done| |by split; eauto]. destruct Hinv as [[] _ _ _ _]. by split.
  - unfold SetQUICManager. destruct (routerClosed (router n)) eqn:Hc; [by destruct n|].
    pose proof (set_manager_ok m _ (ni_prewarm n Hinv) Hc) as Hok. unfold SetQUICManager in Hok. rw Hc in Hok.
    set (r := if bool_decide (QM (router n) = m) then _ else _) in *.
    assert (keeps (router n) r) as [_ Hk] by (unfold r; case_bool_decide; [apply keeps_refl|apply cancelAll_keeps]).
    apply (net_inv_advances n); [done|done|apply advances_refl|auto|..].
    + simpl. intros k ->. by apply Hm.
    + simpl. intros a at' Ha. destruct (Hk a at' Ha) as (at_ & Ha' & ->). by apply (ni_attempts n Hinv a).
  - unfold SetLifetimeContext. destruct (routerClosed (router n)) eqn:Hc; [by destruct n|].
    apply net_inv_table; [done|apply cancelAll_ok, Hinv|apply cancelAll_keeps].
  - unfold closeRouter. destruct (routerClosed (router n)) eqn:Hc; [by destruct n|].
    destruct (cancelAll_ok false (router n) (ni_prewarm n Hinv)) as [[Hcur Hl Hcl] He].
    destruct (cancelAll_keeps false (router n)) as [Hk1 Hk2].
    apply net_inv_table; [done|by split|by split].
Qed.

Lemma net_reachable_inv n : net_reachable n → net_inv n.
Proof.
  revert n. apply rtc_ind_r; [|intros n n' _ Hstep Hinv; by eapply net_step_inv].
  split; simpl; [split|..]; simpl; set_solver.
Qed.

(** C19: however routes, managers and the lifetime of the router change while
    hole punches, dials, requests and inbound connections run on its session
    managers: a peer whose route was removed has no session on the manager
    that was current, nor on one whose prewarming ended after the removal,
    until a route of it is published again; each peer has at most one
    prewarming attempt that is not cancelled, made for the current route and
    manager; and every session of every manager is a connection of its peer
    that is verified under the current TLS generation and open. *)
Theorem routes_and_sessions_agree n :
  net_reachable n →
  (∀ m p s, (m, p) ∈ gone n → nodes n !! m = Some s → GetSession p (qm s) = None) ∧
  (∀ a b at_ bt, attempts (router n) !! a = Some at_ → attempts (router n) !! b = Some bt →
     paCancelled at_ = false → paCancelled bt = false → paPeer at_ = paPeer bt →
     a = b ∧ paGeneration at_ = generationOf (paPeer at_) (router n) ∧ QM (router n) = Some (paManager at_) ∧
     is_Some (routes (router n) !! paPeer at_)) ∧
  (∀ m s p c, nodes n !! m = Some s → GetSession p (qm s) = Some c →
     PeerCNFromTLS (connState c) = Some p ∧ (c, tlsGeneration (qm s)) ∈ verified s ∧ c ∉ closedConns (qm s)).
Proof.
  intros Hinv%net_reachable_inv. pose proof (ni_prewarm n Hinv) as Hpw.
  assert (∀ m s, nodes n !! m = Some s → mgr_ok connState exportKey (known s) (verified s) (qm s)) as Hmgr.
  { intros m s Hs. destruct (ni_nodes n Hinv m s Hs) as (mgr & Hu & Hr). apply (qi_mgr _ _ s).
    by apply (quic_reachable_inv _ _ ctxErr exportKey_inj mgr s). }
  split_and!.
  - intros m p s Hg Hs. destruct (ni_gone n Hinv m p Hg) as (s' & Hs' & Hb). simplify_eq. unfold GetSession.
    destruct (Sessions (qm s) !! p) as [c|] eqn:Hc; [|done]. by destruct (mo_sessions _ _ _ _ _ (Hmgr m s Hs) p c Hc) as (_ & _ & ? & _).
  - intros a b at_ bt Ha Hb Hla Hlb Heq. pose proof (po_live _ Hpw a at_ Ha Hla) as Hpa.
    pose proof (po_live _ Hpw b bt Hb Hlb) as Hpb. rw -Heq Hpa in Hpb. simplify_eq.
    destruct (po_current _ Hpw _ _ Hpa) as (at' & Ha' & _ & _ & ? & ? & ?). by simplify_eq.
  - intros m s p c Hs Hc. destruct (mo_sessions _ _ _ _ _ (Hmgr m s Hs) p c Hc) as (? & ? & _ & _ & ?). done.
Qed.
End system.

(** ** A run *)

(** Peer [a] is published, a connection of it is accepted, its route is
    removed, and another connection of it is refused. *)
Definition demoRoute : AddressRecord := {| Addresses := ["quic://10.0.0.5:4"]; Sequence := 1; IsSponsor := false |}.

Inductive net_action :=
  | NNew (m : nat) (mgr : QUICManager)
  | NManager (m : nat) (a : quic_action)
  | NSetManager (m : nat)
  | NUpdate (peerID : string) (record : AddressRecord)
  | NRemove (peerID : string).

Definition net_act (a : net_action) n : option net :=
  match a with
  | NNew m mgr =>
      guard (nodes n !! m = None);;
      Some {| router := router n; nodes := <[m := quic_init mgr]> (nodes n); gone := gone n |}
  | NManager m a =>
      s ← nodes n !! m;
      s' ← quic_act demoState demoKey (λ _, false) a s;
      guard (blockedPeers (qm s) ⊆ blockedPeers (qm s'));;
      Some {| router := router n; nodes := <[m := s']> (nodes n); gone := gone n |}
  | NSetManager m => guard (is_Some (nodes n !! m));; Some (with_router (SetQUICManager (Some m) (router n)) n)
  | NUpdate p record => Some (UpdatePeerRoute p record n)
  | NRemove p => Some (RemovePeerRoute p n)
  end.

Definition net_run (script : list net_action) : option net :=
  foldl (λ o a, o ≫= net_act a)
    (Some {| router := {| routes := ∅; SponsorAddress := ""; QM := None; prewarms := ∅; attempts := ∅;
                           routeGeneration := ∅; routerClosed := false |}; nodes := ∅; gone := ∅ |}) script.

Lemma net_run_reachable script n :
  Forall (λ a, match a with NNew _ mgr => unused mgr | _ => True end) script →
  net_run script = Some n → net_reachable demoState demoKey (λ _, false) n.
Proof.
  unfold net_run, net_reachable. revert n. induction script as [|a script IH] using rev_ind; intros n Hok; [intros [= <-]; apply rtc_refl|].
  apply Forall_app in Hok as [Hok [Ha _]%Forall_cons]. rw foldl_app /=. intros (n1 & Hn1 & Hact)%bind_Some.
  eapply rtc_r; [by apply IH|]. clear IH Hn1.
  destruct a as [m mgr|m a|m|p record|p]; cbn [net_act] in Hact.
  - apply bind_Some in Hact as (? & _ & Hact). injection Hact as <-. by apply n_new.
  - apply bind_Some in Hact as (s & Hs & (s' & Hs' & Hact)%bind_Some). apply bind_Some in Hact as (Hb & _ & [= <-]).
    apply (n_manager _ _ _ n1 m s s'); [done|]. split; [by eapply quic_act_step|done].
  - apply bind_Some in Hact as (Hm & _ & [= <-]). apply n_set_manager. by intros k [= <-].
  - injection Hact as <-. apply n_update.
  - injection Hact as <-. apply n_remove.
Qed.

Definition removalScript : list net_action :=
  [NNew 0 demoManager; NSetManager 0; NUpdate "a" demoRoute;
   NManager 0 (QInbound 0 7); NManager 0 (QInboundStep 0); NManager 0 (QInboundStep 0); NManager 0 (QInboundStep 0);
   NRemove "a";
   NManager 0 (QInbound 1 8); NManager 0 (QInboundStep 1); NManager 0 (QInboundStep 1); NManager 0 (QInboundStep 1)].

Lemma routes_and_sessions_agree_witness :
  ∃ n s, net_run removalScript = Some n ∧ nodes n !! 0 = Some s ∧ (0, "a") ∈ gone n ∧
    GetSession "a" (qm s) = None ∧ closedConns (qm s) = {[ 7; 8 ]}.
Proof.
  destruct (net_run removalScript) as [n|] eqn:Hrun; [|vm_compute in Hrun; discriminate Hrun].
  destruct (routes_and_sessions_agree demoState demoKey (λ _, false) demoKey_inj n) as (Hgone & _ & _).
  { eapply net_run_reachable; [|exact Hrun]. repeat constructor. }
  assert (∃ s, nodes n !! 0 = Some s ∧ closedConns (qm s) = {[ 7; 8 ]}) as (s & Hs & Hcl).
  { vm_compute in Hrun. injection Hrun as <-. eexists. split; reflexivity. }
  assert ((0, "a") ∈ gone n) as Hg.
  { vm_compute in Hrun. injection Hrun as <-. by apply (bool_decide_unpack _). }
  exists n, s. split_and!; try done. by apply (Hgone 0).
Defined.

(** The removal holds for the managers it was made on: the peers a manager
    refuses are not carried over to the next one, which accepts a connection of
    a peer whose route was removed before. *)
Definition replacementScript : list net_action :=
  [NNew 0 demoManager; NSetManager 0; NUpdate "a" demoRoute; NRemove "a"; NNew 1 demoManager; NSetManager 1;
   NManager 1 (QInbound 0 7); NManager 1 (QInboundStep 0); NManager 1 (QInboundStep 0); NManager 1 (QInboundStep 0)].

Theorem removed_peer_on_new_manager :
  ∃ n s, net_reachable demoState demoKey (λ _, false) n ∧ nodes n !! 1 = Some s ∧ QM (router n) = Some 1 ∧
    routes (router n) !! "a" = None ∧ GetSession "a" (qm s) = Some 7.
Proof.
  destruct (net_run replacementScript) as [n|] eqn:Hrun; [|vm_compute in Hrun; discriminate Hrun].
  assert (net_reachable demoState demoKey (λ _, false) n) as Hr.
  { eapply net_run_reachable; [|exact Hrun]. repeat constructor. }
  exists n. vm_compute in Hrun. injection Hrun as <-. eexists. split; [exact Hr|]. by vm_compute.
Qed.
