(* ===== verification/Payload.v ===== *)
(** * Service inputs

    [shared/uischema/payload.go]: the inputs of a service, given as JSON or as
    [key=value] pairs, become JSON.  A value that [strconv.ParseFloat] accepts
    becomes a number.  [encoding/json]'s printer is the argument
    [json_marshal], which fails on values JSON has no form for. *)
From Stdlib Require Import Ascii String SpecFloat.
From S2P Require Import Prelude GoStrings Json Journal Tasks Bids.
Local Open Scope stdpp_scope.

(** ** [strconv.ParseFloat] *)

Definition isDigit (c : ascii) : bool := in_byte_range 48 57 c.

(** The value of a digit in base 10 or 16. *)
Definition floatDigit (hex : bool) (c : ascii) : option Z :=
  if isDigit c then Some (byte_of c - 48)%Z
  else if hex && in_byte_range 97 102 (lower_ascii c) then Some (byte_of (lower_ascii c) - 87)%Z
  else None.

(** The digits of the mantissa: its value, the digits after the point, whether
    a point and a digit were seen, and the rest. *)
Fixpoint readMantissa (hex : bool) (l : list ascii) (m : Z) (frac : Z) (sawdot sawdigits : bool) : (Z * Z * bool) * list ascii :=
  match l with
  | [] => ((m, frac, sawdigits), [])
  | c :: rest =>
      if Ascii.eqb c "_" then readMantissa hex rest m frac sawdot sawdigits
      else if Ascii.eqb c "." && negb sawdot then readMantissa hex rest m frac true sawdigits
      else match floatDigit hex c with
      | Some d => readMantissa hex rest ((if hex then 16 else 10) * m + d)%Z (if sawdot then frac + 1 else frac)%Z sawdot true
      | None => ((m, frac, sawdigits), l)
      end
  end.

(** Exponents stop growing at ten thousand. *)
Fixpoint readExponent (l : list ascii) (e : Z) : Z * list ascii :=
  match l with
  | [] => (e, [])
  | c :: rest =>
      if Ascii.eqb c "_" then readExponent rest e
      else if isDigit c then readExponent rest (if e <? 10000 then 10 * e + (byte_of c - 48) else e)%Z
      else (e, l)
  end.

(** Underscores stand between digits, or between the prefix and a digit. *)
Fixpoint underscoresBetween (hex : bool) (prev : Z) (l : list ascii) : bool :=
  match l with
  | [] => negb (prev =? 95)%Z
  | c :: rest =>
      if isDigit c || (hex && in_byte_range 97 102 (lower_ascii c)) then underscoresBetween hex 48 rest
      else if Ascii.eqb c "_" then (prev =? 48)%Z && underscoresBetween hex 95 rest
      else negb (prev =? 95)%Z && underscoresBetween hex 33 rest
  end.

Definition dropSign (l : list ascii) : bool * list ascii :=
  match l with
  | c :: rest => if Ascii.eqb c "+" then (false, rest) else if Ascii.eqb c "-" then (true, rest) else (false, l)
  | [] => (false, [])
  end.

Definition underscoreOK (l : list ascii) : bool :=
  let l := (dropSign l).2 in
  match l with
  | z :: c :: rest =>
      if Ascii.eqb z "0" && bool_decide (lower_ascii c ∈ ["b"; "o"; "x"]%char)
      then underscoresBetween (Ascii.eqb (lower_ascii c) "x") 48 rest
      else underscoresBetween false 94 l
  | _ => underscoresBetween false 94 l
  end.

(** [m * base^e], rounded to the nearest value, ties to even. *)
Definition roundDecimal (neg : bool) (m e : Z) : float64 :=
  if (m =? 0)%Z then S754_zero neg
  else if (0 <=? e)%Z then binary_normalize 53 1024 (if neg then - (m * 10 ^ e) else m * 10 ^ e)%Z 0 false
  else
    let '(q, e', l) := SFdiv_core_binary 53 1024 m 0 (10 ^ (- e))%Z 0 in
    binary_round_aux 53 1024 neg q e' l.

Definition roundHex (neg : bool) (m e : Z) : float64 :=
  if (m =? 0)%Z then S754_zero neg else binary_normalize 53 1024 (if neg then - m else m)%Z e false.

(** [readFloat] and the rounding; the whole text must be used. *)
Definition readFloat (l : list ascii) : option float64 :=
  let '(neg, body) := dropSign l in
  let '(hex, body) := match body with
    | z :: x :: _ :: _ => if Ascii.eqb z "0" && Ascii.eqb (lower_ascii x) "x" then (true, drop 2 body) else (false, body)
    | _ => (false, body)
    end in
  let '((m, frac, sawdigits), rest) := readMantissa hex body 0 0 false false in
  if negb sawdigits then None
  else
    let exponent :=
      match rest with
      | [] => if hex then None else Some 0%Z
      | c :: rest =>
          if Ascii.eqb (lower_ascii c) (if hex then "p"%char else "e"%char) then
            let '(eneg, digits) := dropSign rest in
            match digits with
            | d :: _ =>
                if isDigit d then
                  match readExponent digits 0 with
                  | (e, []) => Some (if eneg then - e else e)%Z
                  | _ => None
                  end
                else None
            | [] => None
            end
          else None
      end in
    match exponent with
    | None => None
    | Some e =>
        if bool_decide ("_"%char ∈ l) && negb (underscoreOK l) then None
        else Some (if hex then roundHex neg m (e - 4 * frac)%Z else roundDecimal neg m (e - frac)%Z)
    end.

(** [special]: infinities and NaN in any case. *)
Definition specialFloat (s : string) : option float64 :=
  let s := ToLower s in
  if bool_decide (s ∈ ["inf"; "+inf"; "infinity"; "+infinity"]) then Some (S754_infinity false)
  else if bool_decide (s ∈ ["-inf"; "-infinity"]) then Some (S754_infinity true)
  else if bool_decide (s = "nan") then Some S754_nan
  else None.

(** [None]: an error; a number out of range is one. *)
Definition ParseFloat (s : string) : option float64 :=
  match specialFloat s with
  | Some f => Some f
  | None =>
      match readFloat (list_ascii_of_string s) with
      | Some (S754_infinity _) => None
      | r => r
      end
  end.

(** ** [strings.Split] by one byte *)

Fixpoint splitOn (sep : ascii) (s : string) : list string :=
  match s with
  | EmptyString => [""]
  | String c rest =>
      if Ascii.eqb c sep then "" :: splitOn sep rest
      else match splitOn sep rest with p :: ps => String c p :: ps | [] => [String c ""] end
  end.

(** [strings.SplitN(s, sep, 2)] when it gives two parts. *)
Fixpoint cutOn (sep : ascii) (s : string) : option (string * string) :=
  match s with
  | EmptyString => None
  | String c rest =>
      if Ascii.eqb c sep then Some ("", rest)
      else match cutOn sep rest with Some (a, b) => Some (String c a, b) | None => None end
  end.

(** ** The payload *)

Definition payloadValue (v : string) : any :=
  if bool_decide (v = "true") then ABool true
  else if bool_decide (v = "false") then ABool false
  else if negb (Contains v " ") then
    match ParseFloat v with
    | Some num => if float_is_int64 num then AInt (int64_of_float num) else AFloat num
    | None => AStr v
    end
  else AStr v.

Definition payloadPair (payload : gmap string any) (pair : string) : gmap string any :=
  let pair := TrimSpace pair in
  if bool_decide (pair = "") then payload
  else match cutOn "=" pair with
  | None => payload
  | Some (k, v) =>
      let k := TrimSpace k in
      if bool_decide (k = "") then payload else <[k := payloadValue (TrimSpace v)]> payload
  end.

Definition payloadOf (raw : string) : gmap string any := foldl payloadPair ∅ (splitOn "," raw).

Section normalize.
Variable json_marshal : gmap string any → option string.

Definition NormalizePayloadJSON (raw : string) : string :=
  let raw := TrimSpace raw in
  if bool_decide (raw = "") then "{}"
  else if HasPrefix raw "{" || HasPrefix raw "[" then raw
  else default "" (json_marshal (payloadOf raw)).
End normalize.
