(* ===== verification/UiSchema.v ===== *)
(** * The registry of actions

    [shared/uischema/uischema.go]: the actions a user interface offers, with
    their parameters; how the arguments of a surface (command line, mobile
    app) become those of the daemon, and how they are checked. *)
From Stdlib Require Import Ascii String.
From S2P Require Import Prelude GoStrings Json Protocol Journal Tasks Payload.
Local Open Scope stdpp_scope.

(** ** Data *)

Record ParameterDetail := {
  PdName : string;
  PdType : string;
  PdRequired : bool;
  PdDescription : string;
  PdUIHint : string;
  PdDefaultValue : string;
  PdOptions : list string;
  PdHidden : bool }.

Record TableColumn := { Header : string; FieldSelector : string; Format : string }.

Record ActionDetail := {
  Domain : string;
  Name : string;
  Title : string;
  Description : string;
  Parameters : list ParameterDetail;
  OutputType : string;
  Columns : list TableColumn;
  UnixAction : string;
  SuccessMessage : string;
  Hidden : bool;
  Surfaces : list string }.

Record DomainDetail := { DName : string; DTitle : string; DActions : list ActionDetail }.

Definition paramWith (name type : string) (required : bool) (description hint def : string) (options : list string)
    (hidden : bool) : ParameterDetail :=
  {| PdName := name; PdType := type; PdRequired := required; PdDescription := description; PdUIHint := hint;
     PdDefaultValue := def; PdOptions := options; PdHidden := hidden |}.
Definition param (name type : string) (required : bool) (description : string) : ParameterDetail :=
  paramWith name type required description "" "" [] false.
Definition column (header selector format : string) : TableColumn :=
  {| Header := header; FieldSelector := selector; Format := format |}.

(** ** The registry *)

Definition vfsNameParam : ParameterDetail := param "name" "string" true "VFS filename".
Definition svcNameParam : ParameterDetail := param "name" "string" true "Service name".
Definition pipelineIDParam : ParameterDetail := param "id" "string" true "Unique pipeline identifier".

Definition DefaultTCPPort : string := "8080".
Definition DefaultInviteMinutes : N := 15.
Definition inviteDescription : string := "Generate an invite token valid for " +:+ itoa DefaultInviteMinutes +:+ " minutes".

Definition storageActions : list ActionDetail :=
  [ {| Domain := ""; Name := "list"; Title := "List Files";
       Description := "List all files in the virtual file system snapshot";
       Parameters := [];
       OutputType := "table";
       Columns :=
          [ column "NAME" "name" "string";
            column "VERSION" "version" "string";
            column "SIZE" "size" "bytes";
            column "SUBSCRIBED" "subscribed" "boolean";
            column "LOCAL" "hasLocal" "boolean";
            column "STATUS" "deleted" "status";
            column "HASH" "hash" "string" ];
       UnixAction := "vfs_list"; SuccessMessage := "";
       Hidden := false; Surfaces := [] |};
    {| Domain := ""; Name := "upload"; Title := "Upload File";
       Description := "Upload a local file into the VFS registry";
       Parameters :=
          [ paramWith "path" "string" true "Absolute or relative path to the local file" "file_picker" "" [] false;
            param "name" "string" false "Optional destination filename inside VFS" ];
       OutputType := "text";
       Columns := [];
       UnixAction := "vfs_upload"; SuccessMessage := "File '{{name}}' uploaded successfully to VFS.";
       Hidden := false; Surfaces := [] |};
    {| Domain := ""; Name := "subscribe"; Title := "Subscribe to File";
       Description := "Subscribe to download updates for a VFS file";
       Parameters :=
          [ vfsNameParam ];
       OutputType := "text";
       Columns := [];
       UnixAction := "vfs_subscribe"; SuccessMessage := "Subscribed to file '{{name}}'. Synchronization triggered.";
       Hidden := false; Surfaces := [] |};
    {| Domain := ""; Name := "unsubscribe"; Title := "Unsubscribe from File";
       Description := "Unsubscribe from updates for a VFS file";
       Parameters :=
          [ vfsNameParam ];
       OutputType := "text";
       Columns := [];
       UnixAction := "vfs_unsubscribe"; SuccessMessage := "Unsubscribed from file '{{name}}'.";
       Hidden := false; Surfaces := [] |};
    {| Domain := ""; Name := "delete"; Title := "Delete File";
       Description := "Mark a file as deleted in the VFS registry";
       Parameters :=
          [ vfsNameParam ];
       OutputType := "text";
       Columns := [];
       UnixAction := "vfs_delete"; SuccessMessage := "File '{{name}}' marked as deleted in VFS registry.";
       Hidden := false; Surfaces := [] |};
    {| Domain := ""; Name := "purge"; Title := "Purge Cache";
       Description := "Purge the local physical cache of a VFS file";
       Parameters :=
          [ vfsNameParam ];
       OutputType := "text";
       Columns := [];
       UnixAction := "vfs_purge"; SuccessMessage := "Physical cache for file '{{name}}' purged from disk.";
       Hidden := false; Surfaces := [] |};
    {| Domain := ""; Name := "open"; Title := "Open File";
       Description := "Download on-demand if missing and open or view a VFS file";
       Parameters :=
          [ vfsNameParam ];
       OutputType := "text";
       Columns := [];
       UnixAction := "vfs_fetch"; SuccessMessage := "";
       Hidden := false; Surfaces := [] |};
    {| Domain := ""; Name := "sync"; Title := "Sync VFS";
       Description := "Trigger VFS synchronization sequence";
       Parameters := [];
       OutputType := "text";
       Columns := [];
       UnixAction := "sync"; SuccessMessage := "Synchronization triggered successfully.";
       Hidden := false; Surfaces := [] |} ].

Definition peersActions : list ActionDetail :=
  [ {| Domain := ""; Name := "list"; Title := "List Peers";
       Description := "View connected cluster peers and status";
       Parameters := [];
       OutputType := "table";
       Columns :=
          [ column "PEER ID" "id" "string";
            column "ADDRESS" "address" "string";
            column "STATUS" "online" "status";
            column "ERROR" "error" "string" ];
       UnixAction := "peers"; SuccessMessage := "";
       Hidden := false; Surfaces := [] |} ].

Definition clusterActions : list ActionDetail :=
  [ {| Domain := ""; Name := "invite"; Title := "Generate Invite";
       Description := inviteDescription;
       Parameters := [];
       OutputType := "text";
       Columns := [];
       UnixAction := "invite_generate"; SuccessMessage := "";
       Hidden := false; Surfaces := [] |};
    {| Domain := ""; Name := "join"; Title := "Join Cluster";
       Description := "Join an existing cluster, writes configuration, and starts the node";
       Parameters :=
          [ param "token" "string" true "Smart Invite Token generated by a sponsor";
            param "node_id" "string" false "Optional Node ID (auto-generated if empty)";
            paramWith "port" "string" false "Listening port for connection" "text" DefaultTCPPort [] false ];
       OutputType := "text";
       Columns := [];
       UnixAction := ""; SuccessMessage := "";
       Hidden := false; Surfaces := ["cli"; "android"] |} ].

Definition telemetryActions : list ActionDetail :=
  [ {| Domain := ""; Name := "logs"; Title := "System Logs";
       Description := "Get the centralized system logs";
       Parameters := [];
       OutputType := "table";
       Columns :=
          [ column "TIME" "timestamp" "string";
            column "LEVEL" "level" "string";
            column "MESSAGE" "message" "string" ];
       UnixAction := "logs"; SuccessMessage := "";
       Hidden := false; Surfaces := [] |};
    {| Domain := ""; Name := "stats"; Title := "Bandwidth Stats";
       Description := "View real-time bandwidth speeds and totals";
       Parameters := [];
       OutputType := "table";
       Columns :=
          [ column "METRIC" "metric" "string";
            column "VALUE" "value" "string" ];
       UnixAction := "bandwidth"; SuccessMessage := "";
       Hidden := false; Surfaces := [] |} ].

Definition serviceActions1 : list ActionDetail :=
  [ {| Domain := ""; Name := "discover"; Title := "Discover Services";
       Description := "Query active services in the cluster";
       Parameters := [];
       OutputType := "table";
       Columns :=
          [ column "SERVICE NAME" "." "string" ];
       UnixAction := "service_discover"; SuccessMessage := "";
       Hidden := false; Surfaces := [] |};
    {| Domain := ""; Name := "add"; Title := "Add Service";
       Description := "Add a new service to the local node";
       Parameters :=
          [ param "name" "string" true "Service name or JSON file path";
            paramWith "type" "string" false "Service type (exec, grpc)" "text" "exec" [] false;
            param "exec" "string" false "Command to execute or gRPC address";
            param "desc" "string" false "Short description of the service";
            param "param" "string" false "Parameters in format 'name:type,name2:type'";
            param "no-required" "string" false "List of optional parameters separated by comma";
            paramWith "schema-file" "string" false "Path to a JSON file containing the complete ServiceSchema" "file_picker" "" [] false ];
       OutputType := "text";
       Columns := [];
       UnixAction := "service_add"; SuccessMessage := "Service '{{name}}' added successfully. Restart the node to apply changes.";
       Hidden := false; Surfaces := [] |};
    {| Domain := ""; Name := "remove"; Title := "Remove Service";
       Description := "Remove a service from the local node";
       Parameters :=
          [ svcNameParam ];
       OutputType := "text";
       Columns := [];
       UnixAction := "service_remove"; SuccessMessage := "Service '{{name}}' removed successfully. Restart the node to apply changes.";
       Hidden := false; Surfaces := [] |};
    {| Domain := ""; Name := "subscribe"; Title := "Subscribe Service";
       Description := "Subscribe to remote service notifies by name or pattern (e.g. vision.*)";
       Parameters :=
          [ param "name" "string" true "Service name or pattern (suffix * / .*)" ];
       OutputType := "text";
       Columns := [];
       UnixAction := "service_subscribe"; SuccessMessage := "Subscribed to service pattern '{{name}}'.";
       Hidden := false; Surfaces := [] |};
    {| Domain := ""; Name := "unsubscribe"; Title := "Unsubscribe Service";
       Description := "Stop filtering interest for a service name or pattern";
       Parameters :=
          [ param "name" "string" true "Service name or pattern to drop" ];
       OutputType := "text";
       Columns := [];
       UnixAction := "service_unsubscribe"; SuccessMessage := "Unsubscribed from service pattern '{{name}}'.";
       Hidden := false; Surfaces := [] |};
    {| Domain := ""; Name := "run"; Title := "Run Service";
       Description := "Execute a compute service (unary, streaming, or file transformation)";
       Parameters :=
          [ param "name" "string" true "Service name to run";
            param "inputs" "string" false "Service inputs in 'key1=val1,key2=val2' format or JSON object";
            paramWith "payload" "string" false "Legacy alias for service inputs in JSON format" "" "" [] true;
            paramWith "strategy" "string" false "Bid sort strategy" "dropdown" "" SortStrategyShortOptions false ];
       OutputType := "json";
       Columns := [];
       UnixAction := "service_run"; SuccessMessage := "";
       Hidden := false; Surfaces := [] |};
    {| Domain := ""; Name := "stream"; Title := "Stream Service";
       Description := "Execute a streaming compute service (IPC)";
       Parameters :=
          [ param "name" "string" true "Service name to stream";
            paramWith "payload" "string" false "Service inputs JSON" "" "" [] true ];
       OutputType := "stream";
       Columns := [];
       UnixAction := "service_stream"; SuccessMessage := "";
       Hidden := true; Surfaces := [] |};
    {| Domain := ""; Name := "detail"; Title := "Service Detail";
       Description := "Resolve raw ServiceSchema for a service (IPC)";
       Parameters :=
          [ svcNameParam ];
       OutputType := "json";
       Columns := [];
       UnixAction := "service_detail"; SuccessMessage := "";
       Hidden := true; Surfaces := [] |};
    {| Domain := ""; Name := "status"; Title := "Task Status";
       Description := "Query status of a specific task execution";
       Parameters :=
          [ param "task_id" "string" false "ID of the task to query" ];
       OutputType := "json";
       Columns := [];
       UnixAction := "service_status"; SuccessMessage := "";
       Hidden := false; Surfaces := [] |};
    {| Domain := ""; Name := "add_pipeline"; Title := "Add Pipeline";
       Description := "Add a service pipeline schema to the cluster";
       Parameters :=
          [ pipelineIDParam;
            param "schema" "string" false "Pipeline schema JSON (alternative to schema-file)";
            paramWith "schema-file" "string" false "Path to JSON file containing the pipeline schema" "file_picker" "" [] false ];
       OutputType := "text";
       Columns := [];
       UnixAction := "pipeline_add"; SuccessMessage := "Pipeline added successfully";
       Hidden := false; Surfaces := [] |};
    {| Domain := ""; Name := "validate_pipeline"; Title := "Validate Pipeline";
       Description := "Validate a pipeline schema JSON without saving (IPC)";
       Parameters :=
          [ param "schema" "string" true "Pipeline schema JSON" ];
       OutputType := "text";
       Columns := [];
       UnixAction := "pipeline_validate"; SuccessMessage := "Pipeline schema is valid";
       Hidden := true; Surfaces := [] |};
    {| Domain := ""; Name := "remove_pipeline"; Title := "Remove Pipeline";
       Description := "Remove a pipeline schema from the cluster";
       Parameters :=
          [ pipelineIDParam ];
       OutputType := "text";
       Columns := [];
       UnixAction := "pipeline_remove"; SuccessMessage := "Pipeline removed successfully";
       Hidden := false; Surfaces := [] |} ].

Definition serviceActions2 : list ActionDetail :=
  [ {| Domain := ""; Name := "get_pipeline"; Title := "Get Pipeline Schema";
       Description := "Retrieve a pipeline schema JSON by ID";
       Parameters :=
          [ pipelineIDParam ];
       OutputType := "json";
       Columns := [];
       UnixAction := "pipeline_get"; SuccessMessage := "";
       Hidden := false; Surfaces := [] |};
    {| Domain := ""; Name := "clone_pipeline"; Title := "Clone Pipeline Schema";
       Description := "Clone and customize a pipeline schema for local target node execution";
       Parameters :=
          [ param "id" "string" true "Existing pipeline identifier to clone";
            param "new_id" "string" false "New ID for cloned pipeline";
            param "target_node" "string" false "Target node ID to assign ($local for current node)" ];
       OutputType := "json";
       Columns := [];
       UnixAction := "pipeline_clone"; SuccessMessage := "";
       Hidden := false; Surfaces := [] |};
    {| Domain := ""; Name := "list_pipelines"; Title := "List Pipelines";
       Description := "List all registered pipeline schemas";
       Parameters := [];
       OutputType := "table";
       Columns :=
          [ column "PIPELINE ID" "id" "string";
            column "VERSION" "version" "string";
            column "STEPS COUNT" "steps" "string" ];
       UnixAction := "pipeline_list"; SuccessMessage := "";
       Hidden := false; Surfaces := [] |};
    {| Domain := ""; Name := "run_pipeline"; Title := "Run Pipeline";
       Description := "Execute a pipeline across the cluster";
       Parameters :=
          [ param "id" "string" true "Pipeline ID to run";
            param "payload" "string" false "Initial input parameters payload in JSON format" ];
       OutputType := "json";
       Columns := [];
       UnixAction := "service_run"; SuccessMessage := "";
       Hidden := false; Surfaces := [] |};
    {| Domain := ""; Name := "edit_pipeline"; Title := "Edit Pipeline";
       Description := "Launch the interactive TUI pipeline editor";
       Parameters :=
          [ param "id" "string" false "Pipeline ID to edit from daemon";
            paramWith "file" "string" false "Path to local JSON schema file to load and edit" "file_picker" "" [] false ];
       OutputType := "text";
       Columns := [];
       UnixAction := ""; SuccessMessage := "";
       Hidden := false; Surfaces := ["cli"] |} ].

(** [Registry] as declared; [init] fills in the domains. *)
Definition declaredRegistry : list DomainDetail :=
  [ {| DName := "storage"; DTitle := "Virtual File System & Storage"; DActions := storageActions |};
    {| DName := "peers"; DTitle := "Connected Peers"; DActions := peersActions |};
    {| DName := "cluster"; DTitle := "Cluster Management"; DActions := clusterActions |};
    {| DName := "telemetry"; DTitle := "Telemetry & Logs"; DActions := telemetryActions |};
    {| DName := "service"; DTitle := "Compute Services"; DActions := serviceActions1 ++ serviceActions2 |} ].

Definition withDomain (domain : string) (a : ActionDetail) : ActionDetail :=
  {| Domain := domain; Name := Name a; Title := Title a; Description := Description a; Parameters := Parameters a;
     OutputType := OutputType a; Columns := Columns a; UnixAction := UnixAction a; SuccessMessage := SuccessMessage a;
     Hidden := Hidden a; Surfaces := Surfaces a |}.

Definition Registry : list DomainDetail :=
  (λ d, {| DName := DName d; DTitle := DTitle d; DActions := withDomain (DName d) <$> DActions d |}) <$> declaredRegistry.

(** ** Looking actions up *)

Definition Key (a : ActionDetail) : string := Domain a +:+ "." +:+ Name a.

Definition VisibleOn (surface : string) (a : ActionDetail) : bool :=
  if Hidden a then false
  else if bool_decide (Surfaces a = []) then true
  else existsb (λ s, bool_decide (s = surface)) (Surfaces a).

Fixpoint findIn (p : ActionDetail → bool) (l : list ActionDetail) : option ActionDetail :=
  match l with [] => None | a :: rest => if p a then Some a else findIn p rest end.

(** [FindAction] and [FindUnixAction] on a registry. *)
Fixpoint FindActionIn (reg : list DomainDetail) (domain name : string) : option ActionDetail :=
  match reg with
  | [] => None
  | d :: rest =>
      if bool_decide (DName d ≠ domain) then FindActionIn rest domain name
      else match findIn (λ a, bool_decide (Name a = name)) (DActions d) with
      | Some a => Some a
      | None => FindActionIn rest domain name
      end
  end.

Fixpoint FindUnixActionIn (reg : list DomainDetail) (unixAction : string) : option ActionDetail :=
  match reg with
  | [] => None
  | d :: rest =>
      match findIn (λ a, bool_decide (UnixAction a = unixAction)) (DActions d) with
      | Some a => Some a
      | None => FindUnixActionIn rest unixAction
      end
  end.

Definition FindAction : string → string → option ActionDetail := FindActionIn Registry.
Definition FindUnixAction : string → option ActionDetail := FindUnixActionIn Registry.

Definition UnixActionFor (domain name : string) : option string :=
  match FindAction domain name with
  | Some a => if bool_decide (UnixAction a = "") then None else Some (UnixAction a)
  | None => None
  end.

Definition allActions : list ActionDetail := Registry ≫= DActions.

Definition AllUnixActions : gmap string string :=
  foldl (λ out a, if bool_decide (UnixAction a = "") || bool_decide (is_Some (out !! UnixAction a)) then out
                  else <[UnixAction a := Key a]> out) ∅ allActions.

Definition shownOn (surface : string) (a : ActionDetail) : bool :=
  if bool_decide (surface = "") then negb (Hidden a) else VisibleOn surface a.

Definition VisibleRegistry (surface : string) : list DomainDetail :=
  List.filter (λ d, match DActions d with [] => false | _ => true end)
    ((λ d, {| DName := DName d; DTitle := DTitle d; DActions := List.filter (shownOn surface) (DActions d) |}) <$> Registry).

(** ** Arguments *)

(** [args[k]]: the empty string when there is none. *)
Definition arg (args : gmap string string) (k : string) : string := default "" (args !! k).

Definition applyDefault (out : gmap string string) (p : ParameterDetail) : gmap string string :=
  if bool_decide (arg out (PdName p) = "") && bool_decide (PdDefaultValue p ≠ "") then <[PdName p := PdDefaultValue p]> out else out.

Definition ApplyDefaults (a : ActionDetail) (args : gmap string string) : gmap string string := foldl applyDefault args (Parameters a).

Definition ActionMissingRequired (a : ActionDetail) (args : gmap string string) : list string :=
  let args := ApplyDefaults a args in
  PdName <$> List.filter (λ p, PdRequired p && bool_decide (TrimSpace (arg args (PdName p)) = "")) (Parameters a).

Definition intStringOK (v : string) : bool :=
  match v with
  | EmptyString => false
  | String c rest =>
      if Ascii.eqb c "+" || Ascii.eqb c "-" then negb (bool_decide (rest = "")) && all_digits rest else all_digits v
  end.

Definition optionAllowed (paramName : string) (options : list string) (value : string) : bool :=
  if existsb (λ o, bool_decide (o = value)) options then true
  else if bool_decide (paramName = "strategy") then
    let short := StrategyShortName value in
    if bool_decide (short = "") then false else existsb (λ o, bool_decide (o = short)) options
  else false.

Definition ParamOptionError (paramName : string) : error := EMsg ("invalid value for parameter '" +:+ paramName +:+ "'").

Definition validateAdminParam (p : ParameterDetail) (v : string) : option error :=
  if bool_decide (PdType p = "bool") && negb (bool_decide (v ∈ ["true"; "false"; "1"; "0"])) then Some (ParamTypeError (PdName p) "bool")
  else if bool_decide (PdType p = "int") && negb (intStringOK v) then Some (ParamTypeError (PdName p) "int")
  else if bool_decide (PdOptions p = []) then None
  else if optionAllowed (PdName p) (PdOptions p) v then None
  else Some (ParamOptionError (PdName p)).

(** The check of the parameters that have a value, in order. *)
Fixpoint validateParams (args : gmap string string) (ps : list ParameterDetail) : option error :=
  match ps with
  | [] => None
  | p :: rest =>
      let v := TrimSpace (arg args (PdName p)) in
      if bool_decide (v = "") then validateParams args rest
      else match validateAdminParam p v with Some e => Some e | None => validateParams args rest end
  end.

Definition ValidateActionArgs (a : ActionDetail) (args : gmap string string) : res (gmap string string) :=
  let args := ApplyDefaults a args in
  match ActionMissingRequired a args with
  | _ :: _ as missing => Err (EMsg ("missing required parameter(s): " +:+ String.concat ", " missing))
  | [] => match validateParams args (Parameters a) with Some e => Err e | None => Ok args end
  end.

Definition firstNonEmpty (values : list string) : string :=
  match List.filter (λ v, negb (bool_decide (v = ""))) values with v :: _ => v | [] => "" end.

Section normalize.
(** The printer of [encoding/json] for a payload; reading a file; the parser
    and the printer of a pipeline schema. *)
Variable json_marshal : gmap string any → option string.
Variable readFile : string → res string.
Variable parseSchema : string → res PipelineSchema.
Variable printSchema : PipelineSchema → string.

Definition normalizeUpload (out : gmap string string) : gmap string string :=
  if bool_decide (arg out "name" = "") && bool_decide (arg out "path" ≠ "")
  then <["name" := filepath_Base (arg out "path")]> out else out.

Definition normalizeRun (out : gmap string string) : gmap string string :=
  let serviceName := firstNonEmpty [arg out "service"; arg out "name"; arg out "id"] in
  let out := <["service" := serviceName]> out in
  let out := if bool_decide (arg out "name" = "") then <["name" := serviceName]> out else out in
  let payload := firstNonEmpty [arg out "payload"; arg out "inputs"; arg out "param"] in
  let payload := if bool_decide (arg out "input" ≠ "") && bool_decide (payload = "") then "input_path=" +:+ arg out "input" else payload in
  <["payload" := NormalizePayloadJSON json_marshal payload]> out.

Definition withSchemaID (id : string) (sch : PipelineSchema) : PipelineSchema :=
  if bool_decide (id = "") then sch
  else {| SchemaID := id; SchemaVersion := SchemaVersion sch; Steps := Steps sch; Connections := Connections sch; SchemaDeleted := SchemaDeleted sch |}.

Definition normalizeAddPipeline (out : gmap string string) : res (gmap string string) :=
  match (if bool_decide (arg out "schema" = "") && bool_decide (arg out "schema-file" ≠ "") then
           match readFile (arg out "schema-file") with
           | Err e => Err e
           | Ok bytes => Ok (<["schema" := bytes]> out)
           end
         else Ok out) with
  | Err e => Err e
  | Ok out =>
      match (if bool_decide (arg out "schema" ≠ "") then
               match parseSchema (arg out "schema") with
               | Err e => Err (EWrap "invalid pipeline schema json" e)
               | Ok schema => Ok (<["schema" := printSchema (withSchemaID (arg out "id") schema)]> out)
               end
             else Ok out) with
      | Err e => Err e
      | Ok out =>
          if bool_decide (TrimSpace (arg out "schema") = "") then Err (EMsg "schema or schema-file required") else Ok out
      end
  end.

Definition NormalizeActionArgs (domain action : string) (args : gmap string string) : res (gmap string string) :=
  let key := domain +:+ "." +:+ action in
  if bool_decide (key = "storage.upload") then Ok (normalizeUpload args)
  else if bool_decide (key ∈ ["service.run"; "service.run_pipeline"; "service.stream"]) then Ok (normalizeRun args)
  else if bool_decide (key = "service.add_pipeline") then normalizeAddPipeline args
  else Ok args.
End normalize.
