(* ===== verification/UnixDispatch.v ===== *)
(** * The daemon's dispatch

    [internal/server/unix_handlers.go] and [unix_listener.go]: an action that
    comes over the socket, or from a surface in the same process
    ([cmd/proxyma-bind/invoke.go]), is checked against the registry and
    becomes a call of the server. *)
From Stdlib Require Import Ascii String.
From S2P Require Import Prelude GoStrings Json Protocol Journal Tasks Payload UiSchema.
Local Open Scope stdpp_scope.

(** ** The handlers *)

(** What a handler asks of the server. *)
Inductive unixCall :=
  | CSync
  | CVFSList
  | CVFSUpload (name path : string)
  | CVFSSubscribe (name : string) (on : bool)
  | CDeleteLocalFile (name : string)
  | CDeleteLocalCache (name : string)
  | CFetchFileOnDemand (name : string)
  | CServiceDiscover
  | CServiceDetail (name : string)
  | CServiceAdd (name type exec desc param noRequired schemaFile : string)
  | CServiceRemove (name : string)
  | CServiceSubscribe (name : string) (on : bool)
  | CServiceStreamRun (service payload : string) (streamVersion : Z)
  | CServiceRun (service payload strategy : string)
  | CAllTaskStatuses
  | CTaskResponse (taskID : string)
  | CInviteGenerate
  | CLogs
  | CBandwidthStats
  | CPeersList
  | CPipelineAdd (schema : string)
  | CPipelineValidate (schema : string)
  | CPipelineRemove (id : string)
  | CPipelineList
  | CPipelineGet (id : string)
  | CPipelineClone (id newID targetNode : string).

Inductive UnixActionHandler :=
  | Unary (f : gmap string string → unixCall)
  | StreamHandler (f : gmap string string → Z → unixCall).

(** The calls of [register] in [init]. *)
Definition registrations : list (string * string * UnixActionHandler) :=
  [ ("storage", "sync", Unary (λ _, CSync));
    ("storage", "list", Unary (λ _, CVFSList));
    ("storage", "upload", Unary (λ args, CVFSUpload (arg args "name") (arg args "path")));
    ("storage", "subscribe", Unary (λ args, CVFSSubscribe (arg args "name") true));
    ("storage", "unsubscribe", Unary (λ args, CVFSSubscribe (arg args "name") false));
    ("storage", "delete", Unary (λ args, CDeleteLocalFile (arg args "name")));
    ("storage", "purge", Unary (λ args, CDeleteLocalCache (arg args "name")));
    ("storage", "open", Unary (λ args, CFetchFileOnDemand (arg args "name")));
    ("service", "discover", Unary (λ _, CServiceDiscover));
    ("service", "detail", Unary (λ args, CServiceDetail (arg args "name")));
    ("service", "add", Unary (λ args, CServiceAdd (arg args "name") (arg args "type") (arg args "exec") (arg args "desc")
                                        (arg args "param") (arg args "no-required") (arg args "schema-file")));
    ("service", "remove", Unary (λ args, CServiceRemove (arg args "name")));
    ("service", "subscribe", Unary (λ args, CServiceSubscribe (arg args "name") true));
    ("service", "unsubscribe", Unary (λ args, CServiceSubscribe (arg args "name") false));
    ("service", "stream", StreamHandler (λ args version, CServiceStreamRun (arg args "service") (arg args "payload") version));
    ("service", "run", Unary (λ args, CServiceRun (arg args "service") (arg args "payload") (arg args "strategy")));
    ("service", "status", Unary (λ args, if bool_decide (arg args "task_id" = "") then CAllTaskStatuses else CTaskResponse (arg args "task_id")));
    ("cluster", "invite", Unary (λ _, CInviteGenerate));
    ("telemetry", "logs", Unary (λ _, CLogs));
    ("telemetry", "stats", Unary (λ _, CBandwidthStats));
    ("peers", "list", Unary (λ _, CPeersList));
    ("service", "add_pipeline", Unary (λ args, CPipelineAdd (arg args "schema")));
    ("service", "validate_pipeline", Unary (λ args, CPipelineValidate (arg args "schema")));
    ("service", "remove_pipeline", Unary (λ args, CPipelineRemove (arg args "id")));
    ("service", "list_pipelines", Unary (λ _, CPipelineList));
    ("service", "get_pipeline", Unary (λ args, CPipelineGet (arg args "id")));
    ("service", "clone_pipeline", Unary (λ args, CPipelineClone (arg args "id") (arg args "new_id") (arg args "target_node"))) ].

(** [MustUnixAction] panics where [UnixActionFor] has none. *)
Fixpoint registerAll (rs : list (string * string * UnixActionHandler)) (table : gmap string UnixActionHandler)
    : option (gmap string UnixActionHandler) :=
  match rs with
  | [] => Some table
  | (domain, action, h) :: rest =>
      match UnixActionFor domain action with
      | Some ua => registerAll rest (<[ua := h]> table)
      | None => None
      end
  end.

(** The table once [init] has run; empty if [init] panicked. *)
Definition unixHandlers : gmap string UnixActionHandler := default ∅ (registerAll registrations ∅).

(** ** Dispatch *)

Definition ServiceStreamVersion : Z := 1.

Definition negotiated (streamVersions : list Z) : Z :=
  if existsb (λ v, (v =? ServiceStreamVersion)%Z) streamVersions then ServiceStreamVersion else 0%Z.

Section dispatch.
Variable json_marshal : gmap string any → option string.
Variable readFile : string → res string.
Variable parseSchema : string → res PipelineSchema.
Variable printSchema : PipelineSchema → string.
Abbreviation NormalizeArgs := (NormalizeActionArgs json_marshal readFile parseSchema printSchema).

Definition validateUnixArgs (unixAction : string) (args : gmap string string) : res (gmap string string) :=
  match FindUnixAction unixAction with
  | None => Err (EMsg ("unknown action: " +:+ unixAction))
  | Some action =>
      match NormalizeArgs (Domain action) (Name action) args with
      | Err e => Err e
      | Ok normalized => ValidateActionArgs action normalized
      end
  end.

Definition CallUnixUnary (unixAction : string) (args : gmap string string) : res unixCall :=
  match unixHandlers !! unixAction with
  | None => Err (EMsg ("unknown action: " +:+ unixAction))
  | Some (StreamHandler _) => Err (EMsg ("action " +:+ unixAction +:+ " is not a unary handler"))
  | Some (Unary f) =>
      match validateUnixArgs unixAction args with
      | Err e => Err e
      | Ok validated => Ok (f validated)
      end
  end.

Definition HasUnixUnary (unixAction : string) : bool :=
  match unixHandlers !! unixAction with Some (Unary _) => true | _ => false end.

(** [handleUnixConnection] on a request that was decoded. *)
Definition handleUnixRequest (unixAction : string) (args : gmap string string) (streamVersions : list Z) : res unixCall :=
  match unixHandlers !! unixAction with
  | None => Err (EMsg ("unknown action: " +:+ unixAction))
  | Some h =>
      match validateUnixArgs unixAction args with
      | Err e => Err e
      | Ok validated => Ok (match h with Unary f => f validated | StreamHandler f => f validated (negotiated streamVersions) end)
      end
  end.

(** What a surface does before it calls the daemon ([InvokeDomainAction],
    [executeActionLocal]). *)
Definition prepareArgs (domain action : string) (args : gmap string string) : res (ActionDetail * gmap string string) :=
  match FindAction domain action with
  | None => Err (EMsg ("unknown action " +:+ domain +:+ "." +:+ action))
  | Some detail =>
      match NormalizeArgs domain action args with
      | Err e => Err e
      | Ok norm => match ValidateActionArgs detail norm with Err e => Err e | Ok norm => Ok (detail, norm) end
      end
  end.

(** With the server in the same process. *)
Definition InvokeDomainAction (domain action : string) (args : gmap string string) : res unixCall :=
  match FindAction domain action with
  | None => Err (EMsg ("unknown action " +:+ domain +:+ "." +:+ action))
  | Some detail =>
      if bool_decide (UnixAction detail = "") then Err (EMsg ("no unix action for " +:+ domain +:+ "." +:+ action))
      else match prepareArgs domain action args with
      | Err e => Err e
      | Ok (detail, norm) => CallUnixUnary (UnixAction detail) norm
      end
  end.
End dispatch.
