(* ===== verification/PayloadLaws.v ===== *)
(** * Laws of service inputs *)
From Stdlib Require Import Ascii String SpecFloat.
From S2P Require Import Prelude GoStrings Json Journal Tasks Bids Payload.
Local Open Scope stdpp_scope.

(** ** Integers as [float64] *)

Lemma digits2_iter m d : digits2_pos (Pos.iter xO m d) = (digits2_pos m + d)%positive.
Proof. induction d as [|d IH] using Pos.peano_ind; simpl; [lia|]. rw Pos.iter_succ /= IH. lia. Qed.

Lemma iter_xO m d : Z.pos (Pos.iter xO m d) = (Z.pos m * 2 ^ Z.pos d)%Z.
Proof.
  induction d as [|d IH] using Pos.peano_ind; simpl; [lia|]. rw Pos.iter_succ Pos2Z.inj_xO IH Pos2Z.inj_succ Z.pow_succ_r; lia.
Qed.

Lemma digits2_bound p n : (Z.pos p < 2 ^ Z.pos n)%Z → (digits2_pos p ≤ n)%positive.
Proof.
  intros Hlt. assert (digits2_pos p = Pos.size p) as -> by (clear Hlt; induction p; simpl; congruence).
  destruct (decide (Pos.size p ≤ n)%positive) as [|Hn]; [done|]. exfalso.
  pose proof (Pos.size_le p) as Hle. apply Pos2Z.pos_le_pos in Hle. rw Pos2Z.inj_pow (Pos2Z.inj_xO p) in Hle.
  pose proof (Z.pow_le_mono_r 2 (Z.succ (Z.pos n)) (Z.pos (Pos.size p)) ltac:(lia) ltac:(lia)) as Hmono.
  rw Z.pow_succ_r in Hmono; [|lia]. change (Z.pos 2) with 2%Z in Hle. lia.
Qed.

(** An integer of at most 53 bits is a value of its own. *)
Lemma binary_round_exact s p :
  (Z.pos p < 2 ^ 53)%Z →
  ∃ m d, binary_round 53 1024 s p 0 = S754_finite s m (- d) ∧ (0 <= d)%Z ∧ Z.pos m = (Z.pos p * 2 ^ d)%Z.
Proof.
  intros Hlt. pose proof (digits2_bound p 53 Hlt) as Hd. unfold binary_round.
  set (D := digits2_pos p) in *. assert (fexp 53 1024 (Z.pos D + 0) = Z.pos D - 53)%Z as Hf by (unfold fexp, emin; lia).
  assert (∀ m e, digits2_pos m = 53%positive → (-1000 <= e <= 0)%Z →
    binary_round_aux 53 1024 s (Z.pos m) e loc_Exact = S754_finite s m e) as Haux.
  { intros m e Hm He. unfold binary_round_aux, shr_fexp. cbn [Zdigits2]. rw Hm.
    assert (fexp 53 1024 (53 + e) - e = 0)%Z as -> by (unfold fexp, emin; lia). cbn [shr shr_record_of_loc shr_m loc_of_shr_record round_nearest_even Zdigits2].
    rw Hm. assert (fexp 53 1024 (53 + e) - e = 0)%Z as -> by (unfold fexp, emin; lia). cbn [shr shr_m].
    assert ((e <=? 1024 - 53)%Z = true) as -> by lia. done. }
  unfold shl_align. rw Hf. destruct (Z.pos D - 53 - 0)%Z as [|q|q] eqn:Heq; [|lia|].
  - exists p, 0%Z. rw Haux; [|lia|lia]. split_and!; [done|done|lia].
  - exists (Pos.iter xO p q), (Z.pos q). rw Haux; [|rw digits2_iter; fold D; lia|lia].
    split_and!; [f_equal; lia|lia|apply iter_xO].
Qed.

Lemma roundDecimal_exact neg n :
  (0 <= n < 2 ^ 53)%Z →
  let f := roundDecimal neg n 0 in
  float_is_int64 f = true ∧ int64_of_float f = (if neg then - n else n)%Z ∧ ∀ b, f ≠ S754_infinity b.
Proof.
  intros [Hn Hlt]. unfold roundDecimal. destruct (n =? 0)%Z eqn:Hz.
  { apply Z.eqb_eq in Hz as ->. simpl. split_and!; [done|by destruct neg|done]. }
  apply Z.eqb_neq in Hz. change (0 <=? 0)%Z with true. cbv iota. rw Z.pow_0_r Z.mul_1_r.
  destruct n as [|p|p]; [done| |lia].
  assert (binary_normalize 53 1024 (if neg then - Z.pos p else Z.pos p)%Z 0 false = binary_round 53 1024 neg p 0) as -> by (by destruct neg).
  destruct (binary_round_exact neg p Hlt) as (m & d & -> & Hd & Hm).
  assert ((if (0 <=? - d)%Z then Z.shiftl (Z.pos m) (- d) else Z.shiftr (Z.pos m) (- - d)) = Z.pos p) as Hmag.
  { destruct (0 <=? - d)%Z eqn:Hle.
    - assert (d = 0)%Z as -> by lia. rw Z.shiftl_0_r. lia.
    - rw Z.opp_involutive Z.shiftr_div_pow2 // Hm Z.div_mul //. lia. }
  unfold float_is_int64, int64_of_float. rw Hmag. split_and!; [| |done].
  - apply andb_true_iff. split; [|destruct neg; lia].
    destruct (0 <=? - d)%Z; [done|]. rw Z.opp_involutive Z.shiftl_mul_pow2 // /= Hm. lia.
  - destruct (_ && _) eqn:Hr; [done|]. unfold min_int64, max_int64 in *. apply andb_false_iff in Hr as [Hr|Hr]; destruct neg; lia.
Qed.

(** ** Decimal text *)

Lemma digit_cases c : in_byte_range 48 57 c = true → ∃ d, (d < 10)%N ∧ c = digit_of d.
Proof.
  unfold in_byte_range, byte_of. intros Hr. exists (N_of_ascii c - 48)%N. apply andb_true_iff in Hr as [H1 H2].
  assert (N_of_ascii c = N.of_nat (nat_of_ascii c)) as Hc by (unfold nat_of_ascii; lia).
  split; [lia|]. unfold digit_of. rw -[c in LHS]ascii_N_embedding. f_equal. lia.
Qed.

Lemma digit_facts d : (d < 10)%N →
  lower_ascii (digit_of d) = digit_of d ∧ floatDigit false (digit_of d) = Some (Z.of_N d) ∧
  Ascii.eqb (digit_of d) "_" = false ∧ Ascii.eqb (digit_of d) "." = false ∧ Ascii.eqb (digit_of d) "+" = false ∧
  Ascii.eqb (digit_of d) "-" = false ∧ Ascii.eqb (digit_of d) "x" = false ∧ Ascii.eqb (digit_of d) " " = false ∧
  digit_of d ≠ "i"%char ∧ digit_of d ≠ "n"%char ∧ digit_of d ≠ "t"%char ∧ digit_of d ≠ "f"%char.
Proof.
  intros Hd. assert (d = 0 ∨ d = 1 ∨ d = 2 ∨ d = 3 ∨ d = 4 ∨ d = 5 ∨ d = 6 ∨ d = 7 ∨ d = 8 ∨ d = 9)%N as Hc by lia.
  repeat destruct Hc as [->|Hc]; subst; done.
Qed.

Lemma ToLower_digits s : all_digits s = true → ToLower s = s.
Proof.
  induction s as [|c s IH]; [done|]. simpl. intros [(d & Hd & ->)%digit_cases Hs]%andb_true_iff.
  destruct (digit_facts d Hd) as [-> _]. by rw IH.
Qed.

Lemma Contains_digits s : all_digits s = true → Contains s " " = false.
Proof.
  induction s as [|c s IH]; [done|]. cbn [all_digits Contains]. intros [(d & Hd & ->)%digit_cases Hs]%andb_true_iff.
  rw IH // orb_false_r. unfold HasPrefix. cbn [String.prefix]. destruct (ascii_dec " " (digit_of d)) as [He|]; [|done].
  destruct (digit_facts d Hd) as (_ & _ & _ & _ & _ & _ & _ & Hsp & _). by rw -He in Hsp.
Qed.

Lemma readMantissa_digits s acc n seen :
  all_digits s = true → parse_digits s acc = Some n →
  readMantissa false (list_ascii_of_string s) (Z.of_N acc) 0 false seen = ((Z.of_N n, 0%Z, seen || negb (bool_decide (s = ""))), []).
Proof.
  revert acc seen. induction s as [|c s IH]; intros acc seen; cbn [all_digits parse_digits list_ascii_of_string readMantissa].
  - intros _ [= ->]. by rw bool_decide_true // orb_false_r.
  - intros [(d & Hd & ->)%digit_cases Hs]%andb_true_iff. rw digit_val_digit_of //. intros Hp.
    destruct (digit_facts d Hd) as (_ & -> & -> & -> & _). cbn [andb]. cbv iota.
    replace (10 * Z.of_N acc + Z.of_N d)%Z with (Z.of_N (acc * 10 + d)) by lia.
    rw (IH (acc * 10 + d)%N true Hs Hp). rw (bool_decide_false (String _ _ = "")) //. by rw orb_true_r.
Qed.

Definition signed (neg : bool) (n : N) : string := (if neg then "-" else "") +:+ itoa n.

Lemma dropSign_signed neg n : dropSign (list_ascii_of_string (signed neg n)) = (neg, list_ascii_of_string (itoa n)).
Proof.
  destruct neg; [done|]. unfold signed. rw str_app_nil_l. pose proof (itoa_digits n) as Hd.
  destruct (itoa n) as [|c s]; [done|]. simpl in *. apply andb_true_iff in Hd as [(d & Hd & ->)%digit_cases _].
  by destruct (digit_facts d Hd) as (_ & _ & _ & _ & -> & -> & _).
Qed.

Lemma itoa_nonempty n : itoa n ≠ "".
Proof. intros He. pose proof (parse_itoa n) as Hp. destruct n; [done|]. by rw He in Hp. Qed.

Lemma signed_chars neg n c : c ∈ list_ascii_of_string (signed neg n) → c = "-"%char ∨ isDigit c = true.
Proof.
  assert (∀ s, all_digits s = true → c ∈ list_ascii_of_string s → isDigit c = true) as Hall.
  { induction s as [|c' s IH]; simpl; [by intros _ ?%elem_of_nil|]. intros [Hc Hs]%andb_true_iff [->|Hin]%elem_of_cons; [done|by apply IH]. }
  destruct neg; unfold signed; [|rw str_app_nil_l; right; by apply (Hall _ (itoa_digits n))].
  simpl. intros [->|Hin]%elem_of_cons; [by left|right]. by apply (Hall _ (itoa_digits n)).
Qed.

Lemma signed_no_letter neg n w c : c ∈ list_ascii_of_string w → c ≠ "-"%char → isDigit c = false → signed neg n ≠ w.
Proof. intros Hc Hm Hd <-. destruct (signed_chars neg n c Hc); congruence. Qed.

Lemma readFloat_signed neg n : readFloat (list_ascii_of_string (signed neg n)) = Some (roundDecimal neg (Z.of_N n) 0).
Proof.
  unfold readFloat. rw dropSign_signed. pose proof (itoa_digits n) as Hd. pose proof (parse_itoa n) as Hp.
  assert (match list_ascii_of_string (itoa n) with
    | z :: x :: _ :: _ => if Ascii.eqb z "0" && Ascii.eqb (lower_ascii x) "x" then (true, drop 2 (list_ascii_of_string (itoa n)))
                          else (false, list_ascii_of_string (itoa n))
    | _ => (false, list_ascii_of_string (itoa n)) end = (false, list_ascii_of_string (itoa n))) as ->.
  { destruct (itoa n) as [|z [|x [|y s]]]; try done. cbn [list_ascii_of_string]. cbn [all_digits] in Hd.
    apply andb_true_iff in Hd as [_ [(d & Hd & ->)%digit_cases _]%andb_true_iff].
    destruct (digit_facts d Hd) as (-> & _ & _ & _ & _ & _ & -> & _). by rw andb_false_r. }
  rw (readMantissa_digits (itoa n) 0 n false Hd Hp) bool_decide_false; [|apply itoa_nonempty]. cbn [orb negb].
  rw (bool_decide_false ("_"%char ∈ _)); [|by intros [|]%signed_chars]. done.
Qed.

Lemma specialFloat_signed neg n : specialFloat (signed neg n) = None.
Proof.
  unfold specialFloat. pose proof (itoa_digits n) as Hd.
  assert (ToLower (signed neg n) = signed neg n) as ->.
  { destruct neg; unfold signed; [|by rw str_app_nil_l ToLower_digits]. simpl. by rw ToLower_digits. }
  assert (∀ w, "n"%char ∈ list_ascii_of_string w → signed neg n ≠ w) as Hw by (intros w Hn; by apply (signed_no_letter neg n w "n"%char)).
  assert (∀ l, Forall (λ w, "n"%char ∈ list_ascii_of_string w) l → signed neg n ∉ l) as Hl.
  { intros l Hl Hin. apply (proj1 (Forall_forall _ _) Hl) in Hin. by apply (Hw (signed neg n)). }
  rw !bool_decide_false //; [apply Hw|apply Hl|apply Hl]; repeat constructor; by apply (bool_decide_unpack _).
Qed.

Lemma ParseFloat_signed neg n : (n < 2 ^ 53)%N → ParseFloat (signed neg n) = Some (roundDecimal neg (Z.of_N n) 0).
Proof.
  intros Hn. unfold ParseFloat. rw specialFloat_signed readFloat_signed.
  destruct (roundDecimal_exact neg (Z.of_N n)) as (_ & _ & Hinf); [lia|].
  destruct (roundDecimal neg (Z.of_N n) 0) as [|b| |]; try done. by destruct (Hinf b).
Qed.

(** In [key=value] inputs an integer of less than 53 bits, given in
    decimal, becomes the JSON integer it denotes; the first one past that
    range becomes another integer. *)
Theorem payload_integers_exact :
  (∀ neg n, (n < 2 ^ 53)%N → payloadValue (signed neg n) = AInt (if neg then - Z.of_N n else Z.of_N n)%Z) ∧
  payloadValue (signed false (2 ^ 53 + 1)) = AInt (2 ^ 53)%Z.
Proof.
  split; [|vm_compute; reflexivity]. intros neg n Hn. unfold payloadValue.
  rw !bool_decide_false; [|by apply (signed_no_letter _ _ _ "f"%char); [apply (bool_decide_unpack _)|..]
    |by apply (signed_no_letter _ _ _ "t"%char); [apply (bool_decide_unpack _)|..]].
  assert (Contains (signed neg n) " " = false) as ->.
  { destruct neg; unfold signed; [|rw str_app_nil_l; apply Contains_digits, itoa_digits].
    apply (Contains_digits (itoa n)), itoa_digits. }
  cbn [negb]. cbv iota. rw ParseFloat_signed //. destruct (roundDecimal_exact neg (Z.of_N n)) as (-> & -> & _); [lia|done].
Qed.

(** ** [TrimSpace] twice *)

Lemma space_width_prefix l k : space_width (byte_of <$> (l ++ k)) = 0 → space_width (byte_of <$> l) = 0.
Proof.
  destruct l as [|a [|b [|c l]]]; simpl; [done|..].
  - destruct k as [|b k]; simpl; [done|]. destruct (_ || _); [done|]. done.
  - destruct k as [|c k]; simpl; [done|]. destruct (_ || _); [done|]. destruct (_ && _); [done|]. done.
  - done.
Qed.

Lemma space_width_le l : space_width l ≤ length l.
Proof. destruct l as [|a [|b [|c l]]]; simpl; repeat case_match; simpl; lia. Qed.

Lemma space_width_rev_le l : space_width_rev l ≤ length l.
Proof.
  unfold space_width_rev. destruct l as [|a l]; [done|]. destruct (_ || _); [simpl; lia|].
  pose proof (space_width_le (reverse (take 2 (a :: l)))) as H2. pose proof (space_width_le (reverse (take 3 (a :: l)))) as H3.
  rw length_reverse length_take in H2. rw length_reverse length_take in H3.
  destruct (_ =? 2)%nat eqn:E2; [apply Nat.eqb_eq in E2; rw E2 in H2; lia|].
  destruct (_ =? 3)%nat eqn:E3; [apply Nat.eqb_eq in E3; rw E3 in H3; lia|lia].
Qed.

Lemma trim_left_spec fuel l :
  length l ≤ fuel → space_width (byte_of <$> trim_left fuel l) = 0.
Proof.
  revert l. induction fuel as [|fuel IH]; intros l Hl; cbn [trim_left]; [by destruct l; [|simpl in Hl; lia]|].
  destruct (space_width (byte_of <$> l)) as [|n] eqn:Hw; [done|]. apply IH. rw length_drop.
  pose proof (space_width_le (byte_of <$> l)) as Hle. rw Hw length_fmap in Hle. lia.
Qed.

Lemma trim_right_rev_spec fuel r :
  length r ≤ fuel → space_width_rev (byte_of <$> trim_right_rev fuel r) = 0 ∧ ∃ k, r = k ++ trim_right_rev fuel r.
Proof.
  revert r. induction fuel as [|fuel IH]; intros r Hr; cbn [trim_right_rev]; [split; [by destruct r; [|simpl in Hr; lia]|by exists []]|].
  destruct (space_width_rev (byte_of <$> r)) as [|n] eqn:Hw; [split; [done|by exists []]|].
  pose proof (space_width_rev_le (byte_of <$> r)) as Hle. rw Hw length_fmap in Hle.
  destruct (IH (drop (S n) r)) as [H1 [k Hk]]; [rw length_drop; lia|]. split; [done|].
  exists (take (S n) r ++ k). by rw -app_assoc -Hk take_drop.
Qed.

Lemma trim_fixed fuel l : space_width (byte_of <$> l) = 0 → trim_left fuel l = l.
Proof. intros Hw. destruct fuel; [done|]. cbn [trim_left]. by rw Hw. Qed.
Lemma trim_rev_fixed fuel r : space_width_rev (byte_of <$> r) = 0 → trim_right_rev fuel r = r.
Proof. intros Hw. destruct fuel; [done|]. cbn [trim_right_rev]. by rw Hw. Qed.

Lemma TrimSpace_idem s : TrimSpace (TrimSpace s) = TrimSpace s.
Proof.
  unfold TrimSpace at 2 3. set (l := trim_left (str_len s) (list_ascii_of_string s)).
  pose proof (trim_left_spec (str_len s) (list_ascii_of_string s) ltac:(rw length_list_ascii; lia)) as Hl. fold l in Hl.
  destruct (trim_right_rev_spec (length l) (reverse l) ltac:(rw length_reverse; lia)) as [Hr [k Hk]].
  set (r := trim_right_rev (length l) (reverse l)) in *.
  assert (l = reverse r ++ reverse k) as Hlk by (rw -reverse_app -Hk reverse_involutive //).
  unfold TrimSpace. rw list_ascii_of_string_of_list_ascii. rw trim_fixed; [|rw Hlk in Hl; by eapply space_width_prefix].
  by rw reverse_involutive trim_rev_fixed.
Qed.

(** ** The payload as a whole *)

Definition json_like (s : string) : bool := HasPrefix s "{" || HasPrefix s "[".

Section marshal.
Variable json_marshal : gmap string any → option string.
(** [encoding/json]: a map becomes an object, without white space around it,
    and fails on an infinite number or NaN. *)
Hypothesis marshal_object : ∀ m s, json_marshal m = Some s → json_like s = true ∧ TrimSpace s = s.
Hypothesis marshal_nonfinite : ∀ m k f, m !! k = Some (AFloat f) → (f = S754_nan ∨ ∃ b, f = S754_infinity b) → json_marshal m = None.

Lemma NormalizePayloadJSON_like raw :
  let out := NormalizePayloadJSON json_marshal raw in out = "" ∨ json_like out = true ∧ TrimSpace out = out.
Proof.
  unfold NormalizePayloadJSON. case_bool_decide; [by right|].
  destruct (_ || _) eqn:Hj; [right; split; [done|apply TrimSpace_idem]|].
  destruct (json_marshal _) as [s|] eqn:Hm; [right; by eapply marshal_object|by left].
Qed.

(** JSON is left as it is. *)
Lemma NormalizePayloadJSON_json s : json_like s = true → TrimSpace s = s → NormalizePayloadJSON json_marshal s = s.
Proof.
  intros Hj Ht. unfold NormalizePayloadJSON. rw Ht. unfold json_like in Hj. case_bool_decide; [by subst|]. by rw Hj.
Qed.

(** Inputs with one value that reads as an infinity or NaN, as the words
    [inf], [infinity] and [nan] do in any case, are all lost: the payload is
    the empty text, which is not JSON. *)
Theorem NormalizePayloadJSON_nonfinite_lost raw k f :
  TrimSpace raw = raw → raw ≠ "" → json_like raw = false →
  payloadOf raw !! k = Some (AFloat f) → (f = S754_nan ∨ ∃ b, f = S754_infinity b) →
  NormalizePayloadJSON json_marshal raw = "".
Proof.
  intros Ht Hne Hj Hk Hf. unfold NormalizePayloadJSON. rw Ht. rw bool_decide_false //. unfold json_like in Hj. rw Hj.
  by rw (marshal_nonfinite _ k f Hk Hf).
Qed.
End marshal.

(** A printer for the witness: it knows objects without numbers that JSON
    lacks, and prints them as one. *)
Definition is_nonfinite (v : any) : bool := match v with AFloat S754_nan | AFloat (S754_infinity _) => true | _ => false end.
Definition demoMarshal (m : gmap string any) : option string :=
  if bool_decide (Exists (λ kv, is_nonfinite kv.2 = true) (map_to_list m)) then None else Some "{}".

Lemma demoMarshal_nonfinite m k f : m !! k = Some (AFloat f) → (f = S754_nan ∨ ∃ b, f = S754_infinity b) → demoMarshal m = None.
Proof.
  intros Hk Hf. unfold demoMarshal. rw bool_decide_true //. apply Exists_exists. exists (k, AFloat f).
  split; [by apply elem_of_map_to_list|]. by destruct Hf as [->|[b ->]].
Qed.

Lemma NormalizePayloadJSON_nonfinite_lost_witness :
  NormalizePayloadJSON demoMarshal "name=report,speaker=Nan" = "" ∧ NormalizePayloadJSON demoMarshal "name=report" = "{}".
Proof.
  split; [|vm_compute; reflexivity].
  apply (NormalizePayloadJSON_nonfinite_lost demoMarshal demoMarshal_nonfinite _ "speaker" S754_nan); try by vm_compute. by left.
Defined.
