(* ===== verification/UiSchemaLaws.v ===== *)
(** * Laws of the action registry and its dispatch *)
From Stdlib Require Import Ascii String.
From S2P Require Import Prelude GoStrings Json Protocol Journal Tasks Payload PayloadLaws UiSchema UnixDispatch.
Local Open Scope stdpp_scope.

#[export] Instance ParameterDetail_eq_dec : EqDecision ParameterDetail.
Proof. solve_decision. Defined.
#[export] Instance TableColumn_eq_dec : EqDecision TableColumn.
Proof. solve_decision. Defined.
#[export] Instance ActionDetail_eq_dec : EqDecision ActionDetail.
Proof. solve_decision. Defined.

(** ** The registry *)

(** An action as a user interface and the daemon need it. *)
Record action_ok (a : ActionDetail) : Prop := {
  ao_found : FindAction (Domain a) (Name a) = Some a;
  ao_output : OutputType a ∈ ["table"; "text"; "json"; "stream"];
  ao_table : Columns a ≠ [] ↔ OutputType a = "table";
  ao_params : NoDup (PdName <$> Parameters a);
  ao_defaults : Forall (λ p, PdRequired p = true → PdDefaultValue p = "") (Parameters a);
  ao_types : Forall (λ p, PdType p ∈ ["string"; "int"; "bool"; "file"]) (Parameters a);
  ao_surface : UnixAction a = "" → Surfaces a ≠ [] ∧ Hidden a = false;
  ao_handler : UnixAction a ≠ "" → ∃ h, unixHandlers !! UnixAction a = Some h ∧
    (match h with StreamHandler _ => True | Unary _ => False end ↔ OutputType a = "stream") }.

Definition handlerKind (ua : string) : option bool :=
  match unixHandlers !! ua with Some (StreamHandler _) => Some true | Some (Unary _) => Some false | None => None end.

Definition action_okb (a : ActionDetail) : bool :=
  bool_decide (FindAction (Domain a) (Name a) = Some a) && bool_decide (OutputType a ∈ ["table"; "text"; "json"; "stream"]) &&
  Bool.eqb (negb (bool_decide (Columns a = []))) (bool_decide (OutputType a = "table")) && bool_decide (NoDup (PdName <$> Parameters a)) &&
  forallb (λ p, negb (PdRequired p) || bool_decide (PdDefaultValue p = "")) (Parameters a) &&
  forallb (λ p, bool_decide (PdType p ∈ ["string"; "int"; "bool"; "file"])) (Parameters a) &&
  (if bool_decide (UnixAction a = "") then negb (bool_decide (Surfaces a = [])) && negb (Hidden a)
   else bool_decide (handlerKind (UnixAction a) = Some (bool_decide (OutputType a = "stream")))).

Lemma action_okb_spec a : action_okb a = true → action_ok a.
Proof.
  unfold action_okb. rw !andb_true_iff !bool_decide_eq_true !forallb_forall. intros ((((((H1 & H2) & H3) & H4) & H5) & H6) & H7).
  apply Bool.eqb_prop in H3. split; try done.
  - rw -(bool_decide_eq_true (OutputType a = "table")) -H3 negb_true_iff bool_decide_eq_false. done.
  - apply Forall_forall. intros p Hp Hreq. specialize (H5 p ltac:(by apply list_elem_of_In)).
    rw Hreq /= in H5. by apply bool_decide_eq_true in H5.
  - apply Forall_forall. intros p Hp. specialize (H6 p ltac:(by apply list_elem_of_In)). by apply bool_decide_eq_true in H6.
  - intros Hu. rw bool_decide_true // andb_true_iff !negb_true_iff bool_decide_eq_false in H7. done.
  - intros Hu. rw bool_decide_false // bool_decide_eq_true in H7. unfold handlerKind in H7.
    destruct (unixHandlers !! UnixAction a) as [[f|f]|]; [| |done]; injection H7 as H7; eexists; (split; [done|]); simpl;
      [symmetry in H7; apply bool_decide_eq_false in H7|symmetry in H7; apply bool_decide_eq_true in H7]; naive_solver.
Qed.

Lemma all_actions_ok a : a ∈ allActions → action_ok a.
Proof.
  intros Ha. apply action_okb_spec. assert (forallb action_okb allActions = true) as Hall by (vm_compute; reflexivity).
  rw forallb_forall in Hall. apply Hall. by apply list_elem_of_In.
Qed.

(** The registry is coherent: no two actions share a key; each action is
    found under its domain and name, has a known output type, columns exactly
    when it is a table, parameters with distinct names and known types, no
    default on a required parameter; an action without a daemon action is
    restricted to surfaces, and one with it has a handler, which streams
    exactly when the action does.  [init] of the daemon does not panic, and its
    handlers are those of the registry, nothing more. *)
Theorem Registry_coherent :
  NoDup (Key <$> allActions) ∧ (∀ a, a ∈ allActions → action_ok a) ∧
  registerAll registrations ∅ = Some unixHandlers ∧ dom unixHandlers = dom AllUnixActions ∧
  (∀ ua key, AllUnixActions !! ua = Some key → ∃ a, FindUnixAction ua = Some a ∧ Key a = key).
Proof.
  split_and!.
  - apply (bool_decide_unpack _). vm_compute. reflexivity.
  - apply all_actions_ok.
  - assert (match registerAll registrations ∅ with Some _ => true | None => false end = true) as Hr by (vm_compute; reflexivity).
    unfold unixHandlers. by destruct (registerAll registrations ∅).
  - apply (bool_decide_unpack _). vm_compute. reflexivity.
  - intros ua key Hk.
    assert (map_Forall (λ ua key, (Key <$> FindUnixAction ua) = Some key) AllUnixActions) as Hall by (apply (bool_decide_unpack _); vm_compute; reflexivity).
    specialize (Hall ua key Hk). simpl in Hall. apply fmap_Some in Hall as (a & Ha & ->). eauto.
Qed.

(** ** Arguments *)

Lemma arg_insert_eq args k v : arg (<[k := v]> args) k = v.
Proof. unfold arg. by rw lookup_insert_eq. Qed.
Lemma arg_insert_ne args k v k' : k ≠ k' → arg (<[k := v]> args) k' = arg args k'.
Proof. intros. unfold arg. by rw lookup_insert_ne. Qed.
Lemma arg_insert args k v k' : arg (<[k := v]> args) k' = if decide (k = k') then v else arg args k'.
Proof. unfold arg. rw lookup_insert. by case_decide. Qed.

(** Nothing left to fill in. *)
Definition defaulted (ps : list ParameterDetail) (args : gmap string string) : Prop :=
  Forall (λ p, arg args (PdName p) ≠ "" ∨ PdDefaultValue p = "") ps.

Lemma applyDefault_id p args : arg args (PdName p) ≠ "" ∨ PdDefaultValue p = "" → applyDefault args p = args.
Proof. unfold applyDefault. intros [H|H]; [by rw bool_decide_false|]. by rw (bool_decide_false (_ ≠ "")) ?andb_false_r; [|naive_solver]. Qed.

Lemma foldl_defaults_id ps args : defaulted ps args → foldl applyDefault args ps = args.
Proof. induction 1 as [|p ps Hp _ IH]; [done|]. simpl. by rw applyDefault_id. Qed.

Lemma applyDefault_keeps args p k : arg args k ≠ "" → arg (applyDefault args p) k = arg args k.
Proof.
  unfold applyDefault. intros Hk. destruct (_ && _) eqn:Hb; [|done]. apply andb_true_iff in Hb as [Hb%bool_decide_eq_true _].
  rw arg_insert. case_decide; [|done]. by subst.
Qed.

Lemma ApplyDefaults_defaulted a args : defaulted (Parameters a) (ApplyDefaults a args).
Proof.
  unfold ApplyDefaults. induction (Parameters a) as [|p ps IH] using rev_ind; [constructor|]. rw foldl_app. simpl.
  set (out := foldl applyDefault args ps) in *. apply Forall_app. split.
  - eapply Forall_impl; [exact IH|]. intros q [Hq|]; [left|by right]. by rw applyDefault_keeps.
  - constructor; [|constructor]. destruct (decide (PdDefaultValue p = "")) as [|Hd]; [by right|left]. unfold applyDefault.
    destruct (decide (arg out (PdName p) = "")) as [He|He]; [|by rw (bool_decide_false (arg out _ = ""))].
    rw !bool_decide_true // /= arg_insert decide_True //.
Qed.

Lemma ApplyDefaults_idem a args : ApplyDefaults a (ApplyDefaults a args) = ApplyDefaults a args.
Proof. apply foldl_defaults_id, ApplyDefaults_defaulted. Qed.

Definition nonblank (s : string) : Prop := TrimSpace s ≠ "".

Lemma validateParams_spec args ps :
  validateParams args ps = None ↔ Forall (λ p, nonblank (arg args (PdName p)) → validateAdminParam p (TrimSpace (arg args (PdName p))) = None) ps.
Proof.
  unfold nonblank. induction ps as [|p ps IH]; simpl; [done|]. rw Forall_cons. case_bool_decide as Hv; [rw IH; naive_solver|].
  destruct (validateAdminParam p _); naive_solver.
Qed.

Lemma ActionMissingRequired_spec a args :
  ActionMissingRequired a args = [] ↔ Forall (λ p, PdRequired p = true → nonblank (arg (ApplyDefaults a args) (PdName p))) (Parameters a).
Proof.
  unfold ActionMissingRequired, nonblank. set (out := ApplyDefaults a args). induction (Parameters a) as [|p ps IH]; simpl; [done|].
  rw Forall_cons -IH. destruct (PdRequired p) eqn:Hr; simpl; [|naive_solver]. case_bool_decide; simpl; naive_solver.
Qed.

(** What an accepted argument list satisfies. *)
Definition args_ok (a : ActionDetail) (out : gmap string string) : Prop :=
  Forall (λ p, (PdRequired p = true → nonblank (arg out (PdName p))) ∧
               (nonblank (arg out (PdName p)) → validateAdminParam p (TrimSpace (arg out (PdName p))) = None)) (Parameters a).

Lemma ValidateActionArgs_ok a args out :
  ValidateActionArgs a args = Ok out ↔ out = ApplyDefaults a args ∧ args_ok a out.
Proof.
  unfold ValidateActionArgs, args_ok. set (d := ApplyDefaults a args).
  rw Forall_and -validateParams_spec. pose proof (ActionMissingRequired_spec a d) as Hm. unfold d in Hm at 2. rw ApplyDefaults_idem in Hm. fold d in Hm.
  destruct (ActionMissingRequired a d) as [|m ms].
  - destruct (validateParams d (Parameters a)) eqn:Hv; split; [done|intros [-> [_ ?]]; congruence| |by intros [-> _]].
    intros [= <-]. split; [done|]. split; [by apply Hm|done].
  - split; [done|]. intros [-> [Hreq _]]. by apply Hm in Hreq.
Qed.

Lemma ValidateActionArgs_again a args out : ValidateActionArgs a args = Ok out → ValidateActionArgs a out = Ok out.
Proof. rw !ValidateActionArgs_ok. intros [-> Hok]. by rw ApplyDefaults_idem. Qed.

(** Arguments are accepted exactly when, with the defaults filled in, each
    required parameter is not blank and each parameter that is not blank fits
    its type and its options; what is returned is the arguments with the
    defaults, and they are accepted again unchanged. *)
Theorem ValidateActionArgs_spec a args out :
  ValidateActionArgs a args = Ok out ↔
  out = ApplyDefaults a args ∧ ValidateActionArgs a out = Ok out ∧
  Forall (λ p, (PdRequired p = true → nonblank (arg out (PdName p))) ∧
               (nonblank (arg out (PdName p)) → validateAdminParam p (TrimSpace (arg out (PdName p))) = None)) (Parameters a).
Proof.
  split; [intros Hv|intros (-> & _ & Hok); by apply ValidateActionArgs_ok]. split_and!; [|by eapply ValidateActionArgs_again|];
    by apply ValidateActionArgs_ok in Hv as [-> ?].
Qed.

(** ** Normalizing twice *)

Section stable.
Variable json_marshal : gmap string any → option string.
Variable readFile : string → res string.
Variable parseSchema : string → res PipelineSchema.
Variable printSchema : PipelineSchema → string.
(** [encoding/json]: objects are printed as such, and a schema that was read
    and printed is read back. *)
Hypothesis marshal_object : ∀ m s, json_marshal m = Some s → json_like s = true ∧ TrimSpace s = s.
Hypothesis schema_roundtrip : ∀ s sch id,
  parseSchema s = Ok sch → parseSchema (printSchema (withSchemaID id sch)) = Ok (withSchemaID id sch).

Lemma filepath_Base_nonempty p : filepath_Base p ≠ "".
Proof. unfold filepath_Base. destruct p as [|c p]; [done|]. by case_match. Qed.

Lemma normalizeUpload_idem args : normalizeUpload (normalizeUpload args) = normalizeUpload args.
Proof.
  unfold normalizeUpload at 2. destruct (_ && _) eqn:Hb; [|unfold normalizeUpload; by rw Hb].
  unfold normalizeUpload. rw Hb (bool_decide_false (arg _ "name" = "")) //. rw arg_insert_eq. apply filepath_Base_nonempty.
Qed.

Lemma firstNonEmpty_head v vs : v ≠ "" → firstNonEmpty (v :: vs) = v.
Proof. intros Hv. unfold firstNonEmpty. simpl. by rw bool_decide_false. Qed.

Lemma firstNonEmpty_empty vs : firstNonEmpty vs = "" → Forall (λ v, v = "") vs.
Proof.
  unfold firstNonEmpty. induction vs as [|v vs IH]; [constructor|]. simpl. case_bool_decide as Hv; simpl; [|done].
  intros H. constructor; auto.
Qed.

Lemma insert_same (args : gmap string string) k v : args !! k = Some v → <[k := v]> args = args.
Proof. apply insert_id. Qed.

Lemma normalizeRun_idem args :
  arg (normalizeRun json_marshal args) "payload" ≠ "" →
  normalizeRun json_marshal (normalizeRun json_marshal args) = normalizeRun json_marshal args.
Proof.
  set (service := firstNonEmpty [arg args "service"; arg args "name"; arg args "id"]).
  set (out1 := <["service" := service]> args).
  set (out2 := if bool_decide (arg out1 "name" = "") then <["name" := service]> out1 else out1).
  set (raw := firstNonEmpty [arg out2 "payload"; arg out2 "inputs"; arg out2 "param"]).
  set (raw' := if bool_decide (arg out2 "input" ≠ "") && bool_decide (raw = "") then "input_path=" +:+ arg out2 "input" else raw).
  set (payload := NormalizePayloadJSON json_marshal raw').
  assert (normalizeRun json_marshal args = <["payload" := payload]> out2) as -> by done.
  rw {1}/arg lookup_insert_eq. cbn [default]. intros Hp.
  assert (out2 !! "service" = Some service) as Hs.
  { unfold out2. case_bool_decide; [rw lookup_insert_ne; [|done]|]; apply lookup_insert_eq. }
  assert (arg out2 "name" = "" → service = "") as Hname.
  { unfold out2. case_bool_decide as Hn; [|done]. by rw arg_insert_eq. }
  unfold normalizeRun.
  assert (firstNonEmpty [arg (<["payload":=payload]> out2) "service"; arg (<["payload":=payload]> out2) "name";
    arg (<["payload":=payload]> out2) "id"] = service) as ->.
  { rw !arg_insert_ne //. assert (arg out2 "service" = service) as -> by (unfold arg; by rw Hs).
    destruct (decide (service = "")) as [He|He]; [|by apply firstNonEmpty_head].
    assert (Forall (λ v, v = "") [arg args "service"; arg args "name"; arg args "id"]) as Hall by (by apply firstNonEmpty_empty).
    apply Forall_cons in Hall as [_ [Hn [Hi _]%Forall_cons]%Forall_cons].
    assert (arg out2 "name" = "" ∧ arg out2 "id" = "") as [-> ->]; [|by rw He].
    unfold out2, out1. case_bool_decide; rw ?arg_insert_eq; rw ?arg_insert_ne //; by rw He. }
  rw (insert_same _ "service" service); [|by rw lookup_insert_ne].
  rw (arg_insert_ne out2 "payload" payload "name") //.
  assert ((if bool_decide (arg out2 "name" = "") then <["name" := service]> (<["payload" := payload]> out2)
           else <["payload" := payload]> out2) = <["payload" := payload]> out2) as ->.
  { case_bool_decide as Hn; [|done]. apply insert_same. rw lookup_insert_ne //. rw (Hname Hn).
    unfold out2 in Hn |- *. destruct (bool_decide (arg out1 "name" = "")) eqn:Hb; [by rw lookup_insert_eq (Hname Hn)|].
    by apply bool_decide_eq_false in Hb. }
  rw (firstNonEmpty_head (arg (<["payload":=payload]> out2) "payload")); [|by rw arg_insert_eq].
  rw (arg_insert_eq out2 "payload" payload) (bool_decide_false (payload = "")) // andb_false_r.
  destruct (NormalizePayloadJSON_like json_marshal marshal_object raw') as [|[Hj Ht]]; [done|].
  rw NormalizePayloadJSON_json //. by rw insert_insert_eq.
Qed.

Lemma withSchemaID_idem id sch : withSchemaID id (withSchemaID id sch) = withSchemaID id sch.
Proof. unfold withSchemaID. by case_bool_decide. Qed.

Abbreviation NormalizeArgs := (NormalizeActionArgs json_marshal readFile parseSchema printSchema).

Lemma normalizeAddPipeline_idem args out :
  normalizeAddPipeline readFile parseSchema printSchema args = Ok out →
  normalizeAddPipeline readFile parseSchema printSchema out = Ok out.
Proof.
  unfold normalizeAddPipeline at 1.
  destruct (if bool_decide (arg args "schema" = "") && _ then _ else _) as [out1|]; [|done].
  case_bool_decide as Hs; [|case_bool_decide as Ht; [done|by rw Hs in Ht]].
  destruct (parseSchema (arg out1 "schema")) as [sch|] eqn:Hparse; [|done]. case_bool_decide as Ht; [done|]. intros [= <-].
  rw arg_insert_eq in Ht. set (sch' := withSchemaID (arg out1 "id") sch) in *.
  assert (printSchema sch' ≠ "") as Hne by (intros He; by rw He in Ht).
  unfold normalizeAddPipeline. rw !arg_insert_eq (bool_decide_false (printSchema sch' = "")) //= arg_insert_eq bool_decide_true //.
  rw (schema_roundtrip _ _ (arg out1 "id") Hparse) -/sch'. rw (arg_insert_ne out1 "schema" _ "id") //.
  assert (withSchemaID (arg out1 "id") sch' = sch') as -> by apply withSchemaID_idem.
  rw insert_insert_eq arg_insert_eq. by rw bool_decide_false.
Qed.

Lemma NormalizeActionArgs_idem domain action args out :
  NormalizeArgs domain action args = Ok out →
  (domain +:+ "." +:+ action ∈ ["service.run"; "service.run_pipeline"; "service.stream"] → arg out "payload" ≠ "") →
  NormalizeArgs domain action out = Ok out.
Proof.
  unfold NormalizeActionArgs. case_bool_decide; [intros [= <-] _; by rw normalizeUpload_idem|].
  case_bool_decide as Hrun; [intros [= <-] Hp; f_equal; by apply normalizeRun_idem, Hp|].
  case_bool_decide; [intros Hn _; by eapply normalizeAddPipeline_idem|done].
Qed.

(** ** Actions of the registry *)

Lemma FindActionIn_spec reg domain name a :
  (∀ d, d ∈ reg → Forall (λ a, Domain a = DName d) (DActions d)) →
  FindActionIn reg domain name = Some a → a ∈ reg ≫= DActions ∧ Domain a = domain ∧ Name a = name.
Proof.
  intros Hdom. induction reg as [|d reg IH]; cbn [FindActionIn]; [done|].
  assert (FindActionIn reg domain name = Some a → a ∈ (d :: reg) ≫= DActions ∧ Domain a = domain ∧ Name a = name) as IH'.
  { intros H. destruct IH as (Hin & ? & ?); [intros d' Hd'; apply Hdom; by apply list_elem_of_further|done|].
    split_and!; [|done|done]. rw bind_cons elem_of_app. by right. }
  case_bool_decide as Hd; [exact IH'|]. destruct (findIn _ (DActions d)) as [b|] eqn:Hf; [|exact IH'].
  intros [= ->]. pose proof (Hdom d (list_elem_of_here _ _)) as Hall.
  assert (a ∈ DActions d ∧ Name a = name) as [Hin Hn].
  { clear -Hf. induction (DActions d) as [|b l IH]; simpl in *; [done|]. case_bool_decide.
    - injection Hf as ->. split; [apply list_elem_of_here|done].
    - destruct (IH Hf). split; [by apply list_elem_of_further|done]. }
  split_and!; [rw bind_cons elem_of_app; by left| |done]. rw -Hd. by apply (proj1 (Forall_forall _ _) Hall).
Qed.

Lemma FindAction_spec domain name a : FindAction domain name = Some a → a ∈ allActions ∧ Domain a = domain ∧ Name a = name.
Proof.
  apply FindActionIn_spec. unfold Registry. intros d (d0 & -> & Hd0)%list_elem_of_fmap. simpl. by apply Forall_fmap, Forall_true.
Qed.

(** The actions whose arguments are rewritten have no defaults. *)
Lemma normalized_no_defaults a :
  a ∈ allActions → Key a ∈ ["storage.upload"; "service.run"; "service.run_pipeline"; "service.stream"; "service.add_pipeline"] →
  Forall (λ p, PdDefaultValue p = "") (Parameters a).
Proof.
  intros Ha Hk. assert (Forall (λ a, Key a ∈ ["storage.upload"; "service.run"; "service.run_pipeline"; "service.stream"; "service.add_pipeline"] →
    Forall (λ p, PdDefaultValue p = "") (Parameters a)) allActions) as Hall by (apply (bool_decide_unpack _); vm_compute; reflexivity).
  by apply (proj1 (Forall_forall _ _) Hall a Ha).
Qed.

Lemma NormalizeActionArgs_other domain action args :
  domain +:+ "." +:+ action ∉ ["storage.upload"; "service.run"; "service.run_pipeline"; "service.stream"; "service.add_pipeline"] →
  NormalizeArgs domain action args = Ok args.
Proof. intros Hk. unfold NormalizeActionArgs. rw !bool_decide_false //; intros Hin; apply Hk; set_solver. Qed.

(** What a surface prepares is what the daemon runs: arguments that a
    surface normalized and checked for an action pass the daemon's own
    normalization and check of its daemon action unchanged, unless the action
    is an alias of another, or the inputs were lost on the way. *)
Theorem prepared_args_stable domain action args detail norm :
  prepareArgs json_marshal readFile parseSchema printSchema domain action args = Ok (detail, norm) →
  FindUnixAction (UnixAction detail) = Some detail →
  (Key detail ∈ ["service.run"; "service.run_pipeline"; "service.stream"] → arg norm "payload" ≠ "") →
  validateUnixArgs json_marshal readFile parseSchema printSchema (UnixAction detail) norm = Ok norm.
Proof.
  unfold prepareArgs. destruct (FindAction domain action) as [a|] eqn:Hf; [|done].
  destruct (NormalizeArgs domain action args) as [out|] eqn:Hn; [|done].
  destruct (ValidateActionArgs a out) as [out'|] eqn:Hv; [|done]. intros [= -> ->] Hcanon Hpay.
  destruct (FindAction_spec _ _ _ Hf) as (Hin & <- & <-). unfold validateUnixArgs. rw Hcanon.
  enough (NormalizeArgs (Domain detail) (Name detail) norm = Ok norm) as -> by (by eapply ValidateActionArgs_again).
  destruct (decide (Key detail ∈ ["storage.upload"; "service.run"; "service.run_pipeline"; "service.stream"; "service.add_pipeline"])) as [Hk|Hk];
    [|by apply NormalizeActionArgs_other].
  apply ValidateActionArgs_ok in Hv as [-> _].
  assert (ApplyDefaults detail out = out) as Hid.
  { apply foldl_defaults_id. eapply Forall_impl; [by apply normalized_no_defaults|]. auto. }
  rw Hid in Hpay |- *. by eapply NormalizeActionArgs_idem.
Qed.

(** ** What the daemon calls *)

Abbreviation validate := (validateUnixArgs json_marshal readFile parseSchema printSchema).

Definition requiredNames (a : ActionDetail) : list string := PdName <$> List.filter PdRequired (Parameters a).
Definition requiredOf (ua : string) : list string := match FindUnixAction ua with Some a => requiredNames a | None => [] end.

Lemma validated_required ua args out k : validate ua args = Ok out → k ∈ requiredOf ua → nonblank (arg out k).
Proof.
  unfold validateUnixArgs, requiredOf, requiredNames. destruct (FindUnixAction ua) as [a|]; [|done].
  destruct (NormalizeActionArgs _ _ _ _ _ _ _) as [n|]; [|done]. intros [_ Hok]%ValidateActionArgs_ok (p & -> & Hp)%list_elem_of_fmap.
  apply list_elem_of_In, filter_In in Hp as [Hp%list_elem_of_In Hreq]. by apply (proj1 (Forall_forall _ _) Hok p Hp).
Qed.

Lemma blank_empty s : nonblank s → s ≠ "".
Proof. by intros H ->. Qed.

(** The daemon action of an action that is rewritten: validated arguments are
    normalized ones. *)
Lemma validated_normal ua args out a :
  validate ua args = Ok out → FindUnixAction ua = Some a → Forall (λ p, PdDefaultValue p = "") (Parameters a) →
  NormalizeArgs (Domain a) (Name a) args = Ok out.
Proof.
  unfold validateUnixArgs. intros Hv Hf Hd. rw Hf in Hv. destruct (NormalizeActionArgs _ _ _ _ _ _ _) as [n|]; [|done].
  apply ValidateActionArgs_ok in Hv as [-> _]. f_equal. symmetry. apply foldl_defaults_id. eapply Forall_impl; [exact Hd|]. auto.
Qed.

(** An action of the registry, by its daemon action, with no defaults. *)
Lemma canonical ua domain name :
  match FindUnixAction ua with
  | Some a => bool_decide (Domain a = domain) && bool_decide (Name a = name) && forallb (λ p, bool_decide (PdDefaultValue p = "")) (Parameters a)
  | None => false
  end = true →
  ∀ args out, validate ua args = Ok out → NormalizeArgs domain name args = Ok out.
Proof.
  destruct (FindUnixAction ua) as [a|] eqn:Hf; [|done]. rw !andb_true_iff !bool_decide_eq_true forallb_forall. intros [[<- <-] Hd] args out Hv.
  eapply validated_normal; [exact Hv|exact Hf|]. apply Forall_forall. intros p Hp. specialize (Hd p ltac:(by apply list_elem_of_In)).
  by apply bool_decide_eq_true in Hd.
Qed.

Lemma run_payload args : let p := arg (normalizeRun json_marshal args) "payload" in p = "" ∨ json_like p = true.
Proof.
  unfold normalizeRun. cbv zeta. rw arg_insert_eq. edestruct (NormalizePayloadJSON_like json_marshal marshal_object) as [H|[H _]]; [left; exact H|right; exact H].
Qed.

Lemma firstNonEmpty_elem vs : firstNonEmpty vs ≠ "" → firstNonEmpty vs ∈ vs.
Proof.
  unfold firstNonEmpty. induction vs as [|v vs IH]; simpl; [done|]. case_bool_decide as Hv; simpl; [|intros _; apply list_elem_of_here].
  intros H. apply list_elem_of_further. auto.
Qed.

Lemma run_service_given args :
  arg (normalizeRun json_marshal args) "service" = firstNonEmpty [arg args "service"; arg args "name"; arg args "id"].
Proof.
  unfold normalizeRun. cbv zeta. rw !(arg_insert_ne _ "payload") //. case_bool_decide; [rw arg_insert_ne //|]; by rw arg_insert_eq.
Qed.

Lemma run_service args : arg (normalizeRun json_marshal args) "name" ≠ "" → arg (normalizeRun json_marshal args) "service" ≠ "".
Proof.
  unfold normalizeRun. cbv zeta. set (service := firstNonEmpty _). rw !(arg_insert_ne _ "payload") //.
  set (out1 := <["service" := service]> args). intros Hn Hs.
  assert (service = "") as He.
  { destruct (bool_decide (arg out1 "name" = "")) in Hs; [rw arg_insert_ne // in Hs|]; unfold out1 in Hs; by rw arg_insert_eq in Hs. }
  assert (Forall (λ v, v = "") [arg args "service"; arg args "name"; arg args "id"]) as Hall by (by apply firstNonEmpty_empty).
  apply Forall_cons in Hall as [_ [Hname _]%Forall_cons]. apply Hn.
  assert (arg out1 "name" = "") as Ho by (unfold out1; by rw arg_insert_ne). rw bool_decide_true // arg_insert_eq //.
Qed.

Lemma upload_name args : nonblank (arg (normalizeUpload args) "path") → arg (normalizeUpload args) "name" ≠ "".
Proof.
  unfold normalizeUpload. destruct (_ && _) eqn:Hb; [intros _; rw arg_insert_eq; apply filepath_Base_nonempty|].
  intros Hp Hn. apply andb_false_iff in Hb as [Hb|Hb]; [by apply bool_decide_eq_false in Hb|].
  apply bool_decide_eq_false in Hb. by apply Hb, blank_empty.
Qed.

Lemma add_pipeline_schema args out :
  normalizeAddPipeline readFile parseSchema printSchema args = Ok out → nonblank (arg out "id") →
  ∃ sch, arg out "schema" = printSchema sch ∧ SchemaID sch = arg out "id" ∧ arg out "id" = arg args "id".
Proof.
  unfold normalizeAddPipeline. destruct (if bool_decide (arg args "schema" = "") && _ then _ else _) as [out1|] eqn:Hfile; [|done].
  assert (arg out1 "id" = arg args "id") as Hsame.
  { revert Hfile. destruct (_ && _); [|by intros [= <-]]. destruct (readFile _); [|done]. intros [= <-]. by rw arg_insert_ne. }
  clear Hfile.
  case_bool_decide as Hs; [|case_bool_decide as Ht; [done|by rw Hs in Ht]].
  destruct (parseSchema (arg out1 "schema")) as [sch|]; [|done]. case_bool_decide; [done|]. intros [= <-].
  rw arg_insert_eq arg_insert_ne //. intros Hid%blank_empty. eexists. split; [done|]. unfold withSchemaID. by rw bool_decide_false.
Qed.

(** The names of the sort strategies, without regard to case and the space
    around. *)
Definition strategy_names : list string :=
  ["fastest"; "cheapest"; "low_power"; "low-power"; "lowpower";
   "proxyma/strategy/fastest"; "proxyma/strategy/cheapest"; "proxyma/strategy/low_power"].

Definition known_strategy (s : string) : Prop := ToLower (TrimSpace s) ∈ strategy_names.

Lemma ToLower_empty s : ToLower s = "" → s = "".
Proof. by destruct s. Qed.

Lemma optionAllowed_strategy s :
  nonblank s → optionAllowed "strategy" SortStrategyShortOptions (TrimSpace s) = true → known_strategy s.
Proof.
  intros Hs Hopt. destruct (decide (known_strategy s)) as [|Hno]; [done|]. exfalso. revert Hopt.
  assert (∀ l, bool_decide (Forall (λ x, x ≠ "" → x ∈ strategy_names) l) = true → ToLower (TrimSpace s) ∉ l) as Hlow.
  { intros l Hl%bool_decide_eq_true Hin. apply Hno. apply (proj1 (Forall_forall _ _) Hl _ Hin). by intros ?%ToLower_empty. }
  assert (∀ x, bool_decide (ToLower x ∈ strategy_names) = true → TrimSpace s ≠ x) as Hname.
  { intros x Hx%bool_decide_eq_true <-. by apply Hno. }
  unfold optionAllowed. destruct (existsb _ _) eqn:Hex.
  { intros _. apply existsb_exists in Hex as (o & Ho%list_elem_of_In & He%bool_decide_eq_true). symmetry in He. revert He.
    apply Hname. revert o Ho. apply Forall_forall, (bool_decide_unpack _). by vm_compute. }
  rw bool_decide_true //. unfold StrategyShortName, NormalizeSortStrategy. rw TrimSpace_idem.
  rw !(bool_decide_false (ToLower _ ∈ _)); [|apply Hlow; by vm_compute..].
  rw !(bool_decide_false (TrimSpace s = _)); [done|apply Hname; by vm_compute..].
Qed.

(** What a call of the server may rely on, made for the arguments [args]. *)
Definition call_ok (args : gmap string string) (c : unixCall) : Prop :=
  match c with
  | CVFSUpload name path => nonblank path ∧ name ≠ "" ∧ (name = arg args "name" ∨ arg args "name" = "" ∧ name = filepath_Base path)
  | CVFSSubscribe name _ | CDeleteLocalFile name | CDeleteLocalCache name | CFetchFileOnDemand name
  | CServiceDetail name | CServiceRemove name | CServiceSubscribe name _ => nonblank name
  | CServiceAdd name type _ _ _ _ _ => nonblank name ∧ type ≠ ""
  | CServiceStreamRun service payload version =>
      service ≠ "" ∧ service ∈ [arg args "service"; arg args "name"; arg args "id"] ∧
      (payload = "" ∨ json_like payload = true) ∧ (version = 0 ∨ version = ServiceStreamVersion)%Z
  | CServiceRun service payload strategy =>
      service ≠ "" ∧ service ∈ [arg args "service"; arg args "name"; arg args "id"] ∧
      (payload = "" ∨ json_like payload = true) ∧ (nonblank strategy → known_strategy strategy)
  | CTaskResponse taskID => taskID ≠ ""
  | CPipelineAdd schema => nonblank (arg args "id") ∧ ∃ sch, schema = printSchema sch ∧ SchemaID sch = arg args "id"
  | CPipelineValidate schema => nonblank schema
  | CPipelineRemove id | CPipelineGet id | CPipelineClone id _ _ => nonblank id
  | _ => True
  end.

Lemma registerAll_spec rs table table' ua h :
  registerAll rs table = Some table' → table' !! ua = Some h →
  table !! ua = Some h ∨ ∃ domain action, (domain, action, h) ∈ rs ∧ UnixActionFor domain action = Some ua.
Proof.
  revert table. induction rs as [|[[domain action] h'] rs IH]; intros table; simpl; [intros [= ->]; by left|].
  destruct (UnixActionFor domain action) as [ua'|] eqn:Hu; [|done]. intros Hr Hh.
  destruct (IH _ Hr Hh) as [[[<- <-]|[_ Hold]]%lookup_insert_Some|(d & a & Hin & ?)].
  - right. exists domain, action. split; [apply list_elem_of_here|done].
  - by left.
  - right. exists d, a. split; [by apply list_elem_of_further|done].
Qed.

(** A handler's call on arguments that were validated. *)
Definition handler_ok (ua : string) (h : UnixActionHandler) : Prop :=
  ∀ args out, validate ua args = Ok out →
  match h with
  | Unary f => call_ok args (f out)
  | StreamHandler f => ∀ vs, call_ok args (f out (negotiated vs))
  end.

Lemma handler_required ua (f : gmap string string → unixCall) k :
  k ∈ requiredOf ua → (∀ args out, nonblank (arg out k) → call_ok args (f out)) → handler_ok ua (Unary f).
Proof. intros Hk Hf args out Hv. apply Hf. by eapply validated_required. Qed.

Lemma handler_free ua (f : gmap string string → unixCall) : (∀ args out, call_ok args (f out)) → handler_ok ua (Unary f).
Proof. intros Hf args out _. apply Hf. Qed.

Definition defaultedOf (ua : string) : list string :=
  match FindUnixAction ua with Some a => PdName <$> List.filter (λ p, negb (bool_decide (PdDefaultValue p = ""))) (Parameters a) | None => [] end.

Lemma validated_default ua args out k : validate ua args = Ok out → k ∈ defaultedOf ua → arg out k ≠ "".
Proof.
  unfold validateUnixArgs, defaultedOf. destruct (FindUnixAction ua) as [a|]; [|done].
  destruct (NormalizeActionArgs _ _ _ _ _ _ _) as [n|]; [|done]. intros [-> _]%ValidateActionArgs_ok (p & -> & Hp)%list_elem_of_fmap.
  apply list_elem_of_In, filter_In in Hp as [Hp%list_elem_of_In Hd]. apply negb_true_iff, bool_decide_eq_false in Hd.
  by destruct (proj1 (Forall_forall _ _) (ApplyDefaults_defaulted a n) p Hp).
Qed.

Definition strategyParam (ua : string) : bool :=
  match FindUnixAction ua with
  | Some a => existsb (λ p, bool_decide (PdName p = "strategy") && bool_decide (PdType p = "string") && bool_decide (PdOptions p = SortStrategyShortOptions)) (Parameters a)
  | None => false
  end.

Lemma validated_strategy ua args out :
  validate ua args = Ok out → strategyParam ua = true → nonblank (arg out "strategy") →
  known_strategy (arg out "strategy").
Proof.
  intros Hrun Hpar Hblank. apply optionAllowed_strategy; [done|]. revert Hrun Hpar Hblank. unfold validateUnixArgs, strategyParam. destruct (FindUnixAction ua) as [a|]; [|done].
  destruct (NormalizeActionArgs _ _ _ _ _ _ _) as [n|]; [|done]. intros [_ Hok]%ValidateActionArgs_ok (p & Hp & Hs)%existsb_exists Hn.
  rw !andb_true_iff !bool_decide_eq_true in Hs. destruct Hs as [[Hname Htype] Hopt].
  destruct (proj1 (Forall_forall _ _) Hok p ltac:(by apply list_elem_of_In)) as [_ Hv]. rw Hname in Hv. specialize (Hv Hn).
  unfold validateAdminParam in Hv. rw Htype Hopt Hname /= in Hv. by destruct (optionAllowed _ _ _).
Qed.

Lemma upload_ok : handler_ok "vfs_upload" (Unary (λ args, CVFSUpload (arg args "name") (arg args "path"))).
Proof.
  intros args out Hv. assert (nonblank (arg out "path")) as Hp.
  { eapply validated_required; [exact Hv|]. apply (bool_decide_unpack _). vm_compute. reflexivity. }
  apply (canonical "vfs_upload" "storage" "upload") in Hv; [|vm_compute; reflexivity]. injection Hv as <-.
  split_and!; [done|by apply upload_name|]. unfold normalizeUpload. destruct (_ && _) eqn:Hb; [|by left].
  apply andb_true_iff in Hb as [Hb%bool_decide_eq_true _]. right. by rw arg_insert_eq arg_insert_ne.
Qed.

Lemma add_ok : handler_ok "service_add" (Unary (λ args, CServiceAdd (arg args "name") (arg args "type") (arg args "exec") (arg args "desc")
  (arg args "param") (arg args "no-required") (arg args "schema-file"))).
Proof.
  intros args out Hv. split; [eapply validated_required; [exact Hv|]|eapply validated_default; [exact Hv|]];
    apply (bool_decide_unpack _); vm_compute; reflexivity.
Qed.

Lemma stream_ok : handler_ok "service_stream" (StreamHandler (λ args version, CServiceStreamRun (arg args "service") (arg args "payload") version)).
Proof.
  intros args out Hv vs. assert (nonblank (arg out "name")) as Hn.
  { eapply validated_required; [exact Hv|]. apply (bool_decide_unpack _). vm_compute. reflexivity. }
  apply (canonical "service_stream" "service" "stream") in Hv; [|vm_compute; reflexivity]. injection Hv as <-.
  pose proof (run_service args (blank_empty _ Hn)) as Hs.
  split_and!; [done|rw run_service_given in Hs; rw run_service_given; by apply firstNonEmpty_elem|apply run_payload|]. unfold negotiated. destruct (existsb _ _); auto.
Qed.

Lemma run_ok : handler_ok "service_run" (Unary (λ args, CServiceRun (arg args "service") (arg args "payload") (arg args "strategy"))).
Proof.
  intros args out Hv. pose proof (validated_strategy _ _ _ Hv ltac:(vm_compute; reflexivity)) as Hs.
  assert (nonblank (arg out "name")) as Hn.
  { eapply validated_required; [exact Hv|]. apply (bool_decide_unpack _). vm_compute. reflexivity. }
  apply (canonical "service_run" "service" "run") in Hv; [|vm_compute; reflexivity]. injection Hv as <-.
  pose proof (run_service args (blank_empty _ Hn)) as Hsv.
  split_and!; [done|rw run_service_given in Hsv; rw run_service_given; by apply firstNonEmpty_elem|apply run_payload|done].
Qed.

Lemma add_pipeline_ok : handler_ok "pipeline_add" (Unary (λ args, CPipelineAdd (arg args "schema"))).
Proof.
  intros args out Hv. assert (nonblank (arg out "id")) as Hn.
  { eapply validated_required; [exact Hv|]. apply (bool_decide_unpack _). vm_compute. reflexivity. }
  apply (canonical "pipeline_add" "service" "add_pipeline") in Hv; [|vm_compute; reflexivity].
  destruct (add_pipeline_schema args out Hv Hn) as (sch & Hs & Hid & Hsame). rw Hsame in Hn Hid.
  split; [done|]. by exists sch.
Qed.

Lemma status_ok : handler_ok "service_status"
  (Unary (λ args, if bool_decide (arg args "task_id" = "") then CAllTaskStatuses else CTaskResponse (arg args "task_id"))).
Proof. intros args out _. simpl. by case_bool_decide. Qed.

Lemma registrations_ok domain action h ua :
  (domain, action, h) ∈ registrations → UnixActionFor domain action = Some ua → handler_ok ua h.
Proof.
  intros Hin Hua. unfold registrations in Hin.
  repeat (apply elem_of_cons in Hin as [[= -> -> ->]|Hin];
    [vm_compute in Hua; injection Hua as <-;
     first [ apply upload_ok | apply add_ok | apply stream_ok | apply run_ok | apply add_pipeline_ok | apply status_ok
           | by apply handler_free
           | apply (handler_required _ _ "name"); [apply (bool_decide_unpack _); vm_compute; reflexivity|by intros ? ? ?]
           | apply (handler_required _ _ "id"); [apply (bool_decide_unpack _); vm_compute; reflexivity|by intros ? ? ?]
           | apply (handler_required _ _ "schema"); [apply (bool_decide_unpack _); vm_compute; reflexivity|by intros ? ? ?] ] |]).
  by apply elem_of_nil in Hin.
Qed.

(** C35: whatever a client sends over the socket, a call that the daemon makes
    of the server has what the server relies on: file, service and pipeline
    names to act on, and upload paths, that are not blank; an upload's name,
    which is the one given or the last element of the path, and the service to
    run, which is one of those given, are only not empty, as is a task ID; a payload that is empty
    or starts like a JSON object or array; a sort strategy that is blank or one
    of the known names; a printed pipeline schema whose ID is the one given; a
    stream version that the daemon speaks. *)
Theorem handleUnixRequest_sound ua args vs c :
  handleUnixRequest json_marshal readFile parseSchema printSchema ua args vs = Ok c → call_ok args c.
Proof.
  unfold handleUnixRequest. destruct (unixHandlers !! ua) as [h|] eqn:Hh; [|done]. destruct (validate ua args) as [out|] eqn:Hv; [|done].
  intros [= <-]. assert (handler_ok ua h) as Hok.
  { unfold unixHandlers in Hh. destruct (registerAll registrations ∅) as [table|] eqn:Hr; [|done].
    destruct (registerAll_spec _ _ _ _ _ Hr Hh) as [|(domain & action & Hin & Hua)]; [done|]. by eapply registrations_ok. }
  specialize (Hok args out Hv). destruct h; [done|apply Hok].
Qed.
End stable.

(** ** A run *)

(** Schemas that are an ID only, printed as that. *)
Definition demoParse (s : string) : res PipelineSchema :=
  Ok {| SchemaID := s; SchemaVersion := 1; Steps := []; Connections := []; SchemaDeleted := false |}.

Lemma demoParse_roundtrip s sch id :
  demoParse s = Ok sch → demoParse (SchemaID (withSchemaID id sch)) = Ok (withSchemaID id sch).
Proof. intros [= <-]. unfold withSchemaID. by case_bool_decide. Qed.

Lemma demoMarshal_object m s : demoMarshal m = Some s → json_like s = true ∧ TrimSpace s = s.
Proof. unfold demoMarshal. case_bool_decide; [done|]. by intros [= <-]. Qed.

Definition demoRead (_ : string) : res string := Err (EMsg "no file").
Definition demoArgs : gmap string string := {[ "name" := "vision"; "inputs" := "width=640" ]}.

Lemma prepared_args_stable_witness :
  ∃ detail norm, prepareArgs demoMarshal demoRead demoParse SchemaID "service" "run" demoArgs = Ok (detail, norm) ∧
    arg norm "service" = "vision" ∧
    validateUnixArgs demoMarshal demoRead demoParse SchemaID "service_run" norm = Ok norm.
Proof.
  assert (match prepareArgs demoMarshal demoRead demoParse SchemaID "service" "run" demoArgs with
    | Ok (detail, norm) => bool_decide (Some detail = FindUnixAction "service_run") && bool_decide (arg norm "service" = "vision") &&
        bool_decide (arg norm "payload" ≠ "") && bool_decide (UnixAction detail = "service_run")
    | Err _ => false end = true) as Hb by (vm_compute; reflexivity).
  destruct (prepareArgs demoMarshal demoRead demoParse SchemaID "service" "run" demoArgs) as [[detail norm]|] eqn:Hp; [|done].
  rw !andb_true_iff !bool_decide_eq_true in Hb. destruct Hb as [[[Hf Hs] Hpay] Hu]. exists detail, norm. split_and!; [done|done|].
  rw -Hu. apply (prepared_args_stable demoMarshal demoRead demoParse SchemaID demoMarshal_object demoParse_roundtrip "service" "run" demoArgs);
    [done|by rw Hu|done].
Defined.

Lemma handleUnixRequest_sound_witness :
  ∃ service payload, handleUnixRequest demoMarshal demoRead demoParse SchemaID "service_run" demoArgs [] = Ok (CServiceRun service payload "") ∧
    service ≠ "".
Proof.
  eexists _, _. split; [vm_compute; reflexivity|].
  pose proof (handleUnixRequest_sound demoMarshal demoRead demoParse SchemaID demoMarshal_object "service_run" demoArgs []
    (CServiceRun "vision" "{}" "") ltac:(vm_compute; reflexivity)) as [Hs _]. exact Hs.
Defined.
