(* ===== verification/Sync.v ===== *)
(** * Synchronisation of the index and downloads of blobs

    [internal/server/vfs_sync.go] and the peer calls of
    [internal/server/peer_rpc.go]: a sync pulls the manifest of every peer and
    pushes back what the peer lacks; a download worker fetches the blobs the
    storage engine asked for, from the source of the entry and then from any
    other peer.  The network is the class [PeerNet]; the storage engine and
    the peer registry are the ones of [Engine] and [PeerRegistry]. *)
From S2P Require Import Prelude GoStrings Json Protocol Bolt Vfs Sha256 Physical Journal Engine Outbox PeerRegistry.

(** ** What the server asks of the network *)

(** The peer client, on the state [W] of everything outside the node.  A
    download opens a stream, which may fail, and reading it may fail too.
    [lifetimeErr] is [s.lifetimeCtx.Err()], [callErr] the error of the context
    of the current call, and [visit] the order in which Go ranges over the
    keys of a map. *)
Class PeerNet (W : Type) := {
  net_session : string → W → W;
  FetchManifest : string → W → res (gmap string IndexEntry) * W;
  Notify : string → notification → W → res unit * W;
  DownloadBlob : string → string → W → res (res string) * W;
  lifetimeErr : W → option error;
  callErr : W → option error;
  visit : W → list string → list string }.

Record SyncServer (DB W Cert : Type) := {
  sStorage : Engine DB;
  sPeers : PeerRegistry Cert;
  sNet : W }.
Arguments sStorage {DB W Cert} _.
Arguments sPeers {DB W Cert} _.
Arguments sNet {DB W Cert} _.

Record DownloadJob := { JobFile : IndexEntry; JobSource : string }.

(** How the worker leaves a job: the context ended; a deletion was applied,
    with its error; the blob was discarded as obsolete; the intent was
    dropped because of corrupt content, with the error of dropping it; the
    reservation was released after the error; the blob was stored. *)
Inductive jobEnd :=
  | JobStopped
  | JobDeletion (err : option error)
  | JobDiscarded
  | JobQuarantined (err : option error)
  | JobReleased (err : error)
  | JobStored.

Section sync.
Context {DB W Cert : Type} `{!Bolt DB} `{!Digest} `{!MutationHook DB} `{!PeerNet W}.
Abbreviation Server := (SyncServer DB W Cert).
Abbreviation SY := (ST Server).

Definition onStorage {A} (m : ST (Engine DB) A) : SY A := λ s,
  let '(r, e) := m (sStorage s) in (r, {| sStorage := e; sPeers := sPeers s; sNet := sNet s |}).
Definition onNet {A} (f : W → res A * W) : SY A := λ s,
  let '(r, w) := f (sNet s) in (r, {| sStorage := sStorage s; sPeers := sPeers s; sNet := w |}).
Definition onPeers (f : PeerRegistry Cert → PeerRegistry Cert) : SY unit := λ s,
  (Ok (), {| sStorage := sStorage s; sPeers := f (sPeers s); sNet := sNet s |}).

Definition startSession (peerID : string) : SY unit := onNet (λ w, (Ok (), net_session peerID w)).

(** The keys of a map in the order they are visited in. *)
Definition visited {V} (s : Server) (m : gmap string V) : list string :=
  visit (sNet s) (sort_strings (map_to_list m).*1).

(** ** Peer calls *)

Definition callPeer {A} (peerID : string) (fn : string → SY A) : SY A :=
  r ← attempt (fn peerID);
  match r with
  | Err err =>
      if errors_Is err ErrPeerSkipped then fail err
      else if errors_Is err ErrBlobDiscarded then onPeers (SetPeerOnline peerID true);; fail err
      else onPeers (SetPeerOffline peerID (Some (error_text err)));; fail err
  | Ok val => onPeers (SetPeerOnline peerID true);; mret val
  end.

(** The calls made, with what each returned. *)
Fixpoint eachPeer {A} (skipSelf : bool) (fn : string → SY A) (order : list string)
    : SY (list (string * res A)) :=
  match order with
  | [] => mret []
  | peerID :: rest =>
      self ← gets (λ s, nodeID (sPeers s));
      if skipSelf && bool_decide (peerID = self) then eachPeer skipSelf fn rest
      else
        r ← attempt (callPeer peerID fn);
        tail ← eachPeer skipSelf fn rest;
        mret ((peerID, r) :: tail)
  end.

(** [forEachPeer], sequentially. *)
Definition forEachPeer {A} (skipSelf : bool) (fn : string → SY A) : SY (list (string * res A)) :=
  order ← gets (λ s, visited s (GetPeersCopy (sPeers s)));
  eachPeer skipSelf fn order.

Fixpoint firstOf {A} (skipSelf : bool) (fn : string → SY A) (order : list string) : SY (option A) :=
  match order with
  | [] => mret None
  | peerID :: rest =>
      self ← gets (λ s, nodeID (sPeers s));
      if skipSelf && bool_decide (peerID = self) then firstOf skipSelf fn rest
      else
        r ← attempt (callPeer peerID fn);
        match r with
        | Ok val => mret (Some val)
        | Err _ => firstOf skipSelf fn rest
        end
  end.

Definition firstPeer {A} (skipSelf : bool) (fn : string → SY A) : SY (option A) :=
  order ← gets (λ s, visited s (GetPeersCopy (sPeers s)));
  firstOf skipSelf fn order.

(** ** Sync *)

Context (address : string).

Definition vfsNotification (file : IndexEntry) : notification := PeerNotification file address.

(** Whether the peer whose manifest was fetched lacks the local entry. *)
Definition needsPush (manifest : gmap string IndexEntry) (name : string) (local : IndexEntry) : bool :=
  match manifest !! name with
  | None => true
  | Some remote =>
      let newer := (Version local <=? Version remote)%Z in
      negb (negb (Deleted local) && bool_decide (Hash remote = Hash local) && newer) &&
      negb (Deleted local && Deleted remote && newer)
  end.

(** The push loop returns the names whose notification failed, which the code
    logs. *)
Fixpoint pushEntries (peerID : string) (manifest snapshot : gmap string IndexEntry) (names : list string)
    : SY (list string) :=
  match names with
  | [] => mret []
  | name :: rest =>
      match snapshot !! name with
      | None => pushEntries peerID manifest snapshot rest
      | Some local =>
          if negb (needsPush manifest name local) then pushEntries peerID manifest snapshot rest
          else
            nErr ← attempt (onNet (Notify peerID (vfsNotification local)));
            failed ← pushEntries peerID manifest snapshot rest;
            mret (match nErr with Ok _ => failed | Err _ => name :: failed end)
      end
  end.

Definition GetVFSSnapshot : ST (Engine DB) (gmap string IndexEntry) := viewDB VFS_Snapshot.

(** The closure [ExecuteSyncContext] runs against one peer. *)
Definition syncPeer (peerID : string) : SY (list string) :=
  startSession peerID;;
  manifest ← onNet (FetchManifest peerID);
  out ← onStorage (ProcessRemoteManifestFromSource manifest peerID);
  match out.2 with
  | Some manifestErr => fail manifestErr
  | None =>
      snapshot ← onStorage GetVFSSnapshot;
      names ← gets (λ s, visited s snapshot);
      pushEntries peerID manifest snapshot names
  end.

Definition lastSyncErr {A} (results : list (string * res A)) : option error :=
  last (omap (λ pr : string * res A, error_of pr.2) results).

Definition anyOK {A} (results : list (string * res A)) : bool :=
  existsb (λ pr : string * res A, match pr.2 with Ok _ => true | Err _ => false end) results.

(** The result of every peer and the error that is returned. *)
Definition ExecuteSync : SY (list (string * res (list string)) * option error) :=
  results ← forEachPeer false syncPeer;
  mret (results, if anyOK results then None else lastSyncErr results).

(** ** Downloads *)

Definition fetchBlobFromPeer (entry : IndexEntry) (peerID : string) : SY unit :=
  early ← gets (λ s, callErr (sNet s));
  match early with
  | Some err => fail err
  | None =>
      body ← onNet (DownloadBlob peerID (Hash entry));
      late ← gets (λ s, callErr (sNet s));
      match late with
      | Some err => fail err
      | None =>
          if negb (bool_decide (Name entry = "")) then onStorage (StoreRemoteBlob entry body)
          else onStorage (SaveVerifiedPhysicalBlob (Hash entry) body)
      end
  end.

Definition downloadJobFromPeer (job : DownloadJob) (peerID : string) : SY unit :=
  callPeer peerID (fetchBlobFromPeer (JobFile job)).

Definition lifetimeOver : SY bool := gets (λ s, bool_decide (is_Some (lifetimeErr (sNet s)))).

(** The loop over the other peers: [None] when the context ended, else the
    error that remains and whether corrupt content was seen. *)
Fixpoint fallback (job : DownloadJob) (err : error) (integrity : bool) (order : list string)
    : SY (option (option error * bool)) :=
  match order with
  | [] => mret (Some (Some err, integrity))
  | peerID :: rest =>
      over ← lifetimeOver;
      if over : bool then mret None
      else
        self ← gets (λ s, nodeID (sPeers s));
        if bool_decide (peerID = self) || bool_decide (peerID = JobSource job)
        then fallback job err integrity rest
        else
          fbErr ← attempt (downloadJobFromPeer job peerID);
          match fbErr with
          | Ok _ => mret (Some (None, false))
          | Err e =>
              let integrity := integrity || errors_Is e ErrBlobIntegrity in
              if errors_Is e ErrBlobDiscarded then mret (Some (Some e, integrity))
              else fallback job err integrity rest
          end
  end.

(** What the worker does with the outcome of all attempts. *)
Definition settleJob (job : DownloadJob) (err : option error) (integrity : bool) : SY jobEnd :=
  match err with
  | None => mret JobStored
  | Some e =>
      if errors_Is e ErrBlobDiscarded then mret JobDiscarded
      else if integrity then
        q ← attempt (onStorage (QuarantineCorruptDownload (JobFile job)));
        mret (JobQuarantined (error_of q))
      else
        onStorage (ReleaseDownloadAttempt (JobFile job));;
        mret (JobReleased e)
  end.

(** One round of [downloadWorker]. *)
Definition downloadJob (job : DownloadJob) : SY jobEnd :=
  if Deleted (JobFile job) then
    r ← attempt (onStorage (ProcessRemoteDeletion (JobFile job)));
    mret (JobDeletion (error_of r))
  else
    startSession (JobSource job);;
    r ← attempt (downloadJobFromPeer job (JobSource job));
    over ← lifetimeOver;
    out ← (match r with
           | Ok _ => mret (Some (None, false))
           | Err e =>
               let integrity := errors_Is e ErrBlobIntegrity in
               if errors_Is e ErrBlobDiscarded || over then mret (Some (Some e, integrity))
               else
                 order ← gets (λ s, visited s (GetPeersCopy (sPeers s)));
                 fallback job e integrity order
           end);
    over ← lifetimeOver;
    match out with
    | None => mret JobStopped
    | Some (err, integrity) => if over : bool then mret JobStopped else settleJob job err integrity
    end.

(** [downloadWorker] on the jobs its queue holds: the ends of those it took. *)
Fixpoint downloadWorker (queue : list DownloadJob) : SY (list jobEnd) :=
  match queue with
  | [] => mret []
  | job :: rest =>
      over ← lifetimeOver;
      if over : bool then mret []
      else
        e ← downloadJob job;
        match e with
        | JobStopped => mret [JobStopped]
        | _ => tail ← downloadWorker rest; mret (e :: tail)
        end
  end.

(** [FetchFileOnDemand]. *)
Definition FetchFileOnDemand (name : string) : SY unit :=
  meta ← attempt (onStorage (GetFileMetaE name));
  match meta with
  | Err err => fail (EWrap "failed to read VFS metadata" err)
  | Ok None => fail (EMsg "not found in VFS metadata")
  | Ok (Some entry) =>
      has ← attempt (onStorage (HasPhysicalBlob (Hash entry)));
      match has with
      | Ok true => mret ()
      | _ =>
          got ← firstPeer true (fetchBlobFromPeer entry);
          match got with
          | Some _ => mret ()
          | None => fail (EMsg "no peer holds physical replica")
          end
      end
  end.
End sync.
