(* ===== verification/SyncLaws.v ===== *)
(** * What a sync achieves

    The pull of [Sync] is the join of the two indexes, the push brings the
    peer to the same files, and two rounds of a hub bring every peer it
    reaches to the same files.  The peers enter through the class
    [ReplicaNet], which a cluster of storage engines over links that lose
    requests and responses discharges. *)
From S2P Require Import Prelude GoStrings Json Protocol Bolt Vfs Sha256 Physical Journal Engine Gc Downloads Outbox PeerRegistry RegistryLaws Sync.

(** ** Indexes as functions *)

Definition file_index := string → option IndexEntry.

(** Every entry is stored under its name, with an explicit version. *)
Definition index_wf (ix : file_index) : Prop :=
  ∀ k e, ix k = Some e → Name e = k ∧ (0 < Version e)%Z.

Definition entry_le (a b : IndexEntry) : Prop := entry_lt a b ∨ a = b.

#[export] Instance entry_le_preorder : PreOrder entry_le.
Proof.
  split; [by right|]. intros a b c [Hab| ->] [Hbc| ->]; [left; by etransitivity|by left..|by right].
Qed.

Definition at_most (o o' : option IndexEntry) : Prop :=
  ∀ e, o = Some e → ∃ g, o' = Some g ∧ entry_le e g.

#[export] Instance at_most_preorder : PreOrder at_most.
Proof.
  split; [intros o e He; exists e; by split|]. intros o1 o2 o3 H12 H23 e He.
  destruct (H12 e He) as (g & Hg & Hle). destruct (H23 g Hg) as (h & Hh & Hle'). exists h. split; [done|].
  by etransitivity.
Qed.

Lemma at_most_antisym o o' : at_most o o' → at_most o' o → o = o'.
Proof.
  intros H1 H2. destruct o as [a|], o' as [b|]; [..|done].
  - destruct (H1 a eq_refl) as (? & [= <-] & [Hab| ->]); [|done].
    destruct (H2 b eq_refl) as (? & [= <-] & [Hba| ->]); [|done].
    exfalso. apply (irreflexivity entry_lt a). by transitivity b.
  - by destruct (H1 a eq_refl) as (? & ? & _).
  - by destruct (H2 b eq_refl) as (? & ? & _).
Qed.

(** The same file for a user: the same version, live with the same content
    or deleted on both sides. *)
Definition same_file (o o' : option IndexEntry) : Prop :=
  match o, o' with
  | Some a, Some b =>
      Version a = Version b ∧ Deleted a = Deleted b ∧ (Deleted a = false → Hash a = Hash b)
  | None, None => True
  | _, _ => False
  end.

Lemma same_file_refl o : same_file o o.
Proof. by destruct o. Qed.

Lemma abs_upsert_wf ix e : (0 < Version e)%Z → index_wf ix → index_wf (abs_upsert ix e).
Proof.
  intros Hv Hix k g. unfold abs_upsert. destruct (decide (Name e = k)) as [<-|]; [|apply Hix].
  intros [= <-]. destruct (entry_join_ge (ix (Name e)) e) as (_ & _ & [->|Hj]); [done|]. by apply Hix.
Qed.

Lemma abs_upsert_grows ix e k : at_most (ix k) (abs_upsert ix e k).
Proof.
  intros g Hg. unfold abs_upsert. destruct (decide (Name e = k)) as [<-|]; [|exists g; by split].
  eexists. split; [done|]. by apply entry_join_ge.
Qed.

Lemma abs_upsert_ext ix ix' e k : (∀ k, ix k = ix' k) → abs_upsert ix e k = abs_upsert ix' e k.
Proof. intros Heq. unfold abs_upsert. by rw Heq. Qed.

(** Sending an entry that dominates the one it meets installs it. *)
Lemma abs_upsert_dominates ix e : at_most (ix (Name e)) (Some e) → abs_upsert ix e (Name e) = Some e.
Proof.
  intros Hle. unfold abs_upsert. rw decide_True //.
  destruct (ix (Name e)) as [cur|] eqn:Hc; simpl; [|done].
  destruct (Hle cur eq_refl) as (? & [= <-] & Hce).
  destruct (Z.leb_spec (compareIndexEntries e cur) 0) as [Hl|]; [|done].
  apply compareIndexEntries_le in Hl. apply at_most_antisym; intros ? [= <-]; eauto.
Qed.

Lemma keys_elem {V} (m : gmap string V) k : k ∈ (map_to_list m).*1 ↔ is_Some (m !! k).
Proof.
  rw list_elem_of_fmap. split.
  - intros ([k' v] & -> & Hin%elem_of_map_to_list). by exists v.
  - intros [v Hv]. exists (k, v). split; [done|]. by apply elem_of_map_to_list.
Qed.

(** ** The storage side *)

Section storage.
Context {DB : Type} `{!Bolt DB} `{!BoltLaws DB} `{!Digest} `{!MutationHook DB}.
Implicit Types (s : Engine DB) (e : IndexEntry).

Definition local_index s : file_index := index_of (db s).

(** [e] was merged into the index, or the index was left as it was. *)
Definition merged e s s' : Prop := ∀ k, local_index s' k = abs_upsert (local_index s) e k.
Definition same_index s s' : Prop := ∀ k, local_index s' k = local_index s k.

Lemma same_index_frame s s' :
  (∀ k, bget (db s') VfsIndex k = bget (db s) VfsIndex k) → same_index s s'.
Proof. intros Hf k. unfold local_index, index_of. by rw Hf. Qed.

Lemma same_index_trans s1 s2 s3 : same_index s1 s2 → same_index s2 s3 → same_index s1 s3.
Proof. intros H1 H2 k. by rw H2 H1. Qed.

Lemma merged_same e s1 s2 s3 : merged e s1 s2 → same_index s2 s3 → merged e s1 s3.
Proof. intros H1 H2 k. by rw H2 H1. Qed.

Lemma upsertIndexLocked_merges e s out s' :
  (0 < Version e)%Z → upsertIndexLocked e s = (out, s') →
  ∃ b err, out = Ok (b, err) ∧ (merged e s s' ∨ same_index s s' ∧ err ≠ None).
Proof.
  intros Hv. unfold upsertIndexLocked, mbind, st_bind, attempt, GetFileMetaE, viewDB.
  destruct (VFS_Get (db s) (Name e)); [|intros [= <- <-]; do 2 eexists; split; [done|by right]].
  destruct (onDB (λ d, VFS_Upsert d e) s) as [r s1] eqn:Hu. apply onDB_inv in Hu as [_ Hu].
  destruct r as [b|err].
  2: { intros [= <- <-]. do 2 eexists. split; [done|]. right. split; [|done].
       apply same_index_frame. intros k. unfold VFS_Upsert in Hu.
       apply Update_spec in Hu as [(? & ? & _)|(_ & _ & ->)]; done. }
  assert (merged e s s1) as Hm by (intros k; by eapply VFS_Upsert_refines).
  destruct b; [|intros [= <- <-]; do 2 eexists; split; [done|by left]].
  destruct (sweepPendingBlobGCLocked s1) as [r2 s2] eqn:Hsw. apply sweep_effect_ok in Hsw.
  assert (merged e s s2) as Hm2.
  { eapply merged_same; [done|]. apply same_index_frame. intros k. by apply (se_frame _ _ _ Hsw). }
  destruct r2; intros [= <- <-]; do 2 eexists; (split; [done|by left]).
Qed.

Lemma completeDownloadIntent_index file s r s' : completeDownloadIntent file s = (r, s') → same_index s s'.
Proof. intros Hc%completeDownloadIntent_completed. apply same_index_frame. intros k. by apply (cd_frame _ _ _ _ Hc). Qed.

Lemma requestRemoteDownload_index file source s r s' :
  requestRemoteDownload file source s = (r, s') → same_index s s'.
Proof. intros Hc%requestRemoteDownload_requested. apply same_index_frame. intros k. by apply (rq_frame _ _ _ _ _ Hc). Qed.

Lemma onPhysical_index {A} (m : ST Storage A) s r s' : onPhysical m s = (r, s') → same_index s s'.
Proof. intros (st & _ & ->)%onPhysical_inv. by intros k. Qed.

(** An operation that merges [e] when it succeeds, and at most merges it when
    it fails. *)
Definition merging {A} e (m : ST (Engine DB) A) : Prop :=
  ∀ s r s', m s = (r, s') → match r with Ok _ => merged e s s' | Err _ => merged e s s' ∨ same_index s s' end.

Lemma ProcessRemoteDeletion_merges e : (0 < Version e)%Z → merging e (ProcessRemoteDeletion e).
Proof.
  intros Hv s r s'. unfold ProcessRemoteDeletion, mbind at 1, st_bind at 1.
  destruct (upsertIndexLocked e s) as [out s1] eqn:Hu.
  destruct (upsertIndexLocked_merges e s out s1 Hv Hu) as (b & err & -> & Hm). simpl.
  destruct err as [err|]; [intros [= <- <-]; naive_solver|]. destruct Hm as [Hm|[_ ?]]; [|done].
  unfold GetFileMetaE, mbind, st_bind, viewDB.
  destruct (VFS_Get (db s1) (Name e)) as [[cur|]|e1]; [|by intros [= <- <-]|intros [= <- <-]; by left].
  destruct (_ && _); [|by intros [= <- <-]]. intros Hc.
  assert (merged e s s') by (eapply merged_same; [done|by eapply completeDownloadIntent_index]).
  destruct r; auto.
Qed.

(** Reads of the database leave the engine as it is. *)
Lemma attempt_viewDB {A} (f : DB → res A) s : attempt (viewDB f) s = (Ok (f (db s)), s).
Proof. done. Qed.

Lemma processManifestEntry_merges e : (0 < Version e)%Z → merging e (processManifestEntry e).
Proof.
  intros Hv s r s'. unfold processManifestEntry. destruct (Deleted e).
  { unfold mbind, st_bind, attempt. destruct (ProcessRemoteDeletion e s) as [d s1] eqn:Hd.
    pose proof (ProcessRemoteDeletion_merges e Hv s d s1 Hd) as Hm. destruct d; by intros [= <- <-]. }
  unfold mbind at 1, st_bind at 1. destruct (upsertIndexLocked e s) as [out s1] eqn:Hu.
  destruct (upsertIndexLocked_merges e s out s1 Hv Hu) as (b & err & -> & Hm). simpl.
  destruct err as [err|]; [intros [= <- <-]; naive_solver|]. destruct Hm as [Hm|[_ ?]]; [|done].
  assert (merged e s s' → match r with Ok _ => merged e s s' | Err _ => merged e s s' ∨ same_index s s' end)
    as Hdone by (destruct r; auto).
  intros Hrun. apply Hdone. revert Hrun. unfold GetFileMetaE, IsSubscribedE, mbind, st_bind.
  rw attempt_viewDB. destruct (VFS_Get (db s1) (Name e)) as [[cur|]|]; [|by intros [= <- <-]..].
  case_bool_decide; [|by intros [= <- <-]]. simpl.
  unfold viewDB, attempt. destruct (View (db s1) _) as [[|]|]; [|by intros [= <- <-]..].
  unfold HasPhysicalBlob. destruct (onPhysical _ s1) as [h s2] eqn:Hp. apply onPhysical_index in Hp.
  assert (merged e s s2) by (by eapply merged_same). destruct h; by intros [= <- <-].
Qed.

(** The index after merging a list of entries. *)
Definition merged_all (l : list IndexEntry) s s' : Prop :=
  ∀ k, local_index s' k = foldl abs_upsert (local_index s) l k.

Lemma foldl_abs_upsert_ext ix ix' l k :
  (∀ k, ix k = ix' k) → foldl abs_upsert ix l k = foldl abs_upsert ix' l k.
Proof.
  revert ix ix'. induction l as [|a l IH]; intros ix ix' Heq; simpl; [done|].
  apply IH. intros k'. by apply abs_upsert_ext.
Qed.

(** What every step of the loops keeps: indexes only grow, towards entries of
    the list. *)
Definition absorbed (l : list IndexEntry) s s' : Prop :=
  ∃ l', l' ⊆ l ∧ merged_all l' s s'.

Lemma absorbed_step e l s s1 s' :
  merged e s s1 ∨ same_index s s1 → absorbed l s1 s' → absorbed (e :: l) s s'.
Proof.
  intros [Hm|Hm] (l' & Hl & Hs'); [exists (e :: l')|exists l']; (split; [set_solver|]);
    intros k; rw Hs'; simpl; by apply foldl_abs_upsert_ext.
Qed.

Lemma processManifest_merges l missing err s out s' :
  Forall (λ kv : string * IndexEntry, 0 < Version kv.2)%Z l →
  processManifest l missing err s = (out, s') →
  absorbed l.*2 s s' ∧ ∃ missing' err', out = Ok (missing', err') ∧ (err' = None → err = None ∧ merged_all l.*2 s s').
Proof.
  intros Hpos. revert missing err s. induction Hpos as [|[n e] l Hv _ IH]; intros missing err s; simpl.
  { intros [= <- <-]. split; [by exists []|]. by exists missing, err. }
  unfold mbind at 1, st_bind at 1, attempt. destruct (processManifestEntry e s) as [r s1] eqn:He.
  pose proof (processManifestEntry_merges e Hv s r s1 He) as Hm. simpl in Hv, Hm.
  destruct r as [o|x].
  - intros Hrun. assert (∃ m, processManifest l m err s1 = (out, s')) as [m Hm'].
    { destruct o; eauto. }
    destruct (IH _ _ _ Hm') as (Ha & m' & e' & -> & Hok). split; [eapply absorbed_step; eauto|].
    exists m', e'. split; [done|]. intros [? Hall]%Hok. split; [done|]. intros k. rw Hall /=. by apply foldl_abs_upsert_ext.
  - intros Hrun. destruct (IH _ _ _ Hrun) as (Ha & m' & e' & -> & Hok).
    split; [eapply absorbed_step; eauto|]. exists m', e'. split; [done|]. intros [He' _]%Hok. by apply join_error_Some in He'.
Qed.

Lemma requestMissing_index missing source err s out s' :
  requestMissing missing source err s = (out, s') → same_index s s' ∧ ∃ err', out = Ok err' ∧ (err' = None → err = None).
Proof.
  revert err s. induction missing as [|file l IH]; intros err s; simpl; [intros [= <- <-]; split; [done|eauto]|].
  unfold mbind, st_bind, attempt. destruct (requestRemoteDownload file source s) as [r s1] eqn:Hr.
  apply requestRemoteDownload_index in Hr. intros (Hs & err' & -> & Herr)%IH.
  split; [by eapply same_index_trans|]. exists err'. split; [done|]. intros He%Herr. destruct r; [done|].
  by apply join_error_Some in He.
Qed.

(** The pull: the index only grows, and without an error it is the join. *)
Lemma ProcessRemoteManifest_merges manifest source s out s' :
  map_Forall (λ _ e, 0 < Version e)%Z manifest →
  ProcessRemoteManifestFromSource manifest source s = (out, s') →
  absorbed (sorted_pairs manifest).*2 s s' ∧
  ∃ missing err, out = Ok (missing, err) ∧ (err = None → merged_all (sorted_pairs manifest).*2 s s').
Proof.
  intros Hpos. unfold ProcessRemoteManifestFromSource, ProcessRemoteManifestE, mbind at 1, st_bind at 1.
  destruct (processManifest _ _ _ s) as [o s1] eqn:Hp.
  apply processManifest_merges in Hp as ((l' & Hl & Hl') & missing & err & -> & Hok).
  2: { apply Forall_forall. intros [k e] Hin%sorted_pairs_elem. by apply (Hpos k). }
  simpl. unfold mbind, st_bind. destruct (requestMissing missing source err s1) as [o s2] eqn:Hr.
  apply requestMissing_index in Hr as (Hs & err' & -> & Herr). intros [= <- <-].
  split; [exists l'; split; [done|]; intros k; by rw Hs|].
  exists missing, err'. split; [done|]. intros He. destruct (Hok (Herr He)) as [_ Hall]. intros k. by rw Hs.
Qed.

(** A notification a peer does not answer with an internal error was merged. *)
Lemma HandleNotification_merges e source s out s' :
  (0 < Version e)%Z → HandleNotification e source s = (out, s') →
  ∃ status, out = Ok status ∧
    (merged e s s' ∨ same_index s s' ∧ status = StatusInternalServerError).
Proof.
  intros Hv. unfold HandleNotification. destruct (Deleted e).
  { unfold mbind, st_bind, attempt. destruct (ProcessRemoteDeletion e s) as [d s1] eqn:Hd.
    pose proof (ProcessRemoteDeletion_merges e Hv s d s1 Hd) as Hm. intros [= <- <-].
    eexists. split; [done|]. destruct d; naive_solver. }
  unfold mbind at 1, st_bind at 1. destruct (upsertIndexLocked e s) as [o s1] eqn:Hu.
  destruct (upsertIndexLocked_merges e s o s1 Hv Hu) as (b & err & -> & Hm). simpl.
  destruct err as [err|]; [intros [= <- <-]; eexists; naive_solver|]. destruct Hm as [Hm|[_ ?]]; [|done].
  unfold GetFileMetaE, IsSubscribedE, mbind, st_bind. rw attempt_viewDB.
  destruct (VFS_Get (db s1) (Name e)) as [[cur|]|]; [|intros [= <- <-]; eauto..].
  destruct (_ || _); [intros [= <- <-]; eauto|]. unfold viewDB, attempt.
  destruct (View (db s1) _) as [[|]|]; [|intros [= <- <-]; eauto..].
  unfold HasPhysicalBlob. destruct (onPhysical _ s1) as [h s2] eqn:Hp. apply onPhysical_index in Hp.
  assert (merged e s s2) by (by eapply merged_same).
  destruct h as [[|]|]; [intros [= <- <-]; eauto| |intros [= <- <-]; eauto].
  destruct (requestRemoteDownload cur source s2) as [d s3] eqn:Hd. apply requestRemoteDownload_index in Hd.
  intros [= <- <-]. eexists. split; [done|]. left. by eapply merged_same.
Qed.
End storage.

(** ** The interface of the peers *)

(** The index each peer holds, and what the calls do to it: a manifest is the
    index of the peer, a notification that was answered well was merged, and
    one that failed may or may not have been.  [visit] permutes. *)
Class ReplicaNet (W : Type) `{!PeerNet W} := {
  replica : W → string → file_index;
  session_replica p w q k : replica (net_session p w) q k = replica w q k;
  manifest_exact p w m w' k : FetchManifest p w = (Ok m, w') → m !! k = replica w p k;
  manifest_frame p w r w' q k : FetchManifest p w = (r, w') → replica w' q k = replica w q k;
  notify_merges p file addr w r w' :
    (0 < Version file)%Z → Notify p (PeerNotification file addr) w = (r, w') →
    (∀ k, replica w' p k = abs_upsert (replica w p) file k) ∨
    r ≠ Ok () ∧ (∀ k, replica w' p k = replica w p k);
  notify_frame p n w r w' q k : Notify p n w = (r, w') → q ≠ p → replica w' q k = replica w q k;
  visit_perm w l : visit w l ≡ₚ l }.

Section sync_laws.
Context {DB W Cert : Type} `{!Bolt DB} `{!BoltLaws DB} `{!Digest} `{!MutationHook DB} `{!PeerNet W} `{!ReplicaNet W}.
Implicit Types (s : SyncServer DB W Cert).

Definition own s : file_index := local_index (sStorage s).
Definition theirs s (p : string) : file_index := replica (sNet s) p.

(** ** Pushing *)

(** [own] dominates what the peer holds, name by name. *)
Definition dominated (ix jx : file_index) : Prop := ∀ k, at_most (jx k) (ix k).

(** A dominated entry that is not pushed is the same file. *)
Lemma needsPush_same ix manifest k local :
  ix k = Some local → at_most (manifest !! k) (ix k) → needsPush manifest k local = false →
  same_file (ix k) (manifest !! k).
Proof.
  intros Hk Hle. unfold needsPush. destruct (manifest !! k) as [r|]; [|done]. rw Hk. rw Hk in Hle.
  destruct (Hle r eq_refl) as (? & [= <-] & Hrl). simpl.
  destruct (Z.leb_spec (Version local) (Version r)); rw ?andb_false_r; [|done].
  destruct Hrl as [Hlt| ->]; [|by intros]. unfold entry_lt in Hlt.
  assert (Version r = Version local) as Hv by lia.
  destruct (Deleted local) eqn:Hdl, (Deleted r) eqn:Hdr; simpl; try done;
    case_bool_decide; try done; intuition (try congruence; try lia).
Qed.

Lemma pushEntries_spec addr peerID manifest snapshot names s out s' :
  (∀ k e, snapshot !! k = Some e → Name e = k ∧ (0 < Version e)%Z) →
  (∀ k, at_most (theirs s peerID k) (snapshot !! k)) →
  pushEntries addr peerID manifest snapshot names s = (out, s') →
  sStorage s' = sStorage s ∧ sPeers s' = sPeers s ∧
  (∀ q k, q ≠ peerID → theirs s' q k = theirs s q k) ∧
  ∃ failed, out = Ok failed ∧
    (∀ k, theirs s' peerID k = theirs s peerID k ∨ theirs s' peerID k = snapshot !! k) ∧
    (∀ k local, k ∈ names → snapshot !! k = Some local → needsPush manifest k local = true → k ∉ failed →
      theirs s' peerID k = Some local).
Proof.
  intros Hwf. revert s out s'. induction names as [|n names IH]; intros s out s' Hle; simpl.
  { intros [= <- <-]. split_and!; [done..|]. exists []. split_and!; [done|by left|].
    by intros k local ?%elem_of_nil. }
  destruct (snapshot !! n) as [e|] eqn:Hn.
  2: { intros (H1 & H2 & H3 & failed & -> & H4 & H5)%IH; [|done]. split_and!; [done..|].
       exists failed. split_and!; [done..|]. intros k local [->|?]%elem_of_cons; [congruence|eauto]. }
  destruct (needsPush manifest n e) eqn:Hneed; simpl.
  2: { intros (H1 & H2 & H3 & failed & -> & H4 & H5)%IH; [|done]. split_and!; [done..|].
       exists failed. split_and!; [done..|]. intros k local [->|?]%elem_of_cons; [congruence|eauto]. }
  destruct (Hwf n e Hn) as [Hname Hv].
  unfold mbind at 1, st_bind at 1, attempt, onNet, vfsNotification.
  destruct (Notify peerID (PeerNotification e addr) (sNet s)) as [r w] eqn:Hnot.
  set (s1 := {| sStorage := sStorage s; sPeers := sPeers s; sNet := w |}).
  assert (∀ q k, q ≠ peerID → theirs s1 q k = theirs s q k) as Hframe.
  { intros q k Hq. by eapply notify_frame. }
  assert (theirs s1 peerID n = Some e ∨ r ≠ Ok () ∧ theirs s1 peerID n = theirs s peerID n) as Hn1.
  { destruct (notify_merges _ _ _ _ _ _ Hv Hnot) as [Hm|[Hr Hm]]; [left|right; split; [done|apply Hm]].
    unfold theirs. simpl. rw Hm -Hname. apply abs_upsert_dominates. rw Hname -Hn. apply Hle. }
  assert (∀ k, k ≠ n → theirs s1 peerID k = theirs s peerID k) as Hother.
  { intros k Hk. destruct (notify_merges _ _ _ _ _ _ Hv Hnot) as [Hm|[_ Hm]]; [|apply Hm].
    unfold theirs. simpl. rw Hm. unfold abs_upsert. rw decide_False; [done|congruence]. }
  assert (∀ k, theirs s1 peerID k = theirs s peerID k ∨ theirs s1 peerID k = snapshot !! k) as Hstep.
  { intros k. destruct (decide (k = n)) as [->|]; [|left; auto]. rw Hn. naive_solver. }
  unfold mbind, st_bind. destruct (pushEntries addr peerID manifest snapshot names s1) as [o s2] eqn:Hrun.
  apply IH in Hrun as (H1 & H2 & H3 & failed & -> & H4 & H5).
  2: { intros k. destruct (Hstep k) as [->| ->]; [apply Hle|done]. }
  intros [= <- <-]. split_and!; [done|done|intros q k Hq; by rw H3 // Hframe|].
  eexists. split; [done|]. split.
  - intros k. destruct (H4 k) as [->|]; [apply Hstep|by right].
  - intros k local Hin Hk Hp Hf. destruct (decide (k ∈ names)) as [|Hnot'].
    { apply H5; try done. destruct r; [done|]. by apply not_elem_of_cons in Hf as [_ ?]. }
    apply elem_of_cons in Hin as [->|]; [|done]. assert (local = e) as -> by congruence.
    destruct r as [[]|]; [|by apply not_elem_of_cons in Hf as [? _]].
    destruct Hn1 as [Hn1|[? _]]; [|done]. destruct (H4 n) as [->|Heq]; [done|by rw Heq].
Qed.

(** ** One peer *)

Lemma VFS_Snapshot_index (d : DB) m k : VFS_Snapshot d = Ok m → m !! k = index_of d k.
Proof.
  intros Hs. pose proof (boltLoadMapJSON_spec _ _ _ _ Hs k) as Hk. unfold index_of.
  destruct (bget d VfsIndex k) as [raw|]; [|done]. by destruct Hk as (v & -> & ->).
Qed.

(** What pulling the manifest [m] of a well-formed index does. *)
Lemma absorbed_pull (m : gmap string IndexEntry) (s0 s1 : Engine DB) l :
  (∀ k e, m !! k = Some e → Name e = k ∧ (0 < Version e)%Z) → index_wf (local_index s0) →
  l ⊆ (sorted_pairs m).*2 → merged_all l s0 s1 →
  (∀ k, at_most (local_index s0 k) (local_index s1 k)) ∧
  (∀ k, local_index s1 k = local_index s0 k ∨ local_index s1 k = m !! k) ∧
  index_wf (local_index s1).
Proof.
  intros Hm Hwf Hl Hall.
  assert (∀ g, g ∈ l → m !! Name g = Some g) as Hmem.
  { intros g Hg%Hl. apply list_elem_of_fmap in Hg as ([k e] & -> & Hin%sorted_pairs_elem).
    simpl. by destruct (Hm k e Hin) as [-> _]. }
  assert (∀ k, local_index s1 k = local_index s0 k ∨ local_index s1 k = m !! k) as Horigin.
  { intros k. pose proof (foldl_abs_upsert_winner (local_index s0) l k) as [H1 H2]. rw -Hall in H1. rw -Hall in H2.
    destruct (local_index s1 k) as [g|] eqn:Hg.
    - destruct (H2 g eq_refl) as [->|[Hin <-]]; [by left|right; symmetry; by apply Hmem].
    - left. destruct (local_index s0 k) as [e|]; [|done]. by destruct (H1 e (or_introl eq_refl)) as (? & ? & _). }
  split_and!; [|done|].
  - intros k e He. rw Hall. destruct (foldl_abs_upsert_winner (local_index s0) l k) as [H1 _].
    destruct (H1 e) as (g & Hg & Hle); [by left|]. by exists g.
  - intros k e He. destruct (Horigin k) as [Heq|Heq]; rw He in Heq; symmetry in Heq; [by apply Hwf|by apply Hm].
Qed.

Record synced (p : string) s (r : res (list string)) s' : Prop := {
  sy_peers : sPeers s' = sPeers s;
  sy_frame q k : q ≠ p → theirs s' q k = theirs s q k;
  sy_grows k : at_most (own s k) (own s' k);
  sy_own k : own s' k = own s k ∨ own s' k = theirs s p k;
  sy_theirs k : theirs s' p k = theirs s p k ∨ theirs s' p k = own s' k;
  sy_own_wf : index_wf (own s');
  sy_ok failed : r = Ok failed →
    dominated (own s') (theirs s p) ∧ dominated (own s') (theirs s' p) ∧ ∀ k, k ∉ failed → same_file (own s' k) (theirs s' p k) }.

Lemma synced_skip p s e s' :
  index_wf (own s) → sStorage s' = sStorage s → sPeers s' = sPeers s →
  (∀ q k, theirs s' q k = theirs s q k) → synced p s (Err e) s'.
Proof.
  intros Hwf Hs Hp Ht. assert (∀ k, own s' k = own s k) as Ho by (intros k; unfold own; by rw Hs).
  split; try done; [intros; rw Ho; done|auto|auto|]. intros k e0. rw Ho. apply Hwf.
Qed.

Lemma syncPeer_synced addr p s r s' :
  index_wf (own s) → index_wf (theirs s p) → syncPeer addr p s = (r, s') → synced p s r s'.
Proof.
  intros Hwf Hwf'. unfold syncPeer, startSession. unfold mbind at 1, st_bind at 1, onNet at 1.
  unfold mbind at 1, st_bind at 1, onNet at 1. simpl.
  destruct (FetchManifest p (net_session p (sNet s))) as [f w] eqn:Hf.
  assert (∀ q k, replica w q k = replica (sNet s) q k) as Hw.
  { intros q k. rw (manifest_frame _ _ _ _ _ _ Hf). apply session_replica. }
  destruct f as [m|e]; [|intros [= <- <-]; by apply synced_skip].
  assert (∀ k, m !! k = theirs s p k) as Hm.
  { intros k. rw (manifest_exact _ _ _ _ _ Hf). apply session_replica. }
  assert (∀ k e, m !! k = Some e → Name e = k ∧ (0 < Version e)%Z) as Hmwf.
  { intros k e. rw Hm. apply Hwf'. }
  unfold mbind at 1, st_bind at 1, onStorage at 1. simpl.
  destruct (ProcessRemoteManifestFromSource m p (sStorage s)) as [o st] eqn:Hpull.
  apply ProcessRemoteManifest_merges in Hpull as ((l & Hl & Hall) & missing & err & -> & Hok);
    [|intros k e He; by apply (Hmwf k)].
  destruct (absorbed_pull m (sStorage s) st l Hmwf Hwf Hl Hall) as (Hgrow & Horig & Hst).
  set (s1 := {| sStorage := st; sPeers := sPeers s; sNet := w |}).
  assert (∀ e, synced p s (Err e) s1) as Herr.
  { intros e. split; try done; [intros; apply Hw| |left; apply Hw].
    intros k. destruct (Horig k) as [|Hk]; [by left|right; by rw -Hm]. }
  destruct err as [err|]; [intros [= <- <-]; apply Herr|]. specialize (Hok eq_refl).
  unfold mbind at 1, st_bind at 1, onStorage, GetVFSSnapshot, viewDB. simpl.
  destruct (VFS_Snapshot (db st)) as [snap|e] eqn:Hsnap; [|intros [= <- <-]; apply Herr].
  fold s1. assert (∀ k, snap !! k = own s1 k) as Hsn by (intros k; by apply VFS_Snapshot_index).
  assert (∀ k, at_most (theirs s p k) (own s1 k)) as Hdom.
  { intros k e He. change (own s1 k) with (local_index st k). rw Hok.
    destruct (foldl_abs_upsert_winner (local_index (sStorage s)) (sorted_pairs m).*2 k) as [H1 _].
    destruct (H1 e) as (g & Hg & Hle); [|by exists g]. right. destruct (Hwf' k e He) as [Hn _].
    split; [|done]. apply list_elem_of_fmap. exists (k, e). split; [done|]. apply sorted_pairs_elem. by rw Hm. }
  unfold mbind, st_bind, gets. intros Hpush.
  apply pushEntries_spec in Hpush as (H1 & H2 & H3 & failed & -> & H4 & H5).
  2: { intros k e. rw Hsn. apply Hst. }
  2: { intros k. unfold theirs. simpl. rw Hw Hsn. apply Hdom. }
  assert (∀ k, own s' k = own s1 k) as Hown by (intros k; unfold own; by rw H1).
  assert (∀ k, theirs s1 p k = theirs s p k) as Ht1 by (intros; apply Hw).
  assert (∀ k, theirs s' p k = theirs s p k ∨ theirs s' p k = own s' k) as Hth.
  { intros k. rw Hown -Hsn. rw -Ht1. apply H4. }
  split.
  - done.
  - intros q k Hq. rw H3 //. apply Hw.
  - intros k. rw Hown. apply Hgrow.
  - intros k. rw Hown -Hm. apply Horig.
  - done.
  - intros k e. rw Hown. apply Hst.
  - intros ? [= <-]. split_and!.
    + intros k. rw Hown. apply Hdom.
    + intros k. destruct (Hth k) as [->| ->]; [|done]. rw Hown. apply Hdom.
    + intros k Hk. destruct (Hth k) as [Heq| ->]; [|apply same_file_refl]. rw Hown Heq.
      destruct (own s1 k) as [local|] eqn:Hloc.
      2: { destruct (theirs s p k) as [e|] eqn:He; [|done]. destruct (Hdom k e He) as (? & Hx & _). congruence. }
      destruct (needsPush m k local) eqn:Hneed.
      * rw -Heq. rw (H5 k local); [apply same_file_refl| |by rw Hsn|done|done].
        unfold visited. rewrite ->(visit_perm (sNet s1)), sort_strings_perm. apply keys_elem. exists local. by rw Hsn.
      * rw -Hloc -Hm. eapply needsPush_same; [exact Hloc| |done]. rw Hm. apply Hdom.
Qed.

(** ** Rounds over the peers *)

Lemma GetPeersCopy_update (pr : PeerRegistry Cert) p f :
  (∀ st, record (f st) = record st) → (∀ st, hasRecord (f st) = hasRecord st) →
  GetPeersCopy (updateState p f pr) = GetPeersCopy pr.
Proof.
  intros Hr Hh. apply map_eq. intros q. apply option_eq. intros a.
  rw !GetPeersCopy_record. by setoid_rewrite (GetPeerRecord_update pr p f q Hr Hh).
Qed.

(** A peer call only adds the liveness of the peer to what the function does. *)
Lemma callPeer_run {A} p (fn : string → ST (SyncServer DB W Cert) A) s r s' :
  callPeer p fn s = (r, s') →
  ∃ s1, fn p s = (r, s1) ∧ sStorage s' = sStorage s1 ∧ sNet s' = sNet s1 ∧
    GetPeersCopy (sPeers s') = GetPeersCopy (sPeers s1).
Proof.
  unfold callPeer, mbind, st_bind, attempt. destruct (fn p s) as [x s1] eqn:Hfn.
  destruct x as [v|e]; [|destruct (errors_Is e ErrPeerSkipped); [|destruct (errors_Is e ErrBlobDiscarded)]];
    intros [= <- <-]; exists s1; (split_and!; [done..|]); try done; by apply GetPeersCopy_update.
Qed.

Lemma eachPeer_rule {A} (fn : string → ST (SyncServer DB W Cert) A)
    (I : list (string * res A) → SyncServer DB W Cert → Prop) :
  ∀ order, (∀ before p s r s', p ∈ order → I before s → callPeer p fn s = (r, s') → I (before ++ [(p, r)]) s') →
  ∀ before s out s', I before s → eachPeer false fn order s = (out, s') →
  ∃ results, out = Ok results ∧ I (before ++ results) s' ∧ results.*1 = order.
Proof.
  intros order. induction order as [|p order IH]; intros Hstep before s out s' HI; simpl.
  { intros [= <- <-]. exists []. by rw app_nil_r. }
  unfold mbind, st_bind, gets, attempt. destruct (callPeer p fn s) as [r s1] eqn:Hc.
  destruct (eachPeer false fn order s1) as [o s2] eqn:Hrest.
  destruct (IH ltac:(intros; eapply Hstep; [by right|done..]) (before ++ [(p, r)]) s1 o s2
    (Hstep _ _ _ _ _ ltac:(by left) HI Hc) Hrest) as (results & -> & HI' & <-).
  intros [= <- <-]. exists ((p, r) :: results). split_and!; [done| |done].
  by rw -app_assoc in HI'.
Qed.

(** The invariant of every round. *)
Record round_wf s : Prop := {
  rw_own : index_wf (own s);
  rw_theirs p : index_wf (theirs s p) }.

Lemma call_synced addr p s r s' :
  round_wf s → callPeer p (syncPeer addr) s = (r, s') →
  ∃ s1, synced p s r s1 ∧ (∀ k, own s' k = own s1 k) ∧ (∀ q k, theirs s' q k = theirs s1 q k) ∧
    round_wf s' ∧ GetPeersCopy (sPeers s') = GetPeersCopy (sPeers s).
Proof.
  intros [Hwf Hwf'] (s1 & Hrun & Hst & Hnet & Hpeers)%callPeer_run.
  apply syncPeer_synced in Hrun; [|done..].
  assert (∀ k, own s' k = own s1 k) as Ho by (intros; unfold own; by rw Hst).
  assert (∀ q k, theirs s' q k = theirs s1 q k) as Ht by (intros; unfold theirs; by rw Hnet).
  exists s1. split_and!; [done..| |by rw Hpeers (sy_peers _ _ _ _ Hrun)]. split.
  - intros k e. rw Ho. apply Hrun.
  - intros q k e. rw Ht. destruct (decide (q = p)) as [->|Hq]; [|rw (sy_frame _ _ _ _ Hrun) //; apply Hwf'].
    destruct (sy_theirs _ _ _ _ Hrun k) as [->| ->]; [apply Hwf'|apply Hrun].
Qed.

(** Domination survives the sync with any peer. *)
Lemma dominated_step p q s r s1 :
  synced p s r s1 → dominated (own s) (theirs s q) → dominated (own s1) (theirs s1 q).
Proof.
  intros Hs Hd k. assert (at_most (theirs s q k) (own s1 k)) as Hle.
  { etransitivity; [apply Hd|apply (sy_grows _ _ _ _ Hs)]. }
  destruct (decide (q = p)) as [->|Hq]; [|by rw (sy_frame _ _ _ _ Hs)].
  destruct (sy_theirs _ _ _ _ Hs k) as [->| ->]; done.
Qed.

(** With a dominated peer the pull changes nothing. *)
Lemma dominated_own p s r s1 k : synced p s r s1 → dominated (own s) (theirs s p) → own s1 k = own s k.
Proof.
  intros Hs Hd. destruct (sy_own _ _ _ _ Hs k) as [|Heq]; [done|].
  apply at_most_antisym; [rw Heq; apply Hd|apply Hs].
Qed.

(** The first round: the node dominates every peer it pulled from. *)
Definition pulled (s0 : SyncServer DB W Cert) (before : list (string * res (list string))) s : Prop :=
  round_wf s ∧ GetPeersCopy (sPeers s) = GetPeersCopy (sPeers s0) ∧ (∀ k, at_most (own s0 k) (own s k)) ∧
  ∀ p f, (p, Ok f) ∈ before → dominated (own s) (theirs s p).

(** The second round: nothing is pulled any more, and what is pushed agrees. *)
Definition pushed (s0 : SyncServer DB W Cert) (peers : list string) (before : list (string * res (list string))) s : Prop :=
  round_wf s ∧ (∀ k, own s k = own s0 k) ∧ (∀ p, p ∈ peers → dominated (own s) (theirs s p)) ∧
  ∀ p f k, (p, Ok f) ∈ before → p ∈ peers → k ∉ f → same_file (own s k) (theirs s p k).

Lemma pulled_step addr s0 before p s r s' :
  pulled s0 before s → callPeer p (syncPeer addr) s = (r, s') → pulled s0 (before ++ [(p, r)]) s'.
Proof.
  intros (Hwf & Hp & Hg & Hd) Hc. destruct (call_synced _ _ _ _ _ Hwf Hc) as (s1 & Hs & Ho & Ht & Hwf' & Hp').
  split_and!; [done|congruence|intros k; rw Ho; etransitivity; [apply Hg|apply Hs]|]. assert (∀ q, dominated (own s1) (theirs s1 q) → dominated (own s') (theirs s' q)) as Hq.
  { intros q Hq k. rw Ho Ht. apply Hq. }
  intros q f [Hin|[= -> <-]%list_elem_of_singleton]%elem_of_app; apply Hq.
  - eapply dominated_step; [done|]. by eapply Hd.
  - by apply (sy_ok _ _ _ _ Hs f).
Qed.

Lemma pushed_step addr s0 peers before p s r s' :
  p ∈ peers → pushed s0 peers before s → callPeer p (syncPeer addr) s = (r, s') →
  pushed s0 peers (before ++ [(p, r)]) s'.
Proof.
  intros Hp (Hwf & Hsame & Hd & Hok) Hc. destruct (call_synced _ _ _ _ _ Hwf Hc) as (s1 & Hs & Ho & Ht & Hwf' & _).
  assert (∀ k, own s1 k = own s k) as Hown by (intros k; by eapply dominated_own, Hd).
  split_and!; [done|intros k; by rw Ho Hown| |].
  - intros q Hq k. rw Ho Ht. by eapply dominated_step, Hd.
  - intros q f k [Hin|[= -> <-]%list_elem_of_singleton]%elem_of_app Hq Hk; rw Ho Ht.
    + destruct (decide (q = p)) as [->|Hne].
      * destruct (sy_theirs _ _ _ _ Hs k) as [->| ->]; [rw Hown; by eapply Hok|apply same_file_refl].
      * rw (sy_frame _ _ _ _ Hs) // Hown. by eapply Hok.
    + by apply (sy_ok _ _ _ _ Hs f).
Qed.

Lemma ExecuteSync_round addr (I : list (string * res (list string)) → SyncServer DB W Cert → Prop) s out s' :
  (∀ before p s1 r s2, is_Some (GetPeersCopy (sPeers s) !! p) → I before s1 →
    callPeer p (syncPeer addr) s1 = (r, s2) → I (before ++ [(p, r)]) s2) →
  I [] s → ExecuteSync addr s = (out, s') →
  ∃ results err, out = Ok (results, err) ∧ I results s' ∧
    (∀ p, p ∈ results.*1 ↔ is_Some (GetPeersCopy (sPeers s) !! p)).
Proof.
  intros Hstep HI. unfold ExecuteSync, forEachPeer, mbind, st_bind, gets.
  destruct (eachPeer false (syncPeer addr) _ s) as [o s1] eqn:Hr. intros Hrun.
  assert (∀ p, p ∈ visited s (GetPeersCopy (sPeers s)) ↔ is_Some (GetPeersCopy (sPeers s) !! p)) as Hvis.
  { intros p. unfold visited. rewrite ->(visit_perm (sNet s)), sort_strings_perm. apply keys_elem. }
  eapply (eachPeer_rule (syncPeer addr) I) in Hr as (results & -> & HI' & Hkeys); [| |exact HI].
  - simpl in Hrun. injection Hrun as <- <-. do 2 eexists. split_and!; [done|done|]. intros p. by rw Hkeys.
  - intros before p s2 r s3 Hin. apply Hstep. by apply Hvis.
Qed.

End sync_laws.
