(* ===== verification/SyncCluster.v ===== *)
(** * A cluster of storage engines

    The peer side of the calls of [Sync]: the handlers of
    [internal/storage/handlers.go] behind the peer client of [internal/p2p],
    over links that may lose a request or its response.  The cluster
    discharges [ReplicaNet], so the theorems of [SyncLaws] hold of nodes that
    run the code on both ends. *)
From S2P Require Import Prelude GoStrings Json Protocol Bolt Vfs Sha256 Physical Journal Engine Gc Downloads Outbox PeerRegistry RegistryLaws Sync SyncLaws.

(** ** Status codes *)

Definition HTTPSuccess (code : Z) : bool := (200 <=? code)%Z && (code <? 300)%Z.

Definition HTTPStatusError (code : Z) : error := EMsg "unexpected status code".

Definition RequireHTTPStatus (status wantStatus : Z) : res unit :=
  if negb (wantStatus =? 0)%Z then
    if negb (status =? wantStatus)%Z then Err (HTTPStatusError status) else Ok ()
  else if negb (HTTPSuccess status) then Err (HTTPStatusError status) else Ok ().

(** ** Members and links *)

(** What becomes of a call: delivered, lost on the way there, or carried out
    without the caller seeing the answer. *)
Inductive link := Delivered | RequestLost | ResponseLost.

Record Cluster (DB : Type) := { members : gmap string (Engine DB); links : list link }.
Arguments members {DB} _.
Arguments links {DB} _.

Section cluster.
Context {DB : Type} `{!Bolt DB} `{!Digest} `{!MutationHook DB}.

(** The handler of the manifest: a status and the body. *)
Definition HandleManifest : ST (Engine DB) (Z * gmap string IndexEntry) :=
  snapshot ← attempt GetVFSSnapshot;
  match snapshot with
  | Err _ => mret (StatusInternalServerError, ∅)
  | Ok snapshot => mret (StatusOK, snapshot)
  end.

(** A call of [handler] at [peerID]; links beyond the list deliver. *)
Definition reach {A} (peerID : string) (handler : ST (Engine DB) A) (c : Cluster DB) : res A * Cluster DB :=
  let fate := default Delivered (head (links c)) in
  let rest := tail (links c) in
  let lost := (Err (EMsg "peer unreachable"), {| members := members c; links := rest |}) in
  match members c !! peerID with
  | None => lost
  | Some node =>
      if match fate with RequestLost => true | _ => false end then lost
      else
        let '(r, node') := handler node in
        (if match fate with ResponseLost => true | _ => false end then Err (EMsg "connection reset") else r,
         {| members := <[peerID := node']> (members c); links := rest |})
  end.

(** [doJSON] on the answer of the manifest handler. *)
Definition clusterManifest : ST (Engine DB) (gmap string IndexEntry) :=
  out ← HandleManifest;
  if negb (HTTPSuccess out.1) then fail (HTTPStatusError out.1) else mret out.2.

(** [doVoid] on the answer of the notification handler. *)
Definition clusterNotify (n : notification) : ST (Engine DB) unit :=
  match n with
  | PeerNotification file source =>
      status ← HandleNotification file source;
      of_res (RequireHTTPStatus status 0)
  | _ => fail (HTTPStatusError 400)
  end.

Definition clusterDownload (hash : string) : ST (Engine DB) (res string) :=
  r ← attempt (onPhysical (ReadBlob hash));
  match r with
  | Err _ => fail (HTTPStatusError 404)
  | Ok data => mret (Ok data)
  end.

#[export] Instance cluster_net : PeerNet (Cluster DB) := {|
  net_session _ c := c;
  FetchManifest p := reach p clusterManifest;
  Notify p n := reach p (clusterNotify n);
  DownloadBlob p h := reach p (clusterDownload h);
  lifetimeErr _ := None;
  callErr _ := None;
  visit _ l := l |}.

Definition member_index (c : Cluster DB) (p : string) : file_index :=
  match members c !! p with Some n => local_index n | None => λ _, None end.

(** ** The laws *)

Context `{!BoltLaws DB}.

Lemma reach_cases {A} p (handler : ST (Engine DB) A) c r c' :
  reach p handler c = (r, c') →
  (∃ e, r = Err e ∧ ∀ q k, member_index c' q k = member_index c q k) ∨
  ∃ node r1 node', members c !! p = Some node ∧ handler node = (r1, node') ∧ (∀ a, r = Ok a → r1 = Ok a) ∧
    (∀ k, member_index c' p k = local_index node' k) ∧
    ∀ q k, q ≠ p → member_index c' q k = member_index c q k.
Proof.
  unfold reach. destruct (members c !! p) as [node|] eqn:Hp; [|intros [= <- <-]; left; by eexists].
  destruct (match default Delivered (head (links c)) with RequestLost => true | _ => false end);
    [intros [= <- <-]; left; by eexists|].
  destruct (handler node) as [r1 node'] eqn:Hh. intros [= <- <-]. right. exists node, r1, node'.
  split_and!; [done|done| | |].
  - intros a. by destruct (match default Delivered (head (links c)) with ResponseLost => true | _ => false end).
  - intros k. unfold member_index. simpl. by rw lookup_insert_eq.
  - intros q k Hq. unfold member_index. simpl. by rw lookup_insert_ne.
Qed.

Lemma clusterManifest_run n r n' :
  clusterManifest n = (r, n') → n' = n ∧ ∀ m, r = Ok m → ∀ k, m !! k = local_index n k.
Proof.
  unfold clusterManifest, HandleManifest, GetVFSSnapshot, mbind, st_bind. rw attempt_viewDB.
  destruct (VFS_Snapshot (db n)) as [m|e] eqn:Hs; intros [= <- <-]; (split; [done|]); [|done].
  intros ? [= <-] k. by apply VFS_Snapshot_index.
Qed.

Lemma clusterNotify_run file addr n r n' :
  (0 < Version file)%Z → clusterNotify (PeerNotification file addr) n = (r, n') →
  merged file n n' ∨ r ≠ Ok () ∧ same_index n n'.
Proof.
  intros Hv. unfold clusterNotify, mbind, st_bind.
  destruct (HandleNotification file addr n) as [o n1] eqn:Hh.
  destruct (HandleNotification_merges _ _ _ _ _ Hv Hh) as (status & -> & Hm).
  intros [= <- <-]. destruct Hm as [?|[? ->]]; [by left|by right].
Qed.

#[export] Instance cluster_replicas : ReplicaNet (Cluster DB).
Proof.
  refine {| replica := member_index |}; simpl.
  - done.
  - intros p c m c' k [(e & ? & _)|(n & r & n' & Hp & Hr%clusterManifest_run & Hok & _)]%reach_cases; [done|].
    destruct Hr as [_ Hm]. unfold member_index. rw Hp. by apply Hm, Hok.
  - intros p c r c' q k [(e & ? & Hf)|(n & r1 & n' & Hp & Hr%clusterManifest_run & _ & Hown & Hf)]%reach_cases; [done|].
    destruct (decide (q = p)) as [->|]; [|by apply Hf]. destruct Hr as [-> _]. rw Hown. unfold member_index. by rw Hp.
  - intros p file addr c r c' Hv [(e & -> & Hf)|(n & r1 & n' & Hp & Hr & Hok & Hown & Hf)]%reach_cases.
    { right. split; [done|]. intros k. apply Hf. }
    assert (∀ k, member_index c p k = local_index n k) as Hn by (intros k; unfold member_index; by rw Hp).
    apply clusterNotify_run in Hr as [Hm|[Hne Hs]]; [left|right|done].
    + intros k. rw Hown Hm. by apply abs_upsert_ext.
    + split; [intros ->; by apply Hne, Hok|]. intros k. by rw Hown Hs Hn.
  - intros p n c r c' q k [(e & ? & Hf)|(? & ? & ? & _ & _ & _ & _ & Hf)]%reach_cases Hq; auto.
  - done.
Defined.
End cluster.

Section sync_claims.
Context {DB W Cert : Type} `{!Bolt DB} `{!BoltLaws DB} `{!Digest} `{!MutationHook DB} `{!PeerNet W} `{!ReplicaNet W}.
Implicit Types (s : SyncServer DB W Cert).

(** A sync with one peer that succeeds leaves both nodes with the same files:
    each name whose notification was answered has on both sides the same
    version, deleted or with the same content; the node holds the greater of
    the two entries, and the peer never one that is greater. *)
Theorem sync_peer_agrees addr p s failed s' :
  index_wf (own s) → index_wf (theirs s p) → syncPeer addr p s = (Ok failed, s') →
  ∀ k, at_most (own s k) (own s' k) ∧ at_most (theirs s p k) (own s' k) ∧
    (own s' k = own s k ∨ own s' k = theirs s p k) ∧
    at_most (theirs s' p k) (own s' k) ∧ (k ∉ failed → same_file (own s' k) (theirs s' p k)).
Proof.
  intros Hwf Hwf' Hrun%syncPeer_synced k; [|done..]. destruct (sy_ok _ _ _ _ Hrun failed eq_refl) as (Hp & Hd & Hs).
  split_and!; [apply Hrun|apply Hp|apply Hrun|apply Hd|apply Hs].
Qed.

(** C5: two rounds of a hub suffice, from well-formed indexes: if the node could
    sync with all its peers in the first round, then after the second it holds
    what it held after the first, no peer holds a greater entry, and every peer
    that was reached in the second round too has the same files as the node,
    but for the notifications to it that failed in that round. *)
Theorem two_syncs_converge addr s r1 e1 s1 r2 e2 s2 :
  round_wf s → ExecuteSync addr s = (Ok (r1, e1), s1) → ExecuteSync addr s1 = (Ok (r2, e2), s2) →
  (∀ p r, (p, r) ∈ r1 → ∃ failed, r = Ok failed) →
  (∀ k, at_most (own s k) (own s2 k) ∧ own s2 k = own s1 k) ∧
  ∀ p, is_Some (GetPeersCopy (sPeers s) !! p) →
    (∀ k, at_most (theirs s2 p k) (own s2 k)) ∧
    (∀ failed k, (p, Ok failed) ∈ r2 → k ∉ failed → same_file (own s2 k) (theirs s2 p k)).
Proof.
  intros Hwf H1 H2 Hok.
  apply (ExecuteSync_round addr (pulled s)) in H1 as (? & ? & [= <- <-] & (Hwf1 & Hp & Hg & Hd) & Hkeys).
  2: { intros. by eapply pulled_step. }
  2: { split_and!; [done..|]. by intros p f ?%elem_of_nil. }
  assert (∀ p, is_Some (GetPeersCopy (sPeers s) !! p) → dominated (own s1) (theirs s1 p)) as Hdom.
  { intros p Hin%Hkeys. apply list_elem_of_fmap in Hin as ([q r] & -> & Hin).
    destruct (Hok q r Hin) as [f ->]. by eapply Hd. }
  set (all := (map_to_list (GetPeersCopy (sPeers s))).*1).
  assert (∀ p, p ∈ all ↔ is_Some (GetPeersCopy (sPeers s) !! p)) as Hall.
  { intros p. apply keys_elem. }
  apply (ExecuteSync_round addr (pushed s1 all)) in H2 as (? & ? & [= <- <-] & (_ & Hsame & Hd2 & Hs2) & _).
  2: { intros before p s3 r s4 Hin. rw Hp -Hall in Hin. by eapply pushed_step. }
  2: { split_and!; [done|done|intros p ?%Hall; by apply Hdom|]. by intros p f k ?%elem_of_nil. }
  split; [intros k; split; [rw Hsame; apply Hg|apply Hsame]|].
  intros p Hin%Hall. split; [by apply Hd2|]. intros failed k Hr Hk. by eapply Hs2.
Qed.
End sync_claims.

(** ** Witnesses *)

(** A well-formed index, decided on its snapshot. *)
Definition wf_snapshot (d : memdb) : bool :=
  match VFS_Snapshot d with
  | Ok m => bool_decide (map_Forall (λ k e, Name e = k ∧ (0 < Version e)%Z) m)
  | Err _ => false
  end.

Lemma wf_snapshot_index d : wf_snapshot d = true → index_wf (index_of d).
Proof.
  unfold wf_snapshot. destruct (VFS_Snapshot d) as [m|] eqn:Hs; [|done].
  intros Hm%bool_decide_eq_true k e He. rw -(VFS_Snapshot_index d m k Hs) in He. by apply (Hm k e).
Qed.

Definition holding (l : list IndexEntry) : Engine memdb :=
  engine_with (match upserts memdb_init l with Ok d => d | Err _ => memdb_init end) ∅.

Definition version_of (name hash : string) (version : Z) (deleted : bool) : IndexEntry :=
  {| Name := name; Size := 1; Hash := hash; Version := version; Deleted := deleted |}.

Definition knows (addrs : list (string * string)) : PeerRegistry unit :=
  foldr (λ pa pr, (AddPeer pa.1 {| Addresses := [pa.2]; Sequence := 1; IsSponsor := false |} pr).2)
    (NewPeerRegistry "hub") addrs.

(** A hub whose two peers each hold a newer or an unknown entry. *)
Definition hub : SyncServer memdb (Cluster memdb) unit :=
  {| sStorage := holding [version_of "a" "h1" 1 false];
     sPeers := knows [("p", "addr-p"); ("q", "addr-q")];
     sNet := {| members := {["p" := holding [version_of "a" "h2" 2 true]; "q" := holding [version_of "b" "h3" 1 false]]};
                links := [] |} |}.

Lemma hub_wf : round_wf hub.
Proof.
  split; [apply wf_snapshot_index; vm_compute; reflexivity|].
  intros p k e. unfold theirs, replica. simpl. unfold member_index. simpl.
  destruct (decide (p = "p")) as [->|Hp]; [apply wf_snapshot_index; vm_compute; reflexivity|].
  rw lookup_insert_ne //. destruct (decide (p = "q")) as [->|Hq]; [apply wf_snapshot_index; vm_compute; reflexivity|].
  rw lookup_insert_ne //.
Qed.

Lemma sync_peer_agrees_witness :
  let s' := (syncPeer "addr-hub" "q" hub).2 in
  same_file (own s' "a") (theirs s' "q" "a") ∧ own s' "b" = Some (version_of "b" "h3" 1 false).
Proof.
  assert ((syncPeer "addr-hub" "q" hub).1 = Ok []) as Hrun%run_result by (vm_compute; reflexivity).
  destruct (sync_peer_agrees "addr-hub" "q" hub [] _ (rw_own _ hub_wf) (rw_theirs _ hub_wf "q") Hrun "a")
    as (_ & _ & _ & _ & Hs).
  split; [apply Hs; by intros ?%elem_of_nil|vm_compute; reflexivity].
Defined.

Definition after_one : SyncServer memdb (Cluster memdb) unit := (ExecuteSync "addr-hub" hub).2.
Definition after_two : SyncServer memdb (Cluster memdb) unit := (ExecuteSync "addr-hub" after_one).2.

Lemma two_syncs_converge_witness :
  same_file (own after_two "b") (theirs after_two "p" "b") ∧
  theirs after_two "p" "b" = Some (version_of "b" "h3" 1 false).
Proof.
  assert ((ExecuteSync "addr-hub" hub).1 = Ok ([("p", Ok []); ("q", Ok [])], None)) as H1%run_result
    by (vm_compute; reflexivity).
  assert ((ExecuteSync "addr-hub" after_one).1 = Ok ([("p", Ok []); ("q", Ok [])], None)) as H2%run_result
    by (vm_compute; reflexivity).
  split; [|vm_compute; reflexivity].
  eapply (two_syncs_converge "addr-hub" hub _ _ _ _ _ _ hub_wf H1 H2).
  - intros p r [[= -> ->]|[[= -> ->]|[]%elem_of_nil]%elem_of_cons]%elem_of_cons; by eexists.
  - by eexists.
  - by left.
  - by intros ?%elem_of_nil.
Defined.

(** ** A full download queue *)

(** A node whose download queue is full, subscribed to a file of its peer, with
    a file of its own that the peer lacks. *)
Definition busy : SyncServer memdb (Cluster memdb) unit :=
  let e := (SetSubscription "b" true (holding [version_of "mine" "h1" 1 false])).2 in
  {| sStorage := {| physical := physical e; db := db e; nextDownloadID := 0; activeDownloads := ∅;
                    onDownloadNeeded := Some (λ _ _ _, Some (ESentinel ErrDownloadQueueFull)) |};
     sPeers := knows [("q", "addr-q")];
     sNet := {| members := {["q" := holding [version_of "b" "h3" 1 false]]}; links := [] |} |}.

(** A full download queue costs the sync its push and the peer its
    standing: the peer was online and answered, its manifest was merged, but
    because the node's own queue refuses the download the peer is recorded as
    offline, the sync fails, and the node's own file is not announced to it. *)
Theorem full_queue_marks_peer_offline :
  let s' := (ExecuteSync "addr-hub" busy).2 in
  IsPeerOnline (sPeers busy) "q" = true ∧ own s' "b" = Some (version_of "b" "h3" 1 false) ∧
  (∃ results err, (ExecuteSync "addr-hub" busy).1 = Ok (results, Some err) ∧ errors_Is err ErrDownloadQueueFull = true) ∧
  IsPeerOnline (sPeers s') "q" = false ∧ theirs s' "q" "mine" = None.
Proof.
  split_and!; [by vm_compute|by vm_compute| |by vm_compute|by vm_compute].
  do 2 eexists. split; [vm_compute; reflexivity|by vm_compute].
Qed.
