(* ===== verification/DownloadJobs.v ===== *)
(** * What a download job leaves behind

    The rounds of the download worker of [Sync]: whatever the peers serve and
    wherever the storage fails, a job touches no intent and no reservation but
    those of its own revision, and ends with the blob stored, or with its
    intent as it was and its reservation free for the next attempt, or with
    the intent dropped because of corrupt content. *)
From S2P Require Import Prelude GoStrings Json Protocol Bolt Vfs Sha256 Physical Journal Engine Gc Downloads Outbox PeerRegistry RegistryLaws Sync SyncLaws SyncCluster.

Section jobs.
Context {DB : Type} `{!Bolt DB} `{!BoltLaws DB} `{!Digest}.
Implicit Types (s : Engine DB) (f : IndexEntry).

(** No attempt has succeeded yet: the database is as it was, and the
    reservations of other revisions too. *)
Record unsettled f s0 s : Prop := {
  k_inv : cas_inv (physical s);
  k_db : db s = db s0;
  k_active k a : activeDownloads s0 !! k = Some a → IntentFile (ActiveIntent a) ≠ f →
    activeDownloads s !! k = Some a }.

(** What a job may change at all. *)
Record job_frame f s0 s : Prop := {
  jf_inv : cas_inv (physical s);
  jf_frame b k : b ≠ DownloadIntents → bget (db s) b k = bget (db s0) b k;
  jf_intents name i : intent_at (db s0) name = Some i → IntentFile i ≠ f → intent_at (db s) name = Some i;
  jf_active k a : activeDownloads s0 !! k = Some a → IntentFile (ActiveIntent a) ≠ f →
    activeDownloads s !! k = Some a }.

(** The blob is there and nothing is left to do for this revision. *)
Definition concluded f s : Prop :=
  (∀ i, intent_at (db s) (Name f) = Some i → IntentFile i ≠ f) ∧ reserved s (Name f) ≠ Some f.

Lemma unsettled_refl f s : cas_inv (physical s) → unsettled f s s.
Proof. by split. Qed.

Lemma unsettled_frame f s0 s : unsettled f s0 s → job_frame f s0 s.
Proof. intros [Hi Hd Ha]. split; rw ?Hd; done. Qed.

(** ** Calls on the blob store *)

Lemma unsettled_onPhysical {A} f s0 (m : ST Storage A) :
  preserves (good ∅) m → preserves (unsettled f s0) (onPhysical m).
Proof.
  intros Hm s r s' [Hi Hd Ha] (st & Hrun & ->)%onPhysical_inv. split; [|done|done].
  apply good_empty. eapply Hm; [|exact Hrun]. by apply good_empty.
Qed.

Lemma unsettled_discard f s0 b : temp_name (tempPath b) = true → preserves (unsettled f s0) (discard b).
Proof.
  intros Hb. unfold discard. apply preserves_bind; [|intros; apply preserves_ret].
  apply preserves_attempt, unsettled_onPhysical. by apply good_Discard.
Qed.

Lemma unsettled_release f s0 : preserves (unsettled f s0) (releaseDownloadIntent f).
Proof.
  intros s r s' [Hi Hd Ha] (_ & Hdb & Hp & Hact & _)%releaseDownloadIntent_spec.
  split; [by rw Hp|by rw Hdb|]. intros k a Hk Hne. apply Hact; [by apply Ha|done].
Qed.

Lemma unsettled_delete f s0 h : preserves (unsettled f s0) (onPhysical (DeleteBlob h)).
Proof. apply unsettled_onPhysical, good_DeleteBlob. intros (?&?&He&_). by rw lookup_empty in He. Qed.

Lemma unsettled_installStaged f s0 content staged g h :
  hoare (λ s, unsettled f s0 s ∧ staged_blob content staged (physical s)) (installStaged staged g h)
    (λ r s, unsettled f s0 s ∧ ∀ c, r = Ok c → authentic (physical s) (sbHash staged)).
Proof.
  intros s r s' [Hk (data & mtime & -> & Hh & Hsz & Hdone & Ht & Hst)].
  destruct (install_ne (tempPath staged) (sbHash staged) data Ht (eq_sym Hh)) as [Hn1 Hn2].
  assert (IsValidCASHash (sbHash staged) = true) as Hv by (rw Hh; apply sha256_hex_valid).
  assert (∀ m, preserves (unsettled f s0) (discard staged;; fail (A := bool) m)) as Hdisc.
  { intros m. apply preserves_bind; [by apply unsettled_discard|intros; apply preserves_fail]. }
  unfold installStaged. unfold mbind at 1, st_bind at 1, attempt at 1.
  destruct (onPhysical (Prepare staged) s) as [p s1] eqn:Hp.
  assert (unsettled f s0 s1 ∧ holds (tempPath staged) (Regular data mtime) (physical s1)) as [Hk1 Hs1].
  { split; [by eapply unsettled_onPhysical; [apply good_Prepare| |]|].
    apply onPhysical_inv in Hp as (st & Hp & ->). by eapply (holds_Prepare _ _ staged Hn1 Hn2). }
  destruct p as [[]|e]; [|intros Hrun; split; [by eapply Hdisc|intros c ->; exfalso; revert Hrun; by apply never_ok_bind]].
  unfold mbind at 1, st_bind at 1, attempt at 1.
  destruct (onPhysical (Commit staged) s1) as [c s2] eqn:Hc.
  apply onPhysical_inv in Hc as (st & Hc & ->).
  destruct (good_Commit ∅ staged data mtime Hdone Hh Ht _ _ _ (conj (proj1 (good_empty _) (k_inv _ _ _ Hk1)) Hs1) Hc)
    as [Hg HC].
  assert (unsettled f s0 (with_physical st s1)) as Hk2 by (split; [by apply good_empty|apply Hk1..]).
  destruct c as [[cr b']|e];
    [|intros Hrun; split; [by eapply Hdisc|intros c ->; exfalso; revert Hrun; by apply never_ok_bind]].
  destruct (HC cr b' eq_refl) as (-> & Ha & _). unfold mbind, st_bind.
  destruct (discard (finalized staged) (with_physical st s1)) as [x s3] eqn:Hd.
  assert (unsettled f s0 s3) as Hk3 by (by eapply (unsettled_discard f s0 (finalized staged))).
  apply discard_finalized in Hd; [|done].
  destruct x; intros [= <- <-]; (split; [done|]); [|done]. intros c _. by rw Hd.
Qed.

(** ** Intents *)

Lemma completeDownloadIntent_failed f s e s' :
  completeDownloadIntent f s = (Err e, s') →
  db s' = db s ∧ physical s' = physical s ∧ activeDownloads s' = activeDownloads s.
Proof.
  unfold completeDownloadIntent, mbind at 1, st_bind. destruct (update _ s) as [u s1] eqn:Hu.
  apply update_inv in Hu as (Hp & Ha & [[-> _]|[[e' ->] Hd]]); [by intros (? & _)%releaseDownloadIntent_spec|].
  by intros [= _ <-].
Qed.

Lemma unsettled_complete f s0 s r s' :
  unsettled f s0 s → completeDownloadIntent f s = (r, s') →
  job_frame f s0 s' ∧ (r = Ok () → concluded f s') ∧ (∀ e, r = Err e → unsettled f s0 s').
Proof.
  intros [Hi Hd Ha] Hc. split_and!.
  - apply completeDownloadIntent_completed in Hc as [Hp Hf Hint Hact _]. split.
    + by rw Hp.
    + intros b k Hb. rw Hf // Hd. done.
    + intros name i Hn Hne. unfold intent_at in *. rw -Hd in Hn.
      destruct (Hint (downloadIntentStorageKey name)) as [->|(_ & i' & Hg & Hi')]; [done|].
      rw Hg in Hn. congruence.
    + intros k a Hk Hne. apply Hact; [by apply Ha|done].
  - intros ->. apply completeDownloadIntent_completed in Hc as [_ _ _ _ Hdone]. by apply Hdone.
  - intros e ->. destruct (completeDownloadIntent_failed _ _ _ _ Hc) as (Hd' & Hp' & Ha').
    split; rw ?Hp' ?Hd' ?Ha'; done.
Qed.

(** What one attempt leaves, by its result. *)
Definition attempted f s0 (r : res unit) s : Prop :=
  job_frame f s0 s ∧
  match r with
  | Ok _ => concluded f s ∧ authentic (physical s) (Hash f)
  | Err e => errors_Is e ErrBlobDiscarded = false → unsettled f s0 s
  end.

Lemma attempted_unsettled f s0 e s : unsettled f s0 s → attempted f s0 (Err e) s.
Proof. intros Hk. split; [by apply unsettled_frame|done]. Qed.

Lemma applyDownloaded_attempted f created s0 s r s' :
  unsettled f s0 s → authentic (physical s) (Hash f) → applyDownloaded f created s = (r, s') → attempted f s0 r s'.
Proof.
  intros Hk Hauth. unfold applyDownloaded, GetFileMetaE, mbind at 1, st_bind at 1. rw attempt_viewDB.
  destruct (VFS_Get (db s) (Name f)) as [current|e].
  - destruct (match current with Some entry => still_wanted f entry | None => false end).
    + intros Hc. pose proof (unsettled_complete f s0 s r s' Hk Hc) as (Hf & Hok & Herr). split; [done|].
      destruct r as [[]|e]; [|by intros _; apply (Herr e)]. split; [by apply Hok|].
      apply completeDownloadIntent_completed in Hc. unfold authentic in *. by rw (cd_physical _ _ _ _ Hc).
    + unfold mbind, st_bind, attempt.
      destruct (deleteBlobIfOrphan (Hash f) false s) as [g s1] eqn:Hg.
      assert (unsettled f s0 s1) as Hk1.
      { revert Hg. unfold deleteBlobIfOrphan, countHashRefs, mbind, st_bind. rw attempt_viewDB.
        destruct (View (db s) _) as [n|]; [|by intros [= _ <-]]. destruct (0 <? n)%nat; [by intros [= _ <-]|].
        intros Hd. by eapply unsettled_delete. }
      destruct (completeDownloadIntent f s1) as [c s2] eqn:Hc.
      destruct (unsettled_complete f s0 s1 c s2 Hk1 Hc) as [Hf _]. unfold errors_Join. simpl.
      intros [= <- <-]. split; [done|]. simpl. done.
  - intros Hrun. assert (∃ e', r = Err e' ∧ unsettled f s0 s') as (e' & -> & Hk'); [|by apply attempted_unsettled].
    revert Hrun. unfold compensatePhysicalBlob, mbind, st_bind, attempt. destruct created.
    + destruct (onPhysical (DeleteBlob (Hash f)) s) as [d s1] eqn:Hd.
      assert (unsettled f s0 s1) by (by eapply unsettled_delete). destruct d; intros [= <- <-]; eauto.
    + intros [= <- <-]. eauto.
Qed.

Lemma StoreRemoteBlob_attempted f content s0 s r s' :
  unsettled f s0 s → StoreRemoteBlob f content s = (r, s') → attempted f s0 r s'.
Proof.
  intros Hk. unfold StoreRemoteBlob. unfold mbind at 1, st_bind at 1, attempt at 1.
  destruct (onPhysical (StageBlob content) s) as [st s1] eqn:Hst.
  assert (∀ A (m : ST (Engine DB) A) e s1, preserves (unsettled f s0) m → unsettled f s0 s1 → (m;; fail e) s1 = (r, s') →
    attempted f s0 r s') as Hfail.
  { intros A m e s2 Hm Hk2. unfold mbind, st_bind. destruct (m s2) as [[a|e'] s3] eqn:Hm2;
      (intros [= <- <-]; apply attempted_unsettled; by eapply Hm). }
  apply onPhysical_inv in Hst as (st1 & Hst & ->).
  destruct (good_StageBlob ∅ content _ _ _ (proj1 (good_empty _) (k_inv _ _ _ Hk)) Hst) as [Hg Hs].
  assert (unsettled f s0 (with_physical st1 s)) as Hk1 by (split; [by apply good_empty|apply Hk..]).
  destruct st as [staged|e]; [|by eapply Hfail; [apply unsettled_release|]]. specialize (Hs staged eq_refl).
  pose proof Hs as (data & mtime & _ & _ & _ & _ & Ht & _).
  case_bool_decide as Hhash; simpl.
  2: { intros Hrun. eapply (Hfail _ (releaseDownloadIntent f;; discard staged)); [|exact Hk1|].
       - apply preserves_bind; [apply unsettled_release|]. intros _. by apply unsettled_discard.
       - revert Hrun. unfold mbind, st_bind. destruct (releaseDownloadIntent f _) as [[]]; done. }
  unfold mbind at 1, st_bind at 1, attempt at 1.
  destruct (installStaged staged _ _ (with_physical st1 s)) as [c s2] eqn:Hc.
  destruct (unsettled_installStaged f s0 content staged _ _ _ _ _ (conj Hk1 Hs) Hc) as [Hk2 Ha].
  destruct c as [created|e]; [|by eapply Hfail; [apply unsettled_release|]].
  apply applyDownloaded_attempted; [done|]. rw -Hhash. by apply (Ha created).
Qed.
End jobs.

(** ** Jobs *)

Section worker.
Context {DB W Cert : Type} `{!Bolt DB} `{!BoltLaws DB} `{!Digest} `{!MutationHook DB} `{!PeerNet W}.
Implicit Types (s : SyncServer DB W Cert) (start : Engine DB) (f : IndexEntry) (job : DownloadJob).

Lemma onStorage_inv {A} (m : ST (Engine DB) A) s r s' :
  onStorage m s = (r, s') → m (sStorage s) = (r, sStorage s') ∧ sPeers s' = sPeers s ∧ sNet s' = sNet s.
Proof. unfold onStorage. destruct (m (sStorage s)). by intros [= <- <-]. Qed.

Lemma fetch_attempted f peerID start s r s' :
  Name f ≠ "" → unsettled f start (sStorage s) → fetchBlobFromPeer f peerID s = (r, s') → attempted f start r (sStorage s').
Proof.
  intros Hn Hk. unfold fetchBlobFromPeer, mbind at 1, st_bind at 1, gets.
  destruct (callErr (sNet s)); [intros [= <- <-]; by apply attempted_unsettled|].
  unfold mbind at 1, st_bind at 1, onNet. destruct (DownloadBlob peerID (Hash f) (sNet s)) as [body w].
  destruct body as [content|e]; [|intros [= <- <-]; by apply attempted_unsettled].
  unfold mbind, st_bind. simpl. destruct (callErr w); [intros [= <- <-]; by apply attempted_unsettled|].
  rw bool_decide_eq_false_2 //=. intros [Hrun _]%onStorage_inv. by eapply StoreRemoteBlob_attempted.
Qed.

Lemma download_attempted job peerID start s r s' :
  Name (JobFile job) ≠ "" → unsettled (JobFile job) start (sStorage s) →
  downloadJobFromPeer job peerID s = (r, s') → attempted (JobFile job) start r (sStorage s').
Proof.
  intros Hn Hk (s1 & Hrun & -> & _)%callPeer_run. by eapply fetch_attempted.
Qed.

(** Where the attempts may end: one succeeded, or an error is left, and
    unless it says that the blob is obsolete nothing was changed. *)
Definition tried f start (err : option error) (s : Engine DB) : Prop :=
  attempted f start (match err with None => Ok () | Some e => Err e end) s.

Lemma fallback_tried job err integrity order start s out s' :
  Name (JobFile job) ≠ "" → errors_Is err ErrBlobDiscarded = false → unsettled (JobFile job) start (sStorage s) →
  fallback job err integrity order s = (out, s') →
  job_frame (JobFile job) start (sStorage s') ∧
  (out = Ok None ∨ ∃ err' i, out = Ok (Some (err', i)) ∧ tried (JobFile job) start err' (sStorage s')).
Proof.
  intros Hn He. revert integrity s. induction order as [|p order IH]; intros integrity s Hk; simpl.
  { intros [= <- <-]. split; [by apply unsettled_frame|]. right. do 2 eexists. split; [done|]. by apply attempted_unsettled. }
  unfold mbind at 1, st_bind at 1, lifetimeOver, gets. case_bool_decide as Hover.
  { intros [= <- <-]. split; [by apply unsettled_frame|by left]. }
  unfold mbind at 1, st_bind at 1. destruct (_ || _); [by apply IH|].
  unfold mbind at 1, st_bind at 1, attempt. destruct (downloadJobFromPeer job p s) as [r s1] eqn:Hd.
  pose proof (download_attempted job p start s r s1 Hn Hk Hd) as Ha.
  destruct r as [[]|e].
  { intros [= <- <-]. split; [apply Ha|]. right. do 2 eexists. by split. }
  destruct (errors_Is e ErrBlobDiscarded) eqn:Hdis; [|apply IH; by apply Ha].
  intros [= <- <-]. split; [apply Ha|]. right. do 2 eexists. by split.
Qed.

(** What each end of a job means for its revision. *)
Definition job_ended f start (e : jobEnd) (s : Engine DB) : Prop :=
  match e with
  | JobStored => concluded f s ∧ authentic (physical s) (Hash f)
  | JobReleased _ => db s = db start ∧ reserved s (Name f) ≠ Some f
  | JobQuarantined None => concluded f s
  | JobQuarantined (Some _) => db s = db start
  | JobStopped | JobDiscarded => True
  | JobDeletion _ => False
  end.

Lemma settleJob_ended job err integrity start s out s' :
  tried (JobFile job) start err (sStorage s) → settleJob job err integrity s = (out, s') →
  ∃ e, out = Ok e ∧ e ≠ JobStopped ∧ job_frame (JobFile job) start (sStorage s') ∧ job_ended (JobFile job) start e (sStorage s').
Proof.
  intros [Hf Ht]. unfold settleJob. destruct err as [err|]; [|intros [= <- <-]; by eexists].
  destruct (errors_Is err ErrBlobDiscarded); [intros [= <- <-]; by eexists|]. specialize (Ht eq_refl).
  unfold mbind, st_bind, attempt. destruct integrity.
  - destruct (onStorage _ s) as [q s1] eqn:Hq. apply onStorage_inv in Hq as [Hq _].
    destruct (unsettled_complete _ _ _ _ _ Ht Hq) as (Hf1 & Hok & Herr). intros [= <- <-]. eexists.
    split_and!; [done..|]. destruct q as [[]|e]; simpl; [by apply Hok|by apply (Herr e)].
  - destruct (onStorage _ s) as [q s1] eqn:Hq. apply onStorage_inv in Hq as [Hq _].
    pose proof (unsettled_release _ _ _ _ _ Ht Hq) as Hk. apply releaseDownloadIntent_spec in Hq as (-> & _ & _ & _ & Hr).
    intros [= <- <-]. eexists. split_and!; [done|done|by apply unsettled_frame|]. split; [apply Hk|done].
Qed.

Lemma downloadJob_frame job s out s' :
  cas_inv (physical (sStorage s)) → Name (JobFile job) ≠ "" → Deleted (JobFile job) = false →
  downloadJob job s = (out, s') →
  ∃ e, out = Ok e ∧ job_frame (JobFile job) (sStorage s) (sStorage s') ∧
    job_ended (JobFile job) (sStorage s) e (sStorage s').
Proof.
  intros Hr Hn Hdel. unfold downloadJob. rw Hdel.
  unfold mbind at 1, st_bind at 1, startSession, onNet.
  set (s1 := {| sStorage := sStorage s; sPeers := sPeers s; sNet := net_session (JobSource job) (sNet s) |}).
  unfold mbind at 1, st_bind at 1, attempt. destruct (downloadJobFromPeer job (JobSource job) s1) as [r s2] eqn:Hd.
  pose proof (download_attempted job _ (sStorage s) s1 r s2 Hn (unsettled_refl _ _ Hr) Hd) as Ha. clear Hd.
  unfold mbind at 1, st_bind at 1, lifetimeOver at 1, gets at 1. unfold mbind at 1, st_bind at 1.
  match goal with |- context [match ?m s2 with _ => _ end] => destruct (m s2) as [o s3] eqn:Hm end.
  assert (job_frame (JobFile job) (sStorage s) (sStorage s3) ∧
    (o = Ok None ∨ ∃ err' i, o = Ok (Some (err', i)) ∧ tried (JobFile job) (sStorage s) err' (sStorage s3)))
    as [Hf Ho].
  { revert Hm. destruct r as [[]|e].
    { intros [= <- <-]. split; [apply Ha|]. right. do 2 eexists. by split. }
    destruct (errors_Is e ErrBlobDiscarded) eqn:Hdis; simpl.
    { intros [= <- <-]. split; [apply Ha|]. right. do 2 eexists. by split. }
    case_bool_decide.
    { intros [= <- <-]. split; [apply Ha|]. right. do 2 eexists. by split. }
    apply fallback_tried; [done|done|]. by apply Ha. }
  destruct Ho as [->|(err & i & -> & Ht)]; unfold mbind, st_bind, lifetimeOver, gets.
  { intros [= <- <-]. by exists JobStopped. }
  destruct (bool_decide (is_Some (lifetimeErr (sNet s3)))); [intros [= <- <-]; by exists JobStopped|].
  intros Hrun. destruct (settleJob_ended _ _ _ (sStorage s) _ _ _ Ht Hrun) as (e & -> & _ & Hf' & He). by exists e.
Qed.

(** C6: a round of the download worker returns, and whatever the peers serve
    and wherever storage or network fail it touches no intent and no
    reservation but those of the revision it was asked for.  When it reports
    the blob stored, the file on disk has the advertised digest and neither
    intent nor reservation is left; when it gives the attempt back, the
    database is as it was and no reservation blocks the next attempt; when it
    quarantines, the intent is gone. *)
Theorem downloadJob_settles job s out s' :
  reachable (physical (sStorage s)) → Name (JobFile job) ≠ "" → Deleted (JobFile job) = false →
  downloadJob job s = (out, s') →
  ∃ e, out = Ok e ∧ job_frame (JobFile job) (sStorage s) (sStorage s') ∧
    job_ended (JobFile job) (sStorage s) e (sStorage s').
Proof. intros Hr%reachable_inv. by apply downloadJob_frame. Qed.

(** A worker takes the jobs of its queue in order, each to an end, and an
    intent for a revision that no job of the queue is about survives. *)
Theorem downloadWorker_frame queue s out s' :
  cas_inv (physical (sStorage s)) →
  Forall (λ job, Name (JobFile job) ≠ "" ∧ Deleted (JobFile job) = false) queue →
  downloadWorker queue s = (out, s') →
  ∃ ends, out = Ok ends ∧ (length ends ≤ length queue)%nat ∧ cas_inv (physical (sStorage s')) ∧
    ∀ name i, intent_at (db (sStorage s)) name = Some i → (∀ job, job ∈ queue → IntentFile i ≠ JobFile job) →
      intent_at (db (sStorage s')) name = Some i.
Proof.
  intros Hi Hq. revert s out s' Hi. induction Hq as [|job queue [Hn Hd] _ IH]; intros s out s' Hi; simpl.
  { intros [= <- <-]. exists []. by split_and!. }
  unfold mbind at 1, st_bind at 1, lifetimeOver, gets. case_bool_decide.
  { intros [= <- <-]. exists []. split_and!; [done|simpl; lia|done|done]. }
  unfold mbind at 1, st_bind at 1. destruct (downloadJob job s) as [o s1] eqn:Hj.
  destruct (downloadJob_frame job s o s1 Hi Hn Hd Hj) as (e & -> & [Hi1 _ Hint _] & _).
  assert (∀ name i, intent_at (db (sStorage s)) name = Some i → (∀ j, j ∈ job :: queue → IntentFile i ≠ JobFile j) →
    intent_at (db (sStorage s1)) name = Some i) as Hint1.
  { intros name i Hn' Hne. apply Hint; [done|]. apply Hne. by left. }
  match goal with |- _ → ?G => assert ((tail ← downloadWorker queue; mret (e :: tail)) s1 = (out, s') → G) as Hmore end.
  { unfold mbind, st_bind. destruct (downloadWorker queue s1) as [o s2] eqn:Hw.
    destruct (IH s1 o s2 Hi1 Hw) as (ends & -> & Hlen & Hi2 & Hint2). intros [= <- <-]. exists (e :: ends).
    split_and!; [done|simpl; lia|done|]. intros name i Hn' Hne. apply Hint2; [by apply Hint1|].
    intros j Hj'. apply Hne. by right. }
  destruct e; try exact Hmore. intros [= <- <-]. exists [JobStopped]. split_and!; [done|simpl; lia|done|done].
Qed.

(** ** Fetching on demand *)

Lemma firstOf_fetch f order s out s' :
  Name f ≠ "" → cas_inv (physical (sStorage s)) → firstOf true (fetchBlobFromPeer f) order s = (out, s') →
  cas_inv (physical (sStorage s')) ∧ ∃ got, out = Ok got ∧ (is_Some got → authentic (physical (sStorage s')) (Hash f)).
Proof.
  intros Hn. revert s. induction order as [|p order IH]; intros s Hi; simpl.
  { intros [= <- <-]. split; [done|]. exists None. split; [done|]. by intros []. }
  unfold mbind at 1, st_bind at 1, gets. destruct (bool_decide (p = _)); simpl; [by apply IH|].
  unfold mbind, st_bind, attempt. destruct (callPeer p (fetchBlobFromPeer f) s) as [r s1] eqn:Hc.
  apply callPeer_run in Hc as (s2 & Hrun & Hs & _).
  destruct (fetch_attempted f p (sStorage s) s r s2 Hn (unsettled_refl _ _ Hi) Hrun) as [Hf Hr]. rw -Hs in Hf Hr.
  destruct r as [[]|e]; [|apply IH, Hf]. intros [= <- <-]. split; [apply Hf|]. exists (Some ()). by split; [|intros _; apply Hr].
Qed.

(** A file fetched on demand is on disk with the digest its index entry has,
    whether it was there before or came from any peer. *)
Theorem FetchFileOnDemand_sound name s s' :
  reachable (physical (sStorage s)) → name ≠ "" →
  (∀ e, index_of (db (sStorage s)) name = Some e → Name e = name) →
  FetchFileOnDemand name s = (Ok (), s') →
  ∃ e, index_of (db (sStorage s)) name = Some e ∧ authentic (physical (sStorage s')) (Hash e).
Proof.
  intros Hr%reachable_inv Hname Hwf. unfold FetchFileOnDemand, mbind at 1, st_bind at 1, attempt at 1.
  destruct (onStorage (GetFileMetaE name) s) as [m s1] eqn:Hm. apply onStorage_inv in Hm as (Hm & _ & _).
  unfold GetFileMetaE, viewDB, VFS_Get, View in Hm. injection Hm as Hm Hs1.
  destruct m as [[e|]|]; [|done..]. apply indexGetTx_Some in Hm. specialize (Hwf e Hm). rw Hs1 in Hr.
  unfold mbind at 1, st_bind at 1, attempt at 1.
  destruct (onStorage (HasPhysicalBlob (Hash e)) s1) as [h s2] eqn:Hh. apply onStorage_inv in Hh as (Hh & _ & _).
  unfold HasPhysicalBlob in Hh. apply onPhysical_inv in Hh as (st & Hb & Hs2).
  destruct (good_BlobExists ∅ (Hash e) _ _ _ (proj1 (good_empty _) Hr) Hb) as [Hg Ha].
  assert (physical (sStorage s2) = st) as Hp by (by rw Hs2).
  assert (cas_inv (physical (sStorage s2))) as Hi2 by (rw Hp; by apply good_empty).
  intros Hrun. exists e. split; [done|].
  assert ((got ← firstPeer true (fetchBlobFromPeer e);
           match got with Some _ => mret () | None => fail (EMsg "no peer holds physical replica") end) s2 = (Ok (), s') →
          authentic (physical (sStorage s')) (Hash e)) as Hfetch.
  { unfold firstPeer, mbind, st_bind, gets. destruct (firstOf true _ _ s2) as [o s3] eqn:Hf.
    apply firstOf_fetch in Hf as (_ & got & -> & Hgot); [|by rw Hwf|done].
    destruct got; [|done]. intros [= <-]. by apply Hgot. }
  destruct h as [[|]|]; [|by apply Hfetch..]. injection Hrun as <-. rw Hp. by apply Ha.
Qed.
End worker.

(** ** Witnesses *)

(** The source of the entry has lost the blob, another peer has it. *)
Definition fetching : SyncServer memdb (Cluster memdb) unit :=
  {| sStorage := requested_engine;
     sPeers := knows [("peer", "addr-1"); ("other", "addr-2")];
     sNet := {| members := {["peer" := holding [wanted]; "other" := stored_engine]}; links := [] |} |}.

Definition wanted_job : DownloadJob := {| JobFile := wanted; JobSource := "peer" |}.

Lemma downloadJob_settles_witness :
  authentic (physical (sStorage (downloadJob wanted_job fetching).2)) (Hash wanted).
Proof.
  assert ((downloadJob wanted_job fetching).1 = Ok JobStored) as Hrun%run_result by (vm_compute; reflexivity).
  destruct (downloadJob_settles wanted_job fetching _ _ requested_engine_disk ltac:(done) eq_refl Hrun)
    as (e & [= <-] & _ & _ & Ha). exact Ha.
Defined.
