(* ===== verification/SmartToken.v ===== *)
(** * Invitations of a cluster

    [internal/p2p/invite.go]: the token that invites a node packs the hash of
    the cluster's CA, a one-time secret and the addresses of the host into
    bytes, written in base64.  Bytes are numbers below 256, and an index or a
    slice out of range is the run-time panic Go makes of it.  [net.ParseIP],
    [net.SplitHostPort] and [IP.String] are parameters. *)
From Stdlib Require Import Ascii String.
From S2P Require Import Prelude GoStrings Json Protocol Sha256 Engine UiSchema Stun.
Local Open Scope stdpp_scope.

(** ** Encodings *)

Definition string_of_bytes (l : list N) : string := string_of_list_ascii (ascii_of_N <$> l).

(** The value of a digit of the URL alphabet. *)
Definition base64_value (c : ascii) : option N :=
  let n := N_of_ascii c in
  (if (65 <=? n) && (n <=? 90) then Some (n - 65)
   else if (97 <=? n) && (n <=? 122) then Some (n - 71)
   else if (48 <=? n) && (n <=? 57) then Some (n + 4)
   else if n =? 45 then Some 62 else if n =? 95 then Some 63 else None)%N.

(** Groups of four digits give three bytes; a last group of two or three
    gives one or two, its spare bits ignored, and one digit is an error. *)
Fixpoint base64_groups (l : list N) : option (list N) :=
  match l with
  | [] => Some []
  | [_] => None
  | [a; b] => Some [(a * 4 + b / 16) mod 256]
  | [a; b; c] => Some [(a * 4 + b / 16) mod 256; (b * 16 + c / 4) mod 256]
  | a :: b :: c :: d :: rest =>
      match base64_groups rest with
      | Some out => Some ((a * 4 + b / 16) mod 256 :: (b * 16 + c / 4) mod 256 :: (c * 64 + d) mod 256 :: out)
      | None => None
      end
  end%N.

(** [base64.RawURLEncoding.DecodeString]: line breaks are skipped. *)
Definition base64_decode (s : string) : option (list N) :=
  digits ← mapM base64_value
    (filter (λ c, c ≠ ascii_of_N 10 ∧ c ≠ ascii_of_N 13) (list_ascii_of_string s));
  base64_groups digits.

Definition hex_value (c : ascii) : option N :=
  let n := N_of_ascii c in
  (if (48 <=? n) && (n <=? 57) then Some (n - 48)
   else if (97 <=? n) && (n <=? 102) then Some (n - 87)
   else if (65 <=? n) && (n <=? 70) then Some (n - 55) else None)%N.

Fixpoint hex_pairs (l : list N) : option (list N) :=
  match l with
  | [] => Some []
  | [_] => None
  | a :: b :: rest => match hex_pairs rest with Some out => Some ((a * 16 + b)%N :: out) | None => None end
  end.

(** [hex.DecodeString]. *)
Definition hex_decode (s : string) : option (list N) :=
  digits ← mapM hex_value (list_ascii_of_string s);
  hex_pairs digits.

(** [strconv.Atoi]: an optional sign and decimal digits, within 64 bits. *)
Definition Atoi (s : string) : option Z :=
  let within z := if bool_decide (-2 ^ 63 ≤ z < 2 ^ 63)%Z then Some z else None in
  let digits t := match ParseUint t with Some n => Some (Z.of_N n) | None => None end in
  match s with
  | String c rest =>
      if Ascii.eqb c "-"%char then z ← digits rest; within (- z)%Z
      else if Ascii.eqb c "+"%char then z ← digits rest; within z
      else z ← digits s; within z
  | EmptyString => None
  end.

(** ** Addresses *)

(** [net.JoinHostPort] and the URL of a node. *)
Definition JoinHostPort (host port : string) : string :=
  if Contains host ":" then "[" +:+ host +:+ "]:" +:+ port else host +:+ ":" +:+ port.
Definition SchemeAddr (scheme host port : string) : string := scheme +:+ "://" +:+ JoinHostPort host port.
Definition HTTPSAddr (host port : string) : string := SchemeAddr "https" host port.
Definition HTTPSAddrPort (host : string) (port : N) : string := HTTPSAddr host (itoa port).

Definition StripURLScheme (addr : string) : string := TrimPrefix (TrimPrefix addr "https://") "http://".

(** [ip.Equal(x)]: an IPv4 address equals its form in IPv6. *)
Definition ip_Equal (ip x : list Z) : bool :=
  match To4 ip, To4 x with
  | Some a, Some b => bool_decide (a = b)
  | None, None => bool_decide (ip = x)
  | _, _ => false
  end.

(** [ip.To16()] of an address [To4] refuses. *)
Definition To16 (ip : list Z) : option (list Z) := if (len ip =? IPv6len)%Z then Some ip else None.

Record InvitePayload := {
  InvAddress : string;
  CAHash : string;
  InvAddresses : list string;
  SponsorID : string;
  RelayAddr : string }.

(** ** Strings of at most 255 bytes *)

Definition appendL8String (s : string) : list N :=
  let b := bytes_of s in
  let b := if (255 <? length b)%nat then take 255 b else b in
  (N.of_nat (length b) mod 256)%N :: b.

Definition readL8String (data : list N) (idx : Z) (field : string) : res (string * Z) :=
  if (len data <=? idx)%Z then Err (EMsg ("malformed binary token: " +:+ field +:+ " len out of bounds"))
  else
    n ← at_index data idx;
    let idx := (idx + 1)%Z in
    if (len data <? idx + Z.of_N n)%Z then Err (EMsg ("malformed binary token: " +:+ field +:+ " out of bounds"))
    else
      s ← slice data idx (idx + Z.of_N n);
      Ok (string_of_bytes s, (idx + Z.of_N n)%Z).

Section token.
(** [net.ParseIP], [net.SplitHostPort] and [IP.String]. *)
Variable ParseIP : string → option (list Z).
Variable SplitHostPort : string → option (string * string).
Variable ipString : list Z → string.

(** ** Writing a token *)

(** The host and the port of the address the host listens at. *)
Definition hostAndPort (hostAddress : string) : string * N :=
  let cleanAddr := StripURLScheme hostAddress in
  let default := default 0%N (ParseUint DefaultTCPPort) in
  match SplitHostPort cleanAddr with
  | Some (host, portStr) =>
      (host, match Atoi portStr with Some p => Z.to_N (p mod 2 ^ 16) | None => default end)
  | None => (cleanAddr, default)
  end.

(** The addresses written: the host's, the local ones, else loopback. *)
Definition inviteIPs (host : string) (localIPs : list (list Z)) : list (list Z) :=
  let ips := match ParseIP host with Some ip => [ip] | None => [] end in
  let ips := foldl (λ ips lip, if existsb (λ ip, ip_Equal ip lip) ips then ips else ips ++ [lip]) ips localIPs in
  if bool_decide (ips = []) && (bool_decide (host = "") || bool_decide (ParseIP host = None))
  then [replicate 10 0 ++ [255; 255; 127; 0; 0; 1]]%Z else ips.

Definition ipEntry (ip : list Z) : list N :=
  match To4 ip with
  | Some ip4 => 1%N :: (Z.to_N <$> ip4)
  | None => match To16 ip with Some ip16 => 2%N :: (Z.to_N <$> ip16) | None => [] end
  end.

Definition isHostname (host : string) : bool :=
  negb (bool_decide (host = "")) && bool_decide (ParseIP host = None) && negb (bool_decide (host = "localhost")).

Definition tokenBytes (hash secret : list N) (host : string) (port : N) (sponsorID relayAddr : string)
    (ips : list (list Z)) : list N :=
  let hasRelay := negb (bool_decide (sponsorID = "")) && negb (bool_decide (relayAddr = "")) in
  let numEntries := (length ips + (if isHostname host then 1 else 0) + (if hasRelay then 1 else 0))%nat in
  [2%N] ++ hash ++ secret ++ big_endian 2 port ++ [(N.of_nat numEntries mod 256)%N] ++
  (if isHostname host then 3%N :: appendL8String host else []) ++
  (if hasRelay then 4%N :: appendL8String sponsorID ++ appendL8String relayAddr else []) ++
  flat_map ipEntry ips.

(** [caHash] is the digest of the CA certificate, in hexadecimal, [random]
    the 32 random bytes and [localIPs] the routable addresses of the host. *)
Definition GenerateSmartToken (hostAddress : string) (caHash : res string) (sponsorID relayAddr : string)
    (random : res (list N)) (localIPs : list (list Z)) : res (string * string) :=
  hashHex ← caHash;
  match hex_decode hashHex with
  | None => Err (EMsg "invalid CA hash from PEM")
  | Some hash =>
      if negb (length hash =? 32)%nat then Err (EMsg "invalid CA hash from PEM")
      else
        match random with
        | Err e => Err (EWrap "failed to generate random secret" e)
        | Ok secretBytes =>
            let '(host, port) := hostAndPort hostAddress in
            let ips := inviteIPs host localIPs in
            Ok (base64_encode (tokenBytes hash secretBytes host port sponsorID relayAddr ips),
                hex_encode secretBytes)
        end
  end.

(** ** Reading a token *)

Definition withAddr (a : string) (p : InvitePayload) : InvitePayload :=
  {| InvAddress := InvAddress p; CAHash := CAHash p; InvAddresses := InvAddresses p ++ [a];
     SponsorID := SponsorID p; RelayAddr := RelayAddr p |}.
Definition withRelay (sid addr : string) (p : InvitePayload) : InvitePayload :=
  {| InvAddress := InvAddress p; CAHash := CAHash p; InvAddresses := InvAddresses p;
     SponsorID := sid; RelayAddr := addr |}.

Definition readIP (data : list N) (idx width : Z) (port : N) (p : InvitePayload) : res (InvitePayload * Z) :=
  if (len data <? idx + width)%Z then Err (EMsg "malformed binary token: ip out of bounds")
  else
    ip ← slice data idx (idx + width);
    Ok (withAddr (HTTPSAddrPort (ipString (Z.of_N <$> ip)) port) p, (idx + width)%Z).

(** One entry at [idx]. *)
Definition readEntry (data : list N) (port : N) (p : InvitePayload) (idx : Z) : res (InvitePayload * Z) :=
  if (len data <=? idx)%Z then Err (EMsg "malformed binary token: out of bounds")
  else
    entryType ← at_index data idx;
    let idx := (idx + 1)%Z in
    if (entryType =? 1)%N then readIP data idx 4 port p
    else if (entryType =? 2)%N then readIP data idx 16 port p
    else if (entryType =? 3)%N then
      r ← readL8String data idx "hostname";
      Ok (withAddr (HTTPSAddrPort r.1 port) p, r.2)
    else if (entryType =? 4)%N then
      sid ← readL8String data idx "relay sid";
      addr ← readL8String data sid.2 "relay addr";
      Ok (withRelay sid.1 addr.1 p, addr.2)
    else Err (EMsg "malformed binary token: unknown entry type").

Fixpoint readEntries (n : nat) (data : list N) (port : N) (p : InvitePayload) (idx : Z) : res InvitePayload :=
  match n with
  | 0 => Ok p
  | S n' => r ← readEntry data port p idx; readEntries n' data port r.1 r.2
  end.

(** [strings.Trim] of the two quotes. *)
Definition isQuote (c : ascii) : bool := Ascii.eqb c (ascii_of_N 34) || Ascii.eqb c (ascii_of_N 39).
Fixpoint trimQuotesLeft (l : list ascii) : list ascii :=
  match l with c :: rest => if isQuote c then trimQuotesLeft rest else l | [] => [] end.
Definition trimQuotes (s : string) : string :=
  string_of_list_ascii (reverse (trimQuotesLeft (reverse (trimQuotesLeft (list_ascii_of_string s))))).

Definition parseTokenBytes (data : list N) : res (InvitePayload * string) :=
  if match data with 2%N :: _ => false | _ => true end
  then Err (EMsg "invalid token format: unsupported version")
  else if (len data <? 68)%Z then Err (EMsg "invalid binary token length")
  else
    caHash ← slice data 1 33;
    secretBytes ← slice data 33 65;
    hi ← at_index data 65;
    lo ← at_index data 66;
    num ← at_index data 67;
    payload ← readEntries (N.to_nat num) data (N.lor lo (N.shiftl hi 8))
      {| InvAddress := ""; CAHash := hex_encode caHash; InvAddresses := []; SponsorID := ""; RelayAddr := "" |} 68;
    Ok ({| InvAddress := default "" (head (InvAddresses payload)); CAHash := CAHash payload;
           InvAddresses := InvAddresses payload; SponsorID := SponsorID payload; RelayAddr := RelayAddr payload |},
        hex_encode secretBytes).

Definition ParseSmartToken (smartToken : string) : res (InvitePayload * string) :=
  let token := trimQuotes (TrimSpace smartToken) in
  if bool_decide (token = "") then Err (EMsg "token is empty")
  else
    match base64_decode token with
    | None => Err (EMsg "invalid base64 token")
    | Some data => parseTokenBytes data
    end.
End token.
