(* ===== verification/NetAddr.v ===== *)
(** * Hosts and ports

    The helpers of [internal/utils/net_utils.go] that take addresses apart,
    over [net.SplitHostPort] of the standard library, and the round trip of the
    latter with [net.JoinHostPort]. *)
From Stdlib Require Import Ascii String.
From S2P Require Import Prelude GoStrings Json Protocol SmartToken.
Local Open Scope stdpp_scope.

(** ** Bytes *)

Fixpoint IndexByte (c : ascii) (l : list ascii) : option nat :=
  match l with
  | [] => None
  | x :: rest => if bool_decide (x = c) then Some 0 else S <$> IndexByte c rest
  end.

Fixpoint LastIndexByte (c : ascii) (l : list ascii) : option nat :=
  match l with
  | [] => None
  | x :: rest =>
      match LastIndexByte c rest with
      | Some n => Some (S n)
      | None => if bool_decide (x = c) then Some 0 else None
      end
  end.

(** ** [net.SplitHostPort] *)

Definition colon : ascii := ":"%char.
Definition lbracket : ascii := "["%char.
Definition rbracket : ascii := "]"%char.

(** The last checks: no bracket from the positions [j] and [k] on. *)
Definition splitRest (l : list ascii) (j k i : nat) (host : list ascii) : option (list ascii * list ascii) :=
  if bool_decide (lbracket ∈ drop j l) then None
  else if bool_decide (rbracket ∈ drop k l) then None
  else Some (host, drop (S i) l).

Definition splitBytes (l : list ascii) : option (list ascii * list ascii) :=
  match LastIndexByte colon l with
  | None => None
  | Some i =>
      if bool_decide (head l = Some lbracket) then
        match IndexByte rbracket l with
        | None => None
        | Some e =>
            if bool_decide (S e = length l) then None
            else if bool_decide (S e = i) then splitRest l 1 (S e) i (take (e - 1) (drop 1 l))
            else None
        end
      else if bool_decide (colon ∈ take i l) then None
      else splitRest l 0 0 i (take i l)
  end.

Definition SplitHostPort (hostport : string) : option (string * string) :=
  prod_map string_of_list_ascii string_of_list_ascii <$> splitBytes (list_ascii_of_string hostport).

(** ** [net_utils.go] *)

Definition ClientHost (remoteAddr : string) : string :=
  match SplitHostPort remoteAddr with Some (host, _) => host | None => remoteAddr end.

(** ** Laws *)

Lemma IndexByte_spec c l i :
  IndexByte c l = Some i ↔ l = take i l ++ c :: drop (S i) l ∧ c ∉ take i l.
Proof.
  revert i. induction l as [|x l IH]; intros i; simpl.
  { split; [done|]. by rw take_nil; intros [? _]. }
  case_bool_decide as Hx; [subst x|].
  - split; [intros [= <-]; split; [done|apply not_elem_of_nil]|].
    destruct i; [done|]. simpl. intros [_ Hnot]. by destruct Hnot; left.
  - destruct i as [|i]; simpl.
    { split; [by destruct (IndexByte c l)|]. by intros [[= <-] _]. }
    rw fmap_Some. split.
    + intros (n & Hn & [= <-]). apply IH in Hn as [Hl Hc]. split; [by rw -Hl|].
      rw not_elem_of_cons. split; [congruence|done].
    + intros [[= Hl] [_ Hc]%not_elem_of_cons]. exists i. split; [|done]. by apply IH.
Qed.

Lemma LastIndexByte_None c l : LastIndexByte c l = None ↔ c ∉ l.
Proof.
  induction l as [|x l IH]; simpl; [split; [intros _; apply not_elem_of_nil|done]|].
  rw not_elem_of_cons. destruct (LastIndexByte c l) as [n|].
  - split; [done|]. intros [_ Hc]. by apply IH in Hc.
  - case_bool_decide as Hx; [naive_solver|]. split; [|done]. intros _. split; [congruence|by apply IH].
Qed.

Lemma LastIndexByte_spec c l i :
  LastIndexByte c l = Some i ↔ l = take i l ++ c :: drop (S i) l ∧ c ∉ drop (S i) l.
Proof.
  revert i. induction l as [|x l IH]; intros i; simpl.
  { split; [done|]. by rw take_nil; intros [? _]. }
  destruct (LastIndexByte c l) as [n|] eqn:Hn.
  - destruct i as [|i]; simpl.
    + split; [done|]. intros [[= ->] Hc]. rw drop_0 in Hc. apply LastIndexByte_None in Hc. congruence.
    + specialize (IH i). split.
      * intros [= ->]. destruct (proj1 IH eq_refl) as [Hl Hc]. split; [by rw -Hl|done].
      * intros [[= Hl] Hc]. specialize (proj2 IH (conj Hl Hc)) as [= ->]. done.
  - apply LastIndexByte_None in Hn. case_bool_decide as Hx; [subst x|].
    + destruct i as [|i]; simpl; [by rw drop_0|]. split; [done|]. intros [[= Hl] _]. destruct Hn. rw Hl.
      apply elem_of_app. right. by left.
    + split; [done|]. destruct i as [|i]; simpl; [by intros [[= <-] _]|]. intros [[= Hl] _]. destruct Hn. rw Hl.
      apply elem_of_app. right. by left.
Qed.

Lemma in_take {A} n (x : A) l : x ∈ take n l → x ∈ l.
Proof. intros Hx. rw -(take_drop n l). apply elem_of_app. by left. Qed.

Lemma in_drop {A} n (x : A) l : x ∈ drop n l → x ∈ l.
Proof. intros Hx. rw -(take_drop n l). apply elem_of_app. by right. Qed.

(** The parts of an address hold no brackets, and the port no colon. *)
Lemma splitBytes_parts l h p :
  splitBytes l = Some (h, p) →
  (lbracket ∉ h ∧ rbracket ∉ h) ∧ (colon ∉ p ∧ lbracket ∉ p ∧ rbracket ∉ p).
Proof.
  unfold splitBytes. destruct (LastIndexByte colon l) as [i|] eqn:Hi; [|done].
  apply LastIndexByte_spec in Hi as [_ Hport].
  assert (∀ j k host, splitRest l j k i host = Some (h, p) →
    host = h ∧ p = drop (S i) l ∧ lbracket ∉ drop j l ∧ rbracket ∉ drop k l) as Hrest.
  { intros j k host. unfold splitRest. do 2 (case_bool_decide; [done|]). by intros [= -> <-]. }
  case_bool_decide as Hhead.
  - destruct (IndexByte rbracket l) as [e|] eqn:He; [|done]. apply IndexByte_spec in He as [Hl Hr].
    case_bool_decide; [done|]. case_bool_decide as Hei; [|done]. intros (<- & -> & Hj & Hk)%Hrest.
    destruct l as [|x l]; [done|]. simpl in *. rw drop_0 in Hj. rw drop_0.
    split_and!; [by intros ?%in_take| |done|by intros ?%in_drop|].
    + destruct e as [|e]; simpl in *; [apply not_elem_of_nil|].
      rw Nat.sub_0_r. by apply not_elem_of_cons in Hr as [_ ?].
    + rw -Hei. intros Hin. destruct Hk. apply (in_drop 1). by rw drop_drop Nat.add_1_r.
  - case_bool_decide; [done|]. intros (<- & -> & Hj & Hk)%Hrest. rw drop_0 in Hj Hk.
    split_and!; [by intros ?%in_take|by intros ?%in_take|done|by intros ?%in_drop|by intros ?%in_drop].
Qed.

Lemma list_ascii_app s t :
  list_ascii_of_string (s +:+ t) = list_ascii_of_string s ++ list_ascii_of_string t.
Proof. induction s as [|c s IH]; simpl; [done|]. by rw IH. Qed.

Lemma Contains_byte s c : Contains s (String c "") = bool_decide (c ∈ list_ascii_of_string s).
Proof.
  induction s as [|x s IH]; [done|].
  change (HasPrefix (String x s) (String c "") || Contains s (String c "") =
          bool_decide (c ∈ x :: list_ascii_of_string s)).
  rw IH. destruct (HasPrefix (String x s) (String c "")) eqn:Hp; simpl.
  - apply HasPrefix_spec in Hp as [t Ht]. injection Ht as -> _.
    symmetry. apply bool_decide_eq_true. by left.
  - apply bool_decide_ext. rw elem_of_cons. split; [by right|]. intros [->|?]; [|done].
    pose proof (HasPrefix_app (String x "") s) as Ha. change (String x "" +:+ s) with (String x s) in Ha. congruence.
Qed.

Lemma splitRest_plain l j k i host :
  lbracket ∉ drop j l → rbracket ∉ drop k l → splitRest l j k i host = Some (host, drop (S i) l).
Proof. intros Hj Hk. unfold splitRest. by rw !bool_decide_eq_false_2. Qed.

Lemma splitBytes_plain h p :
  colon ∉ h → lbracket ∉ h → rbracket ∉ h → colon ∉ p → lbracket ∉ p → rbracket ∉ p →
  splitBytes (h ++ colon :: p) = Some (h, p).
Proof.
  intros Hc Hl Hr Hcp Hlp Hrp. unfold splitBytes.
  assert (∀ b, b ∉ h → b ∉ p → b ≠ colon → b ∉ h ++ colon :: p) as Hfree.
  { intros b ???. rw not_elem_of_app not_elem_of_cons. done. }
  assert (drop (S (length h)) (h ++ colon :: p) = p) as Hdrop.
  { rw cons_middle app_assoc. apply drop_app_length'. rw length_app /=. lia. }
  assert (LastIndexByte colon (h ++ colon :: p) = Some (length h)) as ->.
  { apply LastIndexByte_spec. by rw take_app_length Hdrop. }
  rw bool_decide_eq_false_2.
  2: { destruct h as [|x h]; [done|]. intros [= ->]. destruct Hl. by left. }
  rw take_app_length bool_decide_eq_false_2 // splitRest_plain ?drop_0 ?Hdrop //; by apply Hfree.
Qed.

Lemma splitBytes_bracketed h p :
  lbracket ∉ h → rbracket ∉ h → colon ∉ p → lbracket ∉ p → rbracket ∉ p →
  splitBytes (lbracket :: h ++ rbracket :: colon :: p) = Some (h, p).
Proof.
  intros Hl Hr Hcp Hlp Hrp. unfold splitBytes. set (l := lbracket :: h ++ rbracket :: colon :: p).
  assert (∀ n, drop (S (S (n + length h))) l = drop n (colon :: p)) as Hdrop.
  { intros n. subst l. simpl. rw cons_middle app_assoc. replace (S (n + length h)) with (S (length h) + n) by lia.
    rw -(drop_drop _ n (S (length h))) drop_app_length' //.
    rw length_app /=. lia. }
  assert (take (S (S (length h))) l = lbracket :: h ++ [rbracket]) as Htake.
  { subst l. simpl. f_equal. rw cons_middle app_assoc. apply take_app_length'. rw length_app /=. lia. }
  assert (LastIndexByte colon l = Some (S (S (length h)))) as ->.
  { apply LastIndexByte_spec. rw Htake (Hdrop 1) /= drop_0. split; [|done]. subst l. by rw -app_assoc. }
  assert (IndexByte rbracket l = Some (S (length h))) as ->.
  { apply IndexByte_spec. subst l. simpl. rw take_app_length. split; [|by apply not_elem_of_cons].
    do 2 f_equal. rw cons_middle app_assoc drop_app_length' // length_app /=. lia. }
  rw bool_decide_eq_true_2 // bool_decide_eq_false_2.
  2: { subst l. simpl. rw length_app /=. lia. }
  rw bool_decide_eq_true_2 // splitRest_plain ?(Hdrop 0) ?(Hdrop 1) /= ?drop_0 //.
  - by rw Nat.sub_0_r take_app_length.
  - rw not_elem_of_app !not_elem_of_cons. done.
  - rw not_elem_of_cons. done.
Qed.

(** Splitting what was joined gives the parts back. *)
Lemma split_join_host host port :
  (∀ b, b = lbracket ∨ b = rbracket → b ∉ list_ascii_of_string host ∧ b ∉ list_ascii_of_string port) →
  colon ∉ list_ascii_of_string port →
  SplitHostPort (JoinHostPort host port) = Some (host, port).
Proof.
  intros Hb Hc. destruct (Hb lbracket) as [Hl Hlp]; [by left|]. destruct (Hb rbracket) as [Hr Hrp]; [by right|].
  unfold SplitHostPort, JoinHostPort. rw Contains_byte. case_bool_decide as Hcolon.
  - rw !list_ascii_app /= splitBytes_bracketed //. simpl. by rw !string_of_list_ascii_of_string.
  - rw !list_ascii_app /= splitBytes_plain //. simpl. by rw !string_of_list_ascii_of_string.
Qed.

(** What was split and joined with another port of a split address has the
    host it was given. *)
Lemma split_rejoin a host port b host' port' :
  SplitHostPort a = Some (host, port) → SplitHostPort b = Some (host', port') →
  SplitHostPort (JoinHostPort host port') = Some (host, port').
Proof.
  assert (∀ s h p, SplitHostPort s = Some (h, p) →
    splitBytes (list_ascii_of_string s) = Some (list_ascii_of_string h, list_ascii_of_string p)) as Hs.
  { intros s h p. unfold SplitHostPort. destruct (splitBytes _) as [[]|]; [|done]. intros [= <- <-].
    by rw !list_ascii_of_string_of_list_ascii. }
  intros [[Hl Hr] _]%Hs%splitBytes_parts [_ (Hc & Hlp & Hrp)]%Hs%splitBytes_parts.
  apply split_join_host; [|done]. by intros ? [-> | ->].
Qed.
