(* ===== verification/SmartTokenLaws.v ===== *)
(** * Invitations read back

    What [SmartToken] writes it reads, and no text makes the reader panic. *)
From Stdlib Require Import Ascii String.
From S2P Require Import Prelude GoStrings Json Protocol Sha256 Engine Downloads OutboxLaws UiSchema Stun StunLaws SmartToken.
Local Open Scope stdpp_scope.

(** ** Base64 and hexadecimal *)

(** The six-bit digits of [base64_encode]. *)
Fixpoint base64_digits (l : list N) : list N :=
  match l with
  | [] => []
  | [a] => [a / 4; a mod 4 * 16]
  | [a; b] => [a / 4; a mod 4 * 16 + b / 16; b mod 16 * 4]
  | a :: b :: c :: l' => a / 4 :: a mod 4 * 16 + b / 16 :: b mod 16 * 4 + c / 64 :: c mod 64 :: base64_digits l'
  end%N.

Lemma base64_encode_digits l : list_ascii_of_string (base64_encode l) = base64_digit <$> base64_digits l.
Proof. induction l as [|a|a b|a b c l IH] using group_ind; simpl; [done..|]. by rw IH. Qed.

Lemma base64_digits_small l : Forall is_byte l → Forall (λ d, d < 64)%N (base64_digits l).
Proof.
  induction l as [|a|a b|a b c l IH] using group_ind; simpl; [done|..]; rw ?Forall_cons; unfold is_byte;
    intros; destruct_and?; split_and?; auto; div_lia.
Qed.

Lemma below_64 (P : N → bool) : forallb (λ n, P (N.of_nat n)) (seq 0 64) = true → ∀ d, (d < 64)%N → P d = true.
Proof.
  intros Hf d Hd. rewrite ->forallb_forall in Hf. specialize (Hf (N.to_nat d)). rw N2Nat.id in Hf. apply Hf.
  apply in_seq. lia.
Qed.

(** What is needed of the 64 characters. *)
Lemma base64_char d : (d < 64)%N →
  base64_value (base64_digit d) = Some d ∧
  (base64_digit d ≠ ascii_of_N 10 ∧ base64_digit d ≠ ascii_of_N 13) ∧ isQuote (base64_digit d) = false ∧
  (33 ≤ byte_of (base64_digit d) < 128)%Z.
Proof.
  intros Hd.
  apply (below_64 (λ d, bool_decide (base64_value (base64_digit d) = Some d ∧
    (base64_digit d ≠ ascii_of_N 10 ∧ base64_digit d ≠ ascii_of_N 13) ∧ isQuote (base64_digit d) = false ∧
    (33 ≤ byte_of (base64_digit d) < 128)%Z))) in Hd; [|vm_compute; reflexivity].
  by apply bool_decide_eq_true in Hd.
Qed.

Lemma base64_groups_digits l : Forall is_byte l → base64_groups (base64_digits l) = Some l.
Proof.
  induction l as [|a|a b|a b c l IH] using group_ind; cbn [base64_digits base64_groups]; [done|..];
    rw ?Forall_cons; unfold is_byte; intros Hl; destruct_and?; [| |rw IH //];
    repeat f_equal; div_lia.
Qed.

Lemma mapM_total {A B} (f : A → option B) (g : B → A) l :
  Forall (λ b, f (g b) = Some b) l → mapM f (g <$> l) = Some l.
Proof. induction 1 as [|b l Hb _ IH]; simpl; [done|]. by rw Hb /= IH. Qed.

Lemma mapM_cons {A B} (f : A → option B) x l : mapM f (x :: l) = (y ← f x; k ← mapM f l; Some (y :: k)).
Proof. done. Qed.

Lemma filter_all {A} (P : A → Prop) `{∀ x, Decision (P x)} (l : list A) : Forall P l → filter P l = l.
Proof. induction 1 as [|x l Hx _ IH]; [done|]. rw filter_cons decide_True //. by rw IH. Qed.

Lemma base64_roundtrip l : Forall is_byte l → base64_decode (base64_encode l) = Some l.
Proof.
  intros Hl. pose proof (base64_digits_small l Hl) as Hd. unfold base64_decode. rw base64_encode_digits.
  rw filter_all.
  - rw mapM_total; [by apply base64_groups_digits|]. eapply Forall_impl; [exact Hd|].
    intros d Hsmall. apply (base64_char d Hsmall).
  - apply Forall_forall. intros c (d & -> & Hin)%list_elem_of_fmap. rewrite ->Forall_forall in Hd. apply (base64_char d (Hd d Hin)).
Qed.

Lemma hex_char n : (n < 16)%N → hex_value (hex_digit n) = Some n.
Proof.
  intros Hn. assert (n < 64)%N as Hlt by lia.
  apply (below_64 (λ n, bool_decide (16 ≤ n)%N || bool_decide (hex_value (hex_digit n) = Some n))) in Hlt;
    [|vm_compute; reflexivity].
  apply orb_true_iff in Hlt as [?%bool_decide_eq_true|?%bool_decide_eq_true]; [lia|done].
Qed.

Lemma hex_roundtrip l : Forall is_byte l → hex_decode (hex_encode l) = Some l.
Proof.
  unfold hex_decode, hex_encode. rw list_ascii_of_string_of_list_ascii.
  induction 1 as [|b l Hb _ IH]; [done|]. unfold is_byte in Hb.
  assert (N.land (N.shiftr b 4) 15 = b / 16)%N as E1.
  { change 15%N with (N.ones 4). rw N.land_ones N.shiftr_div_pow2. apply N.mod_small. change (2 ^ 4)%N with 16%N. div_lia. }
  assert (N.land b 15 = b mod 16)%N as E2 by (change 15%N with (N.ones 4); by rw N.land_ones).
  cbn [flat_map app]. rw E1 E2. revert IH.
  match goal with |- context [flat_map ?f l] => generalize (flat_map f l) end. intros chars IH.
  rw !mapM_cons !hex_char; [|div_lia..]. destruct (mapM hex_value chars) as [ds|]; simpl in *; [|done].
  rw IH. f_equal. f_equal. div_lia.
Qed.

(** ** Text that trimming leaves alone *)

Definition plain_char (c : ascii) : Prop := (33 ≤ byte_of c < 128)%Z ∧ isQuote c = false.

Lemma space_width_plain a rest : (33 ≤ a < 128)%Z → space_width (a :: rest) = 0%nat.
Proof.
  intros Ha. cbn [space_width]. rw (proj2 (Z.leb_gt a 13)); [|lia]. rw (proj2 (Z.eqb_neq a 32)); [|lia].
  rw andb_false_r. simpl. destruct rest as [|b [|c rest]]; [done|..];
    rw ?(proj2 (Z.eqb_neq a 194)) ?(proj2 (Z.eqb_neq a 225)) ?(proj2 (Z.eqb_neq a 226)) ?(proj2 (Z.eqb_neq a 227));
    try lia; done.
Qed.

(** A plain last byte is not the end of a wide space. *)
Lemma space_width_end l a : (33 ≤ a < 128)%Z → (length l ≤ 2)%nat → space_width (l ++ [a]) ≠ S (length l).
Proof.
  intros Ha. destruct l as [|b [|c [|d l]]]; cbn [app length]; intros Hl;
    [by rw space_width_plain|cbn [space_width]..|lia].
  - destruct (_ || _); [done|]. rw (proj2 (Z.eqb_neq a 133)); [|lia]. rw (proj2 (Z.eqb_neq a 160)); [|lia].
    by rw andb_false_r.
  - destruct (_ || _); [done|]. destruct (_ && _); [done|].
    repeat match goal with |- context [(?x =? ?n)%Z] => constr_eq x a;
      rw (proj2 (Z.eqb_neq x n)); [|lia] end.
    rw (proj2 (Z.leb_gt 128 a)); [|lia]. by rw !andb_false_r.
Qed.

Lemma space_width_rev_plain a r : (33 ≤ a < 128)%Z → space_width_rev (a :: r) = 0%nat.
Proof.
  intros Ha. cbn [space_width_rev]. rw (proj2 (Z.leb_gt a 13)); [|lia]. rw (proj2 (Z.eqb_neq a 32)); [|lia].
  rw andb_false_r. cbn [orb].
  assert (∀ l n, (length l ≤ 2)%nat → S (length l) ≤ n → n ≤ 3 → (space_width (l ++ [a]) =? n)%nat = false)%nat as Hend.
  { intros l n Hl Hn Hn3. apply Nat.eqb_neq. destruct (decide (n = S (length l))) as [->|]; [by apply space_width_end|].
    destruct l as [|b [|c l]]; simpl in *; [|destruct (_ || _); [lia|]; destruct (_ && _); lia|lia].
    change (space_width [a] ≠ n). rw space_width_plain; [lia|done]. }
  destruct r as [|b [|c r]].
  - pose proof (Hend [] 2%nat) as H2. pose proof (Hend [] 3%nat) as H3. simpl in H2, H3. rw H2; [|lia..]. by rw H3; [|lia..].
  - pose proof (Hend [b] 2%nat) as H2. pose proof (Hend [b] 3%nat) as H3. simpl in H2, H3. rw H2; [|lia..]. by rw H3; [|lia..].
  - pose proof (Hend [b] 2%nat) as H2. pose proof (Hend [c; b] 3%nat) as H3. simpl in H2, H3. rw H2; [|lia..]. by rw H3; [|lia..].
Qed.

Lemma trim_left_plain n c l : plain_char c → trim_left n (c :: l) = c :: l.
Proof. intros [Hc _]. destruct n; [done|]. cbn [trim_left fmap list_fmap]. by rw space_width_plain. Qed.

Lemma trim_right_plain n c l : plain_char c → trim_right_rev n (c :: l) = c :: l.
Proof. intros [Hc _]. destruct n; [done|]. cbn [trim_right_rev fmap list_fmap]. by rw space_width_rev_plain. Qed.

Lemma trim_plain s : Forall plain_char (list_ascii_of_string s) → trimQuotes (TrimSpace s) = s.
Proof.
  intros Hs. assert (∀ (f g : list ascii → list ascii) l,
    (∀ c l, plain_char c → f (c :: l) = c :: l) → (∀ c l, plain_char c → g (c :: l) = c :: l) → f [] = [] → g [] = [] →
    Forall plain_char l → reverse (g (reverse (f l))) = l) as Hends.
  { intros f g l Hf Hg Hf0 Hg0 Hl. assert (f l = l) as ->.
    { destruct Hl as [|c l Hc _]; [done|by apply Hf]. }
    destruct (reverse l) as [|c r] eqn:Hr; [by rw Hg0 -Hr reverse_involutive|].
    rw Hg; [by rw -Hr reverse_involutive|]. apply Forall_reverse in Hl. rw Hr in Hl. by apply Forall_cons in Hl as [? _]. }
  assert (TrimSpace s = s) as ->.
  { unfold TrimSpace. rw (Hends (trim_left (str_len s)) (trim_right_rev (length (trim_left (str_len s) (list_ascii_of_string s))))).
    - apply string_of_list_ascii_of_string.
    - intros. by apply trim_left_plain.
    - intros. by apply trim_right_plain.
    - by destruct (str_len s).
    - by destruct (length _).
    - done. }
  unfold trimQuotes. rw (Hends trimQuotesLeft trimQuotesLeft); [apply string_of_list_ascii_of_string|..]; try done;
    intros c l [_ Hc]; simpl; by rw Hc.
Qed.

Lemma token_plain l : Forall is_byte l → Forall plain_char (list_ascii_of_string (base64_encode l)).
Proof.
  intros Hl%base64_digits_small. rw base64_encode_digits. apply Forall_fmap. eapply Forall_impl; [exact Hl|].
  intros d Hd. destruct (base64_char d Hd) as (_ & _ & Hq & Hb). by split.
Qed.

(** ** Reading what was written *)

Lemma at_index_mid {A} (pre : list A) x post i : i = len pre → at_index (pre ++ x :: post) i = Ok x.
Proof.
  intros ->. unfold at_index, len. rw (proj2 (Z.leb_le _ _)); [|lia].
  rw Nat2Z.id list_lookup_middle //.
Qed.

Lemma string_bytes s : string_of_bytes (bytes_of s) = s.
Proof.
  unfold string_of_bytes, bytes_of. rw -list_fmap_compose. rw (list_fmap_ext _ id).
  - by rw list_fmap_id string_of_list_ascii_of_string.
  - intros i c _. apply ascii_N_embedding.
Qed.

Lemma len_cons {A} (x : A) l : len (x :: l) = (len l + 1)%Z.
Proof. unfold len. simpl. lia. Qed.

Definition fits (s : string) : Prop := (length (bytes_of s) ≤ 255)%nat.

Lemma appendL8_fits s : fits s → appendL8String s = N.of_nat (length (bytes_of s)) :: bytes_of s.
Proof.
  unfold fits, appendL8String. intros Hs. rw (proj2 (Nat.ltb_ge _ _)) //. f_equal. apply N.mod_small. lia.
Qed.

Lemma readL8String_mid pre s post i field :
  fits s → i = len pre →
  readL8String (pre ++ appendL8String s ++ post) i field = Ok (s, (i + len (appendL8String s))%Z).
Proof.
  intros Hs ->. rw appendL8_fits //. unfold readL8String. pose proof (len_nonneg post). pose proof (len_nonneg pre).
  assert (len (bytes_of s) = Z.of_nat (length (bytes_of s))) as Hl by done.
  rw (proj2 (Z.leb_gt _ _)). 2: { rw !len_app len_cons. pose proof (len_nonneg (bytes_of s)). lia. }
  simpl. rw at_index_mid //. cbn [mbind res_bind]. rw !nat_N_Z.
  rw (proj2 (Z.ltb_ge _ _)). 2: { rw len_app len_cons len_app. lia. }
  change (pre ++ N.of_nat (length (bytes_of s)) :: bytes_of s ++ post)
    with (pre ++ [N.of_nat (length (bytes_of s))] ++ (bytes_of s ++ post)).
  rw app_assoc. rw slice_mid; [| |].
  - cbn [mbind res_bind]. rw string_bytes len_cons Hl. do 2 f_equal. lia.
  - rw len_app. unfold len. simpl. lia.
  - rw len_app Hl. unfold len. simpl. lia.
Qed.

#[local] Opaque appendL8String readL8String.

Section entries.
Variable ipString : list Z → string.
Variable port : N.

(** [enc] is read as one entry, which acts as [act] on the payload. *)
Definition reads (enc : list N) (act : InvitePayload → InvitePayload) : Prop :=
  ∀ pre post p i, i = len pre →
    readEntry ipString (pre ++ enc ++ post) port p i = Ok (act p, (i + len enc)%Z).

Lemma reads_head ty enc act :
  (∀ pre post p i, i = len pre →
    (let data := (pre ++ ty :: enc ++ post) in
     if (ty =? 1)%N then readIP ipString data (i + 1) 4 port p
     else if (ty =? 2)%N then readIP ipString data (i + 1) 16 port p
     else if (ty =? 3)%N then
       r ← readL8String data (i + 1) "hostname";
       Ok (withAddr (HTTPSAddrPort r.1 port) p, r.2)
     else if (ty =? 4)%N then
       sid ← readL8String data (i + 1) "relay sid";
       addr ← readL8String data sid.2 "relay addr";
       Ok (withRelay sid.1 addr.1 p, addr.2)
     else Err (EMsg "malformed binary token: unknown entry type")) = Ok (act p, (i + (len enc + 1))%Z)) →
  reads (ty :: enc) act.
Proof.
  intros Hrest pre post p i ->. unfold readEntry. pose proof (len_nonneg post). pose proof (len_nonneg pre).
  rw (proj2 (Z.leb_gt _ _)). 2: { rw !len_app len_cons. pose proof (len_nonneg enc). lia. }
  cbn [app]. rw at_index_mid //. rw len_cons. exact (Hrest pre post p (len pre) eq_refl).
Qed.

Lemma after_type {A} (pre : list A) ty l : pre ++ ty :: l = (pre ++ [ty]) ++ l.
Proof. by rw -app_assoc. Qed.

Lemma len_snoc {A} (pre : list A) x : (len pre + 1 = len (pre ++ [x]))%Z.
Proof. rw len_app. done. Qed.

Lemma reads_host host : fits host → reads (3%N :: appendL8String host) (withAddr (HTTPSAddrPort host port)).
Proof.
  intros Hf. apply reads_head. intros pre post p i ->. simpl.
  rw after_type readL8String_mid //; [|apply len_snoc]. simpl. do 2 f_equal. lia.
Qed.

Lemma reads_relay sid addr : fits sid → fits addr →
  reads (4%N :: appendL8String sid ++ appendL8String addr) (withRelay sid addr).
Proof.
  intros Hs Ha. apply reads_head. intros pre post p i ->. simpl.
  rw after_type -(app_assoc (appendL8String sid)) readL8String_mid //; [|apply len_snoc]. simpl.
  rw (app_assoc _ (appendL8String sid)) readL8String_mid //; [|rw len_app -len_snoc; done]. simpl. rw len_app. do 2 f_equal. lia.
Qed.

(** An address of four or sixteen bytes. *)
Definition ip_ok (ip : list Z) : Prop := (len ip = IPv4len ∨ len ip = IPv6len) ∧ Forall byte_value ip.

(** The address as it is read back: IPv4 in its short form. *)
Definition shortIP (ip : list Z) : list Z := default ip (To4 ip).

Lemma bytes_back (ip : list Z) : Forall byte_value ip → Z.of_N <$> (Z.to_N <$> ip) = ip.
Proof. induction 1 as [|b ip Hb _ IH]; [done|]. rw !fmap_cons IH Z2N.id; [done|]. unfold byte_value in Hb. lia. Qed.

Lemma reads_bytes ty (ip : list Z) :
  Forall byte_value ip → ty = 1%N ∧ len ip = 4%Z ∨ ty = 2%N ∧ len ip = 16%Z →
  reads (ty :: (Z.to_N <$> ip)) (withAddr (HTTPSAddrPort (ipString ip) port)).
Proof.
  intros Hb Hty. apply reads_head. intros pre post p i ->. assert (len (Z.to_N <$> ip) = len ip) as Hl.
  { unfold len. by rw length_fmap. }
  assert (∀ w, w = len ip → readIP ipString (pre ++ ty :: (Z.to_N <$> ip) ++ post) (len pre + 1) w port p =
    Ok (withAddr (HTTPSAddrPort (ipString ip) port) p, (len pre + (len (Z.to_N <$> ip) + 1))%Z)) as Hread.
  { intros w ->. unfold readIP. pose proof (len_nonneg post).
    rw (proj2 (Z.ltb_ge _ _)); [|rw len_app len_cons len_app; lia].
    rw after_type slice_mid; [|apply len_snoc|rw Hl -len_snoc; done].
    cbn [mbind res_bind]. rw bytes_back // Hl. do 2 f_equal. lia. }
  destruct Hty as [[-> Hw]|[-> Hw]]; simpl; by apply Hread.
Qed.

Lemma reads_ip ip : ip_ok ip → reads (ipEntry ip) (withAddr (HTTPSAddrPort (ipString (shortIP ip)) port)).
Proof.
  intros [Hlen Hb]. unfold ipEntry, shortIP. destruct (To4 ip) as [ip4|] eqn:H4; simpl.
  - unfold To4 in H4. destruct (Z.eqb_spec (len ip) IPv4len) as [E|E].
    + injection H4 as <-. apply reads_bytes; [done|by left].
    + destruct Hlen as [|Hlen]; [done|]. rw Hlen in H4. simpl in H4. case_bool_decide; [|done]. injection H4 as <-.
      apply reads_bytes; [by apply Forall_drop|]. left. split; [done|]. unfold len, IPv6len in *. rw length_drop. lia.
  - unfold To16. destruct Hlen as [Hlen|Hlen].
    { unfold To4 in H4. rw Hlen in H4. done. }
    rw Hlen. simpl. apply reads_bytes; [done|by right].
Qed.

(** A sequence of entries. *)
Lemma readEntries_all encs acts pre p i :
  Forall2 reads encs acts → i = len pre →
  readEntries ipString (length encs) (pre ++ concat encs) port p i = Ok (foldl (λ p act, act p) p acts).
Proof.
  intros Hall. revert pre p i. induction Hall as [|enc act encs acts Hr _ IH]; intros pre p i ->; simpl; [done|].
  rw Hr //. simpl. rw app_assoc. apply IH. by rw len_app.
Qed.
End entries.

(** ** The whole token *)

Section roundtrip.
Variable ParseIP : string → option (list Z).
Variable SplitHostPort : string → option (string * string).
Variable ipString : list Z → string.

Lemma hostAndPort_port addr : ((hostAndPort SplitHostPort addr).2 < 65536)%N.
Proof.
  unfold hostAndPort. destruct (SplitHostPort _) as [[host portStr]|]; [|vm_compute; reflexivity]. simpl.
  destruct (Atoi portStr) as [z|]; [|vm_compute; reflexivity].
  pose proof (Z.mod_pos_bound z (2 ^ 16) ltac:(lia)). lia.
Qed.

Lemma port_back port : (port < 65536)%N →
  ∃ hi lo, big_endian 2 port = [hi; lo] ∧ N.lor lo (N.shiftl hi 8) = port ∧ is_byte hi ∧ is_byte lo.
Proof.
  intros Hp. do 2 eexists. split; [reflexivity|]. cbn [N.of_nat N.mul Pos.of_succ_nat]. rw !land255 N.shiftr_0_r.
  unfold is_byte. split_and!; [|apply N.mod_lt; lia..]. apply N2Z.inj. rw N2Z.inj_lor N2Z.inj_shiftl !N2Z.inj_mod.
  rw N2Z.inj_shiftr lor_shift //; [|apply Z.mod_pos_bound; lia..]. rw Z.shiftr_div_pow2 //. simpl Z.of_N.
  change (2 ^ 8)%Z with 256%Z. rw (Z.mod_small (Z.of_N port / 256)); [|split; [apply Z.div_pos|apply Z.div_lt_upper_bound]; lia].
  pose proof (Z.div_mod (Z.of_N port) 256 ltac:(lia)). lia.
Qed.

Definition hasRelay (sponsorID relayAddr : string) : bool :=
  negb (bool_decide (sponsorID = "")) && negb (bool_decide (relayAddr = "")).

(** The entries of a token, in order. *)
Definition tokenEntries (host sponsorID relayAddr : string) (ips : list (list Z)) : list (list N) :=
  (if isHostname ParseIP host then [3%N :: appendL8String host] else []) ++
  (if hasRelay sponsorID relayAddr then [4%N :: appendL8String sponsorID ++ appendL8String relayAddr] else []) ++
  (ipEntry <$> ips).

Definition tokenActs (host : string) (port : N) (sponsorID relayAddr : string) (ips : list (list Z))
    : list (InvitePayload → InvitePayload) :=
  (if isHostname ParseIP host then [withAddr (HTTPSAddrPort host port)] else []) ++
  (if hasRelay sponsorID relayAddr then [withRelay sponsorID relayAddr] else []) ++
  ((λ ip, withAddr (HTTPSAddrPort (ipString (shortIP ip)) port)) <$> ips).

Lemma tokenEntries_read host port sponsorID relayAddr ips :
  fits host → fits sponsorID → fits relayAddr → Forall ip_ok ips →
  Forall2 (reads ipString port) (tokenEntries host sponsorID relayAddr ips) (tokenActs host port sponsorID relayAddr ips).
Proof.
  intros Hh Hs Hr Hips. unfold tokenEntries, tokenActs. repeat apply Forall2_app.
  - destruct (isHostname _ _); [|done]. constructor; [by apply reads_host|done].
  - destruct (hasRelay _ _); [|done]. constructor; [by apply reads_relay|done].
  - induction Hips as [|ip ips Hip _ IH]; [done|]. constructor; [by apply reads_ip|done].
Qed.

Lemma tokenBytes_entries hash secret host port sponsorID relayAddr ips :
  tokenBytes ParseIP hash secret host port sponsorID relayAddr ips =
  [2%N] ++ hash ++ secret ++ big_endian 2 port ++
  [(N.of_nat (length (tokenEntries host sponsorID relayAddr ips)) mod 256)%N] ++
  concat (tokenEntries host sponsorID relayAddr ips).
Proof.
  unfold tokenBytes, tokenEntries. fold (hasRelay sponsorID relayAddr).
  rw !length_app length_fmap !concat_app -flat_map_concat_map.
  match goal with |- context [N.of_nat (?x + ?y + ?z)%nat] =>
    replace (x + y + z)%nat with (y + (z + x))%nat by lia end.
  by destruct (isHostname ParseIP host), (hasRelay sponsorID relayAddr); simpl; rw ?app_nil_r.
Qed.

Lemma foldl_addrs (f : list Z → string) ips p :
  foldl (λ p act, act p) p ((λ ip, withAddr (f ip)) <$> ips) =
  {| InvAddress := InvAddress p; CAHash := CAHash p; InvAddresses := InvAddresses p ++ (f <$> ips);
     SponsorID := SponsorID p; RelayAddr := RelayAddr p |}.
Proof.
  revert p. induction ips as [|ip ips IH]; intros p; simpl; [rw app_nil_r; by destruct p|].
  rw IH. simpl. by rw -app_assoc.
Qed.

(** What a token that was written says. *)
Definition invited (hash : list N) (host : string) (port : N) (sponsorID relayAddr : string)
    (ips : list (list Z)) : InvitePayload :=
  let addrs := (if isHostname ParseIP host then [HTTPSAddrPort host port] else []) ++
               ((λ ip, HTTPSAddrPort (ipString (shortIP ip)) port) <$> ips) in
  let relay := hasRelay sponsorID relayAddr in
  {| InvAddress := default "" (head addrs); CAHash := hex_encode hash; InvAddresses := addrs;
     SponsorID := if relay then sponsorID else ""; RelayAddr := if relay then relayAddr else "" |}.

Lemma parse_tokenBytes hash secret host port sponsorID relayAddr ips :
  length hash = 32%nat → length secret = 32%nat → (port < 65536)%N →
  fits host → fits sponsorID → fits relayAddr → Forall ip_ok ips →
  (length (tokenEntries host sponsorID relayAddr ips) ≤ 255)%nat →
  parseTokenBytes ipString (tokenBytes ParseIP hash secret host port sponsorID relayAddr ips) =
  Ok (invited hash host port sponsorID relayAddr ips, hex_encode secret).
Proof.
  intros Hh Hs Hp Hf1 Hf2 Hf3 Hips Hnum. rw tokenBytes_entries.
  destruct (port_back port Hp) as (hi & lo & -> & Hport & _). rw N.mod_small; [|lia].
  pose proof (tokenEntries_read host port sponsorID relayAddr ips Hf1 Hf2 Hf3 Hips) as Hall.
  set (entries := tokenEntries host sponsorID relayAddr ips) in *. set (n := N.of_nat (length entries)).
  assert (len hash = 32%Z ∧ len secret = 32%Z) as [Lh Ls] by (unfold len; lia).
  unfold parseTokenBytes. rw (proj2 (Z.ltb_ge _ _)).
  2: { rw !len_app Lh Ls. change (len [2%N]) with 1%Z. change (len [hi; lo]) with 2%Z. change (len [n]) with 1%Z.
       pose proof (len_nonneg (concat entries)). lia. }
  cbn [app]. change (2%N :: hash ++ ?x) with ([2%N] ++ hash ++ x).
  rw (slice_mid [2%N] hash _ 1 33); [|done|by rw Lh]. cbn [mbind res_bind].
  assert (∀ (x : list N), [2%N] ++ hash ++ secret ++ x = ([2%N] ++ hash) ++ secret ++ x) as E1 by (intros; by rw app_assoc).
  rw E1 (slice_mid _ secret _ 33 65); [|by rw len_app Lh|by rw len_app Lh Ls]. cbn [mbind res_bind].
  set (pre := ([2%N] ++ hash) ++ secret). assert (len pre = 65%Z) as Lp by (unfold pre; by rw !len_app Lh Ls).
  assert (∀ (x : list N), ([2%N] ++ hash) ++ secret ++ x = pre ++ x) as E2 by (intros; unfold pre; by rw -!app_assoc).
  clearbody pre. rw E2 (at_index_mid pre hi _ 65) //. cbn [mbind res_bind].
  assert (∀ a (x : list N), pre ++ a :: x = (pre ++ [a]) ++ x) as E3 by (intros; by rw -app_assoc).
  rw E3 (at_index_mid (pre ++ [hi]) lo _ 66); [|by rw len_app Lp]. cbn [mbind res_bind].
  rw (after_type (pre ++ [hi]) lo) (at_index_mid _ n _ 67); [|by rw !len_app Lp]. cbn [mbind res_bind].
  rw (after_type ((pre ++ [hi]) ++ [lo]) n) Hport. unfold n at 1. rw Nat2N.id.
  rw (readEntries_all ipString port entries _ _ _ _ Hall); [|by rw !len_app Lp]. cbn [mbind res_bind].
  unfold tokenActs. rw !foldl_app foldl_addrs. unfold invited.
  destruct (isHostname ParseIP host), (hasRelay sponsorID relayAddr); done.
Qed.
End roundtrip.

(** ** Claims *)

Section token_claims.
Variable ParseIP : string → option (list Z).
Variable SplitHostPort : string → option (string * string).
Variable ipString : list Z → string.

Lemma inviteIPs_ok host localIPs :
  (∀ s ip, ParseIP s = Some ip → ip_ok ip) → Forall ip_ok localIPs → Forall ip_ok (inviteIPs ParseIP host localIPs).
Proof.
  intros Hparse Hloc. unfold inviteIPs.
  assert (∀ ips, Forall ip_ok ips → Forall ip_ok
    (foldl (λ ips lip, if existsb (λ ip, ip_Equal ip lip) ips then ips else ips ++ [lip]) ips localIPs)) as Hall.
  { induction Hloc as [|lip l Hlip _ IH]; intros ips Hips; simpl; [done|]. apply IH.
    destruct (existsb _ _); [done|]. apply Forall_app. by split; [|constructor]. }
  case_match; [|apply Hall; destruct (ParseIP host) eqn:Hp; [constructor; [by eapply Hparse|done]|done]].
  constructor; [|done]. split; [by right|]. repeat constructor; by vm_compute.
Qed.

Lemma appendL8_bytes s : fits s → Forall is_byte (appendL8String s).
Proof.
  intros Hs. rw appendL8_fits //. constructor; [unfold is_byte, fits in *; lia|apply bytes_of_byte].
Qed.

Lemma ipEntry_bytes ip : ip_ok ip → Forall is_byte (ipEntry ip).
Proof.
  intros [_ Hb]. assert (∀ l, Forall byte_value l → Forall is_byte (Z.to_N <$> l)) as Hn.
  { intros l Hl. apply Forall_fmap. eapply Forall_impl; [exact Hl|]. unfold byte_value, is_byte. simpl. lia. }
  unfold ipEntry, To16. destruct (To4 ip) as [ip4|] eqn:H4.
  - constructor; [by vm_compute|]. apply Hn. unfold To4 in H4. repeat case_match; simplify_eq; [done|by apply Forall_drop].
  - destruct (len ip =? IPv6len)%Z; [|done]. constructor; [by vm_compute|by apply Hn].
Qed.

Lemma tokenBytes_bytes hash secret host port sponsorID relayAddr ips :
  Forall is_byte hash → Forall is_byte secret → (port < 65536)%N → fits host → fits sponsorID → fits relayAddr →
  Forall ip_ok ips → Forall is_byte (tokenBytes ParseIP hash secret host port sponsorID relayAddr ips).
Proof.
  intros Hh Hs Hp Hf1 Hf2 Hf3 Hips. rw tokenBytes_entries. destruct (port_back port Hp) as (hi & lo & -> & _ & Hhi & Hlo).
  assert (Forall is_byte (concat (tokenEntries ParseIP host sponsorID relayAddr ips))) as He.
  { unfold tokenEntries. rw !concat_app !Forall_app. split_and!.
    - destruct (isHostname _ _); simpl; [|done]. rw app_nil_r. constructor; [by vm_compute|by apply appendL8_bytes].
    - destruct (hasRelay _ _); simpl; [|done]. rw app_nil_r. constructor; [by vm_compute|].
      apply Forall_app. split; by apply appendL8_bytes.
    - induction Hips as [|ip ips Hip _ IH]; simpl; [done|]. apply Forall_app. split; [by apply ipEntry_bytes|done]. }
  rw !Forall_app. split_and!; try done; repeat constructor; try done. unfold is_byte. apply N.mod_lt. lia.
Qed.

(** C32: an invitation is read as it was written: from the token the joining
    node gets the hash of the CA certificate to pin, the secret, the relay and
    the addresses of the host, its host name first, as long as the texts have
    at most 255 bytes and there are at most 255 entries. *)
Theorem smart_token_roundtrip hostAddress hash secret sponsorID relayAddr localIPs token secretHex :
  let host := (hostAndPort SplitHostPort hostAddress).1 in
  let port := (hostAndPort SplitHostPort hostAddress).2 in
  let ips := inviteIPs ParseIP host localIPs in
  GenerateSmartToken ParseIP SplitHostPort hostAddress (Ok (hex_encode hash)) sponsorID relayAddr (Ok secret) localIPs =
    Ok (token, secretHex) →
  Forall is_byte hash → Forall is_byte secret → length secret = 32%nat →
  (∀ s ip, ParseIP s = Some ip → ip_ok ip) → Forall ip_ok localIPs →
  fits host → fits sponsorID → fits relayAddr →
  (length (tokenEntries ParseIP host sponsorID relayAddr ips) ≤ 255)%nat →
  ParseSmartToken ipString token =
    Ok (invited ParseIP ipString hash host port sponsorID relayAddr ips, secretHex) ∧
  secretHex = hex_encode secret.
Proof.
  intros host port ips Hgen Hh Hs Hlen Hparse Hloc Hf1 Hf2 Hf3 Hnum. revert Hgen. unfold GenerateSmartToken.
  cbn [mbind res_bind]. rw hex_roundtrip //. destruct (Nat.eqb_spec (length hash) 32) as [Hlh|]; [|done]. cbn [negb].
  rw (surjective_pairing (hostAndPort SplitHostPort hostAddress)). fold host port ips.
  assert (port < 65536)%N as Hp by apply hostAndPort_port.
  assert (Forall ip_ok ips) as Hips by (by apply inviteIPs_ok).
  pose proof (tokenBytes_bytes hash secret host port sponsorID relayAddr ips Hh Hs Hp Hf1 Hf2 Hf3 Hips) as Hbytes.
  pose proof (parse_tokenBytes ParseIP ipString hash secret host port sponsorID relayAddr ips Hlh Hlen Hp Hf1 Hf2 Hf3 Hips Hnum)
    as Hread.
  assert (tokenBytes ParseIP hash secret host port sponsorID relayAddr ips ≠ []) as Hne by done.
  revert Hbytes Hread Hne. generalize (tokenBytes ParseIP hash secret host port sponsorID relayAddr ips).
  intros data Hbytes Hread Hne [= <- <-]. split; [|done]. pose proof (base64_roundtrip data Hbytes) as Hdec.
  unfold ParseSmartToken. rw trim_plain; [|by apply token_plain]. rw Hdec bool_decide_eq_false_2 //.
  intros He. rw He in Hdec. by injection Hdec as <-.
Qed.

(** ** No text makes the reader panic *)

Lemma slice_ok {A} (l : list A) i j : (0 ≤ i ≤ j)%Z → (j ≤ len l)%Z → safe (λ _, True) (slice l i j).
Proof.
  intros Hi Hj. unfold slice. rw (proj2 (Z.leb_le 0 i)); [|lia]. rw (proj2 (Z.leb_le i j)); [|lia].
  by rw (proj2 (Z.leb_le j (len l))); [|lia].
Qed.

Lemma at_index_ok {A} (l : list A) i : (0 ≤ i < len l)%Z → safe (λ _, True) (at_index l i).
Proof.
  intros Hi. unfold at_index. rw (proj2 (Z.leb_le 0 i)); [|lia].
  destruct (lookup_lt_is_Some_2 l (Z.to_nat i)) as [x Hx]; [unfold len in *; lia|]. by rw Hx.
Qed.

#[local] Transparent readL8String.
Lemma readL8String_safe data idx field :
  (0 ≤ idx)%Z → safe (λ r, 0 ≤ r.2)%Z (readL8String data idx field).
Proof.
  intros Hi. unfold readL8String. destruct (Z.leb_spec (len data) idx); [done|].
  eapply safe_bind; [apply at_index_ok; lia|]. intros n _. destruct (Z.ltb_spec (len data) (idx + 1 + Z.of_N n)); [done|].
  eapply safe_bind; [apply slice_ok; lia|]. intros s _. simpl. lia.
Qed.
#[local] Opaque readL8String.

Lemma readIP_safe data idx width port p :
  (0 ≤ idx)%Z → (0 ≤ width)%Z → safe (λ r, 0 ≤ r.2)%Z (readIP ipString data idx width port p).
Proof.
  intros Hi Hw. unfold readIP. destruct (Z.ltb_spec (len data) (idx + width)); [done|].
  eapply safe_bind; [apply slice_ok; lia|]. intros s _. simpl. lia.
Qed.

Lemma readEntry_safe data port p idx :
  (0 ≤ idx)%Z → safe (λ r, 0 ≤ r.2)%Z (readEntry ipString data port p idx).
Proof.
  intros Hi. unfold readEntry. destruct (Z.leb_spec (len data) idx); [done|].
  eapply safe_bind; [apply at_index_ok; lia|]. intros ty _.
  destruct (ty =? 1)%N; [apply readIP_safe; lia|]. destruct (ty =? 2)%N; [apply readIP_safe; lia|].
  destruct (ty =? 3)%N; [eapply safe_bind; [apply readL8String_safe; lia|]; intros r Hr; exact Hr|].
  destruct (ty =? 4)%N; [|done]. eapply safe_bind; [apply readL8String_safe; lia|]. intros sid Hsid.
  eapply safe_bind; [by apply readL8String_safe|]. intros addr Haddr. exact Haddr.
Qed.

Lemma readEntries_safe n data port p idx : (0 ≤ idx)%Z → safe (λ _, True) (readEntries ipString n data port p idx).
Proof.
  revert p idx. induction n as [|n IH]; intros p idx Hi; simpl; [done|].
  eapply safe_bind; [by apply readEntry_safe|]. intros r Hr. by apply IH.
Qed.

(** Whatever text is given as a token, the reader returns a payload or an
    error; it never reads out of bounds. *)
Theorem ParseSmartToken_safe token : safe (λ _, True) (ParseSmartToken ipString token).
Proof.
  unfold ParseSmartToken. case_bool_decide; [done|]. destruct (base64_decode _) as [data|]; [|done].
  unfold parseTokenBytes. case_match; [done|]. destruct (Z.ltb_spec (len data) 68); [done|].
  eapply safe_bind; [apply slice_ok; lia|]. intros ca _. eapply safe_bind; [apply slice_ok; lia|]. intros sec _.
  do 3 (eapply safe_bind; [apply at_index_ok; lia|]; intros ? _).
  eapply safe_bind; [apply readEntries_safe; lia|]. done.
Qed.
End token_claims.

(** ** Witnesses *)

Definition ip_10 : list Z := [10; 0; 0; 1]%Z.

Definition parse_10 (s : string) : option (list Z) := if bool_decide (s = "10.0.0.1") then Some ip_10 else None.

Definition split_node (s : string) : option (string * string) :=
  if bool_decide (s = "node.example:9000") then Some ("node.example", "9000") else None.

Definition show_10 (ip : list Z) : string := if bool_decide (ip = ip_10) then "10.0.0.1" else "?".

Definition a_hash : list N := replicate 32 171%N.
Definition a_secret : list N := replicate 32 205%N.

Definition an_invite : res (string * string) :=
  GenerateSmartToken parse_10 split_node "https://node.example:9000" (Ok (hex_encode a_hash)) "sponsor" "https://relay"
    (Ok a_secret) [ip_10].

Lemma ip_10_ok : ip_ok ip_10.
Proof. split; [by left|]. repeat constructor; by vm_compute. Qed.

Lemma smart_token_roundtrip_witness :
  ∃ token, an_invite = Ok (token, hex_encode a_secret) ∧
    ParseSmartToken show_10 token = Ok ({| InvAddress := "https://node.example:9000"; CAHash := hex_encode a_hash;
      InvAddresses := ["https://node.example:9000"; "https://10.0.0.1:9000"];
      SponsorID := "sponsor"; RelayAddr := "https://relay" |}, hex_encode a_secret).
Proof.
  destruct an_invite as [[token secretHex]|] eqn:Hgen; [|by vm_compute in Hgen]. unfold an_invite in Hgen.
  destruct (smart_token_roundtrip parse_10 split_node show_10 _ a_hash a_secret _ _ _ token secretHex Hgen) as [Hread ->].
  - repeat constructor; by vm_compute.
  - repeat constructor; by vm_compute.
  - done.
  - unfold parse_10. intros s ip. case_bool_decide; [|done]. intros [= <-]. apply ip_10_ok.
  - constructor; [apply ip_10_ok|done].
  - vm_compute. lia.
  - vm_compute. lia.
  - vm_compute. lia.
  - vm_compute. lia.
  - exists token. split; [done|]. rw Hread. vm_compute. reflexivity.
Defined.
