(* ===== verification/Join.v ===== *)
(** * Joining a cluster

    [internal/p2p/join.go]: a node with an invitation sends the one-time secret
    and a signing request to the addresses of the token until one accepts:
    host names first, then through the relay, then IP addresses.  Every
    request goes through the HTTP client of the call, pinned to the CA hash of
    the token where it uses TLS; the client of the direct attempts returns a
    redirect as it is ([CheckRedirect] of [JoinCluster]), the one [ForwardRelay]
    makes follows it, as [net/http] does by default.  The state records all
    exchanges. *)
From Stdlib Require Import Ascii String.
From S2P Require Import Prelude GoStrings Json Protocol Sha256 Stun Relay Router SmartToken.
Local Open Scope stdpp_scope.

Record JoinRequest := { JSecret : string; JCSR : string; JID : string; JAddress : string }.

(** [Peers] of the response is not used. *)
Record JoinResponse := { JCertificate : string; JCACert : string }.

(** The body of a request that carries the secret. *)
Inductive joinBody := PlainJoin (req : JoinRequest) | RelayedJoin (sponsorID : string) (req : JoinRequest).

(** [AnsLocation] is the header [Location], resolved against the request. *)
Record httpAnswer := { AnsStatus : Z; AnsLocation : option string; AnsBody : string }.

(** One request on the wire: its body if it has one, the CA hash its TLS
    connection was pinned to ([None]: no TLS), and what came of it. *)
Record exchange := {
  exMethod : string;
  exURL : string;
  exBody : option joinBody;
  exPin : option string;
  exAnswer : res httpAnswer }.

Record JoinState (W : Type) := { joinWorld : W; joinLog : list exchange }.
Arguments joinWorld {W} _.
Arguments joinLog {W} _.

(** The context of the call, and what a request meets: pin, method, URL and
    body. *)
Class JoinNet (W : Type) := {
  joinCtxErr : W → option error;
  httpExchange : option string → string → string → option joinBody → W → res httpAnswer * W }.

Section join.
Context {W : Type} `{!JoinNet W}.
(** [url.Parse], whether [net.ParseIP] accepts a text, [IP.String], and
    [GenerateNodeCSR]: a signing request with its private key. *)
Variable parseURL : string → option PeerURL.
Variable isIP : string → bool.
Variable ipString : list Z → string.
Variable GenerateNodeCSR : string → res (string * string).
(** The JSON decoding of the node's response, and of a relay's: the status the
    sponsor answered with and its body. *)
Variable decodeJoin : string → res JoinResponse.
Variable decodeRelay : string → res (Z * string).
Abbreviation SJ := (ST (JoinState W)).

Definition ctxErr : SJ (option error) := gets (λ s, joinCtxErr (joinWorld s)).

(** A URL's scheme is ASCII, on which [strings.EqualFold] compares lower case. *)
Definition validateJoinEndpoint (raw : string) : option error :=
  match parseURL raw with
  | None => Some (EMsg "invalid join endpoint")
  | Some parsed =>
      if bool_decide (Host parsed = "") then Some (EMsg "invalid join endpoint")
      else if negb (bool_decide (ToLower (Scheme parsed) = "https")) then Some (EMsg "join endpoint must use HTTPS")
      else None
  end.

(** ** The HTTP client *)

Definition roundTripJoin (pin : option string) (method url : string) (body : option joinBody) : SJ httpAnswer := λ s,
  let '(a, w) := httpExchange pin method url body (joinWorld s) in
  (a, {| joinWorld := w;
         joinLog := joinLog s ++ [{| exMethod := method; exURL := url; exBody := body; exPin := pin; exAnswer := a |}] |}).

(** Method of the next request, and whether it has the body again. *)
Definition redirectMethod (status : Z) (method : string) : option (string * bool) :=
  if bool_decide (status = 301 ∨ status = 302 ∨ status = 303)%Z
  then Some (if bool_decide (method = "HEAD") then "HEAD" else "GET", false)
  else if bool_decide (status = 307 ∨ status = 308)%Z then Some (method, true)
  else None.

(** [Client.Do]; [follow] is false where [CheckRedirect] returns
    [ErrUseLastResponse].  The default policy stops after ten requests; [hops]
    is how many may still follow. *)
Fixpoint clientDo (follow : bool) (pin : string) (hops : nat) (tls : bool) (method url : string) (body : option joinBody)
    : SJ httpAnswer :=
  a ← roundTripJoin (if tls then Some pin else None) method url body;
  if negb follow then mret a
  else match redirectMethod (AnsStatus a) method, AnsLocation a with
  | Some (method, keep), Some loc =>
      match parseURL loc, hops with
      | None, _ => fail (EMsg "failed to parse Location header")
      | _, O => fail (EMsg "stopped after 10 redirects")
      | Some u, S hops =>
          if bool_decide (Scheme u = "https") then clientDo follow pin hops true method loc (if keep then body else None)
          else if bool_decide (Scheme u = "http") then clientDo follow pin hops false method loc (if keep then body else None)
          else fail (EMsg "unsupported protocol scheme")
      end
  | _, _ => mret a
  end.

(** The first request is to an endpoint that was validated as HTTPS. *)
Definition postJoin (follow : bool) (pin url : string) (body : joinBody) : SJ httpAnswer :=
  clientDo follow pin 9 true "POST" url (Some body).

(** Its client is a new one on the same transport, without the redirect
    policy of the caller. *)
Definition ForwardRelay (pin sponsorAddr sponsorID : string) (req : JoinRequest) : SJ (Z * string) :=
  a ← postJoin true pin (sponsorAddr +:+ PathRelayForward) (RelayedJoin sponsorID req);
  if negb (AnsStatus a =? 200)%Z then fail (EMsg "HTTP status") else of_res (decodeRelay (AnsBody a)).

(** ** The attempts *)

(** The error is that of the context; [None] when no address accepted. *)
Fixpoint attemptDirect (pin : string) (req : JoinRequest) (addresses : list string)
    : SJ (option (res JoinResponse * string)) :=
  match addresses with
  | [] => mret None
  | addr :: rest =>
      over ← ctxErr;
      match over with
      | Some e => fail e
      | None =>
          match validateJoinEndpoint addr with
          | Some _ => attemptDirect pin req rest
          | None =>
              r ← attempt (postJoin false pin (addr +:+ PathClusterJoin) (PlainJoin req));
              match r with
              | Err _ =>
                  over ← ctxErr;
                  match over with Some e => fail e | None => attemptDirect pin req rest end
              | Ok a =>
                  if negb (AnsStatus a =? 200)%Z then attemptDirect pin req rest
                  else mret (Some (decodeJoin (AnsBody a), addr))
              end
          end
      end
  end.

(** The attempt through the relay, where it may be made. *)
Definition attemptRelay (payload : InvitePayload) (req : JoinRequest) : SJ (option (res JoinResponse * string)) :=
  let usable := negb (bool_decide (RelayAddr payload = "")) && negb (bool_decide (SponsorID payload = "")) &&
                match validateJoinEndpoint (RelayAddr payload) with Some _ => false | None => true end in
  if negb usable then mret None
  else
    over ← ctxErr;
    match over with
    | Some e => fail e
    | None =>
        r ← attempt (ForwardRelay (CAHash payload) (RelayAddr payload) (SponsorID payload) req);
        match r with
        | Ok (status, body) => mret (if (status =? 200)%Z then Some (decodeJoin body, RelayAddr payload) else None)
        | Err _ => over ← ctxErr; match over with Some e => fail e | None => mret None end
        end
    end.

Definition canceled {A} (m : SJ A) : SJ A :=
  r ← attempt m;
  match r with Ok a => mret a | Err e => fail (EWrap "cluster join canceled" e) end.

Definition checkCtx : SJ unit :=
  over ← ctxErr;
  match over with Some e => fail e | None => mret () end.

(** The CA certificate, the node's certificate, its key and the address that
    accepted. *)
Definition JoinCluster (token nodeID localAddr : string) : SJ (string * string * string * string) :=
  match ParseSmartToken ipString token with
  | Err e => fail (EWrap "failed parsing Smart Token" e)
  | Ok (payload, secret) =>
      canceled checkCtx;;
      match GenerateNodeCSR nodeID with
      | Err e => fail (EWrap "failed to generate Node CSR" e)
      | Ok (csrPEM, privKeyPEM) =>
          let req := {| JSecret := secret; JCSR := csrPEM; JID := nodeID; JAddress := localAddr |} in
          let '(safeDirect, staleIPs) := splitDirectAddresses parseURL isIP (InvAddresses payload) in
          r1 ← canceled (attemptDirect (CAHash payload) req safeDirect);
          r2 ← (match r1 with Some _ => mret r1 | None => canceled (attemptRelay payload req) end);
          r3 ← (match r2 with Some _ => mret r2 | None => canceled (attemptDirect (CAHash payload) req staleIPs) end);
          match r3 with
          | None =>
              canceled checkCtx;;
              fail (EMsg "Failed to join cluster. All attempted addresses failed")
          | Some (Err e, _) => fail (EWrap "failed decoding cluster response" e)
          | Some (Ok joinResp, successfulAddr) =>
              mret (JCACert joinResp, JCertificate joinResp, privKeyPEM, successfulAddr)
          end
      end
  end.
End join.
