(* ===== verification/JoinLaws.v ===== *)
(** * Who learns the secret of an invitation

    The requests of [JoinCluster], with the redirects its clients follow: the
    direct ones go to HTTPS addresses of the token under its CA hash, in the
    order host names, relay, IP addresses, and none follows one that was
    accepted.  The relay's answer may send the body on
    ([relay_redirect_leaks_secret]). *)
From Stdlib Require Import Ascii String.
From S2P Require Import Prelude GoStrings Json Protocol Sha256 Engine Downloads Stun Relay Router SmartToken SmartTokenLaws Join.
Local Open Scope stdpp_scope.

Section join_laws.
Context {W : Type} `{!JoinNet W}.
Variable parseURL : string → option PeerURL.
Variable isIP : string → bool.
Variable ipString : list Z → string.
Variable GenerateNodeCSR : string → res (string * string).
Variable decodeJoin : string → res JoinResponse.
Variable decodeRelay : string → res (Z * string).
Implicit Types (s : JoinState W).

Definition https (addr : string) : Prop :=
  ∃ u, parseURL addr = Some u ∧ Host u ≠ "" ∧ ToLower (Scheme u) = "https".

Lemma validateJoinEndpoint_https addr : validateJoinEndpoint parseURL addr = None → https addr.
Proof.
  unfold validateJoinEndpoint. destruct (parseURL addr) as [u|] eqn:Hu; [|done].
  case_bool_decide; [done|]. case_bool_decide; [|done]. intros _. by exists u.
Qed.

(** ** Exchanges *)

(** The node that got this request accepted the join, answering [body]; a
    relay's answer holds the node's. *)
Definition accepts (x : exchange) (body : string) : Prop :=
  ∃ a, exAnswer x = Ok a ∧ AnsStatus a = 200%Z ∧
    match exBody x with
    | Some (PlainJoin _) => AnsBody a = body
    | _ => decodeRelay (AnsBody a) = Ok (200%Z, body)
    end.

Definition refuses (x : exchange) : Prop := ∀ body, ¬ accepts x body.

(** A request with the join in its body, under TLS pinned to [pin]. *)
Definition posted (pin url : string) (body : joinBody) (x : exchange) : Prop :=
  exMethod x = "POST" ∧ exURL x = url ∧ exBody x = Some body ∧ exPin x = Some pin.

(** [x] goes where the answer to [prev] sent the client; it has no body, or
    that of [prev] again when the answer was 307 or 308. *)
Definition followed (pin : string) (prev x : exchange) : Prop :=
  ∃ a u, exAnswer prev = Ok a ∧ AnsStatus a ∈ [301; 302; 303; 307; 308]%Z ∧ AnsLocation a = Some (exURL x) ∧
    (exBody x = None ∨ AnsStatus a ∈ [307; 308]%Z ∧ exBody x = exBody prev) ∧
    parseURL (exURL x) = Some u ∧ (Scheme u = "https" ∧ exPin x = Some pin ∨ Scheme u = "http" ∧ exPin x = None).

Fixpoint redirects (pin : string) (x : exchange) (l : list exchange) : Prop :=
  match l with [] => True | y :: l => followed pin x y ∧ redirects pin y l end.

Definition not_ok (r : res httpAnswer) : Prop := ∀ a, r = Ok a → AnsStatus a ≠ 200%Z.

Lemma not_ok_refuses x : not_ok (exAnswer x) → refuses x.
Proof. intros H body (a & Ha & Hs & _). by apply (H a). Qed.

Lemma followed_refused pin prev x : followed pin prev x → refuses prev.
Proof.
  intros (a & u & Ha & Hin & _). apply not_ok_refuses. intros a' Ha' H200. rw Ha in Ha'. injection Ha' as <-.
  rewrite ->H200 in Hin. set_solver.
Qed.

(** All requests of a chain but the last were redirected, so not accepted. *)
Lemma redirects_refused pin x l : redirects pin x l → ∃ l0 y, x :: l = l0 ++ [y] ∧ Forall refuses l0.
Proof.
  revert x. induction l as [|y l IH]; intros x; [by exists [], x|].
  intros [Hf (l0 & z & Hl & Hall)%IH]. exists (x :: l0), z. rw Hl. split; [done|]. constructor; [|done].
  by apply followed_refused in Hf.
Qed.

Lemma redirectMethod_spec status method method' keep :
  redirectMethod status method = Some (method', keep) →
  status ∈ [301; 302; 303; 307; 308]%Z ∧ (keep = true → status ∈ [307; 308]%Z).
Proof.
  unfold redirectMethod. case_bool_decide as H1; [intros [= <- <-]; split; [set_solver|done]|].
  case_bool_decide as H2; [|done]. intros [= <- <-]. set_solver.
Qed.

(** The exchanges of one call of the client: a chain of redirects, the last of
    which has the answer of the call. *)
Definition call_log (pin : string) (hops : nat) (first : exchange) (l : list exchange) (r : res httpAnswer) : Prop :=
  redirects pin first l ∧ (length l ≤ hops)%nat ∧
  (∀ y, y ∈ l → exBody y = None ∨ exBody y = exBody first) ∧
  ∃ y, last (first :: l) = Some y ∧ (exAnswer y = r ∨ (∃ e, r = Err e) ∧ not_ok (exAnswer y)).

Lemma call_log_stop pin hops first r :
  exAnswer first = r ∨ (∃ e, r = Err e) ∧ not_ok (exAnswer first) → call_log pin hops first [] r.
Proof. intros Hr. split_and!; [done|simpl; lia|by intros y ?%elem_of_nil|by exists first]. Qed.

Lemma call_log_more pin hops first y l r :
  followed pin first y → call_log pin hops y l r → call_log pin (S hops) first (y :: l) r.
Proof.
  intros Hf (Hc & Hlen & Hb & z & Hz & Hr). split_and!; [done|simpl; lia| |by exists z].
  assert (exBody y = None ∨ exBody y = exBody first) as Hy.
  { destruct Hf as (? & ? & _ & _ & _ & [?|[_ ?]] & _); auto. }
  intros x [->|Hx]%elem_of_cons; [done|]. destruct (Hb x Hx) as [?|Hxy]; [by left|]. by rw Hxy.
Qed.

Lemma clientDo_log follow pin hops tls method url body s r s1 :
  clientDo parseURL follow pin hops tls method url body s = (r, s1) →
  ∃ first l, joinLog s1 = joinLog s ++ first :: l ∧ exMethod first = method ∧ exURL first = url ∧ exBody first = body ∧
    exPin first = (if tls then Some pin else None) ∧ call_log pin hops first l r ∧ (follow = false → l = []).
Proof.
  revert tls method url body s. induction hops as [|hops IH]; intros tls method url body s; simpl;
    unfold mbind at 1, st_bind at 1, roundTripJoin;
    destruct (httpExchange _ method url body (joinWorld s)) as [x w];
    set (first := {| exMethod := method; exURL := url; exBody := body; exPin := _; exAnswer := x |}).
  all: assert (∀ n r, exAnswer first = r ∨ (∃ e, r = Err e) ∧ not_ok (exAnswer first) →
    ∃ f l, joinLog s ++ [first] = joinLog s ++ f :: l ∧ exMethod f = method ∧ exURL f = url ∧ exBody f = body ∧
      exPin f = (if tls then Some pin else None) ∧ call_log pin n f l r ∧ (follow = false → l = [])) as Hstop
    by (intros n r0 Hr0; exists first, []; split_and!; try done; by apply call_log_stop).
  all: destruct x as [a|e]; [|intros [= <- <-]; apply Hstop; by left].
  all: destruct follow; [|intros [= <- <-]; apply Hstop; by left].
  all: cbn [negb]; destruct (redirectMethod (AnsStatus a) method) as [[method' keep]|] eqn:Hm;
    [|intros [= <- <-]; apply Hstop; by left].
  all: apply redirectMethod_spec in Hm as [Hin Hkeep].
  all: assert (not_ok (exAnswer first)) as Hno by (intros b [= <-] H200; rewrite ->H200 in Hin; set_solver).
  all: destruct (AnsLocation a) as [loc|] eqn:Hloc; [|intros [= <- <-]; apply Hstop; by left].
  all: destruct (parseURL loc) as [u|] eqn:Hu; [|intros [= <- <-]; apply Hstop; right; split; [by eexists|done]].
  { intros [= <- <-]; apply Hstop; right; split; [by eexists|done]. }
  assert (∀ tls', (Scheme u = "https" ∧ tls' = true ∨ Scheme u = "http" ∧ tls' = false) →
    clientDo parseURL true pin hops tls' method' loc (if keep then body else None)
      {| joinWorld := w; joinLog := joinLog s ++ [first] |} = (r, s1) →
    ∃ f l, joinLog s1 = joinLog s ++ f :: l ∧ exMethod f = method ∧ exURL f = url ∧ exBody f = body ∧
      exPin f = (if tls then Some pin else None) ∧ call_log pin (S hops) f l r ∧ (true = false → l = [])) as Hmore.
  { intros tls' Htls (y & l & Hlog & _ & Hurl & Hbody & Hpin & Hcall & _)%IH. exists first, (y :: l). simpl in Hlog.
    split_and!; try done; [by rw Hlog -app_assoc|]. apply call_log_more; [|done].
    exists a, u. rw Hurl Hbody Hpin. split_and!; try done; [|destruct Htls as [[? ->]|[? ->]]; auto].
    destruct keep; [right; split; [by apply Hkeep|done]|by left]. }
  case_bool_decide; [apply Hmore; by left|]. case_bool_decide; [apply Hmore; by right|].
  intros [= <- <-]. apply Hstop. right. split; [by eexists|done].
Qed.

Lemma canceled_run {A} (m : ST (JoinState W) A) s r s' :
  canceled m s = (r, s') → ∃ r0, m s = (r0, s') ∧ ∀ a, r = Ok a ↔ r0 = Ok a.
Proof.
  unfold canceled, mbind, st_bind, attempt. destruct (m s) as [[a|e] s1]; intros [= <- <-]; eexists; (split; [done|]);
    intros a'; [done|]. by split.
Qed.

Definition by_name (addr : string) : Prop := ∃ u, parseURL addr = Some u ∧ isIP (Hostname u) = false.
Definition by_number (addr : string) : Prop := ∃ u, parseURL addr = Some u ∧ isIP (Hostname u) = true.

Lemma splitDirect_kinds addrs names ips :
  splitDirectAddresses parseURL isIP addrs = (names, ips) →
  names ⊆ addrs ∧ ips ⊆ addrs ∧ Forall by_name names ∧ Forall by_number ips.
Proof.
  revert names ips. induction addrs as [|a addrs IH]; simpl; [by intros ? ? [= <- <-]|].
  destruct (splitDirectAddresses parseURL isIP addrs) as [hs ns]. destruct (IH hs ns eq_refl) as (H1 & H2 & H3 & H4).
  intros names ips. destruct (parseURL a) as [u|] eqn:Hu; [|intros [= <- <-]; split_and!; set_solver].
  destruct (_ || _); [intros [= <- <-]; split_and!; set_solver|].
  destruct (isIP (Hostname u)) eqn:Hip; intros [= <- <-]; (split_and!; [set_solver..| |]); try done;
    constructor; try done; by exists u.
Qed.

(** ** The phases *)

Section phases.
Variables (payload : InvitePayload) (req : JoinRequest).

(** The node an accepted request reached is known by [addr]. *)
Definition reached (addr : string) (x : exchange) : Prop :=
  match exBody x with
  | Some (PlainJoin _) => exURL x = addr +:+ PathClusterJoin
  | _ => addr = RelayAddr payload
  end.

(** Only the last of the exchanges was accepted, and only if the result says
    so. *)
Definition settles (l : list exchange) (r : res (option (res JoinResponse * string))) : Prop :=
  match r with
  | Ok (Some (resp, addr)) => ∃ l0 x body, l = l0 ++ [x] ∧ Forall refuses l0 ∧ accepts x body ∧
      resp = decodeJoin body ∧ reached addr x
  | _ => Forall refuses l
  end.

Lemma settles_app l1 l2 r : Forall refuses l1 → settles l2 r → settles (l1 ++ l2) r.
Proof.
  destruct r as [[[resp addr]|]|e]; simpl; intros H1; [|by intros; apply Forall_app..].
  intros (l0 & x & body & -> & H0 & Hx). exists (l1 ++ l0), x, body. rw -app_assoc. split; [done|].
  split; [by apply Forall_app|done].
Qed.

(** A direct request: to an address of the token. *)
Definition direct_entry (kind : string → Prop) (x : exchange) : Prop :=
  ∃ a, a ∈ InvAddresses payload ∧ kind a ∧ https a ∧ posted (CAHash payload) (a +:+ PathClusterJoin) (PlainJoin req) x.

(** The requests of the attempt through the relay. *)
Definition relay_entries (l : list exchange) : Prop :=
  l = [] ∨ ∃ x more, l = x :: more ∧ https (RelayAddr payload) ∧
    posted (CAHash payload) (RelayAddr payload +:+ PathRelayForward) (RelayedJoin (SponsorID payload) req) x ∧
    redirects (CAHash payload) x more ∧ (length more ≤ 9)%nat.

Definition phase_log (P : list exchange → Prop) (m : ST (JoinState W) (option (res JoinResponse * string))) : Prop :=
  ∀ s r s1, m s = (r, s1) → ∃ l, joinLog s1 = joinLog s ++ l ∧ P l ∧ settles l r.

Lemma phase_silent P s r : P [] → (∀ x, r ≠ Ok (Some x)) → ∃ l, joinLog s = joinLog s ++ l ∧ P l ∧ settles l r.
Proof. intros HP Hr. exists []. rw app_nil_r. split_and!; [done..|]. destruct r as [[x|]|e]; [by destruct (Hr x)|by constructor..]. Qed.

Lemma direct_post_log addr s r s1 :
  postJoin parseURL false (CAHash payload) (addr +:+ PathClusterJoin) (PlainJoin req) s = (r, s1) →
  ∃ x, joinLog s1 = joinLog s ++ [x] ∧ posted (CAHash payload) (addr +:+ PathClusterJoin) (PlainJoin req) x ∧
    (exAnswer x = r ∨ (∃ e, r = Err e) ∧ not_ok (exAnswer x)).
Proof.
  intros (x & l & Hlog & Hm & Hu & Hb & Hp & Hcall & Hl)%clientDo_log. rewrite ->(Hl eq_refl) in Hlog, Hcall.
  destruct Hcall as (_ & _ & _ & y & [= <-] & Hr). by exists x.
Qed.

#[local] Opaque postJoin.

Lemma direct_phase kind addrs :
  addrs ⊆ InvAddresses payload → Forall kind addrs →
  phase_log (Forall (direct_entry kind)) (attemptDirect parseURL decodeJoin (CAHash payload) req addrs).
Proof.
  induction addrs as [|addr addrs IH]; intros Hsub Hkind s r s1; simpl; [intros [= <- <-]; by apply phase_silent|].
  apply Forall_cons in Hkind as [Hk Hkind]. specialize (IH ltac:(set_solver) Hkind).
  unfold mbind at 1, st_bind at 1, ctxErr, gets. destruct (joinCtxErr (joinWorld s)); [intros [= <- <-]; by apply phase_silent|].
  destruct (validateJoinEndpoint parseURL addr) eqn:Hv; [apply IH|]. apply validateJoinEndpoint_https in Hv.
  unfold mbind at 1, st_bind at 1, attempt.
  destruct (postJoin _ _ _ _ _ s) as [x s2] eqn:Hpost. apply direct_post_log in Hpost as (ex & Hlog & Hp & Hx).
  assert (direct_entry kind ex) as Hentry by (exists addr; split_and!; [set_solver|done..]).
  assert (refuses ex → attemptDirect parseURL decodeJoin (CAHash payload) req addrs s2 = (r, s1) →
    ∃ l, joinLog s1 = joinLog s ++ l ∧ Forall (direct_entry kind) l ∧ settles l r) as Hrest.
  { intros Href (l & Hl & Hall & Hset)%IH. exists ([ex] ++ l). rw Hl Hlog -app_assoc. split; [done|].
    split; [by constructor|]. apply settles_app; [by constructor|done]. }
  destruct x as [a|e].
  - destruct Hx as [Ha|[[? ?] _]]; [|done]. destruct (AnsStatus a =? 200)%Z eqn:H200; cbn [negb].
    + intros [= <- <-]. exists [ex]. split_and!; [done|by constructor|]. exists [], ex, (AnsBody a).
      destruct Hp as (_ & Hurl & Hbody & _). split_and!; [done..| |done|unfold reached; by rw Hbody].
      exists a. rw Hbody. split_and!; try done. by apply Z.eqb_eq.
    + apply Hrest. apply not_ok_refuses. intros b Hb. rw Ha in Hb. injection Hb as <-. by apply Z.eqb_neq.
  - assert (refuses ex) as Href.
    { apply not_ok_refuses. destruct Hx as [Hx|[_ Hx]]; [|done]. intros b Hb. by rw Hb in Hx. }
    unfold mbind, st_bind. simpl. destruct (joinCtxErr (joinWorld s2)); [|by apply Hrest].
    intros [= <- <-]. exists [ex]. split_and!; [done|by constructor..].
Qed.

#[local] Transparent postJoin.

(** The forwarding of the join, with the answer the relay brought back. *)
Lemma ForwardRelay_log s r s1 :
  https (RelayAddr payload) →
  ForwardRelay parseURL decodeRelay (CAHash payload) (RelayAddr payload) (SponsorID payload) req s = (r, s1) →
  ∃ l, joinLog s1 = joinLog s ++ l ∧ relay_entries l ∧
    settles l (match r with
               | Ok (status, body) => Ok (if (status =? 200)%Z then Some (decodeJoin body, RelayAddr payload) else None)
               | Err _ => Ok None
               end).
Proof.
  intros Hh. unfold ForwardRelay, mbind, st_bind.
  destruct (postJoin _ _ _ _ _ s) as [x s2] eqn:Hpost.
  apply clientDo_log in Hpost as (first & more & Hlog & Hm & Hu & Hb & Hp & (Hchain & Hlen & Hbodies & y & Hy & Hans) & _).
  destruct (redirects_refused _ _ _ Hchain) as (l0 & z & Hl & Hall).
  rw Hl last_snoc in Hy. injection Hy as ->.
  assert (relay_entries (first :: more)) as Hentries by (right; by exists first, more).
  assert (y ∈ first :: more) as Hin by (rw Hl; set_solver).
  assert (∀ q, exBody y ≠ Some (PlainJoin q)) as Hrelayed.
  { intros q. apply elem_of_cons in Hin as [->|[H|H]%Hbodies]; congruence. }
  assert (∀ r, (refuses y ∧ r = Ok None ∨ ∃ body, accepts y body ∧ r = Ok (Some (decodeJoin body, RelayAddr payload))) →
    ∃ l, joinLog s2 = joinLog s ++ l ∧ relay_entries l ∧ settles l r) as Hdone.
  { intros r0 Hr0. exists (first :: more). split_and!; [done..|]. rw Hl. apply settles_app; [done|].
    destruct Hr0 as [[Hy ->]|(body & Hy & ->)]; [by constructor|]. exists [], y, body. split_and!; try done.
    unfold reached. destruct (exBody y) as [[]|] eqn:E; [by destruct (Hrelayed req0)|done..]. }
  destruct x as [a|e].
  2: { intros [= <- <-]. apply Hdone. left. split; [|done]. apply not_ok_refuses. destruct Hans as [Hans|[_ ?]]; [|done].
       intros b Hb'. by rw Hb' in Hans. }
  destruct Hans as [Ha|[[? ?] _]]; [|done].
  assert (∀ body, accepts y body ↔ AnsStatus a = 200%Z ∧ decodeRelay (AnsBody a) = Ok (200%Z, body)) as Hacc.
  { intros body. unfold accepts. destruct (exBody y) as [[]|] eqn:E; [by destruct (Hrelayed req0)| |].
    all: split; [intros (b & Hb' & ? & ?); rw Ha in Hb'; by injection Hb' as <-|intros []; by exists a]. }
  destruct (AnsStatus a =? 200)%Z eqn:H200; cbn [negb].
  - apply Z.eqb_eq in H200. destruct (decodeRelay (AnsBody a)) as [[status body]|e] eqn:Hd.
    + intros [= <- <-]. apply Hdone. destruct (status =? 200)%Z eqn:Hst.
      * apply Z.eqb_eq in Hst as ->. right. exists body. split; [by apply Hacc|done].
      * apply Z.eqb_neq in Hst. left. split; [|done]. intros b [_ [= ? ?]]%Hacc. done.
    + intros [= <- <-]. apply Hdone. left. split; [|done]. by intros b [_ ?]%Hacc.
  - apply Z.eqb_neq in H200. intros [= <- <-]. apply Hdone. left. split; [|done]. by intros b [? _]%Hacc.
Qed.

Lemma relay_phase : phase_log relay_entries (attemptRelay parseURL decodeJoin decodeRelay payload req).
Proof.
  intros s r s1. unfold attemptRelay. destruct (validateJoinEndpoint parseURL (RelayAddr payload)) eqn:Hv.
  { rw andb_false_r. intros [= <- <-]. apply phase_silent; [by left|done]. }
  apply validateJoinEndpoint_https in Hv. destruct (negb _); [intros [= <- <-]; apply phase_silent; [by left|done]|].
  unfold mbind at 1, st_bind at 1, ctxErr, gets.
  destruct (joinCtxErr (joinWorld s)); [intros [= <- <-]; apply phase_silent; [by left|done]|].
  unfold mbind at 1, st_bind at 1, attempt. destruct (ForwardRelay _ _ _ _ _ _ s) as [x s2] eqn:Hrun.
  apply ForwardRelay_log in Hrun as (l & Hlog & Hl & Hset); [|done]. intros Hrest. exists l.
  destruct x as [[status body]|e]; [by injection Hrest as <- <-|].
  revert Hrest. unfold mbind, st_bind. simpl. destruct (joinCtxErr (joinWorld s2)); by intros [= <- <-].
Qed.

Lemma canceled_settles l r r0 : (∀ a, r = Ok a ↔ r0 = Ok a) → settles l r0 → settles l r.
Proof.
  intros Hr. destruct r0 as [a|e]; [by rw (proj2 (Hr a) eq_refl)|]. destruct r as [a|e']; [|done].
  by destruct (proj1 (Hr a) eq_refl).
Qed.

(** A phase after the ones before is only entered while none accepted. *)
Lemma next_phase P before s0 s (r0 : option (res JoinResponse * string)) m r s' :
  joinLog s = joinLog s0 ++ before → settles before (Ok r0) → phase_log P m → P [] →
  (match r0 with Some _ => mret r0 | None => canceled m end) s = (r, s') →
  ∃ l, joinLog s' = joinLog s0 ++ before ++ l ∧ P l ∧ settles (before ++ l) r.
Proof.
  intros Hlog Hb Hm H0. destruct r0 as [x|]; [intros [= <- <-]; exists []; by rw !app_nil_r|].
  intros (r1 & Hrun & Hr)%canceled_run. destruct (Hm _ _ _ Hrun) as (l & Hl & HP & Hset). exists l.
  split; [by rw Hl Hlog -app_assoc|]. split; [done|]. apply settles_app; [done|]. by eapply canceled_settles.
Qed.

Lemma checkCtx_state s r s' : canceled checkCtx s = (r, s') → s' = s.
Proof.
  intros (c & Hc & _)%canceled_run. revert Hc. unfold checkCtx, mbind, st_bind, ctxErr, gets.
  destruct (joinCtxErr (joinWorld s)); by intros [= _ <-].
Qed.

(** The exchanges of a join: with host names, then with the relay and where it
    sends the client, then with IP addresses, all of the token.  An accepted
    one is the last, and an accepted join is the one the last brought. *)
Definition discreet (log : list exchange) (r : res (string * string * string * string)) : Prop :=
  (∃ D1 R D3, log = D1 ++ R ++ D3 ∧ Forall (direct_entry by_name) D1 ∧ relay_entries R ∧ Forall (direct_entry by_number) D3) ∧
  (∀ l1 x l2 body, log = l1 ++ x :: l2 → accepts x body → l2 = []) ∧
  ∀ ca cert key addr, r = Ok (ca, cert, key, addr) → ∃ x body resp, last log = Some x ∧ accepts x body ∧ reached addr x ∧
    decodeJoin body = Ok resp ∧ JCACert resp = ca ∧ JCertificate resp = cert.

Lemma settles_last l r l1 x l2 body : settles l r → l = l1 ++ x :: l2 → accepts x body → l2 = [].
Proof.
  intros Hset -> Hacc. assert (Forall refuses (l1 ++ x :: l2) → l2 = []) as Hall.
  { intros [_ [Hx _]%Forall_cons]%Forall_app. by destruct (Hx body). }
  destruct r as [[[resp addr]|]|e]; [|by apply Hall..].
  destruct Hset as (l0 & y & b & Heq & Href & _). destruct l2 as [|z l2 _] using rev_ind; [done|].
  rw app_comm_cons app_assoc in Heq. apply app_inj_tail in Heq as [<- _].
  apply Forall_app in Href as [_ [Hx _]%Forall_cons]. by destruct (Hx body).
Qed.

Lemma discreet_failed D1 R D3 r e :
  Forall (direct_entry by_name) D1 → relay_entries R → Forall (direct_entry by_number) D3 → settles (D1 ++ R ++ D3) r →
  discreet (D1 ++ R ++ D3) (Err e).
Proof. intros ? ? ? Hset. split_and!; [by exists D1, R, D3|intros *; by eapply settles_last|done]. Qed.
End phases.

(** C31: the exchanges of a join are POSTs of the secret by HTTPS, over
    connections pinned to the token's CA hash, to addresses the token names:
    first its host names, then its relay, last its IP addresses.  The only
    others are the redirects the relay's client follows, at most nine: each
    goes where the answer before sent it, and has the body with the secret
    again only after a 307 or 308.  Once a node accepted the join there is no
    further exchange, whatever the result; the result's certificates are what
    that node answered, and its address is the bootstrap node's (the relay's,
    if it came through it). *)
Theorem JoinCluster_discreet token nodeID localAddr s r s' :
  JoinCluster parseURL isIP ipString GenerateNodeCSR decodeJoin decodeRelay token nodeID localAddr s = (r, s') →
  joinLog s = [] →
  joinLog s' = [] ∧ (∀ x, r ≠ Ok x) ∨
  ∃ payload secret csr key, ParseSmartToken ipString token = Ok (payload, secret) ∧ GenerateNodeCSR nodeID = Ok (csr, key) ∧
    discreet payload {| JSecret := secret; JCSR := csr; JID := nodeID; JAddress := localAddr |} (joinLog s') r.
Proof.
  unfold JoinCluster. intros Hrun Hempty. revert Hrun.
  destruct (ParseSmartToken ipString token) as [[payload secret]|e]; [|intros [= <- <-]; by left].
  unfold mbind at 1, st_bind at 1. destruct (canceled checkCtx s) as [c s1] eqn:Hc. apply checkCtx_state in Hc as ->.
  destruct c as [[]|e]; [|intros [= <- <-]; by left].
  destruct (GenerateNodeCSR nodeID) as [[csr key]|e]; [|intros [= <- <-]; by left].
  set (req := {| JSecret := secret; JCSR := csr; JID := nodeID; JAddress := localAddr |}).
  destruct (splitDirectAddresses parseURL isIP (InvAddresses payload)) as [names ips] eqn:Hsplit.
  apply splitDirect_kinds in Hsplit as (Hn & Hi & Hnamed & Hnum).
  intros Hrun. right. exists payload, secret, csr, key. split; [done|]. split; [done|]. revert Hrun.
  unfold mbind at 1, st_bind at 1. destruct (canceled (attemptDirect _ _ _ _ names) s) as [r1 s1] eqn:E1.
  apply (next_phase payload (Forall (direct_entry payload req by_name)) [] s s None) in E1 as (D1 & L1 & HD1 & S1);
    [|by rw app_nil_r|by constructor|by apply direct_phase|done]. rw Hempty in L1. cbn [app] in L1, S1.
  assert (relay_entries payload req []) as Z2 by by left.
  destruct r1 as [r1|e].
  2: { intros [= <- <-]. rw L1. rewrite <-(app_nil_r D1) in S1 |- *. by apply (discreet_failed payload req D1 [] [] (Err e)). }
  unfold mbind at 1, st_bind at 1.
  match goal with |- context [match ?m s1 with _ => _ end] => destruct (m s1) as [r2 s2] eqn:E2 end.
  eapply (next_phase payload (relay_entries payload req) D1 s s1 r1) in E2 as (R & L2 & HR & S2);
    [|by rw Hempty|done|apply relay_phase|done]. rw Hempty in L2. cbn [app] in L2.
  destruct r2 as [r2|e].
  2: { intros [= <- <-]. rw L2. rewrite <-(app_nil_r R) in S2 |- *. by apply (discreet_failed payload req D1 R [] (Err e)). }
  unfold mbind at 1, st_bind at 1.
  match goal with |- context [match ?m s2 with _ => _ end] => destruct (m s2) as [r3 s3] eqn:E3 end.
  eapply (next_phase payload (Forall (direct_entry payload req by_number)) (D1 ++ R) s s2 r2) in E3 as (D3 & L3 & HD3 & S3);
    [|by rw Hempty|done|by apply direct_phase|done]. rw Hempty in L3. cbn [app] in L3. rewrite <-app_assoc in L3, S3.
  destruct r3 as [[[[resp|e] addr]|]|e]; intros Hrun.
  - injection Hrun as <- <-. rw L3. split_and!; [by exists D1, R, D3|intros *; by eapply settles_last|].
    destruct S3 as (l0 & x & body & Hl & _ & Hacc & Hresp & Hreach). intros ? ? ? ? [= <- <- <- <-].
    exists x, body, resp. rw Hl last_snoc. by split_and!.
  - injection Hrun as <- <-. rw L3. by eapply discreet_failed.
  - revert Hrun. unfold mbind, st_bind. destruct (canceled checkCtx s3) as [c s4] eqn:Hc. apply checkCtx_state in Hc as ->.
    rewrite <-L3 in S3. destruct c; intros [= <- <-]; rw L3; rewrite ->L3 in S3; by eapply discreet_failed.
  - injection Hrun as <- <-. rw L3. by eapply discreet_failed.
Qed.
End join_laws.

(** ** Witnesses *)

Definition few_urls (s : string) : option PeerURL :=
  let url scheme host := Some {| Scheme := scheme; Host := host; Hostname := host; Port := "9000" |} in
  if bool_decide (s = "https://node.example:9000") then url "https" "node.example"
  else if bool_decide (s = "https://10.0.0.1:9000") then url "https" "10.0.0.1"
  else if bool_decide (s = "https://relay") then url "https" "relay"
  else if bool_decide (s = "https://relay2/relay/forward") then url "https" "relay2"
  else if bool_decide (s = "http://elsewhere/") then url "http" "elsewhere" else None.

Definition http_answer (status : Z) (location : option string) (body : string) : res httpAnswer :=
  Ok {| AnsStatus := status; AnsLocation := location; AnsBody := body |}.

(** Only the node's IP address accepts; the relay sends the client to another,
    which refuses. *)
Definition ip_only : JoinNet unit := {|
  joinCtxErr _ := None;
  httpExchange _ _ url _ w :=
    (if bool_decide (url = "https://10.0.0.1:9000/cluster/join") then http_answer 200 None "joined"
     else if bool_decide (url = "https://relay/relay/forward") then http_answer 308 (Some "https://relay2/relay/forward") ""
     else if bool_decide (url = "https://relay2/relay/forward") then http_answer 502 None ""
     else Err (EMsg "timeout"), w) |}.

(** The relay sends the client to a site without TLS. *)
Definition relay_gone_bad : JoinNet unit := {|
  joinCtxErr _ := None;
  httpExchange _ _ url _ w :=
    (if bool_decide (url = "https://relay/relay/forward") then http_answer 307 (Some "http://elsewhere/") ""
     else Err (EMsg "timeout"), w) |}.

Definition joined (N : JoinNet unit) : res (string * string * string * string) * JoinState unit :=
  JoinCluster few_urls (λ h, bool_decide (h = "10.0.0.1")) show_10 (λ _, Ok ("csr", "key"))
    (λ body, if bool_decide (body = "joined") then Ok {| JCertificate := "cert"; JCACert := "ca" |} else Err (EMsg "syntax"))
    (λ _, Err (EMsg "syntax"))
    (match an_invite with Ok (token, _) => token | Err _ => "" end) "node" "addr" {| joinWorld := (); joinLog := [] |}.

Lemma JoinCluster_discreet_witness :
  (joined ip_only).1 = Ok ("ca", "cert", "key", "https://10.0.0.1:9000") ∧
  exURL <$> joinLog (joined ip_only).2 = ["https://node.example:9000/cluster/join"; "https://relay/relay/forward";
    "https://relay2/relay/forward"; "https://10.0.0.1:9000/cluster/join"] ∧
  ∃ payload req, discreet few_urls (λ h, bool_decide (h = "10.0.0.1"))
    (λ body, if bool_decide (body = "joined") then Ok {| JCertificate := "cert"; JCACert := "ca" |} else Err (EMsg "syntax"))
    (λ _, Err (EMsg "syntax")) payload req (joinLog (joined ip_only).2) (joined ip_only).1.
Proof.
  assert ((joined ip_only).1 = Ok ("ca", "cert", "key", "https://10.0.0.1:9000")) as Hr by (vm_compute; reflexivity).
  split; [done|]. split; [vm_compute; reflexivity|].
  destruct (JoinCluster_discreet few_urls (λ h, bool_decide (h = "10.0.0.1")) show_10 (λ _, Ok ("csr", "key")) _ _ _ _ _ _
    (joined ip_only).1 (joined ip_only).2 (surjective_pairing (joined ip_only)) eq_refl)
    as [[_ Hne]|(payload & secret & csr & key & _ & _ & Hd)]; [by destruct (Hne _ Hr)|].
  by exists payload, {| JSecret := secret; JCSR := csr; JID := "node"; JAddress := "addr" |}.
Defined.

(** The redirect policy of [JoinCluster] is meant to keep the secret from being
    replayed, but the client of [ForwardRelay] does not have it: a relay that
    answers 307 has the secret sent on, here without TLS. *)
Theorem relay_redirect_leaks_secret :
  let req := {| JSecret := hex_encode a_secret; JCSR := "csr"; JID := "node"; JAddress := "addr" |} in
  {| exMethod := "POST"; exURL := "http://elsewhere/"; exBody := Some (RelayedJoin "sponsor" req); exPin := None;
     exAnswer := Err (EMsg "timeout") |} ∈ joinLog (joined relay_gone_bad).2.
Proof. apply list_elem_of_lookup. exists 2. vm_compute. reflexivity. Qed.
