(* ===== verification/PeerHandlers.v ===== *)
(** * Requests about peers

    [internal/server/peer_handlers.go]: announcements, gossip about other
    peers, departures and reachability probes, behind the certificate guard of
    [mtls.go]; the topology a node takes over from the node it announced itself
    to ([AnnouncePresenceContext] of [peers.go]); the peers a server starts
    with ([New] of [server.go]); and what the server makes of the HTTP server's
    error log ([tlsErrorWriter]).

    A handler is one step on the registry and the database.  The work it
    starts in the background is part of its result; the catalog sync and the
    wake-up of tasks that [AddPeer] starts are outside. *)
From Stdlib Require Import Ascii String.
From S2P Require Import Prelude GoStrings Json Protocol Bolt PeerRegistry Relay Quic Router SmartToken NetAddr.
Local Open Scope stdpp_scope.

Record AddPeerRequest := { ApID : string; ApAddress : AddressRecord }.

(** What the handlers read of a request; a body that does not decode is
    [None]. *)
Record peerRequest (Cert T : Type) := {
  PqTLS : @tlsState Cert;
  PqRemoteAddr : string;
  PqHost : string;
  PqBody : option T }.
Arguments PqTLS {Cert T} _.
Arguments PqRemoteAddr {Cert T} _.
Arguments PqHost {Cert T} _.
Arguments PqBody {Cert T} _.

Inductive peerReply :=
  | Refused (code : Z) (text : string)
  | Said (text : string)
  | Topology (peers : gmap string AddressRecord)
  | Reachability (probed : string) (err : option error).

(** Work handed to [goOwned]. *)
Inductive peerJob :=
  | GossipPeer (payload : AddPeerRequest)
  | RotateCA.

(** The parts of the configuration and of the NAT state that are read. *)
Record peerConfig := {
  CfgID : string;
  CfgAddress : string;
  CfgCAPath : string;
  CfgIsSponsor : bool }.

Section handlers.
Context {Cert DB : Type} `{!Bolt DB}.
(** [url.Parse], whether [os.Stat] finds the CA key, and the outcome of a TCP
    dial. *)
Variable parseURL : string → option PeerURL.
Variable statCAKey : bool.
Variable dialTCP : string → option error.
Variable cfg : peerConfig.

Abbreviation State := (PeerRegistry Cert * DB)%type.
Abbreviation Request := (peerRequest Cert).

Definition missingMTLS : peerReply := Refused 403 "mTLS certificate required".

(** [None]: the caller's certificate names the peer of the body. *)
Definition requirePeerCNMatchesBodyID {T} (r : Request T) (bodyID : string) : option peerReply :=
  match PeerCNFromTLS (PqTLS r) with
  | None => Some missingMTLS
  | Some cn =>
      if bool_decide (cn ≠ bodyID) then Some (Refused 403 "certificate CN must match peer ID in request body")
      else None
  end.

(** The body and the refusals of a handler, in the order they are made. *)
Definition decodePeerBody {T} (r : Request T) (bodyID : T → string) (validate : T → option peerReply)
    : peerReply + T :=
  match PqBody r with
  | None => inl (Refused 400 "Invalid JSON payload")
  | Some req =>
      match validate req with
      | Some reply => inl reply
      | None =>
          match requirePeerCNMatchesBodyID r (bodyID req) with
          | Some reply => inl reply
          | None => inr req
          end
      end
  end.

Definition allowLeaveOrSponsorEvict {T} (r : Request T) (bodyID : string) : option peerReply :=
  match PeerCNFromTLS (PqTLS r) with
  | None => Some missingMTLS
  | Some cn =>
      if bool_decide (cn = bodyID) then None
      else if bool_decide (cn = CfgID cfg) && bool_decide (CfgCAPath cfg ≠ "") && statCAKey then None
      else Some (Refused 403 "certificate CN must match peer ID, or caller must be CA authority")
  end.

Definition withSponsor (b : bool) (rec : AddressRecord) : AddressRecord :=
  {| Addresses := Addresses rec; Sequence := Sequence rec; IsSponsor := b |}.
Definition withSequence (n : Z) (rec : AddressRecord) : AddressRecord :=
  {| Addresses := Addresses rec; Sequence := n; IsSponsor := IsSponsor rec |}.

(** The announced addresses, with the one the caller is seen at. *)
Definition withPerceived (remoteIP : string) (addrs : list string) : list string :=
  match addrs with
  | [] => []
  | first :: _ =>
      match parseURL first with
      | None => addrs
      | Some u =>
          if bool_decide (Port u = "") then addrs
          else
            let perceivedAddr := SchemeAddr (Scheme u) remoteIP (Port u) in
            if bool_decide (perceivedAddr ∈ addrs) then addrs else addrs ++ [perceivedAddr]
      end
  end.

Definition emptyAddress (rec : AddressRecord) : bool :=
  match Addresses rec with [] => true | a :: _ => bool_decide (a = "") end.

Definition HandleAnnounce (r : Request AddPeerRequest) (s : State) : (peerReply * list peerJob) * State :=
  match decodePeerBody r ApID (λ req,
          if bool_decide (ApID req = "") || emptyAddress (ApAddress req)
          then Some (Refused 400 "ID and Address cannot be empty") else None) with
  | inl reply => ((reply, []), s)
  | inr req =>
      let addresses := withPerceived (ClientHost (PqRemoteAddr r)) (Addresses (ApAddress req)) in
      let isSponsor := match GetPeerRecord s.1 (ApID req) with Some existing => IsSponsor existing | None => false end in
      let address := {| Addresses := addresses; Sequence := Sequence (ApAddress req); IsSponsor := isSponsor |} in
      let s := Server_AddPeer (ApID req) address s in
      let sponsorAddr :=
        if IsLoopbackHost parseURL (λ a, fst <$> SplitHostPort a) (CfgAddress cfg)
        then "https://" +:+ PqHost r else CfgAddress cfg in
      let peersSnapshot :=
        <[CfgID cfg := {| Addresses := [sponsorAddr]; Sequence := 0; IsSponsor := CfgIsSponsor cfg |}]>
          (GetPeersRecordCopy s.1) in
      ((Topology peersSnapshot, [GossipPeer {| ApID := ApID req; ApAddress := address |}]), s)
  end.

(** The peers an announcement is gossiped to. *)
Definition gossipTargets (payload : AddPeerRequest) (pr : PeerRegistry Cert) : list string :=
  filter (λ p, p ≠ CfgID cfg ∧ p ≠ ApID payload) (map_to_list (GetPeersCopy pr)).*1.

Definition GetPeers (s : State) : peerReply := Topology (GetPeersRecordCopy s.1).

(** The record a request to add a peer is taken for: [cn] is the sender. *)
Definition gossipedRecord (cn : string) (req : AddPeerRequest) (existing : option AddressRecord) : AddressRecord :=
  let addr := ApAddress req in
  if bool_decide (cn ≠ ApID req) then
    let addr := match existing with
                | Some old => if (Sequence old <? Sequence addr)%Z then withSequence (Sequence old) addr else addr
                | None => addr
                end in
    withSponsor (match existing with Some old => IsSponsor old | None => false end) addr
  else match existing with
  | Some old => withSponsor (IsSponsor old) addr
  | None => withSponsor false addr
  end.

Definition HandleAddPeer (r : Request AddPeerRequest) (s : State) : (peerReply * list peerJob) * State :=
  match PqBody r with
  | None => ((Refused 400 "Invalid JSON payload", []), s)
  | Some req =>
      match PeerCNFromTLS (PqTLS r) with
      | None => ((missingMTLS, []), s)
      | Some cn =>
          let addr := gossipedRecord cn req (GetPeerRecord s.1 (ApID req)) in
          ((Said "Peer successfully added", []), Server_AddPeer (ApID req) addr s)
      end
  end.

Definition HandleLeavePeer (r : Request string) (s : State) : (peerReply * list peerJob) * State :=
  match PqBody r with
  | None => ((Refused 400 "Invalid JSON payload", []), s)
  | Some id =>
      match allowLeaveOrSponsorEvict r id with
      | Some reply => ((reply, []), s)
      | None => ((Said "Peer successfully removed", [RotateCA]), Server_RemovePeer id s)
      end
  end.

(** [handlePeerIDAction]. *)
Definition handlePeerIDAction (r : Request string) (respMsg : string) (after : string → State → State) (s : State)
    : (peerReply * list peerJob) * State :=
  match decodePeerBody r id (λ _, None) with
  | inl reply => ((reply, []), s)
  | inr id => ((Said respMsg, []), after id s)
  end.

Definition HandleOfflinePeer (r : Request string) (s : State) : (peerReply * list peerJob) * State :=
  handlePeerIDAction r "Peer marked as offline" (λ id s, (SetPeerOffline id None s.1, s.2)) s.

(** The probe of a caller's own address; the body is the address to probe. *)
Definition HandleProbe (r : Request string) : peerReply :=
  match PqBody r with
  | None => Refused 400 "Invalid JSON payload"
  | Some address =>
      if bool_decide (address = "") then Refused 400 "Address is required"
      else
        let callerIP := ClientHost (PqRemoteAddr r) in
        let targetAddr :=
          if Contains address "://"
          then match parseURL address with Some parsed => Host parsed | None => StripURLScheme address end
          else StripURLScheme address in
        match SplitHostPort targetAddr with
        | None => Refused 400 "Invalid address format, port is required"
        | Some (_, targetPort) =>
            let probeAddress := JoinHostPort callerIP targetPort in
            Reachability probeAddress (dialTCP probeAddress)
        end
  end.

(** ** The guarded routes *)

Inductive peerCall :=
  | CallAnnounce (r : Request AddPeerRequest)
  | CallAddPeer (r : Request AddPeerRequest)
  | CallLeave (r : Request string)
  | CallOffline (r : Request string).

Definition callPath (c : peerCall) : string :=
  match c with
  | CallAnnounce _ => PathPeersAnnounce
  | CallAddPeer _ => "/peers/add"
  | CallLeave _ => "/peers/leave"
  | CallOffline _ => "/peers/offline"
  end.

Definition callTLS (c : peerCall) : @tlsState Cert :=
  match c with CallAnnounce r | CallAddPeer r => PqTLS r | CallLeave r | CallOffline r => PqTLS r end.

Definition callHandler (c : peerCall) : State → (peerReply * list peerJob) * State :=
  match c with
  | CallAnnounce r => HandleAnnounce r
  | CallAddPeer r => HandleAddPeer r
  | CallLeave r => HandleLeavePeer r
  | CallOffline r => HandleOfflinePeer r
  end.

(** A request through the guard; the guard works on the registry. *)
Definition servePeerCall (c : peerCall) (s : State) : (peerReply * list peerJob) * State :=
  let '((reply, d), pr) :=
    mTLSGuard (CfgID cfg) (λ code text, ((Refused code text, []), s.2))
      (λ pr, let '(reply, s') := callHandler c (pr, s.2) in ((reply, s'.2), s'.1))
      (callPath c) (callTLS c) s.1 in
  (reply, (pr, d)).

(** ** Topology from elsewhere *)

(** The answer to an announcement, in the order its map is visited. *)
Definition adoptTopology (announceResp : list (string * AddressRecord)) (s : State) : State :=
  foldl (λ s kv, if bool_decide (kv.1 ≠ CfgID cfg) then Server_AddPeer kv.1 kv.2 s else s) s announceResp.

(** The registry a server starts with, from the stored peers in the order
    they are visited. *)
Definition restorePeers (stored : list (string * AddressRecord)) : PeerRegistry Cert :=
  foldl (λ pr kv, SetPeerOffline kv.1 (Some "not contacted yet") (AddPeer kv.1 kv.2 pr).2)
    (NewPeerRegistry (CfgID cfg)) stored.

Definition startPeers (rangeOrder : list (string * AddressRecord) → list (string * AddressRecord)) (d : DB) : State :=
  (match LoadPeers d with
   | Ok peers => restorePeers (rangeOrder (map_to_list peers))
   | Err _ => NewPeerRegistry (CfgID cfg)
   end, d).

(** ** The HTTP server's error log *)

(** [strings.SplitN(s, sep, 2)] where it gives two parts. *)
Fixpoint cut (s sep : string) : option (string * string) :=
  if HasPrefix s sep then Some ("", TrimPrefix s sep)
  else match s with
  | EmptyString => None
  | String c s' => prod_map (String c) id <$> cut s' sep
  end.

(** The first peer one of whose addresses contains the text. *)
Fixpoint peerAtHost (order : list (string * AddressRecord)) (host : string) : string :=
  match order with
  | [] => ""
  | (id, rec) :: rest =>
      if existsb (λ a, Contains a host) (Addresses rec) && bool_decide (id ≠ "") then id
      else peerAtHost rest host
  end.

Definition tlsErrorWriter_Write (rangeOrder : list (string * AddressRecord) → list (string * AddressRecord))
    (line : string) (pr : PeerRegistry Cert) : PeerRegistry Cert :=
  if negb (Contains line "TLS handshake error") then pr
  else match cut line "TLS handshake error from " with
  | None => pr
  | Some (_, addrPart) =>
      match cut addrPart ": " with
      | None => pr
      | Some (hostPort, errMsg) =>
          let host := match SplitHostPort hostPort with Some (h, _) => h | None => hostPort end in
          let peerID := peerAtHost (rangeOrder (map_to_list (GetPeersRecordCopy pr))) host in
          if bool_decide (peerID ≠ "")
          then SetPeerOffline peerID (Some ("TLS handshake failed: " +:+ TrimSpace errMsg)) pr
          else pr
      end
  end.
End handlers.
