(* ===== verification/PeerHandlersLaws.v ===== *)
(** * Laws of the requests about peers

    The sponsor flag, which lets a peer replace a node's certificates, only
    comes from the topology a node took over from the node it announced itself
    to: no request of a peer and no restart sets it.  Gossip leaves the primary
    address of a known peer alone, and a probe only ever dials the caller. *)
From Stdlib Require Import Ascii String.
From S2P Require Import Prelude GoStrings Json Protocol Bolt PeerRegistry RegistryLaws Invites.
From S2P Require Import Relay Quic Router SmartToken NetAddr PeerHandlers.
Local Open Scope stdpp_scope.

Section laws.
Context {Cert DB : Type} `{!Bolt DB} `{!BoltLaws DB}.
Variable parseURL : string → option PeerURL.
Variable statCAKey : bool.
Variable cfg : peerConfig.
Abbreviation State := (PeerRegistry Cert * DB)%type.
Implicit Types (pr : PeerRegistry Cert) (d : DB) (s : State) (rec : AddressRecord).

(** ** Sponsors *)

Definition sponsor pr (p : string) : Prop := ∃ rec, GetPeerRecord pr p = Some rec ∧ IsSponsor rec = true.
Definition stored_sponsor d (p : string) : Prop := ∃ rec, bget d Peers p = Some (JDoc rec) ∧ IsSponsor rec = true.
Definition marked s (p : string) : Prop := sponsor s.1 p ∨ stored_sponsor s.2 p.

(** [s'] has no sponsor that [s] or [P] does not give. *)
Definition no_elevation (P : string → Prop) s s' : Prop := ∀ p, marked s' p → marked s p ∨ P p.

Lemma no_elevation_refl P s : no_elevation P s s.
Proof. intros p. by left. Qed.

Lemma no_elevation_trans P s1 s2 s3 :
  no_elevation P s1 s2 → no_elevation P s2 s3 → no_elevation P s1 s3.
Proof. intros H12 H23 p [Hp|]%H23; [by apply H12|by right]. Qed.

Lemma no_elevation_weaken (P Q : string → Prop) s s' :
  (∀ p, P p → marked s p ∨ Q p) → no_elevation P s s' → no_elevation Q s s'.
Proof. intros HPQ H p [?|?]%H; [by left|auto]. Qed.

Lemma mergeRecord_sponsor old rec : IsSponsor (mergeRecord old rec) = IsSponsor rec.
Proof. unfold mergeRecord. by case_bool_decide. Qed.

Lemma AddPeer_sponsor p rec pr q :
  sponsor (AddPeer p rec pr).2 q → sponsor pr q ∨ (q = p ∧ IsSponsor rec = true).
Proof.
  intros (r & Hq & Hs). pose proof (AddPeer_added p rec pr) as Hadd.
  destruct (AddPeer p rec pr) as [[updated evicted] pr'] eqn:Hrun. simpl in *.
  destruct (decide (p = nodeID pr)) as [Hself|Hne].
  { apply (ad_self _ _ _ _ _ Hadd) in Hself as [_ ->]. left. by exists r. }
  destruct (decide (q = p)) as [->|Hqp].
  - destruct updated.
    + right. split; [done|]. destruct (ad_written _ _ _ _ _ Hadd) as (_ & Hw & _); [done|].
      rw Hq in Hw. injection Hw as ->. destruct (GetPeerRecord pr p); [by rw mergeRecord_sponsor in Hs|done].
    + destruct (ad_ignored _ _ _ _ _ Hadd) as [Hi _]; [done..|]. left. exists r. by rw -Hi.
  - rw (ad_other _ _ _ _ _ Hadd) // in Hq. destruct (decide _); [done|]. left. by exists r.
Qed.

Lemma DeletePeer_sponsor id d q : stored_sponsor (DeletePeer id d).2 q → stored_sponsor d q.
Proof.
  destruct (DeletePeer id d) as [r d'] eqn:Hrun. simpl. intros (rec & Hq & Hs).
  apply keyed_delete_effect in Hrun as [(e & _ & ->)|[_ Hget]]; [by exists rec|].
  rw Hget in Hq. destruct (decide _); [done|]. by exists rec.
Qed.

Lemma deletePeers_sponsor ids d q : stored_sponsor (deletePeers ids d) q → stored_sponsor d q.
Proof.
  unfold deletePeers. revert d. induction ids as [|id ids IH]; intros d; simpl; [done|].
  intros Hq%IH. by eapply DeletePeer_sponsor.
Qed.

Lemma SavePeer_sponsor p rec d q :
  stored_sponsor (SavePeer p rec d).2 q → stored_sponsor d q ∨ (q = p ∧ IsSponsor rec = true).
Proof.
  destruct (SavePeer p rec d) as [r d'] eqn:Hrun. simpl. intros (rec' & Hq & Hs).
  apply keyed_put_effect in Hrun as [(e & _ & ->)|[_ Hget]]; [left; by exists rec'|].
  rw Hget in Hq. destruct (decide (p = q)) as [->|]; [|left; by exists rec'].
  injection Hq as <-. by right.
Qed.

Lemma Server_AddPeer_sponsor p rec s :
  no_elevation (λ q, q = p ∧ IsSponsor rec = true) s (Server_AddPeer p rec s).
Proof.
  intros q. unfold marked, Server_AddPeer. pose proof (AddPeer_sponsor p rec s.1 q) as Hmem.
  destruct (AddPeer p rec s.1) as [[updated evicted] pr']. simpl in *.
  intros [?%Hmem|Hd]; [tauto|]. destruct updated.
  - apply SavePeer_sponsor in Hd as [?%deletePeers_sponsor|?]; tauto.
  - apply deletePeers_sponsor in Hd. tauto.
Qed.

Lemma Server_RemovePeer_sponsor p s : no_elevation (λ _, False) s (Server_RemovePeer p s).
Proof.
  intros q [(rec & Hq & Hs)|Hq]; simpl in *; left.
  - left. rw remove_record in Hq. destruct (decide _); [done|]. by exists rec.
  - right. by eapply DeletePeer_sponsor.
Qed.

(** Changes that keep the records. *)
Lemma same_records_sponsor pr pr' d :
  (∀ q, GetPeerRecord pr' q = GetPeerRecord pr q) → no_elevation (λ _, False) (pr, d) (pr', d).
Proof.
  intros Hrec q [(rec & Hq & Hs)|Hq]; left; [left|by right]. exists rec. by rw -Hrec.
Qed.

(** Adding a record whose flag is the one in memory. *)
Lemma sticky_sponsor p rec s :
  (IsSponsor rec = true → sponsor s.1 p) → no_elevation (λ _, False) s (Server_AddPeer p rec s).
Proof.
  intros Hst. eapply no_elevation_weaken; [|apply Server_AddPeer_sponsor].
  intros q [-> Hs]. left. left. auto.
Qed.

Lemma gossipedRecord_sponsor cn req s :
  IsSponsor (gossipedRecord cn req (GetPeerRecord s.1 (ApID req))) = true → sponsor s.1 (ApID req).
Proof.
  unfold gossipedRecord, sponsor. intros Hs.
  destruct (GetPeerRecord s.1 (ApID req)) as [old|]; [|by case_bool_decide].
  exists old. split; [done|]. by case_bool_decide.
Qed.

Lemma callHandler_sponsor c s :
  no_elevation (λ _, False) s (callHandler parseURL statCAKey cfg c s).2.
Proof.
  destruct c as [r|r|r|r]; simpl.
  - unfold HandleAnnounce. destruct (decodePeerBody _ _ _) as [|req]; [apply no_elevation_refl|].
    apply sticky_sponsor. simpl. destruct (GetPeerRecord s.1 (ApID req)) as [old|] eqn:Hold; [|done].
    intros Hs. by exists old.
  - unfold HandleAddPeer. destruct (PqBody r) as [req|]; [|apply no_elevation_refl].
    destruct (PeerCNFromTLS _) as [cn|]; [|apply no_elevation_refl].
    apply sticky_sponsor, gossipedRecord_sponsor.
  - unfold HandleLeavePeer. destruct (PqBody r) as [id|]; [|apply no_elevation_refl].
    destruct (allowLeaveOrSponsorEvict _ _ _ _); [apply no_elevation_refl|apply Server_RemovePeer_sponsor].
  - unfold HandleOfflinePeer, handlePeerIDAction. destruct (decodePeerBody _ _ _); [apply no_elevation_refl|].
    destruct s. apply same_records_sponsor. intros q. by apply GetPeerRecord_update.
Qed.

Lemma servePeerCall_sponsor c s :
  no_elevation (λ _, False) s (servePeerCall parseURL statCAKey cfg c s).2.
Proof.
  destruct s as [pr d]. unfold servePeerCall, mTLSGuard. cbn [fst snd].
  destruct (guardVerdict _ _ _ _) as [[code text]|[peerID|]]; cbn [fst snd]; [apply no_elevation_refl| |].
  - set (pr1 := SetPeerOnline peerID true _).
    apply no_elevation_trans with (pr1, d).
    { apply same_records_sponsor. intros q. unfold pr1, SetPeerOnline, SetPeerCertificate. cbn [negb].
      rw GetPeerRecord_update //. by apply GetPeerRecord_update. }
    pose proof (callHandler_sponsor c (pr1, d)) as Hc.
    by destruct (callHandler _ _ _ c (pr1, d)) as [reply [pr2 d2]].
  - pose proof (callHandler_sponsor c (pr, d)) as Hc.
    by destruct (callHandler _ _ _ c (pr, d)) as [reply [pr2 d2]].
Qed.

Definition names_sponsor (resp : list (string * AddressRecord)) (p : string) : Prop :=
  ∃ rec, (p, rec) ∈ resp ∧ IsSponsor rec = true.

Lemma adoptTopology_sponsor resp s : no_elevation (names_sponsor resp) s (adoptTopology cfg resp s).
Proof.
  unfold adoptTopology. revert s. induction resp as [|[p rec] resp IH]; intros s; simpl; [apply no_elevation_refl|].
  eapply no_elevation_trans.
  2: { eapply no_elevation_weaken; [|apply IH]. intros q (r & Hin & Hs). right. exists r. split; [by right|done]. }
  case_bool_decide; [|apply no_elevation_refl].
  eapply no_elevation_weaken; [|apply Server_AddPeer_sponsor].
  intros q [-> Hs]. right. exists rec. split; [by left|done].
Qed.

Lemma restorePeers_sponsor stored p : sponsor (restorePeers cfg stored (Cert := Cert)) p → names_sponsor stored p.
Proof.
  unfold restorePeers.
  assert (∀ pr, sponsor (foldl (λ pr kv, SetPeerOffline kv.1 (Some "not contacted yet") (AddPeer kv.1 kv.2 pr).2) pr stored) p →
          sponsor pr p ∨ names_sponsor stored p) as Hgen.
  { induction stored as [|[q rec] stored IH]; intros pr; simpl; [by left|].
    intros [(r & Hr & Hs)|(r & Hin & Hs)]%IH.
    - unfold SetPeerOffline in Hr. rw GetPeerRecord_update // in Hr.
      destruct (AddPeer_sponsor q rec pr p) as [|[-> ?]]; [by exists r|by left|].
      right. exists rec. split; [by left|done].
    - right. exists r. split; [by right|done]. }
  intros [(r & Hr & _)|]%Hgen; [|done]. unfold GetPeerRecord in Hr. simpl in Hr. by rw lookup_empty in Hr.
Qed.

Lemma startPeers_sponsor rangeOrder d p :
  (∀ l, rangeOrder l ≡ₚ l) → marked (startPeers cfg rangeOrder d) p → stored_sponsor d p.
Proof.
  intros Hord [Hp|Hp]; [|done]. simpl in Hp. destruct (LoadPeers d) as [stored|e] eqn:Hload.
  - apply restorePeers_sponsor in Hp as (rec & Hin & Hs). rw Hord elem_of_map_to_list in Hin.
    pose proof (boltLoadMapJSON_spec _ _ _ _ Hload p) as Hk.
    destruct (bget d Peers p) as [raw|] eqn:Hraw; simpl in Hk; [|congruence].
    destruct Hk as (v & -> & Hv). assert (v = rec) as -> by congruence. by exists rec.
  - destruct Hp as (r & Hr & _). unfold GetPeerRecord in Hr. simpl in Hr. by rw lookup_empty in Hr.
Qed.

(** ** Runs *)

(** What changes the peers of a node: requests, the answers to its own
    announcements, registry operations that keep the records, restarts. *)
Inductive peerEvent :=
  | EvRequest (c : peerCall (Cert := Cert))
  | EvTopology (announceResp : list (string * AddressRecord))
  | EvLog (rangeOrder : list (string * AddressRecord) → list (string * AddressRecord)) (line : string)
  | EvRegistry (op : registry_op (Cert := Cert))
  | EvRestart (rangeOrder : list (string * AddressRecord) → list (string * AddressRecord)).

Definition event_ok (e : peerEvent) : Prop :=
  match e with
  | EvRegistry op => (∀ rec p, op ≠ OpAddPeer p rec) ∧ (∀ p, op ≠ OpRemovePeer p)
  | EvLog rangeOrder _ | EvRestart rangeOrder => ∀ l, rangeOrder l ≡ₚ l
  | _ => True
  end.

Definition run_event (e : peerEvent) s : State :=
  match e with
  | EvRequest c => (servePeerCall parseURL statCAKey cfg c s).2
  | EvTopology resp => adoptTopology cfg resp s
  | EvLog rangeOrder line => (tlsErrorWriter_Write rangeOrder line s.1, s.2)
  | EvRegistry op => (run_registry op s.1, s.2)
  | EvRestart rangeOrder => startPeers cfg rangeOrder s.2
  end.

Definition run_events (es : list peerEvent) s : State := foldl (λ s e, run_event e s) s es.

(** An answer to an announcement that gives the peer the sponsor flag. *)
Definition vouched (es : list peerEvent) (p : string) : Prop :=
  ∃ resp, EvTopology resp ∈ es ∧ names_sponsor resp p.

Lemma tlsErrorWriter_records rangeOrder line pr q :
  GetPeerRecord (tlsErrorWriter_Write rangeOrder line pr) q = GetPeerRecord pr q.
Proof.
  unfold tlsErrorWriter_Write. destruct (negb _); [done|]. destruct (cut line _) as [[_ addrPart]|]; [|done].
  destruct (cut addrPart _) as [[hostPort errMsg]|]; [|done]. case_bool_decide; [|done].
  by apply GetPeerRecord_update.
Qed.

Lemma run_event_sponsor e s :
  event_ok e → no_elevation (vouched [e]) s (run_event e s).
Proof.
  intros Hok. assert (∀ s', no_elevation (λ _, False) s s' → no_elevation (vouched [e]) s s') as Hnone.
  { intros s' H. by eapply no_elevation_weaken; [|exact H]. }
  destruct e as [c|resp|rangeOrder line|op|rangeOrder]; cbn [run_event event_ok] in *.
  - apply Hnone, servePeerCall_sponsor.
  - eapply no_elevation_weaken; [|apply adoptTopology_sponsor]. intros p Hp. right. exists resp. split; [by left|done].
  - apply Hnone. destruct s. apply same_records_sponsor. intros q. apply tlsErrorWriter_records.
  - apply Hnone. destruct s. apply same_records_sponsor. intros q. destruct Hok. by apply run_registry_record.
  - intros p Hp%startPeers_sponsor; [|done]. left. by right.
Qed.

(** Whoever is a sponsor after a run was one before, or was vouched for. *)
Lemma sponsor_origin es s p :
  Forall event_ok es → marked (run_events es s) p → marked s p ∨ vouched es p.
Proof.
  unfold run_events. revert s. induction es as [|e es IH]; intros s; cbn [foldl]; [by left|].
  intros [He Hes]%Forall_cons [Hp|(resp & Hin & Hn)]%IH; [|right; exists resp; split; [by right|done]|done].
  apply run_event_sponsor in Hp as [|(resp & Hin & Hn)]; [by left| |done].
  right. exists resp. apply list_elem_of_singleton in Hin as <-. split; [by left|done].
Qed.

(** ** Addresses *)

(** Gossip by others keeps the primary address and the sequence of a known
    peer: it can only add addresses behind. *)
Theorem gossip_keeps_primary r req s cn old a :
  PqBody r = Some req → PeerCNFromTLS (PqTLS r) = Some cn → cn ≠ ApID req → ApID req ≠ nodeID s.1 →
  GetPeerRecord s.1 (ApID req) = Some old → primaryAddr old = Some a →
  ∃ new, GetPeerRecord (HandleAddPeer r s).2.1 (ApID req) = Some new ∧
    primaryAddr new = Some a ∧ Sequence new = Sequence old ∧ IsSponsor new = IsSponsor old.
Proof.
  intros Hb Hcn Hne Hself Hold Ha. unfold HandleAddPeer. rw Hb Hcn Hold. simpl.
  set (rec := gossipedRecord cn req (Some old)).
  assert (Sequence rec ≤ Sequence old)%Z as Hseq.
  { subst rec. unfold gossipedRecord. rw bool_decide_eq_true_2 //. simpl.
    by destruct (Z.ltb_spec (Sequence old) (Sequence (ApAddress req))). }
  assert (IsSponsor rec = IsSponsor old) as Hsp by (subst rec; unfold gossipedRecord; by rw bool_decide_eq_true_2).
  pose proof (AddPeer_added (ApID req) rec s.1) as Hadd. unfold Server_AddPeer.
  destruct (AddPeer (ApID req) rec s.1) as [[updated evicted] pr']. simpl in *. destruct updated.
  - destruct (ad_written _ _ _ _ _ Hadd) as (_ & Hw & Hge); [done|]. rw Hold in Hw.
    exists (mergeRecord old rec). specialize (Hge _ Hold). split; [done|].
    unfold mergeRecord, primaryAddr in *. rw bool_decide_eq_true_2; [|lia]. simpl.
    rw appendUnique_primary; [|by destruct (Addresses old)]. split_and!; [done|lia|done].
  - destruct (ad_ignored _ _ _ _ _ Hadd) as [Hi _]; [done..|]. exists old. by rw Hi Hold.
Qed.

(** Whatever address a probe request names, only the caller is dialled. *)
Theorem probe_only_caller (dialTCP : string → option error) r ip port probed err :
  SplitHostPort (PqRemoteAddr r) = Some (ip, port) →
  HandleProbe parseURL dialTCP r (Cert := Cert) = Reachability probed err →
  ∃ targetPort, SplitHostPort probed = Some (ip, targetPort) ∧ err = dialTCP probed.
Proof.
  intros Hremote. unfold HandleProbe, ClientHost. rw Hremote. destruct (PqBody r) as [address|]; [|done].
  case_bool_decide; [done|]. destruct (SplitHostPort (if Contains address "://" then _ else _)) as [[h targetPort]|] eqn:Ht; [|done].
  intros [= <- <-]. exists targetPort. split; [|done]. by eapply split_rejoin.
Qed.
End laws.

(** ** Runs of the code *)

Definition handshake_record (addr : string) : AddressRecord :=
  {| Addresses := [addr]; Sequence := 1; IsSponsor := false |}.

(** Anyone who fails a TLS handshake from an IP address that is part of the
    text of a peer's address makes the node record that peer as offline: here
    from 10.0.0.1, against a peer at 10.0.0.15. *)
Theorem foreign_handshake_marks_offline :
  let pr := (AddPeer "peer" (handshake_record "https://10.0.0.15:8443") (NewPeerRegistry (Cert := unit) "me")).2 in
  IsPeerOnline pr "peer" = true ∧
  IsPeerOnline (tlsErrorWriter_Write id "http: TLS handshake error from 10.0.0.1:5000: EOF" pr) "peer" = false.
Proof. vm_compute. done. Qed.
