(* ===== verification/Certs.v ===== *)
(** * Certificates

    [internal/p2p/tls.go]: the cluster CA, the certificates of nodes, their
    files, and the TLS configurations made from them, with the atomic write of
    [internal/utils/file_atomic.go].

    Cryptography is symbolic: a private key is a name, a public key the name of
    its private key, and a signature names the key that made it.  A PEM text is
    what it decodes to.  Every call of the file system takes its outcome from a
    script; past the end of the script calls succeed. *)
From Stdlib Require Import Ascii String.
From S2P Require Import Prelude GoStrings Json Protocol Bolt PeerRegistry Relay Quic Router SmartToken NetAddr PeerHandlers.
Local Open Scope stdpp_scope.

(** ** X.509 *)

Abbreviation key := N (only parsing).

Record PkixName := { CommonName : string; Organization : list string }.

(** A certificate without a public key is a value a program can build, not
    one that was parsed. *)
Record Certificate := {
  Subject : PkixName;
  Issuer : PkixName;
  PublicKey : option key;
  SignatureBy : key;
  IsCA : bool;
  DNSNames : list string;
  NotBefore : time;
  NotAfter : time }.

Record CertificateRequest := { CsrSubject : PkixName; CsrPublicKey : key; CsrSignatureBy : key }.

(** The PEM texts by their first block; any other text is kept as it is. *)
Inductive pem :=
  | PemCert (c : Certificate)
  | PemKey (k : key)
  | PemCSR (r : CertificateRequest)
  | PemOther (text : string).

#[export] Instance PkixName_eq_dec : EqDecision PkixName.
Proof. solve_decision. Defined.
#[export] Instance Certificate_eq_dec : EqDecision Certificate.
Proof. solve_decision. Defined.
#[export] Instance CertificateRequest_eq_dec : EqDecision CertificateRequest.
Proof. solve_decision. Defined.
#[export] Instance pem_eq_dec : EqDecision pem.
Proof. solve_decision. Defined.

(** [x509.CreateCertificate]: the signer's key must be the parent's, where the
    parent has one, and the subject's key a key. *)
Definition CreateCertificate (template parent : Certificate) (pub : option key) (priv : key) : res Certificate :=
  match pub with
  | None => Err (EMsg "x509: unsupported public key type")
  | Some k =>
      if match PublicKey parent with Some pk => negb (pk =? priv)%N | None => false end
      then Err (EMsg "x509: provided PrivateKey doesn't match parent's PublicKey")
      else Ok {| Subject := Subject template; Issuer := Subject parent; PublicKey := Some k; SignatureBy := priv;
                 IsCA := IsCA template; DNSNames := DNSNames template;
                 NotBefore := NotBefore template; NotAfter := NotAfter template |}
  end.

Definition validAt (now : time) (c : Certificate) : bool := (NotBefore c <=? now)%Z && (now <=? NotAfter c)%Z.

(** [cert.Verify] with the roots and no intermediates: the certificate is a
    root, or signed by one that is a CA.  All certificates of the code allow
    both uses. *)
Definition signedBy (root c : Certificate) : bool :=
  bool_decide (Issuer c = Subject root) && bool_decide (PublicKey root = Some (SignatureBy c)) && IsCA root.

Definition verifyCert (now : time) (roots : list Certificate) (c : Certificate) : bool :=
  validAt now c &&
  (bool_decide (c ∈ roots) || existsb (λ root, signedBy root c && validAt now root) roots).

(** ** Files *)

Record disk := { files : gmap string pem; script : list outcome }.

Definition set_files (f : gmap string pem → gmap string pem) (d : disk) : disk :=
  {| files := f (files d); script := script d |}.

Definition sysErr : error := EMsg "system call failed".

Definition nextOutcome : ST disk outcome := λ d,
  (Ok (default FsOk (head (script d))), {| files := files d; script := tail (script d) |}).

Definition ReadFile (path : string) : ST disk pem :=
  o ← nextOutcome;
  match o with
  | FsOk => fs ← gets files;
            match fs !! path with Some p => mret p | None => fail (ESentinel ErrNotExist) end
  | _ => fail sysErr
  end.

(** Whether [os.Stat] finds the file. *)
Definition Stat (path : string) : ST disk unit := ReadFile path;; mret ().

Definition FileExists (path : string) : ST disk bool :=
  if bool_decide (path = "") then mret false else r ← attempt (Stat path); mret (is_ok r).

(** [os.WriteFile]: a failed write may leave a truncated file. *)
Definition WriteFile (path : string) (data : pem) : ST disk unit :=
  o ← nextOutcome;
  match o with
  | FsOk => modify (set_files (<[path := data]>))
  | FsFail => fail sysErr
  | FsLate => modify (set_files (<[path := PemOther ""]>));; fail sysErr
  end.

Definition WriteFileAtomic (path : string) (data : pem) : ST disk unit :=
  o ← nextOutcome;
  match o with
  | FsOk => modify (set_files (<[path := data]>))
  | FsFail => fail sysErr
  | FsLate => modify (set_files (<[path := data]>));; fail sysErr
  end.

(** ** Paths *)

Definition joinPath (dir name : string) : string := dir +:+ "/" +:+ name.

(** [filepath.Dir] of a path with a slash that is not its first byte. *)
Definition dirOf (path : string) : string :=
  let l := list_ascii_of_string path in
  match LastIndexByte "/"%char l with
  | Some i => string_of_list_ascii (take i l)
  | None => "."
  end.

Definition CAKeyPath (caCertPath : string) : string :=
  match cut caCertPath ".crt" with
  | Some (before, after) => before +:+ ".key" +:+ after
  | None => caCertPath
  end.

Definition CACertPaths (dir : string) : string * string :=
  let certPath := joinPath dir "ca.crt" in (certPath, CAKeyPath certPath).

Definition NodeCertPaths (dir nodeID : string) : string * string :=
  (joinPath dir (nodeID +:+ ".crt"), joinPath dir (nodeID +:+ ".key")).

Definition ReadCAPEM (caPath : string) : ST disk pem := ReadFile caPath.

(** [os.IsNotExist] of the first [Stat]. *)
Definition ResolveNodeCertPaths (caPath storagePath nodeID : string) : ST disk (string * string) :=
  let '(certPath, keyPath) := NodeCertPaths (dirOf caPath) nodeID in
  r ← attempt (Stat keyPath);
  if match r with Err e => errors_Is e ErrNotExist | Ok _ => false end && bool_decide (storagePath ≠ "") then
    let '(altCert, altKey) := NodeCertPaths storagePath nodeID in
    r' ← attempt (Stat altKey);
    mret (if is_ok r' then (altCert, altKey) else (certPath, keyPath))
  else mret (certPath, keyPath).

(** ** Certificates and keys *)

Section certs.
(** [time.Now] and [t.AddDate(years, 0, 0)]. *)
Variable now : time.
Variable addYears : Z → time → time.

Definition leafOrgName : string := "Proxyma Cluster".
Definition caName : PkixName := {| CommonName := ""; Organization := ["Proxyma Cluster CA"] |}.
Definition day : Z := 24 * 3600 * 1000000000.

Definition LeafDNSNames (nodeID : string) : list string := [nodeID; "localhost"].

(** The issuer, the key and the signature of a template are its parent's and
    signer's to give. *)
Definition template (subject : PkixName) (dnsNames : list string) (isCA : bool) (years : Z) : Certificate :=
  {| Subject := subject; Issuer := subject; PublicKey := None; SignatureBy := 0; IsCA := isCA;
     DNSNames := dnsNames; NotBefore := now - day; NotAfter := addYears years now |}.

Definition newNodeCertTemplate (subject : PkixName) (dnsNames : list string) : Certificate :=
  template subject dnsNames false 1.

(** The PEM text of the certificate. *)
Definition signLeaf (pub : option key) (subject : PkixName) (dnsNames : list string) (caCert : Certificate) (caKey : key)
    : res pem :=
  match CreateCertificate (newNodeCertTemplate subject dnsNames) caCert pub caKey with
  | Err e => Err (EWrap "failed to sign certificate" e)
  | Ok c => Ok (PemCert c)
  end.

(** [priv] is what [generatePrivateKey] returned. *)
Definition generateCA (priv : key) : res (Certificate * key) :=
  let t := template caName [] true 10 in
  match CreateCertificate t t (Some priv) priv with
  | Ok cert => Ok (cert, priv)
  | Err e => Err e
  end.

Definition generateNodeCert (caCert : Certificate) (caKey : key) (nodeID : string) (priv : key) : res (Certificate * key) :=
  match signLeaf (Some priv) {| CommonName := nodeID; Organization := [leafOrgName] |} (LeafDNSNames nodeID) caCert caKey with
  | Ok (PemCert cert) => Ok (cert, priv)
  | Ok _ => Err (EMsg "failed to decode signed leaf PEM")
  | Err e => Err e
  end.

Definition saveCertAndKey (certPath keyPath : string) (cert : Certificate) (k : key) : ST disk unit :=
  WriteFile certPath (PemCert cert);;
  WriteFile keyPath (PemKey k).

Definition loadCertAndKey (certPath keyPath : string) : ST disk (Certificate * key) :=
  certPEM ← ReadFile certPath;
  match certPEM with
  | PemCert cert =>
      keyPEM ← ReadFile keyPath;
      match keyPEM with
      | PemKey k => mret (cert, k)
      | PemOther _ => fail (EMsg "failed to decode EC private key PEM")
      | _ => fail (EMsg "unexpected EC private key PEM block type")
      end
  | PemOther _ => fail (EMsg "failed to decode certificate PEM")
  | _ => fail (EMsg "unexpected certificate PEM block type")
  end.

Definition InitCluster (caFolderPath : string) (priv : key) : ST disk unit :=
  let '(caPath, caKeyPath) := CACertPaths caFolderPath in
  hasCert ← FileExists caPath;
  hasKey ← (if hasCert : bool then FileExists caKeyPath else mret false);
  if hasCert && hasKey then mret ()
  else match generateCA priv with
  | Err e => fail (EWrap "error generating CA" e)
  | Ok (caCert, caKey) => saveCertAndKey caPath caKeyPath caCert caKey
  end.

Definition wrapErr {S A} (text : string) (m : ST S A) : ST S A := λ s,
  match m s with (Err e, s') => (Err (EWrap text e), s') | r => r end.

Definition IssueNodeCertificate (caFolderPath nodeFolderPath nodeID : string) (priv : key) : ST disk unit :=
  let '(caPath, caKeyPath) := CACertPaths caFolderPath in
  ca ← wrapErr "could not load CA (has the cluster been initialized?)" (loadCertAndKey caPath caKeyPath);
  let '(nodeCertPath, nodeKeyPath) := NodeCertPaths nodeFolderPath nodeID in
  match generateNodeCert (fst ca) (snd ca) nodeID priv with
  | Err e => fail (EWrap "error generating node cert" e)
  | Ok (nodeCert, nodeKey) => saveCertAndKey nodeCertPath nodeKeyPath nodeCert nodeKey
  end.

(** [RotateCA] of [tls.go]. *)
Definition rotateCA (caFolderPath : string) (priv : key) : ST disk unit :=
  let '(caPath, caKeyPath) := CACertPaths caFolderPath in
  match generateCA priv with
  | Err e => fail (EWrap "error generating new CA" e)
  | Ok (caCert, caKey) => saveCertAndKey caPath caKeyPath caCert caKey
  end.

Definition ReSignPeerCertificate (peerPubKey : option key) (peerID caCertPath caKeyPath : string) : ST disk pem :=
  ca ← loadCertAndKey caCertPath caKeyPath;
  of_res (signLeaf peerPubKey {| CommonName := peerID; Organization := [leafOrgName] |} (LeafDNSNames peerID) (fst ca) (snd ca)).

Definition CSRCommonName (csr : pem) : res string :=
  match csr with
  | PemCSR r => Ok (CommonName (CsrSubject r))
  | _ => Err (EMsg "failed to decode PEM block containing CSR")
  end.

Definition SignCSR (csr : pem) (caCertPath caKeyPath : string) : ST disk pem :=
  match csr with
  | PemCSR r =>
      if negb (CsrSignatureBy r =? CsrPublicKey r)%N then fail (EMsg "invalid CSR signature")
      else
        ca ← loadCertAndKey caCertPath caKeyPath;
        of_res (signLeaf (Some (CsrPublicKey r)) (CsrSubject r) (LeafDNSNames (CommonName (CsrSubject r))) (fst ca) (snd ca))
  | _ => fail (EMsg "failed to decode PEM block containing CSR")
  end.

(** [GenerateNodeCSR]: the request and the private key. *)
Definition nodeCSR (nodeID : string) (priv : key) : pem * pem :=
  (PemCSR {| CsrSubject := {| CommonName := nodeID; Organization := [leafOrgName] |};
             CsrPublicKey := priv; CsrSignatureBy := priv |}, PemKey priv).

(** The node's key is written where there is one. *)
Definition WriteNodePEMs (caPath certPath keyPath : string) (caPEM certPEM : pem) (keyPEM : option pem) : ST disk unit :=
  WriteFileAtomic caPath caPEM;;
  WriteFileAtomic certPath certPEM;;
  match keyPEM with
  | Some k => if bool_decide (keyPath ≠ "") then WriteFileAtomic keyPath k else mret ()
  | None => mret ()
  end.
End certs.

(** ** TLS configurations *)

(** A certificate with its key and the roots the other side is verified
    against: [ClientCAs] of the server, the pool of [VerifyPeerCertificate] of
    the client. *)
Record tlsMaterial := { matCert : Certificate; matKey : key; matRoots : list Certificate }.

Definition certsOfPEM (p : pem) : list Certificate := match p with PemCert c => [c] | _ => [] end.

(** [tls.LoadX509KeyPair]: the key must be that of the certificate. *)
Definition loadKeyPair (certPath keyPath : string) : ST disk (Certificate * key) :=
  certPEM ← ReadFile certPath;
  keyPEM ← ReadFile keyPath;
  match certPEM, keyPEM with
  | PemCert c, PemKey k =>
      if bool_decide (PublicKey c = Some k) then mret (c, k)
      else fail (EMsg "tls: private key does not match public key")
  | _, _ => fail (EMsg "tls: failed to find any PEM data")
  end.

(** The server's and the client's configuration. *)
Definition LoadNodeTLS (caCertPath nodeCertPath nodeKeyPath : string) : ST disk (tlsMaterial * tlsMaterial) :=
  caCertPEM ← wrapErr "error loading CA cert" (ReadCAPEM caCertPath);
  let pool := certsOfPEM caCertPEM in
  if bool_decide (pool = []) then fail (EMsg "failed to append CA cert to pool")
  else
    pair ← wrapErr "error loading node key pair" (loadKeyPair nodeCertPath nodeKeyPath);
    let m := {| matCert := fst pair; matKey := snd pair; matRoots := pool |} in
    mret (m, m).

(** Whether a connection from the first node's client to the second node's
    server authenticates both. *)
Definition mutualTLS (now : time) (client server : tlsMaterial) : bool :=
  verifyCert now (matRoots client) (matCert server) && verifyCert now (matRoots server) (matCert client).

(** ** Pinned CAs *)

(** [cert.Verify]: the chains from a certificate over intermediates to a
    root.  A chain repeats no certificate, so [fuel] is the number of
    intermediates. *)
Fixpoint chainsFrom (fuel : nat) (now : time) (roots inters current : list Certificate) (c : Certificate)
    : list (list Certificate) :=
  ((λ root, current ++ [root]) <$>
     filter (λ root, signedBy root c && validAt now root = true ∧ root ∉ current) roots) ++
  match fuel with
  | 0 => []
  | S n =>
      mjoin ((λ i, chainsFrom n now roots inters (current ++ [i]) i) <$>
        filter (λ i, signedBy i c && validAt now i = true ∧ i ∉ current) inters)
  end.

Definition verifyChains (now : time) (roots inters : list Certificate) (c : Certificate) : list (list Certificate) :=
  if negb (validAt now c) then []
  else if bool_decide (c ∈ roots) then [[c]]
  else chainsFrom (length inters) now roots inters [c] c.

Section pin.
(** [HashCertDER], of the bytes of a certificate. *)
Variable hash : Certificate → string.

(** The loop over the presented certificates: the parsed ones, and the last
    that has the pinned hash. *)
Fixpoint parseChain (caHash : string) (rawCerts : list (option Certificate)) (certs : list Certificate)
    (pinned : option Certificate) : res (list Certificate * option Certificate) :=
  match rawCerts with
  | [] => Ok (certs, pinned)
  | None :: _ => Err (EMsg "security alert: parse peer certificate")
  | Some cert :: rest =>
      parseChain caHash rest (certs ++ [cert]) (if bool_decide (hash cert = caHash) then Some cert else pinned)
  end.

(** The check [TLSConfigTrustCAHash] installs. *)
Definition verifyPinned (now : time) (caHash : string) (rawCerts : list (option Certificate)) : res unit :=
  if bool_decide (rawCerts = []) then Err (EMsg "security alert: peer sent no certificate chain")
  else match parseChain caHash rawCerts [] None with
  | Err e => Err e
  | Ok (certs, pinned) =>
      match pinned, certs with
      | Some ca, leaf :: others =>
          if negb (IsCA ca) then Err (EMsg "security alert: exact pinned CA was not presented")
          else
            let chains := verifyChains now [ca] (filter (λ c, c ≠ ca) others) leaf in
            if bool_decide (chains = []) then Err (EMsg "security alert: leaf does not chain to pinned CA")
            else if existsb (λ chain, match last chain with
                                      | Some top => bool_decide (hash top = caHash)
                                      | None => false
                                      end) chains
            then Ok ()
            else Err (EMsg "security alert: verified chain did not terminate at pinned CA")
      | _, _ => Err (EMsg "security alert: exact pinned CA was not presented")
      end
  end.
End pin.
