(* ===== verification/Rotation.v ===== *)
(** * Rotation of the cluster's CA

    [internal/server/tls_rotation.go] and [HandleClusterRotate] of
    [cluster_handlers.go].  When a peer leaves, the node that holds the CA key
    makes a new CA in a staging directory, trusts both for the time of the
    rotation, pushes to every peer a certificate signed by the new CA, and puts
    the new CA in place when all peers took theirs.

    The peers a rotation meets are the class [RotateNet]; a cluster of nodes
    that run [HandleClusterRotate] is its instance.  Pushes run one after the
    other, in any order.  The QUIC manager, which is given the new material
    too, is [Quic]'s. *)
From Stdlib Require Import Ascii String.
From S2P Require Import Prelude GoStrings Json Protocol Bolt PeerRegistry Relay Quic Router SmartToken NetAddr PeerHandlers.
From S2P Require Import Certs.
Local Open Scope stdpp_scope.

(** ** ALPN *)

Definition serverALPNAllowlist : list string := ["h2"; "http/1.1"; "proxyma-p2p"].

(** [None] stands for the nil slice. *)
Definition allowedServerALPN (offered : list string) : option (list string) :=
  if bool_decide (offered = []) then None
  else Some (filter (λ proto, proto ∈ offered) serverALPNAllowlist).

(** ** Nodes *)

(** The certificate files of a node, the material its TLS callbacks read, and
    its peers. *)
Record Node := {
  nID : string;
  nCAPath : string;
  nStoragePath : string;
  nDisk : disk;
  serverMaterial : option tlsMaterial;
  clientMaterial : option tlsMaterial;
  nPeers : PeerRegistry Certificate }.

Definition with_disk (d : disk) (n : Node) : Node :=
  {| nID := nID n; nCAPath := nCAPath n; nStoragePath := nStoragePath n; nDisk := d;
     serverMaterial := serverMaterial n; clientMaterial := clientMaterial n; nPeers := nPeers n |}.

Definition on_disk {A} (m : ST disk A) : ST Node A := λ n,
  let '(r, d) := m (nDisk n) in (r, with_disk d n).

Definition set_material (srv cli : option tlsMaterial) (n : Node) : Node :=
  {| nID := nID n; nCAPath := nCAPath n; nStoragePath := nStoragePath n; nDisk := nDisk n;
     serverMaterial := srv; clientMaterial := cli; nPeers := nPeers n |}.

Definition set_registry (f : PeerRegistry Certificate → PeerRegistry Certificate) (n : Node) : Node :=
  {| nID := nID n; nCAPath := nCAPath n; nStoragePath := nStoragePath n; nDisk := nDisk n;
     serverMaterial := serverMaterial n; clientMaterial := clientMaterial n; nPeers := f (nPeers n) |}.

Definition ReloadTLSConfig (caPath certPath keyPath : string) : ST Node unit :=
  new ← wrapErr "failed to load rotated TLS certs" (on_disk (LoadNodeTLS caPath certPath keyPath));
  modify (set_material (Some (fst new)) (Some (snd new))).

Record RotateTLSPayload := { RotCACert : pem; RotNodeCert : pem }.

Definition emptyPEM (p : pem) : bool := match p with PemOther text => bool_decide (text = "") | _ => false end.

(** The status of the answer. *)
Definition HandleClusterRotate (tls : @tlsState Certificate) (body : option RotateTLSPayload) (n : Node) : Z * Node :=
  match PeerCNFromTLS tls with
  | None => (403%Z, n)
  | Some peerID =>
      if match GetPeerRecord (nPeers n) peerID with Some rec => negb (IsSponsor rec) | None => true end then (403%Z, n)
      else match body with
      | None => (400%Z, n)
      | Some req =>
          if emptyPEM (RotCACert req) || emptyPEM (RotNodeCert req) then (400%Z, n)
          else
            match on_disk (ResolveNodeCertPaths (nCAPath n) (nStoragePath n) (nID n)) n with
            | (Err _, n) => (500%Z, n)
            | (Ok (certPath, keyPath), n) =>
                match on_disk (WriteNodePEMs (nCAPath n) certPath "" (RotCACert req) (RotNodeCert req) None) n with
                | (Err _, n) => (500%Z, n)
                | (Ok _, n) =>
                    match ReloadTLSConfig (nCAPath n) certPath keyPath n with
                    | (Err _, n) => (500%Z, n)
                    | (Ok _, n) => (200%Z, n)
                    end
                end
            end
      end
  end.

Definition PathClusterRotate : string := "/cluster/rotate".

(** The handler behind the guard. *)
Definition serveRotate (tls : @tlsState Certificate) (body : option RotateTLSPayload) (n : Node) : Z * Node :=
  match guardVerdict (nID n) (nPeers n) PathClusterRotate tls with
  | inl (code, _) => (code, n)
  | inr None => HandleClusterRotate tls body n
  | inr (Some peerID) =>
      HandleClusterRotate tls body
        (set_registry (λ pr, SetPeerOnline peerID true (SetPeerCertificate peerID (leafCert tls) pr)) n)
  end.

Arguments HandleClusterRotate _ _ _ : simpl never.
Arguments serveRotate _ _ _ : simpl never.

(** ** The rotation *)

(** The push of a payload to a peer, with the material the node's client side
    presents and verifies with. *)
Class RotateNet (W : Type) := {
  net_rotate : string → RotateTLSPayload → option tlsMaterial → W → res unit * W }.

Record RotState (W : Type) := { rNode : Node; rNet : W }.
Arguments rNode {W} _.
Arguments rNet {W} _.

(** How a rotation ends, as its log tells it. *)
Inductive rotationEnd :=
  | LifetimeOver
  | NotAuthority
  | StagingFailed (e : error)
  | PushIncomplete (failedPeers : list string)
  | StagedUnreadable (e : error)
  | KeyNotPersisted (e : error)
  | CertsNotPersisted (e : error)
  | ReloadFailed (e : error)
  | RotationDone.

Section rotation.
Context {W : Type} `{!RotateNet W}.
(** The clock, and the order in which the peers are visited. *)
Variable now : time.
Variable addYears : Z → time → time.
Variable visit : list string → list string.
Abbreviation SR := (ST (RotState W)).

Definition onNode {A} (m : ST Node A) : SR A := λ s,
  let '(r, n) := m (rNode s) in (r, {| rNode := n; rNet := rNet s |}).

Definition disk' {A} (m : ST disk A) : SR A := onNode (on_disk m).

Definition push (peerID : string) (payload : RotateTLSPayload) : SR unit := λ s,
  let '(r, w) := net_rotate peerID payload (clientMaterial (rNode s)) (rNet s) in
  (r, {| rNode := rNode s; rNet := w |}).

(** The call for one peer. *)
Definition resignAndPush (stageCAPath stageCAKeyPath : string) (newCACertPEM : pem) (peerID : string) : SR unit :=
  cert ← onNode (gets (λ n, GetPeerCertificate (nPeers n) peerID));
  match cert with
  | None => fail (ESentinel ErrPeerSkipped)
  | Some cert =>
      newCertPEM ← disk' (ReSignPeerCertificate now addYears (PublicKey cert) peerID stageCAPath stageCAKeyPath);
      push peerID {| RotCACert := newCACertPEM; RotNodeCert := newCertPEM |}
  end.

(** [callPeer] around it. *)
Definition callRotate (fn : string → SR unit) (peerID : string) : SR (res unit) :=
  r ← attempt (fn peerID);
  (match r with
   | Ok _ => onNode (modify (set_registry (SetPeerOnline peerID true)))
   | Err err =>
       if errors_Is err ErrPeerSkipped then mret ()
       else onNode (modify (set_registry (SetPeerOffline peerID (Some (error_text err)))))
   end);;
  mret r.

(** The peers whose push failed. *)
Fixpoint pushAll (fn : string → SR unit) (self : string) (peers : list string) : SR (list string) :=
  match peers with
  | [] => mret []
  | peerID :: rest =>
      if bool_decide (peerID = self) then pushAll fn self rest
      else
        r ← callRotate fn peerID;
        failed ← pushAll fn self rest;
        mret (match r with Ok _ => failed | Err _ => peerID :: failed end)
  end.

Definition withRoots (pool : list Certificate) (m : tlsMaterial) : tlsMaterial :=
  {| matCert := matCert m; matKey := matKey m; matRoots := pool |}.

(** Puts the material of before back, where there was some. *)
Definition rollback (oldServer oldClient : option tlsMaterial) : SR unit :=
  onNode (modify (λ n,
    set_material (match oldServer with Some _ => oldServer | None => serverMaterial n end)
                 (match oldClient with Some _ => oldClient | None => clientMaterial n end) n)).

Record staged := {
  stCAPath : string; stCAKeyPath : string; stOwnCert : string; stOwnKey : string;
  stNewCA : pem; stOldCA : pem }.

(** Steps 1 and 2: the new CA and the node's own certificate, in the staging
    directory. *)
Definition stageRotation (stageDir : string) (caPriv ownPriv : key) : SR staged :=
  n ← onNode (gets (λ n, n));
  disk' (rotateCA now addYears stageDir caPriv);;
  let '(stageCAPath, stageCAKeyPath) := CACertPaths stageDir in
  let '(stageOwnCertFile, stageOwnKeyFile) := NodeCertPaths stageDir (nID n) in
  disk' (IssueNodeCertificate now addYears stageDir stageDir (nID n) ownPriv);;
  newCACertPEM ← disk' (ReadCAPEM stageCAPath);
  oldCACertPEM ← disk' (ReadCAPEM (nCAPath n));
  mret {| stCAPath := stageCAPath; stCAKeyPath := stageCAKeyPath; stOwnCert := stageOwnCertFile;
          stOwnKey := stageOwnKeyFile; stNewCA := newCACertPEM; stOldCA := oldCACertPEM |}.

(** Steps 4 and 5: the staged files take the place of the old ones. *)
Definition commitRotation (st : staged) (oldServer oldClient : option tlsMaterial) : SR rotationEnd :=
  n ← onNode (gets (λ n, n));
  let caKeyPath := CAKeyPath (nCAPath n) in
  let '(ownCertFile, ownKeyFile) := NodeCertPaths (dirOf (nCAPath n)) (nID n) in
  read ← attempt (stageCAKeyPEM ← disk' (ReadFile (stCAKeyPath st));
                  stageOwnCertPEM ← disk' (ReadFile (stOwnCert st));
                  stageOwnKeyPEM ← disk' (ReadFile (stOwnKey st));
                  mret (stageCAKeyPEM, stageOwnCertPEM, stageOwnKeyPEM));
  match read with
  | Err e => mret (StagedUnreadable e)
  | Ok (stageCAKeyPEM, stageOwnCertPEM, stageOwnKeyPEM) =>
      oldKey ← attempt (disk' (ReadFile caKeyPath));
      w1 ← attempt (disk' (WriteFileAtomic caKeyPath stageCAKeyPEM));
      match w1 with
      | Err e => rollback oldServer oldClient;; mret (KeyNotPersisted e)
      | Ok _ =>
          w2 ← attempt (disk' (WriteNodePEMs (nCAPath n) ownCertFile ownKeyFile
                                 (stNewCA st) stageOwnCertPEM (Some stageOwnKeyPEM)));
          match w2 with
          | Err e =>
              (match oldKey with
               | Ok oldCAKeyPEM => attempt (disk' (WriteFileAtomic caKeyPath oldCAKeyPEM));; mret ()
               | Err _ => mret ()
               end);;
              rollback oldServer oldClient;;
              mret (CertsNotPersisted e)
          | Ok _ =>
              r ← attempt (onNode (ReloadTLSConfig (nCAPath n) ownCertFile ownKeyFile));
              mret (match r with Ok _ => RotationDone | Err e => ReloadFailed e end)
          end
      end
  end.

(** [os.RemoveAll] of the staging directory, whose error nobody reads: [kept]
    are the files it leaves there when it fails. *)
Definition removeStage (kept : string → bool) (stageDir : string) : SR unit :=
  o ← disk' nextOutcome;
  let stays p := negb (HasPrefix p (stageDir +:+ "/")) || match o with FsOk => false | _ => kept p end in
  disk' (modify (set_files (filter (λ kv, stays kv.1 = true)))).

(** Steps 1 to 5 in an existing staging directory. *)
Definition rotateIn (stageDir : string) (caPriv ownPriv : key) : SR rotationEnd :=
  st ← attempt (stageRotation stageDir caPriv ownPriv);
  match st with
  | Err e => mret (StagingFailed e)
  | Ok st =>
      n ← onNode (gets (λ n, n));
      let pool := certsOfPEM (stOldCA st) ++ certsOfPEM (stNewCA st) in
      let oldServer := serverMaterial n in
      let oldClient := clientMaterial n in
      onNode (modify (set_material (withRoots pool <$> oldServer) (withRoots pool <$> oldClient)));;
      failed ← pushAll (resignAndPush (stCAPath st) (stCAKeyPath st) (stNewCA st)) (nID n)
                 (visit (sort_strings (map_to_list (GetPeersCopy (nPeers n))).*1));
      if bool_decide (failed ≠ []) then rollback oldServer oldClient;; mret (PushIncomplete failed)
      else commitRotation st oldServer oldClient
  end.

(** [ended]: the server's lifetime is over.  [stageDir], [caPriv] and
    [ownPriv] are what [os.MkdirTemp] and the two key generations return. *)
Definition RotateCAAndResignPeers (ended : bool) (stageDir : string) (caPriv ownPriv : key) (kept : string → bool)
    : SR rotationEnd :=
  if ended then mret LifetimeOver
  else
    n ← onNode (gets (λ n, n));
    key ← attempt (disk' (Stat (CAKeyPath (nCAPath n))));
    match key with
    | Err _ => mret NotAuthority
    | Ok _ =>
        made ← disk' nextOutcome;
        match made with
        | FsOk => deferred (rotateIn stageDir caPriv ownPriv) (removeStage kept stageDir)
        | _ => mret (StagingFailed sysErr)
        end
    end.
End rotation.

(** ** A cluster *)

(** What becomes of a push: it arrives and is answered, it is lost, or its
    answer is. *)
Inductive link := LinkUp | LinkLost | AnswerLost.

Record Cluster := { nodes : gmap string Node; links : list link }.

(** A push over a mutually authenticated connection to the node that the
    certificate names. *)
Definition clusterRotate (now : time) (peerID : string) (payload : RotateTLSPayload) (mat : option tlsMaterial) (w : Cluster)
    : res unit * Cluster :=
  let l := default LinkUp (head (links w)) in
  let w := {| nodes := nodes w; links := tail (links w) |} in
  match l, nodes w !! peerID, mat with
  | LinkLost, _, _ | _, None, _ | _, _, None => (Err (EMsg "connection failed"), w)
  | _, Some n, Some cli =>
      match serverMaterial n with
      | None => (Err (EMsg "connection failed"), w)
      | Some srv =>
          if negb (mutualTLS now cli srv) || bool_decide (CommonName (Subject (matCert srv)) ≠ peerID)
          then (Err (EMsg "handshake failed"), w)
          else
            let '(code, n) := serveRotate (Some [(CommonName (Subject (matCert cli)), matCert cli)]) (Some payload) n in
            let w := {| nodes := <[peerID := n]> (nodes w); links := links w |} in
            (match l with
             | AnswerLost => Err (EMsg "connection failed")
             | _ => if (code =? 200)%Z then Ok () else Err (EMsg "unexpected status code")
             end, w)
      end
  end.

Definition cluster_net (now : time) : RotateNet Cluster := {| net_rotate := clusterRotate now |}.
