(* ===== verification/RotationWorld.v ===== *)
(** * Certificates of a rotation

    The certificates a CA of this code makes and who accepts them, runs of the
    certificate code on a disk that works, and a small cluster, of a node that
    holds the CA and two peers, for the examples. *)
From Stdlib Require Import Ascii String.
From S2P Require Import Prelude GoStrings Json Protocol Bolt PeerRegistry RegistryLaws Relay Quic Router SmartToken NetAddr.
From S2P Require Import PeerHandlers PeerHandlersLaws Certs Rotation.
Local Open Scope stdpp_scope.

(** ** Certificates of a new CA *)

Section renewed.
Variable now : time.
Variable addYears : Z → time → time.
Hypothesis addYears_later : ∀ y, (0 ≤ y → now ≤ addYears y now)%Z.

Definition ca_cert (priv : key) : Certificate :=
  {| Subject := caName; Issuer := caName; PublicKey := Some priv; SignatureBy := priv; IsCA := true; DNSNames := [];
     NotBefore := now - day; NotAfter := addYears 10 now |}.

Definition leaf_cert (id : string) (pub caPriv : key) : Certificate :=
  {| Subject := {| CommonName := id; Organization := [leafOrgName] |}; Issuer := caName; PublicKey := Some pub;
     SignatureBy := caPriv; IsCA := false; DNSNames := LeafDNSNames id;
     NotBefore := now - day; NotAfter := addYears 1 now |}.

(** The material of a node after a rotation to the CA of [caPriv]. *)
Definition renewed (caPriv : key) (id : string) (k : key) : tlsMaterial :=
  {| matCert := leaf_cert id k caPriv; matKey := k; matRoots := [ca_cert caPriv] |}.

Lemma generateCA_run priv : generateCA now addYears priv = Ok (ca_cert priv, priv).
Proof. done. Qed.

Lemma signLeaf_run pub id caPriv :
  signLeaf now addYears (Some pub) {| CommonName := id; Organization := [leafOrgName] |} (LeafDNSNames id)
    (ca_cert caPriv) caPriv = Ok (PemCert (leaf_cert id pub caPriv)).
Proof. unfold signLeaf, CreateCertificate. simpl. by rw N.eqb_refl. Qed.

Lemma validAt_fresh c : NotBefore c = (now - day)%Z → (now ≤ NotAfter c)%Z → validAt now c = true.
Proof.
  unfold validAt, day. intros -> H. apply andb_true_iff. split; [apply Z.leb_le; lia|by apply Z.leb_le].
Qed.

Lemma verify_leaf id k caPriv : verifyCert now [ca_cert caPriv] (leaf_cert id k caPriv) = true.
Proof.
  assert (signedBy (ca_cert caPriv) (leaf_cert id k caPriv) = true) as Hs.
  { unfold signedBy. cbn [Issuer Subject PublicKey SignatureBy IsCA ca_cert leaf_cert].
    by rw !bool_decide_eq_true_2. }
  unfold verifyCert. rw validAt_fresh //; [|by apply addYears_later]. simpl.
  rw (validAt_fresh (ca_cert caPriv)) //; [|by apply addYears_later]. rw Hs. apply orb_true_r.
Qed.

Lemma verify_foreign c caPriv : SignatureBy c ≠ caPriv → verifyCert now [ca_cert caPriv] c = false.
Proof.
  intros Hsig. unfold verifyCert. rw bool_decide_eq_false_2; [|by intros ->%list_elem_of_singleton].
  simpl. unfold signedBy. simpl. rw (bool_decide_eq_false_2 (Some caPriv = _)); [|congruence].
  by rw andb_false_r /= andb_false_r.
Qed.

Lemma renewed_accept caPriv id k id' k' : mutualTLS now (renewed caPriv id k) (renewed caPriv id' k') = true.
Proof. unfold mutualTLS. simpl. by rw !verify_leaf. Qed.

Lemma verify_more_roots roots roots' c :
  (∀ r, r ∈ roots → r ∈ roots') → verifyCert now roots c = true → verifyCert now roots' c = true.
Proof.
  intros Hsub. unfold verifyCert. rw !andb_true_iff !orb_true_iff !bool_decide_eq_true !existsb_exists.
  intros [Hv [Hin|(r & Hr & Hs)]]; (split; [done|]); [left; auto|right]. exists r. split; [|done].
  apply list_elem_of_In, Hsub. by apply list_elem_of_In.
Qed.
End renewed.

(** ** Runs without faults *)

Definition quiet (fs : gmap string pem) : disk := {| files := fs; script := [] |}.

Lemma ReadFile_quiet fs p v : fs !! p = Some v → ReadFile p (quiet fs) = (Ok v, quiet fs).
Proof. intros Hp. unfold ReadFile, mbind, st_bind, gets. simpl. by rw Hp. Qed.

Lemma WriteFile_quiet fs p v : WriteFile p v (quiet fs) = (Ok (), quiet (<[p := v]> fs)).
Proof. done. Qed.

Lemma WriteFileAtomic_quiet fs p v : WriteFileAtomic p v (quiet fs) = (Ok (), quiet (<[p := v]> fs)).
Proof. done. Qed.

Lemma loadCertAndKey_quiet fs cp kp c k :
  fs !! cp = Some (PemCert c) → fs !! kp = Some (PemKey k) →
  loadCertAndKey cp kp (quiet fs) = (Ok (c, k), quiet fs).
Proof.
  intros Hc Hk. unfold loadCertAndKey, mbind, st_bind. by rw (ReadFile_quiet _ _ _ Hc) (ReadFile_quiet _ _ _ Hk).
Qed.

Lemma LoadNodeTLS_quiet fs ca cp kp root c k :
  fs !! ca = Some (PemCert root) → fs !! cp = Some (PemCert c) → fs !! kp = Some (PemKey k) → PublicKey c = Some k →
  LoadNodeTLS ca cp kp (quiet fs) =
    (Ok ({| matCert := c; matKey := k; matRoots := [root] |}, {| matCert := c; matKey := k; matRoots := [root] |}), quiet fs).
Proof.
  intros Ha Hc Hk Hpk. unfold LoadNodeTLS, loadKeyPair, ReadCAPEM, wrapErr, mbind, st_bind.
  rw (ReadFile_quiet _ _ _ Ha) /= (ReadFile_quiet _ _ _ Hc) (ReadFile_quiet _ _ _ Hk).
  by rw bool_decide_eq_true_2.
Qed.

(** ** The cluster *)

Definition ex_years (y : Z) (t : time) : time := (t + y * 365 * day)%Z.

Lemma ex_years_later y : (0 ≤ y → 0 ≤ ex_years y 0)%Z.
Proof. unfold ex_years, day. lia. Qed.

(** The old CA has key 1; a new one will have key 11. *)
Definition ex_ca : Certificate := ca_cert 0 ex_years 1.

Definition ex_files (id : string) (k : key) : gmap string pem :=
  {[ joinPath ("/" +:+ id) "ca.crt" := PemCert ex_ca;
     joinPath ("/" +:+ id) (id +:+ ".crt") := PemCert (leaf_cert 0 ex_years id k 1);
     joinPath ("/" +:+ id) (id +:+ ".key") := PemKey k ]}.

Definition ex_addr (id : string) (isSponsor : bool) : AddressRecord :=
  {| Addresses := ["https://" +:+ id +:+ ":8443"]; Sequence := 1; IsSponsor := isSponsor |}.

Definition ex_node (id : string) (k : key) (fs : gmap string pem) (pr : PeerRegistry Certificate) : Node :=
  {| nID := id; nCAPath := joinPath ("/" +:+ id) "ca.crt"; nStoragePath := "/" +:+ id; nDisk := quiet fs;
     serverMaterial := Some (renewed 0 ex_years 1 id k); clientMaterial := Some (renewed 0 ex_years 1 id k); nPeers := pr |}.

Definition ex_peer (id : string) (k : key) : Node :=
  ex_node id k (ex_files id k) (AddPeer "hub" (ex_addr "hub" true) (NewPeerRegistry id)).2.

Definition ex_registry : PeerRegistry Certificate :=
  SetPeerCertificate "ann" (Some (leaf_cert 0 ex_years "ann" 3 1))
    (SetPeerCertificate "bob" (Some (leaf_cert 0 ex_years "bob" 4 1))
       (AddPeer "bob" (ex_addr "bob" false) (AddPeer "ann" (ex_addr "ann" false) (NewPeerRegistry "hub")).2).2).

Definition ex_hub : Node :=
  ex_node "hub" 2 (<["/hub/ca.key" := PemKey 1]> (ex_files "hub" 2)) ex_registry.

Definition ex_world (ls : list link) : Cluster :=
  {| nodes := {[ "ann" := ex_peer "ann" 3; "bob" := ex_peer "bob" 4 ]}; links := ls |}.

Definition ex_rotate (hub : Node) (ls : list link) : res rotationEnd * RotState Cluster :=
  RotateCAAndResignPeers (RotateNet0 := cluster_net 0) 0 ex_years id false "/tmp/stage" 11 12 (λ _, true)
    {| rNode := hub; rNet := ex_world ls |}.

(** Whether two nodes can talk, in both directions. *)
Definition can_talk (a b : option Node) : bool :=
  match a, b with
  | Some a, Some b =>
      match clientMaterial a, serverMaterial a, clientMaterial b, serverMaterial b with
      | Some ca, Some sa, Some cb, Some sb => mutualTLS 0 ca sb && mutualTLS 0 cb sa
      | _, _, _, _ => false
      end
  | _, _ => false
  end.

(** Whether one of two directions works. *)
Definition can_reach (a b : option Node) : bool :=
  match a, b with
  | Some a, Some b =>
      match clientMaterial a, serverMaterial b with Some ca, Some sb => mutualTLS 0 ca sb | _, _ => false end
  | _, _ => false
  end.

(** ** The pinned CA of an invitation

    A node that joins trusts a host only for a chain of certificates that ends
    at the CA whose hash its token names ([TLSConfigTrustCAHash] of
    [internal/p2p/tls.go]); a host of that cluster is trusted. *)

(** A chain of signatures by valid CAs, from a certificate up to another. *)
Inductive certified (now : time) : Certificate → Certificate → Prop :=
  | certified_self c : certified now c c
  | certified_by c i top :
      signedBy i c = true → validAt now i = true → certified now i top → certified now c top.

Section pin.
Variable now : time.

Lemma root_chain (roots current : list Certificate) c (chain : list Certificate) :
  chain ∈ (λ root, current ++ [root]) <$> filter (λ root, signedBy root c && validAt now root = true ∧ root ∉ current) roots →
  ∃ top, top ∈ roots ∧ last chain = Some top ∧ certified now c top.
Proof.
  intros (root & -> & [[[Hs Hv]%andb_true_iff _] Hin]%list_elem_of_filter)%list_elem_of_fmap.
  exists root. split_and!; [done|apply last_snoc|]. eapply certified_by; [done..|constructor].
Qed.

Lemma chainsFrom_certified fuel roots inters current c chain :
  chain ∈ chainsFrom fuel now roots inters current c →
  ∃ top, top ∈ roots ∧ last chain = Some top ∧ certified now c top.
Proof.
  revert current c chain. induction fuel as [|fuel IH]; intros current c chain; simpl; rw elem_of_app.
  - intros [?%root_chain|?%elem_of_nil]; done.
  - intros [?%root_chain|(l & Hin & (i & -> & [[[Hs Hv]%andb_true_iff _] Hi]%list_elem_of_filter)%list_elem_of_fmap)%list_elem_of_join]; [done|].
    apply IH in Hin as (top & Htop & Hlast & Hc). exists top. split_and!; [done|done|]. by eapply certified_by.
Qed.

Variable hash : Certificate → string.

Lemma parseChain_spec caHash raw acc pinned certs pinned' :
  parseChain hash caHash raw acc pinned = Ok (certs, pinned') →
  certs = acc ++ omap id raw ∧ raw = Some <$> omap id raw ∧
  (pinned' = pinned ∨ ∃ ca, pinned' = Some ca ∧ ca ∈ omap id raw ∧ hash ca = caHash).
Proof.
  revert acc pinned. induction raw as [|[c|] raw IH]; intros acc pinned; simpl; [|intros Hp|done].
  { intros [= <- <-]. rw app_nil_r. auto. }
  apply IH in Hp as (-> & Hraw & Hpin). rw -app_assoc. split_and!; [done|by rw {1}Hraw|].
  destruct Hpin as [->|(ca & -> & Hin & Hh)].
  - case_bool_decide; [right|by left]. exists c. split_and!; [done|by left|done].
  - right. exists ca. split_and!; [done|by right|done].
Qed.

(** What is accepted is a chain that leads from the presented certificate to a
    CA with the pinned hash, which was presented too. *)
Theorem verifyPinned_sound caHash raw :
  verifyPinned hash now caHash raw = Ok () →
  ∃ leaf others ca, raw = Some leaf :: others ∧ Some ca ∈ raw ∧ hash ca = caHash ∧ IsCA ca = true ∧
    validAt now leaf = true ∧ certified now leaf ca.
Proof.
  unfold verifyPinned. case_bool_decide; [done|].
  destruct (parseChain hash caHash raw [] None) as [[certs pinned]|] eqn:Hp; [|done].
  apply parseChain_spec in Hp as (Hcerts & Hraw & Hpin). simpl in Hcerts.
  destruct pinned as [ca|]; [|done]. destruct Hpin as [|(ca' & [= <-] & Hin & Hh)]; [done|].
  destruct certs as [|leaf others]; [done|]. destruct (IsCA ca) eqn:Hca; [|done]. simpl.
  set (chains := verifyChains now [ca] (filter (λ c, c ≠ ca) others) leaf).
  case_bool_decide as Hne; [done|]. intros _. exists leaf, (Some <$> others), ca.
  rw -Hcerts in Hin Hraw. rw Hraw. split_and!; [done| |done|done|..].
  - apply list_elem_of_fmap. eauto.
  - subst chains. unfold verifyChains in Hne. by destruct (validAt now leaf).
  - destruct chains as [|chain chains'] eqn:Hch; [done|].
    assert (chain ∈ verifyChains now [ca] (filter (λ c, c ≠ ca) others) leaf) as Hc by (unfold chains in Hch; rw Hch; by left).
    revert Hc. unfold verifyChains. destruct (negb _); [by intros ?%elem_of_nil|].
    case_bool_decide as Hroot; [apply list_elem_of_singleton in Hroot as ->; constructor|].
    by intros (top & ->%list_elem_of_singleton & _ & Hc)%chainsFrom_certified.
Qed.
End pin.

(** A node of the cluster, which presents its certificate and the CA's, is
    accepted under the hash of its CA. *)
Theorem pinned_host_accepted now addYears (hash : Certificate → string) id k caPriv :
  (∀ y, (0 ≤ y → now ≤ addYears y now)%Z) →
  let leaf := leaf_cert now addYears id k caPriv in
  let ca := ca_cert now addYears caPriv in
  hash leaf ≠ hash ca →
  verifyPinned hash now (hash ca) [Some leaf; Some ca] = Ok ().
Proof.
  intros Hy leaf ca Hhash. unfold verifyPinned. rw bool_decide_eq_false_2 //. cbn [parseChain app].
  rw (bool_decide_eq_true_2 (hash ca = hash ca)) //. cbn [IsCA ca ca_cert negb].
  assert (verifyChains now [ca] (filter (λ c, c ≠ ca) [ca]) leaf = [[leaf; ca]]) as ->.
  { rw filter_cons_False; [|by intros H; apply H]. unfold verifyChains.
    pose proof (verify_leaf now addYears Hy id k caPriv) as Hv. unfold verifyCert in Hv. apply andb_true_iff in Hv as [Hv Hor].
    fold leaf in Hv, Hor. rw Hv. simpl negb. cbn iota.
    assert (leaf ≠ ca) as Hne by (by intros ->). rw bool_decide_eq_false_2; [|by intros ?%list_elem_of_singleton].
    rw bool_decide_eq_false_2 in Hor; [|by intros ?%list_elem_of_singleton]. simpl in Hor. rw orb_false_r in Hor.
    simpl. rw filter_cons_True; [by rw filter_nil|]. split; [done|]. by intros ?%list_elem_of_singleton. }
  rw bool_decide_eq_false_2 //. simpl. by rw bool_decide_eq_true_2.
Qed.
