(* ===== verification/RotationLaws.v ===== *)
(** * Laws of the CA rotation

    How every rotation ends, in memory and on disk, whatever system calls and
    pushes fail, and who may push certificates to a node. *)
From Stdlib Require Import Ascii String.
From S2P Require Import Prelude GoStrings Json Protocol Bolt PeerRegistry RegistryLaws Relay Quic Router SmartToken NetAddr.
From S2P Require Import PeerHandlers PeerHandlersLaws Certs Rotation RotationWorld.
Local Open Scope stdpp_scope.

(** ** What file operations touch *)

(** The disk was once [d0]: the files outside [P] are those of [d0], and the
    outcomes to come are the last of those of [d0]. *)
Definition files_like (d0 : disk) (P : string → Prop) (d : disk) : Prop :=
  (∀ p, ¬ P p → files d !! p = files d0 !! p) ∧ script d `suffix_of` script d0.

Section confined.
Context (d0 : disk) (P : string → Prop).
Abbreviation keeps := (preserves (files_like d0 P)).

Lemma keeps_nextOutcome : keeps nextOutcome.
Proof.
  intros d r d' [Hf Hs] [= <- <-]. split; [done|]. etrans; [|exact Hs]. simpl. destruct (script d) as [|o os]; [done|].
  by exists [o].
Qed.

Lemma keeps_ReadFile path : keeps (ReadFile path).
Proof. pose proof keeps_nextOutcome. unfold ReadFile. solve_preserves. Qed.

Lemma keeps_write path v : P path → keeps (modify (set_files (<[path := v]>))).
Proof.
  intros HP. apply preserves_modify. intros d [Hf Hs]. split; [|done]. intros p Hp. simpl.
  rw lookup_insert_ne; [by apply Hf|]. by intros ->.
Qed.

Lemma keeps_WriteFile path v : P path → keeps (WriteFile path v).
Proof.
  intros HP. pose proof keeps_nextOutcome. unfold WriteFile. solve_preserves; by apply keeps_write.
Qed.

Lemma keeps_WriteFileAtomic path v : P path → keeps (WriteFileAtomic path v).
Proof.
  intros HP. pose proof keeps_nextOutcome. unfold WriteFileAtomic. solve_preserves; by apply keeps_write.
Qed.

Lemma keeps_wrapErr {A} text (m : ST disk A) : keeps m → keeps (wrapErr text m).
Proof.
  intros Hm d r d' Hd. unfold wrapErr. destruct (m d) as [[a|e] d1] eqn:Hrun; intros [= <- <-]; by eapply Hm.
Qed.

Lemma keeps_loadCertAndKey certPath keyPath : keeps (loadCertAndKey certPath keyPath).
Proof. pose proof keeps_ReadFile. unfold loadCertAndKey. solve_preserves. Qed.

Lemma keeps_ReSign now addYears pub id certPath keyPath :
  keeps (ReSignPeerCertificate now addYears pub id certPath keyPath).
Proof. pose proof keeps_loadCertAndKey. unfold ReSignPeerCertificate. solve_preserves. Qed.

Lemma keeps_saveCertAndKey certPath keyPath cert k :
  P certPath → P keyPath → keeps (saveCertAndKey certPath keyPath cert k).
Proof. intros. unfold saveCertAndKey. solve_preserves; by apply keeps_WriteFile. Qed.

Lemma keeps_rotateCA now addYears dir priv :
  P (CACertPaths dir).1 → P (CACertPaths dir).2 → keeps (rotateCA now addYears dir priv).
Proof.
  intros. unfold rotateCA. destruct (CACertPaths dir) as [caPath caKeyPath].
  solve_preserves. by apply keeps_saveCertAndKey.
Qed.

Lemma keeps_Issue now addYears caDir dir id priv :
  P (NodeCertPaths dir id).1 → P (NodeCertPaths dir id).2 → keeps (IssueNodeCertificate now addYears caDir dir id priv).
Proof.
  intros. unfold IssueNodeCertificate. destruct (CACertPaths caDir), (NodeCertPaths dir id) as [certPath keyPath].
  pose proof (λ text a b, keeps_wrapErr text _ (keeps_loadCertAndKey a b)).
  solve_preserves. by apply keeps_saveCertAndKey.
Qed.

Lemma keeps_WriteNodePEMs caPath certPath keyPath caPEM certPEM keyPEM :
  P caPath → P certPath → (keyPEM ≠ None → P keyPath) →
  keeps (WriteNodePEMs caPath certPath keyPath caPEM certPEM keyPEM).
Proof.
  intros ?? Hk. unfold WriteNodePEMs. solve_preserves; try by apply keeps_WriteFileAtomic.
  apply keeps_WriteFileAtomic. by apply Hk.
Qed.
End confined.

(** ** How rotations end *)

Section ends.
Context {W : Type} `{!RotateNet W}.
Variable now : time.
Variable addYears : Z → time → time.
Variable visit : list string → list string.
Variable stageDir : string.
Variable n0 : Node.
Variables (caPriv ownPriv : key) (kept : string → bool).

Abbreviation d0 := (nDisk n0).
Abbreviation fs0 := (files (nDisk n0)).

Definition in_stage (p : string) : Prop := HasPrefix p (stageDir +:+ "/") = true.

(** The staging directory is new: it is empty and not where the node's CA is,
    and the staged key is in it ([CAKeyPath] replaces the first [.crt] of a
    path).  The node's own files are not the CA's. *)
Record stage_ok : Prop := {
  so_key : CAKeyPath (joinPath stageDir "ca.crt") = joinPath stageDir "ca.key";
  so_new p : in_stage p → fs0 !! p = None ∧ p ≠ nCAPath n0;
  so_id : nID n0 ≠ "ca";
  so_cert : nCAPath n0 ≠ (NodeCertPaths (dirOf (nCAPath n0)) (nID n0)).1;
  so_own_key : nCAPath n0 ≠ (NodeCertPaths (dirOf (nCAPath n0)) (nID n0)).2 }.

Definition stage_or (l : list string) (p : string) : Prop := in_stage p ∨ p ∈ l.

Lemma joinPath_stage name l : stage_or l (joinPath stageDir name).
Proof. left. unfold in_stage, joinPath. rw -str_app_assoc. apply HasPrefix_app. Qed.

(** Where a rotation of [n0] stands: the material in memory, and the files
    outside the staging directory and [l] untouched. *)
Record rot_inv (srv cli : option tlsMaterial) (l : list string) (s : RotState W) : Prop := {
  ro_id : nID (rNode s) = nID n0;
  ro_ca : nCAPath (rNode s) = nCAPath n0;
  ro_srv : serverMaterial (rNode s) = srv;
  ro_cli : clientMaterial (rNode s) = cli;
  ro_files : files_like d0 (stage_or l) (nDisk (rNode s)) }.

Lemma rot_inv_mono srv cli l l' s : (∀ p, p ∈ l → p ∈ l') → rot_inv srv cli l s → rot_inv srv cli l' s.
Proof.
  intros Hl [? ? ? ? [Hf Hs]]. split; [done..|]. split; [|done]. intros p Hp. apply Hf.
  intros [?|?]; apply Hp; [by left|right; auto].
Qed.

Section steps.
Context (srv cli : option tlsMaterial) (l : list string).
Abbreviation keeps := (preserves (rot_inv srv cli l)).

Lemma inv_disk {A} (m : ST disk A) :
  preserves (files_like d0 (stage_or l)) m → keeps (disk' m).
Proof.
  intros Hm s r s' [Hid Hca Hs Hc Hf]. unfold disk', onNode, on_disk.
  destruct (m (nDisk (rNode s))) as [r1 d1] eqn:Hrun. intros [= <- <-]. split; simpl; try done.
  by eapply Hm.
Qed.

Lemma inv_node_gets {A} (f : Node → A) : keeps (onNode (gets f)).
Proof. intros s r s' Hs. unfold onNode, gets. intros [= <- <-]. by destruct s. Qed.

Lemma inv_registry f : keeps (onNode (modify (set_registry f))).
Proof. intros s r s' [? ? ? ? ?]. unfold onNode, modify. intros [= <- <-]. by split. Qed.

Lemma inv_push p payload : keeps (push p payload).
Proof.
  intros s r s' [? ? ? ? ?]. unfold push. destruct (net_rotate _ _ _ _) as [r1 w1]. intros [= <- <-]. by split.
Qed.

Lemma inv_resignAndPush a b ca p : keeps (resignAndPush now addYears a b ca p).
Proof.
  pose proof (@inv_node_gets). pose proof inv_push. unfold resignAndPush.
  solve_preserves. apply inv_disk, keeps_ReSign.
Qed.

Lemma inv_pushAll fn self peers : (∀ p, keeps (fn p)) → keeps (pushAll fn self peers).
Proof.
  intros Hfn. pose proof inv_registry. induction peers as [|p peers IH]; simpl; [solve_preserves|].
  unfold callRotate. solve_preserves; apply Hfn || apply IH.
Qed.

Lemma inv_stageRotation :
  stage_ok → keeps (stageRotation now addYears stageDir caPriv ownPriv).
Proof.
  intros Hok. pose proof (@inv_node_gets). unfold stageRotation. solve_preserves.
  - apply inv_disk, keeps_rotateCA; [apply joinPath_stage|]. simpl. rw (so_key Hok). apply joinPath_stage.
  - apply inv_disk, keeps_Issue; apply joinPath_stage.
  - apply inv_disk, keeps_ReadFile.
  - apply inv_disk, keeps_ReadFile.
Qed.
End steps.

Abbreviation srv0 := (serverMaterial n0).
Abbreviation cli0 := (clientMaterial n0).

(** The files a rotation puts in place. *)
Definition installed : list string :=
  let '(ownCert, ownKey) := NodeCertPaths (dirOf (nCAPath n0)) (nID n0) in
  [CAKeyPath (nCAPath n0); nCAPath n0; ownCert; ownKey].

(** The roots of the node's old CA file, and the new CA. *)
Definition both_cas (pool : list Certificate) : Prop :=
  ∃ old, fs0 !! nCAPath n0 = Some old ∧ pool = certsOfPEM old ++ [ca_cert now addYears caPriv].

(** What each end leaves behind; [Inv srv cli l]: this material in memory, and
    the files but [l] untouched. *)
Definition ended_as (Inv : option tlsMaterial → option tlsMaterial → list string → Prop) (e : rotationEnd) : Prop :=
  match e with
  | LifetimeOver | NotAuthority | StagingFailed _ | PushIncomplete _ => Inv srv0 cli0 []
  | StagedUnreadable _ => ∃ pool, both_cas pool ∧ Inv (withRoots pool <$> srv0) (withRoots pool <$> cli0) []
  | KeyNotPersisted _ => Inv srv0 cli0 [CAKeyPath (nCAPath n0)]
  | CertsNotPersisted _ => Inv srv0 cli0 installed
  | ReloadFailed _ => ∃ pool, both_cas pool ∧ Inv (withRoots pool <$> srv0) (withRoots pool <$> cli0) installed
  | RotationDone => ∃ m, Inv (Some m) (Some m) installed ∧
      PublicKey (matCert m) = Some (matKey m) ∧ matRoots m = [ca_cert now addYears caPriv]
  end.

Lemma ended_as_mono (Inv Inv' : option tlsMaterial → option tlsMaterial → list string → Prop) e :
  (∀ srv cli l, Inv srv cli l → Inv' srv cli l) → ended_as Inv e → ended_as Inv' e.
Proof. intros H. destruct e; simpl; naive_solver. Qed.

Lemma inv_rollback pool l :
  hoare (rot_inv (withRoots pool <$> srv0) (withRoots pool <$> cli0) l) (rollback srv0 cli0)
    (λ r s, r = Ok () ∧ rot_inv srv0 cli0 l s).
Proof.
  intros s r s' [? ? Hs Hc ?]. unfold rollback, onNode, modify. intros [= <- <-]. split; [done|].
  split; simpl; try done.
  - by destruct srv0.
  - by destruct cli0.
Qed.

Lemma wrapErr_ok {S A} text (m : ST S A) s a s' : wrapErr text m s = (Ok a, s') → m s = (Ok a, s').
Proof. unfold wrapErr. by destruct (m s) as [[]]. Qed.

Lemma ReadFile_ok path d p d' : ReadFile path d = (Ok p, d') → files d !! path = Some p ∧ files d' = files d.
Proof.
  unfold ReadFile, nextOutcome, mbind, st_bind, gets. simpl. destruct (default FsOk _); try done. simpl.
  destruct (files d !! path); by intros [= <- <-].
Qed.

Lemma LoadNodeTLS_ok a b c d m1 m2 d' :
  LoadNodeTLS a b c d = (Ok (m1, m2), d') →
  m1 = m2 ∧ PublicKey (matCert m1) = Some (matKey m1) ∧ ∃ p, files d !! a = Some p ∧ matRoots m1 = certsOfPEM p.
Proof.
  unfold LoadNodeTLS, mbind, st_bind. destruct (wrapErr _ (ReadCAPEM a) d) as [[p|] d1] eqn:Hread; [|done].
  apply wrapErr_ok, ReadFile_ok in Hread as [Hp _].
  case_bool_decide as Hpool; [done|].
  unfold wrapErr. destruct (loadKeyPair b c d1) as [[[cert k]|] d2] eqn:Hpair; [|done].
  intros [= <- <- <-]. simpl. split_and!; [done| |by exists p]. revert Hpair.
  unfold loadKeyPair, mbind, st_bind. destruct (ReadFile b d1) as [[[| | |]|] d3]; try done;
    destruct (ReadFile c d3) as [[[| | |]|] d4]; try done.
  case_bool_decide as Hk; [|done]. by intros [= <- <- <-].
Qed.

Lemma inv_reload srv cli l a b c p :
  hoare (λ s, rot_inv srv cli l s ∧ files (nDisk (rNode s)) !! a = Some p) (onNode (ReloadTLSConfig a b c))
    (λ r s, match r with
            | Ok _ => ∃ m, rot_inv (Some m) (Some m) l s ∧ PublicKey (matCert m) = Some (matKey m) ∧ matRoots m = certsOfPEM p
            | Err _ => rot_inv srv cli l s
            end).
Proof.
  assert (preserves (files_like d0 (stage_or l)) (LoadNodeTLS a b c)) as Hkeep.
  { unfold LoadNodeTLS, loadKeyPair. pose proof (λ A text m, keeps_wrapErr d0 (stage_or l) (A := A) text m) as Hw.
    pose proof (keeps_ReadFile d0 (stage_or l)). solve_preserves; apply Hw; solve_preserves. }
  intros s r s' [[Hid Hca Hs Hc Hf] Hp]. unfold onNode, ReloadTLSConfig, mbind, st_bind, wrapErr, on_disk.
  destruct (LoadNodeTLS a b c (nDisk (rNode s))) as [[[m1 m2]|e] d1] eqn:Hload.
  - pose proof (LoadNodeTLS_ok _ _ _ _ _ _ _ Hload) as (<- & Hk & p' & Hp' & Hr). intros [= <- <-].
    rw Hp in Hp'. injection Hp' as <-.
    exists m1. split; [|done]. split; simpl; try done. by eapply Hkeep.
  - intros [= <- <-]. split; simpl; try done. by eapply Hkeep.
Qed.

Lemma bind_node {A} (f : Node → ST (RotState W) A) s : (onNode (gets (λ n, n)) ≫= f) s = f (rNode s) s.
Proof. by destruct s. Qed.

Lemma inv_ret srv cli l e :
  (∀ s, rot_inv srv cli l s → ended_as (λ srv cli l, rot_inv srv cli l s) e) →
  hoare (rot_inv srv cli l) (mret e) (λ r s, ∃ e, r = Ok e ∧ ended_as (λ srv cli l, rot_inv srv cli l s) e).
Proof. intros H. apply hoare_ret. eauto. Qed.

(** Writing the node's files, the CA file is the new one. *)
Lemma WriteNodePEMs_ca ca cert key caPEM certPEM keyPEM u d d' :
  WriteNodePEMs ca cert key caPEM certPEM keyPEM d = (Ok u, d') → ca ≠ cert → ca ≠ key → files d' !! ca = Some caPEM.
Proof.
  intros Hrun Hcert Hkey. revert Hrun.
  assert (∀ p v, ca ≠ p → preserves (λ d, files d !! ca = Some caPEM) (WriteFileAtomic p v)) as Hkeep.
  { intros p v Hp d1 r1 d2 Hd. unfold WriteFileAtomic, mbind, st_bind, nextOutcome. simpl.
    destruct (default FsOk _); intros [= <- <-]; simpl; [|done|]; by rw lookup_insert_ne. }
  unfold WriteNodePEMs, mbind at 1, st_bind at 1. destruct (WriteFileAtomic ca caPEM d) as [[[]|e] d1] eqn:H1; [|done].
  assert (files d1 !! ca = Some caPEM) as Hd1.
  { revert H1. unfold WriteFileAtomic, mbind, st_bind, nextOutcome. simpl.
    destruct (default FsOk _); try done. intros [= <-]. simpl. by rw lookup_insert_eq. }
  unfold mbind, st_bind. destruct (WriteFileAtomic cert certPEM d1) as [[[]|e] d2] eqn:H2; [|done].
  apply (Hkeep cert certPEM Hcert) in H2; [|done]. destruct keyPEM as [k|]; [|by intros [= _ <-]].
  case_bool_decide; [|by intros [= _ <-]]. intros H3. by eapply (Hkeep key k Hkey).
Qed.

Lemma inv_install pool st cert key :
  stage_ok → (∀ p, p ∈ installed → stage_or installed p) →
  let '(ownCertFile, ownKeyFile) := NodeCertPaths (dirOf (nCAPath n0)) (nID n0) in
  hoare (rot_inv (withRoots pool <$> srv0) (withRoots pool <$> cli0) installed)
    (disk' (WriteNodePEMs (nCAPath n0) ownCertFile ownKeyFile (stNewCA st) cert (Some key)))
    (λ r s, rot_inv (withRoots pool <$> srv0) (withRoots pool <$> cli0) installed s ∧
            (r = Ok () → files (nDisk (rNode s)) !! nCAPath n0 = Some (stNewCA st))).
Proof.
  intros Hok Hin s r s' HI Hrun. split.
  { eapply inv_disk; [|exact HI|exact Hrun].
    apply keeps_WriteNodePEMs; intros; apply Hin; unfold installed; simpl; set_solver. }
  intros ->. revert Hrun. unfold disk', onNode, on_disk.
  match goal with |- context [WriteNodePEMs ?a ?b ?c ?d ?e ?f ?g] => destruct (WriteNodePEMs a b c d e f g) as [r1 d1] eqn:Hw end.
  intros [= -> <-]. simpl. eapply WriteNodePEMs_ca; [exact Hw|apply (so_cert Hok)|apply (so_own_key Hok)].
Qed.

(** ** The staged files *)

Lemma joinPath_inj dir name name' : joinPath dir name = joinPath dir name' → name = name'.
Proof. unfold joinPath. rw -!str_app_assoc. apply str_app_inj_l. Qed.

Lemma stage_distinct :
  stage_ok → joinPath stageDir "ca.crt" ≠ joinPath stageDir "ca.key" ∧
    joinPath stageDir "ca.crt" ≠ (NodeCertPaths stageDir (nID n0)).1 ∧
    joinPath stageDir "ca.crt" ≠ (NodeCertPaths stageDir (nID n0)).2.
Proof.
  intros Hok. split_and!; simpl; intros Heq%joinPath_inj; [done|..].
  - apply (so_id Hok). symmetry. by apply (str_app_inj_r "ca" (nID n0) ".crt").
  - revert Heq. generalize (nID n0). intros x. do 6 (destruct x as [|? x]; [done|]). intros [=]. by destruct x.
Qed.

Lemma saveCertAndKey_ok certPath keyPath cert k u d d' :
  saveCertAndKey certPath keyPath cert k d = (Ok u, d') → certPath ≠ keyPath → files d' !! certPath = Some (PemCert cert).
Proof.
  intros Hrun Hne. revert Hrun. unfold saveCertAndKey, WriteFile, mbind, st_bind, nextOutcome. simpl.
  destruct (default FsOk _); try done. simpl. destruct (default FsOk _); try done. intros [= _ <-]. simpl.
  by rw lookup_insert_ne // lookup_insert_eq.
Qed.

(** A successful staging read the node's old CA and the new one. *)
Lemma stageRotation_reads :
  stage_ok →
  hoare (rot_inv srv0 cli0 []) (stageRotation now addYears stageDir caPriv ownPriv)
    (λ r s, rot_inv srv0 cli0 [] s ∧ ∀ st, r = Ok st → ∃ old, fs0 !! nCAPath n0 = Some old ∧ stOldCA st = old ∧
                                       stNewCA st = PemCert (ca_cert now addYears caPriv)).
Proof.
  intros Hok s r s' HI Hrun. split; [by eapply inv_stageRotation|]. intros st ->.
  destruct (stage_distinct Hok) as (Hkey & Hcert & Hown). revert Hrun. unfold stageRotation.
  rw bind_node (ro_id _ _ _ _ HI) (ro_ca _ _ _ _ HI). unfold CACertPaths. rw (so_key Hok).
  destruct (NodeCertPaths stageDir (nID n0)) as [own ownKey] eqn:Hpaths. cbn [fst snd] in Hcert, Hown.
  unfold mbind, st_bind, disk', onNode, on_disk.
  destruct (rotateCA _ _ _ _ _) as [[[]|e] d1] eqn:H1; [|done]. simpl.
  destruct (IssueNodeCertificate _ _ _ _ _ _ d1) as [[[]|e] d2] eqn:H2; [|done]. simpl.
  destruct (ReadCAPEM _ d2) as [[new|e] d3] eqn:H3; [|done]. simpl.
  destruct (ReadCAPEM _ d3) as [[old|e] d4] eqn:H4; [|done]. intros [= <- _]. simpl.
  apply ReadFile_ok in H3 as [Hnew Hd3], H4 as [Hold _]. rw Hd3 in Hold.
  assert (files d1 !! joinPath stageDir "ca.crt" = Some (PemCert (ca_cert now addYears caPriv))) as Hca.
  { revert H1. unfold rotateCA, CACertPaths. rw generateCA_run (so_key Hok). intros H1. by eapply saveCertAndKey_ok. }
  assert (files_like d1 (λ p, p = own ∨ p = ownKey) d2) as [Hd2 _].
  { eapply keeps_Issue; [| |by split|exact H2]; rw Hpaths; auto. }
  exists old. split_and!; [|done|].
  - assert (files_like d0 (stage_or []) d2) as [Hd0 _].
    { eapply keeps_Issue; [| | |exact H2]; rw ?Hpaths. 3: eapply keeps_rotateCA; [| |apply (ro_files _ _ _ _ HI)|exact H1].
      all: simpl; rw ?(so_key Hok); try apply joinPath_stage. all: injection Hpaths as <- <-; apply joinPath_stage. }
    rw -Hd0 //. intros [Hst|?%elem_of_nil]; [|done]. by destruct (so_new Hok _ Hst).
  - rewrite ->Hd2, Hca in Hnew; [congruence|]. by intros [?|?].
Qed.

(** A system call around which the invariant holds, for a larger set of files. *)
Lemma inv_try {A B} srv cli l l' (m : ST disk A) (k : res A → ST (RotState W) B) Q :
  (∀ p, p ∈ l → p ∈ l') → preserves (files_like d0 (stage_or l')) m →
  (∀ v, hoare (rot_inv srv cli l') (k v) Q) → hoare (rot_inv srv cli l) (attempt (disk' m) ≫= k) Q.
Proof.
  intros Hl Hm Hk. eapply hoare_pre; [|intros s; by apply rot_inv_mono].
  eapply hoare_try; [apply inv_disk, Hm|exact Hk].
Qed.

Lemma inv_seq {A} srv cli l (m : ST (RotState W) unit) (k : ST (RotState W) A) P Q :
  hoare (rot_inv srv cli l) m (λ r s, r = Ok () ∧ P s) → hoare P k Q →
  hoare (rot_inv srv cli l) (m ≫= λ _, k) Q.
Proof.
  intros Hm Hk. eapply hoare_bind; [exact Hm| |by intros e s [? _]]. intros []. by eapply hoare_pre; [|intros s [_ ?]].
Qed.

Lemma commit_ends pool st :
  stage_ok → both_cas pool → stNewCA st = PemCert (ca_cert now addYears caPriv) →
  hoare (rot_inv (withRoots pool <$> srv0) (withRoots pool <$> cli0) []) (commitRotation st srv0 cli0)
    (λ r s, ∃ e, r = Ok e ∧ ended_as (λ srv cli l, rot_inv srv cli l s) e).
Proof.
  intros Hok Hpool Hnew s r s' HI. unfold commitRotation. rw bind_node (ro_id _ _ _ _ HI) (ro_ca _ _ _ _ HI).
  revert s r s' HI. match goal with |- ∀ s r s', _ → ?m s = _ → ?Q => change (hoare (rot_inv (withRoots pool <$> srv0) (withRoots pool <$> cli0) []) m (λ r s', ∃ e, r = Ok e ∧ ended_as (λ srv cli l, rot_inv srv cli l s') e)) end.
  pose proof (λ l, keeps_ReadFile d0 (stage_or l)) as Hread.
  assert (∀ p l, p ∈ l → stage_or l p) as Hin by (intros; by right).
  assert (∀ p : string, p ∈ [] → p ∈ installed) as Hnil by (by intros p ?%elem_of_nil).
  assert (∀ p : string, p ∈ [CAKeyPath (nCAPath n0)] → p ∈ installed) as Hone.
  { intros p ->%list_elem_of_singleton. unfold installed. simpl. by left. }
  eapply (hoare_try _ _ _ (λ _, rot_inv (withRoots pool <$> srv0) (withRoots pool <$> cli0) [])).
  { solve_preserves; apply inv_disk, Hread. }
  intros [[[caKey ownCert] ownKey]|e]; [|apply inv_ret; simpl; eauto].
  eapply (inv_try _ _ [] []); [done|apply Hread|]. intros oldKey.
  eapply (inv_try _ _ [] [CAKeyPath (nCAPath n0)]);
    [by intros p ?%elem_of_nil|apply keeps_WriteFileAtomic, Hin; by left|].
  intros [[]|e].
  2: { eapply inv_seq; [apply inv_rollback|]. apply inv_ret. done. }
  eapply hoare_try.
  { eapply hoare_pre; [|intros s; by apply rot_inv_mono]. apply inv_install; [done|]. intros p Hp. by apply Hin. }
  intros [[]|e]; cbn beta.
  - eapply hoare_try; [eapply hoare_pre; [apply inv_reload|]; intros s [HI Hca]; split; [exact HI|by apply Hca]|].
    rw Hnew. intros [[]|e]; apply hoare_ret; intros s H; eexists; (split; [done|]); simpl; eauto.
  - eapply hoare_pre; [|intros s [HI _]; exact HI]. eapply inv_seq.
    { instantiate (1 := rot_inv (withRoots pool <$> srv0) (withRoots pool <$> cli0) installed).
      destruct oldKey as [k|]; [|by apply hoare_ret].
      eapply (inv_try _ _ _ installed); [done|apply keeps_WriteFileAtomic, Hin; unfold installed; simpl; set_solver|].
      intros v. by apply hoare_ret. }
    eapply inv_seq; [apply inv_rollback|]. by apply inv_ret.
Qed.

Lemma inv_transitional pool l :
  hoare (rot_inv srv0 cli0 l)
    (onNode (modify (set_material (withRoots pool <$> srv0) (withRoots pool <$> cli0))))
    (λ r s, r = Ok () ∧ rot_inv (withRoots pool <$> srv0) (withRoots pool <$> cli0) l s).
Proof. intros s r s' [? ? ? ? ?]. unfold onNode, modify. intros [= <- <-]. split; [done|]. by split. Qed.

Lemma callRotate_ok (fn : string → ST (RotState W) unit) p s : ∃ v s1, callRotate fn p s = (Ok v, s1).
Proof.
  unfold callRotate, mbind, st_bind, attempt. destruct (fn p s) as [[[]|e] s1]; [by do 2 eexists|].
  destruct (errors_Is e ErrPeerSkipped); by do 2 eexists.
Qed.

Lemma pushAll_ok (fn : string → ST (RotState W) unit) self peers s : ∃ failed, (pushAll fn self peers s).1 = Ok failed.
Proof.
  revert s. induction peers as [|p peers IH]; intros s; simpl; [by eexists|]. case_bool_decide; [apply IH|].
  destruct (callRotate_ok fn p s) as (v & s1 & Hc). unfold mbind, st_bind. rw Hc.
  destruct (IH s1) as [failed Hf]. destruct (pushAll fn self peers s1) as [r2 s2]. simpl in Hf. rw Hf. by eexists.
Qed.

Lemma rotateIn_ends :
  stage_ok →
  hoare (rot_inv srv0 cli0 []) (rotateIn now addYears visit stageDir caPriv ownPriv)
    (λ r s, ∃ e, r = Ok e ∧ ended_as (λ srv cli l, rot_inv srv cli l s) e).
Proof.
  intros Hok. unfold rotateIn. eapply hoare_try; [by apply stageRotation_reads|].
  intros [st|e]; [|by eapply hoare_pre; [apply inv_ret|intros s [HI _]]].
  apply hoare_pure. intros Hst. destruct (Hst st eq_refl) as (old & Hold & HoldSt & Hnew).
  intros s r s' HI. rw bind_node (ro_id _ _ _ _ HI) (ro_srv _ _ _ _ HI) (ro_cli _ _ _ _ HI).
  set (pool := certsOfPEM (stOldCA st) ++ certsOfPEM (stNewCA st)).
  assert (both_cas pool) as Hpool by (exists old; split; [done|]; unfold pool; by rw HoldSt Hnew).
  set (order := visit _). clearbody order. revert s r s' HI.
  match goal with |- ∀ s r s', _ → ?m s = _ → _ =>
    change (hoare (rot_inv srv0 cli0 []) m (λ r s', ∃ e, r = Ok e ∧ ended_as (λ srv cli l, rot_inv srv cli l s') e)) end.
  eapply inv_seq; [apply inv_transitional|].
  set (fn := resignAndPush _ _ _ _ _).
  eapply (hoare_bind _ _ _ (λ r s, (∃ failed, r = Ok failed) ∧ rot_inv (withRoots pool <$> srv0) (withRoots pool <$> cli0) [] s)).
  - intros s r s' HI Hrun. split; [|eapply inv_pushAll; [|exact HI|exact Hrun]; intros; apply inv_resignAndPush].
    destruct (pushAll_ok fn (nID n0) order s) as [failed Hf]. exists failed. by rw Hrun in Hf.
  - intros failed. apply hoare_fact. intros _. case_bool_decide; [|by apply commit_ends].
    eapply inv_seq; [apply inv_rollback|]. by apply inv_ret.
  - by intros e s [[failed ?] _].
Qed.

(** The node as a rotation leaves it.  What was staged is gone, unless the last
    system call, which was to remove it, failed. *)
Record left_as (n : Node) (srv cli : option tlsMaterial) (l : list string) : Prop := {
  la_srv : serverMaterial n = srv;
  la_cli : clientMaterial n = cli;
  la_files p : ¬ in_stage p → p ∉ l → files (nDisk n) !! p = fs0 !! p;
  la_stage p : in_stage p →
    files (nDisk n) !! p = None ∨ ∃ used o, script d0 = used ++ o :: script (nDisk n) ∧ o ≠ FsOk }.

Lemma removeStage_left srv cli l s :
  rot_inv srv cli l s → left_as (rNode (removeStage kept stageDir s).2) srv cli l.
Proof.
  intros [? ? ? ? [Hf [used Hs]]]. unfold removeStage, mbind, st_bind. split; simpl; [done..| |].
  - intros p Hst Hp. rw map_lookup_filter Hf; [|by intros [?|?]]. destruct (fs0 !! p); simpl; [|done].
    rw option_guard_True //. unfold in_stage in Hst. by destruct (HasPrefix _ _).
  - intros p Hst. rw map_lookup_filter. destruct (script (nDisk (rNode s))) as [|o os] eqn:Hsc; simpl.
    + left. destruct (files _ !! p); simpl; [|done]. rw option_guard_False //. by rw Hst.
    + assert (o = FsOk ∨ o ≠ FsOk) as [->|Ho] by (by destruct o; [left|right..]); [|right; by exists used, o].
      left. destruct (files _ !! p); simpl; [|done]. rw option_guard_False //. by rw Hst.
Qed.

Lemma inv_left s srv cli l :
  stage_ok → files (nDisk (rNode s)) = fs0 → rot_inv srv cli l s → left_as (rNode s) srv cli l.
Proof.
  intros Hok Hfs [? ? ? ? _]. split; [done..|by rw Hfs|]. intros p Hp. left. rw Hfs. by apply (so_new Hok).
Qed.

(** C34: in a new staging directory, for a node whose own files are not the
    CA's, and whatever system calls and pushes fail, a rotation returns; what it staged is gone unless the final removal itself
    failed; and it leaves the node in one of these ways: as it was, when it
    could not stage the new CA or a push failed; with the old material in
    memory and files replaced, when they could not all be written; with the
    roots of the old CA file and the new CA trusted, when staged files could
    not be read back or the new ones not loaded; or with a key pair loaded from
    the new files and the new CA as the only root. *)
Theorem rotation_outcomes ended w r s' :
  stage_ok →
  RotateCAAndResignPeers now addYears visit ended stageDir caPriv ownPriv kept {| rNode := n0; rNet := w |} = (r, s') →
  ∃ e, r = Ok e ∧ ended_as (left_as (rNode s')) e.
Proof.
  intros Hok. set (s := {| rNode := n0; rNet := w |}).
  assert (rot_inv srv0 cli0 [] s) as HI by (split; try done; by split).
  unfold RotateCAAndResignPeers. destruct ended; [intros [= <- <-]; eexists; split; [done|]; by apply inv_left|].
  rw bind_node. unfold mbind, st_bind, attempt. destruct (disk' (Stat (CAKeyPath (nCAPath (rNode s)))) s) as [v s1] eqn:Hstat.
  assert (files (nDisk (rNode s1)) = fs0) as Hfs.
  { revert Hstat. unfold disk', onNode, on_disk, Stat, ReadFile, nextOutcome, mbind, st_bind, gets. simpl.
    destruct (default FsOk _); simpl; [|by intros [= _ <-]..]. destruct (_ !! _); by intros [= _ <-]. }
  assert (rot_inv srv0 cli0 [] s1) as HI1.
  { eapply (inv_disk srv0 cli0 [] (Stat _)); [|exact HI|exact Hstat].
    pose proof (keeps_ReadFile d0 (stage_or [])). unfold Stat. solve_preserves. }
  destruct v as [[]|e]; [|intros [= <- <-]; eexists; split; [done|]; by apply inv_left].
  destruct (disk' nextOutcome s1) as [o s2] eqn:Hmk.
  assert (rot_inv srv0 cli0 [] s2) as HI2.
  { eapply (inv_disk srv0 cli0 [] nextOutcome); [|exact HI1|exact Hmk]. apply keeps_nextOutcome. }
  assert (files (nDisk (rNode s2)) = fs0 ∧ ∃ v, o = Ok v) as (Hfs2 & v & ->).
  { revert Hmk. unfold disk', onNode, on_disk, nextOutcome. intros [= <- <-]. by split; [|eexists]. }
  destruct v; [|intros [= <- <-]; eexists; split; [done|]; by apply inv_left..].
  unfold deferred. destruct (rotateIn _ _ _ _ _ _ s2) as [r3 s3] eqn:Hrun. intros Hend.
  destruct (rotateIn_ends Hok _ _ _ HI2 Hrun) as (e & -> & He). exists e.
  assert (r = Ok e ∧ s' = (removeStage kept stageDir s3).2) as [-> ->] by (by injection Hend as <- <-).
  split; [done|]. eapply ended_as_mono; [|exact He]. intros. by apply removeStage_left.
Qed.
End ends.

(** ** Who may push certificates *)

Section authorised.
Context {DB : Type} `{!Bolt DB} `{!BoltLaws DB}.
Variable parseURL : string → option PeerURL.
Variable statCAKey : bool.
Variable cfg : peerConfig.

(** C12: after any run of peer requests, restarts and answers to its own
    announcements, a node changes its certificates only for a sender that was
    its sponsor before the run, or that such an answer named as one. *)
Theorem rotation_push_vouched es s0 tls body n code n' :
  Forall event_ok es →
  nPeers n = (run_events (Cert := Certificate) (DB := DB) parseURL statCAKey cfg es s0).1 →
  HandleClusterRotate tls body n = (code, n') →
  (code ≠ 200%Z ∧ n' = n) ∨
  ∃ cn, PeerCNFromTLS tls = Some cn ∧ (marked s0 cn ∨ vouched es cn).
Proof.
  intros Hes Hpr. unfold HandleClusterRotate. destruct (PeerCNFromTLS tls) as [cn|]; [|intros [= <- <-]; by left].
  destruct (GetPeerRecord (nPeers n) cn) as [rec|] eqn:Hrec; [|intros [= <- <-]; by left].
  destruct (IsSponsor rec) eqn:Hsp; simpl; [|intros [= <- <-]; by left].
  intros _. right. exists cn. split; [done|]. apply (sponsor_origin parseURL statCAKey cfg es s0 cn Hes).
  left. exists rec. by rw -Hpr.
Qed.
End authorised.

(** ** Witnesses *)

Lemma ex_no_stage p : in_stage "/tmp/stage" p → files (nDisk ex_hub) !! p = None.
Proof.
  intros Hp. assert (map_Forall (λ q _, HasPrefix q "/tmp/stage/" = false) (files (nDisk ex_hub))) as Hall.
  { apply (bool_decide_unpack _). vm_compute. done. }
  destruct (files (nDisk ex_hub) !! p) as [v|] eqn:Hv; [|done].
  specialize (Hall p v Hv). change (HasPrefix p "/tmp/stage/" = true) in Hp. cbn beta in Hall. congruence.
Qed.

Lemma ex_stage_ok n : files (nDisk n) = files (nDisk ex_hub) → nCAPath n = nCAPath ex_hub → nID n = "hub" → stage_ok "/tmp/stage" n.
Proof.
  intros Hf Hca Hid. split; rw ?Hf ?Hca ?Hid; try by vm_compute.
  intros p Hp. split; [by apply ex_no_stage|]. intros ->. by vm_compute in Hp.
Qed.

(** The hub with a disk whose 23rd call fails, in the reload of its files, and
    the 24th, the removal of the staged ones. *)
Definition ex_unlucky : Node :=
  with_disk {| files := files (nDisk ex_hub); script := replicate 22 FsOk ++ [FsFail; FsFail; FsOk] |} ex_hub.

Lemma rotation_outcomes_witness :
  ∃ r s', ex_rotate ex_unlucky [] = (r, s') ∧ r = Ok (ReloadFailed (EWrap "failed to load rotated TLS certs" (EWrap "error loading CA cert" sysErr))) ∧
    is_Some (files (nDisk (rNode s')) !! "/tmp/stage/ca.key") ∧
    ∃ e, r = Ok e ∧ ended_as 0 ex_years ex_unlucky 11 (left_as "/tmp/stage" ex_unlucky (rNode s')) e.
Proof.
  exists (ex_rotate ex_unlucky []).1, (ex_rotate ex_unlucky []).2.
  split; [apply surjective_pairing|]. split; [vm_compute; reflexivity|]. split; [by eexists; vm_compute|].
  apply (rotation_outcomes (RotateNet0 := cluster_net 0) 0 ex_years id "/tmp/stage" ex_unlucky 11 12 (λ _, true) false (ex_world [])).
  - by apply ex_stage_ok.
  - apply surjective_pairing.
Defined.

(** A peer that learned its sponsor from the answer to its announcement. *)
Definition ex_events : list (peerEvent (Cert := Certificate)) := [EvTopology [("hub", ex_addr "hub" true)]].

Definition ex_cfg : peerConfig := {| CfgID := "ann"; CfgAddress := "https://ann:8443"; CfgCAPath := "/ann/ca.crt"; CfgIsSponsor := false |}.

Definition ex_learner : Node :=
  set_registry (λ _, (run_events (DB := memdb) (λ _, None) false ex_cfg ex_events (NewPeerRegistry "ann", memdb_init)).1) (ex_peer "ann" 3).

Lemma rotation_push_vouched_witness :
  let tls := Some [("hub", leaf_cert 0 ex_years "hub" 2 1)] in
  let payload := {| RotCACert := PemCert (ca_cert 0 ex_years 11); RotNodeCert := PemCert (leaf_cert 0 ex_years "ann" 3 11) |} in
  let out := HandleClusterRotate tls (Some payload) ex_learner in
  out.1 = 200%Z ∧
  ((out.1 ≠ 200%Z ∧ out.2 = ex_learner) ∨
   ∃ cn, PeerCNFromTLS tls = Some cn ∧ (marked (NewPeerRegistry "ann" (Cert := Certificate), memdb_init) cn ∨ vouched ex_events cn)).
Proof.
  intros tls payload out. split; [vm_compute; reflexivity|].
  apply (rotation_push_vouched (DB := memdb) (λ _, None) false ex_cfg ex_events (NewPeerRegistry "ann", memdb_init) tls (Some payload) ex_learner).
  - by repeat constructor.
  - reflexivity.
  - apply surjective_pairing.
Defined.
