(* ===== verification/RotationComplete.v ===== *)
(** * Complete rotations

    A rotation that all peers take leaves a cluster whose nodes accept each
    other and nobody else. *)
From Stdlib Require Import Ascii String.
From S2P Require Import Prelude GoStrings Json Protocol Bolt PeerRegistry RegistryLaws Relay Quic Router SmartToken NetAddr.
From S2P Require Import PeerHandlers PeerHandlersLaws Certs Rotation RotationWorld RotationLaws.
Local Open Scope stdpp_scope.

(** ** A complete rotation *)

Section completes.
Variable now : time.
Variable addYears : Z → time → time.
Hypothesis addYears_later : ∀ y, (0 ≤ y → now ≤ addYears y now)%Z.

(** A peer that can take a push of the node with the material [cli]: its key is
    [k], its disk works, both accept each other, and it knows the node as a
    sponsor. *)
Record ready_peer (cli : tlsMaterial) (p : string) (k : key) (n : Node) : Prop := {
  rp_id : nID n = p;
  rp_quiet : script (nDisk n) = [];
  rp_key : files (nDisk n) !! (NodeCertPaths (dirOf (nCAPath n)) p).2 = Some (PemKey k);
  rp_paths : NoDup [nCAPath n; (NodeCertPaths (dirOf (nCAPath n)) p).1; (NodeCertPaths (dirOf (nCAPath n)) p).2];
  rp_reach : ∃ srv, serverMaterial n = Some srv ∧ CommonName (Subject (matCert srv)) = p ∧ mutualTLS now cli srv = true;
  rp_sponsor : sponsor (nPeers n) (CommonName (Subject (matCert cli))) }.

Definition node_renewed (caPriv : key) (n : Node) (p : string) (k : key) : Prop :=
  serverMaterial n = Some (renewed now addYears caPriv p k) ∧ clientMaterial n = Some (renewed now addYears caPriv p k).

Definition rotate_payload (caPriv : key) (p : string) (k : key) : RotateTLSPayload :=
  {| RotCACert := PemCert (ca_cert now addYears caPriv); RotNodeCert := PemCert (leaf_cert now addYears p k caPriv) |}.

Lemma guard_registered self pr path cn c rec :
  routeAuth path = authMTLS → cn ≠ "" → GetPeerRecord pr cn = Some rec →
  guardVerdict self pr path (Some [(cn, c)] : @tlsState Certificate) = inr (Some cn).
Proof.
  intros Hr Hcn Hrec. unfold guardVerdict. rw Hr. simpl. rw bool_decide_eq_false_2 //. simpl.
  rw bool_decide_eq_false_2 //. by rw Hrec.
Qed.

Lemma handle_rotate_quiet cn c caPriv p k n rec :
  cn ≠ "" → GetPeerRecord (nPeers n) cn = Some rec → IsSponsor rec = true →
  nID n = p → script (nDisk n) = [] →
  files (nDisk n) !! (NodeCertPaths (dirOf (nCAPath n)) p).2 = Some (PemKey k) →
  NoDup [nCAPath n; (NodeCertPaths (dirOf (nCAPath n)) p).1; (NodeCertPaths (dirOf (nCAPath n)) p).2] →
  ∃ n', HandleClusterRotate (Some [(cn, c)]) (Some (rotate_payload caPriv p k)) n = (200%Z, n') ∧
    node_renewed caPriv n' p k.
Proof.
  intros Hcn Hrec Hsp <- Hq Hk Hnd. destruct n as [id ca sp [fs scr] srv cli pr]; simpl in *. subst scr.
  set (cp := joinPath (dirOf ca) (id +:+ ".crt")) in *. set (kp := joinPath (dirOf ca) (id +:+ ".key")) in *.
  apply NoDup_cons in Hnd as [Hca [Hcp _]%NoDup_cons].
  apply not_elem_of_cons in Hca as [Hac [Hak _]%not_elem_of_cons]. apply not_elem_of_cons in Hcp as [Hck _].
  unfold HandleClusterRotate. simpl. rw bool_decide_eq_false_2 // Hrec Hsp /=.
  unfold on_disk, ResolveNodeCertPaths, Stat, attempt, mbind, st_bind. simpl. fold (quiet fs).
  rw (ReadFile_quiet _ _ _ Hk) /=. unfold mbind, st_bind. simpl.
  unfold ReloadTLSConfig, on_disk, wrapErr, mbind, st_bind. simpl. fold (quiet (<[cp := PemCert (leaf_cert now addYears id k caPriv)]> (<[ca := PemCert (ca_cert now addYears caPriv)]> fs))).
  rw (LoadNodeTLS_quiet _ _ _ _ (ca_cert now addYears caPriv) (leaf_cert now addYears id k caPriv) k);
    [|by rw lookup_insert_ne // lookup_insert_eq|by rw lookup_insert_eq|by rw !lookup_insert_ne|done].
  eexists. split; [done|]. done.
Qed.

Lemma serve_rotate_ready cli caPriv p k n :
  CommonName (Subject (matCert cli)) ≠ "" → ready_peer cli p k n →
  ∃ n', serveRotate (Some [(CommonName (Subject (matCert cli)), matCert cli)]) (Some (rotate_payload caPriv p k)) n = (200%Z, n') ∧
    node_renewed caPriv n' p k.
Proof.
  intros Hcn [Hid Hq Hk Hnd _ (rec & Hrec & Hsp)]. unfold serveRotate.
  rw (guard_registered _ _ _ _ _ rec) //.
  eapply handle_rotate_quiet with (rec := rec); try done.
  unfold set_registry, SetPeerOnline, SetPeerCertificate. cbn [nPeers negb].
  rw GetPeerRecord_update //. by rw GetPeerRecord_update.
Qed.

Lemma push_ready cli caPriv p k n w :
  CommonName (Subject (matCert cli)) ≠ "" → links w = [] → nodes w !! p = Some n → ready_peer cli p k n →
  ∀ roots, (∀ r, r ∈ matRoots cli → r ∈ roots) →
  ∃ n', clusterRotate now p (rotate_payload caPriv p k) (Some (withRoots roots cli)) w =
      (Ok (), {| nodes := <[p := n']> (nodes w); links := [] |}) ∧ node_renewed caPriv n' p k.
Proof.
  intros Hcn Hl Hn Hready roots Hroots. destruct (serve_rotate_ready cli caPriv p k n Hcn Hready) as (n' & Hrun & Hnew).
  destruct (rp_reach _ _ _ _ Hready) as (srv & Hsrv & Hp & [Hto Hfrom]%andb_true_iff).
  exists n'. split; [|done]. unfold clusterRotate. rw Hl. cbn [head tail from_option nodes links id]. rw Hn Hsrv.
  rw bool_decide_eq_false_2; [|intros Hne; by apply Hne].
  assert (mutualTLS now (withRoots roots cli) srv = true) as ->.
  { unfold mutualTLS. simpl. rw Hfrom andb_true_r. by eapply verify_more_roots. }
  cbn [negb orb withRoots matCert]. by rw Hrun.
Qed.
(** The public key a node has seen of a peer. *)
Definition cert_key (pr : PeerRegistry Certificate) (p : string) (k : key) : Prop :=
  ∃ cert, GetPeerCertificate pr p = Some cert ∧ PublicKey cert = Some k.

Lemma cert_key_online pr q p k : cert_key (SetPeerOnline q true pr) p k ↔ cert_key pr p k.
Proof.
  unfold cert_key, GetPeerCertificate, SetPeerOnline, updateState, stateLocked. cbn [negb peers with_peers].
  rw lookup_insert. destruct (decide (q = p)) as [->|]; [|done]. by destruct (peers pr !! p).
Qed.

Abbreviation resign := (resignAndPush (RotateNet0 := cluster_net now) now addYears).

Lemma disk_run {A} (m : ST disk A) (s : RotState Cluster) r d' :
  m (nDisk (rNode s)) = (r, d') → disk' m s = (r, {| rNode := with_disk d' (rNode s); rNet := rNet s |}).
Proof. intros Hm. unfold disk', onNode, on_disk. by rw Hm. Qed.

Lemma with_disk_same n : with_disk (nDisk n) n = n.
Proof. by destruct n. Qed.

Lemma resign_ready cli caPriv stCA stKey pool fs p k n s :
  nDisk (rNode s) = quiet fs → fs !! stCA = Some (PemCert (ca_cert now addYears caPriv)) →
  fs !! stKey = Some (PemKey caPriv) →
  clientMaterial (rNode s) = Some (withRoots pool cli) → (∀ r, r ∈ matRoots cli → r ∈ pool) →
  CommonName (Subject (matCert cli)) ≠ "" → links (rNet s) = [] →
  cert_key (nPeers (rNode s)) p k → nodes (rNet s) !! p = Some n → ready_peer cli p k n →
  ∃ n', resign stCA stKey (PemCert (ca_cert now addYears caPriv)) p s =
      (Ok (), {| rNode := rNode s; rNet := {| nodes := <[p := n']> (nodes (rNet s)); links := [] |} |}) ∧
    node_renewed caPriv n' p k.
Proof.
  intros Hd Hca Hkey Hcli Hpool Hcn Hl (cert & Hcert & Hpk) Hn Hready.
  destruct (push_ready cli caPriv p k n (rNet s) Hcn Hl Hn Hready pool Hpool) as (n' & Hpush & Hnew).
  exists n'. split; [|done]. unfold resignAndPush, mbind, st_bind.
  unfold onNode at 1, gets. rw Hcert. destruct s as [nd w]. cbn [rNode rNet] in *.
  assert (ReSignPeerCertificate now addYears (PublicKey cert) p stCA stKey (nDisk nd) =
          (Ok (PemCert (leaf_cert now addYears p k caPriv)), nDisk nd)) as Hsign.
  { rw Hd. unfold ReSignPeerCertificate, mbind, st_bind. rw (loadCertAndKey_quiet _ _ _ _ _ Hca Hkey) Hpk.
    cbn [fst snd]. by rw signLeaf_run. }
  rw (disk_run _ {| rNode := nd; rNet := w |} _ _ Hsign). cbn [rNode rNet]. rw with_disk_same.
  unfold push. cbn [rNode rNet net_rotate cluster_net]. rw Hcli.
  unfold rotate_payload in Hpush. by rw Hpush.
Qed.

Lemma pushAll_cons {W} (fn : string → ST (RotState W) unit) self p peers s s1 s2 failed :
  p ≠ self → callRotate fn p s = (Ok (Ok ()), s1) → pushAll fn self peers s1 = (Ok failed, s2) →
  pushAll fn self (p :: peers) s = (Ok failed, s2).
Proof.
  intros Hp Hc Hr. simpl. rw bool_decide_eq_false_2 //. unfold mbind, st_bind. by rw Hc Hr.
Qed.

Lemma pushAll_ready cli caPriv stCA stKey pool fs self (keyOf : string → key) peers s :
  NoDup peers → self ∉ peers →
  nDisk (rNode s) = quiet fs → fs !! stCA = Some (PemCert (ca_cert now addYears caPriv)) →
  fs !! stKey = Some (PemKey caPriv) →
  clientMaterial (rNode s) = Some (withRoots pool cli) → (∀ r, r ∈ matRoots cli → r ∈ pool) →
  CommonName (Subject (matCert cli)) ≠ "" → links (rNet s) = [] →
  (∀ p, p ∈ peers → cert_key (nPeers (rNode s)) p (keyOf p) ∧
     ∃ n, nodes (rNet s) !! p = Some n ∧ ready_peer cli p (keyOf p) n) →
  ∃ f w, pushAll (resign stCA stKey (PemCert (ca_cert now addYears caPriv))) self peers s =
      (Ok [], {| rNode := set_registry f (rNode s); rNet := w |}) ∧
    (∀ p, p ∈ peers → ∃ n, nodes w !! p = Some n ∧ node_renewed caPriv n p (keyOf p)) ∧
    (∀ q, q ∉ peers → nodes w !! q = nodes (rNet s) !! q).
Proof.
  revert s. induction peers as [|p peers IH]; intros s.
  { intros. exists id, (rNet s). destruct s as [[] w]. split_and!; [done|by intros ? ?%elem_of_nil|done]. }
  intros [Hp Hnd]%NoDup_cons [Hself Hself']%not_elem_of_cons Hd Hca Hkey Hcli Hpool Hcn Hl Hall.
  destruct (Hall p) as (Hck & n & Hn & Hready); [by left|].
  destruct (resign_ready cli caPriv stCA stKey pool fs p (keyOf p) n s) as (n' & Hrun & Hnew); [done..|].
  set (s1 := {| rNode := set_registry (SetPeerOnline p true) (rNode s); rNet := {| nodes := <[p:=n']> (nodes (rNet s)); links := [] |} |}).
  destruct (IH s1) as (f & w & Hrest & Hpeers & Hothers); try done.
  { intros q Hq. destruct (Hall q) as (Hqk & nq & Hnq & Hqready); [by right|]. split.
    - unfold s1. cbn [rNode nPeers set_registry]. by apply cert_key_online.
    - exists nq. split; [|done]. unfold s1. cbn [rNet nodes]. rw lookup_insert_ne //. by intros ->. }
  exists (λ pr, f (SetPeerOnline p true pr)), w. split_and!.
  - eapply pushAll_cons; [done| |exact Hrest]. unfold callRotate, attempt, mbind, st_bind. by rw Hrun.
  - intros q [->|Hq]%elem_of_cons; [|by apply Hpeers]. exists n'. split; [|done].
    rw Hothers //. unfold s1. cbn [rNet nodes]. by rw lookup_insert_eq.
  - intros q [Hqp Hq]%not_elem_of_cons. rw Hothers //. unfold s1. cbn [rNet nodes]. by rw lookup_insert_ne.
Qed.
(** The state with these files, and no faults to come. *)
Definition on_files (fs : gmap string pem) (s : RotState Cluster) : RotState Cluster :=
  {| rNode := with_disk (quiet fs) (rNode s); rNet := rNet s |}.

Lemma on_files_same fs s : nDisk (rNode s) = quiet fs → on_files fs s = s.
Proof. destruct s as [[] w]. unfold on_files. simpl. by intros ->. Qed.

Lemma disk_quiet {A} (m : ST disk A) fs fs' r s :
  nDisk (rNode s) = quiet fs → m (quiet fs) = (r, quiet fs') → disk' m s = (r, on_files fs' s).
Proof. intros Hd Hm. apply disk_run. by rw Hd. Qed.

Definition stage_paths (stageDir id : string) : list string :=
  [(CACertPaths stageDir).1; (CACertPaths stageDir).2; (NodeCertPaths stageDir id).1; (NodeCertPaths stageDir id).2].

(** The staged files. *)
Definition staged_files (stageDir id : string) (caPriv ownPriv : key) (fs : gmap string pem) : gmap string pem :=
  <[(NodeCertPaths stageDir id).2 := PemKey ownPriv]>
    (<[(NodeCertPaths stageDir id).1 := PemCert (leaf_cert now addYears id ownPriv caPriv)]>
       (<[(CACertPaths stageDir).2 := PemKey caPriv]>
          (<[(CACertPaths stageDir).1 := PemCert (ca_cert now addYears caPriv)]> fs))).

Lemma stageRotation_quiet stageDir caPriv ownPriv fs oldCA s :
  let id := nID (rNode s) in
  let fs' := staged_files stageDir id caPriv ownPriv fs in
  nDisk (rNode s) = quiet fs → NoDup (stage_paths stageDir id) → fs' !! nCAPath (rNode s) = Some (PemCert oldCA) →
  stageRotation now addYears stageDir caPriv ownPriv s =
    (Ok {| stCAPath := (CACertPaths stageDir).1; stCAKeyPath := (CACertPaths stageDir).2;
           stOwnCert := (NodeCertPaths stageDir id).1; stOwnKey := (NodeCertPaths stageDir id).2;
           stNewCA := PemCert (ca_cert now addYears caPriv); stOldCA := PemCert oldCA |}, on_files fs' s).
Proof.
  intros id fs' Hd Hnd Hold. unfold stageRotation. rw bind_node.
  unfold stage_paths in Hnd. destruct (CACertPaths stageDir) as [sca skey] eqn:Hca.
  destruct (NodeCertPaths stageDir id) as [scert sown] eqn:Hown. cbn [fst snd] in *.
  apply NoDup_cons in Hnd as [H1 [H2 [H3 _]%NoDup_cons]%NoDup_cons].
  rw !not_elem_of_cons in H1 H2 H3. destruct H1 as (? & ? & ? & _), H2 as (? & ? & _), H3 as (? & _).
  set (fs1 := <[skey := PemKey caPriv]> (<[sca := PemCert (ca_cert now addYears caPriv)]> fs)).
  assert (rotateCA now addYears stageDir caPriv (quiet fs) = (Ok (), quiet fs1)) as Hrot.
  { unfold rotateCA. by rw Hca generateCA_run. }
  assert (IssueNodeCertificate now addYears stageDir stageDir id ownPriv (quiet fs1) = (Ok (), quiet fs')) as Hissue.
  { unfold IssueNodeCertificate. rw Hca Hown. unfold wrapErr, mbind, st_bind.
    rw (loadCertAndKey_quiet fs1 sca skey (ca_cert now addYears caPriv) caPriv);
      [|by unfold fs1; rw lookup_insert_ne // lookup_insert_eq|by unfold fs1; rw lookup_insert_eq].
    cbn [fst snd]. unfold generateNodeCert. rw signLeaf_run. subst fs'. unfold staged_files. by rw Hca Hown. }
  assert (fs' !! sca = Some (PemCert (ca_cert now addYears caPriv))) as Hnew.
  { subst fs'. unfold staged_files. rw Hca Hown. cbn [fst snd].
    do 3 (rw lookup_insert_ne; [|done]). by rw lookup_insert_eq. }
  fold id. rw Hown. unfold mbind, st_bind.
  rw (disk_quiet _ _ _ _ _ Hd Hrot) (disk_quiet _ fs1 _ _ (on_files fs1 s) eq_refl Hissue).
  rw (disk_quiet _ fs' fs' _ (on_files fs' (on_files fs1 s)) eq_refl (ReadFile_quiet _ _ _ Hnew)).
  rw (disk_quiet _ fs' fs' _ (on_files fs' (on_files fs' (on_files fs1 s))) eq_refl (ReadFile_quiet _ _ _ Hold)).
  done.
Qed.
Lemma read_quiet fs p v (s : RotState Cluster) :
  nDisk (rNode s) = quiet fs → fs !! p = Some v → disk' (ReadFile p) s = (Ok v, s).
Proof.
  intros Hd Hp. rw (disk_quiet _ _ _ _ _ Hd (ReadFile_quiet _ _ _ Hp)). by rw on_files_same.
Qed.

Lemma joinPath_not_empty dir name : joinPath dir name ≠ "".
Proof. unfold joinPath. by destruct dir. Qed.

Lemma commit_quiet st fs caPriv ownPriv oldS oldC (s : RotState Cluster) :
  let id := nID (rNode s) in
  nDisk (rNode s) = quiet fs → NoDup (installed (rNode s)) →
  fs !! stCAKeyPath st = Some (PemKey caPriv) →
  fs !! stOwnCert st = Some (PemCert (leaf_cert now addYears id ownPriv caPriv)) →
  fs !! stOwnKey st = Some (PemKey ownPriv) →
  stNewCA st = PemCert (ca_cert now addYears caPriv) →
  ∃ s', commitRotation st oldS oldC s = (Ok RotationDone, s') ∧ rNet s' = rNet s ∧
    node_renewed caPriv (rNode s') id ownPriv.
Proof.
  intros id Hd Hnd Hkey Hcert Hown Hnew. unfold commitRotation. rw bind_node. unfold installed in Hnd.
  fold id. fold id in Hnd.
  assert ((NodeCertPaths (dirOf (nCAPath (rNode s))) id).2 ≠ "") as Hne by apply joinPath_not_empty.
  destruct (NodeCertPaths (dirOf (nCAPath (rNode s))) id) as [oc ok]. simpl in Hne.
  set (ca := nCAPath (rNode s)) in *. set (ck := CAKeyPath ca) in *.
  apply NoDup_cons in Hnd as [H1 [H2 [H3 _]%NoDup_cons]%NoDup_cons].
  rw !not_elem_of_cons in H1 H2 H3. destruct H1 as (? & ? & ? & _), H2 as (? & ? & _), H3 as (? & _).
  unfold attempt, mbind, st_bind.
  rw (read_quiet _ _ _ _ Hd Hkey) (read_quiet _ _ _ _ Hd Hcert) (read_quiet _ _ _ _ Hd Hown).
  unfold mret, st_ret.
  assert (∃ v, disk' (ReadFile ck) s = (v, s)) as [v Hv].
  { unfold disk', onNode, on_disk. rw Hd. unfold ReadFile, mbind, st_bind, gets. simpl. fold (quiet fs). rw -Hd.
    destruct s as [[] w]; simpl in *. destruct (fs !! ck); by eexists. }
  rw Hv (disk_quiet _ _ _ _ _ Hd (WriteFileAtomic_quiet fs ck (PemKey caPriv))).
  set (leaf := leaf_cert now addYears id ownPriv caPriv).
  set (fs1 := <[ck := PemKey caPriv]> fs).
  set (fs2 := <[ok := PemKey ownPriv]> (<[oc := PemCert leaf]> (<[ca := PemCert (ca_cert now addYears caPriv)]> fs1))).
  assert (WriteNodePEMs ca oc ok (stNewCA st) (PemCert leaf) (Some (PemKey ownPriv)) (quiet fs1) = (Ok (), quiet fs2)) as Hw.
  { rw Hnew. unfold WriteNodePEMs, mbind, st_bind. rw !WriteFileAtomic_quiet. by rw bool_decide_eq_true_2. }
  rw (disk_quiet _ fs1 _ _ (on_files fs1 s) eq_refl Hw).
  assert (LoadNodeTLS ca oc ok (quiet fs2) = (Ok (renewed now addYears caPriv id ownPriv, renewed now addYears caPriv id ownPriv), quiet fs2)) as Hload.
  { apply LoadNodeTLS_quiet; unfold fs2; try done.
    - do 2 (rw lookup_insert_ne; [|done]). by rw lookup_insert_eq.
    - rw lookup_insert_ne; [|done]. by rw lookup_insert_eq.
    - by rw lookup_insert_eq. }
  unfold onNode, ReloadTLSConfig, wrapErr, on_disk, mbind, st_bind. cbn [rNode on_files with_disk nDisk]. rw Hload.
  by eexists.
Qed.
Lemma staged_lookup_ca stageDir id caPriv ownPriv fs :
  NoDup (stage_paths stageDir id) →
  staged_files stageDir id caPriv ownPriv fs !! (CACertPaths stageDir).1 = Some (PemCert (ca_cert now addYears caPriv)).
Proof.
  unfold stage_paths, staged_files. intros [H _]%NoDup_cons. rw !not_elem_of_cons in H. destruct H as (? & ? & ? & _).
  do 3 (rw lookup_insert_ne; [|done]). by rw lookup_insert_eq.
Qed.

Lemma staged_lookup_key stageDir id caPriv ownPriv fs :
  NoDup (stage_paths stageDir id) →
  staged_files stageDir id caPriv ownPriv fs !! (CACertPaths stageDir).2 = Some (PemKey caPriv).
Proof.
  unfold stage_paths, staged_files. intros [_ [H _]%NoDup_cons]%NoDup_cons. rw !not_elem_of_cons in H. destruct H as (? & ? & _).
  do 2 (rw lookup_insert_ne; [|done]). by rw lookup_insert_eq.
Qed.

Lemma staged_lookup_cert stageDir id caPriv ownPriv fs :
  NoDup (stage_paths stageDir id) →
  staged_files stageDir id caPriv ownPriv fs !! (NodeCertPaths stageDir id).1 =
    Some (PemCert (leaf_cert now addYears id ownPriv caPriv)).
Proof.
  unfold stage_paths, staged_files. intros [_ [_ [H _]%NoDup_cons]%NoDup_cons]%NoDup_cons.
  rw !not_elem_of_cons in H. destruct H as (? & _).
  rw lookup_insert_ne; [|done]. by rw lookup_insert_eq.
Qed.

Lemma bind_run {S A B} (m : ST S A) (f : A → ST S B) s a s1 : m s = (Ok a, s1) → (m ≫= f) s = f a s1.
Proof. intros Hm. unfold mbind, st_bind. by rw Hm. Qed.

Lemma attempt_run {S A} (m : ST S A) s r s1 : m s = (r, s1) → attempt m s = (Ok r, s1).
Proof. intros Hm. unfold attempt. by rw Hm. Qed.

(** The node that holds the CA key, ready to rotate: its disk works, it trusts
    the CA it holds, and the staged files and its own are different files. *)
Record authority (stageDir : string) (n : Node) (cli : tlsMaterial) (oldCA : Certificate) : Prop := {
  au_quiet : script (nDisk n) = [];
  au_cli : clientMaterial n = Some cli;
  au_name : CommonName (Subject (matCert cli)) ≠ "";
  au_roots r : r ∈ matRoots cli → r = oldCA;
  au_ca : files (nDisk n) !! nCAPath n = Some (PemCert oldCA);
  au_key : is_Some (files (nDisk n) !! CAKeyPath (nCAPath n));
  au_self : GetPeersCopy (nPeers n) !! nID n = None;
  au_paths : NoDup (stage_paths stageDir (nID n) ++ installed n) }.

(** A node of the cluster that [n] rotated, by name. *)
Definition member (n : Node) (s : RotState Cluster) (id : string) (m : Node) : Prop :=
  (id = nID n ∧ m = rNode s) ∨ (is_Some (GetPeersCopy (nPeers n) !! id) ∧ nodes (rNet s) !! id = Some m).

Lemma rotateIn_ready visit stageDir caPriv ownPriv n w cli oldCA (keyOf : string → key) :
  (∀ l, visit l ≡ₚ l) → authority stageDir n cli oldCA → links w = [] →
  (∀ p, is_Some (GetPeersCopy (nPeers n) !! p) →
     cert_key (nPeers n) p (keyOf p) ∧ ∃ m, nodes w !! p = Some m ∧ ready_peer cli p (keyOf p) m) →
  ∃ s', rotateIn (RotateNet0 := cluster_net now) now addYears visit stageDir caPriv ownPriv {| rNode := n; rNet := w |} =
      (Ok RotationDone, s') ∧ node_renewed caPriv (rNode s') (nID n) ownPriv ∧
    (∀ p, is_Some (GetPeersCopy (nPeers n) !! p) → ∃ m, nodes (rNet s') !! p = Some m ∧ node_renewed caPriv m p (keyOf p)).
Proof.
  intros Hvisit [Hq Hcli Hname Hroots Hca Hkey Hself Hnd] Hlinks Hpeers.
  destruct n as [id ca sp [fs scr] srv cli' pr]. simpl in Hq, Hcli, Hca, Hkey, Hself, Hpeers. subst scr cli'.
  set (n := {| nID := id |}) in *. set (s := {| rNode := n; rNet := w |}).
  set (fs' := staged_files stageDir id caPriv ownPriv fs).
  assert (NoDup (stage_paths stageDir id)) as Hst by (by apply NoDup_app in Hnd as [? _]).
  assert (NoDup (installed n)) as Hinst by (by apply NoDup_app in Hnd as (_ & _ & ?)).
  assert (ca ∉ stage_paths stageDir id) as Hca_out.
  { apply NoDup_app in Hnd as (_ & Hdisj & _). intros Hin. apply (Hdisj _ Hin). unfold installed.
    destruct (NodeCertPaths _ _). simpl. right. by left. }
  assert (fs' !! ca = Some (PemCert oldCA)) as Hold.
  { unfold fs', staged_files, stage_paths in *. rw !not_elem_of_cons in Hca_out. destruct Hca_out as (? & ? & ? & ? & _).
    do 4 (rw lookup_insert_ne; [|done]). done. }
  assert (stageRotation now addYears stageDir caPriv ownPriv s = _) as Hstage
    by (by apply (stageRotation_quiet stageDir caPriv ownPriv fs oldCA s)).
  apply attempt_run in Hstage. unfold rotateIn. rw (bind_run _ _ _ _ _ Hstage). clear Hstage.
  rw bind_node. cbn [stOldCA stNewCA stCAPath stCAKeyPath certsOfPEM app on_files rNode rNet nID nPeers with_disk serverMaterial clientMaterial].
  set (pool := [oldCA; ca_cert now addYears caPriv]).
  set (s1 := {| rNode := set_material (withRoots pool <$> srv) (Some (withRoots pool cli)) (with_disk (quiet fs') n); rNet := w |}).
  rw (bind_run _ _ _ () s1) //.
  assert (∀ p, p ∈ visit (sort_strings (map_to_list (GetPeersCopy pr)).*1) ↔ is_Some (GetPeersCopy pr !! p)) as Hin.
  { intros p. rw Hvisit sort_strings_perm list_elem_of_fmap. split.
    - intros ([q a] & -> & Hqa%elem_of_map_to_list). by exists a.
    - intros [a Ha]. exists (p, a). split; [done|]. by apply elem_of_map_to_list. }
  destruct (pushAll_ready cli caPriv (CACertPaths stageDir).1 (CACertPaths stageDir).2 pool fs' id keyOf
              (visit (sort_strings (map_to_list (GetPeersCopy pr)).*1)) s1) as (f & w2 & Hpush & Hdone & _); try done.
  { rw Hvisit sort_strings_perm. apply NoDup_fst_map_to_list. }
  { rw Hin Hself. by intros [? ?]. }
  { unfold fs'. by apply staged_lookup_ca. }
  { unfold fs'. by apply staged_lookup_key. }
  { intros r ->%Hroots. by left. }
  { intros p Hp%Hin. by apply Hpeers. }
  rw (bind_run _ _ _ _ _ Hpush). cbn [rNode s1]. rw bool_decide_eq_false_2; [|intros Hne; by apply Hne].
  destruct (commit_quiet {| stCAPath := (CACertPaths stageDir).1; stCAKeyPath := (CACertPaths stageDir).2;
    stOwnCert := (NodeCertPaths stageDir id).1; stOwnKey := (NodeCertPaths stageDir id).2;
    stNewCA := PemCert (ca_cert now addYears caPriv); stOldCA := PemCert oldCA |} fs' caPriv ownPriv srv (Some cli)
    {| rNode := set_registry f (rNode s1); rNet := w2 |}) as (s' & Hrun & Hnet & Hnew); try done.
  { unfold fs'. by apply staged_lookup_key. }
  { unfold fs'. by apply staged_lookup_cert. }
  { unfold fs', staged_files. simpl. by rw lookup_insert_eq. }
  exists s'. split_and!; [done|done|]. intros p Hp. rw Hnet. apply Hdone. by apply Hin.
Qed.
(** C10: when the CA key is there, disks and links work, and every registered peer is
    ready, a rotation completes: any two nodes of the cluster then accept each
    other's certificates, and none accepts a certificate that the new CA did
    not sign, such as that of a peer that left. *)
Theorem rotation_complete visit stageDir caPriv ownPriv kept n w cli oldCA (keyOf : string → key) r s' :
  (∀ l, visit l ≡ₚ l) → authority stageDir n cli oldCA → links w = [] →
  (∀ p, is_Some (GetPeersCopy (nPeers n) !! p) →
     cert_key (nPeers n) p (keyOf p) ∧ ∃ m, nodes w !! p = Some m ∧ ready_peer cli p (keyOf p) m) →
  RotateCAAndResignPeers (RotateNet0 := cluster_net now) now addYears visit false stageDir caPriv ownPriv kept
    {| rNode := n; rNet := w |} = (r, s') →
  r = Ok RotationDone ∧
  (∀ id m id' m', member n s' id m → member n s' id' m' →
     ∃ a b, clientMaterial m = Some a ∧ serverMaterial m' = Some b ∧ mutualTLS now a b = true ∧
            CommonName (Subject (matCert a)) = id ∧ CommonName (Subject (matCert b)) = id') ∧
  (∀ id m c, member n s' id m → SignatureBy c ≠ caPriv →
     ∃ a b, clientMaterial m = Some a ∧ serverMaterial m = Some b ∧
            verifyCert now (matRoots a) c = false ∧ verifyCert now (matRoots b) c = false).
Proof.
  intros Hvisit Hau Hlinks Hpeers Hrun.
  destruct (rotateIn_ready visit stageDir caPriv ownPriv n w cli oldCA keyOf Hvisit Hau Hlinks Hpeers)
    as (s1 & Hin & Hown & Hothers).
  assert (r = Ok RotationDone ∧ s' = (removeStage kept stageDir s1).2) as [-> ->].
  { revert Hrun. unfold RotateCAAndResignPeers. rw bind_node. destruct Hau as [Hq _ _ _ _ [key Hkey] _ _].
    destruct n as [id ca sp [fs scr] srv cli' pr]. simpl in Hq, Hkey. subst scr.
    set (s := {| rNode := _; rNet := w |}) in *.
    assert (disk' (Stat (CAKeyPath ca)) s = (Ok (), s)) as Hstat.
    { apply (disk_run (Stat (CAKeyPath ca)) s (Ok ()) (quiet fs)). unfold Stat, mbind, st_bind.
      by rw (ReadFile_quiet _ _ _ Hkey). }
    apply attempt_run in Hstat. simpl nCAPath. rw (bind_run _ _ _ _ _ Hstat).
    rw (bind_run _ _ _ FsOk s) //. unfold deferred. rw Hin. by intros [= <- <-]. }
  assert (∀ id m, member n (removeStage kept stageDir s1).2 id m → ∃ k, node_renewed caPriv m id k) as Hm.
  { intros id m [[-> ->]|[Hp Hnode]]; [by exists ownPriv|].
    destruct (Hothers _ Hp) as (m' & Hm' & Hnew). simpl in Hnode.
    assert (m = m') as -> by congruence. by exists (keyOf id). }
  split_and!; [done| |].
  - intros id m id' m' [k [_ Ha]]%Hm [k' [Hb _]]%Hm.
    exists (renewed now addYears caPriv id k), (renewed now addYears caPriv id' k'). by rw renewed_accept.
  - intros id m c [k [Hb Ha]]%Hm Hsig.
    exists (renewed now addYears caPriv id k), (renewed now addYears caPriv id k).
    split_and!; [done|done|by apply verify_foreign..].
Qed.
End completes.

(** ** Witness *)

Definition ex_key (p : string) : key := if bool_decide (p = "ann") then 3%N else 4%N.

Lemma ex_ready p k : p ∈ ["ann"; "bob"] → k = ex_key p → ready_peer 0 (renewed 0 ex_years 1 "hub" 2) p k (ex_peer p k).
Proof.
  assert (∀ q j, (q, j) ∈ [("ann", 3%N); ("bob", 4%N)] → ready_peer 0 (renewed 0 ex_years 1 "hub" 2) q j (ex_peer q j)) as H.
  { intros q j Hin. rw !elem_of_cons elem_of_nil in Hin. destruct Hin as [[= -> ->]|[[= -> ->]|[]]].
    - split; try (by vm_compute); [by apply (bool_decide_unpack _); vm_compute| |].
      + exists (renewed 0 ex_years 1 "ann" 3). by vm_compute.
      + exists (ex_addr "hub" true). by vm_compute.
    - split; try (by vm_compute); [by apply (bool_decide_unpack _); vm_compute| |].
      + exists (renewed 0 ex_years 1 "bob" 4). by vm_compute.
      + exists (ex_addr "hub" true). by vm_compute. }
  intros Hp ->. apply H. rw !elem_of_cons elem_of_nil in Hp; destruct Hp as [->|[->|[]]]; vm_compute; set_solver.
Qed.

Lemma ex_registered p : is_Some (GetPeersCopy (nPeers ex_hub) !! p) → p ∈ ["ann"; "bob"].
Proof.
  intros [a Ha]. assert (map_Forall (λ q _, q ∈ ["ann"; "bob"]) (GetPeersCopy (nPeers ex_hub))) as Hall.
  { apply (bool_decide_unpack _). vm_compute. done. }
  by apply (Hall p a).
Qed.

Lemma rotation_complete_witness :
  ∃ r s', ex_rotate ex_hub [] = (r, s') ∧ r = Ok RotationDone ∧
    (∀ id m id' m', member ex_hub s' id m → member ex_hub s' id' m' →
       ∃ a b, clientMaterial m = Some a ∧ serverMaterial m' = Some b ∧ mutualTLS 0 a b = true ∧
              CommonName (Subject (matCert a)) = id ∧ CommonName (Subject (matCert b)) = id') ∧
    (∀ id m c, member ex_hub s' id m → SignatureBy c ≠ 11%N →
       ∃ a b, clientMaterial m = Some a ∧ serverMaterial m = Some b ∧
              verifyCert 0 (matRoots a) c = false ∧ verifyCert 0 (matRoots b) c = false).
Proof.
  exists (ex_rotate ex_hub []).1, (ex_rotate ex_hub []).2. split; [apply surjective_pairing|].
  apply (rotation_complete 0 ex_years ex_years_later id "/tmp/stage" 11 12 (λ _, true) ex_hub (ex_world []) (renewed 0 ex_years 1 "hub" 2) ex_ca ex_key).
  - done.
  - split; try (by vm_compute); [|by eexists; vm_compute|by apply (bool_decide_unpack _); vm_compute].
    intros r Hr. by apply list_elem_of_singleton in Hr.
  - done.
  - intros p Hp%ex_registered. split.
    + rw !elem_of_cons elem_of_nil in Hp; destruct Hp as [->|[->|[]]]; eexists; by vm_compute.
    + exists (ex_peer p (ex_key p)). split; [|by apply ex_ready].
      rw !elem_of_cons elem_of_nil in Hp; destruct Hp as [->|[->|[]]]; by vm_compute.
  - apply surjective_pairing.
Defined.
