(* ===== verification/RotationRuns.v ===== *)
(** * Rotations that go wrong

    Three rotations of a small cluster that leave it worse than before: one
    push is lost, a relayed request preceded the rotation, a file cannot be
    written. *)
From Stdlib Require Import Ascii String.
From S2P Require Import Prelude GoStrings Json Protocol Bolt PeerRegistry RegistryLaws Relay Quic Router SmartToken NetAddr.
From S2P Require Import PeerHandlers PeerHandlersLaws Certs Rotation RotationWorld RotationLaws.
Local Open Scope stdpp_scope.

(** The push to one of two peers is lost.  The node goes back to its old
    certificates and files, as it should, but the other peer has already
    changed to the new CA: the two, who could talk before, reject each other
    from then on, in both directions, and so do the two peers. *)
Theorem partial_rotation_splits :
  let '(r, s) := ex_rotate ex_hub [LinkUp; LinkLost] in
  can_talk (Some ex_hub) (nodes (ex_world []) !! "ann") = true ∧
  can_talk (nodes (ex_world []) !! "bob") (nodes (ex_world []) !! "ann") = true ∧
  r = Ok (PushIncomplete ["bob"]) ∧
  can_reach (Some (rNode s)) (nodes (rNet s) !! "ann") = false ∧
  can_reach (nodes (rNet s) !! "ann") (Some (rNode s)) = false ∧
  can_reach (nodes (rNet s) !! "bob") (nodes (rNet s) !! "ann") = false ∧
  can_reach (nodes (rNet s) !! "ann") (nodes (rNet s) !! "bob") = false.
Proof. vm_compute. done. Qed.

(** The certificate a node makes up for the origin of a relayed request. *)
Definition bare_cert (cn : string) : Certificate :=
  {| Subject := {| CommonName := cn; Organization := [] |}; Issuer := {| CommonName := ""; Organization := [] |};
     PublicKey := None; SignatureBy := 0; IsCA := false; DNSNames := []; NotBefore := 0; NotAfter := 0 |}.

(** A relayed request of the peer, to a path any peer may ask for. *)
Definition ex_relayed : RelayRequest :=
  {| RlReqID := "r1"; RlTarget := "hub"; RlMethod := "GET"; RlPath := "/manifest"; RlHeaders := ∅; RlBody := "";
     RlOriginPeerID := "ann" |}.

Definition ex_after_relay : PeerRegistry Certificate :=
  (processRelayRequest (λ _ url, Some (TrimPrefix url "http://127.0.0.1")) id id bare_cert
     (λ _ pr, ({| TrStatus := 200; TrHeader := ∅; TrWrites := [] |}, pr)) "hub" ex_relayed ex_registry).2.

(** Serving one relayed request of a peer replaces the certificate the node has
    seen of it by one without a public key.  The next rotation, which works
    without that request, then cannot sign a new certificate for the peer and
    fails. *)
Theorem relayed_request_blocks_rotation :
  (ex_rotate ex_hub []).1 = Ok RotationDone ∧
  (ex_rotate (set_registry (λ _, ex_after_relay) ex_hub) []).1 = Ok (PushIncomplete ["ann"]).
Proof. vm_compute. done. Qed.

(** The hub with a disk on which the 21st call fails: the write of its own
    certificate. *)
Definition ex_faulty : Node :=
  with_disk {| files := files (nDisk ex_hub); script := replicate 20 FsOk ++ [FsFail] |} ex_hub.

Definition ex_csr : pem :=
  PemCSR {| CsrSubject := {| CommonName := "eve"; Organization := [] |}; CsrPublicKey := 7; CsrSignatureBy := 7 |}.

(** When the node's certificate cannot be written, the CA key is put back but
    the CA certificate is not: the two no longer belong together, and the
    node, which could sign certificates before, cannot any more. *)
Theorem failed_install_breaks_ca :
  let '(r, s) := ex_rotate ex_faulty [] in
  let fs := files (nDisk (rNode s)) in
  r = Ok (CertsNotPersisted sysErr) ∧
  fs !! "/hub/ca.crt" = Some (PemCert (ca_cert 0 ex_years 11)) ∧ fs !! "/hub/ca.key" = Some (PemKey 1) ∧
  is_ok (SignCSR 0 ex_years ex_csr "/hub/ca.crt" "/hub/ca.key" (nDisk ex_hub)).1 = true ∧
  is_ok (SignCSR 0 ex_years ex_csr "/hub/ca.crt" "/hub/ca.key" (quiet fs)).1 = false.
Proof. vm_compute. done. Qed.
