(* ===== verification/ClusterJoin.v ===== *)
(** * Joining, seen from the cluster

    [HandleClusterJoin] and [HandleGenerateInvite] of
    [internal/server/cluster_handlers.go] with [LocalInviteGenerate] of
    [local_api.go]: a node that presents the secret of an invitation and a
    signing request gets a certificate.  Joins run at the same time: a handler
    is cut at its calls of the invite manager and at its reads of the CA, and
    [join_step] interleaves any number of them with generated invitations,
    sweeps and restarts. *)
From Stdlib Require Import Ascii String.
From S2P Require Import Prelude GoStrings Json Protocol Bolt PeerRegistry Invites Relay Quic Router Sha256 Stun SmartToken NetAddr Join.
From S2P Require Import PeerHandlers Certs.
Local Open Scope stdpp_scope.

Definition inviteMinutes : Z := 15.
Definition minute : Z := 60 * 1000000000.

Section cluster_join.
Context {DB : Type} `{!Bolt DB}.
Variable addYears : Z → time → time.
(** [url.Parse], and the PEM text of a body. *)
Variable parseURL : string → option PeerURL.
Variable pemOf : string → pem.
Variable caPath : string.

Record JoinServer := { jsInvites : InviteManager DB; jsDisk : disk }.

Definition on_invites {A} (m : ST (InviteManager DB) A) : ST JoinServer A := λ s,
  let '(r, im) := m (jsInvites s) in (r, {| jsInvites := im; jsDisk := jsDisk s |}).
Definition on_files' {A} (m : ST disk A) : ST JoinServer A := λ s,
  let '(r, d) := m (jsDisk s) in (r, {| jsInvites := jsInvites s; jsDisk := d |}).

(** ** Invitations *)

Definition hasCAKey : ST JoinServer bool :=
  if bool_decide (caPath = "") then mret false
  else r ← attempt (on_files' (Stat (CAKeyPath caPath))); mret (is_ok r).

(** [token]: the token and the secret [GenerateSmartToken] returns.  A
    [time.Duration] has 64 bits. *)
Definition LocalInviteGenerate (now : time) (token : res (string * string)) (validForMinutes : Z)
    : ST JoinServer (string * time) :=
  authority ← hasCAKey;
  if negb authority then fail (ESentinel ErrNotCAAuthority)
  else
    let validForMinutes := if (validForMinutes <=? 0)%Z then inviteMinutes else validForMinutes in
    t ← of_res token;
    let expiration := (now + wrap64 (validForMinutes * minute))%Z in
    on_invites (Invite_Add (snd t) expiration);;
    mret (fst t, expiration).

Definition HandleGenerateInvite (now : time) (token : res (string * string)) (body : option Z)
    : ST JoinServer (Z * option (string * time)) :=
  authority ← hasCAKey;
  if negb authority then mret (403%Z, None)
  else match body with
  | None => mret (400%Z, None)
  | Some minutes =>
      let minutes := if (minutes <=? 0)%Z then inviteMinutes else minutes in
      r ← attempt (LocalInviteGenerate now token minutes);
      mret (match r with
            | Ok answer => (201%Z, Some answer)
            | Err e => if errors_Is e ErrNotCAAuthority then (403%Z, None) else (500%Z, None)
            end)
  end.

(** ** Joins *)

(** A join under way, and how it was answered: a certificate with that of the
    CA. *)
Inductive join_pc :=
  | JStart (body : option JoinRequest)
  | JAdmitted (req : JoinRequest)
  | JConsumed (req : JoinRequest) (expiration : time)
  | JSigned (req : JoinRequest) (expiration : time) (cert : pem)
  | JRestore (req : JoinRequest) (expiration : time)
  | JAnswered (req : JoinRequest) (cert ca : pem)
  | JRefused (code : Z).

(** The checks that need no secret. *)
Definition admitJoin (req : JoinRequest) : option Z :=
  if bool_decide (JAddress req = "") then Some 400%Z
  else if match parseURL (JAddress req) with Some u => bool_decide (Host u = "") | None => true end then Some 400%Z
  else if bool_decide (JID req = "") then Some 400%Z
  else match CSRCommonName (pemOf (JCSR req)) with
  | Err _ => Some 400%Z
  | Ok csrCN => if bool_decide (csrCN ≠ JID req) then Some 400%Z else None
  end.

(** The next step of [HandleClusterJoin] at the time [now]. *)
Definition joinNext (now : time) (pc : join_pc) : ST JoinServer join_pc :=
  match pc with
  | JStart None => mret (JRefused 400)
  | JStart (Some req) =>
      im ← gets jsInvites;
      match Invite_Check now (JSecret req) im with
      | None => mret (JRefused 401)
      | Some _ => mret (match admitJoin req with Some code => JRefused code | None => JAdmitted req end)
      end
  | JAdmitted req =>
      r ← attempt (on_invites (CheckAndConsume now (JSecret req)));
      mret (match r with
            | Err _ => JRefused 500
            | Ok None => JRefused 401
            | Ok (Some expiration) => JConsumed req expiration
            end)
  | JConsumed req expiration =>
      r ← attempt (on_files' (SignCSR now addYears (pemOf (JCSR req)) caPath (CAKeyPath caPath)));
      mret (match r with Err _ => JRestore req expiration | Ok cert => JSigned req expiration cert end)
  | JSigned req expiration cert =>
      r ← attempt (on_files' (ReadCAPEM caPath));
      mret (match r with Err _ => JRestore req expiration | Ok ca => JAnswered req cert ca end)
  | JRestore req expiration =>
      attempt (on_invites (Invite_Add (JSecret req) expiration));;
      mret (JRefused 500)
  | JAnswered _ _ _ | JRefused _ => mret pc
  end.

(** ** The system *)

(** The server, the joins it has begun, and the secrets it gave out. *)
Record join_sys := { jServer : JoinServer; joins : list join_pc; minted : list string }.

Definition ended_join (pc : join_pc) : join_pc :=
  match pc with JAnswered _ _ _ => pc | _ => JRefused 0 end.

Inductive join_step : join_sys → join_sys → Prop :=
  | js_request body sys :
      join_step sys {| jServer := jServer sys; joins := joins sys ++ [JStart body]; minted := minted sys |}
  | js_next now i pc pc' srv' sys :
      joins sys !! i = Some pc → joinNext now pc (jServer sys) = (Ok pc', srv') →
      join_step sys {| jServer := srv'; joins := <[i := pc']> (joins sys); minted := minted sys |}
  | js_mint now token secret minutes r srv' sys :
      LocalInviteGenerate now (Ok (token, secret)) minutes (jServer sys) = (r, srv') →
      join_step sys {| jServer := srv'; joins := joins sys; minted := secret :: minted sys |}
  | js_sweep rangeOrder now sys :
      (∀ l, rangeOrder l ≡ₚ l) →
      join_step sys {| jServer := (on_invites (Invite_Sweep rangeOrder now) (jServer sys)).2;
                       joins := joins sys; minted := minted sys |}
  | js_restart rangeOrder now im d sys :
      (∀ l, rangeOrder l ≡ₚ l) → NewInviteManager rangeOrder now (inviteStore (jsInvites (jServer sys))) = (Ok im, d) →
      join_step sys {| jServer := {| jsInvites := im; jsDisk := jsDisk (jServer sys) |};
                       joins := ended_join <$> joins sys; minted := minted sys |}
  | js_disk d sys :
      join_step sys {| jServer := {| jsInvites := jsInvites (jServer sys); jsDisk := d |};
                       joins := joins sys; minted := minted sys |}.
End cluster_join.
