(* ===== verification/ClusterJoinLaws.v ===== *)
(** * Laws of joining

    However joins, invitations, sweeps and restarts interleave, an invitation
    buys at most one certificate, and a certificate that is given out carries
    the name the node joined under and the key it proved to have. *)
From Stdlib Require Import Ascii String.
From S2P Require Import Prelude GoStrings Json Protocol Bolt PeerRegistry Invites Relay Quic Router Sha256 Stun SmartToken NetAddr Join.
From S2P Require Import PeerHandlers Certs ClusterJoin.
Local Open Scope stdpp_scope.

Section laws.
Context {DB : Type} `{!Bolt DB} `{!BoltLaws DB}.
Variable addYears : Z → time → time.
Variable parseURL : string → option PeerURL.
Variable pemOf : string → pem.
Variable caPath : string.
Implicit Types (srv : JoinServer (DB := DB)) (sys : join_sys (DB := DB)) (pc : join_pc).

(** ** Counting *)

(** Whether a join holds the secret: it took it out and did not give it back. *)
Definition holds (secret : string) pc : nat :=
  match pc with
  | JConsumed req _ | JSigned req _ _ | JRestore req _ | JAnswered req _ _ => if bool_decide (JSecret req = secret) then 1 else 0
  | _ => 0
  end.

Definition answered (secret : string) pc : nat :=
  match pc with JAnswered req _ _ => if bool_decide (JSecret req = secret) then 1 else 0 | _ => 0 end.

Definition total (f : join_pc → nat) (l : list join_pc) : nat := sum_list_with f l.

Definition available (secret : string) srv : nat :=
  match stored (jsInvites srv) secret with Some _ => 1 | None => 0 end.

Definition minted_times (secret : string) (l : list string) : nat := length (filter (λ s, s = secret) l).

Lemma total_insert f l i pc pc' :
  l !! i = Some pc → (total f (<[i := pc']> l) + f pc = total f l + f pc')%nat.
Proof.
  unfold total. revert i. induction l as [|x l IH]; intros [|i]; simpl; [done..| |].
  - intros [= ->]. lia.
  - intros Hi. specialize (IH i Hi). lia.
Qed.

Lemma total_app f l l' : total f (l ++ l') = (total f l + total f l')%nat.
Proof. apply sum_list_with_app. Qed.

Lemma total_le f g l : (∀ pc, f pc ≤ g pc)%nat → (total f l ≤ total g l)%nat.
Proof. intros H. unfold total. induction l as [|x l IH]; simpl; [done|]. specialize (H x). lia. Qed.

Lemma total_ended secret l : (total (holds secret) (ended_join <$> l) ≤ total (holds secret) l)%nat.
Proof.
  unfold total. induction l as [|x l IH]; [done|]. rw fmap_cons /=.
  assert (holds secret (ended_join x) ≤ holds secret x)%nat by (destruct x; simpl; repeat case_bool_decide; lia).
  lia.
Qed.

(** ** The calls of the invite manager *)

Lemma on_invites_run {A} (m : ST (InviteManager DB) A) srv r srv' :
  on_invites m srv = (r, srv') → m (jsInvites srv) = (r, jsInvites srv').
Proof. unfold on_invites. destruct (m (jsInvites srv)). by intros [= <- <-]. Qed.

Lemma on_files_invites {A} (m : ST disk A) srv r srv' :
  on_files' m srv = (r, srv') → jsInvites srv' = jsInvites srv.
Proof. unfold on_files'. destruct (m (jsDisk srv)). by intros [= _ <-]. Qed.

Lemma available_effect im secret v im' s d d' :
  secret_effect im secret v im' →
  available s {| jsInvites := im'; jsDisk := d' |} =
  if decide (secret = s) then match v with Some _ => 1 | None => 0 end%nat else available s {| jsInvites := im; jsDisk := d |}.
Proof.
  intros Heff. unfold available. simpl. rw (se_stored _ _ _ _ Heff). destruct (decide _); [by destruct v|done].
Qed.

Lemma available_invites s srv srv' : jsInvites srv' = jsInvites srv → available s srv' = available s srv.
Proof. unfold available. by intros ->. Qed.

Lemma available_le s srv : (available s srv ≤ 1)%nat.
Proof. unfold available. destruct (stored _ _); lia. Qed.

(** ** What a certificate certifies *)

Definition certifies (req : JoinRequest) (cert : pem) : Prop :=
  ∃ c csr, cert = PemCert c ∧ pemOf (JCSR req) = PemCSR csr ∧ CommonName (Subject c) = JID req ∧
    PublicKey c = Some (CsrPublicKey csr) ∧ CsrSignatureBy csr = CsrPublicKey csr ∧ IsCA c = false.

Definition pc_ok pc : Prop :=
  match pc with
  | JAdmitted req | JConsumed req _ | JRestore req _ => admitJoin parseURL pemOf req = None
  | JSigned req _ cert => admitJoin parseURL pemOf req = None ∧ certifies req cert
  | JAnswered req cert _ => certifies req cert
  | _ => True
  end.

Lemma admitJoin_name req csr :
  admitJoin parseURL pemOf req = None → pemOf (JCSR req) = PemCSR csr → CommonName (CsrSubject csr) = JID req.
Proof.
  unfold admitJoin. intros Ha Hc. rw Hc in Ha. simpl in Ha. case_bool_decide; [done|].
  destruct (match parseURL _ with Some _ => _ | None => _ end); [done|]. case_bool_decide; [done|].
  by case_bool_decide.
Qed.

Lemma SignCSR_certifies now req certPath keyPath d cert d' :
  admitJoin parseURL pemOf req = None →
  SignCSR now addYears (pemOf (JCSR req)) certPath keyPath d = (Ok cert, d') → certifies req cert.
Proof.
  intros Ha. destruct (pemOf (JCSR req)) as [| |csr|] eqn:Hcsr; [done..| |done]. simpl.
  pose proof (admitJoin_name req csr Ha Hcsr) as Hname.
  destruct (CsrSignatureBy csr =? CsrPublicKey csr)%N eqn:Hsig; [|done]. simpl. apply N.eqb_eq in Hsig.
  unfold mbind, st_bind. destruct (loadCertAndKey _ _ _) as [[[ca k]|] d1]; [|done]. unfold of_res, signLeaf, CreateCertificate.
  destruct (match PublicKey ca with Some _ => _ | None => _ end); [done|]. intros [= <- <-].
  eexists _, csr. by split_and!.
Qed.
(** ** Steps *)

Abbreviation next := (joinNext addYears parseURL pemOf caPath).
Abbreviation step := (join_step addYears parseURL pemOf caPath).

(** A step of a join takes at most what was there. *)
Record fair_next srv pc srv' pc' : Prop := {
  fn_backed : invites_backed (jsInvites srv) → invites_backed (jsInvites srv');
  fn_ok : pc_ok pc → pc_ok pc';
  fn_count s : invites_backed (jsInvites srv) →
    (holds s pc' + available s srv' ≤ holds s pc + available s srv)%nat }.

Lemma fair_files srv pc srv' pc' :
  jsInvites srv' = jsInvites srv → (pc_ok pc → pc_ok pc') → (∀ s, holds s pc' ≤ holds s pc)%nat →
  fair_next srv pc srv' pc'.
Proof.
  intros Hi Hok Hh. split; [by rw Hi|done|]. intros s _. rw (available_invites s srv srv' Hi). specialize (Hh s). lia.
Qed.

Lemma next_fair now pc srv pc' srv' : next now pc srv = (Ok pc', srv') → fair_next srv pc srv' pc'.
Proof.
  destruct pc as [[req|]|req|req exp|req exp cert|req exp|req cert ca|code]; cbn [joinNext].
  - unfold mbind, st_bind, gets. destruct (Invite_Check _ _ _).
    + destruct (admitJoin _ _ req) eqn:Ha; intros [= <- <-]; by apply fair_files.
    + intros [= <- <-]. by apply fair_files.
  - intros [= <- <-]. by apply fair_files.
  - unfold mbind, st_bind, attempt. destruct (on_invites _ srv) as [r srv1] eqn:Hrun. apply on_invites_run in Hrun.
    apply consume_effect in Hrun as [[Hsame Hno]|(t & Ht & Heff & ->)].
    { destruct r as [[t|]|e]; [by destruct (Hno t)|..]; intros [= <- <-]; by apply fair_files. }
    intros [= <- <-]. split.
    + intros Hb. by eapply secret_effect_backed.
    + intros Ha. by destruct (now <? t)%Z.
    + intros s Hb. specialize (Hb _ _ Ht). destruct srv as [im d], srv1 as [im1 d1]. simpl in *.
      rw (available_effect _ _ _ _ s d d1 Heff).
      assert (holds s (if now <? t then JConsumed req t else JRefused 401)%Z ≤ if decide (JSecret req = s) then 1 else 0)%nat.
      { destruct (now <? t)%Z; simpl; [|lia]. case_bool_decide; destruct (decide _); done || lia. }
      destruct (decide (JSecret req = s)) as [<-|].
      * unfold available. simpl. rw Hb. destruct (now <? t)%Z; simpl in *; lia.
      * destruct (now <? t)%Z; simpl in *; lia.
  - unfold mbind, st_bind, attempt. destruct (on_files' _ srv) as [r srv1] eqn:Hrun.
    pose proof (on_files_invites _ _ _ _ Hrun) as Hi. destruct r as [cert|e]; intros [= <- <-]; apply fair_files; try done.
    intros Ha. split; [done|]. revert Hrun. unfold on_files'. destruct (SignCSR _ _ _ _ _ _) as [r1 d1] eqn:Hsign.
    intros [= -> _]. by eapply SignCSR_certifies.
  - unfold mbind, st_bind, attempt. destruct (on_files' _ srv) as [r srv1] eqn:Hrun.
    pose proof (on_files_invites _ _ _ _ Hrun) as Hi. destruct r as [ca|e]; intros [= <- <-]; apply fair_files; try done.
    + by intros [_ ?].
    + by intros [? _].
  - unfold mbind, st_bind, attempt. destruct (on_invites _ srv) as [r srv1] eqn:Hrun. apply on_invites_run in Hrun.
    intros [= <- <-]. apply add_effect in Hrun as [(e & _ & Hsame)|[_ Heff]].
    { apply fair_files; [done|done|]. intros s. simpl. lia. }
    split.
    + intros Hb. by eapply secret_effect_backed.
    + done.
    + intros s Hb. destruct srv as [im d], srv1 as [im1 d1]. simpl in *. rw (available_effect _ _ _ _ s d d1 Heff).
      case_bool_decide; destruct (decide _); done || lia.
  - intros [= <- <-]. by apply fair_files.
  - intros [= <- <-]. by apply fair_files.
Qed.
(** Every secret out of the store is held by one join, and was minted or
    there at the start. *)
Record join_inv srv0 sys : Prop := {
  ji_backed : invites_backed (jsInvites (jServer sys));
  ji_ok : Forall pc_ok (joins sys);
  ji_count s : (total (holds s) (joins sys) + available s (jServer sys) ≤
    minted_times s (minted sys) + available s srv0)%nat }.

Lemma generate_effect now token secret minutes srv r srv' :
  LocalInviteGenerate caPath now (Ok (token, secret)) minutes srv = (r, srv') →
  jsInvites srv' = jsInvites srv ∨ ∃ t, secret_effect (jsInvites srv) secret (Some t) (jsInvites srv').
Proof.
  unfold LocalInviteGenerate, mbind, st_bind. destruct (hasCAKey caPath srv) as [[authority|] srv1] eqn:Hkey.
  2: { revert Hkey. unfold hasCAKey. case_bool_decide; [done|]. unfold mbind, st_bind, attempt. by destruct (on_files' _ _). }
  assert (jsInvites srv1 = jsInvites srv) as Hi.
  { revert Hkey. unfold hasCAKey. case_bool_decide; [by intros [= _ <-]|]. unfold mbind, st_bind, attempt.
    destruct (on_files' _ srv) as [r1 srv2] eqn:Hf. intros [= _ <-]. by eapply on_files_invites. }
  destruct authority; simpl; [|intros [= _ <-]; by left].
  destruct (on_invites _ srv1) as [r1 srv2] eqn:Hadd. apply on_invites_run in Hadd. rw Hi in Hadd.
  apply add_effect in Hadd as [(e & -> & He)|[-> Heff]]; intros [= _ <-]; [left; congruence|right; eauto].
Qed.

Lemma join_step_inv srv0 sys sys' : step sys sys' → join_inv srv0 sys → join_inv srv0 sys'.
Proof.
  intros Hstep [Hb Hok Hc]. destruct Hstep as [body sys|now i pc pc' srv' sys Hi Hn|now token secret minutes r srv' sys Hg|
    rangeOrder now sys Hord|rangeOrder now im d sys Hord Hnew|d sys].
  - split; simpl; [done|by apply Forall_app; repeat constructor|]. intros s. rw total_app. simpl. specialize (Hc s). lia.
  - destruct (next_fair _ _ _ _ _ Hn) as [Hb' Hok' Hc']. split; simpl; [by apply Hb'| |].
    + apply Forall_insert; [done|]. apply Hok'. by eapply Forall_lookup_1.
    + intros s. specialize (Hc s). specialize (Hc' s Hb). pose proof (total_insert (holds s) _ i pc pc' Hi). lia.
  - split; simpl; [|done|].
    + apply generate_effect in Hg as [->|[t Heff]]; [done|]. by eapply secret_effect_backed.
    + intros s. specialize (Hc s). unfold minted_times in *. rw filter_cons.
      assert (available s srv' ≤ if decide (secret = s) then S (available s (jServer sys)) else available s (jServer sys))%nat.
      { apply generate_effect in Hg as [Hi|[t Heff]].
        - rw (available_invites s _ _ Hi). destruct (decide _); lia.
        - destruct (jServer sys) as [im0 d0], srv' as [im1 d1]. simpl in Heff. rw (available_effect _ _ _ _ s d0 d1 Heff).
          destruct (decide _); [|lia]. pose proof (available_le s {| jsInvites := im0; jsDisk := d0 |}). lia. }
      destruct (decide (secret = s)); simpl; lia.
  - unfold on_invites. destruct (Invite_Sweep rangeOrder now _) as [r im'] eqn:Hsw. apply Sweep_effect in Hsw; [|done].
    split; simpl; [by eapply swept_backed|done|]. intros s. specialize (Hc s).
    assert (available s {| jsInvites := im'; jsDisk := jsDisk (jServer sys) |} ≤ available s (jServer sys))%nat; [|lia].
    unfold available. simpl. destruct (stored im' s) as [v|] eqn:Hv; [|lia]. by rw (swept_stored _ _ _ _ _ Hsw Hv).
  - apply restart_effect in Hnew as [Hsub Him]; [|done]. destruct (Him im eq_refl) as [Hst Hback]. split; simpl; [done| |].
    + apply Forall_fmap. eapply Forall_impl; [exact Hok|]. intros pc. by destruct pc.
    + intros s. specialize (Hc s). pose proof (total_ended s (joins sys)).
      assert (available s {| jsInvites := im; jsDisk := jsDisk (jServer sys) |} ≤ available s (jServer sys))%nat; [|lia].
      unfold available, stored in *. simpl. rw Hst. destruct (bget d _ s) as [v|] eqn:Hv; [|lia]. by rw (Hsub _ _ Hv).
  - split; simpl; [done..|]. intros s. specialize (Hc s). by rw (available_invites s (jServer sys)).
Qed.

(** C13: in every run from a server without joins, the joins answered with a
    certificate for a secret are at most as many as the invitations with it,
    minted or pending at the start; and each certificate is a leaf that names
    the ID of its request, with the key that signed the request. *)
Theorem join_certificates srv0 sys :
  invites_backed (jsInvites srv0) → rtc step {| jServer := srv0; joins := []; minted := [] |} sys →
  (∀ s, total (answered s) (joins sys) ≤ minted_times s (minted sys) + available s srv0)%nat ∧
  (∀ req cert ca, JAnswered req cert ca ∈ joins sys → certifies req cert).
Proof.
  intros Hb Hrun. assert (join_inv srv0 sys) as [_ Hok Hc].
  { assert (join_inv srv0 {| jServer := srv0; joins := []; minted := [] |}) as H0 by (split; simpl; [done|constructor|done]).
    revert H0. induction Hrun as [|sys1 sys2 sys3 Hstep _ IH]; [done|]. intros H0. apply IH. by eapply join_step_inv. }
  split.
  - intros s. specialize (Hc s). pose proof (total_le (answered s) (holds s) (joins sys)) as Hle.
    assert (∀ pc, answered s pc ≤ holds s pc)%nat as Hp by (intros []; simpl; lia). specialize (Hle Hp). lia.
  - intros req cert ca Hin. by apply (proj1 (Forall_forall _ _) Hok) in Hin.
Qed.
End laws.

(** ** Witness: a join with a fresh invitation *)

Definition ex_join_years (y : Z) (t : time) : time := (t + y * 365 * day)%Z.
Definition ex_join_ca : Certificate :=
  {| Subject := caName; Issuer := caName; PublicKey := Some 1%N; SignatureBy := 1; IsCA := true; DNSNames := [];
     NotBefore := 0; NotAfter := ex_join_years 10 0 |}.
Definition ex_join_server : JoinServer (DB := memdb) :=
  {| jsInvites := no_invites;
     jsDisk := {| files := {[ "/c/ca.crt" := PemCert ex_join_ca; "/c/ca.key" := PemKey 1 ]}; script := [] |} |}.
Definition ex_join_pem (s : string) : pem :=
  PemCSR {| CsrSubject := {| CommonName := "ann"; Organization := [] |}; CsrPublicKey := 7; CsrSignatureBy := 7 |}.
Definition ex_join_url (s : string) : option PeerURL :=
  Some {| Scheme := "https"; Host := "ann:8443"; Hostname := "ann"; Port := "8443" |}.
Definition ex_join_request : JoinRequest := {| JSecret := "s"; JCSR := "csr"; JID := "ann"; JAddress := "https://ann:8443" |}.

Lemma join_certificates_witness :
  ∃ sys : join_sys (DB := memdb), total (answered "s") (joins sys) = 1%nat ∧
    (∀ s, total (answered s) (joins sys) ≤ minted_times s (minted sys) + available s ex_join_server)%nat ∧
    (∀ req cert ca, JAnswered req cert ca ∈ joins sys → certifies ex_join_pem req cert).
Proof.
  eexists. split; cycle 1.
  - apply (join_certificates ex_join_years ex_join_url ex_join_pem "/c/ca.crt" ex_join_server).
    + intros s t. simpl. by rw lookup_empty.
    + eapply rtc_l; [eapply (js_mint _ _ _ _ 0 "token" "s" 10); apply surjective_pairing|].
      eapply rtc_l; [apply (js_request _ _ _ _ (Some ex_join_request))|].
      eapply rtc_l; [eapply (js_next _ _ _ _ 1 0); [reflexivity|apply run_result; vm_compute; reflexivity]|].
      eapply rtc_l; [eapply (js_next _ _ _ _ 1 0); [reflexivity|apply run_result; vm_compute; reflexivity]|].
      eapply rtc_l; [eapply (js_next _ _ _ _ 1 0); [reflexivity|apply run_result; vm_compute; reflexivity]|].
      eapply rtc_l; [eapply (js_next _ _ _ _ 1 0); [reflexivity|apply run_result; vm_compute; reflexivity]|].
      apply rtc_refl.
  - vm_compute. reflexivity.
Defined.
