(* ===== verification/Services.v ===== *)
(** * The configuration of services

    [internal/compute/services_config.go]: the file [services.json] with the
    services of the node, the construction of a service from the arguments of
    the command line, its validation, and the table of handlers by type.

    The file is missing, a JSON map (null gives the nil map), or a text that
    does not decode; the outcomes of its system calls come from a script.  The
    locks make each operation one step.  A handler is named by its constructor
    and its argument; what it does is outside. *)
From Stdlib Require Import Ascii String.
From S2P Require Import Prelude GoStrings Json Protocol Bolt Payload.
Local Open Scope stdpp_scope.

Record LocalService := { LsType : string; LsExec : string; LsSchema : ServiceSchema }.

#[export] Instance LocalService_eq_dec : EqDecision LocalService.
Proof. solve_decision. Defined.

(** ** Handlers *)

Inductive builderKind := ScriptHandler | HTTPHandler | HTTPBidiHandler | HTTPServerStreamHandler | WebRTCHandler | ScreenHandler.

Record builtHandler := { HandlerKind : builderKind; HandlerExec : string }.

Definition built (kind : builderKind) (exec : string) : res builtHandler :=
  Ok {| HandlerKind := kind; HandlerExec := exec |}.

Definition isHTTPExec (exec : string) : bool := HasPrefix exec "http://" || HasPrefix exec "https://".

Definition requireHTTPExec (exec serviceType what : string) : option error :=
  if isHTTPExec exec then None else Some (EMsg (serviceType +:+ " requires http(s) " +:+ what)).

Definition buildStreamOrScript (exec : string) : res builtHandler :=
  if isHTTPExec exec then built HTTPBidiHandler exec else built ScriptHandler exec.

Section services.
(** Whether the build has WebRTC. *)
Variable webrtc : bool.

Definition buildWebRTCService (exec : string) : res builtHandler :=
  if negb webrtc then Err (EMsg "webrtc is not supported on this platform")
  else match requireHTTPExec exec "webrtc" "signaling URL" with
  | Some e => Err e
  | None => built WebRTCHandler exec
  end.

Definition serviceTypeBuilders (t : string) : option (string → res builtHandler) :=
  if bool_decide (t = "exec") then Some (built ScriptHandler)
  else if bool_decide (t = "script") then Some (built ScriptHandler)
  else if bool_decide (t = "http") then
    Some (λ exec, match requireHTTPExec exec "http" "webhook URL" with Some e => Err e | None => built HTTPHandler exec end)
  else if bool_decide (t = "http_bidi") then Some buildStreamOrScript
  else if bool_decide (t = "bidi") then Some buildStreamOrScript
  else if bool_decide (t = "server_stream") then
    Some (λ exec, match requireHTTPExec exec "server_stream" "exec URL" with
                  | Some e => Err e
                  | None => built HTTPServerStreamHandler exec
                  end)
  else if bool_decide (t = "webrtc") then Some buildWebRTCService
  else if bool_decide (t = "screen") then Some (built ScreenHandler)
  else None.

Definition BuildHandler (serviceType exec : string) : res builtHandler :=
  match serviceTypeBuilders (ServiceType_Normalize serviceType) with
  | None => Err (EMsg "unknown service type")
  | Some build => build exec
  end.

(** ** Validation *)

Definition normalizeAndValidateLocalService (name : string) (service : LocalService) : res LocalService :=
  if bool_decide (TrimSpace name = "") then Err (EMsg "service name is missing")
  else if bool_decide (SName (LsSchema service) ≠ "") && bool_decide (SName (LsSchema service) ≠ name)
  then Err (EMsg "service schema name does not match registration name")
  else
    let serviceType := if bool_decide (LsType service = "") then SType (LsSchema service) else LsType service in
    if bool_decide (serviceType = "") then Err (EMsg "service type is missing")
    else
      let serviceType := ServiceType_Normalize serviceType in
      let schemaType := ServiceType_Normalize (SType (LsSchema service)) in
      if bool_decide (schemaType ≠ "") && bool_decide (schemaType ≠ serviceType)
      then Err (EMsg "service schema type does not match handler type")
      else
        let service := {| LsType := serviceType; LsExec := LsExec service;
                          LsSchema := NormalizeServiceSchema name (LsSchema service) serviceType |} in
        if bool_decide (TrimSpace (LsExec service) = "") && bool_decide (serviceType ≠ "screen")
        then Err (EMsg "service requires a non-empty exec")
        else if bool_decide (serviceType = "screen") && bool_decide (LsExec service ≠ "") && bool_decide (LsExec service ≠ "fake")
        then Err (EMsg "screen source not supported (use fake)")
        else match BuildHandler serviceType (LsExec service) with
        | Err e => Err (EWrap "invalid service handler" e)
        | Ok _ => Ok service
        end.

(** ** Services from arguments *)

(** The files named on the command line, decoded as a schema or as a service. *)
Variable readSchemaFile : string → res ServiceSchema.
Variable readServiceFile : string → res LocalService.

Definition withExec (exec : string) (s : LocalService) : LocalService :=
  {| LsType := LsType s; LsExec := exec; LsSchema := LsSchema s |}.
Definition withType (t : string) (s : LocalService) : LocalService :=
  {| LsType := t; LsExec := LsExec s; LsSchema := LsSchema s |}.
Definition withName (name : string) (s : ServiceSchema) : ServiceSchema :=
  {| SName := name; SType := SType s; SDescription := SDescription s; SParameters := SParameters s;
     SOutputs := SOutputs s; SUI := SUI s |}.

Definition noRequiredSet (noRequired : string) : gset string :=
  if bool_decide (noRequired = "") then ∅ else list_to_set (TrimSpace <$> splitOn ","%char noRequired).

(** One parameter, [name:type], its name with a question mark when it is
    optional. *)
Definition parseParam (noReq : gset string) (p : string) : res (string * ServiceParameter) :=
  match splitOn ":"%char p with
  | rawName :: rawType :: _ =>
      let paramName := TrimSpace rawName in
      let paramType := TrimSpace rawType in
      let optional := HasSuffix paramName "?" in
      let isRequired := negb optional && negb (bool_decide (paramName ∈ noReq)) in
      let paramName := if optional then TrimSuffix paramName "?" else paramName in
      Ok (paramName, {| PType := paramType; PRequired := isRequired; PDefault := ""; POptions := [];
                        PUIHint := InferUIHint paramName paramType |})
  | _ => Err (EMsg "invalid parameter format. Use name:type")
  end.

Fixpoint parseParams (noReq : gset string) (ps : list string) (acc : gmap string ServiceParameter)
    : res (gmap string ServiceParameter) :=
  match ps with
  | [] => Ok acc
  | p :: rest =>
      match parseParam noReq p with
      | Err e => Err e
      | Ok (paramName, param) => parseParams noReq rest (<[paramName := param]> acc)
      end
  end.

Definition validated (serviceName : string) (service : LocalService) : res (string * LocalService) :=
  match normalizeAndValidateLocalService serviceName service with
  | Err e => Err e
  | Ok s => Ok (serviceName, s)
  end.

(** A service described by a file: the schema given apart, or the whole. *)
Definition serviceFromFile (name serviceType exec schemaFile : string) : res (string * LocalService) :=
  let read :=
    if bool_decide (schemaFile ≠ "") then
      match readSchemaFile schemaFile with
      | Err e => Err (EWrap "couldn't read service file" e)
      | Ok schema => Ok (name, {| LsType := ""; LsExec := ""; LsSchema := withName name schema |})
      end
    else match readServiceFile name with
    | Err e => Err (EWrap "couldn't read service file" e)
    | Ok s => Ok (SName (LsSchema s), s)
    end in
  match read with
  | Err e => Err e
  | Ok (serviceName, service) =>
      if bool_decide (serviceName = "") then Err (EMsg "service name is missing in JSON schema")
      else
        let service := if bool_decide (exec ≠ "") then withExec exec service else service in
        let service := if bool_decide (LsType service = "") then withType serviceType service else service in
        validated serviceName service
  end.

Definition BuildLocalServiceFromArgs (name serviceType exec desc param noRequired schemaFile : string)
    : res (string * LocalService) :=
  let serviceType := if bool_decide (serviceType = "") then "exec" else serviceType in
  if HasSuffix name ".json" || bool_decide (schemaFile ≠ "") then serviceFromFile name serviceType exec schemaFile
  else
    let params := if bool_decide (param = "") then Ok ∅
                  else parseParams (noRequiredSet noRequired) (splitOn ","%char param) ∅ in
    match params with
    | Err e => Err e
    | Ok parameters =>
        let t := ServiceType_Normalize serviceType in
        validated name
          {| LsType := t; LsExec := exec;
             LsSchema := {| SName := name; SType := t; SDescription := desc; SParameters := Some parameters;
                            SOutputs := None; SUI := None |} |}
    end.

(** ** The file *)

Record servicesFile := {
  svcContent : option (json (gomap LocalService));
  svcScript : list outcome }.

Abbreviation SF := (ST servicesFile).

Definition svcOutcome : SF outcome := λ f,
  (Ok (default FsOk (head (svcScript f))), {| svcContent := svcContent f; svcScript := tail (svcScript f) |}).

Definition svcErr : error := EMsg "services file".

(** The advisory lock around an operation. *)
Definition withServicesFile {A} (fn : SF A) : SF A :=
  o ← svcOutcome;
  match o with FsOk => fn | _ => fail svcErr end.

Definition loadServicesMap : SF (gomap LocalService) :=
  o ← svcOutcome;
  match o with
  | FsOk =>
      content ← gets svcContent;
      match content with
      | None => mret (Some ∅)
      | Some (JDoc services) => mret services
      | Some (JCorrupt _) => fail svcErr
      end
  | _ => fail svcErr
  end.

(** [utils.WriteJSONFile] replaces the file as a whole. *)
Definition saveServicesMap (services : gomap LocalService) : SF unit :=
  o ← svcOutcome;
  let write := modify (λ f, {| svcContent := Some (JDoc services); svcScript := svcScript f |}) in
  match o with
  | FsOk => write
  | FsFail => fail svcErr
  | FsLate => write;; fail svcErr
  end.

Definition LoadServicesMap : SF (gomap LocalService) := withServicesFile loadServicesMap.

Definition SaveServicesMap (services : gomap LocalService) : SF unit := withServicesFile (saveServicesMap services).

(** A write to the nil map is a panic. *)
Definition UpsertLocalService (serviceName : string) (service : LocalService) : SF unit :=
  match normalizeAndValidateLocalService serviceName service with
  | Err e => fail e
  | Ok normalized =>
      withServicesFile (
        services ← loadServicesMap;
        match services with
        | None => fail (EPanic "assignment to entry in nil map")
        | Some m => saveServicesMap (Some (<[serviceName := normalized]> m))
        end)
  end.

Definition DeleteLocalService (name : string) : SF unit :=
  withServicesFile (
    services ← loadServicesMap;
    match gomap_get services name with
    | None => fail (EMsg "service not found")
    | Some _ => saveServicesMap (delete name <$> services)
    end).
End services.
