(* ===== verification/OutboxMutations.v ===== *)
(** * Mutations that announce themselves

    Laws of [prepareOutboxMutation] and [finish] of [internal/server/outbox.go]
    on a working database: staging leaves one current entry for every other
    peer, and reconciling replaces every one of them by what is true now, or
    retracts it when there is nothing to tell. *)
From Stdlib Require Import Ascii String.
From S2P Require Import Prelude GoStrings Json Protocol Bolt Vfs Sha256 Journal Engine Gc Outbox OutboxLaws Delivery.
Local Open Scope stdpp_scope.

Section mutations.
Context {DB : Type} `{!Bolt DB} `{!BoltLaws DB} `{!BoltReliable DB}.
Implicit Types (d : DB) (peers : list string).

(** The outbox can stage [n] more entries. *)
Definition room (n : nat) d : Prop :=
  bhas d NotifyOutbox = true ∧ bhas d NotifyOutboxGenerations = true ∧ bhas d NotifyOutboxReservations = true ∧
  generation_wf d ∧ (last_generation d + N.of_nat n <= max_uint64)%N.

Lemma room_ready n d : room (S n) d → outbox_ready d.
Proof. intros (? & ? & ? & ? & ?). repeat split; [done..|lia]. Qed.

Lemma room_le n m d : (m ≤ n)%nat → room n d → room m d.
Proof. intros ? (? & ? & ? & ? & ?). repeat split; [done..|lia]. Qed.

(** The buckets of the outbox as other operations leave them. *)
Definition outbox_kept d d' : Prop :=
  (∀ b k, outbox_bucket b = true → bget d' b k = bget d b k) ∧ ∀ b, bhas d' b = bhas d b.

Lemma outbox_kept_refl d : outbox_kept d d.
Proof. done. Qed.

Lemma outbox_kept_trans d d1 d2 : outbox_kept d d1 → outbox_kept d1 d2 → outbox_kept d d2.
Proof. intros [G1 B1] [G2 B2]. split; [intros b k Hb; by rw G2 // G1|intros b; by rw B2 B1]. Qed.

Lemma room_kept n d d' : outbox_kept d d' → room n d → room n d'.
Proof.
  intros [HG HB] (? & ? & ? & Hwf & Hn). unfold room, generation_wf, last_generation.
  rw !HB (HG NotifyOutboxGenerations globalKey) //.
Qed.

(** What lies outside the outbox. *)
Definition outside_kept d d' : Prop :=
  (∀ b k, outbox_bucket b = false → bget d' b k = bget d b k) ∧ ∀ b, bhas d' b = bhas d b.

Lemma outside_kept_trans d d1 d2 : outside_kept d d1 → outside_kept d1 d2 → outside_kept d d2.
Proof. intros [G1 B1] [G2 B2]. split; [intros b k Hb; by rw G2 // G1|intros b; by rw B2 B1]. Qed.

Lemma generation_wf_pos d : (0 < last_generation d)%N → generation_wf d.
Proof.
  unfold last_generation, generation_wf, decodeGeneration.
  destruct (bget d NotifyOutboxGenerations globalKey) as [raw|]; simpl; [|done].
  destruct (Nat.eqb_spec (str_len raw) 8); [done|]. simpl. lia.
Qed.

Section kind.
Variables (now : time) (kind entity : string).

Abbreviation key := (λ p, outboxKey p kind entity).
Definition keys_fit peers : Prop := ∀ p, p ∈ peers → key_fits (key p).

(** The entry a staging of [payload] for [p] leaves. *)
Definition announces d payload p (e : outboxEntry) : Prop :=
  bget d NotifyOutbox (key p) = Some (JDoc e) ∧ OPeerID e = p ∧ OPayload e = payload.

Definition announced d payload peers : Prop := ∀ p, p ∈ peers → ∃ e, announces d payload p e.

Lemma key_inj p q : key p = key q → p = q.
Proof. by intros [? _]%outboxKey_inj. Qed.

(** One staging. *)
Record stage_effect d p payload a d' : Prop := {
  se_attempt : a = mkAttempt (key p) (AttemptEntry a);
  se_announces : announces d' payload p (AttemptEntry a);
  se_other q : q ≠ p → bget d' NotifyOutbox (key q) = bget d NotifyOutbox (key q);
  se_kept : outside_kept d d' }.

Lemma stage_one n d p payload :
  room (S n) d → key_fits (key p) → canonicalEntity kind entity payload = entity →
  ∃ a d', stageOutbox now p kind entity payload d = (Ok (a, true), d') ∧ room n d' ∧ stage_effect d p payload a d'.
Proof.
  intros Hroom Hfit Hent.
  destruct (stageOutbox_stores now p kind entity payload d) as (d' & Hrun & Hl & _ & Ho & Hf & Hb);
    [by eapply room_ready|by rw Hent|]. revert Hrun Hl Ho. rw Hent. intros Hrun Hl Ho.
  eexists _, d'. split; [exact Hrun|]. split.
  { destruct Hroom as (H1 & H2 & H3 & _ & H4). unfold room. rw !Hb Hl. repeat split; [done..| |lia].
    apply generation_wf_pos. lia. }
  split; [done| | |done].
  - split; [|done]. rw Ho. by destruct (decide _).
  - intros q Hq. rw Ho. destruct (decide _) as [Heq|]; [|done]. by apply key_inj in Heq.
Qed.

(** The attempts of a mutation: one for each peer, as staged. *)
Definition attempts_for d payload peers (l : list outboxAttempt) : Prop :=
  Forall2 (λ p a, a = mkAttempt (key p) (AttemptEntry a) ∧ announces d payload p (AttemptEntry a)) peers l.

Lemma attempts_announced d payload peers l : attempts_for d payload peers l → announced d payload peers.
Proof.
  intros Hl p Hp. apply list_elem_of_lookup in Hp as [i Hi].
  apply (Forall2_lookup_l _ _ _ _ _ Hl) in Hi as (a & _ & _ & Ha). eauto.
Qed.

Lemma attempts_frame d d' payload peers l :
  (∀ p, p ∈ peers → bget d' NotifyOutbox (key p) = bget d NotifyOutbox (key p)) →
  attempts_for d payload peers l → attempts_for d' payload peers l.
Proof.
  intros Hf Hl. unfold attempts_for. induction Hl as [|p a ps l [Ha [Hk Hp]] Hl IH]; constructor.
  - split; [done|]. split; [|done]. rw Hf //. by left.
  - apply IH. intros q Hq. apply Hf. by right.
Qed.

Lemma stageForPeers_run srv n d payload done peers l :
  NoDup (done ++ peers) → room (length peers + n) d → keys_fit peers → canonicalEntity kind entity payload = entity →
  attempts_for d payload done l →
  ∃ l' d', stageForPeers srv now {| StagedKind := kind; StagedEntity := entity; Attempts := l |} payload peers d =
             (Ok {| StagedKind := kind; StagedEntity := entity; Attempts := l' |}, d') ∧
    room n d' ∧ attempts_for d' payload (done ++ peers) l' ∧ outside_kept d d'.
Proof.
  revert done l d. induction peers as [|p peers IH]; intros done l d Hnd Hroom Hfit Hent Hl.
  { exists l, d. rw app_nil_r. by repeat split; try apply Hroom. }
  destruct (stage_one (length peers + n) d p payload) as (a & d1 & Hrun & Hr1 & [Ha Hann Hoth Hk]);
    [done|by apply Hfit; left|done|].
  destruct (IH (done ++ [p]) (l ++ [a]) d1) as (l' & d2 & Hrun2 & Hr2 & Hl2 & Hk2).
  - by rw -app_assoc.
  - done.
  - intros q Hq. apply Hfit. by right.
  - done.
  - apply Forall2_app; [|by constructor].
    eapply attempts_frame; [|exact Hl]. intros q Hq. apply Hoth. intros ->.
    apply NoDup_app in Hnd as (_ & Hdis & _). apply (Hdis p Hq). by left.
  - exists l', d2. rw -app_assoc in Hl2. split; [|by repeat split; try apply Hr2; try apply (outside_kept_trans _ _ _ Hk Hk2)].
    simpl. unfold mbind, st_bind, attempt. rw Hrun. exact Hrun2.
Qed.

(** ** Reconciling *)

(** Refreshing every attempt. *)
Lemma reconcile_refresh m n d payload' peers l acc :
  StagedKind m = kind → StagedEntity m = entity →
  room (length peers + n) d → keys_fit peers → NoDup peers → canonicalEntity kind entity payload' = entity →
  Forall2 (λ p a, OPeerID (AttemptEntry a) = p) peers l →
  ∃ l' d', reconcileAttempts now m (Some payload') l acc d = (Ok (acc ++ l'), d') ∧
    room n d' ∧ attempts_for d' payload' peers l' ∧
    (∀ q, q ∉ peers → bget d' NotifyOutbox (key q) = bget d NotifyOutbox (key q)) ∧ outside_kept d d'.
Proof.
  intros Hkind Hentity. revert l acc d. induction peers as [|p peers IH]; intros l acc d Hroom Hfit Hnd Hent Hl.
  { inv Hl. exists [], d. rw app_nil_r. repeat split; try apply Hroom; constructor. }
  apply NoDup_cons in Hnd as [Hp Hnd]. inv Hl as [|? a ? l1 Hpa Hl1].
  destruct (stage_one (length peers + n) d (OPeerID (AttemptEntry a)) payload') as (b & d1 & Hrun & Hr1 & [Hb Hann Hoth Hk]);
    [done|apply Hfit; by left|done|].
  destruct (IH l1 (acc ++ [b]) d1) as (l' & d2 & Hrun2 & Hr2 & Hl2 & Ho2 & Hk2);
    [done|intros q Hq; apply Hfit; by right|done..|].
  exists (b :: l'), d2. split.
  { simpl. unfold mbind, st_bind. rw Hkind Hentity Hrun. simpl. rw Hrun2. by rw -app_assoc. }
  split; [done|]. split; [|split; [|by eapply outside_kept_trans]].
  - constructor; [|done]. split; [done|]. destruct Hann as [Hbd Hrest]. split; [|done]. by rw Ho2.
  - intros q Hq. rewrite ->elem_of_cons in Hq. rw Ho2; [|naive_solver]. apply Hoth. naive_solver.
Qed.

Lemma Delete_bhas id raw d r d' : DeleteOutboxEntryIfUnchanged id raw d = (r, d') → ∀ b, bhas d' b = bhas d b.
Proof.
  unfold DeleteOutboxEntryIfUnchanged. intros [(x & -> & Hrun)|(? & -> & ->)]%Update_spec; [|done]. revert Hrun.
  destruct (boltBucket d NotifyOutbox); simpl; [|done]. case_bool_decide; [|by intros [= _ <-]].
  destruct (bdel d NotifyOutbox id) as [d1|] eqn:H1; simpl; [|done]. intros [= _ <-] b. exact (bhas_del _ _ _ _ b H1).
Qed.

(** Retracting every attempt. *)
Lemma reconcile_retract m d payload peers l acc :
  bhas d NotifyOutbox = true → NoDup peers → attempts_for d payload peers l →
  ∃ d', reconcileAttempts now m None l acc d = (Ok acc, d') ∧
    (∀ p, p ∈ peers → bget d' NotifyOutbox (key p) = None) ∧
    (∀ q, q ∉ peers → bget d' NotifyOutbox (key q) = bget d NotifyOutbox (key q)) ∧
    outside_kept d d'.
Proof.
  intros Hb Hnd Hl. revert acc d Hb Hnd Hl. induction peers as [|p peers IH] in l |- *; intros acc d Hb Hnd Hl.
  { inv Hl. exists d. split; [done|]. by split; [intros p Hp%elem_of_nil|split]. }
  apply NoDup_cons in Hnd as [Hp Hnd]. inv Hl as [|? a ? l1 [Ha [Hk _]] Hl1].
  destruct (Delete_run (key p) (JDoc (AttemptEntry a)) d Hb Hk) as (d1 & Hrun & [_ _ Ho Hf _] & Hb1).
  destruct (IH l1 acc d1 Hb1 Hnd) as (d2 & Hrun2 & Hnone & Hsame & Hf2).
  { eapply attempts_frame; [|exact Hl1]. intros q Hq. rw Ho. destruct (decide _) as [->%key_inj|]; [by destruct Hp|done]. }
  exists d2. split; [|split; [|split]].
  - simpl. unfold mbind, st_bind. rw Ha. cbn [StorageID Raw mkAttempt]. rw Hrun. exact Hrun2.
  - intros q Hq. rewrite ->elem_of_cons in Hq. destruct Hq as [->|Hq]; [|by apply Hnone].
    rw Hsame // Ho. by destruct (decide _).
  - intros q Hq. rewrite ->elem_of_cons in Hq. rw Hsame; [|naive_solver]. rw Ho.
    destruct (decide _) as [->%key_inj|]; [naive_solver|done].
  - eapply outside_kept_trans; [|exact Hf2]. split; [done|]. by eapply Delete_bhas.
Qed.

(** ** Both sides of a mutation *)

Definition targets (srv : Server) : list string := sort_strings (filter (λ p, p ≠ ServerID srv) (PeerIDs srv)).

Lemma targets_nodup srv : NoDup (PeerIDs srv) → NoDup (targets srv).
Proof. intros Hnd. unfold targets. rw sort_strings_perm. by apply NoDup_filter. Qed.

(** Staging a mutation leaves the announcement for every other peer. *)
Lemma prepare_run srv n d payload :
  NoDup (PeerIDs srv) → room (length (targets srv) + n) d → keys_fit (targets srv) →
  canonicalEntity kind entity payload = entity →
  ∃ l d', prepareOutboxMutation srv now kind entity payload d =
            (Ok {| StagedKind := kind; StagedEntity := entity; Attempts := l |}, d') ∧
    room n d' ∧ attempts_for d' payload (targets srv) l ∧ outside_kept d d'.
Proof.
  intros Hnd%targets_nodup Hroom Hfit Hent.
  destruct (stageForPeers_run srv n d payload [] (targets srv) []) as (l & d' & Hrun & Hr & Hl & Hk); [done..|constructor|].
  by exists l, d'.
Qed.

(** What the peers are told about the entity: what is true now, or nothing
    when there is nothing to tell. *)
Definition told d (current : option notification) peers : Prop :=
  match current with
  | Some payload => announced d payload peers
  | None => ∀ p, p ∈ peers → bget d NotifyOutbox (key p) = None
  end.

(** A mutation that did not commit tells the peers what is true after it. *)
Lemma reconcile_run srv n d d1 payload peers l current :
  NoDup peers → room (length peers + n) d → keys_fit peers → attempts_for d payload peers l →
  currentNotificationPayload srv kind entity d = (Ok current, d1) → outbox_kept d d1 →
  (∀ payload', current = Some payload' → canonicalEntity kind entity payload' = entity) →
  let m := {| StagedKind := kind; StagedEntity := entity; Attempts := l |} in
  ∃ l' d', finish srv now m false d = (Ok l', d') ∧ told d' current peers ∧ outside_kept d1 d'.
Proof.
  intros Hnd Hroom Hfit Hl Hcur Hkept Hent m. unfold finish, reconcileCurrent, mbind, st_bind. simpl. rw Hcur.
  assert (room (length peers + n) d1) as Hroom1 by (by eapply room_kept).
  assert (attempts_for d1 payload peers l) as Hl1.
  { eapply attempts_frame; [|exact Hl]. intros p _. by apply Hkept. }
  destruct current as [payload'|].
  - destruct (reconcile_refresh m n d1 payload' peers l []) as (l' & d2 & Hrun & _ & Hl2 & _ & Hf); [done..|by apply Hent| |].
    { eapply Forall2_impl; [exact Hl1|]. by intros p a [_ (_ & ? & _)]. }
    exists l', d2. split; [exact Hrun|]. split; [by eapply attempts_announced|done].
  - destruct (reconcile_retract m d1 payload peers l []) as (d2 & Hrun & Hnone & _ & Hf); [by apply Hroom1|done..|].
    by exists [], d2.
Qed.
End kind.
End mutations.
