(* ===== verification/ServicesLaws.v ===== *)
(** * Laws of the service configuration

    A service the validation accepts is in normal form and stays so; the file
    holds accepted services only, whatever the file system does; and reloading
    such a file registers exactly its services, in whatever order the map is
    visited. *)
From Stdlib Require Import Ascii String.
From S2P Require Import Prelude GoStrings Json Protocol Bolt Payload Services.
Local Open Scope stdpp_scope.

Lemma canonical_nonempty : map_Forall (λ _ spec, Canonical spec ≠ "") buildServiceTypeIndex.
Proof. apply (bool_decide_unpack _). vm_compute. exact I. Qed.

Lemma ServiceType_Normalize_empty t : ServiceType_Normalize t = "" → t = "".
Proof.
  unfold ServiceType_Normalize. destruct (buildServiceTypeIndex !! t) as [spec|] eqn:E; [|done].
  intros Hc. by destruct (canonical_nonempty t spec E).
Qed.

Lemma ServiceType_Normalize_idem t : ServiceType_Normalize (ServiceType_Normalize t) = ServiceType_Normalize t.
Proof. apply ServiceType_Normalize_canonical. Qed.

Lemma NormalizeServiceSchema_name name sch t :
  SName (NormalizeServiceSchema name sch t) = if bool_decide (SName sch = "") then name else SName sch.
Proof. done. Qed.

Lemma NormalizeServiceSchema_type name sch t :
  SType (NormalizeServiceSchema name sch t) = ServiceType_Normalize (if bool_decide (SType sch = "") then t else SType sch).
Proof. done. Qed.

(** A schema in normal form. *)
Lemma normal_schema name sch t :
  SName sch = name → SType sch = t → ServiceType_Normalize t = t → t ≠ "" → NormalizeServiceSchema name sch t = sch.
Proof.
  intros <- <- Hcan Hne. unfold NormalizeServiceSchema. rw (bool_decide_eq_false_2 (SType sch = "")) // Hcan.
  destruct sch as [n t d p o u]. cbn [SName SType SDescription SParameters SOutputs SUI] in *. f_equal.
  by destruct (bool_decide_reflect (n = "")).
Qed.

Section laws.
Variable webrtc : bool.
Abbreviation normalize := (normalizeAndValidateLocalService webrtc).

(** A service in normal form under its name. *)
Record service_wf (name : string) (s : LocalService) : Prop := {
  sw_fixed : normalize name s = Ok s;
  sw_name : SName (LsSchema s) = name;
  sw_type : SType (LsSchema s) = LsType s;
  sw_canonical : ServiceType_Normalize (LsType s) = LsType s;
  sw_known : LsType s ≠ "";
  sw_handler : ∃ h, BuildHandler webrtc (LsType s) (LsExec s) = Ok h }.

(** The checks a service passes, and what is made of it. *)
Record accepted (name : string) (s s' : LocalService) : Prop := {
  ac_name : TrimSpace name ≠ "";
  ac_schema : SName (LsSchema s) = "" ∨ SName (LsSchema s) = name;
  ac_type : LsType s' = ServiceType_Normalize (if bool_decide (LsType s = "") then SType (LsSchema s) else LsType s);
  ac_known : LsType s' ≠ "";
  ac_agree : SType (LsSchema s) = "" ∨ ServiceType_Normalize (SType (LsSchema s)) = LsType s';
  ac_exec : TrimSpace (LsExec s) = "" → LsType s' = "screen";
  ac_screen : LsType s' = "screen" → LsExec s = "" ∨ LsExec s = "fake";
  ac_handler : ∃ h, BuildHandler webrtc (LsType s') (LsExec s) = Ok h;
  ac_result : s' = {| LsType := LsType s'; LsExec := LsExec s;
                      LsSchema := NormalizeServiceSchema name (LsSchema s) (LsType s') |} }.

(** The next check of a validation passed. *)
Ltac passes H := match goal with |- (if ?b then _ else _) = _ → _ => destruct b eqn:H; [done|] end.

(** The validation accepts exactly the services that pass the checks. *)
Lemma normalize_spec name s s' : normalize name s = Ok s' ↔ accepted name s s'.
Proof.
  unfold normalizeAndValidateLocalService. cbv zeta. split.
  - passes Hn. passes Hs. passes Ht. passes Hagree. cbn [LsExec]. passes He. passes Hscr.
    destruct (BuildHandler _ _ _) as [h|] eqn:Hh; [|done]. intros [= <-].
    rw ?andb_false_iff ?bool_decide_eq_false in Hn Hs Ht Hagree He Hscr.
    split; cbn [LsType LsExec LsSchema]; try done.
    + destruct (decide (SName (LsSchema s) = "")); [by left|]. right. apply dec_stable. by destruct Hs.
    + intros Hx%ServiceType_Normalize_empty. done.
    + destruct (decide (SType (LsSchema s) = "")) as [|Hne]; [by left|]. right. apply dec_stable.
      destruct Hagree as [Hx|]; [|done]. destruct Hx. by intros Hx%ServiceType_Normalize_empty.
    + intros Hx. apply dec_stable. by destruct He.
    + intros Hx. destruct (decide (LsExec s = "")); [by left|]. right. apply dec_stable. by destruct Hscr as [[?|?]|?].
    + eauto.
  - intros [Hn Hs Ht Hk Ha He Hscr [h Hh] ->]. cbn [LsType LsExec LsSchema] in *.
    rw bool_decide_eq_false_2 //.
    assert (bool_decide (SName (LsSchema s) ≠ "") && bool_decide (SName (LsSchema s) ≠ name) = false) as ->.
    { apply andb_false_iff. rewrite ->!bool_decide_eq_false. destruct Hs as [-> | ->]; [left|right]; by intros []. }
    set (t0 := if bool_decide (LsType s = "") then SType (LsSchema s) else LsType s) in *.
    rw (bool_decide_eq_false_2 (t0 = "")); [|intros Hx; rw Hx in Ht; by apply Hk].
    rw -Ht.
    match goal with |- context [bool_decide (?x ≠ "") && bool_decide (?x ≠ ?y)] =>
      assert (bool_decide (x ≠ "") && bool_decide (x ≠ y) = false) as -> end.
    { apply andb_false_iff. rewrite ->!bool_decide_eq_false.
      destruct Ha as [Ha|Ha]; [left; rw Ha|right; rw Ha]; by intros []. }
    match goal with |- context [bool_decide (?x = "") && bool_decide (?y ≠ ?z)] =>
      assert (bool_decide (x = "") && bool_decide (y ≠ z) = false) as -> end.
    { apply andb_false_iff. rewrite ->!bool_decide_eq_false.
      destruct (decide (TrimSpace (LsExec s) = "")) as [Hx|]; [right; intros Hy; by apply Hy, He|by left]. }
    match goal with |- context [?a && bool_decide (LsExec s ≠ "") && ?b] =>
      assert (a && bool_decide (LsExec s ≠ "") && b = false) as -> end.
    { rw !andb_false_iff. rewrite ->!bool_decide_eq_false.
      match goal with |- (?x ≠ "screen" ∨ _) ∨ _ => destruct (decide (x = "screen")) as [Hx|]; [|by left; left] end.
      destruct (Hscr Hx) as [-> | ->]; [left; right|right]; by intros []. }
    by rw Hh.
Qed.
(** What is accepted is in normal form: validating it again changes
    nothing. *)
Lemma normalize_wf name s s' : normalize name s = Ok s' → service_wf name s'.
Proof.
  intros Hok. pose proof (proj1 (normalize_spec name s s') Hok) as [Hn Hs Ht Hk Ha He Hscr Hh Hres].
  assert (ServiceType_Normalize (LsType s') = LsType s') as Hcan by (by rw Ht ServiceType_Normalize_idem).
  assert (SName (LsSchema s') = name) as Hname.
  { rw Hres. cbn [LsSchema]. rw NormalizeServiceSchema_name.
    destruct (bool_decide_reflect (SName (LsSchema s) = "")); [done|]. by destruct Hs. }
  assert (SType (LsSchema s') = LsType s') as Htype.
  { rw {1}Hres. cbn [LsSchema]. rw NormalizeServiceSchema_type.
    destruct (bool_decide_reflect (SType (LsSchema s) = "")); [done|]. by destruct Ha. }
  assert (LsExec s' = LsExec s) as Hexec by (by rw Hres).
  split; [|done..|by rw Hexec].
  apply normalize_spec. split; rw ?Hexec ?Hname ?Htype; [done|by right| |done|by right|done..|].
  - rw bool_decide_eq_false_2 //.
  - rw (normal_schema name (LsSchema s') (LsType s')) //. rw -Hexec. by destruct s'.
Qed.

Lemma wf_schema name s : service_wf name s → NormalizeServiceSchema name (LsSchema s) (LsType s) = LsSchema s.
Proof.
  intros [_ Hname Htype Hcan Hk _]. by apply normal_schema.
Qed.

(** ** From arguments *)

Lemma built_wf readSchema readService name t exec desc param noReq file serviceName s :
  BuildLocalServiceFromArgs webrtc readSchema readService name t exec desc param noReq file = Ok (serviceName, s) →
  service_wf serviceName s.
Proof.
  assert (∀ n x n' x', validated webrtc n x = Ok (n', x') → service_wf n' x') as Hval.
  { intros n x n' x'. unfold validated. destruct (normalize n x) eqn:Hn; [|done]. intros [= <- <-]. by eapply normalize_wf. }
  unfold BuildLocalServiceFromArgs, serviceFromFile. cbv zeta. intros Hrun.
  repeat case_match; try done; by eapply Hval.
Qed.

(** ** The file *)

Definition services_wf (m : gmap string LocalService) : Prop := ∀ name s, m !! name = Some s → service_wf name s.

(** What the file holds, when it can be decoded. *)
Definition fileServices (f : servicesFile) : option (gomap LocalService) :=
  match svcContent f with
  | None => Some (Some ∅)
  | Some (JDoc m) => Some m
  | Some (JCorrupt _) => None
  end.

Definition file_wf (f : servicesFile) : Prop := ∀ m, fileServices f = Some m → services_wf (default ∅ m).

Lemma svcOutcome_run f : svcOutcome f = (Ok (default FsOk (head (svcScript f))), {| svcContent := svcContent f; svcScript := tail (svcScript f) |}).
Proof. done. Qed.

(** Reading never changes the file; what is read is what it holds. *)
Lemma Load_spec f r f' :
  LoadServicesMap f = (r, f') →
  (svcContent f' = svcContent f ∧ (svcScript f = [] → svcScript f' = [])) ∧ ∀ m, r = Ok m → fileServices f = Some m.
Proof.
  unfold LoadServicesMap, withServicesFile, loadServicesMap, mbind, st_bind, fileServices. simpl.
  assert (svcScript f = [] → tail (svcScript f) = [] ∧ tail (tail (svcScript f)) = []) as Hq by (by intros ->).
  destruct (default FsOk (head (svcScript f))); simpl; [|intros [= <- <-]; naive_solver..].
  destruct (default FsOk (head (tail (svcScript f)))); simpl; [|intros [= <- <-]; naive_solver..].
  destruct (svcContent f) as [[m|]|]; intros [= <- <-]; (split; [naive_solver|by intros ? [=->]]).
Qed.

(** Where the script has no failures left, reading a file that decodes
    succeeds. *)
Lemma Load_quiet f m : svcScript f = [] → fileServices f = Some m → (LoadServicesMap f).1 = Ok m.
Proof.
  unfold fileServices, LoadServicesMap, withServicesFile, loadServicesMap, mbind, st_bind. intros Hq. simpl. rw Hq. simpl.
  destruct (svcContent f) as [[x|]|]; by intros [= <-].
Qed.

(** A change of the file is made, or the file is as before; a call that
    succeeds made it. *)
Definition edits (edit : gmap string LocalService → gmap string LocalService) (f : servicesFile) (r : res unit) (f' : servicesFile) : Prop :=
  (svcScript f = [] → svcScript f' = []) ∧
  ((svcContent f' = svcContent f ∧ is_ok r = false) ∨
   ∃ m, fileServices f = Some (Some m) ∧ svcContent f' = Some (JDoc (Some (edit m)))).

Lemma edits_none edit f e f' :
  svcContent f' = svcContent f → (svcScript f = [] → svcScript f' = []) → edits edit f (Err e) f'.
Proof. intros Hc Hq. split; [done|by left]. Qed.

Lemma save_spec m f r f' :
  saveServicesMap m f = (r, f') →
  svcScript f' = tail (svcScript f) ∧
  ((svcContent f' = svcContent f ∧ is_ok r = false) ∨ svcContent f' = Some (JDoc m)).
Proof.
  unfold saveServicesMap, mbind, st_bind. rw svcOutcome_run.
  destruct (default FsOk (head (svcScript f))); simpl; intros [= <- <-]; (split; [done|]); [by right|by left|by right].
Qed.

Lemma edits_save edit m f f1 r f' :
  (svcScript f = [] → svcScript f' = []) → svcContent f1 = svcContent f → fileServices f = Some (Some m) →
  (svcContent f' = svcContent f1 ∧ is_ok r = false) ∨ svcContent f' = Some (JDoc (Some (edit m))) →
  edits edit f r f'.
Proof. intros Hq Hc Hm Hs. split; [done|]. destruct Hs as [[-> ?]|?]; [by left|right; by exists m]. Qed.

Lemma load_inner f r f' :
  loadServicesMap f = (r, f') →
  (svcContent f' = svcContent f ∧ svcScript f' = tail (svcScript f)) ∧ ∀ m, r = Ok m → fileServices f = Some m.
Proof.
  unfold loadServicesMap, mbind, st_bind, fileServices. rw svcOutcome_run.
  destruct (default FsOk (head (svcScript f))); simpl; [|by intros [= <- <-]..].
  destruct (svcContent f) as [[m|]|]; intros [= <- <-]; by split; [|intros ? [=->]].
Qed.

Lemma Upsert_edits name s f r f' :
  UpsertLocalService webrtc name s f = (r, f') →
  match normalize name s with
  | Ok s' => edits (insert name s') f r f'
  | Err e => r = Err e ∧ f' = f
  end.
Proof.
  unfold UpsertLocalService. destruct (normalize name s) as [s'|e]; [|by intros [= <- <-]].
  unfold withServicesFile, mbind, st_bind. rw svcOutcome_run.
  destruct (default FsOk (head (svcScript f))); [|intros [= <- <-]; apply edits_none; [done|simpl; by intros ->]..].
  destruct (loadServicesMap _) as [r1 f1] eqn:Hload. apply load_inner in Hload as [[Hc Hq] Hm]. simpl in Hc, Hq.
  assert (svcScript f = [] → svcScript f1 = []) as Hq1 by (intros Hx; by rw Hq Hx).
  destruct r1 as [[m|]|e]; [|intros [= <- <-]; by apply edits_none..].
  intros [Hq2 Hs]%save_spec. apply (edits_save _ m f f1); [|done|by apply (Hm (Some m))|done].
  intros Hx. by rw Hq2 (Hq1 Hx).
Qed.

Lemma Delete_edits name f r f' : DeleteLocalService name f = (r, f') → edits (delete name) f r f'.
Proof.
  unfold DeleteLocalService, withServicesFile, mbind, st_bind. rw svcOutcome_run.
  destruct (default FsOk (head (svcScript f))); [|intros [= <- <-]; apply edits_none; [done|simpl; by intros ->]..].
  destruct (loadServicesMap _) as [r1 f1] eqn:Hload. apply load_inner in Hload as [[Hc Hq] Hm]. simpl in Hc, Hq.
  assert (svcScript f = [] → svcScript f1 = []) as Hq1 by (intros Hx; by rw Hq Hx).
  destruct r1 as [[m|]|e]; simpl; [|intros [= <- <-]; by apply edits_none..].
  destruct (m !! name); [|intros [= <- <-]; by apply edits_none].
  intros [Hq2 Hs]%save_spec. apply (edits_save _ m f f1); [|done|by apply (Hm (Some m))|done].
  intros Hx. by rw Hq2 (Hq1 Hx).
Qed.

(** No operation on the file panics, unless it writes to a null map. *)
Definition panics {A} (r : res A) : bool := match r with Err e => is_panic e | Ok _ => false end.

Lemma load_no_panic f : panics (loadServicesMap f).1 = false.
Proof.
  unfold loadServicesMap, mbind, st_bind. rw svcOutcome_run. destruct (default _ _); [|done..]. simpl.
  by destruct (svcContent f) as [[]|].
Qed.

Lemma save_no_panic m f : panics (saveServicesMap m f).1 = false.
Proof. unfold saveServicesMap, mbind, st_bind. rw svcOutcome_run. by destruct (default _ _). Qed.

Lemma Upsert_no_panic name s f :
  service_wf name s → fileServices f ≠ Some None → panics (UpsertLocalService webrtc name s f).1 = false.
Proof.
  intros Hs Hnull. unfold UpsertLocalService. rw (sw_fixed _ _ Hs).
  unfold withServicesFile, mbind, st_bind. rw svcOutcome_run. destruct (default _ _); [|done..].
  pose proof (load_no_panic {| svcContent := svcContent f; svcScript := tail (svcScript f) |}) as Hp.
  destruct (loadServicesMap _) as [r2 f2] eqn:Hload. apply load_inner in Hload as [_ Hm].
  destruct r2 as [[m|]|e]; [apply save_no_panic|by specialize (Hm None eq_refl)|done].
Qed.

Lemma Delete_no_panic name f : panics (DeleteLocalService name f).1 = false.
Proof.
  unfold DeleteLocalService, withServicesFile, mbind, st_bind. rw svcOutcome_run. destruct (default _ _); [|done..].
  pose proof (load_no_panic {| svcContent := svcContent f; svcScript := tail (svcScript f) |}) as Hp.
  destruct (loadServicesMap _) as [r2 f2]. destruct r2 as [m|e]; [|done].
  destruct (gomap_get m name); [apply save_no_panic|done].
Qed.

(** The file stays well formed under every change and every failure. *)
Lemma edits_wf edit f r f' :
  (∀ m, services_wf m → services_wf (edit m)) → edits edit f r f' → file_wf f → file_wf f'.
Proof.
  intros Hedit [_ [[Hc _]|(m & Hm & Hc)]] Hwf m'; unfold fileServices; rw Hc.
  - apply Hwf.
  - intros [= <-]. apply Hedit, (Hwf _ Hm).
Qed.

Lemma services_wf_insert m name s : service_wf name s → services_wf m → services_wf (<[name := s]> m).
Proof. intros Hs Hm n x [[<- <-]|[_ Hx]]%lookup_insert_Some; [done|by apply Hm]. Qed.

Lemma services_wf_delete m name : services_wf m → services_wf (delete name m).
Proof. intros Hm n x [_ Hx]%lookup_delete_Some. by apply Hm. Qed.
End laws.
