(* ===== verification/Lifecycle.v ===== *)
(** * The life of a server

    [internal/server/server.go] and [nat.go]: the work a server owns, its
    listeners, the detection of its NAT with the socket, port mapper, QUIC
    manager and TURN server it opens, and the shutdown that ends them.

    Every goroutine is cut into steps at its locks, wait groups, checks of the
    context and calls of the outside, and [life_step] interleaves them all.  A
    connection, socket, mapper or TURN server is a number; the ones that are
    open are kept in a set.  What STUN, the gateway, the TLS configuration and
    the operating system answer is free.  A QUIC manager closes the socket it
    was made on ([Close] of [holepunch.go]), so it is named by its socket.  The
    client of the peers stands for the WebRTC peers closed after it too. *)
From Stdlib Require Import Ascii String.
From S2P Require Import Prelude GoStrings Protocol PipelineRun Stun Sync SmartToken NetAddr.
Local Open Scope stdpp_scope.

(** ** State *)

(** [shutdownStarted] and the closing of the channel [done] are set together. *)
Record signals := {
  shutdownRequested : bool;
  shutdownStarted : bool;
  acceptingWork : bool;
  lifetimeOver : bool;
  shutdownDone : bool }.

(** A goroutine, handler or lease of the server, or the handling of a
    connection to the Unix socket. *)
Inductive work := Plain | OnConn (conn : nat).

(** A download worker is idle or holds a job. *)
Record workState := {
  running : list work;
  workWG : nat;
  unixConns : gset nat;
  downloaders : list (option DownloadJob);
  downloadWG : nat;
  downloadQueue : list DownloadJob }.

Inductive listener := Unbound | Bound | ListenerClosed.

(** [serveUnixListener]: accepting, or holding a connection it accepted. *)
Inductive unix_pc := Accepting | Accepted (conn : nat).

Record listenState := {
  unixListener : listener;
  httpListener : listener;
  unixLoop : option unix_pc;
  listenerWG : nat;
  ready : bool;
  announcing : bool }.

Record publicEndpoint := { EpIP : string; EpPort : Z; EpConn : nat }.

(** Where a goroutine of the NAT detection is: before the [Once], in
    [determineSponsorAndNATStatus] and the functions it calls, and leaving. *)
Inductive nat_pc :=
  | NTimer
  | NOnce
  | NStart
  | NOpen
  | NStun (attempt : nat)
  | NStunFailed (attempt : nat)
  | NBind
  | NBindFailed
  | NSocket (ep : publicEndpoint) (known : bool)
  | NOpened (ep : publicEndpoint) (known : bool)
  | NMapping (ep : publicEndpoint) (known : bool)
  | NMapperMade (ep : publicEndpoint) (known : bool) (mapper : nat)
  | NMapperWait (ep : publicEndpoint) (known : bool) (mapper : nat)
  | NDiscard (ep : publicEndpoint) (known : bool) (mapper : nat)
  | NStopMapper (ep : publicEndpoint) (known : bool) (mapper : nat)
  | NMapped (ep : publicEndpoint) (known : bool)
  | NTurn (ep : publicEndpoint) (known : bool)
  | NTurnMade (ep : publicEndpoint) (known : bool) (turn : nat)
  | NPrivate (ep : publicEndpoint)
  | NQuic (ep : publicEndpoint) (known : bool)
  | NQuicMade (ep : publicEndpoint) (known : bool)
  | NReach (ip : string)
  | NDetect (ip : string)
  | NDetected (detected : bool)
  | NCallee
  | NChecked
  | NLeave.

Inductive once := OnceFresh | OnceRunning | OnceDone.

(** [onMapped] is the callback of the published mapper with the address it
    was made for, [mapperCall] the call of it that is under way. *)
Record natState := {
  natThreads : list nat_pc;
  natWG : nat;
  checkNATOnce : once;
  natMapper : option nat;
  onMapped : option string;
  mapperCall : option (string * Z);
  quicMgr : option nat;
  turnSrv : option nat;
  publicUDPAddr : string;
  isSponsor : bool }.

Record resources := {
  fresh : nat;
  openConns : gset nat;
  openSockets : gset nat;
  openMappers : gset nat;
  openTurns : gset nat;
  computeOpen : bool;
  clientOpen : bool;
  storageOpen : bool }.

(** Where [finishShutdown] is. *)
Inductive shutdown_pc :=
  | SdBegin | SdStopWork | SdCancel | SdCloseUnix | SdCloseConns | SdHTTP | SdNatWait | SdMapper
  | SdStopMapper (mapper : nat) | SdCompute | SdDownloads | SdHTTPWait | SdListenerWait | SdWorkWait | SdOffline
  | SdClient | SdQuic | SdTurn | SdStorage | SdFinish.

Record life := {
  sig : signals;
  wk : workState;
  ls : listenState;
  nt : natState;
  rs : resources;
  sd : option shutdown_pc }.

Definition with_sig f s : life := {| sig := f (sig s); wk := wk s; ls := ls s; nt := nt s; rs := rs s; sd := sd s |}.
Definition with_wk f s : life := {| sig := sig s; wk := f (wk s); ls := ls s; nt := nt s; rs := rs s; sd := sd s |}.
Definition with_ls f s : life := {| sig := sig s; wk := wk s; ls := f (ls s); nt := nt s; rs := rs s; sd := sd s |}.
Definition with_nt f s : life := {| sig := sig s; wk := wk s; ls := ls s; nt := f (nt s); rs := rs s; sd := sd s |}.
Definition with_rs f s : life := {| sig := sig s; wk := wk s; ls := ls s; nt := nt s; rs := f (rs s); sd := sd s |}.
Definition with_sd p s : life := {| sig := sig s; wk := wk s; ls := ls s; nt := nt s; rs := rs s; sd := p |}.

(** Opening and closing. *)
Definition next_fresh r : resources :=
  {| fresh := S (fresh r); openConns := openConns r; openSockets := openSockets r; openMappers := openMappers r;
     openTurns := openTurns r; computeOpen := computeOpen r; clientOpen := clientOpen r; storageOpen := storageOpen r |}.
Definition on_conns f r : resources :=
  {| fresh := fresh r; openConns := f (openConns r); openSockets := openSockets r; openMappers := openMappers r;
     openTurns := openTurns r; computeOpen := computeOpen r; clientOpen := clientOpen r; storageOpen := storageOpen r |}.
Definition on_sockets f r : resources :=
  {| fresh := fresh r; openConns := openConns r; openSockets := f (openSockets r); openMappers := openMappers r;
     openTurns := openTurns r; computeOpen := computeOpen r; clientOpen := clientOpen r; storageOpen := storageOpen r |}.
Definition on_mappers f r : resources :=
  {| fresh := fresh r; openConns := openConns r; openSockets := openSockets r; openMappers := f (openMappers r);
     openTurns := openTurns r; computeOpen := computeOpen r; clientOpen := clientOpen r; storageOpen := storageOpen r |}.
Definition on_turns f r : resources :=
  {| fresh := fresh r; openConns := openConns r; openSockets := openSockets r; openMappers := openMappers r;
     openTurns := f (openTurns r); computeOpen := computeOpen r; clientOpen := clientOpen r; storageOpen := storageOpen r |}.

Definition close_compute r : resources :=
  {| fresh := fresh r; openConns := openConns r; openSockets := openSockets r; openMappers := openMappers r;
     openTurns := openTurns r; computeOpen := false; clientOpen := clientOpen r; storageOpen := storageOpen r |}.
Definition close_client r : resources :=
  {| fresh := fresh r; openConns := openConns r; openSockets := openSockets r; openMappers := openMappers r;
     openTurns := openTurns r; computeOpen := computeOpen r; clientOpen := false; storageOpen := storageOpen r |}.
Definition close_storage r : resources :=
  {| fresh := fresh r; openConns := openConns r; openSockets := openSockets r; openMappers := openMappers r;
     openTurns := openTurns r; computeOpen := computeOpen r; clientOpen := clientOpen r; storageOpen := false |}.

Abbreviation closing x := (λ X : gset nat, X ∖ {[x]}).
Abbreviation opening x := (λ X : gset nat, {[x]} ∪ X).

Definition set_running l n w : workState :=
  {| running := l; workWG := n; unixConns := unixConns w; downloaders := downloaders w;
     downloadWG := downloadWG w; downloadQueue := downloadQueue w |}.
Definition set_conns c w : workState :=
  {| running := running w; workWG := workWG w; unixConns := c; downloaders := downloaders w;
     downloadWG := downloadWG w; downloadQueue := downloadQueue w |}.
Definition set_downloads n m q w : workState :=
  {| running := running w; workWG := workWG w; unixConns := unixConns w; downloaders := n;
     downloadWG := m; downloadQueue := q |}.

Definition set_threads l k n : natState :=
  {| natThreads := l; natWG := k; checkNATOnce := checkNATOnce n; natMapper := natMapper n; onMapped := onMapped n;
     mapperCall := mapperCall n; quicMgr := quicMgr n; turnSrv := turnSrv n; publicUDPAddr := publicUDPAddr n;
     isSponsor := isSponsor n |}.
Definition set_once o n : natState :=
  {| natThreads := natThreads n; natWG := natWG n; checkNATOnce := o; natMapper := natMapper n; onMapped := onMapped n;
     mapperCall := mapperCall n; quicMgr := quicMgr n; turnSrv := turnSrv n; publicUDPAddr := publicUDPAddr n;
     isSponsor := isSponsor n |}.
Definition set_mapper m cb n : natState :=
  {| natThreads := natThreads n; natWG := natWG n; checkNATOnce := checkNATOnce n; natMapper := m; onMapped := cb;
     mapperCall := mapperCall n; quicMgr := quicMgr n; turnSrv := turnSrv n; publicUDPAddr := publicUDPAddr n;
     isSponsor := isSponsor n |}.
Definition set_call c addr n : natState :=
  {| natThreads := natThreads n; natWG := natWG n; checkNATOnce := checkNATOnce n; natMapper := natMapper n;
     onMapped := onMapped n; mapperCall := c; quicMgr := quicMgr n; turnSrv := turnSrv n; publicUDPAddr := addr;
     isSponsor := isSponsor n |}.
Definition set_quic q addr n : natState :=
  {| natThreads := natThreads n; natWG := natWG n; checkNATOnce := checkNATOnce n; natMapper := natMapper n;
     onMapped := onMapped n; mapperCall := mapperCall n; quicMgr := q; turnSrv := turnSrv n; publicUDPAddr := addr;
     isSponsor := isSponsor n |}.
Definition set_turn t n : natState :=
  {| natThreads := natThreads n; natWG := natWG n; checkNATOnce := checkNATOnce n; natMapper := natMapper n;
     onMapped := onMapped n; mapperCall := mapperCall n; quicMgr := quicMgr n; turnSrv := t; publicUDPAddr := publicUDPAddr n;
     isSponsor := isSponsor n |}.
Definition set_sponsor b n : natState :=
  {| natThreads := natThreads n; natWG := natWG n; checkNATOnce := checkNATOnce n; natMapper := natMapper n;
     onMapped := onMapped n; mapperCall := mapperCall n; quicMgr := quicMgr n; turnSrv := turnSrv n;
     publicUDPAddr := publicUDPAddr n; isSponsor := b |}.

(** ** Owned work *)

(** A place in [workWG] and the work that holds it; the goroutine or handler
    that asked for it leaves with [finishOwnedWork]. *)
Definition beginOwnedWork s : bool * life :=
  if negb (acceptingWork (sig s)) then (false, s)
  else (true, with_wk (λ w, set_running (running w ++ [Plain]) (S (workWG w)) w) s).

Definition goOwned s : bool * life := beginOwnedWork s.

Definition beginUnixWork (conn : nat) s : bool * life :=
  if negb (acceptingWork (sig s)) then (false, s)
  else (true, with_wk (λ w, set_conns ({[conn]} ∪ unixConns w) (set_running (running w ++ [OnConn conn]) (S (workWG w)) w)) s).

(** The end of [handleUnixConnection] by the [i]-th piece of work: the
    connection is closed and forgotten. *)
Definition endConnection (i conn : nat) s : life :=
  with_wk (λ w, set_conns (unixConns w ∖ {[conn]}) (set_running (<[i := Plain]> (running w)) (workWG w) w))
    (with_rs (on_conns (closing conn)) s).

Definition finishOwnedWork (i : nat) s : life :=
  with_wk (λ w, set_running (delete i (running w)) (pred (workWG w)) w) s.

Definition stopAcceptingOwnedWork s : life :=
  with_sig (λ g, {| shutdownRequested := shutdownRequested g; shutdownStarted := shutdownStarted g; acceptingWork := false;
                    lifetimeOver := lifetimeOver g; shutdownDone := shutdownDone g |}) s.

(** ** Listeners *)

(** What the operating system answers: the Unix socket, its mode, the TCP
    socket, the port when it was left open, and the file of the configuration. *)
Record listenAnswers := { UnixOk : bool; ChmodOk : bool; TCPOk : bool; PortOk : bool; SaveOk : bool }.

Definition beginNATWork (pc : nat_pc) s : bool * life :=
  if lifetimeOver (sig s) then (false, s)
  else (true, with_nt (λ n, set_threads (natThreads n ++ [pc]) (S (natWG n)) n) s).

Definition scheduleNATCheck s : bool * life := beginNATWork NTimer s.
Definition CheckNAT s : bool * life := beginNATWork NOnce s.

(** [ListenAndServe] up to [ServeTLS], under the lifecycle lock; whatever it
    opened before a failure is closed. *)
Definition ListenAndServe (a : listenAnswers) s : option error * life :=
  if shutdownRequested (sig s) || shutdownStarted (sig s) then (Some (EMsg "http: Server closed"), s)
  else if negb (UnixOk a) then (Some (EMsg "listen unix socket"), s)
  else if negb (ChmodOk a) then (Some (EMsg "secure unix socket"), s)
  else if negb (TCPOk a) then (Some (EMsg "listen TCP"), s)
  else if negb (PortOk a) then (Some (EMsg "resolve bound TCP address"), s)
  else if negb (SaveOk a) then (Some (EMsg "persist bound TCP address"), s)
  else
    (None, (scheduleNATCheck (with_ls (λ l,
       {| unixListener := Bound; httpListener := Bound; unixLoop := Some Accepting; listenerWG := S (listenerWG l);
          ready := true; announcing := announcing l |}) s)).2).

Definition IsReady s : bool := negb (shutdownRequested (sig s)) && ready (ls s).

Definition set_loop u n l : listenState :=
  {| unixListener := unixListener l; httpListener := httpListener l; unixLoop := u; listenerWG := n;
     ready := ready l; announcing := announcing l |}.

(** The iterations of [serveUnixListener]: a connection that arrives, one that
    the listener returned, and the end of the loop on an error of [Accept]. *)
Definition acceptConn s : life :=
  with_ls (λ l, set_loop (Some (Accepted (fresh (rs s)))) (listenerWG l) l)
    (with_rs (λ r, next_fresh (on_conns (opening (fresh r)) r)) s).

Definition serveConn (conn : nat) s : life :=
  let '(ok, s) := beginUnixWork conn s in
  let s := if ok then s else with_rs (on_conns (closing conn)) s in
  with_ls (λ l, set_loop (Some Accepting) (listenerWG l) l) s.

Definition endLoop s : life := with_ls (λ l, set_loop None (pred (listenerWG l)) l) s.

Definition closeUnixConnections s : life := with_rs (on_conns (λ X, X ∖ unixConns (wk s))) s.

(** ** Downloads *)

(** The queue holds a hundred jobs. *)
Definition enqueueDownload (job : DownloadJob) s : option error * life :=
  if shutdownStarted (sig s) then (Some (EMsg "download queue closed: shutting down"), s)
  else if (100 <=? length (downloadQueue (wk s)))%nat then (Some (EWrap "" (ESentinel ErrDownloadQueueFull)), s)
  else (None, with_wk (λ w, set_downloads (downloaders w) (downloadWG w) (downloadQueue w ++ [job]) w) s).

(** A round of the [i]-th worker: it leaves when the lifetime is over, with a
    job it may have taken off the queue; a job is done in a step of its own. *)
Definition workerRound (i : nat) (took : bool) s : life :=
  with_wk (λ w,
    let queue := if took then tail (downloadQueue w) else downloadQueue w in
    if lifetimeOver (sig s) then set_downloads (delete i (downloaders w)) (pred (downloadWG w)) queue w
    else match downloadQueue w with
         | job :: queue => set_downloads (<[i := Some job]> (downloaders w)) (downloadWG w) queue w
         | [] => w
         end) s.

Definition workerDone (i : nat) s : life :=
  with_wk (λ w, set_downloads (<[i := None]> (downloaders w)) (downloadWG w) (downloadQueue w) w) s.

(** ** NAT detection *)

(** The configuration the detection reads. *)
Record natConfig := {
  DisableUPnP : bool;
  TURNEnabled : bool;
  IsSponsorOverride : option bool;
  BootstrapNode : string;
  HasTURNManager : bool }.

(** What the outside answers to a step of the detection. *)
Record NATMappingResult := { MappedTCP : Z; MappedUDP : Z; ExternalIP : option (list Z) }.
Record natAnswers := {
  TimerWins : bool;
  STUNAnswer : option (string * Z);
  BindOk : bool;
  LocalIPv4 : bool;
  Mapping : NATMappingResult;
  TURNStarts : bool;
  HasTLS : bool;
  ListenerStarts : bool;
  ProbeAnswer : option bool }.

Definition natSTUNAttempts : nat := 2.

Section nat_detection.
Context (ParseIP : string → option (list Z)) (cfg : natConfig).

Definition applySponsorStatus (detected : bool) s : life :=
  with_nt (set_sponsor (default detected (IsSponsorOverride cfg))) s.

Definition maybeStartTURNCallee s : life :=
  if negb (HasTURNManager cfg) || lifetimeOver (sig s) then s else (goOwned s).2.

(** [detectPublicReachability]; the probe of the bootstrap node fails, or says
    whether the node was reached. *)
Definition detectPublicReachability (probe : option bool) (extIP : string) s : bool :=
  if lifetimeOver (sig s) then false
  else if IsPrivateOrCGNATIP ParseIP extIP then false
  else if bool_decide (BootstrapNode cfg = "") then true
  else default false probe.

(** What the first result of the mapper makes of the endpoint. *)
Definition mappedEndpoint (r : NATMappingResult) (ep : publicEndpoint) (known : bool) : publicEndpoint * bool :=
  let port := if (0 <? MappedUDP r)%Z then MappedUDP r else EpPort ep in
  match known, ExternalIP r with
  | false, Some ip =>
      if (0 <? MappedUDP r)%Z then ({| EpIP := IP_String ip; EpPort := port; EpConn := EpConn ep |}, true)
      else ({| EpIP := EpIP ep; EpPort := port; EpConn := EpConn ep |}, false)
  | _, _ => ({| EpIP := EpIP ep; EpPort := port; EpConn := EpConn ep |}, known)
  end.

(** The gateway maps IPv4 only. *)
Definition mappable (a : natAnswers) (ep : publicEndpoint) : bool :=
  LocalIPv4 a && match ParseIP (EpIP ep) with Some ip => bool_decide (is_Some (To4 ip)) | None => true end.

Definition after_turn (ep : publicEndpoint) (known : bool) : nat_pc := if known then NQuic ep true else NPrivate ep.
Definition after_quic (ep : publicEndpoint) (known : bool) : nat_pc := if known then NReach (EpIP ep) else NCallee.

Abbreviation close_socket ep := (with_rs (on_sockets (closing (EpConn ep)))).
Abbreviation open_socket := (with_rs (λ r, next_fresh (on_sockets (opening (fresh r)) r))).

(** A goroutine of the detection goes on step by step; [None] while it waits,
    or where another function is at work.  First [scheduleNATCheck]'s wait for
    its timer or the end of the lifetime. *)
Definition awaitTimer (a : natAnswers) s : nat_pc := if lifetimeOver (sig s) && negb (TimerWins a) then NLeave else NOnce.

Definition openUDPEndpoint (a : natAnswers) (pc : nat_pc) s : option (nat_pc * life) :=
  let over := lifetimeOver (sig s) in
  match pc with
  | NOpen => Some (if over then NChecked else NStun 1, s)
  | NStun attempt =>
      match STUNAnswer a with
      | Some (ip, port) => Some (NSocket {| EpIP := ip; EpPort := port; EpConn := fresh (rs s) |} true, open_socket s)
      | None => Some (NStunFailed attempt, s)
      end
  | NStunFailed attempt =>
      Some (if over then NChecked else if (attempt <? natSTUNAttempts)%nat then NStun (S attempt) else NBind, s)
  | NBind =>
      if BindOk a then Some (NSocket {| EpIP := ""; EpPort := 0; EpConn := fresh (rs s) |} false, open_socket s)
      else Some (NBindFailed, s)
  | NSocket ep known => if over then Some (NChecked, close_socket ep s) else Some (NOpened ep known, s)
  | _ => None
  end.

(** [mapPortsWithUPnP] with [discardNATMapper]; [Stop] waits for a callback of
    the mapper that is under way. *)
Definition mapPortsWithUPnP (a : natAnswers) (pc : nat_pc) s : option (nat_pc * life) :=
  let over := lifetimeOver (sig s) in
  match pc with
  | NMapping ep known =>
      if over || negb (mappable a ep) then Some (NMapped ep known, s)
      else Some (NMapperMade ep known (fresh (rs s)),
                 with_rs (λ r, next_fresh (on_mappers (opening (fresh r)) r)) s)
  | NMapperMade ep known mapper =>
      if over then Some (NStopMapper ep known mapper, s)
      else Some (NMapperWait ep known mapper, with_nt (set_mapper (Some mapper) None) s)
  | NMapperWait ep known mapper =>
      if over then Some (NDiscard ep known mapper, s)
      else
        let '(ep, known) := mappedEndpoint (Mapping a) ep known in
        if known then Some (NMapped ep true, with_nt (λ n, set_mapper (natMapper n) (Some (EpIP ep)) n) s)
        else Some (NDiscard ep false mapper, s)
  | NDiscard ep known mapper =>
      Some (NStopMapper ep known mapper,
            if bool_decide (natMapper (nt s) = Some mapper) then with_nt (set_mapper None None) s else s)
  | NStopMapper ep known mapper =>
      match mapperCall (nt s) with
      | None => Some (NMapped ep known, with_rs (on_mappers (closing mapper)) s)
      | Some _ => None
      end
  | _ => None
  end.

Definition maybeStartTURNServer (a : natAnswers) (pc : nat_pc) s : option (nat_pc * life) :=
  match pc with
  | NTurn ep known =>
      if negb (TURNEnabled cfg) || shutdownStarted (sig s) || bool_decide (is_Some (turnSrv (nt s))) || negb (TURNStarts a)
      then Some (after_turn ep known, s)
      else Some (NTurnMade ep known (fresh (rs s)), with_rs (λ r, next_fresh (on_turns (opening (fresh r)) r)) s)
  | NTurnMade ep known turn =>
      if shutdownStarted (sig s) || bool_decide (is_Some (turnSrv (nt s)))
      then Some (after_turn ep known, with_rs (on_turns (closing turn)) s)
      else Some (after_turn ep known, with_nt (set_turn (Some turn)) s)
  | _ => None
  end.

Definition startQUIC (a : natAnswers) (pc : nat_pc) s : option (nat_pc * life) :=
  let over := lifetimeOver (sig s) in
  match pc with
  | NQuic ep known =>
      if over || (known && (bool_decide (EpIP ep = "") || (EpPort ep <=? 0)%Z)) || negb (HasTLS a) || negb (ListenerStarts a)
      then Some (after_quic ep known, close_socket ep s)
      else Some (NQuicMade ep known, s)
  | NQuicMade ep known =>
      if over || bool_decide (is_Some (quicMgr (nt s))) then Some (after_quic ep known, close_socket ep s)
      else
        let addr := if known then JoinHostPort (EpIP ep) (Itoa (EpPort ep)) else publicUDPAddr (nt s) in
        Some (after_quic ep known, with_nt (set_quic (Some (EpConn ep)) addr) s)
  | _ => None
  end.

(** The checks of the lifetime between those calls, and what they conclude. *)
Definition determineSponsorAndNATStatus (a : natAnswers) (pc : nat_pc) s : option (nat_pc * life) :=
  let over := lifetimeOver (sig s) in
  match pc with
  | NStart => Some (if over then NChecked else NOpen, s)
  | NBindFailed => Some (NChecked, if over then s else applySponsorStatus false s)
  | NOpened ep known =>
      if over then Some (NChecked, close_socket ep s)
      else Some (if DisableUPnP cfg then NMapped ep known else NMapping ep known, s)
  | NMapped ep known => if over then Some (NChecked, close_socket ep s) else Some (NTurn ep known, s)
  | NPrivate ep => Some (NQuic ep false, applySponsorStatus false s)
  | NReach ip => Some (if over then NChecked else NDetect ip, s)
  | NDetect ip => Some (NDetected (detectPublicReachability (ProbeAnswer a) ip s), s)
  | NDetected detected =>
      if over then Some (NChecked, s)
      else Some (if detected then NChecked else NCallee, applySponsorStatus detected s)
  | NCallee => Some (NChecked, maybeStartTURNCallee s)
  | _ => None
  end.

(** One goroutine gets through the [Once]; the others wait until it is done. *)
Definition runNATCheck (a : natAnswers) (pc : nat_pc) s : option (nat_pc * life) :=
  match pc with
  | NTimer => Some (awaitTimer a s, s)
  | NOnce =>
      match checkNATOnce (nt s) with
      | OnceFresh => Some (NStart, with_nt (set_once OnceRunning) s)
      | OnceRunning => None
      | OnceDone => Some (NLeave, s)
      end
  | NOpen | NStun _ | NStunFailed _ | NBind | NSocket _ _ => openUDPEndpoint a pc s
  | NMapping _ _ | NMapperMade _ _ _ | NMapperWait _ _ _ | NDiscard _ _ _ | NStopMapper _ _ _ => mapPortsWithUPnP a pc s
  | NTurn _ _ | NTurnMade _ _ _ => maybeStartTURNServer a pc s
  | NQuic _ _ | NQuicMade _ _ => startQUIC a pc s
  | NChecked => Some (NLeave, with_nt (set_once OnceDone) s)
  | NLeave => None
  | _ => determineSponsorAndNATStatus a pc s
  end.

(** The callback of the mapper: it checks, then writes under the lock. *)
Definition beginRefresh (mappedUDP : Z) s : bool * life :=
  match natMapper (nt s), onMapped (nt s), mapperCall (nt s) with
  | Some _, Some extIP, None =>
      if shutdownStarted (sig s) || (mappedUDP <=? 0)%Z || bool_decide (extIP = "") then (false, s)
      else (true, with_nt (λ n, set_call (Some (extIP, mappedUDP)) (publicUDPAddr n) n) s)
  | _, _, _ => (false, s)
  end.

Definition refreshPublicUDPFromMapping (extIP : string) (mappedUDP : Z) s : life :=
  let host :=
    if bool_decide (publicUDPAddr (nt s) = "") then extIP
    else match SplitHostPort (publicUDPAddr (nt s)) with
         | Some (h, _) => if bool_decide (h = "") then extIP else h
         | None => extIP
         end in
  with_nt (set_call None (JoinHostPort host (Itoa mappedUDP))) s.

(** ** Shutdown *)

(** The first call starts [finishShutdown]. *)
Definition Shutdown s : bool * life :=
  if shutdownRequested (sig s) then (false, s)
  else (true, with_sd (Some SdBegin) (with_sig (λ g,
    {| shutdownRequested := true; shutdownStarted := shutdownStarted g; acceptingWork := acceptingWork g;
       lifetimeOver := lifetimeOver g; shutdownDone := shutdownDone g |}) s)).

Definition close_listener (l : listener) : listener := match l with Bound => ListenerClosed | _ => l end.

Definition cancelServerLifetime s : life :=
  with_sig (λ g, {| shutdownRequested := shutdownRequested g; shutdownStarted := shutdownStarted g;
                    acceptingWork := acceptingWork g; lifetimeOver := true; shutdownDone := shutdownDone g |}) s.

Definition detachQUICManager s : option nat * life :=
  (quicMgr (nt s), with_nt (λ n, set_quic None (publicUDPAddr n) n) s).

Definition detachTURNServer s : option nat * life := (turnSrv (nt s), with_nt (set_turn None) s).

(** A step of [finishShutdown]; [None] while it waits. *)
Definition finishShutdown (pc : shutdown_pc) s : option (option shutdown_pc * life) :=
  match pc with
  | SdBegin => Some (Some SdStopWork, with_sig (λ g,
      {| shutdownRequested := shutdownRequested g; shutdownStarted := true; acceptingWork := acceptingWork g;
         lifetimeOver := lifetimeOver g; shutdownDone := shutdownDone g |}) s)
  | SdStopWork => Some (Some SdCancel, stopAcceptingOwnedWork s)
  | SdCancel => Some (Some SdCloseUnix, cancelServerLifetime s)
  | SdCloseUnix => Some (Some SdCloseConns, with_ls (λ l,
      {| unixListener := close_listener (unixListener l); httpListener := httpListener l; unixLoop := unixLoop l;
         listenerWG := listenerWG l; ready := ready l; announcing := announcing l |}) s)
  | SdCloseConns => Some (Some SdHTTP, closeUnixConnections s)
  | SdHTTP => Some (Some SdNatWait, with_ls (λ l,
      {| unixListener := unixListener l; httpListener := close_listener (httpListener l); unixLoop := unixLoop l;
         listenerWG := listenerWG l; ready := ready l; announcing := true |}) s)
  | SdNatWait => if (natWG (nt s) =? 0)%nat then Some (Some SdMapper, s) else None
  | SdMapper =>
      Some (Some (match natMapper (nt s) with Some m => SdStopMapper m | None => SdCompute end),
            with_nt (λ n, set_mapper None (onMapped n) n) s)
  | SdStopMapper m =>
      match mapperCall (nt s) with
      | None => Some (Some SdCompute, with_rs (on_mappers (closing m)) s)
      | Some _ => None
      end
  | SdCompute => Some (Some SdDownloads, with_rs close_compute s)
  | SdDownloads => if (downloadWG (wk s) =? 0)%nat then Some (Some SdHTTPWait, s) else None
  | SdHTTPWait => Some (Some SdListenerWait, s)
  | SdListenerWait => if (listenerWG (ls s) =? 0)%nat then Some (Some SdWorkWait, s) else None
  | SdWorkWait => if (workWG (wk s) =? 0)%nat then Some (Some SdOffline, s) else None
  | SdOffline => if announcing (ls s) then None else Some (Some SdClient, s)
  | SdClient => Some (Some SdQuic, with_rs close_client s)
  | SdQuic =>
      let '(qm, s) := detachQUICManager s in
      Some (Some SdTurn, match qm with Some c => with_rs (on_sockets (closing c)) s | None => s end)
  | SdTurn =>
      let '(ts, s) := detachTURNServer s in
      Some (Some SdStorage, match ts with Some t => with_rs (on_turns (closing t)) s | None => s end)
  | SdStorage => Some (Some SdFinish, with_rs close_storage s)
  | SdFinish => Some (None, with_sig (λ g,
      {| shutdownRequested := shutdownRequested g; shutdownStarted := shutdownStarted g; acceptingWork := acceptingWork g;
         lifetimeOver := lifetimeOver g; shutdownDone := true |}) s)
  end.

(** The goroutine of [announceOffline] ends. *)
Definition offlineDone s : life :=
  with_ls (λ l, {| unixListener := unixListener l; httpListener := httpListener l; unixLoop := unixLoop l;
                   listenerWG := listenerWG l; ready := ready l; announcing := false |}) s.

(** ** Steps *)

(** Everything that can happen to a server and changes it; [ListenAndServe] is
    called once. *)
Inductive life_step : life → life → Prop :=
  | step_begin s s' : beginOwnedWork s = (true, s') → life_step s s'
  | step_connection s i conn :
      running (wk s) !! i = Some (OnConn conn) → life_step s (endConnection i conn s)
  | step_finish s i : running (wk s) !! i = Some Plain → life_step s (finishOwnedWork i s)
  | step_listen a s s' : unixListener (ls s) = Unbound → ListenAndServe a s = (None, s') → life_step s s'
  | step_accept s : unixListener (ls s) = Bound → unixLoop (ls s) = Some Accepting → life_step s (acceptConn s)
  | step_serve s conn : unixLoop (ls s) = Some (Accepted conn) → life_step s (serveConn conn s)
  | step_loop_end s : unixLoop (ls s) = Some Accepting → life_step s (endLoop s)
  | step_enqueue job s s' : enqueueDownload job s = (None, s') → life_step s s'
  | step_worker s i took :
      downloaders (wk s) !! i = Some None → lifetimeOver (sig s) = true ∨ downloadQueue (wk s) ≠ [] →
      life_step s (workerRound i took s)
  | step_download s i job : downloaders (wk s) !! i = Some (Some job) → life_step s (workerDone i s)
  | step_check s s' : CheckNAT s = (true, s') → life_step s s'
  | step_nat a i pc pc' s s' :
      natThreads (nt s) !! i = Some pc → runNATCheck a pc s = Some (pc', s') →
      life_step s (with_nt (λ n, set_threads (<[i := pc']> (natThreads n)) (natWG n) n) s')
  | step_nat_leave i s :
      natThreads (nt s) !! i = Some NLeave →
      life_step s (with_nt (λ n, set_threads (delete i (natThreads n)) (pred (natWG n)) n) s)
  | step_mapped port s s' : beginRefresh port s = (true, s') → life_step s s'
  | step_refresh extIP port s :
      mapperCall (nt s) = Some (extIP, port) → life_step s (refreshPublicUDPFromMapping extIP port s)
  | step_request s s' : Shutdown s = (true, s') → life_step s s'
  | step_shutdown pc pc' s s' :
      sd s = Some pc → finishShutdown pc s = Some (pc', s') → life_step s (with_sd pc' s')
  | step_offline s : announcing (ls s) = true → life_step s (offlineDone s).

(** A server that [New] has made: its download workers wait, the outbox worker
    and the sweeper run. *)
Definition newServer (workers : nat) : life :=
  {| sig := {| shutdownRequested := false; shutdownStarted := false; acceptingWork := true; lifetimeOver := false;
               shutdownDone := false |};
     wk := {| running := [Plain; Plain]; workWG := 2; unixConns := ∅; downloaders := replicate workers None;
              downloadWG := workers; downloadQueue := [] |};
     ls := {| unixListener := Unbound; httpListener := Unbound; unixLoop := None; listenerWG := 0; ready := false;
              announcing := false |};
     nt := {| natThreads := []; natWG := 0; checkNATOnce := OnceFresh; natMapper := None; onMapped := None;
              mapperCall := None; quicMgr := None; turnSrv := None; publicUDPAddr := ""; isSponsor := false |};
     rs := {| fresh := 0; openConns := ∅; openSockets := ∅; openMappers := ∅; openTurns := ∅; computeOpen := true;
              clientOpen := true; storageOpen := true |};
     sd := None |}.

Definition lived (workers : nat) : life → Prop := rtc life_step (newServer workers).

(** ** Invariant *)

(** How far the shutdown is: nothing asked, the step [finishShutdown] is at, or
    complete. *)
Definition sd_rank (pc : shutdown_pc) : nat :=
  match pc with
  | SdBegin => 1 | SdStopWork => 2 | SdCancel => 3 | SdCloseUnix => 4 | SdCloseConns => 5 | SdHTTP => 6 | SdNatWait => 7
  | SdMapper => 8 | SdStopMapper _ => 9 | SdCompute => 10 | SdDownloads => 11 | SdHTTPWait => 12 | SdListenerWait => 13
  | SdWorkWait => 14 | SdOffline => 15 | SdClient => 16 | SdQuic => 17 | SdTurn => 18 | SdStorage => 19 | SdFinish => 20
  end.

Definition stage s : nat :=
  match sd s with Some pc => sd_rank pc | None => if shutdownDone (sig s) then 21 else 0 end.

(** The resources a goroutine of the detection holds, and whether it is inside
    the [Once]. *)
Definition nat_socket (pc : nat_pc) : option nat :=
  match pc with
  | NSocket ep _ | NOpened ep _ | NMapping ep _ | NMapperMade ep _ _ | NMapperWait ep _ _ | NDiscard ep _ _
  | NStopMapper ep _ _ | NMapped ep _ | NTurn ep _ | NTurnMade ep _ _ | NPrivate ep | NQuic ep _ | NQuicMade ep _ =>
      Some (EpConn ep)
  | _ => None
  end.
Definition nat_mapper (pc : nat_pc) : option nat :=
  match pc with
  | NMapperMade _ _ m | NMapperWait _ _ m | NDiscard _ _ m | NStopMapper _ _ m => Some m
  | _ => None
  end.
Definition nat_turn (pc : nat_pc) : option nat := match pc with NTurnMade _ _ t => Some t | _ => None end.
Definition inside (pc : nat_pc) : nat := match pc with NTimer | NOnce | NLeave => 0 | _ => 1 end.

(** What a goroutine knows of the published mapper. *)
Definition mapper_ok (n : option nat) (pc : nat_pc) : Prop :=
  match pc with
  | NStart | NOpen | NStun _ | NStunFailed _ | NBind | NBindFailed | NSocket _ _ | NOpened _ _ | NMapping _ _
  | NMapperMade _ _ _ => n = None
  | NMapperWait _ _ m | NDiscard _ _ m => n = Some m
  | _ => True
  end.
Definition stopping (pc : nat_pc) : bool := match pc with NStopMapper _ _ _ => true | _ => false end.
Definition work_conn (w : work) : option nat := match w with OnConn c => Some c | Plain => None end.

(** The wait groups count what runs. *)
Record counts_ok s : Prop := {
  ct_work : workWG (wk s) = length (running (wk s));
  ct_nat : natWG (nt s) = length (natThreads (nt s));
  ct_down : downloadWG (wk s) = length (downloaders (wk s));
  ct_loop : listenerWG (ls s) = match unixLoop (ls s) with Some _ => 1 | None => 0 end;
  ct_bound : unixLoop (ls s) ≠ None → unixListener (ls s) ≠ Unbound;
  ct_once : sum_list_with inside (natThreads (nt s)) = match checkNATOnce (nt s) with OnceRunning => 1 | _ => 0 end;
  ct_fresh : checkNATOnce (nt s) = OnceFresh → natMapper (nt s) = None;
  ct_mapper : Forall (mapper_ok (natMapper (nt s))) (natThreads (nt s)) }.

(** The signals and the engines follow the shutdown. *)
Record signals_ok s : Prop := {
  sg_requested : shutdownRequested (sig s) = (0 <? stage s)%nat;
  sg_started : shutdownStarted (sig s) = (1 <? stage s)%nat;
  sg_accepting : acceptingWork (sig s) = (stage s <=? 2)%nat;
  sg_over : lifetimeOver (sig s) = (3 <? stage s)%nat;
  sg_done : shutdownDone (sig s) = (20 <? stage s)%nat;
  sg_compute : computeOpen (rs s) = (stage s <=? 10)%nat;
  sg_client : clientOpen (rs s) = (stage s <=? 16)%nat;
  sg_storage : storageOpen (rs s) = (stage s <=? 19)%nat }.

(** What the shutdown has passed is gone. *)
Record gone_ok s : Prop := {
  gn_unix : 4 < stage s → unixListener (ls s) ≠ Bound;
  gn_http : 6 < stage s → httpListener (ls s) ≠ Bound;
  gn_nat : 7 < stage s → natThreads (nt s) = [];
  gn_mapper : 8 < stage s → natMapper (nt s) = None;
  gn_down : 11 < stage s → downloaders (wk s) = [];
  gn_loop : 13 < stage s → unixLoop (ls s) = None;
  gn_work : 14 < stage s → running (wk s) = [];
  gn_offline : 15 < stage s → announcing (ls s) = false;
  gn_quic : 17 < stage s → quicMgr (nt s) = None;
  gn_turn : 18 < stage s → turnSrv (nt s) = None }.

(** Everything that is open is held by a goroutine or published, and a callback
    of the mapper runs only while somebody has still to stop the mapper. *)
Record owned_ok s : Prop := {
  ow_conns x : x ∈ openConns (rs s) → Some x ∈ work_conn <$> running (wk s) ∨ unixLoop (ls s) = Some (Accepted x);
  ow_sockets x : x ∈ openSockets (rs s) → Some x ∈ nat_socket <$> natThreads (nt s) ∨ quicMgr (nt s) = Some x;
  ow_mappers x : x ∈ openMappers (rs s) →
    Some x ∈ nat_mapper <$> natThreads (nt s) ∨ natMapper (nt s) = Some x ∨ sd s = Some (SdStopMapper x);
  ow_turns x : x ∈ openTurns (rs s) → Some x ∈ nat_turn <$> natThreads (nt s) ∨ turnSrv (nt s) = Some x;
  ow_call : mapperCall (nt s) ≠ None →
    natMapper (nt s) ≠ None ∨ stage s = 9 ∨ true ∈ stopping <$> natThreads (nt s) }.

Record life_inv s : Prop := {
  inv_counts : counts_ok s;
  inv_signals : signals_ok s;
  inv_gone : gone_ok s;
  inv_owned : owned_ok s }.

(** ** Lists of goroutines *)

Lemma weight_insert {A} (f : A → nat) l i x y :
  l !! i = Some x → sum_list_with f (<[i := y]> l) + f x = sum_list_with f l + f y.
Proof.
  revert i. induction l as [|z l IH]; intros [|i]; [done..| |]; simpl.
  - intros [= ->]. lia.
  - intros H. specialize (IH _ H). lia.
Qed.

Lemma weight_delete {A} (f : A → nat) l i x : l !! i = Some x → sum_list_with f (delete i l) + f x = sum_list_with f l.
Proof.
  revert i. induction l as [|z l IH]; intros [|i]; [done..| |]; simpl.
  - intros [= ->]. lia.
  - intros H. specialize (IH _ H). lia.
Qed.

(** A value some goroutine holds is still held after one of them moved, unless
    that one held it. *)
Lemma hold_insert {A B} (f : A → B) (l : list A) i x y v :
  l !! i = Some x → v ∈ f <$> l → v ∈ f <$> <[i := y]> l ∨ f x = v.
Proof.
  intros Hi (z & -> & (j & Hj)%list_elem_of_lookup)%list_elem_of_fmap.
  destruct (decide (i = j)) as [->|Hne]; [right; congruence|left].
  apply list_elem_of_fmap_2, (list_elem_of_lookup_2 _ j). by rw list_lookup_insert_ne.
Qed.

Lemma hold_new {A B} (f : A → B) (l : list A) i x y : l !! i = Some x → f y ∈ f <$> <[i := y]> l.
Proof.
  intros Hi. apply list_elem_of_fmap_2, (list_elem_of_lookup_2 _ i).
  apply list_lookup_insert_eq. by eapply lookup_lt_Some.
Qed.

Lemma hold_delete {A B} (f : A → B) (l : list A) i x v :
  l !! i = Some x → v ∈ f <$> l → v ∈ f <$> delete i l ∨ f x = v.
Proof.
  intros Hi Hv. rw list_elem_of_fmap in Hv. destruct Hv as (z & -> & Hz).
  apply delete_Permutation in Hi. rw Hi in Hz. apply elem_of_cons in Hz as [->|Hz]; [by right|left].
  by apply list_elem_of_fmap_2.
Qed.

Lemma hold_app {A B} (f : A → B) (l k : list A) v : v ∈ f <$> l → v ∈ f <$> (l ++ k).
Proof. rw fmap_app. set_solver. Qed.

(** ** A step of the detection *)

Ltac nat_cases H :=
  match type of H with runNATCheck _ ?pc _ = _ => destruct pc end;
  cbn [runNATCheck openUDPEndpoint mapPortsWithUPnP maybeStartTURNServer startQUIC determineSponsorAndNATStatus] in H;
  unfold awaitTimer, maybeStartTURNCallee, goOwned, beginOwnedWork, applySponsorStatus in H;
  repeat case_match; simplify_eq/=.

(** It leaves the rest of the server alone, but may start an owned goroutine. *)
Record nat_frame s s' : Prop := {
  nf_sig : sig s' = sig s;
  nf_sd : sd s' = sd s;
  nf_ls : ls s' = ls s;
  nf_threads : natThreads (nt s') = natThreads (nt s);
  nf_wg : natWG (nt s') = natWG (nt s);
  nf_wk : wk s' = wk s ∨ acceptingWork (sig s) = true ∧ s' = (beginOwnedWork s).2;
  nf_conns : openConns (rs s') = openConns (rs s);
  nf_compute : computeOpen (rs s') = computeOpen (rs s);
  nf_client : clientOpen (rs s') = clientOpen (rs s);
  nf_storage : storageOpen (rs s') = storageOpen (rs s);
  nf_call : mapperCall (nt s') = mapperCall (nt s) }.

Lemma runNATCheck_frame a pc s pc' s' : runNATCheck a pc s = Some (pc', s') → nat_frame s s'.
Proof.
  intros H. nat_cases H; split; try done; try (by left).
  right. destruct (acceptingWork (sig s)) eqn:Hacc; [|done]. split; [done|]. unfold beginOwnedWork. by rw Hacc.
Qed.

(** Every step brings the goroutine nearer to its end. *)
Definition nat_rank (pc : nat_pc) : nat :=
  match pc with
  | NTimer => 40 | NOnce => 39 | NStart => 38 | NOpen => 37
  | NStun k => 31 + 2 * (2 - k) | NStunFailed k => 30 + 2 * (2 - k)
  | NBind => 29 | NBindFailed => 28 | NSocket _ _ => 27 | NOpened _ _ => 26 | NMapping _ _ => 25
  | NMapperMade _ _ _ => 24 | NMapperWait _ _ _ => 23 | NDiscard _ _ _ => 22 | NStopMapper _ _ _ => 21
  | NMapped _ _ => 20 | NTurn _ _ => 19 | NTurnMade _ _ _ => 18 | NPrivate _ => 17 | NQuic _ _ => 16 | NQuicMade _ _ => 15
  | NReach _ => 14 | NDetect _ => 13 | NDetected _ => 12 | NCallee => 11 | NChecked => 10 | NLeave => 1
  end.

Lemma runNATCheck_rank a pc s pc' s' : runNATCheck a pc s = Some (pc', s') → nat_rank pc' < nat_rank pc.
Proof.
  unfold natSTUNAttempts. intros H. nat_cases H; unfold after_turn, after_quic; repeat case_match; simpl; try lia.
  all: match goal with H : (_ <? _)%nat = true |- _ => apply Nat.ltb_lt in H end; unfold natSTUNAttempts in *; lia.
Qed.

(** What the goroutine opens it holds, and what it held it still holds, has
    published or has closed. *)
Record nat_hands pc s pc' s' : Prop := {
  nh_sockets x : x ∈ openSockets (rs s') →
    x ∈ openSockets (rs s) ∧ (nat_socket pc = Some x → nat_socket pc' = Some x ∨ quicMgr (nt s') = Some x) ∨
    nat_socket pc' = Some x;
  nh_quic x : quicMgr (nt s) = Some x → quicMgr (nt s') = Some x;
  nh_mappers x : x ∈ openMappers (rs s') →
    x ∈ openMappers (rs s) ∧
      (nat_mapper pc = Some x ∨ natMapper (nt s) = Some x → nat_mapper pc' = Some x ∨ natMapper (nt s') = Some x) ∨
    nat_mapper pc' = Some x;
  nh_turns x : x ∈ openTurns (rs s') →
    x ∈ openTurns (rs s) ∧ (nat_turn pc = Some x → nat_turn pc' = Some x ∨ turnSrv (nt s') = Some x) ∨
    nat_turn pc' = Some x;
  nh_turn x : turnSrv (nt s) = Some x → turnSrv (nt s') = Some x;
  nh_call : mapperCall (nt s) ≠ None → natMapper (nt s) ≠ None ∨ stopping pc = true →
    natMapper (nt s') ≠ None ∨ stopping pc' = true }.

Lemma mappedEndpoint_conn r ep known ep' known' : mappedEndpoint r ep known = (ep', known') → EpConn ep' = EpConn ep.
Proof. unfold mappedEndpoint. intros. by repeat case_match; simplify_eq/=. Qed.

Lemma runNATCheck_hands a pc s pc' s' :
  runNATCheck a pc s = Some (pc', s') → mapper_ok (natMapper (nt s)) pc → nat_hands pc s pc' s'.
Proof.
  intros H Hun. nat_cases H; split; simpl in *; try (intros x Hx); try done.
  all: repeat match goal with
    | H : _ ∈ _ ∪ _ |- _ => apply elem_of_union in H as [->%elem_of_singleton|H]
    | H : _ ∈ _ ∖ _ |- _ => apply elem_of_difference in H as [H ?%not_elem_of_singleton]
    | H : mappedEndpoint _ _ _ = _ |- _ => apply mappedEndpoint_conn in H
    | H : _ || bool_decide (is_Some _) = false |- _ => apply orb_false_iff in H as [_ H%bool_decide_eq_false]
    | H : turnSrv _ = Some _, H' : ¬ is_Some (turnSrv _) |- _ => by destruct H'; eexists
    | H : quicMgr _ = Some _, H' : ¬ is_Some (quicMgr _) |- _ => by destruct H'; eexists
    end.
  all: unfold after_turn, after_quic; repeat case_match; simpl; try (by right).
  all: try (left; split; [done|]; intros; naive_solver congruence).
  all: try (naive_solver congruence).
Qed.

(** The setup and what the goroutine knows of the mapper. *)
Lemma runNATCheck_once a pc s pc' s' :
  runNATCheck a pc s = Some (pc', s') → (checkNATOnce (nt s) = OnceFresh → natMapper (nt s) = None) →
  mapper_ok (natMapper (nt s)) pc →
  mapper_ok (natMapper (nt s')) pc' ∧
  (inside pc = 0 → natMapper (nt s') = natMapper (nt s)) ∧
  (checkNATOnce (nt s') = checkNATOnce (nt s) ∧ inside pc' = inside pc ∨
   checkNATOnce (nt s) = OnceFresh ∧ checkNATOnce (nt s') = OnceRunning ∧ inside pc = 0 ∧ inside pc' = 1 ∨
   checkNATOnce (nt s') = OnceDone ∧ inside pc = 1 ∧ inside pc' = 0).
Proof.
  intros H Hf Hun. nat_cases H; unfold after_turn, after_quic; repeat case_match; simpl in *; split_and!; try done; auto.
  by right; left.
Qed.

(** ** Every step keeps the invariant *)

Lemma stage_frame s s' : sig s' = sig s → sd s' = sd s → stage s' = stage s.
Proof. unfold stage. by intros -> ->. Qed.

Lemma signals_frame s s' :
  sig s' = sig s → sd s' = sd s → computeOpen (rs s') = computeOpen (rs s) → clientOpen (rs s') = clientOpen (rs s) →
  storageOpen (rs s') = storageOpen (rs s) → signals_ok s → signals_ok s'.
Proof.
  intros Hsig Hsd Hc Hcl Hst []. pose proof (stage_frame _ _ Hsig Hsd) as Hs.
  split; congruence.
Qed.

Lemma stage_requested s : signals_ok s → shutdownRequested (sig s) = false → stage s = 0.
Proof. intros [] H. rw sg_requested0 in H. by apply Nat.ltb_ge in H; lia. Qed.
Lemma stage_started s : signals_ok s → shutdownStarted (sig s) = false → stage s ≤ 1.
Proof. intros [] H. rw sg_started0 in H. by apply Nat.ltb_ge in H. Qed.
Lemma stage_accepting s : signals_ok s → acceptingWork (sig s) = true → stage s ≤ 2.
Proof. intros [] H. rw sg_accepting0 in H. by apply Nat.leb_le in H. Qed.
Lemma stage_alive s : signals_ok s → lifetimeOver (sig s) = false → stage s ≤ 3.
Proof. intros [] H. rw sg_over0 in H. by apply Nat.ltb_ge in H. Qed.
Lemma stage_nat s i pc : gone_ok s → natThreads (nt s) !! i = Some pc → stage s ≤ 7.
Proof. intros [] H. destruct (decide (7 < stage s)); [|lia]. by rw gn_nat0 in H. Qed.

Ltac inv_split :=
  split; [split|eapply signals_frame; [..|eassumption]; reflexivity|split|split]; unfold stage in *; simpl in *;
  auto; try lia.

(** Work begins and ends. *)
Lemma begin_inv s s' : life_inv s → beginOwnedWork s = (true, s') → life_inv s'.
Proof.
  intros [[] Hs [] []] H. unfold beginOwnedWork in H. destruct (acceptingWork (sig s)) eqn:Hacc; simplify_eq/=.
  pose proof (stage_accepting _ Hs Hacc). inv_split.
  - rw length_app. simpl. lia.
  - intros x Hx. destruct (ow_conns0 x Hx); [|by right]. left. by apply hold_app.
Qed.

Lemma connection_inv s i conn : life_inv s → running (wk s) !! i = Some (OnConn conn) → life_inv (endConnection i conn s).
Proof.
  intros [[] Hs [] []] Hi. inv_split.
  - by rw length_insert.
  - intros Hst. by rw gn_work0 in Hi.
  - intros x [Hx Hne%not_elem_of_singleton]%elem_of_difference. destruct (ow_conns0 x Hx) as [Hr|]; [left|by right].
    destruct (hold_insert _ _ _ _ Plain _ Hi Hr); [done|by simplify_eq/=].
Qed.

Lemma finish_inv s i : life_inv s → running (wk s) !! i = Some Plain → life_inv (finishOwnedWork i s).
Proof.
  intros [[] Hs [] []] Hi. inv_split.
  - rw length_delete; [lia|by eexists].
  - intros Hst. by rw gn_work0 in Hi.
  - intros x Hx. destruct (ow_conns0 x Hx) as [Hr|]; [left|by right].
    by destruct (hold_delete _ _ _ _ _ Hi Hr).
Qed.

(** Listeners. *)
Lemma nat_begin_inv pc s s' : inside pc = 0 → life_inv s → beginNATWork pc s = (true, s') → life_inv s'.
Proof.
  intros Hpc [[] Hs [] []] H. unfold beginNATWork in H. destruct (lifetimeOver (sig s)) eqn:Hov; simplify_eq/=.
  pose proof (stage_alive _ Hs Hov). inv_split.
  - rw length_app. simpl. lia.
  - rw sum_list_with_app. simpl. lia.
  - apply Forall_app. split; [done|]. apply Forall_singleton. by destruct pc.
  - intros x Hx. destruct (ow_sockets0 x Hx); [|by right]. left. by apply hold_app.
  - intros x Hx. destruct (ow_mappers0 x Hx) as [|]; [|by right]. left. by apply hold_app.
  - intros x Hx. destruct (ow_turns0 x Hx); [|by right]. left. by apply hold_app.
  - intros Hx. destruct (ow_call0 Hx) as [|[|]]; auto. right; right. by apply hold_app.
Qed.

Lemma listen_inv a s s' :
  life_inv s → unixListener (ls s) = Unbound → ListenAndServe a s = (None, s') → life_inv s'.
Proof.
  intros Hinv Hu H. unfold ListenAndServe in H. repeat case_match; simplify_eq/=. destruct Hinv as [[] Hs [] []].
  destruct (shutdownRequested (sig s)) eqn:Hreq; [done|]. pose proof (stage_requested _ Hs Hreq) as Hst.
  assert (Hloop : unixLoop (ls s) = None) by (destruct (unixLoop (ls s)); [by destruct ct_bound0|done]).
  assert (Hov : lifetimeOver (sig s) = false) by (rw (sg_over _ Hs) Hst; done).
  apply (nat_begin_inv NTimer (with_ls (λ l, {| unixListener := Bound; httpListener := Bound; unixLoop := Some Accepting;
    listenerWG := S (listenerWG l); ready := true; announcing := announcing l |}) s)); [done| |].
  2: { unfold scheduleNATCheck, beginNATWork. simpl. by rw Hov. }
  rw Hloop in ct_loop0, ow_conns0. inv_split.
  intros x Hx. by destruct (ow_conns0 x Hx) as [|]; [left|].
Qed.

Lemma accept_inv s :
  life_inv s → unixListener (ls s) = Bound → unixLoop (ls s) = Some Accepting → life_inv (acceptConn s).
Proof.
  intros [[] Hs [] []] Hu Hl. rw Hl in ct_loop0, ow_conns0, ct_bound0, gn_loop0. inv_split.
  - intros Hst. by specialize (gn_loop0 Hst).
  - intros x [->%elem_of_singleton|Hx]%elem_of_union; [by right|].
    by destruct (ow_conns0 x Hx) as [|]; [left|].
Qed.

Lemma serve_inv s conn : life_inv s → unixLoop (ls s) = Some (Accepted conn) → life_inv (serveConn conn s).
Proof.
  intros [[] Hs [] []] Hl. rw Hl in ct_loop0, ow_conns0, ct_bound0, gn_loop0.
  assert (Hlow : 13 < stage s → False) by (intros Hst; by specialize (gn_loop0 Hst)).
  unfold serveConn, beginUnixWork. destruct (acceptingWork (sig s)); simpl; inv_split.
  - rw length_app. simpl. lia.
  - intros x Hx. rw fmap_app. destruct (ow_conns0 x Hx) as [|[= ->]]; [set_solver|]. left. simpl. set_solver.
  - intros x [Hx Hne%not_elem_of_singleton]%elem_of_difference. destruct (ow_conns0 x Hx) as [|[= ->]]; [by left|done].
Qed.

Lemma loop_end_inv s : life_inv s → unixLoop (ls s) = Some Accepting → life_inv (endLoop s).
Proof.
  intros [[] Hs [] []] Hl. rw Hl in ct_loop0, ow_conns0, ct_bound0, gn_loop0. inv_split.
  intros x Hx. by destruct (ow_conns0 x Hx) as [|]; [left|].
Qed.

(** Downloads. *)
Lemma enqueue_inv job s s' : life_inv s → enqueueDownload job s = (None, s') → life_inv s'.
Proof.
  intros Hinv H. unfold enqueueDownload in H. repeat case_match; simplify_eq/=.
  destruct Hinv as [[] Hs [] []]. inv_split.
Qed.

Lemma worker_inv s i took : life_inv s → downloaders (wk s) !! i = Some None → life_inv (workerRound i took s).
Proof.
  intros [[] Hs [] []] Hi. assert (Hlow : 11 < stage s → False) by (intros Hst; by rw gn_down0 in Hi).
  unfold workerRound, with_wk. cbn beta zeta. destruct (lifetimeOver (sig s)); [|destruct (downloadQueue (wk s))]; inv_split;
    try (intros Hst; by destruct (Hlow Hst)).
  - rw length_delete; [lia|by eexists].
  - by rw length_insert.
Qed.

Lemma download_inv s i job : life_inv s → downloaders (wk s) !! i = Some (Some job) → life_inv (workerDone i s).
Proof.
  intros [[] Hs [] []] Hi. assert (Hlow : 11 < stage s → False) by (intros Hst; by rw gn_down0 in Hi).
  inv_split. by rw length_insert.
Qed.

(** The detection. *)
Lemma outside_others l i j pc pc' :
  sum_list_with inside l ≤ 1 → l !! i = Some pc → l !! j = Some pc' → i ≠ j → inside pc = 0 ∨ inside pc' = 0.
Proof.
  intros Hsum Hi Hj Hne. pose proof (weight_insert inside l i pc NLeave Hi) as H1.
  assert (Hj' : <[i := NLeave]> l !! j = Some pc') by (by rw list_lookup_insert_ne).
  pose proof (weight_delete inside _ j _ Hj') as H2. simpl in H1. lia.
Qed.

Lemma outside_mapper n pc : inside pc = 0 → mapper_ok n pc.
Proof. by destruct pc. Qed.

Lemma nat_counts a i pc pc' s s' :
  counts_ok s → natThreads (nt s) !! i = Some pc → runNATCheck a pc s = Some (pc', s') →
  counts_ok (with_nt (λ n, set_threads (<[i := pc']> (natThreads n)) (natWG n) n) s').
Proof.
  intros [] Hi H. destruct (runNATCheck_frame _ _ _ _ _ H).
  pose proof (proj1 (Forall_lookup _ _) ct_mapper0) as Hok.
  destruct (runNATCheck_once _ _ _ _ _ H ct_fresh0 (Hok _ _ Hi)) as (Hnew & Hsame & Honce).
  pose proof (weight_insert inside _ _ _ pc' Hi) as Hsum.
  assert (Hle : sum_list_with inside (natThreads (nt s)) ≤ 1) by (rw ct_once0; case_match; lia).
  split; simpl; rw ?nf_threads0 ?nf_wg0 ?nf_ls0 ?length_insert; try done.
  - destruct nf_wk0 as [->|[_ ->]]; [done|]. unfold beginOwnedWork. destruct (acceptingWork (sig s)); [|done].
    simpl. rw length_app. simpl. lia.
  - destruct nf_wk0 as [->|[_ ->]]; [done|]. unfold beginOwnedWork. by destruct (acceptingWork (sig s)).
  - destruct Honce as [[-> Heq]|[(Ho & -> & H0 & H1)|(-> & H1 & H0)]]; [lia| |].
    + rw Ho in ct_once0. lia.
    + lia.
  - intros Hf. destruct Honce as [[Ho Heq]|[(Ho & Hr & H0 & H1)|(Hr & H1 & H0)]]; [|congruence..].
    rw Ho in Hf. rw Hf in ct_once0. rw Hsame; [auto|]. pose proof (weight_delete inside _ _ _ Hi). lia.
  - apply Forall_lookup. intros j pcj [[<- [-> _]]|[Hne Hj]]%list_lookup_insert_Some; [done|].
    destruct (outside_others _ _ _ _ _ Hle Hi Hj Hne) as [Hout|Hout]; [|by apply outside_mapper].
    rw Hsame; [|done]. by eapply Hok.
Qed.

Lemma nat_owned a i pc pc' s s' :
  counts_ok s → owned_ok s → natThreads (nt s) !! i = Some pc → runNATCheck a pc s = Some (pc', s') →
  owned_ok (with_nt (λ n, set_threads (<[i := pc']> (natThreads n)) (natWG n) n) s').
Proof.
  intros [] [] Hi H. pose proof (proj1 (Forall_lookup _ _) ct_mapper0 _ _ Hi) as Hok.
  destruct (runNATCheck_frame _ _ _ _ _ H), (runNATCheck_hands _ _ _ _ _ H Hok).
  pose proof (hold_new nat_socket _ _ _ pc' Hi) as Hnews. pose proof (hold_new nat_mapper _ _ _ pc' Hi) as Hnewm.
  pose proof (hold_new nat_turn _ _ _ pc' Hi) as Hnewt. pose proof (hold_new stopping _ _ _ pc' Hi) as Hnewc.
  split; simpl; rw ?nf_threads0 ?nf_ls0.
  - intros x. rw nf_conns0. intros Hx. destruct (ow_conns0 x Hx) as [Hr|]; [left|by right].
    destruct nf_wk0 as [->|[_ ->]]; [done|]. unfold beginOwnedWork.
    destruct (acceptingWork (sig s)); [|done]. by apply hold_app.
  - intros x Hx. destruct (nh_sockets0 x Hx) as [[Hin Hkeep]|Hnew]; [|left; by rw -Hnew].
    destruct (ow_sockets0 x Hin) as [Hh|Hq]; [|right; auto].
    destruct (hold_insert _ _ _ _ pc' _ Hi Hh) as [|Hpc]; [by left|].
    destruct (Hkeep Hpc) as [<-|]; [by left|by right].
  - intros x Hx. destruct (nh_mappers0 x Hx) as [[Hin Hkeep]|Hnew]; [|left; by rw -Hnew].
    assert (Hpub : nat_mapper pc = Some x ∨ natMapper (nt s) = Some x →
      Some x ∈ nat_mapper <$> <[i := pc']> (natThreads (nt s)) ∨ natMapper (nt s') = Some x ∨ sd s' = Some (SdStopMapper x)).
    { intros Hp. destruct (Hkeep Hp) as [<-|]; auto. }
    destruct (ow_mappers0 x Hin) as [Hh|[Hq|Hq]]; [|auto|right; right; by rw nf_sd0].
    destruct (hold_insert _ _ _ _ pc' _ Hi Hh) as [|Hpc]; auto.
  - intros x Hx. destruct (nh_turns0 x Hx) as [[Hin Hkeep]|Hnew]; [|left; by rw -Hnew].
    destruct (ow_turns0 x Hin) as [Hh|Hq]; [|right; auto].
    destruct (hold_insert _ _ _ _ pc' _ Hi Hh) as [|Hpc]; [by left|].
    destruct (Hkeep Hpc) as [<-|]; [by left|by right].
  - rw nf_call0. intros Hc.
    assert (Hp : natMapper (nt s) ≠ None ∨ stopping pc = true → natMapper (nt s') ≠ None ∨ true ∈ stopping <$> <[i := pc']> (natThreads (nt s))).
    { intros Hp. destruct (nh_call0 Hc Hp) as [|Hst]; [by left|right]. by rw -Hst. }
    destruct (ow_call0 Hc) as [Hm|[Hst|Hh]]; [destruct (Hp (or_introl Hm)); auto|right; left|].
    + etrans; [|exact Hst]. by apply stage_frame.
    + destruct (hold_insert _ _ _ _ pc' _ Hi Hh) as [|Hpc]; [auto|]. destruct (Hp (or_intror Hpc)); auto.
Qed.

Lemma nat_inv a i pc pc' s s' :
  life_inv s → natThreads (nt s) !! i = Some pc → runNATCheck a pc s = Some (pc', s') →
  life_inv (with_nt (λ n, set_threads (<[i := pc']> (natThreads n)) (natWG n) n) s').
Proof.
  intros [Hc Hs Hg Ho] Hi H. pose proof (stage_nat _ _ _ Hg Hi) as Hst.
  pose proof (runNATCheck_frame _ _ _ _ _ H) as [].
  split; [by eapply nat_counts|by apply (signals_frame s)| |by eapply nat_owned].
  assert (Heq : stage (with_nt (λ n, set_threads (<[i := pc']> (natThreads n)) (natWG n) n) s') = stage s) by (by apply stage_frame).
  destruct Hg. split; rw Heq; try lia; simpl; by rw nf_ls0.
Qed.

Lemma nat_leave_inv i s :
  life_inv s → natThreads (nt s) !! i = Some NLeave →
  life_inv (with_nt (λ n, set_threads (delete i (natThreads n)) (pred (natWG n)) n) s).
Proof.
  intros [[] Hs Hg []] Hi. pose proof (stage_nat _ _ _ Hg Hi) as Hst. destruct Hg.
  pose proof (weight_delete inside _ _ _ Hi) as Hsum. simpl in Hsum. inv_split.
  - rw length_delete; [lia|by eexists].
  - by apply Forall_delete.
  - intros x Hx. destruct (ow_sockets0 x Hx) as [Hh|]; [|by right]. by destruct (hold_delete _ _ _ _ _ Hi Hh); [left|].
  - intros x Hx. destruct (ow_mappers0 x Hx) as [Hh|]; [|by right]. by destruct (hold_delete _ _ _ _ _ Hi Hh); [left|].
  - intros x Hx. destruct (ow_turns0 x Hx) as [Hh|]; [|by right]. by destruct (hold_delete _ _ _ _ _ Hi Hh); [left|].
  - intros Hx. destruct (ow_call0 Hx) as [|[|Hh]]; auto. by destruct (hold_delete _ _ _ _ _ Hi Hh); auto.
Qed.

(** The callback of the mapper. *)
Lemma mapped_inv port s s' : life_inv s → beginRefresh port s = (true, s') → life_inv s'.
Proof.
  intros Hinv H. unfold beginRefresh in H. repeat case_match; simplify_eq/=.
  destruct Hinv as [[] Hs [] []]. inv_split. intros _. left. congruence.
Qed.

Lemma refresh_inv extIP port s : life_inv s → life_inv (refreshPublicUDPFromMapping extIP port s).
Proof. intros [[] Hs [] []]. unfold refreshPublicUDPFromMapping. inv_split. Qed.

Lemma offline_inv s : life_inv s → life_inv (offlineDone s).
Proof. intros [[] Hs [] []]. inv_split. Qed.

(** Shutdown. *)
Lemma request_inv s s' : life_inv s → Shutdown s = (true, s') → life_inv s'.
Proof.
  intros [[] Hs [] []] H. unfold Shutdown in H. destruct (shutdownRequested (sig s)) eqn:Hreq; simplify_eq/=.
  pose proof (stage_requested _ Hs Hreq) as Hst. destruct Hs. rw Hst in sg_started0, sg_accepting0, sg_over0, sg_done0, sg_compute0, sg_client0, sg_storage0.
  split; split; simpl; auto; try (unfold stage; simpl; lia).
  - intros x Hx. destruct (ow_mappers0 x Hx) as [|[|Hsd]]; auto. unfold stage in Hst. by rw Hsd in Hst.
  - intros Hx. destruct (ow_call0 Hx) as [|[|]]; auto. lia.
Qed.

Ltac sd_cases H :=
  match type of H with finishShutdown ?pc _ = _ => destruct pc end;
  cbn [finishShutdown detachQUICManager detachTURNServer] in H;
  repeat match type of H with context [match ?x with _ => _ end] => destruct x eqn:? end; simplify_eq/=.

Lemma sd_stage pc s : sd s = Some pc → stage s = sd_rank pc.
Proof. unfold stage. by intros ->. Qed.

Lemma shutdown_counts pc pc' s s' :
  counts_ok s → (7 < sd_rank pc → natThreads (nt s) = []) → finishShutdown pc s = Some (pc', s') →
  counts_ok (with_sd pc' s').
Proof.
  intros [] Hnat H. sd_cases H; split; simpl; auto; try (rw Hnat; [done|simpl; lia]).
  intros Hl. by destruct (unixListener (ls s)); [destruct (ct_bound0 Hl)|..].
Qed.

Lemma shutdown_signals pc pc' s s' :
  signals_ok s → sd s = Some pc → finishShutdown pc s = Some (pc', s') → signals_ok (with_sd pc' s').
Proof.
  intros [] Hst%sd_stage H.
  rw Hst in sg_requested0, sg_started0, sg_accepting0, sg_over0, sg_done0, sg_compute0, sg_client0, sg_storage0.
  clear Hst. by sd_cases H; split; simpl.
Qed.

Lemma shutdown_gone pc pc' s s' :
  counts_ok s → gone_ok s → sd s = Some pc → finishShutdown pc s = Some (pc', s') → gone_ok (with_sd pc' s').
Proof.
  intros [] [] Hst%sd_stage H.
  rw Hst in gn_unix0, gn_http0, gn_nat0, gn_mapper0, gn_down0, gn_loop0, gn_work0, gn_offline0, gn_quic0, gn_turn0.
  clear Hst. sd_cases H; split; unfold stage; simpl; auto; try lia; intros _.
  all: repeat match goal with H : (_ =? 0)%nat = true |- _ => apply Nat.eqb_eq in H end.
  all: try (match goal with H : _ < _ → ?P |- ?P => apply H; lia end).
  all: try (by destruct (unixListener (ls s))); try (by destruct (httpListener (ls s))).
  all: try (apply nil_length_inv; lia).
  by destruct (unixLoop (ls s')); [lia|].
Qed.

Lemma shutdown_owned pc pc' s s' :
  gone_ok s → owned_ok s → sd s = Some pc → finishShutdown pc s = Some (pc', s') → owned_ok (with_sd pc' s').
Proof.
  intros [_ _ Hnat Hmap _ _ _ _ _ _] [] Hsd H. rw (sd_stage _ _ Hsd) in Hnat, Hmap, ow_call0. rw Hsd in ow_mappers0. clear Hsd.
  sd_cases H; split; unfold stage; simpl; auto.
  all: try (intros x Hx; destruct (ow_mappers0 x Hx) as [|[|]]; by auto).
  all: try (intros Hc; destruct (ow_call0 Hc) as [|[|]]; by auto).
  - intros x [Hx _]%elem_of_difference. auto.
  - intros x Hx. destruct (ow_mappers0 x Hx) as [|[|]]; [by auto|right; right; congruence|done].
  - intros x [Hx Hne%not_elem_of_singleton]%elem_of_difference.
    destruct (ow_mappers0 x Hx) as [|[|]]; [by auto..|congruence].
  - intros x [Hx Hne%not_elem_of_singleton]%elem_of_difference. destruct (ow_sockets0 x Hx); [by left|congruence].
  - intros x [Hx Hne%not_elem_of_singleton]%elem_of_difference. destruct (ow_turns0 x Hx); [by left|congruence].
Qed.

Lemma shutdown_inv pc pc' s s' :
  life_inv s → sd s = Some pc → finishShutdown pc s = Some (pc', s') → life_inv (with_sd pc' s').
Proof.
  intros [Hc Hs Hg Ho] Hsd H.
  split; [|by eapply shutdown_signals|by eapply shutdown_gone|by eapply shutdown_owned].
  eapply shutdown_counts; [done| |done]. rw -(sd_stage pc s); [by apply gn_nat|done].
Qed.

Lemma life_step_inv s s' : life_inv s → life_step s s' → life_inv s'.
Proof.
  intros Hinv Hstep. destruct Hstep.
  - eapply begin_inv; eassumption.
  - eapply connection_inv; eassumption.
  - eapply finish_inv; eassumption.
  - eapply listen_inv; eassumption.
  - eapply accept_inv; eassumption.
  - eapply serve_inv; eassumption.
  - eapply loop_end_inv; eassumption.
  - eapply enqueue_inv; eassumption.
  - eapply worker_inv; eassumption.
  - eapply download_inv; eassumption.
  - eapply (nat_begin_inv NOnce); [reflexivity|eassumption..].
  - eapply nat_inv; eassumption.
  - eapply nat_leave_inv; eassumption.
  - eapply mapped_inv; eassumption.
  - eapply refresh_inv; eassumption.
  - eapply request_inv; eassumption.
  - eapply shutdown_inv; eassumption.
  - eapply offline_inv; eassumption.
Qed.

Lemma newServer_inv workers : life_inv (newServer workers).
Proof.
  split; split; unfold stage; simpl; try done; try lia; try (intros x Hx; set_solver).
  by rw length_replicate.
Qed.

Lemma run_inv s s' : life_inv s → rtc life_step s s' → life_inv s'.
Proof. intros Hinv H. induction H as [|x y z Hstep _ IH]; [done|]. apply IH. by apply (life_step_inv x). Qed.

Lemma lived_inv workers s : lived workers s → life_inv s.
Proof. apply run_inv, newServer_inv. Qed.

(** ** Shutdown ends *)

(** What is still to be done before a shutdown is complete. *)
Definition dl_rank (d : option DownloadJob) : nat := match d with Some _ => 2 | None => 1 end.
Definition work_rank (w : work) : nat := match w with OnConn _ => 2 | Plain => 1 end.
Definition remaining s : nat :=
  sum_list_with nat_rank (natThreads (nt s)) + sum_list_with dl_rank (downloaders (wk s)) +
  sum_list_with work_rank (running (wk s)) +
  match unixLoop (ls s) with Some (Accepted _) => 2 | Some Accepting => 1 | None => 0 end +
  (if announcing (ls s) then 1 else 0) + match mapperCall (nt s) with Some _ => 1 | None => 0 end + 2 * (21 - stage s).

(** A server that only winds down. *)
Definition winding_down s : Prop := lifetimeOver (sig s) = true ∧ unixListener (ls s) ≠ Bound.

Lemma winding_stage s : life_inv s → winding_down s → 3 < stage s.
Proof. intros [_ [] _ _] [H _]. rw sg_over0 in H. by apply Nat.ltb_lt in H. Qed.

Lemma winding_refuses s :
  life_inv s → winding_down s →
  acceptingWork (sig s) = false ∧ shutdownRequested (sig s) = true ∧ shutdownStarted (sig s) = true.
Proof.
  intros Hinv Hw. pose proof (winding_stage _ Hinv Hw) as Hst. destruct Hinv as [_ [] _ _].
  rw sg_accepting0 sg_requested0 sg_started0. split_and!; [apply Nat.leb_gt|apply Nat.ltb_lt..]; lia.
Qed.

Lemma winding_nat a i pc pc' s s' :
  life_inv s → winding_down s → natThreads (nt s) !! i = Some pc → runNATCheck a pc s = Some (pc', s') →
  remaining (with_nt (λ n, set_threads (<[i := pc']> (natThreads n)) (natWG n) n) s') < remaining s.
Proof.
  intros Hinv Hw Hi H. destruct (winding_refuses _ Hinv Hw) as (Hacc & _ & _).
  pose proof (runNATCheck_rank _ _ _ _ _ H) as Hrank. destruct (runNATCheck_frame _ _ _ _ _ H).
  destruct nf_wk0 as [Hwk|[? _]]; [|congruence].
  pose proof (weight_insert nat_rank _ _ _ pc' Hi) as Hsum. unfold remaining, stage. simpl.
  rw nf_threads0 nf_ls0 nf_call0 nf_sd0 nf_sig0 Hwk. lia.
Qed.

Lemma winding_shutdown pc pc' s s' :
  life_inv s → sd s = Some pc → finishShutdown pc s = Some (pc', s') → remaining (with_sd pc' s') < remaining s.
Proof.
  intros Hinv Hsd H. unfold remaining, stage. rw Hsd. clear Hsd. sd_cases H; repeat case_match; lia.
Qed.

Lemma winding_decreases s s' : life_inv s → winding_down s → life_step s s' → remaining s' < remaining s.
Proof.
  intros Hinv Hw Hstep. destruct (winding_refuses _ Hinv Hw) as (Hacc & Hreq & Hsta). pose proof Hw as [Hover Hunix].
  destruct Hstep as [s s' H|s i conn Hi|s i Hi|a s s' _ H|s Hb|s conn Hl|s Hl|job s s' H|s i took Hi _|s i job Hi|s s' H
    |a i pc pc' s s' Hi H|i s Hi|port s s' H|extIP port s Hc|s s' H|pc pc' s s' Hsd H|s Ha].
  - unfold beginOwnedWork in H. by rw Hacc in H.
  - pose proof (weight_insert work_rank _ _ _ Plain Hi). unfold remaining, stage. simpl in *. lia.
  - pose proof (weight_delete work_rank _ _ _ Hi). unfold remaining, stage. simpl in *. lia.
  - unfold ListenAndServe in H. by rw Hreq in H.
  - by rw Hb in Hunix.
  - unfold serveConn, beginUnixWork. rw Hacc. unfold remaining, stage. simpl. rw Hl. lia.
  - unfold remaining, stage. simpl. rw Hl. lia.
  - unfold enqueueDownload in H. by rw Hsta in H.
  - pose proof (weight_delete dl_rank _ _ _ Hi). unfold workerRound, remaining, stage. simpl in *. rw Hover. simpl. lia.
  - pose proof (weight_insert dl_rank _ _ _ None Hi). unfold remaining, stage. simpl in *. lia.
  - unfold CheckNAT, beginNATWork in H. by rw Hover in H.
  - by eapply winding_nat.
  - pose proof (weight_delete nat_rank _ _ _ Hi). unfold remaining, stage. simpl in *. lia.
  - unfold beginRefresh in H. rw Hsta in H. by repeat case_match.
  - unfold refreshPublicUDPFromMapping, remaining, stage. simpl. rw Hc. lia.
  - unfold Shutdown in H. by rw Hreq in H.
  - by eapply winding_shutdown.
  - unfold remaining, stage. simpl. rw Ha. lia.
Qed.

(** Nothing waits for something that never comes. *)
Definition quietAnswers : natAnswers :=
  {| TimerWins := false; STUNAnswer := None; BindOk := false; LocalIPv4 := false;
     Mapping := {| MappedTCP := 0; MappedUDP := 0; ExternalIP := None |}; TURNStarts := false; HasTLS := false;
     ListenerStarts := false; ProbeAnswer := None |}.

Lemma call_moves s : mapperCall (nt s) ≠ None → ∃ s', life_step s s'.
Proof. destruct (mapperCall (nt s)) as [[extIP port]|] eqn:Hc; [|done]. intros _. eexists. by eapply step_refresh. Qed.

Lemma inside_moves i pc s : natThreads (nt s) !! i = Some pc → inside pc = 1 → ∃ s', life_step s s'.
Proof.
  intros Hi Hin. destruct (mapperCall (nt s)) eqn:Hc; [apply call_moves; congruence|].
  destruct (runNATCheck quietAnswers pc s) as [[pc' s']|] eqn:H; [eexists; by eapply step_nat|].
  destruct pc; simpl in *; by repeat case_match.
Qed.

Lemma nat_moves i pc s : counts_ok s → natThreads (nt s) !! i = Some pc → ∃ s', life_step s s'.
Proof.
  intros Hc Hi. destruct (inside pc) eqn:Hin; [|eapply inside_moves; [done|by destruct pc]].
  destruct (runNATCheck quietAnswers pc s) as [[pc' s']|] eqn:H; [eexists; by eapply step_nat|].
  destruct pc; try done; simpl in H; [|eexists; by eapply step_nat_leave].
  assert (Hone : sum_list_with inside (natThreads (nt s)) = 1) by (rw (ct_once _ Hc); by case_match).
  assert (Hex : Exists (λ pc, inside pc = 1) (natThreads (nt s))).
  { clear -Hone. induction (natThreads (nt s)) as [|pc l IH]; simpl in *; [done|].
    destruct pc; simpl in Hone; try (by left); right; auto. }
  apply Exists_exists in Hex as (pc & (j & Hj)%list_elem_of_lookup & Hpc). by eapply inside_moves.
Qed.

Lemma winding_moves s : life_inv s → winding_down s → shutdownDone (sig s) = false → ∃ s', life_step s s'.
Proof.
  intros Hinv Hw Hdone. pose proof (winding_stage _ Hinv Hw) as Hst. destruct Hinv as [Hc _ _ _]. destruct Hw as [Hover _].
  unfold stage in Hst. destruct (sd s) as [pc|] eqn:Hsd; [|rw Hdone in Hst; lia].
  destruct (finishShutdown pc s) as [[pc' s']|] eqn:H; [eexists; by eapply step_shutdown|].
  destruct pc; simpl in H; try done; destruct (Hc).
  - rw ct_nat0 in H. destruct (natThreads (nt s)) as [|pc l] eqn:Hl; [done|]. eapply (nat_moves 0 pc); [done|by rw Hl].
  - apply call_moves. by destruct (mapperCall (nt s)).
  - rw ct_down0 in H. destruct (downloaders (wk s)) as [|[job|] l] eqn:Hl; [done|..]; eexists.
    + apply (step_download _ 0 job). by rw Hl.
    + apply (step_worker _ 0 false); [by rw Hl|by left].
  - rw ct_loop0 in H. destruct (unixLoop (ls s)) as [[|conn]|] eqn:Hl; [..|done]; eexists;
      [by apply step_loop_end|by apply (step_serve _ conn)].
  - rw ct_work0 in H. destruct (running (wk s)) as [|[|conn] l] eqn:Hl; [done|..]; eexists.
    + apply (step_finish _ 0). by rw Hl.
    + apply (step_connection _ 0 conn). by rw Hl.
  - destruct (announcing (ls s)) eqn:Ha; [|done]. eexists. by apply step_offline.
Qed.

Lemma winding_stays s s' : life_inv s → winding_down s → life_step s s' → winding_down s'.
Proof.
  intros Hinv Hw Hstep. destruct (winding_refuses _ Hinv Hw) as (Hacc & Hreq & Hsta). destruct Hw as [Hover Hunix].
  destruct Hstep as [s s' H|s i conn Hi|s i Hi|a s s' _ H|s Hb|s conn Hl|s Hl|job s s' H|s i took Hi _|s i job Hi|s s' H
    |a i pc pc' s s' Hi H|i s Hi|port s s' H|extIP port s Hc|s s' H|pc pc' s s' Hsd H|s Ha]; try done.
  - unfold beginOwnedWork in H. by rw Hacc in H.
  - unfold ListenAndServe in H. by rw Hreq in H.
  - unfold serveConn, beginUnixWork. by rw Hacc.
  - unfold enqueueDownload in H. by rw Hsta in H.
  - unfold CheckNAT, beginNATWork in H. by rw Hover in H.
  - destruct (runNATCheck_frame _ _ _ _ _ H). split; simpl; [by rw nf_sig0|by rw nf_ls0].
  - unfold beginRefresh in H. rw Hsta in H. by repeat case_match.
  - unfold Shutdown in H. by rw Hreq in H.
  - sd_cases H; split; simpl; try done. by destruct (unixListener (ls s)).
Qed.

Lemma winding_run n s s' :
  life_inv s → winding_down s → nsteps life_step n s s' → n + remaining s' ≤ remaining s ∧ life_inv s' ∧ winding_down s'.
Proof.
  intros Hinv Hw H. induction H as [|n x y z Hstep _ IH]; [done|].
  pose proof (winding_decreases _ _ Hinv Hw Hstep).
  destruct IH as (Hle & ? & ?); [by eapply life_step_inv|by eapply winding_stays|]. split_and!; [lia|done..].
Qed.

Lemma winding_ends s :
  life_inv s → winding_down s → ∃ s', rtc life_step s s' ∧ shutdownDone (sig s') = true.
Proof.
  remember (remaining s) as n eqn:Hn. revert s Hn. induction n as [n IH] using lt_wf_ind. intros s -> Hinv Hw.
  destruct (shutdownDone (sig s)) eqn:Hdone; [by exists s|].
  destruct (winding_moves _ Hinv Hw Hdone) as [s1 H1].
  destruct (IH _ (winding_decreases _ _ Hinv Hw H1) s1) as (s2 & H2 & Hd); [done|by eapply life_step_inv|by eapply winding_stays|].
  exists s2. split; [by eapply rtc_l|done].
Qed.

(** The first steps of [finishShutdown] wait for nothing. *)
Lemma shutdown_starts s :
  0 < stage s ≤ 4 → ∃ s', life_step s s' ∧ stage s' = S (stage s).
Proof.
  unfold stage at 1 2. destruct (sd s) as [pc|] eqn:Hsd; [|destruct (shutdownDone (sig s)); lia]. intros Hst.
  destruct (finishShutdown pc s) as [[pc' s']|] eqn:H; [|destruct pc; simpl in *; lia || done].
  exists (with_sd pc' s'). split; [by eapply step_shutdown|]. unfold stage. rw Hsd. simpl.
  clear Hsd. sd_cases H; lia.
Qed.

Lemma asked_winds s : life_inv s → 0 < stage s → ∃ s', rtc life_step s s' ∧ winding_down s'.
Proof.
  remember (5 - stage s) as n eqn:Hn. revert s Hn. induction n as [|n IH]; intros s Hn Hinv Hpos.
  { exists s. split; [done|]. destruct Hinv as [_ [] [] _]. split; [|apply gn_unix0; lia]. rw sg_over0. apply Nat.ltb_lt. lia. }
  destruct (shutdown_starts s) as (s1 & H1 & Hst); [lia|].
  destruct (IH s1) as (s2 & H2 & Hw); [lia|by eapply life_step_inv|lia|].
  exists s2. split; [by eapply rtc_l|done].
Qed.

(** ** Theorems *)

Lemma stage_storage s : signals_ok s → storageOpen (rs s) = false → 19 < stage s.
Proof. intros [] H. rw sg_storage0 in H. by apply Nat.leb_gt in H. Qed.

Lemma stage_done s : signals_ok s → shutdownDone (sig s) = true → stage s = 21.
Proof. intros [] H. rw sg_done0 in H. apply Nat.ltb_lt in H. unfold stage in *. destruct (sd s) as [[]|]; simpl in *; lia || by destruct (shutdownDone _); lia. Qed.

Lemma late_quiet s : life_inv s → 15 < stage s →
  running (wk s) = [] ∧ downloaders (wk s) = [] ∧ natThreads (nt s) = [] ∧ unixLoop (ls s) = None ∧
  announcing (ls s) = false ∧ mapperCall (nt s) = None.
Proof.
  intros [_ _ [] []] Hst. split_and!; [apply gn_work0|apply gn_down0|apply gn_nat0|apply gn_loop0|apply gn_offline0|]; try lia.
  destruct (mapperCall (nt s)); [|done]. destruct ow_call0 as [Hm|[?|Hm]]; [done|..|lia|].
  - by destruct Hm; apply gn_mapper0; lia.
  - rw gn_nat0 in Hm; [set_solver|lia].
Qed.

Lemma done_empty s : life_inv s → shutdownDone (sig s) = true →
  openConns (rs s) = ∅ ∧ openSockets (rs s) = ∅ ∧ openMappers (rs s) = ∅ ∧ openTurns (rs s) = ∅.
Proof.
  intros Hinv Hdone. pose proof (stage_done _ (inv_signals _ Hinv) Hdone) as Hst.
  destruct (late_quiet _ Hinv) as (Hr & _ & Hn & Hl & _ & _); [lia|]. destruct Hinv as [_ _ [] []].
  rw Hr Hl in ow_conns0. rw Hn in ow_sockets0, ow_mappers0, ow_turns0.
  rw gn_quic0 in ow_sockets0; [|lia]. rw gn_mapper0 in ow_mappers0; [|lia]. rw gn_turn0 in ow_turns0; [|lia].
  assert (Hsd : sd s = None). { unfold stage in Hst. by destruct (sd s) as [[]|]. } rw Hsd in ow_mappers0.
  split_and!; apply set_eq; intros x; (split; [|set_solver]); intros Hx.
  - destruct (ow_conns0 x Hx); set_solver.
  - destruct (ow_sockets0 x Hx); set_solver.
  - destruct (ow_mappers0 x Hx) as [|[|]]; set_solver.
  - destruct (ow_turns0 x Hx); set_solver.
Qed.

End nat_detection.

Section theorems.
Context (ParseIP : string → option (list Z)) (cfg : natConfig) (workers : nat).

Lemma done_still s s' : life_inv s → shutdownDone (sig s) = true → ¬ life_step ParseIP cfg s s'.
Proof.
  intros Hinv Hdone Hstep. pose proof (stage_done _ (inv_signals _ Hinv) Hdone) as Hst.
  destruct (late_quiet _ Hinv) as (Hr & Hd & Hn & Hl & Ha & Hc); [lia|].
  assert (Hw : winding_down s).
  { destruct Hinv as [_ [] [] _]. split; [rw sg_over0; apply Nat.ltb_lt; lia|apply gn_unix0; lia]. }
  pose proof (winding_decreases _ _ _ _ Hinv Hw Hstep) as Hlt. unfold remaining in Hlt at 2.
  rw Hr Hd Hn Hl Ha Hc Hst in Hlt. simpl in Hlt. lia.
Qed.

(** C14: for every way in which the goroutines of a server interleave, and
    whatever the network, the gateway and the operating system answer: nothing
    is closed while no shutdown was asked for; the storage engine is closed
    only when no request, connection, owned goroutine, download worker, NAT
    check, callback of the mapper or announcement is left that could use it;
    and a shutdown that reports to be complete has closed every connection,
    UDP socket, port mapper, TURN server and listener, and nothing can happen
    to the server again. *)
Theorem shutdown_releases s :
  lived ParseIP cfg workers s →
  (shutdownRequested (sig s) = false →
     acceptingWork (sig s) = true ∧ lifetimeOver (sig s) = false ∧
     computeOpen (rs s) = true ∧ clientOpen (rs s) = true ∧ storageOpen (rs s) = true) ∧
  (storageOpen (rs s) = false →
     running (wk s) = [] ∧ downloaders (wk s) = [] ∧ natThreads (nt s) = [] ∧ unixLoop (ls s) = None ∧
     announcing (ls s) = false ∧ mapperCall (nt s) = None ∧ computeOpen (rs s) = false ∧ clientOpen (rs s) = false) ∧
  (shutdownDone (sig s) = true →
     storageOpen (rs s) = false ∧ openConns (rs s) = ∅ ∧ openSockets (rs s) = ∅ ∧ openMappers (rs s) = ∅ ∧
     openTurns (rs s) = ∅ ∧ unixListener (ls s) ≠ Bound ∧ httpListener (ls s) ≠ Bound ∧
     ∀ s', ¬ life_step ParseIP cfg s s').
Proof.
  intros Hinv%lived_inv. pose proof (inv_signals _ Hinv) as Hs. split_and!.
  - intros Hst%stage_requested; [|done]. destruct Hs. by rw sg_accepting0 sg_over0 sg_compute0 sg_client0 sg_storage0 Hst.
  - intros Hst%stage_storage; [|done]. destruct (late_quiet _ Hinv) as (? & ? & ? & ? & ? & ?); [lia|].
    destruct Hs. rw sg_compute0 sg_client0. split_and!; try done; apply Nat.leb_gt; lia.
  - intros Hdone. pose proof (stage_done _ Hs Hdone) as Hst. destruct (done_empty _ Hinv Hdone) as (? & ? & ? & ?).
    split_and!; try done; [by rw (sg_storage _ Hs) Hst| | |intros s'; by apply done_still].
    + apply (gn_unix _ (inv_gone _ Hinv)). lia.
    + apply (gn_http _ (inv_gone _ Hinv)). lia.
Qed.

(** C15: once a shutdown was asked for it can always be completed, and as soon
    as the lifetime is over and the Unix listener is closed it is completed by
    every schedule: at most [remaining] steps are left, whatever they are, and
    the server stops only when the shutdown is complete, so that no wait group,
    lock or channel is waited for in vain. *)
Theorem shutdown_completes s :
  lived ParseIP cfg workers s → shutdownRequested (sig s) = true →
  (∃ s', rtc (life_step ParseIP cfg) s s' ∧ shutdownDone (sig s') = true) ∧
  (lifetimeOver (sig s) = true → unixListener (ls s) ≠ Bound →
   ∀ n s', nsteps (life_step ParseIP cfg) n s s' →
     n ≤ remaining s ∧ ((∀ s'', ¬ life_step ParseIP cfg s' s'') → shutdownDone (sig s') = true)).
Proof.
  intros Hinv%lived_inv Hreq. split.
  - assert (Hpos : 0 < stage s). { apply Nat.ltb_lt. by rw -(sg_requested _ (inv_signals _ Hinv)). }
    destruct (asked_winds ParseIP cfg _ Hinv Hpos) as (s1 & H1 & Hw).
    destruct (winding_ends ParseIP cfg s1) as (s2 & H2 & Hd); [by eapply run_inv|done|].
    exists s2. split; [by etrans|done].
  - intros Hover Hunix n s' Hrun.
    destruct (winding_run ParseIP cfg n s s') as (Hle & Hinv' & Hw'); [done..|]. split; [lia|]. intros Hstuck.
    destruct (shutdownDone (sig s')) eqn:Hd; [done|].
    destruct (winding_moves ParseIP cfg _ Hinv' Hw' Hd) as [s'' Hs'']. by destruct (Hstuck s'').
Qed.

End theorems.

(** ** A run *)

Definition demoConfig : natConfig :=
  {| DisableUPnP := false; TURNEnabled := true; IsSponsorOverride := None; BootstrapNode := ""; HasTURNManager := true |}.
Definition demoIP (s : string) : option (list Z) := if bool_decide (s = "") then None else Some [93; 184; 216; 34]%Z.
Definition demoAnswers : natAnswers :=
  {| TimerWins := true; STUNAnswer := Some ("93.184.216.34", 4000%Z); BindOk := true; LocalIPv4 := true;
     Mapping := {| MappedTCP := 8080; MappedUDP := 4001; ExternalIP := None |}; TURNStarts := true; HasTLS := true;
     ListenerStarts := true; ProbeAnswer := None |}.

(** A schedule names the step that is taken; [perform] takes it. *)
Inductive choice :=
  | DoListen | DoAccept | DoServe | DoLoopEnd | DoConnection (i : nat) | DoFinish (i : nat) | DoWorker (i : nat)
  | DoNat (a : natAnswers) (i : nat) | DoNatLeave (i : nat) | DoMapped (port : Z) | DoRefresh | DoRequest | DoShutdown | DoOffline.

Definition perform ParseIP cfg (c : choice) s : option life :=
  let accepted r : option life := if r.1 : bool then Some r.2 else None in
  match c with
  | DoListen =>
      match unixListener (ls s), ListenAndServe {| UnixOk := true; ChmodOk := true; TCPOk := true; PortOk := true; SaveOk := true |} s with
      | Unbound, (None, s') => Some s'
      | _, _ => None
      end
  | DoAccept => match unixListener (ls s), unixLoop (ls s) with Bound, Some Accepting => Some (acceptConn s) | _, _ => None end
  | DoServe => match unixLoop (ls s) with Some (Accepted conn) => Some (serveConn conn s) | _ => None end
  | DoLoopEnd => match unixLoop (ls s) with Some Accepting => Some (endLoop s) | _ => None end
  | DoConnection i => match running (wk s) !! i with Some (OnConn conn) => Some (endConnection i conn s) | _ => None end
  | DoFinish i => match running (wk s) !! i with Some Plain => Some (finishOwnedWork i s) | _ => None end
  | DoWorker i =>
      match downloaders (wk s) !! i, lifetimeOver (sig s) with Some None, true => Some (workerRound i false s) | _, _ => None end
  | DoNat a i =>
      pc ← natThreads (nt s) !! i;
      '(pc', s') ← runNATCheck ParseIP cfg a pc s;
      Some (with_nt (λ n, set_threads (<[i := pc']> (natThreads n)) (natWG n) n) s')
  | DoNatLeave i =>
      match natThreads (nt s) !! i with
      | Some NLeave => Some (with_nt (λ n, set_threads (delete i (natThreads n)) (pred (natWG n)) n) s)
      | _ => None
      end
  | DoMapped port => accepted (beginRefresh port s)
  | DoRefresh =>
      match mapperCall (nt s) with Some (extIP, port) => Some (refreshPublicUDPFromMapping extIP port s) | None => None end
  | DoRequest => accepted (Shutdown s)
  | DoShutdown => pc ← sd s; '(pc', s') ← finishShutdown pc s; Some (with_sd pc' s')
  | DoOffline => if announcing (ls s) then Some (offlineDone s) else None
  end.

Lemma perform_step ParseIP cfg c s s' : perform ParseIP cfg c s = Some s' → life_step ParseIP cfg s s'.
Proof.
  destruct c; cbn [perform]; intros H.
  - destruct (unixListener (ls s)) eqn:?; [|done..]. destruct (ListenAndServe _ s) as [[] ?] eqn:?; simplify_eq.
    by eapply step_listen.
  - destruct (unixListener (ls s)) eqn:?, (unixLoop (ls s)) as [[]|] eqn:?; simplify_eq. by apply step_accept.
  - destruct (unixLoop (ls s)) as [[]|] eqn:?; simplify_eq. by apply step_serve.
  - destruct (unixLoop (ls s)) as [[]|] eqn:?; simplify_eq. by apply step_loop_end.
  - destruct (running (wk s) !! i) as [[]|] eqn:?; simplify_eq. by apply step_connection.
  - destruct (running (wk s) !! i) as [[]|] eqn:?; simplify_eq. by apply step_finish.
  - destruct (downloaders (wk s) !! i) as [[]|] eqn:?, (lifetimeOver (sig s)) eqn:?; simplify_eq.
    by apply step_worker; [|left].
  - destruct (natThreads (nt s) !! i) as [pc|] eqn:?; simpl in H; [|done].
    destruct (runNATCheck ParseIP cfg a pc s) as [[pc' s1]|] eqn:?; simplify_eq/=. by eapply step_nat.
  - destruct (natThreads (nt s) !! i) as [[]|] eqn:?; simplify_eq. by apply step_nat_leave.
  - destruct (beginRefresh port s) as [[] ?] eqn:?; simplify_eq/=. by eapply step_mapped.
  - destruct (mapperCall (nt s)) as [[]|] eqn:?; simplify_eq. by apply step_refresh.
  - destruct (Shutdown s) as [[] ?] eqn:?; simplify_eq/=. by eapply step_request.
  - destruct (sd s) as [pc|] eqn:?; simpl in H; [|done].
    destruct (finishShutdown pc s) as [[pc' s1]|] eqn:?; simplify_eq/=. by eapply step_shutdown.
  - destruct (announcing (ls s)) eqn:?; simplify_eq. by apply step_offline.
Qed.

Definition performs ParseIP cfg (cs : list choice) s : option life :=
  foldl (λ r c, s ← r; perform ParseIP cfg c s) (Some s) cs.

Lemma performs_run ParseIP cfg cs s s' : performs ParseIP cfg cs s = Some s' → rtc (life_step ParseIP cfg) s s'.
Proof.
  unfold performs. revert s. induction cs as [|c cs IH]; intros s; simpl; [by intros [= ->]|].
  destruct (perform ParseIP cfg c s) as [s1|] eqn:Hc.
  - intros H. eapply rtc_l; [by eapply perform_step|by apply IH].
  - intros H. exfalso. clear IH Hc. by induction cs.
Qed.

(** A server with a worker binds its sockets, serves a connection to its Unix
    socket, maps a port, publishes a QUIC manager and a TURN server, finds that
    it is a sponsor, hears of a new port, and is shut down while the connection
    is still open. *)
Definition demoStart : list choice :=
  [DoListen; DoAccept; DoServe] ++ replicate 19 (DoNat demoAnswers 0) ++ [DoNatLeave 0; DoMapped 4002; DoRefresh; DoRequest].
Definition demoStop : list choice :=
  replicate 7 DoShutdown ++ replicate 3 DoShutdown ++ [DoWorker 0; DoShutdown; DoShutdown; DoLoopEnd; DoShutdown;
   DoConnection 2; DoFinish 0; DoFinish 0; DoFinish 0; DoShutdown; DoOffline] ++ replicate 6 DoShutdown.

Definition demo (cs : list choice) : life := default (newServer 1) (performs demoIP demoConfig cs (newServer 1)).

Lemma demo_lived cs :
  is_Some (performs demoIP demoConfig cs (newServer 1)) → lived demoIP demoConfig 1 (demo cs).
Proof. intros [s Hs]. unfold demo, lived. rw Hs. by eapply performs_run. Qed.

Lemma shutdown_releases_witness :
  openSockets (rs (demo demoStart)) = {[1]} ∧ shutdownDone (sig (demo (demoStart ++ demoStop))) = true ∧
  openConns (rs (demo (demoStart ++ demoStop))) = ∅ ∧ openSockets (rs (demo (demoStart ++ demoStop))) = ∅ ∧
  openMappers (rs (demo (demoStart ++ demoStop))) = ∅ ∧ openTurns (rs (demo (demoStart ++ demoStop))) = ∅.
Proof.
  assert (Hdone : shutdownDone (sig (demo (demoStart ++ demoStop))) = true) by (vm_compute; reflexivity).
  destruct (shutdown_releases demoIP demoConfig 1 (demo (demoStart ++ demoStop))) as (_ & _ & Hd).
  { apply demo_lived. vm_compute. by eexists. }
  destruct (Hd Hdone) as (_ & H1 & H2 & H3 & H4 & _). split; [vm_compute; reflexivity|]. split_and!; assumption.
Defined.

Lemma shutdown_completes_witness :
  remaining (demo (demoStart ++ replicate 5 DoShutdown)) = 36 ∧
  ∀ n s', nsteps (life_step demoIP demoConfig) n (demo (demoStart ++ replicate 5 DoShutdown)) s' → n ≤ 36.
Proof.
  assert (Hrem : remaining (demo (demoStart ++ replicate 5 DoShutdown)) = 36) by (vm_compute; reflexivity).
  split; [exact Hrem|]. intros n s' Hrun.
  destruct (shutdown_completes demoIP demoConfig 1 (demo (demoStart ++ replicate 5 DoShutdown))) as [_ Hend].
  - apply demo_lived. vm_compute. by eexists.
  - vm_compute. reflexivity.
  - destruct (Hend ltac:(vm_compute; reflexivity) ltac:(vm_compute; discriminate) n s' Hrun) as [Hle _].
    by rw Hrem in Hle.
Defined.
