(* ===== verification/Catalog.v ===== *)
(** * The catalog

    [internal/server/service_catalog.go] and [local_pipelines.go]: the user's
    changes to the services and the pipelines of the node, announced to every
    peer through the outbox, and the handlers that take such an announcement
    over from a peer ([stream_handlers.go]).

    The state is the services file, the compute engine with the storage engine
    as its journal, and the peers.  An operation runs as one step; the reload
    of the services, which no lock protects, is also given as a step relation.
    The wake-up of tasks in escrow and the deliveries, which run in the
    background, are part of the results. *)
From Stdlib Require Import Ascii String.
From S2P Require Import Prelude GoStrings Json Protocol Pipeline Bolt Vfs Sha256 Physical Journal Engine Outbox.
From S2P Require Import PeerRegistry Tasks TaskStatus ComputeEngine Restart Bids Relay PeerHandlers Payload Services.
Local Open Scope stdpp_scope.

Record catalog (W DB Cert : Type) := {
  catFile : servicesFile;
  catEngine : ComputeEngine W (Engine DB);
  catPeers : PeerRegistry Cert }.
Arguments Build_catalog {W DB Cert}.
Arguments catFile {W DB Cert} _.
Arguments catEngine {W DB Cert} _.
Arguments catPeers {W DB Cert} _.

(** Work handed to [goOwned]. *)
Inductive catalogJob :=
  | WakeupTasks
  | Deliver (attempts : list outboxAttempt).

Section catalog.
Context {W DB Cert : Type} `{!ComputeWorld W} `{!Bolt DB} `{!Digest}.
(** Whether the build has WebRTC, the files named by the user, the handler
    each constructor returns, and the node's name and address. *)
Variable webrtc : bool.
Variable readSchemaFile : string → res ServiceSchema.
Variable readServiceFile : string → res LocalService.
Variable handlerOf : builtHandler → ServiceHandler W.
Variables (nodeID address : string).
Variable now : time.

Implicit Types c : catalog W DB Cert.
Abbreviation CM := (ST (catalog W DB Cert)).

Definition with_file f c : catalog W DB Cert := Build_catalog f (catEngine c) (catPeers c).
Definition with_engine e c : catalog W DB Cert := Build_catalog (catFile c) e (catPeers c).
Definition catDB c : DB := db (taskJournal (catEngine c)).
Definition with_catDB d c : catalog W DB Cert :=
  with_engine (set_journal (with_db d (taskJournal (catEngine c))) (catEngine c)) c.

Definition onFile {A} (m : ST servicesFile A) : CM A := λ c,
  let '(r, f) := m (catFile c) in (r, with_file f c).
Definition onCompute {A} (m : CE W (Engine DB) A) : CM A := λ c,
  let '(r, e) := m (catEngine c) in (r, with_engine e c).
Definition onStore {A} (m : ST DB A) : CM A := λ c,
  let '(r, d) := m (catDB c) in (r, with_catDB d c).

(** ** Services *)

(** One service of the file; a type the build does not know is skipped. *)
Definition registerLocalService (name : string) (svc : LocalService) : CE W (Engine DB) unit :=
  match BuildHandler webrtc (LsType svc) (LsExec svc) with
  | Err _ => mret ()
  | Ok h => RegisterNewService (NormalizeServiceSchema name (LsSchema svc) (LsType svc)) (handlerOf h);; mret ()
  end.

Fixpoint registerLocalServices (l : list (string * LocalService)) : CE W (Engine DB) unit :=
  match l with
  | [] => mret ()
  | (name, svc) :: rest => registerLocalService name svc;; registerLocalServices rest
  end.

(** The registry is emptied before the file is read. *)
Definition LoadLocalServices : CM unit :=
  onCompute ClearServices;;
  services ← attempt (onFile LoadServicesMap);
  match services with
  | Err _ => mret ()
  | Ok m =>
      e ← gets catEngine;
      onCompute (registerLocalServices (rangeOrder (world e) _ (map_to_list (default ∅ m))))
  end.

(** [mapEachPeer] on the services each peer lists. *)
Definition LocalServiceDiscoverContext c (answers : list (string * res (list string))) : list string :=
  let found : gset string :=
    list_to_set (Registry_ListAll (registry (catEngine c))) ∪
    ⋃ (list_to_set <$> mapEachPeer nodeID (λ _, false) answers) in
  sort_strings (elements found).

Definition emptySchema : ServiceSchema :=
  {| SName := ""; SType := ""; SDescription := ""; SParameters := None; SOutputs := None; SUI := None |}.

Definition discoveryQuery (name sortStrategy : string) : DiscoveryQuery :=
  {| QService := name; QRequiredParams := []; QRequiredCapabilities := ∅; QSortStrategy := sortStrategy;
     QPayloadSizeBytes := 0; QExcludedPeers := [] |}.

(** The schema and the address of the node that offers the service. *)
Definition LocalServiceDetail c (h : host) (name : string) (answers : list (string * res ServiceBid))
    : res (ServiceSchema * string) :=
  if bool_decide (name = "") then Err (EMsg "missing parameter: name")
  else match Registry_Get (registry (catEngine c)) name with
  | Some schema => Ok (schema, "")
  | None =>
      match RequestServiceToCluster (catEngine c) h (discoveryQuery name "") answers with
      | Ok (_, addr, schema) => Ok (schema, addr)
      | Err e => Err e
      end
  end.

Definition applyServiceAction (name : string) (localService : option LocalService) (action : string) : CM ServiceSchema :=
  if bool_decide (action = ActionAdd) then
    match localService with
    | None => fail (EMsg "local service required for add")
    | Some ls =>
        saved ← attempt (onFile (UpsertLocalService webrtc name ls));
        match saved with
        | Err e => if is_panic e then fail e else fail (EWrap "error saving services file" e)
        | Ok _ => LoadLocalServices;; mret (NormalizeServiceSchema name (LsSchema ls) (LsType ls))
        end
    end
  else if bool_decide (action = ActionRemove) then
    c ← gets id;
    let schema := NormalizeServiceSchema name (default emptySchema (Registry_Get (registry (catEngine c)) name)) "" in
    onFile (DeleteLocalService name);;
    LoadLocalServices;;
    mret schema
  else fail (EMsg "unknown service action").

(** ** Mutations with an announcement *)

(** What the file says now, as the outbox reads it. *)
Definition currentServices (f : servicesFile) : res (gmap string (string * ServiceSchema)) :=
  match (LoadServicesMap f).1 with
  | Ok m => Ok ((λ ls, (LsType ls, LsSchema ls)) <$> default ∅ m)
  | Err e => Err e
  end.

Definition outboxServer c : Server :=
  {| ServerID := nodeID; ServerAddress := address;
     PeerIDs := (map_to_list (GetPeersRecordCopy (catPeers c))).*1;
     Services := currentServices (catFile c) |}.

(** Reading the current state of an entity opens the file for a service. *)
Definition fileRead (kind : string) : CM unit :=
  if bool_decide (kind = kindService) then attempt (onFile LoadServicesMap);; mret () else mret ().

(** A staging that fails reconciles what it staged before. *)
Definition prepareMutation (kind entity : string) (payload : notification) : CM stagedOutboxMutation := λ c,
  match onStore (prepareOutboxMutation (outboxServer c) now kind entity payload) c with
  | (Ok m, c') => (Ok m, c')
  | (Err e, c') => (Err e, (fileRead kind c').2)
  end.

Definition finishMutation (m : stagedOutboxMutation) (committed : bool) : CM (list outboxAttempt) := λ c,
  let '(r, c') := onStore (finish (outboxServer c) now m committed) c in
  (r, if committed then c' else (fileRead (StagedKind m) c').2).

(** A panic of the mutation passes the reconciliation by.  The deliveries a
    failed mutation starts are not part of its result: the entries they send
    are in the outbox. *)
Definition commitCatalogMutation (kind entity : string) (payload : notification) (apply : CM unit)
    : CM (list catalogJob) :=
  staged ← prepareMutation kind entity payload;
  mutation ← attempt apply;
  match mutation with
  | Err (EPanic text) => fail (EPanic text)
  | _ =>
      finished ← attempt (finishMutation staged (is_ok mutation));
      match errors_Join [error_of mutation; error_of finished] with
      | Some e => fail e
      | None => mret (match finished with Ok l => [Deliver l] | Err _ => [] end)
      end
  end.

Definition serviceNotification (action : string) (schema : ServiceSchema) : notification :=
  ServiceNotification action nodeID schema.

Definition LocalServiceAdd (name serviceType exec desc param noRequired schemaFile : string) : CM (list catalogJob) :=
  match BuildLocalServiceFromArgs webrtc readSchemaFile readServiceFile
          name serviceType exec desc param noRequired schemaFile with
  | Err e => fail e
  | Ok (serviceName, localService) =>
      let payload := serviceNotification ActionAdd
        (NormalizeServiceSchema serviceName (LsSchema localService) (LsType localService)) in
      jobs ← commitCatalogMutation kindService serviceName payload
               (applyServiceAction serviceName (Some localService) ActionAdd;; mret ());
      mret (jobs ++ [WakeupTasks])
  end.

Definition LocalServiceRemove (name : string) : CM (list catalogJob) :=
  c ← gets id;
  let schema := NormalizeServiceSchema name (default emptySchema (Registry_Get (registry (catEngine c)) name)) "" in
  commitCatalogMutation kindService name (serviceNotification ActionRemove schema)
    (applyServiceAction name None ActionRemove;; mret ()).

Definition LocalServiceSubscribe (pattern : string) (subscribe : bool) : CM unit := λ c,
  if bool_decide (pattern = "") then (Err (EMsg "missing service subscription pattern"), c)
  else
    let '(r, j) := SetServiceSubscription pattern subscribe (taskJournal (catEngine c)) in
    (r, with_engine (set_journal j (catEngine c)) c).

(** ** Pipelines *)

(** [lookupCachedServiceSchema]: this node's services, then the peers'. *)
Definition lookupCachedServiceSchema c (serviceName : string) : option ServiceSchema :=
  match Registry_Get (registry (catEngine c)) serviceName with
  | Some sc => Some sc
  | None => GetServiceSchema (rangeOrder (world (catEngine c)) _) (catPeers c) serviceName
  end.

Definition Server_ValidatePipelineSchema c (schema : PipelineSchema) : res unit :=
  ValidatePipelineSchema schema (Some (lookupCachedServiceSchema c)).

(** The JSON of the user, decoded; [None] when it does not decode. *)
Definition parseAndValidatePipeline c (decoded : option PipelineSchema) : res PipelineSchema :=
  match decoded with
  | None => Err (EMsg "invalid pipeline schema JSON")
  | Some schema =>
      let schema := NormalizePipelineSchemaVersion schema in
      match Server_ValidatePipelineSchema c schema with
      | Err e => Err (EWrap "pipeline validation failed" e)
      | Ok _ => Ok schema
      end
  end.

Definition SavePipelineSchema (schema : PipelineSchema) : ST DB unit :=
  let schema := NormalizePipelineSchemaVersion schema in
  boltPutKeyed PipelineSchemas (SchemaID schema) (JDoc schema).

Definition withDeleted (b : bool) (schema : PipelineSchema) : PipelineSchema :=
  {| SchemaID := SchemaID schema; SchemaVersion := SchemaVersion schema; Steps := Steps schema;
     Connections := Connections schema; SchemaDeleted := b |}.

(** The storage engine persists a revision before the maps hold it. *)
Definition persistRevision (staged : PipelineSchema) : CE W (Engine DB) (option error) :=
  onJournal (λ j,
    let '(r, d) := SavePipelineSchema staged (db j) in
    (match r with Ok _ => None | Err e => Some (EWrap "failed to save pipeline schema revision to DB" e) end,
     with_db d j)).

Definition applyPipelineAction (schema : PipelineSchema) (action : string) : CM unit :=
  let schema := NormalizePipelineSchemaVersion schema in
  let apply sch := e ← onCompute (ApplyPipelineRevision sch (Some persistRevision)); return_error e in
  if bool_decide (action = ActionAdd) then apply schema
  else if bool_decide (action = ActionRemove) then apply (withDeleted true schema)
  else fail (EMsg "unknown pipeline action").

Definition pipelineNotification (action : string) (schema : PipelineSchema) : notification :=
  PipelineNotification action nodeID schema.

Definition LocalPipelineAdd (decoded : option PipelineSchema) : CM (list catalogJob) :=
  c ← gets id;
  schema ← of_res (parseAndValidatePipeline c decoded);
  let schema := withDeleted false schema in
  commitCatalogMutation kindPipeline (SchemaID schema) (pipelineNotification ActionAdd schema)
    (applyPipelineAction schema ActionAdd).

Definition LocalPipelineRemove (id : string) : CM (list catalogJob) :=
  if bool_decide (id = "") then fail (ESentinel ErrEmptyPipelineID)
  else
    c ← gets (λ c, c);
    let found := match GetPipeline (catEngine c) id with
                 | Some schema => Some schema
                 | None => GetPipelineRevision (catEngine c) id
                 end in
    match found with
    | None => fail (EMsg "pipeline schema not found in cluster")
    | Some schema =>
        let schema := withDeleted true schema in
        commitCatalogMutation kindPipeline (SchemaID schema) (pipelineNotification ActionRemove schema)
          (applyPipelineAction schema ActionRemove)
    end.

(** [New]: the stored revisions are registered again; one that is refused is
    skipped. *)
Fixpoint registerPipelines (l : list (string * PipelineSchema)) : CE W (Engine DB) unit :=
  match l with
  | [] => mret ()
  | (_, schema) :: rest => RegisterPipeline schema;; registerPipelines rest
  end.

Definition restorePipelines : CM unit :=
  schemas ← attempt (onStore LoadPipelineSchemas);
  match schemas with
  | Err _ => mret ()
  | Ok m => e ← gets catEngine; onCompute (registerPipelines (rangeOrder (world e) _ (map_to_list m)))
  end.

Definition LocalPipelineGet c (id : string) : res PipelineSchema :=
  if bool_decide (id = "") then Err (ESentinel ErrEmptyPipelineID)
  else match GetPipeline (catEngine c) id with
  | Some schema => Ok schema
  | None => Err (EMsg "pipeline schema not found in cluster")
  end.

Definition LocalPipelineClone c (id newID targetNodeID : string) : res PipelineSchema :=
  match LocalPipelineGet c id with
  | Err e => Err e
  | Ok schema =>
      let cloneID := if bool_decide (newID = "") then SchemaID schema +:+ "-custom" else newID in
      let target := if bool_decide (targetNodeID = "$local") || bool_decide (targetNodeID = "local")
                    then nodeID else targetNodeID in
      let retarget st := {| StepID := StepID st; StepService := StepService st; StepTargetNodeID := target |} in
      Ok {| SchemaID := cloneID; SchemaVersion := SchemaVersion schema;
            Steps := if bool_decide (target = "") then Steps schema else retarget <$> Steps schema;
            Connections := Connections schema; SchemaDeleted := SchemaDeleted schema |}
  end.

(** ** Announcements of the catalog to one peer *)

(** [send] is the peer's answer. *)
Definition notifyWithOutbox (peerID kind dedupe : string) (payload : notification) (send : res unit) : CM unit :=
  onStore (
    r ← stageOutbox now peerID kind dedupe payload;
    if negb (snd r : bool) then mret () else deliverOutboxAttempt (fst r) send).

Definition notifyService (peerID : string) (schema : ServiceSchema) (action : string) (send : res unit) : CM unit :=
  notifyWithOutbox peerID kindService (SName schema) (serviceNotification action schema) send.

Definition notifyPipeline (peerID : string) (schema : PipelineSchema) (action : string) (send : res unit) : CM unit :=
  let schema := NormalizePipelineSchemaVersion schema in
  notifyWithOutbox peerID kindPipeline (SchemaID schema) (pipelineNotification action schema) send.

(** A peer that joined is told the pipelines, then the services; the VFS has
    its own synchronisation.  An answer that failed stays in the outbox. *)
Fixpoint notifyEach {A} (notify : A → CM unit) (l : list A) : CM unit :=
  match l with
  | [] => mret ()
  | a :: rest => attempt (notify a);; notifyEach notify rest
  end.

Definition syncCatalogToPeer (peerID : string) (send : notification → res unit) : CM unit :=
  c ← gets id;
  notifyEach (λ sch, notifyPipeline peerID sch ActionAdd
                       (send (pipelineNotification ActionAdd (NormalizePipelineSchemaVersion sch))))
    (ListPipelines (catEngine c));;
  c' ← gets id;
  notifyEach (λ sch, notifyService peerID sch ActionAdd (send (serviceNotification ActionAdd sch)))
    (omap (Registry_Get (registry (catEngine c'))) (Registry_ListAll (registry (catEngine c')))).

(** ** Announcements from a peer *)

(** The reply and whether tasks in escrow are woken. *)
Definition HandleServiceNotify (r : peerRequest Cert (string * string * ServiceSchema)) : CM (peerReply * list catalogJob) := λ c,
  match decodePeerBody r (λ '(_, peer, _), peer) (λ _, None) with
  | inl reply => (Ok (reply, []), c)
  | inr (action, peer, schema) =>
      match (IsServiceSubscribedE (SName schema) (taskJournal (catEngine c))).1 with
      | Err _ => (Ok (Refused 500 "failed to read service subscriptions", []), c)
      | Ok false => (Ok (Said "", []), c)
      | Ok true =>
          (Ok (Said "", [WakeupTasks]),
           Build_catalog (catFile c) (catEngine c) (UpdatePeerService peer action schema (catPeers c)))
      end
  end.

Definition HandleSchemaNotify (r : peerRequest Cert (string * string * PipelineSchema)) : CM peerReply := λ c,
  match decodePeerBody r (λ '(_, peer, _), peer) (λ _, None) with
  | inl reply => (Ok reply, c)
  | inr (action, _, schema) =>
      let schema := NormalizePipelineSchemaVersion schema in
      let valid := if bool_decide (action = ActionAdd) then Server_ValidatePipelineSchema c schema else Ok () in
      match valid with
      | Err _ => (Ok (Refused 400 "invalid pipeline schema"), c)
      | Ok _ =>
          match applyPipelineAction schema action c with
          | (Ok _, c') => (Ok (Said ""), c')
          | (Err e, c') => (Ok (Refused 500 (error_text e)), c')
          end
      end
  end.

(** The peer that runs a service; a pipeline runs here. *)
Definition resolveServiceBidTarget c (h : host) (serviceName sortStrategy : string)
    (answers : list (string * res ServiceBid)) : res string :=
  match GetPipeline (catEngine c) serviceName with
  | Some _ => Ok nodeID
  | None =>
      match RequestServiceToCluster (catEngine c) h
              (discoveryQuery serviceName (NormalizeSortStrategy sortStrategy)) answers with
      | Ok (peerID, _, _) => Ok peerID
      | Err e => Err e
      end
  end.

(** ** Reloads without a lock *)

(** Two goroutines may reload at once: each empties the registry, reads the
    file, and registers what it read, one service at a time. *)
Inductive reload := Start | Emptied | Registering (left : list (string * LocalService)) | Reloaded.

Inductive reload_step : reload * catalog W DB Cert → reload * catalog W DB Cert → Prop :=
  | reload_clear c : reload_step (Start, c) (Emptied, (onCompute ClearServices c).2)
  | reload_read c m c' l :
      onFile LoadServicesMap c = (Ok m, c') → l ≡ₚ map_to_list (default ∅ m) →
      reload_step (Emptied, c) (Registering l, c')
  | reload_unreadable c e c' : onFile LoadServicesMap c = (Err e, c') → reload_step (Emptied, c) (Reloaded, c')
  | reload_register name svc l c :
      reload_step (Registering ((name, svc) :: l), c) (Registering l, (onCompute (registerLocalService name svc) c).2)
  | reload_done c : reload_step (Registering [], c) (Reloaded, c).
End catalog.
