(* ===== verification/CatalogLaws.v ===== *)
(** * Laws of the catalog

    After a change of the services the registry offers what the file holds,
    and the outbox holds for every other peer an announcement that is true of
    the file, whether the change succeeded or failed. *)
From Stdlib Require Import Ascii String.
From S2P Require Import Prelude GoStrings Json Protocol Pipeline Bolt Vfs Sha256 Physical Journal Engine Gc Outbox.
From S2P Require Import OutboxLaws Delivery OutboxMutations PeerRegistry Tasks TaskStatus ComputeEngine ComputeSim.
From S2P Require Import Restart Bids Relay PeerHandlers Payload Services ServicesLaws Catalog.
Local Open Scope stdpp_scope.

Section laws.
Context {W DB Cert : Type} `{!ComputeWorld W} `{!ComputeWorldLaws W} `{!Bolt DB} `{!Digest}.
Variable webrtc : bool.
Variable handlerOf : builtHandler → ServiceHandler W.
Implicit Types (c : catalog W DB Cert) (e : ComputeEngine W (Engine DB)).

(** ** The registry offers the file *)

(** What a service of the file is in the registry. *)
Definition offered (svc : LocalService) : option (registeredService W) :=
  match BuildHandler webrtc (LsType svc) (LsExec svc) with
  | Ok h => Some {| schema := LsSchema svc; handler := handlerOf h |}
  | Err _ => None
  end.

Definition offers (r : ServiceRegistry W) (m : gmap string LocalService) : Prop :=
  ∀ name, r !! name = m !! name ≫= offered.

Lemma registerLocalService_run name svc e :
  service_wf webrtc name svc → registry e !! name = None →
  ∃ s, offered svc = Some s ∧
    registerLocalService webrtc handlerOf name svc e = (Ok (), set_registry (<[name := s]> (registry e)) e).
Proof.
  intros Hwf Hnone. destruct (sw_handler _ _ _ Hwf) as [h Hh].
  unfold offered, registerLocalService. rw Hh. eexists. split; [done|].
  unfold mbind, st_bind, RegisterNewService, Register. rw (wf_schema _ _ _ Hwf) (sw_name _ _ _ Hwf) Hnone. done.
Qed.

Lemma registerLocalServices_run l e :
  NoDup l.*1 → (∀ name svc, (name, svc) ∈ l → service_wf webrtc name svc) → (∀ name, name ∈ l.*1 → registry e !! name = None) →
  ∃ r, registerLocalServices webrtc handlerOf l e = (Ok (), set_registry r e) ∧
    ∀ name, r !! name = match (list_to_map l : gmap string LocalService) !! name with
                        | Some svc => offered svc
                        | None => registry e !! name
                        end.
Proof.
  revert e. induction l as [|[name svc] l IH]; intros e Hnd Hwf Hnone.
  { exists (registry e). split; [by destruct e|]. intros n. by rw lookup_empty. }
  apply NoDup_cons in Hnd as [Hname Hnd].
  destruct (registerLocalService_run name svc e) as (s & Hs & Hrun); [apply Hwf; by left|apply Hnone; by left|].
  destruct (IH (set_registry (<[name := s]> (registry e)) e)) as (r & Hrun2 & Hr); [done|intros; apply Hwf; by right| |].
  { intros n Hn. simpl. rw lookup_insert_ne; [apply Hnone; by right|]. intros ->. done. }
  exists r. split.
  { cbn [registerLocalServices]. unfold mbind, st_bind. rw Hrun Hrun2. by destruct e. }
  intros n. rw Hr. simpl. rw !lookup_insert. destruct (decide (name = n)) as [<-|]; [|done].
  by rw not_elem_of_list_to_map_1.
Qed.

(** The parts of the state a change of services leaves alone. *)
Definition services_only c c' : Prop := catPeers c' = catPeers c ∧ taskJournal (catEngine c') = taskJournal (catEngine c).

(** A reload registers the services of the file, or none when the file cannot
    be read. *)
Lemma LoadLocalServices_spec c r c' :
  file_wf webrtc (catFile c) → LoadLocalServices webrtc handlerOf c = (r, c') →
  r = Ok () ∧ services_only c c' ∧
  (svcContent (catFile c') = svcContent (catFile c) ∧ (svcScript (catFile c) = [] → svcScript (catFile c') = [])) ∧
  match (LoadServicesMap (catFile c)).1 with
  | Ok m => offers (registry (catEngine c')) (default ∅ m)
  | Err _ => registry (catEngine c') = ∅
  end.
Proof.
  intros Hwf. unfold LoadLocalServices, mbind, st_bind, attempt, onFile, onCompute. simpl.
  destruct (LoadServicesMap (catFile c)) as [rl f] eqn:Hload. pose proof Hload as [Hc Hm]%Load_spec.
  destruct rl as [m|err].
  2:{ intros [= <- <-]. simpl. split; [done|]. by split. }
  simpl. specialize (Hm m eq_refl).
  set (e0 := set_registry _ (catEngine c)). set (l := rangeOrder (world _) _ _).
  assert (l ≡ₚ map_to_list (default ∅ m)) as Hl by apply rangeOrder_perm.
  destruct (registerLocalServices_run l e0) as (reg & Hrun & Hreg).
  - rw Hl. apply NoDup_fst_map_to_list.
  - intros name svc Hin. rewrite ->Hl in Hin. apply (Hwf m Hm). by apply elem_of_map_to_list.
  - intros name _. apply lookup_empty.
  - rw Hrun. intros [= <- <-]. simpl. split; [done|]. split; [done|]. split; [done|].
    intros name. rw Hreg.
    rw (list_to_map_proper l (map_to_list (default ∅ m))) //; [|rw Hl; apply NoDup_fst_map_to_list].
    rw list_to_map_to_list. by destruct (default ∅ m !! name).
Qed.
(** ** One change of the services *)

(** The registry offers the file, or nothing when the file system failed on
    the way. *)
Definition reloaded (before : servicesFile) c : Prop :=
  (registry (catEngine c) = ∅ ∧ svcScript before ≠ []) ∨
  ∃ m, fileServices (catFile c) = Some m ∧ offers (registry (catEngine c)) (default ∅ m).

Definition applies c (edit : gmap string LocalService → gmap string LocalService) (r : res unit) c' : Prop :=
  services_only c c' ∧ edits edit (catFile c) r (catFile c') ∧
  (is_ok r = true → reloaded (catFile c) c').

(** A change of the file followed by a reload. *)
Lemma reload_applies c f edit r c' :
  edits edit (catFile c) (Ok ()) f → file_wf webrtc f →
  LoadLocalServices webrtc handlerOf (with_file f c) = (r, c') → r = Ok () ∧ applies c edit (Ok ()) c'.
Proof.
  intros [Hq [[_ [=]]|(m & Hm & Hf)]] Hwf Hrun.
  apply LoadLocalServices_spec in Hrun as (-> & Hso & [Hc Hq'] & Hreg); [|done]. cbn [catFile with_file] in *.
  assert (fileServices f = Some (Some (edit m))) as Hfm by (unfold fileServices; by rw Hf).
  split; [done|]. split; [done|]. split.
  { split; [auto|]. right. exists m. by rw Hc. }
  intros _. destruct (LoadServicesMap f) as [[m'|e] f'] eqn:Hload; cbn [fst] in Hreg.
  - right. exists m'. split; [|done]. apply Load_spec in Hload as [_ Hm']. unfold fileServices in *. rw Hc. by apply Hm'.
  - left. split; [done|]. intros Hs. pose proof (Load_quiet f (Some (edit m)) (Hq Hs) Hfm) as Hq2. by rw Hload in Hq2.
Qed.

(** A change of the file that failed. *)
Lemma failed_applies c f edit err err' :
  edits edit (catFile c) (Err err) f → applies c edit (Err err') (with_file f c).
Proof. intros Hed. split; [done|]. split; [|done].
  destruct Hed as [Hq Hed]. split; [done|]. destruct Hed as [[? _]|(m & ? & ?)]; [by left|right; by exists m].
Qed.

Lemma apply_add name ls c r c' :
  service_wf webrtc name ls → file_wf webrtc (catFile c) → fileServices (catFile c) ≠ Some None →
  (applyServiceAction webrtc handlerOf name (Some ls) ActionAdd;; mret ()) c = (r, c') →
  applies c (insert name ls) r c' ∧ panics r = false.
Proof.
  intros Hls Hwf Hnull. unfold applyServiceAction. rw (bool_decide_eq_true_2 (ActionAdd = ActionAdd)) //.
  unfold mbind, st_bind, attempt, onFile.
  pose proof (Upsert_no_panic webrtc name ls (catFile c) Hls Hnull) as Hp.
  destruct (UpsertLocalService _ _ _ _) as [r1 f1] eqn:Hup.
  pose proof (Upsert_edits _ _ _ _ _ _ Hup) as Hed. rw (sw_fixed _ _ _ Hls) in Hed.
  destruct r1 as [[]|e].
  - destruct (LoadLocalServices _ _ _) as [r2 c2] eqn:Hrun.
    apply (reload_applies c f1 (insert name ls)) in Hrun as [-> ?]; [by intros [= <- <-]|done|].
    eapply edits_wf; [|exact Hed|done]. intros m. by apply services_wf_insert.
  - cbn [panics fst] in Hp. rw Hp. intros [= <- <-]. split; [by eapply failed_applies|done].
Qed.

Lemma apply_remove name c r c' :
  file_wf webrtc (catFile c) →
  (applyServiceAction webrtc handlerOf name None ActionRemove;; mret ()) c = (r, c') →
  applies c (delete name) r c' ∧ panics r = false.
Proof.
  intros Hwf. unfold applyServiceAction. rw (bool_decide_eq_false_2 (ActionRemove = ActionAdd)) //.
  rw (bool_decide_eq_true_2 (ActionRemove = ActionRemove)) //.
  unfold mbind, st_bind, gets, onFile. cbn [id].
  pose proof (Delete_no_panic name (catFile c)) as Hp.
  destruct (DeleteLocalService name (catFile c)) as [r1 f1] eqn:Hdel.
  pose proof (Delete_edits _ _ _ _ Hdel) as Hed. destruct r1 as [[]|e].
  - destruct (LoadLocalServices _ _ _) as [r2 c2] eqn:Hrun.
    apply (reload_applies c f1 (delete name)) in Hrun as [-> ?]; [by intros [= <- <-]|done|].
    eapply edits_wf; [|exact Hed|done]. intros m. apply services_wf_delete.
  - intros [= <- <-]. split; [by eapply failed_applies|done].
Qed.
End laws.

(** ** Changes with their announcement *)

Section announced.
Context {W DB Cert : Type} `{!ComputeWorld W} `{!ComputeWorldLaws W} `{!Bolt DB} `{!BoltLaws DB} `{!BoltReliable DB}.
Context `{!Digest}.
Variables (nodeID address : string) (now : time).
Implicit Types (c : catalog W DB Cert).
Abbreviation server := (outboxServer nodeID address).

(** The other peers of the node. *)
Definition others c : list string := targets (server c).

Lemma others_eq c c' : catPeers c' = catPeers c → others c' = others c.
Proof. unfold others, targets, outboxServer. simpl. by intros ->. Qed.

Lemma others_nodup c : NoDup (others c).
Proof. apply targets_nodup. simpl. apply NoDup_fst_map_to_list. Qed.

Lemma catDB_with d c : catDB (with_catDB d c) = d.
Proof. done. Qed.

(** A mutation stages its announcement for every other peer, is applied, and
    reconciles the announcements when it fails. *)
Lemma commit_run kind entity payload apply c n :
  room (length (others c) + n) (catDB c) → keys_fit kind entity (others c) → canonicalEntity kind entity payload = entity →
  ∃ d l, room n d ∧ outside_kept (catDB c) d ∧ attempts_for kind entity d payload (others c) l ∧
    commitCatalogMutation nodeID address now kind entity payload apply c =
    match apply (with_catDB d c) with
    | (Ok _, c2) => (Ok [Deliver l], with_catDB (catDB c2) c2)
    | (Err (EPanic text), c2) => (Err (EPanic text), c2)
    | (Err e, c2) =>
        let '(r, c3) := finishMutation nodeID address now {| StagedKind := kind; StagedEntity := entity; Attempts := l |} false c2 in
        (Err (EJoin (e :: option_list (error_of r))), c3)
    end.
Proof.
  intros Hroom Hfit Hent.
  destruct (prepare_run now kind entity (server c) n (catDB c) payload) as (l & d & Hrun & Hr & Hl & Hk);
    [apply NoDup_fst_map_to_list|done..|].
  exists d, l. split; [done|]. split; [done|]. split; [done|].
  unfold commitCatalogMutation, prepareMutation, onStore, mbind, st_bind. rw Hrun. unfold attempt.
  destruct (apply (with_catDB d c)) as [[[]|e] c2]; [done|].
  destruct e; try done; destruct (finishMutation _ _ _ _ _ c2) as [[l'|e'] c3]; done.
Qed.

(** ** Services *)

Variable webrtc : bool.
Variable handlerOf : builtHandler → ServiceHandler W.

(** A notification that is true of the file. *)
Definition describes (f : servicesFile) (name : string) (n : notification) : Prop :=
  ∃ m, fileServices f = Some m ∧
    match default ∅ m !! name with
    | Some ls => n = ServiceNotification ActionAdd nodeID (LsSchema ls)
    | None => ∃ schema, SName schema = name ∧ n = ServiceNotification ActionRemove nodeID schema
    end.

(** Every other peer has an announcement of the service waiting that is true. *)
Definition truthful c (name : string) : Prop :=
  ∀ p, p ∈ others c → ∃ e, bget (catDB c) NotifyOutbox (outboxKey p kindService name) = Some (JDoc e) ∧
    OPeerID e = p ∧ describes (catFile c) name (OPayload e).

Lemma describes_content f f' name n : svcContent f' = svcContent f → describes f name n → describes f' name n.
Proof. unfold describes, fileServices. by intros ->. Qed.

Lemma announced_truthful c name payload :
  announced kindService name (catDB c) payload (others c) → describes (catFile c) name payload → truthful c name.
Proof. intros Ha Hd p Hp. destruct (Ha p Hp) as (e & He & Hpe & Hpl). exists e. by rw Hpl. Qed.

Lemma describes_entity f name n : describes f name n → file_wf webrtc f → canonicalEntity kindService name n = name.
Proof.
  intros (m & Hm & Hn) Hwf. assert (∃ a sch, SName sch = name ∧ n = ServiceNotification a nodeID sch) as (a & sch & Hname & ->).
  { destruct (default ∅ m !! name) as [ls|] eqn:Hls; [|naive_solver]. exists ActionAdd, (LsSchema ls). split; [|done].
    by apply (sw_name _ _ _ (Hwf m Hm name ls Hls)). }
  unfold canonicalEntity, entityFrom. rw (bool_decide_eq_false_2 (kindService = kindPipeline)) //.
  rw bool_decide_eq_true_2 // Hname. unfold nonEmpty. by case_bool_decide.
Qed.

(** What the reconciliation reads. *)
Lemma service_current c name d :
  file_wf webrtc (catFile c) →
  (∃ n, currentNotificationPayload (server c) kindService name d = (Ok (Some n), d) ∧ describes (catFile c) name n) ∨
  (∃ e, currentNotificationPayload (server c) kindService name d = (Err e, d)).
Proof.
  intros Hwf. unfold currentNotificationPayload. rw (bool_decide_eq_false_2 (kindService = kindPipeline)) //.
  rw bool_decide_eq_true_2 //. unfold mbind, st_bind, of_res. cbn [Services outboxServer]. unfold currentServices.
  destruct (LoadServicesMap (catFile c)) as [[m|e] f] eqn:Hload; [left|right; simpl; eauto].
  apply Load_spec in Hload as [_ Hm]. specialize (Hm m eq_refl). simpl. eexists. split; [done|].
  exists m. split; [done|]. rw lookup_fmap. destruct (default ∅ m !! name) as [ls|] eqn:Hls; simpl; [|by eexists; split; [|reflexivity]].
  by rw (wf_schema _ _ _ (Hwf m Hm name ls Hls)).
Qed.

Lemma fileRead_content kind c : svcContent (catFile (fileRead kind c).2) = svcContent (catFile c) ∧
  catEngine (fileRead kind c).2 = catEngine c ∧ catPeers (fileRead kind c).2 = catPeers c.
Proof.
  unfold fileRead. case_bool_decide; [|done]. unfold mbind, st_bind, attempt, onFile.
  destruct (LoadServicesMap (catFile c)) as [r f] eqn:Hload. by apply Load_spec in Hload as [[Hc _] _].
Qed.

(** A change of the services, staged, applied and reconciled. *)
Lemma commit_services name payload apply edit c r c' :
  file_wf webrtc (catFile c) → (∀ m, services_wf webrtc m → services_wf webrtc (edit m)) →
  room (2 * length (others c)) (catDB c) → keys_fit kindService name (others c) →
  canonicalEntity kindService name payload = name →
  (∀ d r1 c2, apply (with_catDB d c) = (r1, c2) →
     applies webrtc handlerOf (with_catDB d c) edit r1 c2 ∧ panics r1 = false) →
  (∀ m, fileServices (catFile c) = Some (Some m) → describes {| svcContent := Some (JDoc (Some (edit m))); svcScript := [] |} name payload) →
  commitCatalogMutation nodeID address now kindService name payload apply c = (r, c') →
  file_wf webrtc (catFile c') ∧ catPeers c' = catPeers c ∧
  match r with
  | Ok _ => truthful c' name ∧
      reloaded webrtc handlerOf (catFile c) c'
  | Err e => truthful c' name ∨ ∃ e1 e2, e = EJoin [e1; e2]
  end.
Proof.
  intros Hwf Hedit Hroom Hfit Hent Happly Hdesc. set (n := length (others c)) in *.
  destruct (commit_run kindService name payload apply c n) as (d & l & Hr & _ & Hl & ->);
    [by replace (length (others c) + n)%nat with (2 * n)%nat by lia|done|done|].
  destruct (apply (with_catDB d c)) as [r1 c2] eqn:Hap. destruct (Happly d r1 c2 Hap) as [([Hp Hj] & Hed & Hreg) Hnp].
  simpl in Hp. assert (catDB c2 = d) as Hd by (unfold catDB; by rw Hj).
  assert (file_wf webrtc (catFile c2)) as Hwf2 by (by eapply edits_wf).
  destruct r1 as [[]|e].
  - intros [= <- <-]. split; [done|]. split; [done|]. split; [|by apply Hreg].
    apply (announced_truthful _ _ payload).
    + simpl. rw (others_eq c) //. rw catDB_with Hd. by eapply attempts_announced.
    + destruct Hed as [_ [[_ [=]]|(m & Hm & Hf)]]. eapply describes_content; [|by apply Hdesc]. done.
  - intros Hrun. assert (∃ rf c3, finishMutation nodeID address now
      {| StagedKind := kindService; StagedEntity := name; Attempts := l |} false c2 = (rf, c3) ∧
      r = Err (EJoin (e :: option_list (error_of rf))) ∧ c' = c3) as (rf & c3 & Hfin & -> & ->).
    { destruct (finishMutation _ _ _ _ _ c2) as [rf c3]. exists rf, c3.
      destruct e; try done; by injection Hrun as <- <-. }
    clear Hrun. unfold finishMutation, onStore in Hfin. rw Hd in Hfin.
    destruct (finish _ _ _ _ d) as [rf' d'] eqn:Hf. injection Hfin as <- <-.
    destruct (fileRead_content kindService (with_catDB d' c2)) as (Hc3 & He3 & Hp3).
    set (c3 := (fileRead _ _).2) in *. simpl in Hp3, Hc3.
    split; [unfold file_wf, fileServices; rw Hc3; apply Hwf2|]. split; [by rw Hp3|].
    destruct (service_current c2 name d Hwf2) as [(nt & Hcur & Hnt)|[e' Hcur]].
    + left. destruct (reconcile_run now kindService name (server c2) 0 d d payload (others c) l (Some nt))
        as (l' & d'' & Hf' & Ht & _).
      * apply others_nodup.
      * by rw Nat.add_0_r.
      * done.
      * done.
      * done.
      * apply outbox_kept_refl.
      * intros ? [= <-]. by eapply describes_entity.
      * rw Hf in Hf'. injection Hf' as -> ->. apply (announced_truthful _ _ nt).
        -- rw (others_eq c); [|by rw Hp3]. unfold catDB. rw He3. exact Ht.
        -- by eapply describes_content.
    + right. unfold finish, reconcileCurrent, mbind, st_bind in Hf. cbn [StagedKind StagedEntity] in Hf. rw Hcur in Hf.
      injection Hf as <- <-. by eexists _, _.
Qed.

(** The changes a user makes. *)
Inductive serviceChange :=
  | SvcAdd (name serviceType exec desc param noRequired schemaFile : string)
  | SvcRemove (name : string).

Variable readSchemaFile : string → res ServiceSchema.
Variable readServiceFile : string → res LocalService.

Definition runChange (op : serviceChange) : ST (catalog W DB Cert) (list catalogJob) :=
  match op with
  | SvcAdd name t exec desc param noReq file =>
      LocalServiceAdd webrtc readSchemaFile readServiceFile handlerOf nodeID address now name t exec desc param noReq file
  | SvcRemove name => LocalServiceRemove webrtc handlerOf nodeID address now name
  end.

(** The service a change is about; none when its arguments are refused. *)
Definition changedService (op : serviceChange) : option string :=
  match op with
  | SvcAdd name t exec desc param noReq file =>
      match BuildLocalServiceFromArgs webrtc readSchemaFile readServiceFile name t exec desc param noReq file with
      | Ok (serviceName, _) => Some serviceName
      | Err _ => None
      end
  | SvcRemove name => Some name
  end.

Definition registry_named c : Prop := ∀ name s, registry (catEngine c) !! name = Some s → SName (schema s) = name.

Lemma service_entity name action sch :
  SName sch = name → canonicalEntity kindService name (serviceNotification nodeID action sch) = name.
Proof.
  intros Hname. unfold canonicalEntity, entityFrom. rw (bool_decide_eq_false_2 (kindService = kindPipeline)) //.
  rw bool_decide_eq_true_2 //. simpl. rw Hname. unfold nonEmpty. by case_bool_decide.
Qed.

(** C8: the cluster is told the truth about the services of a node.  On a
    database that stores what it is given, with room in the outbox for the
    announcements and keys that fit, from a services file of validated
    services that does not hold null, and whatever the file system does during
    an addition or a removal: a request refused at once changes nothing;
    otherwise the file keeps only validated services; after a success the
    registry offers exactly the file, or nothing when a call of the file system
    failed, and every other peer has an announcement waiting that is true of
    the file; after a failure the announcements are true of the file too, or
    the caller gets both errors, that of the change and that of the repair. *)
Theorem service_change_announced op c r c' :
  file_wf webrtc (catFile c) → fileServices (catFile c) ≠ Some None → registry_named c →
  room (2 * length (others c)) (catDB c) →
  (∀ name, changedService op = Some name → keys_fit kindService name (others c)) →
  runChange op c = (r, c') →
  match changedService op with
  | None => is_ok r = false ∧ c' = c
  | Some name =>
      file_wf webrtc (catFile c') ∧ catPeers c' = catPeers c ∧
      match r with
      | Ok _ => truthful c' name ∧
          reloaded webrtc handlerOf (catFile c) c'
      | Err e => truthful c' name ∨ ∃ e1 e2, e = EJoin [e1; e2]
      end
  end.
Proof.
  intros Hwf Hnull Hnamed Hroom Hfit. destruct op as [name t exec desc param noReq file|name]; simpl.
  - unfold LocalServiceAdd. simpl in Hfit.
    destruct (BuildLocalServiceFromArgs _ _ _ _ _ _ _ _ _ _) as [[sn ls]|e] eqn:Hb; [|by intros [= <- <-]].
    apply built_wf in Hb. rw (wf_schema _ _ _ Hb).
    unfold mbind at 1, st_bind. destruct (commitCatalogMutation _ _ _ _ _ _ _ c) as [rc c1] eqn:Hc.
    apply (commit_services sn _ _ (insert sn ls)) in Hc; [|done| |done|by apply Hfit| | |].
    + destruct rc; by intros [= <- <-].
    + intros m. by apply services_wf_insert.
    + apply service_entity, (sw_name _ _ _ Hb).
    + intros d r1 c2. by apply apply_add.
    + intros m _. exists (Some (<[sn := ls]> m)). split; [done|]. simpl. by rw lookup_insert_eq.
  - unfold LocalServiceRemove, mbind, st_bind, gets. cbn [id].
    set (sch := NormalizeServiceSchema name _ "").
    assert (SName sch = name) as Hsch.
    { unfold sch. rw NormalizeServiceSchema_name. unfold Registry_Get.
      destruct (registry (catEngine c) !! name) as [s|] eqn:Hs; simpl; [|done].
      rw (Hnamed name s Hs). by case_bool_decide. }
    intros Hc. apply (commit_services name _ _ (delete name)) in Hc; [done|done| |done|by apply Hfit|by apply service_entity| |].
    + intros m. apply services_wf_delete.
    + intros d r1 c2. by apply apply_remove.
    + intros m _. exists (Some (delete name m)). split; [done|]. simpl. rw lookup_delete_eq. by exists sch.
Qed.
End announced.

(** ** Runs *)

Definition ex_record : AddressRecord := {| Addresses := ["https://10.0.0.2:8443"]; Sequence := 1; IsSponsor := false |}.

(** A node [me] with one peer, [b]. *)
Definition ex_catalog (content : option (json (gomap LocalService))) (script : list outcome) : catalog sim memdb unit :=
  Build_catalog {| svcContent := content; svcScript := script |}
    (NewComputeEngine "me" (Gc.engine_with memdb_init ∅) (ComputeSim.script [] []))
    (AddPeer "b" ex_record (NewPeerRegistry "me")).2.

Definition noHandler (h : builtHandler) : ServiceHandler sim := None.
Definition noFile {A} (path : string) : res A := Err (EMsg "no such file").

Definition ex_change : serviceChange → ST (catalog sim memdb unit) (list catalogJob) :=
  runChange "me" "https://me" 0 true noHandler noFile noFile.

Definition add_grep : serviceChange := SvcAdd "grep" "script" "grep -n" "find lines" "text:string,context?:int" "" "".

(** The write of the file reports an error after it took effect: the service
    is there, the addition failed, and the peer is still told the truth. *)
Definition ex_late : res (list catalogJob) * catalog sim memdb unit :=
  ex_change add_grep (ex_catalog None [FsOk; FsOk; FsLate]).

Lemma service_change_announced_witness :
  is_ok ex_late.1 = false ∧ file_wf true (catFile ex_late.2) ∧ truthful "me" "https://me" ex_late.2 "grep".
Proof.
  split; [by vm_compute|].
  assert (ex_late.1 = Err (EJoin [EWrap "error saving services file" svcErr])) as Hrun%run_result by (vm_compute; reflexivity).
  pose proof (service_change_announced "me" "https://me" 0 true noHandler noFile noFile add_grep
                (ex_catalog None [FsOk; FsOk; FsLate]) (Err (EJoin [EWrap "error saving services file" svcErr])) ex_late.2) as H.
  assert (changedService true noFile noFile add_grep = Some "grep") as Hc by (vm_compute; reflexivity).
  rw Hc in H. destruct H as (H1 & _ & [H2|(e1 & e2 & [=])]).
  - intros m [= <-] name s. by rw lookup_empty.
  - done.
  - intros name s. by rw lookup_empty.
  - assert (length (others "me" "https://me" (ex_catalog None [FsOk; FsOk; FsLate])) = 1%nat) as Hl by (vm_compute; reflexivity).
    unfold room. rw Hl. by repeat split.
  - intros name [= <-] p. vm_compute (others _ _ _). rewrite ->elem_of_cons, elem_of_nil.
    intros [->|[]]. unfold key_fits. by vm_compute.
  - exact Hrun.
  - by split.
Defined.

(** ** Reloads that overlap, and a file that holds null *)

Definition ex_local (name : string) : LocalService :=
  {| LsType := "script"; LsExec := "run";
     LsSchema := {| SName := name; SType := "script"; SDescription := ""; SParameters := None; SOutputs := None; SUI := None |} |}.

Definition ex_file : json (gomap LocalService) := JDoc (Some {["x" := ex_local "x"; "y" := ex_local "y"]}).

Abbreviation ex_step := (reload_step (W := sim) (DB := memdb) (Cert := unit) true noHandler).

Definition ex_order : list (string * LocalService) := [("y", ex_local "y"); ("x", ex_local "x")].

(** A reload that has read the file; a removal of [x] that reloads meanwhile;
    and the first reload going on. *)
Definition ex_read : catalog sim memdb unit :=
  (onFile LoadServicesMap (onCompute ClearServices (ex_catalog (Some ex_file) [])).2).2.
Definition ex_removed : catalog sim memdb unit := (onFile (DeleteLocalService "x") ex_read).2.
Definition ex_emptied : catalog sim memdb unit := (onFile LoadServicesMap (onCompute ClearServices ex_removed).2).2.
Definition ex_settled : catalog sim memdb unit :=
  (onCompute (registerLocalService true noHandler "y" (ex_local "y")) ex_emptied).2.
Definition ex_resumed : catalog sim memdb unit :=
  (onCompute (registerLocalServices true noHandler ex_order) ex_settled).2.

Lemma ex_first_reads : rtc ex_step (Start, ex_catalog (Some ex_file) []) (Registering ex_order, ex_read).
Proof.
  eapply rtc_l; [apply reload_clear|]. apply rtc_once.
  eapply (reload_read _ _ _ (Some {["x" := ex_local "x"; "y" := ex_local "y"]})); [reflexivity|].
  assert (ex_order = map_to_list ({["x" := ex_local "x"; "y" := ex_local "y"]} : gmap string LocalService)) as ->
    by (vm_compute; reflexivity). done.
Qed.

Lemma ex_removal_reloads : rtc ex_step (Start, ex_removed) (Reloaded, ex_settled).
Proof.
  eapply rtc_l; [apply reload_clear|].
  eapply rtc_l; [eapply (reload_read _ _ _ (Some {["y" := ex_local "y"]}) ex_emptied [("y", ex_local "y")])|].
  - apply run_result. vm_compute. reflexivity.
  - assert ([("y", ex_local "y")] = map_to_list ({["y" := ex_local "y"]} : gmap string LocalService)) as ->
      by (vm_compute; reflexivity). done.
  - eapply rtc_l; [apply reload_register|]. apply rtc_once. apply reload_done.
Qed.

Lemma ex_first_resumes : rtc ex_step (Registering ex_order, ex_settled) (Reloaded, ex_resumed).
Proof.
  eapply rtc_l; [apply reload_register|]. eapply rtc_l; [apply reload_register|]. apply rtc_once.
  match goal with |- ex_step (_, ?c) _ => replace c with ex_resumed by (vm_compute; reflexivity) end.
  apply reload_done.
Qed.

(** A reload of the services is not atomic.  One that read the file before
    a removal and registers after it brings the removed service back: the node
    goes on offering a service its file no longer has. *)
Theorem overlapping_reload_resurrects :
  rtc ex_step (Start, ex_catalog (Some ex_file) []) (Registering ex_order, ex_read) ∧
  onFile (DeleteLocalService "x") ex_read = (Ok (), ex_removed) ∧
  rtc ex_step (Start, ex_removed) (Reloaded, ex_settled) ∧
  rtc ex_step (Registering ex_order, ex_settled) (Reloaded, ex_resumed) ∧
  fileServices (catFile ex_resumed) = Some (Some {["y" := ex_local "y"]}) ∧
  Registry_ListAll (registry (catEngine ex_settled)) = ["y"] ∧
  Registry_ListAll (registry (catEngine ex_resumed)) = ["x"; "y"].
Proof.
  split; [apply ex_first_reads|]. split; [apply run_result; vm_compute; reflexivity|].
  split; [apply ex_removal_reloads|]. split; [apply ex_first_resumes|].
  split; [vm_compute; reflexivity|]. split; vm_compute; reflexivity.
Qed.

(** An addition to a file that holds [null] panics, and leaves the promise of
    the service in the outbox. *)
Theorem null_services_file_panics :
  let run := ex_change add_grep (ex_catalog (Some (JDoc None)) []) in
  run.1 = Err (EPanic "assignment to entry in nil map") ∧
  svcContent (catFile run.2) = Some (JDoc None) ∧
  ∃ e sch, bget (catDB run.2) NotifyOutbox (outboxKey "b" kindService "grep") = Some (JDoc e) ∧
    OPayload e = ServiceNotification ActionAdd "me" sch.
Proof. split; [vm_compute; reflexivity|]. split; [vm_compute; reflexivity|]. eexists _, _. split; vm_compute; reflexivity. Qed.
