(* ===== verification/PipelineCatalog.v ===== *)
(** * Laws of the pipeline catalog

    The revisions in memory are the ones on disk; a change by the user leaves
    every other peer an announcement of the revision the node has then, whether
    the change was taken or refused; and a restart finds the revisions again. *)
From Stdlib Require Import Ascii String.
From S2P Require Import Prelude GoStrings Json Protocol Pipeline Bolt Vfs Sha256 Physical Journal Engine Gc Outbox.
From S2P Require Import OutboxLaws Delivery OutboxMutations PeerRegistry Tasks TaskStatus ComputeEngine ComputeSim.
From S2P Require Import EngineRuns Restart Bids Relay PeerHandlers Payload Services ServicesLaws Catalog CatalogLaws.
Local Open Scope stdpp_scope.

(** Validation reports errors, it never panics. *)
Lemma indexSteps_no_panic i l ix : panics (indexSteps i l ix) = false.
Proof. revert i ix. induction l as [|st l IH]; intros i ix; simpl; [done|]. repeat case_match; done || apply IH. Qed.

Lemma checkConnections_no_panic lookup ix l : panics (checkConnections lookup ix l) = false.
Proof.
  induction l as [|conn l IH]; [done|]. simpl.
  assert (panics (checkConnection lookup ix conn) = false) as Hc
    by (unfold checkConnection, checkPorts; repeat case_match; done).
  by destruct (checkConnection lookup ix conn).
Qed.

Lemma ValidatePipelineSchema_no_panic sch lookup : panics (ValidatePipelineSchema sch lookup) = false.
Proof.
  unfold ValidatePipelineSchema. case_match; [done|]. case_match; [done|].
  pose proof (indexSteps_no_panic 0 (Steps sch) emptyIndex) as Hi. destruct (indexSteps _ _ _); [|done].
  case_match; [done|]. apply checkConnections_no_panic.
Qed.

Lemma ValidatePipelineRevision_no_panic h a b : panics (ValidatePipelineRevision h a b) = false.
Proof. unfold ValidatePipelineRevision. by repeat case_match. Qed.

Section pipelines.
Context {W DB Cert : Type} `{!ComputeWorld W} `{!ComputeWorldLaws W} `{!Bolt DB} `{!BoltLaws DB} `{!BoltReliable DB}.
Context `{!Digest}.
Implicit Types (c : catalog W DB Cert) (e : ComputeEngine W (Engine DB)) (d : DB).

(** A revision that was taken. *)
Definition revision_valid (id : string) (sch : PipelineSchema) : Prop :=
  SchemaID sch = id ∧ (0 < SchemaVersion sch)%Z ∧ ValidatePipelineSchema sch None = Ok ().

(** Memory and disk hold the same revisions, and the runnable pipelines are
    the revisions that are not deleted. *)
Record pipelines_stored c : Prop := {
  ps_bucket : bhas (catDB c) PipelineSchemas = true;
  ps_same id : bget (catDB c) PipelineSchemas id = JDoc <$> pipelineRevisions (catEngine c) !! id;
  ps_valid id sch : pipelineRevisions (catEngine c) !! id = Some sch → revision_valid id sch;
  ps_runnable : pipelines_consistent (catEngine c) }.

(** ** Saving a revision *)

Lemma SavePipelineSchema_run sch d r d' :
  (0 < SchemaVersion sch)%Z → SavePipelineSchema sch d = (r, d') →
  match r with
  | Ok _ => (∀ k, bget d' PipelineSchemas k = if decide (SchemaID sch = k) then Some (JDoc sch) else bget d PipelineSchemas k) ∧
            (∀ b k, b ≠ PipelineSchemas → bget d' b k = bget d b k) ∧ ∀ b, bhas d' b = bhas d b
  | Err _ => d' = d
  end.
Proof.
  intros Hv. unfold SavePipelineSchema. rw NormalizePipelineSchemaVersion_id //. unfold boltPutKeyed.
  intros [([] & -> & Hrun)|(? & -> & ->)]%Update_spec; [|done].
  destruct (boltPut d _ _ _) as [d1|] eqn:Hput; simpl in Hrun; [|done]. injection Hrun as <-.
  apply boltPut_bput in Hput as [_ Hput]. split; [|split].
  - intros k. exact (bget_put _ _ _ _ _ k Hput).
  - intros b k Hb. by apply (bget_put_ne _ _ _ _ _ _ _ Hput).
  - intros b. exact (bhas_put _ _ _ _ _ b Hput).
Qed.

Lemma persist_run sch e r e' :
  (0 < SchemaVersion sch)%Z → persistRevision sch e = (r, e') →
  ∃ d, e' = set_journal (with_db d (taskJournal e)) e ∧
    match r with
    | Ok None => SavePipelineSchema sch (db (taskJournal e)) = (Ok (), d)
    | Ok (Some err) => d = db (taskJournal e) ∧ is_panic err = false
    | Err _ => False
    end.
Proof.
  intros Hv. unfold persistRevision, onJournal.
  destruct (SavePipelineSchema sch (db (taskJournal e))) as [rs d] eqn:Hs. intros [= <- <-]. exists d. split; [done|].
  pose proof (SavePipelineSchema_run _ _ _ _ Hv Hs) as Hd. by destruct rs as [[]|].
Qed.

(** ** Taking a revision *)

Definition take (sch : PipelineSchema) : ST (catalog W DB Cert) unit :=
  e ← onCompute (ApplyPipelineRevision sch (Some persistRevision)); return_error e.

(** A revision is stored, announced to memory, or refused without a trace. *)
Record taken c (sch : PipelineSchema) (r : res unit) c' : Prop := {
  tk_rest : catFile c' = catFile c ∧ catPeers c' = catPeers c ∧ registry (catEngine c') = registry (catEngine c);
  tk_outbox : outbox_kept (catDB c) (catDB c');
  tk_stored : pipelines_stored c';
  tk_result : if is_ok r then pipelineRevisions (catEngine c') !! SchemaID sch = Some sch
              else ∀ id, pipelineRevisions (catEngine c') !! id = pipelineRevisions (catEngine c) !! id }.

Lemma taken_refused c sch err c' :
  catFile c' = catFile c → catPeers c' = catPeers c → catDB c' = catDB c → registry (catEngine c') = registry (catEngine c) →
  pipelines (catEngine c') = pipelines (catEngine c) → pipelineRevisions (catEngine c') = pipelineRevisions (catEngine c) →
  pipelines_stored c → taken c sch (Err err) c'.
Proof.
  intros Hf Hp Hd Hr H1 H2 [Hb Hs Hv Hc]. split; [done|by rw Hd; apply outbox_kept_refl| |intros id; by rw H2].
  split; rw ?Hd; [done|intros id; by rw H2|by rw H2|unfold pipelines_consistent; by rw H1 H2].
Qed.

Lemma take_run sch c r c' :
  (0 < SchemaVersion sch)%Z → pipelines_stored c → take sch c = (r, c') → taken c sch r c' ∧ panics r = false.
Proof.
  intros Hv Hst. unfold take, ApplyPipelineRevision, mbind, st_bind, onCompute, gets, modify. rw !ClonePipelineSchema_id. cbn [id].
  pose proof (ValidatePipelineSchema_no_panic sch None) as Hnp.
  destruct (ValidatePipelineSchema sch None) as [[]|e1] eqn:Hval;
    [|intros [= <- <-]; split; [by apply taken_refused|done]].
  match goal with |- context [match match ?x with Some _ => _ | None => _ end with Ok _ => _ | Err _ => _ end] =>
    destruct (match x with
              | Some current => ValidatePipelineRevision PipelineSchemaHash current sch
              | None => Ok () end) as [[]|e2] eqn:Hrev end.
  2:{ intros [= <- <-]. split; [by apply taken_refused|]. clear Hnp.
      pose proof (λ cur, ValidatePipelineRevision_no_panic PipelineSchemaHash cur sch) as Hnp.
      destruct (pipelineRevisions _ !! _) as [cur|]; [|done]. specialize (Hnp cur). by rw Hrev in Hnp. }
  clear Hnp. destruct (persistRevision sch (catEngine c)) as [rp e1] eqn:Hp.
  apply persist_run in Hp as (d & -> & Hrp); [|done]. destruct rp as [[e3|]|]; [..|done].
  - destruct Hrp as [-> He3]. intros [= <- <-]. split; [by apply taken_refused|done].
  - pose proof (SavePipelineSchema_run _ _ _ _ Hv Hrp) as (Hsch & Hother & Hhas). cbn [return_error]. intros [= <- <-].
    split; [|done]. destruct Hst as [Hb Hs Hval' Hc]. split; simpl.
    + done.
    + split; [|done]. intros b k Hbk. apply Hother. by intros ->.
    + split; simpl.
      * by rw Hhas.
      * intros id. rw Hsch lookup_insert. destruct (decide _); [done|]. apply Hs.
      * intros id s' [[<- <-]|[_ Hs']]%lookup_insert_Some; [by split|by apply Hval'].
      * intros id. simpl. rw lookup_insert. destruct (decide (SchemaID sch = id)) as [<-|Hne].
        -- destruct (SchemaDeleted sch) eqn:Hd; simpl; rw ?lookup_delete_eq ?lookup_insert_eq; by rw Hd.
        -- rw -(Hc id). destruct (SchemaDeleted sch); [by rw lookup_delete_ne|by rw lookup_insert_ne].
    + by rw lookup_insert_eq.
Qed.

(** ** What the store tells *)

(** A stored revision needs no upgrade: loading gives the revisions back. *)
Lemma Load_stored c : pipelines_stored c → LoadPipelineSchemas (catDB c) = (Ok (pipelineRevisions (catEngine c)), catDB c).
Proof.
  intros [Hb Hs Hv _]. unfold LoadPipelineSchemas.
  destruct (boltLoadMapJSON_ok PipelineSchemas (λ v, v) (catDB c) Hb) as [m Hm].
  { intros k raw. rw Hs. destruct (pipelineRevisions (catEngine c) !! k) as [sch|]; [|done]. intros [= <-]. by exists sch. }
  assert (m = pipelineRevisions (catEngine c)) as ->.
  { apply map_eq. intros k. pose proof (boltLoadMapJSON_spec _ _ _ _ Hm k) as Hk. rw Hs in Hk.
    destruct (pipelineRevisions (catEngine c) !! k) as [sch|]; simpl in Hk; [|done]. by destruct Hk as (v & [= <-] & Hk). }
  rw Hm. match goal with |- context [filter ?P (sorted_pairs ?m)] => assert (filter P (sorted_pairs m) = []) as -> end; [|done].
  apply elem_of_nil_inv. intros [k sch] [Hne Hin]%list_elem_of_filter. apply sorted_pairs_elem in Hin. simpl in Hne.
  destruct Hne. by rw NormalizePipelineSchemaVersion_id; [|by apply (Hv k)].
Qed.

Variables (nodeID address : string) (now : time).

(** The announcement of a revision. *)
Definition announcement (o : option PipelineSchema) : option notification :=
  (λ sch, PipelineNotification (if SchemaDeleted sch then ActionRemove else ActionAdd) nodeID sch) <$> o.

Lemma pipeline_current c id :
  pipelines_stored c →
  currentNotificationPayload (outboxServer nodeID address c) kindPipeline id (catDB c) =
    (Ok (announcement (pipelineRevisions (catEngine c) !! id)), catDB c).
Proof.
  intros Hst. unfold currentNotificationPayload. rw bool_decide_eq_true_2 //. unfold mbind, st_bind. rw (Load_stored c Hst).
  destruct (pipelineRevisions (catEngine c) !! id) as [sch|] eqn:Hsch; [|done]. simpl.
  destruct (ps_valid _ Hst id sch Hsch) as (_ & Hv & _). by rw (proj2 (Z.leb_gt _ _) Hv).
Qed.

Lemma pipeline_entity action sch : canonicalEntity kindPipeline (SchemaID sch) (PipelineNotification action nodeID sch) = SchemaID sch.
Proof. unfold canonicalEntity, entityFrom. rw bool_decide_eq_true_2 //. unfold nonEmpty. by case_bool_decide. Qed.

(** The pipelines do not depend on the outbox. *)
Lemma stored_outside c d : outside_kept (catDB c) d → pipelines_stored c → pipelines_stored (with_catDB d c).
Proof.
  intros [Hf Hh] [Hb Hs Hv Hc]. split; simpl; [by rw Hh|intros id; by rw Hf|done|done].
Qed.

Lemma stored_same c c' :
  catEngine c' = catEngine c → pipelines_stored c → pipelines_stored c'.
Proof. intros He [Hb Hs Hv Hc]. unfold catDB in *. split; unfold catDB; rw He; done. Qed.

(** ** A change of a pipeline *)

Lemma commit_pipeline sch action apply c r c' :
  pipelines_stored c → room (2 * length (others nodeID address c)) (catDB c) →
  keys_fit kindPipeline (SchemaID sch) (others nodeID address c) →
  (∀ d, apply (with_catDB d c) = take sch (with_catDB d c)) → (0 < SchemaVersion sch)%Z →
  action = (if SchemaDeleted sch then ActionRemove else ActionAdd) →
  commitCatalogMutation nodeID address now kindPipeline (SchemaID sch) (pipelineNotification nodeID action sch) apply c = (r, c') →
  pipelines_stored c' ∧
  told kindPipeline (SchemaID sch) (catDB c') (announcement (pipelineRevisions (catEngine c') !! SchemaID sch)) (others nodeID address c) ∧
  if is_ok r then pipelineRevisions (catEngine c') !! SchemaID sch = Some sch
  else ∀ id, pipelineRevisions (catEngine c') !! id = pipelineRevisions (catEngine c) !! id.
Proof.
  intros Hst Hroom Hfit Happly Hv Hact. set (n := length (others nodeID address c)) in *.
  destruct (commit_run nodeID address now kindPipeline (SchemaID sch) (pipelineNotification nodeID action sch) apply c n)
    as (d & l & Hr & Hk & Hl & ->);
    [by replace (length (others nodeID address c) + n)%nat with (2 * n)%nat by lia|done|apply pipeline_entity|].
  rw Happly. destruct (take sch (with_catDB d c)) as [r1 c2] eqn:Htake.
  destruct (take_run sch _ _ _ Hv (stored_outside c d Hk Hst) Htake) as [[(Hf & Hp & _) Hob Hst2 Hres] Hnp].
  simpl in Hp, Hob, Hres. rw catDB_with in Hob.
  destruct r1 as [[]|e].
  - intros [= <- <-]. simpl in Hres. split; [by destruct Hst2|]. simpl. split; [|done]. rw Hres. simpl. rw -Hact catDB_with.
    eapply attempts_announced, attempts_frame; [|exact Hl]. intros p _. by apply Hob.
  - simpl in Hres.
    destruct (reconcile_run now kindPipeline (SchemaID sch) (outboxServer nodeID address c2) 0 (catDB c2) (catDB c2)
                (pipelineNotification nodeID action sch) (others nodeID address c) l
                (announcement (pipelineRevisions (catEngine c2) !! SchemaID sch))) as (l' & d' & Hfin & Ht & Hout).
    + apply others_nodup.
    + rw Nat.add_0_r. by eapply room_kept.
    + done.
    + eapply attempts_frame; [|exact Hl]. intros p _. by apply Hob.
    + by apply pipeline_current.
    + apply outbox_kept_refl.
    + intros p'. destruct (pipelineRevisions (catEngine c2) !! SchemaID sch) as [s2|] eqn:Hs2; [|done]. simpl.
      destruct (ps_valid _ Hst2 _ _ Hs2) as [Hid _]. intros [= <-]. rw -Hid. apply pipeline_entity.
    + intros Hrun. assert (r = Err (EJoin [e]) ∧ c' = with_catDB d' c2) as [-> ->].
      { unfold finishMutation, onStore in Hrun. rw Hfin in Hrun. destruct e; try done; by injection Hrun as <- <-. }
      split; [by apply stored_outside|done].
Qed.

(** The changes a user makes. *)
Inductive pipelineChange := PipeAdd (decoded : option PipelineSchema) | PipeRemove (id : string).

Definition runPipelineChange (op : pipelineChange) : ST (catalog W DB Cert) (list catalogJob) :=
  match op with
  | PipeAdd decoded => LocalPipelineAdd nodeID address now decoded
  | PipeRemove id => LocalPipelineRemove nodeID address now id
  end.

(** The revision a change proposes; none when it is refused at once. *)
Definition proposed c (op : pipelineChange) : option PipelineSchema :=
  match op with
  | PipeAdd decoded => match parseAndValidatePipeline c decoded with Ok sch => Some (withDeleted false sch) | Err _ => None end
  | PipeRemove id => if bool_decide (id = "") then None else withDeleted true <$> pipelineRevisions (catEngine c) !! id
  end.

Lemma found_revision c id :
  pipelines_stored c →
  match GetPipeline (catEngine c) id with Some sch => Some sch | None => GetPipelineRevision (catEngine c) id end =
  pipelineRevisions (catEngine c) !! id.
Proof.
  intros Hst. unfold GetPipeline, GetPipelineRevision. rw (ps_runnable _ Hst id).
  destruct (pipelineRevisions (catEngine c) !! id) as [sch|]; [|done]. simpl.
  destruct (SchemaDeleted sch); simpl; by rw ClonePipelineSchema_id.
Qed.

(** C9: the cluster is told the truth about the pipelines of a node.  On a
    database that stores what it is given, with room in the outbox for the
    announcements and keys that fit, and revisions in memory that are the ones
    on disk: an addition or removal that is refused at once (not a valid
    pipeline, or none to remove) changes nothing; after any other, the
    revisions in memory are again the ones on disk and every other peer has the
    announcement of the node's revision of that pipeline waiting (none when it
    has none): the proposed revision when the change succeeded, the one from
    before when it failed. *)
Theorem pipeline_change_announced op c r c' :
  pipelines_stored c → room (2 * length (others nodeID address c)) (catDB c) →
  (∀ sch, proposed c op = Some sch → keys_fit kindPipeline (SchemaID sch) (others nodeID address c)) →
  runPipelineChange op c = (r, c') →
  pipelines_stored c' ∧
  match proposed c op with
  | None => is_ok r = false ∧ c' = c
  | Some sch =>
      told kindPipeline (SchemaID sch) (catDB c') (announcement (pipelineRevisions (catEngine c') !! SchemaID sch))
        (others nodeID address c) ∧
      if is_ok r then pipelineRevisions (catEngine c') !! SchemaID sch = Some sch
      else ∀ id, pipelineRevisions (catEngine c') !! id = pipelineRevisions (catEngine c) !! id
  end.
Proof.
  intros Hst Hroom Hfit. destruct op as [decoded|id]; simpl.
  - unfold LocalPipelineAdd, mbind, st_bind, gets, of_res. cbn [id]. simpl in Hfit.
    destruct (parseAndValidatePipeline c decoded) as [sch|e] eqn:Hparse; [|by intros [= <- <-]].
    assert (0 < SchemaVersion (withDeleted false sch))%Z as Hv.
    { unfold parseAndValidatePipeline in Hparse. destruct decoded as [s|]; [|done].
      destruct (Server_ValidatePipelineSchema _ _); [|done]. injection Hparse as <-. apply NormalizePipelineSchemaVersion_pos. }
    intros Hc. eapply commit_pipeline in Hc; [exact Hc|done|done|by apply Hfit| |done|done].
    intros d. unfold applyPipelineAction. rw NormalizePipelineSchemaVersion_id // bool_decide_eq_true_2 //.
  - unfold LocalPipelineRemove. simpl in Hfit. case_bool_decide; [by intros [= <- <-]|].
    unfold mbind, st_bind, gets. rw (found_revision c id Hst).
    destruct (pipelineRevisions (catEngine c) !! id) as [sch|] eqn:Hsch; [|by intros [= <- <-]]. simpl in Hfit |- *.
    assert (0 < SchemaVersion (withDeleted true sch))%Z as Hv by apply (ps_valid _ Hst id sch Hsch).
    intros Hc. eapply (commit_pipeline (withDeleted true sch)) in Hc; [exact Hc|done|done|by apply Hfit| |done|done].
    intros d. unfold applyPipelineAction. rw NormalizePipelineSchemaVersion_id // bool_decide_eq_false_2 // bool_decide_eq_true_2 //.
Qed.

(** ** Announcements between nodes *)

(** A node that acknowledges an announcement has the announced revision; one
    that refuses it keeps its own. *)
Theorem schema_notify_installs (r : peerRequest Cert (string * string * PipelineSchema)) peer sch c reply c' :
  pipelines_stored c → (0 < SchemaVersion sch)%Z →
  PqBody r = Some (if SchemaDeleted sch then ActionRemove else ActionAdd, peer, sch) →
  HandleSchemaNotify r c = (Ok reply, c') →
  pipelines_stored c' ∧
  match reply with
  | Said _ => pipelineRevisions (catEngine c') !! SchemaID sch = Some sch
  | _ => ∀ id, pipelineRevisions (catEngine c') !! id = pipelineRevisions (catEngine c) !! id
  end.
Proof.
  intros Hst Hv Hbody. unfold HandleSchemaNotify, decodePeerBody. rw Hbody. unfold requirePeerCNMatchesBodyID.
  destruct (PeerCNFromTLS (PqTLS r)) as [cn|]; [|by intros [= <- <-]].
  case_bool_decide; [by intros [= <- <-]|]. rw NormalizePipelineSchemaVersion_id //.
  match goal with |- context [match ?v with Ok _ => let (_, _) := _ in _ | Err _ => _ end] => destruct v end; [|by intros [= <- <-]].
  assert (applyPipelineAction sch (if SchemaDeleted sch then ActionRemove else ActionAdd) c = take sch c) as ->.
  { unfold applyPipelineAction. rw NormalizePipelineSchemaVersion_id //. destruct (SchemaDeleted sch) eqn:Hd.
    - rw bool_decide_eq_false_2 // bool_decide_eq_true_2 //. unfold withDeleted. rw -Hd. by destruct sch.
    - rw bool_decide_eq_true_2 //. }
  destruct (take sch c) as [r1 c1] eqn:Htake. apply take_run in Htake as [[_ _ Hst1 Hres] _]; [|done..].
  destruct r1 as [[]|e]; by intros [= <- <-].
Qed.

(** ** Restart *)

Lemma register_run sch e :
  ValidatePipelineSchema sch None = Ok () → pipelineRevisions e !! SchemaID sch = None →
  ∃ e', RegisterPipeline sch e = (Ok None, e') ∧ taskJournal e' = taskJournal e ∧ world e' = world e ∧
    pipelineRevisions e' = <[SchemaID sch := sch]> (pipelineRevisions e) ∧
    pipelines e' = (if SchemaDeleted sch then delete (SchemaID sch) else <[SchemaID sch := sch]>) (pipelines e).
Proof.
  intros Hval Hnone. unfold RegisterPipeline, ApplyPipelineRevision, mbind, st_bind, gets, modify. rw !ClonePipelineSchema_id Hval.
  cbn [id]. rw Hnone. by eexists.
Qed.

Lemma registerPipelines_run l e :
  NoDup l.*1 → (∀ k sch, (k, sch) ∈ l → revision_valid k sch) → (∀ k, k ∈ l.*1 → pipelineRevisions e !! k = None) →
  pipelines_consistent e →
  ∃ e', registerPipelines l e = (Ok (), e') ∧ taskJournal e' = taskJournal e ∧ pipelines_consistent e' ∧
    ∀ k, pipelineRevisions e' !! k =
         match (list_to_map l : gmap string PipelineSchema) !! k with Some sch => Some sch | None => pipelineRevisions e !! k end.
Proof.
  revert e. induction l as [|[k sch] l IH]; intros e Hnd Hval Hnone Hc.
  { exists e. split; [done|]. split; [done|]. split; [done|]. intros k. by rw lookup_empty. }
  apply NoDup_cons in Hnd as [Hk Hnd]. destruct (Hval k sch) as (Hid & _ & Hok); [by left|]. subst k.
  destruct (register_run sch e Hok) as (e1 & Hrun & Hj & _ & Hr & Hp); [apply Hnone; by left|].
  destruct (IH e1) as (e2 & Hrun2 & Hj2 & Hc2 & Hr2); [done|intros; apply Hval; by right| | |].
  { intros k Hin. rw Hr lookup_insert_ne; [apply Hnone; by right|]. by intros <-. }
  { intros k. rw Hp Hr lookup_insert. destruct (decide (SchemaID sch = k)) as [<-|Hne].
    - destruct (SchemaDeleted sch) eqn:Hd; simpl; rw ?lookup_delete_eq ?lookup_insert_eq; by rw Hd.
    - rw -(Hc k). destruct (SchemaDeleted sch); [by rw lookup_delete_ne|by rw lookup_insert_ne]. }
  exists e2. split; [cbn [registerPipelines]; unfold mbind, st_bind; by rw Hrun|]. split; [congruence|]. split; [done|].
  intros k. rw Hr2 Hr. simpl. rw !lookup_insert. destruct (decide (SchemaID sch = k)) as [<-|]; [|done].
  by rw not_elem_of_list_to_map_1.
Qed.

(** C25: pipelines survive a restart.  A server that starts on the database of
    a stopped one has exactly its revisions and its runnable pipelines again,
    tombstones of removed pipelines included. *)
Theorem pipelines_survive_restart c w f peers :
  pipelines_stored c →
  let c0 := Build_catalog f (NewComputeEngine nodeID (taskJournal (catEngine c)) w) peers in
  ∃ c1, restorePipelines c0 = (Ok (), c1) ∧ pipelines_stored c1 ∧
    (∀ id, pipelineRevisions (catEngine c1) !! id = pipelineRevisions (catEngine c) !! id) ∧
    ∀ id, pipelines (catEngine c1) !! id = pipelines (catEngine c) !! id.
Proof.
  intros Hst c0. assert (LoadPipelineSchemas (catDB c0) = (Ok (pipelineRevisions (catEngine c)), catDB c0)) as Hload
    by exact (Load_stored c Hst).
  unfold restorePipelines, mbind, st_bind, attempt, onStore, gets, onCompute. rw Hload.
  set (e0 := catEngine (with_catDB (catDB c0) c0)). set (l := rangeOrder _ _ _).
  assert (l ≡ₚ map_to_list (pipelineRevisions (catEngine c))) as Hl by apply rangeOrder_perm.
  destruct (registerPipelines_run l e0) as (e1 & Hrun & Hj & Hc & Hr).
  - rw Hl. apply NoDup_fst_map_to_list.
  - intros k sch Hin. rewrite ->Hl in Hin. apply elem_of_map_to_list in Hin. by apply (ps_valid _ Hst).
  - intros k _. apply lookup_empty.
  - intros k. simpl. by rw !lookup_empty.
  - assert (∀ id, pipelineRevisions e1 !! id = pipelineRevisions (catEngine c) !! id) as Hsame.
    { intros id. rw Hr. rw (list_to_map_proper l (map_to_list (pipelineRevisions (catEngine c)))) //;
        [|rw Hl; apply NoDup_fst_map_to_list].
      rw list_to_map_to_list. by destruct (pipelineRevisions (catEngine c) !! id). }
    rw Hrun. eexists. split; [done|]. simpl. split; [|split; [done|]].
    + assert (db (taskJournal e1) = catDB c) as Hd by (by rw Hj).
      destruct Hst as [Hb Hs Hv _]. unfold catDB in *. split; unfold catDB; simpl; rw ?Hd; [done|intros id; by rw Hs Hsame| |done].
      intros id sch. rw Hsame. apply Hv.
    + intros id. rw (Hc id) Hsame. by rw (ps_runnable _ Hst id).
Qed.
End pipelines.

(** ** Runs *)

Definition ex_pipe : PipelineSchema :=
  {| SchemaID := "p"; SchemaVersion := 0; Steps := [{| StepID := "s"; StepService := "x"; StepTargetNodeID := "" |}];
     Connections := []; SchemaDeleted := false |}.

Lemma ex_stored : pipelines_stored (ex_catalog None []).
Proof.
  split; [done|intros id; simpl; by rw !lookup_empty|intros id sch; simpl; by rw lookup_empty|].
  intros id. simpl. by rw !lookup_empty.
Qed.

Definition ex_added : res (list catalogJob) * catalog sim memdb unit :=
  runPipelineChange "me" "https://me" 0 (PipeAdd (Some ex_pipe)) (ex_catalog None []).

Lemma pipeline_change_announced_witness :
  pipelines_stored ex_added.2 ∧
  told kindPipeline "p" (catDB ex_added.2) (announcement "me" (pipelineRevisions (catEngine ex_added.2) !! "p")) ["b"] ∧
  pipelineRevisions (catEngine ex_added.2) !! "p" = Some (withDeleted false (NormalizePipelineSchemaVersion ex_pipe)).
Proof.
  assert (others "me" "https://me" (ex_catalog None []) = ["b"]) as Ho by (vm_compute; reflexivity).
  assert (is_ok ex_added.1 = true) as Hok by (vm_compute; reflexivity).
  assert (proposed (ex_catalog None []) (PipeAdd (Some ex_pipe)) = Some (withDeleted false (NormalizePipelineSchemaVersion ex_pipe)))
    as Hp by (vm_compute; reflexivity).
  pose proof (pipeline_change_announced "me" "https://me" 0 (PipeAdd (Some ex_pipe)) (ex_catalog None []) ex_added.1 ex_added.2) as H.
  rw Hp Hok Ho in H. apply H.
  - exact ex_stored.
  - unfold room. by repeat split.
  - intros sch [= <-] p. rewrite ->elem_of_cons, elem_of_nil. intros [->|[]]. unfold key_fits. by vm_compute.
  - apply (run_result ex_added). done.
Defined.

(** A node with a pipeline, and with its tombstone. *)
Definition ex_taken : catalog sim memdb unit :=
  (take (withDeleted true (NormalizePipelineSchemaVersion ex_pipe)) (ex_catalog None [])).2.

Lemma ex_taken_stored : pipelines_stored ex_taken.
Proof.
  eapply (tk_stored _ (withDeleted true (NormalizePipelineSchemaVersion ex_pipe))), take_run; [done|apply ex_stored|].
  by apply run_result.
Qed.

Lemma pipelines_survive_restart_witness :
  pipelineRevisions (catEngine ex_taken) !! "p" = Some (withDeleted true (NormalizePipelineSchemaVersion ex_pipe)) ∧
  ∃ c1, restorePipelines (Build_catalog (catFile ex_taken)
          (NewComputeEngine "me" (taskJournal (catEngine ex_taken)) (script [] [])) (catPeers ex_taken)) = (Ok (), c1) ∧
    pipelines_stored c1 ∧
    (∀ id, pipelineRevisions (catEngine c1) !! id = pipelineRevisions (catEngine ex_taken) !! id) ∧
    ∀ id, pipelines (catEngine c1) !! id = pipelines (catEngine ex_taken) !! id.
Proof.
  split; [vm_compute; reflexivity|].
  apply (pipelines_survive_restart "me" ex_taken (script [] []) (catFile ex_taken) (catPeers ex_taken)).
  exact ex_taken_stored.
Defined.
